(* ===== verification/_CoqProject ===== *)
-Q . S2P
Prelude.v
RustStr.v
Errors.v
Net.v
PieceMap.v
Ranges.v
Segment.v
Scheduler.v
SchedInv.v
SchedSpec.v
Planner.v
Reserve.v
Assign.v
Dynamic.v
SchedProps.v
AssignProps.v
Cache.v
Writer.v
WriterInv.v
WriterProps.v
WriterRun.v
Flow.v
Retry.v
Response.v
RangeValidate.v
Control.v
Resume.v
Checkpoint.v
Filename.v
Checksum.v
OutputFile.v
Config.v
Request.v
Hedge.v
Workers.v
Owned.v
WorkersInv.v
Sessions.v
Multi.v
WriterStream.v
Single.v
SingleInv.v
SingleProps.v
Download.v
DownloadInv.v
DownloadProps.v
Float64.v
Progress.v
IpPolicy.v
IpPolicyProps.v
Clients.v
Manager.v
Callback.v
BodySink.v
Head.v
Pools.v
Driver.v
DriverInv.v
DriverSteps.v
DriverRuns.v
DriverProps.v
Wakeup.v
Pending.v
Recovered.v
RecoveredProps.v
Observation.v
RateLimiter.v
ObservationProps.v
Recovery.v
RecoveryProps.v
RecoveryRun.v
Pool.v
PoolProps.v
IpText.v
Http.v
Dns.v
Transport.v
HttpProps.v
