(* ===== verification/Prelude.v ===== *)
(** * bytehaul: a verification library for the download engine

    bytehaul downloads one file at a time over one or several HTTP connections, survives
    interruptions through a control file beside the output, and runs its transfers on a
    libcurl driver thread.  This library models the engine ([src/src/]) as executable
    definitions and proves what makes it correct.

    ** The parts and how they interact

    A [Downloader] ([manager.rs]) runs each download as a task.  A task is a session
    ([session/mod.rs]): it looks for a control file ([session/resume.rs],
    [storage/control.rs]), asks the server what it serves, opens the output
    ([storage/file.rs]) and runs a transfer.  A multi-connection transfer
    ([session/multi.rs], [session/multi/worker.rs]) takes leases on byte ranges from the
    scheduler ([scheduler.rs], [storage/piece_map.rs]), sends what it receives through a
    bounded channel ([session/flow.rs]) to the writer task ([storage/writer.rs],
    [storage/cache.rs]) and completes a lease once the writer has acknowledged it; a
    monitor saves checkpoints.  A single-connection transfer ([session/single.rs]) writes
    one stream.  Workers watch how fast their requests are and give slow ones up, within
    a budget ([session/multi/worker/recovery.rs]).  A request follows redirects
    ([http/worker.rs]), is looked up ([network/dns.rs]) and translated to options of
    libcurl ([network/curl/transport.rs]), and goes to a driver thread that owns
    libcurl's handles ([network/curl/driver/mod.rs]) and picks the address a connection
    goes to ([network/curl/ip_policy.rs]).

    ** Files

    Foundations.
    - [Prelude]: machine integers with their wrap-around, sums and searches, sorted
      collections, the state-and-error monad, tactics and hints.
    - [RustStr]: the string functions of Rust's standard library.
    - [Errors] ([error.rs]): error values and which of them are retried.
    - [Float64]: binary64 arithmetic by computation, durations.
    - [Net], [IpText]: addresses of the standard library, their order and their text.

    Scheduling ([scheduler.rs], [storage/piece_map.rs], [storage/segment.rs]).
    - [PieceMap]: which pieces are complete; [PieceMap_wf] ties counters to bits.
    - [Ranges]: sets of byte ranges, equal to the sets they denote.
    - [Segment], [Scheduler], [Planner]: leases, and every way requests are planned.
    - [SchedInv], [SchedSpec], [Reserve], [Assign], [Dynamic]: the invariant, and the
      specification in which every byte is missing, leased or acknowledged.
    - [SchedProps], [AssignProps]: the scheduler refines that specification; leases are
      exclusive; work that is there is found.

    Writing ([storage/cache.rs], [storage/writer.rs], [session/flow.rs]).
    - [Cache], [Writer]: buffers, commands, every I/O call with its failure.  As with
      tokio's file, a write is in flight until the next call on the handle, which waits
      for it and reports its error; [dropped] is the file once a dropped writer's last
      write has ended, which the model takes to be before the file is opened again.
    - [WriterInv], [WriterProps], [WriterRun], [WriterStream]: an acknowledged byte is in
      the file or in the write in flight, one that is in the file stays, a synced one is
      durable; memory stays within its bound.
    - [Flow]: producers that wait for permits and for a slot of the channel, and the
      writer: permits are conserved, and the system stops only when nothing is in transit.

    Requests ([http/response.rs], [session/range_validate.rs], [session/retry.rs],
    [session/multi/worker/request.rs]).
    - [Response], [RangeValidate], [Retry], [Request], [Hedge].

    Storage between sessions ([storage/control.rs], [session/resume.rs],
    [storage/file.rs], [filename.rs], [checksum.rs], [config.rs]).
    - [Control]: the format, the atomic save; [Resume]: what is continued from;
      [Checkpoint]: checkpoints against the scheduler and the writer; [OutputFile],
      [Filename], [Checksum], [Config].

    Sessions.
    - [Workers], [Owned], [WorkersInv], [Sessions], [Multi]: the workers, the writer and
      the checkpoints interleaved, shown to be runs of the model in [Checkpoint].
    - [Single], [SingleInv], [SingleProps]: transfers over one connection.
    - [Download], [DownloadInv], [DownloadProps]: whole sessions, one after the other.
    - [Pending], [Recovered], [RecoveredProps]: the queue of recovered ranges, composed
      with the workers.  [Pool], [PoolProps]: how the workers share permits, sleep and
      wake each other, on top of that.
    - [Observation], [ObservationProps]: what is measured of a request, and when it counts
      as slow.  [Recovery], [RecoveryProps]: the tick of an attempt, hand-offs, lineages,
      when an attempt is given up.  [RecoveryRun]: ticks, bodies, challengers and
      settlements interleaved, and the budget they keep.  [RateLimiter]
      ([rate_limiter.rs]).
    - [Progress] ([progress.rs], [eta.rs]), [Manager], [Callback], [Clients]
      ([manager.rs], [network.rs]): tasks, the fair queue for permits, published states,
      panics, progress callbacks, the client cache.

    The network.
    - [Http] ([http/request.rs], [http/worker.rs]), [Dns], [Transport]: a request from the
      session to the driver; [HttpProps]: what of it reaches libcurl.
    - [IpPolicy], [IpPolicyProps]: choosing an address.
    - [BodySink]: the channel between libcurl's callback and the consumer.
    - [Head]: the parser of response heads, equal to a reference on header blocks.
    - [Pools]: connection pools; [Driver]: the handlers of the driver thread.
    - [DriverInv], [DriverSteps], [DriverRuns], [DriverProps]: its invariant and what
      follows from it.  [Wakeup]: its command queue and how it waits.

    ** How code becomes definitions

    A method is a function on the record that models its object; [&mut self] is explicit
    state passing, [Result] is [result], [Option] is [option].  A section under a mutex
    is one step.  Concurrency is a step relation over the interleavings of such steps.
    What the environment decides (clock readings, random numbers, answers of servers and
    of libcurl, the outcome of each system call, the iteration order of a [HashMap]) is
    an argument, so that a theorem holds for every such behaviour.  [u64] values are [Z]
    with the wrapping operators of this file; [usize] counts are [nat].  Library code
    (bincode, crc32fast, the digests, bit vectors, the url and http crates, [f64::powf])
    is a class or a section variable with the documented law that is used, and every
    theorem about it has a witness with a concrete instance.  A tick of an attempt reads
    the clock once and is one step.  Of libcurl's [poll] the model uses that a wakeup ends
    the current or the next call; of tokio's [Notify], that it wakes the futures enabled
    before the call; of its [Semaphore], that permits are handed out in the order of the
    queue.

    ** What the theorems show

    - Data: a session that succeeds has put the object on stable storage, and a control
      file never promises more than the disk holds ([Multi], [SingleProps], [Control]);
      across sessions this holds for histories of one specification with resume on,
      which began without a control file, whose control file can be read and deleted, and
      whose server keeps its word about its objects ([DownloadProps]).
    - Protocols: the scheduler refines its byte-status specification; the workers'
      protocol refines the checkpoint model; the writer's acknowledgements mean what the
      workers take them for ([SchedProps], [Sessions], [WriterRun]).
    - Liveness and termination: assignments are found, workers never all sleep before the
      transfer is complete, retries are bounded, budgets never block for good, paused
      bodies are resumed, no wakeup of the driver is lost, its callers are always
      answered.
    - Resources: permits, address reservations, attempt records and idle sockets are
      accounted for in every run; the extra traffic of recovery stays within its budget,
      and requests are given up only after sustained slowness.
    - Requests: what the session asks for is what libcurl is told to ask for, over the
      configured route and within the time that is left ([HttpProps]).
    - Inputs: which responses, names, control files and configurations are accepted.
    - Where the code falls short, a theorem or an example exhibits it: a control file left
      beside a truncated output ([DownloadProps]), a map read as a prefix ([Resume]), a
      head taken for the answer to CONNECT ([Head]), a permit dropped without a
      notification ([PoolProps]).

    ** Bounds and fuel

    Loops over data are structural.  Loops that the environment drives (retries, bodies,
    reads of a file, preallocation) run over the list of what the environment supplies
    or with the code's own bound, and a theorem says that they end with a result.
    Counters are unbounded where the code would need 2^64 steps to reach their width;
    where a statement needs that, it says so ([w_steps], [dr_policy_calls], the lease
    counter, which saturates).

    ** Not modelled

    - The network itself: lookups by the resolver library, libcurl and the servers are
      inputs.
    - [TimingDiagnostics], counters, logging and benchmark statistics: they are written
      and never read by the engine.
    - [http/body.rs], a wrapper of the body channel; [network/curl/runtime.rs], a report
      of the linked library; [pool_semantics.rs], compiled for tests only.
    - The builder methods and getters of [config.rs] and [manager.rs], which set or read
      one field.
    - The Python bindings, benchmarks, examples and tests. *)

From Stdlib Require Export ZArith Lia.
From stdpp Require Export base list gmap numbers option sorting strings.

#[global] Open Scope Z_scope.

(** ** Machine integers

    [u64] and [u32] values are [Z]; a plain Rust operator on [u64] is written
    with its wrap-around, a [saturating_*] or [checked_*] call with its own
    definition.  [usize] values count or index in-memory collections and are
    [nat] (64-bit targets). *)

Definition u64_max : Z := 2 ^ 64 - 1.

Definition u32_max : Z := 2 ^ 32 - 1.

Definition wrap64 (z : Z) : Z := z mod 2 ^ 64.

Definition wrap32 (z : Z) : Z := z mod 2 ^ 32.

Definition u64_add (a b : Z) : Z := wrap64 (a + b).

Definition u64_sub (a b : Z) : Z := wrap64 (a - b).

Definition u64_mul (a b : Z) : Z := wrap64 (a * b).

Definition sat_add64 (a b : Z) : Z := Z.min (a + b) u64_max.

Definition sat_sub64 (a b : Z) : Z := Z.max 0 (a - b).

Definition sat_mul64 (a b : Z) : Z := Z.min (a * b) u64_max.

Definition sat_add32 (a b : Z) : Z := Z.min (a + b) u32_max.

Definition checked_sub64 (a b : Z) : option Z :=
  if a <? b then None else Some (a - b).

Definition checked_add64 (a b : Z) : option Z :=
  if a + b <=? u64_max then Some (a + b) else None.

(** [u64::div_ceil]: quotient plus one when the remainder is positive. *)
Definition div_ceil (a b : Z) : Z :=
  if 0 <? a mod b then a / b + 1 else a / b.

Declare Scope u64_scope.
Delimit Scope u64_scope with u64.
Infix "⊕" := u64_add (at level 50, left associativity) : u64_scope.
Infix "⊖" := u64_sub (at level 50, left associativity) : u64_scope.
Infix "⊗" := u64_mul (at level 40, left associativity) : u64_scope.
#[global] Open Scope u64_scope.

(** A value that a [u64] can hold. *)
Definition u64 (z : Z) : Prop := 0 <= z <= u64_max.

Create HintDb bytehaul.

Lemma wrap64_small z : 0 <= z < 2 ^ 64 -> wrap64 z = z.
Proof. intros H. unfold wrap64. by apply Z.mod_small. Qed.

Lemma wrap64_range z : 0 <= wrap64 z < 2 ^ 64.
Proof. unfold wrap64. apply Z.mod_pos_bound. lia. Qed.

Lemma u64_add_exact a b : 0 <= a + b < 2 ^ 64 -> a ⊕ b = a + b.
Proof. apply wrap64_small. Qed.

Lemma u64_sub_exact a b : 0 <= a - b < 2 ^ 64 -> a ⊖ b = a - b.
Proof. apply wrap64_small. Qed.

Lemma u64_mul_exact a b : 0 <= a * b < 2 ^ 64 -> a ⊗ b = a * b.
Proof. apply wrap64_small. Qed.

(** Rewrites every wrapping operator whose exact value provably fits. *)
Ltac u64_exact :=
  unfold u64, u64_max in *;
  repeat first
    [ rewrite u64_add_exact by (unfold u64_max in *; nia)
    | rewrite u64_sub_exact by (unfold u64_max in *; nia)
    | rewrite u64_mul_exact by (unfold u64_max in *; nia) ].

Lemma div_ceil_spec a b :
  0 <= a -> 0 < b -> a <= div_ceil a b * b < a + b.
Proof.
  intros Ha Hb. unfold div_ceil.
  pose proof (Z.div_mod a b ltac:(lia)) as E.
  pose proof (Z.mod_pos_bound a b Hb).
  destruct (Z.ltb_spec 0 (a mod b)); nia.
Qed.

Lemma div_ceil_nonneg a b : 0 <= a -> 0 < b -> 0 <= div_ceil a b.
Proof. intros Ha Hb. pose proof (div_ceil_spec a b Ha Hb). nia. Qed.

(** [div_ceil] is the least quotient that covers [a]. *)
Lemma div_ceil_le a b q : 0 <= a -> 0 < b -> a <= q * b -> div_ceil a b <= q.
Proof. intros Ha Hb Hq. pose proof (div_ceil_spec a b Ha Hb). nia. Qed.

(** ** Methods that mutate their receiver and may return early

    A Rust method [fn f(&mut self, ..) -> Option<A>] is a function from the
    state to the result and the state it leaves, also when the result is [None].
    [let?] is the [?] operator. *)

Definition StateOpt (S A : Type) : Type := S -> option A * S.

Definition some {S A} (a : A) : StateOpt S A := fun s => (Some a, s).

Definition none {S A} : StateOpt S A := fun s => (None, s).

Definition try_bind {S A B} (m : StateOpt S A) (k : A -> StateOpt S B) : StateOpt S B :=
  fun s => match m s with
           | (Some a, s') => k a s'
           | (None, s') => (None, s')
           end.

Definition get_state {S} : StateOpt S S := fun s => (Some s, s).

Definition put_state {S} (s : S) : StateOpt S unit := fun _ => (Some tt, s).

(** A pure [Option] value under [?]. *)
Definition lift_option {S A} (o : option A) : StateOpt S A := fun s => (o, s).

Notation "'let?' x ':=' m 'in' k" := (try_bind m (fun x => k))
  (at level 10, x name, m at level 100, k at level 200).

(** The keys of a [BTreeMap] in iteration order, and those of a sub-range. *)
Definition btree_keys {A} (m : gmap nat A) : list nat :=
  merge_sort le (map_to_list m).*1.

Definition btree_range {A} (m : gmap nat A) (lo hi : nat) : list nat :=
  filter (fun k => lo <= k < hi)%nat (btree_keys m).

(** ** Bit vectors

    A [BitVec] is the list of its bits; [first_one] and [first_zero] are the
    scans the scheduler runs over a slice. *)

Fixpoint first_one (bits : list bool) : option nat :=
  match bits with
  | [] => None
  | true :: _ => Some 0%nat
  | false :: rest => S <$> first_one rest
  end.

Definition first_zero (bits : list bool) : option nat :=
  first_one (negb <$> bits).

Lemma first_one_Some bits i :
  first_one bits = Some i <->
  bits !! i = Some true /\ forall j, (j < i)%nat -> bits !! j = Some false.
Proof.
  revert i. induction bits as [|b bits IH]; intros i; simpl.
  - split; [done | intros [? _]; done].
  - destruct b.
    + split.
      * intros [= <-]. split; [done | lia].
      * intros [Hi Hlt]. destruct i as [|i]; [done|].
        specialize (Hlt 0%nat ltac:(lia)). done.
    + destruct (first_one bits) as [k|] eqn:E; simpl; split.
      * intros [= <-]. destruct (proj1 (IH k) eq_refl) as [Hk Hlt].
        split; [done|]. intros [|j] Hj; [done|]. apply Hlt. lia.
      * intros [Hi Hlt]. destruct i as [|i]; [done|]. simpl in Hi.
        assert (Some k = Some i) as [= ->]; [|done].
        apply IH. split; [done|]. intros j Hj. apply (Hlt (S j)). lia.
      * done.
      * intros [Hi Hlt]. destruct i as [|i]; [done|]. simpl in Hi.
        assert (None = Some i) as E'; [|done].
        apply IH. split; [done|]. intros j Hj. apply (Hlt (S j)). lia.
Qed.

Lemma first_one_None bits :
  first_one bits = None <-> forall i, bits !! i <> Some true.
Proof.
  induction bits as [|b bits IH]; simpl.
  - split; [|done]. intros _ i. by rewrite lookup_nil.
  - destruct b.
    + split; [done|]. intros H. by destruct (H 0%nat).
    + destruct (first_one bits) as [k|] eqn:E; simpl.
      * split; [done|]. intros H. exfalso.
        apply first_one_Some in E as [E _]. by apply (H (S k)).
      * split; [|done]. intros _ [|i]; [done|]. by apply IH.
Qed.

Lemma first_zero_Some (bits : list bool) i :
  first_zero bits = Some i <->
  bits !! i = Some false /\ forall j, (j < i)%nat -> bits !! j = Some true.
Proof.
  unfold first_zero. rewrite first_one_Some.
  assert (forall j b, (negb <$> bits) !! j = Some b <-> bits !! j = Some (negb b)) as H.
  { intros j b. rewrite list_lookup_fmap. destruct (bits !! j) as [[|]|], b; simpl; by split. }
  rewrite H. setoid_rewrite H. done.
Qed.

Lemma first_zero_None (bits : list bool) : first_zero bits = None -> forall i, bits !! i <> Some false.
Proof.
  unfold first_zero. rewrite first_one_None. intros H i E. apply (H i).
  by rewrite list_lookup_fmap, E.
Qed.

(** The run of ones that starts at a set bit. *)
Lemma ones_run (bits : list bool) a :
  bits !! a = Some true ->
  let e := match first_zero (drop a bits) with Some o => (a + o)%nat | None => length bits end in
  (a < e <= length bits)%nat /\ forall k, (a <= k < e)%nat -> bits !! k = Some true.
Proof.
  intros Ha. pose proof (lookup_lt_Some _ _ _ Ha) as Hl. simpl.
  destruct (first_zero (drop a bits)) as [o|] eqn:E.
  - apply first_zero_Some in E as [Eo Hj]. rewrite lookup_drop in Eo.
    pose proof (lookup_lt_Some _ _ _ Eo). destruct o; [by rewrite Nat.add_0_r, Ha in Eo|].
    split; [lia|]. intros k Hk. specialize (Hj (k - a)%nat ltac:(lia)).
    rewrite lookup_drop in Hj. by replace (a + (k - a))%nat with k in Hj by lia.
  - split; [lia|]. intros k Hk. destruct (lookup_lt_is_Some_2 bits k ltac:(lia)) as [b Hb].
    destruct b; [done|]. exfalso. apply (first_zero_None _ E (k - a)%nat).
    rewrite lookup_drop. by replace (a + (k - a))%nat with k by lia.
Qed.

(** ** Finite sums *)

(** [nsum f n] is [f 0 + ... + f (n - 1)]. *)
Fixpoint nsum (f : nat -> nat) (n : nat) : nat :=
  match n with
  | O => O
  | S n' => (nsum f n' + f n')%nat
  end.

Lemma nsum_ext f g n : (forall i, (i < n)%nat -> f i = g i) -> nsum f n = nsum g n.
Proof.
  induction n as [|n IH]; intros H; simpl; [done|].
  rewrite IH, H by (intros; try apply H; lia). done.
Qed.

Lemma nsum_ge f n i : (i < n)%nat -> (f i <= nsum f n)%nat.
Proof.
  induction n as [|n IH]; intros Hi; simpl; [lia|].
  destruct (decide (i = n)) as [->|]; [lia|]. specialize (IH ltac:(lia)). lia.
Qed.

Lemma nsum_zero f n : nsum f n = 0%nat <-> forall i, (i < n)%nat -> f i = 0%nat.
Proof.
  induction n as [|n IH]; simpl; split.
  - intros _ i Hi. lia.
  - done.
  - intros H i Hi. destruct (decide (i = n)) as [->|]; [lia|].
    apply IH; lia.
  - intros H. rewrite (proj2 IH) by (intros; apply H; lia).
    rewrite H; lia.
Qed.

(** Changing one summand moves the sum by the difference. *)
Lemma nsum_update f g n i :
  (i < n)%nat -> (forall j, j <> i -> f j = g j) ->
  (nsum f n + g i = nsum g n + f i)%nat.
Proof.
  intros Hi Hfg. induction n as [|n IH]; [lia|]. simpl.
  destruct (decide (i = n)) as [->|Hne].
  - rewrite (nsum_ext f g n) by (intros; apply Hfg; lia). lia.
  - rewrite (Hfg n) by congruence. specialize (IH ltac:(lia)). lia.
Qed.

(** The same sum over [Z]. *)
Fixpoint zsum (f : nat -> Z) (n : nat) : Z :=
  match n with
  | O => 0
  | S n' => zsum f n' + f n'
  end.

Lemma zsum_ext f g n : (forall i, (i < n)%nat -> f i = g i) -> zsum f n = zsum g n.
Proof.
  induction n as [|n IH]; intros H; simpl; [done|].
  rewrite IH, H by (intros; try apply H; lia). done.
Qed.

Lemma zsum_update f g n i :
  (i < n)%nat -> (forall j, j <> i -> f j = g j) ->
  zsum f n + g i = zsum g n + f i.
Proof.
  intros Hi Hfg. induction n as [|n IH]; [lia|]. simpl.
  destruct (decide (i = n)) as [->|Hne].
  - rewrite (zsum_ext f g n) by (intros; apply Hfg; lia). lia.
  - rewrite (Hfg n) by congruence. specialize (IH ltac:(lia)). lia.
Qed.

Lemma zsum_nonneg f n : (forall i, (i < n)%nat -> 0 <= f i) -> 0 <= zsum f n.
Proof.
  induction n as [|n IH]; intros H; simpl; [lia|].
  pose proof (H n ltac:(lia)). specialize (IH ltac:(intros; apply H; lia)). lia.
Qed.

Lemma zsum_le f g n : (forall i, (i < n)%nat -> f i <= g i) -> zsum f n <= zsum g n.
Proof.
  induction n as [|n IH]; intros H; simpl; [lia|].
  pose proof (H n ltac:(lia)). specialize (IH ltac:(intros; apply H; lia)). lia.
Qed.

(** ** Ordered keys *)

Lemma StronglySorted_filter_lt (P : nat -> Prop) `{!forall k, Decision (P k)} (l : list nat) :
  StronglySorted lt l -> StronglySorted lt (filter P l).
Proof.
  induction 1 as [|x l Hs IH HF]; [constructor|]. rewrite filter_cons. case_decide; [|done].
  constructor; [done|]. apply List.Forall_forall. intros y Hy%list_elem_of_In%list_elem_of_filter.
  rewrite List.Forall_forall in HF. apply HF, list_elem_of_In, Hy.
Qed.

Lemma StronglySorted_le_lt (l : list nat) : StronglySorted le l -> NoDup l -> StronglySorted lt l.
Proof.
  induction 1 as [|x l Hs IH HF]; intros ND; [constructor|]. apply NoDup_cons in ND as [Hx ND].
  constructor; [by apply IH|]. apply List.Forall_forall. intros y Hy.
  rewrite List.Forall_forall in HF. specialize (HF y Hy). apply list_elem_of_In in Hy.
  assert (x <> y) by (by intros ->). lia.
Qed.

Lemma btree_keys_sorted {A} (m : gmap nat A) : StronglySorted lt (btree_keys m).
Proof.
  unfold btree_keys. apply StronglySorted_le_lt.
  - apply (StronglySorted_merge_sort le).
  - rewrite (merge_sort_Permutation le). apply NoDup_fst_map_to_list.
Qed.

Lemma elem_of_btree_keys {A} (m : gmap nat A) k : k ∈ btree_keys m <-> is_Some (m !! k).
Proof.
  unfold btree_keys. rewrite (merge_sort_Permutation le), list_elem_of_fmap. split.
  - intros ([k' x] & -> & H%elem_of_map_to_list). by exists x.
  - intros [x H]. exists (k, x). split; [done|]. by apply elem_of_map_to_list.
Qed.

Lemma btree_range_sorted {A} (m : gmap nat A) lo hi : StronglySorted lt (btree_range m lo hi).
Proof. apply StronglySorted_filter_lt, btree_keys_sorted. Qed.

Lemma elem_of_btree_range {A} (m : gmap nat A) lo hi k :
  k ∈ btree_range m lo hi <-> (lo <= k < hi)%nat /\ is_Some (m !! k).
Proof. unfold btree_range. by rewrite list_elem_of_filter, elem_of_btree_keys. Qed.

#[export] Hint Resolve wrap64_range div_ceil_nonneg : bytehaul.
