(* ===== verification/RustStr.v ===== *)
(** * Rust strings

    A [&str] or [String] is the list of its Unicode scalar values.  The file
    holds the standard-library string functions the sources call. *)

From S2P Require Import Prelude.

Abbreviation rstr := (list Z).

(** The characters of an ASCII literal. *)
Definition str (s : string) : rstr := (fun c => Z.of_nat (Ascii.nat_of_ascii c)) <$> String.list_ascii_of_string s.

(** [char::is_whitespace]: the [White_Space] property. *)
Definition is_whitespace (c : Z) : bool :=
  ((9 <=? c) && (c <=? 13)) || (c =? 32) || (c =? 133) || (c =? 160) || (c =? 5760) ||
  ((8192 <=? c) && (c <=? 8202)) || (c =? 8232) || (c =? 8233) || (c =? 8239) ||
  (c =? 8287) || (c =? 12288).

Fixpoint trim_start_matches (p : Z -> bool) (s : rstr) : rstr :=
  match s with
  | c :: s' => if p c then trim_start_matches p s' else s
  | [] => []
  end.

Definition trim_end_matches (p : Z -> bool) (s : rstr) : rstr :=
  reverse (trim_start_matches p (reverse s)).

Definition trim (s : rstr) : rstr := trim_end_matches is_whitespace (trim_start_matches is_whitespace s).

(** [str::strip_prefix] with a string pattern. *)
Fixpoint strip_prefix (prefix s : rstr) : option rstr :=
  match prefix, s with
  | [], _ => Some s
  | p :: prefix, c :: s => if p =? c then strip_prefix prefix s else None
  | _ :: _, [] => None
  end.

(** [str::split_once] with a character pattern. *)
Fixpoint split_once (sep : Z) (s : rstr) : option (rstr * rstr) :=
  match s with
  | [] => None
  | c :: s =>
      if c =? sep then Some ([], s)
      else match split_once sep s with
           | Some (a, b) => Some (c :: a, b)
           | None => None
           end
  end.

Definition is_ascii_digit (c : Z) : bool := (48 <=? c) && (c <=? 57).

(** The digits of [u64::from_str], most significant first. *)
Fixpoint parse_digits (acc : Z) (s : rstr) : option Z :=
  match s with
  | [] => Some acc
  | c :: s =>
      if is_ascii_digit c then
        let acc' := acc * 10 + (c - 48) in
        if acc' <=? u64_max then parse_digits acc' s else None
      else None
  end.

(** [str::parse::<u64>]: one leading plus sign is accepted, an empty digit
    string and overflow are errors. *)
Definition parse_u64 (s : rstr) : option Z :=
  match s with
  | [] => None
  | c :: rest =>
      if c =? 43 then match rest with [] => None | _ => parse_digits 0 rest end
      else parse_digits 0 s
  end.

(** ** Decimal numbers *)

(** [u64] as [Display] prints it. *)
Fixpoint digits_of (fuel : nat) (n : Z) (acc : rstr) : rstr :=
  match fuel with
  | O => acc
  | S fuel =>
      let acc' := (48 + n mod 10) :: acc in
      if n / 10 =? 0 then acc' else digits_of fuel (n / 10) acc'
  end.

Definition show_u64 (n : Z) : rstr := digits_of 20 n [].

Lemma parse_digits_app acc s t :
  parse_digits acc (s ++ t) = a ← parse_digits acc s; parse_digits a t.
Proof.
  revert acc. induction s as [|c s IH]; intros acc; simpl; [done|].
  destruct (is_ascii_digit c); [|done]. destruct (_ <=? _); [apply IH|done].
Qed.

Lemma digit_char d : 0 <= d < 10 -> is_ascii_digit (48 + d) = true.
Proof. intros H. unfold is_ascii_digit. rewrite andb_true_iff, !Z.leb_le. lia. Qed.

Lemma digits_of_acc fuel n acc : digits_of fuel n acc = digits_of fuel n [] ++ acc.
Proof.
  revert n acc. induction fuel as [|fuel IH]; intros n acc; simpl; [done|].
  destruct (n / 10 =? 0); [done|].
  rewrite (IH _ (_ :: acc)), (IH _ [_]), <- app_assoc. done.
Qed.

Lemma parse_digits_of fuel n :
  0 <= n <= u64_max -> n < 10 ^ Z.of_nat fuel -> parse_digits 0 (digits_of fuel n []) = Some n.
Proof.
  revert n. induction fuel as [|fuel IH]; intros n Hn Hf.
  { simpl in *. f_equal. lia. }
  simpl. pose proof (Z.mod_pos_bound n 10 ltac:(lia)) as Hm. pose proof (Z.div_mod n 10 ltac:(lia)) as Hd.
  destruct (Z.eqb_spec (n / 10) 0) as [Ez|Ez].
  - simpl. rewrite digit_char by done. rewrite (proj2 (Z.leb_le _ _)) by lia. f_equal. lia.
  - rewrite digits_of_acc, parse_digits_app.
    assert (0 <= n / 10) by (apply Z.div_pos; lia).
    assert (n / 10 <= n) by (apply Z.div_le_upper_bound; lia).
    rewrite IH; [| lia |].
    + simpl. rewrite digit_char by done. rewrite (proj2 (Z.leb_le _ _)) by lia. f_equal. lia.
    + rewrite Nat2Z.inj_succ, Z.pow_succ_r in Hf by lia. lia.
Qed.

(** The head of a printed number is a digit. *)
Lemma digits_of_head fuel n acc :
  0 <= n -> (0 < fuel)%nat -> exists d rest, digits_of fuel n acc = d :: rest /\ is_ascii_digit d = true.
Proof.
  revert n acc. induction fuel as [|fuel IH]; intros n acc Hn Hf; [lia|]. simpl.
  pose proof (Z.mod_pos_bound n 10 ltac:(lia)). destruct (n / 10 =? 0).
  - eexists _, _. split; [done|]. by apply digit_char.
  - destruct fuel as [|fuel]; [eexists _, _; split; [done|]; by apply digit_char|].
    apply IH; [|lia]. apply Z.div_pos; lia.
Qed.

(** Printing a [u64] and parsing it back is the identity. *)
Lemma parse_show_u64 n : u64 n -> parse_u64 (show_u64 n) = Some n.
Proof.
  unfold u64. intros Hn. unfold parse_u64, show_u64.
  pose proof (parse_digits_of 20 n Hn ltac:(unfold u64_max in *; lia)) as Hp.
  destruct (digits_of_head 20 n [] ltac:(lia) ltac:(lia)) as (d & rest & E & Hd). rewrite E in *.
  destruct (Z.eqb_spec d 43) as [->|]; [done|exact Hp].
Qed.

Lemma parse_digits_range acc s n : 0 <= acc <= u64_max -> parse_digits acc s = Some n -> u64 n.
Proof.
  revert acc. induction s as [|c s IH]; intros acc Ha; simpl; [by intros [= <-]|].
  destruct (is_ascii_digit c) eqn:D; [|done]. destruct (Z.leb_spec (acc * 10 + (c - 48)) u64_max); [|done].
  apply IH. unfold is_ascii_digit in D. rewrite andb_true_iff, !Z.leb_le in D. lia.
Qed.

Lemma parse_u64_range s n : parse_u64 s = Some n -> u64 n.
Proof.
  unfold parse_u64. destruct s as [|c s]; [done|].
  destruct (c =? 43); [destruct s; [done|]|]; apply parse_digits_range; unfold u64_max; lia.
Qed.

Lemma digits_of_digits fuel n acc :
  0 <= n -> Forall (fun c => is_ascii_digit c = true) acc ->
  Forall (fun c => is_ascii_digit c = true) (digits_of fuel n acc).
Proof.
  revert n acc. induction fuel as [|fuel IH]; intros n acc Hn Ha; simpl; [done|].
  pose proof (Z.mod_pos_bound n 10 ltac:(lia)).
  assert (Forall (fun c => is_ascii_digit c = true) ((48 + n mod 10) :: acc)) by (constructor; [by apply digit_char|done]).
  destruct (n / 10 =? 0); [done|]. apply IH; [apply Z.div_pos; lia|done].
Qed.

Lemma show_u64_digits n c : u64 n -> c ∈ show_u64 n -> 48 <= c <= 57.
Proof.
  intros [Hn _] Hc. pose proof (digits_of_digits 20 n [] Hn (List.Forall_nil _)) as HF.
  apply (proj1 (List.Forall_forall _ _) HF c) in Hc || apply list_elem_of_In, (proj1 (List.Forall_forall _ _) HF c) in Hc.
  unfold is_ascii_digit in Hc. rewrite andb_true_iff, !Z.leb_le in Hc. lia.
Qed.

Lemma show_u64_not_nil n : u64 n -> show_u64 n <> [].
Proof.
  intros [Hn _]. destruct (digits_of_head 20 n [] ltac:(lia) ltac:(lia)) as (d & rest & E & _).
  unfold show_u64. by rewrite E.
Qed.

(** ** Splitting and trimming *)

Lemma split_once_app sep a b : sep ∉ a -> split_once sep (a ++ sep :: b) = Some (a, b).
Proof.
  induction a as [|c a IH]; intros Hs; simpl; [by rewrite Z.eqb_refl|].
  rewrite not_elem_of_cons in Hs. destruct Hs as [Hne Hs].
  rewrite (proj2 (Z.eqb_neq c sep)) by done. by rewrite IH.
Qed.

Lemma strip_prefix_app p s : strip_prefix p (p ++ s) = Some s.
Proof. induction p as [|c p IH]; simpl; [done|]. by rewrite Z.eqb_refl. Qed.

Lemma trim_start_id p c s : p c = false -> trim_start_matches p (c :: s) = c :: s.
Proof. intros H. simpl. by rewrite H. Qed.

(** A string without white space is its own trim. *)
Lemma trim_id s : (forall c, c ∈ s -> is_whitespace c = false) -> trim s = s.
Proof.
  intros H. unfold trim, trim_end_matches. destruct s as [|c s]; [done|].
  rewrite trim_start_id by (apply H; by left). destruct (reverse (c :: s)) as [|d r] eqn:E.
  - apply (f_equal reverse) in E. rewrite reverse_involutive in E. done.
  - rewrite trim_start_id; [by rewrite <- E, reverse_involutive|]. apply H.
    rewrite <- (reverse_involutive (c :: s)), E. apply elem_of_reverse. by left.
Qed.

Lemma trim_show_u64 n : u64 n -> trim (show_u64 n) = show_u64 n.
Proof.
  intros Hn. apply trim_id. intros c Hc%show_u64_digits; [|done]. unfold is_whitespace.
  repeat rewrite orb_false_iff. rewrite !andb_false_iff, !Z.leb_gt, !Z.eqb_neq. lia.
Qed.

(** [u8::to_ascii_lowercase] on the ASCII range *)
Definition to_ascii_lowercase (c : Z) : Z := if (65 <=? c) && (c <=? 90) then c + 32 else c.

Definition eq_ignore_ascii_case (a b : rstr) : bool :=
  bool_decide (to_ascii_lowercase <$> a = to_ascii_lowercase <$> b).

(** [str::rsplit_once] with a character pattern. *)
Definition rsplit_once (sep : Z) (s : rstr) : option (rstr * rstr) :=
  match split_once sep (reverse s) with
  | Some (a, b) => Some (reverse b, reverse a)
  | None => None
  end.
