(* ===== verification/Errors.v ===== *)
(** * Download errors ([src/error.rs])

    The error type every fallible operation returns, and the classification the
    retry policy relies on. *)

From S2P Require Import Prelude RustStr.

Inductive result (A E : Type) : Type :=
| Ok (a : A)
| Err (e : E).

#[global] Arguments Ok {A E} a.
#[global] Arguments Err {A E} e.

Inductive TransportErrorKind := Connect | Timeout | Request | Body | Other.

(** [std::io::ErrorKind]: the kinds the classification names, and the others. *)
Inductive IoErrorKind :=
| ConnectionReset
| ConnectionAborted
| TimedOut
| UnexpectedEof
| NotFound
| IoOther (code : nat).

(** The outcome of an I/O call, an input of the models; a failing write may
    have put a prefix of its data into the file. *)
Inductive IoOutcome :=
| IoOk
| IoFail (written : nat) (kind : IoErrorKind).

(** Durations are nanoseconds. *)
Inductive DownloadError :=
| Transport (kind : TransportErrorKind) (message : rstr)
| Io (kind : IoErrorKind)
| Cancelled
| Paused
| HttpStatus (status : Z) (message : rstr)
| ChannelClosed
| InvalidConfig (message : rstr)
| ResumeMismatch (message : rstr)
| ControlFileCorrupted (message : rstr)
| RetryBudgetExceeded (elapsed limit : Z)
| TaskFailed (message : rstr)
| Internal (message : rstr)
| ChecksumMismatch (expected actual : rstr).

#[export] Instance TransportErrorKind_eq_dec : EqDecision TransportErrorKind.
Proof. solve_decision. Defined.

#[export] Instance IoErrorKind_eq_dec : EqDecision IoErrorKind.
Proof. solve_decision. Defined.

#[export] Instance DownloadError_eq_dec : EqDecision DownloadError.
Proof. solve_decision. Defined.

Definition is_retryable (e : DownloadError) : bool :=
  match e with
  | Transport kind _ =>
      match kind with
      | Connect | Timeout | Request | Body => true
      | Other => false
      end
  | HttpStatus status _ =>
      (status =? 429) || (status =? 500) || (status =? 502) || (status =? 503) || (status =? 504)
  | Io kind =>
      match kind with
      | ConnectionReset | ConnectionAborted | TimedOut | UnexpectedEof => true
      | NotFound | IoOther _ => false
      end
  | _ => false
  end.

Definition retry_after_secs (e : DownloadError) : option Z :=
  match e with
  | HttpStatus status message =>
      if (status =? 429) || (status =? 503) then
        s ← strip_prefix (str "retry-after:") message; parse_u64 (trim s)
      else None
  | _ => None
  end.

(** A retry-after hint only comes with a retryable error. *)
Lemma retry_after_retryable e secs : retry_after_secs e = Some secs -> is_retryable e = true.
Proof.
  destruct e as [| | | |n m| | | | | | | |]; simpl; try done.
  destruct (n =? 429) eqn:E1, (n =? 503) eqn:E2; simpl; rewrite ?orb_true_r; done.
Qed.

(** ** Fallible methods

    [async fn f(&mut self, ..) -> Result<A, DownloadError>]: the result and the
    state the method leaves, also when it returns an error. *)

Definition StateRes (S A : Type) : Type := S -> result A DownloadError * S.

Definition ok {S A} (a : A) : StateRes S A := fun s => (Ok a, s).

Definition err {S A} (e : DownloadError) : StateRes S A := fun s => (Err e, s).

Definition res_bind {S A B} (m : StateRes S A) (k : A -> StateRes S B) : StateRes S B :=
  fun s => match m s with
           | (Ok a, s') => k a s'
           | (Err e, s') => (Err e, s')
           end.

Definition read_state {S} : StateRes S S := fun s => (Ok s, s).

Definition update_state {S} (f : S -> S) : StateRes S unit := fun s => (Ok tt, f s).

Notation "'let!' x ':=' m 'in' k" := (res_bind m (fun x => k))
  (at level 10, x name, m at level 100, k at level 200).

Notation "m ';!' k" := (res_bind m (fun _ => k)) (at level 100, k at level 200, right associativity).

(** A bind ends in its continuation or in the error of its first part. *)
Lemma res_bind_any {S A B} (m : StateRes S A) (k : A -> StateRes S B) s r s' :
  res_bind m k s = (r, s') ->
  (exists x s1, m s = (Ok x, s1) /\ k x s1 = (r, s')) \/ (exists e, m s = (Err e, s') /\ r = Err e).
Proof.
  unfold res_bind. destruct (m s) as [[x|e] s1]; intros E; [left; by exists x, s1|right].
  injection E as <- <-. by exists e.
Qed.

Lemma res_bind_Ok {S A B} (m : StateRes S A) (k : A -> StateRes S B) s b s' :
  res_bind m k s = (Ok b, s') <-> exists a s1, m s = (Ok a, s1) /\ k a s1 = (Ok b, s').
Proof.
  unfold res_bind. destruct (m s) as [[a|e] s1]; split.
  - intros H. by exists a, s1.
  - by intros (a' & s1' & [= <- <-] & H).
  - done.
  - by intros (a' & s1' & H & _).
Qed.
