(* ===== verification/Net.v ===== *)
(** * Addresses

    The standard library's [IpAddr] and [SocketAddr], with the derived order of the
    latter. *)

From S2P Require Import Prelude.

(** The bits of an [Ipv4Addr] and of an [Ipv6Addr]. *)
Inductive IpAddr := V4 (bits : Z) | V6 (bits : Z).

#[export] Instance IpAddr_eq_dec : EqDecision IpAddr.
Proof. solve_decision. Defined.

Inductive SocketAddr :=
| SocketV4 (ip port : Z)
| SocketV6 (ip port flowinfo scope_id : Z).

#[export] Instance SocketAddr_eq_dec : EqDecision SocketAddr.
Proof. solve_decision. Defined.

(** [SocketAddr::new] *)
Definition SocketAddr_new (ip : IpAddr) (port : Z) : SocketAddr :=
  match ip with V4 bits => SocketV4 bits port | V6 bits => SocketV6 bits port 0 0 end.

Definition is_ipv4 (a : SocketAddr) : bool := match a with SocketV4 _ _ => true | SocketV6 _ _ _ _ => false end.

(** The key of the derived lexicographic order. *)
Definition socket_key (a : SocketAddr) : list Z :=
  match a with
  | SocketV4 ip port => [0; ip; port]
  | SocketV6 ip port flowinfo scope_id => [1; ip; port; flowinfo; scope_id]
  end.

Fixpoint lex_leb (a b : list Z) : bool :=
  match a, b with
  | [], _ => true
  | _ :: _, [] => false
  | x :: a, y :: b => (x <? y) || ((x =? y) && lex_leb a b)
  end.

Definition socket_le (a b : SocketAddr) : Prop := lex_leb (socket_key a) (socket_key b) = true.

#[export] Instance socket_le_dec : RelDecision socket_le.
Proof. intros a b. unfold socket_le. apply _. Defined.

Lemma lex_leb_total a b : lex_leb a b = true \/ lex_leb b a = true.
Proof.
  revert b. induction a as [|x a IH]; intros [|y b]; simpl; [by left|by left|by right|].
  rewrite !orb_true_iff, !andb_true_iff, !Z.ltb_lt, !Z.eqb_eq. destruct (IH b); destruct (Z.lt_total x y) as [|[|]]; intuition lia.
Qed.

Lemma lex_leb_trans a b c : lex_leb a b = true -> lex_leb b c = true -> lex_leb a c = true.
Proof.
  revert b c. induction a as [|x a IH]; intros [|y b] [|z c]; simpl; try done.
  rewrite !orb_true_iff, !andb_true_iff, !Z.ltb_lt, !Z.eqb_eq. intros [|[-> H1]] [|[-> H2]]; [left; lia..|].
  right. split; [done|]. by eapply IH.
Qed.

Lemma lex_leb_antisym a b : lex_leb a b = true -> lex_leb b a = true -> a = b.
Proof.
  revert b. induction a as [|x a IH]; intros [|y b]; simpl; try done.
  rewrite !orb_true_iff, !andb_true_iff, !Z.ltb_lt, !Z.eqb_eq. intros [|[-> H1]] [|[E H2]]; try lia. f_equal. by apply IH.
Qed.

#[export] Instance socket_le_total : Total socket_le.
Proof. intros a b. apply lex_leb_total. Qed.

#[export] Instance socket_le_trans : Transitive socket_le.
Proof. intros a b c. apply lex_leb_trans. Qed.

Lemma socket_key_inj a b : socket_key a = socket_key b -> a = b.
Proof. destruct a, b; simpl; intros E; by simplify_eq. Qed.

#[export] Instance socket_le_antisym : AntiSymm (=) socket_le.
Proof. intros a b H1 H2. by apply socket_key_inj, lex_leb_antisym. Qed.
