(* ===== verification/PieceMap.v ===== *)
(** * Piece-level completion state ([src/storage/piece_map.rs])

    A file of [total_size] bytes is cut into pieces of [piece_size] bytes.
    [PieceMap] records which pieces are complete together with the counters the
    sessions read; the invariant [PieceMap_wf] ties every counter to the bits. *)

From S2P Require Import Prelude.

(** [BitVec<u8, Lsb0>] belongs to the [bitvec] crate.  Its value is the list of
    its bits; the two conversions to and from the raw storage bytes that the
    control file uses are an interface with their documented behaviour. *)
Class RawBits := {
  from_slice : list Z -> list bool;
  as_raw_slice : list bool -> list Z;
  from_as_raw : forall bits, take (length bits) (from_slice (as_raw_slice bits)) = bits;
}.

Record PieceMap := mkPieceMap {
  piece_size : Z;
  total_size : Z;
  piece_count : nat;
  completed : list bool;
  completed_pieces : nat;
  completed_bytes : Z;
  next_missing : nat;
  highest_completed_piece : option nat;
}.

(** Byte length of a piece, with the wrap-around of the [u64] operators. *)
Definition piece_len (total_size piece_size : Z) (piece_id : nat) : Z :=
  let start := Z.of_nat piece_id ⊗ piece_size in
  Z.min ((Z.of_nat piece_id ⊕ 1) ⊗ piece_size) total_size ⊖ start.

Definition PieceMap_new (total_size piece_size : Z) : PieceMap :=
  let piece_count := Z.to_nat (div_ceil total_size piece_size) in
  {| piece_size := piece_size;
     total_size := total_size;
     piece_count := piece_count;
     completed := replicate piece_count false;
     completed_pieces := 0;
     completed_bytes := 0;
     next_missing := 0;
     highest_completed_piece := None |}.

(** One iteration of the loop of [from_bitset]. *)
Definition from_bitset_step (total_size piece_size : Z) (piece_count : nat)
    (completed : list bool) (acc : nat * Z * nat * option nat) (piece_id : nat)
    : nat * Z * nat * option nat :=
  let '(completed_pieces, completed_bytes, next_candidate, highest) := acc in
  if default false (completed !! piece_id) then
    (S completed_pieces,
     completed_bytes ⊕ piece_len total_size piece_size piece_id,
     next_candidate,
     Some piece_id)
  else if bool_decide (next_candidate = piece_count) then
    (completed_pieces, completed_bytes, piece_id, highest)
  else acc.

Definition from_bitset `{RawBits} (total_size piece_size : Z) (bitset : list Z)
    (piece_count : nat) : PieceMap :=
  let completed := resize piece_count false (from_slice bitset) in
  let '(completed_pieces, completed_bytes, next_candidate, highest) :=
    fold_left (from_bitset_step total_size piece_size piece_count completed)
      (seq 0 piece_count) (0%nat, 0, piece_count, None) in
  {| piece_size := piece_size;
     total_size := total_size;
     piece_count := piece_count;
     completed := completed;
     completed_pieces := completed_pieces;
     completed_bytes := completed_bytes;
     next_missing := next_candidate;
     highest_completed_piece := highest |}.

(** Byte range [[start, end)] of a piece. *)
Definition piece_range (pm : PieceMap) (piece_id : nat) : Z * Z :=
  let start := Z.of_nat piece_id ⊗ piece_size pm in
  (start, start ⊕ piece_len (total_size pm) (piece_size pm) piece_id).

Definition is_complete (pm : PieceMap) (piece_id : nat) : bool :=
  (piece_id <? piece_count pm)%nat && default false (completed pm !! piece_id).

(** The [while] loop of [advance_next_candidate]; [fuel] bounds its iterations. *)
Fixpoint advance_loop (fuel : nat) (piece_count : nat) (completed : list bool)
    (next : nat) : nat :=
  match fuel with
  | O => next
  | S fuel =>
      if (next <? piece_count)%nat && default false (completed !! next)
      then advance_loop fuel piece_count completed (S next)
      else next
  end.

Definition advance_next_candidate (pm : PieceMap) : PieceMap :=
  {| piece_size := piece_size pm;
     total_size := total_size pm;
     piece_count := piece_count pm;
     completed := completed pm;
     completed_pieces := completed_pieces pm;
     completed_bytes := completed_bytes pm;
     next_missing :=
       advance_loop (S (piece_count pm)) (piece_count pm) (completed pm) (next_missing pm);
     highest_completed_piece := highest_completed_piece pm |}.

Definition mark_complete (pm : PieceMap) (piece_id : nat) : PieceMap :=
  if (piece_id <? piece_count pm)%nat && negb (default false (completed pm !! piece_id)) then
    let pm' :=
      {| piece_size := piece_size pm;
         total_size := total_size pm;
         piece_count := piece_count pm;
         completed := <[piece_id := true]> (completed pm);
         completed_pieces := S (completed_pieces pm);
         completed_bytes :=
           completed_bytes pm ⊕ piece_len (total_size pm) (piece_size pm) piece_id;
         next_missing := next_missing pm;
         highest_completed_piece :=
           Some (match highest_completed_piece pm with
                 | None => piece_id
                 | Some current => Nat.max current piece_id
                 end) |} in
    if bool_decide (piece_id = next_missing pm) then advance_next_candidate pm' else pm'
  else pm.

Definition first_missing (pm : PieceMap) : option nat :=
  if (next_missing pm <? piece_count pm)%nat then Some (next_missing pm) else None.

Definition pm_all_done (pm : PieceMap) : bool :=
  (completed_pieces pm =? piece_count pm)%nat.

Definition remaining_count (pm : PieceMap) : nat :=
  (piece_count pm - completed_pieces pm)%nat.

Definition to_bitset_bytes `{RawBits} (pm : PieceMap) : list Z :=
  as_raw_slice (completed pm).

Definition missing_bitset (pm : PieceMap) : list bool :=
  negb <$> completed pm.

#[global] Arguments piece_len : simpl never.
#[global] Arguments piece_range : simpl never.

(** ** Geometry

    [Geometry total ps] is the range of sizes for which the [u64] arithmetic of
    the piece map is exact: the end of the last piece, rounded up to a whole
    piece, still fits. *)

Definition Geometry (total ps : Z) : Prop :=
  0 < ps /\ 0 <= total /\ total + ps <= 2 ^ 64.

(** Number of pieces, and the exact bounds of piece [i]. *)
Definition count_of (total ps : Z) : nat := Z.to_nat (div_ceil total ps).

Definition piece_lo (ps : Z) (i : nat) : Z := Z.of_nat i * ps.

Definition piece_hi (total ps : Z) (i : nat) : Z := Z.min ((Z.of_nat i + 1) * ps) total.

Lemma count_of_bounds total ps :
  Geometry total ps -> total <= Z.of_nat (count_of total ps) * ps < total + ps.
Proof.
  intros (Hps & Ht & _). unfold count_of.
  rewrite Z2Nat.id by auto with bytehaul. by apply div_ceil_spec.
Qed.

(** A piece index below the count starts inside the file. *)
Lemma piece_lo_lt total ps i :
  Geometry total ps -> (i < count_of total ps)%nat -> piece_lo ps i < total.
Proof.
  intros G Hi. pose proof (count_of_bounds _ _ G). destruct G as (Hps & _ & _).
  unfold piece_lo. nia.
Qed.

Lemma piece_lo_ge total ps i :
  Geometry total ps -> (count_of total ps <= i)%nat -> total <= piece_lo ps i.
Proof.
  intros G Hi. pose proof (count_of_bounds _ _ G). destruct G as (Hps & _ & _).
  unfold piece_lo. nia.
Qed.

Lemma piece_bounds total ps i :
  Geometry total ps -> (i < count_of total ps)%nat ->
  0 <= piece_lo ps i < piece_hi total ps i /\ piece_hi total ps i <= total /\
  piece_hi total ps i <= piece_lo ps i + ps.
Proof.
  intros G Hi. pose proof (piece_lo_lt _ _ _ G Hi). destruct G as (Hps & _ & _).
  unfold piece_hi, piece_lo in *. nia.
Qed.

Lemma piece_len_exact total ps i :
  Geometry total ps -> (i < count_of total ps)%nat ->
  piece_len total ps i = piece_hi total ps i - piece_lo ps i.
Proof.
  intros G Hi. pose proof (count_of_bounds _ _ G) as Hc.
  pose proof (piece_bounds _ _ _ G Hi) as Hb. destruct G as (Hps & Ht & Hfit).
  unfold piece_len, piece_hi, piece_lo in *.
  assert (Z.of_nat i + 1 <= Z.of_nat (count_of total ps)) by lia.
  assert (0 <= Z.of_nat i * ps < 2 ^ 64) by nia.
  assert (0 <= (Z.of_nat i + 1) * ps < 2 ^ 64) by nia.
  rewrite (u64_add_exact (Z.of_nat i) 1) by nia.
  rewrite !u64_mul_exact by lia. rewrite u64_sub_exact by lia. done.
Qed.

(** The whole pieces before the last end where the next piece starts. *)
Lemma piece_hi_inner total ps i :
  Geometry total ps -> (S i < count_of total ps)%nat ->
  piece_hi total ps i = piece_lo ps (S i).
Proof.
  intros G Hi. pose proof (piece_lo_lt _ _ (S i) G Hi). destruct G as (Hps & _ & _).
  unfold piece_hi, piece_lo in *. nia.
Qed.

Lemma piece_hi_last total ps i :
  Geometry total ps -> S i = count_of total ps -> piece_hi total ps i = total.
Proof.
  intros G Hi. pose proof (count_of_bounds _ _ G) as Hc. rewrite <- Hi in Hc.
  unfold piece_hi. nia.
Qed.

(** The piece that contains a byte. *)
Definition piece_of (ps b : Z) : nat := Z.to_nat (b / ps).

Lemma piece_of_spec total ps b :
  Geometry total ps -> 0 <= b < total ->
  (piece_of ps b < count_of total ps)%nat /\
  piece_lo ps (piece_of ps b) <= b < piece_hi total ps (piece_of ps b).
Proof.
  intros G Hb. pose proof (count_of_bounds _ _ G) as Hc. destruct G as (Hps & _ & _).
  unfold piece_of, piece_hi, piece_lo.
  pose proof (Z.div_mod b ps ltac:(lia)) as E. pose proof (Z.mod_pos_bound b ps Hps).
  assert (0 <= b / ps) by (apply Z.div_pos; lia).
  rewrite Z2Nat.id by lia. split; nia.
Qed.

Lemma piece_of_unique total ps b i :
  Geometry total ps -> piece_lo ps i <= b < piece_hi total ps i -> piece_of ps b = i.
Proof.
  intros (Hps & _ & _) Hb. unfold piece_of, piece_lo, piece_hi in *.
  rewrite <- (Z.div_unique b ps (Z.of_nat i) (b - Z.of_nat i * ps)) by nia.
  apply Nat2Z.id.
Qed.

(** ** The invariant *)

Definition bit (pm : PieceMap) (i : nat) : bool := default false (completed pm !! i).

Definition pieces_done (pm : PieceMap) : nat :=
  nsum (fun i => if bit pm i then 1 else 0)%nat (piece_count pm).

Definition bytes_done (pm : PieceMap) : Z :=
  zsum (fun i => if bit pm i
                 then piece_hi (total_size pm) (piece_size pm) i - piece_lo (piece_size pm) i
                 else 0) (piece_count pm).

(** [n] is the first index below [count] whose bit is clear, or [count]. *)
Definition FirstClear (count : nat) (bits : list bool) (n : nat) : Prop :=
  (n <= count)%nat /\ (forall j, (j < n)%nat -> default false (bits !! j) = true) /\
  ((n < count)%nat -> default false (bits !! n) = false).

(** [h] is the last index whose bit is set, if there is one. *)
Definition LastSet (count : nat) (bits : list bool) (h : option nat) : Prop :=
  match h with
  | None => forall j, (j < count)%nat -> default false (bits !! j) = false
  | Some h => (h < count)%nat /\ default false (bits !! h) = true /\
      forall j, (h < j < count)%nat -> default false (bits !! j) = false
  end.

Record PieceMap_wf (pm : PieceMap) : Prop := {
  wf_geometry : Geometry (total_size pm) (piece_size pm);
  wf_count : piece_count pm = count_of (total_size pm) (piece_size pm);
  wf_length : length (completed pm) = piece_count pm;
  wf_pieces : completed_pieces pm = pieces_done pm;
  wf_bytes : completed_bytes pm = bytes_done pm;
  wf_next : FirstClear (piece_count pm) (completed pm) (next_missing pm);
  wf_highest : LastSet (piece_count pm) (completed pm) (highest_completed_piece pm);
}.

Lemma piece_range_exact pm i :
  PieceMap_wf pm -> (i < piece_count pm)%nat ->
  piece_range pm i = (piece_lo (piece_size pm) i, piece_hi (total_size pm) (piece_size pm) i).
Proof.
  intros W Hi. rewrite (wf_count _ W) in Hi. pose proof (wf_geometry _ W) as G.
  pose proof (piece_bounds _ _ _ G Hi) as Hb. unfold piece_range.
  rewrite piece_len_exact by done. destruct G as (Hps & Ht & Hfit).
  unfold piece_lo in *. rewrite u64_mul_exact by lia. rewrite u64_add_exact by lia.
  f_equal. lia.
Qed.

Lemma is_complete_bit pm i :
  PieceMap_wf pm -> is_complete pm i = bit pm i.
Proof.
  intros W. unfold is_complete, bit. destruct (Nat.ltb_spec i (piece_count pm)) as [|Hge]; [done|].
  rewrite (proj2 (lookup_ge_None (completed pm) i)); [done|]. rewrite (wf_length _ W). lia.
Qed.

Lemma bit_lt pm i : PieceMap_wf pm -> bit pm i = true -> (i < piece_count pm)%nat.
Proof.
  intros W H. rewrite <- is_complete_bit in H by done. unfold is_complete in H.
  destruct (Nat.ltb_spec i (piece_count pm)); [done|]. simpl in H. done.
Qed.

Lemma nsum_bits_le (bits : list bool) n :
  (nsum (fun i => if default false (bits !! i) then 1 else 0) n <= n)%nat.
Proof. induction n as [|n IH]; simpl; [lia|]. destruct (default false _); lia. Qed.

Lemma pieces_done_le pm : (pieces_done pm <= piece_count pm)%nat.
Proof. apply nsum_bits_le. Qed.

Lemma nsum_bits_full (bits : list bool) n :
  nsum (fun i => if default false (bits !! i) then 1 else 0)%nat n = n <->
  forall i, (i < n)%nat -> default false (bits !! i) = true.
Proof.
  induction n as [|n IH]; simpl; [split; [lia|done]|].
  pose proof (nsum_bits_le bits n). split.
  - intros H' i Hi. destruct (default false (bits !! n)) eqn:E; [|lia].
    destruct (decide (i = n)) as [->|]; [done|]. apply IH; lia.
  - intros H'. rewrite (H' n) by lia. rewrite (proj2 IH) by (intros; apply H'; lia). lia.
Qed.

Lemma pm_all_done_spec pm :
  PieceMap_wf pm ->
  pm_all_done pm = true <-> forall i, (i < piece_count pm)%nat -> bit pm i = true.
Proof.
  intros W. unfold pm_all_done. rewrite Nat.eqb_eq, (wf_pieces _ W). apply nsum_bits_full.
Qed.

(** Every byte of the file belongs to a piece: the pieces sum to the size. *)
Lemma piece_lengths_total total ps :
  Geometry total ps ->
  zsum (fun i => piece_hi total ps i - piece_lo ps i) (count_of total ps) = total.
Proof.
  intros G.
  assert (forall n, (n <= count_of total ps)%nat ->
    zsum (fun i => piece_hi total ps i - piece_lo ps i) n = Z.min (piece_lo ps n) total) as H.
  { induction n as [|n IH]; intros Hn; simpl.
    - destruct G as (? & ? & ?). unfold piece_lo. lia.
    - rewrite IH by lia. pose proof (piece_lo_lt _ _ n G ltac:(lia)).
      unfold piece_hi, piece_lo in *. nia. }
  rewrite H by done. pose proof (count_of_bounds _ _ G). unfold piece_lo. lia.
Qed.

(** ** The counters are determined by the bits *)

Lemma FirstClear_unique count bits n m :
  FirstClear count bits n -> FirstClear count bits m -> n = m.
Proof.
  intros (Hn & Hn1 & Hn2) (Hm & Hm1 & Hm2).
  destruct (lt_eq_lt_dec n m) as [[Hlt|]|Hlt]; [|done|].
  - rewrite Hm1 in Hn2 by done. specialize (Hn2 ltac:(lia)). done.
  - rewrite Hn1 in Hm2 by done. specialize (Hm2 ltac:(lia)). done.
Qed.

Lemma LastSet_unique count bits h k :
  LastSet count bits h -> LastSet count bits k -> h = k.
Proof.
  destruct h as [h|], k as [k|]; simpl; try done.
  - intros (Hh & Hh1 & Hh2) (Hk & Hk1 & Hk2).
    destruct (lt_eq_lt_dec h k) as [[Hlt| ->]|Hlt]; [|done|].
    + rewrite Hh2 in Hk1 by lia. done.
    + rewrite Hk2 in Hh1 by lia. done.
  - intros (Hh & Hh1 & _) H. rewrite H in Hh1 by done. done.
  - intros H (Hh & Hh1 & _). rewrite H in Hh1 by done. done.
Qed.

Lemma PieceMap_wf_unique pm1 pm2 :
  PieceMap_wf pm1 -> PieceMap_wf pm2 ->
  total_size pm1 = total_size pm2 -> piece_size pm1 = piece_size pm2 ->
  completed pm1 = completed pm2 -> pm1 = pm2.
Proof.
  intros [G1 C1 L1 P1 B1 N1 H1] [G2 C2 L2 P2 B2 N2 H2].
  destruct pm1, pm2; simpl in *. intros -> -> ->.
  unfold pieces_done, bytes_done, bit in *. simpl in *. subst.
  rewrite (FirstClear_unique _ _ _ _ N1 N2), (LastSet_unique _ _ _ _ H1 H2). done.
Qed.

(** ** Operations establish and preserve the invariant *)

Lemma default_replicate_false n i : default false (replicate n false !! i) = false.
Proof.
  destruct (replicate n false !! i) eqn:E; [|done].
  apply lookup_replicate in E as [-> _]. done.
Qed.

Lemma nsum_const_zero (f : nat -> nat) n : (forall i, f i = 0%nat) -> nsum f n = 0%nat.
Proof. intros H. apply nsum_zero. auto. Qed.

Lemma zsum_const_zero (f : nat -> Z) n : (forall i, f i = 0) -> zsum f n = 0.
Proof. intros H. induction n as [|n IH]; simpl; [done|]. rewrite IH, H. done. Qed.

Lemma PieceMap_new_wf total ps : Geometry total ps -> PieceMap_wf (PieceMap_new total ps).
Proof.
  intros G. split; simpl; try done.
  - apply length_replicate.
  - symmetry. apply nsum_const_zero. intros i. unfold bit. simpl.
    by rewrite default_replicate_false.
  - symmetry. apply zsum_const_zero. intros i. unfold bit. simpl.
    by rewrite default_replicate_false.
  - split; [lia|]. split; [intros; lia|]. intros _. apply default_replicate_false.
  - intros j _. apply default_replicate_false.
Qed.

Lemma advance_loop_spec fuel count bits next :
  (next <= count)%nat -> (count - next < fuel)%nat ->
  (forall j, (j < next)%nat -> default false (bits !! j) = true) ->
  FirstClear count bits (advance_loop fuel count bits next).
Proof.
  revert next. induction fuel as [|fuel IH]; intros next Hn Hf Hpre; [lia|]. simpl.
  destruct (Nat.ltb_spec next count) as [Hlt|Hge]; simpl.
  - destruct (default false (bits !! next)) eqn:E.
    + apply IH; [lia|lia|]. intros j Hj. destruct (decide (j = next)) as [->|]; [done|].
      apply Hpre. lia.
    + by split_and!.
  - assert (next = count) as -> by lia. split_and!; [done|done|lia].
Qed.

Lemma bit_insert (bits : list bool) i j :
  (i < length bits)%nat ->
  default false (<[i:=true]> bits !! j) =
  if decide (j = i) then true else default false (bits !! j).
Proof.
  intros Hi. destruct (decide (j = i)) as [->|Hne].
  - by rewrite list_lookup_insert_eq.
  - by rewrite list_lookup_insert_ne.
Qed.

Lemma bytes_done_le_total pm :
  Geometry (total_size pm) (piece_size pm) ->
  piece_count pm = count_of (total_size pm) (piece_size pm) ->
  0 <= bytes_done pm <= total_size pm.
Proof.
  intros G C. unfold bytes_done. rewrite C. split.
  - apply zsum_nonneg. intros i Hi. pose proof (piece_bounds _ _ _ G Hi).
    destruct (bit pm i); lia.
  - etrans; [|exact (Z.eq_le_incl _ _ (piece_lengths_total _ _ G))].
    apply zsum_le. intros i Hi.
    pose proof (piece_bounds _ _ _ G Hi). destruct (bit pm i); lia.
Qed.

(** The bits of a piece map after a completion. *)
Lemma mark_complete_completed pm i :
  PieceMap_wf pm -> (i < piece_count pm)%nat ->
  completed (mark_complete pm i) = <[i := true]> (completed pm).
Proof.
  intros W Hi. unfold mark_complete.
  rewrite (proj2 (Nat.ltb_lt _ _)) by done. simpl.
  destruct (default false (completed pm !! i)) eqn:E; simpl.
  - symmetry. apply list_insert_id.
    destruct (completed pm !! i) as [b|] eqn:L; simpl in E; [by subst|].
    apply lookup_ge_None in L. rewrite (wf_length _ W) in L. lia.
  - case_bool_decide; done.
Qed.

(** The map [mark_complete] builds before advancing its cursor. *)
Lemma mark_complete_sums pm i :
  PieceMap_wf pm -> (i < piece_count pm)%nat -> bit pm i = false ->
  let bits := <[i:=true]> (completed pm) in
  nsum (fun j => if default false (bits !! j) then 1 else 0)%nat (piece_count pm)
    = S (pieces_done pm) /\
  zsum (fun j => if default false (bits !! j)
                 then piece_hi (total_size pm) (piece_size pm) j - piece_lo (piece_size pm) j
                 else 0) (piece_count pm)
    = bytes_done pm + piece_len (total_size pm) (piece_size pm) i.
Proof.
  intros W Hi Hb bits. unfold bit in Hb.
  assert (i < length (completed pm))%nat as Hl by (rewrite (wf_length _ W); done).
  rewrite piece_len_exact by (try apply (wf_geometry _ W); by rewrite <- (wf_count _ W)).
  unfold pieces_done, bytes_done, bit, bits. split.
  - epose proof (nsum_update
      (fun j => if default false (<[i:=true]> (completed pm) !! j) then 1 else 0)%nat
      (fun j => if default false (completed pm !! j) then 1 else 0)%nat _ i Hi _) as H.
    Unshelve. 2: { intros j Hj. simpl. rewrite bit_insert by done. by rewrite decide_False. }
    cbv beta in H. rewrite bit_insert, decide_True, Hb in H by done. lia.
  - epose proof (zsum_update
      (fun j => if default false (<[i:=true]> (completed pm) !! j)
         then piece_hi (total_size pm) (piece_size pm) j - piece_lo (piece_size pm) j else 0)
      (fun j => if default false (completed pm !! j)
         then piece_hi (total_size pm) (piece_size pm) j - piece_lo (piece_size pm) j else 0)
      _ i Hi _) as H.
    Unshelve. 2: { intros j Hj. simpl. rewrite bit_insert by done. by rewrite decide_False. }
    cbv beta in H. rewrite bit_insert, decide_True, Hb in H by done. lia.
Qed.

Lemma LastSet_insert count bits h i :
  (i < count)%nat -> length bits = count -> LastSet count bits h ->
  LastSet count (<[i:=true]> bits)
    (Some (match h with None => i | Some c => Nat.max c i end)).
Proof.
  intros Hi Hl H. simpl. destruct h as [h|]; simpl in H.
  - destruct H as (Hh & Hh1 & Hh2). split_and!; [lia| |].
    + rewrite bit_insert by lia. case_decide; [done|].
      replace (h `max` i)%nat with h by lia. done.
    + intros j Hj. rewrite bit_insert by lia. rewrite decide_False by lia. apply Hh2. lia.
  - split_and!; [done| |].
    + rewrite bit_insert by lia. by rewrite decide_True.
    + intros j Hj. rewrite bit_insert by lia. rewrite decide_False by lia. apply H. lia.
Qed.

Lemma mark_complete_wf_lemma pm i : PieceMap_wf pm -> PieceMap_wf (mark_complete pm i).
Proof.
  intros W. unfold mark_complete.
  destruct (Nat.ltb_spec i (piece_count pm)) as [Hi|]; simpl; [|done].
  destruct (default false (completed pm !! i)) eqn:Hb; simpl; [done|].
  pose proof (mark_complete_sums pm i W Hi Hb) as [Hn Hz].
  pose proof (wf_geometry _ W) as G. pose proof (wf_length _ W) as Hl.
  set (pm' := mkPieceMap _ _ _ _ _ _ _ _).
  assert (bytes_done pm' = bytes_done pm + piece_len (total_size pm) (piece_size pm) i) as Hz'
    by exact Hz.
  assert (Geometry (total_size pm') (piece_size pm')) as G' by done.
  assert (completed_bytes pm' = bytes_done pm') as HB.
  { rewrite Hz'. change (completed_bytes pm') with
      (completed_bytes pm ⊕ piece_len (total_size pm) (piece_size pm) i). rewrite (wf_bytes _ W).
    apply u64_add_exact. rewrite <- Hz'.
    pose proof (bytes_done_le_total pm' G' (wf_count _ W)) as Hle. simpl in Hle.
    destruct G as (? & ? & ?). simpl in *. lia. }
  assert (length (completed pm') = piece_count pm') as HL
    by (unfold pm'; simpl; by rewrite length_insert).
  assert (completed_pieces pm' = pieces_done pm') as HP
    by (unfold pm'; simpl; rewrite (wf_pieces _ W); symmetry; exact Hn).
  assert (LastSet (piece_count pm') (completed pm') (highest_completed_piece pm')) as HH
    by (apply LastSet_insert; [done|done|apply (wf_highest _ W)]).
  pose proof (wf_next _ W) as (HN1 & HN2 & HN3).
  assert (forall j, (j < next_missing pm)%nat ->
    default false (<[i:=true]> (completed pm) !! j) = true) as Hpre.
  { intros j Hj. rewrite bit_insert by lia. case_decide; [done|]. by apply HN2. }
  case_bool_decide as Heq.
  - split; try assumption; [exact (wf_count _ W)|]. apply advance_loop_spec; simpl; [done|lia|done].
  - split; try assumption; [exact (wf_count _ W)|]. split_and!; [done|done|].
    intros Hlt. simpl. rewrite bit_insert by lia. rewrite decide_False by done. by apply HN3.
Qed.

Section FromBitset.
  Context `{RawBits} (total ps : Z) (bits : list bool).
  Hypothesis HG : Geometry total ps.

  Abbreviation n := (count_of total ps).
  Abbreviation len i := (piece_hi total ps i - piece_lo ps i).

Definition loop_state (k : nat) : nat * Z * nat * option nat :=
    fold_left (from_bitset_step total ps n bits) (seq 0 k) (0%nat, 0, n, None).

Lemma loop_state_S k : loop_state (S k) = from_bitset_step total ps n bits (loop_state k) k.
  Proof. unfold loop_state. rewrite seq_S, fold_left_app. done. Qed.

Lemma prefix_bytes_le k :
    (k <= n)%nat ->
    0 <= zsum (fun i => if default false (bits !! i) then len i else 0) k <= total.
  Proof.
    intros Hk. split.
    - apply zsum_nonneg. intros i Hi. pose proof (piece_bounds _ _ i HG ltac:(lia)).
      destruct (default false _); lia.
    - trans (Z.min (piece_lo ps k) total); [|lia].
      induction k as [|k IH]; simpl; [destruct HG as (?&?&?); unfold piece_lo; lia|].
      specialize (IH ltac:(lia)). pose proof (piece_lo_lt _ _ k HG ltac:(lia)).
      destruct HG as (?&?&?). unfold piece_hi, piece_lo in *.
      destruct (default false _); nia.
  Qed.

  (** The loop keeps the counters of the pieces seen so far. *)
Lemma loop_state_spec k :
    (k <= n)%nat ->
    exists nc h,
      loop_state k = (nsum (fun i => if default false (bits !! i) then 1 else 0)%nat k,
                      zsum (fun i => if default false (bits !! i) then len i else 0) k, nc, h) /\
      LastSet k bits h /\
      ((nc = n /\ forall j, (j < k)%nat -> default false (bits !! j) = true) \/
       ((nc < k)%nat /\ FirstClear n bits nc)).
  Proof.
    induction k as [|k IH]; intros Hk.
    - exists n, None. split_and!; [done|intros j Hj; lia|left; split; [done|intros; lia]].
    - destruct (IH ltac:(lia)) as (nc & h & E & HL & HN).
      rewrite loop_state_S, E. unfold from_bitset_step. simpl.
      pose proof (prefix_bytes_le (S k) Hk) as Hle. simpl in Hle.
      destruct (default false (bits !! k)) eqn:B.
      + exists nc, (Some k). split_and!.
        * rewrite piece_len_exact by (done || lia). rewrite u64_add_exact.
          { do 3 f_equal. lia. }
          destruct HG as (?&?&?). lia.
        * split_and!; [lia|done|intros; lia].
        * destruct HN as [[-> Hall]|[Hlt HF]]; [left|right; split; [lia|done]].
          split; [done|]. intros j Hj. destruct (decide (j = k)) as [->|]; [done|].
          apply Hall. lia.
      + assert (LastSet (S k) bits h) as HL'.
        { destruct h as [h|]; simpl in *.
          - destruct HL as (?&?&Hj). split_and!; [lia|done|]. intros j Hjk.
            destruct (decide (j = k)) as [->|]; [done|]. apply Hj. lia.
          - intros j Hjk. destruct (decide (j = k)) as [->|]; [done|]. apply HL. lia. }
        destruct HN as [[-> Hall]|[Hlt HF]].
        * rewrite bool_decide_eq_true_2 by done. exists k, h.
          split_and!; [do 3 f_equal; lia|done|right].
          split; [lia|]. split_and!; [lia|done|done].
        * rewrite bool_decide_eq_false_2 by lia. exists nc, h.
          split_and!; [do 3 f_equal; lia|done|right; split; [lia|done]].
  Qed.
End FromBitset.

Lemma from_bitset_completed `{RawBits} total ps bitset count :
  completed (from_bitset total ps bitset count) = resize count false (from_slice bitset).
Proof. unfold from_bitset. by destruct (fold_left _ _ _) as [[[? ?] ?] ?]. Qed.

Lemma from_bitset_wf_lemma `{RawBits} total ps bitset :
  Geometry total ps ->
  PieceMap_wf (from_bitset total ps bitset (count_of total ps)).
Proof.
  intros G. unfold from_bitset.
  set (bits := resize (count_of total ps) false (from_slice bitset)).
  destruct (loop_state_spec total ps bits G (count_of total ps) ltac:(done))
    as (nc & h & E & HL & HN).
  unfold loop_state in E. rewrite E. split; simpl; try done.
  - apply length_resize.
  - destruct HN as [[-> Hall]|[_ HF]]; [|done]. split_and!; [done|done|lia].
Qed.

(** ** [Lsb0] storage: the concrete instance of [RawBits] *)

Definition byte_of_bits (bits : list bool) : Z :=
  foldr (fun b acc => 2 * acc + Z.b2z b) 0 bits.

Definition bits_of_byte (b : Z) : list bool := (fun i => Z.testbit b (Z.of_nat i)) <$> seq 0 8.

Fixpoint pack_bytes (n : nat) (bits : list bool) : list Z :=
  match n with
  | O => []
  | S n => byte_of_bits (take 8 bits) :: pack_bytes n (drop 8 bits)
  end.

Definition lsb0_from_slice (bytes : list Z) : list bool := mjoin (bits_of_byte <$> bytes).

Definition lsb0_as_raw_slice (bits : list bool) : list Z :=
  pack_bytes ((length bits + 7) / 8) bits.

Lemma testbit_byte_of_bits bits i :
  Z.testbit (byte_of_bits bits) (Z.of_nat i) = default false (bits !! i).
Proof.
  revert i. induction bits as [|b bits IH]; intros i; simpl.
  - apply Z.testbit_0_l.
  - destruct i as [|i].
    + simpl. destruct b; simpl Z.b2z; [apply Z.testbit_odd_0|rewrite Z.add_0_r; apply Z.testbit_even_0].
    + rewrite Nat2Z.inj_succ. simpl lookup. rewrite <- IH.
      destruct b; simpl Z.b2z.
      * apply Z.testbit_odd_succ. lia.
      * rewrite Z.add_0_r. apply Z.testbit_even_succ. lia.
Qed.

Lemma take_bits_of_byte bits :
  (length bits <= 8)%nat -> take (length bits) (bits_of_byte (byte_of_bits bits)) = bits.
Proof.
  intros Hl. apply list_eq. intros i. destruct (decide (i < length bits)%nat) as [Hi|Hi].
  - rewrite lookup_take_lt by done. unfold bits_of_byte. rewrite list_lookup_fmap.
    rewrite lookup_seq_lt by lia. simpl. rewrite testbit_byte_of_bits.
    destruct (lookup_lt_is_Some_2 bits i Hi) as [b ->]. done.
  - rewrite lookup_take_ge by lia. symmetry. apply lookup_ge_None. lia.
Qed.

Lemma length_bits_of_byte b : length (bits_of_byte b) = 8%nat.
Proof. done. Qed.

Lemma pack_bytes_from n bits :
  (length bits <= 8 * n)%nat ->
  take (length bits) (lsb0_from_slice (pack_bytes n bits)) = bits.
Proof.
  revert bits. induction n as [|n IH]; intros bits Hl.
  - destruct bits; [done|simpl in Hl; lia].
  - change (lsb0_from_slice (pack_bytes (S n) bits)) with
      (bits_of_byte (byte_of_bits (take 8 bits)) ++ lsb0_from_slice (pack_bytes n (drop 8 bits))).
    rewrite take_app, length_bits_of_byte.
    destruct (decide (length bits <= 8)%nat) as [Hs|Hs].
    + rewrite (take_ge bits 8) by lia.
      rewrite take_bits_of_byte by done.
      replace (length bits - 8)%nat with 0%nat by lia. by rewrite take_0, app_nil_r.
    + rewrite (take_ge (bits_of_byte _)) by (rewrite length_bits_of_byte; lia).
      rewrite <- (take_drop 8 bits) at 4.
      f_equal.
      * pose proof (take_bits_of_byte (take 8 bits)) as T.
        rewrite length_take, Nat.min_l in T by lia.
        rewrite take_ge in T by (rewrite length_bits_of_byte; lia). apply T. lia.
      * pose proof (IH (drop 8 bits)) as D. rewrite length_drop in D. apply D. lia.
Qed.

#[export, refine] Instance Lsb0 : RawBits := {
  from_slice := lsb0_from_slice;
  as_raw_slice := lsb0_as_raw_slice;
}.
Proof.
  intros bits. apply pack_bytes_from.
  pose proof (Nat.div_mod_eq (length bits + 7) 8).
  pose proof (Nat.mod_upper_bound (length bits + 7) 8 ltac:(lia)). lia.
Defined.

(** ** Properties *)

Lemma bit_mark_complete pm i j :
  PieceMap_wf pm ->
  bit (mark_complete pm i) j =
  if decide (j = i /\ (i < piece_count pm)%nat) then true else bit pm j.
Proof.
  intros W. destruct (decide (i < piece_count pm)%nat) as [Hi|Hi].
  - unfold bit. rewrite mark_complete_completed, bit_insert by (done || by rewrite (wf_length _ W)).
    destruct (decide (j = i)) as [->|]; [by rewrite decide_True|]. rewrite decide_False; [done|tauto].
  - rewrite decide_False by tauto. unfold mark_complete.
    destruct (Nat.ltb_spec i (piece_count pm)); [lia|done].
Qed.

Lemma mark_complete_geometry pm i :
  total_size (mark_complete pm i) = total_size pm /\
  piece_size (mark_complete pm i) = piece_size pm /\
  piece_count (mark_complete pm i) = piece_count pm.
Proof. unfold mark_complete. destruct (_ && _); [case_bool_decide|]; done. Qed.

(** A full map has every byte, and only a full one. *)
Lemma all_done_bytes pm :
  PieceMap_wf pm -> pm_all_done pm = true <-> completed_bytes pm = total_size pm.
Proof.
  intros W. rewrite pm_all_done_spec, (wf_bytes _ W) by done. unfold bytes_done.
  pose proof (wf_geometry _ W) as G. rewrite (wf_count _ W).
  pose proof (piece_lengths_total _ _ G) as T. split.
  - intros Hall. etrans; [|exact T]. apply zsum_ext. intros i Hi. by rewrite Hall.
  - intros E i Hi. pose proof (eq_trans E (eq_sym T)) as E'. clear E. rename E' into E. destruct (bit pm i) eqn:B; [done|exfalso].
    revert E. apply Z.lt_neq.
    set (f := fun j => if bit pm j then _ else 0).
    set (g := fun j => piece_hi (total_size pm) (piece_size pm) j - piece_lo (piece_size pm) j).
    pose proof (zsum_update (fun j => if decide (j = i) then f i else g j) g _ i Hi) as U.
    cbv beta in U. rewrite decide_True in U by done.
    assert (zsum f (count_of (total_size pm) (piece_size pm)) <=
      zsum (fun j => if decide (j = i) then f i else g j) (count_of (total_size pm) (piece_size pm))).
    { apply zsum_le. intros j Hj. pose proof (piece_bounds _ _ _ G Hj). unfold f, g.
      case_decide; subst; [done|]. destruct (bit pm j); lia. }
    assert (f i = 0) by (unfold f; by rewrite B).
    assert (0 < g i) by (pose proof (piece_bounds _ _ _ G Hi); unfold g; lia).
    specialize (U ltac:(intros j Hj; by rewrite decide_False)). lia.
Qed.

Lemma marked_sequence total ps ids :
  Geometry total ps ->
  let pm := foldl mark_complete (PieceMap_new total ps) ids in
  PieceMap_wf pm /\ total_size pm = total /\ piece_size pm = ps /\
  forall i, bit pm i = true <-> (i < count_of total ps)%nat /\ i ∈ ids.
Proof.
  intros G. induction ids as [|i ids IH] using rev_ind; simpl.
  - split_and!; [by apply PieceMap_new_wf|done|done|]. intros i. unfold bit. simpl.
    rewrite default_replicate_false. split; [done|]. by intros [_ ?%not_elem_of_nil].
  - rewrite foldl_app. simpl. destruct IH as (W & Ht & Hp & Hb).
    pose proof (mark_complete_geometry (foldl mark_complete (PieceMap_new total ps) ids) i) as (E1&E2&_).
    split_and!; [by apply mark_complete_wf_lemma|by rewrite E1|by rewrite E2|].
    intros j. rewrite bit_mark_complete by done. rewrite (wf_count _ W), Ht, Hp.
    rewrite elem_of_app, list_elem_of_singleton. case_decide as D; rewrite ?Hb.
    + destruct D as [-> ?]. tauto.
    + split; [tauto|]. intros [? [?| ->]]; [tauto|]. by destruct D.
Qed.

(** After any sequence of completions the piece map is consistent: a piece is
    complete exactly when it was marked (out-of-range ids are ignored), every
    cached counter agrees with the bits, and the byte counter reaches the file
    size exactly when all pieces are done and no missing piece remains. *)
Theorem piece_map_tracks_completions total ps ids :
  Geometry total ps ->
  let pm := foldl mark_complete (PieceMap_new total ps) ids in
  PieceMap_wf pm /\
  (forall i, is_complete pm i = true <-> (i < count_of total ps)%nat /\ i ∈ ids) /\
  (pm_all_done pm = true <-> completed_bytes pm = total) /\
  (first_missing pm = None <-> pm_all_done pm = true) /\
  0 <= completed_bytes pm <= total.
Proof.
  intros G pm. destruct (marked_sequence total ps ids G) as (W & Ht & Hp & Hb). fold pm in W, Ht, Hp, Hb.
  split_and!; try done.
  - intros i. rewrite is_complete_bit by done. apply Hb.
  - rewrite all_done_bytes by done. by rewrite Ht.
  - rewrite pm_all_done_spec by done. unfold first_missing.
    destruct (wf_next _ W) as (Hn & Hn1 & Hn2).
    destruct (Nat.ltb_spec (next_missing pm) (piece_count pm)) as [Hlt|Hge]; split; try done.
    + intros Hall. unfold bit in Hall. rewrite Hall in Hn2 by done. by specialize (Hn2 Hlt).
    + intros _ i Hi. apply Hn1. lia.
  - rewrite (wf_bytes _ W). apply bytes_done_le_total; [apply W|apply W].
  - rewrite (wf_bytes _ W), <- Ht. apply bytes_done_le_total; [apply W|apply W].
Qed.

Lemma piece_map_tracks_completions_witness :
  Geometry 2500 1000 /\
  completed_bytes (foldl mark_complete (PieceMap_new 2500 1000) [2; 0; 7; 2]%nat) = 1500 /\
  PieceMap_wf (foldl mark_complete (PieceMap_new 2500 1000) [2; 0; 7; 2]%nat).
Proof.
  assert (Geometry 2500 1000) as G by (unfold Geometry; lia).
  split_and!; [done|reflexivity|].
  apply (piece_map_tracks_completions 2500 1000 [2; 0; 7; 2]%nat G).
Defined.

Lemma bitset_roundtrip `{RawBits} pm :
  PieceMap_wf pm ->
  from_bitset (total_size pm) (piece_size pm) (to_bitset_bytes pm) (piece_count pm) = pm.
Proof.
  intros W. pose proof (wf_count _ W) as C. apply PieceMap_wf_unique; [|done| | |].
  - rewrite C. apply from_bitset_wf_lemma, W.
  - unfold from_bitset. by destruct (fold_left _ _ _) as [[[? ?] ?] ?].
  - unfold from_bitset. by destruct (fold_left _ _ _) as [[[? ?] ?] ?].
  - rewrite from_bitset_completed. unfold to_bitset_bytes.
    pose proof (from_as_raw (completed pm)) as R. rewrite (wf_length _ W) in R.
    rewrite resize_le; [done|]. apply (f_equal length) in R.
    rewrite length_take, (wf_length _ W) in R. lia.
Qed.

(** Writing the completed bits to the control file and reading them back
    rebuilds the very same piece map, cached counters included. *)
Theorem from_bitset_roundtrip `{RawBits} pm :
  PieceMap_wf pm ->
  from_bitset (total_size pm) (piece_size pm) (to_bitset_bytes pm) (piece_count pm) = pm.
Proof. apply bitset_roundtrip. Qed.

Lemma from_bitset_roundtrip_witness :
  from_bitset 10500 1000
    (to_bitset_bytes (foldl mark_complete (PieceMap_new 10500 1000) [0; 9; 10]%nat)) 11
  = foldl mark_complete (PieceMap_new 10500 1000) [0; 9; 10]%nat.
Proof.
  apply (from_bitset_roundtrip (foldl mark_complete (PieceMap_new 10500 1000) [0; 9; 10]%nat)).
  apply marked_sequence. unfold Geometry. lia.
Defined.

(** The piece ranges partition the file: every byte below the total size lies
    in the range of exactly one piece, and no range leaves the file. *)
Theorem piece_ranges_partition pm :
  PieceMap_wf pm ->
  (forall b, 0 <= b < total_size pm ->
     exists! i, (i < piece_count pm)%nat /\
       fst (piece_range pm i) <= b < snd (piece_range pm i)) /\
  (forall i, (i < piece_count pm)%nat ->
     0 <= fst (piece_range pm i) < snd (piece_range pm i) /\
     snd (piece_range pm i) <= total_size pm).
Proof.
  intros W. pose proof (wf_geometry _ W) as G. split.
  - intros b Hb. destruct (piece_of_spec _ _ b G Hb) as [Hi Hr]. rewrite <- (wf_count _ W) in Hi.
    exists (piece_of (piece_size pm) b). split.
    + split; [done|]. by rewrite piece_range_exact.
    + intros j [Hj Hrj]. rewrite piece_range_exact in Hrj by done. simpl in Hrj.
      by apply (piece_of_unique _ _ _ _ G).
  - intros i Hi. rewrite piece_range_exact by done. simpl. rewrite (wf_count _ W) in Hi.
    pose proof (piece_bounds _ _ _ G Hi). lia.
Qed.

Lemma piece_ranges_partition_witness :
  piece_range (PieceMap_new 2500 1000) 2 = (2000, 2500) /\
  exists! i, (i < 3)%nat /\
    fst (piece_range (PieceMap_new 2500 1000) i) <= 2400 < snd (piece_range (PieceMap_new 2500 1000) i).
Proof.
  assert (PieceMap_wf (PieceMap_new 2500 1000)) as W
    by (apply PieceMap_new_wf; unfold Geometry; lia).
  split; [reflexivity|].
  apply (proj1 (piece_ranges_partition (PieceMap_new 2500 1000) W) 2400). simpl. lia.
Defined.
