(* ===== verification/Ranges.v ===== *)
(** * Sets of missing byte ranges ([ByteRange] and [RangeSet] of [src/scheduler.rs])

    A [RangeSet] is a vector of half-open ranges.  [RangeSet_wf] says that the
    vector is sorted, its ranges are not empty and no two of them touch, so that
    the vector is the canonical form of the set of bytes it covers. *)

From S2P Require Import Prelude.

Record ByteRange := mkRange {
  rstart : Z;
  rend : Z;
}.

#[export] Instance ByteRange_eq_dec : EqDecision ByteRange.
Proof. solve_decision. Defined.

(** [ByteRange::new] *)
Definition ByteRange_new (start end_ : Z) : option ByteRange :=
  if start <? end_ then Some (mkRange start end_) else None.

Abbreviation RangeSet := (list ByteRange).

(** [RangeSet::new_full] *)
Definition new_full (start end_ : Z) : RangeSet :=
  match ByteRange_new start end_ with
  | Some range => [range]
  | None => []
  end.

(** [Vec::insert] *)
Definition vec_insert {A} (index : nat) (x : A) (l : list A) : list A :=
  take index l ++ x :: drop index l.

(** The [while] loop of [RangeSet::insert]; every iteration either advances
    [index] or shortens [ranges], so [S (length ranges)] iterations are enough
    ([insert_loop_ref]). *)
Fixpoint insert_loop (fuel : nat) (ranges : RangeSet) (range : ByteRange) (index : nat)
    : RangeSet * ByteRange * nat :=
  match fuel with
  | O => (ranges, range, index)
  | S fuel =>
      match ranges !! index with
      | None => (ranges, range, index)
      | Some current =>
          if rend current <? rstart range then insert_loop fuel ranges range (S index)
          else if rend range <? rstart current then (ranges, range, index)
          else insert_loop fuel (delete index ranges)
                 (mkRange (Z.min (rstart range) (rstart current))
                          (Z.max (rend range) (rend current))) index
      end
  end.

(** [RangeSet::insert] *)
Definition range_insert (ranges : RangeSet) (range : ByteRange) : RangeSet :=
  let '(ranges', range', index) := insert_loop (S (length ranges)) ranges range 0 in
  vec_insert index range' ranges'.

(** [RangeSet::remove]: the flag is the method's result. *)
Definition range_remove (ranges : RangeSet) (range : ByteRange) : bool * RangeSet :=
  match list_find (fun current => rstart current <= rstart range /\ rend range <= rend current)
          ranges with
  | None => (false, ranges)
  | Some (index, current) =>
      let ranges1 := delete index ranges in
      let '(ranges2, insert_at) :=
        if rstart current <? rstart range
        then (vec_insert index (mkRange (rstart current) (rstart range)) ranges1, S index)
        else (ranges1, index) in
      let ranges3 :=
        if rend range <? rend current
        then vec_insert insert_at (mkRange (rend range) (rend current)) ranges2
        else ranges2 in
      (true, ranges3)
  end.

(** ** The set a vector of ranges stands for *)

Definition in_range (r : ByteRange) (b : Z) : bool := (rstart r <=? b) && (b <? rend r).

Definition covers (rs : RangeSet) (b : Z) : bool := existsb (fun r => in_range r b) rs.

(** Every range starts after [lo], none is empty, consecutive ones do not touch. *)
Fixpoint SepFrom (lo : Z) (rs : RangeSet) : Prop :=
  match rs with
  | [] => True
  | r :: rs => lo < rstart r /\ rstart r < rend r /\ SepFrom (rend r) rs
  end.

Definition RangeSet_wf (lo hi : Z) (rs : RangeSet) : Prop :=
  SepFrom (lo - 1) rs /\ Forall (fun r => rend r <= hi) rs.

Lemma in_range_true r b : in_range r b = true <-> rstart r <= b < rend r.
Proof. unfold in_range. rewrite andb_true_iff, Z.leb_le, Z.ltb_lt. done. Qed.

Lemma in_range_false r b : in_range r b = false <-> ~ (rstart r <= b < rend r).
Proof. rewrite <- in_range_true. by destruct (in_range r b). Qed.

Lemma SepFrom_weaken lo lo' rs : lo' <= lo -> SepFrom lo rs -> SepFrom lo' rs.
Proof. destruct rs; simpl; [done|]. intros ? (?&?&?). split_and!; [lia|done|done]. Qed.

(** Nothing at or below the lower bound is covered. *)
Lemma SepFrom_covers lo rs b : SepFrom lo rs -> covers rs b = true -> lo < b.
Proof.
  revert lo. induction rs as [|r rs IH]; intros lo; simpl; [done|].
  intros (Hlo & Hr & Hs) [E%in_range_true|E]%orb_true_iff; [lia|].
  specialize (IH _ Hs E). lia.
Qed.

Lemma covers_bounds lo hi rs b :
  RangeSet_wf lo hi rs -> covers rs b = true -> lo <= b < hi.
Proof.
  intros [Hs Hf] Hb. pose proof (SepFrom_covers _ _ _ Hs Hb). split; [lia|].
  apply existsb_exists in Hb as (r & Hin & E%in_range_true).
  rewrite List.Forall_forall in Hf. specialize (Hf r Hin). simpl in Hf. lia.
Qed.

(** ** [insert] against its recursive reading *)

Fixpoint insert_ref (ranges : RangeSet) (range : ByteRange) : RangeSet :=
  match ranges with
  | [] => [range]
  | current :: rest =>
      if rend current <? rstart range then current :: insert_ref rest range
      else if rend range <? rstart current then range :: current :: rest
      else insert_ref rest (mkRange (Z.min (rstart range) (rstart current))
                                    (Z.max (rend range) (rend current)))
  end.

Lemma insert_loop_ref fuel (pre rest : RangeSet) range :
  (length rest < fuel)%nat ->
  let '(ranges', range', index) := insert_loop fuel (pre ++ rest) range (length pre) in
  vec_insert index range' ranges' = pre ++ insert_ref rest range.
Proof.
  revert pre rest range. induction fuel as [|fuel IH]; intros pre rest range Hf; [lia|].
  simpl. destruct rest as [|c rest].
  - rewrite app_nil_r, (proj2 (lookup_ge_None pre (length pre))) by lia.
    unfold vec_insert. by rewrite take_ge, drop_ge by lia.
  - rewrite list_lookup_middle by done. simpl in *.
    destruct (rend c <? rstart range).
    + specialize (IH (pre ++ [c]) rest range ltac:(lia)).
      rewrite length_app, Nat.add_1_r, <- app_assoc in IH. simpl in IH.
      destruct (insert_loop _ _ _ _) as [[? ?] ?]. by rewrite IH, <- app_assoc.
    + destruct (rend range <? rstart c).
      * unfold vec_insert. by rewrite take_app_length, drop_app_length.
      * rewrite delete_middle. apply IH. lia.
Qed.

Lemma range_insert_ref ranges range : range_insert ranges range = insert_ref ranges range.
Proof.
  unfold range_insert.
  pose proof (insert_loop_ref (S (length ranges)) [] ranges range ltac:(lia)) as H.
  simpl app in H. change (length []) with 0%nat in H.
  destruct (insert_loop _ _ _ _) as [[? ?] ?]. done.
Qed.

(** Merging two ranges that overlap or touch covers their union. *)
Lemma in_range_merge r c b :
  rstart r < rend r -> rstart c < rend c -> rstart r <= rend c -> rstart c <= rend r ->
  in_range (mkRange (Z.min (rstart r) (rstart c)) (Z.max (rend r) (rend c))) b =
  in_range c b || in_range r b.
Proof.
  intros. apply eq_true_iff_eq. rewrite orb_true_iff, !in_range_true. simpl. lia.
Qed.

Lemma insert_ref_spec lo rs r :
  SepFrom lo rs -> lo < rstart r -> rstart r < rend r ->
  SepFrom lo (insert_ref rs r) /\
  forall b, covers (insert_ref rs r) b = covers rs b || in_range r b.
Proof.
  revert lo r. induction rs as [|c rs IH]; intros lo r Hs Hlo Hr; simpl.
  { split; [done|]. intros b. by rewrite orb_false_r. }
  destruct Hs as (Hc1 & Hc2 & Hs).
  destruct (Z.ltb_spec (rend c) (rstart r)) as [H1|H1].
  { destruct (IH (rend c) r Hs H1 Hr) as [IHs IHc]. split; [done|].
    intros b. simpl. rewrite IHc. by rewrite orb_assoc. }
  destruct (Z.ltb_spec (rend r) (rstart c)) as [H2|H2].
  { split; [done|]. intros b. simpl. by rewrite orb_comm. }
  edestruct (IH lo (mkRange (Z.min (rstart r) (rstart c)) (Z.max (rend r) (rend c)))) as [IHs IHc];
    simpl; [by apply (SepFrom_weaken (rend c)); [lia|]|lia|lia|].
  split; [done|]. intros b. rewrite IHc, in_range_merge by lia.
  destruct (in_range c b), (covers rs b), (in_range r b); done.
Qed.

Lemma insert_ref_upper hi rs r :
  Forall (fun r => rend r <= hi) rs -> rend r <= hi ->
  Forall (fun r => rend r <= hi) (insert_ref rs r).
Proof.
  revert r. induction rs as [|c rs IH]; intros r Hf Hr; simpl; [by constructor|].
  apply Forall_cons_iff in Hf as [Hc Hf].
  destruct (_ <? _); [constructor; auto|]. destruct (_ <? _); [by repeat constructor|].
  apply IH; [done|]. simpl. lia.
Qed.

Lemma range_insert_wf lo hi rs r :
  RangeSet_wf lo hi rs -> lo <= rstart r -> rstart r < rend r -> rend r <= hi ->
  RangeSet_wf lo hi (range_insert rs r).
Proof.
  intros [Hs Hf] Hlo Hr Hhi. rewrite range_insert_ref. split.
  - apply insert_ref_spec; [done|lia|done].
  - by apply insert_ref_upper.
Qed.

Lemma range_insert_covers lo hi rs r b :
  RangeSet_wf lo hi rs -> lo <= rstart r -> rstart r < rend r ->
  covers (range_insert rs r) b = covers rs b || in_range r b.
Proof.
  intros [Hs Hf] Hlo Hr. rewrite range_insert_ref.
  apply (insert_ref_spec (lo - 1)); [done|lia|done].
Qed.

Lemma range_insert_nonempty rs r : range_insert rs r <> [].
Proof.
  rewrite range_insert_ref. revert r.
  induction rs as [|c rs IH]; intros r; simpl; [done|].
  destruct (_ <? _); [done|]. destruct (_ <? _); [done|]. apply IH.
Qed.

(** ** [remove] *)

(** What is left of [cur] once [r] is cut out of it. *)
Definition cut (cur r : ByteRange) : RangeSet :=
  (if rstart cur <? rstart r then [mkRange (rstart cur) (rstart r)] else []) ++
  (if rend r <? rend cur then [mkRange (rend r) (rend cur)] else []).

Lemma range_remove_shape rs r rs' :
  range_remove rs r = (true, rs') ->
  exists pre cur post, rs = pre ++ cur :: post /\ rs' = pre ++ cut cur r ++ post /\
    rstart cur <= rstart r /\ rend r <= rend cur.
Proof.
  unfold range_remove. destruct (list_find _ rs) as [[index cur]|] eqn:E; [|done].
  apply list_find_Some in E as (L & [H1 H2] & _).
  pose proof (take_drop_middle _ _ _ L) as Hm. apply lookup_lt_Some in L.
  assert (length (take index rs) = index) as Hl by (rewrite length_take; lia).
  revert Hl Hm. generalize (take index rs) (drop (S index) rs). intros pre post <- <-.
  clear L. rewrite delete_middle.
  unfold vec_insert.
  destruct (rstart cur <? rstart r) eqn:E1, (rend r <? rend cur) eqn:E2; intros [= <-];
    exists pre, cur, post; (split_and!; [done| |done|done]); unfold cut; rewrite E1, E2; simpl;
    rewrite ?take_app_length, ?drop_app_length; try done.
  rewrite (cons_middle _ pre post), app_assoc.
  replace (S (length pre)) with (length (pre ++ [mkRange (rstart cur) (rstart r)]))
    by (rewrite length_app; simpl; lia).
  rewrite take_app_length, drop_app_length, <- app_assoc. done.
Qed.

Lemma range_remove_false rs r rs' :
  range_remove rs r = (false, rs') ->
  rs' = rs /\ Forall (fun c => ~ (rstart c <= rstart r /\ rend r <= rend c)) rs.
Proof.
  unfold range_remove. destruct (list_find _ rs) as [[index cur]|] eqn:E; [|].
  - destruct (_ <? _), (_ <? _); done.
  - intros [= <-]. by apply list_find_None in E.
Qed.

Lemma covers_app rs rs' b : covers (rs ++ rs') b = covers rs b || covers rs' b.
Proof. apply existsb_app. Qed.

Lemma cut_spec lo cur r post :
  rstart cur <= rstart r -> rend r <= rend cur -> rstart r < rend r ->
  SepFrom lo (cur :: post) ->
  SepFrom lo (cut cur r ++ post) /\
  forall b, covers (cut cur r ++ post) b = covers (cur :: post) b && negb (in_range r b).
Proof.
  intros H1 H2 Hr (Hlo & Hc & Hs). split.
  - unfold cut. destruct (Z.ltb_spec (rstart cur) (rstart r)), (Z.ltb_spec (rend r) (rend cur));
      simpl; try split_and!; try lia; try done; eapply SepFrom_weaken; eauto; lia.
  - intros b. simpl. rewrite covers_app. apply eq_true_iff_eq.
    rewrite andb_true_iff, negb_true_iff, !orb_true_iff, in_range_false, in_range_true.
    assert (covers post b = true -> rend cur < b) by (by apply SepFrom_covers).
    assert (covers (cut cur r) b = true <->
      rstart cur <= b < rend cur /\ ~ (rstart r <= b < rend r)) as ->; [|intuition lia].
    unfold cut. rewrite covers_app, orb_true_iff.
    destruct (Z.ltb_spec (rstart cur) (rstart r)), (Z.ltb_spec (rend r) (rend cur)); simpl;
      rewrite ?orb_false_r, ?in_range_true; simpl; intuition (lia || done).
Qed.

Lemma remove_SepFrom lo pre cur post r :
  rstart cur <= rstart r -> rend r <= rend cur -> rstart r < rend r ->
  SepFrom lo (pre ++ cur :: post) ->
  SepFrom lo (pre ++ cut cur r ++ post) /\
  forall b, covers (pre ++ cut cur r ++ post) b = covers (pre ++ cur :: post) b && negb (in_range r b).
Proof.
  intros H1 H2 Hr. revert lo. induction pre as [|p pre IH]; intros lo Hs.
  { by apply cut_spec. }
  simpl in Hs. destruct Hs as (Hlo & Hp & Hs). destruct (IH _ Hs) as [IHs IHc].
  split; [done|]. intros b. simpl. rewrite IHc.
  destruct (in_range p b) eqn:Ep; simpl; [|done].
  apply in_range_true in Ep. symmetry. apply negb_true_iff, in_range_false.
  assert (covers (pre ++ cur :: post) (rstart cur) = true) as Hcov.
  { rewrite covers_app. simpl. apply orb_true_iff. right. apply orb_true_iff. left.
    apply in_range_true. lia. }
  pose proof (SepFrom_covers _ _ _ Hs Hcov). lia.
Qed.

Lemma range_remove_wf lo hi rs r rs' :
  RangeSet_wf lo hi rs -> rstart r < rend r -> range_remove rs r = (true, rs') ->
  RangeSet_wf lo hi rs' /\
  (forall b, covers rs' b = covers rs b && negb (in_range r b)) /\
  (forall b, in_range r b = true -> covers rs b = true).
Proof.
  intros [Hs Hf] Hr E. apply range_remove_shape in E as (pre & cur & post & -> & -> & H1 & H2).
  destruct (remove_SepFrom _ _ _ _ _ H1 H2 Hr Hs) as [Hs' Hc]. split_and!; [split; [done|]|done|].
  - apply Forall_app in Hf as [Hpre [Hcur Hpost]%Forall_cons_iff].
    apply Forall_app; split; [done|]. apply Forall_app; split; [|done].
    unfold cut. destruct (_ <? _), (_ <? _); repeat constructor; simpl; lia.
  - intros b Hb%in_range_true. rewrite covers_app. simpl.
    rewrite (proj2 (in_range_true cur b)) by lia. by rewrite orb_true_r.
Qed.

(** A fully covered range lies inside one of the ranges, because they do not touch. *)
Lemma covered_single lo rs r :
  SepFrom lo rs -> rstart r < rend r ->
  (forall b, in_range r b = true -> covers rs b = true) ->
  Exists (fun c => rstart c <= rstart r /\ rend r <= rend c) rs.
Proof.
  revert lo. induction rs as [|c rs IH]; intros lo Hs Hr Hcov.
  { specialize (Hcov (rstart r) ltac:(apply in_range_true; lia)). done. }
  destruct Hs as (Hlo & Hc & Hs).
  assert (covers (c :: rs) (rstart r) = true) as H0 by (apply Hcov, in_range_true; lia).
  simpl in H0. apply orb_true_iff in H0 as [H0%in_range_true|H0].
  - left. split; [lia|]. destruct (decide (rend r <= rend c)) as [|Hgt]; [done|exfalso].
    specialize (Hcov (rend c) ltac:(apply in_range_true; lia)). simpl in Hcov.
    apply orb_true_iff in Hcov as [?%in_range_true|Hx]; [lia|].
    pose proof (SepFrom_covers _ _ _ Hs Hx). lia.
  - right. pose proof (SepFrom_covers _ _ _ Hs H0). eapply IH; [done|done|].
    intros b Hb. specialize (Hcov b Hb). simpl in Hcov.
    apply orb_true_iff in Hcov as [?%in_range_true|]; [|done].
    apply in_range_true in Hb. lia.
Qed.

Lemma range_remove_complete lo hi rs r :
  RangeSet_wf lo hi rs -> rstart r < rend r ->
  (forall b, in_range r b = true -> covers rs b = true) ->
  exists rs', range_remove rs r = (true, rs').
Proof.
  intros [Hs Hf] Hr Hcov. destruct (range_remove rs r) as [[|] rs'] eqn:E; [by eexists|exfalso].
  apply range_remove_false in E as [_ E].
  apply (covered_single _ _ _ Hs Hr), List.Exists_exists in Hcov as (c & Hin & Hc).
  rewrite List.Forall_forall in E. by destruct (E c Hin).
Qed.

Lemma new_full_wf lo hi : lo < hi -> new_full lo hi = [mkRange lo hi] /\ RangeSet_wf lo hi (new_full lo hi).
Proof.
  intros H. unfold new_full, ByteRange_new. rewrite (proj2 (Z.ltb_lt _ _)) by done.
  split; [done|]. split; [simpl; lia|]. by repeat constructor.
Qed.

(** ** The vector is the canonical form of its set *)

Lemma covers_first lo r rs :
  SepFrom lo (r :: rs) -> covers (r :: rs) (rstart r) = true /\ covers (r :: rs) (rend r) = false.
Proof.
  simpl. intros (Hlo & Hr & Hs). split.
  - apply orb_true_iff. left. apply in_range_true. lia.
  - apply orb_false_iff. split; [apply in_range_false; lia|].
    destruct (covers rs (rend r)) eqn:E; [|done]. pose proof (SepFrom_covers _ _ _ Hs E). lia.
Qed.

Lemma SepFrom_unique lo rs rs' :
  SepFrom lo rs -> SepFrom lo rs' -> (forall b, covers rs b = covers rs' b) -> rs = rs'.
Proof.
  revert lo rs'. induction rs as [|r rs IH]; intros lo [|r' rs'] Hs Hs' Hc; [done| | |].
  - destruct (covers_first _ _ _ Hs') as [H _]. rewrite <- Hc in H. done.
  - destruct (covers_first _ _ _ Hs) as [H _]. rewrite Hc in H. done.
  - destruct (covers_first _ _ _ Hs) as [Hst He], (covers_first _ _ _ Hs') as [Hst' He'].
    simpl in Hs, Hs'. destruct Hs as (Hlo & Hr & Hs), Hs' as (Hlo' & Hr' & Hs').
    assert (forall b, covers rs b = true -> rend r < b) as K by (intros; by eapply SepFrom_covers).
    assert (forall b, covers rs' b = true -> rend r' < b) as K' by (intros; by eapply SepFrom_covers).
    rewrite Hc in Hst, He. rewrite <- Hc in Hst', He'. simpl in Hst, Hst', He, He'.
    apply orb_true_iff in Hst, Hst'. apply orb_false_iff in He as [He _], He' as [He' _].
    rewrite in_range_true in Hst, Hst'. rewrite in_range_false in He, He'.
    assert (rstart r = rstart r') as Es.
    { destruct Hst as [|Hst%K'], Hst' as [|Hst'%K]; lia. }
    assert (rend r = rend r') as Ee by lia.
    destruct r, r'; simpl in *. subst. f_equal. apply (IH rend1); [done|done|].
    intros b. specialize (Hc b). simpl in Hc.
    destruct (in_range (mkRange rstart1 rend1) b) eqn:Eb; [|done].
    apply in_range_true in Eb. simpl in Eb. apply eq_true_iff_eq. split; intros Hx.
    + apply K in Hx. lia.
    + apply K' in Hx. lia.
Qed.

(** C39: [RangeSet] implements a set of bytes.  [insert] adds the bytes of the
    range and [remove] deletes them; [remove] answers [true] exactly when every
    byte of the range is in the set and otherwise changes nothing; both keep the
    vector sorted with no empty and no touching ranges, and putting a removed
    range back restores the very same vector. *)
Theorem range_set_implements_set lo hi rs r :
  RangeSet_wf lo hi rs -> lo <= rstart r -> rstart r < rend r -> rend r <= hi ->
  RangeSet_wf lo hi (range_insert rs r) /\
  (forall b, covers (range_insert rs r) b = covers rs b || in_range r b) /\
  (fst (range_remove rs r) = true <-> forall b, in_range r b = true -> covers rs b = true) /\
  RangeSet_wf lo hi (snd (range_remove rs r)) /\
  (forall b, covers (snd (range_remove rs r)) b =
     if fst (range_remove rs r) then covers rs b && negb (in_range r b) else covers rs b) /\
  (fst (range_remove rs r) = true -> range_insert (snd (range_remove rs r)) r = rs).
Proof.
  intros W Hlo Hr Hhi. split_and!.
  - by apply range_insert_wf.
  - intros b. by apply (range_insert_covers lo hi).
  - split.
    + intros E. destruct (range_remove rs r) as [[|] rs'] eqn:R; [|done].
      by apply (range_remove_wf lo hi) in R as (_ & _ & ?).
    + intros Hc. by destruct (range_remove_complete _ _ _ _ W Hr Hc) as [rs' ->].
  - destruct (range_remove rs r) as [[|] rs'] eqn:R; simpl.
    + by eapply range_remove_wf.
    + by apply range_remove_false in R as [-> _].
  - intros b. destruct (range_remove rs r) as [[|] rs'] eqn:R; simpl.
    + by eapply range_remove_wf in R as (_ & -> & _).
    + by apply range_remove_false in R as [-> _].
  - destruct (range_remove rs r) as [[|] rs'] eqn:R; simpl; [|done]. intros _.
    destruct (range_remove_wf _ _ _ _ _ W Hr R) as (W' & Hc & Hin).
    apply (SepFrom_unique (lo - 1)).
    + by eapply range_insert_wf.
    + apply W.
    + intros b. rewrite (range_insert_covers lo hi), Hc by done.
      specialize (Hin b). destruct (covers rs b), (in_range r b); naive_solver.
Qed.

Lemma range_set_implements_set_witness :
  range_remove [mkRange 0 10; mkRange 20 40] (mkRange 25 30)
    = (true, [mkRange 0 10; mkRange 20 25; mkRange 30 40]) /\
  range_insert [mkRange 0 10; mkRange 20 25; mkRange 30 40] (mkRange 25 30)
    = [mkRange 0 10; mkRange 20 40].
Proof.
  split; [reflexivity|].
  apply (range_set_implements_set 0 50 [mkRange 0 10; mkRange 20 40] (mkRange 25 30));
    simpl; [|lia|lia|lia|reflexivity].
  split; [simpl; lia|]. repeat constructor; simpl; lia.
Defined.
