(* ===== verification/Segment.v ===== *)
(** * Lease identities and segments ([src/storage/segment.rs])

    A lease names one issue of a byte range; a segment is the range together
    with the lease and the worker that owns it. *)

From S2P Require Import Prelude.

Record LeaseKey := mkKey {
  key_piece_id : nat;
  key_lease_id : Z;
}.

Record Segment := mkSegment {
  seg_piece_id : nat;
  seg_lease_id : Z;
  seg_start : Z;
  seg_end : Z;
  owner_worker_id : nat;
  attempt : Z;
}.

Definition lease_key (segment : Segment) : LeaseKey :=
  mkKey (seg_piece_id segment) (seg_lease_id segment).

#[export] Instance LeaseKey_eq_dec : EqDecision LeaseKey.
Proof. solve_decision. Defined.

#[export] Instance LeaseKey_countable : Countable LeaseKey.
Proof.
  by refine (inj_countable' (fun k => (key_piece_id k, key_lease_id k))
               (fun p => mkKey p.1 p.2) _); intros [].
Defined.

#[export] Instance Segment_eq_dec : EqDecision Segment.
Proof. solve_decision. Defined.
