(* ===== verification/Scheduler.v ===== *)
(** * Piece leases ([src/scheduler.rs], [PieceRuntimeState] and [SchedulerState])

    The scheduler hands out byte ranges of incomplete pieces under leases and
    takes them back when they are acknowledged ([complete]), fail ([reclaim]) or
    stop part-way ([retain_prefix]).  Every method runs under the scheduler's
    mutex, so a method is one atomic step of [SchedulerState]. *)

From S2P Require Import Prelude PieceMap Ranges Segment.

(** ** One touched piece *)

(** [ActiveLeaseState] has the range as its only field; [active_leases] maps a
    lease id to it. *)
Record PieceRuntimeState := mkPiece {
  missing_ranges : RangeSet;
  has_completed_ranges : bool;
  active_leases : gmap Z ByteRange;
  attempt_counter : Z;
}.

(** [PieceRuntimeState::new] *)
Definition piece_new (full_range : ByteRange) : PieceRuntimeState :=
  {| missing_ranges := new_full (rstart full_range) (rend full_range);
     has_completed_ranges := false;
     active_leases := ∅;
     attempt_counter := 0 |}.

Definition next_assignable_range (piece : PieceRuntimeState) : option ByteRange :=
  head (missing_ranges piece).

Definition missing_range_count (piece : PieceRuntimeState) : nat :=
  length (missing_ranges piece).

(** [PieceRuntimeState::issue_lease]; the last component is [*next_lease_id]. *)
Definition piece_issue_lease (piece : PieceRuntimeState) (range : ByteRange)
    (worker_id : nat) (next_lease_id : Z) (piece_id : nat)
    : option Segment * PieceRuntimeState * Z :=
  match range_remove (missing_ranges piece) range with
  | (false, _) => (None, piece, next_lease_id)
  | (true, missing) =>
      let lease_id := next_lease_id in
      let attempt := sat_add32 (attempt_counter piece) 1 in
      (Some {| seg_piece_id := piece_id;
               seg_lease_id := lease_id;
               seg_start := rstart range;
               seg_end := rend range;
               owner_worker_id := worker_id;
               attempt := attempt |},
       {| missing_ranges := missing;
          has_completed_ranges := has_completed_ranges piece;
          active_leases := <[lease_id := range]> (active_leases piece);
          attempt_counter := attempt |},
       sat_add64 next_lease_id 1)
  end.

(** [PieceRuntimeState::renew] *)
Definition piece_renew (piece : PieceRuntimeState) (key : LeaseKey)
    (worker_id : nat) (next_lease_id : Z) (piece_id : nat)
    : option Segment * PieceRuntimeState * Z :=
  match active_leases piece !! key_lease_id key with
  | None => (None, piece, next_lease_id)
  | Some previous =>
      let lease_id := next_lease_id in
      let attempt := sat_add32 (attempt_counter piece) 1 in
      (Some {| seg_piece_id := piece_id;
               seg_lease_id := lease_id;
               seg_start := rstart previous;
               seg_end := rend previous;
               owner_worker_id := worker_id;
               attempt := attempt |},
       {| missing_ranges := missing_ranges piece;
          has_completed_ranges := has_completed_ranges piece;
          active_leases :=
            <[lease_id := previous]> (delete (key_lease_id key) (active_leases piece));
          attempt_counter := attempt |},
       sat_add64 next_lease_id 1)
  end.

(** [PieceRuntimeState::complete]: whether the whole piece is now acknowledged. *)
Definition piece_complete (piece : PieceRuntimeState) (key : LeaseKey)
    : option bool * PieceRuntimeState :=
  match active_leases piece !! key_lease_id key with
  | None => (None, piece)
  | Some _ =>
      let active := delete (key_lease_id key) (active_leases piece) in
      (Some (bool_decide (missing_ranges piece = []) && bool_decide (active = ∅)),
       {| missing_ranges := missing_ranges piece;
          has_completed_ranges := true;
          active_leases := active;
          attempt_counter := attempt_counter piece |})
  end.

(** [PieceRuntimeState::reclaim] *)
Definition piece_reclaim (piece : PieceRuntimeState) (key : LeaseKey)
    : bool * PieceRuntimeState :=
  match active_leases piece !! key_lease_id key with
  | None => (false, piece)
  | Some range =>
      (true,
       {| missing_ranges := range_insert (missing_ranges piece) range;
          has_completed_ranges := has_completed_ranges piece;
          active_leases := delete (key_lease_id key) (active_leases piece);
          attempt_counter := attempt_counter piece |})
  end.

(** ** The scheduler state *)

Record SchedulerState := mkSched {
  piece_map : PieceMap;
  pieces : gmap nat PieceRuntimeState;
  available_pieces : list bool;
  active_lease_count : nat;
  available_range_count : nat;
  next_candidate : nat;
  next_lease_id : Z;
  snapshot_seq : Z;
  stopped : bool;
}.

Definition set_next_candidate (n : nat) (s : SchedulerState) : SchedulerState :=
  {| piece_map := piece_map s; pieces := pieces s; available_pieces := available_pieces s;
     active_lease_count := active_lease_count s;
     available_range_count := available_range_count s; next_candidate := n;
     next_lease_id := next_lease_id s; snapshot_seq := snapshot_seq s; stopped := stopped s |}.

Definition set_pieces (m : gmap nat PieceRuntimeState) (s : SchedulerState) : SchedulerState :=
  {| piece_map := piece_map s; pieces := m; available_pieces := available_pieces s;
     active_lease_count := active_lease_count s;
     available_range_count := available_range_count s; next_candidate := next_candidate s;
     next_lease_id := next_lease_id s; snapshot_seq := snapshot_seq s; stopped := stopped s |}.

Definition set_stopped (b : bool) (s : SchedulerState) : SchedulerState :=
  {| piece_map := piece_map s; pieces := pieces s; available_pieces := available_pieces s;
     active_lease_count := active_lease_count s;
     available_range_count := available_range_count s; next_candidate := next_candidate s;
     next_lease_id := next_lease_id s; snapshot_seq := snapshot_seq s; stopped := b |}.

(** [SchedulerState::new] *)
Definition Scheduler_new (pm : PieceMap) : SchedulerState :=
  {| piece_map := pm;
     pieces := ∅;
     available_pieces := missing_bitset pm;
     active_lease_count := 0;
     available_range_count := remaining_count pm;
     next_candidate := default 0%nat (first_missing pm);
     next_lease_id := 1;
     snapshot_seq := 0;
     stopped := false |}.

Definition full_range (s : SchedulerState) (piece_id : nat) : ByteRange :=
  let '(start, end_) := piece_range (piece_map s) piece_id in mkRange start end_.

(** [SchedulerState::issue_lease]: [entry().or_insert_with()] leaves a fresh
    entry behind even when the range cannot be leased. *)
Definition issue_lease (piece_id : nat) (range : ByteRange) (worker_id : nat)
    : StateOpt SchedulerState Segment := fun s =>
  if stopped s then (None, s)
  else
    let piece := default (piece_new (full_range s piece_id)) (pieces s !! piece_id) in
    let previous_ranges := missing_range_count piece in
    match piece_issue_lease piece range worker_id (next_lease_id s) piece_id with
    | (None, piece', _) => (None, set_pieces (<[piece_id := piece']> (pieces s)) s)
    | (Some segment, piece', next_id) =>
        (Some segment,
         {| piece_map := piece_map s;
            pieces := <[piece_id := piece']> (pieces s);
            available_pieces :=
              <[piece_id := negb (missing_range_count piece' =? 0)%nat]>
                (available_pieces s);
            active_lease_count := S (active_lease_count s);
            available_range_count :=
              (available_range_count s - previous_ranges + missing_range_count piece')%nat;
            next_candidate := next_candidate s;
            next_lease_id := next_id;
            snapshot_seq := snapshot_seq s;
            stopped := stopped s |})
    end.

(** [SchedulerState::assignment_range_for]: split a range when there are spare
    request slots and both halves stay above the minimum. *)
Definition assignment_range_for (s : SchedulerState) (range : ByteRange)
    (max_active_leases : nat) (min_segment_size : Z) : ByteRange :=
  if (max_active_leases <=? 1)%nat || (min_segment_size =? 0) then range
  else
    let total_work_units := (active_lease_count s + available_range_count s)%nat in
    if (max_active_leases <=? total_work_units)%nat then range
    else
      let range_len := rend range ⊖ rstart range in
      if range_len <=? min_segment_size then range
      else
        let desired_units := (max_active_leases - total_work_units + 1)%nat in
        if (desired_units <=? 1)%nat then range
        else
          let target_len := div_ceil range_len (Z.of_nat desired_units) in
          let segment_len := Z.max target_len min_segment_size in
          if (range_len <=? segment_len) || (range_len ⊖ segment_len <? min_segment_size)
          then range
          else mkRange (rstart range) (rstart range ⊕ segment_len).

(** The round-robin scan of [assign_to_with_split]. *)
Definition next_available (s : SchedulerState) : option nat :=
  match first_one (drop (next_candidate s) (available_pieces s)) with
  | Some offset => Some (next_candidate s + offset)%nat
  | None => first_one (take (next_candidate s) (available_pieces s))
  end.

Definition assign_to_with_split (worker_id max_active_leases : nat) (min_segment_size : Z)
    : StateOpt SchedulerState Segment :=
  let? s := get_state in
  if (available_range_count s =? 0)%nat then none
  else
    let? piece_id := lift_option (next_available s) in
    let? range := lift_option
      (match pieces s !! piece_id with
       | Some piece => next_assignable_range piece
       | None => Some (full_range s piece_id)
       end) in
    let? segment := issue_lease piece_id
      (assignment_range_for s range max_active_leases min_segment_size) worker_id in
    let? s' := get_state in
    let? _ := put_state
      (set_next_candidate ((piece_id + 1) mod piece_count (piece_map s'))%nat s') in
    some segment.

Definition assign_to (worker_id : nat) : StateOpt SchedulerState Segment :=
  assign_to_with_split worker_id 1 u64_max.

Definition assign : StateOpt SchedulerState Segment := assign_to 0.

Definition assign_to_with_request_split (worker_id max_requests : nat)
    (min_segment_size : Z) (occupied_requests : nat) : StateOpt SchedulerState Segment :=
  let? s := get_state in
  let available_request_slots := (max_requests - occupied_requests)%nat in
  assign_to_with_split worker_id (active_lease_count s + available_request_slots)
    min_segment_size.

Definition assign_subrange (piece_id : nat) (start end_ : Z) (worker_id : nat)
    : StateOpt SchedulerState Segment :=
  let? s := get_state in
  if (piece_count (piece_map s) <=? piece_id)%nat || is_complete (piece_map s) piece_id then none
  else
    let? range := lift_option (ByteRange_new start end_) in
    let '(piece_start, piece_end) := piece_range (piece_map s) piece_id in
    if (start <? piece_start) || (piece_end <? end_) then none
    else issue_lease piece_id range worker_id.

Definition is_whole_piece_segment (s : SchedulerState) (segment : Segment) : bool :=
  (seg_piece_id segment <? piece_count (piece_map s))%nat &&
  bool_decide (piece_range (piece_map s) (seg_piece_id segment)
               = (seg_start segment, seg_end segment)).

(** ** Giving leases back *)

Definition retain_prefix (key : LeaseKey) (confirmed_end : Z) (s : SchedulerState)
    : bool * SchedulerState :=
  match pieces s !! key_piece_id key with
  | None => (false, s)
  | Some piece =>
      match active_leases piece !! key_lease_id key with
      | None => (false, s)
      | Some active =>
          if (confirmed_end <=? rstart active) || (rend active <=? confirmed_end)
          then (false, s)
          else
            (true,
             set_pieces
               (<[key_piece_id key :=
                    {| missing_ranges := missing_ranges piece;
                       has_completed_ranges := true;
                       active_leases :=
                         <[key_lease_id key := mkRange confirmed_end (rend active)]>
                           (active_leases piece);
                       attempt_counter := attempt_counter piece |}]> (pieces s)) s)
      end
  end.

Definition renew (key : LeaseKey) (worker_id : nat) : StateOpt SchedulerState Segment := fun s =>
  if is_complete (piece_map s) (key_piece_id key) then (None, s)
  else
    match pieces s !! key_piece_id key with
    | None => (None, s)
    | Some piece =>
        let '(segment, piece', next_id) :=
          piece_renew piece key worker_id (next_lease_id s) (key_piece_id key) in
        (segment,
         {| piece_map := piece_map s;
            pieces := <[key_piece_id key := piece']> (pieces s);
            available_pieces := available_pieces s;
            active_lease_count := active_lease_count s;
            available_range_count := available_range_count s;
            next_candidate := next_candidate s;
            next_lease_id := next_id;
            snapshot_seq := snapshot_seq s;
            stopped := stopped s |})
    end.

Definition complete (key : LeaseKey) (s : SchedulerState) : bool * SchedulerState :=
  match pieces s !! key_piece_id key with
  | None => (false, s)
  | Some piece_state =>
      match piece_complete piece_state key with
      | (None, _) => (false, s)
      | (Some done, piece') =>
          (true,
           {| piece_map :=
                if done : bool then mark_complete (piece_map s) (key_piece_id key)
                else piece_map s;
              pieces :=
                if done : bool then delete (key_piece_id key) (pieces s)
                else <[key_piece_id key := piece']> (pieces s);
              available_pieces := available_pieces s;
              active_lease_count := (active_lease_count s - 1)%nat;
              available_range_count := available_range_count s;
              next_candidate := next_candidate s;
              next_lease_id := next_lease_id s;
              snapshot_seq := snapshot_seq s;
              stopped := stopped s |})
      end
  end.

Definition reclaim (key : LeaseKey) (s : SchedulerState) : bool * SchedulerState :=
  match pieces s !! key_piece_id key with
  | None => (false, s)
  | Some piece_state =>
      let previous_ranges := missing_range_count piece_state in
      match piece_reclaim piece_state key with
      | (false, _) => (false, s)
      | (true, piece') =>
          (true,
           {| piece_map := piece_map s;
              pieces := <[key_piece_id key := piece']> (pieces s);
              available_pieces := <[key_piece_id key := true]> (available_pieces s);
              active_lease_count := (active_lease_count s - 1)%nat;
              available_range_count :=
                (available_range_count s - previous_ranges + missing_range_count piece')%nat;
              next_candidate :=
                if (key_piece_id key <? next_candidate s)%nat then key_piece_id key
                else next_candidate s;
              next_lease_id := next_lease_id s;
              snapshot_seq := snapshot_seq s;
              stopped := stopped s |})
      end
  end.

Definition stop_and_reclaim (key : LeaseKey) (s : SchedulerState) : SchedulerState :=
  snd (reclaim key (set_stopped true s)).

(** ** Queries *)

Definition has_available (s : SchedulerState) : bool :=
  negb (stopped s) && negb (available_range_count s =? 0)%nat.

Definition all_done (s : SchedulerState) : bool := pm_all_done (piece_map s).

(** [ControlHints] of [src/storage/control.rs]. *)
Record ControlHints := mkHints {
  dirty_piece_ids : list nat;
  inflight_piece_ids : list nat;
  hints_snapshot_seq : Z;
}.

Definition control_hints (s : SchedulerState) : ControlHints * SchedulerState :=
  let seq := sat_add64 (snapshot_seq s) 1 in
  let active i :=
    match pieces s !! i with
    | Some piece => negb (bool_decide (active_leases piece = ∅))
    | None => false
    end in
  let partial i :=
    match pieces s !! i with
    | Some piece => has_completed_ranges piece
    | None => false
    end in
  ({| dirty_piece_ids := filter (fun i => active i || partial i) (btree_keys (pieces s));
      inflight_piece_ids := filter (fun i => active i) (btree_keys (pieces s));
      hints_snapshot_seq := seq |},
   {| piece_map := piece_map s; pieces := pieces s; available_pieces := available_pieces s;
      active_lease_count := active_lease_count s;
      available_range_count := available_range_count s; next_candidate := next_candidate s;
      next_lease_id := next_lease_id s; snapshot_seq := seq; stopped := stopped s |}).
