(* ===== verification/SchedInv.v ===== *)
(** * The invariant of one piece

    [Piece_wf]: the missing ranges and the active leases of a piece are disjoint and lie
    within it.  [Status] is what is known of a byte: missing, held by one lease, or
    acknowledged. *)

From S2P Require Import Prelude PieceMap Ranges Segment Scheduler.

(** ** One piece *)

(** Byte [b] is held by lease [k] of the piece. *)
Definition leased (p : PieceRuntimeState) (k b : Z) : Prop :=
  exists r, active_leases p !! k = Some r /\ in_range r b = true.

Record Piece_wf (lo hi next : Z) (p : PieceRuntimeState) : Prop := {
  pw_missing : RangeSet_wf lo hi (missing_ranges p);
  pw_active : forall k r, active_leases p !! k = Some r ->
    lo <= rstart r /\ rstart r < rend r /\ rend r <= hi /\ 1 <= k < next;
  pw_disjoint : forall k1 k2 b, leased p k1 b -> leased p k2 b -> k1 = k2;
  pw_apart : forall k b, leased p k b -> covers (missing_ranges p) b = false;
  pw_live : missing_ranges p <> [] \/ active_leases p <> ∅;
  pw_fresh : has_completed_ranges p = false -> forall b, lo <= b < hi ->
    covers (missing_ranges p) b = true \/ exists k, leased p k b;
}.

(** What is known of one byte. *)
Inductive Status :=
| Missing
| Leased (k : LeaseKey)
| Done.

#[export] Instance Status_eq_dec : EqDecision Status.
Proof. solve_decision. Defined.

Definition find_lease (p : PieceRuntimeState) (b : Z) : option Z :=
  match list_find (fun kr => in_range kr.2 b = true) (map_to_list (active_leases p)) with
  | Some (_, (k, _)) => Some k
  | None => None
  end.

Definition piece_status (i : nat) (p : PieceRuntimeState) (b : Z) : Status :=
  if covers (missing_ranges p) b then Missing
  else match find_lease p b with
       | Some k => Leased (mkKey i k)
       | None => Done
       end.

Lemma find_lease_Some p b k : find_lease p b = Some k -> leased p k b.
Proof.
  unfold find_lease. destruct (list_find _ _) as [[n [k' r]]|] eqn:E; [|done].
  intros [= ->]. apply list_find_Some in E as (L & Hr & _).
  exists r. split; [|done]. apply elem_of_map_to_list. by apply list_elem_of_lookup_2 in L.
Qed.

Lemma find_lease_None p b k : find_lease p b = None -> ~ leased p k b.
Proof.
  unfold find_lease. destruct (list_find _ _) as [[n [k' r]]|] eqn:E; [done|].
  intros _ (r & L & Hr). apply list_find_None in E.
  apply elem_of_map_to_list, list_elem_of_In in L.
  rewrite List.Forall_forall in E. by apply (E _ L).
Qed.

(** The three cases of [piece_status] under the invariant. *)
Definition status_cases (i : nat) (p : PieceRuntimeState) (b : Z) (st : Status) : Prop :=
  match st with
  | Missing => covers (missing_ranges p) b = true
  | Leased k => key_piece_id k = i /\ leased p (key_lease_id k) b
  | Done => covers (missing_ranges p) b = false /\ forall k, ~ leased p k b
  end.

Lemma piece_status_cases i p b : status_cases i p b (piece_status i p b).
Proof.
  unfold piece_status. destruct (covers (missing_ranges p) b) eqn:C; [done|].
  destruct (find_lease p b) as [k|] eqn:F; simpl.
  - split; [done|]. by apply find_lease_Some.
  - split; [done|]. intros k. by apply find_lease_None.
Qed.

Lemma piece_status_eq lo hi next i p b st :
  Piece_wf lo hi next p -> status_cases i p b st -> piece_status i p b = st.
Proof.
  intros W H. pose proof (piece_status_cases i p b) as H'.
  destruct (piece_status i p b) as [|k|], st as [|k'|]; simpl in *; try done.
  - destruct H as [_ H%(pw_apart _ _ _ _ W)]. congruence.
  - destruct H. congruence.
  - destruct H' as [_ H'%(pw_apart _ _ _ _ W)]. congruence.
  - destruct H as [<- H], H' as [E H']. f_equal. destruct k, k'; simpl in *. subst.
    by rewrite (pw_disjoint _ _ _ _ W _ _ _ H H').
  - destruct H as [_ H], H' as [_ H']. by destruct (H (key_lease_id k)).
  - destruct H'. congruence.
  - destruct H as [_ H], H' as [_ H']. by destruct (H' (key_lease_id k')).
Qed.

Lemma piece_status_iff lo hi next i p b st :
  Piece_wf lo hi next p -> piece_status i p b = st <-> status_cases i p b st.
Proof.
  intros W. split; [intros <-; apply piece_status_cases|by eapply piece_status_eq].
Qed.

Lemma Piece_wf_mono lo hi next next' p :
  Piece_wf lo hi next p -> next <= next' -> Piece_wf lo hi next' p.
Proof.
  intros [] Hn. split; try done. intros k r L. specialize (pw_active0 k r L). lia.
Qed.

Lemma piece_new_wf lo hi next : lo < hi -> Piece_wf lo hi next (piece_new (mkRange lo hi)).
Proof.
  intros H. destruct (new_full_wf lo hi H) as [E W]. split; simpl.
  - done.
  - intros k r. by rewrite lookup_empty.
  - intros k1 k2 b (r & L & _). simpl in L. by rewrite lookup_empty in L.
  - intros k b (r & L & _). simpl in L. by rewrite lookup_empty in L.
  - rewrite E. by left.
  - intros _ b Hb. left. rewrite E. simpl. rewrite orb_false_r. by apply in_range_true.
Qed.

Lemma piece_new_status lo hi i b :
  lo <= b < hi -> piece_status i (piece_new (mkRange lo hi)) b = Missing.
Proof.
  intros H. apply (piece_status_eq lo hi 0); [apply piece_new_wf; lia|]. simpl.
  rewrite (proj1 (new_full_wf lo hi ltac:(lia))). simpl. rewrite orb_false_r. by apply in_range_true.
Qed.

(** Changes of the lease table, as changes of [leased]. *)
Lemma leased_insert m h l a k r k' b :
  leased (mkPiece m h (<[k := r]> l) a) k' b <->
  (k' = k /\ in_range r b = true) \/ (k' <> k /\ exists r', l !! k' = Some r' /\ in_range r' b = true).
Proof.
  unfold leased. simpl. destruct (decide (k' = k)) as [->|Hne].
  - rewrite lookup_insert_eq. split.
    + intros (r' & [= <-] & H). by left.
    + intros [[_ H]|[? _]]; [by eexists|done].
  - rewrite lookup_insert_ne by done. split; [by right|]. intros [[? _]|[_ H]]; done.
Qed.

Lemma leased_delete m h l a k k' b :
  leased (mkPiece m h (delete k l) a) k' b <->
  k' <> k /\ exists r', l !! k' = Some r' /\ in_range r' b = true.
Proof.
  unfold leased. simpl. destruct (decide (k' = k)) as [->|Hne].
  - rewrite lookup_delete_eq. split; [by intros (? & ? & _)|by intros [? _]].
  - rewrite lookup_delete_ne by done. split; [by split|by intros [_ ?]].
Qed.

(** ** Operations on one piece *)

Section PieceOps.
  Context (lo hi next : Z) (i : nat) (p : PieceRuntimeState).
  Hypothesis W : Piece_wf lo hi next p.

Lemma fresh_id : active_leases p !! next = None.
Proof.
  destruct (active_leases p !! next) eqn:L; [|done]. apply (pw_active _ _ _ _ W) in L. lia.
Qed.

Lemma fresh_leased b : ~ leased p next b.
Proof. intros (? & L & _). by rewrite fresh_id in L. Qed.

Abbreviation issued rs r :=
  (mkPiece rs (has_completed_ranges p) (<[next:=r]> (active_leases p))
     (sat_add32 (attempt_counter p) 1)).

Lemma issued_wf r rs :
  rstart r < rend r -> 1 <= next ->
  range_remove (missing_ranges p) r = (true, rs) -> Piece_wf lo hi (next + 1) (issued rs r).
Proof.
  intros Hr Hn R.
  destruct (range_remove_wf _ _ _ _ _ (pw_missing _ _ _ _ W) Hr R) as (Wr & Hc & Hin).
  split; simpl.
  - done.
  - intros k r0. destruct (decide (k = next)) as [->|Hk].
    + rewrite lookup_insert_eq. intros [= <-].
      pose proof (covers_bounds _ _ _ _ (pw_missing _ _ _ _ W) (Hin (rstart r) ltac:(apply in_range_true; lia))).
      pose proof (covers_bounds _ _ _ _ (pw_missing _ _ _ _ W) (Hin (rend r - 1) ltac:(apply in_range_true; lia))).
      lia.
    + rewrite lookup_insert_ne by done. intros L. apply (pw_active _ _ _ _ W) in L. lia.
  - intros k1 k2 b. rewrite !leased_insert. intros [[-> H1]|[N1 H1]] [[-> H2]|[N2 H2]].
    + done.
    + pose proof (pw_apart _ _ _ _ W _ _ H2). rewrite Hin in *; done.
    + pose proof (pw_apart _ _ _ _ W _ _ H1). rewrite Hin in *; done.
    + by apply (pw_disjoint _ _ _ _ W _ _ b).
  - intros k b. rewrite leased_insert, Hc. intros [[-> H1]|[_ H1]].
    + rewrite H1. by rewrite andb_false_r.
    + by rewrite (pw_apart _ _ _ _ W _ _ H1).
  - right. apply insert_non_empty.
  - intros Hf b Hb. rewrite Hc. destruct (in_range r b) eqn:Er.
    + right. exists next. apply leased_insert. by left.
    + rewrite andb_true_r. destruct (pw_fresh _ _ _ _ W Hf b Hb) as [|[k Hk]]; [by left|right].
      exists k. apply leased_insert. right. split; [|done]. intros ->. by apply fresh_leased in Hk.
Qed.

Lemma piece_issue_spec r w seg p' next' :
  rstart r < rend r -> 1 <= next < u64_max ->
  piece_issue_lease p r w next i = (Some seg, p', next') ->
  next' = next + 1 /\ lease_key seg = mkKey i next /\
  (seg_start seg = rstart r /\ seg_end seg = rend r /\ owner_worker_id seg = w) /\
  Piece_wf lo hi next' p' /\ size (active_leases p') = S (size (active_leases p)) /\
  (forall b, in_range r b = true -> piece_status i p b = Missing) /\
  (forall b, piece_status i p' b =
     if in_range r b then Leased (mkKey i next) else piece_status i p b).
Proof.
  intros Hr Hn E. unfold piece_issue_lease in E.
  destruct (range_remove (missing_ranges p) r) as [[|] rs] eqn:R; [|done].
  destruct (range_remove_wf _ _ _ _ _ (pw_missing _ _ _ _ W) Hr R) as (Wr & Hc & Hin).
  injection E as <- <- <-.
  assert (sat_add64 next 1 = next + 1) as -> by (unfold sat_add64; lia).
  pose proof (issued_wf r rs Hr (proj1 Hn) R) as W'. split_and!; try done.
  - simpl. by rewrite map_size_insert_None by apply fresh_id.
  - intros b Hb. apply (piece_status_eq _ _ _ _ _ _ _ W). by apply Hin.
  - intros b. apply (piece_status_eq _ _ _ _ _ _ _ W').
    destruct (in_range r b) eqn:Er; [split; [done|]; apply leased_insert; by left|].
    pose proof (piece_status_cases i p b) as S. destruct (piece_status i p b) as [|k|]; simpl in *.
    + by rewrite Hc, S, Er.
    + destruct S as [Ek L]. split; [done|]. apply leased_insert. right. split; [|done].
      intros Ex. rewrite Ex in L. by apply fresh_leased in L.
    + destruct S as [C N]. split; [by rewrite Hc, C|]. intros k.
      rewrite leased_insert. intros [[_ ?]|[_ H]]; [congruence|]. by apply (N k).
Qed.

(** A range whose bytes are all missing can be leased. *)
Lemma piece_issue_total r w :
  rstart r < rend r ->
  (forall b, in_range r b = true -> piece_status i p b = Missing) ->
  exists seg p' next', piece_issue_lease p r w next i = (Some seg, p', next').
Proof.
  intros Hr Hm. unfold piece_issue_lease.
  destruct (range_remove_complete lo hi (missing_ranges p) r) as [rs ->]; [apply W|done| |by eauto].
  intros b Hb. specialize (Hm b Hb). by apply (piece_status_iff _ _ _ _ _ _ _ W) in Hm.
Qed.

Lemma piece_issue_None r w p' next' :
  piece_issue_lease p r w next i = (None, p', next') -> p' = p /\ next' = next.
Proof. unfold piece_issue_lease. destruct (range_remove _ _) as [[|] ?]; by intros [=]. Qed.

Abbreviation renewed k r :=
  (mkPiece (missing_ranges p) (has_completed_ranges p)
     (<[next:=r]> (delete k (active_leases p))) (sat_add32 (attempt_counter p) 1)).

Lemma renewed_leased k r k' b :
  active_leases p !! k = Some r ->
  leased (renewed k r) k' b <->
  (k' = next /\ leased p k b) \/ (k' <> next /\ k' <> k /\ leased p k' b).
Proof.
  intros L. rewrite leased_insert. unfold leased.
  assert ((exists r0, active_leases p !! k = Some r0 /\ in_range r0 b = true)
    <-> in_range r b = true) as ->.
  { rewrite L. split; [by intros (? & [= <-] & ?)|by exists r]. }
  destruct (decide (k' = k)) as [->|Hne].
  - rewrite lookup_delete_eq. split.
    + intros [?|(_ & ? & ? & _)]; [by left|done].
    + intros [?|(_ & ? & _)]; [by left|done].
  - rewrite lookup_delete_ne by done. tauto.
Qed.

Lemma renewed_wf k r :
  active_leases p !! k = Some r -> Piece_wf lo hi (next + 1) (renewed k r).
Proof.
  intros L. pose proof (pw_active _ _ _ _ W _ _ L) as Hk. split; simpl.
  - apply W.
  - intros k' r0. destruct (decide (k' = next)) as [->|Hne].
    + rewrite lookup_insert_eq. intros [= <-]. lia.
    + rewrite lookup_insert_ne by done. intros [_ L']%lookup_delete_Some.
      apply (pw_active _ _ _ _ W) in L'. lia.
  - intros k1 k2 b. rewrite !renewed_leased by done.
    intros [[-> H1]|(N1 & M1 & H1)] [[-> H2]|(N2 & M2 & H2)]; [done| | |].
    + destruct M2. by apply (pw_disjoint _ _ _ _ W _ _ b).
    + destruct M1. by apply (pw_disjoint _ _ _ _ W _ _ b).
    + by apply (pw_disjoint _ _ _ _ W _ _ b).
  - intros k' b. rewrite renewed_leased by done.
    intros [[-> H1]|(_ & _ & H1)]; by apply (pw_apart _ _ _ _ W _ _ H1).
  - right. apply insert_non_empty.
  - intros Hf b Hb. destruct (pw_fresh _ _ _ _ W Hf b Hb) as [|[k' H]]; [by left|right].
    destruct (decide (k' = k)) as [->|Hne].
    + exists next. apply renewed_leased; [done|]. by left.
    + exists k'. apply renewed_leased; [done|]. right. split_and!; try done. intros ->.
      by apply fresh_leased in H.
Qed.

Lemma lease_size k r : active_leases p !! k = Some r -> (0 < size (active_leases p))%nat.
Proof.
  intros L. destruct (decide (size (active_leases p) = 0%nat)) as [E|]; [|lia].
  apply map_size_empty_inv in E. rewrite E in L. by rewrite lookup_empty in L.
Qed.

Lemma piece_renew_spec key w seg p' next' :
  1 <= next < u64_max -> key_piece_id key = i ->
  piece_renew p key w next i = (Some seg, p', next') ->
  next' = next + 1 /\ lease_key seg = mkKey i next /\
  active_leases p !! key_lease_id key = Some (mkRange (seg_start seg) (seg_end seg)) /\
  missing_ranges p' = missing_ranges p /\
  Piece_wf lo hi next' p' /\ size (active_leases p') = size (active_leases p) /\
  (forall b, piece_status i p' b =
     if decide (piece_status i p b = Leased key) then Leased (mkKey i next)
     else piece_status i p b).
Proof.
  intros Hn Hi E. unfold piece_renew in E.
  destruct (active_leases p !! key_lease_id key) as [r|] eqn:L; [|done].
  injection E as <- <- <-.
  assert (sat_add64 next 1 = next + 1) as -> by (unfold sat_add64; lia).
  pose proof (renewed_wf _ _ L) as W'. split_and!; try done.
  - simpl. by destruct r.
  - simpl. rewrite map_size_insert_None by (rewrite lookup_delete_None; right; apply fresh_id).
    rewrite map_size_delete_Some by done. pose proof (lease_size _ _ L). lia.
  - intros b. apply (piece_status_eq _ _ _ _ _ _ _ W'). case_decide as D.
    + apply (piece_status_iff _ _ _ _ _ _ _ W) in D as [_ D]. split; [done|].
      apply renewed_leased; [done|]. by left.
    + pose proof (piece_status_cases i p b) as S. destruct (piece_status i p b) as [|k|]; simpl in *.
      * done.
      * destruct S as [Ek Sk]. split; [done|]. apply renewed_leased; [done|]. right. split_and!; try done.
        -- intros Ex. rewrite Ex in Sk. by apply fresh_leased in Sk.
        -- intros Ex. apply D. f_equal. destruct k, key; simpl in *. by subst.
      * destruct S as [C N]. split; [done|]. intros k. rewrite renewed_leased by done.
        intros [[_ H]|(_ & _ & H)]; by eapply N.
Qed.

(** The status of a byte when only its own lease can have changed. *)
Lemma status_other (p' : PieceRuntimeState) (key : LeaseKey) b st :
  key_piece_id key = i -> Piece_wf lo hi next p' ->
  covers (missing_ranges p') b = covers (missing_ranges p) b ||
    (bool_decide (st = Missing) && bool_decide (piece_status i p b = Leased key)) ->
  (forall k, leased p' k b <-> k <> key_lease_id key /\ leased p k b) ->
  st = Missing \/ st = Done ->
  piece_status i p' b = if decide (piece_status i p b = Leased key) then st else piece_status i p b.
Proof.
  intros Hi W' Hc Hl Hst. apply (piece_status_eq _ _ _ _ _ _ _ W'). destruct (decide (piece_status i p b = Leased key)) as [D|D].
  - rewrite (bool_decide_eq_true_2 (piece_status i p b = Leased key)) in Hc by done.
    apply (piece_status_iff _ _ _ _ _ _ _ W) in D as [_ D].
    rewrite (pw_apart _ _ _ _ W _ _ D) in Hc. destruct Hst as [-> | ->]; simpl.
    + done.
    + split; [done|]. intros k. rewrite Hl. intros [Hne H]. destruct Hne; by apply (pw_disjoint _ _ _ _ W _ _ b).
  - rewrite (bool_decide_eq_false_2 (piece_status i p b = Leased key)), andb_false_r, orb_false_r in Hc by done.
    pose proof (piece_status_cases i p b) as S. destruct (piece_status i p b) as [|k|]; simpl in *.
    + by rewrite Hc.
    + destruct S as [Ek Sk]. split; [done|]. apply Hl. split; [|done]. intros Ex. apply D.
      f_equal. destruct k, key; simpl in *. by subst.
    + destruct S as [C N]. split; [congruence|]. intros k. rewrite Hl. intros [_ H]. by apply (N k).
Qed.

Lemma deleted_wf k r ms h :
  active_leases p !! k = Some r -> RangeSet_wf lo hi ms ->
  (forall b, covers ms b = true -> covers (missing_ranges p) b = true \/ leased p k b) ->
  ms <> [] \/ delete k (active_leases p) <> ∅ ->
  (h = false -> forall b, lo <= b < hi ->
     covers ms b = true \/ exists k', k' <> k /\ leased p k' b) ->
  Piece_wf lo hi next (mkPiece ms h (delete k (active_leases p)) (attempt_counter p)).
Proof.
  intros L Wm Hc Hlive Hf. split; simpl; try done.
  - intros k' r' [_ L']%lookup_delete_Some. by apply (pw_active _ _ _ _ W) in L'.
  - intros k1 k2 b. rewrite !leased_delete. intros [_ H1] [_ H2].
    by apply (pw_disjoint _ _ _ _ W _ _ b).
  - intros k' b. rewrite leased_delete. intros [Hne H].
    destruct (covers ms b) eqn:C; [|done]. destruct (Hc _ C) as [C'|H'].
    + pose proof (pw_apart _ _ _ _ W _ _ H). congruence.
    + destruct Hne; by apply (pw_disjoint _ _ _ _ W _ _ b).
  - intros E b Hb. destruct (Hf E b Hb) as [|[k' [Hne H]]]; [by left|right].
    exists k'. by apply leased_delete.
Qed.

Lemma piece_complete_spec key fin p' :
  key_piece_id key = i -> piece_complete p key = (Some fin, p') ->
  (fin = true -> size (active_leases p) = 1%nat /\ missing_ranges p = [] /\
     forall b, piece_status i p b = Leased key \/ piece_status i p b = Done) /\
  (fin = false -> Piece_wf lo hi next p' /\ missing_ranges p' = missing_ranges p /\
     size (active_leases p) = S (size (active_leases p')) /\
     forall b, piece_status i p' b =
       if decide (piece_status i p b = Leased key) then Done else piece_status i p b).
Proof.
  intros Hi E. unfold piece_complete in E.
  destruct (active_leases p !! key_lease_id key) as [r|] eqn:L; [|done].
  assert (size (delete (key_lease_id key) (active_leases p)) = pred (size (active_leases p))) as Hsz
    by (apply map_size_delete_Some; by eexists).
  pose proof (lease_size _ _ L) as Hpos. injection E as <- <-. split.
  - intros [Hm Ha]%andb_true_iff. rewrite bool_decide_eq_true in Hm, Ha.
    rewrite Ha, map_size_empty in Hsz. split_and!; [lia|done|].
    intros b. pose proof (piece_status_cases i p b) as S.
    destruct (piece_status i p b) as [|k|]; simpl in S; [by rewrite Hm in S|left|by right].
    destruct S as (Ek & r' & L' & _).
    destruct (decide (key_lease_id k = key_lease_id key)) as [Eq|Hne].
    + f_equal. destruct k, key; simpl in *. by subst.
    + assert (delete (key_lease_id key) (active_leases p) !! key_lease_id k = Some r') as Hx
        by (by rewrite lookup_delete_ne). rewrite Ha in Hx. by rewrite lookup_empty in Hx.
  - intros Hnot. assert (Piece_wf lo hi next (mkPiece (missing_ranges p) true
      (delete (key_lease_id key) (active_leases p)) (attempt_counter p))) as W'.
    { apply (deleted_wf _ r); [done|apply W|intros b ?; by left| |done].
      apply andb_false_iff in Hnot. rewrite !bool_decide_eq_false in Hnot. done. }
    split_and!; [done|done|simpl; lia|].
    intros b. apply status_other; [done|done| | |by right].
    + rewrite bool_decide_eq_false_2 by done. by rewrite orb_false_r.
    + intros k. by rewrite leased_delete.
Qed.

Lemma status_lease_range key r b :
  key_piece_id key = i -> active_leases p !! key_lease_id key = Some r ->
  piece_status i p b = Leased key <-> in_range r b = true.
Proof.
  intros Hi L. rewrite (piece_status_iff _ _ _ _ _ _ _ W). simpl. unfold leased. rewrite L. split.
  - by intros (_ & ? & [= <-] & ?).
  - intros H. split; [done|]. by exists r.
Qed.

Lemma piece_reclaim_spec key p' :
  key_piece_id key = i -> piece_reclaim p key = (true, p') ->
  Piece_wf lo hi next p' /\ missing_ranges p' <> [] /\
  size (active_leases p) = S (size (active_leases p')) /\
  forall b, piece_status i p' b =
    if decide (piece_status i p b = Leased key) then Missing else piece_status i p b.
Proof.
  intros Hi E. unfold piece_reclaim in E.
  destruct (active_leases p !! key_lease_id key) as [r|] eqn:L; [|done]. injection E as <-.
  pose proof (pw_active _ _ _ _ W _ _ L) as Hr.
  assert (forall b, covers (range_insert (missing_ranges p) r) b =
    covers (missing_ranges p) b || in_range r b) as Hc.
  { intros b. apply (range_insert_covers lo hi); [apply W|lia|lia]. }
  assert (Piece_wf lo hi next (mkPiece (range_insert (missing_ranges p) r)
    (has_completed_ranges p) (delete (key_lease_id key) (active_leases p)) (attempt_counter p))) as W'.
  { apply (deleted_wf _ r); [done|apply range_insert_wf; [apply W|lia|lia|lia]| | |].
    - intros b. rewrite Hc, orb_true_iff. intros [?|?]; [by left|right]. by exists r.
    - left. apply range_insert_nonempty.
    - intros Hf b Hb. rewrite Hc. destruct (pw_fresh _ _ _ _ W Hf b Hb) as [->|[k H]]; [by left|].
      destruct (decide (k = key_lease_id key)) as [->|Hne]; [left|right; by exists k].
      destruct H as (r' & L' & H). rewrite L in L'. injection L' as <-. by rewrite H, orb_true_r. }
  split_and!; [done|apply range_insert_nonempty| |].
  - simpl. rewrite map_size_delete_Some by done. pose proof (lease_size _ _ L). lia.
  - intros b. apply status_other; [done|done| | |by left].
    + simpl. rewrite Hc. f_equal.
      apply eq_true_iff_eq. rewrite bool_decide_eq_true. by rewrite status_lease_range.
    + intros k. by rewrite leased_delete.
Qed.

Abbreviation retained k e r :=
  (mkPiece (missing_ranges p) true (<[k := mkRange e (rend r)]> (active_leases p))
     (attempt_counter p)).

Lemma retained_spec key e r :
  key_piece_id key = i -> active_leases p !! key_lease_id key = Some r -> rstart r < e < rend r ->
  Piece_wf lo hi next (retained (key_lease_id key) e r) /\
  size (active_leases (retained (key_lease_id key) e r)) = size (active_leases p) /\
  forall b, piece_status i (retained (key_lease_id key) e r) b =
    if decide (piece_status i p b = Leased key /\ b < e) then Done else piece_status i p b.
Proof.
  intros Hi L He. pose proof (pw_active _ _ _ _ W _ _ L) as Hr. set (p' := retained _ e r).
  assert (forall k b, leased p' k b <-> leased p k b /\ (k = key_lease_id key -> e <= b)) as Hl.
  { intros k b. unfold p'. rewrite leased_insert. unfold leased.
    destruct (decide (k = key_lease_id key)) as [->|Hne]; [|tauto]. rewrite L. split.
    - intros [[_ H%in_range_true]|[? _]]; [|done]. simpl in H. split; [|lia].
      exists r. split; [done|]. apply in_range_true. lia.
    - intros [(r' & [= <-] & H%in_range_true) Hb]. left. split; [done|].
      apply in_range_true. simpl. specialize (Hb eq_refl). lia. }
  assert (Piece_wf lo hi next p') as W'.
  { split; try done.
    - apply W.
    - simpl. intros k r'. destruct (decide (k = key_lease_id key)) as [->|Hne].
      + rewrite lookup_insert_eq. intros [= <-]. simpl. lia.
      + rewrite lookup_insert_ne by done. apply W.
    - intros k1 k2 b. rewrite !Hl. intros [H1 _] [H2 _]. by apply (pw_disjoint _ _ _ _ W _ _ b).
    - intros k b. rewrite Hl. intros [H _]. by apply (pw_apart _ _ _ _ W _ _ H).
    - right. apply insert_non_empty. }
  split_and!; [done|simpl; apply map_size_insert_Some; by eexists|].
  intros b. apply (piece_status_eq _ _ _ _ _ _ _ W'). case_decide as D.
  - destruct D as [[_ D]%(piece_status_iff _ _ _ _ _ _ _ W) Hb]. split.
    + apply (pw_apart _ _ _ _ W _ _ D).
    + intros k. rewrite Hl. intros [H He']. specialize (He' (pw_disjoint _ _ _ _ W _ _ _ H D)). lia.
  - pose proof (piece_status_cases i p b) as S. destruct (piece_status i p b) as [|k|]; simpl in *.
    + done.
    + destruct S as [Ek Sk]. split; [done|]. apply Hl. split; [done|]. intros Ex.
      destruct (decide (e <= b)) as [|]; [done|exfalso]. apply D. split; [|lia].
      f_equal. destruct k, key; simpl in *. by subst.
    + destruct S as [C N]. split; [done|]. intros k. rewrite Hl. intros [H _]. by apply (N k).
Qed.
End PieceOps.
