(* ===== verification/SchedSpec.v ===== *)
(** * The scheduler invariant, and the status of every byte

    [Sched_wf] is the invariant the scheduler's mutex protects.  [status] maps a
    scheduler state to its specification: each byte of the file is missing, held
    by one lease, or acknowledged.  The lemmas of this file give every method's
    effect on both. *)

From S2P Require Import Prelude PieceMap Ranges Segment Scheduler SchedInv.

Definition total_of (s : SchedulerState) : Z := total_size (piece_map s).

Definition count (s : SchedulerState) : nat := piece_count (piece_map s).

Definition plo (s : SchedulerState) (i : nat) : Z := piece_lo (piece_size (piece_map s)) i.

Definition phi (s : SchedulerState) (i : nat) : Z := piece_hi (total_of s) (piece_size (piece_map s)) i.

(** The number of missing ranges, and of leases, of piece [i]. *)
Definition piece_avail (s : SchedulerState) (i : nat) : nat :=
  match pieces s !! i with
  | Some p => length (missing_ranges p)
  | None => if bit (piece_map s) i then 0 else 1
  end%nat.

Definition piece_active (s : SchedulerState) (i : nat) : nat :=
  match pieces s !! i with
  | Some p => size (active_leases p)
  | None => 0
  end%nat.

Record Sched_wf (s : SchedulerState) : Prop := {
  sw_pm : PieceMap_wf (piece_map s);
  sw_len : length (available_pieces s) = count s;
  sw_pieces : forall i p, pieces s !! i = Some p ->
    (i < count s)%nat /\ bit (piece_map s) i = false /\
    Piece_wf (plo s i) (phi s i) (next_lease_id s) p;
  sw_avail : forall i, (i < count s)%nat ->
    default false (available_pieces s !! i) = negb (piece_avail s i =? 0)%nat;
  sw_active : active_lease_count s = nsum (piece_active s) (count s);
  sw_ranges : available_range_count s = nsum (piece_avail s) (count s);
  sw_next_id : 1 <= next_lease_id s <= u64_max;
  sw_candidate : (next_candidate s < count s)%nat \/ next_candidate s = 0%nat;
}.

Definition status (s : SchedulerState) (b : Z) : Status :=
  let i := piece_of (piece_size (piece_map s)) b in
  match pieces s !! i with
  | Some p => piece_status i p b
  | None => if bit (piece_map s) i then Done else Missing
  end.

(** Two byte statuses that agree on the file. *)
Definition same_status (total : Z) (st st' : Z -> Status) : Prop :=
  forall b, 0 <= b < total -> st b = st' b.

#[export] Instance same_status_equiv total : Equivalence (same_status total).
Proof.
  split.
  - by intros st b.
  - intros st st' H b Hb. by rewrite H.
  - intros st1 st2 st3 H1 H2 b Hb. by rewrite H1, H2.
Qed.

(** The runtime state [issue_lease] works on. *)
Definition current_piece (s : SchedulerState) (i : nat) : PieceRuntimeState :=
  default (piece_new (full_range s i)) (pieces s !! i).

Lemma plo_phi s i : Sched_wf s -> (i < count s)%nat -> 0 <= plo s i < phi s i /\ phi s i <= total_of s.
Proof.
  intros W Hi. pose proof (sw_pm _ W) as P. unfold count in Hi. rewrite (wf_count _ P) in Hi.
  pose proof (piece_bounds _ _ _ (wf_geometry _ P) Hi). unfold plo, phi, total_of. lia.
Qed.

Lemma full_range_exact s i :
  Sched_wf s -> (i < count s)%nat -> full_range s i = mkRange (plo s i) (phi s i).
Proof. intros W Hi. unfold full_range. by rewrite piece_range_exact by (done || apply W). Qed.

Lemma in_piece s i b :
  Sched_wf s -> plo s i <= b < phi s i -> piece_of (piece_size (piece_map s)) b = i.
Proof. intros W. apply piece_of_unique, (sw_pm _ W). Qed.

Lemma byte_piece s b :
  Sched_wf s -> 0 <= b < total_of s ->
  let i := piece_of (piece_size (piece_map s)) b in
  (i < count s)%nat /\ plo s i <= b < phi s i.
Proof.
  intros W Hb i. pose proof (sw_pm _ W) as P.
  destruct (piece_of_spec _ _ _ (wf_geometry _ P) Hb) as [Hi Hr].
  rewrite <- (wf_count _ P) in Hi. done.
Qed.

Section CurrentPiece.
  Context (s : SchedulerState) (i : nat).
  Hypothesis (W : Sched_wf s) (Hi : (i < count s)%nat) (Hbit : bit (piece_map s) i = false).

Lemma current_wf : Piece_wf (plo s i) (phi s i) (next_lease_id s) (current_piece s i).
Proof.
  unfold current_piece. destruct (pieces s !! i) as [p|] eqn:E; cbn [from_option].
  - by apply (sw_pieces _ W) in E as (_ & _ & ?).
  - rewrite full_range_exact by done. apply piece_new_wf, plo_phi; done.
Qed.

Lemma current_avail : piece_avail s i = length (missing_ranges (current_piece s i)).
Proof.
  unfold piece_avail, current_piece. destruct (pieces s !! i) as [p|] eqn:E; [done|]. cbn [from_option].
  rewrite Hbit, full_range_exact by done.
  pose proof (plo_phi s i W Hi). unfold piece_new. cbn [missing_ranges rstart rend].
  by rewrite (proj1 (new_full_wf (plo s i) (phi s i) ltac:(lia))).
Qed.

Lemma current_active : piece_active s i = size (active_leases (current_piece s i)).
Proof.
  unfold piece_active, current_piece. destruct (pieces s !! i) as [p|] eqn:E; simpl; [done|].
  by rewrite map_size_empty.
Qed.

Lemma current_status b :
  plo s i <= b < phi s i -> status s b = piece_status i (current_piece s i) b.
Proof.
  intros Hb. unfold status, current_piece. rewrite (in_piece s i b) by done.
  destruct (pieces s !! i) as [p|] eqn:E; [done|]. cbn [from_option].
  rewrite Hbit, full_range_exact by done. by rewrite piece_new_status.
Qed.
End CurrentPiece.

(** A lease holds bytes of its own piece only. *)
Lemma status_key s b k : status s b = Leased k -> key_piece_id k = piece_of (piece_size (piece_map s)) b.
Proof.
  unfold status. destruct (pieces s !! _) as [p|] eqn:E.
  - intros H. pose proof (piece_status_cases (piece_of (piece_size (piece_map s)) b) p b) as S.
    rewrite H in S. by destruct S.
  - by destruct (bit _ _).
Qed.

(** ** The specification: what one lease operation does to the bytes *)

Definition spec_issue (r : ByteRange) (k : LeaseKey) (st : Z -> Status) (b : Z) : Status :=
  if in_range r b then Leased k else st b.

(** Every byte of lease [k] moves to [to]: acknowledged, missing or re-leased. *)
Definition spec_move (k : LeaseKey) (to : Status) (st : Z -> Status) (b : Z) : Status :=
  if decide (st b = Leased k) then to else st b.

Definition spec_retain (k : LeaseKey) (e : Z) (st : Z -> Status) (b : Z) : Status :=
  if decide (st b = Leased k /\ b < e) then Done else st b.

(** ** Replacing the runtime state of one incomplete piece *)

Section Update.
  Context (s s' : SchedulerState) (i : nat) (p' : PieceRuntimeState).
  Hypothesis (W : Sched_wf s) (Hi : (i < count s)%nat) (Hbit : bit (piece_map s) i = false).
  Hypothesis (Hpm : piece_map s' = piece_map s).
  Hypothesis (Hpieces : pieces s' = <[i := p']> (pieces s)).
  Hypothesis (Havail : available_pieces s' =
    <[i := negb (length (missing_ranges p') =? 0)%nat]> (available_pieces s)).
  Hypothesis (Hact : (active_lease_count s' + piece_active s i =
    active_lease_count s + size (active_leases p'))%nat).
  Hypothesis (Hrng : (available_range_count s' + piece_avail s i =
    available_range_count s + length (missing_ranges p'))%nat).
  Hypothesis (Hid : next_lease_id s <= next_lease_id s' <= u64_max).
  Hypothesis (Hcand : (next_candidate s' < count s)%nat \/ next_candidate s' = 0%nat).
  Hypothesis (Hp' : Piece_wf (plo s i) (phi s i) (next_lease_id s') p').

Lemma avail_update j :
  piece_avail s' j = if decide (j = i) then length (missing_ranges p') else piece_avail s j.
Proof.
  unfold piece_avail. rewrite Hpieces, Hpm. case_decide as D.
  - subst. by rewrite lookup_insert_eq.
  - by rewrite lookup_insert_ne.
Qed.

Lemma active_update j :
  piece_active s' j = if decide (j = i) then size (active_leases p') else piece_active s j.
Proof.
  unfold piece_active. rewrite Hpieces. case_decide as D.
  - subst. by rewrite lookup_insert_eq.
  - by rewrite lookup_insert_ne.
Qed.

Lemma Sched_wf_update : Sched_wf s'.
Proof.
  pose proof (sw_len _ W) as Hlen.
  assert (count s' = count s) as Hc by (unfold count; by rewrite Hpm).
  split; rewrite ?Hc, ?Hpm.
  - apply W.
  - by rewrite Havail, length_insert.
  - intros j p. unfold plo, phi, total_of. rewrite Hpm, Hpieces. intros E.
    destruct (decide (j = i)) as [->|Hne].
    + rewrite lookup_insert_eq in E. injection E as <-. done.
    + rewrite lookup_insert_ne in E by done.
      destruct (sw_pieces _ W _ _ E) as (? & ? & ?). split_and!; try done.
      eapply Piece_wf_mono; [done|lia].
  - intros j Hj. rewrite Havail, avail_update. destruct (decide (j = i)) as [->|Hne].
    + rewrite list_lookup_insert_eq by lia. done.
    + rewrite list_lookup_insert_ne by done. by apply (sw_avail _ W).
  - pose proof (nsum_update (piece_active s') (piece_active s) _ i Hi) as N.
    rewrite active_update, decide_True in N by done. rewrite <- (sw_active _ W) in N.
    specialize (N ltac:(intros j Hj; by rewrite active_update, decide_False)). lia.
  - pose proof (nsum_update (piece_avail s') (piece_avail s) _ i Hi) as N.
    rewrite avail_update, decide_True in N by done. rewrite <- (sw_ranges _ W) in N.
    specialize (N ltac:(intros j Hj; by rewrite avail_update, decide_False)). lia.
  - pose proof (sw_next_id _ W). lia.
  - done.
Qed.

Lemma status_update b :
  status s' b =
  if decide (piece_of (piece_size (piece_map s)) b = i) then piece_status i p' b else status s b.
Proof.
  unfold status. rewrite Hpieces, Hpm. case_decide as D.
  - rewrite D. by rewrite lookup_insert_eq.
  - by rewrite lookup_insert_ne.
Qed.

(** The byte statuses change as those of the piece do. *)
Lemma status_update_map (f : Z -> Status -> Status) :
  (forall b, plo s i <= b < phi s i ->
     piece_status i p' b = f b (piece_status i (current_piece s i) b)) ->
  (forall b, 0 <= b < total_of s -> piece_of (piece_size (piece_map s)) b <> i ->
     f b (status s b) = status s b) ->
  same_status (total_of s) (status s') (fun b => f b (status s b)).
Proof.
  intros Hin Hout b Hb. rewrite status_update. destruct (byte_piece s b W Hb) as [Hj Hr].
  case_decide as D.
  - rewrite D in Hr. rewrite (current_status s i W Hi Hbit) by done. by apply Hin.
  - by rewrite Hout.
Qed.

Lemma status_update_move key to :
  key_piece_id key = i ->
  (forall b, piece_status i p' b =
     if decide (piece_status i (current_piece s i) b = Leased key) then to
     else piece_status i (current_piece s i) b) ->
  same_status (total_of s) (status s') (spec_move key to (status s)).
Proof.
  intros Hk H b Hb. unfold spec_move. rewrite status_update.
  destruct (byte_piece s b W Hb) as [Hj Hr]. destruct (decide (_ = i)) as [D|D].
  - rewrite D in Hr. by rewrite (current_status s i W Hi Hbit) by done.
  - rewrite decide_False; [done|]. intros E%status_key. congruence.
Qed.
End Update.


(** No byte of the file is held by [k]. *)
Definition unused (total : Z) (k : LeaseKey) (st : Z -> Status) : Prop :=
  forall b, 0 <= b < total -> st b <> Leased k.

Inductive spec_step (total : Z) (st st' : Z -> Status) : Prop :=
| spec_issue_step r k :
    0 <= rstart r -> rstart r < rend r -> rend r <= total ->
    (forall b, in_range r b = true -> st b = Missing) -> unused total k st ->
    same_status total st' (spec_issue r k st) -> spec_step total st st'
| spec_ack_step k :
    same_status total st' (spec_move k Done st) -> spec_step total st st'
| spec_release_step k :
    same_status total st' (spec_move k Missing st) -> spec_step total st st'
| spec_renew_step k k' :
    unused total k' st ->
    same_status total st' (spec_move k (Leased k') st) -> spec_step total st st'
| spec_retain_step k e :
    same_status total st' (spec_retain k e st) -> spec_step total st st'
| spec_skip_step :
    same_status total st' st -> spec_step total st st'.

#[export] Instance spec_move_proper total k to :
  Proper (same_status total ==> same_status total) (spec_move k to).
Proof. intros st st' H b Hb. unfold spec_move. by rewrite H. Qed.

#[export] Instance spec_issue_proper total r k :
  Proper (same_status total ==> same_status total) (spec_issue r k).
Proof. intros st st' H b Hb. unfold spec_issue. by rewrite H. Qed.

(** ** Issuing *)

(** Lease ids only grow. *)
Definition id_grows (s s' : SchedulerState) : Prop :=
  next_lease_id s <= u64_max -> next_lease_id s <= next_lease_id s' <= u64_max.

#[export] Instance id_grows_preorder : PreOrder id_grows.
Proof.
  split.
  - intros s H. lia.
  - intros s1 s2 s3 H1 H2 H. specialize (H1 H). specialize (H2 ltac:(lia)). lia.
Qed.

Lemma issue_lease_grows i r w s : id_grows s (snd (issue_lease i r w s)).
Proof.
  unfold issue_lease, id_grows. destruct (stopped s); [simpl; lia|].
  unfold piece_issue_lease. destruct (range_remove _ _) as [[|] rs]; simpl; [|lia].
  unfold sat_add64. lia.
Qed.

(** A fresh lease identity is not in use. *)
Lemma fresh_unused s i : Sched_wf s -> unused (total_of s) (mkKey i (next_lease_id s)) (status s).
Proof.
  intros W b Hb. unfold status. destruct (pieces s !! _) as [p|] eqn:E.
  - intros S. pose proof (piece_status_cases (piece_of (piece_size (piece_map s)) b) p b) as C.
    rewrite S in C. destruct C as (_ & r & L & _). simpl in L.
    apply (sw_pieces _ W) in E as (_ & _ & Wp). apply (pw_active _ _ _ _ Wp) in L. lia.
  - by destruct (bit _ _).
Qed.

(** What a successful [issue_lease] did. *)
Record Issued (s s' : SchedulerState) (i : nat) (r : ByteRange) (w : nat) (seg : Segment) : Prop := {
  is_key : lease_key seg = mkKey i (next_lease_id s);
  is_next : next_lease_id s' = next_lease_id s + 1;
  is_start : seg_start seg = rstart r;
  is_end : seg_end seg = rend r;
  is_owner : owner_worker_id seg = w;
  is_nonempty : rstart r < rend r;
  is_lo : plo s i <= rstart r;
  is_hi : rend r <= phi s i;
  is_missing : forall b, in_range r b = true -> status s b = Missing;
  is_status : same_status (total_of s) (status s') (spec_issue r (lease_key seg) (status s));
}.

Lemma count_avail_ge s i : Sched_wf s -> (i < count s)%nat -> (piece_avail s i <= available_range_count s)%nat.
Proof. intros W Hi. rewrite (sw_ranges _ W). by apply nsum_ge. Qed.

Lemma count_active_ge s i : Sched_wf s -> (i < count s)%nat -> (piece_active s i <= active_lease_count s)%nat.
Proof. intros W Hi. rewrite (sw_active _ W). by apply nsum_ge. Qed.

Lemma avail_bit_same s i :
  Sched_wf s -> (i < count s)%nat ->
  <[i := negb (piece_avail s i =? 0)%nat]> (available_pieces s) = available_pieces s.
Proof.
  intros W Hi. apply list_insert_id. pose proof (sw_avail _ W i Hi) as A.
  destruct (available_pieces s !! i) eqn:L; simpl in A; [by rewrite A|].
  apply lookup_ge_None in L. rewrite (sw_len _ W) in L. lia.
Qed.

Lemma issue_lease_spec s i r w res s' :
  Sched_wf s -> (i < count s)%nat -> bit (piece_map s) i = false -> rstart r < rend r ->
  issue_lease i r w s = (res, s') -> next_lease_id s' < u64_max ->
  Sched_wf s' /\ piece_map s' = piece_map s /\ next_candidate s' = next_candidate s /\
  stopped s' = stopped s /\
  match res with
  | Some seg => Issued s s' i r w seg
  | None => same_status (total_of s) (status s') (status s)
  end.
Proof.
  intros W Hi Hbit Hr E Hlim. unfold issue_lease in E.
  destruct (stopped s) eqn:Hst; [injection E as <- <-; split_and!; done|].
  fold (current_piece s i) in E.
  pose proof (current_wf s i W Hi) as Wp. pose proof (sw_next_id _ W) as Hid.
  pose proof (count_avail_ge s i W Hi). pose proof (current_avail s i W Hi Hbit) as Hav.
  pose proof (current_active s i) as Hac. pose proof (sw_candidate _ W) as Hcand.
  destruct (piece_issue_lease (current_piece s i) r w (next_lease_id s) i) as [[[seg|] p'] n'] eqn:P.
  - injection E as <- <-. simpl in Hlim.
    assert (next_lease_id s < u64_max) as Hlt.
    { unfold piece_issue_lease in P. destruct (range_remove _ _) as [[|] ?]; [|done].
      injection P as _ _ <-. unfold sat_add64 in Hlim. lia. }
    destruct (piece_issue_spec _ _ _ i _ Wp r w seg p' n' Hr ltac:(lia) P)
      as (-> & Hkey & (Hs & He & Ho) & Wp' & Hsz & Hmiss & Hstat).
    assert (forall b, in_range r b = true -> plo s i <= b < phi s i) as Hbd.
    { intros b Hb. eapply covers_bounds; [apply (pw_missing _ _ _ _ Wp)|].
      exact (proj1 (piece_status_iff _ _ _ i _ _ Missing Wp) (Hmiss b Hb)). }
    pose proof (Hbd (rstart r) ltac:(apply in_range_true; lia)).
    pose proof (Hbd (rend r - 1) ltac:(apply in_range_true; lia)).
    set (s' := mkSched _ _ _ _ _ _ _ _ _).
    assert (Sched_wf s') as W'.
    { apply (Sched_wf_update s s' i p'); simpl; unfold missing_range_count; try done; lia. }
    split_and!; try done. split; simpl; try done; try lia.
    + intros b Hb. rewrite (current_status s i) by (done || by apply Hbd). by apply Hmiss.
    + apply (status_update_map s s' i p' W Hi Hbit eq_refl eq_refl
        (fun b st => if in_range r b then Leased (lease_key seg) else st)).
      * intros b Hb. rewrite Hstat. by rewrite Hkey.
      * intros b Hb Hne. destruct (in_range r b) eqn:Er; [|done].
        destruct Hne. apply in_piece; [done|]. by apply Hbd.
  - injection E as <- <-. apply (piece_issue_None) in P as [-> ->].
    split_and!; try done.
    + apply (Sched_wf_update s _ i (current_piece s i)); simpl; try done; try lia.
      by rewrite <- Hav, avail_bit_same.
    + apply (status_update_map s (set_pieces (<[i:=current_piece s i]> (pieces s)) s) i
        (current_piece s i) W Hi Hbit eq_refl eq_refl (fun _ st => st)); done.
Qed.

(** A range of missing bytes of one piece can always be leased. *)
Lemma issue_lease_total s i r w :
  Sched_wf s -> (i < count s)%nat -> bit (piece_map s) i = false -> stopped s = false ->
  rstart r < rend r -> plo s i <= rstart r -> rend r <= phi s i ->
  (forall b, in_range r b = true -> status s b = Missing) ->
  exists seg s', issue_lease i r w s = (Some seg, s').
Proof.
  intros W Hi Hbit Hst Hr Hlo Hhi Hm. unfold issue_lease. rewrite Hst. fold (current_piece s i).
  destruct (piece_issue_total _ _ (next_lease_id s) i _ (current_wf s i W Hi) r w Hr)
    as (seg & p' & n' & ->); [|by eauto].
  intros b Hb. rewrite <- (current_status s i) by (done || (apply in_range_true in Hb; lia)). by apply Hm.
Qed.

(** ** Giving leases back *)

(** The range a lease holds. *)
Definition lease_range (s : SchedulerState) (key : LeaseKey) : option ByteRange :=
  p ← pieces s !! key_piece_id key; active_leases p !! key_lease_id key.

Lemma lease_range_Some s key r :
  lease_range s key = Some r <->
  exists p, pieces s !! key_piece_id key = Some p /\ active_leases p !! key_lease_id key = Some r.
Proof. unfold lease_range. rewrite bind_Some. done. Qed.

(** The bytes a lease holds are exactly those of its range. *)
Lemma lease_range_status s key r :
  Sched_wf s -> lease_range s key = Some r ->
  plo s (key_piece_id key) <= rstart r /\ rstart r < rend r /\ rend r <= phi s (key_piece_id key) /\
  forall b, status s b = Leased key <-> in_range r b = true.
Proof.
  intros W (p & Ep & L)%lease_range_Some. destruct (sw_pieces _ W _ _ Ep) as (Hi & Hbit & Wp).
  pose proof (pw_active _ _ _ _ Wp _ _ L) as Hr. split_and!; try lia. intros b. split.
  - intros E. pose proof (status_key _ _ _ E) as Hk. unfold status in E. rewrite <- Hk, Ep in E.
    by apply (status_lease_range _ _ _ _ _ Wp key r b eq_refl L).
  - intros E. pose proof (proj1 (in_range_true r b) E).
    unfold status. rewrite (in_piece s (key_piece_id key) b W ltac:(lia)), Ep.
    by apply (status_lease_range _ _ _ _ _ Wp key r b eq_refl L).
Qed.

Lemma lease_range_None s key b : lease_range s key = None -> status s b <> Leased key.
Proof.
  intros N E. pose proof (status_key _ _ _ E) as Hk. unfold status in E. rewrite <- Hk in E.
  unfold lease_range in N. destruct (pieces s !! key_piece_id key) as [p|]; simpl in N.
  - pose proof (piece_status_cases (key_piece_id key) p b) as C. rewrite E in C.
    destruct C as (_ & r & L & _). congruence.
  - by destruct (bit _ _).
Qed.

Lemma spec_move_unused total key to st : unused total key st -> same_status total st (spec_move key to st).
Proof. intros U b Hb. unfold spec_move. rewrite decide_False; [done|]. by apply U. Qed.

Lemma reclaim_false s key s' : reclaim key s = (false, s') -> s' = s /\ lease_range s key = None.
Proof.
  unfold reclaim, lease_range, piece_reclaim. destruct (pieces s !! key_piece_id key) as [p|]; simpl.
  - destruct (active_leases p !! key_lease_id key); by intros [= <-].
  - by intros [= <-].
Qed.

Lemma reclaim_spec s key res s' :
  Sched_wf s -> reclaim key s = (res, s') ->
  Sched_wf s' /\ piece_map s' = piece_map s /\ next_lease_id s' = next_lease_id s /\
  stopped s' = stopped s /\ (res = true <-> is_Some (lease_range s key)) /\
  same_status (total_of s) (status s') (spec_move key Missing (status s)).
Proof.
  intros W E. destruct res.
  2: { apply reclaim_false in E as [-> N]. rewrite N. split_and!; try done.
       apply spec_move_unused. intros b _. by apply lease_range_None. }
  unfold reclaim in E. destruct (pieces s !! key_piece_id key) as [p|] eqn:Ep; [|done].
  destruct (piece_reclaim p key) as [[|] p'] eqn:P; [|done].
  destruct (sw_pieces _ W _ _ Ep) as (Hi & Hbit & Wp).
  destruct (piece_reclaim_spec _ _ _ _ _ Wp key p' eq_refl P) as (Wp' & Hne & Hsz & Hstat).
  assert (is_Some (lease_range s key)) as HL.
  { unfold piece_reclaim in P. unfold lease_range. rewrite Ep. simpl.
    by destruct (active_leases p !! key_lease_id key). }
  pose proof (sw_candidate _ W). pose proof (sw_next_id _ W).
  pose proof (count_avail_ge s _ W Hi) as Ha. pose proof (count_active_ge s _ W Hi) as Hb.
  unfold piece_avail, piece_active in Ha, Hb. rewrite Ep in Ha, Hb.
  injection E as <-. set (s' := mkSched _ _ _ _ _ _ _ _ _).
  split_and!; try done.
  - apply (Sched_wf_update s s' (key_piece_id key) p'); simpl; try done; try lia.
    + rewrite (proj2 (Nat.eqb_neq _ _)); [done|]. by destruct (missing_ranges p').
    + unfold piece_active. rewrite Ep. lia.
    + unfold piece_avail, missing_range_count. rewrite Ep. lia.
    + destruct (Nat.ltb_spec (key_piece_id key) (next_candidate s)); [by left|done].
  - apply (status_update_move s s' (key_piece_id key) p' W Hi Hbit eq_refl eq_refl); [done|].
    intros b. unfold current_piece. rewrite Ep. apply Hstat.
Qed.

Lemma renew_grows key w s : id_grows s (snd (renew key w s)).
Proof.
  unfold renew, id_grows. destruct (is_complete _ _); [simpl; lia|].
  destruct (pieces s !! _); [|simpl; lia]. unfold piece_renew.
  destruct (active_leases _ !! _); simpl; [|lia]. unfold sat_add64. lia.
Qed.

Lemma renew_spec s key w res s' :
  Sched_wf s -> renew key w s = (res, s') -> next_lease_id s' < u64_max ->
  Sched_wf s' /\ piece_map s' = piece_map s /\ stopped s' = stopped s /\
  (is_Some res <-> is_Some (lease_range s key)) /\
  match res with
  | Some seg =>
      lease_key seg = mkKey (key_piece_id key) (next_lease_id s) /\
      lease_range s key = Some (mkRange (seg_start seg) (seg_end seg)) /\
      same_status (total_of s) (status s') (spec_move key (Leased (lease_key seg)) (status s))
  | None => same_status (total_of s) (status s') (status s)
  end.
Proof.
  intros W E Hlim. unfold renew in E. unfold lease_range.
  destruct (is_complete (piece_map s) (key_piece_id key)) eqn:C.
  { injection E as <- <-. split_and!; try done. split; intros [r H]; [done|].
    apply lease_range_Some in H as (p & Ep & _). apply (sw_pieces _ W) in Ep as (_ & Hb & _).
    rewrite is_complete_bit in C by apply W. congruence. }
  destruct (pieces s !! key_piece_id key) as [p|] eqn:Ep; simpl.
  2: { injection E as <- <-. by split_and!. }
  destruct (sw_pieces _ W _ _ Ep) as (Hi & Hbit & Wp).
  pose proof (sw_candidate _ W). pose proof (sw_next_id _ W) as Hid.
  destruct (piece_renew p key w (next_lease_id s) (key_piece_id key)) as [[[seg|] p'] n'] eqn:P.
  - injection E as <- <-. simpl in Hlim.
    assert (next_lease_id s < u64_max) as Hlt.
    { unfold piece_renew in P. destruct (active_leases p !! _); [|done].
      injection P as _ _ <-. unfold sat_add64 in Hlim. lia. }
    destruct (piece_renew_spec _ _ _ _ _ Wp key w seg p' n' ltac:(lia) eq_refl P)
      as (-> & Hkey & HL & Hmiss & Wp' & Hsz & Hstat).
    set (s' := mkSched _ _ _ _ _ _ _ _ _). rewrite HL. split_and!; try done.
    + apply (Sched_wf_update s s' (key_piece_id key) p'); simpl; try done; try lia.
      * rewrite Hmiss. pose proof (avail_bit_same s _ W Hi) as A. unfold piece_avail in A.
        rewrite Ep in A. by rewrite A.
      * unfold piece_active. rewrite Ep. lia.
      * unfold piece_avail. rewrite Ep, Hmiss. lia.
    + rewrite Hkey. apply (status_update_move s s' (key_piece_id key) p' W Hi Hbit eq_refl eq_refl); [done|].
      intros b. unfold current_piece. rewrite Ep. apply Hstat.
  - unfold piece_renew in P. destruct (active_leases p !! key_lease_id key); [done|].
    injection P as <- <-. injection E as <- <-.
    assert (mkSched (piece_map s) (<[key_piece_id key:=p]> (pieces s)) (available_pieces s)
      (active_lease_count s) (available_range_count s) (next_candidate s) (next_lease_id s)
      (snapshot_seq s) (stopped s) = s) as -> by (rewrite insert_id by done; by destruct s).
    by split_and!.
Qed.

Lemma retain_prefix_spec s key e res s' :
  Sched_wf s -> retain_prefix key e s = (res, s') ->
  Sched_wf s' /\ piece_map s' = piece_map s /\ next_lease_id s' = next_lease_id s /\
  stopped s' = stopped s /\
  (res = true <-> exists r, lease_range s key = Some r /\ rstart r < e < rend r) /\
  if res then
    same_status (total_of s) (status s') (spec_retain key e (status s)) /\
    lease_range s' key = (fun r => mkRange e (rend r)) <$> lease_range s key
  else s' = s.
Proof.
  intros W E. unfold retain_prefix in E. unfold lease_range at 1.
  destruct (pieces s !! key_piece_id key) as [p|] eqn:Ep; simpl.
  2: { injection E as <- <-. split_and!; try done. split; [done|by intros (? & ? & _)]. }
  destruct (active_leases p !! key_lease_id key) as [r|] eqn:L.
  2: { injection E as <- <-. split_and!; try done. split; [done|by intros (? & ? & _)]. }
  destruct (sw_pieces _ W _ _ Ep) as (Hi & Hbit & Wp).
  destruct ((e <=? rstart r) || (rend r <=? e)) eqn:B.
  { injection E as <- <-. split_and!; try done. split; [done|]. intros (? & [= <-] & ?).
    rewrite orb_true_iff, !Z.leb_le in B. lia. }
  rewrite orb_false_iff, !Z.leb_gt in B.
  destruct (retained_spec _ _ _ _ _ Wp key e r eq_refl L ltac:(lia)) as (Wp' & Hsz & Hstat).
  injection E as <- <-. pose proof (sw_candidate _ W). pose proof (sw_next_id _ W).
  set (p' := mkPiece _ true _ _) in *. set (s' := set_pieces _ s). split_and!; try done.
  - apply (Sched_wf_update s s' (key_piece_id key) p'); try done.
    + pose proof (avail_bit_same s _ W Hi) as A. unfold piece_avail in A. rewrite Ep in A. symmetry. exact A.
    + unfold piece_active. rewrite Ep. simpl in *. lia.
    + unfold piece_avail. rewrite Ep. done.
    + simpl. lia.
  - split; [|done]. intros _. exists r. split; [done|lia].
  - intros b Hb. rewrite (status_update s s' (key_piece_id key) p') by done. unfold spec_retain.
    destruct (byte_piece s b W Hb) as [Hj Hr]. destruct (decide (_ = key_piece_id key)) as [D|D].
    + rewrite Hstat. unfold status. by rewrite D, Ep.
    + rewrite decide_False; [done|]. intros [E%status_key _]. congruence.
  - unfold lease_range. simpl. rewrite lookup_insert_eq, Ep. simpl. by rewrite lookup_insert_eq, L.
Qed.

(** The last acknowledgement of a piece moves it to the piece map. *)
Lemma complete_last s key p :
  Sched_wf s -> pieces s !! key_piece_id key = Some p ->
  size (active_leases p) = 1%nat -> missing_ranges p = [] ->
  (forall b, piece_status (key_piece_id key) p b = Leased key \/
             piece_status (key_piece_id key) p b = Done) ->
  let s' := mkSched (mark_complete (piece_map s) (key_piece_id key))
    (delete (key_piece_id key) (pieces s)) (available_pieces s) (active_lease_count s - 1)%nat
    (available_range_count s) (next_candidate s) (next_lease_id s) (snapshot_seq s) (stopped s) in
  Sched_wf s' /\ same_status (total_of s) (status s') (spec_move key Done (status s)).
Proof.
  intros W Ep Hsz Hm Hst s'. set (i := key_piece_id key) in *.
  destruct (sw_pieces _ W _ _ Ep) as (Hi & Hbit & Wp).
  destruct (mark_complete_geometry (piece_map s) i) as (Gt & Gp & Gc).
  assert (forall j, bit (piece_map s') j = if decide (j = i) then true else bit (piece_map s) j) as Hb.
  { intros j. unfold s'. simpl. rewrite bit_mark_complete by apply W.
    destruct (decide (j = i)); [by rewrite decide_True|]. by rewrite decide_False by tauto. }
  assert (forall j, piece_avail s' j = piece_avail s j) as Hav.
  { intros j. unfold piece_avail. rewrite Hb. simpl. destruct (decide (j = i)) as [->|Hne].
    - by rewrite lookup_delete_eq, Ep, Hm.
    - by rewrite lookup_delete_ne. }
  assert (forall j, piece_active s' j = if decide (j = i) then 0%nat else piece_active s j) as Hac.
  { intros j. unfold piece_active. simpl. case_decide as D.
    - by rewrite D, lookup_delete_eq.
    - by rewrite lookup_delete_ne. }
  assert (count s' = count s) as Hc by (unfold count; exact Gc). split.
  - split; rewrite ?Hc; try apply W.
    + apply mark_complete_wf_lemma, W.
    + intros j q. simpl. intros [Hne E]%lookup_delete_Some.
      destruct (sw_pieces _ W _ _ E) as (Hj & Hjb & Wq).
      split_and!; [done|by rewrite Hb, decide_False|].
      unfold plo, phi, total_of. simpl. by rewrite Gt, Gp.
    + intros j Hj. rewrite Hav. by apply (sw_avail _ W).
    + simpl. rewrite (sw_active _ W).
      pose proof (nsum_update (piece_active s') (piece_active s) _ i Hi) as N.
      rewrite Hac, decide_True in N by done.
      assert (piece_active s i = 1%nat) by (unfold piece_active; by rewrite Ep).
      specialize (N ltac:(intros j Hj; by rewrite Hac, decide_False)). lia.
    + simpl. rewrite (sw_ranges _ W). apply nsum_ext. done.
  - intros b Hbb. unfold spec_move.
    assert (status s' b = if decide (piece_of (piece_size (piece_map s)) b = i) then Done else status s b) as ->.
    { unfold status. assert (piece_size (piece_map s') = piece_size (piece_map s)) as -> by exact Gp.
      rewrite Hb. change (pieces s') with (delete i (pieces s)). destruct (decide (_ = i)) as [D|D].
      - by rewrite D, lookup_delete_eq.
      - by rewrite lookup_delete_ne. }
    destruct (decide (_ = i)) as [D|D].
    + unfold status. rewrite D, Ep. destruct (Hst b) as [-> | ->]; [by rewrite decide_True|by rewrite decide_False].
    + rewrite decide_False; [done|]. intros E%status_key. by destruct D.
Qed.

Lemma complete_spec s key res s' :
  Sched_wf s -> complete key s = (res, s') ->
  Sched_wf s' /\ total_of s' = total_of s /\ piece_size (piece_map s') = piece_size (piece_map s) /\
  next_lease_id s' = next_lease_id s /\ stopped s' = stopped s /\
  (res = true <-> is_Some (lease_range s key)) /\
  same_status (total_of s) (status s') (spec_move key Done (status s)).
Proof.
  intros W E. unfold complete in E.
  assert (is_Some (lease_range s key) \/ lease_range s key = None) as [HL|HN]
    by (destruct (lease_range s key); [by left|by right]).
  2: { assert (res = false /\ s' = s) as [-> ->].
       { unfold lease_range in HN. destruct (pieces s !! key_piece_id key) as [p|]; simpl in HN.
         - unfold piece_complete in E. rewrite HN in E. by injection E as <- <-.
         - by injection E as <- <-. }
       rewrite HN. split_and!; try done.
       apply spec_move_unused. intros b _. by apply lease_range_None. }
  pose proof HL as [r (p & Ep & L)%lease_range_Some]. rewrite Ep in E.
  destruct (sw_pieces _ W _ _ Ep) as (Hi & Hbit & Wp).
  destruct (piece_complete p key) as [[fin|] p'] eqn:P;
    [|unfold piece_complete in P; by rewrite L in P].
  destruct (piece_complete_spec _ _ _ _ _ Wp key fin p' eq_refl P) as [Hfin Hnot].
  destruct (mark_complete_geometry (piece_map s) (key_piece_id key)) as (Gt & Gp & Gc).
  injection E as <- <-. destruct fin.
  - destruct (Hfin eq_refl) as (Hsz & Hm & Hst).
    destruct (complete_last s key p W Ep Hsz Hm Hst). split_and!; done.
  - destruct (Hnot eq_refl) as (Wp' & Hm & Hsz & Hstat). clear Hfin Hnot.
    pose proof (count_active_ge s _ W Hi) as Hge. unfold piece_active in Hge. rewrite Ep in Hge.
    pose proof (sw_next_id _ W). set (s' := mkSched _ _ _ _ _ _ _ _ _).
    split_and!; try done.
    + apply (Sched_wf_update s s' (key_piece_id key) p'); try done.
      * rewrite Hm. pose proof (avail_bit_same s _ W Hi) as A. unfold piece_avail in A. rewrite Ep in A.
        symmetry. exact A.
      * unfold piece_active. rewrite Ep. simpl in *. lia.
      * unfold piece_avail. rewrite Ep, Hm. done.
      * simpl. lia.
      * apply W.
    + apply (status_update_move s s' (key_piece_id key) p' W Hi Hbit eq_refl eq_refl); [done|].
      intros b. unfold current_piece. rewrite Ep. apply Hstat.
Qed.
