(* ===== verification/Planner.v ===== *)
(** * Request planning ([src/scheduler.rs], [assign_request*], the fixed batch
      extension, recovery batches and the dynamic planner)

    One HTTP request may own several piece leases.  Fixed mode extends a whole
    piece by the untouched pieces after it; dynamic mode plans shares of the runs
    of untouched pieces; recovery re-issues a contiguous set of ranges.  All of
    them end in [issue_lease] and roll back through [reclaim]. *)

From S2P Require Import Prelude PieceMap Ranges Segment Scheduler.


(** [MAX_REQUEST_LEASES] *)
Definition MAX_REQUEST_LEASES : nat := 64.

Inductive RangeSchedulingMode := Fixed | Dynamic.

(** [effective_dynamic_min_split_size] of [src/config.rs] *)
Definition effective_dynamic_min_split_size (piece_size configured : Z) : Z :=
  let piece_size := Z.max piece_size 1 in
  Z.max (sat_mul64 (div_ceil (Z.max configured piece_size) piece_size) piece_size) piece_size.

Record AllocationCandidate := mkCandidate {
  cand_start : Z;
  cand_end : Z;
  first_piece : nat;
  end_piece : nat;
}.

Definition cand_len (c : AllocationCandidate) : Z := sat_sub64 (cand_end c) (cand_start c).

Record DynamicCandidateShare := mkShare {
  share_start : Z;
  share_end : Z;
  share_slots : nat;
  share_bytes : Z;
}.

Record RequestAssignment := mkAssignment {
  segments : list Segment;
  candidate_start : Z;
  candidate_end : Z;
  candidate_boundary_scanned : bool;
  candidate_slots : nat;
  target_end : Z;
  candidate_shares : option (list DynamicCandidateShare);
  final_start : Z;
  final_end : Z;
  available_request_slots : nat;
  occupied_requests : nat;
  planned_ranges : nat;
  truncation_reason : string;
}.

(** [RequestAssignment::single] *)
Definition assignment_single (segment : Segment) (slots occupied : nat) : RequestAssignment :=
  {| segments := [segment];
     candidate_start := seg_start segment;
     candidate_end := seg_end segment;
     candidate_boundary_scanned := false;
     candidate_slots := 1;
     target_end := seg_end segment;
     candidate_shares := None;
     final_start := seg_start segment;
     final_end := seg_end segment;
     available_request_slots := slots;
     occupied_requests := occupied;
     planned_ranges := 1;
     truncation_reason := "none"%string |}.

(** [RequestAssignment::from_segments] *)
Definition from_segments (segs : list Segment) (slots occupied : nat) (reason : string)
    : option RequestAssignment :=
  match head segs, last segs with
  | Some first, Some last =>
      Some {| segments := segs;
              candidate_start := seg_start first;
              candidate_end := seg_end last;
              candidate_boundary_scanned := false;
              candidate_slots := 1;
              target_end := seg_end last;
              candidate_shares := None;
              final_start := seg_start first;
              final_end := seg_end last;
              available_request_slots := slots;
              occupied_requests := occupied;
              planned_ranges := 1;
              truncation_reason := reason |}
  | _, _ => None
  end.

(** ** Fixed mode *)

Definition is_untouched_piece (s : SchedulerState) (piece_id : nat) : bool :=
  (piece_id <? piece_count (piece_map s))%nat &&
  default false (available_pieces s !! piece_id) &&
  negb (is_complete (piece_map s) piece_id) &&
  bool_decide (pieces s !! piece_id = None).

Definition is_fresh_whole_lease (s : SchedulerState) (segment : Segment) : bool :=
  if negb (bool_decide (piece_range (piece_map s) (seg_piece_id segment)
                        = (seg_start segment, seg_end segment)))
  then false
  else
    match pieces s !! seg_piece_id segment with
    | None => false
    | Some piece =>
        (size (active_leases piece) =? 1)%nat &&
        negb (has_completed_ranges piece) &&
        bool_decide (active_leases piece !! seg_lease_id segment
                     = Some (mkRange (seg_start segment) (seg_end segment))) &&
        bool_decide (missing_ranges piece = [])
    end.

(** The [while] loop of [fresh_run_end], bounded by the number of pieces. *)
Fixpoint run_end_loop (fuel : nat) (s : SchedulerState) (end_piece : nat) : nat :=
  match fuel with
  | O => end_piece
  | S fuel =>
      if (end_piece <? piece_count (piece_map s))%nat && is_untouched_piece s end_piece
      then run_end_loop fuel s (S end_piece)
      else end_piece
  end.

Definition fresh_run_end (s : SchedulerState) (first_piece : nat) : Z :=
  let end_piece := run_end_loop (piece_count (piece_map s)) s (S first_piece) in
  snd (piece_range (piece_map s) (end_piece - 1)%nat).

(** The [for] loop of [extend_batch_with_occupied] over the pieces [ids]. *)
Fixpoint extend_loop (ids : list nat) (first : Segment) (worker_id reserved_for_peers : nat)
    (byte_cap : Z) (additional : list Segment) (request_end : Z) (s : SchedulerState)
    : list Segment * string * SchedulerState :=
  match ids with
  | [] => (additional, "candidate_exhausted"%string, s)
  | piece_id :: ids =>
      if (MAX_REQUEST_LEASES <=? length additional + 1)%nat then (additional, "lease_limit"%string, s)
      else if (available_range_count s <=? reserved_for_peers)%nat
      then (additional, "request_slots_reserved"%string, s)
      else if negb (default false (available_pieces s !! piece_id)) ||
              negb (bool_decide (pieces s !! piece_id = None))
      then (additional, "candidate_boundary"%string, s)
      else
        let '(start, end_) := piece_range (piece_map s) piece_id in
        if negb (start =? request_end) || (byte_cap <? end_ ⊖ seg_start first)
        then (additional, "max_request_bytes"%string, s)
        else
          match issue_lease piece_id (mkRange start end_) worker_id s with
          | (None, s') => (additional, "lease_issue_failed"%string, s')
          | (Some segment, s') =>
              extend_loop ids first worker_id reserved_for_peers byte_cap
                (additional ++ [segment]) end_
                (set_next_candidate ((piece_id + 1) mod piece_count (piece_map s'))%nat s')
          end
  end.

Definition extend_batch_with_occupied (first : Segment) (worker_id max_connections occupied : nat)
    (byte_cap : Z) (s : SchedulerState) : list Segment * string * SchedulerState :=
  match pieces s !! seg_piece_id first with
  | None => ([], "first_lease_not_found"%string, s)
  | Some piece =>
      match active_leases piece !! seg_lease_id first with
      | None => ([], "first_lease_not_found"%string, s)
      | Some active =>
          let '(start, end_) := piece_range (piece_map s) (seg_piece_id first) in
          if negb (owner_worker_id first =? worker_id)%nat ||
             negb (bool_decide ((seg_start first, seg_end first) = (start, end_))) ||
             negb (bool_decide (active = mkRange start end_))
          then ([], "first_lease_not_whole"%string, s)
          else if byte_cap =? 0 then ([], "batch_disabled"%string, s)
          else
            let reserved_for_peers := (max_connections - (occupied + 1))%nat in
            extend_loop
              (seq (S (seg_piece_id first))
                   (piece_count (piece_map s) - S (seg_piece_id first)))
              first worker_id reserved_for_peers byte_cap [] (seg_end first) s
      end
  end.

Definition extend_batch (first : Segment) (worker_id max_connections : nat) (byte_cap : Z)
    (s : SchedulerState) : list Segment * SchedulerState :=
  let '(additional, _, s') :=
    extend_batch_with_occupied first worker_id max_connections 0 byte_cap s in
  (additional, s').

Definition assign_fixed_request (worker_id max_requests : nat) (min_segment_size : Z)
    (occupied : nat) (request_batch_size : Z) (slots : nat) (collect_diagnostics : bool)
    : StateOpt SchedulerState RequestAssignment :=
  let? s := get_state in
  let max_active_leases := (active_lease_count s + slots)%nat in
  let? first := assign_to_with_split worker_id max_active_leases min_segment_size in
  let? s1 := get_state in
  let batch_allowed := attempt first =? 1 in
  let scan_candidate_boundary :=
    collect_diagnostics && batch_allowed &&
    (sat_sub64 (seg_end first) (seg_start first) <? request_batch_size) &&
    is_fresh_whole_lease s1 first in
  let candidate_end :=
    if scan_candidate_boundary then fresh_run_end s1 (seg_piece_id first) else seg_end first in
  let '(additional, reason, s2) :=
    if batch_allowed
    then extend_batch_with_occupied first worker_id max_requests occupied request_batch_size s1
    else ([], "recovered_or_retried"%string, s1) in
  let? _ := put_state s2 in
  let segs := first :: additional in
  some {| segments := segs;
          candidate_start := seg_start first;
          candidate_end := candidate_end;
          candidate_boundary_scanned := scan_candidate_boundary;
          candidate_slots := 1;
          target_end := candidate_end;
          candidate_shares := None;
          final_start := seg_start first;
          final_end := from_option seg_end 0 (last segs);
          available_request_slots := slots;
          occupied_requests := occupied;
          planned_ranges := Nat.min slots (available_range_count s2 + length segs);
          truncation_reason := reason |}.

(** ** Recovery batches *)

(** Undo the leases of an abandoned batch, last issued first. *)
Definition rollback (segs : list Segment) (s : SchedulerState) : SchedulerState :=
  foldr (fun issued s => snd (reclaim (lease_key issued) s)) s segs.

Fixpoint recovery_valid (s : SchedulerState) (previous : option (nat * Z))
    (planned : list (nat * Z * Z)) : bool :=
  match planned with
  | [] => true
  | (piece_id, start, end_) :: planned =>
      if (piece_count (piece_map s) <=? piece_id)%nat then false
      else
        let '(piece_start, piece_end) := piece_range (piece_map s) piece_id in
        if (end_ <=? start) || (start <? piece_start) || (piece_end <? end_) ||
           is_complete (piece_map s) piece_id ||
           match previous with
           | Some (previous_piece, previous_end) =>
               negb (piece_id =? previous_piece + 1)%nat || negb (start =? previous_end)
           | None => false
           end
        then false
        else recovery_valid s (Some (piece_id, end_)) planned
  end.

Fixpoint recovery_loop (planned : list (nat * Z * Z)) (worker_id : nat) (segs : list Segment)
    : StateOpt SchedulerState (list Segment) := fun s =>
  match planned with
  | [] => (Some segs, s)
  | (piece_id, start, end_) :: planned =>
      match issue_lease piece_id (mkRange start end_) worker_id s with
      | (None, s') => (None, rollback segs s')
      | (Some segment, s') => recovery_loop planned worker_id (segs ++ [segment]) s'
      end
  end.

Definition assign_recovery_batch (planned : list (nat * Z * Z)) (worker_id : nat)
    : StateOpt SchedulerState (list Segment) := fun s =>
  if bool_decide (planned = []) || (MAX_REQUEST_LEASES <? length planned)%nat then (None, s)
  else if negb (recovery_valid s None planned) then (None, s)
  else recovery_loop planned worker_id [] s.

(** ** Dynamic mode *)

Definition candidate_of (s : SchedulerState) (first_piece end_piece : nat) : AllocationCandidate :=
  {| cand_start := fst (piece_range (piece_map s) first_piece);
     cand_end := snd (piece_range (piece_map s) (end_piece - 1)%nat);
     first_piece := first_piece;
     end_piece := end_piece |}.

(** The inner loop of [dynamic_candidates]: touched pieces cut an available run
    apart.  The result is the candidates so far and the next first piece. *)
Definition cut_run (s : SchedulerState) (acc : list AllocationCandidate * nat)
    (touched_piece : nat) : list AllocationCandidate * nat :=
  let '(candidates, first_piece) := acc in
  (if (first_piece <? touched_piece)%nat
   then candidates ++ [candidate_of s first_piece touched_piece]
   else candidates,
   S touched_piece).

Definition run_candidates (s : SchedulerState) (first_available available_end : nat)
    (candidates : list AllocationCandidate) : list AllocationCandidate :=
  let '(candidates, first_piece) :=
    fold_left (cut_run s) (btree_range (pieces s) first_available available_end)
      (candidates, first_available) in
  if (first_piece <? available_end)%nat
  then candidates ++ [candidate_of s first_piece available_end]
  else candidates.

(** The outer loop; every round moves [search_from] forward, so the number of
    pieces bounds the rounds. *)
Fixpoint candidates_loop (fuel : nat) (s : SchedulerState) (search_from : nat)
    (candidates : list AllocationCandidate) : list AllocationCandidate :=
  match fuel with
  | O => candidates
  | S fuel =>
      if (search_from <? piece_count (piece_map s))%nat then
        match first_one (drop search_from (available_pieces s)) with
        | None => candidates
        | Some offset =>
            let first_available := (search_from + offset)%nat in
            let available_end :=
              match first_zero (drop first_available (available_pieces s)) with
              | Some offset => (first_available + offset)%nat
              | None => piece_count (piece_map s)
              end in
            candidates_loop fuel s available_end
              (run_candidates s first_available available_end candidates)
        end
      else candidates
  end.

Definition dynamic_candidates (s : SchedulerState) : list AllocationCandidate :=
  candidates_loop (piece_count (piece_map s)) s 0 [].

Definition aligned_dynamic_min_split_size (s : SchedulerState) (configured : Z) : Z :=
  effective_dynamic_min_split_size (piece_size (piece_map s)) configured.

Definition dynamic_legal_split_bounds (s : SchedulerState) (candidate : AllocationCandidate)
    (min_split_size : Z) : option (nat * nat) :=
  if (end_piece candidate <=? first_piece candidate + 1)%nat ||
     (min_split_size =? 0) ||
     (cand_len candidate / min_split_size <? 2)
  then None
  else
    let piece_size := Z.max (piece_size (piece_map s)) 1 in
    let min_pieces := Z.to_nat (div_ceil min_split_size piece_size) in
    let first_legal_piece := (first_piece candidate + min_pieces)%nat in
    let last_legal_piece :=
      Nat.min (Z.to_nat (sat_sub64 (cand_end candidate) min_split_size / piece_size))
              (end_piece candidate - 1) in
    if (first_legal_piece <=? last_legal_piece)%nat
    then Some (first_legal_piece, last_legal_piece)
    else None.

Definition max_dynamic_slots (s : SchedulerState) (candidate : AllocationCandidate)
    (min_split_size : Z) : nat :=
  let piece_count := (end_piece candidate - first_piece candidate)%nat in
  let by_minimum :=
    if min_split_size =? 0 then piece_count
    else Nat.max (Z.to_nat (cand_len candidate / min_split_size)) 1 in
  if (by_minimum <? 2)%nat ||
     bool_decide (dynamic_legal_split_bounds s candidate min_split_size = None)
  then 1%nat
  else Nat.max (Nat.min piece_count by_minimum) 1.

(** [left.len() / left_slots] against [right.len() / right_slots] by cross
    multiplication; the products of two 64-bit values fit [u128]. *)
Definition compare_dynamic_shares (left : AllocationCandidate) (left_slots : nat)
    (right : AllocationCandidate) (right_slots : nat) : comparison :=
  match Z.compare (cand_len left * Z.of_nat right_slots) (cand_len right * Z.of_nat left_slots) with
  | Eq => Z.compare (cand_start right) (cand_start left)
  | c => c
  end.

(** [Iterator::max_by]: the last of the greatest elements. *)
Definition max_by {A} (cmp : A -> A -> comparison) (l : list A) : option A :=
  match l with
  | [] => None
  | x :: l => Some (fold_left (fun m y => match cmp m y with Gt => m | _ => y end) l x)
  end.

Definition no_candidate : AllocationCandidate := mkCandidate 0 0 0 0.

Definition cand_at (candidates : list AllocationCandidate) (i : nat) : AllocationCandidate :=
  default no_candidate (candidates !! i).

Definition slots_at (slot_counts : list nat) (i : nat) : nat := default 0%nat (slot_counts !! i).

Definition compare_at (candidates : list AllocationCandidate) (slot_counts : list nat)
    (left right : nat) : comparison :=
  compare_dynamic_shares (cand_at candidates left) (slots_at slot_counts left)
    (cand_at candidates right) (slots_at slot_counts right).

(** The [while extra_slots != 0] loop. *)
Fixpoint slot_loop (s : SchedulerState) (candidates : list AllocationCandidate)
    (min_split_size : Z) (slot_counts : list nat) (extra_slots : nat) : list nat :=
  match extra_slots with
  | O => slot_counts
  | S extra_slots =>
      match max_by (compare_at candidates slot_counts)
              (filter (fun i => slots_at slot_counts i <
                         max_dynamic_slots s (cand_at candidates i) min_split_size)%nat
                 (seq 0 (length candidates))) with
      | None => slot_counts
      | Some index =>
          slot_loop s candidates min_split_size
            (<[index := S (slots_at slot_counts index)]> slot_counts) extra_slots
      end
  end.

Record DynamicPlan := mkPlan {
  plan_candidate : AllocationCandidate;
  plan_slots : nat;
  plan_ranges : nat;
  plan_shares : option (list DynamicCandidateShare);
}.

Definition share_of (candidate : AllocationCandidate) (slots : nat) (bytes : Z)
    : DynamicCandidateShare :=
  mkShare (cand_start candidate) (cand_end candidate) slots bytes.

Definition plan_dynamic_share (s : SchedulerState) (candidates : list AllocationCandidate)
    (requested_ranges : nat) (min_split_size : Z) (collect_candidate_shares : bool)
    : option DynamicPlan :=
  if (requested_ranges =? 0)%nat || bool_decide (candidates = []) then None
  else if (requested_ranges <=? length candidates)%nat then
    chosen ← max_by (fun left right =>
        compare_dynamic_shares (cand_at candidates left) 1 (cand_at candidates right) 1)
      (seq 0 (length candidates));
    Some {| plan_candidate := cand_at candidates chosen;
            plan_slots := 1;
            plan_ranges := requested_ranges;
            plan_shares :=
              if collect_candidate_shares
              then Some ((fun c => share_of c 1 (cand_len c)) <$> candidates)
              else None |}
  else
    let slot_counts :=
      slot_loop s candidates min_split_size (replicate (length candidates) 1%nat)
        (requested_ranges - length candidates) in
    chosen ← max_by (compare_at candidates slot_counts) (seq 0 (length candidates));
    Some {| plan_candidate := cand_at candidates chosen;
            plan_slots := slots_at slot_counts chosen;
            plan_ranges := sum_list slot_counts;
            plan_shares :=
              if collect_candidate_shares
              then Some (zip_with (fun c slots =>
                           share_of c slots (div_ceil (cand_len c) (Z.of_nat slots)))
                         candidates slot_counts)
              else None |}.

Definition clamp (x lo hi : nat) : nat :=
  if (x <? lo)%nat then lo else if (hi <? x)%nat then hi else x.

Definition dynamic_share_end_piece (s : SchedulerState) (candidate : AllocationCandidate)
    (slots : nat) (min_split_size : Z) : nat :=
  if (slots <=? 1)%nat then end_piece candidate
  else
    match dynamic_legal_split_bounds s candidate min_split_size with
    | None => end_piece candidate
    | Some (first_legal_piece, last_legal_piece) =>
        let piece_size := Z.max (piece_size (piece_map s)) 1 in
        let target_end := cand_start candidate ⊕ div_ceil (cand_len candidate) (Z.of_nat slots) in
        let target_piece := target_end / piece_size in
        let target_remainder := target_end mod piece_size in
        let ideal_piece :=
          sat_add64 target_piece (if piece_size / 2 <? target_remainder then 1 else 0) in
        clamp (Z.to_nat ideal_piece) first_legal_piece last_legal_piece
    end.

Definition truncation (byte_limited lease_limited min_split_adjusted min_split_conflict : bool)
    : string :=
  match byte_limited, lease_limited, min_split_adjusted, min_split_conflict with
  | true, true, true, false => "max_request_bytes_and_lease_limit_and_min_split"
  | true, true, false, true => "max_request_bytes_and_lease_limit_and_min_split_conflict"
  | true, true, _, _ => "max_request_bytes_and_lease_limit"
  | true, false, true, false => "max_request_bytes_and_min_split"
  | true, false, false, true => "max_request_bytes_and_min_split_conflict"
  | true, false, _, _ => "max_request_bytes"
  | false, true, true, false => "lease_limit_and_min_split"
  | false, true, false, true => "lease_limit_and_min_split_conflict"
  | false, true, _, _ => "lease_limit"
  | false, false, true, false => "min_split_boundary"
  | false, false, false, true => "min_split_conflict"
  | false, false, _, _ => "none"
  end%string.

Definition dynamic_request_end (s : SchedulerState) (candidate : AllocationCandidate)
    (desired_end_piece : nat) (min_split_size configured_max_request_size : Z) : Z * string :=
  let piece_size := Z.max (piece_size (piece_map s)) 1 in
  let max_request_size := Z.max (Z.max configured_max_request_size piece_size) 1 in
  let byte_bound := sat_add64 (cand_start candidate) max_request_size in
  let desired_end_piece :=
    Nat.min (Nat.max desired_end_piece (first_piece candidate + 1)) (end_piece candidate) in
  let byte_end_piece :=
    if cand_end candidate <=? byte_bound then end_piece candidate
    else Nat.min (Nat.max (Z.to_nat (byte_bound / piece_size)) (first_piece candidate + 1))
                 (end_piece candidate) in
  let lease_end_piece :=
    Nat.min (first_piece candidate + MAX_REQUEST_LEASES) desired_end_piece in
  let raw_end_piece :=
    Nat.min (Nat.max (Nat.min (Nat.min desired_end_piece byte_end_piece) lease_end_piece)
                     (first_piece candidate + 1))
            (end_piece candidate) in
  let '(end_piece', min_split_adjusted, min_split_conflict) :=
    if (raw_end_piece <? end_piece candidate)%nat then
      match dynamic_legal_split_bounds s candidate min_split_size with
      | Some (first_legal_piece, last_legal_piece) =>
          if (first_legal_piece <=? raw_end_piece)%nat then
            let legal_end_piece := Nat.min raw_end_piece last_legal_piece in
            (legal_end_piece, (legal_end_piece <? raw_end_piece)%nat, false)
          else (raw_end_piece, false, true)
      | None => (raw_end_piece, false, false)
      end
    else (raw_end_piece, false, false) in
  let byte_limited := (byte_end_piece <? desired_end_piece)%nat in
  let lease_limited := (lease_end_piece <? desired_end_piece)%nat in
  (Z.min (snd (piece_range (piece_map s) (end_piece' - 1)%nat)) (cand_end candidate),
   truncation byte_limited lease_limited min_split_adjusted min_split_conflict).

Fixpoint issue_dynamic_loop (ids : list nat) (end_ : Z) (worker_id : nat) (segs : list Segment)
    : StateOpt SchedulerState (list Segment) := fun s =>
  match ids with
  | [] => (Some segs, s)
  | piece_id :: ids =>
      let '(start, piece_end) := piece_range (piece_map s) piece_id in
      if end_ <? piece_end then (Some segs, s)
      else
        match issue_lease piece_id (mkRange start piece_end) worker_id s with
        | (None, s') => (None, rollback segs s')
        | (Some segment, s') => issue_dynamic_loop ids end_ worker_id (segs ++ [segment]) s'
        end
  end.

Definition issue_dynamic_candidate (candidate : AllocationCandidate) (end_ : Z) (worker_id : nat)
    : StateOpt SchedulerState (list Segment) :=
  let? s := get_state in
  if stopped s || (end_ <=? cand_start candidate) then none
  else
    let? segs := issue_dynamic_loop
      (seq (first_piece candidate) (end_piece candidate - first_piece candidate))
      end_ worker_id [] in
    if bool_decide (segs = []) then none else some segs.

Definition assign_dynamic_request (worker_id occupied slots : nat)
    (dynamic_min_split_size dynamic_max_request_size : Z) (collect_candidate_shares : bool)
    : StateOpt SchedulerState RequestAssignment :=
  let? s := get_state in
  let candidates := dynamic_candidates s in
  if bool_decide (candidates = []) then
    let? segment := assign_to worker_id in
    some (assignment_single segment slots occupied)
  else
    let min_split_size := aligned_dynamic_min_split_size s dynamic_min_split_size in
    let? plan := lift_option
      (plan_dynamic_share s candidates slots min_split_size collect_candidate_shares) in
    let desired_end_piece :=
      dynamic_share_end_piece s (plan_candidate plan) (plan_slots plan) min_split_size in
    let target_end := snd (piece_range (piece_map s) (desired_end_piece - 1)%nat) in
    let '(request_end, reason) :=
      dynamic_request_end s (plan_candidate plan) desired_end_piece min_split_size
        dynamic_max_request_size in
    let? segs := issue_dynamic_candidate (plan_candidate plan) request_end worker_id in
    let? first := lift_option (head segs) in
    let? last := lift_option (last segs) in
    some {| segments := segs;
            candidate_start := cand_start (plan_candidate plan);
            candidate_end := cand_end (plan_candidate plan);
            candidate_boundary_scanned := true;
            candidate_slots := plan_slots plan;
            target_end := target_end;
            candidate_shares := plan_shares plan;
            final_start := seg_start first;
            final_end := seg_end last;
            available_request_slots := slots;
            occupied_requests := occupied;
            planned_ranges := plan_ranges plan;
            truncation_reason := reason |}.

(** ** The entry point *)

Definition assign_request_with_trace (worker_id max_requests : nat) (min_segment_size : Z)
    (occupied : nat) (mode : RangeSchedulingMode) (request_batch_size : Z)
    (dynamic_min_split_size dynamic_max_request_size : Z)
    (allow_batch collect_diagnostics collect_candidate_shares : bool)
    : StateOpt SchedulerState RequestAssignment :=
  let? s := get_state in
  let slots := (max_requests - occupied)%nat in
  if (slots =? 0)%nat || (available_range_count s =? 0)%nat then none
  else if negb allow_batch then
    let? segment := assign_to worker_id in
    some (assignment_single segment slots occupied)
  else
    match mode with
    | Fixed =>
        assign_fixed_request worker_id max_requests min_segment_size occupied
          request_batch_size slots collect_diagnostics
    | Dynamic =>
        assign_dynamic_request worker_id occupied slots dynamic_min_split_size
          dynamic_max_request_size collect_candidate_shares
    end.

Definition assign_request_with_diagnostics (worker_id max_requests : nat) (min_segment_size : Z)
    (occupied : nat) (mode : RangeSchedulingMode) (request_batch_size : Z)
    (dynamic_min_split_size dynamic_max_request_size : Z)
    (allow_batch collect_diagnostics : bool) : StateOpt SchedulerState RequestAssignment :=
  assign_request_with_trace worker_id max_requests min_segment_size occupied mode
    request_batch_size dynamic_min_split_size dynamic_max_request_size allow_batch
    collect_diagnostics false.

Definition assign_request (worker_id max_requests : nat) (min_segment_size : Z)
    (occupied : nat) (mode : RangeSchedulingMode) (request_batch_size : Z)
    (dynamic_min_split_size dynamic_max_request_size : Z) (allow_batch : bool)
    : StateOpt SchedulerState RequestAssignment :=
  assign_request_with_diagnostics worker_id max_requests min_segment_size occupied mode
    request_batch_size dynamic_min_split_size dynamic_max_request_size allow_batch true.
