(* ===== verification/Reserve.v ===== *)
(** * Reserving several leases for one request

    [Reserved s s' segs]: starting from [s] the scheduler issued exactly the
    leases [segs].  The predicate is what every assignment method establishes and
    what [rollback] undoes. *)

From S2P Require Import Prelude PieceMap Ranges Segment Scheduler SchedInv SchedSpec Planner.

Definition seg_range (seg : Segment) : ByteRange := mkRange (seg_start seg) (seg_end seg).

Definition in_seg (seg : Segment) (b : Z) : bool := in_range (seg_range seg) b.

Record Reserved (s s' : SchedulerState) (w : nat) (segs : list Segment) : Prop := {
  rs_wf : Sched_wf s';
  rs_pm : piece_map s' = piece_map s;
  rs_stopped : stopped s' = stopped s;
  rs_ids : next_lease_id s <= next_lease_id s';
  rs_keys : NoDup (lease_key <$> segs);
  rs_seg : forall seg, seg ∈ segs ->
    (seg_piece_id seg < count s)%nat /\ bit (piece_map s) (seg_piece_id seg) = false /\
    plo s (seg_piece_id seg) <= seg_start seg /\ seg_start seg < seg_end seg /\
    seg_end seg <= phi s (seg_piece_id seg) /\ owner_worker_id seg = w /\
    next_lease_id s <= seg_lease_id seg < next_lease_id s';
  rs_taken : forall seg b, seg ∈ segs -> in_seg seg b = true ->
    status s b = Missing /\ status s' b = Leased (lease_key seg);
  rs_other : forall b, 0 <= b < total_of s -> (forall seg, seg ∈ segs -> in_seg seg b = false) ->
    status s' b = status s b;
  rs_steps : rtc (spec_step (total_of s)) (status s) (status s');
}.

Lemma Reserved_nil s s' w :
  Sched_wf s' -> piece_map s' = piece_map s -> stopped s' = stopped s ->
  next_lease_id s' = next_lease_id s ->
  same_status (total_of s) (status s') (status s) -> Reserved s s' w [].
Proof.
  intros W Hpm Hst Hid Hs. split; try done.
  - lia.
  - apply NoDup_nil_2.
  - intros seg H. by apply not_elem_of_nil in H.
  - intros seg b H. by apply not_elem_of_nil in H.
  - intros b Hb _. by apply Hs.
  - by apply rtc_once, spec_skip_step.
Qed.

(** Statuses and piece bounds only depend on the geometry. *)
Lemma same_geometry s s' :
  piece_map s' = piece_map s ->
  total_of s' = total_of s /\ count s' = count s /\
  (forall i, plo s' i = plo s i) /\ (forall i, phi s' i = phi s i).
Proof. intros E. unfold total_of, count, plo, phi, total_of. by rewrite E. Qed.

Lemma Issued_step s s' i r w seg :
  Sched_wf s -> (i < count s)%nat -> Issued s s' i r w seg ->
  spec_step (total_of s) (status s) (status s').
Proof.
  intros W Hi [Hkey ? ? ? ? ? ? ? ? ?]. pose proof (plo_phi s i W Hi).
  apply (spec_issue_step _ _ _ r (lease_key seg)); try lia; try done.
  rewrite Hkey. by apply fresh_unused.
Qed.

(** The bytes of a reserved segment are bytes of the file. *)
Lemma reserved_bytes s s' w segs seg b :
  Sched_wf s -> Reserved s s' w segs -> seg ∈ segs -> in_seg seg b = true -> 0 <= b < total_of s.
Proof.
  intros W R Hseg Hb%in_range_true. simpl in Hb.
  destruct (rs_seg _ _ _ _ R seg Hseg) as (Hi & _ & ? & ? & ? & _). pose proof (plo_phi s _ W Hi). lia.
Qed.

Lemma Issued_reserved s s' w i r seg :
  Sched_wf s -> (i < count s)%nat -> bit (piece_map s) i = false ->
  Sched_wf s' -> piece_map s' = piece_map s -> stopped s' = stopped s ->
  Issued s s' i r w seg -> Reserved s s' w [seg].
Proof.
  intros W Hi Hbit W' Hpm Hst I. pose proof (plo_phi s i W Hi).
  destruct I as [Hk Hn Hs He Ho Hr Hlo Hhi Hm Hstat] eqn:EI. pose proof Hk as Hk'.
  injection Hk' as Hk1 Hk2.
  assert (forall b, in_seg seg b = in_range r b) as Hin.
  { intros b. unfold in_seg, seg_range, in_range. simpl. by rewrite Hs, He. }
  split; try done.
  - lia.
  - apply NoDup_singleton.
  - intros g ->%list_elem_of_singleton. rewrite Hk1, Hk2, Hs, He. split_and!; try done; lia.
  - intros g b ->%list_elem_of_singleton Hb. rewrite Hin in Hb. split; [by apply Hm|].
    pose proof (proj1 (in_range_true r b) Hb).
    rewrite Hstat by lia. unfold spec_issue. by rewrite Hb.
  - intros b Hb Hout. rewrite Hstat by done. unfold spec_issue.
    rewrite <- Hin, (Hout seg); [done|]. by apply list_elem_of_singleton.
  - apply rtc_once. by eapply Issued_step.
Qed.

Lemma Reserved_app s s1 s2 w segs1 segs2 :
  Sched_wf s -> Reserved s s1 w segs1 -> Reserved s1 s2 w segs2 ->
  Reserved s s2 w (segs1 ++ segs2).
Proof.
  intros W R1 R2. pose proof (rs_wf _ _ _ _ R1) as W1.
  destruct (same_geometry _ _ (rs_pm _ _ _ _ R1)) as (Ht & Hc & Hlo & Hhi).
  pose proof (rs_ids _ _ _ _ R1) as I1. pose proof (rs_ids _ _ _ _ R2) as I2.
  assert (forall g1 g2 b, g1 ∈ segs1 -> g2 ∈ segs2 -> in_seg g1 b = true -> in_seg g2 b = false) as Hdis.
  { intros g1 g2 b H1 H2 Hb. destruct (in_seg g2 b) eqn:E; [|done].
    destruct (rs_taken _ _ _ _ R1 g1 b H1 Hb), (rs_taken _ _ _ _ R2 g2 b H2 E). congruence. }
  split.
  - apply R2.
  - by rewrite (rs_pm _ _ _ _ R2), (rs_pm _ _ _ _ R1).
  - by rewrite (rs_stopped _ _ _ _ R2), (rs_stopped _ _ _ _ R1).
  - lia.
  - rewrite fmap_app. apply NoDup_app. split_and!; [apply R1| |apply R2].
    intros k (g & -> & Hg)%list_elem_of_fmap (g' & E & Hg')%list_elem_of_fmap.
    apply (rs_seg _ _ _ _ R1) in Hg. apply (rs_seg _ _ _ _ R2) in Hg'. injection E as _ E. lia.
  - intros g [Hg|Hg]%elem_of_app.
    + apply (rs_seg _ _ _ _ R1) in Hg as (?&?&?&?&?&?&?). split_and!; try done; lia.
    + apply (rs_seg _ _ _ _ R2) in Hg as (?&Hb&?&?&?&?&?).
      rewrite (rs_pm _ _ _ _ R1) in Hb. rewrite Hc, Hlo, Hhi in *. split_and!; try done; lia.
  - intros g b [Hg|Hg]%elem_of_app Hb.
    + destruct (rs_taken _ _ _ _ R1 g b Hg Hb) as [Hm Hl]. split; [done|]. rewrite <- Hl.
      apply (rs_other _ _ _ _ R2).
      * rewrite Ht. by eapply reserved_bytes.
      * intros g' Hg'. by eapply Hdis.
    + destruct (rs_taken _ _ _ _ R2 g b Hg Hb) as [Hm Hl]. split; [|done]. rewrite <- Hm. symmetry.
      apply (rs_other _ _ _ _ R1).
      * rewrite <- Ht. by eapply reserved_bytes.
      * intros g' Hg'. destruct (in_seg g' b) eqn:E; [|done]. by rewrite (Hdis g' g b) in Hb.
  - intros b Hb Hout. rewrite (rs_other _ _ _ _ R2), (rs_other _ _ _ _ R1); [done|done| |by rewrite Ht|];
      intros g Hg; apply Hout, elem_of_app; [by left|by right].
  - etrans; [apply R1|]. rewrite <- Ht. apply R2.
Qed.

(** ** Rollback *)

(** A lease identity issued after [s] holds nothing in [s]. *)
Lemma later_unused s k b :
  Sched_wf s -> next_lease_id s <= key_lease_id k -> status s b <> Leased k.
Proof.
  intros W Hk E. unfold status in E. destruct (pieces s !! _) as [p|] eqn:Ep.
  - pose proof (piece_status_cases (piece_of (piece_size (piece_map s)) b) p b) as C.
    rewrite E in C. destruct C as (_ & r & L & _).
    apply (sw_pieces _ W) in Ep as (_ & _ & Wp). apply (pw_active _ _ _ _ Wp) in L. lia.
  - by destruct (bit _ _).
Qed.

Lemma Reserved_unsnoc s s' w segs seg :
  Sched_wf s -> Reserved s s' w (segs ++ [seg]) ->
  Reserved s (snd (reclaim (lease_key seg) s')) w segs.
Proof.
  intros W R. destruct (reclaim (lease_key seg) s') as [res s2] eqn:E. simpl.
  destruct (reclaim_spec _ _ _ _ (rs_wf _ _ _ _ R) E) as (W2 & Hpm & Hid & Hst & _ & Hs2).
  destruct (same_geometry _ _ (rs_pm _ _ _ _ R)) as (Ht & _ & _ & _). rewrite Ht in Hs2.
  assert (forall g, g ∈ segs -> g ∈ segs ++ [seg]) as Hsub by (intros; apply elem_of_app; by left).
  assert (seg ∈ segs ++ [seg]) as Hseg by (apply elem_of_app; right; by apply list_elem_of_singleton).
  pose proof (rs_seg _ _ _ _ R seg Hseg) as (Hi & _ & Hlo & Hne & Hhi & _ & Hk).
  pose proof (plo_phi s _ W Hi) as Hbd.
  pose proof (rs_keys _ _ _ _ R) as ND. rewrite fmap_app in ND.
  apply NoDup_app in ND as (ND & Hnot & _). split.
  - done.
  - by rewrite Hpm, (rs_pm _ _ _ _ R).
  - by rewrite Hst, (rs_stopped _ _ _ _ R).
  - rewrite Hid. apply R.
  - done.
  - intros g Hg. rewrite Hid. by apply (rs_seg _ _ _ _ R), Hsub.
  - intros g b Hg Hb. destruct (rs_taken _ _ _ _ R g b (Hsub g Hg) Hb) as [Hm Hl]. split; [done|].
    destruct (rs_seg _ _ _ _ R g (Hsub g Hg)) as (Hgi & _ & ? & ? & ? & _ & _).
    pose proof (plo_phi s _ W Hgi). unfold in_seg in Hb. apply in_range_true in Hb. simpl in Hb.
    rewrite Hs2 by lia. unfold spec_move. rewrite Hl, decide_False; [done|]. intros Ex.
    assert (lease_key g = lease_key seg) as Ek by congruence.
    apply (Hnot (lease_key g)); [apply list_elem_of_fmap; by exists g|].
    rewrite Ek. simpl. by apply list_elem_of_singleton.
  - intros b Hb Hout. rewrite Hs2 by done. unfold spec_move. destruct (in_seg seg b) eqn:Es.
    + destruct (rs_taken _ _ _ _ R seg b Hseg Es) as [-> ->]. by rewrite decide_True.
    + rewrite (rs_other _ _ _ _ R b Hb).
      * rewrite decide_False; [done|]. apply later_unused; [done|]. simpl. lia.
      * intros g [Hg| ->%list_elem_of_singleton]%elem_of_app; [by apply Hout|done].
  - eapply rtc_r; [apply R|]. by apply (spec_release_step _ _ _ (lease_key seg)).
Qed.

(** Rolling a reservation back restores every byte's status. *)
Lemma rollback_undoes s s' w segs :
  Sched_wf s -> Reserved s s' w segs -> Reserved s (rollback segs s') w [].
Proof.
  intros W. revert s'. induction segs as [|seg segs IH] using rev_ind; intros s' R; [done|].
  unfold rollback. rewrite foldr_app. apply IH. by apply Reserved_unsnoc.
Qed.

Lemma Reserved_nil_status s s' w :
  Reserved s s' w [] -> same_status (total_of s) (status s') (status s).
Proof.
  intros R b Hb. apply (rs_other _ _ _ _ R); [done|]. intros g Hg. by apply not_elem_of_nil in Hg.
Qed.

Lemma Reserved_trans_nil s s1 s2 w segs :
  Reserved s s1 w segs -> Reserved s1 s2 w [] -> Sched_wf s -> Reserved s s2 w segs.
Proof. intros R R' W. rewrite <- (app_nil_r segs). by eapply Reserved_app. Qed.

(** ** One lease *)

Lemma issue_lease_reserved s0 s segs i r w res s' :
  Sched_wf s0 -> Reserved s0 s w segs -> (i < count s0)%nat -> bit (piece_map s0) i = false ->
  rstart r < rend r -> issue_lease i r w s = (res, s') -> next_lease_id s' < u64_max ->
  match res with
  | Some seg => Reserved s0 s' w (segs ++ [seg]) /\ Issued s s' i r w seg
  | None => Reserved s0 s' w segs
  end.
Proof.
  intros W R Hi Hbit Hr E Hlim.
  destruct (same_geometry _ _ (rs_pm _ _ _ _ R)) as (Ht & Hc & _ & _).
  destruct (issue_lease_spec s i r w res s') as (W' & Hpm & Hcd & Hst & Hres); try done.
  { apply R. } { by rewrite Hc. } { by rewrite (rs_pm _ _ _ _ R). }
  destruct res as [seg|].
  - split; [|done]. eapply (Reserved_app s0 s s'); [done|done|].
    apply (Issued_reserved s s' w i r); try done; [apply R|by rewrite Hc|by rewrite (rs_pm _ _ _ _ R)].
  - eapply (Reserved_trans_nil s0 s s' w); [done| |done].
    assert (next_lease_id s' = next_lease_id s) as Hid.
    { unfold issue_lease in E. destruct (stopped s); [by injection E as <-|].
      destruct (piece_issue_lease _ _ _ _ _) as [[[?|] ?] ?] eqn:P; [done|].
      by injection E as <-. }
    by apply Reserved_nil.
Qed.

Lemma set_next_candidate_reserved s n w :
  Sched_wf s -> (n < count s)%nat \/ n = 0%nat -> Reserved s (set_next_candidate n s) w [].
Proof. intros W Hn. apply Reserved_nil; try done. destruct W. by split. Qed.
