(* ===== verification/Assign.v ===== *)
(** * Assigning work: single leases, recovery batches and fixed batches

    Every assignment method reserves exactly the leases it returns, and it
    returns some whenever a range is available and the scheduler is running. *)

From S2P Require Import Prelude PieceMap Ranges Segment Scheduler SchedInv SchedSpec Planner Reserve.

(** ** The round-robin pick *)

Lemma drop_first_one_lookup (bits : list bool) n i :
  first_one (drop n bits) = Some i -> bits !! (n + i)%nat = Some true.
Proof. intros [H _]%first_one_Some. by rewrite lookup_drop in H. Qed.

Lemma next_available_Some s i :
  Sched_wf s -> next_available s = Some i -> (i < count s)%nat /\ piece_avail s i <> 0%nat.
Proof.
  intros W H. assert (available_pieces s !! i = Some true) as L.
  { unfold next_available in H.
    destruct (first_one (drop (next_candidate s) (available_pieces s))) as [off|] eqn:E.
    - injection H as <-. by apply drop_first_one_lookup.
    - apply first_one_Some in H as [H _]. by apply lookup_take_Some in H as [H _]. }
  assert (i < count s)%nat as Hi by (apply lookup_lt_Some in L; by rewrite (sw_len _ W) in L).
  split; [done|]. pose proof (sw_avail _ W i Hi) as A. rewrite L in A. simpl in A.
  intros E. by rewrite E in A.
Qed.

Lemma next_available_total s :
  Sched_wf s -> available_range_count s <> 0%nat -> exists i, next_available s = Some i.
Proof.
  intros W Hne. unfold next_available.
  destruct (first_one (drop (next_candidate s) (available_pieces s))) as [off|] eqn:E1; [by eexists|].
  destruct (first_one (take (next_candidate s) (available_pieces s))) as [off|] eqn:E2; [by eexists|].
  exfalso. apply Hne. rewrite (sw_ranges _ W). apply nsum_zero. intros i Hi.
  pose proof (sw_avail _ W i Hi) as A. pose proof (sw_len _ W) as Hlen.
  destruct (lookup_lt_is_Some_2 (available_pieces s) i ltac:(lia)) as [v L].
  rewrite L in A. simpl in A. destruct v.
  - rewrite first_one_None in E1, E2. destruct (decide (i < next_candidate s)%nat) as [Hlt|Hge].
    + destruct (E2 i). by rewrite lookup_take_lt.
    + destruct (E1 (i - next_candidate s)%nat). rewrite lookup_drop. by rewrite Nat.add_comm, Nat.sub_add by lia.
  - destruct (piece_avail s i); done.
Qed.

Definition pick_range (s : SchedulerState) (i : nat) : option ByteRange :=
  match pieces s !! i with
  | Some piece => next_assignable_range piece
  | None => Some (full_range s i)
  end.

(** [r] is a run of missing bytes inside piece [i]. *)
Record MissingIn (s : SchedulerState) (i : nat) (r : ByteRange) : Prop := {
  mi_piece : (i < count s)%nat;
  mi_open : bit (piece_map s) i = false;
  mi_lo : plo s i <= rstart r;
  mi_nonempty : rstart r < rend r;
  mi_hi : rend r <= phi s i;
  mi_missing : forall b, in_range r b = true -> status s b = Missing;
}.

Lemma MissingIn_sub s i r r' :
  MissingIn s i r -> rstart r <= rstart r' -> rstart r' < rend r' -> rend r' <= rend r ->
  MissingIn s i r'.
Proof.
  intros [] H1 H2 H3. split; try done; try lia. intros b Hb%in_range_true.
  apply mi_missing0, in_range_true. lia.
Qed.

Lemma pick_range_spec s i :
  Sched_wf s -> (i < count s)%nat -> piece_avail s i <> 0%nat ->
  exists r, pick_range s i = Some r /\ MissingIn s i r.
Proof.
  intros W Hi Hav. unfold pick_range, piece_avail in *.
  destruct (pieces s !! i) as [p|] eqn:Ep.
  - destruct (sw_pieces _ W _ _ Ep) as (_ & Hbit & Wp). unfold next_assignable_range.
    destruct (missing_ranges p) as [|r rs] eqn:Em; [done|]. exists r. split; [done|].
    pose proof (pw_missing _ _ _ _ Wp) as [Hs Hf]. rewrite Em in Hs, Hf. simpl in Hs.
    apply Forall_cons_iff in Hf as [Hf _]. split; try done; try lia.
    intros b Hb. pose proof (proj1 (in_range_true r b) Hb). unfold status.
    rewrite (in_piece s i b W ltac:(lia)), Ep. apply (piece_status_eq _ _ _ _ _ _ _ Wp). simpl.
    rewrite Em. simpl. by rewrite Hb.
  - destruct (bit (piece_map s) i) eqn:Hbit; [done|]. eexists. split; [done|].
    rewrite full_range_exact by done. pose proof (plo_phi s i W Hi). split; simpl; try done; try lia.
    intros b Hb%in_range_true. simpl in Hb. unfold status. by rewrite (in_piece s i b W Hb), Ep, Hbit.
Qed.

(** ** Splitting *)

(** The assigned range is a non-empty prefix; when it is a proper one, both
    parts are at least [min_segment_size] long. *)
Lemma assignment_range_spec s r max_active min :
  0 <= rstart r -> rstart r < rend r -> rend r <= u64_max -> 0 <= min ->
  let r' := assignment_range_for s r max_active min in
  rstart r' = rstart r /\ rstart r < rend r' /\ rend r' <= rend r /\
  (rend r' = rend r \/ (min <= rend r' - rstart r /\ min <= rend r - rend r')).
Proof.
  intros H0 Hr Hmax Hmin. unfold assignment_range_for.
  destruct (_ || _); [lia|].
  destruct (_ <=? _)%nat eqn:E1; [lia|].
  rewrite u64_sub_exact by (unfold u64_max in *; lia).
  destruct (Z.leb_spec (rend r - rstart r) min); [lia|].
  set (d := (max_active - (active_lease_count s + available_range_count s) + 1)%nat).
  destruct (d <=? 1)%nat eqn:E2; [lia|]. apply Nat.leb_gt in E2.
  pose proof (div_ceil_spec (rend r - rstart r) (Z.of_nat d) ltac:(lia) ltac:(lia)) as Hd.
  set (q := div_ceil (rend r - rstart r) (Z.of_nat d)) in *.
  assert (0 < q) by nia.
  destruct (Z.leb_spec (rend r - rstart r) (Z.max q min)); simpl; [lia|].
  rewrite u64_sub_exact by (unfold u64_max in *; lia).
  destruct (Z.ltb_spec (rend r - rstart r - Z.max q min) min); simpl; [lia|].
  rewrite u64_add_exact by (unfold u64_max in *; lia). lia.
Qed.

Lemma phi_max s i : Sched_wf s -> (i < count s)%nat -> phi s i <= u64_max.
Proof.
  intros W Hi. pose proof (plo_phi s i W Hi).
  destruct (wf_geometry _ (sw_pm _ W)) as (? & ? & ?). unfold total_of, u64_max in *. lia.
Qed.

(** ** [assign_to_with_split] *)

Lemma assign_unfold w m min s i r :
  Sched_wf s -> available_range_count s <> 0%nat -> next_available s = Some i ->
  pick_range s i = Some r ->
  assign_to_with_split w m min s =
  match issue_lease i (assignment_range_for s r m min) w s with
  | (Some seg, s') =>
      (Some seg, set_next_candidate ((i + 1) mod piece_count (piece_map s'))%nat s')
  | (None, s') => (None, s')
  end.
Proof.
  intros W Hne Hn Hp. unfold assign_to_with_split, try_bind, get_state, put_state, lift_option, none, some.
  rewrite (proj2 (Nat.eqb_neq _ _) Hne), Hn. unfold pick_range in Hp.
  destruct (pieces s !! i); rewrite ?Hp; [|injection Hp as ->]; by destruct (issue_lease _ _ _ _) as [[?|] ?].
Qed.

Lemma assign_zero w m min s :
  available_range_count s = 0%nat -> assign_to_with_split w m min s = (None, s).
Proof. intros H. unfold assign_to_with_split, try_bind, get_state. by rewrite H. Qed.

(** The result of [assign_to_with_split]. *)
Lemma assign_spec w m min s res s' :
  Sched_wf s -> 0 <= min -> assign_to_with_split w m min s = (res, s') ->
  next_lease_id s' < u64_max ->
  match res with
  | Some seg => Reserved s s' w [seg] /\ stopped s = false
  | None => Reserved s s' w [] /\ (stopped s = true \/ available_range_count s = 0%nat)
  end.
Proof.
  intros W Hmin E Hlim. pose proof (Reserved_nil s s w W eq_refl eq_refl eq_refl (reflexivity _)) as R0.
  destruct (decide (available_range_count s = 0%nat)) as [Hz|Hne].
  { rewrite assign_zero in E by done. injection E as <- <-. split; [done|by right]. }
  destruct (next_available_total s W Hne) as [i Hn].
  destruct (next_available_Some s i W Hn) as [Hi Hav].
  destruct (pick_range_spec s i W Hi Hav) as (r & Hp & M).
  rewrite (assign_unfold w m min s i r W Hne Hn Hp) in E.
  pose proof (plo_phi s i W Hi). pose proof (phi_max s i W Hi). destruct M as [_ Hbit Hlo Hr Hhi Hm].
  destruct (assignment_range_spec s r m min ltac:(lia) Hr ltac:(lia) Hmin) as (Hs' & He' & Hle & _).
  set (r' := assignment_range_for s r m min) in *.
  destruct (issue_lease i r' w s) as [[seg|] s1] eqn:I.
  - injection E as <- <-. simpl in Hlim.
    destruct (issue_lease_reserved s s [] i r' w (Some seg) s1 W R0 Hi Hbit ltac:(lia) I Hlim) as [R _].
    split.
    + eapply (Reserved_trans_nil s s1 _ w); [exact R| |done]. apply set_next_candidate_reserved; [apply R|].
      left. unfold count. apply Nat.mod_upper_bound. fold (count s1).
      rewrite (proj1 (proj2 (same_geometry _ _ (rs_pm _ _ _ _ R)))). lia.
    + unfold issue_lease in I. by destruct (stopped s).
  - injection E as <- <-.
    pose proof (issue_lease_reserved s s [] i r' w None s1 W R0 Hi Hbit ltac:(lia) I Hlim) as R.
    split; [done|left]. destruct (stopped s) eqn:Hst; [done|exfalso].
    destruct (issue_lease_total s i r' w) as (seg & s2 & I2); try done; try lia; [|congruence].
    intros b Hb%in_range_true. apply Hm, in_range_true. lia.
Qed.

Lemma assign_grows w m min s : id_grows s (snd (assign_to_with_split w m min s)).
Proof.
  unfold assign_to_with_split, try_bind, get_state, put_state, lift_option, none, some.
  destruct (_ =? _)%nat; [reflexivity|]. destruct (next_available s) as [i|]; [|reflexivity].
  destruct (match pieces s !! i with Some p => _ | None => _ end) as [r|]; [|reflexivity].
  pose proof (issue_lease_grows i (assignment_range_for s r m min) w s) as G.
  destruct (issue_lease _ _ _ _) as [[seg|] s1]; done.
Qed.

(** ** Batches of contiguous ranges *)

Definition shape (seg : Segment) : nat * Z * Z := (seg_piece_id seg, seg_start seg, seg_end seg).

(** Each range is not empty and starts in the next piece where the previous one
    ended. *)
Fixpoint chained (previous : option (nat * Z)) (l : list (nat * Z * Z)) : Prop :=
  match l with
  | [] => True
  | (i, a, e) :: l =>
      match previous with
      | Some (j, e') => i = (j + 1)%nat /\ a = e'
      | None => True
      end /\ a < e /\ chained (Some (i, e)) l
  end.

Lemma Issued_shape s s' i r w seg : Issued s s' i r w seg -> shape seg = (i, rstart r, rend r).
Proof.
  intros [Hk _ Hs He _ _ _ _ _ _]. unfold shape. rewrite Hs, He. by injection Hk as -> _.
Qed.

Lemma reclaim_next k s : next_lease_id (snd (reclaim k s)) = next_lease_id s.
Proof.
  unfold reclaim. destruct (pieces s !! _); [|done]. by destruct (piece_reclaim _ _) as [[|] ?].
Qed.

Lemma rollback_next segs s : next_lease_id (rollback segs s) = next_lease_id s.
Proof. induction segs as [|g segs IH]; simpl; [done|]. by rewrite reclaim_next. Qed.

(** Ids issued by an intermediate state stay below the final bound. *)
Lemma grows_below s s1 s' :
  Sched_wf s -> id_grows s s1 -> id_grows s1 s' -> next_lease_id s' < u64_max ->
  next_lease_id s1 < u64_max.
Proof.
  intros W G1 G2 H. pose proof (sw_next_id _ W). specialize (G1 ltac:(lia)).
  specialize (G2 ltac:(lia)). lia.
Qed.

Lemma recovery_loop_grows planned w segs s : id_grows s (snd (recovery_loop planned w segs s)).
Proof.
  revert segs s. induction planned as [|[[i a] e] planned IH]; intros segs s; simpl; [reflexivity|].
  pose proof (issue_lease_grows i (mkRange a e) w s) as G.
  destruct (issue_lease _ _ _ _) as [[g|] s1]; simpl in *.
  - etrans; [exact G|apply IH].
  - unfold id_grows in *. rewrite rollback_next. done.
Qed.

Lemma recovery_loop_spec s0 planned w segs s res s' :
  Sched_wf s0 -> Reserved s0 s w segs ->
  Forall (fun '(i, a, e) => (i < count s0)%nat /\ bit (piece_map s0) i = false /\ a < e) planned ->
  recovery_loop planned w segs s = (res, s') -> next_lease_id s' < u64_max ->
  match res with
  | Some segs' => Reserved s0 s' w segs' /\ shape <$> segs' = (shape <$> segs) ++ planned
  | None => Reserved s0 s' w []
  end.
Proof.
  intros W. revert segs s. induction planned as [|[[i a] e] planned IH]; intros segs s R HF E Hlim.
  { simpl in E. injection E as <- <-. by rewrite app_nil_r. }
  apply Forall_cons_iff in HF as [(Hi & Hbit & Hae) HF]. simpl in E.
  pose proof (issue_lease_grows i (mkRange a e) w s) as G.
  destruct (issue_lease i (mkRange a e) w s) as [[g|] s1] eqn:I; simpl in G.
  - pose proof (recovery_loop_grows planned w (segs ++ [g]) s1) as G'. rewrite E in G'. simpl in G'.
    pose proof (grows_below s s1 s' (rs_wf _ _ _ _ R) G G' Hlim) as Hlim1.
    destruct (issue_lease_reserved s0 s segs i (mkRange a e) w _ s1 W R Hi Hbit Hae I Hlim1) as [R1 Hiss].
    specialize (IH _ _ R1 HF E Hlim). destruct res as [segs'|]; [|done].
    destruct IH as [R' Sh]. split; [done|]. rewrite Sh, fmap_app, <- app_assoc. simpl.
    by rewrite (Issued_shape _ _ _ _ _ _ Hiss).
  - injection E as <- <-. rewrite rollback_next in Hlim.
    pose proof (issue_lease_reserved s0 s segs i (mkRange a e) w _ s1 W R Hi Hbit Hae I Hlim) as R1. simpl in R1.
    by eapply rollback_undoes.
Qed.

Lemma recovery_valid_spec s prev planned :
  Sched_wf s -> recovery_valid s prev planned = true ->
  chained prev planned /\
  Forall (fun '(i, a, e) => (i < count s)%nat /\ bit (piece_map s) i = false /\ a < e) planned /\
  Forall (fun '(i, a, e) => plo s i <= a /\ e <= phi s i) planned.
Proof.
  intros W. revert prev. induction planned as [|[[i a] e] planned IH]; intros prev H; cbn [recovery_valid chained] in *; [done|].
  destruct (Nat.leb_spec (piece_count (piece_map s)) i) as [|Hi]; [done|].
  rewrite piece_range_exact in H by (done || apply W).
  destruct (_ || _) eqn:B in H; [done|].
  rewrite !orb_false_iff, Z.leb_gt, !Z.ltb_ge in B. destruct B as ((((Hae & Hlo) & Hhi) & Hc) & Hprev).
  rewrite is_complete_bit in Hc by apply W. destruct (IH _ H) as (Hch & HF & HF').
  split_and!; try done.
  - destruct prev as [[j e']|]; [|done].
    rewrite orb_false_iff, !negb_false_iff, Nat.eqb_eq, Z.eqb_eq in Hprev. done.
  - by constructor.
  - constructor; [|done]. done.
Qed.

Lemma recovery_batch_grows planned w s : id_grows s (snd (assign_recovery_batch planned w s)).
Proof.
  unfold assign_recovery_batch. destruct (_ || _); [reflexivity|].
  destruct (negb _); [reflexivity|]. apply recovery_loop_grows.
Qed.

Lemma recovery_batch_spec planned w s res s' :
  Sched_wf s -> assign_recovery_batch planned w s = (res, s') -> next_lease_id s' < u64_max ->
  match res with
  | Some segs =>
      Reserved s s' w segs /\ shape <$> segs = planned /\ chained None planned /\
      (1 <= length segs <= MAX_REQUEST_LEASES)%nat
  | None => Reserved s s' w []
  end.
Proof.
  intros W E Hlim. unfold assign_recovery_batch in E.
  pose proof (Reserved_nil s s w W eq_refl eq_refl eq_refl (reflexivity _)) as R0.
  destruct (_ || _) eqn:B in E; [by injection E as <- <-|].
  destruct (recovery_valid s None planned) eqn:V; [|by injection E as <- <-].
  apply recovery_valid_spec in V as (Hch & HF & _); [|done]. simpl in E.
  pose proof (recovery_loop_spec s planned w [] s res s' W R0 HF E Hlim) as H.
  destruct res as [segs|]; [|done]. destruct H as [R Sh]. simpl in Sh. split_and!; try done.
  - apply orb_false_iff in B as [B _]. apply bool_decide_eq_false in B.
    destruct segs; [|simpl; lia]. by destruct B; rewrite <- Sh.
  - apply orb_false_iff in B as [_ B]. apply Nat.ltb_ge in B.
    rewrite <- (length_fmap shape segs), Sh. done.
Qed.

(** ** Extending a fixed-mode request *)

Lemma untouched_open s i :
  Sched_wf s -> (i < count s)%nat -> default false (available_pieces s !! i) = true ->
  pieces s !! i = None -> bit (piece_map s) i = false.
Proof.
  intros W Hi A N. rewrite (sw_avail _ W i Hi) in A. unfold piece_avail in A. rewrite N in A.
  by destruct (bit (piece_map s) i).
Qed.

Lemma mod_lt_count s s' i w segs :
  Reserved s s' w segs -> (i < count s)%nat -> ((i + 1) mod piece_count (piece_map s') < count s')%nat.
Proof.
  intros R Hi. apply Nat.mod_upper_bound. fold (count s').
  rewrite (proj1 (proj2 (same_geometry _ _ (rs_pm _ _ _ _ R)))). lia.
Qed.

Lemma extend_loop_grows ids first w res cap additional e s :
  id_grows s (snd (extend_loop ids first w res cap additional e s)).
Proof.
  revert additional e s. induction ids as [|i ids IH]; intros additional e s;
    cbn [extend_loop]; [reflexivity|].
  destruct (_ <=? _)%nat; [reflexivity|]. destruct (_ <=? _)%nat; [reflexivity|].
  destruct (_ || _); [reflexivity|]. destruct (piece_range _ i) as [a e'].
  destruct (_ || _); [reflexivity|].
  pose proof (issue_lease_grows i (mkRange a e') w s) as G.
  destruct (issue_lease _ _ _ _) as [[g|] s1]; [|exact G]. etrans; [exact G|]. etrans; [|apply IH]. done.
Qed.

(** A whole piece reached within [cap] bytes of the request's start. *)
Definition WholeWithin (s : SchedulerState) (start cap : Z) (g : Segment) : Prop :=
  seg_start g = plo s (seg_piece_id g) /\ seg_end g = phi s (seg_piece_id g) /\
  seg_end g - start <= cap.

Lemma extend_loop_spec s0 first w reserved cap n j additional e s segs reason s' :
  Sched_wf s0 -> Reserved s0 s w additional -> (S j + n <= count s0)%nat ->
  0 <= seg_start first <= e -> (length additional + 1 <= MAX_REQUEST_LEASES)%nat ->
  extend_loop (seq (S j) n) first w reserved cap additional e s = (segs, reason, s') ->
  next_lease_id s' < u64_max ->
  exists new, segs = additional ++ new /\ Reserved s0 s' w segs /\
    chained (Some (j, e)) (shape <$> new) /\ (length segs + 1 <= MAX_REQUEST_LEASES)%nat /\
    Forall (WholeWithin s0 (seg_start first) cap) new.
Proof.
  intros W. revert j additional e s.
  induction n as [|n IH]; intros j additional e s R Hn He Hlen E Hlim; cbn [seq extend_loop] in E.
  { injection E as <- _ <-. exists []. by rewrite app_nil_r. }
  assert (exists new, additional = additional ++ new /\ Reserved s0 s w additional /\
    chained (Some (j, e)) (shape <$> new) /\ (length additional + 1 <= MAX_REQUEST_LEASES)%nat /\
    Forall (WholeWithin s0 (seg_start first) cap) new) as Hstop
    by (exists []; by rewrite app_nil_r).
  destruct (Nat.leb_spec MAX_REQUEST_LEASES (length additional + 1)); [by injection E as <- _ <-|].
  destruct (_ <=? _)%nat in E; [by injection E as <- _ <-|].
  destruct (_ || _) eqn:B in E; [by injection E as <- _ <-|].
  apply orb_false_iff in B as [A%negb_false_iff N%negb_false_iff%bool_decide_eq_true].
  destruct (same_geometry _ _ (rs_pm _ _ _ _ R)) as (Ht & Hc & Hlo & Hhi).
  assert (bit (piece_map s0) (S j) = false) as Hbit.
  { rewrite <- (rs_pm _ _ _ _ R). apply untouched_open; try done; [apply R|lia]. }
  rewrite (rs_pm _ _ _ _ R), piece_range_exact in E by (apply W || (unfold count in *; lia)).
  fold (plo s0 (S j)) (total_of s0) (phi s0 (S j)) in E.
  pose proof (plo_phi s0 (S j) W ltac:(lia)) as Hbd. pose proof (phi_max s0 (S j) W ltac:(lia)) as Hmax.
  destruct (_ || _) eqn:B in E; [by injection E as <- _ <-|].
  apply orb_false_iff in B as [Es%negb_false_iff%Z.eqb_eq B%Z.ltb_ge].
  rewrite u64_sub_exact in B by (unfold u64_max in *; lia).
  set (rg := mkRange (plo s0 (S j)) (phi s0 (S j))) in E.
  assert (rstart rg < rend rg) as Hrg by (simpl; lia).
  pose proof (issue_lease_grows (S j) rg w s) as G.
  destruct (issue_lease (S j) rg w s) as [[g|] s1] eqn:I; simpl in G.
  - set (s2 := set_next_candidate _ s1) in E.
    pose proof (extend_loop_grows (seq (S (S j)) n) first w reserved cap (additional ++ [g])
      (phi s0 (S j)) s2) as G'. rewrite E in G'. simpl in G'.
    assert (next_lease_id s1 < u64_max) as Hlim1
      by (apply (grows_below s s1 s' (rs_wf _ _ _ _ R) G); done).
    destruct (issue_lease_reserved s0 s additional (S j) rg w _ s1 W R ltac:(lia) Hbit Hrg I Hlim1)
      as [R1 Hiss].
    assert (Reserved s0 s2 w (additional ++ [g])) as R2.
    { eapply Reserved_trans_nil; [exact R1| |done]. apply set_next_candidate_reserved; [apply R1|].
      left. by apply (mod_lt_count s0 s1 (S j) w (additional ++ [g])); [|lia]. }
    pose proof (Issued_shape _ _ _ _ _ _ Hiss) as Sh. simpl in Sh. injection Sh as Sh1 Sh2 Sh3.
    destruct (IH (S j) (additional ++ [g]) (phi s0 (S j)) s2 R2) as (new & -> & R' & Hch & Hl & HF);
      try done; try lia; [rewrite length_app; simpl; lia|].
    exists (g :: new). rewrite <- app_assoc in *. simpl in *.
    split_and!; rewrite ?Sh1, ?Sh2, ?Sh3; try done; try lia.
    constructor; [|done]. unfold WholeWithin. rewrite Sh1, Sh2, Sh3. done.
  - injection E as <- _ <-. exists []. rewrite app_nil_r. split_and!; try done.
    apply (issue_lease_reserved s0 s additional (S j) rg w None s1 W R ltac:(lia) Hbit Hrg I Hlim).
Qed.

Lemma extend_batch_grows first w m occ cap s :
  id_grows s (snd (extend_batch_with_occupied first w m occ cap s)).
Proof.
  unfold extend_batch_with_occupied. destruct (pieces s !! _) as [p|]; [|reflexivity].
  destruct (active_leases p !! _); [|reflexivity]. destruct (piece_range _ _) as [a e].
  destruct (_ || _); [reflexivity|]. destruct (_ =? _); [reflexivity|]. apply extend_loop_grows.
Qed.

Lemma extend_batch_spec first w m occ cap s segs reason s' :
  Sched_wf s -> extend_batch_with_occupied first w m occ cap s = (segs, reason, s') ->
  next_lease_id s' < u64_max ->
  Reserved s s' w segs /\ chained (Some (seg_piece_id first, seg_end first)) (shape <$> segs) /\
  (length segs + 1 <= MAX_REQUEST_LEASES)%nat /\ Forall (WholeWithin s (seg_start first) cap) segs.
Proof.
  intros W E Hlim. pose proof (Reserved_nil s s w W eq_refl eq_refl eq_refl (reflexivity _)) as R0.
  assert (Reserved s s w [] /\ chained (Some (seg_piece_id first, seg_end first)) (shape <$> []) /\
    (length (@nil Segment) + 1 <= MAX_REQUEST_LEASES)%nat /\
    Forall (WholeWithin s (seg_start first) cap) []) as Hstop
    by (split_and!; [done|done|unfold MAX_REQUEST_LEASES; simpl; lia|constructor]).
  unfold extend_batch_with_occupied in E.
  destruct (pieces s !! seg_piece_id first) as [p|] eqn:Ep; [|by injection E as <- _ <-].
  destruct (active_leases p !! seg_lease_id first) as [active|]; [|by injection E as <- _ <-].
  destruct (sw_pieces _ W _ _ Ep) as (Hi & _ & _).
  rewrite piece_range_exact in E by (done || apply W).
  fold (plo s (seg_piece_id first)) (total_of s) (phi s (seg_piece_id first)) in E.
  destruct (_ || _) eqn:B in E; [by injection E as <- _ <-|].
  destruct (_ =? _) in E; [by injection E as <- _ <-|].
  apply orb_false_iff in B as [[_ B%negb_false_iff%bool_decide_eq_true]%orb_false_iff _].
  injection B as Bs Be. pose proof (plo_phi s _ W Hi).
  destruct (extend_loop_spec s first w (m - (occ + 1))%nat cap (count s - S (seg_piece_id first))%nat
    (seg_piece_id first) [] (seg_end first) s segs reason s' W R0)
    as (new & -> & R & Hch & Hl & HF); try done; try lia.
Qed.

(** What a request assignment promises: its segments are freshly reserved for
    the worker, contiguous, at most 64, and together at most [cap] bytes or one
    piece long. *)
Record RequestOk (s s' : SchedulerState) (w : nat) (cap : Z) (a : RequestAssignment) : Prop := {
  ra_reserved : Reserved s s' w (segments a);
  ra_chained : chained None (shape <$> segments a);
  ra_count : (1 <= length (segments a) <= MAX_REQUEST_LEASES)%nat;
  ra_start : seg_start <$> head (segments a) = Some (final_start a);
  ra_end : seg_end <$> last (segments a) = Some (final_end a);
  ra_span : final_end a - final_start a <= Z.max cap (piece_size (piece_map s));
}.

Lemma piece_span s i : Sched_wf s -> (i < count s)%nat -> phi s i - plo s i <= piece_size (piece_map s).
Proof.
  intros W Hi. pose proof (sw_pm _ W) as P. unfold count in Hi. rewrite (wf_count _ P) in Hi.
  pose proof (piece_bounds _ _ _ (wf_geometry _ P) Hi). unfold plo, phi, total_of. lia.
Qed.

Lemma reserved_first s s' w segs g :
  Sched_wf s -> Reserved s s' w (g :: segs) -> seg_end g - seg_start g <= piece_size (piece_map s).
Proof.
  intros W R. destruct (rs_seg _ _ _ _ R g ltac:(by left)) as (Hi & _ & ? & ? & ? & _).
  pose proof (piece_span s _ W Hi). lia.
Qed.

Lemma assign_fixed_grows w m min occ batch slots diag s :
  id_grows s (snd (assign_fixed_request w m min occ batch slots diag s)).
Proof.
  unfold assign_fixed_request, try_bind, get_state, put_state, some.
  pose proof (assign_grows w (active_lease_count s + slots) min s) as G.
  destruct (assign_to_with_split _ _ _ s) as [[g|] s1]; [|exact G]. simpl in G.
  destruct (attempt g =? 1).
  - pose proof (extend_batch_grows g w m occ batch s1) as G'.
    destruct (extend_batch_with_occupied _ _ _ _ _ _) as [[additional reason] s2]. etrans; [exact G|exact G'].
  - exact G.
Qed.

Lemma assign_fixed_spec w m min occ batch slots diag s res s' :
  Sched_wf s -> 0 <= min -> assign_fixed_request w m min occ batch slots diag s = (res, s') ->
  next_lease_id s' < u64_max ->
  match res with
  | Some a => RequestOk s s' w batch a
  | None => Reserved s s' w [] /\ (stopped s = true \/ available_range_count s = 0%nat)
  end.
Proof.
  intros W Hmin E Hlim.
  unfold assign_fixed_request, try_bind, get_state, put_state, some in E.
  pose proof (assign_grows w (active_lease_count s + slots) min s) as G1.
  destruct (assign_to_with_split w (active_lease_count s + slots) min s) as [[g|] s1] eqn:A.
  2: { injection E as <- <-. by apply (assign_spec _ _ _ _ None _ W Hmin A). }
  simpl in G1.
  assert (exists additional reason s2,
    (if attempt g =? 1 then extend_batch_with_occupied g w m occ batch s1
     else ([], "recovered_or_retried"%string, s1)) = (additional, reason, s2)) as (additional & reason & s2 & X)
    by (destruct (attempt g =? 1); [|by eauto]; destruct (extend_batch_with_occupied _ _ _ _ _ _) as [[? ?] ?]; eauto).
  rewrite X in E. injection E as <- <-.
  assert (id_grows s1 s2) as G2.
  { pose proof (extend_batch_grows g w m occ batch s1) as G. destruct (attempt g =? 1).
    - by rewrite X in G.
    - injection X as _ _ <-. reflexivity. }
  destruct (assign_spec _ _ _ _ (Some g) _ W Hmin A (grows_below s s1 s2 W G1 G2 Hlim)) as [R1 _].
  assert (Reserved s1 s2 w additional /\
    chained (Some (seg_piece_id g, seg_end g)) (shape <$> additional) /\
    (length additional + 1 <= MAX_REQUEST_LEASES)%nat /\
    Forall (WholeWithin s1 (seg_start g) batch) additional) as (R2 & Hch & Hl & HF).
  { destruct (attempt g =? 1); [by apply (extend_batch_spec _ _ _ _ _ _ _ _ _ (rs_wf _ _ _ _ R1) X)|].
    injection X as <- _ <-. split_and!; [|done|unfold MAX_REQUEST_LEASES; simpl; lia|constructor].
    by apply Reserved_nil; [apply R1|..]. }
  pose proof (rs_seg _ _ _ _ R1 g ltac:(by left)) as (_ & _ & _ & Hg & _).
  destruct (last (g :: additional)) as [z|] eqn:L; [|by apply last_None in L].
  split; cbn [segments final_start final_end]; rewrite ?L; try done.
  - by apply (Reserved_app s s1 s2 w [g] additional).
  - simpl. lia.
  - pose proof (reserved_first _ _ _ _ _ W R1). simpl.
    destruct additional as [|x additional _] using rev_ind; [injection L as <-; lia|].
    rewrite app_comm_cons, last_snoc in L. injection L as <-. apply Forall_app in HF as [_ HF].
    apply Forall_singleton in HF as (_ & _ & ?). lia.
Qed.
