(* ===== verification/Dynamic.v ===== *)
(** * The dynamic planner

    [dynamic_candidates] finds the runs of untouched pieces; [plan_dynamic_share]
    picks one and [dynamic_request_end] cuts a request from its front.  The
    lemmas show that the candidates are sound and complete, that every request
    is a prefix of its candidate within the byte, lease and minimum-split limits,
    and that a request is always found. *)

From S2P Require Import Prelude PieceMap Ranges Segment Scheduler SchedInv SchedSpec Planner Reserve Assign.

(** ** Candidates *)

(** Piece [k] is available and was never leased in this session. *)
Definition untouched (s : SchedulerState) (k : nat) : Prop :=
  default false (available_pieces s !! k) = true /\ pieces s !! k = None.

(** A candidate stands for a run of untouched pieces. *)
Definition RunOf (s : SchedulerState) (P : nat -> Prop) (lo hi : nat) (c : AllocationCandidate) : Prop :=
  c = candidate_of s (first_piece c) (end_piece c) /\
  (lo <= first_piece c < end_piece c)%nat /\ (end_piece c <= hi)%nat /\
  forall k, (first_piece c <= k < end_piece c)%nat -> P k.

Definition covered (cs : list AllocationCandidate) (k : nat) : Prop :=
  exists c, c ∈ cs /\ (first_piece c <= k < end_piece c)%nat.

Lemma covered_app cs cs' k : covered (cs ++ cs') k <-> covered cs k \/ covered cs' k.
Proof.
  unfold covered. split.
  - intros (c & [H|H]%elem_of_app & Hk); [left|right]; by exists c.
  - intros [(c & H & Hk)|(c & H & Hk)]; exists c; rewrite elem_of_app; by eauto.
Qed.

Lemma RunOf_weaken s (P Q : nat -> Prop) lo hi lo' hi' c :
  RunOf s P lo hi c -> (lo' <= lo)%nat -> (hi <= hi')%nat ->
  (forall k, (lo <= k < hi)%nat -> P k -> Q k) -> RunOf s Q lo' hi' c.
Proof.
  intros (E & ? & ? & HP) ? ? HPQ. split_and!; try done; try lia.
  intros k Hk. apply HPQ; [lia|]. by apply HP.
Qed.

Lemma RunOf_candidate s (P : nat -> Prop) a e :
  (a < e)%nat -> (forall k, (a <= k < e)%nat -> P k) -> RunOf s P a e (candidate_of s a e).
Proof. intros. split_and!; simpl; (done || lia). Qed.

Lemma covered_candidate s a e k : (a <= k < e)%nat -> covered [candidate_of s a e] k.
Proof. intros. exists (candidate_of s a e). split; [by left|done]. Qed.

Section CutRun.
  Context (s : SchedulerState).
Let free k := pieces s !! k = None.

Lemma cut_run_spec l cands fp hi :
  StronglySorted lt l -> (fp <= hi)%nat ->
  (forall k, k ∈ l <-> (fp <= k < hi)%nat /\ is_Some (pieces s !! k)) ->
  exists new fp', fold_left (cut_run s) l (cands, fp) = (cands ++ new, fp') /\
    (fp <= fp' <= hi)%nat /\ (forall k, (fp' <= k < hi)%nat -> free k) /\
    Forall (RunOf s free fp fp') new /\
    (forall k, (fp <= k < fp')%nat -> free k -> covered new k).
Proof.
  intros HS. revert cands fp. induction HS as [|t l HS IH HF]; intros cands fp Hfp Hl; simpl.
  { exists [], fp. rewrite app_nil_r. split_and!; try done; try lia.
    intros k Hk. unfold free. destruct (pieces s !! k) eqn:E; [|done].
    assert (k ∈ []) as []%not_elem_of_nil. apply Hl. split; [lia|by eexists]. }
  pose proof (proj1 (Hl t) ltac:(by left)) as [Ht Tt].
  assert (forall k, k ∈ l -> (t < k)%nat) as Hlt
    by (intros k Hk; rewrite List.Forall_forall in HF; by apply HF, list_elem_of_In).
  assert (forall k, (fp <= k < t)%nat -> free k) as Hfree.
  { intros k Hk. unfold free. destruct (pieces s !! k) eqn:E; [|done].
    assert (k ∈ t :: l) as [->|H%Hlt]%elem_of_cons; [apply Hl; split; [lia|by eexists]|lia|lia]. }
  set (now := if (fp <? t)%nat then [candidate_of s fp t] else []).
  assert ((if (fp <? t)%nat then cands ++ [candidate_of s fp t] else cands) = cands ++ now) as ->
    by (unfold now; destruct (fp <? t)%nat; [done|by rewrite app_nil_r]).
  destruct (IH (cands ++ now) (S t)) as (new & fp' & E & Hb & Hf & HR & Hc); [lia| |].
  { intros k. split.
    - intros Hk. pose proof (Hlt k Hk). destruct (proj1 (Hl k) ltac:(by right)). split; [lia|done].
    - intros [Hk Tk]. assert (k ∈ t :: l) as [->|]%elem_of_cons; [apply Hl; split; [lia|done]|lia|done]. }
  exists (now ++ new), fp'. rewrite E, app_assoc. split_and!; try done; try lia.
  - apply Forall_app. split.
    + unfold now. destruct (Nat.ltb_spec fp t); [|constructor]. constructor; [|constructor].
      apply (RunOf_weaken s free free fp t); [by apply RunOf_candidate|lia|lia|done].
    + eapply List.Forall_impl; [|exact HR]. intros c H. eapply RunOf_weaken; [done|lia|lia|done].
  - intros k Hk Fk. apply covered_app. destruct (decide (k = t)) as [->|Hne].
    + unfold free in Fk. rewrite Fk in Tt. by destruct Tt.
    + destruct (decide (k < t)%nat); [left|right; apply Hc; [lia|done]].
      unfold now. destruct (Nat.ltb_spec fp t); [apply covered_candidate; lia|lia].
Qed.

Lemma run_candidates_spec cands lo hi :
  (lo <= hi)%nat ->
  exists new, run_candidates s lo hi cands = cands ++ new /\
    Forall (RunOf s free lo hi) new /\
    (forall k, (lo <= k < hi)%nat -> free k -> covered new k).
Proof.
  intros Hlo. unfold run_candidates.
  destruct (cut_run_spec (btree_range (pieces s) lo hi) cands lo hi) as (new & fp & E & Hb & Hf & HR & Hc);
    [apply btree_range_sorted|done|apply elem_of_btree_range|].
  rewrite E.
  assert (Forall (RunOf s free lo hi) new) as HR'.
  { eapply List.Forall_impl; [|exact HR]. intros c H. eapply RunOf_weaken; [done|lia|lia|done]. }
  destruct (Nat.ltb_spec fp hi) as [Hlt|Hge].
  - exists (new ++ [candidate_of s fp hi]). rewrite app_assoc. split_and!; [done| |].
    + apply Forall_app. split; [done|]. constructor; [|constructor].
      apply (RunOf_weaken s free free fp hi); [by apply RunOf_candidate|lia|lia|done].
    + intros k Hk Fk. apply covered_app. destruct (decide (k < fp)%nat); [left; apply Hc; [lia|done]|].
      right. apply covered_candidate. lia.
  - exists new. split_and!; try done. intros k Hk Fk. apply Hc; [lia|done].
Qed.
End CutRun.

Lemma candidates_loop_spec fuel s sf cands :
  Sched_wf s -> (count s - sf <= fuel)%nat ->
  exists new, candidates_loop fuel s sf cands = cands ++ new /\
    Forall (RunOf s (untouched s) sf (count s)) new /\
    (forall k, (sf <= k < count s)%nat -> untouched s k -> covered new k).
Proof.
  intros W. revert sf cands. pose proof (sw_len _ W) as Hlen.
  induction fuel as [|fuel IH]; intros sf cands Hf; simpl.
  { exists []. rewrite app_nil_r. split_and!; try done. intros k Hk. lia. }
  fold (count s). destruct (Nat.ltb_spec sf (count s)) as [Hsf|Hsf].
  2: { exists []. rewrite app_nil_r. split_and!; try done. intros k Hk. lia. }
  destruct (first_one (drop sf (available_pieces s))) as [off|] eqn:E1.
  2: { exists []. rewrite app_nil_r. split_and!; try done. intros k Hk [A _].
       destruct (available_pieces s !! k) as [[|]|] eqn:L; try done.
       exfalso. rewrite first_one_None in E1. apply (E1 (k - sf)%nat).
       rewrite lookup_drop. by replace (sf + (k - sf))%nat with k by lia. }
  pose proof (drop_first_one_lookup _ _ _ E1) as Ha. set (a := (sf + off)%nat) in *.
  pose proof (ones_run _ _ Ha) as [He Hones]. rewrite Hlen in He.
  assert (match first_zero (drop a (available_pieces s)) with
    | Some o => (a + o)%nat | None => length (available_pieces s) end =
    match first_zero (drop a (available_pieces s)) with
    | Some o => (a + o)%nat | None => count s end) as Ee by (by rewrite Hlen).
  rewrite Ee in Hones. rewrite Hlen in *. clear Ee.
  set (e := match first_zero (drop a (available_pieces s)) with Some o => _ | None => count s end) in *.
  destruct (run_candidates_spec s cands a e ltac:(lia)) as (new & -> & HR & Hc).
  destruct (IH e (cands ++ new) ltac:(lia)) as (new' & -> & HR' & Hc').
  exists (new ++ new'). rewrite app_assoc. split_and!; [done| |].
  - apply Forall_app. split.
    + eapply List.Forall_impl; [|exact HR]. intros c H.
      eapply RunOf_weaken; [done|unfold a; lia|lia|]. intros k Hk N. split; [by rewrite Hones|done].
    + eapply List.Forall_impl; [|exact HR']. intros c H. eapply RunOf_weaken; [done|unfold a in *; lia|lia|done].
  - intros k Hk [A N]. apply covered_app. destruct (decide (e <= k)%nat); [right; apply Hc'; [lia|done]|left].
    apply Hc; [|done]. split; [|lia]. destruct (decide (k < a)%nat); [|lia]. exfalso.
    apply first_one_Some in E1 as [_ E1]. specialize (E1 (k - sf)%nat ltac:(unfold a in *; lia)).
    rewrite lookup_drop in E1. replace (sf + (k - sf))%nat with k in E1 by lia. by rewrite E1 in A.
Qed.

Lemma dynamic_candidates_spec s :
  Sched_wf s ->
  Forall (RunOf s (untouched s) 0 (count s)) (dynamic_candidates s) /\
  (forall k, (k < count s)%nat -> untouched s k -> covered (dynamic_candidates s) k).
Proof.
  intros W. unfold dynamic_candidates.
  destruct (candidates_loop_spec (piece_count (piece_map s)) s 0 [] W) as (new & -> & HR & Hc).
  { unfold count. lia. }
  split; [done|]. intros k Hk. apply Hc. lia.
Qed.

(** ** Choosing a candidate *)

(** The share of [left] is at least the share of [right]. *)
Definition share_ge (left : AllocationCandidate) (ls : nat) (right : AllocationCandidate) (rs : nat) : Prop :=
  cand_len right * Z.of_nat ls <= cand_len left * Z.of_nat rs.

Lemma share_ge_trans a sa b sb c sc :
  (0 < sb)%nat -> share_ge a sa b sb -> share_ge b sb c sc -> share_ge a sa c sc.
Proof. unfold share_ge. intros. nia. Qed.

Lemma compare_share_Gt a sa b sb : compare_dynamic_shares a sa b sb = Gt -> share_ge a sa b sb.
Proof.
  unfold compare_dynamic_shares, share_ge.
  destruct (Z.compare_spec (cand_len a * Z.of_nat sb) (cand_len b * Z.of_nat sa)); intros; try done; lia.
Qed.

Lemma compare_share_not_Gt a sa b sb : compare_dynamic_shares a sa b sb <> Gt -> share_ge b sb a sa.
Proof.
  unfold compare_dynamic_shares, share_ge.
  destruct (Z.compare_spec (cand_len a * Z.of_nat sb) (cand_len b * Z.of_nat sa)); intros; try done; lia.
Qed.

(** [max_by] over indices returns an index of the greatest share. *)
Lemma max_by_shares (cand : nat -> AllocationCandidate) (slots : nat -> nat) l x :
  (forall i, i ∈ l -> (0 < slots i)%nat) ->
  max_by (fun i j => compare_dynamic_shares (cand i) (slots i) (cand j) (slots j)) l = Some x ->
  x ∈ l /\ forall y, y ∈ l -> share_ge (cand x) (slots x) (cand y) (slots y).
Proof.
  destruct l as [|h l]; [done|]. intros Hpos [= <-].
  set (f := fun m y => match compare_dynamic_shares (cand m) (slots m) (cand y) (slots y) with Gt => m | _ => y end).
  assert (0 < slots h)%nat as Hh by (apply Hpos; by left).
  assert (forall i, i ∈ l -> (0 < slots i)%nat) as Hl by (intros; apply Hpos; by right).
  clear Hpos. revert h Hh. induction l as [|y l IH]; intros h Hh; simpl.
  { split; [by left|]. intros y ->%list_elem_of_singleton. unfold share_ge. lia. }
  assert (0 < slots y)%nat as Hy by (apply Hl; by left).
  destruct (IH ltac:(intros; apply Hl; by right) (f h y)) as [Hin Hge];
    [unfold f; destruct (compare_dynamic_shares _ _ _ _); done|].
  assert (0 < slots (f h y))%nat as Hf by (unfold f; destruct (compare_dynamic_shares _ _ _ _); done).
  assert (share_ge (cand (f h y)) (slots (f h y)) (cand h) (slots h) /\
          share_ge (cand (f h y)) (slots (f h y)) (cand y) (slots y)) as [G1 G2].
  { unfold f. destruct (compare_dynamic_shares (cand h) _ _ _) eqn:C.
    - split; [apply compare_share_not_Gt; by rewrite C|unfold share_ge; lia].
    - split; [apply compare_share_not_Gt; by rewrite C|unfold share_ge; lia].
    - split; [unfold share_ge; lia|by apply compare_share_Gt]. }
  specialize (Hge (f h y) ltac:(by left)) as Hge0. split.
  - apply elem_of_cons in Hin as [E|Hin]; [|by right; right]. rewrite E. unfold f.
    destruct (compare_dynamic_shares _ _ _ _); [by right; left|by right; left|by left].
  - intros z [->|[->|Hz]%elem_of_cons]%elem_of_cons.
    + by eapply share_ge_trans.
    + by eapply share_ge_trans.
    + apply Hge. by right.
Qed.

Lemma max_by_total {A} (cmp : A -> A -> comparison) l : l <> [] -> exists x, max_by cmp l = Some x.
Proof. destruct l; [done|]. intros _. by eexists. Qed.

Lemma sum_list_insert (l : list nat) i v x :
  l !! i = Some v -> (sum_list (<[i := x]> l) + v = sum_list l + x)%nat.
Proof.
  revert i. induction l as [|y l IH]; intros [|i]; simpl; try done.
  - intros [= ->]. lia.
  - intros H. specialize (IH _ H). lia.
Qed.

(** Slot counts stay between one and the candidate's maximum, and hand out at
    most the extra slots. *)
Lemma slot_loop_spec s cands min counts extra :
  length counts = length cands ->
  (forall i, (i < length cands)%nat -> (1 <= slots_at counts i)%nat /\
     (slots_at counts i <= Nat.max 1 (max_dynamic_slots s (cand_at cands i) min))%nat) ->
  let counts' := slot_loop s cands min counts extra in
  length counts' = length cands /\
  (sum_list counts <= sum_list counts' <= sum_list counts + extra)%nat /\
  (forall i, (i < length cands)%nat -> (1 <= slots_at counts' i)%nat /\
     (slots_at counts' i <= Nat.max 1 (max_dynamic_slots s (cand_at cands i) min))%nat).
Proof.
  revert counts. induction extra as [|extra IH]; intros counts Hl Hb; simpl.
  { split_and!; try done; lia. }
  destruct (max_by _ _) as [i|] eqn:M; [|split_and!; try done; lia].
  apply (max_by_shares (cand_at cands) (slots_at counts)) in M as [M _].
  2: { intros j [_ Hj%elem_of_seq]%list_elem_of_filter. apply Hb. lia. }
  apply list_elem_of_filter in M as [Hlt Hi%elem_of_seq].
  destruct (lookup_lt_is_Some_2 counts i ltac:(lia)) as [v Hv].
  assert (slots_at counts i = v) as Ev by (unfold slots_at; by rewrite Hv).
  destruct (IH (<[i := S (slots_at counts i)]> counts)) as (Hl' & Hs' & Hb').
  - by rewrite length_insert.
  - intros j Hj. unfold slots_at at 1 3. destruct (decide (j = i)) as [->|Hne].
    + rewrite list_lookup_insert_eq by lia. simpl. lia.
    + rewrite list_lookup_insert_ne by done. by apply Hb.
  - pose proof (sum_list_insert counts i v (S (slots_at counts i)) Hv). split_and!; try done; lia.
Qed.

Lemma sum_list_replicate_one n : sum_list (replicate n 1%nat) = n.
Proof. induction n; simpl; lia. Qed.

(** The plan: a candidate with a largest share, at least one slot for it, and
    no more ranges than free request slots. *)
Lemma plan_spec s cands n min collect :
  (0 < n)%nat -> cands <> [] ->
  exists plan, plan_dynamic_share s cands n min collect = Some plan /\
    plan_candidate plan ∈ cands /\ (1 <= plan_slots plan)%nat /\ (1 <= plan_ranges plan <= n)%nat /\
    forall c, c ∈ cands -> exists slots, (1 <= slots)%nat /\
      share_ge (plan_candidate plan) (plan_slots plan) c slots.
Proof.
  intros Hn Hne. unfold plan_dynamic_share. rewrite (proj2 (Nat.eqb_neq n 0)) by lia.
  rewrite bool_decide_eq_false_2 by done. simpl.
  assert (length cands <> 0)%nat as Hlen by (by destruct cands).
  assert (seq 0 (length cands) <> []) as Hseq by (by destruct cands).
  assert (forall c, c ∈ cands -> exists i, (i < length cands)%nat /\ cand_at cands i = c) as Hat.
  { intros c [i Hi]%list_elem_of_lookup. exists i. split; [by eapply lookup_lt_Some|].
    unfold cand_at. by rewrite Hi. }
  assert (forall i, (i < length cands)%nat -> cand_at cands i ∈ cands) as Hin.
  { intros i Hi. destruct (lookup_lt_is_Some_2 cands i Hi) as [c Hc]. unfold cand_at. rewrite Hc.
    by eapply list_elem_of_lookup_2. }
  destruct (Nat.leb_spec n (length cands)).
  - destruct (max_by_total (fun l r => compare_dynamic_shares (cand_at cands l) 1 (cand_at cands r) 1)
      _ Hseq) as [x Hx]. rewrite Hx. eexists. split; [done|]. simpl.
    apply (max_by_shares (cand_at cands) (fun _ => 1%nat)) in Hx as [Hx Hge]; [|lia].
    apply elem_of_seq in Hx. split_and!; try lia; [apply Hin; lia|].
    intros c (i & Hi & <-)%Hat. exists 1%nat. split; [lia|]. apply Hge, elem_of_seq. lia.
  - destruct (slot_loop_spec s cands min (replicate (length cands) 1%nat) (n - length cands))
      as (Hl & Hs & Hb); [apply length_replicate| |].
    { intros i Hi. unfold slots_at. rewrite lookup_replicate_2 by done. simpl. lia. }
    rewrite sum_list_replicate_one in Hs. set (counts := slot_loop _ _ _ _ _) in *.
    destruct (max_by_total (compare_at cands counts) _ Hseq) as [x Hx]. rewrite Hx.
    eexists. split; [done|]. simpl.
    apply (max_by_shares (cand_at cands) (slots_at counts)) in Hx as [Hx Hge].
    2: { intros i Hi%elem_of_seq. apply Hb. lia. }
    apply elem_of_seq in Hx. split_and!; try lia; [apply Hin; lia|apply Hb; lia|].
    intros c (i & Hi & <-)%Hat. exists (slots_at counts i). split; [by apply Hb|].
    apply Hge, elem_of_seq. lia.
Qed.

(** ** Cutting a request *)

(** Candidates of a well-formed scheduler, with exact bounds. *)
Record CandOk (s : SchedulerState) (c : AllocationCandidate) : Prop := {
  co_lt : (first_piece c < end_piece c)%nat;
  co_end : (end_piece c <= count s)%nat;
  co_start_exact : cand_start c = plo s (first_piece c);
  co_end_exact : cand_end c = phi s (end_piece c - 1)%nat;
  co_untouched : forall k, (first_piece c <= k < end_piece c)%nat -> untouched s k;
}.

Lemma range_exact s i :
  Sched_wf s -> (i < count s)%nat -> piece_range (piece_map s) i = (plo s i, phi s i).
Proof. intros W Hi. by rewrite piece_range_exact by (done || apply W). Qed.

Lemma RunOf_CandOk s c : Sched_wf s -> RunOf s (untouched s) 0 (count s) c -> CandOk s c.
Proof.
  intros W (E & H1 & H2 & HU). split; try done; try lia; rewrite E;
    unfold candidate_of; cbn [cand_start cand_end first_piece end_piece].
  - by rewrite range_exact by (done || lia).
  - by rewrite range_exact by (done || lia).
Qed.

(** Inside the file, a piece ends at the next multiple of the piece size. *)
Lemma phi_inner s i : Sched_wf s -> (S i < count s)%nat -> phi s i = Z.of_nat (S i) * piece_size (piece_map s).
Proof.
  intros W Hi. pose proof (sw_pm _ W) as P. unfold phi, total_of, count in *. rewrite (wf_count _ P) in Hi.
  by rewrite (piece_hi_inner _ _ _ (wf_geometry _ P) Hi).
Qed.

Lemma phi_le_mult s i : phi s i <= Z.of_nat (S i) * piece_size (piece_map s).
Proof. unfold phi, piece_hi. lia. Qed.

Lemma phi_mono s i j : Sched_wf s -> (i < j)%nat -> (j < count s)%nat -> phi s i < phi s j /\ phi s i <= plo s j.
Proof.
  intros W Hij Hj. pose proof (plo_phi s j W Hj). pose proof (phi_le_mult s i).
  assert (0 < piece_size (piece_map s)) by (apply (wf_geometry _ (sw_pm _ W))).
  assert (phi s i <= plo s j) by (unfold plo, piece_lo; nia). lia.
Qed.

Lemma size_pos s : Sched_wf s -> 0 < piece_size (piece_map s).
Proof. intros W. apply (wf_geometry _ (sw_pm _ W)). Qed.

(** Where the minimum split size allows a cut: at least [min] bytes on both sides. *)
Lemma legal_bounds_spec s c min fl ll :
  Sched_wf s -> CandOk s c -> 0 <= min ->
  dynamic_legal_split_bounds s c min = Some (fl, ll) ->
  (first_piece c < fl <= ll)%nat /\ (ll < end_piece c)%nat /\
  min <= plo s fl - cand_start c /\ min <= cand_end c - plo s ll.
Proof.
  intros W C Hmin E. unfold dynamic_legal_split_bounds in E.
  pose proof (size_pos s W) as Hps.
  destruct (_ || _) eqn:B in E; [done|]. rewrite !orb_false_iff, Z.eqb_neq, Nat.leb_gt in B.
  destruct B as ((B1 & B2) & B3%Z.ltb_ge). rewrite Z.max_l in E by lia.
  destruct (Nat.leb_spec (first_piece c + Z.to_nat (div_ceil min (piece_size (piece_map s))))
    (Nat.min (Z.to_nat (sat_sub64 (cand_end c) min / piece_size (piece_map s))) (end_piece c - 1))) as [Hle|];
    [|done].
  injection E as <- <-. set (ps := piece_size (piece_map s)) in *.
  pose proof (div_ceil_spec min ps Hmin Hps) as Hd. set (q := div_ceil min ps) in *.
  assert (0 < q) by nia.
  assert (min <= cand_end c) as Hce.
  { assert (2 * min <= cand_len c) as Hlen.
    { pose proof (Z.mul_div_le (cand_len c) min ltac:(lia)). nia. }
    unfold cand_len, sat_sub64 in Hlen. rewrite (co_start_exact _ _ C) in Hlen.
    pose proof (plo_phi s (first_piece c) W ltac:(pose proof (co_lt _ _ C); pose proof (co_end _ _ C); lia)). lia. }
  unfold sat_sub64 in *. rewrite Z.max_r in * by lia.
  pose proof (Z.mul_div_le (cand_end c - min) ps Hps) as Hm.
  assert (0 <= (cand_end c - min) / ps) by (apply Z.div_pos; lia).
  split_and!; try lia.
  - rewrite (co_start_exact _ _ C). unfold plo, piece_lo. fold ps. rewrite Nat2Z.inj_add, Z2Nat.id by lia. nia.
  - unfold plo, piece_lo. fold ps.
    assert (Z.of_nat (Nat.min (Z.to_nat ((cand_end c - min) / ps)) (end_piece c - 1)) <= (cand_end c - min) / ps) by lia.
    nia.
Qed.

Lemma plo_mono s a b : Sched_wf s -> (a <= b)%nat -> plo s a <= plo s b.
Proof. intros W Hab. pose proof (size_pos s W). unfold plo, piece_lo. nia. Qed.

Lemma phi_pred s k : Sched_wf s -> (0 < k < count s)%nat -> phi s (k - 1) = plo s k.
Proof.
  intros W Hk. rewrite (phi_inner s (k - 1) W) by lia. unfold plo, piece_lo. do 2 f_equal. lia.
Qed.

Lemma cand_end_min s c ep :
  Sched_wf s -> CandOk s c -> (first_piece c < ep <= end_piece c)%nat ->
  phi s (ep - 1) <= cand_end c /\
  Z.min (snd (piece_range (piece_map s) (ep - 1))) (cand_end c) = phi s (ep - 1).
Proof.
  intros W C Hep. pose proof (co_end _ _ C) as Hend.
  assert (phi s (ep - 1) <= cand_end c) as Hle.
  { rewrite (co_end_exact _ _ C). destruct (decide (ep = end_piece c)) as [->|]; [lia|].
    pose proof (phi_mono s (ep - 1) (end_piece c - 1) W ltac:(lia) ltac:(lia)). lia. }
  split; [done|]. rewrite range_exact by (done || lia). simpl. lia.
Qed.

(** The last piece that fits under a byte bound, as [dynamic_request_end] computes it. *)
Definition byte_end (ps bound : Z) (c : AllocationCandidate) : nat :=
  if cand_end c <=? bound then end_piece c
  else Nat.min (Nat.max (Z.to_nat (bound / ps)) (first_piece c + 1)) (end_piece c).

Lemma byte_end_cap s c cfg ep :
  Sched_wf s -> CandOk s c ->
  (first_piece c < ep)%nat ->
  (ep <= byte_end (piece_size (piece_map s))
           (sat_add64 (cand_start c) (Z.max cfg (piece_size (piece_map s)))) c)%nat ->
  phi s (ep - 1) - cand_start c <= Z.max cfg (piece_size (piece_map s)).
Proof.
  intros W C Hep Hb. pose proof (size_pos s W) as Hps. set (ps := piece_size (piece_map s)) in *.
  set (bb := sat_add64 (cand_start c) (Z.max cfg ps)) in *.
  pose proof (co_lt _ _ C) as Hlt. pose proof (co_end _ _ C) as Hend.
  assert (bb <= cand_start c + Z.max cfg ps) as Hbb by (unfold bb, sat_add64; lia). clearbody bb.
  unfold byte_end in Hb. destruct (Z.leb_spec (cand_end c) bb).
  - destruct (cand_end_min s c ep W C ltac:(lia)) as [Hle _]. lia.
  - rewrite (co_start_exact _ _ C) in *. destruct (decide (ep = first_piece c + 1)%nat) as [->|Hne].
    + rewrite Nat.add_sub. pose proof (piece_span s (first_piece c) W ltac:(lia)) as Hsp. fold ps in Hsp. lia.
    + pose proof (phi_le_mult s (ep - 1)) as Hm. fold ps in Hm. replace (S (ep - 1)) with ep in Hm by lia.
      assert (Z.of_nat ep <= bb / ps) by lia. pose proof (Z.mul_div_le bb ps Hps). nia.
Qed.

Lemma byte_end_bounds ps bound c :
  (first_piece c < end_piece c)%nat -> (first_piece c < byte_end ps bound c <= end_piece c)%nat.
Proof. intros H. unfold byte_end. destruct (_ <=? _); lia. Qed.

(** What the end piece of a request satisfies. *)
Definition EndPieceOk (s : SchedulerState) (c : AllocationCandidate) (min cfg : Z) (ep : nat) : Prop :=
  (first_piece c < ep <= end_piece c)%nat /\ (ep - first_piece c <= MAX_REQUEST_LEASES)%nat /\
  phi s (ep - 1)%nat - cand_start c <= Z.max cfg (piece_size (piece_map s)) /\
  ((ep < end_piece c)%nat -> forall fl ll, dynamic_legal_split_bounds s c min = Some (fl, ll) ->
     min <= cand_end c - phi s (ep - 1)%nat /\
     (min <= phi s (ep - 1)%nat - cand_start c \/ (ep < fl)%nat)).

(** Moving the end piece onto a legal boundary keeps the limits. *)
Lemma legal_end_ok s c min cfg raw :
  Sched_wf s -> CandOk s c -> 0 <= min ->
  (first_piece c < raw <= end_piece c)%nat -> (raw - first_piece c <= MAX_REQUEST_LEASES)%nat ->
  (forall ep, (first_piece c < ep <= raw)%nat ->
     phi s (ep - 1) - cand_start c <= Z.max cfg (piece_size (piece_map s))) ->
  EndPieceOk s c min cfg
    (if (raw <? end_piece c)%nat then
       match dynamic_legal_split_bounds s c min with
       | Some (fl, ll) => if (fl <=? raw)%nat then Nat.min raw ll else raw
       | None => raw
       end
     else raw).
Proof.
  intros W C Hmin Hraw Hrl Hcap. pose proof (co_end _ _ C) as Hend.
  destruct (Nat.ltb_spec raw (end_piece c)) as [Hlt|Hge].
  2: { split_and!; try lia; try (apply Hcap; lia); intros; lia. }
  destruct (dynamic_legal_split_bounds s c min) as [[fl ll]|] eqn:L.
  2: { split_and!; try lia; try (apply Hcap; lia). by rewrite L. }
  destruct (legal_bounds_spec s c min fl ll W C Hmin L) as (Hf & Hl & Hm1 & Hm2).
  destruct (Nat.leb_spec fl raw) as [Hfr|Hfr].
  - split_and!; try lia; [apply Hcap; lia|]. intros _ fl' ll'. rewrite L. intros [= <- <-].
    rewrite phi_pred by (done || lia).
    pose proof (plo_mono s (Nat.min raw ll) ll W ltac:(lia)).
    pose proof (plo_mono s fl (Nat.min raw ll) W ltac:(lia)). split; [lia|left; lia].
  - split_and!; try lia; [apply Hcap; lia|]. intros _ fl' ll'. rewrite L. intros [= <- <-].
    rewrite phi_pred by (done || lia).
    pose proof (plo_mono s raw ll W ltac:(lia)). split; [lia|by right].
Qed.

(** The end piece [dynamic_request_end] settles on. *)
Lemma dynamic_request_end_spec s c desired min cfg e reason :
  Sched_wf s -> CandOk s c -> 0 <= min ->
  dynamic_request_end s c desired min cfg = (e, reason) ->
  exists ep, EndPieceOk s c min cfg ep /\ e = phi s (ep - 1)%nat.
Proof.
  intros W C Hmin E. unfold dynamic_request_end in E. pose proof (size_pos s W) as Hps.
  pose proof (co_lt _ _ C) as Hlt. pose proof (co_end _ _ C) as Hend.
  rewrite (Z.max_l (piece_size (piece_map s)) 1) in E by lia.
  rewrite (Z.max_l (Z.max cfg (piece_size (piece_map s))) 1) in E by lia.
  set (d := Nat.min (Nat.max desired (first_piece c + 1)) (end_piece c)) in *.
  fold (byte_end (piece_size (piece_map s))
          (sat_add64 (cand_start c) (Z.max cfg (piece_size (piece_map s)))) c) in E.
  pose proof (fun ep => byte_end_cap s c cfg ep W C) as Hcap.
  pose proof (byte_end_bounds (piece_size (piece_map s))
    (sat_add64 (cand_start c) (Z.max cfg (piece_size (piece_map s)))) c Hlt) as Hbe.
  set (be := byte_end _ _ c) in *. clearbody be.
  set (raw := Nat.min (Nat.max (Nat.min (Nat.min d be) _) _) _) in *.
  assert (first_piece c < raw <= end_piece c)%nat as Hraw by lia.
  assert (raw <= be /\ raw - first_piece c <= MAX_REQUEST_LEASES)%nat as [Hrb Hrl]
    by (unfold MAX_REQUEST_LEASES in *; lia).
  clearbody raw d.
  pose proof (legal_end_ok s c min cfg raw W C Hmin Hraw Hrl
    ltac:(intros ep Hep; apply Hcap; lia)) as Hok.
  eexists. split; [exact Hok|]. destruct Hok as (Hep & _).
  destruct (raw <? end_piece c)%nat; [destruct (dynamic_legal_split_bounds s c min) as [[fl ll]|];
    [destruct (fl <=? raw)%nat|]|];
    apply (f_equal fst) in E; cbn [fst] in E; rewrite <- E; by apply cand_end_min.
Qed.

(** ** Issuing the request *)

Definition whole_piece (s : SchedulerState) (k : nat) : nat * Z * Z := (k, plo s k, phi s k).

Lemma untouched_missing s k b :
  Sched_wf s -> (k < count s)%nat -> untouched s k -> plo s k <= b < phi s k -> status s b = Missing.
Proof.
  intros W Hk [A N] Hb. unfold status. rewrite (in_piece s k b W Hb), N.
  by rewrite (untouched_open s k W Hk A N).
Qed.

(** Reserving other pieces leaves an untouched piece missing. *)
Lemma untouched_still_missing s0 s w segs k b :
  Sched_wf s0 -> Reserved s0 s w segs -> (k < count s0)%nat -> untouched s0 k ->
  (forall g, g ∈ segs -> seg_piece_id g <> k) -> plo s0 k <= b < phi s0 k -> status s b = Missing.
Proof.
  intros W R Hk U Hne Hb. pose proof (plo_phi s0 k W Hk).
  rewrite (rs_other _ _ _ _ R b); [by apply (untouched_missing s0 k)|lia|].
  intros g Hg. destruct (in_seg g b) eqn:E; [|done]. exfalso. apply (Hne g Hg).
  destruct (rs_seg _ _ _ _ R g Hg) as (Hgi & _ & ? & ? & ? & _).
  unfold in_seg in E. apply in_range_true in E. simpl in E.
  rewrite <- (in_piece s0 (seg_piece_id g) b W ltac:(lia)). by apply in_piece.
Qed.

Lemma issue_dynamic_loop_grows ids e w segs s : id_grows s (snd (issue_dynamic_loop ids e w segs s)).
Proof.
  revert segs s. induction ids as [|i ids IH]; intros segs s; cbn [issue_dynamic_loop]; [reflexivity|].
  destruct (piece_range _ i) as [a pe]. destruct (_ <? _); [reflexivity|].
  pose proof (issue_lease_grows i (mkRange a pe) w s) as G.
  destruct (issue_lease _ _ _ _) as [[g|] s1]; simpl in *.
  - etrans; [exact G|apply IH].
  - unfold id_grows in *. by rewrite rollback_next.
Qed.

Lemma issue_dynamic_loop_spec s0 ep w n k segs s res s' :
  Sched_wf s0 -> stopped s0 = false -> Reserved s0 s w segs ->
  (k <= ep <= k + n)%nat -> (k + n <= count s0)%nat -> (0 < ep)%nat ->
  (forall j, (k <= j < ep)%nat -> untouched s0 j) ->
  (forall g, g ∈ segs -> (seg_piece_id g < k)%nat) ->
  issue_dynamic_loop (seq k n) (phi s0 (ep - 1)) w segs s = (res, s') -> next_lease_id s' < u64_max ->
  exists segs', res = Some segs' /\ Reserved s0 s' w segs' /\
    shape <$> segs' = (shape <$> segs) ++ (whole_piece s0 <$> seq k (ep - k)).
Proof.
  intros W Hst. revert k segs s. induction n as [|n IH];
    intros k segs s R Hep Hn Hpos HU Hpc E Hlim; cbn [seq issue_dynamic_loop] in E.
  { injection E as <- <-. exists segs. replace (ep - k)%nat with 0%nat by lia. by rewrite app_nil_r. }
  rewrite (rs_pm _ _ _ _ R), range_exact in E by (done || lia).
  destruct (decide (ep = k)) as [->|Hne].
  { pose proof (phi_mono s0 (k - 1) k W ltac:(lia) ltac:(lia)) as [Hlt _].
    rewrite (proj2 (Z.ltb_lt _ _)) in E by done. injection E as <- <-. exists segs.
    rewrite Nat.sub_diag. by rewrite app_nil_r. }
  assert (phi s0 k <= phi s0 (ep - 1)) as Hle.
  { destruct (decide (k = ep - 1)%nat) as [->|]; [lia|].
    pose proof (phi_mono s0 k (ep - 1) W ltac:(lia) ltac:(lia)). lia. }
  rewrite (proj2 (Z.ltb_ge _ _)) in E by done.
  pose proof (HU k ltac:(lia)) as Uk. pose proof (plo_phi s0 k W ltac:(lia)) as Hbd.
  assert (bit (piece_map s0) k = false) as Hbit by (apply untouched_open; try done; [lia|apply Uk|apply Uk]).
  destruct (same_geometry _ _ (rs_pm _ _ _ _ R)) as (Ht & Hc & Hlo & Hhi).
  set (rg := mkRange (plo s0 k) (phi s0 k)) in *.
  assert (rstart rg < rend rg) as Hrg by (simpl; lia).
  destruct (issue_lease_total s k rg w) as (g & s1 & I).
  { apply R. } { by rewrite Hc; lia. } { by rewrite (rs_pm _ _ _ _ R). }
  { by rewrite (rs_stopped _ _ _ _ R). } { done. } { by rewrite Hlo. } { by rewrite Hhi. }
  { intros b Hb%in_range_true. apply (untouched_still_missing s0 s w segs k); try done; [lia|].
    intros g Hg Eg. specialize (Hpc g Hg). lia. }
  rewrite I in E.
  pose proof (issue_lease_grows k rg w s) as G. rewrite I in G.
  pose proof (issue_dynamic_loop_grows (seq (S k) n) (phi s0 (ep - 1)) w (segs ++ [g]) s1) as G'.
  rewrite E in G'. simpl in G, G'.
  destruct (issue_lease_reserved s0 s segs k rg w (Some g) s1 W R ltac:(lia) Hbit Hrg I
    (grows_below s s1 s' (rs_wf _ _ _ _ R) G G' Hlim)) as [R1 Hiss].
  pose proof (Issued_shape _ _ _ _ _ _ Hiss) as Sh. simpl in Sh.
  destruct (IH (S k) (segs ++ [g]) s1 R1) as (segs' & -> & R' & Sh'); try done; try lia.
  - intros j Hj. apply HU. lia.
  - intros g' [Hg'| ->%list_elem_of_singleton]%elem_of_app; [specialize (Hpc g' Hg'); lia|].
    injection Sh as -> _ _. lia.
  - exists segs'. split_and!; [done|done|]. rewrite Sh', fmap_app, <- app_assoc. simpl. rewrite Sh.
    replace (ep - k)%nat with (S (ep - S k)) by lia. done.
Qed.

Lemma whole_pieces_chained s k n prev :
  Sched_wf s -> (k + n <= count s)%nat ->
  match prev with Some (j, e) => k = (j + 1)%nat /\ e = plo s k | None => True end ->
  chained prev (whole_piece s <$> seq k n).
Proof.
  intros W. revert k prev. induction n as [|n IH]; intros k prev Hn Hp; simpl; [done|].
  pose proof (plo_phi s k W ltac:(lia)). split_and!.
  - destruct prev as [[j e]|]; [|done]. destruct Hp as [-> ->]. done.
  - lia.
  - destruct n; [done|]. apply IH; [lia|]. split; [lia|].
    pose proof (phi_pred s (S k) W ltac:(lia)) as Hp'. by rewrite Nat.sub_succ, Nat.sub_0_r in Hp'.
Qed.

Lemma min_split_nonneg ps configured : 0 <= effective_dynamic_min_split_size ps configured.
Proof. unfold effective_dynamic_min_split_size. lia. Qed.

(** A dynamic request is a prefix of a run of untouched pieces. *)
Record DynamicOk (s s' : SchedulerState) (w : nat) (min cfg : Z) (c : AllocationCandidate)
    (segs : list Segment) : Prop := {
  dy_cand : c ∈ dynamic_candidates s;
  dy_ok : CandOk s c;
  dy_reserved : Reserved s s' w segs;
  dy_prefix : exists ep, EndPieceOk s c min cfg ep /\
    shape <$> segs = whole_piece s <$> seq (first_piece c) (ep - first_piece c);
}.

Lemma issue_dynamic_candidate_spec s c ep w min cfg res s' :
  Sched_wf s -> stopped s = false -> CandOk s c -> c ∈ dynamic_candidates s ->
  EndPieceOk s c min cfg ep ->
  issue_dynamic_candidate c (phi s (ep - 1)) w s = (res, s') -> next_lease_id s' < u64_max ->
  exists segs, res = Some segs /\ DynamicOk s s' w min cfg c segs.
Proof.
  intros W Hst C Hin Hep E Hlim. pose proof Hep as (Hep1 & Hep2 & _).
  pose proof (co_end _ _ C) as Hend.
  assert (cand_start c < phi s (ep - 1)) as Hlt.
  { rewrite (co_start_exact _ _ C). pose proof (plo_phi s (ep - 1) W ltac:(lia)).
    pose proof (plo_mono s (first_piece c) (ep - 1) W ltac:(lia)). lia. }
  unfold issue_dynamic_candidate, try_bind, get_state, none, some in E. rewrite Hst in E.
  rewrite (proj2 (Z.leb_gt _ _)) in E by lia. simpl in E.
  destruct (issue_dynamic_loop _ _ w [] s) as [r1 s1] eqn:L.
  pose proof (Reserved_nil s s w W eq_refl eq_refl eq_refl (reflexivity _)) as R0.
  assert (s' = s1) as -> by (destruct r1 as [l|]; [destruct (bool_decide (l = []))|]; by injection E as _ <-).
  destruct (issue_dynamic_loop_spec s ep w (end_piece c - first_piece c)%nat (first_piece c) [] s r1 s1)
    as (segs & -> & R & Sh); try done; try lia.
  - intros j Hj. apply (co_untouched _ _ C). lia.
  - intros g Hg. by apply not_elem_of_nil in Hg.
  - simpl in Sh. assert (segs <> []) as Hne.
    { intros ->. destruct (ep - first_piece c)%nat eqn:En; [lia|done]. }
    rewrite bool_decide_eq_false_2 in E by done. injection E as <-.
    exists segs. split; [done|]. split; try done. by exists ep.
Qed.

Lemma whole_piece_ends s k n segs :
  shape <$> segs = whole_piece s <$> seq k (S n) ->
  seg_start <$> head segs = Some (plo s k) /\ seg_end <$> last segs = Some (phi s (k + n)).
Proof.
  intros Sh. split.
  - destruct segs as [|g segs]; [done|]. simpl in *. injection Sh as _ Sh _ _. by rewrite Sh.
  - apply (f_equal last) in Sh. rewrite !fmap_last, seq_S, last_snoc in Sh.
    destruct (last segs) as [g|]; [|done]. injection Sh as _ _ Sh. simpl. by rewrite Sh.
Qed.

Lemma DynamicOk_request s s' w min cfg c segs first last_ :
  Sched_wf s -> DynamicOk s s' w min cfg c segs -> head segs = Some first -> last segs = Some last_ ->
  chained None (shape <$> segs) /\ (1 <= length segs <= MAX_REQUEST_LEASES)%nat /\
  seg_end last_ - seg_start first <= Z.max cfg (piece_size (piece_map s)).
Proof.
  intros W [Hin C R (ep & (Hep1 & Hep2 & Hcap & _) & Sh)] H1 H2. pose proof (co_end _ _ C) as Hend.
  pose proof (f_equal length Sh) as Hl. rewrite !length_fmap, length_seq in Hl.
  split_and!; try lia.
  - rewrite Sh. apply whole_pieces_chained; [done|lia|done].
  - replace (ep - first_piece c)%nat with (S (ep - first_piece c - 1)) in Sh by lia.
    apply whole_piece_ends in Sh as [Es Ee]. rewrite H1 in Es. rewrite H2 in Ee. simpl in Es, Ee.
    injection Es as ->. injection Ee as ->.
    replace (first_piece c + (ep - first_piece c - 1))%nat with (ep - 1)%nat by lia.
    by rewrite <- (co_start_exact _ _ C).
Qed.

Lemma dynamic_plan s w occ slots dmin dmax collect :
  Sched_wf s -> (0 < slots)%nat -> dynamic_candidates s <> [] ->
  exists plan ep reason,
    plan_dynamic_share s (dynamic_candidates s) slots (aligned_dynamic_min_split_size s dmin) collect
      = Some plan /\
    plan_candidate plan ∈ dynamic_candidates s /\ CandOk s (plan_candidate plan) /\
    EndPieceOk s (plan_candidate plan) (aligned_dynamic_min_split_size s dmin) dmax ep /\
    assign_dynamic_request w occ slots dmin dmax collect s =
      match issue_dynamic_candidate (plan_candidate plan) (phi s (ep - 1)) w s with
      | (Some segs, s') =>
          match head segs, last segs with
          | Some first, Some last =>
              (Some (mkAssignment segs (cand_start (plan_candidate plan)) (cand_end (plan_candidate plan))
                 true (plan_slots plan)
                 (snd (piece_range (piece_map s) (dynamic_share_end_piece s (plan_candidate plan)
                    (plan_slots plan) (aligned_dynamic_min_split_size s dmin) - 1)))
                 (plan_shares plan) (seg_start first) (seg_end last) slots occ (plan_ranges plan) reason), s')
          | _, _ => (None, s')
          end
      | (None, s') => (None, s')
      end.
Proof.
  intros W Hs Hne. destruct (dynamic_candidates_spec s W) as [HR _].
  destruct (plan_spec s (dynamic_candidates s) slots (aligned_dynamic_min_split_size s dmin) collect Hs Hne)
    as (plan & Hp & Hin & _).
  assert (CandOk s (plan_candidate plan)) as C.
  { apply RunOf_CandOk; [done|]. rewrite List.Forall_forall in HR. by apply HR, list_elem_of_In. }
  destruct (dynamic_request_end s (plan_candidate plan)
    (dynamic_share_end_piece s (plan_candidate plan) (plan_slots plan) (aligned_dynamic_min_split_size s dmin))
    (aligned_dynamic_min_split_size s dmin) dmax) as [e reason] eqn:E.
  destruct (dynamic_request_end_spec _ _ _ _ _ _ _ W C (min_split_nonneg _ _) E) as (ep & Hep & ->).
  exists plan, ep, reason. split_and!; try done.
  unfold assign_dynamic_request, try_bind, get_state, lift_option, none, some.
  rewrite bool_decide_eq_false_2 by done. rewrite Hp, E.
  destruct (issue_dynamic_candidate _ _ w s) as [[segs|] s']; [|done].
  destruct (head segs); [|done]. by destruct (last segs).
Qed.

Lemma assign_dynamic_spec w occ slots dmin dmax collect s res s' :
  Sched_wf s -> (0 < slots)%nat ->
  assign_dynamic_request w occ slots dmin dmax collect s = (res, s') -> next_lease_id s' < u64_max ->
  match res with
  | Some a => RequestOk s s' w dmax a /\ stopped s = false /\
      (dynamic_candidates s = [] \/ exists c,
         DynamicOk s s' w (aligned_dynamic_min_split_size s dmin) dmax c (segments a))
  | None => Reserved s s' w [] /\ (stopped s = true \/ available_range_count s = 0%nat)
  end.
Proof.
  intros W Hs E Hlim. destruct (decide (dynamic_candidates s = [])) as [Hnil|Hne].
  - unfold assign_dynamic_request, try_bind, get_state, some in E. rewrite bool_decide_eq_true_2 in E by done.
    destruct (assign_to w s) as [[g|] s1] eqn:A; injection E as <- <-;
      pose proof (assign_spec w 1 u64_max s _ s1 W ltac:(done) A Hlim) as H; [|done].
    destruct H as [R Hst]. split_and!; [|done|by left]. split; simpl; try done.
    + destruct (rs_seg _ _ _ _ R g ltac:(by left)) as (_&_&_&?&_). done.
    + unfold MAX_REQUEST_LEASES. lia.
    + pose proof (reserved_first _ _ _ _ _ W R). lia.
  - destruct (dynamic_plan s w occ slots dmin dmax collect W Hs Hne) as (plan & ep & reason & _ & Hin & C & Hep & Eq).
    rewrite Eq in E. clear Eq. destruct (stopped s) eqn:Hst.
    { unfold issue_dynamic_candidate, try_bind, get_state, none in E. rewrite Hst in E. simpl in E.
      injection E as <- <-. split; [|by left]. by apply Reserved_nil. }
    destruct (issue_dynamic_candidate _ _ w s) as [r1 s1] eqn:I.
    assert (s' = s1) as -> by (destruct r1 as [l|]; [destruct (head l); [destruct (last l)|]|]; by injection E as _ <-).
    destruct (issue_dynamic_candidate_spec _ _ _ _ _ _ _ _ W Hst C Hin Hep I Hlim) as (segs & -> & D).
    destruct (head segs) as [f|] eqn:H1, (last segs) as [l|] eqn:H2.
    + injection E as <-. destruct (DynamicOk_request _ _ _ _ _ _ _ _ _ W D H1 H2) as (Hch & Hl & Hspan).
      split_and!; [|done|right; by eexists]. split; simpl; try done; [apply D|by rewrite H1|by rewrite H2].
    + by destruct segs; [|apply last_None in H2].
    + by destruct segs.
    + destruct D as [_ C' _ (ep' & (Hep' & _) & Sh)]. destruct segs; [|done].
      destruct (ep' - first_piece (plan_candidate plan))%nat eqn:En; [lia|done].
Qed.

Lemma issue_dynamic_candidate_grows c e w s : id_grows s (snd (issue_dynamic_candidate c e w s)).
Proof.
  unfold issue_dynamic_candidate, try_bind, get_state, none, some.
  destruct (_ || _); [reflexivity|].
  pose proof (issue_dynamic_loop_grows (seq (first_piece c) (end_piece c - first_piece c)) e w [] s) as G.
  destruct (issue_dynamic_loop _ _ _ _ _) as [[l|] s1]; [|exact G]. by destruct (bool_decide _).
Qed.

Lemma assign_dynamic_grows w occ slots dmin dmax collect s :
  id_grows s (snd (assign_dynamic_request w occ slots dmin dmax collect s)).
Proof.
  unfold assign_dynamic_request, try_bind, get_state, lift_option, none, some.
  destruct (bool_decide _).
  - pose proof (assign_grows w 1 u64_max s) as G. unfold assign_to.
    by destruct (assign_to_with_split _ _ _ _) as [[?|] ?].
  - destruct (plan_dynamic_share _ _ _ _ _) as [plan|]; [|reflexivity].
    destruct (dynamic_request_end _ _ _ _ _) as [e reason].
    pose proof (issue_dynamic_candidate_grows (plan_candidate plan) e w s) as G.
    destruct (issue_dynamic_candidate _ _ _ _) as [[l|] s1]; [|exact G].
    destruct (head l); [|exact G]. by destruct (last l).
Qed.
