(* ===== verification/SchedProps.v ===== *)
(** * What the scheduler guarantees

    Every public method is a step of [sched_step]; the theorems are about the
    states reachable from a fresh scheduler as long as the lease counter has not
    reached [u64::MAX] (it saturates there). *)

From S2P Require Import Prelude PieceMap Ranges Segment Scheduler SchedInv SchedSpec Planner Reserve Assign Dynamic.

(** ** The initial state *)

Lemma Scheduler_new_wf pm : PieceMap_wf pm -> Sched_wf (Scheduler_new pm).
Proof.
  intros P. assert (forall i, piece_avail (Scheduler_new pm) i = if bit pm i then 0%nat else 1%nat) as Hav.
  { intros i. unfold piece_avail, Scheduler_new. cbn [pieces piece_map]. by rewrite lookup_empty. }
  split; try done.
  - unfold count. simpl. unfold missing_bitset. rewrite length_fmap. apply P.
  - intros i Hi. rewrite Hav. unfold Scheduler_new, missing_bitset, bit. cbn [available_pieces].
    rewrite list_lookup_fmap. unfold count in Hi. simpl in Hi. rewrite <- (wf_length _ P) in Hi.
    destruct (lookup_lt_is_Some_2 _ _ Hi) as [v ->]. simpl. by destruct v.
  - simpl. symmetry. apply nsum_zero. intros i _. unfold piece_active, Scheduler_new. cbn [pieces].
    by rewrite lookup_empty.
  - unfold count. simpl. unfold remaining_count. rewrite (wf_pieces _ P). unfold pieces_done.
    rewrite (nsum_ext (piece_avail (Scheduler_new pm)) (fun i => if bit pm i then 0 else 1)%nat) by (by intros).
    assert (forall n, nsum (fun i => if bit pm i then 0 else 1) n + nsum (fun i => if bit pm i then 1 else 0) n = n)%nat as Hn.
    { induction n as [|n IH]; simpl; [done|]. destruct (bit pm n); lia. }
    specialize (Hn (piece_count pm)). lia.
  - unfold count. simpl. unfold first_missing. destruct (Nat.ltb_spec (next_missing pm) (piece_count pm)); simpl; lia.
Qed.

(** ** Steps *)

Inductive sched_step (s : SchedulerState) : SchedulerState -> Prop :=
| step_assign_request w max_requests min occ mode batch dmin dmax allow diag shares :
    0 <= min ->
    sched_step s (snd (assign_request_with_trace w max_requests min occ mode batch dmin dmax
                         allow diag shares s))
| step_assign_to_with_split w m min :
    0 <= min -> sched_step s (snd (assign_to_with_split w m min s))
| step_assign_subrange i a e w :
    sched_step s (snd (assign_subrange i a e w s))
| step_assign_recovery_batch planned w :
    sched_step s (snd (assign_recovery_batch planned w s))
| step_extend_batch first w m cap :
    sched_step s (snd (extend_batch first w m cap s))
| step_retain_prefix key e : sched_step s (snd (retain_prefix key e s))
| step_renew key w : sched_step s (snd (renew key w s))
| step_complete key : sched_step s (snd (complete key s))
| step_reclaim key : sched_step s (snd (reclaim key s))
| step_stop_and_reclaim key : sched_step s (stop_and_reclaim key s)
| step_control_hints : sched_step s (snd (control_hints s)).

(** ** Assignment requests *)

Lemma assign_request_grows w m min occ mode batch dmin dmax allow diag shares s :
  id_grows s (snd (assign_request_with_trace w m min occ mode batch dmin dmax allow diag shares s)).
Proof.
  unfold assign_request_with_trace, try_bind, get_state, none, some.
  destruct (_ || _); [reflexivity|]. destruct allow; simpl.
  - destruct mode; [apply assign_fixed_grows|apply assign_dynamic_grows].
  - pose proof (assign_grows w 1 u64_max s) as G. unfold assign_to.
    by destruct (assign_to_with_split _ _ _ _) as [[?|] ?].
Qed.

(** The byte limit of a mode. *)
Definition mode_cap (mode : RangeSchedulingMode) (batch dmax : Z) : Z :=
  match mode with Fixed => batch | Dynamic => dmax end.

Lemma assign_request_spec w m min occ mode batch dmin dmax allow diag shares s res s' :
  Sched_wf s -> 0 <= min ->
  assign_request_with_trace w m min occ mode batch dmin dmax allow diag shares s = (res, s') ->
  next_lease_id s' < u64_max ->
  match res with
  | Some a => RequestOk s s' w (mode_cap mode batch dmax) a
  | None => Reserved s s' w [] /\
      ((m <= occ)%nat \/ stopped s = true \/ available_range_count s = 0%nat)
  end.
Proof.
  intros W Hmin E Hlim. unfold assign_request_with_trace, try_bind, get_state, none, some in E.
  destruct (_ || _) eqn:B in E.
  { injection E as <- <-. split; [by apply Reserved_nil|].
    rewrite orb_true_iff, !Nat.eqb_eq in B. destruct B; [left; lia|by right; right]. }
  rewrite orb_false_iff, !Nat.eqb_neq in B. destruct allow; simpl in E.
  - destruct mode.
    + pose proof (assign_fixed_spec _ _ _ _ _ _ _ _ _ _ W Hmin E Hlim) as H.
      destruct res as [a|]; [done|]. destruct H as [R Hs]. split; [done|by right].
    + pose proof (assign_dynamic_spec _ _ (m - occ)%nat _ _ _ _ _ _ W ltac:(lia) E Hlim) as H.
      destruct res as [a|]; [by destruct H|]. destruct H as [R Hs]. split; [done|by right].
  - destruct (assign_to w s) as [[g|] s1] eqn:A; injection E as <- <-;
      pose proof (assign_spec w 1 u64_max s _ s1 W ltac:(done) A Hlim) as [R Hs].
    2: { split; [done|by right]. }
    pose proof (reserved_first _ _ _ _ _ W R). split; simpl; try done.
    + destruct (rs_seg _ _ _ _ R g ltac:(by left)) as (_&_&_&?&_). done.
    + unfold MAX_REQUEST_LEASES. lia.
    + lia.
Qed.

(** ** Preservation and simulation *)

Lemma subrange_spec i a e w s res s' :
  Sched_wf s -> assign_subrange i a e w s = (res, s') -> next_lease_id s' < u64_max ->
  match res with Some g => Reserved s s' w [g] | None => Reserved s s' w [] end.
Proof.
  intros W E Hlim. pose proof (Reserved_nil s s w W eq_refl eq_refl eq_refl (reflexivity _)) as R0.
  unfold assign_subrange, try_bind, get_state, lift_option, none, ByteRange_new in E.
  destruct (_ || _) eqn:B in E; [by injection E as <- <-|].
  apply orb_false_iff in B as [B1%Nat.leb_gt B2].
  destruct (Z.ltb_spec a e) as [Hae|]; [|by injection E as <- <-].
  destruct (piece_range (piece_map s) i) as [pa pe].
  destruct (_ || _) in E; [by injection E as <- <-|].
  rewrite is_complete_bit in B2 by apply W.
  pose proof (issue_lease_reserved s s [] i (mkRange a e) w res s' W R0 B1 B2 Hae E Hlim) as H.
  destruct res; [apply H|done].
Qed.

Lemma subrange_grows i a e w s : id_grows s (snd (assign_subrange i a e w s)).
Proof.
  unfold assign_subrange, try_bind, get_state, lift_option, none.
  destruct (_ || _); [reflexivity|]. destruct (ByteRange_new a e); [|reflexivity].
  destruct (piece_range _ i). destruct (_ || _); [reflexivity|]. apply issue_lease_grows.
Qed.

Lemma step_grows s s' : sched_step s s' -> id_grows s s'.
Proof.
  destruct 1.
  - apply assign_request_grows.
  - apply assign_grows.
  - apply subrange_grows.
  - apply recovery_batch_grows.
  - unfold extend_batch. pose proof (extend_batch_grows first w m 0 cap s) as G.
    by destruct (extend_batch_with_occupied _ _ _ _ _ _) as [[? ?] ?].
  - unfold id_grows, retain_prefix. destruct (pieces s !! _); [|simpl; lia].
    destruct (active_leases _ !! _); [|simpl; lia]. destruct (_ || _); simpl; lia.
  - apply renew_grows.
  - unfold id_grows, complete. destruct (pieces s !! _); [|simpl; lia].
    destruct (piece_complete _ _) as [[?|] ?]; simpl; lia.
  - unfold id_grows. rewrite reclaim_next. lia.
  - unfold id_grows, stop_and_reclaim. rewrite reclaim_next. simpl. lia.
  - unfold id_grows. simpl. lia.
Qed.

(** What a step preserves, and how the specification follows it. *)
Definition Simulates (s s' : SchedulerState) : Prop :=
  Sched_wf s' /\ total_of s' = total_of s /\
  rtc (spec_step (total_of s)) (status s) (status s').

Lemma Reserved_simulates s s' w segs : Reserved s s' w segs -> Simulates s s'.
Proof.
  intros R. split_and!; try apply R. unfold total_of. by rewrite (rs_pm _ _ _ _ R).
Qed.

Lemma stopped_wf s b : Sched_wf s -> Sched_wf (set_stopped b s).
Proof. intros []. by split. Qed.

Lemma reclaim_simulates s key : Sched_wf s -> Simulates s (snd (reclaim key s)).
Proof.
  intros W. destruct (reclaim key s) as [b s'] eqn:E.
  destruct (reclaim_spec s key b s' W E) as (W' & Hpm & _ & _ & _ & Hs).
  split_and!; [done|unfold total_of; simpl; by rewrite Hpm|].
  by apply rtc_once, (spec_release_step _ _ _ key).
Qed.

(** Closes a simulation goal from the reservation a method made. *)
Ltac by_reservation :=
  match goal with
  | R : Reserved _ _ _ _ |- _ => exact (Reserved_simulates _ _ _ _ R)
  | R : Reserved _ _ _ _ /\ _ |- _ => exact (Reserved_simulates _ _ _ _ (proj1 R))
  | R : RequestOk _ _ _ _ _ |- _ => exact (Reserved_simulates _ _ _ _ (ra_reserved _ _ _ _ _ R))
  end.

Lemma step_simulates s s' :
  Sched_wf s -> sched_step s s' -> next_lease_id s' < u64_max -> Simulates s s'.
Proof.
  intros W H. destruct H; intros Hlim.
  - destruct (assign_request_with_trace _ _ _ _ _ _ _ _ _ _ _ s) as [[a|] s'] eqn:E;
      apply assign_request_spec in E; try done; by_reservation.
  - destruct (assign_to_with_split w m min s) as [[g|] s'] eqn:E; apply assign_spec in E as [R _]; try done;
      by_reservation.
  - destruct (assign_subrange i a e w s) as [[g|] s'] eqn:E; apply subrange_spec in E; try done;
      by_reservation.
  - destruct (assign_recovery_batch planned w s) as [[l|] s'] eqn:E; apply recovery_batch_spec in E; try done;
      by_reservation.
  - unfold extend_batch in *. destruct (extend_batch_with_occupied first w m 0 cap s) as [[l r] s'] eqn:E.
    apply extend_batch_spec in E as [R _]; try done. by_reservation.
  - destruct (retain_prefix key e s) as [b s'] eqn:E.
    destruct (retain_prefix_spec s key e b s' W E) as (W' & Hpm & _ & _ & _ & Hs).
    split_and!; [done|unfold total_of; simpl; by rewrite Hpm|]. destruct b.
    + destruct Hs as [Hs _]. by apply rtc_once, (spec_retain_step _ _ _ key e).
    + by rewrite Hs.
  - destruct (renew key w s) as [r s'] eqn:E.
    destruct (renew_spec s key w r s' W E Hlim) as (W' & Hpm & _ & _ & Hs).
    split_and!; [done|unfold total_of; simpl; by rewrite Hpm|]. destruct r as [g|].
    + destruct Hs as (Hk & _ & Hs). apply rtc_once, (spec_renew_step _ _ _ key (lease_key g)); [|done].
      rewrite Hk. by apply fresh_unused.
    + by apply rtc_once, spec_skip_step.
  - destruct (complete key s) as [b s'] eqn:E.
    destruct (complete_spec s key b s' W E) as (W' & Ht & _ & _ & _ & _ & Hs).
    split_and!; try done. by apply rtc_once, (spec_ack_step _ _ _ key).
  - by apply reclaim_simulates.
  - apply (reclaim_simulates (set_stopped true s) key). by apply stopped_wf.
  - split_and!; [|done|by apply rtc_once, spec_skip_step]. destruct W. by split.
Qed.

(** ** Reachable states *)

Lemma steps_grow s s' : rtc sched_step s s' -> id_grows s s'.
Proof. induction 1 as [|s1 s2 s3 H _ IH]; [reflexivity|]. etrans; [by apply step_grows|done]. Qed.

Lemma steps_simulate s s' :
  Sched_wf s -> rtc sched_step s s' -> next_lease_id s' < u64_max -> Simulates s s'.
Proof.
  intros W H. induction H as [s|s s1 s' H Hs IH]; intros Hlim.
  { split_and!; [done|done|apply rtc_refl]. }
  pose proof (grows_below s s1 s' W (step_grows _ _ H) (steps_grow _ _ Hs) Hlim) as Hlim1.
  destruct (step_simulates s s1 W H Hlim1) as (W1 & Ht1 & R1).
  destruct (IH W1 Hlim) as (W' & Ht & R). split_and!; [done|congruence|].
  rewrite Ht1 in R. by etrans.
Qed.

Definition Reachable (pm : PieceMap) (s : SchedulerState) : Prop :=
  rtc sched_step (Scheduler_new pm) s /\ next_lease_id s < u64_max.

Lemma reachable_wf pm s : PieceMap_wf pm -> Reachable pm s -> Sched_wf s.
Proof. intros P [H Hlim]. apply (steps_simulate (Scheduler_new pm)); [by apply Scheduler_new_wf|done|done]. Qed.

(** C8: the scheduler implements the byte-status specification: whatever sequence
    of methods runs on a fresh scheduler, the invariant holds and the status of
    every byte evolves by specification steps only (issue of missing bytes under
    an unused lease, acknowledgement, release, renewal, retained prefix). *)
Theorem scheduler_refines_spec pm s :
  PieceMap_wf pm -> Reachable pm s ->
  Sched_wf s /\ total_of s = total_size pm /\
  rtc (spec_step (total_size pm)) (status (Scheduler_new pm)) (status s).
Proof. intros P [H Hlim]. by apply (steps_simulate (Scheduler_new pm)); [apply Scheduler_new_wf|..]. Qed.

Definition demo_map : PieceMap := PieceMap_new 2500 1000.

Definition demo_state : SchedulerState :=
  snd (complete (mkKey 0 1)
    (snd (assign_request_with_trace 7 1 100 0 Fixed 2000 0 0 true false false (Scheduler_new demo_map)))).

Lemma demo_map_wf : PieceMap_wf demo_map.
Proof. apply PieceMap_new_wf. unfold Geometry. lia. Qed.

Lemma demo_reachable : Reachable demo_map demo_state.
Proof.
  split; [|reflexivity]. eapply rtc_l; [by apply (step_assign_request _ 7 1 100 0 Fixed 2000 0 0 true false false)|].
  apply rtc_once, step_complete.
Qed.

Lemma scheduler_refines_spec_witness :
  status demo_state <$> [0; 999; 1000; 1999; 2000; 2499]
    = [Done; Done; Leased (mkKey 1 2); Leased (mkKey 1 2); Missing; Missing] /\
  Sched_wf demo_state.
Proof.
  split; [vm_compute; reflexivity|].
  apply (scheduler_refines_spec demo_map demo_state); [apply demo_map_wf|apply demo_reachable].
Defined.

(** ** Exclusive ownership *)

(** C10: in every reachable state a byte has at most one owner: the ranges of two
    different active leases are disjoint, lie inside their piece, and none of
    their bytes is offered for assignment again. *)
Theorem leases_exclusive pm s k1 k2 r1 r2 :
  PieceMap_wf pm -> Reachable pm s ->
  lease_range s k1 = Some r1 -> lease_range s k2 = Some r2 -> k1 <> k2 ->
  plo s (key_piece_id k1) <= rstart r1 < rend r1 /\ rend r1 <= phi s (key_piece_id k1) /\
  forall b, in_range r1 b = true -> in_range r2 b = false /\ status s b = Leased k1.
Proof.
  intros P R L1 L2 Hne. pose proof (reachable_wf pm s P R) as W.
  destruct (lease_range_status s k1 r1 W L1) as (B1 & B2 & B3 & H1).
  destruct (lease_range_status s k2 r2 W L2) as (_ & _ & _ & H2).
  split_and!; try done. intros b Hb. apply H1 in Hb. split; [|done].
  destruct (in_range r2 b) eqn:E; [|done]. apply H2 in E. congruence.
Qed.

Definition demo_state2 : SchedulerState := snd (assign_to 3 demo_state).

Lemma demo_reachable2 : Reachable demo_map demo_state2.
Proof.
  split; [|vm_compute; reflexivity]. eapply rtc_r; [apply demo_reachable|].
  by apply (step_assign_to_with_split _ 3 1 u64_max).
Qed.

Lemma leases_exclusive_witness :
  lease_range demo_state2 (mkKey 1 2) = Some (mkRange 1000 2000) /\
  lease_range demo_state2 (mkKey 2 3) = Some (mkRange 2000 2500) /\
  status demo_state2 1500 = Leased (mkKey 1 2).
Proof.
  assert (lease_range demo_state2 (mkKey 1 2) = Some (mkRange 1000 2000)) as L1 by (vm_compute; reflexivity).
  assert (lease_range demo_state2 (mkKey 2 3) = Some (mkRange 2000 2500)) as L2 by (vm_compute; reflexivity).
  split_and!; [exact L1|exact L2|].
  apply (leases_exclusive demo_map demo_state2 (mkKey 1 2) (mkKey 2 3) _ _ demo_map_wf demo_reachable2 L1 L2);
    [discriminate|reflexivity].
Defined.

(** ** Completion *)

(** A touched piece has a byte that is not acknowledged. *)
Lemma touched_not_done s i p :
  Sched_wf s -> pieces s !! i = Some p ->
  exists b, plo s i <= b < phi s i /\ status s b <> Done.
Proof.
  intros W Ep. destruct (sw_pieces _ W _ _ Ep) as (Hi & Hbit & Wp).
  assert (exists b, plo s i <= b < phi s i /\ piece_status i p b <> Done) as (b & Hb & Hs).
  { destruct (pw_live _ _ _ _ Wp) as [Hm|Ha].
    - pose proof (pw_missing _ _ _ _ Wp) as Wm. destruct (missing_ranges p) as [|r rs] eqn:Em; [done|].
      destruct (covers_first _ _ _ (proj1 Wm)) as [Hc _]. exists (rstart r).
      split; [by apply (covers_bounds _ _ _ _ Wm)|].
      rewrite (piece_status_eq _ _ _ i p (rstart r) Missing Wp); [done|]. simpl. by rewrite Em.
    - apply map_choose in Ha as (k & r & L). pose proof (pw_active _ _ _ _ Wp _ _ L).
      exists (rstart r). split; [lia|].
      rewrite (piece_status_eq _ _ _ i p (rstart r) (Leased (mkKey i k)) Wp); [done|].
      split; [done|]. exists r. split; [done|]. apply in_range_true. lia. }
  exists b. split; [done|]. unfold status. by rewrite (in_piece s i b W Hb), Ep.
Qed.

Lemma all_done_status s :
  Sched_wf s -> all_done s = true <-> forall b, 0 <= b < total_of s -> status s b = Done.
Proof.
  intros W. unfold all_done. rewrite pm_all_done_spec by apply W. split.
  - intros H b Hb. destruct (byte_piece s b W Hb) as [Hi _]. specialize (H _ Hi). unfold status.
    destruct (pieces s !! _) as [p|] eqn:Ep; [|by rewrite H].
    apply (sw_pieces _ W) in Ep as (_ & Hbit & _). congruence.
  - intros H i Hi. fold (count s) in Hi. pose proof (plo_phi s i W Hi) as Hbd.
    destruct (pieces s !! i) as [p|] eqn:Ep.
    + destruct (touched_not_done s i p W Ep) as (b & Hb & Hn). destruct Hn. apply H. lia.
    + specialize (H (plo s i) ltac:(lia)). unfold status in H.
      rewrite (in_piece s i (plo s i) W ltac:(lia)), Ep in H. by destruct (bit (piece_map s) i).
Qed.

(** The scheduler reports the download done exactly when every byte of the
    file has been acknowledged; then the completed-byte counter is the file size. *)
Theorem all_done_iff_every_byte pm s :
  PieceMap_wf pm -> Reachable pm s ->
  (all_done s = true <-> forall b, 0 <= b < total_size pm -> status s b = Done) /\
  (all_done s = true <-> completed_bytes (piece_map s) = total_size pm).
Proof.
  intros P [H Hlim]. destruct (steps_simulate (Scheduler_new pm) s) as (W & Ht & _); try done.
  { by apply Scheduler_new_wf. }
  change (total_of (Scheduler_new pm)) with (total_size pm) in Ht. split.
  - rewrite <- Ht. by apply all_done_status.
  - unfold all_done. rewrite all_done_bytes by apply W. fold (total_of s). by rewrite Ht.
Qed.

Definition demo_finished : SchedulerState :=
  snd (complete (mkKey 2 3) (snd (complete (mkKey 1 2) demo_state2))).

Lemma demo_reachable_finished : Reachable demo_map demo_finished.
Proof.
  split; [|vm_compute; reflexivity]. eapply rtc_r; [|apply step_complete].
  eapply rtc_r; [|apply step_complete]. apply demo_reachable2.
Qed.

Lemma all_done_iff_every_byte_witness :
  all_done demo_finished = true /\ completed_bytes (piece_map demo_finished) = 2500.
Proof.
  split; [vm_compute; reflexivity|].
  apply (all_done_iff_every_byte demo_map demo_finished demo_map_wf demo_reachable_finished).
  vm_compute. reflexivity.
Defined.

(** ** Acknowledged bytes *)

Lemma spec_step_done total st st' b :
  spec_step total st st' -> 0 <= b < total -> st b = Done -> st' b = Done.
Proof.
  intros H Hb Hd. destruct H as [r k _ _ _ Hm _ E|k E|k E|k k' _ E|k e E|E]; rewrite E by done;
    unfold spec_issue, spec_move, spec_retain; rewrite ?Hd.
  - destruct (in_range r b) eqn:Er; [|done]. apply Hm in Er. congruence.
  - by case_decide.
  - rewrite decide_False by done. done.
  - rewrite decide_False by done. done.
  - by case_decide.
  - done.
Qed.

(** An acknowledged byte is never handed out again: once [Done], a byte stays
    [Done] in every later state, whatever fails, is reclaimed or is renewed. *)
Theorem done_bytes_stay_done pm s s' b :
  PieceMap_wf pm -> Reachable pm s -> rtc sched_step s s' -> next_lease_id s' < u64_max ->
  0 <= b < total_size pm -> status s b = Done -> status s' b = Done.
Proof.
  intros P R Hs Hlim Hb Hd. pose proof (reachable_wf pm s P R) as W.
  destruct (steps_simulate (Scheduler_new pm) s) as (_ & Ht & _); try apply R.
  { by apply Scheduler_new_wf. }
  change (total_of (Scheduler_new pm)) with (total_size pm) in Ht.
  destruct (steps_simulate s s' W Hs Hlim) as (_ & _ & HR). rewrite Ht in HR.
  revert Hd. induction HR as [|x y z H _ IH]; [done|]. intros Hd. apply IH. by eapply spec_step_done.
Qed.

Lemma done_bytes_stay_done_witness :
  status demo_state 500 = Done /\ status demo_state2 500 = Done.
Proof.
  assert (status demo_state 500 = Done) as H by (vm_compute; reflexivity).
  split; [exact H|].
  refine (done_bytes_stay_done demo_map demo_state demo_state2 500 demo_map_wf demo_reachable _ _ _ H).
  - apply rtc_once, (step_assign_to_with_split _ 3 1 u64_max). discriminate.
  - vm_compute. reflexivity.
  - vm_compute. split; [discriminate|reflexivity].
Defined.
