(* ===== verification/AssignProps.v ===== *)
(** * What an assignment guarantees

    Progress, the limits of a request, atomic recovery batches, the effect of
    each lease operation, and the hints written to the control file. *)

From S2P Require Import Prelude PieceMap Ranges Segment Scheduler SchedInv SchedSpec Planner Reserve Assign Dynamic SchedProps.

(** ** Progress *)

(** C11: a request is found whenever there is work: on a reachable running
    scheduler with an available range and a free request slot,
    [assign_request_with_trace] returns an assignment in both scheduling modes.
    Its segments are leases of previously missing bytes owned by the worker,
    contiguous, at most 64, and at most the mode's byte limit (or one piece) long. *)
Theorem assign_request_progress pm s w m min occ mode batch dmin dmax allow diag shares res s' :
  PieceMap_wf pm -> Reachable pm s -> 0 <= min ->
  assign_request_with_trace w m min occ mode batch dmin dmax allow diag shares s = (res, s') ->
  next_lease_id s' < u64_max ->
  has_available s = true -> (occ < m)%nat ->
  exists a, res = Some a /\ RequestOk s s' w (mode_cap mode batch dmax) a.
Proof.
  intros P R Hmin E Hlim Ha Hm. pose proof (reachable_wf pm s P R) as W.
  pose proof (assign_request_spec _ _ _ _ _ _ _ _ _ _ _ _ _ _ W Hmin E Hlim) as H.
  destruct res as [a|]; [by exists a|exfalso]. destruct H as [_ H].
  apply andb_true_iff in Ha as [H1%negb_true_iff H2%negb_true_iff%Nat.eqb_neq].
  destruct H as [|[|]]; [lia|congruence|done].
Qed.

Lemma assign_request_progress_witness :
  has_available demo_state = true /\
  exists a, fst (assign_request_with_trace 5 4 100 1 Dynamic 0 1000 4000 true true true demo_state) = Some a /\
    RequestOk demo_state
      (snd (assign_request_with_trace 5 4 100 1 Dynamic 0 1000 4000 true true true demo_state)) 5 4000 a.
Proof.
  split; [vm_compute; reflexivity|].
  apply (assign_request_progress demo_map demo_state 5 4 100 1 Dynamic 0 1000 4000 true true true
    (fst (assign_request_with_trace 5 4 100 1 Dynamic 0 1000 4000 true true true demo_state))
    (snd (assign_request_with_trace 5 4 100 1 Dynamic 0 1000 4000 true true true demo_state)));
    [apply demo_map_wf|apply demo_reachable|lia|apply surjective_pairing|vm_compute; reflexivity
    |vm_compute; reflexivity|lia].
Defined.

(** An assignment that returns nothing changes the status of no byte: no
    lease is leaked on any of the failing paths. *)
Theorem assign_request_none_no_leak pm s w m min occ mode batch dmin dmax allow diag shares s' :
  PieceMap_wf pm -> Reachable pm s -> 0 <= min ->
  assign_request_with_trace w m min occ mode batch dmin dmax allow diag shares s = (None, s') ->
  next_lease_id s' < u64_max ->
  Sched_wf s' /\ (forall b, 0 <= b < total_of s -> status s' b = status s b) /\
  (has_available s = false \/ (m <= occ)%nat).
Proof.
  intros P R Hmin E Hlim. pose proof (reachable_wf pm s P R) as W.
  destruct (assign_request_spec _ _ _ _ _ _ _ _ _ _ _ _ _ _ W Hmin E Hlim) as [HR H].
  split_and!; [apply HR|by apply Reserved_nil_status in HR|].
  unfold has_available. destruct H as [|[->|H]]; [by right|by left|left].
  rewrite H. by destruct (stopped s).
Qed.

Lemma assign_request_none_no_leak_witness :
  fst (assign_request_with_trace 5 2 100 2 Fixed 0 0 0 true true true demo_state) = None /\
  forall b, 0 <= b < 2500 ->
    status (snd (assign_request_with_trace 5 2 100 2 Fixed 0 0 0 true true true demo_state)) b
    = status demo_state b.
Proof.
  assert (assign_request_with_trace 5 2 100 2 Fixed 0 0 0 true true true demo_state = (None, demo_state)) as E
    by (vm_compute; reflexivity).
  split; [by rewrite E|]. rewrite E.
  apply (assign_request_none_no_leak demo_map demo_state 5 2 100 2 Fixed 0 0 0 true true true demo_state
    demo_map_wf demo_reachable ltac:(lia) E). vm_compute. reflexivity.
Defined.

(** A byte that is neither acknowledged nor leased makes a range available. *)
Lemma missing_available s b :
  Sched_wf s -> 0 <= b < total_of s -> status s b = Missing -> available_range_count s <> 0%nat.
Proof.
  intros W Hb Hs Hz. destruct (byte_piece s b W Hb) as [Hi _]. set (i := piece_of _ b) in *.
  rewrite (sw_ranges _ W) in Hz. rewrite nsum_zero in Hz. specialize (Hz i Hi).
  unfold status in Hs. fold i in Hs. unfold piece_avail in Hz. destruct (pieces s !! i) as [p|] eqn:Ep.
  - destruct (sw_pieces _ W _ _ Ep) as (_ & _ & Wp).
    apply (piece_status_iff _ _ _ _ _ _ _ Wp) in Hs. simpl in Hs.
    destruct (missing_ranges p); done.
  - by destruct (bit (piece_map s) i).
Qed.

Lemma leased_active s b k :
  Sched_wf s -> 0 <= b < total_of s -> status s b = Leased k -> active_lease_count s <> 0%nat.
Proof.
  intros W Hb Hs Hz. destruct (byte_piece s b W Hb) as [Hi _]. set (i := piece_of _ b) in *.
  rewrite (sw_active _ W) in Hz. rewrite nsum_zero in Hz. specialize (Hz i Hi).
  unfold status in Hs. fold i in Hs. unfold piece_active in Hz. destruct (pieces s !! i) as [p|] eqn:Ep.
  - destruct (sw_pieces _ W _ _ Ep) as (_ & _ & Wp).
    apply (piece_status_iff _ _ _ _ _ _ _ Wp) in Hs as (_ & r & L & _).
    apply map_size_empty_inv in Hz. rewrite Hz in L. by rewrite lookup_empty in L.
  - by destruct (bit (piece_map s) i).
Qed.

(** No work is ever lost: when no lease is active and the scheduler has not
    been stopped, either every byte of the file is acknowledged or a range is
    available for the next request. *)
Theorem idle_scheduler_has_work pm s :
  PieceMap_wf pm -> Reachable pm s -> active_lease_count s = 0%nat -> stopped s = false ->
  all_done s = true \/ has_available s = true.
Proof.
  intros P R Ha Hst. pose proof (reachable_wf pm s P R) as W.
  destruct (decide (available_range_count s = 0%nat)) as [Hz|Hne].
  - left. apply all_done_status; [done|]. intros b Hb. destruct (status s b) as [|k|] eqn:Hs; [| |done].
    + by destruct (missing_available s b W Hb Hs).
    + by destruct (leased_active s b k W Hb Hs).
  - right. unfold has_available. rewrite Hst. simpl. by apply negb_true_iff, Nat.eqb_neq.
Qed.

Definition demo_reclaimed : SchedulerState := snd (reclaim (mkKey 1 2) demo_state).

Lemma demo_reachable_reclaimed : Reachable demo_map demo_reclaimed.
Proof.
  split; [|vm_compute; reflexivity]. eapply rtc_r; [apply demo_reachable|]. apply step_reclaim.
Qed.

Lemma idle_scheduler_has_work_witness :
  all_done demo_reclaimed = false /\ (all_done demo_reclaimed = true \/ has_available demo_reclaimed = true).
Proof.
  split; [vm_compute; reflexivity|].
  apply (idle_scheduler_has_work demo_map demo_reclaimed demo_map_wf demo_reachable_reclaimed);
    vm_compute; reflexivity.
Defined.

(** ** Giving leases back *)

(** Acknowledging, reclaiming or trimming a lease changes exactly the bytes
    that lease holds.  [complete] makes all of them acknowledged, [reclaim] makes
    all of them missing again, [retain_prefix] acknowledges the prefix below the
    confirmed end and keeps the suffix leased; each answers [true] exactly when
    the lease is active (and the confirmed end lies strictly inside its range). *)
Theorem lease_operations_exact pm s key e :
  PieceMap_wf pm -> Reachable pm s ->
  let held b := bool_decide (status s b = Leased key) in
  (forall b, 0 <= b < total_of s ->
     status (snd (complete key s)) b = (if held b then Done else status s b) /\
     status (snd (reclaim key s)) b = (if held b then Missing else status s b) /\
     status (snd (retain_prefix key e s)) b =
       (if fst (retain_prefix key e s) && held b && (b <? e) then Done else status s b)) /\
  (fst (complete key s) = true <-> is_Some (lease_range s key)) /\
  (fst (reclaim key s) = true <-> is_Some (lease_range s key)) /\
  (fst (retain_prefix key e s) = true <->
     exists r, lease_range s key = Some r /\ rstart r < e < rend r).
Proof.
  intros P R held. pose proof (reachable_wf pm s P R) as W.
  destruct (complete key s) as [c sc] eqn:Ec, (reclaim key s) as [r sr] eqn:Er,
    (retain_prefix key e s) as [t st] eqn:Et.
  destruct (complete_spec s key c sc W Ec) as (_ & _ & _ & _ & _ & Hc & Sc).
  destruct (reclaim_spec s key r sr W Er) as (_ & _ & _ & _ & Hr & Sr).
  destruct (retain_prefix_spec s key e t st W Et) as (_ & _ & _ & _ & Ht & St).
  split_and!; try done. intros b Hb. unfold held. simpl. rewrite Sc, Sr by done. unfold spec_move.
  destruct (decide (status s b = Leased key)) as [D|D].
  - rewrite bool_decide_eq_true_2 by done. split_and!; try done. rewrite andb_true_r. destruct t; simpl.
    + destruct St as [St _]. rewrite St by done. unfold spec_retain.
      destruct (Z.ltb_spec b e); [by rewrite decide_True|rewrite decide_False by lia; done].
    + by rewrite St.
  - rewrite bool_decide_eq_false_2 by done. rewrite andb_false_r. split_and!; try done. simpl.
    destruct t; [|by rewrite St]. destruct St as [St _]. rewrite St by done. unfold spec_retain.
    by rewrite decide_False by tauto.
Qed.

Lemma lease_operations_exact_witness :
  fst (retain_prefix (mkKey 1 2) 1600 demo_state) = true /\
  status (snd (retain_prefix (mkKey 1 2) 1600 demo_state)) 1599 = Done /\
  is_Some (lease_range demo_state (mkKey 1 2)).
Proof.
  destruct (lease_operations_exact demo_map demo_state (mkKey 1 2) 1600 demo_map_wf demo_reachable)
    as (Hb & Hc & _).
  split_and!; [vm_compute; reflexivity| |].
  - etrans; [apply Hb; vm_compute; split; [discriminate|reflexivity]|]. vm_compute. reflexivity.
  - apply Hc. vm_compute. reflexivity.
Defined.

(** ** Recovery batches *)

(** A missing range of a piece no segment of the batch belongs to stays missing. *)
Lemma missing_elsewhere s0 s w segs i r b :
  Sched_wf s0 -> Reserved s0 s w segs -> MissingIn s0 i r ->
  (forall g, g ∈ segs -> seg_piece_id g <> i) -> in_range r b = true -> status s b = Missing.
Proof.
  intros W R [Hi _ Hlo _ Hhi Hm] Hne Hb. pose proof (proj1 (in_range_true _ _) Hb) as Hb'.
  pose proof (plo_phi s0 i W Hi). rewrite (rs_other _ _ _ _ R b); [by apply Hm|lia|].
  intros g Hg. destruct (in_seg g b) eqn:E; [|done]. exfalso. apply (Hne g Hg).
  destruct (rs_seg _ _ _ _ R g Hg) as (Hgi & _ & ? & ? & ? & _).
  unfold in_seg in E. apply in_range_true in E. simpl in E.
  rewrite <- (in_piece s0 (seg_piece_id g) b W ltac:(lia)). apply in_piece; [done|lia].
Qed.

Lemma recovery_loop_total s0 planned prev w segs s :
  Sched_wf s0 -> stopped s0 = false -> Reserved s0 s w segs -> chained prev planned ->
  Forall (fun '(i, a, e) => MissingIn s0 i (mkRange a e)) planned ->
  (forall g i a e rest, planned = (i, a, e) :: rest -> g ∈ segs -> (seg_piece_id g < i)%nat) ->
  next_lease_id (snd (recovery_loop planned w segs s)) < u64_max ->
  is_Some (fst (recovery_loop planned w segs s)).
Proof.
  intros W Hst. revert prev segs s.
  induction planned as [|[[i a] e] planned IH]; intros prev segs s R Hch HF Hpc Hlim; simpl in *; [by eexists|].
  apply Forall_cons_iff in HF as [M HF]. destruct Hch as (_ & Hae & Hch).
  destruct (same_geometry _ _ (rs_pm _ _ _ _ R)) as (Ht & Hc & Hlo & Hhi).
  pose proof M as [Mi Mb Ml _ Mh _]. simpl in Ml, Mh.
  destruct (issue_lease_total s i (mkRange a e) w) as (g & s1 & I).
  { apply R. } { by rewrite Hc. } { by rewrite (rs_pm _ _ _ _ R). }
  { by rewrite (rs_stopped _ _ _ _ R). } { done. } { by rewrite Hlo. } { by rewrite Hhi. }
  { intros b. apply (missing_elsewhere s0 s w segs i _ b W R M).
    intros g Hg Eg. specialize (Hpc g _ _ _ _ eq_refl Hg). lia. }
  rewrite I in *. pose proof (issue_lease_grows i (mkRange a e) w s) as G. rewrite I in G.
  pose proof (recovery_loop_grows planned w (segs ++ [g]) s1) as G'.
  destruct (issue_lease_reserved s0 s segs i (mkRange a e) w (Some g) s1 W R Mi Mb Hae I
    (grows_below s s1 _ (rs_wf _ _ _ _ R) G G' Hlim)) as [R1 Hiss].
  pose proof (Issued_shape _ _ _ _ _ _ Hiss) as Sh. injection Sh as Sh _ _.
  apply (IH (Some (i, e)) _ _ R1 Hch HF); [|done].
  intros g' i' a' e' rest -> Hg'. simpl in Hch. destruct Hch as [[-> _] _].
  apply elem_of_app in Hg' as [Hg'| ->%list_elem_of_singleton]; [|lia].
  specialize (Hpc g' _ _ _ _ eq_refl Hg'). lia.
Qed.

(** A recovery batch is all or nothing.  When it succeeds it has leased
    exactly the planned ranges, in order, to the worker; when it fails no byte
    changed its status; and it does succeed when the plan is a chain of one to 64
    missing ranges of consecutive pieces and the scheduler is running. *)
Theorem recovery_batch_atomic pm s planned w res s' :
  PieceMap_wf pm -> Reachable pm s ->
  assign_recovery_batch planned w s = (res, s') -> next_lease_id s' < u64_max ->
  match res with
  | Some segs =>
      shape <$> segs = planned /\ Reserved s s' w segs /\ (1 <= length segs <= MAX_REQUEST_LEASES)%nat
  | None => forall b, 0 <= b < total_of s -> status s' b = status s b
  end /\
  (stopped s = false -> (1 <= length planned <= MAX_REQUEST_LEASES)%nat ->
   recovery_valid s None planned = true ->
   Forall (fun '(i, a, e) => forall b, a <= b < e -> status s b = Missing) planned -> is_Some res).
Proof.
  intros P R E Hlim. pose proof (reachable_wf pm s P R) as W. split.
  - pose proof (recovery_batch_spec _ _ _ _ _ W E Hlim) as H. destruct res as [segs|].
    + destruct H as (HR & Sh & _ & Hl). done.
    + by apply Reserved_nil_status in H.
  - intros Hst Hlen V HM. unfold assign_recovery_batch in E.
    rewrite bool_decide_eq_false_2 in E by (intros ->; simpl in Hlen; lia).
    rewrite (proj2 (Nat.ltb_ge _ _)) in E by lia. rewrite V in E. simpl in E.
    destruct (recovery_valid_spec s None planned W V) as (Hch & HF1 & HF2).
    pose proof (recovery_loop_total s planned None w [] s W Hst) as T. rewrite E in T. apply T; try done.
    + by apply Reserved_nil.
    + rewrite List.Forall_forall in HM, HF1, HF2. apply List.Forall_forall. intros [[i a] e] Hin.
      specialize (HM _ Hin). specialize (HF1 _ Hin). specialize (HF2 _ Hin). simpl in *.
      split; try apply HF1; try apply HF2. intros b Hb%in_range_true. by apply HM.
    + intros g i a e rest _ Hg. by apply not_elem_of_nil in Hg.
Qed.

Lemma recovery_batch_atomic_witness :
  is_Some (fst (assign_recovery_batch [(1%nat, 1600, 2000); (2%nat, 2000, 2500)] 9 demo_reclaimed)) /\
  status (snd (assign_recovery_batch [(1%nat, 1600, 2000); (2%nat, 2000, 2500)] 9 demo_reclaimed)) 1700
    = Leased (mkKey 1 3).
Proof.
  split; [|vm_compute; reflexivity].
  apply (recovery_batch_atomic demo_map demo_reclaimed [(1%nat, 1600, 2000); (2%nat, 2000, 2500)] 9
    (fst (assign_recovery_batch [(1%nat, 1600, 2000); (2%nat, 2000, 2500)] 9 demo_reclaimed))
    (snd (assign_recovery_batch [(1%nat, 1600, 2000); (2%nat, 2000, 2500)] 9 demo_reclaimed))
    demo_map_wf demo_reachable_reclaimed (surjective_pairing _)); try (vm_compute; reflexivity).
  - unfold MAX_REQUEST_LEASES. simpl. lia.
  - assert (forall b, 1600 <= b < 2500 -> status demo_reclaimed b = Missing) as H.
    { intros b Hb. pose proof (reachable_wf _ _ demo_map_wf demo_reachable_reclaimed) as W.
      assert (pieces demo_reclaimed !! 1%nat
        = Some (mkPiece [mkRange 1000 2000] false ∅ 1)) as E1 by (vm_compute; reflexivity).
      assert (pieces demo_reclaimed !! 2%nat = None) as E2 by (vm_compute; reflexivity).
      assert (plo demo_reclaimed 1 = 1000 /\ phi demo_reclaimed 1 = 2000 /\
        plo demo_reclaimed 2 = 2000 /\ phi demo_reclaimed 2 = 2500) as (L1 & H1 & L2 & H2)
        by (vm_compute; split_and!; reflexivity).
      unfold status. destruct (decide (b < 2000)).
      - rewrite (in_piece demo_reclaimed 1 b W) by lia. rewrite E1.
        unfold piece_status. simpl. unfold in_range. simpl.
        by rewrite (proj2 (Z.leb_le _ _)), (proj2 (Z.ltb_lt _ _)) by lia.
      - rewrite (in_piece demo_reclaimed 2 b W) by lia. rewrite E2. vm_compute. reflexivity. }
    repeat constructor; intros b Hb; apply H; lia.
Defined.

(** ** Renewal *)

(** Renewing an active lease moves all its bytes, and only those, to a lease
    identity that no byte of the file is using; the range does not change.  It
    fails, without effect, exactly when the lease is not active. *)
Theorem renew_moves_lease pm s key w res s' :
  PieceMap_wf pm -> Reachable pm s -> renew key w s = (res, s') -> next_lease_id s' < u64_max ->
  (is_Some res <-> is_Some (lease_range s key)) /\
  forall b, 0 <= b < total_of s ->
    match res with
    | Some seg =>
        status s b <> Leased (lease_key seg) /\
        lease_range s key = Some (mkRange (seg_start seg) (seg_end seg)) /\
        status s' b = if bool_decide (status s b = Leased key) then Leased (lease_key seg) else status s b
    | None => status s' b = status s b
    end.
Proof.
  intros P R E Hlim. pose proof (reachable_wf pm s P R) as W.
  destruct (renew_spec s key w res s' W E Hlim) as (_ & _ & _ & Hiff & Hs). split; [done|].
  intros b Hb. destruct res as [seg|]; [|by apply Hs]. destruct Hs as (Hk & HL & Hs).
  split_and!; [rewrite Hk; by apply fresh_unused|done|]. rewrite Hs by done. unfold spec_move.
  destruct (decide (status s b = Leased key)); [by rewrite bool_decide_eq_true_2|by rewrite bool_decide_eq_false_2].
Qed.

Lemma renew_moves_lease_witness :
  is_Some (fst (renew (mkKey 1 2) 8 demo_state)) /\
  status (snd (renew (mkKey 1 2) 8 demo_state)) 1500 = Leased (mkKey 1 3).
Proof.
  assert (next_lease_id (snd (renew (mkKey 1 2) 8 demo_state)) < u64_max) as Hlim
    by (vm_compute; reflexivity).
  assert (lease_range demo_state (mkKey 1 2) = Some (mkRange 1000 2000)) as HL by (vm_compute; reflexivity).
  split; [|vm_compute; reflexivity].
  refine (proj2 (proj1 (renew_moves_lease demo_map demo_state (mkKey 1 2) 8
    (fst (renew (mkKey 1 2) 8 demo_state)) (snd (renew (mkKey 1 2) 8 demo_state)) demo_map_wf
    demo_reachable (surjective_pairing _) Hlim)) _).
  rewrite HL. by eexists.
Defined.

(** ** Splitting one range *)

(** A single lease is a prefix of the first missing range of its piece, and a
    range is only split when both the lease and the rest keep at least
    [min_segment_size] bytes. *)
Theorem single_lease_split_sizes pm s w m min seg s' :
  PieceMap_wf pm -> Reachable pm s -> 0 <= min ->
  assign_to_with_split w m min s = (Some seg, s') -> next_lease_id s' < u64_max ->
  exists r, pick_range s (seg_piece_id seg) = Some r /\
    seg_start seg = rstart r /\ seg_start seg < seg_end seg <= rend r /\
    (seg_end seg = rend r \/
     (min <= seg_end seg - seg_start seg /\ min <= rend r - seg_end seg)).
Proof.
  intros P R Hmin E Hlim. pose proof (reachable_wf pm s P R) as W.
  destruct (decide (available_range_count s = 0%nat)) as [Hz|Hne]; [by rewrite assign_zero in E|].
  destruct (next_available_total s W Hne) as [i Hn].
  destruct (next_available_Some s i W Hn) as [Hi Hav].
  destruct (pick_range_spec s i W Hi Hav) as (r & Hp & [_ Hbit Hlo Hr Hhi _]).
  rewrite (assign_unfold w m min s i r W Hne Hn Hp) in E.
  pose proof (plo_phi s i W Hi). pose proof (phi_max s i W Hi).
  destruct (assignment_range_spec s r m min ltac:(lia) Hr ltac:(lia) Hmin) as (Hs' & He' & Hle & Hsplit).
  set (r' := assignment_range_for s r m min) in *.
  destruct (issue_lease i r' w s) as [[g|] s1] eqn:I; [|done]. injection E as <- <-.
  destruct (issue_lease_spec s i r' w (Some g) s1 W Hi Hbit ltac:(lia) I Hlim) as (_ & _ & _ & _ & Is).
  pose proof (Issued_shape _ _ _ _ _ _ Is) as Sh. injection Sh as -> -> ->.
  exists r. split; [done|]. lia.
Qed.

Lemma single_lease_split_sizes_witness :
  exists r, pick_range demo_state 2 = Some r /\ rstart r = 2000 /\ rend r = 2500 /\
    100 <= 2167 - 2000 /\ 100 <= rend r - 2167.
Proof.
  destruct (single_lease_split_sizes demo_map demo_state 1 4 100
    (mkSegment 2 3 2000 2167 1 1) (snd (assign_to_with_split 1 4 100 demo_state))
    demo_map_wf demo_reachable) as (r & Hp & Hs & _ & [He|He]).
  - lia.
  - vm_compute. reflexivity.
  - vm_compute. reflexivity.
  - exfalso. vm_compute in Hp. injection Hp as <-. done.
  - exists r. cbn in Hp, Hs, He. split; [done|]. vm_compute in Hp. injection Hp as <-. cbn. lia.
Defined.

(** ** The dynamic planner *)

(** The dynamic planner sees exactly the untouched pieces: every candidate is
    a non-empty run of untouched pieces with its exact byte bounds, and every
    untouched piece belongs to a candidate. *)
Theorem dynamic_candidates_exact pm s :
  PieceMap_wf pm -> Reachable pm s ->
  (forall c, c ∈ dynamic_candidates s -> CandOk s c) /\
  (forall k, (k < count s)%nat -> untouched s k ->
     exists c, c ∈ dynamic_candidates s /\ (first_piece c <= k < end_piece c)%nat).
Proof.
  intros P R. pose proof (reachable_wf pm s P R) as W.
  destruct (dynamic_candidates_spec s W) as [HR Hc]. split; [|done].
  intros c Hin. apply RunOf_CandOk; [done|]. rewrite List.Forall_forall in HR. by apply HR, list_elem_of_In.
Qed.

Lemma dynamic_candidates_exact_witness :
  dynamic_candidates demo_state = [mkCandidate 2000 2500 2 3] /\
  exists c, c ∈ dynamic_candidates demo_state /\ (first_piece c <= 2 < end_piece c)%nat.
Proof.
  split; [vm_compute; reflexivity|].
  apply (dynamic_candidates_exact demo_map demo_state demo_map_wf demo_reachable);
    [vm_compute; lia|vm_compute; done].
Defined.

(** A dynamic request is a run of whole untouched pieces at the front of one
    candidate, at most 64 of them and at most the request size limit (or one
    piece) long.  When the candidate can be split legally and the request does
    not take all of it, the rest keeps the minimum split size, and so does the
    request unless a byte or lease limit cut it before the first legal boundary. *)
Theorem dynamic_request_within_limits pm s w occ slots dmin dmax collect a s' :
  PieceMap_wf pm -> Reachable pm s -> (0 < slots)%nat ->
  assign_dynamic_request w occ slots dmin dmax collect s = (Some a, s') -> next_lease_id s' < u64_max ->
  dynamic_candidates s <> [] ->
  exists c ep, c ∈ dynamic_candidates s /\ CandOk s c /\ Reserved s s' w (segments a) /\
    shape <$> segments a = whole_piece s <$> seq (first_piece c) (ep - first_piece c) /\
    EndPieceOk s c (effective_dynamic_min_split_size (piece_size (piece_map s)) dmin) dmax ep.
Proof.
  intros P R Hs E Hlim Hne. pose proof (reachable_wf pm s P R) as W.
  destruct (assign_dynamic_spec _ _ _ _ _ _ _ _ _ W Hs E Hlim) as (_ & _ & [|[c [Hin C HR (ep & Hep & Sh)]]]); [done|].
  exists c, ep. done.
Qed.

Definition demo_big : PieceMap := PieceMap_new 6000 1000.

Lemma dynamic_request_within_limits_witness :
  final_end <$> fst (assign_dynamic_request 1 0 4 2000 3000 true (Scheduler_new demo_big)) = Some 2000 /\
  exists c ep, c ∈ dynamic_candidates (Scheduler_new demo_big) /\
    EndPieceOk (Scheduler_new demo_big) c (effective_dynamic_min_split_size 1000 2000) 3000 ep.
Proof.
  set (X := assign_dynamic_request 1 0 4 2000 3000 true (Scheduler_new demo_big)).
  assert (final_end <$> fst X = Some 2000) as HF by (vm_compute; reflexivity).
  assert (next_lease_id (snd X) < u64_max) as Hlim by (vm_compute; reflexivity).
  split; [exact HF|]. destruct (fst X) as [a|] eqn:Ha; [|discriminate HF].
  assert (X = (Some a, snd X)) as E by (rewrite <- Ha; apply surjective_pairing).
  assert (PieceMap_wf demo_big) as P by (apply PieceMap_new_wf; unfold Geometry; lia).
  assert (Reachable demo_big (Scheduler_new demo_big)) as R by (split; [apply rtc_refl|reflexivity]).
  destruct (dynamic_request_within_limits demo_big (Scheduler_new demo_big) 1 0 4 2000 3000 true a (snd X) P R
    ltac:(lia) E Hlim) as (c & ep & Hin & _ & _ & _ & Hok); [vm_compute; discriminate|].
  exists c, ep. split; [exact Hin|exact Hok].
Defined.

(** ** Control-file hints *)

Lemma piece_active_leased s i p :
  Sched_wf s -> pieces s !! i = Some p ->
  active_leases p <> ∅ <-> exists b k, plo s i <= b < phi s i /\ status s b = Leased k.
Proof.
  intros W Ep. destruct (sw_pieces _ W _ _ Ep) as (Hi & Hbit & Wp). split.
  - intros (k & r & L)%map_choose. pose proof (pw_active _ _ _ _ Wp _ _ L).
    exists (rstart r), (mkKey i k). split; [lia|].
    apply (lease_range_status s (mkKey i k) r W); [|apply in_range_true; lia].
    apply lease_range_Some. by exists p.
  - intros (b & k & Hb & Hs) E. pose proof (status_key s b k Hs) as Hk.
    rewrite (in_piece s i b W Hb) in Hk.
    destruct (lease_range s k) as [r|] eqn:L; [|by apply lease_range_None in Hs].
    apply lease_range_Some in L as (p' & Ep' & L). rewrite Hk, Ep in Ep'. injection Ep' as <-.
    rewrite E in L. by rewrite lookup_empty in L.
Qed.

(** The hints stored with a checkpoint are exact.  A piece is listed in flight
    exactly when one of its bytes is leased; a dirty piece is an incomplete one;
    and an incomplete piece that is not listed dirty holds no leased and no
    acknowledged byte, so nothing of it needs to be looked at after a crash. *)
Theorem control_hints_exact pm s :
  PieceMap_wf pm -> Reachable pm s ->
  let hints := fst (control_hints s) in
  (forall i, i ∈ inflight_piece_ids hints <->
     (i < count s)%nat /\ exists b k, plo s i <= b < phi s i /\ status s b = Leased k) /\
  (forall i, i ∈ dirty_piece_ids hints -> (i < count s)%nat /\ bit (piece_map s) i = false) /\
  (forall i, (i < count s)%nat -> bit (piece_map s) i = false -> i ∉ dirty_piece_ids hints ->
     forall b, plo s i <= b < phi s i -> status s b = Missing).
Proof.
  intros P R hints. pose proof (reachable_wf pm s P R) as W. unfold hints, control_hints. simpl. split_and!.
  - intros i. rewrite list_elem_of_filter, elem_of_btree_keys. split.
    + intros [Ha [p Ep]]. rewrite Ep in Ha. apply Is_true_true, negb_true_iff, bool_decide_eq_false in Ha.
      split; [apply (sw_pieces _ W _ _ Ep)|]. by apply (proj1 (piece_active_leased s i p W Ep)).
    + intros (Hi & b & k & Hb & Hs). destruct (pieces s !! i) as [p|] eqn:Ep.
      * split; [|by eexists]. apply Is_true_true, negb_true_iff, bool_decide_eq_false.
        apply (proj2 (piece_active_leased s i p W Ep)). by exists b, k.
      * unfold status in Hs. rewrite (in_piece s i b W Hb), Ep in Hs. by destruct (bit _ _).
  - intros i [_ [p Ep]%elem_of_btree_keys]%list_elem_of_filter.
    by destruct (sw_pieces _ W _ _ Ep) as (? & ? & _).
  - intros i Hi Hbit Hn b Hb. unfold status. rewrite (in_piece s i b W Hb).
    destruct (pieces s !! i) as [p|] eqn:Ep; [|by rewrite Hbit].
    rewrite list_elem_of_filter, elem_of_btree_keys, Ep in Hn.
    destruct (sw_pieces _ W _ _ Ep) as (_ & _ & Wp).
    assert (active_leases p = ∅ /\ has_completed_ranges p = false) as [Ha Hf].
    { destruct (bool_decide (active_leases p = ∅)) eqn:B.
      - apply bool_decide_eq_true in B. split; [done|].
        destruct (has_completed_ranges p); [|done]. destruct Hn. split; [done|by eexists].
      - destruct Hn. split; [done|by eexists]. }
    apply (piece_status_eq _ _ _ _ _ _ _ Wp). simpl.
    destruct (pw_fresh _ _ _ _ Wp Hf b Hb) as [|(k & r & L & _)]; [done|].
    rewrite Ha in L. by rewrite lookup_empty in L.
Qed.

Lemma control_hints_exact_witness :
  inflight_piece_ids (fst (control_hints demo_state)) = [1%nat] /\
  dirty_piece_ids (fst (control_hints demo_state)) = [1%nat] /\ status demo_state 2100 = Missing.
Proof.
  assert (dirty_piece_ids (fst (control_hints demo_state)) = [1%nat]) as D by (vm_compute; reflexivity).
  split_and!; [vm_compute; reflexivity|exact D|].
  refine (proj2 (proj2 (control_hints_exact demo_map demo_state demo_map_wf demo_reachable)) 2%nat _ _ _ 2100 _).
  - vm_compute. lia.
  - vm_compute. reflexivity.
  - rewrite D. by intros H%list_elem_of_singleton.
  - assert (plo demo_state 2 = 2000 /\ phi demo_state 2 = 2500) as [-> ->] by (vm_compute; split; reflexivity). lia.
Defined.
