(* ===== verification/Cache.v ===== *)
(** * The write-back cache ([src/storage/cache.rs])

    Body chunks are appended to one contiguous buffer per lease until the writer
    drains them.  [Cache_wf] ties the byte counter to the buffers. *)

From S2P Require Import Prelude Segment Errors.

(** [BytesMut] and [Bytes] hold [u8] values. *)
Abbreviation bytes := (list Z).

Record PieceCacheEntry := mkEntry {
  entry_offset : Z;
  entry_data : bytes;
}.

Record WriteBackCache := mkCache {
  cache_pieces : gmap LeaseKey PieceCacheEntry;
  total_bytes : nat;
}.

Record NonContiguousWrite := mkNonContiguous {
  expected : Z;
  actual : Z;
}.

Record FlushBlock := mkBlock {
  block_offset : Z;
  block_data : bytes;
}.

Definition cache_new : WriteBackCache := mkCache ∅ 0.

Definition blen (data : bytes) : Z := Z.of_nat (length data).

(** [WriteBackCache::insert]: [entry().or_insert_with()] creates the entry at
    this offset, so a new lease starts wherever its first chunk lies. *)
Definition cache_insert (c : WriteBackCache) (key : LeaseKey) (offset : Z) (data : bytes)
    : result unit NonContiguousWrite * WriteBackCache :=
  if bool_decide (data = []) then (Ok tt, c)
  else
    let entry := default (mkEntry offset []) (cache_pieces c !! key) in
    let expected := entry_offset entry ⊕ blen (entry_data entry) in
    if negb (offset =? expected) then
      (Err (mkNonContiguous expected offset),
       mkCache (<[key := entry]> (cache_pieces c)) (total_bytes c))
    else
      (Ok tt,
       mkCache (<[key := mkEntry (entry_offset entry) (entry_data entry ++ data)]> (cache_pieces c))
               (total_bytes c + length data)).

Definition drain_lease (c : WriteBackCache) (key : LeaseKey) : list FlushBlock * WriteBackCache :=
  match cache_pieces c !! key with
  | Some entry =>
      ([mkBlock (entry_offset entry) (entry_data entry)],
       mkCache (delete key (cache_pieces c)) (total_bytes c - length (entry_data entry)))
  | None => ([], c)
  end.

Definition discard_lease (c : WriteBackCache) (key : LeaseKey) : nat * WriteBackCache :=
  match cache_pieces c !! key with
  | Some entry =>
      (length (entry_data entry),
       mkCache (delete key (cache_pieces c)) (total_bytes c - length (entry_data entry)))
  | None => (0%nat, c)
  end.

Definition block_le (a b : FlushBlock) : Prop := block_offset a <= block_offset b.

#[export] Instance block_le_dec : RelDecision block_le.
Proof. intros a b. unfold block_le. apply _. Defined.

#[export] Instance block_le_total : Total block_le.
Proof. intros a b. unfold block_le. lia. Qed.

#[export] Instance block_le_trans : Transitive block_le.
Proof. intros a b c. unfold block_le. lia. Qed.

Definition block_of (e : PieceCacheEntry) : FlushBlock := mkBlock (entry_offset e) (entry_data e).

(** [drain_all]: [sort_unstable_by_key] leaves the order of blocks with equal
    offsets open; any such order is a sorted permutation, as this one is. *)
Definition drain_all (c : WriteBackCache) : list FlushBlock * WriteBackCache :=
  (merge_sort block_le (block_of <$> (map_to_list (cache_pieces c)).*2), cache_new).

(** ** Invariant *)

Definition cached_bytes (m : gmap LeaseKey PieceCacheEntry) : nat :=
  map_fold (fun _ e acc => length (entry_data e) + acc)%nat 0%nat m.

Record Cache_wf (c : WriteBackCache) : Prop := {
  cw_total : total_bytes c = cached_bytes (cache_pieces c);
  cw_nonempty : forall k e, cache_pieces c !! k = Some e -> entry_data e <> [];
}.

Lemma cached_bytes_delete m k e :
  m !! k = Some e -> cached_bytes m = (length (entry_data e) + cached_bytes (delete k m))%nat.
Proof. intros H. unfold cached_bytes. rewrite (map_fold_delete_L _ _ k e m); [done| |done]. intros. lia. Qed.

Lemma cached_bytes_insert m k e :
  m !! k = None -> cached_bytes (<[k := e]> m) = (length (entry_data e) + cached_bytes m)%nat.
Proof. intros H. unfold cached_bytes. rewrite map_fold_insert_L; [done| |done]. intros. lia. Qed.

Lemma cache_new_wf : Cache_wf cache_new.
Proof. split; [done|]. intros k e H. simpl in H. by rewrite lookup_empty in H. Qed.

(** The bytes a lease has buffered. *)
Definition buffered (c : WriteBackCache) (key : LeaseKey) : bytes :=
  match cache_pieces c !! key with Some e => entry_data e | None => [] end.

(** A chunk that continues the lease is appended. *)
Lemma cache_insert_ok c key offset data c' :
  Cache_wf c -> data <> [] -> cache_insert c key offset data = (Ok tt, c') ->
  Cache_wf c' /\ total_bytes c' = (total_bytes c + length data)%nat /\
  (forall k, k <> key -> cache_pieces c' !! k = cache_pieces c !! k) /\
  exists start, cache_pieces c' !! key = Some (mkEntry start (buffered c key ++ data)) /\
    offset = start ⊕ blen (buffered c key) /\
    (forall e, cache_pieces c !! key = Some e -> start = entry_offset e) /\
    (cache_pieces c !! key = None -> start = offset).
Proof.
  intros W Hd E. unfold cache_insert in E. rewrite bool_decide_eq_false_2 in E by done.
  destruct (Z.eqb_spec offset (entry_offset (default (mkEntry offset []) (cache_pieces c !! key))
    ⊕ blen (entry_data (default (mkEntry offset []) (cache_pieces c !! key))))) as [Ho|]; [|done].
  simpl in E. injection E as <-. unfold buffered.
  destruct (cache_pieces c !! key) as [e|] eqn:L; simpl in *.
  - split_and!; try done.
    + split; simpl.
      * rewrite (cw_total _ W), (cached_bytes_delete (<[key:=_]> _) key (mkEntry (entry_offset e) (entry_data e ++ data)))
          by apply lookup_insert_eq.
        rewrite delete_insert_eq. rewrite (cached_bytes_delete _ key e) by done. simpl.
        rewrite length_app. lia.
      * intros k e' Hk. destruct (decide (k = key)) as [->|Hne].
        -- rewrite lookup_insert_eq in Hk. injection Hk as <-. simpl. by destruct (entry_data e).
        -- rewrite lookup_insert_ne in Hk by done. by apply (cw_nonempty _ W k).
    + intros k Hk. by rewrite lookup_insert_ne.
    + exists (entry_offset e). rewrite lookup_insert_eq. split_and!; try done. by intros ? [= ->].
  - split_and!; try done.
    + split; simpl.
      * rewrite cached_bytes_insert by done. simpl. rewrite (cw_total _ W). lia.
      * intros k e' Hk. destruct (decide (k = key)) as [->|Hne].
        -- rewrite lookup_insert_eq in Hk. by injection Hk as <-.
        -- rewrite lookup_insert_ne in Hk by done. by apply (cw_nonempty _ W k).
    + intros k Hk. by rewrite lookup_insert_ne.
    + exists offset. rewrite lookup_insert_eq. split_and!; try done.
Qed.

Lemma cache_delete_wf c key e :
  Cache_wf c -> cache_pieces c !! key = Some e ->
  Cache_wf (mkCache (delete key (cache_pieces c)) (total_bytes c - length (entry_data e))) /\
  (length (entry_data e) <= total_bytes c)%nat.
Proof.
  intros W L. pose proof (cached_bytes_delete _ _ _ L) as H. rewrite <- (cw_total _ W) in H. split.
  - split; simpl; [lia|]. intros k e' [_ Hk]%lookup_delete_Some. by apply (cw_nonempty _ W k).
  - lia.
Qed.

Lemma drain_lease_spec c key blocks c' :
  Cache_wf c -> drain_lease c key = (blocks, c') ->
  Cache_wf c' /\ cache_pieces c' = delete key (cache_pieces c) /\
  total_bytes c = (total_bytes c' + length (buffered c key))%nat /\
  blocks = match cache_pieces c !! key with Some e => [block_of e] | None => [] end.
Proof.
  intros W E. unfold drain_lease in E. unfold buffered. destruct (cache_pieces c !! key) as [e|] eqn:L.
  - injection E as <- <-. destruct (cache_delete_wf c key e W L) as [W' Hle]. split_and!; try done. simpl. lia.
  - injection E as <- <-. split_and!; rewrite ?delete_id by done; simpl; (done || lia).
Qed.

Lemma discard_lease_spec c key n c' :
  Cache_wf c -> discard_lease c key = (n, c') ->
  Cache_wf c' /\ cache_pieces c' = delete key (cache_pieces c) /\
  n = length (buffered c key) /\ total_bytes c = (total_bytes c' + n)%nat.
Proof.
  intros W E. unfold discard_lease in E. unfold buffered. destruct (cache_pieces c !! key) as [e|] eqn:L.
  - injection E as <- <-. destruct (cache_delete_wf c key e W L) as [W' Hle]. split_and!; try done. simpl. lia.
  - injection E as <- <-. split_and!; rewrite ?delete_id by done; simpl; (done || lia).
Qed.

Lemma drain_all_spec c :
  let blocks := fst (drain_all c) in
  Sorted block_le blocks /\ snd (drain_all c) = cache_new /\
  (forall b, b ∈ blocks <-> exists k e, cache_pieces c !! k = Some e /\ b = block_of e).
Proof.
  simpl. split_and!; [apply (Sorted_merge_sort block_le)|done|]. intros b.
  rewrite (merge_sort_Permutation block_le), list_elem_of_fmap. split.
  - intros (e & -> & ([k e'] & -> & H%elem_of_map_to_list)%list_elem_of_fmap). by exists k, e'.
  - intros (k & e & L & ->). exists e. split; [done|]. apply list_elem_of_fmap. exists (k, e).
    split; [done|]. by apply elem_of_map_to_list.
Qed.

(** ** Properties *)

(** Appending a list of chunks that follow one another. *)
Fixpoint insert_chunks (c : WriteBackCache) (key : LeaseKey) (offset : Z) (chunks : list bytes)
    : result unit NonContiguousWrite * WriteBackCache :=
  match chunks with
  | [] => (Ok tt, c)
  | data :: chunks =>
      match cache_insert c key offset data with
      | (Ok _, c') => insert_chunks c' key (offset + blen data) chunks
      | (Err e, c') => (Err e, c')
      end
  end.

Lemma blen_app a b : blen (a ++ b) = blen a + blen b.
Proof. unfold blen. rewrite length_app. lia. Qed.

Lemma insert_continues c key start data chunk :
  cache_pieces c !! key = Some (mkEntry start data) -> chunk <> [] -> 0 <= start ->
  start + blen data <= u64_max ->
  cache_insert c key (start + blen data) chunk =
    (Ok tt, mkCache (<[key := mkEntry start (data ++ chunk)]> (cache_pieces c)) (total_bytes c + length chunk)).
Proof.
  intros L Hc Hs Hm. unfold cache_insert. rewrite bool_decide_eq_false_2 by done. rewrite L. simpl.
  rewrite u64_add_exact by (unfold u64_max, blen in *; lia). by rewrite Z.eqb_refl.
Qed.

Lemma insert_chunks_spec c key start data chunks :
  cache_pieces c !! key = Some (mkEntry start data) -> Forall (fun ch => ch <> []) chunks -> 0 <= start ->
  start + blen data + blen (mjoin chunks) <= u64_max ->
  exists c', insert_chunks c key (start + blen data) chunks = (Ok tt, c') /\
    cache_pieces c' = <[key := mkEntry start (data ++ mjoin chunks)]> (cache_pieces c) /\
    total_bytes c' = (total_bytes c + length (mjoin chunks))%nat.
Proof.
  revert c data. induction chunks as [|ch chunks IH]; intros c data L HF Hs Hm; simpl.
  { exists c. split_and!; [done|rewrite app_nil_r; by rewrite insert_id|]. simpl. lia. }
  apply Forall_cons_iff in HF as [Hch HF]. change (mjoin (ch :: chunks)) with (ch ++ mjoin chunks) in *.
  rewrite blen_app in Hm.
  rewrite (insert_continues c key start data ch) by (done || (unfold blen in *; lia)).
  destruct (IH (mkCache (<[key := mkEntry start (data ++ ch)]> (cache_pieces c)) (total_bytes c + length ch))
    (data ++ ch)) as (c' & E & Ep & Et); simpl; [apply lookup_insert_eq|done|done|rewrite blen_app; lia|].
  rewrite blen_app, Z.add_assoc in E. rewrite E. exists c'. split_and!; [done| |].
  - rewrite Ep, <- app_assoc. simpl. by rewrite insert_insert_eq.
  - rewrite Et. simpl. rewrite length_app. lia.
Qed.

Lemma insert_first c key offset data :
  data <> [] -> u64 offset -> cache_pieces c !! key = None ->
  cache_insert c key offset data =
    (Ok tt, mkCache (<[key := mkEntry offset data]> (cache_pieces c)) (total_bytes c + length data)).
Proof.
  intros Hd Ho L. unfold cache_insert. rewrite bool_decide_eq_false_2 by done. rewrite L. simpl.
  unfold u64, u64_max in Ho. rewrite u64_add_exact by (unfold blen; simpl; lia).
  unfold blen. simpl. rewrite Z.add_0_r. by rewrite Z.eqb_refl.
Qed.

(** The cache reassembles a lease's body: chunks that follow one another are
    accepted, draining the lease yields them concatenated as one block at the
    offset of the first chunk, and leaves the cache as it was before the lease;
    a chunk at any other offset is refused and reports where it was expected. *)
Theorem cache_reassembles c key start chunks :
  cache_pieces c !! key = None -> chunks <> [] -> Forall (fun ch => ch <> []) chunks ->
  0 <= start -> start + blen (mjoin chunks) <= u64_max ->
  exists c', insert_chunks c key start chunks = (Ok tt, c') /\
    drain_lease c' key = ([mkBlock start (mjoin chunks)], c) /\
    forall offset data, data <> [] -> offset <> start + blen (mjoin chunks) ->
      exists c'', cache_insert c' key offset data =
        (Err (mkNonContiguous (start + blen (mjoin chunks)) offset), c'').
Proof.
  intros L Hne HF Hs Hm. destruct chunks as [|ch chunks]; [done|]. clear Hne.
  apply Forall_cons_iff in HF as [Hch HF]. change (mjoin (ch :: chunks)) with (ch ++ mjoin chunks) in *.
  rewrite blen_app in Hm. cbn [insert_chunks].
  rewrite insert_first by (done || (unfold u64, blen in *; lia)).
  destruct (insert_chunks_spec (mkCache (<[key := mkEntry start ch]> (cache_pieces c)) (total_bytes c + length ch))
    key start ch chunks) as (c' & E & Ep & Et); simpl; [apply lookup_insert_eq|done|done|lia|].
  exists c'. split; [done|]. simpl in Ep, Et. rewrite insert_insert_eq in Ep. split.
  - unfold drain_lease. rewrite Ep, lookup_insert_eq, delete_insert_id by done. simpl. rewrite Et.
    destruct c as [m t]. simpl. do 2 f_equal. rewrite length_app. lia.
  - intros offset data Hd Ho. unfold cache_insert. rewrite bool_decide_eq_false_2 by done.
    rewrite Ep, lookup_insert_eq. simpl. rewrite u64_add_exact by (rewrite blen_app; unfold u64_max, blen in *; lia).
    rewrite (proj2 (Z.eqb_neq _ _)) by done. simpl. by eexists.
Qed.

Lemma cache_reassembles_witness :
  insert_chunks cache_new (mkKey 3 7) 100 [[1; 2]; [3]; [4; 5; 6]] =
    (Ok tt, mkCache {[ mkKey 3 7 := mkEntry 100 [1; 2; 3; 4; 5; 6] ]} 6) /\
  exists c', insert_chunks cache_new (mkKey 3 7) 100 [[1; 2]; [3]; [4; 5; 6]] = (Ok tt, c') /\
    drain_lease c' (mkKey 3 7) = ([mkBlock 100 [1; 2; 3; 4; 5; 6]], cache_new).
Proof.
  split; [vm_compute; reflexivity|].
  destruct (cache_reassembles cache_new (mkKey 3 7) 100 [[1; 2]; [3]; [4; 5; 6]])
    as (c' & E & D & _); [reflexivity|discriminate|repeat constructor; discriminate|lia|vm_compute; discriminate|].
  exists c'. split; [exact E|exact D].
Defined.
