(* ===== verification/Writer.v ===== *)
(** * The writer task ([src/storage/writer.rs])

    One task owns the output file.  It receives commands from a channel, keeps
    body chunks in the write-back cache (or in one contiguous buffer for a
    transfer without leases) and writes them out when a lease is flushed, when
    everything is flushed, or when the cache reaches its high watermark. *)

From S2P Require Import Prelude RustStr Segment Errors Cache.

(** ** The output file

    The file belongs to the operating system.  [contents] is the effect of the
    writes it has carried out ([None]: never written), [durable] what the last
    successful sync covered, [cursor] the position of the handle.  The outcome of
    each I/O call is an input of the model: a failing write may leave a prefix. *)

Record FileState := mkFile {
  contents : Z -> option Z;
  durable : Z -> option Z;
  cursor : Z;
}.

(** [contents] with [data] written at [offset]. *)
Definition overlay (old : Z -> option Z) (offset : Z) (data : bytes) (b : Z) : option Z :=
  if (offset <=? b) && (b <? offset + blen data) then data !! Z.to_nat (b - offset) else old b.

(** [inflight] and [write_err] belong to the [tokio::fs::File]: the write it has
    accepted and runs in the background, with its position, and the error of a
    background write that no call has reported yet. *)
Record WriterTask := mkWriter {
  file : FileState;
  inflight : option (Z * bytes);
  write_err : option IoErrorKind;
  io : list IoOutcome;
  written_bytes : Z;
  cache : WriteBackCache;
  active_leases : gmap LeaseKey (option Z);
  single : option (Z * bytes);
  file_offset : option Z;
  permits : list (option LeaseKey * nat);
  cache_high_watermark : nat;
}.

Definition WriterM (A : Type) : Type := StateRes WriterTask A.

Definition writer_new (f : FileState) (outcomes : list IoOutcome) (written : Z)
    (watermark : nat) : WriterTask :=
  {| file := f; inflight := None; write_err := None; io := outcomes; written_bytes := written;
     cache := cache_new; active_leases := ∅; single := None; file_offset := None; permits := [];
     cache_high_watermark := watermark |}.

Definition set_file (f : FileState) (w : WriterTask) : WriterTask :=
  {| file := f; inflight := inflight w; write_err := write_err w; io := io w; written_bytes := written_bytes w;
     cache := cache w; active_leases := active_leases w; single := single w;
     file_offset := file_offset w; permits := permits w; cache_high_watermark := cache_high_watermark w |}.

Definition set_inflight (x : option (Z * bytes)) (w : WriterTask) : WriterTask :=
  {| file := file w; inflight := x; write_err := write_err w; io := io w; written_bytes := written_bytes w;
     cache := cache w; active_leases := active_leases w; single := single w;
     file_offset := file_offset w; permits := permits w; cache_high_watermark := cache_high_watermark w |}.

Definition set_write_err (e : option IoErrorKind) (w : WriterTask) : WriterTask :=
  {| file := file w; inflight := inflight w; write_err := e; io := io w; written_bytes := written_bytes w;
     cache := cache w; active_leases := active_leases w; single := single w;
     file_offset := file_offset w; permits := permits w; cache_high_watermark := cache_high_watermark w |}.

Definition set_io (l : list IoOutcome) (w : WriterTask) : WriterTask :=
  {| file := file w; inflight := inflight w; write_err := write_err w; io := l; written_bytes := written_bytes w;
     cache := cache w; active_leases := active_leases w; single := single w;
     file_offset := file_offset w; permits := permits w; cache_high_watermark := cache_high_watermark w |}.

Definition set_cache (c : WriteBackCache) (w : WriterTask) : WriterTask :=
  {| file := file w; inflight := inflight w; write_err := write_err w; io := io w; written_bytes := written_bytes w;
     cache := c; active_leases := active_leases w; single := single w;
     file_offset := file_offset w; permits := permits w; cache_high_watermark := cache_high_watermark w |}.

Definition set_active (m : gmap LeaseKey (option Z)) (w : WriterTask) : WriterTask :=
  {| file := file w; inflight := inflight w; write_err := write_err w; io := io w; written_bytes := written_bytes w;
     cache := cache w; active_leases := m; single := single w;
     file_offset := file_offset w; permits := permits w; cache_high_watermark := cache_high_watermark w |}.

Definition set_single (x : option (Z * bytes)) (w : WriterTask) : WriterTask :=
  {| file := file w; inflight := inflight w; write_err := write_err w; io := io w; written_bytes := written_bytes w;
     cache := cache w; active_leases := active_leases w; single := x;
     file_offset := file_offset w; permits := permits w; cache_high_watermark := cache_high_watermark w |}.

Definition set_file_offset (o : option Z) (w : WriterTask) : WriterTask :=
  {| file := file w; inflight := inflight w; write_err := write_err w; io := io w; written_bytes := written_bytes w;
     cache := cache w; active_leases := active_leases w; single := single w;
     file_offset := o; permits := permits w; cache_high_watermark := cache_high_watermark w |}.

Definition set_permits (l : list (option LeaseKey * nat)) (w : WriterTask) : WriterTask :=
  {| file := file w; inflight := inflight w; write_err := write_err w; io := io w; written_bytes := written_bytes w;
     cache := cache w; active_leases := active_leases w; single := single w;
     file_offset := file_offset w; permits := l; cache_high_watermark := cache_high_watermark w |}.

Definition set_written (n : Z) (w : WriterTask) : WriterTask :=
  {| file := file w; inflight := inflight w; write_err := write_err w; io := io w; written_bytes := n;
     cache := cache w; active_leases := active_leases w; single := single w;
     file_offset := file_offset w; permits := permits w; cache_high_watermark := cache_high_watermark w |}.

(** ** I/O calls

    [tokio::fs::File] answers [write_all] once the data are copied to its buffer and
    lets the blocking write run on; the next call on the file waits for it. *)

(** The outcome of the next operation of the system; an exhausted list means
    success. *)
Definition next_io : WriterM IoOutcome := fun w => (Ok (default IoOk (head (io w))), set_io (tail (io w)) w).

Definition put_bytes (offset : Z) (data : bytes) (w : WriterTask) : WriterTask :=
  set_file (mkFile (overlay (contents (file w)) offset data) (durable (file w)) (cursor (file w))) w.

(** Wait for the write in flight; its error, if it failed. *)
Definition complete_inflight : WriterM (option IoErrorKind) :=
  let! w := read_state in
  match inflight w with
  | None => ok None
  | Some (offset, data) =>
      let! outcome := next_io in
      update_state (set_inflight None) ;!
      match outcome with
      | IoOk => update_state (put_bytes offset data) ;! ok None
      | IoFail n kind => update_state (put_bytes offset (take n data)) ;! ok (Some kind)
      end
  end.

(** A call that does not report the error keeps it for the next one that does. *)
Definition keep_error (error : option IoErrorKind) (w : WriterTask) : WriterTask :=
  match error with Some kind => set_write_err (Some kind) w | None => w end.

Definition set_cursor (offset : Z) (w : WriterTask) : WriterTask :=
  set_file (mkFile (contents (file w)) (durable (file w)) offset) w.

Definition seek (offset : Z) : WriterM unit :=
  let! error := complete_inflight in
  update_state (keep_error error) ;!
  let! outcome := next_io in
  match outcome with IoOk => update_state (set_cursor offset) | IoFail _ kind => err (Io kind) end.

(** The calls that report an error of the background. *)
Definition report_error : WriterM unit :=
  let! w := read_state in
  match write_err w with
  | Some kind => update_state (set_write_err None) ;! err (Io kind)
  | None =>
      let! error := complete_inflight in
      match error with Some kind => err (Io kind) | None => ok tt end
  end.

(** The data are in flight. *)
Definition accept (data : bytes) (w : WriterTask) : WriterTask :=
  set_inflight (Some (cursor (file w), data)) (set_cursor (cursor (file w) + blen data) w).

(** Data longer than the buffer go in parts, each waiting for the one before it, so
    that a call may fail with a prefix written. *)
Definition write_all (data : bytes) : WriterM unit :=
  if bool_decide (data = []) then ok tt
  else
    report_error ;!
    let! outcome := next_io in
    match outcome with
    | IoOk => update_state (accept data)
    | IoFail n kind => update_state (fun w => put_bytes (cursor (file w)) (take n data) w) ;! err (Io kind)
    end.

(** [file.flush()] waits for the write in flight. *)
Definition file_flush : WriterM unit := report_error.

(** [sync_data] / [sync_all]: what has been written is durable. *)
Definition file_sync : WriterM unit :=
  let! error := complete_inflight in
  update_state (keep_error error) ;!
  let! outcome := next_io in
  match outcome with
  | IoOk => update_state (fun w => set_file (mkFile (contents (file w)) (contents (file w)) (cursor (file w))) w)
  | IoFail _ kind => err (Io kind)
  end.

(** The task has ended and its file is dropped: a write in flight still runs to its
    end, and nobody hears of its error. *)
Definition dropped (w : WriterTask) : WriterTask := snd (complete_inflight w).

(** ** Methods *)

Definition write_block (offset : Z) (data : bytes) : WriterM unit :=
  let! w := read_state in
  (if bool_decide (file_offset w = Some offset) then ok tt else seek offset) ;!
  update_state (set_file_offset None) ;!
  write_all data ;!
  let end_ := offset ⊕ blen data in
  update_state (set_file_offset (Some end_)) ;!
  update_state (fun w => set_written (Z.max (written_bytes w) end_) w).

Definition flush_single : WriterM unit :=
  let! w := read_state in
  match single w with
  | None => ok tt
  | Some (offset, data) => update_state (set_single None) ;! write_block offset data
  end.

Fixpoint write_blocks (blocks : list FlushBlock) : WriterM unit :=
  match blocks with
  | [] => ok tt
  | b :: blocks => write_block (block_offset b) (block_data b) ;! write_blocks blocks
  end.

(** [self.permits.retain(|(key, _)| ..)] *)
Definition retain_permits (keep : option LeaseKey -> bool) (w : WriterTask) : WriterTask :=
  set_permits (filter (fun p => keep p.1 = true) (permits w)) w.

Definition is_leased (key : option LeaseKey) : bool := match key with Some _ => true | None => false end.

Definition other_than (k : LeaseKey) (key : option LeaseKey) : bool := negb (bool_decide (key = Some k)).

Definition flush_lease (key : LeaseKey) : WriterM unit :=
  let! w := read_state in
  let '(blocks, c) := drain_lease (cache w) key in
  update_state (set_cache c) ;! write_blocks blocks ;!
  update_state (retain_permits (other_than key)).

Definition flush_all : WriterM unit :=
  flush_single ;!
  let! w := read_state in
  let '(blocks, c) := drain_all (cache w) in
  update_state (set_cache c) ;! write_blocks blocks ;!
  update_state (set_permits []).

Definition sync_file : WriterM unit := file_flush ;! file_sync.

Definition single_bytes (w : WriterTask) : nat :=
  match single w with Some (_, data) => length data | None => 0%nat end.

(** 256 KiB *)
Definition SINGLE_BATCH : Z := 256 * 1024.

Definition buffer_single (offset : Z) (data : bytes) : WriterM unit :=
  if bool_decide (data = []) then ok tt
  else
    let! w := read_state in
    if Z.min SINGLE_BATCH (Z.of_nat (cache_high_watermark w)) <=? blen data then
      flush_single ;! write_block offset data ;! update_state (retain_permits is_leased)
    else
      update_state (fun w =>
        let '(start, buffered) := default (offset, []) (single w) in
        set_single (Some (start, buffered ++ data)) w) ;!
      let! w := read_state in
      if SINGLE_BATCH <=? Z.of_nat (single_bytes w) then
        flush_single ;! update_state (retain_permits is_leased)
      else ok tt.

Inductive WriterCommand :=
| BeginLease (key : LeaseKey)
| Data (offset : Z) (data : bytes) (permit : option nat) (lease_key : option LeaseKey)
| FlushLease (key : LeaseKey)
| DiscardLease (key : LeaseKey)
| FlushAll (sync_data : bool).

(** What the task sends back on the command's channel. *)
Inductive Ack :=
| NoAck
| LeaseFlushed
| Discarded (n : nat)
| AllFlushed (written : Z) (synced : bool).

Definition noncontiguous_message (e : NonContiguousWrite) : rstr :=
  str "noncontiguous lease write: expected offset " ++ show_u64 (expected e) ++
  str ", got " ++ show_u64 (actual e).

(** The lease arm of [Data]. *)
Definition lease_data (key : LeaseKey) (offset : Z) (data : bytes) : WriterM unit :=
  if bool_decide (data = []) then ok tt
  else
    let! w := read_state in
    match active_leases w !! key with
    | Some (Some expected) =>
        if negb (offset =? expected)
        then err (Internal (noncontiguous_message (mkNonContiguous expected offset)))
        else ok tt
    | _ => ok tt
    end ;!
    (fun w =>
       match cache_insert (cache w) key offset data with
       | (Ok _, c) => (Ok tt, set_cache c w)
       | (Err e, c) => (Err (Internal (noncontiguous_message e)), set_cache c w)
       end) ;!
    update_state (fun w =>
      set_active (<[key := Some (offset ⊕ blen data)]> (active_leases w)) w).

Definition handle_data (offset : Z) (data : bytes) (permit : option nat)
    (lease_key : option LeaseKey) : WriterM unit :=
  let! w := read_state in
  (if negb (bool_decide (data = [])) &&
      match single w with
      | Some (start, buffered) => is_leased lease_key || negb (start ⊕ blen buffered =? offset)
      | None => false
      end
   then flush_single ;! update_state (retain_permits is_leased)
   else ok tt) ;!
  let! w := read_state in
  (if negb (is_leased lease_key) && (0 <? total_bytes (cache w))%nat then flush_all else ok tt) ;!
  match permit with
  | Some n => update_state (fun w => set_permits (permits w ++ [(lease_key, n)]) w)
  | None => ok tt
  end ;!
  let! w := read_state in
  match lease_key with
  | Some key =>
      if bool_decide (is_Some (active_leases w !! key)) then lease_data key offset data
      else update_state (retain_permits (other_than key))
  | None => buffer_single offset data
  end ;!
  let! w := read_state in
  if (cache_high_watermark w <=? total_bytes (cache w) + single_bytes w)%nat then flush_all else ok tt.

Definition handle (cmd : WriterCommand) : WriterM Ack :=
  match cmd with
  | BeginLease key =>
      update_state (fun w => set_active (<[key := None]> (active_leases w)) w) ;! ok NoAck
  | Data offset data permit lease_key => handle_data offset data permit lease_key ;! ok NoAck
  | FlushLease key =>
      flush_lease key ;!
      update_state (fun w => set_active (delete key (active_leases w)) w) ;! ok LeaseFlushed
  | DiscardLease key =>
      update_state (fun w => set_active (delete key (active_leases w)) w) ;!
      let! w := read_state in
      let '(n, c) := discard_lease (cache w) key in
      update_state (set_cache c) ;! update_state (retain_permits (other_than key)) ;! ok (Discarded n)
  | FlushAll sync_data =>
      flush_all ;! (if sync_data : bool then sync_file else ok tt) ;!
      let! w := read_state in ok (AllFlushed (written_bytes w) sync_data)
  end.

(** The receive loop, over the commands received before the channel closes. *)
Fixpoint receive (cmds : list WriterCommand) : WriterM (list Ack) :=
  match cmds with
  | [] => ok []
  | cmd :: cmds => let! a := handle cmd in let! acks := receive cmds in ok (a :: acks)
  end.

Definition run (cmds : list WriterCommand) : WriterM (list Ack) :=
  let! acks := receive cmds in flush_all ;! file_flush ;! file_sync ;! ok acks.
