(* ===== verification/WriterInv.v ===== *)
(** * What the writer does to the file

    [WInv obj delivered w]: every byte handed to the writer for a live lease is
    either still buffered or accepted by the file -- in it, or in the write in
    flight -- with the value it has in the downloaded object [obj]. *)

From S2P Require Import Prelude RustStr Segment Errors Cache Writer.

(** The file as it will be when the write in flight has succeeded. *)
Definition accepted (w : WriterTask) (b : Z) : option Z :=
  match inflight w with
  | Some (offset, data) => overlay (contents (file w)) offset data b
  | None => contents (file w) b
  end.

Section Object.
  Context (obj : Z -> Z).

(** [data] is what the object holds at [offset]. *)
Definition agrees (offset : Z) (data : bytes) : Prop :=
  0 <= offset /\ offset + blen data <= u64_max /\
  forall i v, data !! i = Some v -> v = obj (offset + Z.of_nat i).

Lemma agrees_split o d1 d2 : agrees o (d1 ++ d2) -> agrees o d1 /\ agrees (o + blen d1) d2.
Proof.
  intros (A1 & A2 & A3). unfold blen in A2. rewrite length_app in A2. split; (split_and!; [unfold blen; lia|unfold blen; lia|]); intros i v Hv.
  - apply (A3 i). rewrite lookup_app_l; [done|]. by apply lookup_lt_Some in Hv.
  - rewrite (A3 (length d1 + i)%nat v); [f_equal; unfold blen; lia|]. by rewrite lookup_app_r, Nat.add_comm, Nat.add_sub by lia.
Qed.

Definition in_block (offset : Z) (data : bytes) (b : Z) : Prop := offset <= b < offset + blen data.

Definition good (w : WriterTask) (b : Z) : Prop := accepted w b = Some (obj b).

Definition landed (w : WriterTask) (b : Z) : Prop := contents (file w) b = Some (obj b).

Definition inflight_ok (w : WriterTask) : Prop := forall o d, inflight w = Some (o, d) -> agrees o d.

(** The bytes still buffered for a lease, or for the transfer without leases. *)
Definition Holds (w : WriterTask) (key : option LeaseKey) (b : Z) : Prop :=
  match key with
  | Some k => exists e, cache_pieces (cache w) !! k = Some e /\ in_block (entry_offset e) (entry_data e) b
  | None => exists o d, single w = Some (o, d) /\ in_block o d b
  end.

Definition pos_ok (w : WriterTask) : Prop := forall o, file_offset w = Some o -> cursor (file w) = o.

Record WInv (delivered : option LeaseKey -> Z -> Prop) (w : WriterTask) : Prop := {
  wi_cache : Cache_wf (cache w);
  wi_agree : forall k e, cache_pieces (cache w) !! k = Some e -> agrees (entry_offset e) (entry_data e);
  wi_expected : forall k e, cache_pieces (cache w) !! k = Some e ->
    active_leases w !! k = Some (Some (entry_offset e + blen (entry_data e)));
  wi_single : forall o d, single w = Some (o, d) -> agrees o d /\ d <> [];
  wi_pos : pos_ok w;
  wi_inflight : inflight_ok w;
  wi_err : write_err w = None;
  wi_durable : forall b, durable (file w) b = Some (obj b) -> landed w b;
  wi_delivered : forall key b, delivered key b -> Holds w key b \/ good w b;
}.

(** ** I/O *)

(** A step of the file: bytes of the object stay, and what was durable stays. *)
Record Wrote (w w' : WriterTask) : Prop := {
  wr_good : forall b, good w b -> good w' b;
  wr_landed : forall b, landed w b -> landed w' b;
  wr_pos : pos_ok w -> pos_ok w';
  wr_inflight : inflight_ok w -> inflight_ok w';
  wr_err : write_err w = None -> write_err w' = None;
  wr_durable : durable (file w') = durable (file w);
  wr_watermark : cache_high_watermark w' = cache_high_watermark w;
}.

#[export] Instance Wrote_preorder : PreOrder Wrote.
Proof.
  split; [by split|]. intros w1 w2 w3 [] []. split; auto; congruence.
Qed.

(** The buffers are as before. *)
Definition same_buffers (w w' : WriterTask) : Prop :=
  cache w' = cache w /\ active_leases w' = active_leases w /\ single w' = single w /\
  permits w' = permits w.

#[export] Instance same_buffers_preorder : PreOrder same_buffers.
Proof. split; [done|]. intros w1 w2 w3 (?&?&?&?) (?&?&?&?). split_and!; congruence. Qed.

Lemma overlay_in old offset data b :
  in_block offset data b -> overlay old offset data b = data !! Z.to_nat (b - offset).
Proof.
  intros H. unfold overlay, in_block in *. rewrite (proj2 (Z.leb_le _ _)), (proj2 (Z.ltb_lt _ _)) by lia. done.
Qed.

Lemma agrees_lookup offset data b :
  agrees offset data -> in_block offset data b -> data !! Z.to_nat (b - offset) = Some (obj b).
Proof.
  intros (_ & _ & Ha) Hb. unfold in_block, blen in Hb.
  destruct (lookup_lt_is_Some_2 data (Z.to_nat (b - offset)) ltac:(lia)) as [v Hv].
  rewrite Hv. f_equal. rewrite (Ha _ _ Hv). f_equal. lia.
Qed.

(** Writing a block of the object keeps good bytes good and adds its own. *)
Lemma overlay_good old offset data b :
  agrees offset data -> old b = Some (obj b) \/ in_block offset data b ->
  overlay old offset data b = Some (obj b).
Proof.
  intros Ha Hb. destruct (decide (in_block offset data b)) as [Hin|Hout].
  - rewrite overlay_in by done. by apply agrees_lookup.
  - destruct Hb as [Hb|]; [|done]. unfold overlay, in_block in *.
    destruct (Z.leb_spec offset b), (Z.ltb_spec b (offset + blen data)); simpl; (done || lia).
Qed.

(** A part of a write leaves a part of the object. *)
Lemma agrees_take offset data n : agrees offset data -> agrees offset (take n data).
Proof.
  intros (H0 & Hm & Hv). split_and!; [done|unfold blen in *; rewrite length_take; lia|].
  intros i v [H _]%lookup_take_Some. by apply Hv.
Qed.

Lemma landed_good w b : inflight_ok w -> landed w b -> good w b.
Proof.
  intros Hi Hl. unfold good, accepted. destruct (inflight w) as [[o d]|] eqn:E; [|done].
  apply overlay_good; [by apply Hi|by left].
Qed.

(** A call on the file, whatever its outcome: only the file and the state of its
    handle change. *)
Record Called (w w' : WriterTask) : Prop := {
  ca_buffers : same_buffers w w';
  ca_landed : forall b, landed w b -> landed w' b;
  ca_inflight : inflight_ok w -> inflight_ok w';
  ca_durable : durable (file w') = durable (file w);
  ca_offset : file_offset w' = file_offset w;
  ca_written : written_bytes w' = written_bytes w;
  ca_watermark : cache_high_watermark w' = cache_high_watermark w;
}.

#[export] Instance Called_preorder : PreOrder Called.
Proof. split; [by split|]. intros w1 w2 w3 [] []. split; [by etrans|..]; auto; congruence. Qed.

(** Afterwards nothing is in flight, and nothing was lost if there is no error. *)
Lemma complete_inflight_spec w :
  inflight_ok w -> exists e w', complete_inflight w = (Ok e, w') /\ Called w w' /\ inflight w' = None /\
    cursor (file w') = cursor (file w) /\ write_err w' = write_err w /\
    (e = None -> forall b, contents (file w') b = accepted w b).
Proof.
  intros Hi. unfold complete_inflight, res_bind, read_state, accepted. destruct (inflight w) as [[o d]|] eqn:E.
  - pose proof (Hi o d E) as Ha. unfold next_io, update_state. simpl.
    destruct (default IoOk (head (io w))) as [|n kind]; eexists _, _; (split; [done|]); split_and!; try done;
      (split; try done; intros b Hb; unfold landed; simpl; apply overlay_good; [|by left]); [done|by apply agrees_take].
  - eexists _, _. by split_and!.
Qed.

Lemma keep_error_called e w : Called w (keep_error e w).
Proof. by destruct e. Qed.

(** A seek that succeeds has lost nothing, or has left an error behind. *)
Lemma seek_spec offset r w w' :
  inflight_ok w -> seek offset w = (r, w') ->
  Called w w' /\ inflight w' = None /\
  (forall u, r = Ok u -> cursor (file w') = offset /\ (write_err w' = None -> forall b, contents (file w') b = accepted w b)).
Proof.
  intros Hi E. destruct (complete_inflight_spec w Hi) as (e & w1 & E1 & C1 & N1 & _ & _ & A1).
  unfold seek, res_bind, update_state in E. rewrite E1 in E. unfold next_io in E. simpl in E.
  pose proof (keep_error_called e w1) as C2. assert (inflight (keep_error e w1) = None) as N2 by (by destruct e).
  assert (Called w (keep_error e w1)) as C by (by etrans). set (w2 := keep_error e w1) in *.
  destruct (default IoOk (head (io w2))); injection E as <- <-.
  - split_and!; [|done|].
    + destruct C. by split.
    + intros [] _. split; [done|]. simpl. intros He b. destruct e; [done|]. by apply A1.
  - split_and!; [destruct C; by split|done|done].
Qed.

Lemma report_error_spec r w w' :
  inflight_ok w -> report_error w = (r, w') ->
  Called w w' /\ cursor (file w') = cursor (file w) /\
  (forall u, r = Ok u -> inflight w' = None /\ write_err w' = None /\ write_err w = None /\
     forall b, contents (file w') b = accepted w b).
Proof.
  intros Hi E. unfold report_error, res_bind, read_state in E. destruct (write_err w) as [kind|] eqn:Ee.
  - injection E as <- <-. by split_and!.
  - destruct (complete_inflight_spec w Hi) as (e & w1 & E1 & C1 & N1 & Hc & He & A1). rewrite E1 in E.
    destruct e; injection E as <- <-; split_and!; try done. intros u _. split_and!; [done|congruence|done|by apply A1].
Qed.

(** The data of a write that succeeds are in flight, on top of all earlier ones. *)
Lemma write_all_spec data r w w' :
  inflight_ok w -> agrees (cursor (file w)) data -> data <> [] -> write_all data w = (r, w') ->
  Called w w' /\
  (forall u, r = Ok u -> inflight w' = Some (cursor (file w), data) /\ cursor (file w') = cursor (file w) + blen data /\
     write_err w' = None /\ write_err w = None /\ forall b, contents (file w') b = accepted w b).
Proof.
  intros Hi Ha Hd E. unfold write_all in E. rewrite bool_decide_eq_false_2 in E by done.
  apply res_bind_any in E as [([] & w1 & E1 & E)|(e & E1 & ->)];
    destruct (report_error_spec _ _ _ Hi E1) as (C1 & Hc & H1); [|done].
  destruct (H1 tt eq_refl) as (N1 & W1 & W0 & A1). unfold next_io, res_bind, update_state in E. simpl in E.
  destruct (default IoOk (head (io w1))) as [|n kind]; injection E as <- <-.
  - split.
    + destruct C1. split; try done. intros _ o d. simpl. intros [= <- <-]. by rewrite Hc.
    + intros [] _. simpl. rewrite Hc. split_and!; try done.
  - split; [|done]. destruct C1. split; try done. intros b Hb. unfold landed. simpl.
    apply overlay_good; [rewrite Hc; by apply agrees_take|left; by apply ca_landed0].
Qed.

(** Both outcomes of a block. *)
Lemma write_block_calls offset data r w w' :
  agrees offset data -> data <> [] -> inflight_ok w -> pos_ok w -> write_block offset data w = (r, w') ->
  (same_buffers w w' /\ (forall b, landed w b -> landed w' b) /\ inflight_ok w' /\
   durable (file w') = durable (file w) /\ cache_high_watermark w' = cache_high_watermark w) /\
  (r = Ok tt -> inflight w' = Some (offset, data) /\ pos_ok w' /\ write_err w' = None /\
     written_bytes w' = Z.max (written_bytes w) (offset ⊕ blen data) /\ forall b, contents (file w') b = accepted w b).
Proof.
  intros Ha Hd Hi Hp E. unfold write_block in E. apply res_bind_any in E as [(w0 & w0' & [= -> ->] & E)|(e & [=] & _)].
  assert (forall r1 w1, (if bool_decide (file_offset w0' = Some offset) then ok tt else seek offset) w0' = (r1, w1) ->
    Called w0' w1 /\ (r1 = Ok tt -> cursor (file w1) = offset /\
      (write_err w1 = None -> forall b, accepted w1 b = accepted w0' b))) as Hs.
  { intros r1 w1. case_bool_decide as D.
    - intros [= <- <-]. split; [done|]. intros _. split; [by apply Hp|done].
    - intros Es. destruct (seek_spec offset r1 w0' w1 Hi Es) as (C & N & H). split; [done|]. intros ->.
      destruct (H tt eq_refl) as [Hc Hx]. split; [done|]. intros He b. unfold accepted at 1. rewrite N. by apply Hx. }
  apply res_bind_any in E as [([] & w1 & E1 & E)|(e & E1 & ->)]; apply Hs in E1 as [C1 H1];
    [|split; [|done]; destruct C1; do 4 (split; [by auto|]); done].
  destruct (H1 eq_refl) as [Hc Hx]. pose proof (ca_inflight _ _ C1 Hi) as Hi1.
  apply res_bind_any in E as [([] & w2 & [= <-] & E)|(e & [=] & _)].
  assert (agrees (cursor (file (set_file_offset None w1))) data) as Ha1 by (simpl; by rewrite Hc).
  apply res_bind_any in E as [([] & w3 & E3 & E)|(e & E3 & ->)];
    destruct C1 as [B1 L1 I1 D1 _ W1 M1];
    destruct (write_all_spec data _ (set_file_offset None w1) _ Hi1 Ha1 Hd E3) as [[B2 L2 I2 D2 _ W2 M2] H].
  - injection E as <- <-. destruct (H tt eq_refl) as (N & Hc3 & He & He1 & Hcont). simpl in *.
    split; [split; [by etrans|]; split; [intros b Hb; by apply L2, L1|]; split; [by apply I2|]; split; congruence|].
    intros _. simpl. split_and!.
    + by rewrite N, Hc.
    + intros o. simpl. intros [= <-]. rewrite Hc3, Hc. destruct Ha as (? & ? & _).
      rewrite u64_add_exact by (unfold u64_max, blen in *; lia). lia.
    + done.
    + congruence.
    + intros b. rewrite Hcont. unfold accepted at 1. simpl. by apply Hx.
  - simpl in *. split; [|done]. split; [by etrans|]. split; [intros b Hb; by apply L2, L1|]. split; [by apply I2|]. split; congruence.
Qed.

Lemma write_block_spec offset data w w' :
  agrees offset data -> data <> [] -> inflight_ok w -> pos_ok w -> write_block offset data w = (Ok tt, w') ->
  Wrote w w' /\ same_buffers w w' /\ (forall b, in_block offset data b -> good w' b).
Proof.
  intros Ha Hd Hi Hp E. destruct (write_block_calls _ _ _ _ _ Ha Hd Hi Hp E) as ((B & L & I & D & M) & H).
  destruct (H eq_refl) as (N & P & W & _ & C).
  assert (forall b, good w b \/ in_block offset data b -> good w' b) as G.
  { intros b Hb. unfold good, accepted. rewrite N. apply overlay_good; [done|]. rewrite C. destruct Hb; [by left|by right]. }
  split_and!; [|done|by auto]. split; auto.
Qed.

Lemma write_blocks_spec blocks w w' :
  Forall (fun b => agrees (block_offset b) (block_data b) /\ block_data b <> []) blocks -> inflight_ok w -> pos_ok w ->
  write_blocks blocks w = (Ok tt, w') ->
  Wrote w w' /\ same_buffers w w' /\
  (forall b, Exists (fun k => in_block (block_offset k) (block_data k) b) blocks -> good w' b).
Proof.
  revert w. induction blocks as [|k blocks IH]; intros w HF Hi Hp E; simpl in E.
  { injection E as <-. split_and!; [reflexivity|reflexivity|]. intros b H. by inversion H. }
  apply Forall_cons_iff in HF as [[Hk Hd] HF].
  apply res_bind_Ok in E as ([] & w1 & E1 & E2).
  destruct (write_block_spec _ _ _ _ Hk Hd Hi Hp E1) as (W1 & B1 & G1).
  destruct (IH w1 HF (wr_inflight _ _ W1 Hi) (wr_pos _ _ W1 Hp) E2) as (W2 & B2 & G2).
  split_and!; [by etrans|by etrans|]. intros b H. inversion H; subst.
  - by apply (wr_good _ _ W2), G1.
  - by apply G2.
Qed.

(** ** Draining buffers *)

(** The buffers only lost bytes, and every byte they lost is good now. *)
Lemma WInv_shrink delivered w w' :
  WInv delivered w -> Wrote w w' -> Cache_wf (cache w') ->
  (forall k e, cache_pieces (cache w') !! k = Some e ->
     cache_pieces (cache w) !! k = Some e /\ active_leases w' !! k = active_leases w !! k) ->
  (single w' = single w \/ single w' = None) ->
  (forall key b, Holds w key b -> Holds w' key b \/ good w' b) ->
  WInv delivered w'.
Proof.
  intros I R Wc Hsub Hs Hh. split; try done.
  - intros k e [L _]%Hsub. by apply (wi_agree _ _ I k).
  - intros k e L. destruct (Hsub k e L) as [L' ->]. by apply (wi_expected _ _ I).
  - intros o d E. destruct Hs as [Hs|Hs]; rewrite Hs in E; [|done]. by apply (wi_single _ _ I).
  - apply (wr_pos _ _ R), I.
  - apply (wr_inflight _ _ R), I.
  - apply (wr_err _ _ R), I.
  - intros b Hd. rewrite (wr_durable _ _ R) in Hd. by apply (wr_landed _ _ R), (wi_durable _ _ I).
  - intros key b Hd. destruct (wi_delivered _ _ I key b Hd) as [H|H]; [by apply Hh|right].
    by apply (wr_good _ _ R).
Qed.

Lemma flush_single_spec delivered w w' :
  WInv delivered w -> flush_single w = (Ok tt, w') ->
  WInv delivered w' /\ Wrote w w' /\ single w' = None /\ cache w' = cache w /\
  active_leases w' = active_leases w /\ permits w' = permits w /\
  (forall b, Holds w None b -> good w' b).
Proof.
  intros I E. unfold flush_single, res_bind, read_state in E. destruct (single w) as [[o d]|] eqn:Es.
  - unfold update_state in E.
    assert (pos_ok (set_single None w)) as Hp by exact (wi_pos _ _ I).
    destruct (wi_single _ _ I o d Es) as [Ha Hd].
    destruct (write_block_spec o d (set_single None w) _ Ha Hd (wi_inflight _ _ I) Hp E) as (R & (B1 & B2 & B3 & B4) & G).
    simpl in B1, B2, B3, B4.
    assert (Wrote w w') as R' by (destruct R; by split).
    assert (forall b, Holds w None b -> good w' b) as Hg
      by (intros b (o' & d' & E' & Hb); rewrite Es in E'; injection E' as <- <-; by apply G).
    split_and!; try done. apply (WInv_shrink delivered w); try done.
    + rewrite B1. apply I.
    + intros k e. rewrite B1, B2. done.
    + by right.
    + intros [k|] b H; [left|right; by apply Hg]. simpl in *. by rewrite B1.
  - injection E as <-. split_and!; try done. intros b (o & d & E & _). congruence.
Qed.

Lemma Wrote_set_cache w c : Wrote w (set_cache c w).
Proof. by split. Qed.

(** Writing out a list of cached entries. *)
Lemma drain_blocks_spec delivered w w' c blocks :
  WInv delivered w -> Cache_wf c ->
  (forall k e, cache_pieces c !! k = Some e -> cache_pieces (cache w) !! k = Some e) ->
  (forall k e, cache_pieces (cache w) !! k = Some e -> cache_pieces c !! k = Some e \/ block_of e ∈ blocks) ->
  (forall x, x ∈ blocks -> exists k e, cache_pieces (cache w) !! k = Some e /\ x = block_of e) ->
  write_blocks blocks (set_cache c w) = (Ok tt, w') ->
  WInv delivered w' /\ Wrote w w' /\ cache w' = c /\ active_leases w' = active_leases w /\
  single w' = single w /\ permits w' = permits w /\
  (forall k e b, cache_pieces (cache w) !! k = Some e -> cache_pieces c !! k = None ->
     in_block (entry_offset e) (entry_data e) b -> good w' b).
Proof.
  intros I Wc Hsub Hcov Hblk E.
  destruct (write_blocks_spec blocks (set_cache c w) w') as (R & (B1 & B2 & B3 & B4) & G); try done.
  { apply List.Forall_forall. intros x Hx%list_elem_of_In%Hblk. destruct Hx as (k & e & L & ->).
    split; [by apply (wi_agree _ _ I k)|by apply (cw_nonempty _ (wi_cache _ _ I) k)]. }
  { exact (wi_inflight _ _ I). }
  { exact (wi_pos _ _ I). }
  simpl in B1, B2, B3, B4. assert (Wrote w w') as R' by (etrans; [apply (Wrote_set_cache w c)|done]).
  assert (forall k e b, cache_pieces (cache w) !! k = Some e -> cache_pieces c !! k = None ->
    in_block (entry_offset e) (entry_data e) b -> good w' b) as Hg.
  { intros k e b L N Hb. apply G. destruct (Hcov k e L) as [|Hin]; [congruence|].
    apply List.Exists_exists. exists (block_of e). split; [by apply list_elem_of_In|done]. }
  split_and!; try done. apply (WInv_shrink delivered w); try done.
  - by rewrite B1.
  - intros k e. rewrite B1, B2. intros L. split; [by apply Hsub|done].
  - left. done.
  - intros [k|] b H; simpl in *.
    + destruct H as (e & L & Hb). rewrite B1. destruct (cache_pieces c !! k) as [e'|] eqn:Lc.
      * left. exists e'. split; [done|]. apply Hsub in Lc. congruence.
      * right. by apply (Hg k e b).
    + left. by rewrite B3.
Qed.

Lemma flush_lease_spec delivered w w' key :
  WInv delivered w -> flush_lease key w = (Ok tt, w') ->
  WInv delivered w' /\ Wrote w w' /\ cache_pieces (cache w') = delete key (cache_pieces (cache w)) /\
  active_leases w' = active_leases w /\ single w' = single w /\
  total_bytes (cache w) = (total_bytes (cache w') + length (buffered (cache w) key))%nat /\
  permits w' = filter (fun p => other_than key p.1 = true) (permits w) /\
  (forall b, Holds w (Some key) b -> good w' b).
Proof.
  intros I E. unfold flush_lease, res_bind, read_state in E.
  destruct (drain_lease (cache w) key) as [blocks c] eqn:D.
  destruct (drain_lease_spec _ _ _ _ (wi_cache _ _ I) D) as (Wc & Ec & Ht & ->).
  unfold update_state in E.
  destruct (write_blocks _ (set_cache c w)) as [[[]|] w1] eqn:WB; [|done]. injection E as <-.
  edestruct (drain_blocks_spec delivered w w1 c) as (I1 & R1 & C1 & A1 & S1 & P1 & G1);
    [exact I|exact Wc| | | |exact WB|].
  - intros k e. rewrite Ec. by intros [_ L]%lookup_delete_Some.
  - intros k e L. rewrite Ec. destruct (decide (k = key)) as [->|Hne].
    + right. rewrite L. by left.
    + left. by rewrite lookup_delete_ne.
  - intros x Hx. destruct (cache_pieces (cache w) !! key) as [e|] eqn:L; [|by apply not_elem_of_nil in Hx].
    apply list_elem_of_singleton in Hx as ->. by exists key, e.
  - split_and!; simpl; try done.
    + destruct I1. by split.
    + destruct R1. by split.
    + by rewrite C1.
    + by rewrite C1.
    + by rewrite P1.
    + intros b (e & L & Hb). apply (G1 key e b L); [|done]. by rewrite Ec, lookup_delete_eq.
Qed.

Lemma flush_all_spec delivered w w' :
  WInv delivered w -> flush_all w = (Ok tt, w') ->
  WInv delivered w' /\ Wrote w w' /\ cache w' = cache_new /\ active_leases w' = active_leases w /\
  single w' = None /\ permits w' = [] /\ (forall key b, Holds w key b -> good w' b).
Proof.
  intros I E. unfold flush_all in E. apply res_bind_Ok in E as ([] & w1 & E1 & E2).
  destruct (flush_single_spec delivered w w1 I E1) as (I1 & R1 & S1 & C1 & A1 & P1 & G1).
  unfold res_bind, read_state, update_state in E2.
  destruct (drain_all (cache w1)) as [blocks c] eqn:D.
  pose proof (drain_all_spec (cache w1)) as Hd. rewrite D in Hd. simpl in Hd. destruct Hd as (_ & -> & Hin).
  destruct (write_blocks blocks (set_cache cache_new w1)) as [[[]|] w2] eqn:WB; [|done]. injection E2 as <-.
  edestruct (drain_blocks_spec delivered w1 w2 cache_new) as (I2 & R2 & C2 & A2 & S2 & P2 & G2);
    [exact I1|exact cache_new_wf| | | |exact WB|].
  - intros k e L. simpl in L. by rewrite lookup_empty in L.
  - intros k e L. right. apply Hin. by exists k, e.
  - intros x Hx. by apply Hin.
  - split_and!; simpl; try done; try congruence.
    + destruct I2. by split.
    + etrans; [exact R1|]. destruct R2. by split.
    + intros [k|] b H.
      * destruct H as (e & L & Hb). apply (G2 k e b); [by rewrite C1|apply lookup_empty|done].
      * apply (wr_good _ _ R2). by apply G1.
Qed.

(** ** Receiving data *)

Definition sent (delivered : option LeaseKey -> Z -> Prop) (key : option LeaseKey) (offset : Z) (data : bytes)
    (key' : option LeaseKey) (b : Z) : Prop :=
  delivered key' b \/ (key' = key /\ in_block offset data b).

Lemma agrees_app start d1 d2 : agrees start d1 -> agrees (start + blen d1) d2 -> agrees start (d1 ++ d2).
Proof.
  intros (H0 & _ & A1) (_ & Hm & A2). split_and!; [done|rewrite blen_app; lia|].
  intros i v [H|[Hi H]]%lookup_app_Some; [by apply A1|].
  rewrite (A2 _ _ H). f_equal. unfold blen. lia.
Qed.

Lemma in_block_app start d1 d2 b :
  in_block start (d1 ++ d2) b <-> in_block start d1 b \/ in_block (start + blen d1) d2 b.
Proof. unfold in_block. rewrite blen_app. unfold blen. lia. Qed.

Lemma WInv_sent_nil delivered w key offset : WInv delivered w -> WInv (sent delivered key offset []) w.
Proof.
  intros [? ? ? ? ? ? ? ? Hdl]. split; try done. intros k b [H|[_ H]]; [by apply Hdl|].
  unfold in_block, blen in H. simpl in H. lia.
Qed.

(** The next offset each live lease expects, after a chunk. *)
Definition advanced (key : option LeaseKey) (offset : Z) (data : bytes) (m : gmap LeaseKey (option Z))
    : gmap LeaseKey (option Z) :=
  match key with
  | Some k =>
      if bool_decide (data = []) || negb (bool_decide (is_Some (m !! k))) then m
      else <[k := Some (offset + blen data)]> m
  | None => m
  end.

(** The entry a cache insertion leaves for its lease. *)
Lemma lease_data_spec delivered w w' key offset data x :
  WInv delivered w -> active_leases w !! key = Some x -> agrees offset data ->
  lease_data key offset data w = (Ok tt, w') ->
  WInv (sent delivered (Some key) offset data) w' /\ file w' = file w /\ inflight w' = inflight w /\ single w' = single w /\
  permits w' = permits w /\ cache_high_watermark w' = cache_high_watermark w /\
  active_leases w' = advanced (Some key) offset data (active_leases w) /\
  (forall k, length (buffered (cache w') k) =
     length (buffered (cache w) k) + (if decide (k = key) then length data else 0))%nat /\
  total_bytes (cache w') = (total_bytes (cache w) + length data)%nat.
Proof.
  intros I Hx Ha E. unfold lease_data in E. destruct (decide (data = [])) as [->|Hd].
  { rewrite bool_decide_eq_true_2 in E by done. injection E as <-. split_and!; try done.
    - by apply WInv_sent_nil.
    - intros k. simpl. case_decide; lia. }
  rewrite bool_decide_eq_false_2 in E by done. unfold res_bind, read_state in E. rewrite Hx in E.
  assert (match x with Some expected => offset = expected | None => True end /\
    (match cache_insert (cache w) key offset data with
     | (Ok _, c) => (Ok tt, set_cache c w)
     | (Err e, c) => (Err (Internal (noncontiguous_message e)), set_cache c w)
     end = (Ok tt, set_cache (snd (cache_insert (cache w) key offset data)) w)) /\
    fst (cache_insert (cache w) key offset data) = Ok tt /\
    w' = set_active (<[key := Some (offset ⊕ blen data)]> (active_leases w))
           (set_cache (snd (cache_insert (cache w) key offset data)) w)) as (He & _ & Hi & ->).
  { destruct x as [ex|]; [destruct (Z.eqb_spec offset ex) as [->|]; [|done]|]; simpl in E;
      destruct (cache_insert (cache w) key _ data) as [[[]|] c]; try done; by injection E as <-. }
  destruct (cache_insert (cache w) key offset data) as [r c] eqn:Ec. simpl in Hi. subst r.
  destruct (cache_insert_ok _ _ _ _ _ (wi_cache _ _ I) Hd Ec) as (Wc & Ht & Hother & start & Lk & Ho & Hsome & Hnone).
  assert (agrees start (buffered (cache w) key) /\ offset = start + blen (buffered (cache w) key)) as [As Hoff].
  { unfold buffered in *. destruct (cache_pieces (cache w) !! key) as [e|] eqn:L.
    - rewrite (Hsome e eq_refl) in *. pose proof (wi_agree _ _ I key e L) as Ae. split; [done|].
      destruct Ae as (? & ? & _). rewrite Ho, u64_add_exact by (unfold u64_max, blen in *; lia). done.
    - rewrite (Hnone eq_refl) in *. destruct Ha as (? & ? & _). split; [|unfold blen; simpl; lia].
      split_and!; [done|unfold blen in *; simpl in *; lia|]. intros i v H'. by rewrite lookup_nil in H'. }
  assert (agrees start (buffered (cache w) key ++ data)) as Aall by (apply agrees_app; [done|by rewrite <- Hoff]).
  simpl. split_and!; try done.
  - split; simpl; try apply I; try done.
    + intros k e L. destruct (decide (k = key)) as [->|Hne].
      * rewrite Lk in L. injection L as <-. done.
      * rewrite Hother in L by done. by apply (wi_agree _ _ I k).
    + intros k e L. destruct (decide (k = key)) as [->|Hne].
      * rewrite lookup_insert_eq. rewrite Lk in L. injection L as <-. simpl. do 2 f_equal.
        rewrite u64_add_exact by (destruct Ha as (? & ? & _); unfold u64_max, blen in *; lia).
        rewrite blen_app. lia.
      * rewrite lookup_insert_ne by done. rewrite Hother in L by done. by apply (wi_expected _ _ I).
    + intros [k|] b [H|[Hk H]]; simpl.
      * destruct (wi_delivered _ _ I (Some k) b H) as [(e & L & Hb)|G]; [left|by right].
        destruct (decide (k = key)) as [->|Hne].
        -- eexists. split; [exact Lk|]. simpl. apply in_block_app. left.
           unfold buffered. rewrite L. by rewrite (Hsome e L).
        -- exists e. by rewrite Hother.
      * injection Hk as ->. left. eexists. split; [exact Lk|]. simpl. apply in_block_app. right. by rewrite <- Hoff.
      * destruct (wi_delivered _ _ I None b H) as [G|G]; [by left|by right].
      * done.
  - unfold advanced. rewrite bool_decide_eq_false_2, bool_decide_eq_true_2 by (done || by eexists). simpl.
    destruct Ha as (? & ? & _). by rewrite u64_add_exact by (unfold u64_max, blen in *; lia).
  - intros k. unfold buffered at 1. destruct (decide (k = key)) as [->|Hne].
    + rewrite Lk. simpl. by rewrite length_app.
    + rewrite Hother by done. unfold buffered. lia.
Qed.

(** Everything but the buffer without leases and its permits is as before. *)
Definition same_leases (w w' : WriterTask) : Prop :=
  cache w' = cache w /\ active_leases w' = active_leases w.

Lemma WInv_retain delivered w keep : WInv delivered w -> WInv delivered (retain_permits keep w).
Proof. intros []. by split. Qed.

(** Adding bytes that are already in the file, or now buffered. *)
Lemma WInv_sent delivered w key offset data :
  WInv delivered w -> (forall b, in_block offset data b -> Holds w key b \/ good w b) ->
  WInv (sent delivered key offset data) w.
Proof.
  intros [? ? ? ? ? ? ? ? Hdl] H. split; try done. intros k b [Hb|[-> Hb]]; [by apply Hdl|by apply H].
Qed.

Lemma write_block_inv delivered w w' offset data :
  WInv delivered w -> agrees offset data -> data <> [] -> write_block offset data w = (Ok tt, w') ->
  WInv (sent delivered None offset data) w' /\ Wrote w w' /\ same_buffers w w'.
Proof.
  intros I Ha Hd E. destruct (write_block_spec _ _ _ _ Ha Hd (wi_inflight _ _ I) (wi_pos _ _ I) E) as (R & (B1 & B2 & B3 & B4) & G).
  split_and!; try done. apply WInv_sent; [|intros b Hb; right; by apply G].
  apply (WInv_shrink delivered w); try done.
  - rewrite B1. apply I.
  - intros k e. by rewrite B1, B2.
  - by left.
  - intros [k|] b H; left; simpl in *; [by rewrite B1|by rewrite B3].
Qed.

(** A chunk that continues the buffer is appended to it. *)
Lemma append_single_inv delivered w offset data :
  WInv delivered w -> agrees offset data -> data <> [] ->
  (forall o d, single w = Some (o, d) -> o + blen d = offset) ->
  let start := (default (offset, []) (single w)).1 in
  let buffered := (default (offset, []) (single w)).2 in
  WInv (sent delivered None offset data) (set_single (Some (start, buffered ++ data)) w).
Proof.
  intros I Ha Hd Hc start buffered.
  assert (agrees start buffered /\ start + blen buffered = offset) as [As Ho].
  { subst start buffered. destruct (single w) as [[o d]|] eqn:Es; simpl.
    - split; [by apply (wi_single _ _ I o d)|by apply Hc].
    - unfold blen. simpl. split; [|lia]. destruct Ha as (? & ? & _). split_and!; [done|unfold blen in *; simpl; lia|].
      intros i v Hn. by rewrite lookup_nil in Hn. }
  split; simpl; try apply I.
  - intros o d [= <- <-]. split; [apply agrees_app; [done|by rewrite Ho]|by destruct buffered].
  - intros key b Hb. destruct Hb as [Hb|[-> Hb]].
    + destruct (wi_delivered _ _ I key b Hb) as [H|H]; [left|by right]. destruct key as [k|]; [exact H|].
      destruct H as (o & d & Es & Hb'). exists start, (buffered ++ data). split; [done|].
      apply in_block_app. left. subst start buffered. rewrite Es. done.
    + left. exists start, (buffered ++ data). split; [done|]. apply in_block_app. right. by rewrite Ho.
Qed.

Lemma buffer_single_spec delivered w w' offset data :
  WInv delivered w -> agrees offset data ->
  (data <> [] -> forall o d, single w = Some (o, d) -> o + blen d = offset) ->
  buffer_single offset data w = (Ok tt, w') ->
  WInv (sent delivered None offset data) w' /\ Wrote w w' /\ same_leases w w' /\
  ((single w' = None /\ permits w' = filter (fun p => is_leased p.1 = true) (permits w)) \/
   (single_bytes w' = (single_bytes w + length data)%nat /\ permits w' = permits w)).
Proof.
  intros I Ha Hc E. unfold buffer_single in E. destruct (decide (data = [])) as [->|Hd].
  { rewrite bool_decide_eq_true_2 in E by done. injection E as <-.
    split_and!; [by apply WInv_sent_nil|reflexivity|done|right]. simpl. split; [lia|done]. }
  rewrite bool_decide_eq_false_2 in E by done. specialize (Hc Hd).
  apply res_bind_Ok in E as (w0 & w1 & [= -> ->] & E).
  destruct (Z.min SINGLE_BATCH (Z.of_nat (cache_high_watermark w1)) <=? blen data).
  - apply res_bind_Ok in E as ([] & w2 & E2 & E). apply res_bind_Ok in E as ([] & w3 & E3 & [= <-]).
    destruct (flush_single_spec _ _ _ I E2) as (I2 & R2 & S2 & C2 & A2 & P2 & _).
    destruct (write_block_inv _ _ _ _ _ I2 Ha Hd E3) as (I3 & R3 & (B1 & B2 & B3 & B4)).
    split_and!; [by apply WInv_retain| | |left].
    + etrans; [exact R2|]. destruct R3. by split.
    + split; simpl; congruence.
    + simpl. split; [congruence|]. by rewrite B4, P2.
  - pose proof (append_single_inv _ _ _ _ I Ha Hd Hc) as I2. simpl in I2.
    unfold res_bind, update_state, read_state in E.
    assert (single_bytes (set_single (Some ((default (offset, []) (single w1)).1,
      (default (offset, []) (single w1)).2 ++ data)) w1) = (single_bytes w1 + length data)%nat) as Hn
      by (unfold single_bytes; simpl; destruct (single w1) as [[??]|]; simpl; rewrite ?length_app; done).
    destruct (default (offset, []) (single w1)) as [start buffered]. cbn [fst snd] in I2, Hn.
    set (w2 := set_single (Some (start, buffered ++ data)) w1) in *.
    destruct (SINGLE_BATCH <=? Z.of_nat (single_bytes w2)).
    + destruct (flush_single w2) as [[[]|] w3] eqn:E3; [|done]. injection E as <-.
      destruct (flush_single_spec _ _ _ I2 E3) as (I3 & R3 & S3 & C3 & A3 & P3 & _).
      split_and!; [by apply WInv_retain|destruct R3; by split|done|left]. simpl. split; [done|by rewrite P3].
    + injection E as <-. split_and!; [done|by split|done|right]. done.
Qed.
End Object.
