(* ===== verification/WriterProps.v ===== *)
(** * What the writer task promises

    The command loop against a ledger of what was handed to it: an acknowledged
    flush means the file has accepted the bytes (and, after a sync, that they are
    durable), and the buffered bytes are covered by budget permits and bounded by
    the watermark. *)

From S2P Require Import Prelude RustStr Segment Errors Cache Writer WriterInv.

(** ** Permits *)

Definition permit_sum (key : option LeaseKey) (l : list (option LeaseKey * nat)) : nat :=
  foldr (fun p acc => if decide (p.1 = key) then p.2 + acc else acc)%nat 0%nat l.

Definition permit_total (l : list (option LeaseKey * nat)) : nat := foldr (fun p acc => p.2 + acc)%nat 0%nat l.

(** The budget held is exactly the bytes buffered, lease by lease. *)
Record Acct (w : WriterTask) : Prop := {
  ac_lease : forall k, permit_sum (Some k) (permits w) = length (buffered (cache w) k);
  ac_single : permit_sum None (permits w) = single_bytes w;
  ac_total : permit_total (permits w) = (total_bytes (cache w) + single_bytes w)%nat;
}.

Lemma permit_sum_snoc key l p :
  permit_sum key (l ++ [p]) = (permit_sum key l + if decide (p.1 = key) then p.2 else 0)%nat.
Proof. induction l as [|q l IH]; simpl; repeat case_decide; simpl in *; lia. Qed.

Lemma permit_total_snoc l p : permit_total (l ++ [p]) = (permit_total l + p.2)%nat.
Proof. induction l as [|q l IH]; simpl in *; lia. Qed.

(** Dropping exactly the permits of [k]. *)
Lemma permit_retain k keep l :
  (forall k', keep k' = false <-> k' = k) ->
  permit_sum k (filter (fun p => keep p.1 = true) l) = 0%nat /\
  (forall k', k' <> k -> permit_sum k' (filter (fun p => keep p.1 = true) l) = permit_sum k' l) /\
  permit_total l = (permit_total (filter (fun p => keep p.1 = true) l) + permit_sum k l)%nat.
Proof.
  intros Hk. induction l as [|[q n] l (IH1 & IH2 & IH3)]; [done|].
  rewrite filter_cons. simpl. destruct (decide (q = k)) as [->|Hne].
  - rewrite decide_False by (rewrite (proj2 (Hk k) eq_refl); done). split_and!; [done| |simpl in *; lia].
    intros k' Hk'. rewrite IH2 by done. by rewrite decide_False by congruence.
  - rewrite decide_True by (destruct (keep q) eqn:E; [done|by apply Hk in E]). simpl.
    rewrite decide_False by done. split_and!; [done| |lia]. intros k' Hk'. by rewrite IH2.
Qed.

Lemma other_than_false k k' : other_than k k' = false <-> k' = Some k.
Proof. unfold other_than. case_bool_decide; simpl; split; congruence. Qed.

Lemma is_leased_false k' : is_leased k' = false <-> k' = None.
Proof. destruct k'; simpl; split; congruence. Qed.

(** Dropping the permits of the emptied buffer. *)
Lemma Acct_drop_single w w' :
  Acct w -> cache w' = cache w -> single w' = None ->
  permits w' = filter (fun p => is_leased p.1 = true) (permits w) -> Acct w'.
Proof.
  intros [A1 A2 A3] Hc Hs Hp. destruct (permit_retain None is_leased (permits w) is_leased_false) as (P1 & P2 & P3).
  assert (single_bytes w' = 0%nat) as Hz by (unfold single_bytes; by rewrite Hs).
  split; rewrite ?Hp, ?Hc, ?Hz; [intros k; by rewrite P2|done|lia].
Qed.

Lemma Acct_drop_lease w w' k :
  Acct w -> single w' = single w ->
  (forall k', k' <> k -> buffered (cache w') k' = buffered (cache w) k') -> buffered (cache w') k = [] ->
  total_bytes (cache w) = (total_bytes (cache w') + length (buffered (cache w) k))%nat ->
  permits w' = filter (fun p => other_than k p.1 = true) (permits w) -> Acct w'.
Proof.
  intros [A1 A2 A3] Hs Ho Hk Ht Hp.
  destruct (permit_retain (Some k) (other_than k) (permits w) (other_than_false k)) as (P1 & P2 & P3).
  assert (single_bytes w' = single_bytes w) as Hz by (unfold single_bytes; by rewrite Hs).
  split; rewrite ?Hp, ?Hz.
  - intros k'. destruct (decide (k' = k)) as [->|Hne]; [by rewrite P1, Hk|]. rewrite P2 by congruence. by rewrite Ho.
  - by rewrite P2.
  - rewrite (A1 k) in P3. lia.
Qed.

Lemma Acct_empty w : cache w = cache_new -> single w = None -> permits w = [] -> Acct w.
Proof.
  intros Hc Hs Hp. assert (single_bytes w = 0%nat) as Hz by (unfold single_bytes; by rewrite Hs).
  split; rewrite ?Hp, ?Hc, ?Hz; [|done|done].
  intros k. unfold buffered. simpl. by rewrite lookup_empty.
Qed.

(** ** The data command *)

Section Object.
  Context (obj : Z -> Z).

Definition flush_stale (offset : Z) (data : bytes) (lease_key : option LeaseKey) : WriterM unit := fun w =>
  (if negb (bool_decide (data = [])) &&
      match single w with
      | Some (start, buffered) => is_leased lease_key || negb (start ⊕ blen buffered =? offset)
      | None => false
      end
   then flush_single ;! update_state (retain_permits is_leased)
   else ok tt) w.

(** Before the chunk is taken, the buffer without leases is either empty or continued by it. *)
Lemma flush_stale_spec delivered w w' offset data key :
  WInv obj delivered w -> flush_stale offset data key w = (Ok tt, w') ->
  WInv obj delivered w' /\ Wrote obj w w' /\ same_leases w w' /\ (Acct w -> Acct w') /\
  (data <> [] -> key = None -> forall o d, single w' = Some (o, d) -> o + blen d = offset).
Proof.
  intros I E. unfold flush_stale in E.
  destruct (negb (bool_decide (data = [])) && _) eqn:C.
  - apply res_bind_Ok in E as ([] & w1 & E1 & [= <-]).
    destruct (flush_single_spec _ _ _ _ I E1) as (I1 & R1 & S1 & C1 & A1 & P1 & _).
    split_and!; [by apply WInv_retain|destruct R1; by split|done| |].
    + intros A. apply (Acct_drop_single w); simpl; [done|done|done|by rewrite P1].
    + intros _ _ o d. simpl. by rewrite S1.
  - injection E as <-. split_and!; [done|reflexivity|done|done|]. intros Hd -> o d Es. rewrite Es in C.
    rewrite bool_decide_eq_false_2 in C by done. simpl in C. apply negb_false_iff, Z.eqb_eq in C.
    destruct (wi_single _ _ _ I o d Es) as [(? & ? & _) _]. rewrite u64_add_exact in C by (unfold u64_max, blen in *; lia). done.
Qed.

Definition grown (delivered : option LeaseKey -> Z -> Prop) (live : Prop) key offset data key' b : Prop :=
  delivered key' b \/ (live /\ key' = key /\ in_block offset data b).

Definition live_in (w : WriterTask) (key : option LeaseKey) : Prop :=
  match key with Some k => is_Some (active_leases w !! k) | None => True end.

Lemma WInv_mono (d1 d2 : option LeaseKey -> Z -> Prop) w :
  WInv obj d1 w -> (forall k b, d2 k b -> d1 k b) -> WInv obj d2 w.
Proof. intros [? ? ? ? ? ? ? ? Hd] H. split; try done. intros k b Hk. by apply Hd, H. Qed.

(** The chunk itself, with its permit already in the list. *)
Definition take_chunk (offset : Z) (data : bytes) (lease_key : option LeaseKey) : WriterM unit := fun w =>
  match lease_key with
  | Some key =>
      if bool_decide (is_Some (active_leases w !! key)) then lease_data key offset data
      else update_state (retain_permits (other_than key))
  | None => buffer_single offset data
  end w.

Definition with_permit (permit : option nat) (lease_key : option LeaseKey) (w : WriterTask) : WriterTask :=
  match permit with Some n => set_permits (permits w ++ [(lease_key, n)]) w | None => w end.

Lemma WInv_with_permit delivered w permit key :
  WInv obj delivered w -> WInv obj delivered (with_permit permit key w).
Proof. intros I. destruct permit; [|done]. destruct I. by split. Qed.

Lemma buffered_inactive delivered w k :
  WInv obj delivered w -> active_leases w !! k = None -> buffered (cache w) k = [].
Proof.
  intros I H. unfold buffered. destruct (cache_pieces (cache w) !! k) as [e|] eqn:L; [|done].
  rewrite (wi_expected _ _ _ I k e L) in H. done.
Qed.

Lemma take_chunk_spec delivered w w' offset data key n :
  WInv obj delivered w -> agrees obj offset data ->
  (data <> [] -> key = None -> forall o d, single w = Some (o, d) -> o + blen d = offset) ->
  take_chunk offset data key (with_permit n key w) = (Ok tt, w') ->
  WInv obj (grown delivered (live_in w key) key offset data) w' /\ Wrote obj w w' /\
  active_leases w' = advanced key offset data (active_leases w) /\
  (n = Some (length data) -> Acct w -> Acct w').
Proof.
  intros I Ha Hc E. pose proof (WInv_with_permit _ _ n key I) as Ip.
  assert (active_leases (with_permit n key w) = active_leases w /\ cache (with_permit n key w) = cache w /\
    single (with_permit n key w) = single w /\ Wrote obj w (with_permit n key w)) as (Ea & Ecc & Es & Rp)
    by (destruct n; by split_and!).
  unfold take_chunk in E. rewrite Ea in E. destruct key as [k|]; simpl live_in.
  - case_bool_decide as D.
    + destruct D as [x Hx].
      destruct (lease_data_spec obj delivered _ w' k offset data x Ip ltac:(by rewrite Ea) Ha E)
        as (I' & Ef & Ei & Es' & Ep & Em & Ed & Eb & Et). rewrite Ecc in *.
      split_and!; [| |by rewrite Ed, Ea|].
      * apply (WInv_mono _ _ _ I'). intros k' b [?|(_ & ? & ?)]; [by left|by right].
      * etrans; [exact Rp|]. split; unfold good, landed, accepted; rewrite ?Ef, ?Ei; try done; intros _; apply I'.
      * intros -> [A1 A2 A3]. simpl in Ep, Es'.
        assert (single_bytes w' = single_bytes w) as Hz by (unfold single_bytes; by rewrite Es').
        split; rewrite ?Ep, ?Hz, ?permit_sum_snoc, ?permit_total_snoc; simpl.
        -- intros k'. rewrite permit_sum_snoc, Eb, A1. simpl. repeat case_decide; congruence || lia.
        -- rewrite A2. lia.
        -- rewrite A3, Et. lia.
    + injection E as <-. split_and!.
      * apply WInv_retain. apply (WInv_mono _ _ _ Ip). intros k' b [?|(L & _)]; [done|contradiction].
      * destruct Rp. by split.
      * simpl. rewrite Ea. by rewrite (bool_decide_eq_false_2 (is_Some _)), orb_true_r by done.
      * intros -> A. apply not_eq_None_Some, dec_stable in D || apply eq_None_not_Some in D.
        pose proof (buffered_inactive _ _ _ I D) as Hb.
        destruct (permit_retain (Some k) (other_than k) (permits w ++ [(Some k, length data)]) (other_than_false k)) as (P1 & P2 & P3).
        destruct A as [A1 A2 A3]. rewrite permit_total_snoc, permit_sum_snoc in P3. simpl in P3.
        rewrite decide_True, A1, Hb in P3 by done. split; simpl; unfold single_bytes in *; simpl.
        -- intros k'. destruct (decide (k' = k)) as [->|Hne]; [by rewrite P1, Hb|].
           rewrite P2, permit_sum_snoc by congruence. simpl. rewrite decide_False, A1 by congruence. lia.
        -- rewrite P2, permit_sum_snoc by done. simpl. rewrite A2. lia.
        -- simpl in P3. lia.
  - destruct (buffer_single_spec obj delivered _ w' offset data Ip Ha ltac:(rewrite Es; auto) E)
      as (I' & R' & [L1 L2] & Hs).
    split_and!; [|by etrans|by rewrite L2, Ea|].
    + apply (WInv_mono _ _ _ I'). intros k' b [?|(_ & ? & ?)]; [by left|by right].
    + intros -> A. destruct Hs as [[Hs Hp]|[Hs Hp]].
      * apply (Acct_drop_single w); [done|congruence|done|]. rewrite Hp. simpl.
        rewrite filter_app. apply app_nil_r.
      * destruct A as [A1 A2 A3]. simpl in Hp. unfold single_bytes in Hs. rewrite Es in Hs.
        split; rewrite ?Hp, ?permit_sum_snoc, ?permit_total_snoc; simpl.
        -- intros k. rewrite permit_sum_snoc, L1, Ecc, A1. simpl. lia.
        -- unfold single_bytes in *. rewrite A2. lia.
        -- unfold single_bytes in *. rewrite A3, L1, Ecc. lia.
Qed.

Definition below_watermark (w : WriterTask) : Prop :=
  (total_bytes (cache w) + single_bytes w < Nat.max 1 (cache_high_watermark w))%nat.

Lemma below_watermark_empty w : cache w = cache_new -> single w = None -> below_watermark w.
Proof. intros Hc Hs. unfold below_watermark, single_bytes. rewrite Hc, Hs. simpl. lia. Qed.

Lemma handle_data_unfold offset data permit key w :
  handle_data offset data permit key w =
  (flush_stale offset data key ;!
   (fun w => (if negb (is_leased key) && (0 <? total_bytes (cache w))%nat then flush_all else ok tt) w) ;!
   (fun w => take_chunk offset data key (with_permit permit key w)) ;!
   (fun w => (if (cache_high_watermark w <=? total_bytes (cache w) + single_bytes w)%nat
              then flush_all else ok tt) w)) w.
Proof.
  unfold handle_data, flush_stale, take_chunk, with_permit, res_bind, read_state, update_state.
  destruct permit, key; reflexivity.
Qed.

(** An optional [flush_all]. *)
Lemma maybe_flush_all_spec delivered w w' (c : bool) :
  WInv obj delivered w -> (if c then flush_all else ok tt) w = (Ok tt, w') ->
  WInv obj delivered w' /\ Wrote obj w w' /\ active_leases w' = active_leases w /\ (Acct w -> Acct w') /\
  (single w' = None \/ single w' = single w) /\
  (c = true -> cache w' = cache_new /\ single w' = None) /\ (c = false -> w' = w).
Proof.
  intros I E. destruct c.
  - destruct (flush_all_spec _ _ _ _ I E) as (I' & R & C & A & S & P & _).
    split_and!; try done; [|by left]. intros _. by apply Acct_empty.
  - injection E as <-. split_and!; try done. by right.
Qed.

Lemma handle_data_spec delivered w w' offset data permit key :
  WInv obj delivered w -> agrees obj offset data -> handle_data offset data permit key w = (Ok tt, w') ->
  WInv obj (grown delivered (live_in w key) key offset data) w' /\ Wrote obj w w' /\
  active_leases w' = advanced key offset data (active_leases w) /\
  (permit = Some (length data) -> Acct w -> Acct w') /\ below_watermark w'.
Proof.
  intros I Ha E. rewrite handle_data_unfold in E.
  apply res_bind_Ok in E as ([] & w1 & E1 & E). apply res_bind_Ok in E as ([] & w2 & E2 & E).
  apply res_bind_Ok in E as ([] & w3 & E3 & E4).
  destruct (flush_stale_spec _ _ _ _ _ _ I E1) as (I1 & R1 & [C1 A1] & Q1 & H1).
  edestruct (maybe_flush_all_spec _ _ _ _ I1 E2) as (I2 & R2 & A2 & Q2 & S2 & _ & _).
  destruct (take_chunk_spec _ _ _ _ _ _ _ I2 Ha ltac:(intros ???? Es; apply H1; [done..|];
    destruct S2 as [S2|S2]; congruence) E3) as (I3 & R3 & A3 & Q3).
  edestruct (maybe_flush_all_spec _ _ _ _ I3 E4) as (I4 & R4 & A4 & Q4 & _ & F4 & G4).
  assert (active_leases w2 = active_leases w) as A by congruence.
  split_and!.
  - apply (WInv_mono _ _ _ I4). intros k b [?|(L & ? & ?)]; [by left|right]. split_and!; try done.
    unfold live_in in *. by rewrite A.
  - by do 3 (etrans; [eassumption|]).
  - congruence.
  - auto.
  - destruct (cache_high_watermark w3 <=? total_bytes (cache w3) + single_bytes w3)%nat eqn:D.
    + destruct (F4 eq_refl). by apply below_watermark_empty.
    + rewrite (G4 eq_refl). apply Nat.leb_gt in D. unfold below_watermark. lia.
Qed.

(** ** The command loop *)

(** What the clients of the writer can rely on: the offset each live lease
    expects next, and the bytes handed over for each lease since it began. *)
Record Ledger := mkLedger {
  ld_next : gmap LeaseKey (option Z);
  ld_sent : option LeaseKey -> Z -> Prop;
}.

Definition ledger_new : Ledger := mkLedger ∅ (fun _ _ => False).

Definition forget (k : LeaseKey) (sent : option LeaseKey -> Z -> Prop) (key : option LeaseKey) (b : Z) : Prop :=
  key <> Some k /\ sent key b.

Definition ledger_step (l : Ledger) (cmd : WriterCommand) : Ledger :=
  match cmd with
  | BeginLease k => mkLedger (<[k := None]> (ld_next l)) (forget k (ld_sent l))
  | Data offset data _ key =>
      mkLedger (advanced key offset data (ld_next l))
        (grown (ld_sent l) (match key with Some k => is_Some (ld_next l !! k) | None => True end) key offset data)
  | FlushLease k => mkLedger (delete k (ld_next l)) (ld_sent l)
  | DiscardLease k => mkLedger (delete k (ld_next l)) (forget k (ld_sent l))
  | FlushAll _ => l
  end.

(** Commands a client may send: bytes of the object, and a lease begins once at a time. *)
Definition cmd_ok (l : Ledger) (cmd : WriterCommand) : Prop :=
  match cmd with
  | BeginLease k => ld_next l !! k = None
  | Data offset data _ _ => agrees obj offset data
  | _ => True
  end.

Fixpoint cmds_ok (l : Ledger) (cmds : list WriterCommand) : Prop :=
  match cmds with
  | [] => True
  | cmd :: cmds => cmd_ok l cmd /\ cmds_ok (ledger_step l cmd) cmds
  end.

Definition permit_ok (cmd : WriterCommand) : Prop :=
  match cmd with Data _ data permit _ => permit = Some (length data) | _ => True end.

(** The writer agrees with the ledger. *)
Definition Tracks (l : Ledger) (w : WriterTask) : Prop := WInv obj (ld_sent l) w /\ active_leases w = ld_next l.

(** What an acknowledgement means, in the state in which it is sent. *)
Definition ack_means (l : Ledger) (cmd : WriterCommand) (a : Ack) (w' : WriterTask) : Prop :=
  match cmd with
  | BeginLease _ | Data _ _ _ _ => a = NoAck
  | FlushLease k => a = LeaseFlushed /\ forall b, ld_sent l (Some k) b -> good obj w' b
  | DiscardLease _ => exists n, a = Discarded n
  | FlushAll sync => a = AllFlushed (written_bytes w') sync /\
      forall key b, ld_sent l key b ->
        good obj w' b /\ (sync = true -> durable (file w') b = Some (obj b))
  end.

(** A step of the file, whatever its outcome: it may also sync, and it may lose what
    was in flight, but nothing that is in the file. *)
Record Advanced (w w' : WriterTask) : Prop := {
  ad_landed : forall b, landed obj w b -> landed obj w' b;
  ad_inflight : inflight_ok obj w -> inflight_ok obj w';
  ad_durable : forall b, durable (file w) b = Some (obj b) -> durable (file w') b = Some (obj b);
  ad_watermark : cache_high_watermark w' = cache_high_watermark w;
}.

#[local] Instance Advanced_preorder : PreOrder Advanced.
Proof. split; [by split|]. intros w1 w2 w3 [] []. split; auto; congruence. Qed.

(** A step that succeeds loses nothing. *)
Record Carried (w w' : WriterTask) : Prop := {
  cr_advanced : Advanced w w';
  cr_good : forall b, good obj w b -> good obj w' b;
}.

#[export] Instance Carried_preorder : PreOrder Carried.
Proof. split; [by split|]. intros w1 w2 w3 [] []. split; [by etrans|auto]. Qed.

Lemma Wrote_Carried w w' : Wrote obj w w' -> Carried w w'.
Proof. intros [? ? ? ? ? D ?]. split; [|done]. split; try done. intros b. by rewrite D. Qed.

Lemma Wrote_Advanced w w' : Wrote obj w w' -> Advanced w w'.
Proof. intros R. apply Wrote_Carried, R. Qed.

Lemma Called_Advanced w w' : Called obj w w' -> Advanced w w'.
Proof. intros [? ? ? D ? ?]. split; try done. intros b. by rewrite D. Qed.

Lemma dropped_spec w : inflight_ok obj w -> Advanced w (dropped w).
Proof.
  intros Hi. destruct (complete_inflight_spec obj w Hi) as (e & w' & E & C & _). unfold dropped. rewrite E. by apply Called_Advanced.
Qed.

Lemma file_flush_spec w w' :
  inflight_ok obj w -> file_flush w = (Ok tt, w') ->
  Called obj w w' /\ inflight w' = None /\ write_err w' = None /\ cursor (file w') = cursor (file w) /\
  forall b, contents (file w') b = accepted w b.
Proof.
  intros Hi E. destruct (report_error_spec obj _ w w' Hi E) as (C & Hc & H). destruct (H tt eq_refl) as (N & We & _ & A). by split_and!.
Qed.

(** A sync after a flush. *)
Lemma file_sync_spec w w' : inflight w = None -> file_sync w = (Ok tt, w') -> same_buffers w w' /\
  inflight w' = None /\ write_err w' = write_err w /\
  file w' = mkFile (contents (file w)) (contents (file w)) (cursor (file w)) /\
  file_offset w' = file_offset w /\ cache_high_watermark w' = cache_high_watermark w /\ written_bytes w' = written_bytes w.
Proof.
  intros Hn. unfold file_sync, complete_inflight, res_bind, read_state, update_state, next_io. rewrite Hn. simpl.
  destruct (default IoOk (head (io w))); [|done]. by intros [= <-].
Qed.

(** After a sync everything that was accepted is durable. *)
Lemma sync_file_spec delivered w w' :
  WInv obj delivered w -> sync_file w = (Ok tt, w') ->
  WInv obj delivered w' /\ Carried w w' /\ same_buffers w w' /\ inflight w' = None /\ written_bytes w' = written_bytes w /\
  durable (file w') = contents (file w') /\ (forall b, contents (file w') b = accepted w b).
Proof.
  intros I E. unfold sync_file in E. apply res_bind_Ok in E as ([] & w1 & E1 & E2).
  destruct (file_flush_spec w w1 (wi_inflight _ _ _ I) E1) as ([(A1 & A2 & A3 & A4) L1 _ D1 O1 W1 M1] & N1 & We1 & C1 & Hc).
  destruct (file_sync_spec w1 w' N1 E2) as ((B1 & B2 & B3 & B4) & N2 & We2 & F2 & O2 & M2 & W2).
  assert (forall b, contents (file w') b = accepted w b) as Hc' by (by rewrite F2).
  assert (forall b, good obj w b -> good obj w' b) as Hg by (intros b Hb; unfold good, accepted; rewrite N2, Hc'; done).
  assert (forall b, landed obj w b -> landed obj w' b) as Hl
    by (intros b Hb; unfold landed; rewrite Hc'; by apply (landed_good obj w b (wi_inflight _ _ _ I))).
  assert (inflight_ok obj w') as Hi by (intros o d; by rewrite N2).
  assert (forall b, durable (file w') b = Some (obj b) -> landed obj w' b) as Hd by (unfold landed; by rewrite F2).
  split; [|split; [|split; [by etrans; [|split_and!; eassumption]|split_and!; [done|congruence|by rewrite F2|done]]]].
  - destruct I as [I1 I2 I3 I4 I5 I6 I7 I8 I9]. split; rewrite ?B1, ?A1, ?B2, ?A2, ?B3, ?A3; try done; try congruence.
    + intros o Ho. rewrite F2. simpl. rewrite C1. apply I5. congruence.
    + intros key b Hb. destruct (I9 key b Hb) as [H|H]; [left|right; by apply Hg].
      unfold Holds in *. by rewrite B1, A1, B3, A3.
  - split; [|done]. split; try done; [|congruence]. intros b Hb. apply (wi_durable _ _ _ I) in Hb. rewrite F2. simpl.
    rewrite Hc. by apply (landed_good obj w b (wi_inflight _ _ _ I)).
Qed.

Lemma WInv_forget delivered w w' k :
  WInv obj delivered w -> cache_pieces (cache w') = delete k (cache_pieces (cache w)) -> Cache_wf (cache w') ->
  single w' = single w -> file w' = file w -> inflight w' = inflight w -> write_err w' = write_err w ->
  file_offset w' = file_offset w ->
  (forall k', k' <> k -> active_leases w' !! k' = active_leases w !! k') ->
  WInv obj (forget k delivered) w'.
Proof.
  intros [I1 I2 I3 I4 I5 Ii Ie I6 I7] Hc Wc Hs Hf Hi He Ho Ha. unfold pos_ok, inflight_ok, good, landed, accepted in *.
  split; unfold pos_ok, inflight_ok, good, landed, accepted; rewrite ?Hs, ?Hf, ?Ho, ?Hi, ?He; try done.
  - intros k' e. rewrite Hc. intros [_ L]%lookup_delete_Some. by apply (I2 k').
  - intros k' e. rewrite Hc. intros [Hne L]%lookup_delete_Some. rewrite Ha by done. by apply I3.
  - intros key b [Hk Hd]. destruct (I7 key b Hd) as [H|H]; [left|by right]. destruct key as [k'|]; simpl in *.
    + rewrite Hc. rewrite lookup_delete_ne by congruence. done.
    + by rewrite Hs.
Qed.

Lemma not_cached delivered w k :
  WInv obj delivered w -> active_leases w !! k = None -> cache_pieces (cache w) !! k = None.
Proof.
  intros I H. destruct (cache_pieces (cache w) !! k) as [e|] eqn:L; [|done].
  by rewrite (wi_expected _ _ _ I k e L) in H.
Qed.

Lemma handle_spec l cmd a w w' :
  Tracks l w -> cmd_ok l cmd -> handle cmd w = (Ok a, w') ->
  Tracks (ledger_step l cmd) w' /\ Carried w w' /\ ack_means l cmd a w' /\
  (permit_ok cmd -> Acct w -> below_watermark w -> Acct w' /\ below_watermark w').
Proof.
  intros [I Hact] Hok E. destruct cmd as [k|offset data permit key|k|k|sync]; simpl in E.
  - injection E as <- <-. simpl in Hok. rewrite <- Hact in Hok.
    pose proof (not_cached _ _ _ I Hok) as Hn. split_and!; [|by split|done|].
    + split; [|by simpl; rewrite Hact]. apply (WInv_forget _ w); simpl; try done; [by rewrite delete_id|apply I|].
      intros k' Hne. by rewrite lookup_insert_ne.
    + intros _ []. by repeat split.
  - apply res_bind_Ok in E as ([] & w1 & E1 & [= <- <-]).
    destruct (handle_data_spec _ _ _ _ _ _ _ I Hok E1) as (I' & R & A & Q & B).
    split_and!; [|by apply Wrote_Carried|done|by intros; split; auto].
    split; simpl; [|by rewrite A, Hact]. unfold live_in in I'. by rewrite Hact in I'.
  - apply res_bind_Ok in E as ([] & w1 & E1 & [= <- <-]).
    destruct (flush_lease_spec _ _ _ _ _ I E1) as (I' & R & C & A & S & T & P & G).
    split_and!; [| |split; [done|]|].
    + split; [|by simpl; rewrite A, Hact]. destruct I' as [I1 I2 I3 I4 I5 I6 I7 I8 I9]. split; try done.
      intros k' e L. simpl in *. rewrite lookup_delete_ne by (intros <-; rewrite C, lookup_delete_eq in L; done).
      by apply I3.
    + apply Wrote_Carried in R as [[] ?]. by split.
    + intros b Hb. destruct (wi_delivered _ _ _ I _ _ Hb) as [H|H]; [by apply G|by apply (wr_good _ _ _ R)].
    + intros _ Ac Bw. split.
      * apply (Acct_drop_lease w _ k); simpl; try done; unfold buffered; rewrite C; [|by rewrite lookup_delete_eq].
        intros k' Hne. by rewrite lookup_delete_ne.
      * unfold below_watermark, single_bytes in *. simpl. rewrite S, (wr_watermark _ _ _ R). lia.
  - unfold res_bind, update_state, read_state in E. simpl in E.
    destruct (discard_lease (cache w) k) as [n c] eqn:D. injection E as <- <-.
    destruct (discard_lease_spec _ _ _ _ (wi_cache _ _ _ I) D) as (Wc & C & N & T).
    split_and!; [|by split|by eexists|].
    + split; [|by simpl; rewrite Hact]. apply (WInv_forget _ w); simpl; try done.
      intros k' Hne. by rewrite lookup_delete_ne.
    + intros _ Ac Bw. split.
      * apply (Acct_drop_lease w _ k); simpl; try done; unfold buffered; rewrite ?C; [|by rewrite lookup_delete_eq|].
        -- intros k' Hne. by rewrite lookup_delete_ne.
        -- rewrite N in T. exact T.
      * unfold below_watermark, single_bytes in *. simpl. lia.
  - apply res_bind_Ok in E as ([] & w1 & E1 & E). apply res_bind_Ok in E as ([] & w2 & E2 & [= <- <-]).
    destruct (flush_all_spec _ _ _ _ I E1) as (I1 & R & C & A & S & P & G).
    assert (forall key b, ld_sent l key b -> good obj w1 b) as Hg.
    { intros key b Hb. destruct (wi_delivered _ _ _ I _ _ Hb) as [H|H]; [by apply (G key)|by apply (wr_good _ _ _ R)]. }
    assert (WInv obj (ld_sent l) w2 /\ Carried w1 w2 /\ same_buffers w1 w2 /\
      (sync = true -> forall b, good obj w1 b -> durable (file w2) b = Some (obj b))) as (I2 & R2 & (B1 & B2 & B3 & B4) & D).
    { destruct sync; [|injection E2 as <-; by split_and!].
      destruct (sync_file_spec _ _ _ I1 E2) as (? & ? & ? & _ & _ & Hd & Hc). split_and!; try done. intros _ b Hb. by rewrite Hd, Hc. }
    split_and!; [by split; simpl; congruence|etrans; [by apply Wrote_Carried|done]|split; [done|]|].
    + intros key b Hb. split; [by apply (cr_good _ _ R2), (Hg key)|]. intros Hs. apply D; [done|by apply (Hg key)].
    + intros _ _ _. split; [apply Acct_empty|apply below_watermark_empty]; congruence.
Qed.

(** ** Failing I/O

    Whatever the outcome of a command, bytes that are in the file stay: a write that
    fails half way leaves a prefix of a block of the object. *)

Lemma write_block_any offset data r w w' :
  agrees obj offset data -> data <> [] -> inflight_ok obj w -> pos_ok w -> write_block offset data w = (r, w') -> Advanced w w'.
Proof.
  intros Ha Hd Hi Hp E. destruct (write_block_calls obj _ _ _ _ _ Ha Hd Hi Hp E) as ((_ & L & I & D & M) & _).
  split; try done. intros b. by rewrite D.
Qed.

Lemma write_blocks_any blocks r w w' :
  Forall (fun b => agrees obj (block_offset b) (block_data b) /\ block_data b <> []) blocks -> inflight_ok obj w -> pos_ok w ->
  write_blocks blocks w = (r, w') -> Advanced w w'.
Proof.
  revert w. induction blocks as [|k blocks IH]; intros w HF Hi Hp E; simpl in E; [by injection E as _ <-|].
  apply Forall_cons_iff in HF as [[Hk Hd] HF]. apply res_bind_any in E as [([] & w1 & E1 & E2)|(e & E1 & _)].
  - destruct (write_block_spec obj _ _ _ _ Hk Hd Hi Hp E1) as (R & _ & _).
    etrans; [by apply Wrote_Advanced|]. apply IH; [done|by apply (wr_inflight _ _ _ R)|by apply (wr_pos _ _ _ R)|done].
  - by apply (write_block_any _ _ _ _ _ Hk Hd Hi Hp E1).
Qed.

Lemma flush_single_any delivered r w w' :
  WInv obj delivered w -> flush_single w = (r, w') -> Advanced w w'.
Proof.
  intros I E. unfold flush_single, res_bind, read_state, update_state in E.
  destruct (single w) as [[o d]|] eqn:Es; [|by injection E as _ <-].
  destruct (wi_single _ _ _ I o d Es) as [Ha Hd].
  assert (Advanced (set_single None w) w') as [] by (apply (write_block_any o d r); [done|done|apply I|apply I|done]).
  by split.
Qed.

(** Draining some entries of the cache. *)
Lemma drain_any delivered r w w' c blocks :
  WInv obj delivered w ->
  (forall x, x ∈ blocks -> exists k e, cache_pieces (cache w) !! k = Some e /\ x = block_of e) ->
  write_blocks blocks (set_cache c w) = (r, w') -> Advanced w w'.
Proof.
  intros I Hb E. assert (Advanced (set_cache c w) w') as []; [|by split].
  apply (write_blocks_any blocks r); [|apply I|apply I|done]. apply List.Forall_forall.
  intros x (k & e & L & ->)%list_elem_of_In%Hb. split; [by apply (wi_agree _ _ _ I k)|by apply (cw_nonempty _ (wi_cache _ _ _ I) k)].
Qed.

Lemma flush_lease_any delivered r w w' key :
  WInv obj delivered w -> flush_lease key w = (r, w') -> Advanced w w'.
Proof.
  intros I E. unfold flush_lease in E. apply res_bind_any in E as [(w0 & w1 & [= -> ->] & E)|(e & [=] & _)].
  destruct (drain_lease (cache w1) key) as [blocks c] eqn:D.
  destruct (drain_lease_spec _ _ _ _ (wi_cache _ _ _ I) D) as (_ & _ & _ & Hb).
  assert (forall x, x ∈ blocks -> exists k e, cache_pieces (cache w1) !! k = Some e /\ x = block_of e) as Hx.
  { intros x. rewrite Hb. destruct (cache_pieces (cache w1) !! key) as [e|] eqn:L; [|by intros ?%not_elem_of_nil].
    intros ->%list_elem_of_singleton. by exists key, e. }
  apply res_bind_any in E as [([] & w2 & [= <-] & E)|(e & [=] & _)].
  apply res_bind_any in E as [([] & w2 & E2 & [= _ <-])|(e & E2 & _)];
    pose proof (drain_any _ _ _ _ _ _ I Hx E2) as R; [destruct R; by split|done].
Qed.

Lemma flush_all_any delivered r w w' : WInv obj delivered w -> flush_all w = (r, w') -> Advanced w w'.
Proof.
  intros I E. unfold flush_all in E. apply res_bind_any in E as [([] & w1 & E1 & E)|(e & E1 & _)];
    [|by apply (flush_single_any _ _ _ _ I E1)].
  destruct (flush_single_spec obj _ _ _ I E1) as (I1 & R1 & _).
  etrans; [by apply Wrote_Advanced|]. apply res_bind_any in E as [(w0 & w2 & [= -> ->] & E)|(e & [=] & _)].
  pose proof (drain_all_spec (cache w2)) as Hd. destruct (drain_all (cache w2)) as [blocks c].
  simpl in Hd. destruct Hd as (_ & _ & Hin).
  apply res_bind_any in E as [([] & w3 & [= <-] & E)|(e & [=] & _)].
  apply res_bind_any in E as [([] & w3 & E2 & [= _ <-])|(e & E2 & _)];
    pose proof (drain_any _ _ _ _ _ _ I1 (fun x => proj1 (Hin x)) E2) as R; [destruct R; by split|done].
Qed.

Lemma maybe_flush_all_any delivered r w w' (c : bool) :
  WInv obj delivered w -> (if c then flush_all else ok tt) w = (r, w') -> Advanced w w'.
Proof. intros I E. destruct c; [by apply (flush_all_any _ _ _ _ I E)|by injection E as _ <-]. Qed.

(** A first part whose failure is covered, then the rest from its result. *)
Lemma bind_any {A B} (m : WriterM A) (k : A -> WriterM B) r w w' :
  (forall r1 w1, m w = (r1, w1) -> Advanced w w1) ->
  (forall x w1, m w = (Ok x, w1) -> forall w2, k x w1 = (r, w2) -> Advanced w1 w2) ->
  res_bind m k w = (r, w') -> Advanced w w'.
Proof.
  intros H1 H2 [(x & w1 & E1 & E2)|(e & E1 & _)]%res_bind_any; [|by apply (H1 _ _ E1)].
  etrans; [by apply (H1 _ _ E1)|by apply (H2 _ _ E1)].
Qed.

Lemma flush_stale_any delivered r w w' offset data key :
  WInv obj delivered w -> flush_stale offset data key w = (r, w') -> Advanced w w'.
Proof.
  intros I E. unfold flush_stale in E. destruct (negb _ && _); [|by injection E as _ <-].
  apply bind_any in E; [done|clear E|clear E]; [intros r1 w1; by apply (flush_single_any delivered)|].
  intros x w1 _ w2 [= _ <-]. by split.
Qed.

Lemma take_chunk_any delivered r w w' offset data key :
  WInv obj delivered w -> agrees obj offset data ->
  (data <> [] -> key = None -> forall o d, single w = Some (o, d) -> o + blen d = offset) ->
  take_chunk offset data key w = (r, w') -> Advanced w w'.
Proof.
  intros I Ha Hc E. unfold take_chunk in E. destruct key as [k|].
  - case_bool_decide; [|injection E as _ <-; by split].
    unfold lease_data in E. case_bool_decide; [by injection E as _ <-|].
    unfold res_bind, read_state, update_state, err, ok in E.
    destruct (active_leases w !! k) as [[ex|]|]; try destruct (negb (offset =? ex));
      try (destruct (cache_insert (cache w) k offset data) as [[]?]); injection E as _ <-; by split.
  - unfold buffer_single in E. case_bool_decide; [by injection E as _ <-|].
    unfold res_bind at 1, read_state in E.
    destruct (Z.min SINGLE_BATCH _ <=? blen data).
    + apply bind_any in E; [done|clear E|clear E]; [intros r1 w1; by apply (flush_single_any delivered)|]. intros [] w1 E1 w2 E2.
      destruct (flush_single_spec obj _ _ _ I E1) as (I1 & _).
      apply bind_any in E2; [done|clear E2|clear E2]; [intros r1 w3; apply write_block_any; [done|done|apply I1|apply I1]|].
      intros [] w3 _ w4 [= _ <-]. by split.
    + pose proof (append_single_inv obj _ _ _ _ I Ha ltac:(done) ltac:(auto)) as I1. simpl in I1.
      unfold res_bind at 1, update_state in E. destruct (default (offset, []) (single w)) as [start buf] eqn:Es.
      cbn [fst snd] in I1. unfold res_bind at 1, read_state in E. set (w1 := set_single (Some (start, buf ++ data)) w) in *.
      assert (Advanced w w1) as R by by split. destruct (SINGLE_BATCH <=? _); [|injection E as _ <-; done].
      etrans; [exact R|]. apply bind_any in E; [done|clear E|clear E]; [ |intros [] w2 _ w3 [= _ <-]; by split].
      intros r1 w2. by apply (flush_single_any _ _ _ _ I1).
Qed.

Lemma handle_data_any delivered r w w' offset data permit key :
  WInv obj delivered w -> agrees obj offset data -> handle_data offset data permit key w = (r, w') -> Advanced w w'.
Proof.
  intros I Ha E. rewrite handle_data_unfold in E.
  apply bind_any in E; [done|clear E|clear E]; [intros r1 w1; by apply (flush_stale_any delivered)|]. intros [] w1 E1 w1' E.
  destruct (flush_stale_spec _ _ _ _ _ _ I E1) as (I1 & _ & _ & _ & H1).
  apply bind_any in E; [done|clear E|clear E]; [intros r1 w2; by apply (maybe_flush_all_any delivered)|]. intros [] w2 E2 w2' E.
  edestruct (maybe_flush_all_spec _ _ _ _ I1 E2) as (I2 & _ & _ & _ & S2 & _ & _).
  assert (data <> [] -> key = None -> forall o d, single w2 = Some (o, d) -> o + blen d = offset) as H2
    by (intros ?? o d Es; apply H1; [done..|destruct S2; congruence]).
  apply bind_any in E; [done|clear E|clear E]; [ |].
  - intros r1 w3 E3. assert (Advanced (with_permit permit key w2) w3) as [].
    { eapply take_chunk_any; [by apply WInv_with_permit|done| |done]. by destruct permit. }
    destruct permit; by split.
  - intros [] w3 E3 w4 E4. destruct (take_chunk_spec _ _ _ _ _ _ _ I2 Ha H2 E3) as (I3 & _).
    by apply (maybe_flush_all_any _ _ _ _ _ I3 E4).
Qed.

Lemma file_flush_any r w w' : inflight_ok obj w -> file_flush w = (r, w') -> Advanced w w'.
Proof. intros Hi E. by destruct (report_error_spec obj _ _ _ Hi E) as (C%Called_Advanced & _). Qed.

Lemma file_sync_any r w w' :
  inflight_ok obj w -> (forall b, durable (file w) b = Some (obj b) -> landed obj w b) -> file_sync w = (r, w') -> Advanced w w'.
Proof.
  intros Hi Hd E. destruct (complete_inflight_spec obj w Hi) as (e & w1 & E1 & C1 & _).
  unfold file_sync, res_bind, update_state in E. rewrite E1 in E. unfold next_io in E. simpl in E.
  assert (Called obj w (keep_error e w1)) as C by (etrans; [exact C1|apply keep_error_called]).
  destruct (default IoOk (head (io (keep_error e w1)))); injection E as _ <-; destruct C as [_ L I D _ _ M]; split; try done; simpl.
  - intros b Hb. by apply L, Hd.
  - intros b. by rewrite D.
Qed.

Lemma sync_file_any delivered r w w' : WInv obj delivered w -> sync_file w = (r, w') -> Advanced w w'.
Proof.
  intros I E. apply bind_any in E; [done|clear E|clear E]; [intros ??; apply file_flush_any, I|].
  intros [] w1 E1 w2. destruct (file_flush_spec w w1 (wi_inflight _ _ _ I) E1) as (C & N & _).
  apply file_sync_any; [intros o d; by rewrite N|]. intros b. rewrite (ca_durable _ _ _ C). intros Hb.
  by apply (ca_landed _ _ _ C), (wi_durable _ _ _ I).
Qed.

Lemma handle_any l cmd r w w' :
  Tracks l w -> cmd_ok l cmd -> handle cmd w = (r, w') -> Advanced w w'.
Proof.
  intros [I _] Hok E. destruct cmd as [k|offset data permit key|k|k|sync]; simpl in E.
  - injection E as _ <-. by split.
  - apply bind_any in E; [done|clear E|clear E]; [intros ??; by apply (handle_data_any _ _ _ _ _ _ _ _ I Hok)|].
    intros [] w1 _ w2 [= _ <-]. by split.
  - apply bind_any in E; [done|clear E|clear E]; [intros ??; by apply (flush_lease_any _ _ _ _ _ I)|].
    intros [] w1 _ w2 [= _ <-]. by split.
  - unfold res_bind, update_state, read_state in E. simpl in E.
    destruct (discard_lease (cache w) k). injection E as _ <-. by split.
  - apply bind_any in E; [done|clear E|clear E]; [intros ??; by apply (flush_all_any _ _ _ _ I)|]. intros [] w1 E1 w2 E.
    destruct (flush_all_spec obj _ _ _ I E1) as (I1 & _).
    apply bind_any in E; [done|clear E|clear E]; [ |intros [] w3 _ w4 [= _ <-]; by split]. intros r1 w3 E2.
    destruct sync; [by apply (sync_file_any _ _ _ _ I1 E2)|by injection E2 as _ <-].
Qed.
End Object.
