(* ===== verification/WriterRun.v ===== *)
(** * The writer's guarantees

    Theorems about whole command sequences: what an acknowledgement is worth,
    what is durable when the task ends, how much is buffered, and which
    sequences are accepted. *)

From S2P Require Import Prelude RustStr Segment Errors Cache Writer WriterInv WriterProps.

Definition ledger (cmds : list WriterCommand) : Ledger := fold_left ledger_step cmds ledger_new.

(** ** Sequences of commands *)

Section Object.
  Context (obj : Z -> Z).

Lemma cmds_ok_app l c1 c2 :
  cmds_ok obj l (c1 ++ c2) <-> cmds_ok obj l c1 /\ cmds_ok obj (fold_left ledger_step c1 l) c2.
Proof.
  revert l. induction c1 as [|c c1 IH]; intros l; simpl; [tauto|]. rewrite IH. tauto.
Qed.

Lemma receive_spec cmds l acks w w' :
  Tracks obj l w -> cmds_ok obj l cmds -> receive cmds w = (Ok acks, w') ->
  Tracks obj (fold_left ledger_step cmds l) w' /\ Carried obj w w' /\
  (Forall permit_ok cmds -> Acct w -> below_watermark w -> Acct w' /\ below_watermark w').
Proof.
  revert l acks w. induction cmds as [|c cmds IH]; intros l acks w T Hok E; simpl in E.
  { injection E as _ <-. split_and!; [done|reflexivity|done]. }
  destruct Hok as [Hc Hok]. apply res_bind_Ok in E as (a & w1 & E1 & E). apply res_bind_Ok in E as (acks' & w2 & E2 & [= _ <-]).
  destruct (handle_spec obj l c a w w1 T Hc E1) as (T1 & A1 & _ & Q1).
  destruct (IH _ _ _ T1 Hok E2) as (T2 & A2 & Q2). split_and!; [done| |].
  - by etrans.
  - intros [Hp HF]%Forall_cons_iff Ac Bw. destruct (Q1 Hp Ac Bw). by apply Q2.
Qed.

Lemma receive_any cmds l r w w' :
  Tracks obj l w -> cmds_ok obj l cmds -> receive cmds w = (r, w') -> Advanced obj w w'.
Proof.
  revert l r w w'. induction cmds as [|c cmds IH]; intros l r w w' T Hok E; simpl in E; [injection E as _ <-; by split|].
  destruct Hok as [Hc Hok]. apply bind_any with (obj := obj) in E; [done|clear E|clear E].
  - intros r1 w1. by apply (handle_any obj l).
  - intros a w1 E1 w2 E2. destruct (handle_spec obj l c a w w1 T Hc E1) as (T1 & _).
    apply bind_any with (obj := obj) in E2; [done| |intros ? w3 _ w4 [= _ <-]; by split].
    intros r1 w3. by apply (IH _ _ _ _ T1 Hok).
Qed.

Lemma receive_snoc cmds c acks w w' :
  receive (cmds ++ [c]) w = (Ok acks, w') ->
  exists acks1 a w1, receive cmds w = (Ok acks1, w1) /\ handle c w1 = (Ok a, w') /\ acks = acks1 ++ [a].
Proof.
  revert acks w. induction cmds as [|c' cmds IH]; intros acks w E; simpl in E;
    apply res_bind_Ok in E as (a & w1 & E1 & E); apply res_bind_Ok in E as (acks' & w2 & E2 & [= <- <-]).
  - injection E2 as <- <-. by exists [], a, w.
  - apply IH in E2 as (acks1 & a' & w3 & R & H & ->). exists (a :: acks1), a', w3. split_and!; [|done|done].
    simpl. unfold res_bind. rewrite E1. by rewrite R.
Qed.

Lemma receive_length cmds acks w w' : receive cmds w = (Ok acks, w') -> length acks = length cmds.
Proof.
  revert acks w w'. induction cmds as [|c cmds IH]; intros acks w w' R; simpl in R; [by injection R as <- _|].
  apply res_bind_Ok in R as (a & w2 & _ & R). apply res_bind_Ok in R as (acks2 & w3 & R & [= <- _]).
  simpl. f_equal. by apply (IH acks2 w2 w3).
Qed.

(** A file as it is opened: what is durable can be read back. *)
Definition opened (f : FileState) : Prop := forall b, durable f b = Some (obj b) -> contents f b = Some (obj b).

Lemma writer_new_tracks f io n wm : opened f -> Tracks obj ledger_new (writer_new f io n wm).
Proof.
  intros Hf. split; [|done]. by split.
Qed.

Lemma writer_new_acct f io n wm : Acct (writer_new f io n wm) /\ below_watermark (writer_new f io n wm).
Proof. split; [by apply Acct_empty|by apply below_watermark_empty]. Qed.

(** The end of the task. *)
Lemma run_flush cmds w acks w' :
  run cmds w = (Ok acks, w') ->
  exists w1, receive cmds w = (Ok acks, w1) /\ handle (FlushAll true) w1 = (Ok (AllFlushed (written_bytes w') true), w').
Proof.
  unfold run. intros E. apply res_bind_Ok in E as (acks' & w1 & E1 & E). apply res_bind_Ok in E as ([] & w2 & E2 & E).
  apply res_bind_Ok in E as ([] & w3 & E3 & E). apply res_bind_Ok in E as ([] & w4 & E4 & [= -> ->]).
  exists w1. split; [done|]. simpl. unfold sync_file, res_bind. by rewrite E2, E3, E4.
Qed.

Lemma run_any l cmds r w w' : Tracks obj l w -> cmds_ok obj l cmds -> run cmds w = (r, w') -> Advanced obj w w'.
Proof.
  intros T Hok E. unfold run in E. apply (bind_any obj) in E; [done|clear E|clear E].
  - intros r1 w1. by apply (receive_any cmds l).
  - intros acks w1 E1 w2 E. destruct (receive_spec _ _ _ _ _ T Hok E1) as ([I1 _] & _).
    apply (bind_any obj) in E; [done|clear E|clear E]; [intros r1 w3; by apply (flush_all_any obj _ _ _ _ I1)|].
    intros [] w3 E3 w4 E. destruct (flush_all_spec obj _ _ _ I1 E3) as (I3 & _).
    assert (exists r', sync_file w3 = (r', w4)) as [r' Es].
    { unfold sync_file, res_bind in *. destruct (file_flush w3) as [[[]|] w5]; [|injection E as _ <-; by eexists].
      destruct (file_sync w5) as [[[]|] w6]; injection E as _ <-; by eexists. }
    by apply (sync_file_any obj _ _ _ _ I3 Es).
Qed.

(** A task that ends without error has made everything durable. *)
Lemma run_spec l cmds acks w w' :
  Tracks obj l w -> cmds_ok obj l cmds -> run cmds w = (Ok acks, w') ->
  Carried obj w w' /\ length acks = length cmds /\
  forall b, (good obj w b \/ exists key, ld_sent (fold_left ledger_step cmds l) key b) ->
    durable (file w') b = Some (obj b) /\ contents (file w') b = Some (obj b).
Proof.
  intros T Hok (w1 & R & E)%run_flush. destruct (receive_spec _ _ _ _ _ T Hok R) as (T1 & A1 & _).
  destruct (handle_spec obj _ (FlushAll true) _ _ _ T1 I E) as (_ & A2 & _ & _). split; [by etrans|].
  split; [by apply receive_length in R|]. intros b Hb. destruct T1 as [I1 _].
  simpl in E. apply res_bind_Ok in E as ([] & w2 & E2 & E). apply res_bind_Ok in E as ([] & w3 & E3 & [= _ <-]).
  destruct (flush_all_spec obj _ _ _ I1 E2) as (I2 & R2 & _ & _ & _ & _ & G2).
  destruct (sync_file_spec obj _ _ _ I2 E3) as (_ & _ & _ & _ & _ & D & C). rewrite D, C.
  assert (good obj w2 b); [|done]. destruct Hb as [Hb|[key Hb]]; [by apply (wr_good _ _ _ R2), (cr_good _ _ _ A1)|].
  destruct (wi_delivered _ _ _ I1 _ _ Hb) as [H|H]; [by apply (G2 key)|by apply (wr_good _ _ _ R2)].
Qed.

(** C9: what an acknowledged flush of a lease is worth.  Once [FlushLease] is
    acknowledged, the file has accepted every byte handed over for that lease since
    it began: the byte is in the file, or in the one write that the file runs in the
    background, with the object's value.  A byte in the file stays there whatever
    commands follow and whatever fails later.  A byte in flight can be lost, but not
    unnoticed: if the task goes on to its end without error, all of them are in the
    file and on stable storage. *)
Theorem acked_lease_kept f io n wm before k after acks w1 r w' b :
  opened f -> cmds_ok obj ledger_new (before ++ FlushLease k :: after) ->
  receive (before ++ [FlushLease k]) (writer_new f io n wm) = (Ok acks, w1) -> run after w1 = (r, w') ->
  ld_sent (ledger before) (Some k) b ->
  last acks = Some LeaseFlushed /\ accepted w1 b = Some (obj b) /\
  (contents (file w1) b = Some (obj b) -> contents (file (dropped w')) b = Some (obj b)) /\
  (forall acks', r = Ok acks' -> durable (file w') b = Some (obj b) /\ contents (file w') b = Some (obj b)).
Proof.
  intros Hf Hok E1 E2 Hb. apply cmds_ok_app in Hok as [Hok1 [Hc Hok2]].
  apply receive_snoc in E1 as (acks1 & a & w0 & R & H & ->).
  destruct (receive_spec _ _ _ _ _ (writer_new_tracks f io n wm Hf) Hok1 R) as (T0 & _).
  destruct (handle_spec obj _ _ _ _ _ T0 Hc H) as (T1 & _ & [-> Hg] & _). specialize (Hg b Hb).
  pose proof (run_any _ _ _ _ _ T1 Hok2 E2) as A. split_and!; [by rewrite last_snoc|done| |].
  - intros Hl. apply (ad_landed _ _ _ (dropped_spec obj w' (ad_inflight _ _ _ A (wi_inflight _ _ _ (proj1 T1))))).
    by apply (ad_landed _ _ _ A).
  - intros acks' ->. apply (run_spec _ _ _ _ _ T1 Hok2 E2). by left.
Qed.

(** An acknowledged synced flush is durable: after [FlushAll] with
    [sync_data] every byte handed over so far and not discarded is on stable
    storage with the object's value, whatever follows. *)
Theorem acked_sync_durable f io n wm before after acks w1 r w' key b :
  opened f -> cmds_ok obj ledger_new (before ++ FlushAll true :: after) ->
  receive (before ++ [FlushAll true]) (writer_new f io n wm) = (Ok acks, w1) -> receive after w1 = (r, w') ->
  ld_sent (ledger before) key b ->
  durable (file w') b = Some (obj b) /\ contents (file w') b = Some (obj b).
Proof.
  intros Hf Hok E1 E2 Hb. apply cmds_ok_app in Hok as [Hok1 [Hc Hok2]].
  apply receive_snoc in E1 as (acks1 & a & w0 & R & H & ->).
  destruct (receive_spec _ _ _ _ _ (writer_new_tracks f io n wm Hf) Hok1 R) as (T0 & _).
  destruct (handle_spec obj _ _ _ _ _ T0 Hc H) as (T1 & _ & [_ Hg] & _).
  pose proof (receive_any _ _ _ _ _ T1 Hok2 E2) as A. destruct (Hg key b Hb) as [_ D]. specialize (D eq_refl).
  split; [by apply (ad_durable _ _ _ A)|by apply (ad_landed _ _ _ A), (wi_durable _ _ _ (proj1 T1))].
Qed.

(** A writer task that ends without error has made every byte it was given
    durable: each byte handed over and not discarded is on stable storage with
    the object's value. *)
Theorem run_ok_durable f io n wm cmds acks w' key b :
  opened f -> cmds_ok obj ledger_new cmds -> run cmds (writer_new f io n wm) = (Ok acks, w') ->
  ld_sent (ledger cmds) key b ->
  durable (file w') b = Some (obj b) /\ length acks = length cmds.
Proof.
  intros Hf Hok E Hb. destruct (run_spec _ _ _ _ _ (writer_new_tracks f io n wm Hf) Hok E) as (_ & Hl & H).
  split; [apply H; right; by exists key|done].
Qed.

(** Memory is bounded and accounted for.  When every chunk carries a permit
    for its own length, then after each command the permits the task holds for a
    lease (or for the transfer without leases) are exactly the bytes it buffers
    for it, and fewer bytes than the watermark are buffered in all: the rest of
    the budget is free for the next chunk. *)
Theorem buffered_bytes_covered f io n wm cmds acks w' :
  opened f -> cmds_ok obj ledger_new cmds -> Forall permit_ok cmds ->
  receive cmds (writer_new f io n wm) = (Ok acks, w') ->
  (forall k, permit_sum (Some k) (permits w') = length (buffered (cache w') k)) /\
  permit_sum None (permits w') = single_bytes w' /\
  permit_total (permits w') = (total_bytes (cache w') + single_bytes w')%nat /\
  (permit_total (permits w') < Nat.max 1 wm)%nat.
Proof.
  intros Hf Hok Hp R. destruct (writer_new_acct f io n wm) as [A0 B0].
  destruct (receive_spec _ _ _ _ _ (writer_new_tracks f io n wm Hf) Hok R) as (_ & Ad & Q).
  destruct (Q Hp A0 B0) as [[A1 A2 A3] B]. split_and!; try done.
  unfold below_watermark in B. rewrite (ad_watermark _ _ _ (cr_advanced _ _ _ Ad)) in B. simpl in B. lia.
Qed.

(** ** Sequences that are accepted *)

Definition no_faults (w : WriterTask) : Prop := Forall (eq IoOk) (io w) /\ write_err w = None.

Definition Works {A} (m : WriterM A) (w : WriterTask) : Prop :=
  exists x w', m w = (Ok x, w') /\ no_faults w'.

Lemma bind_works {A B} (m : WriterM A) (k : A -> WriterM B) w :
  Works m w -> (forall x w1, m w = (Ok x, w1) -> no_faults w1 -> Works (k x) w1) -> Works (res_bind m k) w.
Proof.
  intros (x & w1 & E & N) Hk. destruct (Hk x w1 E N) as (y & w2 & E2 & N2).
  exists y, w2. split; [|done]. unfold res_bind. by rewrite E.
Qed.

Lemma next_io_works w : no_faults w -> next_io w = (Ok IoOk, set_io (tail (io w)) w) /\ no_faults (set_io (tail (io w)) w).
Proof.
  intros [N We]. unfold next_io, no_faults in *. destruct (io w) as [|o l]; simpl; [done|].
  by apply Forall_cons_iff in N as [<- N].
Qed.

Lemma update_works (g : WriterTask -> WriterTask) w : no_faults (g w) -> Works (update_state g) w.
Proof. intros N. by exists tt, (g w). Qed.

(** An I/O call that succeeds when no fault is due. *)
Lemma io_works (k : IoOutcome -> WriterM unit) w :
  no_faults w -> (forall w', no_faults w' -> Works (k IoOk) w') -> Works (res_bind next_io k) w.
Proof.
  intros N Hk. destruct (next_io_works w N) as (E & N'). destruct (Hk _ N') as (x & w2 & E2 & N2).
  exists x, w2. split; [|done]. unfold res_bind. by rewrite E.
Qed.

Lemma complete_inflight_works w : no_faults w -> exists w', complete_inflight w = (Ok None, w') /\ no_faults w'.
Proof.
  intros N. unfold complete_inflight, res_bind, read_state. destruct (inflight w) as [[o d]|]; [|by eexists].
  destruct (next_io_works w N) as (E & N'). rewrite E. eexists. split; [done|exact N'].
Qed.

Lemma report_works w : no_faults w -> Works report_error w.
Proof.
  intros N. destruct (complete_inflight_works w N) as (w' & E & N'). exists tt, w'. split; [|done].
  unfold report_error, res_bind, read_state. by rewrite (proj2 N), E.
Qed.

(** A call that waits for the write in flight, then does its own work. *)
Lemma call_works (g : WriterTask -> WriterTask) w :
  no_faults w -> (forall w, no_faults w -> no_faults (g w)) ->
  Works (let! error := complete_inflight in update_state (keep_error error) ;!
         let! outcome := next_io in
         match outcome with IoOk => update_state g | IoFail _ kind => err (Io kind) end) w.
Proof.
  intros N Hg. destruct (complete_inflight_works w N) as (w1 & E & N1). unfold Works, res_bind at 1. rewrite E. simpl.
  unfold res_bind at 1, update_state at 1. apply io_works; [done|]. intros w2 N2. by apply update_works, Hg.
Qed.

Lemma write_block_works offset data w : no_faults w -> Works (write_block offset data) w.
Proof.
  intros N. unfold write_block. apply bind_works; [by exists w, w|]. intros x w1 [= -> ->] _.
  apply bind_works; [case_bool_decide; [by exists tt, w1|by apply call_works]|].
  intros [] w2 _ N2. apply bind_works; [by apply update_works|]. intros [] w3 _ N3.
  apply bind_works.
  { unfold write_all. case_bool_decide; [by exists tt, w3|]. apply bind_works; [by apply report_works|]. intros [] w4 _ N4.
    apply io_works; [done|]. intros w5 N5. by apply update_works. }
  intros [] w4 _ N4. apply bind_works; [by apply update_works|]. intros [] w5 _ N5. by apply update_works.
Qed.

Lemma write_blocks_works blocks w : no_faults w -> Works (write_blocks blocks) w.
Proof.
  revert w. induction blocks as [|b blocks IH]; intros w N; [by exists tt, w|].
  apply bind_works; [by apply write_block_works|]. intros [] w1 _. apply IH.
Qed.

Lemma flush_single_works w : no_faults w -> Works flush_single w.
Proof.
  intros N. unfold flush_single. apply bind_works; [by exists w, w|]. intros x w1 [= -> ->] _.
  destruct (single w1) as [[o d]|]; [|by exists tt, w1].
  apply bind_works; [by apply update_works|]. intros [] w2 _. apply write_block_works.
Qed.

Lemma drain_works c blocks g w : no_faults w -> (forall w, no_faults (g w) <-> no_faults w) ->
  Works (update_state (set_cache c) ;! write_blocks blocks ;! update_state g) w.
Proof.
  intros N Hg. apply bind_works; [by apply update_works|]. intros [] w1 _ N1.
  apply bind_works; [by apply write_blocks_works|]. intros [] w2 _ N2. by apply update_works, Hg.
Qed.

Lemma flush_lease_works k w : no_faults w -> Works (flush_lease k) w.
Proof.
  intros N. unfold flush_lease. apply bind_works; [by exists w, w|]. intros x w1 [= -> ->] _.
  destruct (drain_lease (cache w1) k). by apply drain_works.
Qed.

Lemma flush_all_works w : no_faults w -> Works flush_all w.
Proof.
  intros N. unfold flush_all. apply bind_works; [by apply flush_single_works|]. intros [] w1 _ N1.
  apply bind_works; [by exists w1, w1|]. intros x w2 [= -> ->] _.
  destruct (drain_all (cache w2)). by apply drain_works.
Qed.

Lemma sync_file_works w : no_faults w -> Works sync_file w.
Proof.
  intros N. unfold sync_file. apply bind_works; [by apply report_works|]. intros [] w1 _ N1. by apply call_works.
Qed.

Lemma buffer_single_works offset data w : no_faults w -> Works (buffer_single offset data) w.
Proof.
  intros N. unfold buffer_single. case_bool_decide; [by exists tt, w|].
  apply bind_works; [by exists w, w|]. intros x w1 [= -> ->] _. destruct (_ <=? blen data).
  - apply bind_works; [by apply flush_single_works|]. intros [] w2 _ N2.
    apply bind_works; [by apply write_block_works|]. intros [] w3 _ N3. by apply update_works.
  - apply bind_works; [apply update_works; by destruct (default _ _)|]. intros [] w2 _ N2.
    apply bind_works; [by exists w2, w2|]. intros x w3 [= -> ->] _.
    destruct (_ <=? _); [|by exists tt, w3].
    apply bind_works; [by apply flush_single_works|]. intros [] w4 _ N4. by apply update_works.
Qed.

Lemma cache_insert_works delivered w k offset data :
  WInv obj delivered w -> agrees obj offset data -> data <> [] ->
  (forall e, active_leases w !! k = Some (Some e) -> offset = e) ->
  exists c, cache_insert (cache w) k offset data = (Ok tt, c).
Proof.
  intros I (H0 & Hm & _) Hd Hc. destruct (cache_pieces (cache w) !! k) as [[o d]|] eqn:L.
  - pose proof (wi_expected _ _ _ I k _ L) as He. apply Hc in He as ->. destruct (wi_agree _ _ _ I k _ L) as (? & ? & _).
    simpl in *. rewrite (insert_continues _ k o d data) by done. by eexists.
  - rewrite insert_first by (done || (unfold u64, blen in *; lia)). by eexists.
Qed.

Lemma lease_data_works delivered w k offset data :
  WInv obj delivered w -> agrees obj offset data -> no_faults w ->
  (data <> [] -> forall e, active_leases w !! k = Some (Some e) -> offset = e) ->
  Works (lease_data k offset data) w.
Proof.
  intros I Ha N Hc. unfold lease_data. case_bool_decide as Hd; [by exists tt, w|]. specialize (Hc Hd).
  destruct (cache_insert_works _ _ _ _ _ I Ha Hd Hc) as (c & E). apply bind_works; [by exists w, w|].
  intros x w1 [= -> ->] _. apply bind_works.
  - destruct (active_leases w1 !! k) as [[e|]|]; try by exists tt, w1.
    rewrite (Hc e eq_refl), Z.eqb_refl. by exists tt, w1.
  - intros [] w2 E2 _. assert (w2 = w1) as ->.
    { destruct (active_leases w1 !! k) as [[e|]|]; try by injection E2. by destruct (negb (offset =? e)); [|injection E2]. }
    apply bind_works; [exists tt, (set_cache c w1); by rewrite E|]. intros [] w3 _ N3. by apply update_works.
Qed.

(** The part of a client's command the writer checks. *)
Definition contiguous (l : Ledger) (cmd : WriterCommand) : Prop :=
  match cmd with
  | Data offset data _ (Some k) => data <> [] -> forall e, ld_next l !! k = Some (Some e) -> offset = e
  | _ => True
  end.

(** Everything in front of the chunk succeeds and leaves the leases alone. *)
Lemma before_chunk_works delivered offset data key w (k : WriterM unit) :
  WInv obj delivered w -> no_faults w ->
  exists w2, WInv obj delivered w2 /\ no_faults w2 /\ active_leases w2 = active_leases w /\
    (flush_stale offset data key ;!
     (fun w => (if negb (is_leased key) && (0 <? total_bytes (cache w))%nat then flush_all else ok tt) w) ;! k) w = k w2.
Proof.
  intros I N.
  assert (Works (flush_stale offset data key) w) as ([] & w1 & E1 & N1).
  { unfold flush_stale, Works. destruct (_ && _); [|by exists tt, w].
    apply bind_works; [by apply flush_single_works|]. intros [] w1 _ N1. by apply update_works. }
  destruct (flush_stale_spec obj _ _ _ _ _ _ I E1) as (I1 & _ & [C1 A1] & _).
  assert (Works (if negb (is_leased key) && (0 <? total_bytes (cache w1))%nat then flush_all else ok tt) w1)
    as ([] & w2 & E2 & N2) by (destruct (_ && _); [by apply flush_all_works|by exists tt, w1]).
  edestruct (maybe_flush_all_spec obj _ _ _ _ I1 E2) as (I2 & _ & A2 & _). exists w2.
  split_and!; [done|done|congruence|]. unfold res_bind. rewrite E1. by rewrite E2.
Qed.

Lemma handle_works l cmd w :
  Tracks obj l w -> cmd_ok obj l cmd -> contiguous l cmd -> no_faults w -> Works (handle cmd) w.
Proof.
  intros [I Ha] Hok Hc N. destruct cmd as [k|offset data permit key|k|k|sync]; simpl.
  - by eexists _, _.
  - apply bind_works; [|intros [] w1 _ N1; by eexists _, w1]. unfold Works. rewrite handle_data_unfold.
    destruct (before_chunk_works _ offset data key w
      ((fun w => take_chunk offset data key (with_permit permit key w)) ;!
       (fun w => (if (cache_high_watermark w <=? total_bytes (cache w) + single_bytes w)%nat
                  then flush_all else ok tt) w)) I N) as (w2 & I2 & N2 & A2 & ->).
    assert (no_faults (with_permit permit key w2)) as N3 by by destruct permit.
    assert (active_leases (with_permit permit key w2) = ld_next l) as A3 by (destruct permit; simpl; congruence).
    apply (bind_works (fun w => take_chunk offset data key (with_permit permit key w))).
    + unfold Works, take_chunk. destruct key as [k|]; [|by apply buffer_single_works].
      case_bool_decide; [|by apply update_works].
      eapply lease_data_works; [by apply WInv_with_permit|done|done|]. rewrite A3. apply Hc.
    + intros [] w3 _ N4. unfold Works. destruct (_ <=? _)%nat; [by apply flush_all_works|by exists tt, w3].
  - apply bind_works; [by apply flush_lease_works|]. intros [] w1 _ N1. by eexists _, _.
  - unfold Works, res_bind, update_state, read_state. simpl. destruct (discard_lease (cache w) k). by eexists _, _.
  - apply bind_works; [by apply flush_all_works|]. intros [] w1 _ N1.
    apply bind_works; [destruct sync; [by apply sync_file_works|by exists tt, w1]|]. intros [] w2 _ N2. by eexists _, _.
Qed.

Lemma handle_gap l offset data permit k e w :
  Tracks obj l w -> no_faults w -> data <> [] -> ld_next l !! k = Some (Some e) -> offset <> e ->
  exists w', handle (Data offset data permit (Some k)) w =
    (Err (Internal (noncontiguous_message (mkNonContiguous e offset))), w').
Proof.
  intros [I Ha] N Hd Hk Ho. cbn [handle]. unfold res_bind at 1. rewrite handle_data_unfold.
  destruct (before_chunk_works _ offset data (Some k) w
    ((fun w => take_chunk offset data (Some k) (with_permit permit (Some k) w)) ;!
     (fun w => (if (cache_high_watermark w <=? total_bytes (cache w) + single_bytes w)%nat
                then flush_all else ok tt) w)) I N) as (w2 & I2 & N2 & A2 & ->).
  assert (active_leases (with_permit permit (Some k) w2) !! k = Some (Some e)) as A3
    by (destruct permit; simpl; congruence).
  unfold res_bind at 1, take_chunk. rewrite A3, bool_decide_eq_true_2 by (by eexists).
  unfold lease_data. rewrite bool_decide_eq_false_2 by done. unfold res_bind, read_state. rewrite A3.
  rewrite (proj2 (Z.eqb_neq offset e)) by done. by eexists.
Qed.

Fixpoint all_contiguous (l : Ledger) (cmds : list WriterCommand) : Prop :=
  match cmds with
  | [] => True
  | cmd :: cmds => contiguous l cmd /\ all_contiguous (ledger_step l cmd) cmds
  end.

Lemma receive_works cmds l w :
  Tracks obj l w -> cmds_ok obj l cmds -> all_contiguous l cmds -> no_faults w -> Works (receive cmds) w.
Proof.
  revert l w. induction cmds as [|c cmds IH]; intros l w T Hok Hc N; [by exists [], w|].
  destruct Hok as [Hk Hok], Hc as [Hc1 Hc]. apply bind_works; [by apply (handle_works l)|].
  intros a w1 E1 N1. destruct (handle_spec obj _ _ _ _ _ T Hk E1) as (T1 & _).
  apply bind_works; [by apply (IH (ledger_step l c))|]. intros acks w2 _ N2. by exists (a :: acks), w2.
Qed.

Lemma receive_app_err c1 c2 acks w w1 e w2 :
  receive c1 w = (Ok acks, w1) -> receive c2 w1 = (Err e, w2) -> receive (c1 ++ c2) w = (Err e, w2).
Proof.
  revert acks w. induction c1 as [|c c1 IH]; intros acks w R E; simpl in *; [by injection R as _ ->|].
  apply res_bind_Ok in R as (a & w3 & R1 & R). apply res_bind_Ok in R as (acks' & w4 & R & [= _ ->]).
  unfold res_bind. rewrite R1. by rewrite (IH _ _ R E).
Qed.

(** The task accepts exactly the contiguous streams.  Without I/O faults a
    sequence in which every chunk of a live lease starts where the previous one
    ended runs to a successful end (the cache never refuses a chunk), and a
    chunk that leaves a gap or overlaps ends the task with the error that names
    the expected and the actual offset, whatever would have followed. *)
Theorem writer_accepts_contiguous f io n wm cmds :
  opened f -> cmds_ok obj ledger_new cmds -> all_contiguous ledger_new cmds -> Forall (eq IoOk) io ->
  (exists acks w', run cmds (writer_new f io n wm) = (Ok acks, w')) /\
  forall offset data permit k e rest, data <> [] -> ld_next (ledger cmds) !! k = Some (Some e) -> offset <> e ->
    exists w', run (cmds ++ Data offset data permit (Some k) :: rest) (writer_new f io n wm) =
      (Err (Internal (noncontiguous_message (mkNonContiguous e offset))), w').
Proof.
  intros Hf Hok Hc N. pose proof (writer_new_tracks f io n wm Hf) as T.
  destruct (receive_works cmds _ (writer_new f io n wm) T Hok Hc (conj N eq_refl)) as (acks & w1 & E & N1). split.
  - assert (Works (run cmds) (writer_new f io n wm)) as (x & w' & Ex & _); [|by exists x, w'].
    apply bind_works; [by exists acks, w1|]. intros acks' w2 _ N2.
    apply bind_works; [by apply flush_all_works|]. intros [] w3 _ N3.
    destruct (sync_file_works w3 N3) as ([] & w4 & Es & N4). unfold sync_file, res_bind in Es.
    exists acks', w4. split; [|done]. unfold res_bind. destruct (file_flush w3) as [[[]|] w5]; [|done]. by rewrite Es.
  - intros offset data permit k e rest Hd Hk Ho.
    destruct (receive_spec _ _ _ _ _ T Hok E) as (T1 & _).
    destruct (handle_gap _ offset data permit k e w1 T1 N1 Hd Hk Ho) as (w2 & E2). exists w2.
    unfold run, res_bind. rewrite (receive_app_err _ _ _ _ _ (Internal (noncontiguous_message (mkNonContiguous e offset))) w2 E); [done|].
    cbn [receive]. unfold res_bind at 1. by rewrite E2.
Qed.
End Object.

(** ** Witnesses *)

Definition demo_object (b : Z) : Z := b mod 256.

Definition demo_key : LeaseKey := mkKey 3 7.

Definition demo_file : FileState := mkFile (fun _ => None) (fun _ => None) 0.

Definition demo_cmds : list WriterCommand :=
  [BeginLease demo_key; Data 300 [44; 45] (Some 2%nat) (Some demo_key); Data 302 [46] (Some 1%nat) (Some demo_key)].

Lemma demo_opened : opened demo_object demo_file.
Proof. intros b H. discriminate H. Qed.

Lemma demo_agrees : agrees demo_object 300 [44; 45] /\ agrees demo_object 302 [46].
Proof.
  split; (split_and!; [lia|vm_compute; discriminate|]);
    intros [|[|i]] v H; simpl in H; try discriminate H; by injection H as <-.
Qed.

Lemma demo_empty_agrees : agrees demo_object 0 [0; 1].
Proof.
  split_and!; [lia|vm_compute; discriminate|]. intros [|[|i]] v H; simpl in H; try discriminate H; by injection H as <-.
Qed.

Lemma demo_sent : ld_sent (ledger demo_cmds) (Some demo_key) 301.
Proof. left. right. split; [by eexists|]. split; [done|]. unfold in_block, blen. simpl. lia. Qed.

(** The lease's write succeeds in the background, then the disk is full. *)
Definition demo_io : list IoOutcome := [IoOk; IoOk; IoOk; IoOk; IoFail 1 (IoOther 28)].

Lemma acked_lease_kept_witness : exists acks w1 acks' w',
  receive (demo_cmds ++ [FlushLease demo_key]) (writer_new demo_file demo_io 0 64) = (Ok acks, w1) /\
  contents (file w1) 301 = None /\ accepted w1 301 = Some (demo_object 301) /\
  run [Data 0 [0; 1] (Some 2%nat) None] (set_io [] w1) = (Ok acks', w') /\ durable (file w') 301 = Some (demo_object 301) /\
  fst (run [Data 0 [0; 1] (Some 2%nat) None] w1) = Err (Io (IoOther 28)).
Proof.
  destruct (receive (demo_cmds ++ [FlushLease demo_key]) (writer_new demo_file demo_io 0 64))
    as [[acks|] w1] eqn:E1; [|exfalso; vm_compute in E1; discriminate E1].
  destruct (receive (demo_cmds ++ [FlushLease demo_key]) (writer_new demo_file [] 0 64))
    as [[acks2|] w2] eqn:E2; [|exfalso; vm_compute in E2; discriminate E2].
  destruct (run [Data 0 [0; 1] (Some 2%nat) None] w2) as [[acks'|] w'] eqn:E3;
    [|exfalso; vm_compute in E2; injection E2 as _ <-; vm_compute in E3; discriminate E3].
  assert (cmds_ok demo_object ledger_new (demo_cmds ++ FlushLease demo_key :: [Data 0 [0; 1] (Some 2%nat) None])) as Hok
    by (destruct demo_agrees, demo_empty_agrees; simpl; by split_and!).
  destruct (acked_lease_kept demo_object demo_file [] 0 64 demo_cmds demo_key [Data 0 [0; 1] (Some 2%nat) None] acks2 w2 (Ok acks') w' 301
    demo_opened Hok E2 E3 demo_sent) as (_ & _ & _ & Hd).
  destruct (run [Data 0 [0; 1] (Some 2%nat) None] w1) as [r w''] eqn:E4.
  destruct (acked_lease_kept demo_object demo_file demo_io 0 64 demo_cmds demo_key [Data 0 [0; 1] (Some 2%nat) None] acks w1 r w'' 301
    demo_opened Hok E1 E4 demo_sent) as (_ & Ha & _ & _).
  exists acks, w1, acks', w'. split; [reflexivity|]. split; [vm_compute in E1; injection E1 as _ <-; reflexivity|]. split; [exact Ha|].
  assert (w2 = set_io [] w1) as Ew by (vm_compute in E1, E2; injection E1 as _ <-; injection E2 as _ <-; reflexivity).
  rewrite <- Ew. split; [exact E3|]. split; [exact (proj1 (Hd acks' eq_refl))|].
  vm_compute in E1. injection E1 as _ <-. vm_compute in E4. injection E4 as <- _. reflexivity.
Defined.

Lemma acked_sync_durable_witness : exists acks w1,
  receive (demo_cmds ++ [FlushAll true]) (writer_new demo_file [] 0 64) = (Ok acks, w1) /\
  durable (file w1) 301 = Some (demo_object 301).
Proof.
  destruct (receive (demo_cmds ++ [FlushAll true]) (writer_new demo_file [] 0 64))
    as [[acks|] w1] eqn:E1; [|exfalso; vm_compute in E1; discriminate E1].
  exists acks, w1. split; [reflexivity|].
  refine (proj1 (acked_sync_durable demo_object demo_file [] 0 64 demo_cmds [] acks w1 (Ok []) w1 (Some demo_key) 301
    demo_opened _ E1 eq_refl demo_sent)).
  destruct demo_agrees. simpl. by split_and!.
Defined.

Lemma run_ok_durable_witness : exists acks w1,
  run demo_cmds (writer_new demo_file [] 0 64) = (Ok acks, w1) /\ durable (file w1) 301 = Some (demo_object 301).
Proof.
  destruct (run demo_cmds (writer_new demo_file [] 0 64)) as [[acks|] w1] eqn:E1;
    [|exfalso; vm_compute in E1; discriminate E1].
  exists acks, w1. split; [reflexivity|].
  refine (proj1 (run_ok_durable demo_object demo_file [] 0 64 demo_cmds acks w1 (Some demo_key) 301 demo_opened _ E1 demo_sent)).
  destruct demo_agrees. simpl. by split_and!.
Defined.

Lemma buffered_bytes_covered_witness : exists acks w1,
  receive demo_cmds (writer_new demo_file [] 0 64) = (Ok acks, w1) /\
  permit_sum (Some demo_key) (permits w1) = length (buffered (cache w1) demo_key) /\
  permit_sum (Some demo_key) (permits w1) = 3%nat.
Proof.
  destruct (receive demo_cmds (writer_new demo_file [] 0 64)) as [[acks|] w1] eqn:E1;
    [|exfalso; vm_compute in E1; discriminate E1].
  exists acks, w1. split; [reflexivity|]. split.
  - refine (proj1 (buffered_bytes_covered demo_object demo_file [] 0 64 demo_cmds acks w1 demo_opened _ _ E1) demo_key).
    + destruct demo_agrees. simpl. by split_and!.
    + repeat constructor.
  - vm_compute in E1. injection E1 as _ <-. reflexivity.
Defined.

Lemma writer_accepts_contiguous_witness : exists w',
  run (demo_cmds ++ [Data 305 [1] (Some 1%nat) (Some demo_key)]) (writer_new demo_file [] 0 64) =
    (Err (Internal (noncontiguous_message (mkNonContiguous 303 305))), w').
Proof.
  refine (proj2 (writer_accepts_contiguous demo_object demo_file [] 0 64 demo_cmds demo_opened _ _ _)
    305 [1] (Some 1%nat) demo_key 303 [] _ _ _).
  - destruct demo_agrees. simpl. by split_and!.
  - simpl. split_and!; try done; intros _ e H; by injection H as <-.
  - constructor.
  - discriminate.
  - reflexivity.
  - discriminate.
Defined.
