(* ===== verification/Flow.v ===== *)
(** * Flow control ([src/session/flow.rs], [src/http/mod.rs])

    Producers split body frames into chunks, take one budget permit per byte and
    put the chunks on the writer's channel; the permits travel with the data and
    return when the writer drops them. *)

From S2P Require Import Prelude RustStr Segment Errors Cache Writer WriterInv WriterProps WriterRun.

(** [n.min(u32::MAX as usize)] *)
Definition min_u32 (n : nat) : nat := Z.to_nat (Z.min (Z.of_nat n) (2 ^ 32 - 1)).

Record MemoryBudget := mkBudget {
  budget_bytes : nat;
  max_chunk : nat;
  watermark : nat;
}.

(** [MemoryBudget::new]; the semaphore starts with [budget_bytes] permits. *)
Definition MemoryBudget_new (bytes : nat) : MemoryBudget :=
  {| budget_bytes := bytes;
     max_chunk := min_u32 (Nat.div (bytes + 1) 2);
     watermark := Nat.max (Nat.div bytes 2) 1 |}.

Definition MAX_BODY_BUDGET_BYTES : Z := 256 * 1024.
Definition MIN_BODY_BUDGET_BYTES : Z := 64 * 1024.

(** [BodyBudget::for_session] *)
Definition body_budget_for_session (memory_budget transfers : Z) : Z :=
  Z.max MIN_BODY_BUDGET_BYTES (Z.min (memory_budget / Z.max transfers 1) MAX_BODY_BUDGET_BYTES).

Definition transport_body_budget (mb : MemoryBudget) (transfers : Z) : Z :=
  body_budget_for_session (Z.of_nat (budget_bytes mb)) transfers.

(** Which branch of the [select!] an iteration takes.  [Sent]: the rate limiter
    let the chunk pass, the semaphore granted its permits and the channel had a
    slot.  [SendFailed]: the semaphore or the channel was closed. *)
Inductive Selected :=
| Sent
| Stopped (e : DownloadError)
| WriterClosed
| SendFailed (e : DownloadError).

(** [forward_observed]: the commands put on the channel and the bytes reported
    to [sent].  [None]: the fuel ran out. *)
Fixpoint forward_loop (fuel : nat) (mb : MemoryBudget) (data : bytes) (offset : Z)
    (lease_key : option LeaseKey) (selected : list Selected) (sent : Z)
    : option (result unit DownloadError * list WriterCommand * Z) :=
  if bool_decide (data = []) then Some (Ok tt, [], sent)
  else
    match fuel with
    | O => None
    | S fuel =>
        let len := Nat.min (length data) (max_chunk mb) in
        match default Sent (head selected) with
        | Stopped e => Some (Err e, [], sent)
        | WriterClosed => Some (Err ChannelClosed, [], sent)
        | SendFailed e => Some (Err e, [], sent)
        | Sent =>
            '(r, cmds, sent) ← forward_loop fuel mb (drop len data) (offset ⊕ Z.of_nat len) lease_key
                                 (tail selected) (sent + Z.of_nat len);
            Some (r, Data offset (take len data) (Some len) lease_key :: cmds, sent)
        end
    end.

Definition forward (mb : MemoryBudget) (data : bytes) (offset : Z) (lease_key : option LeaseKey)
    (selected : list Selected) : option (result unit DownloadError * list WriterCommand * Z) :=
  forward_loop (length data) mb data offset lease_key selected 0.

(** ** The chunks of one frame *)

(** [cmds] carry exactly [data], from [offset] on, in chunks of at most [m] bytes. *)
Fixpoint Chunked (m : nat) (key : option LeaseKey) (offset : Z) (data : bytes) (cmds : list WriterCommand) : Prop :=
  match cmds with
  | [] => data = []
  | Data o d p k :: cmds =>
      o = offset /\ k = key /\ p = Some (length d) /\ (1 <= length d <= m)%nat /\
      exists rest, data = d ++ rest /\ Chunked m key (offset + blen d) rest cmds
  | _ => False
  end.

Lemma forward_loop_spec fuel mb data offset key selected sent :
  (1 <= max_chunk mb)%nat -> (length data <= fuel)%nat -> 0 <= offset -> offset + blen data <= u64_max ->
  exists r cmds n, forward_loop fuel mb data offset key selected sent = Some (r, cmds, sent + n) /\
    exists taken rest, data = taken ++ rest /\ n = blen taken /\ Chunked (max_chunk mb) key offset taken cmds /\
      (r = Ok tt -> rest = []) /\ (Forall (eq Sent) selected -> r = Ok tt).
Proof.
  intros Hm. revert data offset selected sent. induction fuel as [|fuel IH]; intros data offset selected sent Hf H0 Hu.
  { assert (data = []) as -> by (destruct data; [done|simpl in Hf; lia]). simpl.
    exists (Ok tt), [], 0. rewrite Z.add_0_r. split; [done|]. by exists [], []. }
  cbn [forward_loop]. case_bool_decide as Hd.
  { exists (Ok tt), [], 0. rewrite Z.add_0_r. split; [done|]. by exists [], []. }
  set (len := Nat.min (length data) (max_chunk mb)).
  assert (1 <= len <= max_chunk mb /\ len <= length data)%nat as [Hl Hl'].
  { subst len. assert (length data <> 0%nat) by (by destruct data). lia. }
  destruct (default Sent (head selected)) as [|e| |e] eqn:Es.
  - destruct (IH (drop len data) (offset ⊕ Z.of_nat len) (tail selected) (sent + Z.of_nat len))
      as (r & cmds & n & E & taken & rest & Hsplit & Hn & Hch & Hok & Hall).
    { rewrite length_drop. lia. }
    { apply Z.mod_pos_bound. lia. }
    { unfold blen in *. rewrite length_drop. rewrite u64_add_exact by (unfold u64_max in *; lia). lia. }
    rewrite E. simpl. eexists r, _, _. split; [do 2 f_equal; by rewrite <- Z.add_assoc|].
    exists (take len data ++ taken), rest. assert (length (take len data) = len) as Ht by (rewrite length_take; lia).
    rewrite u64_add_exact in Hch by (unfold u64_max, blen in *; lia). split_and!.
    + rewrite <- app_assoc, <- Hsplit. by rewrite take_drop.
    + rewrite blen_app, Hn. unfold blen. by rewrite Ht.
    + simpl. split_and!; try done; [by rewrite Ht|lia|lia|]. exists taken. split; [done|].
      unfold blen. by rewrite Ht.
    + done.
    + intros HF. apply Hall. by destruct HF.
  - exists (Err e), [], 0. rewrite Z.add_0_r. split; [done|]. exists [], data. split_and!; try done.
    intros HF. destruct HF; simpl in Es; congruence.
  - exists (Err ChannelClosed), [], 0. rewrite Z.add_0_r. split; [done|]. exists [], data. split_and!; try done.
    intros HF. destruct HF; simpl in Es; congruence.
  - exists (Err e), [], 0. rewrite Z.add_0_r. split; [done|]. exists [], data. split_and!; try done.
    intros HF. destruct HF; simpl in Es; congruence.
Qed.

(** ** The budget's geometry *)

Lemma budget_room bytes :
  (1 <= bytes)%nat ->
  let mb := MemoryBudget_new bytes in
  (1 <= max_chunk mb)%nat /\ Z.of_nat (max_chunk mb) <= 2 ^ 32 - 1 /\ (1 <= watermark mb)%nat /\
  (watermark mb - 1 + max_chunk mb <= bytes)%nat.
Proof.
  intros Hb mb. subst mb. simpl. unfold min_u32. change (Nat.divmod ?a 1 0 1).1 with (Nat.div a 2).
  pose proof (Nat.div_mod_eq bytes 2). pose proof (Nat.mod_upper_bound bytes 2 ltac:(lia)).
  pose proof (Nat.div_mod_eq (bytes + 1) 2). pose proof (Nat.mod_upper_bound (bytes + 1) 2 ltac:(lia)).
  lia.
Qed.

(** ** Producers, channel and writer

    An interleaving of the producers with the writer.  A producer that has a chunk
    waits for its permits, then for a slot of the channel, then sends; the writer
    returns the permits it drops.  The semaphore and the channel serve their waiters
    in the order of their arrival. *)

(** [sys_free]: the permits nobody holds, with those the semaphore has set aside for
    its first waiter.  [sys_waiters] wait for permits with the command they will send;
    [sys_senders] wait for a slot, with their permits. *)
Record Sys := mkSys {
  sys_free : nat;
  sys_waiters : list WriterCommand;
  sys_senders : list WriterCommand;
  sys_queue : list WriterCommand;
  sys_writer : WriterTask;
  sys_open : bool;
}.

Definition cmd_permit (cmd : WriterCommand) : nat :=
  match cmd with Data _ _ (Some n) _ => n | _ => 0%nat end.

Definition queued (cmds : list WriterCommand) : nat := foldr (fun c acc => cmd_permit c + acc)%nat 0%nat cmds.

(** No method takes more permits than its command brought. *)
Definition Keeps {A} (n : nat) (m : WriterM A) : Prop :=
  forall w r w', m w = (r, w') -> (permit_total (permits w') <= permit_total (permits w) + n)%nat.

Lemma keeps_bind {A B} n k (m : WriterM A) (f : A -> WriterM B) :
  Keeps n m -> (forall x, Keeps k (f x)) -> Keeps (n + k) (res_bind m f).
Proof.
  intros Hm Hf w r w' [(x & w1 & E1 & E2)|(e & E1 & _)]%res_bind_any; apply Hm in E1; [apply Hf in E2|]; lia.
Qed.

Lemma keeps_bind0 {A B} (m : WriterM A) (f : A -> WriterM B) :
  Keeps 0 m -> (forall x, Keeps 0 (f x)) -> Keeps 0 (res_bind m f).
Proof. apply (keeps_bind 0 0). Qed.

Lemma keeps_bind_l {A B} n (m : WriterM A) (f : A -> WriterM B) :
  Keeps n m -> (forall x, Keeps 0 (f x)) -> Keeps n (res_bind m f).
Proof. intros Hm Hf. rewrite <- (Nat.add_0_r n). by apply keeps_bind. Qed.

Lemma keeps_ok {A} (x : A) : Keeps 0 (ok x).
Proof. intros w r w' [= _ <-]. lia. Qed.

Lemma keeps_err {A} e : Keeps 0 (err e : WriterM A).
Proof. intros w r w' [= _ <-]. lia. Qed.

Lemma keeps_read : Keeps 0 (read_state : WriterM WriterTask).
Proof. intros w r w' [= _ <-]. lia. Qed.

Lemma keeps_update g :
  (forall w, permit_total (permits (g w)) <= permit_total (permits w))%nat -> Keeps 0 (update_state g).
Proof. intros H w r w' [= _ <-]. specialize (H w). lia. Qed.

Lemma keeps_next_io : Keeps 0 next_io.
Proof. intros w r w' [= _ <-]. simpl. lia. Qed.

Lemma permit_total_filter keep l :
  (permit_total (filter (fun p => keep p.1 = true) l) <= permit_total l)%nat.
Proof. induction l as [|[k n] l IH]; [done|]. rewrite filter_cons. case_decide; simpl in *; lia. Qed.

Create HintDb keeps discriminated.
#[local] Hint Resolve keeps_ok keeps_err keeps_read keeps_next_io : keeps.

Lemma keeps_retain keep : Keeps 0 (update_state (retain_permits keep)).
Proof. apply keeps_update. intros w. apply permit_total_filter. Qed.

Ltac keeps :=
  repeat first
    [ progress (eauto with keeps; fail)
    | apply keeps_retain
    | apply keeps_update; (intros; simpl; (done || lia))
    | apply keeps_bind0; [|intros ?]
    | progress cbv beta
    | match goal with
      | |- Keeps _ (if ?c then _ else _) => destruct c
      | |- Keeps _ (match ?x with _ => _ end) => destruct x
      | |- Keeps _ (let '(_, _) := ?x in _) => destruct x
      end ].

Lemma keeps_complete : Keeps 0 complete_inflight.
Proof. unfold complete_inflight. keeps. Qed.
#[local] Hint Resolve keeps_complete : keeps.

Lemma keeps_keep_error e : Keeps 0 (update_state (keep_error e)).
Proof. apply keeps_update. intros w. by destruct e. Qed.
#[local] Hint Resolve keeps_keep_error : keeps.

Lemma keeps_report : Keeps 0 report_error.
Proof. unfold report_error. keeps. Qed.
#[local] Hint Resolve keeps_report : keeps.

Lemma keeps_write_block offset data : Keeps 0 (write_block offset data).
Proof. unfold write_block, seek, write_all. keeps. Qed.
#[local] Hint Resolve keeps_write_block : keeps.

Lemma keeps_write_blocks blocks : Keeps 0 (write_blocks blocks).
Proof. induction blocks; simpl; keeps. Qed.
#[local] Hint Resolve keeps_write_blocks : keeps.

Lemma keeps_flush_single : Keeps 0 flush_single.
Proof. unfold flush_single. keeps. Qed.
#[local] Hint Resolve keeps_flush_single : keeps.

Lemma keeps_flush_lease k : Keeps 0 (flush_lease k).
Proof. unfold flush_lease. keeps. Qed.

Lemma keeps_flush_all : Keeps 0 flush_all.
Proof. unfold flush_all. keeps. Qed.

Lemma keeps_sync_file : Keeps 0 sync_file.
Proof. unfold sync_file, file_flush, file_sync. keeps. Qed.
#[local] Hint Resolve keeps_flush_lease keeps_flush_all keeps_sync_file : keeps.

Lemma keeps_buffer_single offset data : Keeps 0 (buffer_single offset data).
Proof.
  unfold buffer_single. keeps. apply keeps_update. intros w. destruct (default _ _). done.
Qed.

Lemma keeps_lease_data k offset data : Keeps 0 (lease_data k offset data).
Proof.
  unfold lease_data. keeps. intros w r w' E.
  destruct (cache_insert (cache w) k offset data) as [[]?]; injection E as _ <-; simpl; lia.
Qed.
#[local] Hint Resolve keeps_buffer_single keeps_lease_data : keeps.

Lemma keeps_handle cmd : Keeps (cmd_permit cmd) (handle cmd).
Proof.
  destruct cmd as [k|offset data permit key|k|k|sync]; simpl cmd_permit; unfold handle; try (keeps; fail).
  apply keeps_bind_l; [|intros ?; keeps]. unfold handle_data.
  apply (keeps_bind 0); [keeps|]. intros w1. apply (keeps_bind 0); [keeps|]. intros _.
  apply (keeps_bind 0); [keeps|]. intros w2. apply (keeps_bind 0); [keeps|]. intros _.
  apply keeps_bind_l; [|intros ?; keeps].
  destruct permit as [n|]; [|keeps]. intros w r w' [= _ <-]. simpl. rewrite permit_total_snoc. simpl. lia.
Qed.

(** Every command that has not reached the writer. *)
Definition in_transit (s : Sys) : list WriterCommand := sys_waiters s ++ sys_senders s ++ sys_queue s.

(** The leases that are about to begin. *)
Definition beginning (cmds : list WriterCommand) : list LeaseKey :=
  omap (fun cmd => match cmd with BeginLease k => Some k | _ => None end) cmds.

Section System.
  Context (obj : Z -> Z) (mb : MemoryBudget) (capacity : nat).

(** What the producers, the channel and the writer do with the commands they have.
    [l]: the ledger of what the writer has handled. *)
Inductive internal_step : Ledger * Sys -> Ledger * Sys -> Prop :=
| acquired l free cmd ws ss q w :
    (cmd_permit cmd <= free)%nat ->
    internal_step (l, mkSys free (cmd :: ws) ss q w true) (l, mkSys (free - cmd_permit cmd) ws (ss ++ [cmd]) q w true)
| slot_sent l free ws cmd ss q w :
    (length q < capacity)%nat ->
    internal_step (l, mkSys free ws (cmd :: ss) q w true) (l, mkSys free ws ss (q ++ [cmd]) w true)
| handled l free ws ss cmd q w a w' :
    handle cmd w = (Ok a, w') ->
    internal_step (l, mkSys free ws ss (cmd :: q) w true)
      (ledger_step l cmd,
       mkSys (free + cmd_permit cmd + permit_total (permits w) - permit_total (permits w')) ws ss q w' true)
(* the writer task ends: its receiver, the queued commands and all their permits are dropped *)
| writer_failed l free ws ss cmd q w e w' :
    handle cmd w = (Err e, w') ->
    internal_step (l, mkSys free ws ss (cmd :: q) w true)
      (l, mkSys (free + queued (cmd :: q) + permit_total (permits w)) ws ss [] (set_permits [] w') false)
(* [write_tx.closed()] *)
| waiter_released l free cmd ws ss q w :
    internal_step (l, mkSys free (cmd :: ws) ss q w false) (l, mkSys free ws ss q w false)
| sender_released l free ws cmd ss q w :
    internal_step (l, mkSys free ws (cmd :: ss) q w false) (l, mkSys (free + cmd_permit cmd) ws ss q w false).

(** What the clients do: a chunk to be sent, a command without data, and a stop
    request that ends a wait. *)
Inductive client_step : Ledger * Sys -> Ledger * Sys -> Prop :=
| wants l free ws ss q w offset data key :
    (1 <= length data <= max_chunk mb)%nat -> agrees obj offset data ->
    let cmd := Data offset data (Some (length data)) key in
    client_step (l, mkSys free ws ss q w true) (l, mkSys free (ws ++ [cmd]) ss q w true)
| requests l free ws ss q w cmd :
    cmd_permit cmd = 0%nat -> permit_ok cmd -> cmd_ok obj l cmd ->
    (forall k, cmd = BeginLease k -> k ∉ beginning (ws ++ ss ++ q)) ->
    client_step (l, mkSys free ws ss q w true) (l, mkSys free ws (ss ++ [cmd]) q w true)
| waiter_stopped l free ws1 cmd ws2 ss q w o :
    client_step (l, mkSys free (ws1 ++ cmd :: ws2) ss q w o) (l, mkSys free (ws1 ++ ws2) ss q w o)
| sender_stopped l free ws ss1 cmd ss2 q w o :
    client_step (l, mkSys free ws (ss1 ++ cmd :: ss2) q w o)
                (l, mkSys (free + cmd_permit cmd) ws (ss1 ++ ss2) q w o).

Definition sys_step (s s' : Ledger * Sys) : Prop := internal_step s s' \/ client_step s s'.

Definition Sys_reachable (f : FileState) (io : list IoOutcome) (n : Z) : Ledger * Sys -> Prop :=
  rtc sys_step (ledger_new, mkSys (budget_bytes mb) [] [] [] (writer_new f io n (watermark mb)) true).

Record Sys_ok (s : Ledger * Sys) : Prop := {
  so_tracks : sys_open s.2 = true -> Tracks obj s.1 (sys_writer s.2);
  so_cmds : Forall (cmd_ok obj s.1) (in_transit s.2);
  so_permits : Forall permit_ok (in_transit s.2);
  so_begin : NoDup (beginning (in_transit s.2));
  so_chunks : Forall (fun cmd => cmd_permit cmd <= max_chunk mb)%nat (sys_waiters s.2);
  so_acct : sys_open s.2 = true -> Acct (sys_writer s.2) /\ below_watermark (sys_writer s.2);
  so_watermark : sys_open s.2 = true -> cache_high_watermark (sys_writer s.2) = watermark mb;
  so_closed : sys_open s.2 = false -> sys_queue s.2 = [];
  so_conserved : (sys_free s.2 + queued (sys_senders s.2) + queued (sys_queue s.2) +
                  permit_total (permits (sys_writer s.2)) = budget_bytes mb)%nat;
}.

Lemma queued_app q q' : queued (q ++ q') = (queued q + queued q')%nat.
Proof. induction q as [|x q IH]; simpl; lia. Qed.

Lemma beginning_app q q' : beginning (q ++ q') = beginning q ++ beginning q'.
Proof. apply omap_app. Qed.

Lemma elem_of_beginning k cmds : k ∈ beginning cmds <-> BeginLease k ∈ cmds.
Proof.
  unfold beginning. rewrite list_elem_of_omap. split.
  - intros (cmd & Hin & E). destruct cmd; try done. by injection E as ->.
  - intros Hin. by exists (BeginLease k).
Qed.

(** The other commands stay fit when one of them is handled. *)
Lemma cmd_ok_step l cmd c :
  cmd_ok obj l c -> (forall k, c = BeginLease k -> cmd <> BeginLease k) -> cmd_ok obj (ledger_step l cmd) c.
Proof.
  intros Hok Hne. destruct c as [k|o d p key|k|k|sync]; try done. simpl in *. destruct cmd as [k'|o d p key|k'|k'|sync]; simpl; try done.
  - rewrite lookup_insert_ne; [done|]. intros ->. by apply (Hne k).
  - unfold advanced. destruct key as [k'|]; [|done]. destruct (_ || _) eqn:E; [done|].
    rewrite lookup_insert_ne; [done|]. intros ->. rewrite Hok in E. rewrite (bool_decide_eq_false_2 (is_Some None)) in E by (by intros []).
    by rewrite orb_true_r in E.
  - by rewrite lookup_delete_None; right.
  - by rewrite lookup_delete_None; right.
Qed.

(** A part of the commands in transit, in another order. *)
Lemma Forall_transit {P : WriterCommand -> Prop} l l' : l ⊆+ l' -> Forall P l' -> Forall P l.
Proof. intros (k & E)%submseteq_Permutation. rewrite E. by intros [? _]%Forall_app. Qed.

Lemma beginning_submseteq l l' : l ⊆+ l' -> beginning l ⊆+ beginning l'.
Proof.
  intros (k & E)%submseteq_Permutation. assert (beginning l' ≡ₚ beginning l ++ beginning k) as ->; [|by apply submseteq_inserts_r].
  rewrite <- beginning_app. unfold beginning. by rewrite E.
Qed.

Lemma NoDup_transit l l' : l ⊆+ l' -> NoDup (beginning l') -> NoDup (beginning l).
Proof. intros Hs%beginning_submseteq. apply submseteq_Permutation in Hs as (k & ->). by intros (? & _)%NoDup_app. Qed.

(** Steps after which fewer commands are in transit, and nothing else of the writer
    has changed. *)
Lemma Sys_ok_fewer l free ws ss q w o free' ws' ss' q' :
  Sys_ok (l, mkSys free ws ss q w o) -> ws' ⊆+ ws -> ws' ++ ss' ++ q' ⊆+ ws ++ ss ++ q ->
  (o = false -> q' = []) -> (free' + queued ss' + queued q' = free + queued ss + queued q)%nat ->
  Sys_ok (l, mkSys free' ws' ss' q' w o).
Proof.
  intros [T C P B K A M Cl V] Hws Ht Ho Hf. simpl in *. unfold in_transit in *. simpl in *.
  split; simpl; try done; unfold in_transit; simpl.
  - by apply (Forall_transit _ _ Ht).
  - by apply (Forall_transit _ _ Ht).
  - by apply (NoDup_transit _ _ Ht).
  - by apply (Forall_transit _ _ Hws).
  - lia.
Qed.

Lemma internal_step_ok s s' : Sys_ok s -> internal_step s s' -> Sys_ok s'.
Proof.
  intros I Hs. destruct Hs as [l free cmd ws ss q w Hf|l free ws cmd ss q w Hq|l free ws ss cmd q w a w' E
    |l free ws ss cmd q w e w' E|l free cmd ws ss q w|l free ws cmd ss q w].
  - apply (Sys_ok_fewer l free (cmd :: ws) ss q w true); [done|solve_submseteq|solve_submseteq|done|].
    rewrite queued_app. simpl. lia.
  - apply (Sys_ok_fewer l free ws (cmd :: ss) q w true); [done|done| |done|rewrite queued_app; simpl; lia].
    solve_submseteq.
  - destruct I as [T C P B K A M Cl V]. simpl in *. unfold in_transit in *. simpl in *.
    specialize (T eq_refl). destruct (A eq_refl) as [A1 B1].
    assert (ws ++ ss ++ cmd :: q ≡ₚ cmd :: ws ++ ss ++ q) as Hp by solve_Permutation.
    rewrite Hp in C, P. apply Forall_cons in C as [Ck C]. apply Forall_cons in P as [Pk P].
    assert (NoDup (beginning (cmd :: ws ++ ss ++ q))) as B' by (unfold beginning in *; by rewrite Hp in B).
    destruct (handle_spec obj l cmd a w w' T Ck E) as (T' & Ad & _ & Q). destruct (Q Pk A1 B1) as [A' B1'].
    pose proof (keeps_handle cmd _ _ _ E) as Kp. split; simpl; try done; unfold in_transit; simpl.
    + apply List.Forall_forall. intros c Hc%list_elem_of_In. apply cmd_ok_step; [by apply (proj1 (Forall_forall _ _) C)|].
      intros k -> ->. simpl in B'. apply NoDup_cons in B' as [Hn _]. by apply Hn, elem_of_beginning.
    + change (NoDup (beginning ([cmd] ++ ws ++ ss ++ q))) in B'. rewrite beginning_app in B'. by apply NoDup_app in B' as (_ & _ & B').
    + intros _. by rewrite (ad_watermark _ _ _ (cr_advanced _ _ _ Ad)), M.
    + lia.
  - destruct I as [T C P B K A M Cl V]. simpl in *. unfold in_transit in *. simpl in *.
    assert (ws ++ ss ++ [] ⊆+ ws ++ ss ++ cmd :: q) as Ht by solve_submseteq.
    split; simpl; try done; unfold in_transit; simpl; [by apply (Forall_transit _ _ Ht)|by apply (Forall_transit _ _ Ht)|by apply (NoDup_transit _ _ Ht)|lia].
  - pose proof (so_closed _ I eq_refl) as Hq. simpl in Hq. subst q.
    apply (Sys_ok_fewer l free (cmd :: ws) ss [] w false); [done|solve_submseteq|solve_submseteq|done|lia].
  - pose proof (so_closed _ I eq_refl) as Hq. simpl in Hq. subst q.
    apply (Sys_ok_fewer l free ws (cmd :: ss) [] w false); [done|done|solve_submseteq|done|simpl; lia].
Qed.

Lemma client_step_ok s s' : Sys_ok s -> client_step s s' -> Sys_ok s'.
Proof.
  intros I Hs. destruct Hs as [l free ws ss q w offset data key Hl Ha cmd|l free ws ss q w cmd H0 Hp Hok Hb
    |l free ws1 cmd ws2 ss q w o|l free ws ss1 cmd ss2 q w o].
  - destruct I as [T C P B K A M Cl V]. unfold in_transit in *. simpl in *.
    assert ((ws ++ [cmd]) ++ ss ++ q ≡ₚ cmd :: ws ++ ss ++ q) as E by solve_Permutation.
    split; simpl; try done; unfold in_transit; simpl; rewrite ?E.
    + by apply Forall_cons.
    + by apply Forall_cons.
    + unfold beginning in *. by rewrite E.
    + apply Forall_app. split; [done|]. apply Forall_cons. split; [simpl; lia|done].
  - destruct I as [T C P B K A M Cl V]. unfold in_transit in *. simpl in *.
    assert (ws ++ (ss ++ [cmd]) ++ q ≡ₚ cmd :: ws ++ ss ++ q) as E by solve_Permutation.
    split; simpl; try done; unfold in_transit; simpl; rewrite ?E.
    + by apply Forall_cons.
    + by apply Forall_cons.
    + unfold beginning in *. rewrite E. destruct cmd as [k|o d p key|k|k|sync]; try done. simpl. apply NoDup_cons.
      split; [|done]. by apply (Hb k).
    + rewrite queued_app. simpl. lia.
  - apply (Sys_ok_fewer l free (ws1 ++ cmd :: ws2) ss q w o); [done|solve_submseteq|solve_submseteq|apply I|lia].
  - apply (Sys_ok_fewer l free ws (ss1 ++ cmd :: ss2) q w o); [done|done|solve_submseteq|apply I|].
    rewrite !queued_app. simpl. lia.
Qed.

Lemma sys_reachable_ok f io n s : opened obj f -> Sys_reachable f io n s -> Sys_ok s.
Proof.
  intros Hf Hr. refine (rtc_ind_r Sys_ok _ _ _ s Hr).
  - destruct (writer_new_acct f io n (watermark mb)). split; simpl; try done; [constructor|lia].
  - intros s1 s2 _ [Hs|Hs] I; [by apply (internal_step_ok s1)|by apply (client_step_ok s1)].
Qed.

(** The steps a command still has before it. *)
Definition distance (s : Ledger * Sys) : nat :=
  (3 * length (sys_waiters s.2) + 2 * length (sys_senders s.2) + length (sys_queue s.2))%nat.

Lemma internal_step_nearer s s' : internal_step s s' -> (distance s' < distance s)%nat.
Proof. destruct 1; unfold distance; simpl; rewrite ?length_app; simpl; lia. Qed.

Lemma internal_steps_end s : sn internal_step s.
Proof.
  remember (distance s) as d eqn:Hd. revert s Hd. induction (lt_wf d) as [d _ IH]. intros s ->. constructor. intros s' Hs.
  by apply (IH (distance s')); [apply internal_step_nearer|].
Qed.

(** Nobody waits, or something can be done about it. *)
Lemma internal_progress l s :
  Sys_ok (l, s) -> (1 <= capacity)%nat -> (watermark mb - 1 + max_chunk mb <= budget_bytes mb)%nat -> (1 <= watermark mb)%nat ->
  in_transit s <> [] -> exists s', internal_step (l, s) s'.
Proof.
  intros [T C P B K A M Cl V] Hc Hroom Hw Hn. destruct s as [free ws ss q w o]. simpl in *. destruct o.
  - destruct q as [|cmd q].
    2: { destruct (handle cmd w) as [[a|e] w'] eqn:E; eexists; [by apply handled with (a := a)|by apply writer_failed with (e := e)]. }
    destruct ss as [|cmd ss]; [|eexists; apply slot_sent; simpl; lia].
    destruct ws as [|cmd ws]; [done|]. eexists. apply acquired. apply Forall_cons in K as [K _].
    destruct (A eq_refl) as [[_ _ A3] Bw]. unfold below_watermark in Bw. rewrite (M eq_refl) in Bw. simpl in V. lia.
  - unfold in_transit in Hn. simpl in Hn. rewrite (Cl eq_refl) in *. destruct ws as [|cmd ws]; [|eexists; constructor].
    destruct ss as [|cmd ss]; [done|eexists; constructor].
Qed.
End System.

(** ** Properties *)

(** A frame is forwarded whole, in order and once.  The commands put on the
    channel carry consecutive chunks of the frame, each non-empty, no larger
    than [max_chunk] and with a permit for its own length, and the bytes
    reported to [sent] are exactly those enqueued; the frame is complete when
    the call succeeds, a prefix of it when a stop or a failure intervenes, and
    the loop terminates within one iteration per byte. *)
Theorem forward_frame bytes data offset key selected :
  (1 <= bytes)%nat -> 0 <= offset -> offset + blen data <= u64_max ->
  let mb := MemoryBudget_new bytes in
  exists r cmds n taken rest, forward mb data offset key selected = Some (r, cmds, n) /\
    data = taken ++ rest /\ n = blen taken /\ Chunked (max_chunk mb) key offset taken cmds /\
    (r = Ok tt -> rest = []) /\ (Forall (eq Sent) selected -> r = Ok tt).
Proof.
  intros Hb H0 Hu mb. destruct (budget_room bytes Hb) as (Hm & _).
  destruct (forward_loop_spec (length data) mb data offset key selected 0) as (r & cmds & n & E & taken & rest & H);
    [done|lia|done|done|]. by exists r, cmds, n, taken, rest.
Qed.

Lemma forward_frame_witness :
  let mb := MemoryBudget_new 5 in
  forward mb [1; 2; 3; 4; 5; 6; 7] 100 None [Sent; Sent; Stopped Paused] =
    Some (Err Paused, [Data 100 [1; 2; 3] (Some 3%nat) None; Data 103 [4; 5; 6] (Some 3%nat) None], 6) /\
  exists r cmds n taken rest, forward mb [1; 2; 3; 4; 5; 6; 7] 100 None [] = Some (r, cmds, n) /\
    [1; 2; 3; 4; 5; 6; 7] = taken ++ rest /\ n = blen taken /\ Chunked (max_chunk mb) None 100 taken cmds /\
    (r = Ok tt -> rest = []) /\ (Forall (eq Sent) [] -> r = Ok tt).
Proof.
  split; [reflexivity|]. apply (forward_frame 5); [lia|lia|vm_compute; discriminate].
Defined.

(** C37: the budget cannot deadlock.  Producers wait in line for permits and then for
    a slot of the bounded channel, holding their permits meanwhile; the writer keeps
    permits for what it buffers; commands are handled or make the writer fail, and
    any wait can be given up.  In every reachable state the permits that are free,
    held, queued and kept add up to the budget; whenever a command is in transit some
    step is possible without any new one arriving; and such steps come to an end, so
    that without new arrivals every chunk and every request is handled, or released
    because the writer has failed.  (The clients keep the writer's protocol: chunks of
    at most the maximal size with bytes of one object, and each lease begun once.) *)
Theorem budget_never_deadlocks obj bytes capacity f io n l s :
  (1 <= bytes)%nat -> (1 <= capacity)%nat -> opened obj f ->
  let mb := MemoryBudget_new bytes in
  Sys_reachable obj mb capacity f io n (l, s) ->
  (sys_free s + queued (sys_senders s) + queued (sys_queue s) + permit_total (permits (sys_writer s)) = bytes)%nat /\
  sn (internal_step capacity) (l, s) /\
  (forall s', rtc (internal_step capacity) (l, s) s' -> nf (internal_step capacity) s' -> in_transit s'.2 = []).
Proof.
  intros Hb Hcap Hf mb Hr. destruct (budget_room bytes Hb) as (_ & _ & Hw & Hroom).
  pose proof (sys_reachable_ok obj mb capacity f io n (l, s) Hf Hr) as I.
  split_and!; [apply (so_conserved _ _ _ I)|apply internal_steps_end|]. intros s' Hs Hnf.
  assert (Sys_ok obj mb s') as I'.
  { refine (rtc_ind_r (Sys_ok obj mb) _ I _ s' Hs). intros y z _ Hyz Iy. by apply (internal_step_ok obj mb capacity y). }
  destruct s' as [l' s']. destruct (decide (in_transit s' = [])) as [|Hn]; [done|]. destruct Hnf.
  destruct (internal_progress obj mb capacity l' s' I' Hcap Hroom Hw Hn) as [s2 H2]. by exists s2.
Qed.

(** A budget of five bytes and a channel of one slot: the second chunk of three bytes
    waits until the writer has flushed the first one. *)
Definition demo_chunk (o : Z) (d : bytes) : WriterCommand := Data o d (Some (length d)) None.

Definition demo_waiting : Sys :=
  mkSys 2 [demo_chunk 3 [3; 4; 5]] [] [demo_chunk 0 [0; 1; 2]] (writer_new demo_file [] 0 2) true.

Lemma demo_waiting_reached : Sys_reachable demo_object (MemoryBudget_new 5) 1 demo_file [] 0 (ledger_new, demo_waiting).
Proof.
  assert (agrees demo_object 0 [0; 1; 2] /\ agrees demo_object 3 [3; 4; 5]) as [H0 H3].
  { split; (split; [lia|]; split; [vm_compute; discriminate|]); intros [|[|[|i]]] v Hv; simpl in Hv; try discriminate Hv; by injection Hv as <-. }
  eapply rtc_l; [right; apply (wants _ _ _ _ _ _ _ _ 0 [0; 1; 2] None); [vm_compute; lia|exact H0]|].
  eapply rtc_l; [right; apply (wants _ _ _ _ _ _ _ _ 3 [3; 4; 5] None); [vm_compute; lia|exact H3]|].
  eapply rtc_l; [left; apply acquired; vm_compute; lia|]. apply rtc_once. left. apply slot_sent. simpl. lia.
Qed.

Lemma budget_never_deadlocks_witness :
  exists s', rtc (internal_step 1) (ledger_new, demo_waiting) s' /\ in_transit s'.2 = [] /\ written_bytes (sys_writer s'.2) = 6.
Proof.
  assert (exists s1, internal_step 1 (ledger_new, demo_waiting) s1 /\ exists s2, internal_step 1 s1 s2 /\
    exists s3, internal_step 1 s2 s3 /\ exists s4, internal_step 1 s3 s4 /\ nf (internal_step 1) s4 /\
    written_bytes (sys_writer s4.2) = 6) as (s1 & H1 & s2 & H2 & s3 & H3 & s4 & H4 & Hnf & Hw).
  { eexists. split; [eapply handled; vm_compute; reflexivity|]. eexists. split; [apply acquired; vm_compute; lia|].
    eexists. split; [apply slot_sent; vm_compute; lia|]. eexists. split; [eapply handled; vm_compute; reflexivity|].
    split; [|reflexivity]. intros [s' Hs]. inversion Hs. }
  assert (rtc (internal_step 1) (ledger_new, demo_waiting) s4) as Hr
    by (do 3 (eapply rtc_l; [eassumption|]); by apply rtc_once).
  exists s4. split; [exact Hr|]. split; [|exact Hw].
  exact (proj2 (proj2 (budget_never_deadlocks demo_object 5 1 demo_file [] 0 ledger_new demo_waiting ltac:(lia) ltac:(lia)
    demo_opened demo_waiting_reached)) s4 Hr Hnf).
Defined.
