(* ===== verification/Retry.v ===== *)
(** * The retry policy ([src/session/retry.rs], stop signals of [src/session/mod.rs])

    Durations and instants are nanoseconds.  The clock readings, the random
    number drawn for the jitter, the results of the operation and the stop
    requests observed while it runs are inputs. *)

From S2P Require Import Prelude RustStr Errors.

Inductive StopSignal := Running | Cancel | Pause.

Definition stop_signal_error (signal : StopSignal) : option DownloadError :=
  match signal with
  | Running => None
  | Cancel => Some Cancelled
  | Pause => Some Paused
  end.

(** ** Durations *)

Definition nanos_per_sec : Z := 1000000000.

(** [Duration::MAX] *)
Definition duration_max : Z := u64_max * nanos_per_sec + (nanos_per_sec - 1).

Definition duration (d : Z) : Prop := 0 <= d <= duration_max.

(** [saturating_mul] and [saturating_add] of [Duration] *)
Definition duration_sat_mul (d k : Z) : Z := Z.min (d * k) duration_max.

Definition duration_sat_add (a b : Z) : Z := Z.min (a + b) duration_max.

(** ** The state *)

Record RetryState := mkRetry {
  retries_started : Z;
  started_at : Z;
  max_retries : Z;
  base_delay : Z;
  max_delay : Z;
  max_retry_elapsed : option Z;
}.

Inductive RetryDecision :=
| Stop (e : DownloadError)
| Retry (e : DownloadError) (retry_count backoff elapsed : Z).

Definition retry_new (max_retries base_delay max_delay : Z) (max_retry_elapsed : option Z) (now : Z) : RetryState :=
  mkRetry 0 now max_retries base_delay max_delay max_retry_elapsed.

(** [self.started_at.elapsed()] at the instant [now] *)
Definition elapsed_at (st : RetryState) (now : Z) : Z := Z.max 0 (now - started_at st).

(** [draw m] is the number [fastrand::u64(0..=m)] returns. *)
Definition retry_backoff (e : DownloadError) (retry_count base_delay max_delay : Z) (draw : Z -> Z) : Z :=
  match retry_after_secs e with
  | Some secs => secs * nanos_per_sec
  | None =>
      let raw := Z.min (duration_sat_mul base_delay (Z.shiftl 1 (Z.min retry_count 10))) max_delay in
      let half := raw / 2 in
      let max_jitter := Z.min half u64_max in
      half + draw max_jitter
  end.

Definition over_limit (limit : option Z) (elapsed : Z) : option DownloadError :=
  match limit with
  | Some limit => if limit <=? elapsed then Some (RetryBudgetExceeded elapsed limit) else None
  | None => None
  end.

Definition sleep_over_limit (limit : option Z) (elapsed backoff : Z) : option DownloadError :=
  match limit with
  | Some limit =>
      if limit <? duration_sat_add elapsed backoff then Some (RetryBudgetExceeded elapsed limit) else None
  | None => None
  end.

(** [decide_inner]; [now1] and [now2] are the two readings of the clock. *)
Definition decide_inner (st : RetryState) (e : DownloadError) (force_retry immediate : bool)
    (now1 now2 : Z) (draw : Z -> Z) : RetryDecision * RetryState :=
  if (negb force_retry && negb (is_retryable e)) || (max_retries st <=? retries_started st) then (Stop e, st)
  else
    match over_limit (max_retry_elapsed st) (elapsed_at st now1) with
    | Some e => (Stop e, st)
    | None =>
        let retry_count := Z.min (retries_started st + 1) (2 ^ 32 - 1) in
        let backoff :=
          if immediate && (retry_count =? 1) && negb (bool_decide (is_Some (retry_after_secs e))) then 0
          else retry_backoff e retry_count (base_delay st) (max_delay st) draw in
        let elapsed := elapsed_at st now2 in
        match sleep_over_limit (max_retry_elapsed st) elapsed backoff with
        | Some e => (Stop e, st)
        | None =>
            (Retry e retry_count backoff elapsed,
             mkRetry retry_count (started_at st) (max_retries st) (base_delay st) (max_delay st) (max_retry_elapsed st))
        end
    end.

Definition decide (st : RetryState) (e : DownloadError) : Z -> Z -> (Z -> Z) -> RetryDecision * RetryState :=
  decide_inner st e false false.

Definition is_timeout (e : DownloadError) : bool := match e with Transport Timeout _ => true | _ => false end.

Definition decide_body_failure (st : RetryState) (e : DownloadError) : Z -> Z -> (Z -> Z) -> RetryDecision * RetryState :=
  decide_inner st e false (is_timeout e).

Definition decide_restart (st : RetryState) (e : DownloadError) : Z -> Z -> (Z -> Z) -> RetryDecision * RetryState :=
  decide_inner st e true false.

(** ** [retry_with_backoff] *)

Section Loop.
  Context {T : Type}.

(** What the loop meets in one iteration: the stop signal read before the
    operation starts, a stop request while it runs, its result, the clock, the
    random number, and a stop request while the loop sleeps. *)
Record Attempt := mkAttempt {
  stop_before : StopSignal;
  stop_during : option StopSignal;
  outcome : result T DownloadError;
  now1 : Z;
  now2 : Z;
  draw : Z -> Z;
  stop_sleeping : option StopSignal;
}.

(** Signals other than [Running] end a wait; a waiting loop goes on otherwise. *)
Definition waited (s : option StopSignal) : option DownloadError := s ≫= stop_signal_error.

(** The result and the number of operations started.  [None]: out of fuel. *)
Fixpoint retry_loop (fuel : nat) (st : RetryState) (env : nat -> Attempt) (i : nat)
    : option (result T DownloadError * nat) :=
  match fuel with
  | O => None
  | S fuel =>
      let a := env i in
      match stop_signal_error (stop_before a) with
      | Some e => Some (Err e, i)
      | None =>
          match waited (stop_during a) with
          | Some e => Some (Err e, S i)
          | None =>
              match outcome a with
              | Ok v => Some (Ok v, S i)
              | Err e =>
                  match decide st e (now1 a) (now2 a) (draw a) with
                  | (Stop e, _) => Some (Err e, S i)
                  | (Retry _ _ _ _, st) =>
                      match waited (stop_sleeping a) with
                      | Some e => Some (Err e, S i)
                      | None => retry_loop fuel st env (S i)
                      end
                  end
              end
          end
      end
  end.

Definition retry_with_backoff (max_retries base_delay max_delay : Z) (max_retry_elapsed : option Z)
    (now : Z) (env : nat -> Attempt) (fuel : nat) : option (result T DownloadError * nat) :=
  retry_loop fuel (retry_new max_retries base_delay max_delay max_retry_elapsed now) env 0.
End Loop.

#[global] Arguments Attempt T : clear implicits.

(** ** Properties *)

Lemma decide_inner_retry st e force imm n1 n2 draw e' c b el st' :
  decide_inner st e force imm n1 n2 draw = (Retry e' c b el, st') ->
  e' = e /\ (force = true \/ is_retryable e = true) /\ retries_started st < max_retries st /\
  c = Z.min (retries_started st + 1) (2 ^ 32 - 1) /\ el = elapsed_at st n2 /\
  (forall limit, max_retry_elapsed st = Some limit ->
     elapsed_at st n1 < limit /\ duration_sat_add el b <= limit) /\
  st' = mkRetry c (started_at st) (max_retries st) (base_delay st) (max_delay st) (max_retry_elapsed st) /\
  b = (if imm && (c =? 1) && negb (bool_decide (is_Some (retry_after_secs e))) then 0
       else retry_backoff e c (base_delay st) (max_delay st) draw).
Proof.
  unfold decide_inner. destruct (_ || _) eqn:G; [done|]. apply orb_false_iff in G as [G1 G2].
  apply Z.leb_gt in G2. unfold over_limit, sleep_over_limit.
  destruct (max_retry_elapsed st) as [lim|] eqn:L.
  - destruct (lim <=? elapsed_at st n1) eqn:D1; [done|]. destruct (lim <? _) eqn:D2; [done|].
    intros [= <- <- <- <- <-]. apply Z.leb_gt in D1. apply Z.ltb_ge in D2. split_and!; try done.
    + destruct force, (is_retryable e); auto.
    + by intros limit [= <-].
  - intros [= <- <- <- <- <-]. split_and!; try done. destruct force, (is_retryable e); auto.
Qed.

Lemma retry_raw_bounds base maxd count :
  duration base -> duration maxd -> 1 <= count ->
  let raw := Z.min (duration_sat_mul base (Z.shiftl 1 (Z.min count 10))) maxd in
  0 <= raw <= maxd /\ Z.min (2 * base) maxd <= raw /\ raw <= base * 1024.
Proof.
  intros [Hb Hb'] [Hm Hm'] Hc raw. subst raw. rewrite Z.shiftl_1_l.
  assert (2 <= 2 ^ Z.min count 10 <= 1024) as [H1 H2].
  { split; [change 2 with (2 ^ 1) at 1|change 1024 with (2 ^ 10)]; apply Z.pow_le_mono_r; lia. }
  unfold duration_sat_mul. nia.
Qed.

(** The policy retries exactly when it may, and its delay keeps to its
    bounds.  A retry is granted only for a retryable error (or a forced
    restart), below the retry limit and with time left: the elapsed time plus
    the delay stays within the elapsed limit.  The delay is the server's
    retry-after hint when there is one; otherwise it lies between half of and
    the whole of the exponential delay, never above [max_delay]; a first body
    timeout reconnects at once.  The retry counter goes up by one. *)
Theorem retry_granted st e force imm n1 n2 draw e' c b el st' :
  decide_inner st e force imm n1 n2 draw = (Retry e' c b el, st') ->
  0 <= retries_started st -> max_retries st <= 2 ^ 32 - 1 ->
  duration (base_delay st) -> duration (max_delay st) -> (forall m, 0 <= m -> 0 <= draw m <= m) ->
  e' = e /\ (force = true \/ is_retryable e = true) /\
  retries_started st' = retries_started st + 1 /\ retries_started st' <= max_retries st /\ c = retries_started st' /\
  (forall limit, max_retry_elapsed st = Some limit -> limit < duration_max -> el + b <= limit) /\
  (forall secs, retry_after_secs e = Some secs -> b = secs * nanos_per_sec) /\
  (retry_after_secs e = None -> 0 <= b <= Z.min (base_delay st * 1024) (max_delay st) /\
     (imm = false -> Z.min (2 * base_delay st) (max_delay st) / 2 <= b) /\ (imm = true -> c = 1 -> b = 0)).
Proof.
  intros E H0 Hm Hb Hd Hdraw. apply decide_inner_retry in E as (-> & Hr & Hlt & Hc & -> & Hl & -> & ->).
  rewrite Z.min_l in Hc by lia. simpl. split_and!; try done; try lia.
  - intros limit El Hmax. destruct (Hl limit El) as [_ Hs]. unfold duration_sat_add in Hs. lia.
  - intros secs Es. rewrite bool_decide_eq_true_2 by (by eexists). rewrite andb_false_r.
    unfold retry_backoff. by rewrite Es.
  - intros En. rewrite bool_decide_eq_false_2 by (rewrite En; by intros []). rewrite andb_true_r.
    assert (1 <= c) as Hc1 by lia.
    destruct (retry_raw_bounds (base_delay st) (max_delay st) c Hb Hd Hc1) as (R1 & R2 & R3).
    unfold retry_backoff. rewrite En.
    set (raw := Z.min (duration_sat_mul _ _) _) in *.
    assert (0 <= raw / 2) as Hh by (apply Z.div_pos; lia).
    pose proof (Hdraw (Z.min (raw / 2) u64_max) ltac:(unfold u64_max; lia)) as Hj.
    pose proof (Z.div_mod raw 2 ltac:(lia)). pose proof (Z.mod_pos_bound raw 2 ltac:(lia)).
    split_and!.
    + destruct (imm && (c =? 1)); lia.
    + destruct Hb, Hd. destruct (imm && (c =? 1)); lia.
    + intros ->. simpl. pose proof (Z.div_le_mono _ _ 2 ltac:(lia) R2). lia.
    + intros -> ->. done.
Qed.

Lemma retry_granted_witness :
  let st := retry_new 5 (500 * 1000000) (30 * nanos_per_sec) (Some (60 * nanos_per_sec)) 0 in
  let e := HttpStatus 503 (str "busy") in
  exists c b el st', decide_inner st e false false 1000 2000 (fun m => m / 3) = (Retry e c b el, st') /\
    retries_started st' = 1 /\ el + b <= 60 * nanos_per_sec.
Proof.
  intros st e. destruct (decide_inner st e false false 1000 2000 (fun m => m / 3)) as [[e'|e' c b el] st'] eqn:E;
    [vm_compute in E; discriminate E|].
  assert (0 <= retries_started st) as H1 by (vm_compute; discriminate).
  assert (max_retries st <= 2 ^ 32 - 1) as H2 by (vm_compute; discriminate).
  assert (duration (base_delay st)) as H3 by (split; vm_compute; discriminate).
  assert (duration (max_delay st)) as H4 by (split; vm_compute; discriminate).
  assert (forall m, 0 <= m -> 0 <= m / 3 <= m) as H5.
  { intros m Hm. split; [apply Z.div_pos; lia|apply Z.div_le_upper_bound; lia]. }
  destruct (retry_granted st e false false 1000 2000 _ e' c b el st' E H1 H2 H3 H4 H5)
    as (-> & _ & Hs & _ & _ & Hl & _).
  exists c, b, el, st'. split; [reflexivity|]. split; [exact Hs|].
  apply (Hl (60 * nanos_per_sec)); [reflexivity|vm_compute; reflexivity].
Defined.

Lemma decide_stop st e n1 n2 draw e' st' :
  decide st e n1 n2 draw = (Stop e', st') ->
  (e' = e /\ (is_retryable e = false \/ max_retries st <= retries_started st)) \/
  exists el lim, e' = RetryBudgetExceeded el lim.
Proof.
  unfold decide, decide_inner, over_limit, sleep_over_limit. destruct (_ || _) eqn:G.
  - intros [= <- _]. left. split; [done|]. simpl in G. apply orb_true_iff in G as [G|G]; [left|right].
    + by destruct (is_retryable e).
    + by apply Z.leb_le.
  - destruct (max_retry_elapsed st) as [lim|]; [|done].
    destruct (lim <=? elapsed_at st n1); [intros H; inversion H; eauto|].
    destruct (lim <? duration_sat_add _ _); [intros H; inversion H; eauto|done].
Qed.

Lemma stop_cases s e : stop_signal_error s = Some e -> e = Cancelled \/ e = Paused.
Proof. destruct s; intros [= <-]; auto. Qed.

Lemma waited_cases s e : waited s = Some e -> e = Cancelled \/ e = Paused.
Proof. destruct s as [s|]; [|done]. apply stop_cases. Qed.

Section LoopProps.
  Context {T : Type}.

(** A loop entered at attempt [i] with [k] retries left ends with [r] after
    [n] attempts in all. *)
Record LoopEnds (env : nat -> Attempt T) (i k : nat) (r : result T DownloadError) (n : nat) : Prop := {
  le_count : (i <= n <= i + k + 1)%nat;
  le_retried : forall j, (i <= j < n - 1)%nat -> exists e, outcome (env j) = Err e /\ is_retryable e = true;
  le_ok : forall v, r = Ok v -> exists j, n = S j /\ outcome (env j) = Ok v;
  le_err : forall e, r = Err e -> (e = Cancelled \/ e = Paused) \/ (exists el lim, e = RetryBudgetExceeded el lim) \/
    exists j, n = S j /\ outcome (env j) = Err e /\ (is_retryable e = false \/ n = (i + k + 1)%nat);
}.

Lemma retry_loop_spec (env : nat -> Attempt T) k fuel st i :
  max_retries st <= 2 ^ 32 - 1 -> 0 <= retries_started st ->
  max_retries st - retries_started st = Z.of_nat k -> (k < fuel)%nat ->
  exists r n, retry_loop fuel st env i = Some (r, n) /\ LoopEnds env i k r n.
Proof.
  revert k st i. induction fuel as [|fuel IH]; intros k st i Hm H0 Hk Hf; [lia|]. cbn [retry_loop].
  destruct (stop_signal_error (stop_before (env i))) as [e|] eqn:S1.
  { eexists _, _. split; [done|]. split; [lia|lia|done|]. intros e' [= <-]. left. by eapply stop_cases. }
  destruct (waited (stop_during (env i))) as [e|] eqn:S2.
  { eexists _, _. split; [done|]. split; [lia|lia|done|]. intros e' [= <-]. left. by eapply waited_cases. }
  destruct (outcome (env i)) as [v|e] eqn:Ho.
  { eexists _, _. split; [done|]. split; [lia|lia| |done]. intros v' [= <-]. by exists i. }
  destruct (decide st e _ _ _) as [[e'|e' c b el] st'] eqn:D.
  - eexists _, _. split; [done|]. split; [lia|lia|done|]. intros e2 [= <-].
    apply decide_stop in D as [[-> Hs]|Hs]; [right; right|right; left; done]. exists i. split_and!; try done.
    destruct Hs; [by left|right; lia].
  - apply decide_inner_retry in D as (-> & [|Hr] & Hlt & Hc & _ & _ & -> & _); [done|].
    rewrite Z.min_l in Hc by lia. destruct k as [|k]; [lia|].
    destruct (waited (stop_sleeping (env i))) as [e'|] eqn:S3.
    { eexists _, _. split; [done|]. split; [lia|lia|done|]. intros e2 [= <-]. left. by eapply waited_cases. }
    edestruct (IH k (mkRetry c (started_at st) (max_retries st) (base_delay st) (max_delay st) (max_retry_elapsed st)) (S i))
      as (r & n & E & [L1 L2 L3 L4]); simpl; [lia..|]. exists r, n. split; [done|]. split.
    + lia.
    + intros j Hj. destruct (Nat.eq_dec j i) as [->|]; [by exists e|]. apply L2. lia.
    + done.
    + intros e2 He. destruct (L4 e2 He) as [?|[?|(j & ? & ? & Hj)]]; [by left|right; left; done|right; right].
      exists j. split_and!; try done. destruct Hj; [by left|right; lia].
Qed.

(** The retry loop always ends, after at most [max_retries + 1] operations.
    Every operation but the last failed with a retryable error; a success is
    the result of the last operation; a failure is a stop request, an exceeded
    time budget, or the error of the last operation, which then was not
    retryable or used up the last attempt. *)
Theorem retry_loop_bounded (env : nat -> Attempt T) retries base maxd limit now :
  0 <= retries <= 2 ^ 32 - 1 ->
  exists r n, retry_with_backoff retries base maxd limit now env (Z.to_nat retries + 1) = Some (r, n) /\
    Z.of_nat n <= retries + 1 /\
    (forall j, (j < n - 1)%nat -> exists e, outcome (env j) = Err e /\ is_retryable e = true) /\
    (forall v, r = Ok v -> exists j, n = S j /\ outcome (env j) = Ok v) /\
    (forall e, r = Err e -> (e = Cancelled \/ e = Paused) \/ (exists el lim, e = RetryBudgetExceeded el lim) \/
       exists j, n = S j /\ outcome (env j) = Err e /\ (is_retryable e = false \/ Z.of_nat n = retries + 1)).
Proof.
  intros Hr. destruct (retry_loop_spec env (Z.to_nat retries) (Z.to_nat retries + 1)
    (retry_new retries base maxd limit now) 0) as (r & n & E & [L1 L2 L3 L4]); simpl; try lia.
  exists r, n. split; [done|]. split_and!; try done; [lia| |].
  - intros j Hj. apply L2. lia.
  - intros e He. destruct (L4 e He) as [?|[?|(j & ? & ? & Hj)]]; [by left|right; left; done|right; right].
    exists j. split_and!; try done. destruct Hj; [by left|right; lia].
Qed.
End LoopProps.

Lemma retry_loop_bounded_witness :
  let fails := mkAttempt Running None (@Err Z _ (HttpStatus 500 [])) 0 0 (fun m => m) None in
  let works := mkAttempt Running None (Ok 42) 0 0 (fun m => m) None in
  let env := fun i => if (i <? 2)%nat then fails else works in
  retry_with_backoff 3 1000 5000 None 0 env 4 = Some (Ok 42, 3%nat) /\
  exists r n, retry_with_backoff 3 1000 5000 None 0 env 4 = Some (r, n) /\ Z.of_nat n <= 4.
Proof.
  intros fails works env. split; [vm_compute; reflexivity|].
  destruct (retry_loop_bounded env 3 1000 5000 None 0 ltac:(lia)) as (r & n & E & Hn & _).
  exists r, n. split; [exact E|exact Hn].
Defined.
