(* ===== verification/Response.v ===== *)
(** * Response metadata ([src/http/response.rs])

    [ResponseMeta::from_parts] reads the headers the session relies on.  The
    header map is the [http] crate's: it is a function from a lower-case name to
    the first value, when that is a printable string. *)

From S2P Require Import Prelude RustStr Errors.

Record ResponseMeta := mkMeta {
  content_length : option Z;
  content_range_start : option Z;
  content_range_end : option Z;
  content_range_total : option Z;
  accept_ranges : bool;
  etag : option rstr;
  last_modified : option rstr;
  content_disposition : option rstr;
  content_encoding : option rstr;
}.

(** ['/'], ['-'] and ["*"] *)
Definition slash : Z := 47.
Definition dash : Z := 45.
Definition star : rstr := [42].

(** The closure that parses a [Content-Range] value. *)
Definition parse_content_range (s : rstr) : option (option Z * option Z * option Z) :=
  let value := trim s in
  rest ← strip_prefix (str "bytes ") value;
  '(range_part, total_part) ← split_once slash rest;
  '(start, end_) ← split_once dash range_part;
  start ← parse_u64 (trim start);
  end_ ← parse_u64 (trim end_);
  if bool_decide (total_part = star) then Some (Some start, Some end_, None)
  else Some (Some start, Some end_, parse_u64 (trim total_part)).

Definition from_parts (header : rstr -> option rstr) (content_length_override : option Z) : ResponseMeta :=
  let '(start, end_, total) :=
    default (None, None, None) (header (str "content-range") ≫= parse_content_range) in
  {| content_length :=
       match content_length_override with
       | Some n => Some n
       | None => header (str "content-length") ≫= parse_u64
       end;
     content_range_start := start;
     content_range_end := end_;
     content_range_total := total;
     accept_ranges := default false (fmap (fun v => eq_ignore_ascii_case v (str "bytes")) (header (str "accept-ranges")));
     etag := header (str "etag");
     last_modified := header (str "last-modified");
     content_disposition := header (str "content-disposition");
     content_encoding := header (str "content-encoding") |}.

(** The value a server sends for bytes [a] to [b] of [total]. *)
Definition show_content_range (a b : Z) (total : option Z) : rstr :=
  str "bytes " ++ show_u64 a ++ dash :: show_u64 b ++
  slash :: match total with Some n => show_u64 n | None => star end.

Lemma not_digit n c : u64 n -> (c < 48 \/ 57 < c) -> c ∉ show_u64 n.
Proof. intros Hn Hc H%show_u64_digits; [lia|done]. Qed.

Lemma content_range_untrimmed a b total :
  u64 a -> u64 b -> (forall n, total = Some n -> u64 n) ->
  trim (show_content_range a b total) = show_content_range a b total.
Proof.
  intros Ha Hb Ht. unfold trim. change (trim_start_matches is_whitespace (show_content_range a b total))
    with (show_content_range a b total). unfold trim_end_matches.
  assert (exists d r, reverse (show_content_range a b total) = d :: r /\ is_whitespace d = false) as (d & r & E & Hd).
  { assert (exists s d, show_content_range a b total = s ++ [d] /\ is_whitespace d = false) as (s & d & E & Hd).
    2: { exists d, (reverse s). split; [|done]. by rewrite E, reverse_snoc. }
    unfold show_content_range. destruct total as [n|].
    - pose proof (Ht n eq_refl) as Hn. pose proof (show_u64_not_nil n Hn) as Hne.
      destruct (show_u64 n) as [|d s _] eqn:Es using rev_ind; [done|].
      exists (str "bytes " ++ show_u64 a ++ dash :: show_u64 b ++ slash :: s), d. split.
      + rewrite <- !app_assoc. simpl. by rewrite <- !app_assoc.
      + assert (48 <= d <= 57) as Hd by (apply (show_u64_digits n); [done|rewrite Es; apply elem_of_app; right; by left]).
        unfold is_whitespace. repeat rewrite orb_false_iff. rewrite !andb_false_iff, !Z.leb_gt, !Z.eqb_neq. lia.
    - exists (str "bytes " ++ show_u64 a ++ dash :: show_u64 b ++ [slash]), 42. split; [|done].
      rewrite <- !app_assoc. simpl. by rewrite <- !app_assoc. }
  rewrite E, trim_start_id by done. by rewrite <- E, reverse_involutive.
Qed.

(** [Content-Range] values are read back exactly: for every range and total
    (or unknown total) the printed header parses to the same numbers. *)
Theorem content_range_roundtrip a b total :
  u64 a -> u64 b -> (forall n, total = Some n -> u64 n) ->
  parse_content_range (show_content_range a b total) = Some (Some a, Some b, total).
Proof.
  intros Ha Hb Ht. unfold parse_content_range. rewrite content_range_untrimmed by done.
  unfold show_content_range. rewrite strip_prefix_app. simpl.
  assert (forall t, show_u64 a ++ dash :: show_u64 b ++ slash :: t = (show_u64 a ++ dash :: show_u64 b) ++ slash :: t) as ->
    by (intros t; by rewrite <- app_assoc).
  rewrite split_once_app.
  2: { rewrite elem_of_app, elem_of_cons. intros [H|[H|H]]; [|done|];
         revert H; apply not_digit; (done || (unfold slash; lia)). }
  simpl. rewrite split_once_app by (apply not_digit; [done|unfold dash; lia]). simpl.
  rewrite !trim_show_u64, !parse_show_u64 by done. simpl. destruct total as [n|]; [|done].
  pose proof (Ht n eq_refl) as Hn. rewrite bool_decide_eq_false_2.
  - by rewrite trim_show_u64, parse_show_u64.
  - intros E. pose proof (show_u64_digits n 42 Hn) as H. rewrite E in H. specialize (H ltac:(by left)). lia.
Qed.

Lemma content_range_roundtrip_witness :
  show_content_range 100 199 (Some 1000) = str "bytes 100-199/1000" /\
  parse_content_range (show_content_range 100 199 (Some 1000)) = Some (Some 100, Some 199, Some 1000).
Proof.
  split; [vm_compute; reflexivity|].
  apply (content_range_roundtrip 100 199 (Some 1000)); [split; [lia|vm_compute; discriminate]..|].
  intros n [= <-]. split; [lia|vm_compute; discriminate].
Defined.
