(* ===== verification/RangeValidate.v ===== *)
(** * Validation of range responses ([src/session/range_validate.rs])

    Which responses to a range request are accepted, in the three situations in
    which the session sends one. *)

From S2P Require Import Prelude RustStr Errors Response.

Inductive RangeValidationMode := FreshProbe | ResumeProbe | SegmentMode.

Record ExpectedRange := mkExpected {
  exp_start : Z;
  exp_end_inclusive : Z;
  exp_total_size : option Z;
}.

Inductive FreshRangeFallbackReason := RangeNotSupported | EncodedResponse.

Inductive RangeValidationDecision :=
| Accept
| FallbackToSingle (reason : FreshRangeFallbackReason).

Definition mismatched_content_range_error : DownloadError :=
  ResumeMismatch (str "server returned a mismatched Content-Range").

Definition range_response_allowed (meta : ResponseMeta) : bool :=
  match content_encoding meta with
  | Some encoding => eq_ignore_ascii_case encoding (str "identity")
  | None => true
  end.

Definition validate_range_status (status : Z) (retry_after_header : option rstr) (mode : RangeValidationMode)
    : result RangeValidationDecision DownloadError :=
  if status =? 200 then
    match mode with
    | FreshProbe => Ok (FallbackToSingle RangeNotSupported)
    | ResumeProbe | SegmentMode =>
        Err (HttpStatus 200 (str "server returned 200 instead of 206; Range not supported"))
    end
  else if (status =? 429) || (status =? 503) then
    let retry_after := v ← retry_after_header; parse_u64 (trim v) in
    let message := match retry_after with
                   | Some secs => str "retry-after:" ++ show_u64 secs
                   | None => str "HTTP " ++ show_u64 status
                   end in
    Err (HttpStatus status message)
  else if negb (status =? 206) then
    let message := match mode with
                   | FreshProbe => str "expected 206 or 200, got " ++ show_u64 status
                   | ResumeProbe | SegmentMode => str "expected 206, got " ++ show_u64 status
                   end in
    Err (HttpStatus status message)
  else Ok Accept.

Definition resolve_response_total (meta : ResponseMeta) (mode : RangeValidationMode) (expected_total : option Z)
    : result Z DownloadError :=
  match mode with
  | FreshProbe =>
      match content_range_total meta with
      | Some total => Ok total
      | None => Err (ResumeMismatch (str "range probe response missing Content-Range total"))
      end
  | ResumeProbe | SegmentMode =>
      match expected_total with
      | None => Err mismatched_content_range_error
      | Some expected_total =>
          match content_range_total meta with
          | Some actual => if actual =? expected_total then Ok actual else Err mismatched_content_range_error
          | None => Err mismatched_content_range_error
          end
      end
  end.

(** [u64::checked_sub] and [u64::checked_add] *)
Definition checked_sub (a b : Z) : option Z := if b <=? a then Some (a - b) else None.
Definition checked_add (a b : Z) : option Z := if a + b <=? u64_max then Some (a + b) else None.

Definition resolve_expected_end (expected : ExpectedRange) (response_total : Z) (mode : RangeValidationMode)
    : option Z :=
  match mode with
  | FreshProbe =>
      response_last_byte ← checked_sub response_total 1;
      if response_last_byte <? exp_start expected then None
      else Some (Z.min (exp_end_inclusive expected) response_last_byte)
  | ResumeProbe | SegmentMode => Some (exp_end_inclusive expected)
  end.

Definition length_mismatch_message : rstr := str "server returned a mismatched Content-Length for range response".

Definition validate_range_response (status : Z) (retry_after_header : option rstr) (meta : ResponseMeta)
    (mode : RangeValidationMode) (expected : ExpectedRange) : result RangeValidationDecision DownloadError :=
  match validate_range_status status retry_after_header mode with
  | Err e => Err e
  | Ok (FallbackToSingle reason) => Ok (FallbackToSingle reason)
  | Ok Accept =>
      if negb (range_response_allowed meta) then
        match mode with
        | FreshProbe => Ok (FallbackToSingle EncodedResponse)
        | ResumeProbe | SegmentMode =>
            Err (ResumeMismatch (str "range responses with content-encoding are not supported"))
        end
      else
        match resolve_response_total meta mode (exp_total_size expected) with
        | Err e => Err e
        | Ok response_total =>
            match resolve_expected_end expected response_total mode with
            | None => Err mismatched_content_range_error
            | Some expected_end =>
                if negb (bool_decide (content_range_start meta = Some (exp_start expected))) ||
                   negb (bool_decide (content_range_end meta = Some expected_end))
                then Err mismatched_content_range_error
                else
                  match (len ← checked_sub expected_end (exp_start expected); checked_add len 1) with
                  | None => Err mismatched_content_range_error
                  | Some expected_len =>
                      if match content_length meta with Some n => negb (n =? expected_len) | None => false end then
                        match mode with
                        | SegmentMode => Err (Transport Body length_mismatch_message)
                        | FreshProbe | ResumeProbe => Err (ResumeMismatch length_mismatch_message)
                        end
                      else Ok Accept
                  end
            end
        end
  end.

(** ** Properties *)

(** The last byte of the range a response must deliver. *)
Definition required_end (mode : RangeValidationMode) (expected : ExpectedRange) (total : Z) : Z :=
  match mode with
  | FreshProbe => Z.min (exp_end_inclusive expected) (total - 1)
  | ResumeProbe | SegmentMode => exp_end_inclusive expected
  end.

Lemma resolve_total_Ok meta mode ts total :
  resolve_response_total meta mode ts = Ok total <->
  content_range_total meta = Some total /\ match mode with FreshProbe => True | _ => ts = Some total end.
Proof.
  unfold resolve_response_total. destruct mode.
  1: destruct (content_range_total meta); naive_solver.
  all: destruct ts as [t|]; [|naive_solver]; destruct (content_range_total meta) as [a|]; [|naive_solver];
    destruct (Z.eqb_spec a t); naive_solver.
Qed.

Lemma resolve_end_Some expected total mode e :
  0 <= exp_start expected -> resolve_expected_end expected total mode = Some e ->
  e = required_end mode expected total /\ match mode with FreshProbe => exp_start expected < total | _ => True end.
Proof.
  intros H0. unfold resolve_expected_end, required_end, checked_sub. destruct mode; [|by intros [= <-]..].
  destruct (Z.leb_spec 1 total); [|done]. simpl. destruct (Z.ltb_spec (total - 1) (exp_start expected)); [done|].
  intros [= <-]. split; [done|lia].
Qed.

(** The comparison of the headers with the range [start, e]. *)
Lemma accept_tail meta mode start e :
  (if negb (bool_decide (content_range_start meta = Some start)) || negb (bool_decide (content_range_end meta = Some e))
   then Err mismatched_content_range_error
   else match (len ← checked_sub e start; checked_add len 1) with
        | None => Err mismatched_content_range_error
        | Some expected_len =>
            if match content_length meta with Some n => negb (n =? expected_len) | None => false end then
              match mode with
              | SegmentMode => Err (Transport Body length_mismatch_message)
              | FreshProbe | ResumeProbe => Err (ResumeMismatch length_mismatch_message)
              end
            else Ok Accept
        end) = Ok Accept <->
  content_range_start meta = Some start /\ content_range_end meta = Some e /\ start <= e /\ e - start + 1 <= u64_max /\
  forall n, content_length meta = Some n -> n = e - start + 1.
Proof.
  case_bool_decide; [|naive_solver]. case_bool_decide; [|naive_solver]. simpl. unfold checked_sub, checked_add.
  destruct (Z.leb_spec start e); simpl; [|by split; [|intros (_ & _ & ? & _); lia]].
  destruct (Z.leb_spec (e - start + 1) u64_max); simpl; [|by split; [|intros (_ & _ & _ & ? & _); lia]].
  destruct (content_length meta) as [n|]; [|naive_solver].
  destruct (Z.eqb_spec n (e - start + 1)) as [->|Hne]; simpl.
  - split; [|done]. intros _. split_and!; try done. by intros ? [= <-].
  - split; [by destruct mode|]. intros (_ & _ & _ & _ & Hn). by destruct (Hne (Hn n eq_refl)).
Qed.

Lemma accepted_iff status retry_after meta mode start last total_size :
  u64 start -> u64 last ->
  validate_range_response status retry_after meta mode (mkExpected start last total_size) = Ok Accept <->
  status = 206 /\ (forall e, content_encoding meta = Some e -> eq_ignore_ascii_case e (str "identity") = true) /\
  exists total, content_range_total meta = Some total /\
    match mode with FreshProbe => start < total | _ => total_size = Some total end /\
    let e := required_end mode (mkExpected start last total_size) total in
    content_range_start meta = Some start /\ content_range_end meta = Some e /\ start <= e /\ e - start + 1 <= u64_max /\
    forall n, content_length meta = Some n -> n = e - start + 1.
Proof.
  intros [Hs _] [Hl _]. unfold validate_range_response, validate_range_status.
  destruct (Z.eqb_spec status 200) as [->|Hn2]; [split; [by destruct mode|by intros [? _]]|].
  destruct ((status =? 429) || (status =? 503)) eqn:Hn4.
  { split; [done|]. intros [-> _]. done. }
  destruct (Z.eqb_spec status 206) as [->|Hn3]; [|by split; [|intros [? _]]]. simpl negb.
  cbn [exp_total_size exp_start]. unfold range_response_allowed.
  assert (forall (P : Prop), (206 = 206 /\ (forall e, content_encoding meta = Some e -> eq_ignore_ascii_case e (str "identity") = true) /\ P) <->
    match content_encoding meta with Some e => eq_ignore_ascii_case e (str "identity") | None => true end = true /\ P) as Henc.
  { intros P. destruct (content_encoding meta) as [e|]; naive_solver. }
  rewrite Henc. clear Henc. destruct (match content_encoding meta with Some e => _ | None => true end);
    [|by split; [destruct mode|intros [? _]]]. simpl negb. cbv iota.
  destruct (resolve_response_total meta mode total_size) as [total|er] eqn:Et.
  - apply resolve_total_Ok in Et as [Ht Hm]. rewrite Ht.
    destruct (resolve_expected_end _ _ _) as [e|] eqn:Ee.
    + apply resolve_end_Some in Ee as [-> Hf]; [|done]. rewrite accept_tail.
      split; [intros H; split; [done|]; exists total; by destruct mode; naive_solver|].
      intros [_ (t & [= <-] & _ & H)]. done.
    + split; [done|]. intros [_ (t & [= <-] & Hf & _)]. exfalso.
      assert (resolve_expected_end (mkExpected start last total_size) total mode <> None) as Hne; [|done].
      destruct mode; [|done..]. simpl. unfold checked_sub. rewrite (proj2 (Z.leb_le _ _)) by lia. simpl.
      by rewrite (proj2 (Z.ltb_ge _ _)) by lia.
  - split; [done|]. intros [_ (t & Ht & Hf & _)].
    assert (resolve_response_total meta mode total_size = Ok t) as E by (apply resolve_total_Ok; split; [done|by destruct mode]).
    rewrite E in Et. done.
Qed.

(** C31: a range response is accepted exactly when it is the answer to the
    request: status 206, no content coding, [Content-Range] starting at the
    requested byte and ending at the requested one (for a fresh probe, cut at
    the end of the object), with the total the session knows (or, for a fresh
    probe, any total that contains the start), and a [Content-Length] that,
    when present, is the length of that range. *)
Theorem range_accepted_iff status retry_after meta mode start last total_size :
  u64 start -> u64 last ->
  validate_range_response status retry_after meta mode (mkExpected start last total_size) = Ok Accept <->
  status = 206 /\ (forall e, content_encoding meta = Some e -> eq_ignore_ascii_case e (str "identity") = true) /\
  exists total, content_range_total meta = Some total /\
    match mode with FreshProbe => start < total | _ => total_size = Some total end /\
    let e := required_end mode (mkExpected start last total_size) total in
    content_range_start meta = Some start /\ content_range_end meta = Some e /\ start <= e /\ e - start + 1 <= u64_max /\
    forall n, content_length meta = Some n -> n = e - start + 1.
Proof. apply accepted_iff. Qed.

Lemma range_accepted_iff_witness :
  let meta := mkMeta (Some 100) (Some 100) (Some 199) (Some 1000) true None None None None in
  validate_range_response 206 None meta SegmentMode (mkExpected 100 199 (Some 1000)) = Ok Accept.
Proof.
  intros meta. refine (proj2 (range_accepted_iff 206 None meta SegmentMode 100 199 (Some 1000) _ _) _).
  - split; [lia|vm_compute; discriminate].
  - split; [lia|vm_compute; discriminate].
  - split; [reflexivity|]. split; [intros e; discriminate|]. exists 1000.
    split; [reflexivity|]. split; [reflexivity|]. split_and!; try reflexivity; try (vm_compute; discriminate).
    intros n [= <-]. reflexivity.
Defined.

(** A server's retry-after hint reaches the retry policy: a 429 or 503
    answer to a range request is retryable whatever the mode, and the number of
    seconds in its [Retry-After] header is the delay the policy reads back from
    the error; a header that is not a number leaves the exponential delay. *)
Theorem retry_after_hint_preserved status header meta mode expected :
  status = 429 \/ status = 503 ->
  exists e, validate_range_response status header meta mode expected = Err e /\ is_retryable e = true /\
    retry_after_secs e = (v ← header; parse_u64 (trim v)).
Proof.
  intros Hs. unfold validate_range_response, validate_range_status.
  assert ((status =? 200) = false) as -> by (apply Z.eqb_neq; lia).
  assert ((status =? 429) || (status =? 503) = true) as E by (rewrite orb_true_iff, !Z.eqb_eq; lia).
  rewrite E. eexists. split; [done|]. split.
  - simpl. destruct Hs as [->| ->]; done.
  - unfold retry_after_secs. rewrite E. destruct (v ← header; parse_u64 (trim v)) as [secs|] eqn:Ep.
    + rewrite strip_prefix_app. simpl.
      destruct header as [v|]; [|done]. simpl in Ep. apply parse_u64_range in Ep.
      by rewrite trim_show_u64, parse_show_u64.
    + destruct Hs as [->| ->]; reflexivity.
Qed.

Lemma retry_after_hint_preserved_witness :
  let meta := mkMeta None None None None true None None None None in
  exists e, validate_range_response 503 (Some (str " 120 ")) meta SegmentMode (mkExpected 0 99 None) = Err e /\
    is_retryable e = true /\ retry_after_secs e = Some 120.
Proof.
  intros meta. apply (retry_after_hint_preserved 503 (Some (str " 120 ")) meta SegmentMode (mkExpected 0 99 None)).
  right. reflexivity.
Defined.
