(* ===== verification/Control.v ===== *)
(** * The control file ([src/storage/control.rs])

    The snapshot a download is resumed from: its format, the atomic save and the
    validating load.  [bincode] and [crc32fast] are the class [Codec]; the file
    system is a map from paths to files with the outcome of each call as input. *)

From S2P Require Import Prelude RustStr Errors Cache Scheduler.

Definition MAGIC : Z := 0x42594845.
Definition VERSION_V1 : Z := 1.
Definition VERSION_V2 : Z := 2.
Definition VERSION : Z := VERSION_V2.
Definition HEADER_SIZE : nat := 16.

Record ControlSnapshot := mkSnapshot {
  ctrl_url : rstr;
  ctrl_total_size : Z;
  ctrl_piece_size : Z;
  ctrl_piece_count : nat;
  ctrl_completed_bitset : list Z;
  ctrl_downloaded_bytes : Z;
  ctrl_etag : option rstr;
  ctrl_last_modified : option rstr;
}.

Definition default_hints : ControlHints := mkHints [] [] 0.

(** [bincode::serialize], [bincode::deserialize] and [crc32fast::hash]: what was
    serialized deserializes to the same value, and a checksum is a [u32]. *)
Class Codec := {
  serialize_v2 : ControlSnapshot -> ControlHints -> result bytes rstr;
  deserialize_v1 : bytes -> result ControlSnapshot rstr;
  deserialize_v2 : bytes -> result (ControlSnapshot * ControlHints) rstr;
  crc32 : bytes -> Z;
  codec_roundtrip : forall s h p, serialize_v2 s h = Ok p -> deserialize_v2 p = Ok (s, h);
  crc32_range : forall b, 0 <= crc32 b < 2 ^ 32;
}.

(** ** Paths *)

Definition dot : Z := 46.

(** The last component of a path and what stands before it. *)
Definition split_file_name (path : rstr) : rstr * rstr :=
  match rsplit_once 47 path with
  | Some (dir, name) => (dir ++ [47], name)
  | None => ([], path)
  end.

(** [Path::with_extension] *)
Definition with_extension (path extension : rstr) : rstr :=
  let '(dir, name) := split_file_name path in
  let stem := match rsplit_once dot name with
              | Some (stem, _) => if bool_decide (stem = []) then name else stem
              | None => name
              end in
  dir ++ stem ++ dot :: extension.

Definition control_path (output_path : rstr) : rstr := output_path ++ str ".bytehaul".

(** ** The file system *)

Record FsFile := mkFsFile {
  fs_data : bytes;
  fs_synced : bool;
}.

Record Fs := mkFs {
  fs_files : gmap rstr FsFile;
  fs_io : list IoOutcome;
}.

Definition FsM (A : Type) : Type := StateRes Fs A.

(** One call: its effect when it succeeds, and when it fails after [n] bytes. *)
Definition fs_call (good : gmap rstr FsFile -> gmap rstr FsFile)
    (bad : nat -> gmap rstr FsFile -> gmap rstr FsFile) : FsM unit := fun fs =>
  match default IoOk (head (fs_io fs)) with
  | IoOk => (Ok tt, mkFs (good (fs_files fs)) (tail (fs_io fs)))
  | IoFail n kind => (Err (Io kind), mkFs (bad n (fs_files fs)) (tail (fs_io fs)))
  end.

Definition unchanged (_ : nat) (m : gmap rstr FsFile) : gmap rstr FsFile := m.

(** [File::create]: a failing call may still have truncated the file. *)
Definition fs_create (path : rstr) : FsM unit :=
  fs_call (fun m => <[path := mkFsFile [] false]> m)
          (fun n m => match n with O => m | S _ => <[path := mkFsFile [] false]> m end).

Definition fs_append (path : rstr) (data : bytes) (m : gmap rstr FsFile) : gmap rstr FsFile :=
  alter (fun f => mkFsFile (fs_data f ++ data) false) path m.

Definition fs_write_all (path : rstr) (data : bytes) : FsM unit :=
  fs_call (fs_append path data) (fun n => fs_append path (take n data)).

Definition fs_flush : FsM unit := fs_call id unchanged.

Definition fs_sync_all (path : rstr) : FsM unit :=
  fs_call (alter (fun f => mkFsFile (fs_data f) true) path) unchanged.

Definition fs_rename (from to : rstr) : FsM unit :=
  fs_call (fun m => match m !! from with
                    | Some f => <[to := f]> (delete from m)
                    | None => m
                    end) unchanged.

Definition fs_read (path : rstr) : FsM bytes := fun fs =>
  match fs_files fs !! path with
  | None => (Err (Io NotFound), fs)
  | Some f =>
      match default IoOk (head (fs_io fs)) with
      | IoOk => (Ok (fs_data f), mkFs (fs_files fs) (tail (fs_io fs)))
      | IoFail _ kind => (Err (Io kind), mkFs (fs_files fs) (tail (fs_io fs)))
      end
  end.

(** ** Saving and loading *)

(** [u32::to_le_bytes] and [u32::from_le_bytes] *)
Definition to_le_bytes (n : Z) : bytes := [n mod 256; n / 256 mod 256; n / 65536 mod 256; n / 16777216 mod 256].

Definition from_le_bytes (b : bytes) : Z :=
  match b with
  | [b0; b1; b2; b3] => b0 + 256 * b1 + 65536 * b2 + 16777216 * b3
  | _ => 0
  end.

Section Control.
  Context `{Codec}.

Definition save_sync (snapshot : ControlSnapshot) (hints : ControlHints) (path : rstr) : FsM unit :=
  match serialize_v2 snapshot hints with
  | Err e => err (Internal (str "control file serialize failed: " ++ e))
  | Ok payload =>
      let checksum := crc32 payload in
      let tmp_path := with_extension path (str "bytehaul.tmp") in
      fs_create tmp_path ;!
      fs_write_all tmp_path (to_le_bytes MAGIC) ;!
      fs_write_all tmp_path (to_le_bytes VERSION) ;!
      fs_write_all tmp_path (to_le_bytes (Z.of_nat (length payload) mod 2 ^ 32)) ;!
      fs_write_all tmp_path (to_le_bytes checksum) ;!
      fs_write_all tmp_path payload ;!
      fs_flush ;!
      fs_sync_all tmp_path ;!
      fs_rename tmp_path path
  end.

Definition corrupted (message : string) : DownloadError := ControlFileCorrupted (str message).

(** [data[a..b]] *)
Definition slice (a b : nat) (data : bytes) : bytes := take (b - a) (drop a data).

(** [load_sync_with_hints], on the bytes of the file. *)
Definition parse_control (data : bytes) : result (ControlSnapshot * ControlHints) DownloadError :=
  if (length data <? HEADER_SIZE)%nat then Err (corrupted "too short")
  else
    let magic := from_le_bytes (slice 0 4 data) in
    let version := from_le_bytes (slice 4 8 data) in
    let payload_len := from_le_bytes (slice 8 12 data) in
    let checksum := from_le_bytes (slice 12 16 data) in
    if negb (magic =? MAGIC) then Err (corrupted "bad magic")
    else if negb (version =? VERSION_V1) && negb (version =? VERSION_V2) then
      Err (ControlFileCorrupted (str "unsupported version: " ++ show_u64 version))
    else if blen data <? Z.of_nat HEADER_SIZE + payload_len then Err (corrupted "truncated payload")
    else
      let payload := slice HEADER_SIZE (HEADER_SIZE + Z.to_nat payload_len) data in
      if negb (crc32 payload =? checksum) then Err (corrupted "checksum mismatch")
      else if version =? VERSION_V1 then
        match deserialize_v1 payload with
        | Err e => Err (ControlFileCorrupted (str "deserialize: " ++ e))
        | Ok snapshot => Ok (snapshot, default_hints)
        end
      else
        match deserialize_v2 payload with
        | Err e => Err (ControlFileCorrupted (str "deserialize: " ++ e))
        | Ok x => Ok x
        end.

Definition load_sync_with_hints (path : rstr) : FsM (ControlSnapshot * ControlHints) :=
  let! data := fs_read path in fun fs => (parse_control data, fs).

Definition save (snapshot : ControlSnapshot) (path : rstr) : FsM unit := save_sync snapshot default_hints path.

Definition load (path : rstr) : FsM ControlSnapshot :=
  let! x := load_sync_with_hints path in ok x.1.
End Control.

(** [ControlSnapshot::delete]; a file that is not there, or that [remove_file]
    finds removed, is no error. *)
Definition delete_control (path : rstr) : FsM unit := fun fs =>
  match fs_files fs !! path, default IoOk (head (fs_io fs)) with
  | None, _ => (Ok tt, fs)
  | Some _, (IoOk | IoFail _ NotFound) => (Ok tt, mkFs (delete path (fs_files fs)) (tail (fs_io fs)))
  | Some _, IoFail _ kind => (Err (Io kind), mkFs (fs_files fs) (tail (fs_io fs)))
  end.

Lemma delete_control_spec path fs r fs' :
  delete_control path fs = (r, fs') ->
  match r with
  | Ok _ => fs_files fs' !! path = None
  | Err e => (exists kind, e = Io kind) /\ fs_files fs' = fs_files fs
  end.
Proof.
  unfold delete_control. destruct (fs_files fs !! path) eqn:E; [|by intros [= <- <-]].
  destruct (default IoOk (head (fs_io fs))) as [|n []]; intros [= <- <-]; simpl; eauto; apply lookup_delete_eq.
Qed.

(** ** The header *)

Lemma le_bytes_inv n : 0 <= n < 2 ^ 32 -> from_le_bytes (to_le_bytes n) = n.
Proof.
  intros Hn. unfold to_le_bytes, from_le_bytes.
  pose proof (Z.div_mod n 256 ltac:(lia)). pose proof (Z.div_mod (n / 256) 256 ltac:(lia)).
  pose proof (Z.div_mod (n / 256 / 256) 256 ltac:(lia)). rewrite !Z.div_div in * by lia.
  change (256 * 256) with 65536 in *. change (65536 * 256) with 16777216 in *.
  assert (0 <= n / 16777216 < 256) as Hq by (split; [apply Z.div_pos; lia|apply Z.div_lt_upper_bound; lia]).
  rewrite (Z.mod_small (n / 16777216)) by done. lia.
Qed.

Definition is_byte (b : Z) : Prop := 0 <= b < 256.

Lemma bytes_le_inv b :
  length b = 4%nat -> Forall is_byte b -> to_le_bytes (from_le_bytes b) = b /\ 0 <= from_le_bytes b < 2 ^ 32.
Proof.
  intros Hl HF. destruct b as [|b0 [|b1 [|b2 [|b3 [|]]]]]; try done.
  repeat match goal with HF : Forall _ (_ :: _) |- _ => apply Forall_cons_iff in HF as [? HF] end.
  unfold is_byte, from_le_bytes, to_le_bytes in *. split; [|lia].
  f_equal; [|f_equal; [|f_equal; [|f_equal]]]; Z.div_mod_to_equations; lia.
Qed.

Section ControlProps.
  Context `{Codec}.

(** The file a save writes, with any version number. *)
Definition encoded (version : Z) (payload : bytes) : bytes :=
  to_le_bytes MAGIC ++ to_le_bytes version ++ to_le_bytes (Z.of_nat (length payload) mod 2 ^ 32) ++
  to_le_bytes (crc32 payload) ++ payload.

(** What the loader reads from the four header fields. *)
Lemma header_slices m v l c rest :
  length m = 4%nat -> length v = 4%nat -> length l = 4%nat -> length c = 4%nat ->
  let data := m ++ v ++ l ++ c ++ rest in
  slice 0 4 data = m /\ slice 4 8 data = v /\ slice 8 12 data = l /\ slice 12 16 data = c /\
  drop HEADER_SIZE data = rest /\ length data = (16 + length rest)%nat.
Proof.
  intros Hm Hv Hl Hc. destruct m as [|? [|? [|? [|? [|]]]]]; try done.
  destruct v as [|? [|? [|? [|? [|]]]]]; try done. destruct l as [|? [|? [|? [|? [|]]]]]; try done.
  destruct c as [|? [|? [|? [|? [|]]]]]; try done.
Qed.

Definition decodes (version : Z) (payload : bytes) (x : ControlSnapshot * ControlHints) : Prop :=
  (version = VERSION_V1 /\ deserialize_v1 payload = Ok x.1 /\ x.2 = default_hints) \/
  (version = VERSION_V2 /\ deserialize_v2 payload = Ok x).

Lemma parse_encoded version payload trailing x :
  blen payload < 2 ^ 32 -> decodes version payload x ->
  parse_control (encoded version payload ++ trailing) = Ok x.
Proof.
  intros Hp Hd. unfold encoded. rewrite <- !app_assoc.
  destruct (header_slices (to_le_bytes MAGIC) (to_le_bytes version) (to_le_bytes (Z.of_nat (length payload) mod 2 ^ 32))
    (to_le_bytes (crc32 payload)) (payload ++ trailing)) as (S1 & S2 & S3 & S4 & S5 & S6); try done.
  unfold blen in *. rewrite Z.mod_small in * by lia.
  set (data := to_le_bytes MAGIC ++ _) in *. unfold parse_control. rewrite S1, S2, S3, S4.
  rewrite (proj2 (Nat.ltb_ge _ _)) by (rewrite S6; unfold HEADER_SIZE; lia).
  rewrite (le_bytes_inv MAGIC) by (unfold MAGIC; lia). rewrite Z.eqb_refl. cbn [negb].
  rewrite (le_bytes_inv version) by (destruct Hd as [[-> _]|[-> _]]; vm_compute; split; discriminate || reflexivity).
  rewrite (le_bytes_inv (crc32 payload)) by apply crc32_range.
  rewrite (le_bytes_inv (Z.of_nat (length payload))) by lia. unfold blen. rewrite S6, length_app.
  rewrite (proj2 (Z.ltb_ge _ _)) by (unfold HEADER_SIZE; lia). unfold slice. rewrite S5.
  replace (HEADER_SIZE + Z.to_nat (Z.of_nat (length payload)) - HEADER_SIZE)%nat with (length payload) by lia.
  rewrite take_app_length, Z.eqb_refl. cbn [negb].
  destruct Hd as [(-> & Hd & Hh)|(-> & Hd)]; simpl; rewrite Hd; [|done]. destruct x. simpl in *. by subst.
Qed.

Lemma split4 (data : bytes) : (4 <= length data)%nat -> exists a rest, data = a ++ rest /\ length a = 4%nat.
Proof. intros Hl. exists (take 4 data), (drop 4 data). rewrite take_drop, length_take. split; [done|lia]. Qed.

Lemma parse_control_Ok data x :
  Forall is_byte data -> parse_control data = Ok x ->
  exists version payload trailing, data = encoded version payload ++ trailing /\ blen payload < 2 ^ 32 /\
    decodes version payload x.
Proof.
  intros HB E. unfold parse_control in E. destruct (Nat.ltb_spec (length data) HEADER_SIZE) as [|Hlen]; [done|].
  unfold HEADER_SIZE in Hlen.
  destruct (split4 data ltac:(lia)) as (m & d1 & -> & Hm). rewrite length_app in Hlen.
  destruct (split4 d1 ltac:(lia)) as (v & d2 & -> & Hv). rewrite length_app in Hlen.
  destruct (split4 d2 ltac:(lia)) as (l & d3 & -> & Hl). rewrite length_app in Hlen.
  destruct (split4 d3 ltac:(lia)) as (c & rest & -> & Hc).
  destruct (header_slices m v l c rest Hm Hv Hl Hc) as (S1 & S2 & S3 & S4 & S5 & S6). cbv zeta in *.
  rewrite !Forall_app in HB. destruct HB as (Bm & Bv & Bl & Bc & Br).
  destruct (bytes_le_inv m Hm Bm) as [Im _], (bytes_le_inv v Hv Bv) as [Iv _], (bytes_le_inv l Hl Bl) as [Il Rl],
    (bytes_le_inv c Hc Bc) as [Ic _].
  cbv zeta in E. rewrite S1, S2, S3, S4 in E. unfold slice in E. rewrite S5 in E.
  destruct (Z.eqb_spec (from_le_bytes m) MAGIC) as [Em|]; [|done]. cbn [negb] in E.
  destruct (negb (from_le_bytes v =? VERSION_V1) && _) eqn:Ev; [done|].
  unfold blen in E. rewrite S6 in E. destruct (Z.ltb_spec (Z.of_nat (16 + length rest)) (Z.of_nat HEADER_SIZE + from_le_bytes l)) as [|Hr]; [done|].
  replace (HEADER_SIZE + Z.to_nat (from_le_bytes l) - HEADER_SIZE)%nat with (Z.to_nat (from_le_bytes l)) in E by lia.
  set (payload := take (Z.to_nat (from_le_bytes l)) rest) in *. unfold HEADER_SIZE in Hr.
  assert (Z.of_nat (length payload) = from_le_bytes l) as Lp by (subst payload; rewrite length_take; lia).
  destruct (Z.eqb_spec (crc32 payload) (from_le_bytes c)) as [Ec|]; [|done]. cbn [negb] in E.
  exists (from_le_bytes v), payload, (drop (Z.to_nat (from_le_bytes l)) rest). split_and!.
  - unfold encoded. rewrite Lp, Z.mod_small by lia. rewrite Ec, Il, Ic, Iv, <- Em, Im, <- !app_assoc.
    subst payload. by rewrite take_drop.
  - unfold blen. lia.
  - unfold decodes. destruct (Z.eqb_spec (from_le_bytes v) VERSION_V1) as [->|Hn].
    + left. destruct (deserialize_v1 payload); [|done]. by injection E as <-.
    + right. simpl in Ev. split; [|by destruct (deserialize_v2 payload); [injection E as <-|]].
      by destruct (Z.eqb_spec (from_le_bytes v) VERSION_V2).
Qed.

(** ** The atomic save *)

(** [m] leaves the file at [p] alone, whatever its outcome. *)
Definition Spares {A} (p : rstr) (m : FsM A) : Prop :=
  forall fs r fs', m fs = (r, fs') -> fs_files fs' !! p = fs_files fs !! p.

Lemma spares_bind {A B} p (m : FsM A) (k : A -> FsM B) :
  Spares p m -> (forall x, Spares p (k x)) -> Spares p (res_bind m k).
Proof.
  intros Hm Hk fs r fs' [(x & fs1 & E1 & E2)|(e & E1 & _)]%res_bind_any; apply Hm in E1; [|done].
  apply Hk in E2. by rewrite E2.
Qed.

Lemma spares_call p good bad :
  (forall m, good m !! p = m !! p) -> (forall n m, bad n m !! p = m !! p) -> Spares p (fs_call good bad).
Proof.
  intros Hg Hb fs r fs'. unfold fs_call. destruct (default IoOk (head (fs_io fs))); intros [= _ <-]; simpl; auto.
Qed.

Lemma spares_create p tmp : p <> tmp -> Spares p (fs_create tmp).
Proof.
  intros Hne. apply spares_call; [intros m; by rewrite lookup_insert_ne|].
  intros [|n] m; [done|by rewrite lookup_insert_ne].
Qed.

Lemma spares_write p tmp data : p <> tmp -> Spares p (fs_write_all tmp data).
Proof. intros Hne. apply spares_call; intros; unfold fs_append; by rewrite lookup_alter_ne. Qed.

Lemma spares_flush p : Spares p fs_flush.
Proof. by apply spares_call. Qed.

Lemma spares_sync p tmp : p <> tmp -> Spares p (fs_sync_all tmp).
Proof. intros Hne. apply spares_call; intros; [by rewrite lookup_alter_ne|done]. Qed.

Lemma call_Ok good bad fs fs' : fs_call good bad fs = (Ok tt, fs') -> fs_files fs' = good (fs_files fs).
Proof. unfold fs_call. destruct (default IoOk (head (fs_io fs))); [by intros [= <-]|done]. Qed.

(** A control path never is its own temporary path. *)
Lemma tmp_path_ne out : with_extension (control_path out) (str "bytehaul.tmp") <> control_path out.
Proof.
  unfold with_extension. destruct (split_file_name (control_path out)) as [dir name].
  set (stem := match rsplit_once dot name with Some _ => _ | None => _ end). intros E.
  apply (f_equal last) in E. unfold control_path in E.
  change (dot :: str "bytehaul.tmp") with (str ".bytehaul.tm" ++ [112]) in E.
  change (str ".bytehaul") with (str ".bytehau" ++ [108]) in E.
  rewrite !app_assoc, !last_snoc in E. done.
Qed.

(** Everything before the rename. *)
Definition write_tmp (tmp : rstr) (payload : bytes) : FsM unit :=
  fs_create tmp ;!
  fs_write_all tmp (to_le_bytes MAGIC) ;!
  fs_write_all tmp (to_le_bytes VERSION) ;!
  fs_write_all tmp (to_le_bytes (Z.of_nat (length payload) mod 2 ^ 32)) ;!
  fs_write_all tmp (to_le_bytes (crc32 payload)) ;!
  fs_write_all tmp payload ;!
  fs_flush ;!
  fs_sync_all tmp.

Lemma save_sync_split snapshot hints path payload fs :
  serialize_v2 snapshot hints = Ok payload ->
  let tmp := with_extension path (str "bytehaul.tmp") in
  save_sync snapshot hints path fs = (write_tmp tmp payload ;! fs_rename tmp path) fs.
Proof.
  intros E tmp. unfold save_sync. rewrite E. fold tmp. unfold write_tmp, res_bind.
  repeat match goal with |- context [match ?m ?s with _ => _ end] => destruct (m s) as [[]?]; try done end.
Qed.

Lemma write_tmp_spares p tmp payload : p <> tmp -> Spares p (write_tmp tmp payload).
Proof.
  intros Hne. unfold write_tmp.
  repeat (apply spares_bind; [first [by apply spares_create|by apply spares_write|by apply spares_flush]|intros _]).
  by apply spares_sync.
Qed.

Lemma write_tmp_Ok tmp payload fs fs' :
  write_tmp tmp payload fs = (Ok tt, fs') -> fs_files fs' !! tmp = Some (mkFsFile (encoded VERSION payload) true).
Proof.
  unfold write_tmp. intros E.
  repeat match type of E with
  | res_bind _ _ _ = _ => apply res_bind_Ok in E as ([] & ? & ?%call_Ok & E)
  end.
  apply call_Ok in E. subst. repeat match goal with H : fs_files _ = _ |- _ => rewrite H; clear H end.
  unfold fs_append, id. rewrite !lookup_alter_eq, lookup_insert_eq. simpl. unfold encoded. f_equal.
Qed.

Lemma save_sync_atomic snapshot hints out fs r fs' :
  save_sync snapshot hints (control_path out) fs = (r, fs') ->
  match r with
  | Ok _ => exists payload, serialize_v2 snapshot hints = Ok payload /\
      fs_files fs' !! control_path out = Some (mkFsFile (encoded VERSION payload) true)
  | Err _ => fs_files fs' !! control_path out = fs_files fs !! control_path out
  end /\
  forall p, p <> control_path out -> p <> with_extension (control_path out) (str "bytehaul.tmp") ->
    fs_files fs' !! p = fs_files fs !! p.
Proof.
  intros E. pose proof (tmp_path_ne out) as Hne. set (path := control_path out) in *.
  destruct (serialize_v2 snapshot hints) as [payload|e] eqn:Es.
  2: { unfold save_sync in E. rewrite Es in E. injection E as <- <-. done. }
  rewrite (save_sync_split _ _ _ _ _ Es) in E. set (tmp := with_extension path (str "bytehaul.tmp")) in *.
  apply res_bind_any in E as [([] & fs1 & E1 & E2)|(e & E1 & ->)].
  - pose proof (write_tmp_Ok _ _ _ _ E1) as Ht. unfold fs_rename, fs_call in E2.
    destruct (default IoOk (head (fs_io fs1))); injection E2 as <- <-; simpl.
    + rewrite Ht. split; [exists payload; split; [done|by rewrite lookup_insert_eq]|].
      intros p Hp Hp'. rewrite lookup_insert_ne, lookup_delete_ne by done. by apply (write_tmp_spares p tmp payload Hp' _ _ _ E1).
    + split; [by apply (write_tmp_spares path tmp payload (not_eq_sym Hne) _ _ _ E1)|].
      intros p _ Hp'. by apply (write_tmp_spares p tmp payload Hp' _ _ _ E1).
  - split; [by apply (write_tmp_spares path tmp payload (not_eq_sym Hne) _ _ _ E1)|].
    intros p _ Hp'. by apply (write_tmp_spares p tmp payload Hp' _ _ _ E1).
Qed.

(** C30: saving the control file is atomic.  Whatever happens during a save (an
    error or a crash at any call, a write cut short), the control file is either
    as it was before or complete and synced: success means the latter, failure
    the former, and no file but the control file and its temporary is touched. *)
Theorem control_save_atomic snapshot hints out fs r fs' :
  save_sync snapshot hints (control_path out) fs = (r, fs') ->
  match r with
  | Ok _ => exists payload, serialize_v2 snapshot hints = Ok payload /\
      fs_files fs' !! control_path out = Some (mkFsFile (encoded VERSION payload) true)
  | Err _ => fs_files fs' !! control_path out = fs_files fs !! control_path out
  end /\
  forall p, p <> control_path out -> p <> with_extension (control_path out) (str "bytehaul.tmp") ->
    fs_files fs' !! p = fs_files fs !! p.
Proof. apply save_sync_atomic. Qed.

(** C36: what the loader accepts.  A file is accepted exactly when it starts with the magic
    number, a supported version, the length and the checksum of a payload that follows
    and deserializes: of the current version with its hints, or of version 1 with default
    hints; bytes behind the payload are ignored.  Every other content is rejected as
    corrupt.  In particular what a save writes is read back as it was. *)
Theorem control_accepts_iff data x :
  Forall is_byte data ->
  (parse_control data = Ok x <->
   exists version payload trailing, data = encoded version payload ++ trailing /\ blen payload < 2 ^ 32 /\
     decodes version payload x) /\
  (forall e, parse_control data = Err e -> exists m, e = ControlFileCorrupted m) /\
  (forall s h payload, serialize_v2 s h = Ok payload -> blen payload < 2 ^ 32 ->
     parse_control (encoded VERSION payload) = Ok (s, h)).
Proof.
  intros HB. split_and!.
  - split; [by apply parse_control_Ok|]. intros (v & p & t & -> & Hp & Hd). by apply parse_encoded.
  - intros e E. unfold parse_control, corrupted in E.
    repeat match type of E with
    | (if ?c then _ else _) = _ => destruct c; [injection E as <-; by eexists|]
    end.
    repeat match type of E with
    | (if ?c then _ else _) = _ => destruct c; [try (injection E as <-; by eexists)|]
    | match ?m with _ => _ end = _ => destruct m; [done|injection E as <-; by eexists]
    end.
  - intros s h payload Es Hp. rewrite <- (app_nil_r (encoded VERSION payload)). apply parse_encoded; [done|].
    right. split; [done|]. by apply codec_roundtrip.
Qed.
End ControlProps.

(** ** A codec *)

Module DemoCodec.

Definition put_list (l : list Z) : bytes := Z.of_nat (length l) :: l.

Definition get_list (b : bytes) : option (list Z * bytes) :=
  match b with
  | n :: b => Some (take (Z.to_nat n) b, drop (Z.to_nat n) b)
  | [] => None
  end.

Lemma get_put l rest : get_list (put_list l ++ rest) = Some (l, rest).
Proof. simpl. by rewrite Nat2Z.id, take_app_length, drop_app_length. Qed.

Definition put_opt (o : option rstr) : bytes := match o with Some s => put_list (1 :: s) | None => put_list [] end.

Definition get_opt (b : bytes) : option (option rstr * bytes) :=
  '(l, b) ← get_list b; Some (match l with _ :: s => Some s | [] => None end, b).

Lemma get_put_opt o rest : get_opt (put_opt o ++ rest) = Some (o, rest).
Proof. unfold get_opt. by destruct o as [s|]; unfold put_opt; rewrite get_put. Qed.

Definition put (s : ControlSnapshot) (h : ControlHints) : bytes :=
  put_list (ctrl_url s) ++
  put_list [ctrl_total_size s; ctrl_piece_size s; Z.of_nat (ctrl_piece_count s); ctrl_downloaded_bytes s; hints_snapshot_seq h] ++
  put_list (ctrl_completed_bitset s) ++ put_opt (ctrl_etag s) ++ put_opt (ctrl_last_modified s) ++
  put_list (Z.of_nat <$> dirty_piece_ids h) ++ put_list (Z.of_nat <$> inflight_piece_ids h) ++ [].

Definition get (b : bytes) : option (ControlSnapshot * ControlHints) :=
  '(url, b) ← get_list b;
  '(nums, b) ← get_list b;
  '(bits, b) ← get_list b;
  '(et, b) ← get_opt b;
  '(lm, b) ← get_opt b;
  '(dirty, b) ← get_list b;
  '(inflight, b) ← get_list b;
  match nums with
  | [total; psize; count; downloaded; seq] =>
      Some (mkSnapshot url total psize (Z.to_nat count) bits downloaded et lm,
            mkHints (Z.to_nat <$> dirty) (Z.to_nat <$> inflight) seq)
  | _ => None
  end.

Lemma ids_roundtrip (l : list nat) : Z.to_nat <$> (Z.of_nat <$> l) = l.
Proof. induction l; simpl; [done|]. rewrite Nat2Z.id. by f_equal. Qed.

Lemma get_put_snapshot s h : get (put s h) = Some (s, h).
Proof.
  unfold get, put. repeat (rewrite ?get_put, ?get_put_opt; cbn [mbind option_bind]).
  rewrite Nat2Z.id, !ids_roundtrip. by destruct s, h.
Qed.

#[export, refine] Instance demo_codec : Codec := {|
  serialize_v2 s h := Ok (put s h);
  deserialize_v1 b := match get b with Some (s, _) => Ok s | None => Err [] end;
  deserialize_v2 b := match get b with Some x => Ok x | None => Err [] end;
  crc32 b := fold_right Z.add 0 b mod 2 ^ 32;
  codec_roundtrip := _;
  crc32_range := _;
|}.
Proof.
  - intros s h p [= <-]. by rewrite get_put_snapshot.
  - intros b. by apply Z.mod_pos_bound.
Defined.

Definition demo_snapshot : ControlSnapshot :=
  mkSnapshot (str "http://h/f") 25 10 3 [5] 15 (Some (str "v1")) None.

Definition demo_hints : ControlHints := mkHints [1%nat] [1%nat] 4.

End DemoCodec.

Import DemoCodec.

Lemma control_save_atomic_witness :
  let fs := mkFs {[ str "f.bytehaul" := mkFsFile [1] true ]} [IoOk; IoOk; IoFail 2 (IoOther 28)] in
  exists r fs', save_sync demo_snapshot demo_hints (control_path (str "f")) fs = (r, fs') /\
    fs_files fs' !! str "f.bytehaul" = Some (mkFsFile [1] true).
Proof.
  intros fs. destruct (save_sync demo_snapshot demo_hints (control_path (str "f")) fs) as [r fs'] eqn:E.
  exists r, fs'. split; [reflexivity|].
  pose proof (proj1 (control_save_atomic demo_snapshot demo_hints (str "f") fs r fs' E)) as A.
  destruct r as [u|e]; [vm_compute in E; discriminate E|].
  change (control_path (str "f")) with (str "f.bytehaul") in A. rewrite A. reflexivity.
Defined.

Lemma control_accepts_iff_witness :
  let data := encoded VERSION (DemoCodec.put demo_snapshot demo_hints) in
  Forall is_byte data /\ parse_control data = Ok (demo_snapshot, demo_hints).
Proof.
  intros data. assert (Forall is_byte data) as HB
    by (vm_compute; repeat constructor; try (intros HC; discriminate HC)).
  split; [exact HB|].
  refine (proj2 (proj2 (control_accepts_iff data (demo_snapshot, demo_hints) HB)) demo_snapshot demo_hints _ eq_refl _).
  vm_compute. reflexivity.
Defined.
