(* ===== verification/Resume.v ===== *)
(** * Resuming a download ([src/session/resume.rs], helpers of [src/session/mod.rs])

    Which stored state a new session continues from.  The length of the local
    file and the answer to the probe request are inputs. *)

From S2P Require Import Prelude RustStr Errors PieceMap Scheduler Response RangeValidate Control.

Inductive FileAllocation := AllocNone | Prealloc.

(** The part of [DownloadSpec] the decision reads. *)
Record ResumeSpec := mkResumeSpec {
  spec_resume : bool;
  spec_max_connections : Z;
  spec_file_allocation : FileAllocation;
}.

Definition mismatch (message : string) : DownloadError := ResumeMismatch (str message).

Definition map_resume_metadata_error (kind : IoErrorKind) : DownloadError :=
  if bool_decide (kind = NotFound) then mismatch "local download file is missing" else Io kind.

Definition is_multi (ctrl : ControlSnapshot) (spec : ResumeSpec) : bool :=
  (1 <? ctrl_piece_count ctrl)%nat && (1 <? spec_max_connections spec).

Definition preallocated (spec : ResumeSpec) : bool :=
  match spec_file_allocation spec with Prealloc => true | AllocNone => false end.

Section Resume.
  Context `{RawBits}.

Definition ctrl_piece_map (ctrl : ControlSnapshot) : PieceMap :=
  from_bitset (ctrl_total_size ctrl) (ctrl_piece_size ctrl) (ctrl_completed_bitset ctrl) (ctrl_piece_count ctrl).

(** The multi-connection branch of [validate_local_resume_state]. *)
Definition validate_multi (actual_len : Z) (ctrl : ControlSnapshot) (spec : ResumeSpec) : result unit DownloadError :=
  let piece_map := ctrl_piece_map ctrl in
  if ctrl_downloaded_bytes ctrl <? completed_bytes piece_map then
    Err (mismatch "control file marks more completed bytes than downloaded_bytes")
  else if preallocated spec then
    if negb (actual_len =? ctrl_total_size ctrl) then
      Err (ResumeMismatch (str "preallocated resume file size mismatch: expected " ++ show_u64 (ctrl_total_size ctrl) ++
                           str " bytes, found " ++ show_u64 actual_len))
    else Ok tt
  else
    let min_len := match highest_completed_piece piece_map with
                   | Some piece_id => (piece_range piece_map piece_id).2
                   | None => 0
                   end in
    if actual_len <? min_len then
      Err (ResumeMismatch (str "resume file is truncated: expected at least " ++ show_u64 min_len ++
                           str " bytes from completed pieces, found " ++ show_u64 actual_len))
    else if ctrl_total_size ctrl <? actual_len then
      Err (ResumeMismatch (str "resume file is larger than expected total size: expected at most " ++
                           show_u64 (ctrl_total_size ctrl) ++ str " bytes, found " ++ show_u64 actual_len))
    else if actual_len <? ctrl_downloaded_bytes ctrl then
      Err (ResumeMismatch (str "control file records " ++ show_u64 (ctrl_downloaded_bytes ctrl) ++
                           str " downloaded bytes but local file only has " ++ show_u64 actual_len ++ str " bytes"))
    else Ok tt.

(** [file_len]: [metadata(output_path)], its length or the kind of the error. *)
Definition validate_local_resume_state (file_len : result Z IoErrorKind) (ctrl : ControlSnapshot) (spec : ResumeSpec)
    : result unit DownloadError :=
  match file_len with
  | Err kind => Err (map_resume_metadata_error kind)
  | Ok actual_len =>
      if ctrl_total_size ctrl <? ctrl_downloaded_bytes ctrl then
        Err (mismatch "control file records more bytes than total_size")
      else if is_multi ctrl spec then validate_multi actual_len ctrl spec
      else
        let expected_len := if preallocated spec then ctrl_total_size ctrl else ctrl_downloaded_bytes ctrl in
        if negb (actual_len =? expected_len) then
          Err (ResumeMismatch (str "resume file size mismatch: expected " ++ show_u64 expected_len ++
                               str " bytes, found " ++ show_u64 actual_len))
        else Ok tt
  end.

(** [validate_metadata] *)
Definition validate_metadata (meta : ResponseMeta) (ctrl : ControlSnapshot) : bool :=
  match content_range_total meta with Some total => total =? ctrl_total_size ctrl | None => true end &&
  match ctrl_etag ctrl with Some expected => bool_decide (etag meta = Some expected) | None => true end &&
  match ctrl_last_modified ctrl with Some expected => bool_decide (last_modified meta = Some expected) | None => true end.

(** What [try_resume_download] continues with.  [FreshStart]: it returns
    [Ok(None)] and the caller downloads from the beginning. *)
Inductive ResumePlan :=
| ResumedMulti (pm : PieceMap) (probe_piece : nat)
| ResumedSingle (start_offset : Z)
| FreshStart.

(** A response to the probe: its status, its [Retry-After] header, its metadata. *)
Definition ProbeResult : Type := result (Z * option rstr * ResponseMeta) DownloadError.

Definition probe_accepted (ctrl : ControlSnapshot) (start last : Z) (probe : ProbeResult) : bool :=
  match probe with
  | Ok (status, retry_after, meta) =>
      match validate_range_response status retry_after meta ResumeProbe
              (mkExpected start last (Some (ctrl_total_size ctrl))) with
      | Ok Accept => validate_metadata meta ctrl
      | _ => false
      end
  | Err _ => false
  end.

(** The decision of [try_resume_download] and whether the control file is
    deleted.  [loaded] is the result of loading the control file, [send_range
    start last] the outcome of the probe request after its retries. *)
Definition try_resume (spec : ResumeSpec) (loaded : result (ControlSnapshot * ControlHints) DownloadError)
    (file_len : result Z IoErrorKind) (send_range : Z -> Z -> ProbeResult) : ResumePlan * bool :=
  match (if spec_resume spec then match loaded with Ok (ctrl, _) => Some ctrl | Err _ => None end else None) with
  | None => (FreshStart, false)
  | Some ctrl =>
      match validate_local_resume_state file_len ctrl spec with
      | Err _ => (FreshStart, true)
      | Ok _ =>
          if is_multi ctrl spec then
            let piece_map := ctrl_piece_map ctrl in
            match first_missing piece_map with
            | Some probe_piece =>
                let '(start, end_) := piece_range piece_map probe_piece in
                if probe_accepted ctrl start (end_ ⊖ 1) (send_range start (end_ ⊖ 1))
                then (ResumedMulti piece_map probe_piece, false)
                else (FreshStart, true)
            | None => (FreshStart, true)
            end
          else if (0 <? ctrl_downloaded_bytes ctrl) && (ctrl_downloaded_bytes ctrl <? ctrl_total_size ctrl) then
            let start := ctrl_downloaded_bytes ctrl in
            let last := ctrl_total_size ctrl ⊖ 1 in
            if probe_accepted ctrl start last (send_range start last)
            then (ResumedSingle start, false)
            else (FreshStart, true)
          else (FreshStart, true)
      end
  end.
End Resume.

(** ** Helpers of the session *)

Definition range_probe_response_covers_full_file (meta : ResponseMeta) : bool :=
  match content_range_start meta, content_range_end meta, content_range_total meta with
  | Some 0, Some e, Some total => bool_decide (checked_add e 1 = Some total)
  | _, _, _ => false
  end.

Definition single_response_total_size (status : Z) (meta : ResponseMeta) : option Z :=
  if status =? 206 then content_range_total meta else content_length meta.

Definition should_abort_range_probe_fallback (e : DownloadError) : bool :=
  match e with
  | Cancelled | Paused | RetryBudgetExceeded _ _ => true
  | HttpStatus status _ =>
      (status =? 429) || (status =? 500) || (status =? 502) || (status =? 503) || (status =? 504)
  | _ => false
  end.

(** ** Properties *)

Section ResumeProps.
  Context `{RawBits}.

(** A control snapshot whose numbers fit together. *)
Definition ctrl_ok (ctrl : ControlSnapshot) : Prop :=
  Geometry (ctrl_total_size ctrl) (ctrl_piece_size ctrl) /\
  ctrl_piece_count ctrl = count_of (ctrl_total_size ctrl) (ctrl_piece_size ctrl).

Lemma ctrl_map_fields ctrl :
  let pm := ctrl_piece_map ctrl in
  total_size pm = ctrl_total_size ctrl /\ piece_size pm = ctrl_piece_size ctrl /\ piece_count pm = ctrl_piece_count ctrl.
Proof. unfold ctrl_piece_map, from_bitset. by destruct (fold_left _ _ _) as [[[? ?] ?] ?]. Qed.

Lemma ctrl_map_wf ctrl : ctrl_ok ctrl -> PieceMap_wf (ctrl_piece_map ctrl).
Proof. intros [G C]. unfold ctrl_piece_map. rewrite C. by apply from_bitset_wf_lemma. Qed.

(** Every byte of a completed piece lies in a local file of [n] bytes. *)
Definition covers_completed (pm : PieceMap) (n : Z) : Prop :=
  forall i b, bit pm i = true -> piece_lo (piece_size pm) i <= b < piece_hi (total_size pm) (piece_size pm) i -> b < n.

Lemma validate_multi_covers n ctrl spec :
  ctrl_ok ctrl -> validate_multi n ctrl spec = Ok tt ->
  covers_completed (ctrl_piece_map ctrl) n /\ n <= ctrl_total_size ctrl /\
  completed_bytes (ctrl_piece_map ctrl) <= ctrl_downloaded_bytes ctrl.
Proof.
  intros Hok E. pose proof (ctrl_map_wf ctrl Hok) as W. destruct (ctrl_map_fields ctrl) as (Ft & Fs & Fc).
  unfold validate_multi in E. set (pm := ctrl_piece_map ctrl) in *.
  destruct (Z.ltb_spec (ctrl_downloaded_bytes ctrl) (completed_bytes pm)); [done|].
  assert (forall i b, bit pm i = true -> b < piece_hi (total_size pm) (piece_size pm) i -> b < total_size pm) as Htot
    by (intros i b _; unfold piece_hi; lia).
  destruct (preallocated spec).
  - destruct (Z.eqb_spec n (ctrl_total_size ctrl)) as [->|]; [|done]. split_and!; [|lia|lia].
    intros i b Hi Hb. rewrite <- Ft. apply (Htot i); [done|lia].
  - destruct (highest_completed_piece pm) as [h|] eqn:Eh; pose proof (wf_highest _ W) as HL; rewrite Eh in HL.
    + destruct (Z.ltb_spec n (piece_range pm h).2) as [|Hn]; [done|].
      destruct (Z.ltb_spec (ctrl_total_size ctrl) n); [done|]. split_and!; [|lia|lia].
      destruct HL as (Hh & _ & Hmax). rewrite piece_range_exact in Hn by done. simpl in Hn.
      intros i b Hi Hb. pose proof (bit_lt _ _ W Hi) as Hic.
      assert (i <= h)%nat as Hle.
      { destruct (Nat.le_gt_cases i h); [done|]. unfold bit in Hi. rewrite (Hmax i) in Hi by lia. done. }
      destruct (wf_geometry _ W) as (? & _). unfold piece_hi in *. nia.
    + destruct (Z.ltb_spec n 0); [done|]. destruct (Z.ltb_spec (ctrl_total_size ctrl) n); [done|]. split_and!; [|lia|lia].
      intros i b Hi _. pose proof (bit_lt _ _ W Hi) as Hic. unfold bit in Hi. by rewrite (HL i Hic) in Hi.
Qed.

(** The probe was answered with the bytes asked for, of the same object. *)
Definition same_object (ctrl : ControlSnapshot) (start last : Z) (probe : ProbeResult) : Prop :=
  exists retry_after meta, probe = Ok (206, retry_after, meta) /\
    content_range_start meta = Some start /\ content_range_end meta = Some last /\
    content_range_total meta = Some (ctrl_total_size ctrl) /\
    (forall e, ctrl_etag ctrl = Some e -> etag meta = Some e) /\
    (forall m, ctrl_last_modified ctrl = Some m -> last_modified meta = Some m).

Lemma probe_accepted_same ctrl start last probe :
  u64 start -> u64 last -> probe_accepted ctrl start last probe = true -> same_object ctrl start last probe.
Proof.
  intros Hs Hl E. unfold probe_accepted in E. destruct probe as [[[status ra] meta]|]; [|done].
  destruct (validate_range_response _ _ _ _ _) as [[|]|] eqn:V; try done.
  apply accepted_iff in V as (-> & _ & total & Ht & [= <-] & Hst & Hen & _); [|done..].
  exists ra, meta. split_and!; try done; unfold validate_metadata in E; rewrite !andb_true_iff in E; destruct E as [[_ E1] E2].
  - intros e He. rewrite He in E1. by apply bool_decide_eq_true in E1.
  - intros m Hm. rewrite Hm in E2. by apply bool_decide_eq_true in E2.
Qed.

(** How each decision comes about. *)
Lemma try_resume_cases spec loaded file_len send_range plan deleted :
  try_resume spec loaded file_len send_range = (plan, deleted) ->
  match plan with
  | ResumedMulti pm k => deleted = false /\ exists ctrl h, loaded = Ok (ctrl, h) /\ is_multi ctrl spec = true /\
      validate_local_resume_state file_len ctrl spec = Ok tt /\ pm = ctrl_piece_map ctrl /\ first_missing pm = Some k /\
      probe_accepted ctrl (piece_range pm k).1 ((piece_range pm k).2 ⊖ 1)
        (send_range (piece_range pm k).1 ((piece_range pm k).2 ⊖ 1)) = true
  | ResumedSingle start => deleted = false /\ exists ctrl h, loaded = Ok (ctrl, h) /\ is_multi ctrl spec = false /\
      validate_local_resume_state file_len ctrl spec = Ok tt /\ start = ctrl_downloaded_bytes ctrl /\
      0 < start < ctrl_total_size ctrl /\
      probe_accepted ctrl start (ctrl_total_size ctrl ⊖ 1) (send_range start (ctrl_total_size ctrl ⊖ 1)) = true
  | FreshStart => (deleted = true <-> spec_resume spec = true /\ exists x, loaded = Ok x)
  end.
Proof.
  unfold try_resume. destruct (spec_resume spec); [|intros [= <- <-]; naive_solver].
  destruct loaded as [[ctrl h]|]; [|intros [= <- <-]; naive_solver].
  destruct (validate_local_resume_state file_len ctrl spec) as [[]|] eqn:V; [|intros [= <- <-]; naive_solver].
  destruct (is_multi ctrl spec) eqn:M.
  - destruct (first_missing (ctrl_piece_map ctrl)) as [k|] eqn:F; [|intros [= <- <-]; naive_solver].
    destruct (piece_range (ctrl_piece_map ctrl) k) as [a e] eqn:R.
    destruct (probe_accepted _ _ _ _) eqn:P; intros [= <- <-]; [|naive_solver]. split; [done|]. exists ctrl, h. by rewrite R.
  - destruct ((0 <? ctrl_downloaded_bytes ctrl) && (ctrl_downloaded_bytes ctrl <? ctrl_total_size ctrl)) eqn:D; [|intros [= <- <-]; naive_solver].
    rewrite andb_true_iff, !Z.ltb_lt in D.
    destruct (probe_accepted _ _ _ _) eqn:P; intros [= <- <-]; [|naive_solver]. split; [done|]. by exists ctrl, h.
Qed.

(** The local file has the length a piece map asks for. *)
Definition file_fits (spec : ResumeSpec) (ctrl : ControlSnapshot) (n : Z) : Prop :=
  if preallocated spec then n = ctrl_total_size ctrl
  else ctrl_downloaded_bytes ctrl <= n <= ctrl_total_size ctrl /\ covers_completed (ctrl_piece_map ctrl) n.

Lemma validate_multi_complete n ctrl spec :
  ctrl_ok ctrl -> completed_bytes (ctrl_piece_map ctrl) <= ctrl_downloaded_bytes ctrl -> 0 <= ctrl_downloaded_bytes ctrl -> file_fits spec ctrl n ->
  validate_multi n ctrl spec = Ok tt.
Proof.
  intros Hok Hc H0 Hf. pose proof (ctrl_map_wf ctrl Hok) as W. unfold validate_multi, file_fits in *. set (pm := ctrl_piece_map ctrl) in *.
  rewrite (proj2 (Z.ltb_ge _ _) Hc). destruct (preallocated spec); [subst n; by rewrite Z.eqb_refl|]. destruct Hf as [Hn Hcov].
  assert (match highest_completed_piece pm with Some piece_id => (piece_range pm piece_id).2 | None => 0 end <= n) as Hmin.
  { pose proof (wf_highest _ W) as HL. destruct (highest_completed_piece pm) as [h|]; [|lia]. destruct HL as (Hh & Hb & _).
    rewrite piece_range_exact by done. cbn [snd]. pose proof Hh as Hh'. rewrite (wf_count _ W) in Hh'.
    destruct (piece_bounds _ _ _ (wf_geometry _ W) Hh') as (B1 & B2 & _).
    assert (piece_hi (total_size pm) (piece_size pm) h - 1 < n) by (apply (Hcov h); [exact Hb|lia]). lia. }
  rewrite (proj2 (Z.ltb_ge _ _) Hmin), (proj2 (Z.ltb_ge (ctrl_total_size ctrl) n)), (proj2 (Z.ltb_ge n (ctrl_downloaded_bytes ctrl))) by lia. done.
Qed.

End ResumeProps.

Definition demo_ctrl : ControlSnapshot :=
  mkSnapshot (str "http://h/f") 25 10 3 [5] 15 (Some (str "v1")) None.

Definition demo_answer (start last : Z) : ProbeResult :=
  Ok (206, None, mkMeta (Some (last - start + 1)) (Some start) (Some last) (Some 25) true (Some (str "v1")) None None None).

Lemma demo_ctrl_ok : ctrl_ok demo_ctrl.
Proof. split; [unfold Geometry; simpl; lia|reflexivity]. Qed.


(** A multi-connection state resumed over one connection is read as a
    prefix.  A consistent control file with a missing piece, whose local file
    was preallocated, is accepted by a session with [max_connections = 1], which
    continues behind the bytes of that piece: they are never downloaded. *)
Theorem single_resume_skips_missing :
  exists ctrl spec n answer start i b,
    ctrl_ok ctrl /\ completed_bytes (ctrl_piece_map ctrl) = ctrl_downloaded_bytes ctrl /\
    n = ctrl_total_size ctrl /\ spec_file_allocation spec = Prealloc /\
    try_resume spec (Ok (ctrl, default_hints)) (Ok n) answer = (ResumedSingle start, false) /\
    bit (ctrl_piece_map ctrl) i = false /\
    piece_lo (ctrl_piece_size ctrl) i <= b < piece_hi (ctrl_total_size ctrl) (ctrl_piece_size ctrl) i /\ b < start.
Proof.
  exists demo_ctrl, (mkResumeSpec true 1 Prealloc), 25, demo_answer, 15, 1%nat, 12.
  split; [exact demo_ctrl_ok|]. split_and!; try reflexivity; try (vm_compute; discriminate).
Qed.
