(* ===== verification/Checkpoint.v ===== *)
(** * Checkpoints of a multi-connection download ([src/session/multi.rs], save policy of [src/session/mod.rs])

    The scheduler, the writer task and the control file together: workers
    acknowledge leases after the writer has flushed them, and the monitor
    freezes the scheduler's bits, passes a writer barrier and saves them. *)

From S2P Require Import Prelude RustStr Errors PieceMap Ranges Segment Scheduler SchedInv SchedSpec Planner Reserve Assign Dynamic SchedProps Cache Writer WriterInv WriterProps WriterRun Response Control Resume.

(** ** When to save *)

Inductive ControlSaveReason := Autosave | Terminal.

Record ControlSaveTracker := mkTracker {
  last_saved_downloaded_bytes : Z;
  autosave_ticks_since_save : Z;
}.

Definition tracker_new (initial : Z) : ControlSaveTracker := mkTracker initial 0.

(** [u32::saturating_add] *)
Definition sat_add32 (a b : Z) : Z := Z.min (a + b) (2 ^ 32 - 1).

Definition should_save (t : ControlSaveTracker) (reason : ControlSaveReason) (current every : Z)
    : bool * ControlSaveTracker :=
  if current <=? last_saved_downloaded_bytes t then
    (false, match reason with
            | Autosave => mkTracker (last_saved_downloaded_bytes t) 0
            | Terminal => t
            end)
  else
    match reason with
    | Autosave =>
        let ticks := sat_add32 (autosave_ticks_since_save t) 1 in
        (every <=? ticks, mkTracker (last_saved_downloaded_bytes t) ticks)
    | Terminal => (true, t)
    end.

Definition mark_saved (bytes : Z) (t : ControlSaveTracker) : ControlSaveTracker := mkTracker bytes 0.

(** ** What to save *)

(** The part of [MultiControlSaveContext] a snapshot copies. *)
Record SaveContext := mkSaveContext {
  sc_url : rstr;
  sc_total_size : Z;
  sc_etag : option rstr;
  sc_last_modified : option rstr;
  sc_output : rstr;
  sc_autosave_sync_every : Z;
}.

Section Persist.
  Context `{RawBits} `{Codec} (ctx : SaveContext).

(** The block under the scheduler lock: completed bits and hints together. *)
Definition freeze (s : SchedulerState) : ControlSnapshot * ControlHints * SchedulerState :=
  let snap :=
    {| ctrl_url := sc_url ctx;
       ctrl_total_size := sc_total_size ctx;
       ctrl_piece_size := piece_size (piece_map s);
       ctrl_piece_count := piece_count (piece_map s);
       ctrl_completed_bitset := to_bitset_bytes (piece_map s);
       ctrl_downloaded_bytes := completed_bytes (piece_map s);
       ctrl_etag := sc_etag ctx;
       ctrl_last_modified := sc_last_modified ctx |} in
  let '(hints, s') := control_hints s in
  (snap, hints, s').

Record PersistState := mkPersist {
  ps_tracker : ControlSaveTracker;
  ps_sched : SchedulerState;
  ps_fs : Fs;
}.

Definition is_terminal (reason : ControlSaveReason) : bool := match reason with Terminal => true | Autosave => false end.

(** [persist_multi_control_snapshot].  [flush] is the answer of the writer to
    [FlushAll], [None] when the writer has already closed. *)
Definition persist_multi_control_snapshot (reason : ControlSaveReason) (flush : option (result unit DownloadError))
    (p : PersistState) : result unit DownloadError * PersistState :=
  let force := is_terminal reason in
  let '(go, tracker) :=
    if force then (true, ps_tracker p)
    else should_save (ps_tracker p) reason (completed_bytes (piece_map (ps_sched p))) (sc_autosave_sync_every ctx) in
  if negb go then (Ok tt, mkPersist tracker (ps_sched p) (ps_fs p))
  else
    let '(snap, hints, sched) := freeze (ps_sched p) in
    if negb force && (ctrl_downloaded_bytes snap <=? last_saved_downloaded_bytes tracker)
    then (Ok tt, mkPersist tracker sched (ps_fs p))
    else
      match flush with
      | Some (Err e) => (Err e, mkPersist tracker sched (ps_fs p))
      | _ =>
          match save_sync snap hints (control_path (sc_output ctx)) (ps_fs p) with
          | (Ok _, fs) => (Ok tt, mkPersist (mark_saved (ctrl_downloaded_bytes snap) tracker) sched fs)
          | (Err e, fs) => (Err e, mkPersist tracker sched fs)
          end
      end.

(** ** The system *)

(** The writer task receives, ended with a successful sync, or failed. *)
Inductive WriterStatus := Receiving | ClosedOk | Failed.

(** [w_acked] collects the bytes covered by an acknowledged [FlushLease];
    [w_pending] is a checkpoint in progress, with a flag once the writer barrier
    has passed. *)
Record World := mkWorld {
  w_sched : SchedulerState;
  w_writer : WriterTask;
  w_ledger : Ledger;
  w_status : WriterStatus;
  w_acked : LeaseKey -> Z -> Prop;
  w_fs : Fs;
  w_pending : option (ControlSnapshot * ControlHints * bool);
}.

(** Scheduler operations that acknowledge no byte. *)
Inductive quiet_step (s : SchedulerState) : SchedulerState -> Prop :=
| quiet_assign_request w max_requests min occ mode batch dmin dmax allow diag shares :
    0 <= min ->
    quiet_step s (snd (assign_request_with_trace w max_requests min occ mode batch dmin dmax allow diag shares s))
| quiet_assign_to_with_split w m min : 0 <= min -> quiet_step s (snd (assign_to_with_split w m min s))
| quiet_assign_subrange i a e w : quiet_step s (snd (assign_subrange i a e w s))
| quiet_assign_recovery_batch planned w : quiet_step s (snd (assign_recovery_batch planned w s))
| quiet_extend_batch first w m cap : quiet_step s (snd (extend_batch first w m cap s))
| quiet_renew key w : quiet_step s (snd (renew key w s))
| quiet_reclaim key : quiet_step s (snd (reclaim key s))
| quiet_stop_and_reclaim key : quiet_step s (stop_and_reclaim key s).

Definition ack_bytes (cmd : WriterCommand) (l : Ledger) (acked : LeaseKey -> Z -> Prop) (k : LeaseKey) (b : Z) : Prop :=
  acked k b \/ (cmd = FlushLease k /\ ld_sent l (Some k) b).

(** The barrier of a checkpoint in progress has passed when its [FlushAll] is
    handled. *)
Definition passed (cmd : WriterCommand) (p : option (ControlSnapshot * ControlHints * bool))
    : option (ControlSnapshot * ControlHints * bool) :=
  match cmd, p with FlushAll true, Some (snap, h, _) => Some (snap, h, true) | _, _ => p end.

Context (obj : Z -> Z).

Inductive world_step : World -> World -> Prop :=
| ws_sched s s' w l o a fs p :
    quiet_step s s' -> next_lease_id s' < u64_max ->
    world_step (mkWorld s w l o a fs p) (mkWorld s' w l o a fs p)
(* the writer handles a command: workers' data and flushes, a checkpoint's barrier *)
| ws_writer s w w' l a fs p cmd ack :
    cmd_ok obj l cmd -> handle cmd w = (Ok ack, w') ->
    world_step (mkWorld s w l Receiving a fs p) (mkWorld s w' (ledger_step l cmd) Receiving (ack_bytes cmd l a) fs (passed cmd p))
(* the writer fails: its channel closes and its file is dropped *)
| ws_writer_fails s w w' l a fs p cmd e :
    cmd_ok obj l cmd -> handle cmd w = (Err e, w') ->
    world_step (mkWorld s w l Receiving a fs p) (mkWorld s (dropped w') l Failed a fs p)
(* a worker whose lease the writer has acknowledged completes it *)
| ws_complete s w l o a fs p k :
    (forall b, status s b = Leased k -> a k b) ->
    world_step (mkWorld s w l o a fs p) (mkWorld (snd (complete k s)) w l o a fs p)
(* [settle_prefix]: the acknowledged prefix of a stopped attempt is kept *)
| ws_retain s w l o a fs p k e :
    (forall b, status s b = Leased k -> b < e -> a k b) ->
    world_step (mkWorld s w l o a fs p) (mkWorld (snd (retain_prefix k e s)) w l o a fs p)
(* the monitor freezes a snapshot; after a clean end of the writer no barrier is left to pass *)
| ws_freeze s w l o a fs snap h s' :
    freeze s = (snap, h, s') ->
    world_step (mkWorld s w l o a fs None)
               (mkWorld s' w l o a fs (Some (snap, h, match o with ClosedOk => true | _ => false end)))
(* the channel is closed and the task's final flush and sync succeed *)
| ws_close s w w' l a fs p :
    (flush_all ;! sync_file) w = (Ok tt, w') ->
    world_step (mkWorld s w l Receiving a fs p) (mkWorld s w' l ClosedOk a fs p)
| ws_close_fails s w w' l a fs p e :
    (flush_all ;! sync_file) w = (Err e, w') ->
    world_step (mkWorld s w l Receiving a fs p) (mkWorld s (dropped w') l Failed a fs p)
(* the frozen snapshot is written, successfully or not *)
| ws_save s w l o a fs fs' snap h r :
    save_sync snap h (control_path (sc_output ctx)) fs = (r, fs') ->
    (forall payload, serialize_v2 snap h = Ok payload -> blen payload < 2 ^ 32) ->
    world_step (mkWorld s w l o a fs (Some (snap, h, true))) (mkWorld s w l o a fs' None)
(* or given up *)
| ws_abandon s w l o a fs p :
    world_step (mkWorld s w l o a fs p) (mkWorld s w l o a fs None).

(** ** Invariant *)

(** Every byte of a completed piece of [snap] has [P]. *)
Definition SnapBytes (P : Z -> Prop) (snap : ControlSnapshot) : Prop :=
  forall i b, bit (ctrl_piece_map snap) i = true ->
    piece_lo (ctrl_piece_size snap) i <= b < piece_hi (ctrl_total_size snap) (ctrl_piece_size snap) i -> P b.

(** Accepted by the file, whose last write may still be in flight. *)
Definition is_good (w : WriterTask) (b : Z) : Prop := accepted w b = Some (obj b).

Definition is_durable (w : WriterTask) (b : Z) : Prop := durable (file w) b = Some (obj b).

(** In the file, now and after a crash. *)
Definition is_safe (w : WriterTask) (b : Z) : Prop := contents (file w) b = Some (obj b) /\ is_durable w b.

(** Whatever the control file holds, its pieces are safe. *)
Definition FileSound (fs : Fs) (w : WriterTask) : Prop :=
  forall f snap h, fs_files fs !! control_path (sc_output ctx) = Some f ->
    parse_control (fs_data f) = Ok (snap, h) -> SnapBytes (is_safe w) snap.

Record World_ok (x : World) : Prop := {
  wo_sched : Sched_wf (w_sched x) /\ total_of (w_sched x) = sc_total_size ctx;
  wo_tracks : w_status x = Receiving -> Tracks obj (w_ledger x) (w_writer x);
  wo_acked : w_status x <> Failed -> forall k b, w_acked x k b -> is_good (w_writer x) b;
  wo_done : w_status x <> Failed -> forall b, 0 <= b < total_of (w_sched x) -> status (w_sched x) b = Done -> is_good (w_writer x) b;
  wo_closed : w_status x = ClosedOk -> forall b, is_good (w_writer x) b -> is_safe (w_writer x) b;
  wo_pending : w_status x <> Failed -> forall snap h, w_pending x = Some (snap, h, false) -> SnapBytes (is_good (w_writer x)) snap;
  wo_barrier : forall snap h, w_pending x = Some (snap, h, true) -> SnapBytes (is_safe (w_writer x)) snap;
  wo_file : FileSound (w_fs x) (w_writer x);
}.

Lemma SnapBytes_mono (P Q : Z -> Prop) snap : (forall b, P b -> Q b) -> SnapBytes P snap -> SnapBytes Q snap.
Proof. intros HPQ HS i b Hi Hb. by apply HPQ, (HS i b). Qed.

(** A completed piece of a well-formed scheduler holds only acknowledged bytes. *)
Lemma frozen_bytes s snap h s' (P : Z -> Prop) :
  Sched_wf s -> total_of s = sc_total_size ctx -> freeze s = (snap, h, s') ->
  (forall b, 0 <= b < total_of s -> status s b = Done -> P b) -> SnapBytes P snap.
Proof.
  intros W Ht E HP. unfold freeze in E. destruct (control_hints s) as [h0 s0]. injection E as <- <- <-.
  intros i b. unfold ctrl_piece_map. simpl. rewrite <- Ht. unfold total_of.
  rewrite (bitset_roundtrip (piece_map s)) by apply W. intros Hi Hb.
  pose proof (bit_lt _ _ (sw_pm _ W) Hi) as Hc. pose proof (plo_phi s i W Hc) as Hp.
  unfold plo, phi, total_of in Hp. apply HP; [unfold total_of; lia|].
  unfold status. rewrite (in_piece s i b W) by done.
  destruct (pieces s !! i) as [p|] eqn:Ep; [|by rewrite Hi].
  apply (sw_pieces _ W) in Ep as (_ & Hbit & _). congruence.
Qed.

(** Reserving ranges acknowledges nothing. *)
Lemma reserved_done s s' w segs b :
  Reserved s s' w segs -> 0 <= b < total_of s -> status s' b = Done -> status s b = Done.
Proof.
  intros R Hb Hd. destruct (decide (Exists (fun g => in_seg g b = true) segs)) as [HE|HN].
  - apply List.Exists_exists in HE as (g & Hg%list_elem_of_In & Hin).
    destruct (rs_taken _ _ _ _ R g b Hg Hin) as [_ Hl]. congruence.
  - rewrite <- (rs_other _ _ _ _ R b Hb); [done|]. intros g Hg. destruct (in_seg g b) eqn:E; [|done].
    destruct HN. apply List.Exists_exists. exists g. split; [by apply list_elem_of_In|done].
Qed.

Lemma moved_done s k to b : to <> Done -> spec_move k to (status s) b = Done -> status s b = Done.
Proof. intros Hto. unfold spec_move. by case_decide. Qed.

Lemma reclaim_done s key b :
  Sched_wf s -> 0 <= b < total_of s -> status (snd (reclaim key s)) b = Done -> status s b = Done.
Proof.
  intros W Hb. destruct (reclaim key s) as [r s'] eqn:E.
  destruct (reclaim_spec s key r s' W E) as (_ & _ & _ & _ & _ & Hs). simpl. rewrite (Hs b Hb). by apply moved_done.
Qed.

(** Closes a goal about a reservation found in the context. *)
Ltac reserved :=
  match goal with
  | R : Reserved _ _ _ _ |- _ => exact (reserved_done _ _ _ _ _ R)
  | R : Reserved _ _ _ _ /\ _ |- _ => exact (reserved_done _ _ _ _ _ (proj1 R))
  | R : RequestOk _ _ _ _ _ |- _ => exact (reserved_done _ _ _ _ _ (ra_reserved _ _ _ _ _ R))
  end.

Lemma quiet_done s s' b :
  Sched_wf s -> quiet_step s s' -> next_lease_id s' < u64_max ->
  0 <= b < total_of s -> status s' b = Done -> status s b = Done.
Proof.
  intros W Q. destruct Q as [w m min occ mode batch dmin dmax allow diag shares Hm|w m min Hm|i a e w|planned w
    |first w m cap|key w|key|key]; intros Hlim.
  - destruct (assign_request_with_trace _ _ _ _ _ _ _ _ _ _ _ s) as [[a|] s'] eqn:E;
      apply assign_request_spec in E; try done; reserved.
  - destruct (assign_to_with_split w m min s) as [[g|] s'] eqn:E; apply assign_spec in E as [R _]; try done; reserved.
  - destruct (assign_subrange i a e w s) as [[g|] s'] eqn:E; apply subrange_spec in E; try done; reserved.
  - destruct (assign_recovery_batch planned w s) as [[l|] s'] eqn:E; apply recovery_batch_spec in E; try done; reserved.
  - unfold extend_batch in *. destruct (extend_batch_with_occupied first w m 0 cap s) as [[l r] s'] eqn:E.
    apply extend_batch_spec in E as [R _]; try done. reserved.
  - destruct (renew key w s) as [r s'] eqn:E. destruct (renew_spec s key w r s' W E Hlim) as (_ & _ & _ & _ & Hs).
    intros Hb. simpl. destruct r as [g|].
    + destruct Hs as (_ & _ & Hs). rewrite (Hs b Hb). by apply moved_done.
    + by rewrite (Hs b Hb).
  - intros Hb. by apply reclaim_done.
  - intros Hb. by apply (reclaim_done (set_stopped true s) key b); [apply stopped_wf|].
Qed.

Lemma quiet_is_step s s' : quiet_step s s' -> sched_step s s'.
Proof. destruct 1; by constructor. Qed.

(** The file only gains safe bytes. *)
Lemma SnapBytes_advance w w' snap : Advanced obj w w' -> SnapBytes (is_safe w) snap -> SnapBytes (is_safe w') snap.
Proof. intros A. apply SnapBytes_mono. intros b [Hg Hd]. split; [by apply (ad_landed _ _ _ A)|by apply (ad_durable _ _ _ A)]. Qed.

(** Only the writer moved; while it has not failed it has lost nothing. *)
Lemma World_ok_writer s w w' l l' o' a a' fs p :
  World_ok (mkWorld s w l Receiving a fs p) -> Advanced obj w w' ->
  (o' = Receiving -> Tracks obj l' w') -> (o' <> Failed -> forall b, is_good w b -> is_good w' b) ->
  (o' <> Failed -> forall k b, a' k b -> is_good w' b) -> (o' = ClosedOk -> forall b, is_good w' b -> is_safe w' b) ->
  World_ok (mkWorld s w' l' o' a' fs p).
Proof.
  intros [I1 I2 I4 I5 I6 I7 I8 I9] A HT Hk Ha Hc. simpl in *. split; simpl; try done.
  - intros Ho b Hb Hs. by apply (Hk Ho), I5.
  - intros Ho snap h Hp. apply (SnapBytes_mono (is_good w)); [by apply Hk|]. by apply (I7 ltac:(done) snap h).
  - intros snap h Hp. by apply (SnapBytes_advance w w' snap A), (I8 _ h).
  - intros f snap h Hf Hp. by apply (SnapBytes_advance w w' snap A), (I9 f snap h).
Qed.

(** Only the scheduler moved, acknowledging bytes that are good. *)
Lemma World_ok_sched s s' w l o a fs p :
  World_ok (mkWorld s w l o a fs p) -> Sched_wf s' -> total_of s' = total_of s ->
  (o <> Failed -> forall b, 0 <= b < total_of s -> status s' b = Done -> status s b = Done \/ is_good w b) ->
  World_ok (mkWorld s' w l o a fs p).
Proof.
  intros [[W Ht] I2 I4 I5 I6 I7 I8 I9] W' Ht' Hd. simpl in *. split; simpl; try done.
  - split; [done|congruence].
  - intros Ho b. rewrite Ht'. intros Hb Hs. destruct (Hd Ho b Hb Hs) as [H1|H1]; [by apply I5|done].
Qed.

(** A failed writer has lost at most what was in flight. *)
Lemma World_ok_failed s w w' l a fs p :
  World_ok (mkWorld s w l Receiving a fs p) -> Advanced obj w w' -> World_ok (mkWorld s (dropped w') l Failed a fs p).
Proof.
  intros I A. pose proof (wo_tracks _ I eq_refl) as T. simpl in T.
  apply (World_ok_writer s w (dropped w') l l Failed a a); try done.
  destruct A as [A1 A2 A3 A4]. destruct (dropped_spec obj w' (A2 (wi_inflight _ _ _ (proj1 T)))) as [B1 B2 B3 B4].
  split; auto. congruence.
Qed.

(** A flush and a sync make everything that is good safe. *)
Lemma flush_sync_spec l w w' :
  Tracks obj l w -> (flush_all ;! sync_file) w = (Ok tt, w') ->
  Tracks obj l w' /\ Carried obj w w' /\ (forall b, is_good w' b -> is_safe w' b).
Proof.
  intros [I Ha] E. apply res_bind_Ok in E as ([] & w1 & E1 & E2).
  destruct (flush_all_spec obj _ _ _ I E1) as (I1 & R1 & _ & A1 & _).
  destruct (sync_file_spec obj _ _ _ I1 E2) as (I2 & R2 & (_ & A2 & _) & N & _ & D & _).
  split_and!; [split; [done|congruence]|etrans; [by apply Wrote_Carried|done]|].
  intros b. unfold is_good, is_safe, is_durable, accepted. rewrite N, D. done.
Qed.

Lemma flush_sync_any l r w w' :
  Tracks obj l w -> (flush_all ;! sync_file) w = (r, w') -> Advanced obj w w'.
Proof.
  intros [I _] E. apply bind_any with (obj := obj) in E; [done|clear E|clear E].
  - intros r1 w1. by apply (flush_all_any obj _ _ _ _ I).
  - intros [] w1 E1 w2. destruct (flush_all_spec obj _ _ _ I E1) as (I1 & _). by apply (sync_file_any obj _ _ _ _ I1).
Qed.

Lemma barrier_unfold w ack w' :
  handle (FlushAll true) w = (Ok ack, w') -> (flush_all ;! sync_file) w = (Ok tt, w').
Proof.
  simpl. intros E. apply res_bind_Ok in E as ([] & w1 & E1 & E). apply res_bind_Ok in E as ([] & w2 & E2 & [= _ <-]).
  apply res_bind_Ok. by exists tt, w1.
Qed.

Lemma acked_good l w w' cmd ack a k b :
  Tracks obj l w -> cmd_ok obj l cmd -> handle cmd w = (Ok ack, w') ->
  (forall k b, a k b -> is_good w b) -> ack_bytes cmd l a k b -> is_good w' b.
Proof.
  intros T Hok E Ha [Hb|[-> Hb]]; destruct (handle_spec obj _ _ _ _ _ T Hok E) as (_ & A & M & _).
  - apply (cr_good _ _ _ A). by apply (Ha k).
  - by apply M.
Qed.

(** The control file loads as [snap]. *)
Definition control_holds (fs : Fs) (snap : ControlSnapshot) : Prop :=
  exists f h, fs_files fs !! control_path (sc_output ctx) = Some f /\ parse_control (fs_data f) = Ok (snap, h).

(** A save leaves the old checkpoint or the new one. *)
Lemma save_control snap h fs fs' r snap' :
  save_sync snap h (control_path (sc_output ctx)) fs = (r, fs') ->
  (forall payload, serialize_v2 snap h = Ok payload -> blen payload < 2 ^ 32) ->
  control_holds fs' snap' -> control_holds fs snap' \/ snap' = snap.
Proof.
  intros E Hlen (f & h' & Hf & Hp). pose proof (save_sync_atomic _ _ _ _ _ _ E) as [A _]. destruct r as [[]|e].
  - right. destruct A as (payload & Es & Hf'). rewrite Hf in Hf'. injection Hf' as ->. simpl in Hp.
    rewrite <- (app_nil_r (encoded VERSION payload)) in Hp.
    rewrite (parse_encoded VERSION payload [] (snap, h)) in Hp; [|by apply Hlen|right; split; [done|by apply codec_roundtrip]].
    by injection Hp as <- <-.
  - left. rewrite A in Hf. by exists f, h'.
Qed.

Lemma save_sound snap h fs fs' r w :
  save_sync snap h (control_path (sc_output ctx)) fs = (r, fs') ->
  (forall payload, serialize_v2 snap h = Ok payload -> blen payload < 2 ^ 32) ->
  SnapBytes (is_safe w) snap -> FileSound fs w -> FileSound fs' w.
Proof.
  intros E Hlen HS HF f snap' h' Hf Hp.
  destruct (save_control snap h fs fs' r snap' E Hlen) as [(g & h0 & Hg & Hq)| ->]; [by exists f, h'| |done]. by apply (HF g snap' h0).
Qed.

(** Handling a checkpoint's barrier makes the frozen pieces durable. *)
Lemma World_ok_passed w0 ack s w l0 l o a fs p cmd :
  o <> Failed -> World_ok (mkWorld s w l o a fs p) -> Tracks obj l0 w0 -> handle cmd w0 = (Ok ack, w) ->
  World_ok (mkWorld s w l o a fs (passed cmd p)).
Proof.
  intros Ho I T E. destruct cmd as [| | | |sync]; try done. destruct sync; [|done]. destruct p as [[[snap h] flag]|]; [|done].
  apply barrier_unfold in E. destruct (flush_sync_spec l0 w0 w T E) as (_ & _ & D).
  destruct I as [I1 I2 I4 I5 I6 I7 I8 I9]. simpl in *. split; simpl; try done. intros snap' h' [= <- <-]. destruct flag.
  - by apply (I8 snap h).
  - apply (SnapBytes_mono (is_good w)); [by apply D|]. by apply (I7 Ho snap h).
Qed.

Lemma world_step_ok x y : World_ok x -> world_step x y -> World_ok y.
Proof.
  intros I Hs. destruct Hs as [s s' w l o a fs p Q Hlim|s w w' l a fs p cmd ack Hok E|s w w' l a fs p cmd e Hok E
    |s w l o a fs p k Ha|s w l o a fs p k e Ha|s w l o a fs snap h s' E
    |s w w' l a fs p E|s w w' l a fs p e E|s w l o a fs fs' snap h r E Hlen|s w l o a fs p];
    pose proof I as [[W Ht] I2 I4 I5 I6 I7 I8 I9]; simpl in *.
  - destruct (step_simulates s s' W (quiet_is_step _ _ Q) Hlim) as (W' & Ht' & _).
    apply (World_ok_sched s); try done. intros _ b Hb Hd. left. by apply (quiet_done s s').
  - specialize (I2 eq_refl). destruct (handle_spec obj _ _ _ _ _ I2 Hok E) as (T' & A & _ & _).
    apply (World_ok_passed w ack _ _ l); [done| |done|done].
    apply (World_ok_writer s w w' l _ Receiving a); try done; [by apply A|intros _; by apply (cr_good _ _ _ A)|].
    intros _ k b. apply (acked_good l w w' cmd ack a k b); try done. by apply I4.
  - apply (World_ok_failed s w); [done|]. by apply (handle_any obj _ _ _ _ _ (I2 eq_refl) Hok E).
  - destruct (complete k s) as [r s'] eqn:E. destruct (complete_spec s k r s' W E) as (W' & Ht' & _ & _ & _ & _ & Hst).
    apply (World_ok_sched s); try done. intros Ho b Hb. simpl. rewrite (Hst b Hb). unfold spec_move.
    case_decide as D; [|by left]. intros _. right. by apply (I4 Ho k), Ha.
  - destruct (retain_prefix k e s) as [r s'] eqn:E.
    destruct (retain_prefix_spec s k e r s' W E) as (W' & Hpm & _ & _ & _ & Hst).
    apply (World_ok_sched s); try done; [unfold total_of; simpl; by rewrite Hpm|]. intros Ho b Hb. simpl. destruct r.
    + destruct Hst as [Hst _]. rewrite (Hst b Hb). unfold spec_retain. case_decide as D; [|by left].
      intros _. right. apply (I4 Ho k). destruct D. by apply Ha.
    + rewrite Hst. by left.
  - assert (World_ok (mkWorld s' w l o a fs None)) as I'.
    { unfold freeze in E. destruct (control_hints s) as [h0 s0] eqn:Eh. injection E as _ _ <-.
      assert (s0 = snd (control_hints s)) as -> by (by rewrite Eh).
      apply (World_ok_sched s); try done; [destruct W; by split|]. intros _ b _. by left. }
    assert (o <> Failed -> SnapBytes (is_good w) snap) as Hg by (intros Ho; by apply (frozen_bytes s snap h s' _ W Ht E), I5).
    destruct I' as [J1 J2 J4 J5 J6 J7 J8 J9]. simpl in *. split; simpl; try done.
    + intros Ho snap' h' [= <- <- _]. by apply Hg.
    + intros snap' h' [= <- <- Ho]. destruct o; try done.
      apply (SnapBytes_mono (is_good w)); [by apply (I6 eq_refl)|by apply Hg].
  - specialize (I2 eq_refl). destruct (flush_sync_spec l w w' I2 E) as (T' & A & D).
    apply (World_ok_writer s w w' l l _ a); try done; [by apply A|intros _; by apply (cr_good _ _ _ A)|].
    intros _ k b Hk. by apply (cr_good _ _ _ A), (I4 ltac:(done) k).
  - apply (World_ok_failed s w); [done|]. by apply (flush_sync_any l _ w w' (I2 eq_refl) E).
  - split; simpl; try done. apply (save_sound snap h fs fs' r); try done. by apply (I8 snap h).
  - by split.
Qed.

(** ** Properties *)

(** A session starts with the pieces of an earlier one, none of which are
    missing from the file, and with a control file that is sound. *)
Record Start (pm : PieceMap) (f : FileState) (fs : Fs) : Prop := {
  st_pm : PieceMap_wf pm;
  st_total : total_size pm = sc_total_size ctx;
  st_opened : opened obj f;
  st_done : forall i b, bit pm i = true -> piece_lo (piece_size pm) i <= b < piece_hi (total_size pm) (piece_size pm) i ->
    contents f b = Some (obj b);
  st_file : FileSound fs (writer_new f [] 0 0);
}.

Definition world_start (pm : PieceMap) (f : FileState) (io : list IoOutcome) (n : Z) (wm : nat) (fs : Fs) : World :=
  mkWorld (Scheduler_new pm) (writer_new f io n wm) ledger_new Receiving (fun _ _ => False) fs None.

Lemma world_start_ok pm f io n wm fs : Start pm f fs -> World_ok (world_start pm f io n wm fs).
Proof.
  intros [P Ht Hf Hd HF]. pose proof (Scheduler_new_wf pm P) as W. split; simpl; try done.
  - intros _ b Hb Hs. destruct (byte_piece (Scheduler_new pm) b W Hb) as [Hi Hr].
    unfold status in Hs. simpl in Hs. rewrite lookup_empty in Hs.
    destruct (bit pm (piece_of (piece_size pm) b)) eqn:Eb; [|done]. by apply (Hd _ b Eb).
Qed.

Lemma world_reachable_ok pm f io n wm fs x :
  Start pm f fs -> rtc world_step (world_start pm f io n wm fs) x -> World_ok x.
Proof.
  intros HS Hr. refine (rtc_ind_r World_ok _ _ _ x Hr).
  - by apply world_start_ok.
  - intros y z _ Hs I. by apply (world_step_ok y).
Qed.

(** The checkpoint of some state of the scheduler. *)
Definition Frozen (snap : ControlSnapshot) : Prop :=
  exists s, Sched_wf s /\ total_of s = sc_total_size ctx /\ snap = (freeze s).1.1.

(** The control file is the one the session started with, or one of its own
    checkpoints. *)
Lemma control_provenance pm f io n wm fs x :
  Start pm f fs -> rtc world_step (world_start pm f io n wm fs) x ->
  (forall snap, control_holds (w_fs x) snap -> control_holds fs snap \/ Frozen snap) /\
  (forall snap h b, w_pending x = Some (snap, h, b) -> Frozen snap).
Proof.
  intros HS Hr.
  refine (proj2 (rtc_ind_r (fun x => World_ok x /\
    (forall snap, control_holds (w_fs x) snap -> control_holds fs snap \/ Frozen snap) /\
    (forall snap h b, w_pending x = Some (snap, h, b) -> Frozen snap)) _ _ _ x Hr)).
  - split; [by apply world_start_ok|]. split; [by left|done].
  - intros y z _ Hs (I & C & P). split; [by apply (world_step_ok y)|]. destruct I as [[W Ht] _ _ _ _ _ _ _].
    destruct Hs as [| | | | |s w l o a fs0 snap h s' E| | |s w l o a fs0 fs' snap h r E Hlen|]; simpl in *; try done.
    + split; [done|]. intros snap h b Hp. destruct cmd as [| | | |[]]; try by apply (P snap h b).
      destruct p as [[[sn hh] bb]|]; [|done]. simpl in Hp. injection Hp as <- <- <-. by apply (P sn hh bb).
    + split; [done|]. intros snap' h' b [= <- <- _]. exists s. split_and!; try done. by rewrite E.
    + split; [|done]. intros snap' Hc. destruct (save_control snap h fs0 fs' r snap' E Hlen Hc) as [Ho| ->]; [by apply C|].
      right. by apply (P snap h true).
Qed.

(** A download that ends well is the object.  In every interleaving of
    workers, writer and checkpoints, with any I/O failures on the way: if the
    writer task has ended without error and the scheduler reports that all is
    done, every byte of the output file is on stable storage with the value it
    has in the downloaded object. *)
Theorem finished_file_is_object pm f io n wm fs x :
  Start pm f fs -> rtc world_step (world_start pm f io n wm fs) x ->
  w_status x = ClosedOk -> all_done (w_sched x) = true ->
  forall b, 0 <= b < sc_total_size ctx -> durable (file (w_writer x)) b = Some (obj b).
Proof.
  intros HS Hr Hc Hd b Hb. destruct (world_reachable_ok _ _ _ _ _ _ _ HS Hr) as [[W Ht] _ _ I5 I6 _ _ _].
  apply (I6 Hc), I5; [by rewrite Hc|by rewrite Ht|]. apply all_done_status; [done|done|by rewrite Ht].
Qed.

(** Checkpoints are crash consistent.  At every moment of a session, also
    in the middle of a save, after a failed write or a failed sync, a control
    file that loads describes only pieces whose bytes are all on stable storage
    with the object's values: a download resumed after a crash never keeps a
    piece that is not there. *)
Theorem checkpoint_crash_consistent pm f io n wm fs x :
  Start pm f fs -> rtc world_step (world_start pm f io n wm fs) x ->
  forall g snap h i b,
    fs_files (w_fs x) !! control_path (sc_output ctx) = Some g -> parse_control (fs_data g) = Ok (snap, h) ->
    bit (ctrl_piece_map snap) i = true ->
    piece_lo (ctrl_piece_size snap) i <= b < piece_hi (ctrl_total_size snap) (ctrl_piece_size snap) i ->
    durable (file (w_writer x)) b = Some (obj b).
Proof.
  intros HS Hr g snap h i b Hg Hp. destruct (world_reachable_ok _ _ _ _ _ _ _ HS Hr) as [_ _ _ _ _ _ _ I9].
  by apply (I9 g snap h).
Qed.

(** A stop is reported as saved only when it is.  A terminal checkpoint
    that returns success has left the frozen piece map, synced, in the control
    file; one that fails has left the previous control file in place.  An
    autosave without progress since the last save writes nothing. *)
Theorem terminal_checkpoint_saved reason flush p r p' :
  persist_multi_control_snapshot reason flush p = (r, p') ->
  let path := control_path (sc_output ctx) in
  let '(snap, hints, _) := freeze (ps_sched p) in
  match r with
  | Err _ => fs_files (ps_fs p') !! path = fs_files (ps_fs p) !! path
  | Ok _ =>
      reason = Terminal ->
      (exists payload, serialize_v2 snap hints = Ok payload /\
        fs_files (ps_fs p') !! path = Some (mkFsFile (encoded VERSION payload) true)) /\
      last_saved_downloaded_bytes (ps_tracker p') = completed_bytes (piece_map (ps_sched p))
  end /\
  (reason = Autosave -> completed_bytes (piece_map (ps_sched p)) <= last_saved_downloaded_bytes (ps_tracker p) ->
    ps_fs p' = ps_fs p).
Proof.
  unfold persist_multi_control_snapshot. destruct (freeze (ps_sched p)) as [[snap hints] sched] eqn:Ef.
  assert (ctrl_downloaded_bytes snap = completed_bytes (piece_map (ps_sched p))) as Hb
    by (unfold freeze in Ef; destruct (control_hints (ps_sched p)); by injection Ef as <- _ _).
  destruct reason; simpl.
  - unfold should_save. destruct (Z.leb_spec (completed_bytes (piece_map (ps_sched p))) (last_saved_downloaded_bytes (ps_tracker p)));
      simpl; [by intros [= <- <-]|].
    destruct (negb _); [by intros [= <- <-]|]. destruct (_ <=? _); [by intros [= <- <-]|].
    destruct flush as [[|e]|]; [|intros [= <- <-]; split; [done|lia]|];
      destruct (save_sync _ _ _ _) as [[|e] fs'] eqn:E; intros [= <- <-]; simpl; (split; [|lia]); try done;
      by apply save_sync_atomic in E as [E _].
  - destruct flush as [[|e]|]; [|intros [= <- <-]; split; [done|done]|];
      destruct (save_sync _ _ _ _) as [[|e] fs'] eqn:E; intros [= <- <-]; simpl; (split; [|done]);
      apply save_sync_atomic in E as [E _]; done.
Qed.
End Persist.

(** ** A file of one piece of three bytes *)

Module Demo.
Import DemoCodec.

Definition context : SaveContext := mkSaveContext (str "http://h/f") 3 (Some (str "v1")) None (str "f") 1.

Definition object : Z -> Z := demo_object.

Definition key : LeaseKey := mkKey 0 1.

Definition s0 : SchedulerState := Scheduler_new (PieceMap_new 3 3).
Definition s1 : SchedulerState := snd (assign_to_with_split 0 1 u64_max s0).
Definition s2 : SchedulerState := snd (complete key s1).

Definition fs0 : Fs := mkFs ∅ [].
Lemma run_fst {S A} (m : StateRes S A) s a : fst (m s) = Ok a -> m s = (Ok a, snd (m s)).
Proof. destruct (m s) as [r s']. simpl. by intros ->. Qed.

Lemma start : Start context object (PieceMap_new 3 3) demo_file fs0.
Proof.
  split.
  - apply PieceMap_new_wf. unfold Geometry. lia.
  - reflexivity.
  - exact demo_opened.
  - intros i b Hi. exfalso. unfold bit, PieceMap_new in Hi. cbn [completed] in Hi.
    by rewrite default_replicate_false in Hi.
  - intros g sn h Hg. unfold fs0 in Hg. simpl in Hg. by rewrite lookup_empty in Hg.
Qed.

Lemma chunk_agrees : agrees object 0 [0; 1; 2].
Proof.
  split_and!; [lia|vm_compute; discriminate|]. intros [|[|[|i]]] v Hv; simpl in Hv; try discriminate Hv; by injection Hv as <-.
Qed.

End Demo.

Import DemoCodec.

Lemma terminal_checkpoint_saved_witness :
  let p := mkPersist (tracker_new 0) Demo.s2 Demo.fs0 in
  exists p', persist_multi_control_snapshot Demo.context Terminal None p = (Ok tt, p') /\
    last_saved_downloaded_bytes (ps_tracker p') = 3.
Proof.
  intros p. destruct (persist_multi_control_snapshot Demo.context Terminal None p) as [r p'] eqn:E.
  assert (r = Ok tt) as -> by (vm_compute in E; by injection E as <- _).
  exists p'. split; [reflexivity|].
  pose proof (terminal_checkpoint_saved Demo.context Terminal None p (Ok tt) p' E) as A.
  destruct (freeze Demo.context (ps_sched p)) as [[sn h] s']. destruct A as [A _]. destruct (A eq_refl) as [_ A'].
  rewrite A'. vm_compute. reflexivity.
Defined.
