(* ===== verification/Filename.v ===== *)
(** * File names from servers and users ([src/filename.rs])

    The name a download is stored under, from [Content-Disposition], from the
    URL or from the configured path.  Strings are lists of characters; where the
    source works on bytes it uses their UTF-8 encoding. *)

From S2P Require Import Prelude RustStr Errors.

(** ** UTF-8 *)

Definition utf8_char (c : Z) : list Z :=
  if c <? 0x80 then [c]
  else if c <? 0x800 then [0xC0 + c / 64; 0x80 + c mod 64]
  else if c <? 0x10000 then [0xE0 + c / 4096; 0x80 + c / 64 mod 64; 0x80 + c mod 64]
  else [0xF0 + c / 262144; 0x80 + c / 4096 mod 64; 0x80 + c / 64 mod 64; 0x80 + c mod 64].

(** [str::as_bytes] *)
Definition as_bytes (s : rstr) : list Z := mjoin (utf8_char <$> s).

(** [str::len] *)
Definition str_len (s : rstr) : nat := length (as_bytes s).

Definition is_cont (b : Z) : bool := (0x80 <=? b) && (b <=? 0xBF).

(** A Unicode scalar value *)
Definition is_scalar (c : Z) : bool := ((0 <=? c) && (c <=? 0xD7FF)) || ((0xE000 <=? c) && (c <=? 0x10FFFF)).

(** [String::from_utf8]: the shortest encodings of scalar values only. *)
Fixpoint from_utf8 (b : list Z) : option rstr :=
  match b with
  | [] => Some []
  | b0 :: r0 =>
      if b0 <? 0x80 then cons b0 <$> from_utf8 r0
      else
        match r0 with
        | b1 :: r1 =>
            if (0xC2 <=? b0) && (b0 <=? 0xDF) then
              if is_cont b1 then cons ((b0 - 0xC0) * 64 + (b1 - 0x80)) <$> from_utf8 r1 else None
            else
              match r1 with
              | b2 :: r2 =>
                  if (0xE0 <=? b0) && (b0 <=? 0xEF) then
                    let c := (b0 - 0xE0) * 4096 + (b1 - 0x80) * 64 + (b2 - 0x80) in
                    if is_cont b1 && is_cont b2 && (0x800 <=? c) && is_scalar c
                    then cons c <$> from_utf8 r2 else None
                  else
                    match r2 with
                    | b3 :: r3 =>
                        let c := (b0 - 0xF0) * 262144 + (b1 - 0x80) * 4096 + (b2 - 0x80) * 64 + (b3 - 0x80) in
                        if (0xF0 <=? b0) && (b0 <=? 0xF4) && is_cont b1 && is_cont b2 && is_cont b3 &&
                           (0x10000 <=? c) && is_scalar c
                        then cons c <$> from_utf8 r3 else None
                    | [] => None
                    end
              | [] => None
              end
        | [] => None
        end
  end.

(** ** Percent decoding *)

Definition hex_digit (c : Z) : option Z :=
  if (48 <=? c) && (c <=? 57) then Some (c - 48)
  else if (65 <=? c) && (c <=? 70) then Some (c - 55)
  else if (97 <=? c) && (c <=? 102) then Some (c - 87)
  else None.

(** [u8::from_str_radix(_, 16)] on two bytes: a plus sign may stand first. *)
Definition hex_byte (a b : Z) : option Z :=
  if a =? 43 then hex_digit b
  else x ← hex_digit a; y ← hex_digit b; Some (16 * x + y).

Fixpoint percent_decode_loop (bytes : list Z) : option (list Z) :=
  match bytes with
  | [] => Some []
  | c :: rest =>
      if c =? 37 then
        match rest with
        | a :: b :: rest => x ← hex_byte a b; cons x <$> percent_decode_loop rest
        | _ => None
        end
      else cons c <$> percent_decode_loop rest
  end.

Definition percent_decode_bytes (value : rstr) : option (list Z) := percent_decode_loop (as_bytes value).

Definition percent_decode (value : rstr) : option rstr := b ← percent_decode_bytes value; from_utf8 b.

(** ** Sanitizing one component *)

Definition WINDOWS_RESERVED_NAMES : list rstr := str <$>
  ["CON"; "PRN"; "AUX"; "NUL"; "COM1"; "COM2"; "COM3"; "COM4"; "COM5"; "COM6"; "COM7"; "COM8"; "COM9";
   "LPT1"; "LPT2"; "LPT3"; "LPT4"; "LPT5"; "LPT6"; "LPT7"; "LPT8"; "LPT9"]%string.

(** [char::is_control] *)
Definition is_control (c : Z) : bool := ((0 <=? c) && (c <=? 31)) || ((127 <=? c) && (c <=? 159)).

(** One of / \ : * ? < > | and the double quote. *)
Definition is_forbidden (c : Z) : bool :=
  (c =? 47) || (c =? 92) || (c =? 58) || (c =? 42) || (c =? 63) || (c =? 34) || (c =? 60) || (c =? 62) || (c =? 124).

Definition underscore : Z := 95.

Definition filter_char (c : Z) : Z := if is_forbidden c || is_control c then underscore else c.

Definition trim_to_boundary (value : rstr) (max_len : nat) : rstr := take max_len value.

Definition NAME_LIMIT : nat := 255.

Definition sanitize_filename_component (value : rstr) : rstr :=
  let filtered := filter_char <$> value in
  let trimmed := trim_end_matches (fun c => c =? 32) (trim_end_matches (fun c => c =? 46) (trim filtered)) in
  if bool_decide (trimmed = []) then []
  else
    let sanitized :=
      if existsb (eq_ignore_ascii_case trimmed) WINDOWS_RESERVED_NAMES then trimmed ++ [underscore] else trimmed in
    if (NAME_LIMIT <? str_len sanitized)%nat then
      let '(stem, extension) :=
        match rsplit_once 46 sanitized with
        | Some (stem, extension) =>
            if bool_decide (stem = []) || bool_decide (extension = []) then (sanitized, None) else (stem, Some extension)
        | None => (sanitized, None)
        end in
      match extension with
      | Some extension =>
          let keep := (NAME_LIMIT - (str_len extension + 1))%nat in
          trim_to_boundary stem keep ++ 46 :: extension
      | None => trim_to_boundary sanitized NAME_LIMIT
      end
    else sanitized.

(** ** Content-Disposition *)

(** [str::split] with a character *)
Fixpoint split (sep : Z) (s : rstr) : list rstr :=
  match s with
  | [] => [[]]
  | c :: s =>
      if c =? sep then [] :: split sep s
      else match split sep s with
           | part :: parts => (c :: part) :: parts
           | [] => [[c]]
           end
  end.

Definition trim_matches (p : Z -> bool) (s : rstr) : rstr := trim_end_matches p (trim_start_matches p s).

Definition is_quote (c : Z) : bool := c =? 34.

Definition split_rfc5987_parts (value : rstr) : option (rstr * rstr * rstr) :=
  '(charset, rest) ← split_once 39 value;
  '(language, encoded) ← split_once 39 rest;
  Some (charset, language, encoded).

Definition decode_rfc5987_value (value : rstr) : option rstr :=
  '(charset, _, encoded) ← split_rfc5987_parts value;
  bytes ← percent_decode_bytes encoded;
  if eq_ignore_ascii_case charset (str "utf-8") then from_utf8 bytes
  else if eq_ignore_ascii_case charset (str "iso-8859-1") || eq_ignore_ascii_case charset (str "latin1") then Some bytes
  else None.

Definition non_empty (s : rstr) : option rstr := if bool_decide (s = []) then None else Some s.

(** The first part that yields a name. *)
Fixpoint first_name (f : rstr -> option rstr) (parts : list rstr) : option rstr :=
  match parts with
  | [] => None
  | part :: parts => match f part with Some name => Some name | None => first_name f parts end
  end.

Definition parse_content_disposition (header_value : rstr) : option rstr :=
  let parts := trim <$> split 59 header_value in
  let extended part :=
    value ← strip_prefix (str "filename*=") part;
    decoded ← decode_rfc5987_value (trim_matches is_quote value);
    non_empty (sanitize_filename_component decoded) in
  let plain part :=
    value ← strip_prefix (str "filename=") part;
    non_empty (sanitize_filename_component (trim_matches is_quote value)) in
  match first_name extended parts with
  | Some name => Some name
  | None => first_name plain parts
  end.

Section Url.
  (** [Url::parse] and [path_segments] of the [url] crate. *)
  Context (path_segments : rstr -> option (list rstr)).

Definition filename_from_url (url : rstr) : option rstr :=
  segments ← path_segments url;
  segment ← last (filter (fun s => s <> []) segments);
  decoded ← percent_decode segment;
  non_empty (sanitize_filename_component decoded).

Definition detect_filename (content_disposition : option rstr) (url : rstr) : rstr :=
  default (str "download")
    (match content_disposition ≫= parse_content_disposition with
     | Some name => Some name
     | None => filename_from_url url
     end ≫= non_empty).
End Url.

(** ** Relative paths *)

Inductive Component :=
| Normal (value : rstr)
| CurDir
| ParentDir
| RootDir.

(** [Path::components] on Unix: repeated separators and inner [.] vanish. *)
Fixpoint components_of (first : bool) (parts : list rstr) : list Component :=
  match parts with
  | [] => []
  | part :: parts =>
      let rest := components_of false parts in
      if bool_decide (part = []) then rest
      else if bool_decide (part = [46]) then if first then CurDir :: rest else rest
      else if bool_decide (part = [46; 46]) then ParentDir :: rest
      else Normal part :: rest
  end.

Definition components (path : rstr) : list Component :=
  match path with
  | 47 :: _ => RootDir :: components_of false (split 47 path)
  | _ => components_of true (split 47 path)
  end.

(** The components pushed onto the result; [None]: the path is refused. *)
Fixpoint sanitize_components (l : list Component) : option (list rstr) :=
  match l with
  | [] => Some []
  | Normal value :: l =>
      let part := sanitize_filename_component value in
      rest ← sanitize_components l;
      Some (if bool_decide (part = []) then rest else part :: rest)
  | CurDir :: l => sanitize_components l
  | (ParentDir | RootDir) :: _ => None
  end.

Definition sanitize_relative_path (path : rstr) : option (list rstr) :=
  parts ← sanitize_components (components path);
  if bool_decide (parts = []) then None else Some parts.

(** ** Properties *)

Definition safe_char (c : Z) : Prop := is_forbidden c = false /\ is_control c = false.

Lemma filter_char_safe c : safe_char (filter_char c).
Proof.
  unfold filter_char, safe_char. destruct (is_forbidden c) eqn:F; [done|]. destruct (is_control c) eqn:C; done.
Qed.

Lemma trim_start_elem p s c : c ∈ trim_start_matches p s -> c ∈ s.
Proof. induction s as [|x s IH]; simpl; [done|]. destruct (p x); [|done]. intros H%IH. by right. Qed.

Lemma trim_end_elem p s c : c ∈ trim_end_matches p s -> c ∈ s.
Proof.
  unfold trim_end_matches. rewrite elem_of_reverse. intros H%trim_start_elem. by rewrite elem_of_reverse in H.
Qed.

Lemma split_once_elem sep s a b c : split_once sep s = Some (a, b) -> c ∈ a \/ c ∈ b -> c ∈ s.
Proof.
  revert a b. induction s as [|x s IH]; intros a b E; simpl in E; [done|]. destruct (x =? sep).
  - injection E as <- <-. intros [H|H]; [by apply not_elem_of_nil in H|by right].
  - destruct (split_once sep s) as [[a' b']|]; [|done]. injection E as <- <-.
    rewrite !elem_of_cons. intros [[->|H]|H]; [by left|right..]; apply (IH a' b' eq_refl); auto.
Qed.

Lemma rsplit_once_elem sep s a b c : rsplit_once sep s = Some (a, b) -> c ∈ a \/ c ∈ b -> c ∈ s.
Proof.
  unfold rsplit_once. destruct (split_once sep (reverse s)) as [[x y]|] eqn:E; [|done]. intros [= <- <-].
  rewrite !elem_of_reverse. intros H. apply elem_of_reverse. apply (split_once_elem _ _ _ _ c E). tauto.
Qed.

Lemma sanitize_safe value c : c ∈ sanitize_filename_component value -> safe_char c.
Proof.
  unfold sanitize_filename_component.
  set (trimmed := trim_end_matches _ (trim_end_matches _ (trim _))).
  assert (forall c, c ∈ trimmed -> safe_char c) as Ht.
  { intros x Hx. subst trimmed. apply trim_end_elem, trim_end_elem in Hx. unfold trim in Hx.
    apply trim_end_elem, trim_start_elem in Hx. apply list_elem_of_fmap in Hx as (y & -> & _). apply filter_char_safe. }
  case_bool_decide; [by intros ?%not_elem_of_nil|].
  set (sanitized := if existsb _ _ then _ else _).
  assert (forall c, c ∈ sanitized -> safe_char c) as Hs.
  { intros x. subst sanitized. destruct (existsb _ _); [|apply Ht].
    rewrite elem_of_app, list_elem_of_singleton. intros [Hx| ->]; [by apply Ht|done]. }
  clearbody sanitized trimmed. destruct (_ <? _)%nat; [|apply Hs].
  assert (forall n s, (forall x, x ∈ s -> safe_char x) -> forall x, x ∈ trim_to_boundary s n -> safe_char x) as Hb.
  { intros n s H' x Hx. apply H'. rewrite <- (take_drop n s). apply elem_of_app. by left. }
  destruct (rsplit_once 46 sanitized) as [[stem ext]|] eqn:E; [|by apply Hb].
  destruct (_ || _); [by apply Hb|]. rewrite elem_of_app, elem_of_cons. intros [Hc|[->|Hc]]; [|done|].
  - apply (Hb _ _ (fun x Hx => Hs x (rsplit_once_elem _ _ _ _ x E (or_introl Hx))) _ Hc).
  - apply Hs, (rsplit_once_elem _ _ _ _ _ E). by right.
Qed.

Definition safe_name (name : rstr) : Prop := name <> [] /\ forall c, c ∈ name -> safe_char c.

Lemma non_empty_sanitized value name :
  non_empty (sanitize_filename_component value) = Some name -> safe_name name.
Proof.
  unfold non_empty. case_bool_decide; [done|]. intros [= <-]. split; [done|]. apply sanitize_safe.
Qed.

Lemma first_name_Some f parts name : first_name f parts = Some name -> exists part, f part = Some name.
Proof. induction parts as [|p parts IH]; simpl; [done|]. destruct (f p) eqn:E; [intros [= <-]; by eexists|done]. Qed.

Lemma content_disposition_safe header name : parse_content_disposition header = Some name -> safe_name name.
Proof.
  unfold parse_content_disposition. destruct (first_name _ _) as [n|] eqn:E.
  - intros [= <-]. apply first_name_Some in E as (part & E). apply bind_Some in E as (v & _ & E).
    apply bind_Some in E as (d & _ & E). by apply non_empty_sanitized in E.
  - clear E. intros (part & E)%first_name_Some. apply bind_Some in E as (v & _ & E). by apply non_empty_sanitized in E.
Qed.

(** The name a server can make the client use is one plain component.
    Whatever [Content-Disposition] header and URL it sends (the URL parser may
    return any segments), the detected name is not empty and contains no path
    separator, no control character and none of the characters Windows forbids. *)
Theorem detected_name_is_component (path_segments : rstr -> option (list rstr)) header url :
  safe_name (detect_filename path_segments header url).
Proof.
  unfold detect_filename. assert (safe_name (str "download")) as Hd.
  { split; [done|]. intros c Hc. repeat (apply elem_of_cons in Hc as [->|Hc]; [done|]). by apply not_elem_of_nil in Hc. }
  destruct (header ≫= parse_content_disposition) as [name|] eqn:E; simpl.
  - apply bind_Some in E as (h & _ & Hs%content_disposition_safe). unfold non_empty.
    case_bool_decide; [by destruct Hs|done].
  - destruct (filename_from_url path_segments url) as [name|] eqn:E'; [|done]. simpl.
    unfold filename_from_url in E'. apply bind_Some in E' as (l & _ & E'). apply bind_Some in E' as (g & _ & E').
    apply bind_Some in E' as (d & _ & Hs%non_empty_sanitized). unfold non_empty. case_bool_decide; [by destruct Hs|done].
Qed.

(** Trailing dots and blanks are trimmed only once.  A name that ends in
    dots, a blank and a dot leaves the parent directory [..] as file name, from
    a [Content-Disposition] header as well as in a configured relative path. *)
Theorem parent_component_survives (path_segments : rstr -> option (list rstr)) url :
  detect_filename path_segments (Some (str "attachment; filename=.. .")) url = str ".." /\
  sanitize_relative_path (str "a/.. ./b") = Some [str "a"; str ".."; str "b"].
Proof. split; vm_compute; reflexivity. Qed.

(** The 255-byte limit counts characters when it cuts.  A name of 200
    two-byte characters is over the limit and is returned with 400 bytes. *)
Theorem long_name_not_cut :
  let name := replicate 200 233 in
  (str_len name > NAME_LIMIT)%nat /\ sanitize_filename_component name = name.
Proof. split; [vm_compute; lia|vm_compute; reflexivity]. Qed.

(** ** Round trips *)

(** Linear arithmetic with divisions by constants. *)
Ltac div_lia := Z.div_mod_to_equations; lia.

Lemma from_utf8_char c rest :
  is_scalar c = true -> from_utf8 (utf8_char c ++ rest) = cons c <$> from_utf8 rest.
Proof.
  unfold is_scalar, utf8_char. rewrite orb_true_iff, !andb_true_iff, !Z.leb_le. intros Hc.
  destruct (Z.ltb_spec c 0x80); [simpl; by rewrite (proj2 (Z.ltb_lt _ _)) by lia|].
  pose proof (Z.div_mod c 64 ltac:(lia)). pose proof (Z.mod_pos_bound c 64 ltac:(lia)).
  destruct (Z.ltb_spec c 0x800).
  { assert (2 <= c / 64 < 32) by lia. cbn [app from_utf8]. rewrite (proj2 (Z.ltb_ge _ _)) by lia.
    unfold is_cont. rewrite !(proj2 (Z.leb_le _ _)) by lia. simpl. do 2 f_equal. lia. }
  pose proof (Z.div_mod (c / 64) 64 ltac:(lia)) as E1. pose proof (Z.mod_pos_bound (c / 64) 64 ltac:(lia)).
  rewrite Z.div_div in E1 by lia. change (64 * 64) with 4096 in E1.
  destruct (Z.ltb_spec c 0x10000).
  { assert (0 <= c / 4096 < 16) by lia. cbn [app from_utf8]. rewrite (proj2 (Z.ltb_ge _ _)) by lia.
    rewrite (proj2 (Z.leb_le 0xC2 _)), (proj2 (Z.leb_gt _ 0xDF)) by lia. cbn [andb].
    rewrite (proj2 (Z.leb_le 0xE0 _)), (proj2 (Z.leb_le _ 0xEF)) by lia. cbn [andb].
    replace ((0xE0 + c / 4096 - 0xE0) * 4096 + (0x80 + c / 64 mod 64 - 0x80) * 64 + (0x80 + c mod 64 - 0x80)) with c by lia.
    unfold is_cont, is_scalar. rewrite !(proj2 (Z.leb_le 0x80 _)), !(proj2 (Z.leb_le _ 0xBF)), (proj2 (Z.leb_le 0x800 _)) by lia.
    cbn [andb]. assert (((0 <=? c) && (c <=? 0xD7FF)) || ((0xE000 <=? c) && (c <=? 0x10FFFF)) = true) as ->; [|done].
    rewrite orb_true_iff, !andb_true_iff, !Z.leb_le. done. }
  pose proof (Z.div_mod (c / 4096) 64 ltac:(lia)) as E2. pose proof (Z.mod_pos_bound (c / 4096) 64 ltac:(lia)).
  rewrite Z.div_div in E2 by lia. change (4096 * 64) with 262144 in E2.
  assert (0 <= c / 262144 <= 4) by lia. cbn [app from_utf8]. rewrite (proj2 (Z.ltb_ge _ _)) by lia.
  rewrite (proj2 (Z.leb_le 0xC2 _)), (proj2 (Z.leb_gt _ 0xDF)) by lia. cbn [andb].
  rewrite (proj2 (Z.leb_le 0xE0 _)), (proj2 (Z.leb_gt _ 0xEF)) by lia. cbn [andb].
  replace ((0xF0 + c / 262144 - 0xF0) * 262144 + (0x80 + c / 4096 mod 64 - 0x80) * 4096 +
    (0x80 + c / 64 mod 64 - 0x80) * 64 + (0x80 + c mod 64 - 0x80)) with c by lia.
  unfold is_cont, is_scalar. rewrite (proj2 (Z.leb_le 0xF0 _)), (proj2 (Z.leb_le _ 0xF4)), !(proj2 (Z.leb_le 0x80 _)),
    !(proj2 (Z.leb_le _ 0xBF)), (proj2 (Z.leb_le 0x10000 _)) by lia.
  cbn [andb]. assert (((0 <=? c) && (c <=? 0xD7FF)) || ((0xE000 <=? c) && (c <=? 0x10FFFF)) = true) as ->; [|done].
  rewrite orb_true_iff, !andb_true_iff, !Z.leb_le. done.
Qed.

Lemma from_utf8_as_bytes s : Forall (fun c => is_scalar c = true) s -> from_utf8 (as_bytes s) = Some s.
Proof.
  intros HF. induction HF as [|c s Hc _ IH]; [done|]. unfold as_bytes in *. cbn [fmap list_fmap].
  change (mjoin (?x :: ?l)) with (x ++ mjoin l). rewrite from_utf8_char by done. by rewrite IH.
Qed.

(** A byte as a percent escape with upper-case digits. *)
Definition hex_char (d : Z) : Z := if d <? 10 then 48 + d else 55 + d.

Definition percent_byte (b : Z) : rstr := [37; hex_char (b / 16); hex_char (b mod 16)].

Definition percent_encode (s : rstr) : rstr := mjoin (percent_byte <$> as_bytes s).

Lemma hex_digit_char d : 0 <= d < 16 -> hex_digit (hex_char d) = Some d /\ 48 <= hex_char d < 0x80.
Proof.
  intros Hd. unfold hex_digit, hex_char. destruct (Z.ltb_spec d 10).
  - rewrite !(proj2 (Z.leb_le _ _)) by lia. cbn [andb]. split; [f_equal|]; lia.
  - rewrite (proj2 (Z.leb_le 48 _)), (proj2 (Z.leb_gt _ 57)) by lia. cbn [andb].
    rewrite !(proj2 (Z.leb_le _ _)) by lia. cbn [andb]. split; [f_equal|]; lia.
Qed.

Lemma ascii_bytes s : Forall (fun c => c < 0x80) s -> as_bytes s = s.
Proof.
  intros HF. induction HF as [|c s Hc _ IH]; [done|]. unfold as_bytes in *. cbn [fmap list_fmap].
  change (mjoin (?x :: ?l)) with (x ++ mjoin l). rewrite IH. unfold utf8_char. by rewrite (proj2 (Z.ltb_lt _ _)).
Qed.

Lemma percent_byte_ascii bytes :
  Forall (fun b => 0 <= b < 256) bytes -> Forall (fun c => c < 0x80) (mjoin (percent_byte <$> bytes)).
Proof.
  intros HF. induction HF as [|b bytes Hb _ IH]; [constructor|]. cbn [fmap list_fmap].
  change (mjoin (?x :: ?l)) with (x ++ mjoin l). apply Forall_app. split; [|done]. unfold percent_byte.
  assert (0 <= b / 16 < 16) as H1 by div_lia. pose proof (Z.mod_pos_bound b 16 ltac:(lia)) as H2.
  constructor; [lia|]. constructor; [apply (hex_digit_char _ H1)|]. constructor; [apply (hex_digit_char _ H2)|constructor].
Qed.

Lemma percent_loop_encode bytes :
  Forall (fun b => 0 <= b < 256) bytes -> percent_decode_loop (mjoin (percent_byte <$> bytes)) = Some bytes.
Proof.
  intros HF. induction HF as [|b bytes Hb _ IH]; [done|]. cbn [fmap list_fmap].
  change (mjoin (percent_byte b :: ?l)) with (37 :: hex_char (b / 16) :: hex_char (b mod 16) :: mjoin l).
  cbn [percent_decode_loop].
  change (37 =? 37) with true. cbv iota. rewrite IH. unfold hex_byte.
  assert (0 <= b / 16 < 16) as H1 by div_lia. pose proof (Z.mod_pos_bound b 16 ltac:(lia)) as H2.
  destruct (hex_digit_char _ H1) as [E1 R1], (hex_digit_char _ H2) as [E2 R2].
  rewrite (proj2 (Z.eqb_neq _ 43)) by lia. rewrite E1, E2. simpl. do 2 f_equal.
  pose proof (Z.div_mod b 16 ltac:(lia)). lia.
Qed.

Lemma utf8_char_bytes c : is_scalar c = true -> Forall (fun b => 0 <= b < 256) (utf8_char c).
Proof.
  unfold is_scalar, utf8_char. rewrite orb_true_iff, !andb_true_iff, !Z.leb_le. intros Hc.
  destruct (Z.ltb_spec c 0x80); [repeat (constructor; [div_lia|]); constructor|]. destruct (Z.ltb_spec c 0x800); [repeat (constructor; [div_lia|]); constructor|].
  destruct (Z.ltb_spec c 0x10000); repeat (constructor; [div_lia|]); constructor.
Qed.

(** Names survive the URL.  A name of any Unicode scalar values, written as
    percent escapes of its UTF-8 bytes, is decoded to the same name. *)
Theorem percent_roundtrip s :
  Forall (fun c => is_scalar c = true) s -> percent_decode (percent_encode s) = Some s.
Proof.
  intros HF. assert (Forall (fun b => 0 <= b < 256) (as_bytes s)) as HB.
  { unfold as_bytes. induction HF as [|c s Hc _ IH]; [constructor|]. cbn [fmap list_fmap].
    change (mjoin (?x :: ?l)) with (x ++ mjoin l). apply Forall_app. split; [by apply utf8_char_bytes|done]. }
  unfold percent_decode, percent_decode_bytes, percent_encode.
  rewrite ascii_bytes by (by apply percent_byte_ascii). rewrite percent_loop_encode by done.
  simpl. by apply from_utf8_as_bytes.
Qed.

Lemma percent_roundtrip_witness :
  percent_encode [233; 32; 8364] = str "%C3%A9%20%E2%82%AC" /\
  percent_decode (percent_encode [233; 32; 8364]) = Some [233; 32; 8364].
Proof.
  split; [vm_compute; reflexivity|]. apply (percent_roundtrip [233; 32; 8364]). repeat constructor.
Defined.
