(* ===== verification/Checksum.v ===== *)
(** * Checksum verification ([src/checksum.rs], [Checksum] of [src/config.rs])

    The file is read in pieces of at most 64 KiB and hashed as it comes.  The
    hash functions of the [sha2], [sha1] and [md5] crates are the class [Hashes];
    how much each read returns, the failures and the stop requests are inputs. *)

From S2P Require Import Prelude RustStr Errors.

Inductive Checksum :=
| Sha256 (expected_hex : rstr)
| Sha1 (expected_hex : rstr)
| Md5 (expected_hex : rstr)
| Sha512 (expected_hex : rstr).

(** The hash functions [verify_checksum] chooses from. *)
Inductive Algorithm := AlgSha256 | AlgSha512 | AlgSha1 | AlgMd5.

(** [digest::Digest]: hashing in pieces is hashing the concatenation, and a
    digest is a sequence of bytes. *)
Class Hashes := {
  Hasher : Type;
  hasher_default : Algorithm -> Hasher;
  hasher_update : Hasher -> list Z -> Hasher;
  hasher_finalize : Hasher -> list Z;
  hasher_update_nil : forall h, hasher_update h [] = h;
  hasher_update_app : forall h a b, hasher_update (hasher_update h a) b = hasher_update h (a ++ b);
  hasher_finalize_bytes : forall h, Forall (fun b => 0 <= b < 256) (hasher_finalize h);
}.

(** A digit of [format!("{b:02x}")]. *)
Definition hex_lower (d : Z) : Z := if d <? 10 then 48 + d else 87 + d.

Definition hex_encode (bytes : list Z) : rstr :=
  mjoin ((fun b => [hex_lower (b / 16); hex_lower (b mod 16)]) <$> bytes).

(** The buffer holds 64 KiB; a read of a file that is not at its end returns at
    least one byte. *)
Definition read_len (n : nat) : nat := Z.to_nat (Z.min (Z.of_nat (S n)) (64 * 1024)).

Section Verify.
  Context `{Hashes}.
  (** The [i]th poll of [stop] and the [i]th [read]. *)
  Context (stop : nat -> option DownloadError) (reads : nat -> result nat IoErrorKind).

(** The loop of [hash_and_compare]: [rest] is what the file has left. *)
Fixpoint hash_loop (fuel : nat) (i : nat) (hasher : Hasher) (rest : list Z)
    : option (result Hasher DownloadError) :=
  match fuel with
  | O => None
  | S fuel =>
      match stop i with
      | Some error => Some (Err error)
      | None =>
          match reads i with
          | Err kind => Some (Err (Io kind))
          | Ok n =>
              if bool_decide (rest = []) then Some (Ok hasher)
              else hash_loop fuel (S i) (hasher_update hasher (take (read_len n) rest)) (drop (read_len n) rest)
          end
      end
  end.

Definition hash_and_compare (alg : Algorithm) (file : list Z) (expected_hex : rstr)
    : option (result unit DownloadError) :=
  match hash_loop (S (length file)) 0 (hasher_default alg) file with
  | None => None
  | Some (Err e) => Some (Err e)
  | Some (Ok hasher) =>
      let actual_hex := hex_encode (hasher_finalize hasher) in
      Some (if negb (bool_decide (actual_hex = to_ascii_lowercase <$> expected_hex))
            then Err (ChecksumMismatch expected_hex actual_hex)
            else Ok tt)
  end.

(** [opened]: the contents of the file, or why it could not be opened. *)
Definition verify_checksum (opened : result (list Z) IoErrorKind) (expected : Checksum)
    : option (result unit DownloadError) :=
  match opened with
  | Err kind => Some (Err (Io kind))
  | Ok file =>
      match expected with
      | Sha256 expected_hex => hash_and_compare AlgSha256 file expected_hex
      | Sha512 expected_hex => hash_and_compare AlgSha512 file expected_hex
      | Sha1 expected_hex => hash_and_compare AlgSha1 file expected_hex
      | Md5 expected_hex => hash_and_compare AlgMd5 file expected_hex
      end
  end.
End Verify.

(** ** Properties *)

Definition digest `{Hashes} (alg : Algorithm) (file : list Z) : list Z :=
  hasher_finalize (hasher_update (hasher_default alg) file).

Definition algorithm_of (c : Checksum) : Algorithm :=
  match c with Sha256 _ => AlgSha256 | Sha1 _ => AlgSha1 | Md5 _ => AlgMd5 | Sha512 _ => AlgSha512 end.

Definition hex_of (c : Checksum) : rstr := match c with Sha256 h | Sha1 h | Md5 h | Sha512 h => h end.

(** The value of a hexadecimal digit in either case. *)
Definition hex_value (c : Z) : option Z :=
  if is_ascii_digit c then Some (c - 48)
  else if (97 <=? c) && (c <=? 102) then Some (c - 87)
  else if (65 <=? c) && (c <=? 70) then Some (c - 55)
  else None.

(** The bytes a hexadecimal string of either case stands for. *)
Fixpoint hex_decode (s : rstr) : option (list Z) :=
  match s with
  | [] => Some []
  | a :: b :: s => x ← hex_value a; y ← hex_value b; rest ← hex_decode s; Some (x * 16 + y :: rest)
  | [_] => None
  end.

Lemma hex_digit_iff d c :
  0 <= d < 16 -> hex_lower d = to_ascii_lowercase c <-> hex_value c = Some d.
Proof.
  intros Hd. unfold hex_lower, to_ascii_lowercase, hex_value, is_ascii_digit.
  destruct (Z.ltb_spec d 10), (Z.leb_spec 65 c), (Z.leb_spec c 90), (Z.leb_spec 48 c), (Z.leb_spec c 57),
    (Z.leb_spec 97 c), (Z.leb_spec c 102), (Z.leb_spec c 70); simpl;
    split; intros E; try discriminate; try (injection E as <-); try lia; try (f_equal; lia).
Qed.

Lemma hex_value_range c d : hex_value c = Some d -> 0 <= d < 16.
Proof.
  unfold hex_value, is_ascii_digit. destruct ((48 <=? c) && (c <=? 57)) eqn:E1; [intros [= <-]; lia|].
  destruct ((97 <=? c) && (c <=? 102)) eqn:E2; [intros [= <-]; lia|].
  destruct ((65 <=? c) && (c <=? 70)) eqn:E3; [intros [= <-]; lia|done].
Qed.

(** Comparing with the lowercase form is comparing the bytes. *)
Lemma hex_encode_iff bytes s :
  Forall (fun b => 0 <= b < 256) bytes ->
  hex_encode bytes = to_ascii_lowercase <$> s <-> hex_decode s = Some bytes.
Proof.
  intros HB. revert s. induction HB as [|x bytes Hx _ IH]; intros s.
  { destruct s as [|a [|b s]]; simpl; [done..|]. split; [done|]. intros E.
    apply bind_Some in E as (? & _ & E). apply bind_Some in E as (? & _ & E). by apply bind_Some in E as (? & _ & E). }
  assert (0 <= x / 16 < 16) as H1 by (split; [apply Z.div_pos|apply Z.div_lt_upper_bound]; lia).
  pose proof (Z.mod_pos_bound x 16 ltac:(lia)) as H2. pose proof (Z.div_mod x 16 ltac:(lia)) as H3.
  change (hex_encode (x :: bytes)) with (hex_lower (x / 16) :: hex_lower (x mod 16) :: hex_encode bytes).
  destruct s as [|a [|b s]]; [done..|]. cbn [fmap list_fmap hex_decode].
  split.
  - intros [= Ea Eb Es]. apply hex_digit_iff in Ea; [|done]. apply hex_digit_iff in Eb; [|done]. apply IH in Es.
    rewrite Ea, Eb, Es. simpl. do 2 f_equal. lia.
  - intros E. apply bind_Some in E as (y & Ea & E). apply bind_Some in E as (z & Eb & E).
    apply bind_Some in E as (rest & Es & E). injection E as E1 <-.
    apply hex_value_range in Ea as Ra. apply hex_value_range in Eb as Rb.
    assert (x / 16 = y) as -> by (symmetry; apply (Z.div_unique x 16 y z); lia).
    assert (x mod 16 = z) as -> by (symmetry; apply (Z.mod_unique x 16 y z); lia).
    apply hex_digit_iff in Ea; [|done]. apply hex_digit_iff in Eb; [|done]. apply IH in Es. by rewrite Ea, Eb, Es.
Qed.

Section VerifyProps.
  Context `{Hashes} (stop : nat -> option DownloadError) (reads : nat -> result nat IoErrorKind).

(** No stop request and no read failure among the first [n] iterations. *)
Definition undisturbed (n : nat) : Prop := forall j, (j < n)%nat -> stop j = None /\ exists k, reads j = Ok k.

(** [e] is a stop request or a read failure the loop met. *)
Definition interrupted (e : DownloadError) : Prop :=
  exists j, stop j = Some e \/ exists kind, reads j = Err kind /\ e = Io kind.

Lemma read_len_pos n : (1 <= read_len n)%nat.
Proof. unfold read_len. lia. Qed.

Lemma hash_loop_spec fuel i h rest :
  (length rest < fuel)%nat ->
  exists r, hash_loop stop reads fuel i h rest = Some r /\
    match r with Ok h' => h' = hasher_update h rest | Err e => interrupted e end /\
    (undisturbed (S (i + length rest)) -> r = Ok (hasher_update h rest)).
Proof.
  revert i h rest. induction fuel as [|fuel IH]; intros i h rest Hf; [lia|]. simpl.
  destruct (stop i) as [e|] eqn:Es.
  { exists (Err e). split_and!; [done|by exists i; left|]. intros U. destruct (U i) as [U1 _]; [lia|congruence]. }
  destruct (reads i) as [n|kind] eqn:Er.
  2: { exists (Err (Io kind)). split_and!; [done|exists i; right; by exists kind|].
       intros U. destruct (U i) as [_ [k U1]]; [lia|congruence]. }
  case_bool_decide as Hr.
  { subst rest. exists (Ok h). by rewrite hasher_update_nil. }
  pose proof (read_len_pos n) as Hn. assert (0 < length rest)%nat as Hl by (destruct rest; [done|simpl; lia]).
  destruct (IH (S i) (hasher_update h (take (read_len n) rest)) (drop (read_len n) rest)) as (r & E & Hok & HU).
  { rewrite length_drop. lia. }
  rewrite hasher_update_app, take_drop in Hok, HU. exists r. split_and!; [done|done|].
  intros U. apply HU. intros j Hj. apply U. rewrite length_drop in Hj. lia.
Qed.

Lemma hash_and_compare_spec alg file hex :
  exists r, hash_and_compare stop reads alg file hex = Some r /\
    (r = Ok tt -> hex_decode hex = Some (digest alg file)) /\
    (forall e, r = Err e -> interrupted e \/
       (e = ChecksumMismatch hex (hex_encode (digest alg file)) /\ hex_decode hex <> Some (digest alg file))) /\
    (undisturbed (S (length file)) -> hex_decode hex = Some (digest alg file) -> r = Ok tt).
Proof.
  unfold hash_and_compare.
  destruct (hash_loop_spec (S (length file)) 0 (hasher_default alg) file) as (r & -> & Hr & HU); [lia|].
  pose proof (hex_encode_iff (digest alg file) hex (hasher_finalize_bytes _)) as Hx.
  destruct r as [h|e].
  - subst h. fold (digest alg file). eexists. split; [done|].
    case_bool_decide as Hd; cbn [negb]; split_and!; try done.
    + intros _. by apply Hx.
    + intros e [= <-]. right. split; [done|]. by intros D%Hx.
    + by intros _ D%Hx.
  - exists (Err e). split_and!; [done|done| |].
    + intros e' [= <-]. by left.
    + intros U. by specialize (HU U).
Qed.

(** Verification always ends and accepts exactly the configured digest.
    Success means that the file's digest, under the configured algorithm, is
    the one the hexadecimal string stands for, in either case; without a stop
    request or read failure that digest is also accepted; an error is a
    failure to open, a stop request, a read failure, or the mismatch. *)
Theorem checksum_accepts_iff file expected :
  exists r, verify_checksum stop reads (Ok file) expected = Some r /\
    (r = Ok tt -> hex_decode (hex_of expected) = Some (digest (algorithm_of expected) file)) /\
    (forall e, r = Err e -> interrupted e \/
       (e = ChecksumMismatch (hex_of expected) (hex_encode (digest (algorithm_of expected) file)) /\
        hex_decode (hex_of expected) <> Some (digest (algorithm_of expected) file))) /\
    (undisturbed (S (length file)) ->
     hex_decode (hex_of expected) = Some (digest (algorithm_of expected) file) -> r = Ok tt).
Proof. destruct expected; apply hash_and_compare_spec. Qed.
End VerifyProps.

(** ** An instance: the sum of the bytes *)

Module DemoHash.

#[export, refine] Instance sum_hash : Hashes := {|
  Hasher := Z;
  hasher_default := fun _ => 0;
  hasher_update := fun h data => h + foldr Z.add 0 data;
  hasher_finalize := fun h => [h mod 256];
|}.
Proof.
  - intros h. simpl. lia.
  - intros h a b. assert (foldr Z.add 0 (a ++ b) = foldr Z.add 0 a + foldr Z.add 0 b) as ->; [|lia].
    induction a; simpl; lia.
  - intros h. repeat constructor; apply Z.mod_pos_bound; lia.
Defined.
End DemoHash.

Lemma checksum_accepts_iff_witness :
  verify_checksum (H := DemoHash.sum_hash) (fun _ => None) (fun _ => Ok 1%nat) (Ok [100; 100; 50; 1; 3]) (Sha256 (str "Fe"))
    = Some (Ok tt) /\
  digest (H := DemoHash.sum_hash) AlgSha256 [100; 100; 50; 1; 3] = [254] /\ hex_decode (str "Fe") = Some [254].
Proof.
  destruct (checksum_accepts_iff (H := DemoHash.sum_hash) (fun _ => None) (fun _ => Ok 1%nat) [100; 100; 50; 1; 3]
    (Sha256 (str "Fe"))) as (r & -> & _ & _ & HU).
  split_and!; [|by vm_compute|by vm_compute]. rewrite HU; [done| |by vm_compute].
  intros j _. split; [done|by exists 1%nat].
Defined.
