(* ===== verification/OutputFile.v ===== *)
(** * The output file ([src/storage/file.rs])

    Creating and preallocating the output file, on Linux: [fallocate] first, and
    zeros written in chunks of 256 KiB when it fails.  The outcome of each
    system call is an input. *)

From S2P Require Import Prelude Errors Cache Writer Resume.

(** The file and the outcomes of the calls to come; an exhausted list means
    success. *)
Record Disk := mkDisk {
  disk_file : FileState;
  disk_io : list IoOutcome;
}.

Definition DiskM (A : Type) : Type := StateRes Disk A.

(** One system call: its effect on the file, also of the part that was done
    before a failure. *)
Definition disk_call (good : FileState -> FileState) (partial : nat -> FileState -> FileState) : DiskM unit :=
  fun d => match default IoOk (head (disk_io d)) with
           | IoOk => (Ok tt, mkDisk (good (disk_file d)) (tail (disk_io d)))
           | IoFail n kind => (Err (Io kind), mkDisk (partial n (disk_file d)) (tail (disk_io d)))
           end.

Definition nothing (_ : nat) (f : FileState) : FileState := f.

(** [File::create] truncates; nothing is known of what a crash would leave. *)
Definition empty_file : FileState := mkFile (fun _ => None) (fun _ => None) 0.

(** [n] zeros written at the cursor *)
Definition put_zeros (n : Z) (f : FileState) : FileState :=
  mkFile (fun b => if (cursor f <=? b) && (b <? cursor f + n) then Some 0 else contents f b)
         (durable f) (cursor f + n).

(** [fallocate(fd, 0, 0, size)]: what the file does not have below [size] reads
    as zeros. *)
Definition allocate (size : Z) (f : FileState) : FileState :=
  mkFile (fun b => match contents f b with
                   | Some x => Some x
                   | None => if (0 <=? b) && (b <? size) then Some 0 else None
                   end) (durable f) (cursor f).

Definition synced (f : FileState) : FileState := mkFile (contents f) (contents f) (cursor f).

Definition rewound (f : FileState) : FileState := mkFile (contents f) (durable f) 0.

Definition CHUNK : Z := 256 * 1024.

(** The loop of [preallocate_zeros]; a failing write may have written a part. *)
Fixpoint zero_loop (fuel : nat) (remaining : Z) : DiskM unit :=
  if 0 <? remaining then
    match fuel with
    | O => err (Internal [])
    | S fuel =>
        let n := Z.min remaining CHUNK in
        disk_call (put_zeros n) (fun k => put_zeros (Z.min (Z.of_nat k) n)) ;!
        zero_loop fuel (remaining - n)
    end
  else ok tt.

(** [try_clone], the writes, [flush], [try_clone], [sync_all], [seek]. *)
Definition preallocate_zeros (size : Z) : DiskM unit :=
  disk_call id nothing ;!
  zero_loop (Z.to_nat (size / CHUNK + 1)) size ;!
  disk_call id nothing ;!
  disk_call id nothing ;!
  disk_call synced nothing ;!
  disk_call rewound nothing.

(** [size as libc::off_t] *)
Definition off_t (size : Z) : Z := if size <? 2 ^ 63 then size else size - 2 ^ 64.

(** [fallocate] refuses a length that is not positive. *)
Definition fallocate (size : Z) : DiskM unit :=
  if off_t size <=? 0 then err (Io (IoOther 22)) else disk_call (allocate size) nothing.

Definition preallocate_sync (size : Z) : DiskM unit := fun d =>
  match fallocate size d with
  | (Ok _, d') => (Ok tt, d')
  | (Err _, d') => preallocate_zeros size d'
  end.

Definition open_existing_file : DiskM unit := disk_call rewound nothing.

(** [has_parent]: [path.parent()] is there, and is created first. *)
Definition create_output_file (has_parent : bool) (total_size : option Z) (allocation : FileAllocation) : DiskM unit :=
  (if has_parent then disk_call id nothing else ok tt) ;!
  disk_call (fun _ => empty_file) nothing ;!
  match allocation, total_size with
  | Prealloc, Some size => if 0 <? size then preallocate_sync size else ok tt
  | _, _ => ok tt
  end.

(** ** Properties *)

(** A file of [n] zeros with the cursor at its start. *)
Definition zeroed (n : Z) (f : FileState) : Prop :=
  cursor f = 0 /\ forall b, contents f b = if (0 <=? b) && (b <? n) then Some 0 else None.

Lemma disk_call_Ok good partial d d' u :
  disk_call good partial d = (Ok u, d') -> disk_file d' = good (disk_file d).
Proof. unfold disk_call. destruct (default IoOk _); [by intros [= <- <-]|done]. Qed.

(** The zeros written so far. *)
Definition zeros_upto (n : Z) (f : FileState) : Prop :=
  cursor f = n /\ forall b, contents f b = if (0 <=? b) && (b <? n) then Some 0 else None.

Lemma put_zeros_upto k n f : 0 <= k -> 0 <= n -> zeros_upto n f -> zeros_upto (n + k) (put_zeros k f).
Proof.
  intros Hk Hn [Hc Hb]. split; simpl; [lia|]. intros b. rewrite Hc, Hb.
  destruct (Z.leb_spec n b), (Z.ltb_spec b (n + k)), (Z.leb_spec 0 b), (Z.ltb_spec b n); simpl; try lia; done.
Qed.

Lemma zero_loop_Ok fuel remaining n d d' u :
  0 <= n -> zeros_upto n (disk_file d) -> zero_loop fuel remaining d = (Ok u, d') ->
  zeros_upto (n + Z.max 0 remaining) (disk_file d').
Proof.
  revert remaining n d. induction fuel as [|fuel IH]; intros remaining n d Hn Hz E; simpl in E;
    destruct (Z.ltb_spec 0 remaining); try done.
  1, 3: injection E as <- <-; by rewrite Z.max_l, Z.add_0_r by lia.
  apply res_bind_Ok in E as ([] & d1 & E1%disk_call_Ok & E).
  assert (0 < Z.min remaining CHUNK) by (unfold CHUNK; lia).
  apply (IH _ (n + Z.min remaining CHUNK)) in E; [|lia|rewrite E1; apply put_zeros_upto; [lia|done..]].
  by replace (n + Z.max 0 remaining)
    with (n + Z.min remaining CHUNK + Z.max 0 (remaining - Z.min remaining CHUNK)) by lia.
Qed.

(** ** Failures *)

(** Every error of [m] is an I/O error, and [m] succeeds when no call fails. *)
Definition Honest (m : DiskM unit) : Prop :=
  forall d, (forall e d', m d = (Err e, d') -> exists kind, e = Io kind) /\
    (Forall (eq IoOk) (disk_io d) -> exists d', m d = (Ok tt, d') /\ Forall (eq IoOk) (disk_io d')).

Create HintDb honest.

Lemma honest_ok : Honest (ok tt).
Proof. intros d. split; [done|]. intros H. by exists d. Qed.

Lemma honest_call good partial : Honest (disk_call good partial).
Proof.
  intros d. unfold disk_call. split.
  - intros e d'. destruct (default IoOk _) as [|k kind]; [done|]. intros [= <- _]. by exists kind.
  - intros H. destruct (disk_io d) as [|o l]; simpl; [by eexists|]. apply Forall_cons_iff in H as [<- H]. by eexists.
Qed.

Lemma honest_bind (m k : DiskM unit) : Honest m -> Honest k -> Honest (m ;! k).
Proof.
  intros Hm Hk d. destruct (Hm d) as [M1 M2]. split.
  - intros e d' E. apply res_bind_any in E as [([] & d1 & _ & E)|(e' & E1 & [= <-])]; [by apply (Hk d1) in E|by apply (M1 e d')].
  - intros H. destruct (M2 H) as (d1 & E1 & H1). destruct (Hk d1) as [_ K2]. destruct (K2 H1) as (d2 & E2 & H2).
    exists d2. unfold res_bind. by rewrite E1.
Qed.

#[export] Hint Resolve honest_ok honest_call honest_bind : honest.

(** The fuel covers every chunk. *)
Lemma honest_zero_loop fuel remaining : remaining <= Z.of_nat fuel * CHUNK -> Honest (zero_loop fuel remaining).
Proof.
  revert remaining. induction fuel as [|fuel IH]; intros remaining Hf; simpl;
    destruct (Z.ltb_spec 0 remaining); try lia; auto with honest.
  apply honest_bind; [auto with honest|]. apply IH. unfold CHUNK in *. lia.
Qed.

Lemma honest_zeros size : Honest (preallocate_zeros size).
Proof.
  unfold preallocate_zeros. repeat apply honest_bind; auto with honest. apply honest_zero_loop.
  pose proof (Z.div_mod size CHUNK ltac:(done)). pose proof (Z.mod_pos_bound size CHUNK ltac:(done)).
  unfold CHUNK in *. lia.
Qed.

Lemma honest_preallocate size : Honest (preallocate_sync size).
Proof.
  intros d. unfold preallocate_sync, fallocate. destruct (off_t size <=? 0); [apply honest_zeros|].
  destruct (honest_call (allocate size) nothing d) as [_ C2].
  destruct (disk_call (allocate size) nothing d) as [[[]|e] d1]; split.
  - done.
  - exact C2.
  - intros e' d'. apply honest_zeros.
  - intros H. by destruct (C2 H) as (d' & ? & _).
Qed.

#[export] Hint Resolve honest_preallocate : honest.

Lemma honest_create has_parent total_size allocation : Honest (create_output_file has_parent total_size allocation).
Proof.
  unfold create_output_file. apply honest_bind; [destruct has_parent; auto with honest|].
  apply honest_bind; [auto with honest|]. destruct allocation, total_size as [n|]; auto with honest.
  destruct (0 <? n); auto with honest.
Qed.

(** ** Contents *)

Lemma empty_zeroed : zeros_upto 0 empty_file.
Proof. split; [done|]. intros b. simpl. destruct (Z.leb_spec 0 b), (Z.ltb_spec b 0); simpl; try lia; done. Qed.

Lemma preallocate_sync_Ok size d d' u :
  0 <= size -> disk_file d = empty_file -> preallocate_sync size d = (Ok u, d') -> zeroed size (disk_file d').
Proof.
  intros Hs Hd E. unfold preallocate_sync in E. destruct (fallocate size d) as [[[]|e] d1] eqn:F.
  - injection E as _ <-. unfold fallocate in F. destruct (off_t size <=? 0); [done|].
    apply disk_call_Ok in F. rewrite F, Hd. by split.
  - assert (disk_file d1 = disk_file d) as H1.
    { unfold fallocate, disk_call in F. destruct (off_t size <=? 0); [by injection F as _ <-|].
      destruct (default IoOk _); [done|by injection F as _ <-]. }
    unfold preallocate_zeros in E. apply res_bind_Ok in E as ([] & d2 & E2%disk_call_Ok & E).
    apply res_bind_Ok in E as ([] & d3 & E3 & E). apply res_bind_Ok in E as ([] & d4 & E4%disk_call_Ok & E).
    apply res_bind_Ok in E as ([] & d5 & E5%disk_call_Ok & E). apply res_bind_Ok in E as ([] & d6 & E6%disk_call_Ok & E).
    apply disk_call_Ok in E. apply (zero_loop_Ok _ _ 0) in E3; [|done|rewrite E2; simpl; rewrite H1, Hd; apply empty_zeroed].
    rewrite E, E6, E5, E4. destruct E3 as [_ Hb]. split; [done|]. intros b. simpl. rewrite Hb. by rewrite Z.max_r.
Qed.

(** What a crash would leave of a new file can be read back from it. *)
Definition plain (f : FileState) : Prop := forall b v, durable f b = Some v -> contents f b = Some v.

Lemma create_plain has_parent total_size allocation d d' u :
  create_output_file has_parent total_size allocation d = (Ok u, d') -> plain (disk_file d').
Proof.
  intros E. unfold create_output_file in E. apply res_bind_Ok in E as ([] & d1 & _ & E).
  apply res_bind_Ok in E as ([] & d2 & E2%disk_call_Ok & E).
  assert (plain (disk_file d2)) as P2 by (by rewrite E2).
  destruct allocation, total_size as [n|]; try by injection E as <- <-. destruct (0 <? n); [|by injection E as <- <-].
  unfold preallocate_sync in E. destruct (fallocate n d2) as [[[]|e] d3] eqn:F.
  - injection E as _ <-. unfold fallocate in F. destruct (off_t n <=? 0); [done|]. apply disk_call_Ok in F. rewrite F, E2. by intros b v.
  - unfold preallocate_zeros in E. apply res_bind_Ok in E as ([] & d4 & _ & E). apply res_bind_Ok in E as ([] & d5 & _ & E).
    apply res_bind_Ok in E as ([] & d6 & _ & E). apply res_bind_Ok in E as ([] & d7 & _ & E).
    apply res_bind_Ok in E as ([] & d8 & E8%disk_call_Ok & E). apply disk_call_Ok in E. rewrite E, E8. by intros b v.
Qed.

(** Without a size the file is truncated or left as it was. *)
Lemma create_unsized has_parent allocation d r d' :
  create_output_file has_parent None allocation d = (r, d') ->
  disk_file d' = match r with Ok _ => empty_file | Err _ => disk_file d end.
Proof.
  assert (forall good r d d', disk_call good nothing d = (r, d') ->
    disk_file d' = match r with Ok _ => good (disk_file d) | Err _ => disk_file d end) as Hcall.
  { unfold disk_call. intros good r0 d0 d1. by destruct (default IoOk _); intros [= <- <-]. }
  unfold create_output_file. intros E. apply res_bind_any in E as [([] & d1 & E1 & E)|(e & E1 & ->)].
  - assert (disk_file d1 = disk_file d) as H1 by (destruct has_parent; [by apply Hcall in E1|by injection E1 as <-]).
    apply res_bind_any in E as [([] & d2 & E2%Hcall & E)|(e & E2%Hcall & ->)]; [|congruence].
    destruct allocation; by injection E as <- <-.
  - destruct has_parent; [by apply Hcall in E1|done].
Qed.

(** The created file is what resuming expects.  With preallocation and a
    known size the new file holds exactly that many zeros, by [fallocate] or by
    writing them; otherwise it is empty.  The cursor is at the start, nothing of
    an earlier file is left, every failure is reported as an I/O error, and
    without failures the file is created. *)
Theorem created_file_contents has_parent total_size allocation d :
  (forall n, total_size = Some n -> u64 n) ->
  exists r d', create_output_file has_parent total_size allocation d = (r, d') /\
    (r = Ok tt -> zeroed (match allocation, total_size with Prealloc, Some n => n | _, _ => 0 end) (disk_file d')) /\
    (forall e, r = Err e -> exists kind, e = Io kind) /\
    (Forall (eq IoOk) (disk_io d) -> r = Ok tt).
Proof.
  intros Hu. destruct (create_output_file _ _ _ d) as [r d'] eqn:E. exists r, d'. split; [done|].
  destruct (honest_create has_parent total_size allocation d) as [C1 C2]. rewrite E in C1, C2. split_and!.
  - intros ->. unfold create_output_file in E. apply res_bind_Ok in E as ([] & d1 & _ & E).
    apply res_bind_Ok in E as ([] & d2 & E2%disk_call_Ok & E).
    assert (forall d3, (Ok tt, d2) = (Ok tt, d3) :> result unit DownloadError * Disk -> zeroed 0 (disk_file d3)) as H0.
    { intros d3 [= <-]. rewrite E2. apply empty_zeroed. }
    destruct allocation, total_size as [n|]; try by apply H0.
    destruct (Z.ltb_spec 0 n); [by apply (preallocate_sync_Ok n d2 d' tt); [lia|..]|].
    assert (n = 0) as -> by (destruct (Hu n eq_refl); lia). by apply H0.
  - intros e ->. by apply (C1 e d').
  - intros H. by destruct (C2 H) as (d3 & [= -> <-] & _).
Qed.

Lemma created_file_contents_witness :
  exists d', create_output_file true (Some 300000) Prealloc (mkDisk empty_file [IoOk; IoOk; IoFail 0 (IoOther 95)]) = (Ok tt, d') /\
    contents (disk_file d') 299999 = Some 0 /\ contents (disk_file d') 300000 = None.
Proof.
  destruct (created_file_contents true (Some 300000) Prealloc (mkDisk empty_file [IoOk; IoOk; IoFail 0 (IoOther 95)]))
    as (r & d' & E & Hz & _).
  { intros n [= <-]. by vm_compute. }
  assert (r = Ok tt) as -> by (apply (f_equal fst) in E; vm_compute in E; congruence).
  exists d'. destruct (Hz eq_refl) as [_ Hb]. split_and!; [done|by rewrite Hb..].
Defined.
