(* ===== verification/Config.v ===== *)
(** * Download specifications ([src/config.rs], [ClientNetworkConfig] of [src/network.rs])

    The configuration of a download, its validation, and the network settings it
    resolves to.  Durations are nanoseconds.  The builder methods and getters are
    assignments and reads of one field and are left out. *)

From S2P Require Import Prelude RustStr Errors Planner PieceMap Flow Retry Checksum Resume Net.

(** ** Data *)

Inductive LogLevel := LogOff | LogError | LogWarn | LogInfo | LogDebug | LogTrace.

Inductive TracingLevel := LevelError | LevelWarn | LevelInfo | LevelDebug | LevelTrace.

Inductive SlowTransferMode := Disabled | Adaptive | AdaptiveWithHedging.

Record NetworkOverrides := mkOverrides {
  ov_all_proxy : option rstr;
  ov_http_proxy : option rstr;
  ov_https_proxy : option rstr;
  ov_ca_info : option rstr;
  ov_ca_path : option rstr;
  ov_client_cert : option rstr;
  ov_client_key : option rstr;
  ov_connect_timeout : option Z;
  ov_idle_pool : option (nat * Z);
}.

Record RetryConfig := mkRetryConfig {
  rc_max_retries : Z;
  rc_base_delay : Z;
  rc_max_delay : Z;
  rc_max_elapsed : option Z;
}.

Record SchedulingConfig := mkScheduling {
  cf_piece_size : Z;
  cf_request_batch_size : Z;
  cf_range_scheduling_mode : RangeSchedulingMode;
  cf_dynamic_min_split_size : Z;
  cf_dynamic_max_request_size : Z;
  cf_min_split_size : Z;
  cf_min_segment_size : Z;
}.

Record RecoveryConfig := mkRecovery {
  cf_slow_transfer_mode : SlowTransferMode;
  cf_low_speed_limit : option Z;
  cf_low_speed_duration : Z;
  cf_slow_start_grace : Z;
  cf_slow_sample_window : Z;
}.

Record StorageConfig := mkStorage {
  cf_memory_budget : Z;
  cf_file_allocation : FileAllocation;
  cf_channel_buffer : Z;
  cf_resume : bool;
  cf_checksum : option Checksum;
  cf_control_save_interval : Z;
  cf_autosave_sync_every : Z;
}.

Record DownloadSpec := mkSpec {
  ds_storage : StorageConfig;
  ds_recovery : RecoveryConfig;
  ds_scheduling : SchedulingConfig;
  ds_retry : RetryConfig;
  ds_url : rstr;
  ds_output_path : option rstr;
  ds_output_dir : option rstr;
  ds_headers : gmap rstr rstr;
  ds_max_connections : Z;
  ds_overrides : NetworkOverrides;
  ds_read_timeout : Z;
  ds_request_headers_timeout : option Z;
  ds_max_download_speed : Z;
}.

Record ClientNetworkConfig := mkNetwork {
  nc_connect_timeout : Z;
  nc_pool_max_idle_per_host : nat;
  nc_pool_idle_timeout : Z;
  nc_all_proxy : option rstr;
  nc_http_proxy : option rstr;
  nc_https_proxy : option rstr;
  nc_ca_info : option rstr;
  nc_ca_path : option rstr;
  nc_client_cert : option rstr;
  nc_client_key : option rstr;
  nc_dns_servers : list SocketAddr;
  nc_doh_servers : list rstr;
  nc_enable_ipv6 : bool;
  nc_multi_ip : bool;
}.

#[export] Instance ClientNetworkConfig_eq_dec : EqDecision ClientNetworkConfig.
Proof. solve_decision. Defined.

(** ** Names of levels and modes *)

Definition show_log_level (l : LogLevel) : rstr :=
  match l with
  | LogOff => str "off"
  | LogError => str "error"
  | LogWarn => str "warn"
  | LogInfo => str "info"
  | LogDebug => str "debug"
  | LogTrace => str "trace"
  end.

Definition parse_log_level (s : rstr) : result LogLevel rstr :=
  let lower := to_ascii_lowercase <$> s in
  if bool_decide (lower = str "off") then Ok LogOff
  else if bool_decide (lower = str "error") then Ok LogError
  else if bool_decide (lower = str "warn") || bool_decide (lower = str "warning") then Ok LogWarn
  else if bool_decide (lower = str "info") then Ok LogInfo
  else if bool_decide (lower = str "debug") then Ok LogDebug
  else if bool_decide (lower = str "trace") then Ok LogTrace
  else Err (str "invalid log level: '" ++ s ++ str "'; expected one of: off, error, warn, info, debug, trace").

(** The derived order of the levels. *)
Definition log_rank (l : LogLevel) : Z :=
  match l with LogOff => 0 | LogError => 1 | LogWarn => 2 | LogInfo => 3 | LogDebug => 4 | LogTrace => 5 end.

Definition log_enabled (l : LogLevel) (level : TracingLevel) : bool :=
  match level with
  | LevelError => log_rank LogError <=? log_rank l
  | LevelWarn => log_rank LogWarn <=? log_rank l
  | LevelInfo => log_rank LogInfo <=? log_rank l
  | LevelDebug => log_rank LogDebug <=? log_rank l
  | LevelTrace => log_rank LogTrace <=? log_rank l
  end.

(** [to_tracing_level_filter]; [None] is [LevelFilter::OFF]. *)
Definition to_tracing_level_filter (l : LogLevel) : option TracingLevel :=
  match l with
  | LogOff => None
  | LogError => Some LevelError
  | LogWarn => Some LevelWarn
  | LogInfo => Some LevelInfo
  | LogDebug => Some LevelDebug
  | LogTrace => Some LevelTrace
  end.

Definition show_scheduling_mode (m : RangeSchedulingMode) : rstr :=
  match m with Fixed => str "fixed" | Dynamic => str "dynamic" end.

Definition parse_scheduling_mode (s : rstr) : result RangeSchedulingMode rstr :=
  let lower := to_ascii_lowercase <$> s in
  if bool_decide (lower = str "fixed") then Ok Fixed
  else if bool_decide (lower = str "dynamic") then Ok Dynamic
  else Err (str "invalid range scheduling mode: '" ++ s ++ str "'; expected one of: fixed, dynamic").

(** ** Defaults *)

Definition secs (n : Z) : Z := n * nanos_per_sec.

Definition DEFAULT_HTTP_IDLE_POOL_MAX_PER_HOST : nat := 4.
Definition DEFAULT_HTTP_IDLE_POOL_TIMEOUT : Z := secs 30.
Definition DEFAULT_REQUEST_BATCH_SIZE : Z := 4 * 1024 * 1024.
Definition DEFAULT_DYNAMIC_MIN_SPLIT_SIZE : Z := 1024 * 1024.
Definition DEFAULT_DYNAMIC_MAX_REQUEST_SIZE : Z := 64 * 1024 * 1024.

Definition no_overrides : NetworkOverrides := mkOverrides None None None None None None None None None.

Definition DownloadSpec_new (url : rstr) : DownloadSpec :=
  mkSpec (mkStorage (64 * 1024 * 1024) Prealloc 64 true None (secs 5) 2)
         (mkRecovery Adaptive None (secs 15) (secs 5) (secs 5))
         (mkScheduling (1024 * 1024) DEFAULT_REQUEST_BATCH_SIZE Dynamic DEFAULT_DYNAMIC_MIN_SPLIT_SIZE
                       DEFAULT_DYNAMIC_MAX_REQUEST_SIZE (10 * 1024 * 1024) (256 * 1024))
         (mkRetryConfig 5 (secs 1) (secs 30) None)
         url None None ∅ 4 no_overrides (secs 60) None 0.

Definition ClientNetworkConfig_default : ClientNetworkConfig :=
  mkNetwork (secs 30) DEFAULT_HTTP_IDLE_POOL_MAX_PER_HOST DEFAULT_HTTP_IDLE_POOL_TIMEOUT
            None None None None None None None [] [] true false.

Definition effective_dynamic_max_request_size (piece_size configured : Z) : Z := Z.max configured (Z.max piece_size 1).

(** ** Validation *)

Definition require_nonzero (field : string) (value : Z) : result unit DownloadError :=
  if value =? 0 then Err (InvalidConfig (str field ++ str " must be >= 1")) else Ok tt.

(** The first error of a sequence of checks. *)
Fixpoint first_error (checks : list (result unit DownloadError)) : result unit DownloadError :=
  match checks with
  | [] => Ok tt
  | Err e :: _ => Err e
  | Ok _ :: checks => first_error checks
  end.

Definition refuse_if (c : bool) (message : rstr) : result unit DownloadError :=
  if c then Err (InvalidConfig message) else Ok tt.

Definition duration_in_day (name : string) (value : Z) : result unit DownloadError :=
  refuse_if ((value =? 0) || (secs 86400 <? value)) (str name ++ str " must be > 0 and <= 86400 seconds").

Definition blank (s : rstr) : bool := bool_decide (trim s = []).

Definition proxy_not_blank (label : string) (value : option rstr) : result unit DownloadError :=
  match value with
  | Some value => refuse_if (blank value) (str label ++ str " cannot be empty")
  | None => Ok tt
  end.

Definition checksum_value (c : Checksum) : rstr := match c with Sha256 v | Sha1 v | Md5 v | Sha512 v => v end.

(** [now_plus timeout]: [Instant::now().checked_add(timeout)] is there. *)
Definition validate (now_plus : Z -> bool) (spec : DownloadSpec) : result unit DownloadError :=
  first_error [
    match cf_low_speed_limit (ds_recovery spec) with Some limit => require_nonzero "low_speed_limit" limit | None => Ok tt end;
    duration_in_day "low_speed_duration" (cf_low_speed_duration (ds_recovery spec));
    duration_in_day "slow_start_grace" (cf_slow_start_grace (ds_recovery spec));
    duration_in_day "slow_sample_window" (cf_slow_sample_window (ds_recovery spec));
    refuse_if (cf_control_save_interval (ds_storage spec) =? 0) (str "control_save_interval must be > 0 seconds");
    refuse_if match ds_request_headers_timeout spec with Some timeout => (timeout =? 0) || negb (now_plus timeout) | None => false end
              (str "request_headers_timeout must be positive and representable as a deadline");
    refuse_if (blank (ds_url spec)) (str "url cannot be empty");
    proxy_not_blank "all_proxy" (ov_all_proxy (ds_overrides spec));
    proxy_not_blank "http_proxy" (ov_http_proxy (ds_overrides spec));
    proxy_not_blank "https_proxy" (ov_https_proxy (ds_overrides spec));
    require_nonzero "max_connections" (ds_max_connections spec);
    require_nonzero "memory_budget" (cf_memory_budget (ds_storage spec));
    require_nonzero "channel_buffer" (cf_channel_buffer (ds_storage spec));
    require_nonzero "piece_size" (cf_piece_size (ds_scheduling spec));
    require_nonzero "min_split_size" (cf_min_split_size (ds_scheduling spec));
    require_nonzero "min_segment_size" (cf_min_segment_size (ds_scheduling spec));
    require_nonzero "dynamic_min_split_size" (cf_dynamic_min_split_size (ds_scheduling spec));
    require_nonzero "dynamic_max_request_size" (cf_dynamic_max_request_size (ds_scheduling spec));
    require_nonzero "autosave_sync_every" (cf_autosave_sync_every (ds_storage spec));
    refuse_if (rc_max_delay (ds_retry spec) <? rc_base_delay (ds_retry spec)) (str "retry_base_delay cannot exceed retry_max_delay");
    match cf_checksum (ds_storage spec) with
    | Some checksum => refuse_if (blank (checksum_value checksum)) (str "checksum value cannot be empty")
    | None => Ok tt
    end].

(** ** Network settings *)

Definition get_connect_timeout (spec : DownloadSpec) : Z := default (secs 30) (ov_connect_timeout (ds_overrides spec)).

Definition get_pool_max_idle_per_host (spec : DownloadSpec) : nat :=
  from_option fst DEFAULT_HTTP_IDLE_POOL_MAX_PER_HOST (ov_idle_pool (ds_overrides spec)).

Definition get_pool_idle_timeout (spec : DownloadSpec) : Z :=
  from_option snd DEFAULT_HTTP_IDLE_POOL_TIMEOUT (ov_idle_pool (ds_overrides spec)).

Definition has_proxy_override (spec : DownloadSpec) : bool :=
  bool_decide (is_Some (ov_all_proxy (ds_overrides spec))) || bool_decide (is_Some (ov_http_proxy (ds_overrides spec))) ||
  bool_decide (is_Some (ov_https_proxy (ds_overrides spec))).

(** [if let Some(x) = new { target = Some(x) }] *)
Definition override {A} (new old : option A) : option A := match new with Some x => Some x | None => old end.

Definition resolve_network_config (spec : DownloadSpec) (base : ClientNetworkConfig) : ClientNetworkConfig :=
  let o := ds_overrides spec in
  let connect_timeout := if bool_decide (is_Some (ov_connect_timeout o)) then get_connect_timeout spec else nc_connect_timeout base in
  let pooled := bool_decide (is_Some (ov_idle_pool o)) in
  let max_idle := if pooled then get_pool_max_idle_per_host spec else nc_pool_max_idle_per_host base in
  let idle_timeout := if pooled && (0 <? max_idle)%nat then get_pool_idle_timeout spec else nc_pool_idle_timeout base in
  let proxied := has_proxy_override spec in
  mkNetwork connect_timeout max_idle idle_timeout
    (if proxied then ov_all_proxy o else nc_all_proxy base)
    (if proxied then ov_http_proxy o else nc_http_proxy base)
    (if proxied then ov_https_proxy o else nc_https_proxy base)
    (override (ov_ca_info o) (nc_ca_info base))
    (override (ov_ca_path o) (nc_ca_path base))
    (override (ov_client_cert o) (nc_client_cert base))
    (override (ov_client_key o) (nc_client_key base))
    (nc_dns_servers base) (nc_doh_servers base) (nc_enable_ipv6 base) (nc_multi_ip base).

(** ** Properties *)

Lemma first_error_Ok checks : first_error checks = Ok tt <-> Forall (fun c => c = Ok tt) checks.
Proof.
  induction checks as [|[[]|e] checks IH]; simpl; [by split|rewrite IH, Forall_cons; naive_solver|].
  split; [done|]. by rewrite Forall_cons; intros [? _].
Qed.

Lemma first_error_Err checks e : first_error checks = Err e -> Err e ∈ checks.
Proof. induction checks as [|[[]|e'] checks IH]; simpl; [done|intros H; right; by apply IH|intros [= <-]; left]. Qed.

Lemma require_nonzero_Ok field value : require_nonzero field value = Ok tt <-> value <> 0.
Proof. unfold require_nonzero. destruct (Z.eqb_spec value 0); naive_solver. Qed.

Lemma refuse_if_Ok c message : refuse_if c message = Ok tt <-> c = false.
Proof. unfold refuse_if. by destruct c. Qed.


(** The printed name of a log level or a scheduling mode is parsed back, in any
    mix of upper and lower case; and what is parsed is one of the names. *)
Theorem names_roundtrip :
  (forall l s, to_ascii_lowercase <$> s = show_log_level l -> parse_log_level s = Ok l) /\
  (forall m s, to_ascii_lowercase <$> s = show_scheduling_mode m -> parse_scheduling_mode s = Ok m) /\
  (forall l s, parse_log_level s = Ok l -> to_ascii_lowercase <$> s = show_log_level l \/
     (l = LogWarn /\ to_ascii_lowercase <$> s = str "warning")) /\
  (forall m s, parse_scheduling_mode s = Ok m -> to_ascii_lowercase <$> s = show_scheduling_mode m).
Proof.
  split_and!.
  - intros l s E. unfold parse_log_level. rewrite E. by destruct l.
  - intros m s E. unfold parse_scheduling_mode. rewrite E. by destruct m.
  - intros l s. unfold parse_log_level. repeat case_bool_decide; intros [= <-]; auto.
  - intros m s. unfold parse_scheduling_mode. repeat case_bool_decide; by intros [= <-].
Qed.

(** The levels a filter lets through, from the least verbose one on. *)
Definition tracing_rank (level : TracingLevel) : Z :=
  match level with LevelError => 1 | LevelWarn => 2 | LevelInfo => 3 | LevelDebug => 4 | LevelTrace => 5 end.

Definition filter_allows (filter : option TracingLevel) (level : TracingLevel) : bool :=
  match filter with Some max => tracing_rank level <=? tracing_rank max | None => false end.

(** The level check of the logging macros and the filter handed to the subscriber
    agree. *)
Lemma log_enabled_filter l level : log_enabled l level = filter_allows (to_tracing_level_filter l) level.
Proof. by destruct l, level. Qed.

(** The fields hold values of their types. *)
Record Spec_typed (spec : DownloadSpec) : Prop := {
  ty_connections : 0 <= ds_max_connections spec <= 2 ^ 32 - 1;
  ty_memory : 0 <= cf_memory_budget (ds_storage spec);
  ty_piece_size : u64 (cf_piece_size (ds_scheduling spec));
  ty_min_split : u64 (cf_min_split_size (ds_scheduling spec));
  ty_min_segment : u64 (cf_min_segment_size (ds_scheduling spec));
  ty_dynamic_min : u64 (cf_dynamic_min_split_size (ds_scheduling spec));
  ty_dynamic_max : u64 (cf_dynamic_max_request_size (ds_scheduling spec));
  ty_autosave : 0 <= cf_autosave_sync_every (ds_storage spec) <= 2 ^ 32 - 1;
  ty_interval : duration (cf_control_save_interval (ds_storage spec));
  ty_retries : 0 <= rc_max_retries (ds_retry spec) <= 2 ^ 32 - 1;
  ty_base : duration (rc_base_delay (ds_retry spec));
  ty_max : duration (rc_max_delay (ds_retry spec));
}.

(** The piece-aligned minimum: at least one piece and the configured size, and a
    whole number of pieces unless that does not fit into 64 bits. *)
Lemma effective_min_split_spec ps configured :
  1 <= ps <= u64_max -> 0 <= configured <= u64_max ->
  let m := effective_dynamic_min_split_size ps configured in
  ps <= m <= u64_max /\ configured <= m /\ ((ps | m) \/ m = u64_max).
Proof.
  intros Hp Hc m. subst m. unfold effective_dynamic_min_split_size. rewrite (Z.max_l ps 1) by lia.
  pose proof (div_ceil_spec (Z.max configured ps) ps ltac:(lia) ltac:(lia)) as D. set (q := div_ceil _ _) in *.
  unfold sat_mul64. split_and!; [lia|lia|lia|].
  destruct (Z.le_gt_cases (q * ps) u64_max) as [Hle|Hgt].
  - left. exists q. rewrite Z.min_l by done. lia.
  - right. lia.
Qed.

Lemma max_chunk_positive bytes : (1 <= bytes)%nat -> (1 <= max_chunk (MemoryBudget_new bytes))%nat.
Proof.
  intros Hb. unfold MemoryBudget_new, min_u32. cbn [max_chunk]. assert (1 <= (bytes + 1) / 2)%nat.
  { change 1%nat with (2 / 2)%nat at 1. apply Nat.Div0.div_le_mono. lia. }
  lia.
Qed.

(** What validation establishes. *)
Lemma validate_spec now_plus spec :
  Spec_typed spec ->
  (validate now_plus spec = Ok tt ->
     1 <= cf_piece_size (ds_scheduling spec) /\ 1 <= cf_min_split_size (ds_scheduling spec) /\
     1 <= cf_min_segment_size (ds_scheduling spec) /\ 1 <= ds_max_connections spec /\
     (1 <= max_chunk (MemoryBudget_new (Z.to_nat (cf_memory_budget (ds_storage spec)))))%nat /\
     (let ps := cf_piece_size (ds_scheduling spec) in
      let m := effective_dynamic_min_split_size ps (cf_dynamic_min_split_size (ds_scheduling spec)) in
      ps <= m /\ ((ps | m) \/ m = u64_max) /\
      ps <= effective_dynamic_max_request_size ps (cf_dynamic_max_request_size (ds_scheduling spec))) /\
     rc_base_delay (ds_retry spec) <= rc_max_delay (ds_retry spec) /\
     0 < cf_control_save_interval (ds_storage spec) /\ 1 <= cf_autosave_sync_every (ds_storage spec) /\
     trim (ds_url spec) <> []) /\
  (forall e, validate now_plus spec = Err e -> exists message, e = InvalidConfig message).
Proof.
  intros T. split.
  - intros E. apply first_error_Ok in E. repeat (apply Forall_cons in E as [? E]).
    rewrite ?refuse_if_Ok, ?require_nonzero_Ok in *. destruct T. unfold u64, duration in *.
    assert (trim (ds_url spec) <> []) by (by eapply bool_decide_eq_false_1).
    destruct (effective_min_split_spec (cf_piece_size (ds_scheduling spec)) (cf_dynamic_min_split_size (ds_scheduling spec)))
      as (M1 & _ & M2); [lia|lia|].
    split_and!; try done; try lia; [apply max_chunk_positive; lia|unfold effective_dynamic_max_request_size; lia].
  - intros e E%first_error_Err. unfold duration_in_day, proxy_not_blank, refuse_if, require_nonzero in E.
    repeat (apply elem_of_cons in E as [E|E]; [repeat case_match; try done; injection E as ->; by eexists|]).
    by apply elem_of_nil in E.
Qed.

(** ** Valid specifications *)

Definition within_day (d : Z) : Prop := d <> 0 /\ d <= 24 * 60 * 60 * nanos_per_sec.

(** What is asked of a specification. *)
Record Spec_valid (now_plus : Z -> bool) (spec : DownloadSpec) : Prop := {
  sv_low_speed : cf_low_speed_limit (ds_recovery spec) <> Some 0;
  sv_low_duration : within_day (cf_low_speed_duration (ds_recovery spec));
  sv_grace : within_day (cf_slow_start_grace (ds_recovery spec));
  sv_window : within_day (cf_slow_sample_window (ds_recovery spec));
  sv_interval : cf_control_save_interval (ds_storage spec) <> 0;
  sv_headers_timeout : forall timeout, ds_request_headers_timeout spec = Some timeout -> timeout <> 0 /\ now_plus timeout = true;
  sv_url : trim (ds_url spec) <> [];
  sv_proxies : forall proxy,
    Some proxy ∈ [ov_all_proxy (ds_overrides spec); ov_http_proxy (ds_overrides spec); ov_https_proxy (ds_overrides spec)] -> trim proxy <> [];
  sv_sizes : Forall (fun n => n <> 0)
    [ds_max_connections spec; cf_memory_budget (ds_storage spec); cf_channel_buffer (ds_storage spec);
     cf_piece_size (ds_scheduling spec); cf_min_split_size (ds_scheduling spec); cf_min_segment_size (ds_scheduling spec);
     cf_dynamic_min_split_size (ds_scheduling spec); cf_dynamic_max_request_size (ds_scheduling spec);
     cf_autosave_sync_every (ds_storage spec)];
  sv_delays : rc_base_delay (ds_retry spec) <= rc_max_delay (ds_retry spec);
  sv_checksum : forall c, cf_checksum (ds_storage spec) = Some c -> trim (checksum_value c) <> [];
}.

Lemma blank_false s : blank s = false <-> trim s <> [].
Proof. unfold blank. apply bool_decide_eq_false. Qed.

Lemma duration_in_day_Ok name value : duration_in_day name value = Ok tt <-> within_day value.
Proof.
  unfold duration_in_day, within_day. rewrite refuse_if_Ok, orb_false_iff, Z.eqb_neq, Z.ltb_ge. reflexivity.
Qed.

Lemma proxy_not_blank_Ok label value : proxy_not_blank label value = Ok tt <-> forall proxy, value = Some proxy -> trim proxy <> [].
Proof.
  unfold proxy_not_blank. destruct value as [v|]; [rewrite refuse_if_Ok, blank_false|]; naive_solver.
Qed.

Lemma validate_iff now_plus spec : validate now_plus spec = Ok tt <-> Spec_valid now_plus spec.
Proof.
  unfold validate. rewrite first_error_Ok, !Forall_cons, !refuse_if_Ok, !require_nonzero_Ok, !duration_in_day_Ok, !proxy_not_blank_Ok,
    blank_false, Z.eqb_neq, Z.ltb_ge. split.
  - intros H. repeat match type of H with _ /\ _ => let H1 := fresh "V" in destruct H as [H1 H] end. split; try done.
    + intros E. rewrite E in V. by apply require_nonzero_Ok in V.
    + intros timeout E. rewrite E, orb_false_iff, Z.eqb_neq, negb_false_iff in V4. done.
    + intros proxy Hp. repeat (apply elem_of_cons in Hp as [Hp|Hp]; [by eauto|]). by apply elem_of_nil in Hp.
    + by repeat constructor.
    + intros c E. rewrite E in V19. by apply refuse_if_Ok, blank_false in V19.
  - intros [S1 S2 S3 S4 S5 S6 S7 S8 S9 S10 S11]. repeat (apply Forall_cons in S9 as [? S9]). split_and!; try done.
    + destruct (cf_low_speed_limit _); [|done]. apply require_nonzero_Ok. congruence.
    + destruct (ds_request_headers_timeout spec) as [timeout|]; [|done]. destruct (S6 timeout eq_refl) as [Ht ->].
      by rewrite (proj2 (Z.eqb_neq _ _) Ht).
    + intros proxy E. apply S8. rewrite <- E. left.
    + intros proxy E. apply S8. rewrite <- E. right. left.
    + intros proxy E. apply S8. rewrite <- E. right. right. left.
    + destruct (cf_checksum _) as [c|]; [|done]. by apply refuse_if_Ok, blank_false, S11.
Qed.

Definition set_headers (headers : gmap rstr rstr) (spec : DownloadSpec) : DownloadSpec :=
  mkSpec (ds_storage spec) (ds_recovery spec) (ds_scheduling spec) (ds_retry spec) (ds_url spec) (ds_output_path spec)
    (ds_output_dir spec) headers (ds_max_connections spec) (ds_overrides spec) (ds_read_timeout spec)
    (ds_request_headers_timeout spec) (ds_max_download_speed spec).


(** The default specification is valid for any URL that is not blank. *)
Lemma default_spec_valid now_plus url : trim url <> [] -> validate now_plus (DownloadSpec_new url) = Ok tt.
Proof.
  intros Hu. apply first_error_Ok. unfold DownloadSpec_new. cbn.
  repeat (apply Forall_cons; split; [try done|]); [|done]. apply refuse_if_Ok. by apply bool_decide_eq_false_2.
Qed.

Lemma default_spec_typed url : Spec_typed (DownloadSpec_new url).
Proof. split; vm_compute; repeat split; discriminate. Qed.


(** A download's network settings are its own where it gives them and the
    downloader's otherwise; a proxy of its own replaces all the downloader's
    proxies; a pool it disables keeps the downloader's idle timeout; and the servers
    for name resolution are always the downloader's. *)
Theorem network_config_resolved spec base :
  let o := ds_overrides spec in
  let c := resolve_network_config spec base in
  nc_connect_timeout c = default (nc_connect_timeout base) (ov_connect_timeout o) /\
  (nc_pool_max_idle_per_host c, nc_pool_idle_timeout c) =
    match ov_idle_pool o with
    | Some (0%nat, _) => (0%nat, nc_pool_idle_timeout base)
    | Some pool => pool
    | None => (nc_pool_max_idle_per_host base, nc_pool_idle_timeout base)
    end /\
  (nc_all_proxy c, nc_http_proxy c, nc_https_proxy c) =
    match ov_all_proxy o, ov_http_proxy o, ov_https_proxy o with
    | None, None, None => (nc_all_proxy base, nc_http_proxy base, nc_https_proxy base)
    | a, h, s => (a, h, s)
    end /\
  (nc_ca_info c = override (ov_ca_info o) (nc_ca_info base) /\ nc_ca_path c = override (ov_ca_path o) (nc_ca_path base) /\
   nc_client_cert c = override (ov_client_cert o) (nc_client_cert base) /\
   nc_client_key c = override (ov_client_key o) (nc_client_key base)) /\
  (nc_dns_servers c, nc_doh_servers c, nc_enable_ipv6 c, nc_multi_ip c) =
    (nc_dns_servers base, nc_doh_servers base, nc_enable_ipv6 base, nc_multi_ip base).
Proof.
  intros o c. subst c o. unfold resolve_network_config, get_connect_timeout, get_pool_max_idle_per_host, get_pool_idle_timeout, has_proxy_override.
  destruct (ds_overrides spec) as [[a|] [h|] [p|] ci cp cc ck [t|] [[[|n] d]|]]; simpl; split_and!; done.
Qed.
