(* ===== verification/Request.v ===== *)
(** * One range request ([src/session/multi/worker/request.rs])

    Validating the response of a range request and consuming its body across
    the pieces the request covers.  What the server sends, which branch each
    forwarding takes and the stop signal are inputs. *)

From S2P Require Import Prelude RustStr Errors Segment Cache Writer WriterInv WriterProps WriterRun Flow Retry Response RangeValidate Control Resume.

(** ** The response *)

(** [CandidateFailure]; [identity_changed]: the server serves another object. *)
Record CandidateFailure := mkFailure {
  failure_error : DownloadError;
  identity_changed : bool;
}.

(** [From<DownloadError>] *)
Definition candidate_failure (e : DownloadError) : CandidateFailure :=
  mkFailure e (match e with HttpStatus status _ => status =? 412 | _ => false end).

Definition validator_changed : CandidateFailure :=
  mkFailure (ResumeMismatch (str "object validator changed during adaptive download")) true.

(** [response]: the probe response or the answer to [send_range]. *)
Definition checked_response (validator : option rstr) (require_validator : bool) (segment : Segment) (total : Z)
    (response : ProbeResult) (request_end : Z) : result unit CandidateFailure :=
  match response with
  | Err e => Err (candidate_failure e)
  | Ok (status, retry_after, meta) =>
      if match validator, etag meta with
         | Some expected, Some actual => negb (bool_decide (actual = expected))
         | _, _ => false
         end
      then Err validator_changed
      else
        match validate_range_response status retry_after meta SegmentMode
                (mkExpected (seg_start segment) (request_end ⊖ 1) (Some total)) with
        | Err e => Err (candidate_failure e)
        | Ok _ =>
            if require_validator &&
               match validator with Some expected => negb (bool_decide (etag meta = Some expected)) | None => false end
            then Err validator_changed
            else Ok tt
        end
  end.

(** ** The body *)

(** [rs_body]: the outcomes of [next_data_chunk] to come; the end of the list is
    the end of the body. *)
Record RequestStream := mkStream {
  rs_body : list (result bytes DownloadError);
  rs_buffered : bytes;
  rs_wire : Z;
  rs_expected : Z;
  rs_consumed : Z;
}.

Definition stream_new (body : list (result bytes DownloadError)) (segment : Segment) (request_end : Z) : RequestStream :=
  mkStream body [] 0 (request_end ⊖ seg_start segment) 0.

Inductive Refill :=
| Finished (r : result unit DownloadError) (stream : RequestStream)
| Filled (stream : RequestStream).

Definition body_ended_early : DownloadError := Transport Body (str "range body ended early").

(** The part of an iteration of [primary] that reads the next frame when the
    buffer is empty. *)
Definition refill (stream : RequestStream) : Refill :=
  if negb (bool_decide (rs_buffered stream = [])) then Filled stream
  else
    match rs_body stream with
    | [] => Finished (if negb (rs_wire stream =? rs_expected stream) then Err body_ended_early else Ok tt) stream
    | Err e :: body =>
        Finished (Err e) (mkStream body [] (rs_wire stream) (rs_expected stream) (rs_consumed stream))
    | Ok data :: body =>
        let wire := sat_add64 (rs_wire stream) (blen data) in
        if rs_expected stream <? wire then
          Finished (Err (ResumeMismatch (str "server overran requested range")))
                   (mkStream body [] wire (rs_expected stream) (rs_consumed stream))
        else Filled (mkStream body data wire (rs_expected stream) (rs_consumed stream))
    end.

Section Primary.
  Context (mb : MemoryBudget) (segment : Segment) (request_end : Z).
  (** The [i]th forwarding and the stop signal after it. *)
  Context (selected : nat -> list Selected) (stop : nat -> StopSignal).

Abbreviation PrimaryResult := (result unit DownloadError * RequestStream * Z * list WriterCommand)%type.

(** The loop of [primary]: its result, the stream it leaves, the bytes
    forwarded of this segment, and the commands put on the writer's channel.
    [None]: the fuel ran out. *)
Fixpoint primary_loop (fuel i : nat) (stream : RequestStream) (forwarded : Z) : option PrimaryResult :=
  match fuel with
  | O => None
  | S fuel =>
      let len := seg_end segment ⊖ seg_start segment in
      if (forwarded =? len) && (seg_end segment <? request_end) then Some (Ok tt, stream, forwarded, [])
      else
        match refill stream with
        | Finished r stream => Some (r, stream, forwarded, [])
        | Filled stream =>
            if bool_decide (rs_buffered stream = []) then primary_loop fuel (S i) stream forwarded
            else
              let remaining := len ⊖ forwarded in
              let n := Nat.min (Nat.min (length (rs_buffered stream)) (max_chunk mb)) (Z.to_nat remaining) in
              if bool_decide (n = 0%nat) then
                Some (Err (ResumeMismatch (str "server overran final piece")), stream, forwarded, [])
              else
                '(r, cmds, sent) ← forward mb (take n (rs_buffered stream)) (seg_start segment ⊕ forwarded)
                                     (Some (lease_key segment)) (selected i);
                let stream := mkStream (rs_body stream) (drop n (rs_buffered stream)) (rs_wire stream)
                                       (rs_expected stream) (rs_consumed stream ⊕ sent) in
                let forwarded := forwarded ⊕ sent in
                match r with
                | Err e => Some (Err e, stream, forwarded, cmds)
                | Ok _ =>
                    match stop_signal_error (stop i) with
                    | Some e => Some (Err e, stream, forwarded, cmds)
                    | None =>
                        '(r, stream, forwarded, more) ← primary_loop fuel (S i) stream forwarded;
                        Some (r, stream, forwarded, cmds ++ more)
                    end
                end
        end
  end.

(** One iteration per frame or byte, and the last one. *)
Definition primary_fuel (stream : RequestStream) : nat :=
  S (length (rs_body stream) + length (rs_buffered stream) +
     foldr (fun frame n => match frame with Ok data => length data | Err _ => 0 end + n) 0 (rs_body stream))%nat.

(** [primary]: a first call opens the stream with the validated response; the
    calls for the following pieces continue it. *)
Definition primary (validator : option rstr) (require_validator : bool) (total : Z)
    (response : ProbeResult) (body : list (result bytes DownloadError)) (stream : option RequestStream)
    : option (result unit DownloadError * option RequestStream * Z * list WriterCommand) :=
  match (match stream with
         | Some stream => Ok stream
         | None =>
             match checked_response validator require_validator segment total response request_end with
             | Err failure => Err (failure_error failure)
             | Ok _ => Ok (stream_new body segment request_end)
             end
         end) with
  | Err e => Some (Err e, None, 0, [])
  | Ok stream =>
      '(r, stream, forwarded, cmds) ← primary_loop (primary_fuel stream) 0 stream 0;
      Some (r, Some stream, forwarded, cmds)
  end.
End Primary.

(** ** Properties *)

(** What the buffer and the frames up to the first failure hold. *)
Fixpoint frames (body : list (result bytes DownloadError)) : bytes :=
  match body with
  | Ok data :: body => data ++ frames body
  | _ => []
  end.

Definition pending (stream : RequestStream) : bytes := rs_buffered stream ++ frames (rs_body stream).

(** The stream of a request for [req_start, req_end) has been consumed up to [pos]. *)
Record StreamAt (req_start req_end pos : Z) (stream : RequestStream) : Prop := {
  sa_consumed : rs_consumed stream = pos - req_start;
  sa_expected : rs_expected stream = req_end - req_start;
  sa_wire : rs_wire stream = rs_consumed stream + blen (rs_buffered stream);
  sa_bound : rs_wire stream <= rs_expected stream;
}.

Lemma Chunked_app m key offset d1 c1 d2 c2 :
  Chunked m key offset d1 c1 -> Chunked m key (offset + blen d1) d2 c2 -> Chunked m key offset (d1 ++ d2) (c1 ++ c2).
Proof.
  revert offset d1. induction c1 as [|[|o d p k| | |] c1 IH]; intros offset d1 H1 H2; simpl in *; try done.
  - subst d1. unfold blen in H2. simpl in H2. by rewrite Z.add_0_r in H2.
  - destruct H1 as (-> & -> & -> & [Hl1 Hl2] & rest & -> & H1). split_and!; try done.
    exists (rest ++ d2). rewrite <- app_assoc. split; [done|]. apply IH; [done|].
    by rewrite blen_app, Z.add_assoc in H2.
Qed.

(** Reading a frame changes neither the position nor what is pending. *)
Lemma refill_spec req_start req_end pos stream :
  req_end - req_start < u64_max -> StreamAt req_start req_end pos stream ->
  match refill stream with
  | Finished r stream' =>
      r = Ok tt -> stream' = stream /\ pending stream = [] /\ pos = req_end
  | Filled stream' =>
      StreamAt req_start req_end pos stream' /\ pending stream' = pending stream /\
      (primary_fuel stream' <= primary_fuel stream)%nat /\
      (rs_buffered stream' = [] -> primary_fuel stream' < primary_fuel stream)%nat
  end.
Proof.
  intros Hu [Hc He Hw Hb]. unfold refill, pending, primary_fuel. case_bool_decide as Hbuf; cbn [negb].
  2: { by split_and!. }
  rewrite Hbuf in Hw |- *. change (blen []) with 0 in Hw.
  destruct (rs_body stream) as [|[data|e] body] eqn:Ebody; [| |done].
  - destruct (Z.eqb_spec (rs_wire stream) (rs_expected stream)); cbn [negb]; [|done]. intros _. split_and!; [done..|lia].
  - destruct (Z.ltb_spec (rs_expected stream) (sat_add64 (rs_wire stream) (blen data))); [done|].
    unfold sat_add64 in *. rewrite Z.min_l in * by lia. split_and!; simpl; [split; simpl; lia|done|lia|].
    intros ->. simpl. lia.
Qed.

Lemma forward_spec mb data offset key selected :
  (1 <= max_chunk mb)%nat -> 0 <= offset -> offset + blen data <= u64_max ->
  exists r cmds taken rest, forward mb data offset key selected = Some (r, cmds, blen taken) /\
    data = taken ++ rest /\ Chunked (max_chunk mb) key offset taken cmds /\ (r = Ok tt -> rest = []).
Proof.
  intros Hm H0 Hu.
  destruct (forward_loop_spec (length data) mb data offset key selected 0)
    as (r & cmds & n & E & taken & rest & Hd & -> & Hch & Hr & _); [done|lia|done|done|].
  by exists r, cmds, taken, rest.
Qed.

Section PrimaryProps.
  Context (mb : MemoryBudget) (segment : Segment) (req_start req_end : Z).
  Context (selected : nat -> list Selected) (stop : nat -> StopSignal).
  Context (Hchunk : (1 <= max_chunk mb)%nat).
  Context (Hgeometry : 0 <= req_start <= seg_start segment /\ seg_start segment < seg_end segment <= req_end /\ req_end < u64_max).

(** What a call leaves: the commands carry the next bytes of the stream, no more
    than the segment, and all of it on success. *)
Definition Delivered (stream : RequestStream) (forwarded : Z) (out : result unit DownloadError * RequestStream * Z * list WriterCommand) : Prop :=
  let '(r, stream', forwarded', cmds) := out in
  exists taken, taken `prefix_of` pending stream /\ forwarded' = forwarded + blen taken /\
    forwarded' <= seg_end segment - seg_start segment /\
    Chunked (max_chunk mb) (Some (lease_key segment)) (seg_start segment + forwarded) taken cmds /\
    (r = Ok tt -> forwarded' = seg_end segment - seg_start segment /\
       pending stream = taken ++ pending stream' /\ StreamAt req_start req_end (seg_end segment) stream').

Lemma Delivered_nothing stream forwarded r stream' :
  forwarded <= seg_end segment - seg_start segment ->
  (r = Ok tt -> forwarded = seg_end segment - seg_start segment /\
       pending stream = pending stream' /\ StreamAt req_start req_end (seg_end segment) stream') ->
  Delivered stream forwarded (r, stream', forwarded, []).
Proof.
  intros Hf Hr. exists []. split_and!; try done; [apply prefix_nil|unfold blen; simpl; lia].
Qed.

(** [stream] after the first [n] bytes of its buffer have been forwarded. *)
Definition advance (n : nat) (sent : Z) (stream : RequestStream) : RequestStream :=
  mkStream (rs_body stream) (drop n (rs_buffered stream)) (rs_wire stream) (rs_expected stream)
    (rs_consumed stream ⊕ sent).

Lemma advance_spec n pos stream :
  (1 <= n <= length (rs_buffered stream))%nat -> req_start <= pos -> StreamAt req_start req_end pos stream ->
  let stream' := advance n (Z.of_nat n) stream in
  StreamAt req_start req_end (pos + Z.of_nat n) stream' /\
  pending stream = take n (rs_buffered stream) ++ pending stream' /\ (primary_fuel stream' < primary_fuel stream)%nat.
Proof.
  intros Hn Hpos [Hc He Hw Hb]. unfold pending, primary_fuel, advance, blen in *. split_and!.
  - split; simpl; unfold blen; rewrite ?length_drop, ?u64_add_exact by (unfold u64_max in *; lia); lia.
  - simpl. by rewrite app_assoc, take_drop.
  - simpl. rewrite length_drop. lia.
Qed.

(** Commands already sent, then those of the rest of the call. *)
Lemma Delivered_app stream stream' forwarded taken cmds out :
  pending stream = taken ++ pending stream' ->
  Chunked (max_chunk mb) (Some (lease_key segment)) (seg_start segment + forwarded) taken cmds ->
  Delivered stream' (forwarded + blen taken) out ->
  let '(r, st, f, more) := out in Delivered stream forwarded (r, st, f, cmds ++ more).
Proof.
  destruct out as [[[r st] f] more]. intros Hp Hch (taken' & Hpre & -> & Hle & Hch' & Hok). exists (taken ++ taken').
  split_and!.
  - rewrite Hp. by apply prefix_app.
  - rewrite blen_app. lia.
  - lia.
  - apply Chunked_app; [done|]. by rewrite Z.add_assoc in Hch'.
  - intros Hr. destruct (Hok Hr) as (Hf & Hp' & SA). split_and!; [done| |done]. by rewrite Hp, Hp', app_assoc.
Qed.

Lemma primary_loop_spec fuel i stream forwarded :
  StreamAt req_start req_end (seg_start segment + forwarded) stream ->
  0 <= forwarded <= seg_end segment - seg_start segment -> (primary_fuel stream <= fuel)%nat ->
  exists out, primary_loop mb segment req_end selected stop fuel i stream forwarded = Some out /\
    Delivered stream forwarded out.
Proof.
  revert i stream forwarded. induction fuel as [|fuel IH]; intros i stream forwarded SA Hf Hfuel.
  { unfold primary_fuel in Hfuel. lia. }
  cbn [primary_loop]. rewrite (u64_sub_exact (seg_end segment)) by (unfold u64_max in *; lia).
  destruct ((forwarded =? _) && _) eqn:Edone.
  { apply andb_true_iff in Edone as [->%Z.eqb_eq _]. eexists. split; [done|].
    apply Delivered_nothing; [done|]. intros _. split_and!; try done.
    by replace (seg_end segment) with (seg_start segment + (seg_end segment - seg_start segment)) by lia. }
  pose proof (refill_spec req_start req_end _ stream ltac:(lia) SA) as HR.
  destruct (refill stream) as [r stream'|stream'].
  { eexists. split; [done|]. apply Delivered_nothing; [lia|]. intros ->.
    destruct (HR eq_refl) as (-> & Hp & Hpos). split_and!; [lia|done|].
    by replace (seg_end segment) with (seg_start segment + forwarded) by lia. }
  destruct HR as (SA' & Hp & Hle & Hlt). case_bool_decide as Hbuf.
  { destruct (IH (S i) stream' forwarded SA' Hf) as (out & E & D); [specialize (Hlt Hbuf); lia|].
    exists out. split; [done|]. unfold Delivered in *. destruct out as [[[? ?] ?] ?]. by rewrite Hp in D. }
  rewrite (u64_sub_exact (_ - _)) by (unfold u64_max in *; lia).
  set (n := Nat.min _ _). case_bool_decide as Hn.
  { eexists. split; [done|]. by apply Delivered_nothing; [lia|]. }
  assert ((1 <= n <= length (rs_buffered stream'))%nat /\ Z.of_nat n <= seg_end segment - seg_start segment - forwarded)
    as [Hn1 Hn2] by lia.
  assert (length (take n (rs_buffered stream')) = n) as Ht by (rewrite length_take; lia).
  rewrite (u64_add_exact (seg_start segment)) by (unfold u64_max in *; lia).
  destruct (forward_spec mb (take n (rs_buffered stream')) (seg_start segment + forwarded)
    (Some (lease_key segment)) (selected i)) as (r & cmds & taken & rest & -> & Htk & Hch & Hr);
    [done|lia|unfold blen; rewrite Ht; lia|].
  assert (blen taken <= Z.of_nat n) as Hb by (unfold blen; rewrite <- Ht, Htk, length_app; lia).
  simpl. rewrite (u64_add_exact forwarded) by (unfold blen, u64_max in *; lia).
  assert (forall e st, Delivered stream forwarded (Err e, st, forwarded + blen taken, cmds)) as Hfail.
  { intros e st. exists taken. split_and!; try done; [|lia]. rewrite <- Hp.
    exists (rest ++ drop n (rs_buffered stream') ++ frames (rs_body stream')). unfold pending.
    by rewrite !app_assoc, <- Htk, take_drop. }
  destruct r as [[]|e]; [|by eexists]. rewrite (Hr eq_refl), app_nil_r in Htk. subst taken.
  destruct (stop_signal_error (stop i)) as [e|]; [by eexists|].
  assert (blen (take n (rs_buffered stream')) = Z.of_nat n) as Hbn by (unfold blen; by rewrite Ht). rewrite Hbn in *.
  destruct (advance_spec n (seg_start segment + forwarded) stream' Hn1 ltac:(lia) SA') as (SA2 & Hp2 & Hlt2). fold (advance n (Z.of_nat n) stream').
  destruct (IH (S i) (advance n (Z.of_nat n) stream') (forwarded + Z.of_nat n)) as (out & E & D);
    [by rewrite Z.add_assoc|lia|lia|].
  rewrite E. destruct out as [[[r st] f] more]. simpl. eexists. split; [done|].
  apply (Delivered_app stream (advance n (Z.of_nat n) stream') forwarded (take n (rs_buffered stream')) cmds (r, st, f, more));
    [by rewrite <- Hp|done|by rewrite Hbn].
Qed.

(** What is left to consume of the stream of a call. *)
Definition supply (body : list (result bytes DownloadError)) (stream : option RequestStream) : bytes :=
  match stream with Some stream => pending stream | None => frames body end.

Lemma primary_spec validator require_validator total response body stream :
  (stream = None -> req_start = seg_start segment) ->
  (forall st, stream = Some st -> StreamAt req_start req_end (seg_start segment) st) ->
  exists r stream' forwarded cmds taken,
    primary mb segment req_end selected stop validator require_validator total response body stream
      = Some (r, stream', forwarded, cmds) /\
    taken `prefix_of` supply body stream /\ forwarded = blen taken /\ forwarded <= seg_end segment - seg_start segment /\
    Chunked (max_chunk mb) (Some (lease_key segment)) (seg_start segment) taken cmds /\
    (r = Ok tt -> forwarded = seg_end segment - seg_start segment /\
       (stream = None -> checked_response validator require_validator segment total response req_end = Ok tt) /\
       exists st, stream' = Some st /\ supply body stream = taken ++ pending st /\
         StreamAt req_start req_end (seg_end segment) st).
Proof.
  intros Hnew Hold. unfold primary, supply.
  assert (forall st, StreamAt req_start req_end (seg_start segment) st ->
    exists r st' f cmds taken, primary_loop mb segment req_end selected stop (primary_fuel st) 0 st 0 = Some (r, st', f, cmds) /\
      taken `prefix_of` pending st /\ f = blen taken /\ f <= seg_end segment - seg_start segment /\
      Chunked (max_chunk mb) (Some (lease_key segment)) (seg_start segment) taken cmds /\
      (r = Ok tt -> f = seg_end segment - seg_start segment /\ pending st = taken ++ pending st' /\
         StreamAt req_start req_end (seg_end segment) st')) as Hloop.
  { intros st SA. destruct (primary_loop_spec (primary_fuel st) 0 st 0) as ([[[r st'] f] cmds] & E & taken & D);
      [by rewrite Z.add_0_r|lia|done|]. rewrite Z.add_0_r in D. by exists r, st', f, cmds, taken. }
  destruct stream as [st|].
  - destruct (Hloop st (Hold st eq_refl)) as (r & st' & f & cmds & taken & -> & H1 & H2 & H3 & H4 & Hok).
    exists r, (Some st'), f, cmds, taken. split_and!; try done. intros Hr. destruct (Hok Hr) as (? & ? & ?).
    split_and!; [done|done|]. by exists st'.
  - destruct (checked_response _ _ _ _ _ _) as [[]|failure] eqn:Ec.
    2: { exists (Err (failure_error failure)), None, 0, [], []. split_and!; try done; [apply prefix_nil|lia]. }
    destruct (Hloop (stream_new body segment req_end)) as (r & st' & f & cmds & taken & -> & H1 & H2 & H3 & H4 & Hok).
    { specialize (Hnew eq_refl). unfold stream_new. rewrite u64_sub_exact by (unfold u64_max in *; lia).
      split; unfold blen; simpl; lia. }
    exists r, (Some st'), f, cmds, taken. split_and!; try done. intros Hr. destruct (Hok Hr) as (? & ? & ?).
    split_and!; [done|done|]. by exists st'.
Qed.
(** C19: a request's body reaches the writer piece by piece, whole and in order.
    A call of [primary] always ends.  The commands it puts on the channel carry
    consecutive chunks, for this lease and from the segment's first byte on, of
    what the body had next, and never more than the segment.  When it succeeds
    the segment has been forwarded completely, the rest of the body stays in
    the stream for the next piece, and a new stream's response was validated;
    in particular the last piece only succeeds when the body ended exactly
    where the request does. *)
Theorem primary_forwards_segment validator require_validator total response body stream :
  (stream = None -> req_start = seg_start segment) ->
  (forall st, stream = Some st -> StreamAt req_start req_end (seg_start segment) st) ->
  exists r stream' forwarded cmds taken,
    primary mb segment req_end selected stop validator require_validator total response body stream
      = Some (r, stream', forwarded, cmds) /\
    taken `prefix_of` supply body stream /\ forwarded = blen taken /\ forwarded <= seg_end segment - seg_start segment /\
    Chunked (max_chunk mb) (Some (lease_key segment)) (seg_start segment) taken cmds /\
    (r = Ok tt -> forwarded = seg_end segment - seg_start segment /\
       (stream = None -> checked_response validator require_validator segment total response req_end = Ok tt) /\
       exists st, stream' = Some st /\ supply body stream = taken ++ pending st /\
         StreamAt req_start req_end (seg_end segment) st).
Proof. exact (primary_spec validator require_validator total response body stream). Qed.
End PrimaryProps.

(** The second piece of a request for the bytes 100 to 108: two of its bytes are
    already in the buffer. *)
Definition demo_segment : Segment := mkSegment 1 3 104 108 0 1.

Definition demo_stream : RequestStream := mkStream [Ok []; Ok [3; 4]] [1; 2] 6 8 4.

Lemma primary_forwards_segment_witness :
  primary (MemoryBudget_new 3) demo_segment 108 (fun _ => []) (fun _ => Running) None false 0 (Err Cancelled) [] (Some demo_stream)
    = Some (Ok tt, Some (mkStream [] [] 8 8 8), 4,
            [Data 104 [1; 2] (Some 2%nat) (Some (mkKey 1 3)); Data 106 [3; 4] (Some 2%nat) (Some (mkKey 1 3))]) /\
  StreamAt 100 108 108 (mkStream [] [] 8 8 8).
Proof.
  destruct (primary_forwards_segment (MemoryBudget_new 3) demo_segment 100 108 (fun _ => []) (fun _ => Running)
    ltac:(vm_compute; lia) ltac:(unfold u64_max; simpl; lia) None false 0 (Err Cancelled) [] (Some demo_stream))
    as (r & stream' & f & cmds & taken & E & _ & _ & _ & _ & Hok).
  - done.
  - intros st [= <-]. split; vm_compute; congruence.
  - vm_compute in E. injection E as <- <- <- <-. destruct (Hok eq_refl) as (_ & _ & st & [= <-] & _ & SA).
    split; [by vm_compute|exact SA].
Defined.
