(* ===== verification/Hedge.v ===== *)
(** * Staged challengers ([stage] and [Staged::copy_to] of [src/session/multi/worker.rs])

    A challenger downloads the rest of a slow segment into a temporary file; the
    winner's file is copied to the writer under a renewed lease. *)

From S2P Require Import Prelude RustStr Errors Segment Cache Writer WriterInv WriterProps WriterRun Flow Retry Response RangeValidate Control Resume Request.

(** ** Staging *)

(** What [stage] meets while it writes one frame into the temporary file: the
    semaphore is closed or the write fails. *)
Abbreviation Spool := (option DownloadError).

(** The body loop of [stage].  The result and the cost charged to the
    reservation; [wire] bytes have come so far and are in [file]. *)
Fixpoint stage_loop (len : Z) (body : list (result bytes DownloadError)) (spool : list Spool) (wire : Z) (file : bytes)
    : result bytes DownloadError * Z :=
  match body with
  | [] => (if negb (wire =? len) then Err (Transport Body (str "challenger body ended early")) else Ok file, wire)
  | Err e :: _ => (Err e, wire)
  | Ok data :: body =>
      let wire := sat_add64 wire (blen data) in
      if len <? wire then (Err (ResumeMismatch (str "challenger overran its range")), wire)
      else
        match default None (head spool) with
        | Some e => (Err e, wire)
        | None => stage_loop len body (tail spool) wire (file ++ data)
        end
  end.

(** [stage].  [created]: the temporary file; [framed_length] and
    [transfer_encoding]: the headers that bound the body; [flushed]: the final
    [flush]. *)
Definition stage (validator : option rstr) (require_validator : bool) (segment : Segment) (total : Z)
    (created : result unit IoErrorKind) (response : ProbeResult) (framed_length : option Z) (transfer_encoding : bool)
    (body : list (result bytes DownloadError)) (spool : list Spool) (flushed : result unit IoErrorKind)
    : result bytes CandidateFailure * Z :=
  let len := seg_end segment ⊖ seg_start segment in
  match created with
  | Err kind => (Err (candidate_failure (Io kind)), 0)
  | Ok _ =>
      match checked_response validator require_validator segment total response (seg_end segment) with
      | Err failure => (Err failure, 0)
      | Ok _ =>
          if negb (bool_decide (framed_length = Some len)) || transfer_encoding then
            (Err (candidate_failure (ResumeMismatch
               (str "challenger requires an exact Content-Length for its extra-byte bound"))), 0)
          else
            match stage_loop len body spool 0 [] with
            | (Err e, cost) => (Err (candidate_failure e), cost)
            | (Ok file, cost) =>
                match flushed with
                | Err kind => (Err (candidate_failure (Io kind)), cost)
                | Ok _ => (Ok file, cost)
                end
            end
      end
  end.

(** ** Copying the winner *)

(** The loop of [copy_to]; a branch of the [select!] per iteration.  [SendFailed]
    covers the semaphore, the channel and [read_exact]. *)
Fixpoint copy_loop (fuel : nat) (mb : MemoryBudget) (segment : Segment) (file : bytes) (offset : Z) (selected : list Selected)
    : option (result unit DownloadError * list WriterCommand) :=
  if seg_end segment <=? offset then Some (Ok tt, [])
  else
    match fuel with
    | O => None
    | S fuel =>
        let len := Z.to_nat (Z.min (seg_end segment ⊖ offset) (Z.min (Z.of_nat (max_chunk mb)) (64 * 1024))) in
        match default Sent (head selected) with
        | Stopped e | SendFailed e => Some (Err e, [])
        | WriterClosed => Some (Err ChannelClosed, [])
        | Sent =>
            if bool_decide (length file < len)%nat then Some (Err (Io UnexpectedEof), [])
            else
              '(r, cmds) ← copy_loop fuel mb segment (drop len file) (offset ⊕ Z.of_nat len) (tail selected);
              Some (r, Data offset (take len file) (Some len) (Some (lease_key segment)) :: cmds)
        end
    end.

Definition copy_to (mb : MemoryBudget) (segment : Segment) (file : bytes) (selected : list Selected)
    : option (result unit DownloadError * list WriterCommand) :=
  copy_loop (length file + 1) mb segment file (seg_start segment) selected.

(** ** Properties *)

Lemma stage_loop_spec len body spool wire file r cost :
  0 <= wire <= len -> len < u64_max -> wire = blen file -> stage_loop len body spool wire file = (r, cost) ->
  wire <= cost /\
  match r with
  | Ok staged => cost = len /\ blen staged = len /\ staged = file ++ frames body
  | Err e => cost <= len \/ e = ResumeMismatch (str "challenger overran its range")
  end.
Proof.
  revert spool wire file. induction body as [|[data|e] body IH]; intros spool wire file Hw Hl -> E; simpl in E.
  - destruct (Z.eqb_spec (blen file) len); injection E as <- <-; [by rewrite app_nil_r|split; [lia|by left; lia]].
  - pose proof (Zle_0_nat (length data)). unfold sat_add64 in E. fold (blen data) in *.
    destruct (Z.ltb_spec len (Z.min (blen file + blen data) u64_max)).
    { injection E as <- <-. split; [unfold blen in *; lia|by right]. }
    rewrite Z.min_l in * by lia. destruct (default None (head spool)) as [e|].
    { injection E as <- <-. split; [unfold blen in *; lia|by left]. }
    apply IH in E as [Hc Hr]; [|unfold blen in *; lia|done|by rewrite blen_app]. split; [unfold blen in *; lia|].
    destruct r; [by rewrite <- app_assoc in Hr|done].
  - injection E as <- <-. split; [lia|by left; lia].
Qed.

Lemma copy_loop_spec fuel mb segment file offset selected :
  (1 <= max_chunk mb)%nat -> 0 <= offset <= seg_end segment -> seg_end segment <= u64_max ->
  blen file = seg_end segment - offset -> (length file < fuel)%nat ->
  exists r cmds taken, copy_loop fuel mb segment file offset selected = Some (r, cmds) /\
    taken `prefix_of` file /\ Chunked (max_chunk mb) (Some (lease_key segment)) offset taken cmds /\
    (r = Ok tt -> taken = file).
Proof.
  intros Hm. revert file offset selected. induction fuel as [|fuel IH]; intros file offset selected Ho Hu Hf Hfuel; [lia|].
  cbn [copy_loop]. assert (forall e, exists (r : result unit DownloadError) cmds taken, Some (Err e, []) = Some (r, cmds) /\
    taken `prefix_of` file /\ Chunked (max_chunk mb) (Some (lease_key segment)) offset taken cmds /\
    (r = Ok tt -> taken = file)) as Hfail.
  { intros e. exists (Err e), [], []. split_and!; [done|apply prefix_nil|done|done]. }
  destruct (Z.leb_spec (seg_end segment) offset).
  { exists (Ok tt), [], []. split_and!; [done|apply prefix_nil|done|]. intros _. unfold blen in Hf.
    destruct file; [done|simpl in Hf; lia]. }
  rewrite u64_sub_exact by (unfold u64_max in *; lia). set (len := Z.to_nat _).
  assert (1 <= len <= max_chunk mb /\ len <= length file)%nat as [Hl Hl'] by (unfold blen in *; lia).
  destruct (default Sent (head selected)) as [|e| |e]; [|apply Hfail..].
  rewrite bool_decide_false by lia. rewrite u64_add_exact by (unfold blen, u64_max in *; lia).
  assert (length (take len file) = len) as Ht by (rewrite length_take; lia).
  destruct (IH (drop len file) (offset + Z.of_nat len) (tail selected)) as (r & cmds & taken & E & Hp & Hch & Hok);
    [unfold blen in *; lia|done|unfold blen in *; rewrite length_drop; lia|rewrite length_drop; lia|].
  rewrite E. simpl. eexists r, _, (take len file ++ taken). split_and!; [done| | |].
  - rewrite <- (take_drop len file) at 2. by apply prefix_app.
  - simpl. rewrite Ht. split_and!; try done; [lia|lia|]. exists taken. unfold blen. by rewrite Ht.
  - intros Hr. by rewrite (Hok Hr), take_drop.
Qed.

Lemma staged_spec mb segment validator require_validator total created response framed te body spool flushed selected :
  (1 <= max_chunk mb)%nat -> 0 <= seg_start segment < seg_end segment -> seg_end segment < u64_max ->
  match stage validator require_validator segment total created response framed te body spool flushed with
  | (Ok file, cost) =>
      file = frames body /\ cost = seg_end segment - seg_start segment /\ blen file = cost /\
      checked_response validator require_validator segment total response (seg_end segment) = Ok tt /\
      exists r cmds taken, copy_to mb segment file selected = Some (r, cmds) /\ taken `prefix_of` file /\
        Chunked (max_chunk mb) (Some (lease_key segment)) (seg_start segment) taken cmds /\ (r = Ok tt -> taken = file)
  | (Err failure, cost) =>
      0 <= cost /\ (cost <= seg_end segment - seg_start segment \/
                    failure_error failure = ResumeMismatch (str "challenger overran its range"))
  end.
Proof.
  intros Hm Hs He. unfold stage. rewrite u64_sub_exact by (unfold u64_max in *; lia).
  destruct created as [[]|kind]; [|simpl; lia]. destruct (checked_response _ _ _ _ _ _) as [[]|failure]; [|simpl; lia].
  destruct (negb _ || te); [simpl; lia|].
  destruct (stage_loop _ body spool 0 []) as [r cost] eqn:E.
  apply stage_loop_spec in E as [H0 Hr]; [|lia|lia|done]. destruct r as [file|e].
  - destruct Hr as (-> & Hb & Hfile). destruct flushed; [|simpl; lia]. split_and!; try done.
    apply copy_loop_spec; try done; lia.
  - simpl. split; [lia|]. by destruct Hr as [?| ->]; [left|right].
Qed.

(** A challenger's bytes are exactly the segment's.  A staged file that is
    accepted holds the whole body of a validated response for the segment and
    nothing else, its cost is the segment's length, and a failure costs at most
    that unless the server overran the declared length.  Copying the winner
    always ends and sends the file's bytes in order under the segment's lease,
    all of them when it succeeds. *)
Theorem staged_winner_exact mb segment validator require_validator total created response framed te body spool flushed selected :
  (1 <= max_chunk mb)%nat -> 0 <= seg_start segment < seg_end segment -> seg_end segment < u64_max ->
  match stage validator require_validator segment total created response framed te body spool flushed with
  | (Ok file, cost) =>
      file = frames body /\ cost = seg_end segment - seg_start segment /\ blen file = cost /\
      checked_response validator require_validator segment total response (seg_end segment) = Ok tt /\
      exists r cmds taken, copy_to mb segment file selected = Some (r, cmds) /\ taken `prefix_of` file /\
        Chunked (max_chunk mb) (Some (lease_key segment)) (seg_start segment) taken cmds /\ (r = Ok tt -> taken = file)
  | (Err failure, cost) =>
      0 <= cost /\ (cost <= seg_end segment - seg_start segment \/
                    failure_error failure = ResumeMismatch (str "challenger overran its range"))
  end.
Proof. apply staged_spec. Qed.

Lemma staged_winner_exact_witness :
  let segment := mkSegment 0 4 10 13 0 1 in
  let answer := Ok (206, None, mkMeta None (Some 10) (Some 12) (Some 20) true None None None None) in
  stage None false segment 20 (Ok tt) answer (Some 3) false [Ok [7]; Ok [8; 9]] [] (Ok tt) = (Ok [7; 8; 9], 3) /\
  exists r cmds taken, copy_to (MemoryBudget_new 3) segment [7; 8; 9] [] = Some (r, cmds) /\ taken `prefix_of` [7; 8; 9] /\
    Chunked 2 (Some (mkKey 0 4)) 10 taken cmds.
Proof.
  intros segment answer.
  pose proof (staged_winner_exact (MemoryBudget_new 3) segment None false 20 (Ok tt) answer (Some 3) false
    [Ok [7]; Ok [8; 9]] [] (Ok tt) [] ltac:(vm_compute; lia) ltac:(simpl; lia) ltac:(unfold u64_max; simpl; lia)) as H.
  destruct (stage _ _ _ _ _ _ _ _ _ _ _) as [r cost] eqn:E. vm_compute in E. injection E as <- <-.
  destruct H as (_ & _ & _ & _ & r & cmds & taken & E & Hp & Hch & _).
  split; [done|]. by exists r, cmds, taken.
Defined.
