(* ===== verification/Workers.v ===== *)
(** * The workers of a session ([src/session/multi/worker.rs], [settle_prefix] of [src/session/multi.rs])

    Each worker takes requests from the scheduler, forwards their bodies to the
    writer piece by piece, and settles what it forwarded when an attempt is
    interrupted.  The workers, the writer's channel, the writer and the
    checkpoints run interleaved; every step is one critical section, one send or
    one command handled. *)

From S2P Require Import Prelude RustStr Errors PieceMap Ranges Segment Scheduler SchedInv SchedSpec Planner Reserve Assign Dynamic SchedProps Cache Writer WriterInv WriterProps WriterRun Flow Retry Response RangeValidate Control Resume Checkpoint Request Hedge.

(** ** One worker *)

(** The local state of [worker_loop] for the request it works on: the lease
    being filled, the reserved leases behind it, [request_end] and the open body.
    [job_start] is where the body's request began. *)
Record Job := mkJob {
  job_segment : Segment;
  job_queued : list Segment;
  job_start : Z;
  job_end : Z;
  job_stream : option RequestStream;
}.

Definition job_key (job : Job) : LeaseKey := lease_key (job_segment job).

(** A new request for the segments of an assignment. *)
Definition job_of (first : Segment) (rest : list Segment) : Job :=
  mkJob first rest (seg_start first) (match last rest with Some g => seg_end g | None => seg_end first end) None.

(** What follows once the writer has acknowledged the end of an interrupted
    attempt: [Outcome::Recover], a retry, [Outcome::Staged], or a stop. *)
Inductive AfterSettle :=
| ToRecover
| ToRetry
| ToStaged (file : bytes)
| ToStop (error : DownloadError).

(** Where a worker is.  [Attempting]: the lease has begun and the commands [todo]
    of this attempt are still to be sent; [r] and [next] are how the attempt ends
    when it is not interrupted. *)
Inductive Worker :=
| Idle
| Ready (job : Job)
| Attempting (job : Job) (forwarded : Z) (todo : list WriterCommand) (r : result unit DownloadError)
    (next : option RequestStream)
| Completing (job : Job) (next : option RequestStream) (stale : rstr)
| Settling (job : Job) (forwarded : Z) (retain : bool) (outcome : AfterSettle)
| Waiting (job : Job)
| ReadyStaged (segment : Segment) (file : bytes)
| Copying (segment : Segment) (todo : list WriterCommand) (r : result unit DownloadError)
| Exited (r : result unit DownloadError).

(** The arm of [Outcome::Complete] after the writer's acknowledgement. *)
Definition finish_lease (job : Job) (next : option RequestStream) (stale : rstr) (s : SchedulerState)
    : Worker * SchedulerState :=
  match complete (job_key job) s with
  | (false, s) => (Exited (Err (Internal stale)), s)
  | (true, s) =>
      (match job_queued job with
       | segment :: queued => Ready (mkJob segment queued (job_start job) (job_end job) next)
       | [] => Idle
       end, s)
  end.

(** When the forwarded prefix of an interrupted attempt is kept. *)
Definition retains (validator : option rstr) (forwarded : Z) (segment : Segment) (outcome : AfterSettle) : bool :=
  match validator with Some _ => true | None => false end &&
  (0 <? forwarded) && (forwarded <? seg_end segment ⊖ seg_start segment) &&
  match outcome with ToRecover | ToRetry => true | _ => false end.

Definition with_start (start : Z) (g : Segment) : Segment :=
  mkSegment (seg_piece_id g) (seg_lease_id g) start (seg_end g) (owner_worker_id g) (attempt g).

(** [settle_prefix] after the writer's acknowledgement. *)
Definition settle_prefix (segment : Segment) (forwarded : Z) (retain : bool) (s : SchedulerState)
    : result Segment DownloadError * SchedulerState :=
  if retain then
    let end_ := seg_start segment ⊕ forwarded in
    match retain_prefix (lease_key segment) end_ s with
    | (true, s) => (Ok (with_start end_ segment), s)
    | (false, s) => (Err (Internal (str "stale prefix handoff")), s)
    end
  else (Ok segment, s).

(** The reclaims of [recover_segments]. *)
Definition reclaim_all (segments : list Segment) (s : SchedulerState) : SchedulerState :=
  fold_left (fun s g => snd (reclaim (lease_key g) s)) segments s.

(** The arms after [settle_prefix]: all of the request is given back; the rest of
    the request is given back and the lease renewed, for a retry or for the
    staged winner; or the session stops. *)
Definition after_settle (worker_id : nat) (outcome : AfterSettle) (segment : Segment) (queued : list Segment)
    (s : SchedulerState) : Worker * SchedulerState :=
  match outcome with
  | ToRecover => (Idle, reclaim_all (segment :: queued) s)
  | ToRetry =>
      match renew (lease_key segment) worker_id (reclaim_all queued s) with
      | (Some g, s) => (Waiting (job_of g []), s)
      | (None, s) => (Exited (Err (Internal (str "cannot renew adaptive retry lease"))), s)
      end
  | ToStaged file =>
      match renew (lease_key segment) worker_id (reclaim_all queued s) with
      | (Some g, s) => (ReadyStaged g file, s)
      | (None, s) => (Exited (Err (Internal (str "cannot renew hedge winner lease"))), s)
      end
  | ToStop error => (Exited (Err error), stop_and_reclaim (lease_key segment) s)
  end.

(** The whole handling of an interrupted attempt that the writer has acknowledged.  The
    code takes the lock of the scheduler once for the prefix, once per lease it gives back
    and once for the renewal, without awaiting in between; here they are one step.  Each
    touches only leases of this worker, which no other worker's step looks at or changes,
    so what another worker could do in between it can do before or after as well. *)
Definition settle (worker_id : nat) (job : Job) (forwarded : Z) (retain : bool) (outcome : AfterSettle)
    (s : SchedulerState) : Worker * SchedulerState :=
  match settle_prefix (job_segment job) forwarded retain s with
  | (Err error, s) => (Exited (Err error), snd (reclaim (job_key job) s))
  | (Ok segment, s) => after_settle worker_id outcome segment (job_queued job) s
  end.

(** ** The session *)

(** [ms_acks]: the leases whose [FlushLease] or [DiscardLease] has been
    acknowledged. *)
Record Session := mkSession {
  ms_world : World;
  ms_queue : list WriterCommand;
  ms_workers : gmap nat Worker;
  ms_acks : gset LeaseKey;
}.

Definition set_sched (s : SchedulerState) (x : World) : World :=
  mkWorld s (w_writer x) (w_ledger x) (w_status x) (w_acked x) (w_fs x) (w_pending x).

(** The acknowledgement a handled command sends. *)
Definition acknowledges (cmd : WriterCommand) : gset LeaseKey :=
  match cmd with FlushLease k | DiscardLease k => {[ k ]} | _ => ∅ end.

Section Steps.
  Context `{RawBits} `{Codec} (ctx : SaveContext) (obj : Z -> Z) (mb : MemoryBudget).

(** The body of a validated response carries the object's bytes of its range. *)
Definition serves (segment : Segment) (req_end : Z) (body : list (result bytes DownloadError)) : Prop :=
  agrees obj (seg_start segment) (take (Z.to_nat (req_end - seg_start segment)) (frames body)).

(** An attempt: a call of [primary] with some server and some stop requests. *)
Definition attempt_runs (job : Job) (r : result unit DownloadError) (next : option RequestStream)
    (todo : list WriterCommand) : Prop :=
  exists selected stop validator require_validator total response body forwarded,
    primary mb (job_segment job) (job_end job) selected stop validator require_validator total response body (job_stream job)
      = Some (r, next, forwarded, todo) /\
    (job_stream job = None ->
     checked_response validator require_validator (job_segment job) total response (job_end job) = Ok tt ->
     serves (job_segment job) (job_end job) body).

(** A challenger that was staged completely. *)
Definition staged_as (segment : Segment) (file : bytes) : Prop :=
  exists validator require_validator total created response framed te body spool flushed cost,
    stage validator require_validator segment total created response framed te body spool flushed = (Ok file, cost) /\
    serves segment (seg_end segment) body.

(** One step of worker [i]: its new state, the scheduler's, and the commands it
    puts on the channel. *)
Inductive worker_step (i : nat) (acks : gset LeaseKey) :
    Worker -> SchedulerState -> Worker -> SchedulerState -> list WriterCommand -> Prop :=
(* the scheduler critical section of the outer loop *)
| w_assign s s' max_requests min occ mode batch dmin dmax allow diag shares a first rest :
    0 <= min ->
    assign_request_with_trace i max_requests min occ mode batch dmin dmax allow diag shares s = (Some a, s') ->
    segments a = first :: rest -> next_lease_id s' < u64_max ->
    worker_step i acks Idle s (Ready (job_of first rest)) s' []
| w_assign_none s s' max_requests min occ mode batch dmin dmax allow diag shares :
    0 <= min ->
    assign_request_with_trace i max_requests min occ mode batch dmin dmax allow diag shares s = (None, s') ->
    next_lease_id s' < u64_max ->
    worker_step i acks Idle s Idle s' []
| w_assign_recovery s s' planned first rest :
    assign_recovery_batch planned i s = (Some (first :: rest), s') -> next_lease_id s' < u64_max ->
    worker_step i acks Idle s (Ready (job_of first rest)) s' []
| w_assign_recovery_none s s' planned :
    assign_recovery_batch planned i s = (None, s') -> next_lease_id s' < u64_max ->
    worker_step i acks Idle s Idle s' []
(* [begin_lease_and_wait], then [run_attempt] *)
| w_begin s job r next todo :
    attempt_runs job r next todo ->
    worker_step i acks (Ready job) s (Attempting job 0 todo r next) s [BeginLease (job_key job)]
| w_send s job forwarded offset data permit key todo r next :
    worker_step i acks (Attempting job forwarded (Data offset data permit key :: todo) r next) s
      (Attempting job (forwarded + blen data) todo r next) s [Data offset data permit key]
(* [Outcome::Complete] *)
| w_finish s job forwarded next :
    worker_step i acks (Attempting job forwarded [] (Ok tt) next) s
      (Completing job next (str "stale adaptive completion")) s [FlushLease (job_key job)]
| w_complete s job next stale st s' :
    job_key job ∈ acks -> finish_lease job next stale s = (st, s') ->
    worker_step i acks (Completing job next stale) s st s' []
(* the other outcomes, at any moment of the attempt *)
| w_interrupt s job forwarded todo r next validator outcome :
    (forall file, outcome = ToStaged file -> staged_as (job_segment job) file) ->
    let retain := retains validator forwarded (job_segment job) outcome in
    worker_step i acks (Attempting job forwarded todo r next) s (Settling job forwarded retain outcome) s
      [if retain then FlushLease (job_key job) else DiscardLease (job_key job)]
| w_settled s job forwarded retain outcome st s' :
    job_key job ∈ acks -> settle i job forwarded retain outcome s = (st, s') -> next_lease_id s' < u64_max ->
    worker_step i acks (Settling job forwarded retain outcome) s st s' []
| w_settle_fails s job forwarded retain outcome e :
    worker_step i acks (Settling job forwarded retain outcome) s (Exited (Err e)) (snd (reclaim (job_key job) s)) []
(* the backoff of a retry, and a stop during it *)
| w_wake s job :
    worker_step i acks (Waiting job) s (Ready job) s []
| w_wait_stopped s job e :
    worker_step i acks (Waiting job) s (Exited (Err e)) (snd (reclaim (job_key job) s)) []
(* the staged winner is copied *)
| w_copy s g file selected r todo :
    copy_to mb g file selected = Some (r, todo) ->
    worker_step i acks (ReadyStaged g file) s (Copying g todo r) s [BeginLease (lease_key g)]
| w_copy_send s g offset data permit key todo r :
    worker_step i acks (Copying g (Data offset data permit key :: todo) r) s (Copying g todo r) s
      [Data offset data permit key]
| w_copied s g :
    worker_step i acks (Copying g [] (Ok tt)) s
      (Completing (job_of g []) None (str "stale hedge winner completion")) s [FlushLease (lease_key g)]
(* idle workers take over the unstarted rest of a request *)
| w_handoff s job forwarded todo r next :
    worker_step i acks (Attempting job forwarded todo r next) s
      (Attempting (mkJob (job_segment job) [] (job_start job) (job_end job) (job_stream job)) forwarded todo r next)
      (reclaim_all (job_queued job) s) []
(* all is done; or a stop request, a closed channel, an abort *)
| w_done s :
    all_done s = true -> worker_step i acks Idle s (Exited (Ok tt)) s []
| w_exit s st e :
    worker_step i acks st s (Exited (Err e)) s [].

Definition is_exited (st : Worker) : Prop := match st with Exited _ => True | _ => False end.

Inductive session_step : Session -> Session -> Prop :=
| ms_worker x q ws acks i st st' s' sent :
    ws !! i = Some st -> worker_step i acks st (w_sched x) st' s' sent ->
    (sent <> [] -> w_status x = Receiving) ->
    session_step (mkSession x q ws acks) (mkSession (set_sched s' x) (q ++ sent) (<[i := st']> ws) acks)
| ms_consume s w w' l a fs p cmd ack q ws acks :
    handle cmd w = (Ok ack, w') ->
    session_step (mkSession (mkWorld s w l Receiving a fs p) (cmd :: q) ws acks)
      (mkSession (mkWorld s w' (ledger_step l cmd) Receiving (ack_bytes cmd l a) fs (passed cmd p)) q ws
                 (acknowledges cmd ∪ acks))
| ms_consume_fails s w w' l a fs p cmd e q ws acks :
    handle cmd w = (Err e, w') ->
    session_step (mkSession (mkWorld s w l Receiving a fs p) (cmd :: q) ws acks)
      (mkSession (mkWorld s (dropped w') l Failed a fs p) [] ws acks)
(* the channel closes with its last sender *)
| ms_close s w w' l a fs p ws acks :
    map_Forall (fun _ st => is_exited st) ws -> (flush_all ;! sync_file) w = (Ok tt, w') ->
    session_step (mkSession (mkWorld s w l Receiving a fs p) [] ws acks)
      (mkSession (mkWorld s w' l ClosedOk a fs p) [] ws acks)
| ms_close_fails s w w' l a fs p ws acks e :
    map_Forall (fun _ st => is_exited st) ws -> (flush_all ;! sync_file) w = (Err e, w') ->
    session_step (mkSession (mkWorld s w l Receiving a fs p) [] ws acks)
      (mkSession (mkWorld s (dropped w') l Failed a fs p) [] ws acks)
(* [persist_multi_control_snapshot]: snapshot and barrier, then the save *)
| ms_freeze s w l o a fs snap h s' q ws acks :
    freeze ctx s = (snap, h, s') ->
    session_step (mkSession (mkWorld s w l o a fs None) q ws acks)
      (mkSession (mkWorld s' w l o a fs (Some (snap, h, match o with ClosedOk => true | _ => false end)))
                 (match o with Receiving => q ++ [FlushAll true] | _ => q end) ws acks)
| ms_save s w l o a fs fs' snap h r q ws acks :
    save_sync snap h (control_path (sc_output ctx)) fs = (r, fs') ->
    (forall payload, serialize_v2 snap h = Ok payload -> blen payload < 2 ^ 32) ->
    session_step (mkSession (mkWorld s w l o a fs (Some (snap, h, true))) q ws acks)
      (mkSession (mkWorld s w l o a fs' None) q ws acks)
| ms_abandon s w l o a fs p q ws acks :
    session_step (mkSession (mkWorld s w l o a fs p) q ws acks) (mkSession (mkWorld s w l o a fs None) q ws acks).

(** A session starts with [n] idle workers and an empty channel. *)
Definition session_start (x : World) (n : nat) : Session :=
  mkSession x [] (list_to_map ((fun i => (i, Idle)) <$> seq 0 n)) ∅.
End Steps.
