(* ===== verification/Owned.v ===== *)
(** * Ownership of leases

    [Owned s g]: the scheduler lends exactly the bytes of segment [g] to its
    lease.  Each scheduler operation keeps the ownership of the leases it is not
    called with; what it does to its own lease is stated operation by operation. *)

From S2P Require Import Prelude PieceMap Ranges Segment Scheduler SchedInv SchedSpec Planner Reserve Assign Dynamic SchedProps Workers.

Record Owned (s : SchedulerState) (g : Segment) : Prop := {
  ow_start : 0 <= seg_start g < seg_end g;
  ow_end : seg_end g <= total_of s;
  ow_id : seg_lease_id g < next_lease_id s;
  ow_bytes : forall b, 0 <= b < total_of s -> status s b = Leased (lease_key g) <-> seg_start g <= b < seg_end g;
}.

(** Lease identities are never reused. *)
Lemma leased_old s b k : Sched_wf s -> status s b = Leased k -> 0 <= b < total_of s /\ key_lease_id k < next_lease_id s.
Proof.
  intros W E. destruct (lease_range s k) as [r|] eqn:L; [|by apply (lease_range_None s k b) in L].
  pose proof (lease_range_status s k r W L) as (H1 & H2 & H3 & Hb). apply Hb, in_range_true in E.
  apply lease_range_Some in L as (p & Ep & L). destruct (sw_pieces _ W _ _ Ep) as (Hi & _ & Wp).
  pose proof (plo_phi s _ W Hi). apply (pw_active _ _ _ _ Wp) in L. lia.
Qed.

Lemma Owned_range s g : Sched_wf s -> Owned s g -> lease_range s (lease_key g) = Some (seg_range g).
Proof.
  intros W [H1 H2 H3 Hb]. destruct (lease_range s (lease_key g)) as [r|] eqn:L.
  - destruct (lease_range_status s _ r W L) as (R1 & R2 & R3 & HR).
    assert (forall b, 0 <= b < total_of s -> rstart r <= b < rend r <-> seg_start g <= b < seg_end g) as Heq.
    { intros b Hb'. rewrite <- (Hb b Hb'), HR, in_range_true. done. }
    pose proof (proj1 (HR (rstart r))) as _. assert (0 <= rstart r /\ rend r <= total_of s) as [].
    { pose proof (proj2 (HR (rstart r)) ltac:(apply in_range_true; lia)) as S1.
      pose proof (proj2 (HR (rend r - 1)) ltac:(apply in_range_true; lia)) as S2.
      apply leased_old in S1, S2; [lia|done|done]. }
    pose proof (Heq (seg_start g) ltac:(lia)). pose proof (Heq (seg_end g - 1) ltac:(lia)).
    pose proof (Heq (rstart r) ltac:(lia)). pose proof (Heq (rend r - 1) ltac:(lia)).
    f_equal. unfold seg_range. destruct r; simpl in *. f_equal; lia.
  - pose proof (proj2 (Hb (seg_start g) ltac:(lia)) ltac:(lia)) as S. by apply (lease_range_None s _ (seg_start g)) in L.
Qed.

(** An operation that moves the bytes of another lease. *)
Lemma Owned_move s s' k to g :
  total_of s' = total_of s -> next_lease_id s <= next_lease_id s' ->
  same_status (total_of s) (status s') (spec_move k to (status s)) ->
  lease_key g <> k -> to <> Leased (lease_key g) -> Owned s g -> Owned s' g.
Proof.
  intros Ht Hn Hs Hk Hto [H1 H2 H3 Hb]. split; [done|by rewrite Ht|lia|]. intros b. rewrite Ht. intros Hr.
  rewrite (Hs b Hr), <- (Hb b Hr). unfold spec_move. case_decide as E; [|done]. rewrite E. split; congruence.
Qed.

Lemma Owned_same s s' g :
  total_of s' = total_of s -> next_lease_id s <= next_lease_id s' ->
  same_status (total_of s) (status s') (status s) -> Owned s g -> Owned s' g.
Proof.
  intros Ht Hn Hs [H1 H2 H3 Hb]. split; [done|by rewrite Ht|lia|]. intros b. rewrite Ht. intros Hr.
  by rewrite (Hs b Hr), <- (Hb b Hr).
Qed.

Lemma same_map_total s s' : piece_map s' = piece_map s -> total_of s' = total_of s.
Proof. intros E. unfold total_of. by rewrite E. Qed.

(** Reserving new leases keeps the old ones and owns the new ones. *)
Lemma Owned_reserved s s' w segs g : Sched_wf s -> Reserved s s' w segs -> Owned s g -> Owned s' g.
Proof.
  intros W R [H1 H2 H3 Hb]. pose proof (same_map_total s s' (rs_pm _ _ _ _ R)) as Ht.
  split; [done|by rewrite Ht|pose proof (rs_ids _ _ _ _ R); lia|]. intros b. rewrite Ht. intros Hr. rewrite <- (Hb b Hr).
  destruct (decide (Exists (fun x => in_seg x b = true) segs)) as [HE|HN].
  - apply List.Exists_exists in HE as (x & Hx%list_elem_of_In & Hin).
    destruct (rs_taken _ _ _ _ R x b Hx Hin) as [-> ->]. split; [|done]. intros [= _ E].
    pose proof (rs_seg _ _ _ _ R x Hx) as (_ & _ & _ & _ & _ & _ & Hid).
    lia.
  - rewrite (rs_other _ _ _ _ R b Hr); [done|]. intros x Hx. destruct (in_seg x b) eqn:E; [|done].
    destruct HN. apply List.Exists_exists. exists x. split; [by apply list_elem_of_In|done].
Qed.

Lemma Reserved_owned s s' w segs g : Sched_wf s -> Reserved s s' w segs -> g ∈ segs -> Owned s' g.
Proof.
  intros W R Hg. pose proof (same_map_total s s' (rs_pm _ _ _ _ R)) as Ht.
  destruct (rs_seg _ _ _ _ R g Hg) as (Hi & _ & Hlo & Hne & Hhi & _ & Hid). pose proof (plo_phi s _ W Hi).
  split; [lia|lia|lia|]. intros b. rewrite Ht. intros Hr. split.
  - intros Hs. destruct (decide (Exists (fun x => in_seg x b = true) segs)) as [HE|HN].
    + apply List.Exists_exists in HE as (x & Hx%list_elem_of_In & Hin).
      destruct (rs_taken _ _ _ _ R x b Hx Hin) as [_ Hx']. assert (lease_key x = lease_key g) as Hk by congruence.
      assert (x = g) as ->.
      { apply list_elem_of_lookup in Hx as [m Hm], Hg as [n Hn].
        assert (m = n) as ->; [|congruence]. apply (NoDup_lookup (lease_key <$> segs) m n (lease_key g)); [apply R|..].
        - rewrite list_lookup_fmap, Hm. simpl. congruence.
        - by rewrite list_lookup_fmap, Hn. }
      by apply in_range_true in Hin.
    + rewrite (rs_other _ _ _ _ R b Hr) in Hs.
      * apply leased_old in Hs; [|done]. simpl in Hs. lia.
      * intros x Hx. destruct (in_seg x b) eqn:E; [|done]. destruct HN. apply List.Exists_exists.
        exists x. split; [by apply list_elem_of_In|done].
  - intros Hb. apply (rs_taken _ _ _ _ R g b Hg). by apply in_range_true.
Qed.

(** ** Operations

    [Moves s s' touched]: the scheduler moved from [s] to [s'] and took away no
    lease but those in [touched]. *)

Record Moves (s s' : SchedulerState) (touched : LeaseKey -> Prop) : Prop := {
  mv_wf : Sched_wf s';
  mv_total : total_of s' = total_of s;
  mv_ids : next_lease_id s <= next_lease_id s';
  mv_frame : forall g, Owned s g -> ~ touched (lease_key g) -> Owned s' g;
}.

Lemma Moves_refl s touched : Sched_wf s -> Moves s s touched.
Proof. intros W. by split. Qed.

Lemma Moves_trans s s1 s2 touched : Moves s s1 touched -> Moves s1 s2 touched -> Moves s s2 touched.
Proof. intros [A1 A2 A3 A4] [B1 B2 B3 B4]. split; [done|congruence|lia|auto]. Qed.

Lemma Moves_weaken s s' (t1 t2 : LeaseKey -> Prop) : (forall k, t1 k -> t2 k) -> Moves s s' t1 -> Moves s s' t2.
Proof. intros Ht [A1 A2 A3 A4]. split; auto. Qed.

Lemma Reserved_moves s s' w segs touched : Sched_wf s -> Reserved s s' w segs -> Moves s s' touched.
Proof.
  intros W R. split; [apply R|by apply same_map_total, R|apply R|]. intros g Hg _. by apply (Owned_reserved s s' w segs).
Qed.

Lemma reclaim_moves s k : Sched_wf s -> Moves s (snd (reclaim k s)) (eq k).
Proof.
  intros W. destruct (reclaim k s) as [r s'] eqn:E. destruct (reclaim_spec s k r s' W E) as (W' & Hp & Hn & _ & _ & Hs).
  simpl. pose proof (same_map_total _ _ Hp). split; [done|done|lia|]. intros g Hg Hk.
  by apply (Owned_move s s' k Missing); try lia; try done; intros ?; apply Hk.
Qed.

Lemma reclaim_all_moves s segs : Sched_wf s -> Moves s (reclaim_all segs s) (fun k => k ∈ (lease_key <$> segs)).
Proof.
  unfold reclaim_all. revert s. induction segs as [|g segs IH]; intros s W; [by apply Moves_refl|]. simpl.
  pose proof (reclaim_moves s (lease_key g) W) as M. apply (Moves_trans s (snd (reclaim (lease_key g) s))).
  - eapply Moves_weaken; [|exact M]. intros k <-. apply list_elem_of_here.
  - eapply Moves_weaken; [|apply IH, M]. intros k Hk. by apply list_elem_of_further.
Qed.

Lemma complete_moves s k : Sched_wf s -> Moves s (snd (complete k s)) (eq k).
Proof.
  intros W. destruct (complete k s) as [r s'] eqn:E. destruct (complete_spec s k r s' W E) as (W' & Ht & _ & Hn & _ & _ & Hs).
  simpl. split; [done|done|lia|]. intros g Hg Hk.
  by apply (Owned_move s s' k Done); try lia; try done; intros ?; apply Hk.
Qed.

Lemma complete_owned s g : Sched_wf s -> Owned s g -> fst (complete (lease_key g) s) = true.
Proof.
  intros W O. destruct (complete (lease_key g) s) as [r s'] eqn:E.
  destruct (complete_spec s _ r s' W E) as (_ & _ & _ & _ & _ & Hr & _). apply Hr. by rewrite (Owned_range s g).
Qed.

Lemma stop_moves s k : Sched_wf s -> Moves s (stop_and_reclaim k s) (eq k).
Proof.
  intros W. destruct (reclaim_moves (set_stopped true s) k (stopped_wf s true W)) as [A1 A2 A3 A4].
  split; [done|done|done|]. intros g Hg. apply A4. by apply (Owned_same s).
Qed.

(** A renewed lease keeps its range under a new identity. *)
Lemma renew_moves s k w : Sched_wf s -> next_lease_id (snd (renew k w s)) < u64_max -> Moves s (snd (renew k w s)) (eq k).
Proof.
  intros W Hlim. destruct (renew k w s) as [r s'] eqn:E. simpl in *.
  destruct (renew_spec s k w r s' W E Hlim) as (W' & Hp & _ & _ & Hs). pose proof (same_map_total _ _ Hp).
  pose proof (renew_grows k w s) as Hn. unfold id_grows in Hn. rewrite E in Hn. simpl in Hn.
  pose proof (sw_next_id _ W).
  split; [done|done|lia|]. intros g Hg Hk. destruct r as [g'|]; [|by apply (Owned_same s); [..|done]; lia || done].
  destruct Hs as (Hkey & _ & Hs). apply (Owned_move s s' k (Leased (lease_key g'))); try done.
  - lia.
  - rewrite Hkey. intros [= _ Hx]. pose proof (ow_id _ _ Hg). lia.
Qed.

Lemma renew_owned s g w :
  Sched_wf s -> Owned s g -> next_lease_id (snd (renew (lease_key g) w s)) < u64_max ->
  exists g' s', renew (lease_key g) w s = (Some g', s') /\ seg_start g' = seg_start g /\ seg_end g' = seg_end g /\
    seg_lease_id g' = next_lease_id s /\ Owned s' g'.
Proof.
  intros W O Hlim. destruct (renew (lease_key g) w s) as [r s'] eqn:E. simpl in Hlim.
  destruct (renew_spec s _ w r s' W E Hlim) as (W' & Hp & _ & Hr & Hs). pose proof (same_map_total _ _ Hp) as Ht.
  rewrite (Owned_range s g W O) in Hr, Hs. destruct r as [g'|]; [|by destruct (proj2 Hr ltac:(done))].
  destruct Hs as (Hkey & [= Hst Hen] & Hs). exists g', s'.
  assert (seg_lease_id g' = next_lease_id s) as Hid by (by apply (f_equal key_lease_id) in Hkey).
  destruct O as [H1 H2 H3 Hb]. split_and!; [done|by rewrite Hst|by rewrite Hen|done|].
  assert (forall b, 0 <= b < total_of s -> status s b <> Leased (lease_key g')) as Hfresh.
  { rewrite Hkey. intros b Hb'. by apply (fresh_unused s). }
  assert (status s' (seg_start g) = Leased (lease_key g')) as Hnew.
  { rewrite (Hs (seg_start g)) by lia. unfold spec_move. rewrite decide_True; [done|]. apply Hb; lia. }
  split; [lia|lia| |].
  - apply leased_old in Hnew as [_ Hlt]; [|done]. by simpl in Hlt.
  - intros b. rewrite Ht. intros Hb'. rewrite (Hs b Hb'). unfold spec_move. rewrite <- Hst, <- Hen, <- (Hb b Hb').
    case_decide as D; [by split|]. split; [intros ?; by destruct (Hfresh b Hb')|done].
Qed.

(** Keeping a prefix leaves the rest of the lease owned. *)
Lemma retain_owned s g f :
  Sched_wf s -> Owned s g -> 0 < f < seg_end g - seg_start g ->
  exists s', retain_prefix (lease_key g) (seg_start g + f) s = (true, s') /\
    Moves s s' (eq (lease_key g)) /\ Owned s' (with_start (seg_start g + f) g).
Proof.
  intros W O Hf. destruct (retain_prefix (lease_key g) (seg_start g + f) s) as [r s'] eqn:E.
  destruct (retain_prefix_spec s _ _ r s' W E) as (W' & Hp & Hn & _ & Hr & Hs). pose proof (same_map_total _ _ Hp) as Ht.
  assert (r = true) as ->.
  { apply Hr. exists (seg_range g). split; [by apply Owned_range|]. simpl. lia. }
  destruct Hs as [Hs _]. exists s'. destruct O as [H1 H2 H3 Hb]. split_and!; [done| |].
  - split; [done|done|lia|]. intros x [X1 X2 X3 Xb] Hk. split; [done|lia|lia|]. intros b. rewrite Ht. intros Hb'.
    rewrite (Hs b Hb'), <- (Xb b Hb'). unfold spec_retain. case_decide as D; [|done]. destruct D as [D _].
    rewrite D. split; [done|]. intros [= ? ?]. destruct Hk. unfold lease_key. congruence.
  - split; simpl; [lia|lia|lia|]. intros b. rewrite Ht. intros Hb'. rewrite (Hs b Hb').
    change (lease_key (with_start (seg_start g + f) g)) with (lease_key g).
    specialize (Hb b Hb'). unfold spec_retain. case_decide as D; [split; [done|lia]|]. rewrite Hb. split; [|lia].
    intros Hx. destruct (Z.lt_ge_cases b (seg_start g + f)); [|lia]. destruct D. by rewrite Hb.
Qed.
