(* ===== verification/WorkersInv.v ===== *)
(** * Invariants of the workers

    What the channel holds for each lease, what each worker still has to do, and
    that its steps keep both.  The session built from the workers is shown to be
    a run of the checkpoint model in [Checkpoint]: its assumption that a lease is
    completed only after the writer has acknowledged all its bytes is what the
    worker protocol guarantees. *)

From S2P Require Import Prelude RustStr Errors PieceMap Ranges Segment Scheduler SchedInv SchedSpec Planner Reserve Assign Dynamic SchedProps Cache Writer WriterInv WriterProps WriterRun Flow Retry Response RangeValidate Control Resume Checkpoint Request Hedge Workers Owned.

(** ** The channel *)

(** The ledger once the queued commands are handled. *)
Definition future (l : Ledger) (q : list WriterCommand) : Ledger := fold_left ledger_step q l.

(** The lease a command is about. *)
Definition cmd_lease (cmd : WriterCommand) : option LeaseKey :=
  match cmd with
  | BeginLease k | FlushLease k | DiscardLease k => Some k
  | Data _ _ _ key => key
  | FlushAll _ => None
  end.

(** What a worker sees of the writer: the ledger of handled commands, the queue,
    the acknowledgements, the bytes they cover, and whether the writer receives. *)
Record Chan := mkChan {
  ch_ledger : Ledger;
  ch_queue : list WriterCommand;
  ch_acks : gset LeaseKey;
  ch_acked : LeaseKey -> Z -> Prop;
  ch_open : Prop;
}.

Definition ch_send (sent : list WriterCommand) (c : Chan) : Chan :=
  mkChan (ch_ledger c) (ch_queue c ++ sent) (ch_acks c) (ch_acked c) (ch_open c).

Definition ch_future (c : Chan) : Ledger := future (ch_ledger c) (ch_queue c).

(** No queued command ends lease [k]. *)
Definition no_end (k : LeaseKey) (q : list WriterCommand) : Prop := Forall (fun cmd => k ∉ acknowledges cmd) q.

(** Nothing has been sent about [k] yet. *)
Definition fresh (c : Chan) (k : LeaseKey) : Prop :=
  ch_open c -> ld_next (ch_future c) !! k = None /\ (k ∉ ch_acks c) /\ no_end k (ch_queue c).

(** [k] has begun, has not ended, and its bytes [lo, lo + n) have been sent. *)
Definition live (c : Chan) (k : LeaseKey) (lo n : Z) : Prop :=
  ch_open c -> is_Some (ld_next (ch_future c) !! k) /\ (k ∉ ch_acks c) /\ no_end k (ch_queue c) /\
    forall b, lo <= b < lo + n -> ld_sent (ch_future c) (Some k) b.

(** The end of [k] has been sent after its bytes [lo, lo + n); once acknowledged
    it covers them. *)
Definition flushed (c : Chan) (k : LeaseKey) (lo n : Z) : Prop :=
  (k ∈ ch_acks c -> forall b, lo <= b < lo + n -> ch_acked c k b) /\
  (ch_open c -> (k ∉ ch_acks c) -> exists q1 q2, ch_queue c = q1 ++ FlushLease k :: q2 /\ no_end k q1 /\
     forall b, lo <= b < lo + n -> ld_sent (future (ch_ledger c) q1) (Some k) b).

Lemma future_app l q1 q2 : future l (q1 ++ q2) = future (future l q1) q2.
Proof. apply fold_left_app. Qed.

Lemma ch_future_send c cmd : ch_future (ch_send [cmd] c) = ledger_step (ch_future c) cmd.
Proof. unfold ch_future. simpl. by rewrite future_app. Qed.

(** A command about another lease leaves the ledger of [k] alone. *)
Lemma ledger_frame l cmd k :
  cmd_lease cmd <> Some k ->
  ld_next (ledger_step l cmd) !! k = ld_next l !! k /\
  forall b, ld_sent (ledger_step l cmd) (Some k) b <-> ld_sent l (Some k) b.
Proof.
  destruct cmd as [k'|offset data permit key|k'|k'|sync]; simpl; intros Hk.
  - rewrite lookup_insert_ne by congruence. split; [done|]. intros b. unfold forget. naive_solver.
  - split.
    + unfold advanced. destruct key as [k'|]; [|done]. destruct (_ || _); [done|].
      by rewrite lookup_insert_ne by congruence.
    + intros b. unfold grown. naive_solver.
  - rewrite lookup_delete_ne by congruence. done.
  - rewrite lookup_delete_ne by congruence. split; [done|]. intros b. unfold forget. naive_solver.
  - done.
Qed.

Lemma no_end_snoc k q cmd : no_end k q -> cmd_lease cmd <> Some k -> no_end k (q ++ [cmd]).
Proof.
  intros Hq Hk. apply Forall_app. split; [done|]. constructor; [|constructor].
  destruct cmd; simpl in *; set_solver.
Qed.

Lemma fresh_send c cmd k : cmd_lease cmd <> Some k -> fresh c k -> fresh (ch_send [cmd] c) k.
Proof.
  intros Hk F Ho. destruct (F Ho) as (F1 & F2 & F3). destruct (ledger_frame (ch_future c) cmd k Hk) as [E _].
  rewrite ch_future_send, E. split_and!; [done|done|by apply no_end_snoc].
Qed.

Lemma live_send c cmd k lo n : cmd_lease cmd <> Some k -> live c k lo n -> live (ch_send [cmd] c) k lo n.
Proof.
  intros Hk F Ho. destruct (F Ho) as (F1 & F2 & F3 & F4). destruct (ledger_frame (ch_future c) cmd k Hk) as [E1 E2].
  rewrite ch_future_send, E1. split_and!; [done|done|by apply no_end_snoc|]. intros b Hb. by apply E2, F4.
Qed.

Lemma flushed_send c cmd k lo n : flushed c k lo n -> flushed (ch_send [cmd] c) k lo n.
Proof.
  intros [F1 F2]. split; [done|]. intros Ho Hk. destruct (F2 Ho Hk) as (q1 & q2 & Hq & Hn & Hb).
  exists q1, (q2 ++ [cmd]). split; [simpl; rewrite Hq, <- app_assoc; done|done].
Qed.

(** The worker's own commands. *)
Lemma begin_live c k lo : fresh c k -> live (ch_send [BeginLease k] c) k lo 0.
Proof.
  intros F Ho. destruct (F Ho) as (F1 & F2 & F3). rewrite ch_future_send. simpl. split_and!.
  - by rewrite lookup_insert_eq.
  - done.
  - apply Forall_app. split; [done|]. constructor; [set_solver|constructor].
  - intros b Hb. lia.
Qed.

Lemma data_live c k lo n data permit :
  0 <= n -> live c k lo n -> live (ch_send [Data (lo + n) data permit (Some k)] c) k lo (n + blen data).
Proof.
  intros Hn F Ho. destruct (F Ho) as (F1 & F2 & F3 & F4). rewrite ch_future_send. simpl. split_and!.
  - unfold advanced. destruct (_ || _); [done|]. by rewrite lookup_insert_eq.
  - done.
  - apply Forall_app. split; [done|]. constructor; [set_solver|constructor].
  - intros b Hb. destruct (Z.lt_ge_cases b (lo + n)); [left; apply F4; lia|right]. unfold in_block. split_and!; [done|done|lia..].
Qed.

Lemma flush_flushed c k lo n : ch_open c -> live c k lo n -> flushed (ch_send [FlushLease k] c) k lo n.
Proof.
  intros Ho F. destruct (F Ho) as (F1 & F2 & F3 & F4). split; [by intros ?%F2|]. intros _ _.
  by exists (ch_queue c), [].
Qed.

(** The writer handles the first command. *)
Definition ch_handled (cmd : WriterCommand) (q : list WriterCommand) (c : Chan) : Chan :=
  mkChan (ledger_step (ch_ledger c) cmd) q (acknowledges cmd ∪ ch_acks c)
         (ack_bytes cmd (ch_ledger c) (ch_acked c)) (ch_open c).

Lemma ch_future_handled cmd q c : ch_queue c = cmd :: q -> ch_future (ch_handled cmd q c) = ch_future c.
Proof. intros E. unfold ch_future. by rewrite E. Qed.

Lemma fresh_handled cmd q c k : ch_queue c = cmd :: q -> fresh c k -> fresh (ch_handled cmd q c) k.
Proof.
  intros E F Ho. destruct (F Ho) as (F1 & F2 & F3). rewrite ch_future_handled by done. rewrite E in F3.
  apply Forall_cons_iff in F3 as [F3 F4]. split_and!; [done|simpl; set_solver|done].
Qed.

Lemma live_handled cmd q c k lo n : ch_queue c = cmd :: q -> live c k lo n -> live (ch_handled cmd q c) k lo n.
Proof.
  intros E F Ho. destruct (F Ho) as (F1 & F2 & F3 & F4). rewrite ch_future_handled by done. rewrite E in F3.
  apply Forall_cons_iff in F3 as [F3 F5]. split_and!; [done|simpl; set_solver|done|done].
Qed.

Lemma flushed_handled cmd q c k lo n :
  ch_open c -> ch_queue c = cmd :: q -> flushed c k lo n -> flushed (ch_handled cmd q c) k lo n.
Proof.
  intros Ho E [F1 F2]. split; simpl.
  - intros Hk b Hb. destruct (base.decide (k ∈ ch_acks c)) as [Ha|Ha]; [left; by apply F1|].
    destruct (F2 Ho Ha) as (q1 & q2 & Hq & Hn & Hs). rewrite E in Hq. destruct q1 as [|cmd' q1]; injection Hq as -> Hq.
    + right. split; [done|]. by apply Hs.
    + apply Forall_cons_iff in Hn as [Hn _]. set_solver.
  - intros _ Hk. assert (k ∉ ch_acks c) as Ha by set_solver.
    destruct (F2 Ho Ha) as (q1 & q2 & Hq & Hn & Hs). rewrite E in Hq. destruct q1 as [|cmd' q1]; injection Hq as -> Hq.
    + simpl in Hk. set_solver.
    + apply Forall_cons_iff in Hn as [_ Hn]. by exists q1, q2.
Qed.

(** The writer has ended. *)
Definition ch_closed (c : Chan) : Chan := mkChan (ch_ledger c) [] (ch_acks c) (ch_acked c) False.

Lemma flushed_closed c k lo n : flushed c k lo n -> flushed (ch_closed c) k lo n.
Proof. intros [F1 _]. by split. Qed.

(** ** What a worker has to do *)

Section Inv.
  Context (obj : Z -> Z) (mb : MemoryBudget) (total : Z).

Fixpoint contiguous_from (e : Z) (segs : list Segment) : Prop :=
  match segs with
  | [] => True
  | g :: segs => seg_start g = e /\ contiguous_from (seg_end g) segs
  end.

(** The body has been consumed up to [pos], and what is left of it is the
    object's. *)
Definition stream_ok (req_start req_end pos : Z) (st : RequestStream) : Prop :=
  StreamAt req_start req_end pos st /\ agrees obj pos (take (Z.to_nat (req_end - pos)) (pending st)).

Record JobOk (job : Job) : Prop := {
  jo_chain : contiguous_from (seg_end (job_segment job)) (job_queued job);
  jo_ends : Forall (fun g => seg_end g <= job_end job) (job_segment job :: job_queued job);
  jo_start : 0 <= job_start job <= seg_start (job_segment job);
  jo_end : job_end job <= total;
  jo_new : job_stream job = None -> job_start job = seg_start (job_segment job);
  jo_stream : forall st, job_stream job = Some st ->
    stream_ok (job_start job) (job_end job) (seg_start (job_segment job)) st;
}.

Definition seg_len (g : Segment) : Z := seg_end g - seg_start g.

(** The stream left after the segment serves the next piece. *)
Definition next_ok (job : Job) (next : option RequestStream) : Prop :=
  exists st, next = Some st /\ stream_ok (job_start job) (job_end job) (seg_end (job_segment job)) st.

(** The commands an attempt has still to send, from the [f]th byte on. *)
Definition todo_ok (g : Segment) (f : Z) (todo : list WriterCommand) (r : result unit DownloadError) : Prop :=
  exists data, Chunked (max_chunk mb) (Some (lease_key g)) (seg_start g + f) data todo /\
    agrees obj (seg_start g + f) data /\ 0 <= f /\ f + blen data <= seg_len g /\
    (r = Ok tt -> f + blen data = seg_len g).

(** A staged file with the segment's bytes. *)
Definition file_ok (g : Segment) (file : bytes) : Prop := agrees obj (seg_start g) file /\ blen file = seg_len g.

Definition held (st : Worker) : list Segment :=
  match st with
  | Idle | Exited _ => []
  | Ready job | Attempting job _ _ _ _ | Completing job _ _ | Settling job _ _ _ | Waiting job =>
      job_segment job :: job_queued job
  | ReadyStaged g _ | Copying g _ _ => [g]
  end.

Definition fresh_all (c : Chan) (segs : list Segment) : Prop := Forall (fun g => fresh c (lease_key g)) segs.

Definition protocol (c : Chan) (st : Worker) : Prop :=
  match st with
  | Idle | Exited _ => True
  | Ready job => JobOk job /\ fresh_all c (job_segment job :: job_queued job)
  | Waiting job => JobOk job /\ fresh_all c (job_segment job :: job_queued job)
  | Attempting job f todo r next =>
      JobOk job /\ live c (job_key job) (seg_start (job_segment job)) f /\ fresh_all c (job_queued job) /\
      todo_ok (job_segment job) f todo r /\ (r = Ok tt -> next_ok job next)
  | Completing job next _ =>
      JobOk job /\ flushed c (job_key job) (seg_start (job_segment job)) (seg_len (job_segment job)) /\
      fresh_all c (job_queued job) /\ (job_queued job <> [] -> next_ok job next)
  | Settling job f retain outcome =>
      JobOk job /\
      (retain = true -> 0 < f < seg_len (job_segment job) /\ (outcome = ToRecover \/ outcome = ToRetry) /\
         flushed c (job_key job) (seg_start (job_segment job)) f) /\
      (forall file, outcome = ToStaged file -> file_ok (job_segment job) file)
  | ReadyStaged g file => fresh c (lease_key g) /\ file_ok g file
  | Copying g todo r => exists f, live c (lease_key g) (seg_start g) f /\ todo_ok g f todo r
  end.

Record WorkerOk (c : Chan) (s : SchedulerState) (st : Worker) : Prop := {
  wk_owned : Forall (Owned s) (held st);
  wk_keys : NoDup (lease_key <$> held st);
  wk_protocol : protocol c st;
}.

(** ** Frame: steps of the others *)

Lemma fresh_all_send c cmd segs :
  (forall g, g ∈ segs -> cmd_lease cmd <> Some (lease_key g)) -> fresh_all c segs -> fresh_all (ch_send [cmd] c) segs.
Proof.
  intros Hk F. apply Forall_forall. intros g Hg. apply fresh_send; [by apply Hk|].
  exact (proj1 (Forall_forall _ _) F g Hg).
Qed.

Lemma fresh_all_handled cmd q c segs :
  ch_queue c = cmd :: q -> fresh_all c segs -> fresh_all (ch_handled cmd q c) segs.
Proof. intros E F. eapply Forall_impl; [exact F|]. intros g. by apply fresh_handled. Qed.

Lemma protocol_send c cmd st :
  (forall g, g ∈ held st -> cmd_lease cmd <> Some (lease_key g)) -> protocol c st -> protocol (ch_send [cmd] c) st.
Proof.
  intros Hk P. assert (forall g rest, held st = g :: rest -> cmd_lease cmd <> Some (lease_key g) /\
    forall g', g' ∈ rest -> cmd_lease cmd <> Some (lease_key g')) as Hcons.
  { intros g rest E. rewrite E in Hk. split; [apply Hk, list_elem_of_here|]. intros g' Hg. by apply Hk, list_elem_of_further. }
  destruct st; simpl in *; try done.
  - destruct P. split; [done|]. by apply fresh_all_send.
  - destruct (Hcons _ _ eq_refl) as [Hk1 Hk2], P as (P1 & P2 & P3 & P4 & P5).
    split_and!; [done|by apply live_send|by apply fresh_all_send|done|done].
  - destruct (Hcons _ _ eq_refl) as [Hk1 Hk2], P as (P1 & P2 & P3 & P4).
    split_and!; [done|by apply flushed_send|by apply fresh_all_send|done].
  - destruct P as (P1 & P2 & P3). split_and!; [done| |done]. intros Hr. destruct (P2 Hr) as (Q1 & Q2 & Q3).
    split_and!; try done; try lia. by apply flushed_send.
  - destruct P. split; [done|]. by apply fresh_all_send.
  - destruct (Hcons _ _ eq_refl) as [Hk1 _], P. split; [by apply fresh_send|done].
  - destruct (Hcons _ _ eq_refl) as [Hk1 _], P as (f & P1 & P2). exists f. split; [by apply live_send|done].
Qed.

Lemma protocol_handled cmd q c st :
  ch_open c -> ch_queue c = cmd :: q -> protocol c st -> protocol (ch_handled cmd q c) st.
Proof.
  intros Ho E P. destruct st; simpl in *; try done.
  - destruct P. split; [done|]. by apply fresh_all_handled.
  - destruct P as (P1 & P2 & P3 & P4 & P5). split_and!; [done|by apply live_handled|by apply fresh_all_handled|done|done].
  - destruct P as (P1 & P2 & P3 & P4). split_and!; [done|by apply flushed_handled|by apply fresh_all_handled|done].
  - destruct P as (P1 & P2 & P3). split_and!; [done| |done]. intros Hr. destruct (P2 Hr) as (Q1 & Q2 & Q3).
    split_and!; try done; try lia. by apply flushed_handled.
  - destruct P. split; [done|]. by apply fresh_all_handled.
  - destruct P. split; [by apply fresh_handled|done].
  - destruct P as (f & P1 & P2). exists f. split; [by apply live_handled|done].
Qed.

Lemma fresh_all_closed c segs : fresh_all (ch_closed c) segs.
Proof. apply Forall_forall. by intros g _ []. Qed.

Lemma protocol_closed c st : protocol c st -> protocol (ch_closed c) st.
Proof.
  intros P. destruct st; simpl in *; try done.
  - destruct P. split; [done|apply fresh_all_closed].
  - destruct P as (P1 & P2 & P3 & P4 & P5). split_and!; [done|by intros []|apply fresh_all_closed|done|done].
  - destruct P as (P1 & P2 & P3 & P4). split_and!; [done|by apply flushed_closed|apply fresh_all_closed|done].
  - destruct P as (P1 & P2 & P3). split_and!; [done| |done]. intros Hr. destruct (P2 Hr) as (Q1 & Q2 & Q3).
    split_and!; try done; try lia. by apply flushed_closed.
  - destruct P. split; [done|apply fresh_all_closed].
  - destruct P. by split; [intros []|].
  - destruct P as (f & P1 & P2). exists f. by split; [intros []|].
Qed.

Lemma WorkerOk_moves c s s' touched st :
  Moves s s' touched -> (forall g, g ∈ held st -> ~ touched (lease_key g)) -> WorkerOk c s st -> WorkerOk c s' st.
Proof.
  intros M Hk [O K P]. split; [|done|done]. apply Forall_forall. intros g Hg. apply (mv_frame _ _ _ M); [|by apply Hk].
  exact (proj1 (Forall_forall _ _) O g Hg).
Qed.

(** ** Attempts *)

Context (Hchunk : (1 <= max_chunk mb)%nat) (Htotal : total < u64_max).

(** The bytes an attempt takes from its supply are the object's. *)
Lemma taken_agrees o n taken supply :
  agrees obj o (take n supply) -> taken `prefix_of` supply -> (length taken <= n)%nat -> agrees obj o taken.
Proof.
  intros A [rest ->] Hn. rewrite take_app_ge in A by done. by apply agrees_split in A as [? _].
Qed.

Lemma job_geometry job s :
  JobOk job -> Owned s (job_segment job) ->
  0 <= job_start job <= seg_start (job_segment job) /\
  seg_start (job_segment job) < seg_end (job_segment job) <= job_end job /\ job_end job < u64_max.
Proof.
  intros [_ J2 J3 J4 _ _] [H1 _ _ _]. apply Forall_cons_iff in J2 as [J2 _]. lia.
Qed.

Lemma attempt_ok job s r next todo :
  JobOk job -> Owned s (job_segment job) -> attempt_runs obj mb job r next todo ->
  todo_ok (job_segment job) 0 todo r /\ (r = Ok tt -> next_ok job next).
Proof.
  intros J O (selected & stop & validator & rv & tot & response & body & forwarded & E & Hserve).
  pose proof (job_geometry job s J O) as G.
  destruct (primary_spec mb (job_segment job) (job_start job) (job_end job) selected stop Hchunk G
    validator rv tot response body (job_stream job)) as (r' & next' & f' & cmds & taken & E' & Hpre & -> & Hle & Hch & Hok).
  { apply J. }
  { intros st Hst. by apply (jo_stream _ J) in Hst as [SA _]. }
  rewrite E in E'. injection E' as <- <- -> <-.
  set (g := job_segment job) in *. set (n := Z.to_nat (job_end job - seg_start g)).
  assert (length taken <= n)%nat as Hn by (unfold n, blen in *; lia).
  (* an empty attempt needs no agreement *)
  assert (taken = [] \/ agrees obj (seg_start g) (take n (supply body (job_stream job)))) as Hag.
  { destruct (job_stream job) as [st|] eqn:Est; [right; by apply (jo_stream _ J)|].
    unfold primary in E. destruct (checked_response validator rv g tot response (job_end job)) as [[]|failure] eqn:Ec.
    - right. by apply Hserve.
    - injection E as <- <- Hz <-. left. unfold blen in Hz. by destruct taken. }
  assert (agrees obj (seg_start g) taken) as Ag.
  { destruct Hag as [->|Hag]; [|by apply (taken_agrees _ n _ (supply body (job_stream job)))].
    split_and!; [lia|unfold blen; simpl; lia|]. intros i v Hv. by rewrite lookup_nil in Hv. }
  split.
  - exists taken. rewrite Z.add_0_r. unfold seg_len. split_and!; [done|done|lia|lia|]. intros Hr. destruct (Hok Hr). lia.
  - intros Hr. destruct (Hok Hr) as (Hlen & _ & st & -> & Hsup & SA). exists st. split; [done|]. split; [done|].
    destruct Hag as [->|Hag]; [unfold blen in Hlen; simpl in Hlen; lia|].
    rewrite Hsup, take_app_ge in Hag by done. apply agrees_split in Hag as [_ Hag].
    fold g. rewrite Hlen in Hag. replace (seg_end g) with (seg_start g + (seg_end g - seg_start g)) by lia.
    replace (Z.to_nat (job_end job - (seg_start g + (seg_end g - seg_start g)))) with (n - length taken)%nat
      by (unfold n, blen in *; lia). exact Hag.
Qed.

Lemma staged_ok g s file : Owned s g -> total_of s = total -> staged_as obj g file -> file_ok g file.
Proof.
  intros O Ht (validator & rv & tot & created & response & framed & te & body & spool & fl & cost & E & Hserve).
  destruct O as [H1 H2 _ _]. pose proof (staged_spec mb g validator rv tot created response framed te body spool fl []
    Hchunk H1 ltac:(lia)) as S. rewrite E in S. destruct S as (-> & -> & Hl & _). unfold serves in Hserve.
  split; [|done]. rewrite take_ge in Hserve; [done|]. unfold blen in Hl. lia.
Qed.

Lemma copy_ok g s file selected r todo :
  Owned s g -> total_of s = total -> file_ok g file -> copy_to mb g file selected = Some (r, todo) -> todo_ok g 0 todo r.
Proof.
  intros [H1 H2 _ _] Ht [Ag Hl] E. unfold seg_len in Hl.
  destruct (copy_loop_spec (length file + 1) mb g file (seg_start g) selected) as (r' & cmds & taken & E' & [rest Hp] & Hch & Hok);
    [done|lia|lia|done|lia|].
  unfold copy_to in E. rewrite E in E'. injection E' as <- <-. exists taken. rewrite Z.add_0_r.
  assert (blen taken <= blen file) by (rewrite Hp, blen_app; unfold blen; lia).
  rewrite Hp in Ag. apply agrees_split in Ag as [Ag _]. unfold seg_len.
  split_and!; [done|done|lia|lia|]. intros Hr. rewrite (Hok Hr). lia.
Qed.

(** The first command of an attempt. *)
Lemma todo_cons g f offset data permit key todo r :
  todo_ok g f (Data offset data permit key :: todo) r ->
  offset = seg_start g + f /\ key = Some (lease_key g) /\ agrees obj offset data /\ 0 <= f /\
  todo_ok g (f + blen data) todo r.
Proof.
  intros (d & (-> & -> & _ & Hd & rest & -> & Hch) & Ag & Hf & Hl & Hr). rewrite blen_app in *.
  apply agrees_split in Ag as [A1 A2]. rewrite <- Z.add_assoc in Hch, A2. split_and!; try done.
  exists rest. split_and!; [done|done|unfold blen; lia|lia|]. intros E. specialize (Hr E). lia.
Qed.

Lemma todo_done g f : todo_ok g f [] (Ok tt) -> f = seg_len g.
Proof. intros (d & -> & _ & _ & _ & Hr). specialize (Hr eq_refl). unfold blen in Hr. simpl in Hr. lia. Qed.

(** ** Requests *)

Definition end_of (e : Z) (segs : list Segment) : Z := match last segs with Some g => seg_end g | None => e end.

Lemma end_of_cons e g segs : end_of e (g :: segs) = end_of (seg_end g) segs.
Proof. unfold end_of. rewrite last_cons. by destruct (last segs). Qed.

Lemma chained_contiguous p segs :
  chained (Some p) (shape <$> segs) ->
  contiguous_from p.2 segs /\ p.2 <= end_of p.2 segs /\ Forall (fun g => seg_end g <= end_of p.2 segs) segs.
Proof.
  revert p. induction segs as [|g segs IH]; intros [i e]; simpl; [intros _; unfold end_of; simpl; split_and!; [done|lia|done]|].
  intros ([_ Hs] & Hlt & Hc). destruct (IH _ Hc) as (I1 & I2 & I3). simpl in *. rewrite end_of_cons. split_and!; [done|done|lia|].
  by constructor.
Qed.

Lemma job_of_ok first rest s :
  chained None (shape <$> first :: rest) -> Forall (Owned s) (first :: rest) -> total_of s = total -> JobOk (job_of first rest).
Proof.
  intros (_ & Hlt & Hc) HF Ht. apply chained_contiguous in Hc as (C1 & C2 & C3). simpl in *.
  pose proof (proj1 (Forall_forall _ _) HF) as HF'. pose proof (HF' first (list_elem_of_here _ _)) as [H1 H2 _ _].
  split; simpl; [done|by constructor|lia| |done|done].
  change (end_of (seg_end first) rest <= total). unfold end_of. destruct (last rest) as [g|] eqn:El; [|lia].
  apply last_Some_elem_of in El. pose proof (HF' g (list_elem_of_further _ _ _ El)) as [_ ? _ _]. lia.
Qed.

Lemma job_single_ok g s : Owned s g -> total_of s = total -> JobOk (job_of g []).
Proof.
  intros O Ht. apply (job_of_ok g [] s); [|by constructor|done]. destruct O as [H1 _ _ _]. simpl. split_and!; [done|lia|done].
Qed.

(** The next piece of the same request. *)
Lemma job_next_ok job g queued next s :
  JobOk job -> Owned s (job_segment job) -> Owned s g -> job_queued job = g :: queued -> next_ok job next ->
  JobOk (mkJob g queued (job_start job) (job_end job) next).
Proof.
  intros [J1 J2 J3 J4 _ _] O O' Eq (st & -> & Hst). rewrite Eq in J1, J2. destruct J1 as [Hs J1].
  apply Forall_cons_iff in J2 as [_ J2]. destruct O as [H1 _ _ _]. split; simpl; [done|done|lia|done|done|].
  intros st' [= <-]. by rewrite Hs.
Qed.

Lemma job_trim_ok job : JobOk job -> JobOk (mkJob (job_segment job) [] (job_start job) (job_end job) (job_stream job)).
Proof.
  intros [J1 J2 J3 J4 J5 J6]. apply Forall_cons_iff in J2 as [J2 _]. split; simpl; try done. by constructor.
Qed.

(** ** The scheduler's part of a step *)

(** What a worker does to the scheduler: the operations of the checkpoint model,
    under its guards. *)
Inductive sched_move (a : LeaseKey -> Z -> Prop) (s : SchedulerState) : SchedulerState -> Prop :=
| sm_quiet s' : quiet_step s s' -> next_lease_id s' < u64_max -> sched_move a s s'
| sm_complete k : (forall b, status s b = Leased k -> a k b) -> sched_move a s (snd (complete k s))
| sm_retain k e : (forall b, status s b = Leased k -> b < e -> a k b) -> sched_move a s (snd (retain_prefix k e s)).

Lemma reclaim_id k s : Sched_wf s -> next_lease_id (snd (reclaim k s)) = next_lease_id s.
Proof. intros W. destruct (reclaim k s) as [r s'] eqn:E. by destruct (reclaim_spec s k r s' W E) as (_ & _ & Hn & _). Qed.

Lemma reclaim_all_run a segs s :
  Sched_wf s -> next_lease_id s < u64_max ->
  rtc (sched_move a) s (reclaim_all segs s) /\ next_lease_id (reclaim_all segs s) = next_lease_id s.
Proof.
  unfold reclaim_all. revert s. induction segs as [|g segs IH]; intros s W Hn; [by split|]. simpl.
  pose proof (reclaim_id (lease_key g) s W) as E.
  destruct (IH (snd (reclaim (lease_key g) s))) as [I1 I2]; [by apply reclaim_moves|lia|].
  split; [|by rewrite I2]. eapply rtc_l; [|exact I1]. apply sm_quiet; [constructor|lia].
Qed.

(** An acknowledged lease may be completed, an acknowledged prefix kept. *)
Lemma flushed_acked c s g n b :
  Sched_wf s -> Owned s g -> flushed c (lease_key g) (seg_start g) n -> lease_key g ∈ ch_acks c ->
  status s b = Leased (lease_key g) -> b < seg_start g + n -> ch_acked c (lease_key g) b.
Proof.
  intros W O [F _] Ha Hs Hb. apply F; [done|]. destruct (leased_old s b _ W Hs) as [Hr _].
  apply (ow_bytes _ _ O b Hr) in Hs. lia.
Qed.

(** What a step of a worker guarantees. *)
Record StepOk (c : Chan) (s : SchedulerState) (st : Worker) (s' : SchedulerState) (st' : Worker)
    (sent : list WriterCommand) : Prop := {
  so_moves : Moves s s' (fun k => k ∈ (lease_key <$> held st));
  so_id : next_lease_id s' < u64_max;
  so_run : rtc (sched_move (ch_acked c)) s s';
  so_worker : WorkerOk (ch_send sent c) s' st';
  so_sent : Forall (fun cmd => exists g, g ∈ held st /\ cmd_lease cmd = Some (lease_key g)) sent;
  so_cmds : cmds_ok obj (ch_future c) sent;
  so_held : forall g, g ∈ held st' -> lease_key g ∈ (lease_key <$> held st) \/ next_lease_id s <= seg_lease_id g;
}.

(** Leases not yet issued have not been mentioned on the channel. *)
Definition Bounded (c : Chan) (s : SchedulerState) : Prop :=
  forall k, next_lease_id s <= key_lease_id k -> fresh c k.

Lemma ch_send_nil c : ch_send [] c = c.
Proof. destruct c. unfold ch_send. simpl. by rewrite app_nil_r. Qed.

(** A step that sends one command and leaves the scheduler alone. *)
Lemma send_step c s st st' cmd g :
  Sched_wf s -> next_lease_id s < u64_max -> WorkerOk c s st -> held st' = held st ->
  g ∈ held st -> cmd_lease cmd = Some (lease_key g) -> cmd_ok obj (ch_future c) cmd ->
  protocol (ch_send [cmd] c) st' -> StepOk c s st s st' [cmd].
Proof.
  intros W Hn [K1 K2 _] Eh Hg Hc Hok P. split; [by apply Moves_refl|done|done| | | |].
  - split; [by rewrite Eh|by rewrite Eh|done].
  - constructor; [by exists g|done].
  - done.
  - intros g' Hg'. rewrite Eh in Hg'. left. by apply list_elem_of_fmap_2.
Qed.

(** A step that sends nothing. *)
Lemma sched_step_ok c s st s' st' :
  Moves s s' (fun k => k ∈ (lease_key <$> held st)) -> next_lease_id s' < u64_max ->
  rtc (sched_move (ch_acked c)) s s' -> WorkerOk c s' st' ->
  (forall g, g ∈ held st' -> lease_key g ∈ (lease_key <$> held st) \/ next_lease_id s <= seg_lease_id g) ->
  StepOk c s st s' st' [].
Proof. intros M Hn R K Hh. split; try done. by rewrite ch_send_nil. Qed.

(** A worker that holds nothing any more. *)
Lemma idle_ok c s st : held st = [] -> protocol c st -> WorkerOk c s st.
Proof. intros Eh P. split; [by rewrite Eh|rewrite Eh; constructor|done]. Qed.

Lemma drop_step c s st s' st' :
  Moves s s' (fun k => k ∈ (lease_key <$> held st)) -> next_lease_id s' < u64_max ->
  rtc (sched_move (ch_acked c)) s s' -> held st' = [] -> protocol c st' -> StepOk c s st s' st' [].
Proof.
  intros M Hn R Eh P. apply sched_step_ok; try done; [by apply idle_ok|]. intros g Hg. rewrite Eh in Hg. by apply not_elem_of_nil in Hg.
Qed.

(** Giving back leases the worker holds. *)
Lemma reclaim_step c s st segs st' :
  Sched_wf s -> next_lease_id s < u64_max -> (forall g, g ∈ segs -> g ∈ held st) ->
  WorkerOk c (reclaim_all segs s) st' -> (forall g, g ∈ held st' -> g ∈ held st) ->
  StepOk c s st (reclaim_all segs s) st' [].
Proof.
  intros W Hn Hs K Hh. destruct (reclaim_all_run (ch_acked c) segs s W Hn) as [R E]. apply sched_step_ok; [|lia|done|done|].
  - eapply Moves_weaken; [|by apply reclaim_all_moves]. simpl. intros k (g & -> & Hg)%list_elem_of_fmap. apply list_elem_of_fmap_2; auto.
  - intros g Hg. left. apply list_elem_of_fmap_2; auto.
Qed.

(** The rest of a request stays owned when its head is given up or moved. *)
Lemma rest_owned s s' touched g queued :
  Moves s s' touched -> (forall k, touched k -> k = lease_key g) -> NoDup (lease_key <$> g :: queued) ->
  Forall (Owned s) queued -> Forall (Owned s') queued.
Proof.
  intros M Ht Hnd HF. apply Forall_forall. intros g' Hg. apply (mv_frame _ _ _ M).
  - by apply (proj1 (Forall_forall _ _) HF).
  - intros E%Ht. simpl in Hnd. apply NoDup_cons in Hnd as [Hnd _]. apply Hnd. rewrite <- E. by apply list_elem_of_fmap_2.
Qed.

(** A lease stays owned while the rest of its request is given back. *)
Lemma head_owned s g queued :
  Sched_wf s -> NoDup (lease_key <$> g :: queued) -> Owned s g -> Owned (reclaim_all queued s) g.
Proof.
  intros W Hnd O. apply (mv_frame _ _ _ (reclaim_all_moves s queued W)); [done|]. simpl in Hnd. by apply NoDup_cons in Hnd as [Hnd _].
Qed.

(** ** The steps *)

Section Step.
  Context (c : Chan) (s : SchedulerState).
  Context (W : Sched_wf s) (Ht : total_of s = total) (Hn : next_lease_id s < u64_max) (B : Bounded c s).

Lemma reserved_step s' i first rest :
  quiet_step s s' -> next_lease_id s' < u64_max -> Reserved s s' i (first :: rest) ->
  chained None (shape <$> first :: rest) -> StepOk c s Idle s' (Ready (job_of first rest)) [].
Proof.
  intros Q Hlim R Hc. assert (Forall (Owned s') (first :: rest)) as HO.
  { apply Forall_forall. intros g Hg. by apply (Reserved_owned s s' i (first :: rest)). }
  assert (forall g, g ∈ first :: rest -> next_lease_id s <= seg_lease_id g) as Hid by (intros g Hg; by apply (rs_seg _ _ _ _ R)).
  apply sched_step_ok.
  - by apply (Reserved_moves s s' i (first :: rest)).
  - done.
  - by apply rtc_once, sm_quiet.
  - split; [done|apply R|]. split.
    + apply (job_of_ok first rest s'); [done|done|]. rewrite <- Ht. by apply same_map_total, R.
    + apply Forall_forall. intros g Hg. by apply B, Hid.
  - intros g Hg. right. by apply Hid.
Qed.

Lemma none_step s' i : quiet_step s s' -> next_lease_id s' < u64_max -> Reserved s s' i [] -> StepOk c s Idle s' Idle [].
Proof.
  intros Q Hlim R. apply drop_step; [by apply (Reserved_moves s s' i [])|done|by apply rtc_once, sm_quiet|done|done].
Qed.

Lemma assign_step i s' res st m min occ mode batch dmin dmax allow diag shares :
  0 <= min -> assign_request_with_trace i m min occ mode batch dmin dmax allow diag shares s = (res, s') ->
  next_lease_id s' < u64_max ->
  match res with
  | Some a => match segments a with first :: rest => st = Ready (job_of first rest) | [] => False end
  | None => st = Idle
  end -> StepOk c s Idle s' st [].
Proof.
  intros Hmin E Hlim Hst. assert (quiet_step s s') as Q.
  { replace s' with (snd (assign_request_with_trace i m min occ mode batch dmin dmax allow diag shares s)) by by rewrite E.
    by constructor. }
  pose proof (assign_request_spec i m min occ mode batch dmin dmax allow diag shares s res s' W Hmin E Hlim) as Sp.
  destruct res as [a|].
  - destruct Sp as [R Hc _ _ _ _]. destruct (segments a) as [|first rest]; [done|]. subst st. by apply (reserved_step s' i).
  - subst st. by apply (none_step s' i); [..|apply Sp].
Qed.

Lemma recovery_step i planned res st s' :
  assign_recovery_batch planned i s = (res, s') -> next_lease_id s' < u64_max ->
  match res with
  | Some (first :: rest) => st = Ready (job_of first rest)
  | Some [] => False
  | None => st = Idle
  end -> StepOk c s Idle s' st [].
Proof.
  intros E Hlim Hst. assert (quiet_step s s') as Q.
  { replace s' with (snd (assign_recovery_batch planned i s)) by by rewrite E. by constructor. }
  pose proof (recovery_batch_spec planned i s res s' W E Hlim) as Sp. destruct res as [[|first rest]|]; [done| |].
  - destruct Sp as (R & Sh & Hc & _). rewrite <- Sh in Hc. subst st. by apply (reserved_step s' i).
  - subst st. by apply (none_step s' i).
Qed.

(** An acknowledged lease is completed; the completion is never stale. *)
Lemma complete_step job next stale st s' :
  WorkerOk c s (Completing job next stale) -> job_key job ∈ ch_acks c -> finish_lease job next stale s = (st, s') ->
  fst (complete (job_key job) s) = true /\ StepOk c s (Completing job next stale) s' st [].
Proof.
  intros [K1 K2 (J & F & Fq & Hnext)] Ha E. simpl in K1, K2. apply Forall_cons_iff in K1 as [O OQ].
  pose proof (complete_owned s _ W O : fst (complete (job_key job) s) = true) as Et. split; [done|]. unfold finish_lease in E.
  pose proof (complete_moves s (job_key job) W) as M. assert (rtc (sched_move (ch_acked c)) s (snd (complete (job_key job) s))) as R.
  { apply rtc_once, sm_complete. intros b Hb. apply (flushed_acked c s _ (seg_len (job_segment job))); try done.
    destruct (leased_old s b _ W Hb) as [Hr _]. apply (ow_bytes _ _ O b Hr) in Hb. unfold seg_len. lia. }
  pose proof (rest_owned s _ _ (job_segment job) (job_queued job) M ltac:(by intros ? <-) K2 OQ) as OQ'.
  destruct (complete (job_key job) s) as [ok s1] eqn:Ec. simpl in *. subst ok. injection E as <- <-.
  destruct (complete_spec s _ true s1 W Ec) as (_ & _ & _ & Hid & _).
  assert (Moves s s1 (fun k => k ∈ (lease_key <$> job_segment job :: job_queued job))) as M'.
  { eapply Moves_weaken; [|exact M]. intros k <-. apply list_elem_of_here. }
  destruct (job_queued job) as [|g queued] eqn:Eq.
  - apply drop_step; simpl; try rewrite Eq; try done. lia.
  - apply sched_step_ok; simpl; try rewrite Eq; try done; [lia| |].
    + split; simpl; [done|by apply NoDup_cons in K2 as [_ K2]|]. split; [|done].
      apply Forall_cons_iff in OQ as [OQ _]. by apply (job_next_ok job g queued next s); [..|apply Hnext].
    + intros g' Hg. left. by apply list_elem_of_further, list_elem_of_fmap_2.
Qed.
End Step.

(** How a settled attempt goes on: never with a stale lease. *)
Definition settled_as (outcome : AfterSettle) (st : Worker) : Prop :=
  match outcome with
  | ToRecover => st = Idle
  | ToRetry => exists job, st = Waiting job
  | ToStaged file => exists g, st = ReadyStaged g file
  | ToStop error => st = Exited (Err error)
  end.

Section Settle.
  Context (c : Chan) (i : nat).

Lemma renew_run s g queued s1 r :
  Sched_wf s -> total_of s = total -> next_lease_id s < u64_max -> NoDup (lease_key <$> g :: queued) -> Owned s g ->
  renew (lease_key g) i (reclaim_all queued s) = (r, s1) -> next_lease_id s1 < u64_max ->
  exists g', r = Some g' /\ seg_start g' = seg_start g /\ seg_end g' = seg_end g /\ seg_lease_id g' = next_lease_id s /\
    Owned s1 g' /\ total_of s1 = total /\ Moves s s1 (fun k => k ∈ (lease_key <$> g :: queued)) /\
    rtc (sched_move (ch_acked c)) s s1.
Proof.
  intros W Ht Hn Hnd O E Hlim. destruct (reclaim_all_run (ch_acked c) queued s W Hn) as [R Hid].
  pose proof (reclaim_all_moves s queued W) as M. pose proof (head_owned s g queued W Hnd O) as O1.
  pose proof (renew_moves (reclaim_all queued s) (lease_key g) i (mv_wf _ _ _ M)) as M2.
  pose proof (renew_owned _ g i (mv_wf _ _ _ M) O1) as RO. rewrite E in M2, RO. specialize (M2 Hlim). simpl in M2.
  destruct (RO Hlim) as (g' & s2 & [= -> <-] & H1 & H2 & H3 & H4).
  exists g'. rewrite <- Hid. split_and!; try done.
  - by rewrite (mv_total _ _ _ M2), (mv_total _ _ _ M).
  - eapply Moves_trans; eapply Moves_weaken; [|exact M| |exact M2]; simpl.
    + intros k. apply list_elem_of_further.
    + intros k <-. apply list_elem_of_here.
  - eapply rtc_r; [exact R|]. apply sm_quiet; [|done]. replace s1 with (snd (renew (lease_key g) i (reclaim_all queued s))) by by rewrite E.
    constructor.
Qed.

Lemma after_settle_ok s outcome g queued st s' :
  Sched_wf s -> total_of s = total -> next_lease_id s < u64_max -> Bounded c s ->
  NoDup (lease_key <$> g :: queued) -> Owned s g -> (forall file, outcome = ToStaged file -> file_ok g file) ->
  after_settle i outcome g queued s = (st, s') -> next_lease_id s' < u64_max ->
  settled_as outcome st /\ Moves s s' (fun k => k ∈ (lease_key <$> g :: queued)) /\
  rtc (sched_move (ch_acked c)) s s' /\ WorkerOk c s' st /\ (forall g', g' ∈ held st -> next_lease_id s <= seg_lease_id g').
Proof.
  intros W Ht Hn B Hnd O Hf E Hlim. destruct outcome as [| |file|error]; unfold after_settle in E.
  - injection E as <- <-. destruct (reclaim_all_run (ch_acked c) (g :: queued) s W Hn) as [R _].
    split_and!; [done|exact (reclaim_all_moves s (g :: queued) W)|exact R|by apply idle_ok|]. intros g' []%not_elem_of_nil.
  - destruct (renew _ _ _) as [r s1] eqn:Er. assert (s' = s1) as -> by (by destruct r; injection E).
    destruct (renew_run s g queued s1 r) as (g' & -> & H1 & H2 & H3 & H4 & H5 & H6 & H7); try done. injection E as <-.
    split_and!; [by eexists|done|done| |].
    + split; simpl; [by constructor|apply NoDup_singleton|]. split; [by apply (job_single_ok g' s1)|].
      constructor; [|done]. apply B. simpl. lia.
    + simpl. intros x ->%list_elem_of_singleton. lia.
  - destruct (renew _ _ _) as [r s1] eqn:Er. assert (s' = s1) as -> by (by destruct r; injection E).
    destruct (renew_run s g queued s1 r) as (g' & -> & H1 & H2 & H3 & H4 & H5 & H6 & H7); try done. injection E as <-.
    split_and!; [by eexists|done|done| |].
    + split; simpl; [by constructor|apply NoDup_singleton|]. split; [apply B; simpl; lia|].
      destruct (Hf file eq_refl) as [F1 F2]. unfold file_ok, seg_len in *. by rewrite H1, H2.
    + simpl. intros x ->%list_elem_of_singleton. lia.
  - injection E as <- <-. split_and!; [done| | |by apply idle_ok|].
    + eapply Moves_weaken; [|by apply stop_moves]. intros k <-. apply list_elem_of_here.
    + apply rtc_once, sm_quiet; [constructor|done].
    + intros g' []%not_elem_of_nil.
Qed.

Lemma settle_prefix_ok s job f retain outcome :
  Sched_wf s -> total_of s = total -> next_lease_id s < u64_max ->
  WorkerOk c s (Settling job f retain outcome) -> job_key job ∈ ch_acks c ->
  exists g s1, settle_prefix (job_segment job) f retain s = (Ok g, s1) /\ lease_key g = job_key job /\ Owned s1 g /\
    Moves s s1 (eq (job_key job)) /\ rtc (sched_move (ch_acked c)) s s1 /\ next_lease_id s1 = next_lease_id s /\
    (forall file, outcome = ToStaged file -> file_ok g file).
Proof.
  intros W Ht Hn [K1 K2 (J & Hret & Hf)] Ha. simpl in K1, K2. apply Forall_cons_iff in K1 as [O OQ]. unfold settle_prefix.
  destruct retain; [|by exists (job_segment job), s; split_and!; try done; apply Moves_refl].
  destruct (Hret eq_refl) as (Hr & Hout & F). pose proof O as [H1 H2 _ _]. unfold seg_len in Hr.
  rewrite u64_add_exact by (unfold u64_max in *; lia).
  destruct (retain_owned s (job_segment job) f W O Hr) as (s1 & E & M & O1). rewrite E. eexists _, s1.
  destruct (retain_prefix_spec s _ _ true s1 W E) as (_ & _ & Hid & _).
  split_and!; try done; [|by intros file ->; destruct Hout].
  apply rtc_once. replace s1 with (snd (retain_prefix (lease_key (job_segment job)) (seg_start (job_segment job) + f) s)) by by rewrite E.
  apply sm_retain. intros b Hb Hlt. by apply (flushed_acked c s _ f).
Qed.

Lemma settle_step s job f retain outcome st s' :
  Sched_wf s -> total_of s = total -> next_lease_id s < u64_max -> Bounded c s ->
  WorkerOk c s (Settling job f retain outcome) -> job_key job ∈ ch_acks c ->
  settle i job f retain outcome s = (st, s') -> next_lease_id s' < u64_max ->
  settled_as outcome st /\ StepOk c s (Settling job f retain outcome) s' st [].
Proof.
  intros W Ht Hn B K Ha E Hlim. destruct (settle_prefix_ok s job f retain outcome W Ht Hn K Ha)
    as (g & s1 & E1 & Hk & O1 & M1 & R1 & Hid & Hfile).
  unfold settle in E. rewrite E1 in E. destruct K as [K1 K2 _]. simpl in K1, K2. fold (job_key job) in K2.
  destruct (after_settle_ok s1 outcome g (job_queued job) st s') as (A1 & A2 & A3 & A4 & A5); try done;
    [apply M1|by rewrite (mv_total _ _ _ M1)|lia|intros k; rewrite Hid; apply B|by simpl; rewrite Hk|].
  split; [done|]. apply sched_step_ok; [|done|by etrans|done|].
  - eapply Moves_trans; eapply Moves_weaken; [|exact M1| |exact A2]; simpl.
    + intros k <-. apply list_elem_of_here.
    + by rewrite Hk.
  - intros g' Hg. right. rewrite <- Hid. by apply A5.
Qed.
End Settle.

(** ** Every step of a worker *)

Lemma begin_step c s st st' g :
  Sched_wf s -> next_lease_id s < u64_max -> WorkerOk c s st -> held st' = held st -> g ∈ held st -> ch_open c ->
  fresh c (lease_key g) -> protocol (ch_send [BeginLease (lease_key g)] c) st' -> StepOk c s st s st' [BeginLease (lease_key g)].
Proof. intros W Hn K Eh Hg Ho F P. apply (send_step c s st st' _ g); try done. by apply F. Qed.

(** The other leases of a request stay unmentioned. *)
Lemma queue_send c cmd g queued :
  cmd_lease cmd = Some (lease_key g) -> NoDup (lease_key <$> g :: queued) -> fresh_all c queued -> fresh_all (ch_send [cmd] c) queued.
Proof.
  intros Hc Hnd. apply fresh_all_send. intros x Hx. rewrite Hc. intros [= E1 E2]. simpl in Hnd. apply NoDup_cons in Hnd as [Hnd _].
  apply Hnd. apply list_elem_of_fmap. exists x. split; [unfold lease_key; congruence|done].
Qed.

Lemma interrupt_ok c s job f todo r next validator outcome :
  total_of s = total -> ch_open c -> WorkerOk c s (Attempting job f todo r next) ->
  (forall file, outcome = ToStaged file -> staged_as obj (job_segment job) file) ->
  let retain := retains validator f (job_segment job) outcome in
  protocol (ch_send [if retain then FlushLease (job_key job) else DiscardLease (job_key job)] c) (Settling job f retain outcome).
Proof.
  intros Ht Ho [K1 K2 (J & L & Fq & T & Hnext)] Hst retain. simpl in K1, K2. apply Forall_cons_iff in K1 as [O _].
  simpl. split_and!; [done| |].
  - intros Hr. rewrite Hr. unfold retain, retains in Hr. pose proof O as [H1 H2 _ _].
    rewrite u64_sub_exact in Hr by (unfold u64_max in *; lia).
    apply andb_true_iff in Hr as [[[_ R1]%andb_true_iff R2]%andb_true_iff R3].
    split_and!; [lia|unfold seg_len; lia|by destruct outcome; auto|by apply flush_flushed].
  - intros file E. by apply (staged_ok _ s), Hst.
Qed.

Lemma worker_step_ok c s i st st' s' sent :
  Sched_wf s -> total_of s = total -> next_lease_id s < u64_max -> Bounded c s -> WorkerOk c s st ->
  (sent <> [] -> ch_open c) -> worker_step obj mb i (ch_acks c) st s st' s' sent -> StepOk c s st s' st' sent.
Proof.
  intros W Ht Hn B K Ho Hstep. pose proof K as [K1 K2 K3]. destruct Hstep.
  - eapply (assign_step c s W Ht B i _ (Some a)); try done. by simpl; rewrite H1.
  - by eapply (assign_step c s W Ht B i _ None).
  - by apply (recovery_step c s W Ht B i planned (Some (first :: rest))).
  - by apply (recovery_step c s W Ht B i planned None).
  - (* begin *)
    destruct K3 as [J F]. apply Forall_cons_iff in F as [F1 F2]. simpl in K1, K2. apply Forall_cons_iff in K1 as [O _].
    destruct (attempt_ok job s r next todo J O H) as [T Hx].
    apply begin_step; try done; [apply list_elem_of_here|by apply Ho|]. simpl. split_and!; try done; [by apply begin_live|].
    by apply (queue_send _ _ (job_segment job)).
  - (* send *)
    destruct K3 as (J & L & Fq & T & Hx). apply todo_cons in T as (-> & -> & Ag & Hf & T).
    apply (send_step c s _ _ _ (job_segment job)); try done; [apply list_elem_of_here|]. simpl.
    split_and!; try done; [by apply data_live|]. by apply (queue_send _ _ (job_segment job)).
  - (* finish *)
    destruct K3 as (J & L & Fq & T & Hx). apply todo_done in T as ->.
    apply (send_step c s _ _ _ (job_segment job)); try done; [apply list_elem_of_here|]. simpl.
    split_and!; [done|apply flush_flushed; [by apply Ho|done]|by apply (queue_send _ _ (job_segment job))|]. intros _. by apply Hx.
  - by apply (complete_step c s W Hn job next stale).
  - (* interrupt *)
    apply (send_step c s _ _ _ (job_segment job)); try done; [apply list_elem_of_here|by destruct retain|by destruct retain|].
    apply (interrupt_ok c s job forwarded todo r next validator outcome); try done. by apply Ho.
  - by apply (settle_step c i s job forwarded retain outcome).
  - apply (reclaim_step c s _ [job_segment job]); try done; [|by apply idle_ok|intros g []%not_elem_of_nil].
    intros g ->%list_elem_of_singleton. apply list_elem_of_here.
  - (* wake *)
    apply sched_step_ok; [by apply Moves_refl|done|done|by split|]. intros g Hg. left. by apply list_elem_of_fmap_2.
  - apply (reclaim_step c s _ [job_segment job]); try done; [|by apply idle_ok|intros g []%not_elem_of_nil].
    intros g ->%list_elem_of_singleton. apply list_elem_of_here.
  - (* copy *)
    destruct K3 as [F Hf]. simpl in K1. apply Forall_cons_iff in K1 as [O _].
    apply begin_step; try done; [apply list_elem_of_here|by apply Ho|]. simpl. exists 0. split; [by apply begin_live|].
    by apply (copy_ok g s file selected).
  - destruct K3 as (f & L & T). apply todo_cons in T as (-> & -> & Ag & Hf & T).
    apply (send_step c s _ _ _ g); try done; [apply list_elem_of_here|]. simpl. exists (f + blen data).
    split; [by apply data_live|done].
  - destruct K3 as (f & L & T). apply todo_done in T as ->. simpl in K1. apply Forall_cons_iff in K1 as [O _].
    apply (send_step c s _ _ _ g); try done; [apply list_elem_of_here|]. simpl.
    split_and!; [by apply (job_single_ok g s)|apply flush_flushed; [by apply Ho|done]|constructor|done].
  - (* handoff *)
    destruct K3 as (J & L & Fq & T & Hx). simpl in K1, K2. apply Forall_cons_iff in K1 as [O _].
    apply (reclaim_step c s _ (job_queued job)); try done.
    + intros g Hg. by apply list_elem_of_further.
    + split; simpl; [constructor; [by apply head_owned|constructor]|apply NoDup_singleton|].
      split_and!; [by apply job_trim_ok|done|constructor|done|done].
    + simpl. intros g ->%list_elem_of_singleton. apply list_elem_of_here.
  - by apply drop_step; [apply Moves_refl|..].
  - by apply drop_step; [apply Moves_refl|..].
Qed.
End Inv.
