(* ===== verification/Sessions.v ===== *)
(** * Sessions ([src/session/multi.rs])

    The workers, the writer and the checkpoints of a session together.  Every
    run of the session is a run of the checkpoint model, so what that model
    guarantees of the file and of the control file holds for the workers' own
    protocol: no lease is completed before the writer has acknowledged its bytes,
    and no settlement finds its lease gone. *)

From S2P Require Import Prelude RustStr Errors PieceMap Ranges Segment Scheduler SchedInv SchedSpec Planner Reserve Assign Dynamic SchedProps Cache Writer WriterInv WriterProps WriterRun Flow Retry Response RangeValidate Control Resume Checkpoint Request Hedge Workers Owned WorkersInv.

Section Sessions.
  Context `{RawBits} `{Codec} (ctx : SaveContext) (obj : Z -> Z) (mb : MemoryBudget).
  Context (Hchunk : (1 <= max_chunk mb)%nat) (Htotal : sc_total_size ctx < u64_max).

(** ** Invariant *)

Definition receiving (x : World) : Prop := match w_status x with Receiving => True | _ => False end.

(** What the workers see of the writer. *)
Definition chan_of (x : World) (q : list WriterCommand) (acks : gset LeaseKey) : Chan :=
  mkChan (w_ledger x) q acks (w_acked x) (receiving x).

Record Session_ok (ms : Session) : Prop := {
  ss_world : World_ok ctx obj (ms_world ms);
  ss_id : next_lease_id (w_sched (ms_world ms)) < u64_max;
  ss_cmds : receiving (ms_world ms) -> cmds_ok obj (w_ledger (ms_world ms)) (ms_queue ms);
  ss_bounded : Bounded (chan_of (ms_world ms) (ms_queue ms) (ms_acks ms)) (w_sched (ms_world ms));
  ss_workers : forall i st, ms_workers ms !! i = Some st ->
    WorkerOk obj mb (sc_total_size ctx) (chan_of (ms_world ms) (ms_queue ms) (ms_acks ms)) (w_sched (ms_world ms)) st;
  ss_disjoint : forall i j st st' g g', ms_workers ms !! i = Some st -> ms_workers ms !! j = Some st' -> i <> j ->
    g ∈ held st -> g' ∈ held st' -> lease_key g <> lease_key g';
}.

(** ** Simulation *)

Lemma sched_move_step x s' : sched_move (w_acked x) (w_sched x) s' -> world_step ctx obj x (set_sched s' x).
Proof.
  destruct x as [s w l o a fs p]. unfold set_sched. simpl. destruct 1; [by apply ws_sched|by apply ws_complete|by apply ws_retain].
Qed.

Lemma sched_run_steps x s' : rtc (sched_move (w_acked x)) (w_sched x) s' -> rtc (world_step ctx obj) x (set_sched s' x).
Proof.
  intros R. remember (w_sched x) as s eqn:Es. remember (w_acked x) as a eqn:Ea. revert x Es Ea.
  induction R as [s|s s1 s' M _ IH]; intros x -> ->.
  - by destruct x.
  - eapply rtc_l; [by apply sched_move_step|]. by apply (IH (set_sched s1 x)).
Qed.

Lemma world_run_ok x y : World_ok ctx obj x -> rtc (world_step ctx obj) x y -> World_ok ctx obj y.
Proof. intros I R. induction R as [|x y z Hs _ IH]; [done|]. by apply IH, (world_step_ok ctx obj x). Qed.

(** ** Steps *)

Lemma fresh_sends c sent k : Forall (fun cmd => cmd_lease cmd <> Some k) sent -> fresh c k -> fresh (ch_send sent c) k.
Proof.
  revert c. induction sent as [|cmd sent IH]; intros c HF F; [by rewrite ch_send_nil|]. apply Forall_cons_iff in HF as [Hk HF].
  pose proof (IH _ HF (fresh_send c cmd k Hk F)) as I. unfold ch_send in *. simpl in *. by rewrite <- app_assoc in I.
Qed.

Lemma protocol_sends total c sent st :
  Forall (fun cmd => forall g, g ∈ held st -> cmd_lease cmd <> Some (lease_key g)) sent ->
  protocol obj mb total c st -> protocol obj mb total (ch_send sent c) st.
Proof.
  revert c. induction sent as [|cmd sent IH]; intros c HF P; [by rewrite ch_send_nil|]. apply Forall_cons_iff in HF as [Hk HF].
  pose proof (IH _ HF (protocol_send obj mb total c cmd st Hk P)) as I. unfold ch_send in *. simpl in *. by rewrite <- app_assoc in I.
Qed.

(** A step outside the workers: they keep their leases. *)
Lemma Session_ok_env x q ws acks x' q' acks' :
  Session_ok (mkSession x q ws acks) -> World_ok ctx obj x' ->
  Moves (w_sched x) (w_sched x') (fun _ => False) -> next_lease_id (w_sched x') < u64_max ->
  (receiving x' -> cmds_ok obj (w_ledger x') q') ->
  (forall st, protocol obj mb (sc_total_size ctx) (chan_of x q acks) st ->
              protocol obj mb (sc_total_size ctx) (chan_of x' q' acks') st) ->
  (forall k, fresh (chan_of x q acks) k -> fresh (chan_of x' q' acks') k) ->
  Session_ok (mkSession x' q' ws acks').
Proof.
  intros [S1 S2 S3 S4 S5 S6] I M Hn Hc HP HF. simpl in *. split; simpl; try done.
  - intros k Hk. apply HF, S4. pose proof (mv_ids _ _ _ M). lia.
  - intros i st Hi. destruct (S5 i st Hi) as [K1 K2 K3]. split; [|done|by apply HP].
    eapply Forall_impl; [exact K1|]. intros g Hg. apply (mv_frame _ _ _ M); [done|by intros []].
Qed.

Lemma worker_keys c s st g : WorkerOk obj mb (sc_total_size ctx) c s st -> g ∈ held st -> seg_lease_id g < next_lease_id s.
Proof. intros [K1 _ _] Hg. by destruct (proj1 (Forall_forall _ _) K1 g Hg). Qed.

Lemma Session_ok_worker x q ws acks i st st' s' sent :
  Session_ok (mkSession x q ws acks) -> ws !! i = Some st ->
  StepOk obj mb (sc_total_size ctx) (chan_of x q acks) (w_sched x) st s' st' sent ->
  Session_ok (mkSession (set_sched s' x) (q ++ sent) (<[i := st']> ws) acks).
Proof.
  intros S Hi [M Hid R K Hs Hc Hh]. pose proof S as [S1 S2 S3 S4 S5 S6]. simpl in *.
  assert (forall cmd, cmd ∈ sent -> forall j st2 g, j <> i -> ws !! j = Some st2 -> g ∈ held st2 -> cmd_lease cmd <> Some (lease_key g)) as Hother.
  { intros cmd Hcmd j st2 g Hj Hst Hg. destruct (proj1 (Forall_forall _ _) Hs cmd Hcmd) as (g' & Hg' & ->).
    intros [= E1 E2]. apply (S6 i j st st2 g' g); try done. unfold lease_key. congruence. }
  split; simpl.
  - apply (world_run_ok x); [done|]. by apply sched_run_steps.
  - done.
  - intros Ho. apply cmds_ok_app. split; [by apply S3|done].
  - intros k Hk. apply (fresh_sends (chan_of x q acks)); [|apply S4; pose proof (mv_ids _ _ _ M); lia].
    apply Forall_forall. intros cmd Hcmd. destruct (proj1 (Forall_forall _ _) Hs cmd Hcmd) as (g & Hg & ->).
    pose proof (worker_keys _ _ _ g (S5 i st Hi) Hg) as Hlt. pose proof (mv_ids _ _ _ M). intros [= <-]. simpl in Hk. lia.
  - intros j st2 Hj. destruct (base.decide (i = j)) as [<-|Hne].
    { rewrite lookup_insert_eq in Hj. by injection Hj as <-. }
    rewrite lookup_insert_ne in Hj by done. pose proof (S5 j st2 Hj) as Kj.
    assert (WorkerOk obj mb (sc_total_size ctx) (chan_of x q acks) s' st2) as [K1 K2 K3].
    { eapply (WorkerOk_moves obj mb (sc_total_size ctx)); [exact M| |exact Kj]. intros g Hg (g' & E & Hg')%list_elem_of_fmap.
      by apply (S6 i j st st2 g' g). }
    split; [done|done|]. apply (protocol_sends _ (chan_of x q acks)); [|done].
    apply Forall_forall. intros cmd Hcmd g Hg. by apply (Hother cmd Hcmd j st2).
  - assert (forall j st2 g g', j <> i -> ws !! j = Some st2 -> g ∈ held st' -> g' ∈ held st2 -> lease_key g <> lease_key g') as Hnew.
    { intros j st2 g g' Hj Hst Hg Hg' E. destruct (Hh g Hg) as [(g0 & E0 & Hg0)%list_elem_of_fmap|Hge].
      - apply (S6 i j st st2 g0 g'); try done; congruence.
      - pose proof (worker_keys _ _ _ g' (S5 j st2 Hst) Hg'). apply (f_equal key_lease_id) in E. simpl in E. lia. }
    intros j1 j2 st1 st2 g1 g2 H1 H2 Hne G1 G2. destruct (base.decide (j1 = i)) as [->|N1], (base.decide (j2 = i)) as [->|N2].
    + done.
    + rewrite lookup_insert_eq in H1. injection H1 as <-. rewrite lookup_insert_ne in H2 by done. by apply (Hnew j2 st2).
    + rewrite lookup_insert_eq in H2. injection H2 as <-. rewrite lookup_insert_ne in H1 by done. intros E. by apply (Hnew j1 st1 g2 g1).
    + rewrite lookup_insert_ne in H1, H2 by done. by apply (S6 j1 j2 st1 st2).
Qed.

Lemma freeze_moves s snap h s' :
  Sched_wf s -> freeze ctx s = (snap, h, s') -> Moves s s' (fun _ => False) /\ next_lease_id s' = next_lease_id s.
Proof.
  intros W E. unfold freeze in E. destruct (control_hints s) as [h0 s0] eqn:Eh. injection E as _ _ <-.
  assert (s0 = snd (control_hints s)) as -> by (by rewrite Eh). split; [|done]. split; [destruct W; by split|done|done|].
  intros g [O1 O2 O3 O4] _. by split.
Qed.

Lemma Session_ok_world x q ws acks y : Session_ok (mkSession x q ws acks) -> world_step ctx obj x y -> World_ok ctx obj y.
Proof. intros [S1 _ _ _ _ _]. by apply world_step_ok. Qed.

(** The writer has ended: its queue is dropped. *)
Lemma Session_ok_closed s w w' l o' a fs p q ws acks :
  Session_ok (mkSession (mkWorld s w l Receiving a fs p) q ws acks) -> o' <> Receiving ->
  World_ok ctx obj (mkWorld s w' l o' a fs p) -> Session_ok (mkSession (mkWorld s w' l o' a fs p) [] ws acks).
Proof.
  intros S Ho I. pose proof S as [[[W _] _ _ _ _ _ _ _] S2 _ _ _ _].
  assert (receiving (mkWorld s w' l o' a fs p) = False) as Hc by (by destruct o').
  apply (Session_ok_env _ q _ acks _ _ _ S); try done.
  - intros st. unfold chan_of. rewrite Hc. apply (protocol_closed obj mb (sc_total_size ctx) (chan_of (mkWorld s w l Receiving a fs p) q acks)).
  - intros k _. unfold fresh, chan_of. simpl. by rewrite Hc.
Qed.

Lemma session_step_ok ms ms' :
  Session_ok ms -> session_step ctx obj mb ms ms' ->
  Session_ok ms' /\ rtc (world_step ctx obj) (ms_world ms) (ms_world ms').
Proof.
  intros S Hs. pose proof S as [[[W Ht] _ _ _ _ _ _ _] S2 S3 S4 S5 S6]. destruct Hs; simpl in *.
  - (* a worker *)
    assert (StepOk obj mb (sc_total_size ctx) (chan_of x q acks) (w_sched x) st s' st' sent) as K.
    { apply (worker_step_ok obj mb (sc_total_size ctx) Hchunk Htotal _ _ i); try done; [by apply (S5 i)|].
      intros Hx. simpl. unfold receiving. by rewrite H3 by done. }
    split; [by apply (Session_ok_worker x q ws acks i st)|]. apply sched_run_steps, K.
  - (* the writer handles a command *)
    destruct (S3 I) as [Hok Hrest].
    assert (world_step ctx obj (mkWorld s w l Receiving a fs p)
      (mkWorld s w' (ledger_step l cmd) Receiving (ack_bytes cmd l a) fs (passed cmd p))) as Hw by by apply (ws_writer _ _ _ _ _ _ _ _ _ _ ack).
    split; [|by apply rtc_once]. apply (Session_ok_env _ (cmd :: q) _ acks _ _ _ S); try done.
    + by apply (Session_ok_world _ _ _ _ _ S).
    + intros st. by apply (protocol_handled obj mb (sc_total_size ctx) cmd q (chan_of (mkWorld s w l Receiving a fs p) (cmd :: q) acks)).
    + intros k. by apply (fresh_handled cmd q (chan_of (mkWorld s w l Receiving a fs p) (cmd :: q) acks)).
  - destruct (S3 I) as [Hok _].
    assert (world_step ctx obj (mkWorld s w l Receiving a fs p) (mkWorld s (dropped w') l Failed a fs p)) as Hw by by apply (ws_writer_fails _ _ _ _ _ _ _ _ _ cmd e).
    split; [|by apply rtc_once]. apply (Session_ok_closed _ w _ _ _ _ _ _ _ _ _ S); [done|]. by apply (Session_ok_world _ _ _ _ _ S).
  - assert (world_step ctx obj (mkWorld s w l Receiving a fs p) (mkWorld s w' l ClosedOk a fs p)) as Hw by by apply ws_close.
    split; [|by apply rtc_once]. apply (Session_ok_closed _ w _ _ _ _ _ _ _ _ _ S); [done|]. by apply (Session_ok_world _ _ _ _ _ S).
  - assert (world_step ctx obj (mkWorld s w l Receiving a fs p) (mkWorld s (dropped w') l Failed a fs p)) as Hw by by apply (ws_close_fails _ _ _ _ _ _ _ _ _ e).
    split; [|by apply rtc_once]. apply (Session_ok_closed _ w _ _ _ _ _ _ _ _ _ S); [done|]. by apply (Session_ok_world _ _ _ _ _ S).
  - (* a snapshot is frozen *)
    pose proof (ws_freeze ctx obj s w l o a fs snap h s' H1) as Hw. destruct (freeze_moves s snap h s' W H1) as [M Hid].
    split; [|by apply rtc_once]. apply (Session_ok_env _ q _ acks _ _ _ S); try done.
    + by apply (Session_ok_world _ _ _ _ _ S).
    + simpl. lia.
    + unfold receiving. simpl. destruct o; try done. intros _. apply cmds_ok_app. split; [by apply S3|done].
    + intros st. destruct o; [|done|done]. apply (protocol_send obj mb (sc_total_size ctx) (chan_of (mkWorld s w l Receiving a fs None) q acks)). done.
    + intros k. destruct o; [|done|done]. by apply (fresh_send (chan_of (mkWorld s w l Receiving a fs None) q acks)).
  - pose proof (ws_save ctx obj s w l o a fs fs' snap h r H1 H2) as Hw.
    split; [|by apply rtc_once]. apply (Session_ok_env _ q _ acks _ _ _ S); try done. by apply (Session_ok_world _ _ _ _ _ S).
  - pose proof (ws_abandon ctx obj s w l o a fs p) as Hw.
    split; [|by apply rtc_once]. apply (Session_ok_env _ q _ acks _ _ _ S); try done. by apply (Session_ok_world _ _ _ _ _ S).
Qed.

(** ** Runs *)

Lemma start_idle n i st :
  (list_to_map ((fun i => (i, Idle)) <$> seq 0 n) : gmap nat Worker) !! i = Some st -> st = Idle.
Proof. intros E%elem_of_list_to_map_2. apply list_elem_of_fmap in E as (j & [= _ ->] & _). done. Qed.

Lemma session_start_ok pm f io n wm fs workers :
  Start ctx obj pm f fs -> Session_ok (session_start (world_start pm f io n wm fs) workers).
Proof.
  intros HS. split; simpl.
  - by apply world_start_ok.
  - by vm_compute.
  - done.
  - intros k _ _. simpl. split_and!; [apply lookup_empty|set_solver|constructor].
  - intros i st ->%start_idle. by apply idle_ok.
  - intros i j st st' g g' ->%start_idle _ _ []%not_elem_of_nil.
Qed.

Definition reached (pm : PieceMap) (f : FileState) (io : list IoOutcome) (n : Z) (wm : nat) (fs : Fs) (workers : nat)
    (ms : Session) : Prop :=
  rtc (session_step ctx obj mb) (session_start (world_start pm f io n wm fs) workers) ms.

Lemma reached_ok pm f io n wm fs workers ms :
  Start ctx obj pm f fs -> reached pm f io n wm fs workers ms ->
  Session_ok ms /\ rtc (world_step ctx obj) (world_start pm f io n wm fs) (ms_world ms).
Proof.
  intros HS R. refine (rtc_ind_r (fun ms => Session_ok ms /\ rtc (world_step ctx obj) (world_start pm f io n wm fs) (ms_world ms)) _ _ _ ms R).
  - split; [by apply session_start_ok|done].
  - intros y z _ Hs [I R']. destruct (session_step_ok y z I Hs) as [I' R2]. split; [done|by etrans].
Qed.

(** ** Properties *)

(** C5: the worker protocol implements the checkpoint model.  Every run of a
    session, with any number of workers, servers that may fail, stall or answer
    wrongly, interrupted attempts, retries, hedged requests and I/O failures, is a
    run of the checkpoint model: its guards hold whenever a worker completes a
    lease or keeps a prefix, and every command the writer receives is one it
    accepts. *)
Theorem session_refines_world pm f io n wm fs workers ms :
  Start ctx obj pm f fs -> reached pm f io n wm fs workers ms ->
  rtc (world_step ctx obj) (world_start pm f io n wm fs) (ms_world ms) /\
  (w_status (ms_world ms) = Receiving -> cmds_ok obj (w_ledger (ms_world ms)) (ms_queue ms)).
Proof.
  intros HS R. destruct (reached_ok _ _ _ _ _ _ _ _ HS R) as [[_ _ S3 _ _ _] R']. split; [done|].
  intros E. apply S3. unfold receiving. by rewrite E.
Qed.

(** C12: settlements never find their lease gone.  In every state a session can
    reach, a worker whose flush was acknowledged completes its lease, and one that
    settles an interrupted attempt goes on as its outcome says: the errors for
    stale completions, prefixes and renewals are unreachable.  Different workers
    hold different leases. *)
Theorem no_stale_lease pm f io n wm fs workers ms i st :
  Start ctx obj pm f fs -> reached pm f io n wm fs workers ms -> ms_workers ms !! i = Some st ->
  match st with
  | Completing job next stale =>
      job_key job ∈ ms_acks ms -> fst (complete (job_key job) (w_sched (ms_world ms))) = true
  | Settling job forwarded retain outcome =>
      job_key job ∈ ms_acks ms -> forall st' s',
      settle i job forwarded retain outcome (w_sched (ms_world ms)) = (st', s') -> next_lease_id s' < u64_max ->
      settled_as outcome st'
  | _ => True
  end /\
  forall j st' g g', j <> i -> ms_workers ms !! j = Some st' -> g ∈ held st -> g' ∈ held st' -> lease_key g <> lease_key g'.
Proof.
  intros HS R Hi. destruct (reached_ok _ _ _ _ _ _ _ _ HS R) as [[[[W Ht] _ _ _ _ _ _ _] S2 _ S4 S5 S6] _].
  specialize (S5 i st Hi). split; [|intros j st' g g' Hj Hst; by apply (S6 i j st st')].
  destruct st; try done.
  - intros Ha. destruct (finish_lease job next stale (w_sched (ms_world ms))) as [st s'] eqn:E.
    by apply (complete_step obj mb (sc_total_size ctx) Hchunk _ _ W S2 job next stale st s' S5 Ha).
  - intros Ha st' s' E Hlim.
    by apply (settle_step obj mb (sc_total_size ctx) Hchunk Htotal _ i _ job forwarded retain outcome st' s' W Ht S2 S4 S5 Ha).
Qed.
End Sessions.

(** ** A session

    One worker downloads a piece of three bytes from a server that sends them in
    two frames; a checkpoint is taken; the worker ends and the writer closes. *)

Module DemoSession.
Import DemoCodec Checkpoint.Demo.

Definition mb : MemoryBudget := MemoryBudget_new 64.

Definition assigned : option RequestAssignment * SchedulerState :=
  assign_request_with_trace 0 1 1 0 Fixed 0 0 0 false false false s0.

Definition segment : Segment := mkSegment 0 1 0 3 0 1.
Definition t1 : SchedulerState := snd assigned.
Definition job : Job := job_of segment [].

Definition meta : ResponseMeta := mkMeta (Some 3) (Some 0) (Some 2) (Some 3) true None None None None.
Definition body : list (result bytes DownloadError) := [Ok [0; 1]; Ok [2]].
Definition sends : list WriterCommand := [Data 0 [0; 1] (Some 2%nat) (Some key); Data 2 [2] (Some 1%nat) (Some key)].
Definition next : option RequestStream := Some (mkStream [] [] 3 3 3).

Definition commands : list WriterCommand := BeginLease key :: sends ++ [FlushLease key].

(** The world after [n] of the worker's commands were handled. *)
Fixpoint handled (cmds : list WriterCommand) (x : World) : World :=
  match cmds with
  | [] => x
  | cmd :: cmds =>
      handled cmds (mkWorld (w_sched x) (snd (handle cmd (w_writer x))) (ledger_step (w_ledger x) cmd) Receiving
                            (ack_bytes cmd (w_ledger x) (w_acked x)) (w_fs x) (passed cmd (w_pending x)))
  end.

Definition x0 : World := world_start (PieceMap_new 3 3) demo_file [] 0 64 fs0.
Definition x1 : World := set_sched t1 x0.
Definition x2 : World := handled commands x1.
Definition t3 : SchedulerState := snd (finish_lease job next (str "stale adaptive completion") t1).
Definition x3 : World := set_sched t3 x2.
Definition frozen : ControlSnapshot * ControlHints * SchedulerState := freeze context t3.
Definition x4 : World :=
  mkWorld frozen.2 (w_writer x3) (w_ledger x3) Receiving (w_acked x3) (w_fs x3) (Some (frozen.1, false)).
Definition x5 : World := handled [FlushAll true] x4.
Definition saved : result unit DownloadError * Fs := save_sync frozen.1.1 frozen.1.2 (control_path (str "f")) (w_fs x5).
Definition x6 : World := mkWorld (w_sched x5) (w_writer x5) (w_ledger x5) Receiving (w_acked x5) (snd saved) None.
Definition closed : result unit DownloadError * WriterTask := (flush_all ;! sync_file) (w_writer x6).
Definition x7 : World := mkWorld (w_sched x6) (snd closed) (w_ledger x6) ClosedOk (w_acked x6) (w_fs x6) None.

Definition at_ (st : Worker) (q : list WriterCommand) (x : World) (acks : gset LeaseKey) : Session :=
  mkSession x q {[ 0%nat := st ]} acks.

Definition acks_of (cmds : list WriterCommand) : gset LeaseKey := fold_left (fun acks cmd => acknowledges cmd ∪ acks) cmds ∅.

Definition completing : Session := at_ (Completing job next (str "stale adaptive completion")) [] x2 (acks_of commands).
Definition final : Session := at_ (Exited (Ok tt)) [] x7 (acks_of (commands ++ [FlushAll true])).

Lemma one_worker st st' s' sent q x acks :
  worker_step object mb 0 acks st (w_sched x) st' s' sent -> w_status x = Receiving ->
  session_step context object mb (at_ st q x acks) (at_ st' (q ++ sent) (set_sched s' x) acks).
Proof.
  intros Hw Ho. unfold at_. rewrite <- (insert_singleton_eq 0%nat st' st). apply (ms_worker _ _ _ x q _ acks 0 st); [|done|done].
  by rewrite lookup_singleton_eq.
Qed.

Lemma body_serves : serves object segment 3 body.
Proof. exact chunk_agrees. Qed.

Lemma attempt : attempt_runs object mb job (Ok tt) next sends.
Proof.
  exists (fun _ => []), (fun _ => Running), None, false, 3, (Ok (206, None, meta)), body, 3. split; [by vm_compute|].
  intros _ _. exact body_serves.
Qed.

Definition is_ok {A} (r : result A DownloadError) : bool := match r with Ok _ => true | Err _ => false end.

Lemma consume st cmd q x acks :
  w_status x = Receiving -> is_ok (fst (handle cmd (w_writer x))) = true ->
  session_step context object mb (at_ st (cmd :: q) x acks) (at_ st q (handled [cmd] x) (acknowledges cmd ∪ acks)).
Proof.
  destruct x as [s w l o a fs p]. simpl. intros -> E. destruct (handle cmd w) as [[ack|e] w'] eqn:Eh; [|done].
  by apply (ms_consume _ _ _ s w w' l a fs p cmd ack).
Qed.

Lemma assigns : worker_step object mb 0 ∅ Idle s0 (Ready job) t1 [].
Proof.
  assert (match fst assigned with Some a => segments a = [segment] | None => False end) as Hseg by (vm_compute; reflexivity).
  destruct (fst assigned) as [a|] eqn:Ea; [|done].
  apply (w_assign _ _ _ _ s0 t1 1 1 0 Fixed 0 0 0 false false false a segment []);
    [lia|rewrite <- Ea; apply surjective_pairing|exact Hseg|vm_compute; reflexivity].
Qed.

Lemma reached_completing : reached context object mb (PieceMap_new 3 3) demo_file [] 0 64 fs0 1 completing.
Proof.
  unfold reached.
  eapply rtc_l; [exact (one_worker Idle (Ready job) t1 [] [] x0 ∅ assigns eq_refl)|].
  eapply rtc_l; [exact (one_worker _ _ _ _ [] x1 ∅ (w_begin object mb 0 ∅ t1 job (Ok tt) next sends attempt) eq_refl)|].
  eapply rtc_l; [exact (one_worker _ _ _ _ _ x1 ∅ (w_send object mb 0 ∅ t1 job 0 _ _ _ _ _ (Ok tt) next) eq_refl)|].
  eapply rtc_l; [exact (one_worker _ _ _ _ _ x1 ∅ (w_send object mb 0 ∅ t1 job 2 _ _ _ _ _ (Ok tt) next) eq_refl)|].
  eapply rtc_l; [exact (one_worker _ _ _ _ _ x1 ∅ (w_finish object mb 0 ∅ t1 job _ next) eq_refl)|].
  do 4 (eapply rtc_l; [apply consume; vm_compute; reflexivity|]).
  apply rtc_refl.
Qed.

Lemma reached_final : reached context object mb (PieceMap_new 3 3) demo_file [] 0 64 fs0 1 final.
Proof.
  unfold reached. etrans; [exact reached_completing|].
  eapply rtc_l.
  { apply (one_worker _ Idle t3 [] [] x2); [|reflexivity].
    apply (w_complete object mb 0 _ t1 job next); [by vm_compute|]. apply injective_projections; [by vm_compute|reflexivity]. }
  eapply rtc_l. { apply (ms_freeze context object mb t3 (w_writer x3) _ Receiving _ _ frozen.1.1 frozen.1.2 frozen.2). 
    unfold frozen. by destruct (freeze context t3) as [[? ?] ?]. }
  eapply rtc_l; [apply (consume _ (FlushAll true)); vm_compute; reflexivity|].
  eapply rtc_l.
  { apply (ms_save context object mb (w_sched x5) (w_writer x5) (w_ledger x5) Receiving (w_acked x5) (w_fs x5) (snd saved)
      frozen.1.1 frozen.1.2 (fst saved)); [apply surjective_pairing|].
    intros payload [= <-]. vm_compute. reflexivity. }
  eapply rtc_l; [apply (one_worker _ (Exited (Ok tt)) (w_sched x6) [] [] x6); [apply w_done; vm_compute; reflexivity|reflexivity]|].
  eapply rtc_l; [|apply rtc_refl].
  apply (ms_close context object mb (w_sched x6) (w_writer x6) (snd closed) (w_ledger x6) (w_acked x6) (w_fs x6) None); [|apply run_fst; vm_compute; reflexivity].
  by apply map_Forall_singleton.
Qed.
End DemoSession.

Import DemoCodec.

Lemma session_refines_world_witness :
  rtc (world_step Demo.context Demo.object) (world_start (PieceMap_new 3 3) demo_file [] 0 64 Demo.fs0) (ms_world DemoSession.final).
Proof.
  exact (proj1 (session_refines_world Demo.context Demo.object DemoSession.mb ltac:(vm_compute; lia) ltac:(vm_compute; reflexivity)
    (PieceMap_new 3 3) demo_file [] 0 64 Demo.fs0 1 DemoSession.final Demo.start DemoSession.reached_final)).
Defined.

Lemma no_stale_lease_witness :
  Demo.key ∈ ms_acks DemoSession.completing /\
  fst (complete Demo.key (w_sched (ms_world DemoSession.completing))) = true.
Proof.
  assert (Demo.key ∈ ms_acks DemoSession.completing) as Ha by (by vm_compute). split; [exact Ha|].
  exact (proj1 (no_stale_lease Demo.context Demo.object DemoSession.mb ltac:(vm_compute; lia) ltac:(vm_compute; reflexivity)
    (PieceMap_new 3 3) demo_file [] 0 64 Demo.fs0 1 DemoSession.completing 0
    (Completing DemoSession.job DemoSession.next (str "stale adaptive completion"))
    Demo.start DemoSession.reached_completing eq_refl) Ha).
Defined.
