(* ===== verification/Multi.v ===== *)
(** * The end of a session ([run_multi_worker] of [src/session/multi.rs])

    The monitor waits for a stop request, a save tick or a worker; then the
    workers are drained, the writer is joined and the result is reported. *)

From S2P Require Import Prelude RustStr Errors PieceMap Ranges Segment Scheduler SchedInv SchedSpec Planner Reserve Assign Dynamic SchedProps Cache Writer WriterInv WriterProps WriterRun Flow Retry Response RangeValidate Control Resume Checkpoint Request Hedge Workers Owned WorkersInv Sessions.

(** ** The monitor loop *)

(** What the [select!] sees, in its order of preference.  A save reads the
    scheduler at that moment and waits for the writer's answer to [FlushAll];
    [running] is the number of workers still running. *)
Inductive MonitorEvent :=
| StopRequested (error : DownloadError) (s : SchedulerState) (flush : result unit DownloadError)
| SaveTick (s : SchedulerState) (flush : result unit DownloadError)
| ProgressTick
| WorkerEnded (r : result (result unit DownloadError) rstr) (running : nat)
| NoWorkers.

Section Exit.
  Context `{RawBits} `{Codec} (ctx : SaveContext) (resume : bool).

(** [persist_multi_control_snapshot] on the shared scheduler [s]. *)
Definition persist_at (reason : ControlSaveReason) (flush : option (result unit DownloadError)) (s : SchedulerState)
    (p : ControlSaveTracker * Fs) : result unit DownloadError * (ControlSaveTracker * Fs) :=
  let '(r, p') := persist_multi_control_snapshot ctx reason flush (mkPersist p.1 s p.2) in (r, (ps_tracker p', ps_fs p')).

(** The loop, with the [download_error] it leaves. *)
Fixpoint monitor (events : list MonitorEvent) (p : ControlSaveTracker * Fs)
    : option (option DownloadError * (ControlSaveTracker * Fs)) :=
  match events with
  | [] => None
  | StopRequested error s flush :: _ =>
      if resume then
        match persist_at Terminal (Some flush) s p with
        | (Ok _, p) => Some (Some error, p)
        | (Err save_error, p) => Some (Some save_error, p)
        end
      else Some (Some error, p)
  | SaveTick s flush :: events =>
      monitor events (if resume then snd (persist_at Autosave (Some flush) s p) else p)
  | ProgressTick :: events => monitor events p
  | WorkerEnded (Ok (Ok _)) running :: events =>
      if (running =? 0)%nat then Some (None, p) else monitor events p
  | WorkerEnded (Ok (Err e)) _ :: _ => Some (Some e, p)
  | WorkerEnded (Err join_err) _ :: _ => Some (Some (TaskFailed (str "worker task failed: " ++ join_err)), p)
  | NoWorkers :: _ => Some (None, p)
  end.

(** ** The result *)

(** After the workers are gone: the writer is joined, the last checkpoint saved or
    the control file deleted. *)
Definition multi_exit (download_error : option DownloadError) (writer : result (result unit DownloadError) rstr)
    (s : SchedulerState) (p : ControlSaveTracker * Fs) : result unit DownloadError * (ControlSaveTracker * Fs) :=
  match writer with
  | Err e => (Err (TaskFailed (str "writer panicked: " ++ e)), p)
  | Ok writer_result =>
      let writer_succeeded := match writer_result with Ok _ => true | Err _ => false end in
      let download_error := match writer_result with Err error => Some error | Ok _ => download_error end in
      match download_error with
      | Some e => (Err e, if resume && writer_succeeded then snd (persist_at Terminal None s p) else p)
      | None =>
          if negb (all_done s) then
            (Err (Internal (str "download incomplete")), if resume then snd (persist_at Terminal None s p) else p)
          else
            let '(r, fs) := delete_control (control_path (sc_output ctx)) (p.2) in (r, (p.1, fs))
      end
  end.

Definition run_multi (events : list MonitorEvent) (writer : result (result unit DownloadError) rstr) (s : SchedulerState)
    (p : ControlSaveTracker * Fs) : option (result unit DownloadError * (ControlSaveTracker * Fs)) :=
  '(download_error, p) ← monitor events p;
  Some (multi_exit download_error writer s p).

End Exit.

Section ExitProps.
  Context `{RawBits} `{Codec} (ctx : SaveContext).

(** ** Saves *)

Definition is_stop (e : DownloadError) : bool := match e with Cancelled | Paused => true | _ => false end.

(** The control file holds exactly the checkpoint of [s], synced. *)
Definition holds_checkpoint (s : SchedulerState) (fs : Fs) : Prop :=
  exists payload, serialize_v2 (freeze ctx s).1.1 (freeze ctx s).1.2 = Ok payload /\
    fs_files fs !! control_path (sc_output ctx) = Some (mkFsFile (encoded VERSION payload) true).

Lemma fs_call_error good bad fs e fs' : fs_call good bad fs = (Err e, fs') -> is_stop e = false.
Proof. unfold fs_call. by destruct (default IoOk (head (fs_io fs))); intros [= <- _]. Qed.

Lemma then_error {S A B} (m : StateRes S A) (k : StateRes S B) (P : DownloadError -> Prop) :
  (forall s e s', m s = (Err e, s') -> P e) -> (forall s e s', k s = (Err e, s') -> P e) ->
  forall s e s', (m ;! k) s = (Err e, s') -> P e.
Proof.
  intros Hm Hk s e s' E. apply res_bind_any in E as [(a & s1 & _ & E2)|(e' & E1 & [= ->])]; [by apply (Hk _ _ _ E2)|by apply (Hm _ _ _ E1)].
Qed.

Lemma save_error snap hints path fs e fs' : save_sync snap hints path fs = (Err e, fs') -> is_stop e = false.
Proof.
  unfold save_sync. destruct (serialize_v2 snap hints) as [payload|m]; [|by intros [= <- _]].
  revert fs e fs'. repeat apply then_error; intros fs e fs'; apply fs_call_error.
Qed.

Lemma persist_terminal flush s p r p' :
  persist_at ctx Terminal flush s p = (r, p') ->
  match r with
  | Ok _ => holds_checkpoint s p'.2
  | Err e => fs_files p'.2 !! control_path (sc_output ctx) = fs_files p.2 !! control_path (sc_output ctx) /\
      (is_stop e = true -> flush = Some (Err e))
  end.
Proof.
  unfold persist_at, persist_multi_control_snapshot, holds_checkpoint. cbn [is_terminal negb andb ps_tracker ps_sched ps_fs].
  destruct (freeze ctx s) as [[snap hints] sched]. simpl.
  assert (forall r p', (let '(r, p') := match save_sync snap hints (control_path (sc_output ctx)) p.2 with
    | (Ok _, fs) => (Ok tt, mkPersist (mark_saved (ctrl_downloaded_bytes snap) p.1) sched fs)
    | (Err e, fs) => (Err e, mkPersist p.1 sched fs) end in (r, (ps_tracker p', ps_fs p'))) = (r, p') ->
    match r with
    | Ok _ => exists payload, serialize_v2 snap hints = Ok payload /\
        fs_files p'.2 !! control_path (sc_output ctx) = Some (mkFsFile (encoded VERSION payload) true)
    | Err e => fs_files p'.2 !! control_path (sc_output ctx) = fs_files p.2 !! control_path (sc_output ctx) /\ is_stop e = false
    end) as Hsave.
  { intros r1 p1. destruct (save_sync _ _ _ _) as [[|e] fs'] eqn:E; intros [= <- <-]; simpl; apply save_sync_atomic in E as Ea;
      destruct Ea as [Ea _]; [done|]. split; [done|]. by apply save_error in E. }
  destruct flush as [[[]|e]|]; [|by intros [= <- <-]|]; intros E%Hsave; destruct r; try done; destruct E as [E1 E2]; (split; [done|]); congruence.
Qed.

(** ** Properties *)

(** Events of the monitor other than the stop itself carry no stop error: the
    stop branch is polled first, and a save fails with a storage error. *)
Definition event_ok (ev : MonitorEvent) : Prop :=
  match ev with
  | StopRequested _ _ flush | SaveTick _ flush => forall e, flush = Err e -> is_stop e = false
  | WorkerEnded (Ok (Err e)) _ => is_stop e = false
  | _ => True
  end.

Lemma monitor_stop events p e p' :
  Forall event_ok events -> monitor ctx true events p = Some (Some e, p') -> is_stop e = true ->
  exists s flush, StopRequested e s flush ∈ events /\ holds_checkpoint s p'.2.
Proof.
  revert p. induction events as [|ev events IH]; intros p Hev E Hs; [done|].
  apply Forall_cons_iff in Hev as [Hev Hevs]. destruct ev as [error s flush|s flush| |[[[]|e']|m] running|]; cbn [monitor] in E.
  - destruct (persist_at ctx Terminal (Some flush) s p) as [[[]|save] p1] eqn:Ep; injection E as <- <-; apply persist_terminal in Ep.
    + exists s, flush. split; [apply list_elem_of_here|done].
    + destruct Ep as [_ Ep]. injection (Ep Hs) as ->. by rewrite (Hev _ eq_refl) in Hs.
  - destruct (IH _ Hevs E Hs) as (s' & f & Hin & Hc). exists s', f. split; [by apply list_elem_of_further|done].
  - destruct (IH _ Hevs E Hs) as (s' & f & Hin & Hc). exists s', f. split; [by apply list_elem_of_further|done].
  - destruct (running =? 0)%nat; [done|]. destruct (IH _ Hevs E Hs) as (s' & f & Hin & Hc). exists s', f.
    split; [by apply list_elem_of_further|done].
  - injection E as <- <-. simpl in Hev. congruence.
  - by injection E as <- <-.
  - done.
Qed.

(** C15: a pause that is reported can be resumed.  When a resumable session ends
    with the stop error, the control file on disk is the synced checkpoint of the
    scheduler, either at the stop request or after the writer has closed; a stop
    whose checkpoint could not be written is reported as the storage error. *)
Theorem stop_reported_is_saved events writer s p e p' :
  Forall event_ok events -> (forall e, writer = Ok (Err e) -> is_stop e = false) ->
  run_multi ctx true events writer s p = Some (Err e, p') -> is_stop e = true ->
  exists s0 flush, StopRequested e s0 flush ∈ events /\ (holds_checkpoint s0 p'.2 \/ holds_checkpoint s p'.2).
Proof.
  intros Hev Hw E Hs. unfold run_multi in E. destruct (monitor ctx true events p) as [[derr p1]|] eqn:Em; [|done].
  simpl in E. injection E as E. unfold multi_exit in E. destruct writer as [[[]|we]|m]; [|injection E as <- _|injection E as <- _; done].
  2: { by rewrite (Hw _ eq_refl) in Hs. }
  destruct derr as [e0|].
  - injection E as <- <-. destruct (monitor_stop events p e0 p1 Hev Em Hs) as (s0 & flush & Hin & Hc). exists s0, flush.
    split; [done|]. simpl. destruct (persist_at ctx Terminal None s p1) as [r p2] eqn:Ep. apply persist_terminal in Ep. simpl.
    destruct r as [[]|e']; [by right|left]. destruct Hc as (payload & Hp1 & Hp2). exists payload. split; [done|]. by rewrite (proj1 Ep).
  - destruct (negb (all_done s)); [by injection E as <- _|]. destruct (delete_control _ _) as [r fs] eqn:Ed. injection E as -> <-.
    apply delete_control_spec in Ed as [[kind ->] _]. done.
Qed.

(** The end of a session that succeeds. *)
Lemma multi_exit_ok obj mb pm f io n wm fs workers ms resume download_error writer t p' :
  (1 <= max_chunk mb)%nat -> sc_total_size ctx < u64_max ->
  Start ctx obj pm f fs -> reached ctx obj mb pm f io n wm fs workers ms ->
  (writer = Ok (Ok tt) -> w_status (ms_world ms) = ClosedOk) ->
  multi_exit ctx resume download_error writer (w_sched (ms_world ms)) (t, w_fs (ms_world ms)) = (Ok tt, p') ->
  (forall b, 0 <= b < sc_total_size ctx -> durable (file (w_writer (ms_world ms))) b = Some (obj b)) /\
  fs_files p'.2 !! control_path (sc_output ctx) = None.
Proof.
  intros Hm Ht HS R Hw E. destruct (reached_ok ctx obj mb Hm Ht _ _ _ _ _ _ _ _ HS R) as [_ R'].
  unfold multi_exit in E. destruct writer as [[[]|we]|m]; [|done|done]. destruct download_error; [done|].
  destruct (all_done (w_sched (ms_world ms))) eqn:Ed; [|done]. simpl in E.
  destruct (delete_control _ _) as [r fs'] eqn:Ef. injection E as -> <-. apply delete_control_spec in Ef. split; [|done].
  by apply (finished_file_is_object ctx obj pm f io n wm fs (ms_world ms) HS R' (Hw eq_refl)).
Qed.

(** C3: a session that reports success has the object.  In every interleaving of
    workers, writer and checkpoints, with servers that fail, interrupted and
    hedged attempts, retries and I/O failures on the way: when the session
    returns [Ok], every byte of the output file is on stable storage with the
    value it has in the downloaded object, and no control file is left. *)
Theorem session_ok_is_object obj mb pm f io n wm fs workers ms resume download_error writer t p' :
  (1 <= max_chunk mb)%nat -> sc_total_size ctx < u64_max ->
  Start ctx obj pm f fs -> reached ctx obj mb pm f io n wm fs workers ms ->
  (writer = Ok (Ok tt) -> w_status (ms_world ms) = ClosedOk) ->
  multi_exit ctx resume download_error writer (w_sched (ms_world ms)) (t, w_fs (ms_world ms)) = (Ok tt, p') ->
  (forall b, 0 <= b < sc_total_size ctx -> durable (file (w_writer (ms_world ms))) b = Some (obj b)) /\
  fs_files p'.2 !! control_path (sc_output ctx) = None.
Proof. apply multi_exit_ok. Qed.

(** C4: checkpoints are crash consistent.  At every moment of a session, also in
    the middle of a save, after a failed write or a failed sync, a control file
    that loads describes only pieces whose bytes are all on stable storage with
    the object's values: a download resumed after a crash never keeps a piece that
    is not there. *)
Theorem session_crash_consistent obj mb pm f io n wm fs workers ms :
  (1 <= max_chunk mb)%nat -> sc_total_size ctx < u64_max ->
  Start ctx obj pm f fs -> reached ctx obj mb pm f io n wm fs workers ms ->
  forall g snap h i b,
    fs_files (w_fs (ms_world ms)) !! control_path (sc_output ctx) = Some g -> parse_control (fs_data g) = Ok (snap, h) ->
    bit (ctrl_piece_map snap) i = true ->
    piece_lo (ctrl_piece_size snap) i <= b < piece_hi (ctrl_total_size snap) (ctrl_piece_size snap) i ->
    durable (file (w_writer (ms_world ms))) b = Some (obj b).
Proof.
  intros Hm Ht HS R. destruct (reached_ok ctx obj mb Hm Ht _ _ _ _ _ _ _ _ HS R) as [_ R'].
  by apply (checkpoint_crash_consistent ctx obj pm f io n wm fs (ms_world ms) HS R').
Qed.
End ExitProps.

Import DemoCodec.

Lemma demo_limits : (1 <= max_chunk DemoSession.mb)%nat /\ sc_total_size Demo.context < u64_max.
Proof. split; [vm_compute; lia|vm_compute; reflexivity]. Qed.

Lemma session_ok_is_object_witness :
  w_status (ms_world DemoSession.final) = ClosedOk /\
  durable (file (w_writer (ms_world DemoSession.final))) 2 = Some 2.
Proof.
  split; [reflexivity|]. destruct demo_limits as [Hm Ht].
  destruct (multi_exit Demo.context true None (Ok (Ok tt)) (w_sched (ms_world DemoSession.final))
    (tracker_new 0, w_fs (ms_world DemoSession.final))) as [r p'] eqn:E.
  assert (r = Ok tt) as -> by (vm_compute in E; by injection E as <- _).
  destruct (session_ok_is_object Demo.context Demo.object DemoSession.mb (PieceMap_new 3 3) demo_file [] 0 64 Demo.fs0 1
    DemoSession.final true None (Ok (Ok tt)) (tracker_new 0) p' Hm Ht Demo.start DemoSession.reached_final
    (fun _ => eq_refl) E) as [Hd _].
  apply Hd. simpl. lia.
Defined.

Lemma session_crash_consistent_witness : exists g snap h,
  fs_files (w_fs (ms_world DemoSession.final)) !! control_path (str "f") = Some g /\ parse_control (fs_data g) = Ok (snap, h) /\
  durable (file (w_writer (ms_world DemoSession.final))) 1 = Some 1.
Proof.
  destruct (fs_files (w_fs (ms_world DemoSession.final)) !! control_path (str "f")) as [g|] eqn:Eg; [|vm_compute in Eg; discriminate Eg].
  assert (parse_control (fs_data g) = Ok (DemoSession.frozen.1.1, DemoSession.frozen.1.2)) as Ep
    by (vm_compute in Eg; injection Eg as <-; vm_compute; reflexivity).
  exists g, DemoSession.frozen.1.1, DemoSession.frozen.1.2. split; [reflexivity|]. split; [exact Ep|]. destruct demo_limits as [Hm Ht].
  refine (session_crash_consistent Demo.context Demo.object DemoSession.mb (PieceMap_new 3 3) demo_file [] 0 64 Demo.fs0 1
    DemoSession.final Hm Ht Demo.start DemoSession.reached_final g _ _ 0 1 Eg Ep _ _); [vm_compute; reflexivity|].
  vm_compute. split; [discriminate|reflexivity].
Defined.

Lemma stop_reported_is_saved_witness : exists p',
  run_multi Demo.context true [SaveTick Demo.s1 (Ok tt); StopRequested Paused Demo.s2 (Ok tt)] (Ok (Ok tt)) Demo.s2
    (tracker_new 0, Demo.fs0) = Some (Err Paused, p') /\ holds_checkpoint Demo.context Demo.s2 p'.2.
Proof.
  destruct (run_multi Demo.context true [SaveTick Demo.s1 (Ok tt); StopRequested Paused Demo.s2 (Ok tt)] (Ok (Ok tt)) Demo.s2
    (tracker_new 0, Demo.fs0)) as [[r p']|] eqn:E; [|vm_compute in E; discriminate E].
  assert (r = Err Paused) as -> by (vm_compute in E; by injection E as <- _). exists p'. split; [reflexivity|].
  destruct (stop_reported_is_saved Demo.context [SaveTick Demo.s1 (Ok tt); StopRequested Paused Demo.s2 (Ok tt)] (Ok (Ok tt)) Demo.s2
    (tracker_new 0, Demo.fs0) Paused p') as (s0 & flush & Hin & [Hc|Hc]); [repeat constructor; done|done|exact E|done| |done].
  apply elem_of_cons in Hin as [Hin|Hin]; [done|]. apply list_elem_of_singleton in Hin. by injection Hin as -> _.
Defined.

