(* ===== verification/WriterStream.v ===== *)
(** * The writer on one stream

    A transfer without leases hands the writer one contiguous stream.  The bytes
    the task reports as written are then a prefix of the stream, and after a flush
    all of it. *)

From S2P Require Import Prelude RustStr Segment Errors Cache Writer WriterInv WriterProps WriterRun Flow.

(** The stream has been received up to [e]: what is not written is buffered, right
    behind what is. *)
Definition Pos (w : WriterTask) (e : Z) : Prop :=
  cache w = cache_new /\
  match single w with
  | None => written_bytes w = e
  | Some (o, d) => d <> [] /\ written_bytes w = o /\ o + blen d = e
  end.

Lemma complete_same w e w' :
  complete_inflight w = (Ok e, w') -> single w' = single w /\ cache w' = cache w /\ written_bytes w' = written_bytes w.
Proof.
  unfold complete_inflight, res_bind, read_state, next_io, update_state. destruct (inflight w) as [[o d]|]; [|by intros [= _ <-]].
  simpl. destruct (default IoOk (head (io w))); by intros [= _ <-].
Qed.

Lemma report_same w w' :
  report_error w = (Ok tt, w') -> single w' = single w /\ cache w' = cache w /\ written_bytes w' = written_bytes w.
Proof.
  unfold report_error. intros E. apply res_bind_Ok in E as (w0 & w1 & [= -> ->] & E). destruct (write_err w1); [done|].
  apply res_bind_Ok in E as (e & w2 & E2 & E). apply complete_same in E2. destruct e; [done|]. by injection E as <-.
Qed.

Lemma seek_same o w w' :
  seek o w = (Ok tt, w') -> single w' = single w /\ cache w' = cache w /\ written_bytes w' = written_bytes w.
Proof.
  unfold seek. intros E. apply res_bind_Ok in E as (e & w1 & E1%complete_same & E). apply res_bind_Ok in E as ([] & w2 & [= <-] & E).
  unfold res_bind, next_io in E. simpl in E. destruct (default IoOk _); [|done]. injection E as <-. by destruct e.
Qed.

Lemma write_block_written o d w w' :
  write_block o d w = (Ok tt, w') ->
  single w' = single w /\ cache w' = cache w /\ written_bytes w' = Z.max (written_bytes w) (o ⊕ blen d).
Proof.
  intros E. unfold write_block in E. apply res_bind_Ok in E as (w0 & w0' & [= -> ->] & E).
  apply res_bind_Ok in E as ([] & w1 & E1 & E).
  assert (single w1 = single w0' /\ cache w1 = cache w0' /\ written_bytes w1 = written_bytes w0') as (S1 & S2 & S3)
    by (case_bool_decide; [by injection E1 as <-|by apply seek_same in E1]).
  apply res_bind_Ok in E as ([] & w2 & [= <-] & E). apply res_bind_Ok in E as ([] & w3 & E3 & E). injection E as <-. simpl.
  unfold write_all in E3. case_bool_decide; [injection E3 as <-; simpl; by rewrite S1, S2, S3|].
  apply res_bind_Ok in E3 as ([] & w4 & (R1 & R2 & R3)%report_same & E3). unfold res_bind, next_io in E3. simpl in E3.
  destruct (default IoOk _); [|done]. injection E3 as <-. simpl in *. by rewrite R1, R2, R3, S1, S2, S3.
Qed.

Lemma flush_single_pos w w' e :
  0 <= e <= u64_max -> Pos w e -> (forall o d, single w = Some (o, d) -> 0 <= o) -> flush_single w = (Ok tt, w') ->
  cache w' = cache_new /\ single w' = None /\ written_bytes w' = e.
Proof.
  intros He [C P] H0 E. unfold flush_single, res_bind, read_state in E. destruct (single w) as [[o d]|] eqn:Es.
  - unfold update_state in E. apply write_block_written in E as (S1 & S2 & S3). simpl in *. destruct P as (Hd & P1 & P2).
    specialize (H0 o d eq_refl). pose proof (Zle_0_nat (length d)). unfold blen in *.
    rewrite u64_add_exact in S3 by (unfold u64_max in *; lia). split_and!; [congruence|done|lia].
  - injection E as <-. by split_and!.
Qed.

Lemma flush_all_pos w w' e :
  0 <= e <= u64_max -> Pos w e -> (forall o d, single w = Some (o, d) -> 0 <= o) -> flush_all w = (Ok tt, w') ->
  cache w' = cache_new /\ single w' = None /\ written_bytes w' = e.
Proof.
  intros He P H0 E. unfold flush_all in E. apply res_bind_Ok in E as ([] & w1 & E1 & E2).
  destruct (flush_single_pos w w1 e He P H0 E1) as (C1 & S1 & W1). unfold res_bind, read_state, update_state in E2.
  unfold drain_all in E2. rewrite C1 in E2. unfold cache_new in E2. simpl in E2. rewrite map_to_list_empty in E2. simpl in E2.
  by injection E2 as <-.
Qed.

Section Stream.
  Context (obj : Z -> Z).

(** The stream's bytes up to [e] are in the buffer or in the file. *)
Record Stream (w : WriterTask) (e : Z) : Prop := {
  st_inv : WInv obj (fun key b => key = None /\ 0 <= b < e) w;
  st_leases : active_leases w = ∅;
  st_pos : Pos w e;
  st_range : 0 <= e <= u64_max;
}.

Definition stream_ledger (e : Z) : Ledger := mkLedger ∅ (fun key b => key = None /\ 0 <= b < e).

Lemma Stream_tracks w e : Stream w e -> Tracks obj (stream_ledger e) w.
Proof. intros [I L _ _]. by split. Qed.

Lemma single_nonneg w e o d : Stream w e -> single w = Some (o, d) -> 0 <= o.
Proof. intros [I _ _ _] Es. by apply (wi_single _ _ _ I) in Es as [(? & _) _]. Qed.

Lemma maybe_flush_pos (c : bool) w w' e :
  0 <= e <= u64_max -> Pos w e -> (forall o d, single w = Some (o, d) -> 0 <= o) ->
  (if c then flush_all else ok tt) w = (Ok tt, w') -> Pos w' e.
Proof.
  intros He P H0 E. destruct c; [|by injection E as <-].
  destruct (flush_all_pos w w' e He P H0 E) as (C & S & W'). split; [done|]. by rewrite S.
Qed.

Lemma buffer_single_pos w w' e data :
  0 <= e -> e + blen data <= u64_max -> data <> [] -> Pos w e -> (forall o d, single w = Some (o, d) -> 0 <= o) ->
  buffer_single e data w = (Ok tt, w') -> Pos w' (e + blen data) /\ (forall o d, single w' = Some (o, d) -> 0 <= o).
Proof.
  intros He Hu Hd P H0 E. pose proof (Zle_0_nat (length data)) as Hl. fold (blen data) in Hl.
  assert (e <= u64_max) as He' by lia. unfold buffer_single in E. rewrite bool_decide_eq_false_2 in E by done.
  apply res_bind_Ok in E as (w0 & w1 & [= <- <-] & E). destruct (_ <=? _).
  - apply res_bind_Ok in E as ([] & w2 & E2 & E). destruct (flush_single_pos w w2 e ltac:(lia) P H0 E2) as (C2 & S2 & W2).
    apply res_bind_Ok in E as ([] & w3 & E3 & [= <-]). apply write_block_written in E3 as (S3 & C3 & W3).
    rewrite u64_add_exact in W3 by (unfold u64_max in *; lia). split; [split; simpl; [congruence|]|simpl; congruence].
    rewrite S3, S2. lia.
  - unfold res_bind at 1, update_state in E. destruct (default (e, []) (single w)) as [start buf] eqn:Ed. simpl in E.
    set (w2 := set_single (Some (start, buf ++ data)) w) in *.
    assert (Pos w2 (e + blen data) /\ 0 <= start) as [P2 Hs].
    { destruct P as [C P]. subst w2. destruct (single w) as [[o d]|] eqn:Es; simpl in Ed; injection Ed as <- <-.
      - destruct P as (P0 & P1 & P2). split; [|by apply (H0 o d)]. split; [done|]. simpl. rewrite blen_app.
        split_and!; [by destruct d|done|lia].
      - split; [|done]. split; [done|]. by simpl. }
    unfold res_bind at 1, read_state in E. destruct (_ <=? _).
    + apply res_bind_Ok in E as ([] & w3 & E3 & [= <-]).
      destruct (flush_single_pos w2 w3 (e + blen data) ltac:(lia) P2 ltac:(by intros o d [= <- _]) E3) as (C3 & S3 & W3).
      split; [split; simpl; [done|by rewrite S3]|simpl; congruence].
    + injection E as <-. split; [done|]. by intros o d [= <- _].
Qed.

Lemma handle_data_pos w w' e data permit :
  Stream w e -> e + blen data <= u64_max -> data <> [] -> handle_data e data permit None w = (Ok tt, w') -> Pos w' (e + blen data).
Proof.
  intros S Hu Hd E. pose proof (st_range _ _ S). pose proof (st_pos _ _ S) as P.
  pose proof (fun o d => single_nonneg w e o d S) as H0. pose proof (Zle_0_nat (length data)) as Hl. fold (blen data) in Hl.
  rewrite handle_data_unfold in E. apply res_bind_Ok in E as ([] & w1 & E1 & E).
  assert (w1 = w) as ->.
  { unfold flush_stale, res_bind, read_state in E1. rewrite bool_decide_eq_false_2 in E1 by done. simpl in E1.
    destruct P as [_ P]. destruct (single w) as [[o d]|] eqn:Es; [|by injection E1].
    destruct P as (_ & _ & P). specialize (H0 o d eq_refl). pose proof (Zle_0_nat (length d)).
    rewrite u64_add_exact, P, Z.eqb_refl in E1 by (unfold blen, u64_max in *; lia). by injection E1. }
  apply res_bind_Ok in E as ([] & w2 & E2 & E). simpl in E2. rewrite (proj1 P) in E2. injection E2 as <-.
  apply res_bind_Ok in E as ([] & w3 & E3 & E). unfold take_chunk in E3.
  destruct (buffer_single_pos (with_permit permit None w) w3 e data) as [P3 H3]; try done; try lia.
  - by destruct permit.
  - intros o d Es. apply (H0 o d). by destruct permit.
  - eapply maybe_flush_pos; [|exact P3|exact H3|exact E]. lia.
Qed.

(** ** Commands *)

Lemma stream_data w e data permit a w' :
  Stream w e -> agrees obj e data -> data <> [] -> handle (Data e data permit None) w = (Ok a, w') ->
  Stream w' (e + blen data) /\ Carried obj w w'.
Proof.
  intros S Ha Hd E. destruct (handle_spec obj _ (Data e data permit None) _ _ _ (Stream_tracks w e S) Ha E) as ([I L] & A & _ & _).
  simpl in E. apply res_bind_Ok in E as ([] & w1 & E1 & [= _ <-]). pose proof (st_range _ _ S). pose proof (Zle_0_nat (length data)).
  destruct Ha as (_ & Hu & _). split; [|done]. split; [|done|by apply (handle_data_pos w w1 e data permit)|unfold blen in *; lia].
  apply (WInv_mono _ _ _ _ I). intros k b [-> Hb]. destruct (Z.lt_ge_cases b e); [left; split; [done|lia]|right].
  split_and!; [done|done|unfold in_block; lia].
Qed.

Lemma stream_flush w e a w' :
  Stream w e -> handle (FlushAll true) w = (Ok a, w') ->
  a = AllFlushed e true /\ Stream w' e /\ single w' = None /\ inflight w' = None /\
  durable (file w') = contents (file w') /\ (forall b, 0 <= b < e -> durable (file w') b = Some (obj b)).
Proof.
  intros S E. destruct (handle_spec obj _ (FlushAll true) _ _ _ (Stream_tracks w e S) I E) as ([I' L] & A & (Ea & Hd) & _).
  simpl in E. apply res_bind_Ok in E as ([] & w1 & E1 & E). apply res_bind_Ok in E as ([] & w2 & E2 & E).
  destruct (flush_all_pos w w1 e (st_range _ _ S) (st_pos _ _ S) (fun o d => single_nonneg w e o d S) E1) as (C1 & S1 & W1).
  destruct (flush_all_spec obj _ _ _ (st_inv _ _ S) E1) as (I1 & _).
  destruct (sync_file_spec obj _ _ _ I1 E2) as (_ & _ & (D1 & D2 & D3 & D4) & N & W2 & D & _).
  unfold res_bind, read_state in E. injection E as _ <-. split_and!; try done.
  - rewrite Ea. f_equal. congruence.
  - split; [done|done| |apply S]. split; [congruence|]. rewrite D3, S1. congruence.
  - congruence.
  - intros b Hb. by apply (Hd None).
Qed.

Lemma stream_receive m e data cmds w acks w' :
  Chunked m None e data cmds -> agrees obj e data -> Stream w e -> receive cmds w = (Ok acks, w') ->
  Stream w' (e + blen data).
Proof.
  revert e data w acks. induction cmds as [|cmd cmds IH]; intros e data w acks Hc Ha S E.
  { simpl in Hc. subst data. injection E as <- <-. unfold blen. simpl. by rewrite Z.add_0_r. }
  destruct cmd as [|offset d permit key| | |]; try done. destruct Hc as (-> & -> & _ & Hl & rest & -> & Hc).
  simpl in E. apply res_bind_Ok in E as (a & w1 & E1 & E). apply res_bind_Ok in E as (acks' & w2 & E2 & [= <- <-]).
  apply agrees_split in Ha as [Ha1 Ha2].
  destruct (stream_data w e d permit a w1 S Ha1 ltac:(by destruct d; simpl in Hl; [lia|]) E1) as [S1 _].
  rewrite blen_app, Z.add_assoc. by apply (IH _ _ _ _ Hc Ha2 S1 E2).
Qed.

Lemma chunked_cmds_ok m e data cmds l : Chunked m None e data cmds -> agrees obj e data -> cmds_ok obj l cmds.
Proof.
  revert e data l. induction cmds as [|cmd cmds IH]; intros e data l Hc Ha; [done|].
  destruct cmd as [|offset d permit key| | |]; try done. destruct Hc as (-> & -> & _ & Hl & rest & -> & Hc).
  apply agrees_split in Ha as [Ha1 Ha2]. split; [done|]. by apply (IH (e + blen d) rest).
Qed.

(** A stream whose queue ends at [f]. *)
Definition Queued (m : nat) (w : WriterTask) (queue : list WriterCommand) (f : Z) : Prop :=
  exists e data, Stream w e /\ Chunked m None e data queue /\ agrees obj e data /\ f = e + blen data.

Lemma queued_flush m w queue f r w' :
  Queued m w queue f -> receive (queue ++ [FlushAll true]) w = (r, w') ->
  Advanced obj w w' /\
  forall acks, r = Ok acks ->
    last acks = Some (AllFlushed f true) /\ Stream w' f /\ inflight w' = None /\ durable (file w') = contents (file w') /\
    (forall b, 0 <= b < f -> durable (file w') b = Some (obj b)).
Proof.
  intros (e & data & S & Hc & Ha & ->) E.
  assert (cmds_ok obj (stream_ledger e) (queue ++ [FlushAll true])) as Hok.
  { apply cmds_ok_app. split; [by apply (chunked_cmds_ok m e data)|done]. }
  split; [exact (receive_any obj _ _ r w w' (Stream_tracks w e S) Hok E)|]. intros acks ->.
  apply receive_snoc in E as (acks1 & a & w1 & E1 & E2 & ->).
  pose proof (stream_receive m e data queue w acks1 w1 Hc Ha S E1) as S1.
  destruct (stream_flush w1 _ a w' S1 E2) as (-> & S2 & _ & N & D1 & D2). rewrite last_snoc. by split_and!.
Qed.

Lemma queued_run m w queue f r w' :
  Queued m w queue f -> run queue w = (r, w') ->
  Advanced obj w w' /\
  forall acks, r = Ok acks -> written_bytes w' = f /\ durable (file w') = contents (file w') /\
    forall b, 0 <= b < f -> durable (file w') b = Some (obj b).
Proof.
  intros (e & data & S & Hc & Ha & ->) E.
  split; [by apply (run_any obj _ _ _ _ _ (Stream_tracks w e S) (chunked_cmds_ok m e data queue _ Hc Ha) E)|]. intros acks ->.
  apply run_flush in E as (w1 & E1 & E2). pose proof (stream_receive m e data queue w acks w1 Hc Ha S E1) as S1.
  destruct (stream_flush w1 _ _ w' S1 E2) as (Ea & S2 & Hs & _ & D1 & D2). by injection Ea as ->.
Qed.

(** More commands of the stream. *)
Lemma queued_more m w queue f data cmds :
  Queued m w queue f -> Chunked m None f data cmds -> agrees obj f data -> Queued m w (queue ++ cmds) (f + blen data).
Proof.
  intros (e & d0 & S & Hc & Ha & ->) Hc2 Ha2. exists e, (d0 ++ data). rewrite blen_app, Z.add_assoc.
  split; [done|]. split; [|split; [by apply agrees_app|done]]. clear Ha Ha2 S. revert e d0 Hc Hc2.
  induction queue as [|cmd queue IH]; intros e d0 Hc Hc2; simpl.
  - simpl in Hc. subst d0. unfold blen in Hc2. simpl in Hc2. by rewrite Z.add_0_r in Hc2.
  - destruct cmd as [|o d p k| | |]; try done. destruct Hc as (-> & -> & -> & Hl & rest & -> & Hc).
    do 4 (split; [done|]). exists (rest ++ data). split; [by rewrite app_assoc|]. apply IH; [done|].
    by rewrite blen_app, Z.add_assoc in Hc2.
Qed.

Lemma stream_new f io wm n :
  opened obj f -> 0 <= n <= u64_max -> (forall b, 0 <= b < n -> contents f b = Some (obj b)) -> Stream (writer_new f io n wm) n.
Proof.
  intros Hf Hn Hg. destruct (writer_new_tracks obj f io n wm Hf) as [I L]. split; [|done|by split|done].
  destruct I as [I1 I2 I3 I4 I5 I6 I7 I8 I9]. split; try done. intros k b [_ Hb]. right. by apply Hg.
Qed.
End Stream.
