(* ===== verification/Single.v ===== *)
(** * Single-connection transfers ([src/session/single.rs])

    One response body after another is written to the file in order; after a
    failure the transfer goes on from the prefix the writer has flushed, or starts
    again from zero when the server's answer does not fit.  The clock, the random
    numbers, the stop signal, the responses and the outcome of every I/O call are
    inputs. *)

From S2P Require Import Prelude RustStr Errors Cache Writer Flow Retry Response RangeValidate Control Resume Checkpoint OutputFile.

(** ** Data *)

(** What the [select!] of the body loop sees; the end of the list is the end of
    the body. *)
Inductive BodyEvent :=
| BodyStop (error : DownloadError)
| BodyTick
| BodyChunk (chunk : result bytes DownloadError) (selected : list Selected).

Record HttpResponse := mkResponse {
  rsp_status : Z;
  rsp_retry_after : option rstr;
  rsp_meta : ResponseMeta;
  rsp_body : list BodyEvent;
}.

(** The fields of [DownloadSpec] the transfer reads, with the request's URL and
    the output path; [sp_has_parent]: the path has a parent directory. *)
Record SingleSpec := mkSingleSpec {
  sp_url : rstr;
  sp_output : rstr;
  sp_has_parent : bool;
  sp_resume : bool;
  sp_allocation : FileAllocation;
  sp_autosave_sync_every : Z;
  sp_budget : MemoryBudget;
}.

(** The writer task of a [SingleWriterRuntime]: running with the commands it has
    not yet received, ended with an error, or joined. *)
Inductive WriterRuntime :=
| RtRunning (w : WriterTask) (queue : list WriterCommand)
| RtFailed (e : DownloadError) (w : WriterTask)
| RtClosed (w : WriterTask).

Definition rt_writer (rt : WriterRuntime) : WriterTask :=
  match rt with RtRunning w _ | RtFailed _ w | RtClosed w => w end.

(** The variables of [run_single_with_retry], and the file system that holds the
    control file. *)
Record SingleState := mkSingle {
  sg_offset : Z;
  sg_total : option Z;
  sg_baseline : ResponseMeta;
  sg_pending : option HttpResponse;
  sg_retry : RetryState;
  sg_runtime : WriterRuntime;
  sg_file_total : option Z;
  sg_use_control : bool;
  sg_tracker : ControlSaveTracker;
  sg_template : ControlSnapshot;
  sg_fs : Fs;
}.

Definition SingleM (A : Type) : Type := StateRes SingleState A.

Definition set_runtime (rt : WriterRuntime) (s : SingleState) : SingleState :=
  mkSingle (sg_offset s) (sg_total s) (sg_baseline s) (sg_pending s) (sg_retry s) rt (sg_file_total s)
           (sg_use_control s) (sg_tracker s) (sg_template s) (sg_fs s).

Definition set_saved (tracker : ControlSaveTracker) (fs : Fs) (s : SingleState) : SingleState :=
  mkSingle (sg_offset s) (sg_total s) (sg_baseline s) (sg_pending s) (sg_retry s) (sg_runtime s) (sg_file_total s)
           (sg_use_control s) tracker (sg_template s) fs.

Definition set_retry (retry : RetryState) (s : SingleState) : SingleState :=
  mkSingle (sg_offset s) (sg_total s) (sg_baseline s) (sg_pending s) retry (sg_runtime s) (sg_file_total s)
           (sg_use_control s) (sg_tracker s) (sg_template s) (sg_fs s).

Definition set_pending (response : option HttpResponse) (s : SingleState) : SingleState :=
  mkSingle (sg_offset s) (sg_total s) (sg_baseline s) response (sg_retry s) (sg_runtime s) (sg_file_total s)
           (sg_use_control s) (sg_tracker s) (sg_template s) (sg_fs s).

Definition set_offset (offset : Z) (s : SingleState) : SingleState :=
  mkSingle offset (sg_total s) (sg_baseline s) (sg_pending s) (sg_retry s) (sg_runtime s) (sg_file_total s)
           (sg_use_control s) (sg_tracker s) (sg_template s) (sg_fs s).

Definition single_snapshot_template (request_url : rstr) (total_size : option Z) (downloaded_bytes : Z)
    (meta : ResponseMeta) : ControlSnapshot :=
  let total := default 0 total_size in
  mkSnapshot request_url total total 1 [0] downloaded_bytes (etag meta) (last_modified meta).

Definition with_downloaded (n : Z) (snap : ControlSnapshot) : ControlSnapshot :=
  mkSnapshot (ctrl_url snap) (ctrl_total_size snap) (ctrl_piece_size snap) (ctrl_piece_count snap)
             (ctrl_completed_bitset snap) n (ctrl_etag snap) (ctrl_last_modified snap).

Definition metadata_matches_baseline (meta baseline : ResponseMeta) (total_size : option Z) : bool :=
  match etag baseline with Some e => bool_decide (etag meta = Some e) | None => true end &&
  match last_modified baseline with Some v => bool_decide (last_modified meta = Some v) | None => true end &&
  match content_range_total meta with Some total => bool_decide (total_size = Some total) | None => true end.

(** ** The writer's runtime *)

Section Single.
  Context `{Codec} (spec : SingleSpec).

Definition watermark_of : nat := watermark (sp_budget spec).

(** [flush_all_and_wait]: the writer receives what is queued, then the flush. *)
Definition flush_all_and_wait : SingleM Z := fun s =>
  match sg_runtime s with
  | RtRunning w queue =>
      match receive (queue ++ [FlushAll true]) w with
      | (Ok acks, w') =>
          (match last acks with Some (AllFlushed written _) => Ok written | _ => Err ChannelClosed end,
           set_runtime (RtRunning w' []) s)
      | (Err e, w') => (Err ChannelClosed, set_runtime (RtFailed e (dropped w')) s)
      end
  | RtFailed _ _ | RtClosed _ => (Err ChannelClosed, s)
  end.

Definition close : SingleM unit := fun s =>
  match sg_runtime s with
  | RtRunning w queue =>
      match run queue w with
      | (Ok _, w') => (Ok tt, set_runtime (RtClosed w') s)
      | (Err e, w') => (Err e, set_runtime (RtClosed (dropped w')) s)
      end
  | RtFailed e w => (Err e, set_runtime (RtClosed w) s)
  | RtClosed _ => (Ok tt, s)
  end.

Definition flush : SingleM Z := fun s =>
  match sg_runtime s with
  | RtClosed _ => (Err ChannelClosed, s)
  | _ =>
      match flush_all_and_wait s with
      | (Ok written, s) => (Ok written, s)
      | (Err flush_error, s) =>
          match close s with
          | (Ok _, s) => (Err flush_error, s)
          | (Err writer_error, s) => (Err writer_error, s)
          end
      end
  end.

(** [start_writer] on the file and with the I/O outcomes of the previous task. *)
Definition start_writer (start_offset : Z) (total_size : option Z) : SingleM unit := fun s =>
  let w := rt_writer (sg_runtime s) in
  let d := mkDisk (file w) (io w) in
  let '(r, d) :=
    if 0 <? start_offset then open_existing_file d
    else create_output_file (sp_has_parent spec) total_size (sp_allocation spec) d in
  let w := writer_new (disk_file d) (disk_io d) start_offset watermark_of in
  match r with
  | Ok _ =>
      (Ok tt, mkSingle (sg_offset s) (sg_total s) (sg_baseline s) (sg_pending s) (sg_retry s) (RtRunning w []) total_size
                       (sg_use_control s) (sg_tracker s) (sg_template s) (sg_fs s))
  | Err e => (Err e, set_runtime (RtClosed w) s)
  end.

Definition reset (total_size : option Z) : SingleM unit := close ;! start_writer 0 total_size.

(** ** Checkpoints *)

Definition single_control_path : rstr := control_path (sp_output spec).

(** The save at the end of both checkpoint functions. *)
Definition save_prefix (persisted : Z) : SingleM unit := fun s =>
  match save (with_downloaded persisted (sg_template s)) single_control_path (sg_fs s) with
  | (Ok _, fs) => (Ok tt, set_saved (mark_saved persisted (sg_tracker s)) fs s)
  | (Err e, fs) => (Err e, set_saved (sg_tracker s) fs s)
  end.

(** [flush_first]: [write_tx] is given. *)
Definition persist_single_control_snapshot (reason : ControlSaveReason) (current_downloaded : Z) (flush_first : bool)
    : SingleM unit := fun s =>
  let '(go, tracker) := should_save (sg_tracker s) reason current_downloaded (sp_autosave_sync_every spec) in
  let s := set_saved tracker (sg_fs s) s in
  if negb go then (Ok tt, s)
  else
    (let! persisted := if flush_first then flush_all_and_wait else ok current_downloaded in
     fun s => if persisted <=? last_saved_downloaded_bytes (sg_tracker s) then (Ok tt, s) else save_prefix persisted s) s.

(** A failure is logged. *)
Definition save_single_control_snapshot_at (persisted : Z) : SingleM unit := fun s =>
  if persisted <=? last_saved_downloaded_bytes (sg_tracker s) then (Ok tt, s) else (Ok tt, snd (save_prefix persisted s)).

Definition delete_single_control : SingleM unit := fun s =>
  let '(r, fs) := delete_control single_control_path (sg_fs s) in (r, set_saved (sg_tracker s) fs s).

(** ** One attempt *)

Inductive SingleAttemptOutcome :=
| AttemptComplete (final_offset : Z)
| AttemptFailed (error : DownloadError).

Definition too_many_bytes : DownloadError :=
  Transport Body (str "server sent more bytes than expected for single connection").

Definition ended_early (received expected : Z) : DownloadError :=
  Transport Body (str "single connection body ended after " ++ show_u64 received ++ str " bytes, expected " ++ show_u64 expected).

(** Commands put on the channel; a task that has ended receives nothing. *)
Definition enqueue (cmds : list WriterCommand) (s : SingleState) : SingleState :=
  match sg_runtime s with
  | RtRunning w queue => set_runtime (RtRunning w (queue ++ cmds)) s
  | _ => s
  end.

(** The loop of [stream_single_attempt]. *)
Fixpoint stream_loop (expected : option Z) (events : list BodyEvent) (downloaded received : Z) (s : SingleState)
    : SingleAttemptOutcome * SingleState :=
  match events with
  | [] =>
      (match expected with
       | Some e => if negb (received =? e) then AttemptFailed (ended_early received e) else AttemptComplete downloaded
       | None => AttemptComplete downloaded
       end, s)
  | BodyStop error :: _ =>
      (AttemptFailed error,
       if sg_use_control s then snd (persist_single_control_snapshot Terminal downloaded true s) else s)
  | BodyTick :: events =>
      stream_loop expected events downloaded received
        (if sg_use_control s then snd (persist_single_control_snapshot Autosave downloaded true s) else s)
  | BodyChunk (Err error) _ :: _ => (AttemptFailed error, s)
  | BodyChunk (Ok data) selected :: events =>
      if match expected with Some e => e <? sat_add64 received (blen data) | None => false end
      then (AttemptFailed too_many_bytes, s)
      else
        let '(r, cmds, sent) := default (Err ChannelClosed, [], 0) (forward (sp_budget spec) data downloaded None selected) in
        let s := enqueue cmds s in
        match r with
        | Err error => (AttemptFailed error, s)
        | Ok _ => stream_loop expected events (downloaded ⊕ sent) (received ⊕ sent) s
        end
  end.

Definition stream_single_attempt (response : HttpResponse) (s : SingleState) : SingleAttemptOutcome * SingleState :=
  stream_loop ((fun total => Z.max 0 (total - sg_offset s)) <$> sg_total s) (rsp_body response) (sg_offset s) 0 s.

(** ** The end of a transfer *)

(** Drain and sync the writer before the terminal checkpoint. *)
Definition finish_single_error {A} (error : DownloadError) : SingleM A :=
  close ;!
  (fun s => if sg_use_control s
            then persist_single_control_snapshot Terminal (written_bytes (rt_writer (sg_runtime s))) false s
            else (Ok tt, s)) ;!
  err error.

Definition not_persisted (written final_offset : Z) : DownloadError :=
  Internal (str "single writer persisted " ++ show_u64 written ++ str " bytes but attempt completed at " ++ show_u64 final_offset).

Definition complete_single_transfer (final_offset : Z) : SingleM unit :=
  let! written := flush in
  (fun s =>
     if negb (written =? final_offset) ||
        match sg_total s with Some total => negb (final_offset =? total) | None => false end
     then (close ;! err (not_persisted written final_offset)) s
     else (Ok tt, s)) ;!
  close ;!
  (fun s => if sg_use_control s then delete_single_control s else (Ok tt, s)).

(** ** The loop *)

(** What one iteration meets: the outcome of the request it sends when no response
    is pending, the clock and the random number of its retry decision, and a stop
    request during the backoff. *)
Inductive Requested :=
| RequestStopped (error : DownloadError)
| RequestResult (r : result HttpResponse DownloadError).

Record Turn := mkTurn {
  tn_send_get : Requested;
  tn_send_range : Z -> Z -> Requested;
  tn_now1 : Z;
  tn_now2 : Z;
  tn_draw : Z -> Z;
  tn_sleep : option DownloadError;
}.

(** A retry decision and its backoff: [Ok]: go on. *)
Definition decided (t : Turn) (by_ : RetryState -> DownloadError -> Z -> Z -> (Z -> Z) -> RetryDecision * RetryState)
    (error : DownloadError) : SingleM unit := fun s =>
  let '(decision, retry) := by_ (sg_retry s) error (tn_now1 t) (tn_now2 t) (tn_draw t) in
  let s := set_retry retry s in
  match decision with
  | Stop error => finish_single_error error s
  | Retry _ _ _ _ =>
      match tn_sleep t with
      | Some stop_error => finish_single_error stop_error s
      | None => (Ok tt, s)
      end
  end.

(** Everything known of the object is forgotten.  [baseline] is replaced where the
    response of a failed validation is known. *)
Definition restart (baseline : option ResponseMeta) : SingleM unit :=
  reset None ;! delete_single_control ;!
  update_state (fun s =>
    let template := match baseline with
                    | Some meta => single_snapshot_template (sp_url spec) None 0 meta
                    | None => sg_template s
                    end in
    mkSingle 0 None (default (sg_baseline s) baseline) (sg_pending s) (sg_retry s) (sg_runtime s) (sg_file_total s)
             false (tracker_new 0) template (sg_fs s)).

Definition missing_total : DownloadError := ResumeMismatch (str "missing total size for Range resume").
Definition different_object : DownloadError :=
  ResumeMismatch (str "resume response metadata does not match the original object").
Definition unexpected_fallback : DownloadError :=
  ResumeMismatch (str "resume response unexpectedly requested a single-connection fallback").

(** The validation of a response for the bytes after [offset]; [Some]: what is
    wrong with it. *)
Definition resume_response_error (response : HttpResponse) (total : Z) (s : SingleState) : option DownloadError :=
  match validate_range_response (rsp_status response) (rsp_retry_after response) (rsp_meta response) ResumeProbe
          (mkExpected (sg_offset s) (Z.max 0 (total - 1)) (sg_total s)) with
  | Ok Accept =>
      if metadata_matches_baseline (rsp_meta response) (sg_baseline s) (sg_total s) then None else Some different_object
  | Ok (FallbackToSingle _) => Some unexpected_fallback
  | Err error => Some error
  end.

(** A response from the start of the object. *)
Definition adopt_response (response : HttpResponse) : SingleM unit :=
  update_state (fun s =>
    let discovered := single_response_total_size (rsp_status response) (rsp_meta response) in
    let total := match discovered with Some n => Some n | None => sg_total s end in
    mkSingle (sg_offset s) total (rsp_meta response) (sg_pending s) (sg_retry s) (sg_runtime s) (sg_file_total s)
             (match discovered with Some _ => sp_resume spec | None => sg_use_control s end)
             (sg_tracker s) (single_snapshot_template (sp_url spec) total 0 (rsp_meta response)) (sg_fs s)) ;!
  (fun s =>
     match sp_allocation spec with
     | Prealloc => if bool_decide (sg_file_total s = sg_total s) then (Ok tt, s) else reset (sg_total s) s
     | AllocNone => (Ok tt, s)
     end).

(** The request of an iteration; [None]: go on with the next one. *)
Definition next_response (t : Turn) : SingleM (option HttpResponse) := fun s =>
  match sg_pending s with
  | Some response => (Ok (Some response), set_pending None s)
  | None =>
      match (match sg_total s with
             | Some total => if 0 <? sg_offset s then tn_send_range t (sg_offset s) (Z.max 0 (total - 1)) else tn_send_get t
             | None => tn_send_get t
             end) with
      | RequestStopped error => finish_single_error error s
      | RequestResult (Ok response) => (Ok (Some response), s)
      | RequestResult (Err error) => (decided t Retry.decide error ;! ok None) s
      end
  end.

(** The check of the response; [false]: it is dropped and the loop goes on. *)
Definition checked (t : Turn) (response : HttpResponse) : SingleM bool := fun s =>
  if 0 <? sg_offset s then
    match sg_total s with
    | None => (Err missing_total, s)
    | Some total =>
        match resume_response_error response total s with
        | None => (Ok true, s)
        | Some error =>
            (decided t decide_restart error ;!
             restart (Some (rsp_meta response)) ;!
             update_state (set_pending (if rsp_status response =? 200 then Some response else None)) ;!
             ok false) s
        end
    end
  else (adopt_response response ;! ok true) s.

Definition is_stop_error (e : DownloadError) : bool := match e with Cancelled | Paused => true | _ => false end.

(** What follows a failed attempt. *)
Definition after_failure (t : Turn) (error : DownloadError) : SingleM unit :=
  if is_stop_error error || negb (is_retryable error) then finish_single_error error
  else
    let! written := flush in
    update_state (set_offset written) ;!
    (fun s => if sg_use_control s then save_single_control_snapshot_at written s else (Ok tt, s)) ;!
    decided t Retry.decide error ;!
    (fun s =>
       if match sg_total s with Some total => total <=? sg_offset s | None => true end then restart None s else (Ok tt, s)).

(** One iteration; [true]: the transfer is complete. *)
Definition single_turn (t : Turn) : SingleM bool :=
  let! response := next_response t in
  match response with
  | None => ok false
  | Some response =>
      let! usable := checked t response in
      if negb usable then ok false
      else
        fun s =>
          match sg_runtime s with
          | RtClosed _ => (Err ChannelClosed, s)
          | _ =>
              let '(outcome, s) := stream_single_attempt response s in
              match outcome with
              | AttemptComplete final_offset => (complete_single_transfer final_offset ;! ok true) s
              | AttemptFailed error => (after_failure t error ;! ok false) s
              end
          end
  end.

(** [None]: more iterations are needed. *)
Fixpoint single_loop (turns : list Turn) (s : SingleState) : option (result unit DownloadError * SingleState) :=
  match turns with
  | [] => None
  | t :: turns =>
      match single_turn t s with
      | (Ok true, s) => Some (Ok tt, s)
      | (Ok false, s) => single_loop turns s
      | (Err e, s) => Some (Err e, s)
      end
  end.

(** The state in which the loop starts, on the file [f]. *)
Definition single_start (f : FileState) (outcomes : list IoOutcome) (fs : Fs) (response : HttpResponse) (start_offset : Z)
    (initial_total : option Z) (retry : RetryState) : SingleState :=
  mkSingle start_offset initial_total (rsp_meta response) (Some response) retry
    (RtClosed (writer_new f outcomes start_offset watermark_of)) initial_total
    (sp_resume spec && match initial_total with Some _ => true | None => false end) (tracker_new start_offset)
    (single_snapshot_template (sp_url spec) initial_total start_offset (rsp_meta response)) fs.

Definition run_single_with_retry (turns : list Turn) (s : SingleState) : option (result unit DownloadError * SingleState) :=
  match start_writer (sg_offset s) (sg_total s) s with
  | (Err e, s) => Some (Err e, s)
  | (Ok _, s) => single_loop turns s
  end.
End Single.
