(* ===== verification/SingleInv.v ===== *)
(** * Invariants of single-connection transfers

    While a transfer runs, the writer's stream holds the object's bytes up to the
    current end, and whatever the control file promises is on stable storage.  The
    server's promise is that a response whose metadata match an earlier one's
    serves the same object. *)

From S2P Require Import Prelude RustStr Errors Cache Writer WriterInv WriterProps WriterRun Flow Retry Response RangeValidate Control Resume Checkpoint OutputFile WriterStream Single.

(** The bytes a body delivers. *)
Fixpoint body_bytes (events : list BodyEvent) : bytes :=
  match events with
  | [] => []
  | BodyChunk (Ok data) _ :: events => data ++ body_bytes events
  | _ :: events => body_bytes events
  end.

Lemma Queued_nil obj w f m : Stream obj w f -> Queued obj m w [] f.
Proof.
  intros S. exists f, []. unfold blen. simpl. rewrite Z.add_0_r. split; [done|]. split; [done|]. split; [|done].
  destruct (st_range _ _ _ S). split; [done|]. split; [unfold blen; simpl; lia|]. intros i v E. by rewrite lookup_nil in E.
Qed.

Lemma plain_stream obj f io wm : plain f -> Stream obj (writer_new f io 0 wm) 0.
Proof. intros Hp. apply stream_new; [|unfold u64_max; lia|lia]. intros b. apply Hp. Qed.

Lemma Queued_inflight obj m w q f : Queued obj m w q f -> inflight_ok obj w.
Proof. intros (e & data & S & _). apply (st_inv _ _ _ S). Qed.

(** The file of a task that has failed. *)
Lemma Advanced_dropped obj w w' : inflight_ok obj w -> Advanced obj w w' -> Advanced obj w (dropped w').
Proof.
  intros Hi [A1 A2 A3 A4]. destruct (dropped_spec obj w' (A2 Hi)) as [B1 B2 B3 B4]. split; auto. congruence.
Qed.

Section Invariants.
  Context `{Codec} (spec : SingleSpec) (objects : ResponseMeta -> Z -> Z).
  (* the headers of the server's responses, and those of responses that carry the object *)
  Context (served delivers : ResponseMeta -> Prop).
  Context (Hchunk : (1 <= max_chunk (sp_budget spec))%nat).
  (* the control file of this object fits its length field *)
  Context (Hsmall : forall meta total k n payload, served meta ->
    serialize_v2 (with_downloaded n (single_snapshot_template (sp_url spec) total k meta)) default_hints = Ok payload ->
    blen payload < 2 ^ 32).

Definition object_of (s : SingleState) : Z -> Z := objects (sg_baseline s).

Definition file_of (s : SingleState) : FileState := file (rt_writer (sg_runtime s)).

(** The bytes up to [n] are there, now and after a crash. *)
Definition safe_upto (obj : Z -> Z) (f : FileState) (n : Z) : Prop :=
  forall b, 0 <= b < n -> durable f b = Some (obj b) /\ contents f b = Some (obj b).

Lemma safe_synced obj f n :
  durable f = contents f -> (forall b, 0 <= b < n -> durable f b = Some (obj b)) -> safe_upto obj f n.
Proof. intros E D b Hb. rewrite <- E. by split; apply D. Qed.

(** The control file holds a checkpoint that loads as [snap]. *)
Definition ctrl_in (fs : Fs) (snap : ControlSnapshot) : Prop :=
  exists f h, fs_files fs !! single_control_path spec = Some f /\ parse_control (fs_data f) = Ok (snap, h).

(** The checkpoint is one of a single stream of the object [o], with its validators. *)
Definition Snap_of (o : Z -> Z) (snap : ControlSnapshot) : Prop :=
  (ctrl_piece_count snap <= 1)%nat /\ 0 <= ctrl_total_size snap < u64_max /\
  exists meta, delivers meta /\ objects meta = o /\ etag meta = ctrl_etag snap /\ last_modified meta = ctrl_last_modified snap.

(** Whatever the control file promises is on stable storage. *)
Definition Sound (s : SingleState) : Prop :=
  forall snap, ctrl_in (sg_fs s) snap ->
    safe_upto (object_of s) (file_of s) (ctrl_downloaded_bytes snap) /\ Snap_of (object_of s) snap.

(** The template of the checkpoints describes the object. *)
Definition Templated (s : SingleState) : Prop :=
  exists total k, sg_template s = single_snapshot_template (sp_url spec) total k (sg_baseline s) /\
    forall t, total = Some t -> 0 <= t < u64_max.

Definition RtOk (obj : Z -> Z) (rt : WriterRuntime) (f : Z) : Prop :=
  match rt with
  | RtRunning w queue => Queued obj (max_chunk (sp_budget spec)) w queue f
  | RtFailed _ _ => True
  | RtClosed _ => False
  end.

(** A transfer whose stream has been sent up to [f]. *)
Record Live (s : SingleState) (f : Z) : Prop := {
  lv_rt : RtOk (object_of s) (sg_runtime s) f;
  lv_sound : Sound s;
  lv_ctrl : forall snap, ctrl_in (sg_fs s) snap -> 0 < ctrl_downloaded_bytes snap <= f;
  lv_template : Templated s;
  lv_served : served (sg_baseline s);
  lv_tracker : 0 <= last_saved_downloaded_bytes (sg_tracker s);
  lv_total : forall total, sg_total s = Some total -> 0 <= total < u64_max;
  lv_nonneg : 0 <= f;
  lv_delivers : 0 < f -> delivers (sg_baseline s);
  lv_off : sg_use_control s = false -> forall snap, ~ ctrl_in (sg_fs s) snap;
}.

(** ** The runtime *)

Lemma set_runtime_same s : set_runtime (sg_runtime s) s = s.
Proof. by destruct s. Qed.

Lemma safe_advanced obj w w' n : Advanced obj w w' -> safe_upto obj (file w) n -> safe_upto obj (file w') n.
Proof. intros A D b Hb. destruct (D b Hb). by split; [apply (ad_durable _ _ _ A)|apply (ad_landed _ _ _ A)]. Qed.

Lemma Sound_runtime s rt :
  Sound s -> Advanced (object_of s) (rt_writer (sg_runtime s)) (rt_writer rt) -> Sound (set_runtime rt s).
Proof. intros HS A snap Hc. destruct (HS snap Hc). split; [|done]. by eapply safe_advanced. Qed.

Lemma Live_runtime s f rt :
  Live s f -> RtOk (object_of s) rt f -> Advanced (object_of s) (rt_writer (sg_runtime s)) (rt_writer rt) ->
  Live (set_runtime rt s) f.
Proof. intros [L1 L2 L3 L4 L5 L6 L7 L8 L9 L10] R A. split; try done. by apply Sound_runtime. Qed.

(** The stream is flushed to its end. *)
Definition Flushed (s : SingleState) (f : Z) : Prop :=
  exists w, sg_runtime s = RtRunning w [] /\ Stream (object_of s) w f /\ inflight w = None /\ durable (file w) = contents (file w) /\
    safe_upto (object_of s) (file w) f.

Lemma flush_wait_ok s f r s' :
  Live s f -> flush_all_and_wait s = (r, s') ->
  (exists rt, s' = set_runtime rt s) /\ Live s' f /\ (forall n, r = Ok n -> n = f /\ Flushed s' f).
Proof.
  intros L E. unfold flush_all_and_wait in E. pose proof (lv_rt _ _ L) as R. destruct (sg_runtime s) as [w queue|e w|w] eqn:Er.
  - simpl in R. destruct (receive (queue ++ [FlushAll true]) w) as [[acks|e] w'] eqn:Ew.
    + destruct (queued_flush _ _ _ _ _ _ _ R Ew) as [A Hq]. destruct (Hq acks eq_refl) as (El & S & N & D1 & D2).
      rewrite El in E. injection E as <- <-. split; [by eexists|]. split.
      * apply Live_runtime; [done|by apply Queued_nil|]. by rewrite Er.
      * intros n [= <-]. split; [done|]. exists w'. by split_and!; [..|apply safe_synced].
    + injection E as <- <-. destruct (queued_flush _ _ _ _ _ _ _ R Ew) as [A _]. split; [by eexists|]. split; [|done].
      apply Live_runtime; [done|done|]. rewrite Er. by apply (Advanced_dropped _ _ _ (Queued_inflight _ _ _ _ _ R)).
  - injection E as <- <-. split; [exists (sg_runtime s); by rewrite set_runtime_same|]. by split.
  - done.
Qed.

Lemma close_ok s f r s' :
  Live s f -> close s = (r, s') ->
  exists w, s' = set_runtime (RtClosed w) s /\ Sound s' /\
    (r = Ok tt -> written_bytes w = f /\ safe_upto (object_of s) (file w) f).
Proof.
  intros L E. unfold close in E. pose proof (lv_rt _ _ L) as R. destruct (sg_runtime s) as [w queue|e w|w] eqn:Er; [| |done].
  - simpl in R. destruct (run queue w) as [rr w'] eqn:Ew. destruct (queued_run _ _ _ _ _ _ _ R Ew) as [A Hq].
    destruct rr as [acks|e]; injection E as <- <-.
    + exists w'. split; [done|]. split; [apply Sound_runtime; [apply L|]; by rewrite Er|].
      intros _. destruct (Hq acks eq_refl) as (-> & D1 & D2). split; [done|]. by apply safe_synced.
    + exists (dropped w'). split; [done|]. split; [|done]. apply Sound_runtime; [apply L|]. rewrite Er.
      by apply (Advanced_dropped _ _ _ (Queued_inflight _ _ _ _ _ R)).
  - injection E as <- <-. exists w. split; [done|]. split; [|done]. apply Sound_runtime; [apply L|]. rewrite Er. by split.
Qed.

Lemma flush_ok s f r s' :
  Live s f -> flush s = (r, s') ->
  (exists rt, s' = set_runtime rt s) /\ Sound s' /\ (forall n, r = Ok n -> n = f /\ Live s' f /\ Flushed s' f).
Proof.
  intros L E. unfold flush in E. pose proof (lv_rt _ _ L) as R.
  assert (match flush_all_and_wait s with
      | (Ok written, s) => (Ok written, s)
      | (Err flush_error, s) =>
          match close s with
          | (Ok _, s) => (Err flush_error, s)
          | (Err writer_error, s) => (Err writer_error, s)
          end
      end = (r, s')) as E' by (by destruct (sg_runtime s)).
  clear E. destruct (flush_all_and_wait s) as [[n|e] s1] eqn:Ef; destruct (flush_wait_ok s f _ s1 L Ef) as ([rt ->] & L1 & Hf).
  - injection E' as <- <-. split; [by eexists|]. split; [apply L1|]. intros n' [= <-]. by destruct (Hf n eq_refl).
  - destruct (close (set_runtime rt s)) as [rc s2] eqn:Ec. destruct (close_ok _ f rc s2 L1 Ec) as (w & -> & HS & _).
    assert (s' = set_runtime (RtClosed w) (set_runtime rt s) /\ exists e', r = Err e') as [-> [e' ->]] by (by destruct rc; injection E' as <- <-; eauto).
    split; [by exists (RtClosed w)|]. split; [done|done].
Qed.

(** ** Saves *)

Lemma template_snap s n : Templated s -> delivers (sg_baseline s) -> Snap_of (object_of s) (with_downloaded n (sg_template s)).
Proof.
  intros (total & k & -> & Ht) Hd. split; [done|]. split; [|by exists (sg_baseline s)]. simpl.
  destruct total as [t|]; [by apply Ht|]. unfold u64_max. simpl. lia.
Qed.

Lemma save_prefix_ok s n r s' :
  Templated s -> served (sg_baseline s) ->
  save_prefix spec n s = (r, s') ->
  exists tracker fs, s' = set_saved tracker fs s /\
    (forall snap, ctrl_in fs snap -> ctrl_in (sg_fs s) snap \/ snap = with_downloaded n (sg_template s)) /\
    (last_saved_downloaded_bytes tracker = last_saved_downloaded_bytes (sg_tracker s) \/ last_saved_downloaded_bytes tracker = n) /\
    (r = Ok tt -> last_saved_downloaded_bytes tracker = n /\ ctrl_in fs (with_downloaded n (sg_template s))).
Proof.
  intros (total & k & Et & _) Hsv E. unfold save_prefix, save in E.
  destruct (save_sync _ _ _ _) as [rr fs] eqn:Es. apply save_sync_atomic in Es as [A _].
  assert (s' = set_saved (match rr with Ok _ => mark_saved n (sg_tracker s) | Err _ => sg_tracker s end) fs s /\
    (r = Ok tt -> rr = Ok tt)) as [-> Hr] by (by destruct rr as [[]|]; injection E as <- <-).
  eexists _, fs. split; [done|]. destruct rr as [[]|e].
  - destruct A as (payload & Ep & Ef).
    assert (parse_control (encoded VERSION payload) = Ok (with_downloaded n (sg_template s), default_hints)) as Hp.
    { rewrite <- (app_nil_r (encoded VERSION payload)). apply parse_encoded; [|right; split; [done|by apply codec_roundtrip]].
      rewrite Et in Ep. by apply (Hsmall (sg_baseline s) total k n). }
    split.
    + intros snap (f & h & Hf & Hs). right. unfold single_control_path in Hf. rewrite Ef in Hf. injection Hf as <-. simpl in Hs.
      rewrite Hp in Hs. by injection Hs as <- _.
    + split; [by right|]. intros _. split; [done|]. by eexists _, _.
  - split; [|split; [by left|by intros ?%Hr]]. intros snap (f & h & Hf & Hs). left. exists f, h. split; [|done].
    unfold single_control_path in *. by rewrite <- A.
Qed.

Lemma Live_saved s f n r s' :
  Live s f -> sg_use_control s = true -> 0 < n <= f -> safe_upto (object_of s) (file_of s) n -> save_prefix spec n s = (r, s') ->
  (exists tracker fs, s' = set_saved tracker fs s) /\ Live s' f.
Proof.
  intros [L1 L2 L3 L4 L5 L6 L7 L8 L9 L10] Hu Hn D E. destruct (save_prefix_ok s n r s' L4 L5 E) as (tr & fs & -> & Hc & Ht & _).
  split; [by eexists _, _|]. split; try done.
  - intros snap Hs. destruct (Hc snap Hs) as [Ho| ->]; [by apply L2|]. split; [done|].
    apply (template_snap s n); [done|apply L9; lia].
  - intros snap Hs. destruct (Hc snap Hs) as [Ho| ->]; [by apply L3|done].
  - simpl. lia.
  - simpl. by rewrite Hu.
Qed.

(** Only the runtime, the tracker and the file system change. *)
Definition Kept (s s' : SingleState) : Prop := exists rt tracker fs, s' = set_saved tracker fs (set_runtime rt s).

Lemma Kept_refl s : Kept s s.
Proof. exists (sg_runtime s), (sg_tracker s), (sg_fs s). by destruct s. Qed.

Lemma Kept_trans s1 s2 s3 : Kept s1 s2 -> Kept s2 s3 -> Kept s1 s3.
Proof. intros (a & b & c & ->) (a' & b' & c' & ->). by exists a', b', c'. Qed.

Lemma Flushed_file s f : Flushed s f -> safe_upto (object_of s) (file_of s) f.
Proof. intros (w & Er & _ & _ & _ & D). unfold file_of. by rewrite Er. Qed.

(** [should_save] only counts ticks. *)
Lemma should_save_same tracker reason current every :
  last_saved_downloaded_bytes (snd (should_save tracker reason current every)) = last_saved_downloaded_bytes tracker.
Proof. unfold should_save. destruct (_ <=? _), reason; done. Qed.

(** A checkpoint while the transfer runs. *)
Lemma persist_ok s f reason current r s' :
  Live s f -> sg_use_control s = true -> persist_single_control_snapshot spec reason current true s = (r, s') ->
  Kept s s' /\ Live s' f.
Proof.
  intros L Hu E. unfold persist_single_control_snapshot in E.
  pose proof (should_save_same (sg_tracker s) reason current (sp_autosave_sync_every spec)) as Ht.
  destruct (should_save _ _ _ _) as [go tracker]. simpl in Ht.
  assert (Live (set_saved tracker (sg_fs s) s) f) as L1.
  { destruct L as [L1 L2 L3 L4 L5 L6 L7 L8 L9 L10]. split; try done. simpl. lia. }
  assert (Kept s (set_saved tracker (sg_fs s) s)) as K1.
  { exists (sg_runtime s), tracker, (sg_fs s). by rewrite set_runtime_same. }
  destruct go; simpl in E; [|by injection E as <- <-].
  apply res_bind_any in E as [(n & s1 & E1 & E2)|(e & E1 & ->)].
  - destruct (flush_wait_ok _ f _ s1 L1 E1) as ([rt ->] & L2 & Hf). destruct (Hf n eq_refl) as [-> HF].
    assert (Kept s (set_runtime rt (set_saved tracker (sg_fs s) s))) as K2 by (by eexists _, _, _).
    cbn beta in E2. change (sg_tracker (set_runtime rt (set_saved tracker (sg_fs s) s))) with tracker in E2.
    destruct (Z.leb_spec f (last_saved_downloaded_bytes tracker)) as [|Hlt]; [by injection E2 as <- <-|].
    apply (Live_saved _ f) in E2 as [(tr & fs & ->) L3]; [|done|done|simpl in *; pose proof (lv_tracker _ _ L1); simpl in *; lia|by apply Flushed_file].
    split; [|done]. by eexists _, _, _.
  - destruct (flush_wait_ok _ f _ s' L1 E1) as ([rt ->] & L2 & _). split; [by eexists _, _, _|done].
Qed.

(** ** An attempt *)

(** What is left of a body of which [received] bytes were taken. *)
Definition left_of (expected : option Z) (received : Z) (data : bytes) : bytes :=
  match expected with Some e => take (Z.to_nat (e - received)) data | None => data end.

Lemma enqueue_ok s f data cmds :
  Live s f -> delivers (sg_baseline s) -> Chunked (max_chunk (sp_budget spec)) None f data cmds -> agrees (object_of s) f data ->
  Kept s (enqueue cmds s) /\ Live (enqueue cmds s) (f + blen data).
Proof.
  intros L Hdl Hc Ha. pose proof (Zle_0_nat (length data)) as Hd. fold (blen data) in Hd. unfold enqueue. destruct L as [L1 L2 L3 L4 L5 L6 L7 L8 L9 L10].
  destruct (sg_runtime s) as [w queue|e w|w] eqn:Er; [| |done].
  - split; [by exists (RtRunning w (queue ++ cmds)), (sg_tracker s), (sg_fs s)|]. split; try done.
    + simpl in *. by apply (queued_more _ _ _ _ f).
    + intros snap Hs. apply L2 in Hs. unfold file_of in *. by rewrite Er in Hs.
    + intros snap Hs. apply L3 in Hs. lia.
    + lia.
  - split; [apply Kept_refl|]. split; try done; [by rewrite Er| |lia]. intros snap Hs. apply L3 in Hs. lia.
Qed.

(** A chunk that is not refused lies within what is left. *)
Lemma left_of_chunk obj expected received downloaded data rest :
  0 <= received <= downloaded -> (forall e, expected = Some e -> e < u64_max) ->
  match expected with Some e => e <? sat_add64 received (blen data) | None => false end = false ->
  agrees obj downloaded (left_of expected received (data ++ rest)) ->
  agrees obj downloaded data /\ agrees obj (downloaded + blen data) (left_of expected (received + blen data) rest).
Proof.
  intros Hr Hu Hle Ha. destruct expected as [e|]; simpl in *; [|by apply agrees_split].
  specialize (Hu e eq_refl). unfold sat_add64 in Hle. apply Z.ltb_ge in Hle.
  assert (received + blen data <= e) as Hd by lia. rewrite take_app_ge in Ha by (unfold blen in *; lia).
  apply agrees_split in Ha as [Ha1 Ha2]. split; [done|].
  by replace (Z.to_nat (e - (received + blen data))) with (Z.to_nat (e - received) - length data)%nat by (unfold blen; lia).
Qed.

Lemma Kept_object s s' : Kept s s' -> object_of s' = object_of s.
Proof. by intros (rt & tr & fs & ->). Qed.

Lemma Kept_baseline s s' : Kept s s' -> sg_baseline s' = sg_baseline s.
Proof. by intros (rt & tr & fs & ->). Qed.

Lemma tick_ok s f :
  Live s f -> Kept s (if sg_use_control s then snd (persist_single_control_snapshot spec Autosave f true s) else s) /\
  Live (if sg_use_control s then snd (persist_single_control_snapshot spec Autosave f true s) else s) f.
Proof.
  intros L. destruct (sg_use_control s) eqn:Eu; [|split; [apply Kept_refl|done]].
  destruct (persist_single_control_snapshot _ _ _ _ s) as [r s1] eqn:Ep. by apply (persist_ok _ f) in Ep.
Qed.

Lemma stream_loop_ok expected events : forall downloaded received s outcome s',
  Live s downloaded -> delivers (sg_baseline s) -> 0 <= received <= downloaded -> (forall e, expected = Some e -> e < u64_max) ->
  agrees (object_of s) downloaded (left_of expected received (body_bytes events)) ->
  stream_loop spec expected events downloaded received s = (outcome, s') ->
  Kept s s' /\ exists f, Live s' f /\ downloaded <= f /\
    forall final, outcome = AttemptComplete final ->
      final = f /\ (forall e, expected = Some e -> f - downloaded = e - received) /\
      (expected = None -> f = downloaded + blen (body_bytes events)).
Proof.
  induction events as [|ev events IH]; intros downloaded received s outcome s' L Hdl Hr Hu Ha E; simpl in E.
  { injection E as <- <-. split; [apply Kept_refl|]. exists downloaded. split; [done|]. split; [lia|]. intros final.
    destruct expected as [e|].
    - destruct (Z.eqb_spec received e); [|done]. intros [= <-]. split_and!; [done| |done]. intros e' [= <-]. lia.
    - intros [= <-]. split_and!; [done|done|]. intros _. unfold blen. simpl. lia. }
  assert (forall s', Live s' downloaded -> Kept s s' -> forall e, (AttemptFailed e, s') = (outcome, s') ->
    Kept s s' /\ exists f, Live s' f /\ downloaded <= f /\ forall final, outcome = AttemptComplete final ->
      final = f /\ (forall e, expected = Some e -> f - downloaded = e - received) /\
      (expected = None -> f = downloaded + blen (body_bytes (ev :: events)))) as Hfail.
  { intros s1 L1 K e [= <-]. split; [done|]. exists downloaded. split; [done|]. by split; [lia|]. }
  destruct ev as [error| |[data|error] selected].
  - injection E as <- <-. apply (Hfail _) with (e := error); [| |done];
      (destruct (sg_use_control s) eqn:Eu; [|by try apply Kept_refl]);
      destruct (persist_single_control_snapshot _ _ _ _ s) as [r s1] eqn:Ep; by apply (persist_ok _ downloaded) in Ep as [K L1].
  - destruct (tick_ok s downloaded L) as [K L1]. apply IH in E as [K2 Hf]; try done; [split; [by eapply Kept_trans|done]| |].
    + by rewrite (Kept_baseline _ _ K).
    + by rewrite (Kept_object _ _ K).
  - simpl in Ha. destruct (match expected with Some e => e <? sat_add64 received (blen data) | None => false end) eqn:Hle.
    { injection E as <- <-. apply (Hfail _) with (e := too_many_bytes); [done|apply Kept_refl|done]. }
    apply left_of_chunk in Ha as [Ha1 Ha2]; [|done|done|done]. pose proof Ha1 as (H0 & Hmax & _).
    destruct (forward_loop_spec (length data) (sp_budget spec) data downloaded None selected 0 Hchunk (le_n _) H0 Hmax)
      as (r & cmds & n & Ef & taken & rest & -> & -> & Hc & Hok & _).
    unfold forward in E. rewrite Ef in E. simpl in E. apply agrees_split in Ha1 as [Ha1 _].
    destruct (enqueue_ok s downloaded taken cmds L Hdl Hc Ha1) as [K L1]. destruct r as [[]|e].
    + specialize (Hok eq_refl) as ->. rewrite app_nil_r in *. pose proof (Zle_0_nat (length taken)) as Ht. fold (blen taken) in Ht.
      rewrite !u64_add_exact in E by (unfold u64_max in *; lia).
      apply IH in E as (K2 & f & L2 & Hf & Hfin); [|done|by rewrite (Kept_baseline _ _ K)|lia|done|by rewrite (Kept_object _ _ K)].
      split; [by eapply Kept_trans|]. exists f. split; [done|]. split; [lia|]. intros final (-> & F1 & F2)%Hfin.
      split_and!; [done| |].
      * intros e He. specialize (F1 e He). lia.
      * intros He. rewrite (F2 He). simpl. rewrite blen_app. lia.
    + injection E as <- <-. split; [done|]. exists (downloaded + blen taken). split; [done|]. split; [unfold blen; lia|done].
  - injection E as <- <-. by apply (Hfail _) with (e := error); [|apply Kept_refl|].
Qed.

(** ** The end *)

(** A checkpoint after the writer has closed. *)
Lemma persist_closed_ok s reason n r s' :
  Templated s -> served (sg_baseline s) -> 0 <= last_saved_downloaded_bytes (sg_tracker s) ->
  (0 < n -> delivers (sg_baseline s)) -> Sound s -> safe_upto (object_of s) (file_of s) n -> persist_single_control_snapshot spec reason n false s = (r, s') ->
  Kept s s' /\ Sound s' /\
  (reason = Terminal -> r = Ok tt -> n <= last_saved_downloaded_bytes (sg_tracker s) \/
     ctrl_in (sg_fs s') (with_downloaded n (sg_template s))).
Proof.
  intros Ht Hsv H0 Hd HS D E. unfold persist_single_control_snapshot in E.
  pose proof (should_save_same (sg_tracker s) reason n (sp_autosave_sync_every spec)) as Hl.
  destruct (should_save (sg_tracker s) reason n (sp_autosave_sync_every spec)) as [go tracker] eqn:Es. simpl in Hl.
  assert (Kept s (set_saved tracker (sg_fs s) s)) as K1 by (exists (sg_runtime s), tracker, (sg_fs s); by rewrite set_runtime_same).
  destruct go; simpl in E.
  - unfold res_bind, ok in E. change (sg_tracker (set_saved tracker (sg_fs s) s)) with tracker in E.
    destruct (Z.leb_spec n (last_saved_downloaded_bytes tracker)) as [Hle|Hlt].
    + injection E as <- <-. split; [done|]. split; [done|]. intros _ _. left. lia.
    + destruct (save_prefix_ok (set_saved tracker (sg_fs s) s) n r s' Ht Hsv E) as (tr & fs & -> & Hc & _ & Hok).
      split; [by exists (sg_runtime s), tr, fs; rewrite set_runtime_same|]. split.
      * intros snap Hs. destruct (Hc snap Hs) as [Ho| ->]; [by apply HS|]. split; [done|].
        apply (template_snap s n); [done|apply Hd; lia].
      * intros _ Hr. right. by apply Hok.
  - injection E as <- <-. split; [done|]. split; [done|]. intros -> _. left.
    unfold should_save in Es. destruct (Z.leb_spec n (last_saved_downloaded_bytes (sg_tracker s))); [done|]. by injection Es as Hgo _.
Qed.

(** A transfer that stops with [error], or with the storage error that kept its
    checkpoint from being written. *)
Lemma finish_ok {A} s f error (r : result A DownloadError) s' :
  Live s f -> finish_single_error spec error s = (r, s') ->
  Kept s s' /\ Sound s' /\ exists e, r = Err e.
Proof.
  intros L E. unfold finish_single_error in E. apply res_bind_any in E as [([] & s1 & E1 & E)|(e & E1 & ->)].
  - destruct (close_ok s f _ s1 L E1) as (w & -> & HS & Hw). destruct (Hw eq_refl) as [Hwr D].
    assert (Kept s (set_runtime (RtClosed w) s)) as K by (by exists (RtClosed w), (sg_tracker s), (sg_fs s)).
    apply res_bind_any in E as [([] & s2 & E2 & E)|(e & E2 & ->)].
    + injection E as <- <-. simpl in E2. destruct (sg_use_control s).
      * apply persist_closed_ok in E2 as (K2 & HS2 & _); [|apply L|apply L|apply L|rewrite Hwr; apply L|done|by rewrite Hwr].
        split; [by eapply Kept_trans|]. split; [done|]. by exists error.
      * injection E2 as <-. split; [done|]. split; [done|]. by exists error.
    + simpl in E2. destruct (sg_use_control s); [|done].
      apply persist_closed_ok in E2 as (K2 & HS2 & _); [|apply L|apply L|apply L|rewrite Hwr; apply L|done|by rewrite Hwr].
      split; [by eapply Kept_trans|]. split; [done|]. by exists e.
  - destruct (close_ok s f _ s' L E1) as (w & -> & HS & _). split; [by exists (RtClosed w), (sg_tracker s), (sg_fs s)|].
    split; [done|]. by exists e.
Qed.

(** A transfer is complete: the file holds the object up to [n] on stable storage,
    and no control file that could be loaded is left. *)
Definition Complete (s : SingleState) (n : Z) : Prop :=
  safe_upto (object_of s) (file_of s) n /\ written_bytes (rt_writer (sg_runtime s)) = n /\
  (forall total, sg_total s = Some total -> n = total) /\
  (forall snap, ~ ctrl_in (sg_fs s) snap) /\
  (sg_use_control s = true -> fs_files (sg_fs s) !! single_control_path spec = None).

Lemma complete_ok s f final r s' :
  Live s f -> final = f -> complete_single_transfer spec final s = (r, s') ->
  Kept s s' /\ Sound s' /\ (r = Ok tt -> Complete s' f).
Proof.
  intros L -> E. unfold complete_single_transfer in E. apply res_bind_any in E as [(n & s1 & E1 & E)|(e & E1 & ->)].
  2: { destruct (flush_ok s f _ s' L E1) as ([rt ->] & HS & _). by split; [exists rt, (sg_tracker s), (sg_fs s)|]. }
  destruct (flush_ok s f _ s1 L E1) as ([rt ->] & _ & Hf). destruct (Hf n eq_refl) as (-> & L1 & _). clear Hf.
  assert (Kept s (set_runtime rt s)) as K1 by (by exists rt, (sg_tracker s), (sg_fs s)).
  apply res_bind_any in E as [([] & s2 & E2 & E)|(e & E2 & ->)]; cbn beta in E2.
  - rewrite Z.eqb_refl in E2. cbn [negb orb] in E2.
    destruct (match sg_total (set_runtime rt s) with Some total => negb (f =? total) | None => false end) eqn:Et.
    { apply res_bind_Ok in E2 as ([] & s3 & _ & [=]). }
    injection E2 as <-. apply res_bind_any in E as [([] & s3 & E3 & E)|(e & E3 & ->)];
      destruct (close_ok _ f _ _ L1 E3) as (w & -> & HS & Hw).
    2: { by split; [exists (RtClosed w), (sg_tracker s), (sg_fs s)|]. }
    destruct (Hw eq_refl) as [Hwr D]. cbn beta in E.
    assert (forall total, sg_total s = Some total -> f = total) as Htot.
    { intros total E0. simpl in Et. rewrite E0 in Et. by apply negb_false_iff, Z.eqb_eq in Et. }
    destruct (sg_use_control (set_runtime (RtClosed w) (set_runtime rt s))) eqn:Eu.
    + unfold delete_single_control in E. destruct (delete_control _ _) as [rd fs] eqn:Ed. apply delete_control_spec in Ed.
      injection E as <- <-. split; [by eexists _, _, _|]. destruct rd as [[]|e].
      * assert (forall snap, ~ ctrl_in fs snap) as Hno by (intros snap (ff & h & Hx & _); by rewrite Ed in Hx).
        split; [|by intros _; split_and!]. intros snap (ff & h & Hx & _). simpl in Hx. by rewrite Ed in Hx.
      * destruct Ed as [_ Ed]. split; [|done]. intros snap (ff & h & Hx & Hp). simpl in Hx. rewrite Ed in Hx.
        apply (HS snap). by exists ff, h.
    + injection E as <- <-. split; [by eexists (RtClosed w), (sg_tracker s), (sg_fs s)|]. split; [done|]. intros _.
      split_and!; try done; [by apply L|]. intros Hu. by rewrite Hu in Eu.
  - destruct (_ || _); [|done]. apply res_bind_any in E2 as [([] & s3 & E3 & [= <- <-])|(e' & E3 & _)];
      destruct (close_ok _ f _ _ L1 E3) as (w & -> & HS & _); by split; [exists (RtClosed w), (sg_tracker s), (sg_fs s)|].
Qed.

(** ** Restarts *)

(** The file promises nothing, or what the control file promises is durable: a
    control file whose output file is empty is discarded when it is loaded. *)
Definition Recoverable (s : SingleState) : Prop :=
  Sound s \/ (file_of s = empty_file /\ forall snap, ctrl_in (sg_fs s) snap -> (ctrl_piece_count snap <= 1)%nat).

Definition no_ctrl (fs : Fs) : Prop := forall snap, ~ ctrl_in fs snap.

Lemma no_ctrl_Sound s : no_ctrl (sg_fs s) -> Sound s.
Proof. intros Hn snap Hs. by apply Hn in Hs. Qed.

(** At the head of the loop the writer is running and has nothing to do, and a
    file to be filled from the start is a plain one with no write in flight. *)
Definition Ready (s : SingleState) : Prop :=
  exists w, sg_runtime s = RtRunning w [] /\ Live s (sg_offset s) /\ (sg_offset s = 0 -> plain (file w) /\ inflight w = None).

(** The retry state and the pending response may change. *)
Definition Same (s s' : SingleState) : Prop := sg_retry s' = sg_retry s /\ sg_pending s' = sg_pending s.

Lemma Live_retry s f retry : Live s f -> Live (set_retry retry s) f.
Proof. by intros []. Qed.

Lemma Live_pending s f r : Live s f -> Live (set_pending r s) f.
Proof. by intros []. Qed.

Lemma reset_ok s f r s' :
  Live s f -> reset spec None s = (r, s') ->
  (exists rt file_total, s' = mkSingle (sg_offset s) (sg_total s) (sg_baseline s) (sg_pending s) (sg_retry s) rt file_total
     (sg_use_control s) (sg_tracker s) (sg_template s) (sg_fs s)) /\
  match r with
  | Ok _ => exists io, sg_runtime s' = RtRunning (writer_new empty_file io 0 (watermark_of spec)) []
  | Err _ => Sound s'
  end.
Proof.
  intros L E. unfold reset in E. apply res_bind_any in E as [([] & s1 & E1 & E)|(e & E1 & ->)];
    destruct (close_ok s f _ _ L E1) as (w & -> & HS & _); [|by split; [eexists _, _|]].
  unfold start_writer in E. simpl in E. destruct (create_output_file _ None _ _) as [rc d] eqn:Ec.
  pose proof (create_unsized _ _ _ _ _ Ec) as Hf. destruct rc as [[]|e]; injection E as <- <-.
  - split; [by eexists _, _|]. exists (disk_io d). simpl. by rewrite Hf.
  - split; [by eexists _, _|]. intros snap Hs. destruct (HS snap Hs) as [HS1 HS2]. split; [|done].
    intros b Hb. specialize (HS1 b Hb). unfold file_of in *. simpl in *. by rewrite Hf.
Qed.

Lemma restart_ok s f baseline r s' :
  Live s f -> (forall meta, baseline = Some meta -> served meta) -> restart spec baseline s = (r, s') ->
  match r with
  | Ok _ => Ready s' /\ sg_offset s' = 0 /\ sg_total s' = None /\ Same s s'
  | Err _ => Recoverable s'
  end.
Proof.
  intros L Hb E. unfold restart in E. apply res_bind_any in E as [([] & s1 & E1 & E)|(e & E1 & ->)].
  2: { apply (reset_ok s f) in E1 as [_ HS]; [by left|done]. }
  apply (reset_ok s f) in E1 as [(rt & ft & ->) [io Hr]]; [|done]. simpl in Hr. subst rt.
  apply res_bind_any in E as [([] & s2 & E2 & E)|(e & E2 & ->)]; unfold delete_single_control in E2;
    destruct (delete_control _ _) as [rd fs] eqn:Ed; apply delete_control_spec in Ed; injection E2 as -> <-.
  2: { right. split; [done|]. intros snap (g & h & Hg & Hp). simpl in Hg. rewrite (proj2 Ed) in Hg.
       by destruct (lv_sound _ _ L snap) as [_ [Hc _]]; [exists g, h|]. }
  injection E as <- <-. split; [|done]. eexists. split; [done|]. split; [|by intros _; split; [intros b v|]].
  assert (no_ctrl fs) as Hn by (intros snap (ff & h & Hx & _); by rewrite Ed in Hx).
  destruct L as [L1 L2 L3 L4 L5 L6 L7 L8 L9 L10]. split; simpl; try done.
  - apply Queued_nil, plain_stream. by intros b v.
  - by apply no_ctrl_Sound.
  - intros snap Hs. by apply Hn in Hs.
  - destruct baseline as [meta|]; [by eexists _, _|done].
  - destruct baseline as [meta|]; [by apply Hb|done].
Qed.

(** A retry is granted, or the transfer ends. *)
Lemma decided_ok s f t by_ error r s' :
  Live s f -> decided spec t by_ error s = (r, s') ->
  match r with
  | Ok _ => exists d c b el retry,
      by_ (sg_retry s) error (tn_now1 t) (tn_now2 t) (tn_draw t) = (Retry d c b el, retry) /\ s' = set_retry retry s
  | Err _ => Sound s'
  end.
Proof.
  intros L E. unfold decided in E. destruct (by_ _ _ _ _ _) as [decision retry] eqn:Eb.
  pose proof (Live_retry s f retry L) as L1. destruct decision as [e|d c b el].
  - by destruct (finish_ok _ f e r s' L1 E) as (_ & HS & e' & ->).
  - destruct (tn_sleep t) as [e|].
    + by destruct (finish_ok _ f e r s' L1 E) as (_ & HS & e' & ->).
    + injection E as <- <-. by eexists _, _, _, _, _.
Qed.

(** ** Responses *)

Section Server.
  Context (same_object : forall meta baseline total, delivers meta -> delivers baseline ->
    metadata_matches_baseline meta baseline total = true -> objects meta = objects baseline).
  (* the responses the transfer receives *)
  Context (given : HttpResponse -> Prop).

(** A response from the start of the object: as many bytes as it announces, all of
    them the object's. *)
Definition honest_get (r : HttpResponse) : Prop :=
  served (rsp_meta r) /\ delivers (rsp_meta r) /\
  (forall n, single_response_total_size (rsp_status r) (rsp_meta r) = Some n -> 0 <= n < u64_max) /\
  agrees (objects (rsp_meta r)) 0 (left_of (single_response_total_size (rsp_status r) (rsp_meta r)) 0 (body_bytes (rsp_body r))).

(** A response to a request for the bytes after [o]: a response with the range's
    headers carries the range; one with status 200 carries the whole object. *)
Definition honest_range (o total : Z) (r : HttpResponse) : Prop :=
  served (rsp_meta r) /\
  (validate_range_response (rsp_status r) (rsp_retry_after r) (rsp_meta r) ResumeProbe
     (mkExpected o (Z.max 0 (total - 1)) (Some total)) = Ok Accept ->
   delivers (rsp_meta r) /\ agrees (objects (rsp_meta r)) o (take (Z.to_nat (total - o)) (body_bytes (rsp_body r)))) /\
  (rsp_status r = 200 -> honest_get r).

Definition honest_turn (t : Turn) : Prop :=
  (forall r, tn_send_get t = RequestResult (Ok r) -> honest_get r) /\
  (forall o total r, tn_send_range t o (Z.max 0 (total - 1)) = RequestResult (Ok r) -> honest_range o total r).

Definition turn_given (t : Turn) : Prop :=
  (forall r, tn_send_get t = RequestResult (Ok r) -> given r) /\
  (forall o e r, tn_send_range t o e = RequestResult (Ok r) -> given r).

(** What may be used at the current position. *)
Definition Usable (s : SingleState) (r : HttpResponse) : Prop :=
  if 0 <? sg_offset s then forall total, sg_total s = Some total -> honest_range (sg_offset s) total r else honest_get r.

Record Head (s : SingleState) : Prop := {
  hd_ready : Ready s;
  hd_delivers : 0 < sg_offset s -> delivers (sg_baseline s);
  hd_pending : forall r, sg_pending s = Some r -> Usable s r /\ given r;
}.

Lemma Stream_rebase obj obj' w : Stream obj w 0 -> plain (file w) -> inflight w = None -> Stream obj' w 0.
Proof.
  intros [I L [C P] R] Hp Hi. destruct (single w) as [[o d]|] eqn:Es.
  { apply (wi_single _ _ _ I) in Es as [(H0 & _) _]. destruct P as (Hd & _ & P). destruct d; [done|]. unfold blen in P. simpl in P. lia. }
  destruct I as [I1 I2 I3 I4 I5 I6 I7 I8 I9]. split; [|done|split; [done|by rewrite Es]|done]. split; try done.
  - intros k e. rewrite C. unfold cache_new. simpl. by rewrite lookup_empty.
  - intros o d E. by rewrite Es in E.
  - intros o d E. by rewrite Hi in E.
  - intros b. apply Hp.
  - intros k b [_ Hb]. lia.
Qed.

Lemma Ready_stream s : Ready s -> exists w, sg_runtime s = RtRunning w [] /\ Stream (object_of s) w (sg_offset s).
Proof.
  intros (w & Er & L & _). exists w. split; [done|]. pose proof (lv_rt _ _ L) as R. rewrite Er in R.
  destruct R as (e & data & S & Hc & _ & ->). simpl in Hc. subst data. unfold blen. simpl. by rewrite Z.add_0_r.
Qed.

(** A part of an honest response is an honest part. *)
Lemma left_of_part obj o e data : agrees obj o data -> agrees obj o (left_of e 0 data).
Proof.
  intros Ha. destruct e as [e|]; [|done]. simpl. rewrite <- (take_drop (Z.to_nat (e - 0)) data) in Ha. by apply agrees_split in Ha as [Ha _].
Qed.

Lemma adopt_ok s response r s' :
  Ready s -> sg_offset s = 0 -> honest_get response -> adopt_response spec response s = (r, s') ->
  match r with
  | Ok _ => Live s' 0 /\ sg_offset s' = 0 /\ Same s s' /\ delivers (sg_baseline s') /\ sg_baseline s' = rsp_meta response /\
      agrees (object_of s') 0 (left_of (sg_total s') 0 (body_bytes (rsp_body response)))
  | Err _ => Sound s'
  end.
Proof.
  intros R H0 (Hsv & Hd & Hn & Ha) E. pose proof R as (w & Er & L & Hp). destruct (Ready_stream s R) as (w' & Er' & S).
  rewrite Er in Er'. injection Er' as <-. rewrite H0 in *. destruct (Hp eq_refl) as [Hpl Hinf].
  assert (no_ctrl (sg_fs s)) as Hno by (intros snap Hs; apply (lv_ctrl _ _ L) in Hs; lia).
  unfold adopt_response in E.
  apply res_bind_any in E as [([] & s1 & E1 & E)|(e & [=] & _)]. injection E1 as E1. rewrite H0, Er in E1.
  set (size := single_response_total_size (rsp_status response) (rsp_meta response)) in *.
  set (total := match size with Some n => Some n | None => sg_total s end) in *.
  assert (Live s1 0) as L1.
  { destruct L as [L1 L2 L3 L4 L5 L6 L7 L8 L9 L10]. subst s1. split; simpl; try done.
    - apply Queued_nil. by apply (Stream_rebase (object_of s)).
    - by apply no_ctrl_Sound.
    - eexists total, _. split; [done|]. intros n En. subst total. destruct size; [by apply Hn|by apply L7].
    - intros n En. subst total. destruct size; [by apply Hn|by apply L7]. }
  assert (agrees (object_of s1) 0 (left_of (sg_total s1) 0 (body_bytes (rsp_body response)))) as Ha1.
  { subst s1 total. simpl. destruct size; [done|]. by apply left_of_part. }
  assert (forall r' s2, reset spec total s1 = (r', s2) ->
    match r' with
    | Ok _ => Live s2 0 /\ sg_offset s2 = 0 /\ Same s s2 /\ delivers (sg_baseline s2) /\ sg_baseline s2 = rsp_meta response /\
        agrees (object_of s2) 0 (left_of (sg_total s2) 0 (body_bytes (rsp_body response)))
    | Err _ => Sound s2
    end) as Hreset.
  { intros r' s2 E2. unfold reset in E2. apply res_bind_any in E2 as [([] & s3 & E3 & E2)|(e & E3 & ->)];
      destruct (close_ok s1 0 _ _ L1 E3) as (wc & -> & HS & _); [|done].
    unfold start_writer in E2. simpl in E2. destruct (create_output_file _ _ _ _) as [rc d] eqn:Ec.
    destruct rc as [u|e]; injection E2 as <- <-; [|subst s1; by apply no_ctrl_Sound].
    apply create_plain in Ec. subst s1.
    split; [|done]. destruct L1 as [M1 M2 M3 M4 M5 M6 M7 M8 M9 M10]. split; simpl; try done; [by apply Queued_nil, plain_stream|by apply no_ctrl_Sound]. }
  assert (sg_total s1 = total) as Et by (by subst s1). rewrite Et in E. cbn beta in E.
  destruct (sp_allocation spec); [injection E as <- <-; by subst s1|].
  case_bool_decide; [injection E as <- <-; by subst s1|]. by apply Hreset in E.
Qed.

Lemma Head_set s s' :
  Ready s' -> sg_offset s' = sg_offset s -> sg_baseline s' = sg_baseline s -> sg_total s' = sg_total s ->
  sg_pending s' = sg_pending s -> Head s -> Head s'.
Proof.
  intros R Eo Eb Et Ep [_ Hd Hp]. split; [done|by rewrite Eo, Eb|]. intros r Hr. rewrite Ep in Hr. destruct (Hp r Hr) as [Hp1 Hp2].
  split; [|done]. unfold Usable in *. by rewrite Eo, Et.
Qed.

Lemma Ready_retry s retry : Ready s -> Ready (set_retry retry s).
Proof. intros (w & Er & L & Hp). exists w. by split; [|split; [apply Live_retry|]]. Qed.

Lemma next_ok s t r s' :
  Head s -> honest_turn t -> turn_given t -> next_response spec t s = (r, s') ->
  match r with
  | Ok (Some response) => Head s' /\ sg_pending s' = None /\ Usable s' response /\ given response
  | Ok None => Head s'
  | Err _ => Sound s'
  end.
Proof.
  intros Hh [Hg Hr] [Gg Gr] E. pose proof (hd_ready _ Hh) as R. pose proof R as (w & Er & L & Hpl). unfold next_response in E.
  destruct (sg_pending s) as [response|] eqn:Ep.
  { injection E as <- <-. destruct Hh as [_ Hd Hp]. split; [|split; [done|by apply Hp]]. split; [|done|done].
    exists w. by split; [|split; [apply Live_pending|]]. }
  match type of E with match ?x with _ => _ end = _ => destruct x as [error|[response|error]] eqn:Eq end.
  - by destruct (finish_ok _ _ error r s' L E) as (_ & HS & e' & ->).
  - injection E as <- <-. split; [done|]. split; [done|]. unfold Usable. destruct (0 <? sg_offset s).
    + split; [intros total Et; rewrite Et in Eq; by apply Hr|]. destruct (sg_total s); [by apply Gr in Eq|by apply Gg].
    + split; destruct (sg_total s); by apply Hg || apply Gg.
  - apply res_bind_any in E as [([] & s1 & E1 & E)|(e & E1 & ->)]; apply (decided_ok s _ _ _ _ _ _ L) in E1; [|done].
    destruct E1 as (d & c & b & el & retry & _ & ->). injection E as <- <-.
    by apply (Head_set s); [by apply Ready_retry|..].
Qed.

Lemma resume_accepted s response total :
  sg_total s = Some total -> delivers (sg_baseline s) -> honest_range (sg_offset s) total response ->
  resume_response_error response total s = None ->
  agrees (object_of s) (sg_offset s) (take (Z.to_nat (total - sg_offset s)) (body_bytes (rsp_body response))).
Proof.
  intros Et Hd (_ & Ha & _) E. unfold resume_response_error in E. rewrite Et in E.
  destruct (validate_range_response _ _ _ _ _) as [[|reason]|e] eqn:Ev; [|done|done].
  destruct (metadata_matches_baseline _ _ _) eqn:Em; [|done]. destruct (Ha eq_refl) as [Hd' Ha'].
  unfold object_of. by rewrite <- (same_object _ _ _ Hd' Hd Em).
Qed.

(** A response that is used carries the object's bytes from the current offset. *)
Lemma checked_ok s t response r s' :
  Head s -> Usable s response -> given response -> checked spec t response s = (r, s') ->
  match r with
  | Ok true => Live s' (sg_offset s') /\ sg_pending s' = sg_pending s /\ sg_retry s' = sg_retry s /\ delivers (sg_baseline s') /\
      (sg_total s' = None -> sg_offset s' = 0 /\ sg_baseline s' = rsp_meta response) /\
      agrees (object_of s') (sg_offset s')
        (left_of ((fun total => Z.max 0 (total - sg_offset s')) <$> sg_total s') 0 (body_bytes (rsp_body response)))
  | Ok false => Head s'
  | Err _ => Recoverable s'
  end.
Proof.
  intros Hh Hu Hgv E. pose proof (hd_ready _ Hh) as R. pose proof R as (w & Er & L & Hpl). unfold checked in E. unfold Usable in Hu.
  destruct (Z.ltb_spec 0 (sg_offset s)) as [Hpos|Hzero].
  - destruct (sg_total s) as [total|] eqn:Et; [|injection E as <- <-; left; apply L]. specialize (Hu total eq_refl).
    destruct (resume_response_error response total s) as [error|] eqn:Ee.
    + apply res_bind_any in E as [([] & s1 & E1 & E)|(e & E1 & ->)]; apply (decided_ok s _ _ _ _ _ _ L) in E1; [|by left].
      destruct E1 as (d & c & b & el & retry & _ & ->).
      apply res_bind_any in E as [([] & s2 & E2 & E)|(e & E2 & ->)];
        apply (restart_ok _ (sg_offset s)) in E2; try (by apply Live_retry); try done; try (by intros meta [= <-]; destruct Hu).
      destruct E2 as ((w2 & Er2 & L2 & Hp2) & Eo & Et2 & _). injection E as <- <-. split.
      * exists w2. by split; [|split; [apply Live_pending|]].
      * simpl. lia.
      * simpl. unfold Usable. simpl. rewrite Eo. intros r'. destruct (Z.eqb_spec (rsp_status response) 200); [|done].
        intros [= <-]. split; [by apply Hu|done].
    + injection E as <- <-. split_and!; try done; [by apply Hh|by rewrite Et|]. rewrite Et. simpl.
      replace (Z.to_nat (Z.max 0 (total - sg_offset s) - 0)) with (Z.to_nat (total - sg_offset s)) by lia.
      apply resume_accepted; try done. by apply Hh.
  - assert (sg_offset s = 0) as H0 by (pose proof (Ready_stream s R) as (w' & _ & S); pose proof (st_range _ _ _ S); lia).
    apply res_bind_any in E as [([] & s1 & E1 & E)|(e & E1 & ->)]; apply (adopt_ok s response _ _ R H0 Hu) in E1; [|by left].
    injection E as <- <-. destruct E1 as (L1 & Eo & [Er1 Ep1] & Hd & Eb & Ha). rewrite Eo. split_and!; try done.
    destruct (sg_total s1) as [total|] eqn:Et; [|done]. simpl in *.
    by replace (Z.max 0 (total - 0) - 0) with (total - 0) by (pose proof (lv_total _ _ L1 total Et); lia).
Qed.

Lemma Kept_fields s s' :
  Kept s s' -> sg_offset s' = sg_offset s /\ sg_total s' = sg_total s /\ sg_baseline s' = sg_baseline s /\
    sg_pending s' = sg_pending s /\ sg_retry s' = sg_retry s /\ sg_use_control s' = sg_use_control s.
Proof. by intros (rt & tr & fs & ->). Qed.

(** The offset is moved to what has been flushed. *)
Lemma flushed_ready s f : Live s f -> Flushed s f -> Ready (set_offset f s).
Proof.
  intros [L1 L2 L3 L4 L5 L6 L7 L8 L9 L10] (w & Er & S & N & D1 & D2). exists w. split; [done|]. split; [by split|].
  simpl. intros _. split; [|done]. intros b v E. by rewrite <- D1.
Qed.

Lemma after_failure_ok s f t error r s' :
  Live s f -> sg_pending s = None -> delivers (sg_baseline s) -> after_failure spec t error s = (r, s') ->
  match r with Ok _ => Head s' | Err _ => Recoverable s' end.
Proof.
  intros L Ep Hd E. unfold after_failure in E. destruct (_ || _).
  { destruct (finish_ok s f error r s' L E) as (_ & HS & e & ->). by left. }
  apply res_bind_any in E as [(n & s1 & E1 & E)|(e & E1 & ->)]; [|apply (flush_ok s f) in E1 as (_ & HS & _); [by left|done]].
  apply (flush_ok s f) in E1 as ([rt ->] & _ & Hf); [|done]. destruct (Hf n eq_refl) as (-> & L1 & F1).
  pose proof (flushed_ready _ f L1 F1) as R2. apply res_bind_any in E as [([] & s2' & [= <-] & E)|(e & [=] & _)].
  set (s2 := set_offset f (set_runtime rt s)) in *.
  apply res_bind_any in E as [([] & s3 & E3 & E)|(e & E3 & ->)]; cbn beta in E3.
  2: { destruct (sg_use_control s2); [|done]. unfold save_single_control_snapshot_at in E3. by destruct (_ <=? _). }
  assert (Ready s3 /\ Kept s2 s3) as [R3 K3].
  { destruct (sg_use_control s2) eqn:Eu; [|injection E3 as <-; split; [done|apply Kept_refl]]. unfold save_single_control_snapshot_at in E3.
    destruct (Z.leb_spec f (last_saved_downloaded_bytes (sg_tracker s2))) as [|Hlt]; [injection E3 as <-; split; [done|apply Kept_refl]|].
    destruct (save_prefix spec f s2) as [rs s4] eqn:Es. injection E3 as <-. destruct R2 as (w & Er & L2 & Hp).
    apply (Live_saved s2 f) in Es as [(tr & fs & ->) L4]; [|done|done|pose proof (lv_tracker _ _ L2); simpl in *; lia|by apply (Flushed_file (set_runtime rt s))].
    split; [by exists w|by exists (sg_runtime s2), tr, fs; rewrite set_runtime_same]. }
  apply Kept_fields in K3 as (F2 & F3 & F4 & F5 & _). pose proof R3 as (w & Er & L3 & _).
  apply res_bind_any in E as [([] & s4 & E4 & E)|(e & E4 & ->)]; apply (decided_ok s3 _ _ _ _ _ _ L3) in E4; [|by left].
  destruct E4 as (d & c & b & el & retry & _ & ->). cbn beta in E.
  destruct (match sg_total (set_retry retry s3) with Some total => _ | None => true end).
  - apply (restart_ok _ (sg_offset s3)) in E; [|by apply Live_retry|done]. destruct r as [u|e]; [|done].
    destruct E as (R & Eo & _ & _ & Ep'). split; [done|lia|]. rewrite Ep'. simpl. rewrite F5. simpl. by rewrite Ep.
  - injection E as <- <-. split; [by apply Ready_retry|simpl; intros _; by rewrite F4|]. simpl. rewrite F5. simpl. by rewrite Ep.
Qed.

(** ** The loop *)

(** Without an announced size, [n] is the length of the body of a response. *)
Definition Whole (s : SingleState) (n : Z) : Prop :=
  sg_total s = None -> exists response, given response /\ rsp_meta response = sg_baseline s /\ n = blen (body_bytes (rsp_body response)).

(** How an iteration ends. *)
Definition Turned (r : result bool DownloadError) (s : SingleState) : Prop :=
  match r with
  | Ok true => Sound s /\ delivers (sg_baseline s) /\ exists n, Complete s n /\ Whole s n
  | Ok false => Head s
  | Err _ => Recoverable s
  end.

Lemma single_turn_ok s t r s' : Head s -> honest_turn t -> turn_given t -> single_turn spec t s = (r, s') -> Turned r s'.
Proof.
  intros Hh Ht Hg E. unfold single_turn in E. apply res_bind_any in E as [(response & s1 & E1 & E)|(e & E1 & ->)];
    apply (next_ok s t) in E1; try done; [|by left].
  destruct response as [response|]; [|by injection E as <- <-]. destruct E1 as (H1 & Hp & Hu & Hgv).
  apply res_bind_any in E as [(usable & s2 & E2 & E)|(e & E2 & ->)]; apply (checked_ok s1 t response) in E2; try done.
  destruct usable; cbn [negb] in E; [|by injection E as <- <-]. destruct E2 as (L2 & Ep & _ & Hd & Hnone & Ha).
  pose proof (lv_rt _ _ L2) as R2.
  assert ((let '(outcome, s) := stream_single_attempt spec response s2 in
           match outcome with
           | AttemptComplete final_offset => (complete_single_transfer spec final_offset ;! ok true) s
           | AttemptFailed error => (after_failure spec t error ;! ok false) s
           end) = (r, s')) as E' by (by destruct (sg_runtime s2)).
  clear E. destruct (stream_single_attempt spec response s2) as [outcome s3] eqn:Es. unfold stream_single_attempt in Es.
  apply stream_loop_ok in Es as (K & f & L3 & Hf & Hfin); try done.
  2: { pose proof (lv_nonneg _ _ L2). lia. }
  2: { intros e Ee. destruct (sg_total s2) as [total|] eqn:Et; [|done]. injection Ee as <-.
       pose proof (lv_total _ _ L2 total Et). pose proof (lv_nonneg _ _ L2). lia. }
  apply Kept_fields in K as (F1 & F2 & F3 & F4 & _). destruct outcome as [final|error].
  - apply res_bind_any in E' as [([] & s4 & E4 & E')|(e & E4 & ->)]; apply (complete_ok s3 f) in E4 as (K4 & HS & Hc); try done;
      try (by apply Hfin); [|by left].
    injection E' as <- <-. split; [done|]. apply Kept_fields in K4 as (_ & G2 & G & _). split; [by rewrite G, F3|].
    exists f. split; [by apply Hc|]. intros Ht0. rewrite G2, F2 in Ht0. destruct (Hnone Ht0) as [Eo Eb]. exists response.
    split; [done|]. split; [by rewrite G, F3|]. destruct (Hfin final eq_refl) as (_ & _ & Hlen). rewrite Hlen, Eo; [lia|by rewrite Ht0].
  - apply res_bind_any in E' as [([] & s4 & E4 & E')|(e & E4 & ->)]; apply (after_failure_ok s3 f) in E4; try done;
      try (by rewrite F4, Ep); try (by rewrite F3).
    by injection E' as <- <-.
Qed.

Lemma single_loop_ok turns : forall s r s',
  Head s -> Forall honest_turn turns -> Forall turn_given turns -> single_loop spec turns s = Some (r, s') ->
  match r with
  | Ok _ => Sound s' /\ delivers (sg_baseline s') /\ exists n, Complete s' n /\ Whole s' n
  | Err _ => Recoverable s'
  end.
Proof.
  induction turns as [|t turns IH]; intros s r s' Hh Ht Hg E; simpl in E; [done|]. apply Forall_cons in Ht as [Ht Hts]. apply Forall_cons in Hg as [Hg Hgs].
  destruct (single_turn spec t s) as [[[]|e] s1] eqn:E1; apply single_turn_ok in E1; try done.
  - injection E as <- <-. done.
  - by apply (IH s1).
  - injection E as <- <-. done.
Qed.
End Server.
End Invariants.
