(* ===== verification/SingleProps.v ===== *)
(** * Properties of single-connection transfers

    A transfer that succeeds has put the object on stable storage; one that fails
    leaves a control file that promises no more than the file holds; and every
    transfer ends, because each iteration that does not finish uses up a retry. *)

From S2P Require Import Prelude RustStr Errors Cache Writer WriterInv WriterProps WriterRun Flow Retry Response RangeValidate Control Resume Checkpoint OutputFile WriterStream Single SingleInv.

(** ** The retry state *)

(** Operations that leave the retry state alone. *)
Definition Keeps {A} (m : SingleM A) : Prop := forall s r s', m s = (r, s') -> sg_retry s' = sg_retry s.

Create HintDb same_retry.

Lemma Keeps_bind {A B} (m : SingleM A) (k : A -> SingleM B) : Keeps m -> (forall a, Keeps (k a)) -> Keeps (res_bind m k).
Proof.
  intros Hm Hk s r s' E. apply res_bind_any in E as [(a & s1 & E1 & E)|(e & E1 & ->)]; [|by eapply Hm].
  rewrite (Hk a _ _ _ E). by eapply Hm.
Qed.

Lemma Keeps_if {A} (c : SingleState -> bool) (m k : SingleM A) :
  Keeps m -> Keeps k -> Keeps (fun s => if c s then m s else k s).
Proof. intros Hm Hk s r s' E. destruct (c s); eauto. Qed.

Lemma Keeps_ok {A} (a : A) : Keeps (ok a).
Proof. by intros s r s' [= _ <-]. Qed.

Lemma Keeps_pure {A} (r0 : result A DownloadError) : Keeps (fun s => (r0, s)).
Proof. by intros s r s' [= _ <-]. Qed.

#[local] Hint Resolve Keeps_bind Keeps_if Keeps_ok Keeps_pure : same_retry.

Section Retries.
  Context `{Codec} (spec : SingleSpec).

Lemma flush_wait_keeps : Keeps flush_all_and_wait.
Proof.
  intros s r s' E. unfold flush_all_and_wait in E. destruct (sg_runtime s) as [w q|e w|w]; try by injection E as _ <-.
  destruct (receive _ w) as [[acks|e] w']; by injection E as _ <-.
Qed.

Lemma close_keeps : Keeps close.
Proof.
  intros s r s' E. unfold close in E. destruct (sg_runtime s) as [w q|e w|w]; try by injection E as _ <-.
  destruct (run q w) as [[acks|e] w']; by injection E as _ <-.
Qed.

Lemma flush_keeps : Keeps flush.
Proof.
  intros s r s' E. unfold flush in E.
  assert (r = Err ChannelClosed /\ s' = s \/
    match flush_all_and_wait s with
    | (Ok written, s) => (Ok written, s)
    | (Err flush_error, s) => match close s with (Ok _, s) => (Err flush_error, s) | (Err writer_error, s) => (Err writer_error, s) end
    end = (r, s')) as [[-> ->]|E'] by (destruct (sg_runtime s); [by right|by right|left; by injection E as <- <-]); [done|].
  destruct (flush_all_and_wait s) as [[n|e] s1] eqn:E1; apply flush_wait_keeps in E1; [by injection E' as _ <-|].
  destruct (close s1) as [[u|e'] s2] eqn:E2; apply close_keeps in E2; injection E' as _ <-; congruence.
Qed.

Lemma start_keeps offset total : Keeps (start_writer spec offset total).
Proof.
  intros s r s' E. unfold start_writer in E. destruct (if 0 <? offset then _ else _) as [[u|e] d]; by injection E as _ <-.
Qed.

Lemma save_prefix_keeps n : Keeps (save_prefix spec n).
Proof. intros s r s' E. unfold save_prefix in E. destruct (save _ _ _) as [[u|e] fs]; by injection E as _ <-. Qed.

Lemma delete_keeps : Keeps (delete_single_control spec).
Proof. intros s r s' E. unfold delete_single_control in E. destruct (delete_control _ _) as [rd fs]; by injection E as _ <-. Qed.

#[local] Hint Resolve flush_wait_keeps close_keeps flush_keeps start_keeps save_prefix_keeps delete_keeps : same_retry.

Lemma persist_keeps reason n first : Keeps (persist_single_control_snapshot spec reason n first).
Proof.
  intros s r s' E. unfold persist_single_control_snapshot in E. destruct (should_save _ _ _ _) as [go tracker].
  destruct go; cbn [negb] in E; [|by injection E as _ <-]. apply Keeps_bind in E; [done|by destruct first; auto with same_retry|].
  auto with same_retry.
Qed.

Lemma save_at_keeps n : Keeps (save_single_control_snapshot_at spec n).
Proof.
  intros s r s' E. unfold save_single_control_snapshot_at in E. destruct (_ <=? _); [by injection E as _ <-|].
  destruct (save_prefix spec n s) as [rs s1] eqn:Es. apply save_prefix_keeps in Es. by injection E as _ <-.
Qed.

#[local] Hint Resolve persist_keeps save_at_keeps : same_retry.

Lemma reset_keeps total : Keeps (reset spec total).
Proof. unfold reset. auto with same_retry. Qed.

Lemma update_keeps (f : SingleState -> SingleState) : (forall s, sg_retry (f s) = sg_retry s) -> Keeps (update_state f).
Proof. by intros Hf s r s' [= _ <-]. Qed.

#[local] Hint Resolve reset_keeps update_keeps : same_retry.

Lemma restart_keeps baseline : Keeps (restart spec baseline).
Proof. unfold restart. auto 10 with same_retry. Qed.

Lemma adopt_keeps response : Keeps (adopt_response spec response).
Proof.
  unfold adopt_response. apply Keeps_bind; [auto with same_retry|]. intros _ s r s' E. destruct (sp_allocation spec).
  - by injection E as _ <-.
  - case_bool_decide; [by injection E as _ <-|]. by apply reset_keeps in E.
Qed.

Lemma stream_keeps expected events : forall downloaded received s outcome s',
  stream_loop spec expected events downloaded received s = (outcome, s') -> sg_retry s' = sg_retry s.
Proof.
  assert (forall reason n s, sg_retry (if sg_use_control s then snd (persist_single_control_snapshot spec reason n true s) else s) = sg_retry s) as Hp.
  { intros reason n s. destruct (sg_use_control s); [|done].
    destruct (persist_single_control_snapshot spec reason n true s) as [r s1] eqn:E. by apply persist_keeps in E. }
  induction events as [|ev events IH]; intros downloaded received s outcome s' E; simpl in E; [by injection E as _ <-|].
  destruct ev as [error| |[data|error] selected].
  - injection E as _ <-. apply Hp.
  - apply IH in E. by rewrite E, Hp.
  - destruct (match expected with Some e => _ | None => false end); [by injection E as _ <-|].
    destruct (default _ _) as [[r cmds] sent]. assert (sg_retry (enqueue cmds s) = sg_retry s) as He.
    { unfold enqueue. by destruct (sg_runtime s). }
    destruct r as [u|e]; [by apply IH in E; rewrite E|by injection E as _ <-].
  - by injection E as _ <-.
Qed.

(** A decision to go on is a granted retry. *)
Definition Counted (s s' : SingleState) : Prop :=
  retries_started (sg_retry s) < max_retries (sg_retry s) /\
  retries_started (sg_retry s') = Z.min (retries_started (sg_retry s) + 1) (2 ^ 32 - 1) /\
  max_retries (sg_retry s') = max_retries (sg_retry s).

Lemma finish_never {A} e s a s' : finish_single_error spec (A := A) e s <> (Ok a, s').
Proof.
  intros E. unfold finish_single_error in E. apply res_bind_Ok in E as (u & s1 & _ & E).
  by apply res_bind_Ok in E as (u' & s2 & _ & E).
Qed.

Lemma decided_counted force t error u s s' :
  decided spec t (fun st e => decide_inner st e force false) error s = (Ok u, s') -> Counted s s'.
Proof.
  unfold decided. destruct (decide_inner _ _ _ _ _ _ _) as [[e|e c b el] retry] eqn:Ed; [by intros ?%finish_never|].
  destruct (tn_sleep t); [by intros ?%finish_never|]. intros [= _ <-].
  apply decide_inner_retry in Ed as (_ & _ & Hlt & -> & _ & _ & -> & _). done.
Qed.

Lemma Counted_keeps s1 s2 s3 s4 :
  sg_retry s2 = sg_retry s1 -> Counted s2 s3 -> sg_retry s4 = sg_retry s3 -> Counted s1 s4.
Proof. unfold Counted. by intros -> ? ->. Qed.

Lemma after_failure_counted t error u s s' : after_failure spec t error s = (Ok u, s') -> Counted s s'.
Proof.
  unfold after_failure. intros E. destruct (_ || _); [by apply finish_never in E|].
  apply res_bind_Ok in E as (n & s5 & K5%flush_keeps & E). apply res_bind_Ok in E as (u1 & s6 & [= _ <-] & E).
  apply res_bind_Ok in E as (u2 & s7 & K7 & E). apply Keeps_if in K7; [|auto with same_retry..].
  apply res_bind_Ok in E as (u3 & s8 & E8%(decided_counted false) & E). cbn beta in E.
  eapply Counted_keeps; [|exact E8|]; [simpl in *; congruence|].
  destruct (match sg_total s8 with Some total => _ | None => true end); [by apply restart_keeps in E|by injection E as _ <-].
Qed.

(** An iteration after which the loop goes on has used up a retry. *)
Lemma single_turn_counted t s s' : single_turn spec t s = (Ok false, s') -> Counted s s'.
Proof.
  unfold single_turn. intros E. apply res_bind_Ok in E as (response & s1 & E1 & E). unfold next_response in E1.
  destruct response as [response|].
  - assert (sg_retry s1 = sg_retry s) as K1.
    { destruct (sg_pending s); [by injection E1 as _ <-|].
      match type of E1 with match ?x with _ => _ end = _ => destruct x as [error|[rsp|error]] end.
      - by apply finish_never in E1.
      - by injection E1 as _ <-.
      - by apply res_bind_Ok in E1 as (u & s2 & _ & [=]). }
    apply res_bind_Ok in E as (usable & s2 & E2 & E). unfold checked in E2. destruct usable; cbn [negb] in E.
    + assert (sg_retry s2 = sg_retry s1) as K2.
      { destruct (0 <? sg_offset s1).
        - destruct (sg_total s1) as [total|]; [|done]. destruct (resume_response_error _ _ _); [|by injection E2 as <-].
          by repeat (apply res_bind_Ok in E2 as (? & ? & _ & E2)).
        - apply res_bind_Ok in E2 as (u & s3 & E2 & [= <-]). by apply adopt_keeps in E2. }
      assert ((let '(outcome, s) := stream_single_attempt spec response s2 in
           match outcome with
           | AttemptComplete final_offset => (complete_single_transfer spec final_offset ;! ok true) s
           | AttemptFailed error => (after_failure spec t error ;! ok false) s
           end) = (Ok false, s')) as E' by (by destruct (sg_runtime s2)).
      clear E. destruct (stream_single_attempt spec response s2) as [outcome s3] eqn:Es. unfold stream_single_attempt in Es.
      apply stream_keeps in Es. destruct outcome as [final|error]; apply res_bind_Ok in E' as (u & s4 & E4 & E'); [done|].
      injection E' as <-. apply after_failure_counted in E4. eapply Counted_keeps; [|exact E4|done]. congruence.
    + injection E as <-. destruct (0 <? sg_offset s1).
      * destruct (sg_total s1) as [total|]; [|done]. destruct (resume_response_error _ _ _) as [error|]; [|done].
        apply res_bind_Ok in E2 as (u & s3 & E3%(decided_counted true) & E2).
        eapply Counted_keeps; [exact K1|exact E3|]. apply res_bind_Ok in E2 as (u2 & s4 & K4%restart_keeps & E2).
        apply res_bind_Ok in E2 as (u3 & s5 & [= _ <-] & [= <-]). done.
      * by apply res_bind_Ok in E2 as (u & s3 & _ & [=]).
  - injection E as <-. destruct (sg_pending s); [done|].
    match type of E1 with match ?x with _ => _ end = _ => destruct x as [error|[rsp|error]] end.
    + by apply finish_never in E1.
    + done.
    + apply res_bind_Ok in E1 as (u & s2 & E2%(decided_counted false) & [= <-]). done.
Qed.
End Retries.

Lemma single_loop_ends `{Codec} spec turns : forall s,
  0 <= retries_started (sg_retry s) -> max_retries (sg_retry s) <= 2 ^ 32 - 1 ->
  max_retries (sg_retry s) - retries_started (sg_retry s) < Z.of_nat (length turns) ->
  (0 < length turns)%nat -> exists r s', single_loop spec turns s = Some (r, s').
Proof.
  induction turns as [|t turns IH]; intros s H0 Hm Hl Hn; simpl in *; [lia|].
  destruct (single_turn spec t s) as [[[]|e] s1] eqn:E1; try by eexists _, _.
  apply single_turn_counted in E1 as (H1 & H2 & H3). apply IH; rewrite ?H2, ?H3; lia.
Qed.

(** C18: a single-connection transfer always ends.  Whatever the server answers and
    whichever calls fail, [max_retries + 1] iterations are enough: each iteration
    after which the loop goes on -- a failed request, a response that does not fit
    the object, a body that broke off -- has used up one of the retries. *)
Theorem single_transfer_ends `{Codec} spec turns s :
  retries_started (sg_retry s) = 0 -> 0 <= max_retries (sg_retry s) <= 2 ^ 32 - 1 ->
  max_retries (sg_retry s) < Z.of_nat (length turns) ->
  exists r s', run_single_with_retry spec turns s = Some (r, s').
Proof.
  intros H0 Hm Hl. unfold run_single_with_retry. destruct (start_writer _ _ _ s) as [[u|e] s1] eqn:E; [|by eexists _, _].
  apply start_keeps in E. apply single_loop_ends; rewrite ?E; lia.
Qed.

(** ** Transfers *)

(** The responses a transfer receives: the one it starts with, and the answers to its
    requests. *)
Definition received (response : HttpResponse) (turns : list Turn) (r : HttpResponse) : Prop :=
  r = response \/ exists t, t ∈ turns /\
    (tn_send_get t = RequestResult (Ok r) \/ exists o e, tn_send_range t o e = RequestResult (Ok r)).

Lemma received_turns response turns : Forall (turn_given (received response turns)) turns.
Proof. apply Forall_forall. intros t Ht. split; intros; right; exists t; (split; [done|]); [by left|right; by eexists _, _]. Qed.

Section Transfers.
  Context `{Codec} (spec : SingleSpec) (objects : ResponseMeta -> Z -> Z) (served delivers : ResponseMeta -> Prop).

(** What the theorems ask of the server: responses carry the object they announce,
    responses whose headers match carry the same object, and its headers are small
    enough for a control file. *)
Record Server (turns : list Turn) : Prop := {
  sv_small : forall meta total k n payload, served meta ->
    serialize_v2 (with_downloaded n (single_snapshot_template (sp_url spec) total k meta)) default_hints = Ok payload ->
    blen payload < 2 ^ 32;
  sv_same : forall meta baseline total, delivers meta -> delivers baseline ->
    metadata_matches_baseline meta baseline total = true -> objects meta = objects baseline;
  sv_turns : Forall (honest_turn objects served delivers) turns;
}.

(** The start of a transfer: the bytes before [start_offset] are on stable storage,
    and the control file, if there is one, promises none after it.  Only a download
    with resume of a known size starts in the middle. *)
Record Begin (f : FileState) (fs : Fs) (response : HttpResponse) (start_offset : Z) (initial_total : option Z) : Prop := {
  bg_offset : 0 <= start_offset <= u64_max;
  bg_total : forall total, initial_total = Some total -> 0 <= total < u64_max;
  bg_file : opened (objects (rsp_meta response)) f;
  bg_safe : safe_upto (objects (rsp_meta response)) f start_offset;
  bg_ctrl : forall snap, ctrl_in spec fs snap ->
    0 < ctrl_downloaded_bytes snap <= start_offset /\ Snap_of objects delivers (objects (rsp_meta response)) snap;
  bg_resumed : 0 < start_offset -> sp_resume spec = true /\ is_Some initial_total;
  bg_served : served (rsp_meta response);
  bg_response : if 0 <? start_offset
    then delivers (rsp_meta response) /\
      forall total, initial_total = Some total -> honest_range objects served delivers start_offset total response
    else honest_get objects served delivers response;
}.

Lemma begin_sound f io fs response offset total retry :
  Begin f fs response offset total -> Sound spec objects delivers (single_start spec f io fs response offset total retry).
Proof.
  intros B snap Hs. apply (bg_ctrl _ _ _ _ _ B) in Hs as [Hn Hs]. split; [|done]. intros b Hb. apply (bg_safe _ _ _ _ _ B). lia.
Qed.

Lemma start_writer_ok f io fs response offset total retry r s' :
  Begin f fs response offset total ->
  start_writer spec offset total (single_start spec f io fs response offset total retry) = (r, s') ->
  match r with Ok _ => Head spec objects served delivers (fun r => r = response) s' | Err _ => Sound spec objects delivers s' end.
Proof.
  intros B E. pose proof (begin_sound f io fs response offset total retry B) as HS. destruct B as [B1 B2 B3 B4 B5 Br B6 B7].
  unfold start_writer in E. destruct (Z.ltb_spec 0 offset) as [Hpos|Hzero].
  - unfold open_existing_file, disk_call in E. simpl in E. destruct (default IoOk (head io)); simpl in E; injection E as <- <-.
    + assert (Stream (objects (rsp_meta response)) (writer_new (rewound f) (tail io) offset (watermark_of spec)) offset) as S.
      { apply stream_new; [exact B3|done|]. intros b Hb. by apply B4. }
      split.
      * eexists. split; [done|]. split; [|simpl; lia].
        destruct (Br Hpos) as [Hres [t ->]]. split; simpl; try done; [by apply Queued_nil|intros snap Hs; by apply B5|by eexists _, _|lia|lia|intros _; apply B7|by rewrite Hres].
      * simpl. intros _. apply B7.
      * simpl. intros r [= <-]. unfold Usable. simpl. apply Z.ltb_lt in Hpos. rewrite Hpos. split; [apply B7|done].
    + exact HS.
  - assert (offset = 0) as -> by lia.
    assert (no_ctrl spec fs) as Hn by (intros snap Hs; apply B5 in Hs; lia).
    destruct (create_output_file _ _ _ _) as [rc d] eqn:Ec. destruct rc as [u|e]; injection E as <- <-; [|by apply no_ctrl_Sound].
    apply create_plain in Ec. split.
    + eexists. split; [done|]. split; [|done]. split; simpl; try done;
        [by apply Queued_nil, plain_stream|by apply no_ctrl_Sound|intros snap Hs; by apply Hn in Hs|by eexists _, _].
    + simpl. lia.
    + simpl. intros r [= <-]. by split.
Qed.

Lemma run_single_ok turns f io fs response offset total retry r s' :
  (1 <= max_chunk (sp_budget spec))%nat -> Server turns -> Begin f fs response offset total ->
  run_single_with_retry spec turns (single_start spec f io fs response offset total retry) = Some (r, s') ->
  match r with
  | Ok _ => Sound spec objects delivers s' /\ delivers (sg_baseline s') /\
      exists n, Complete spec objects s' n /\ Whole (received response turns) s' n
  | Err _ => Recoverable spec objects delivers s'
  end.
Proof.
  intros Hm [V1 V2 V3] B E. unfold run_single_with_retry in E.
  destruct (start_writer _ _ _ _) as [[u|e] s1] eqn:E1; apply (start_writer_ok f io fs response offset total retry) in E1; try done.
  - apply (single_loop_ok spec objects served delivers Hm V1 V2 (received response turns)) in E; try done; [|apply received_turns].
    destruct E1 as [H1 H2 H3]. split; try done. intros r0 Hr0. destruct (H3 r0 Hr0) as [Hu ->]. split; [done|by left].
  - injection E as <- <-. by left.
Qed.

(** C6: a single-connection transfer that returns [Ok] has put the object on stable
    storage, from a server that keeps its word ([Server]): every byte up to [n] is the
    byte of the object whose headers the transfer kept, through any number of
    interrupted bodies, resumed ranges and restarts.  [n] is the size the server
    announced; where it announced none, [n] is the length of the whole body of a
    response the transfer received, with those headers.  No control file that can be
    loaded is left, and none at all where the transfer kept one. *)
Theorem single_ok_is_object turns f io fs response offset total retry s' :
  (1 <= max_chunk (sp_budget spec))%nat -> Server turns -> Begin f fs response offset total ->
  run_single_with_retry spec turns (single_start spec f io fs response offset total retry) = Some (Ok tt, s') ->
  exists n, (forall b, 0 <= b < n -> durable (file (rt_writer (sg_runtime s'))) b = Some (objects (sg_baseline s') b)) /\
    delivers (sg_baseline s') /\ (forall t, sg_total s' = Some t -> n = t) /\
    (sg_total s' = None -> exists last, received response turns last /\ rsp_meta last = sg_baseline s' /\
       n = blen (body_bytes (rsp_body last))) /\
    (forall snap, ~ ctrl_in spec (sg_fs s') snap) /\
    (sg_use_control s' = true -> fs_files (sg_fs s') !! control_path (sp_output spec) = None).
Proof.
  intros Hm V B E. apply (run_single_ok _ _ _ _ _ _ _ _ _ _ Hm V B) in E as (_ & Hd & n & (D & _ & Ht & Hno & Hc) & Hw).
  exists n. split; [intros b Hb; by apply D|]. by split_and!.
Qed.

(** C7: however a single-connection transfer ends, what its control file promises is
    there.  The transfer starts on a file that holds what an existing control file
    promises ([Begin]) and the server keeps its word.  Then a control file that loads
    afterwards promises only bytes that are on stable storage -- or the output file is
    empty, which a later resume finds out; the latter happens when a restart has
    truncated the file and cannot delete the control file. *)
Theorem single_checkpoint_sound turns f io fs response offset total retry r s' g snap h b :
  (1 <= max_chunk (sp_budget spec))%nat -> Server turns -> Begin f fs response offset total ->
  run_single_with_retry spec turns (single_start spec f io fs response offset total retry) = Some (r, s') ->
  fs_files (sg_fs s') !! control_path (sp_output spec) = Some g -> parse_control (fs_data g) = Ok (snap, h) ->
  0 <= b < ctrl_downloaded_bytes snap ->
  durable (file (rt_writer (sg_runtime s'))) b = Some (objects (sg_baseline s') b) \/
  (file (rt_writer (sg_runtime s')) = empty_file /\ exists e, r = Err e).
Proof.
  intros Hm V B E Hg Hp Hb. apply (run_single_ok _ _ _ _ _ _ _ _ _ _ Hm V B) in E.
  assert (ctrl_in spec (sg_fs s') snap) as Hc by (by exists g, h).
  destruct r as [u|e]; [left; by apply (proj1 E snap Hc)|]. destruct E as [HS|[HE _]]; [left; by apply (HS snap Hc)|right].
  split; [done|by exists e].
Qed.
End Transfers.

(** ** A transfer in three parts *)

Module DemoSingle.
Import DemoCodec.

(** Three bytes; the first body breaks off after two of them. *)
Definition headers (length : Z) (range : option (Z * Z)) : ResponseMeta :=
  mkMeta (Some length) (fst <$> range) (snd <$> range) ((fun _ => 3) <$> range) true (Some (str "v1")) None None None.

Definition chunk (data : bytes) : BodyEvent := BodyChunk (Ok data) [].

Definition first : HttpResponse :=
  mkResponse 200 None (headers 3 None) [chunk [0]; BodyTick; chunk [1]; BodyChunk (Err (Transport Body [])) []].

Definition rest (events : list BodyEvent) : HttpResponse := mkResponse 206 None (headers 1 (Some (2, 2))) events.

Definition turn (range : Z -> Z -> Requested) : Turn := mkTurn (RequestStopped Cancelled) range 0 0 (fun _ => 0) None.

Definition answer (events : list BodyEvent) (o : Z) : Requested :=
  if o =? 2 then RequestResult (Ok (rest events)) else RequestStopped Cancelled.

Definition turns (events : list BodyEvent) : list Turn :=
  [turn (fun _ _ => RequestStopped Cancelled); turn (fun o _ => answer events o)].

Definition spec : SingleSpec := mkSingleSpec (str "http://h/f") (str "f") true true Prealloc 1 (MemoryBudget_new 64).

Definition known (meta : ResponseMeta) : Prop := etag meta = Some (str "v1") /\ last_modified meta = None.

Definition objects (meta : ResponseMeta) : Z -> Z := demo_object.

Definition start : SingleState := single_start spec demo_file [] (mkFs ∅ []) first 0 (Some 3) (retry_new 2 0 0 None 0).

Lemma bytes_agree : agrees demo_object 0 [0; 1] /\ agrees demo_object 2 [2] /\ agrees demo_object 2 [].
Proof.
  split; [apply demo_empty_agrees|]. split; (split; [lia|]; split; [vm_compute; discriminate|]);
    intros [|i] v Hv; simpl in Hv; try discriminate Hv; by injection Hv as <-.
Qed.

Lemma server events : body_bytes events = [2] \/ body_bytes events = [] -> Server spec objects known known (turns events).
Proof.
  intros He. split.
  - intros [] total k n payload [E1 E2] [= <-]. simpl in E1, E2. subst. vm_compute. reflexivity.
  - done.
  - assert (forall o total, honest_range objects known known o total (rest events) \/ o <> 2) as Hr.
    { intros o total. destruct (Z.eq_dec o 2) as [->|]; [left|by right]. split; [done|]. split; [|done]. intros _. split; [done|].
      destruct bytes_agree as (_ & H1 & H2). simpl. destruct He as [->| ->]; [|by rewrite take_nil].
      destruct (Z.to_nat (total - 2)) as [|n]; simpl; [done|by rewrite take_nil]. }
    apply Forall_cons; split; [by split|]. apply Forall_cons; split; [|done]. split; [done|]. intros o total r. simpl. unfold answer. destruct (Z.eqb_spec o 2); [|done]. intros [= <-].
    by destruct (Hr o total).
Qed.

Lemma begin : Begin spec objects known known demo_file (mkFs ∅ []) first 0 (Some 3).
Proof.
  assert (0 <= 3 < u64_max) as H3 by (unfold u64_max; lia). split.
  - unfold u64_max. lia.
  - by intros total [= <-].
  - by intros b v.
  - intros b Hb. lia.
  - intros snap (g & h & Hg & _). simpl in Hg. by rewrite lookup_empty in Hg.
  - lia.
  - done.
  - split; [done|]. split; [done|]. split; [by intros n [= <-]|]. apply bytes_agree.
Qed.

(** A body whose length is not announced. *)
Definition open_ended : HttpResponse :=
  mkResponse 200 None (mkMeta None None None None true (Some (str "v1")) None None None) [chunk [0]; chunk [1]].

Definition no_answer : list Turn := [turn (fun _ _ => RequestStopped Cancelled)].

Definition start_open : SingleState := single_start spec demo_file [] (mkFs ∅ []) open_ended 0 None (retry_new 2 0 0 None 0).

Lemma server_open : Server spec objects known known no_answer.
Proof. destruct (server [] (or_intror eq_refl)) as [V1 V2 V3]. split; [done|done|]. by apply Forall_cons. Qed.

Lemma begin_open : Begin spec objects known known demo_file (mkFs ∅ []) open_ended 0 None.
Proof.
  destruct begin as [B1 _ B3 B4 B5 _ _ _]. split; try done. split; [done|]. split; [done|]. split; [done|].
  apply bytes_agree.
Qed.
End DemoSingle.

Import DemoCodec DemoSingle.

Lemma single_transfer_ends_witness : exists r s',
  run_single_with_retry spec (turns [chunk [2]] ++ turns []) start = Some (r, s') /\ r = Ok tt.
Proof.
  destruct (single_transfer_ends spec (turns [chunk [2]] ++ turns []) start eq_refl ltac:(simpl; lia) ltac:(simpl; lia)) as (r & s' & E).
  exists r, s'. split; [exact E|]. vm_compute in E. by injection E as <- _.
Defined.

Lemma single_ok_is_object_witness : exists s' s'',
  run_single_with_retry spec (turns [chunk [2]]) start = Some (Ok tt, s') /\ durable (file (rt_writer (sg_runtime s'))) 2 = Some 2 /\
  run_single_with_retry spec no_answer start_open = Some (Ok tt, s'') /\ durable (file (rt_writer (sg_runtime s''))) 1 = Some 1.
Proof.
  destruct (run_single_with_retry spec no_answer start_open) as [[r2 s'']|] eqn:E2; [|vm_compute in E2; discriminate E2].
  assert (r2 = Ok tt /\ sg_total s'' = None) as [-> Et2] by (vm_compute in E2; by injection E2 as <- <-).
  destruct (run_single_with_retry spec (turns [chunk [2]]) start) as [[r s']|] eqn:E; [|vm_compute in E; discriminate E].
  assert (r = Ok tt /\ sg_total s' = Some 3) as [-> Et] by (vm_compute in E; by injection E as <- <-).
  exists s', s''. split; [reflexivity|]. split; [|split; [reflexivity|]].
  2: { destruct (single_ok_is_object spec objects known known no_answer demo_file [] (mkFs ∅ []) open_ended 0 None
         (retry_new 2 0 0 None 0) s'' ltac:(vm_compute; lia) server_open begin_open E2) as (n & Hd & _ & _ & Hn & _).
       rewrite Hd; [reflexivity|]. destruct (Hn Et2) as (last & [->|(t & Ht & Hr)] & _ & ->); [vm_compute; split; [discriminate|reflexivity]|].
       apply list_elem_of_singleton in Ht as ->. destruct Hr as [Hr|(o & e & Hr)]; discriminate Hr. }
  destruct (single_ok_is_object spec objects known known (turns [chunk [2]]) demo_file [] (mkFs ∅ []) first 0 (Some 3)
    (retry_new 2 0 0 None 0) s' ltac:(vm_compute; lia) (server [chunk [2]] (or_introl eq_refl)) begin E) as (n & Hd & _ & Hn & _).
  rewrite Hd; [reflexivity|]. rewrite (Hn 3 Et). lia.
Defined.

Lemma single_checkpoint_sound_witness : exists s' g snap h,
  run_single_with_retry spec (turns [BodyStop Paused]) start = Some (Err Paused, s') /\
  fs_files (sg_fs s') !! control_path (str "f") = Some g /\ parse_control (fs_data g) = Ok (snap, h) /\
  ctrl_downloaded_bytes snap = 2 /\ durable (file (rt_writer (sg_runtime s'))) 1 = Some 1.
Proof.
  destruct (run_single_with_retry spec (turns [BodyStop Paused]) start) as [[r s']|] eqn:E; [|vm_compute in E; discriminate E].
  assert (r = Err Paused) as -> by (vm_compute in E; by injection E as <- _).
  assert (exists snap h g, fs_files (sg_fs s') !! control_path (str "f") = Some g /\ parse_control (fs_data g) = Ok (snap, h) /\
    ctrl_downloaded_bytes snap = 2) as (snap & h & g & Hg & Hp & Hn).
  { vm_compute in E. injection E as <-. eexists _, _, _. split; [vm_compute; reflexivity|]. split; [vm_compute; reflexivity|reflexivity]. }
  exists s', g, snap, h. do 4 (split; [assumption || reflexivity|]).
  destruct (single_checkpoint_sound spec objects known known (turns [BodyStop Paused]) demo_file [] (mkFs ∅ []) first 0 (Some 3)
    (retry_new 2 0 0 None 0) (Err Paused) s' g snap h 1 ltac:(vm_compute; lia) (server [BodyStop Paused] (or_intror eq_refl)) begin E Hg Hp
    ltac:(rewrite Hn; lia)) as [Hd|[He _]]; [exact Hd|].
  exfalso. assert (contents (file (rt_writer (sg_runtime s'))) 0 = Some 0) as Hc by (vm_compute in E; injection E as <-; reflexivity).
  rewrite He in Hc. discriminate Hc.
Defined.
