(* ===== verification/Download.v ===== *)
(** * A download session ([src/session/mod.rs], [try_resume_download] of [src/session/resume.rs])

    Where the output goes, what the first requests show, and which transfer is run:
    one that continues a stored state or a fresh one, over one or several
    connections.  The results of the requests, the current directory and the length
    of the local file are inputs. *)

From S2P Require Import Prelude RustStr Errors PieceMap Flow Retry Response RangeValidate Control Resume Checkpoint Filename Checksum OutputFile Config Single.

(** ** Paths *)

(** [Path::is_absolute] and [Path::join] on Unix *)
Definition is_absolute (path : rstr) : bool := match path with 47 :: _ => true | _ => false end.

Definition join (base path : rstr) : rstr :=
  if is_absolute path then path
  else match last base with
       | None => path
       | Some c => if c =? 47 then base ++ path else base ++ 47 :: path
       end.

(** [PathBuf::push] of the components, one after the other. *)
Definition path_of (parts : list rstr) : rstr := fold_left join parts [].

Definition resolve_output_dir (cwd : result rstr IoErrorKind) (spec : DownloadSpec) : result rstr DownloadError :=
  match cwd with
  | Err kind => Err (Io kind)
  | Ok cwd => let dir := default cwd (ds_output_dir spec) in if is_absolute dir then Ok dir else Ok (join cwd dir)
  end.

Definition resolve_static_output_path (cwd : result rstr IoErrorKind) (spec : DownloadSpec)
    : result (option rstr) DownloadError :=
  match ds_output_path spec with
  | None => Ok None
  | Some output_path =>
      if is_absolute output_path then
        if bool_decide (is_Some (ds_output_dir spec)) then
          Err (InvalidConfig (str "output_path must be relative when output_dir is set"))
        else Ok (Some output_path)
      else
        match sanitize_relative_path output_path with
        | None => Err (InvalidConfig (str "output_path must be a relative path without root prefixes or parent traversal"))
        | Some relative =>
            match resolve_output_dir cwd spec with
            | Err e => Err e
            | Ok dir => Ok (Some (join dir (path_of relative)))
            end
        end
  end.

Definition resolve_auto_output_path (path_segments : rstr -> option (list rstr)) (cwd : result rstr IoErrorKind)
    (spec : DownloadSpec) (meta : ResponseMeta) (request_url : rstr) : result rstr DownloadError :=
  match resolve_output_dir cwd spec with
  | Err e => Err e
  | Ok dir => Ok (join dir (detect_filename path_segments (content_disposition meta) request_url))
  end.

(** ** Requests *)

(** A request with its retries: the clock when it starts and what each attempt
    meets. *)
Definition Call : Type := Z * (nat -> Attempt HttpResponse).

Definition requested (spec : DownloadSpec) (call : Call) : result HttpResponse DownloadError :=
  let r := ds_retry spec in
  match retry_with_backoff (rc_max_retries r) (rc_base_delay r) (rc_max_delay r) (rc_max_elapsed r) (fst call) (snd call)
          (Z.to_nat (rc_max_retries r) + 1) with
  | Some (result, _) => result
  | None => Err ChannelClosed
  end.

(** The fuel is enough. *)
Lemma requested_ends spec call :
  0 <= rc_max_retries (ds_retry spec) <= 2 ^ 32 - 1 ->
  exists n, retry_with_backoff (rc_max_retries (ds_retry spec)) (rc_base_delay (ds_retry spec)) (rc_max_delay (ds_retry spec))
    (rc_max_elapsed (ds_retry spec)) (fst call) (snd call) (Z.to_nat (rc_max_retries (ds_retry spec)) + 1) =
  Some (requested spec call, n).
Proof.
  intros Hr. unfold requested, retry_with_backoff.
  destruct (retry_loop_spec (snd call) (Z.to_nat (rc_max_retries (ds_retry spec))) (Z.to_nat (rc_max_retries (ds_retry spec)) + 1)
    (retry_new (rc_max_retries (ds_retry spec)) (rc_base_delay (ds_retry spec)) (rc_max_delay (ds_retry spec))
       (rc_max_elapsed (ds_retry spec)) (fst call)) 0) as (r & n & E & _); simpl; try lia.
  rewrite E. by exists n.
Qed.

(** The requests a session may send before the transfer. *)
Record Requests := mkRequests {
  rq_probe : Z -> Z -> Call;
  rq_get : Call;
  rq_refetch : Call;
  rq_resume : Z -> Z -> Call;
  rq_final_url : result rstr DownloadError;
}.

Inductive FreshResponseSource := RangeProbe | FallbackGet.

Definition probe_end (spec : DownloadSpec) : Z := sat_sub64 (cf_piece_size (ds_scheduling spec)) 1.

Definition probe_or_fallback_get (spec : DownloadSpec) (rq : Requests)
    : result (HttpResponse * FreshResponseSource) DownloadError :=
  let fallback := match requested spec (rq_get rq) with Ok response => Ok (response, FallbackGet) | Err e => Err e end in
  if 1 <? ds_max_connections spec then
    match requested spec (rq_probe rq 0 (probe_end spec)) with
    | Ok response => Ok (response, RangeProbe)
    | Err error => if should_abort_range_probe_fallback error then Err error else fallback
    end
  else fallback.

Definition retry_plain_get (spec : DownloadSpec) (rq : Requests) : result HttpResponse DownloadError :=
  requested spec (rq_refetch rq).

(** ** Which transfer is run *)

(** The arguments of [run_multi_worker] and [run_single_with_retry]. *)
Inductive Transfer :=
| TransferMulti (meta : ResponseMeta) (total_size : Z) (piece_map : PieceMap) (probe : HttpResponse) (probe_piece : nat)
| TransferSingle (response : HttpResponse) (start_offset : Z) (total_size : option Z).

Definition fresh_single (response : HttpResponse) : Transfer :=
  TransferSingle response 0 (single_response_total_size (rsp_status response) (rsp_meta response)).

(** [run_fresh_from_response], up to the transfer. *)
Definition fresh_transfer (spec : DownloadSpec) (rq : Requests) (response : HttpResponse) (source : FreshResponseSource)
    : result Transfer DownloadError :=
  match source with
  | RangeProbe =>
      if 1 <? ds_max_connections spec then
        match validate_range_response (rsp_status response) (rsp_retry_after response) (rsp_meta response) FreshProbe
                (mkExpected 0 (probe_end spec) None) with
        | Err e => Err e
        | Ok Accept =>
            match content_range_total (rsp_meta response) with
            | None => Err (TaskFailed (str "fresh probe validation requires a total size"))
            | Some total_size =>
                if cf_min_split_size (ds_scheduling spec) <? total_size then
                  Ok (TransferMulti (rsp_meta response) total_size (PieceMap_new total_size (cf_piece_size (ds_scheduling spec)))
                        response 0)
                else if negb (range_probe_response_covers_full_file (rsp_meta response)) then
                  match retry_plain_get spec rq with Ok response => Ok (fresh_single response) | Err e => Err e end
                else Ok (fresh_single response)
            end
        | Ok (FallbackToSingle RangeNotSupported) => Ok (fresh_single response)
        | Ok (FallbackToSingle EncodedResponse) =>
            match retry_plain_get spec rq with Ok response => Ok (fresh_single response) | Err e => Err e end
        end
      else Ok (fresh_single response)
  | FallbackGet => Ok (fresh_single response)
  end.

Section Session.
  Context `{RawBits} `{Codec} (path_segments : rstr -> option (list rstr)).

Definition resume_spec (spec : DownloadSpec) : ResumeSpec :=
  mkResumeSpec (cf_resume (ds_storage spec)) (ds_max_connections spec) (cf_file_allocation (ds_storage spec)).

Definition probe_result (r : result HttpResponse DownloadError) : ProbeResult :=
  match r with Ok response => Ok (rsp_status response, rsp_retry_after response, rsp_meta response) | Err e => Err e end.

(** [try_resume_download], up to the transfer: [None]: the download starts afresh.
    The result of deleting the control file is ignored. *)
Definition try_resume_download (spec : DownloadSpec) (rq : Requests) (file_len : result Z IoErrorKind) (output_path : rstr) (fs : Fs)
    : result (option Transfer) DownloadError * Fs :=
  let path := control_path output_path in
  let '(loaded, fs) := if cf_resume (ds_storage spec) then load_sync_with_hints path fs else (Err (Io NotFound), fs) in
  let send a b := requested spec (rq_resume rq a b) in
  let '(plan, delete) := try_resume (resume_spec spec) loaded file_len (fun a b => probe_result (send a b)) in
  let fs := if delete then snd (delete_control path fs) else fs in
  match plan, loaded with
  | ResumedMulti piece_map probe_piece, Ok (ctrl, _) =>
      let '(start, end_) := piece_range piece_map probe_piece in
      match send start (end_ ⊖ 1), rq_final_url rq with
      | Ok response, Ok _ =>
          (Ok (Some (TransferMulti (rsp_meta response) (ctrl_total_size ctrl) piece_map response probe_piece)), fs)
      | Ok _, Err e | Err e, _ => (Err e, fs)
      end
  | ResumedSingle start, Ok (ctrl, _) =>
      match send start (ctrl_total_size ctrl ⊖ 1), rq_final_url rq with
      | Ok response, Ok _ => (Ok (Some (TransferSingle response start (Some (ctrl_total_size ctrl)))), fs)
      | Ok _, Err e | Err e, _ => (Err e, fs)
      end
  | _, _ => (Ok None, fs)
  end.

(** [run_download_inner], up to the transfer. *)
Definition select_transfer (spec : DownloadSpec) (rq : Requests) (cwd : result rstr IoErrorKind)
    (file_len : rstr -> result Z IoErrorKind) (fs : Fs) : result (rstr * Transfer) DownloadError * Fs :=
  match resolve_static_output_path cwd spec with
  | Err e => (Err e, fs)
  | Ok (Some output_path) =>
      match try_resume_download spec rq (file_len output_path) output_path fs with
      | (Err e, fs) => (Err e, fs)
      | (Ok (Some transfer), fs) => (Ok (output_path, transfer), fs)
      | (Ok None, fs) =>
          (match probe_or_fallback_get spec rq with
           | Err e => Err e
           | Ok (response, source) =>
               match rq_final_url rq with
               | Err e => Err e
               | Ok _ => match fresh_transfer spec rq response source with Ok t => Ok (output_path, t) | Err e => Err e end
               end
           end, fs)
      end
  | Ok None =>
      match probe_or_fallback_get spec rq with
      | Err e => (Err e, fs)
      | Ok (response, source) =>
          match rq_final_url rq with
          | Err e => (Err e, fs)
          | Ok request_url =>
              match resolve_auto_output_path path_segments cwd spec (rsp_meta response) request_url with
              | Err e => (Err e, fs)
              | Ok output_path =>
                  match try_resume_download spec rq (file_len output_path) output_path fs with
                  | (Err e, fs) => (Err e, fs)
                  | (Ok (Some transfer), fs) => (Ok (output_path, transfer), fs)
                  | (Ok None, fs) =>
                      (match fresh_transfer spec rq response source with Ok t => Ok (output_path, t) | Err e => Err e end, fs)
                  end
              end
          end
      end
  end.
End Session.

(** ** The result of a download *)

(** [run_download]: the transfer's result, then the verification of the file it
    has written. *)
Definition run_download `{Hashes} (spec : DownloadSpec) (transferred : result unit DownloadError)
    (stop : nat -> option DownloadError) (reads : nat -> result nat IoErrorKind) (opened : result (list Z) IoErrorKind)
    : option (result unit DownloadError) :=
  match transferred with
  | Err error => Some (Err error)
  | Ok _ =>
      match cf_checksum (ds_storage spec) with
      | Some expected => verify_checksum stop reads opened expected
      | None => Some (Ok tt)
      end
  end.

(** ** The arguments of the transfers *)

Section Transfers.
  Context (spec : DownloadSpec) (request_url output_path : rstr) (has_parent : bool).

Definition session_budget : MemoryBudget := MemoryBudget_new (Z.to_nat (cf_memory_budget (ds_storage spec))).

Definition single_spec : SingleSpec :=
  mkSingleSpec request_url output_path has_parent (cf_resume (ds_storage spec)) (cf_file_allocation (ds_storage spec))
    (cf_autosave_sync_every (ds_storage spec)) session_budget.

Definition save_context (meta : ResponseMeta) (total_size : Z) : SaveContext :=
  mkSaveContext request_url total_size (etag meta) (last_modified meta) output_path (cf_autosave_sync_every (ds_storage spec)).

(** The output file of a transfer over several connections. *)
Definition open_output (piece_map : PieceMap) (total_size : Z) : DiskM unit :=
  if (0 <? completed_pieces piece_map)%nat then open_existing_file
  else create_output_file has_parent (Some total_size) (cf_file_allocation (ds_storage spec)).

Definition session_retry (now : Z) : RetryState :=
  let r := ds_retry spec in retry_new (rc_max_retries r) (rc_base_delay r) (rc_max_delay r) (rc_max_elapsed r) now.
End Transfers.
