(* ===== verification/DownloadInv.v ===== *)
(** * Invariants of download sessions

    What the storage promises between sessions, and that each session -- resumed or
    fresh, over one connection or several, successful or not -- keeps the promise. *)

From S2P Require Import Prelude RustStr Errors PieceMap Segment Scheduler SchedInv SchedSpec Cache Writer WriterInv WriterProps WriterRun Flow Retry Response RangeValidate Control Resume Checkpoint Checksum OutputFile Config Workers Sessions Multi WriterStream Single SingleInv SingleProps Download.

(** ** Piece maps *)

Lemma no_pieces_no_bits pm : PieceMap_wf pm -> completed_pieces pm = 0%nat -> forall i, bit pm i = false.
Proof.
  intros W E i. destruct (bit pm i) eqn:B; [|done]. exfalso. pose proof (bit_lt _ _ W B) as Hi.
  rewrite (wf_pieces _ W) in E. unfold pieces_done in E.
  assert (forall n f, nsum f n = 0%nat -> forall j, (j < n)%nat -> f j = 0%nat) as Hz.
  { clear. induction n as [|n IH]; intros f E j Hj; simpl in *; [lia|].
    destruct (Nat.eq_dec j n) as [->|]; [lia|]. apply IH; lia. }
  specialize (Hz _ _ E i Hi). cbv beta in Hz. by rewrite B in Hz.
Qed.

(** A map of at most one piece has all of its bytes or none. *)
Lemma one_piece_bytes pm :
  PieceMap_wf pm -> (piece_count pm <= 1)%nat ->
  completed_bytes pm = 0 \/ (bit pm 0 = true /\ completed_bytes pm = total_size pm /\ total_size pm <= piece_size pm).
Proof.
  intros W Hc. rewrite (wf_bytes _ W). unfold bytes_done. destruct (piece_count pm) as [|[|n]] eqn:Ec; [by left| |lia].
  simpl. destruct (bit pm 0) eqn:B; [right|left; lia]. pose proof (wf_count _ W) as C. rewrite Ec in C.
  destruct (wf_geometry _ W) as (G1 & G2 & _). unfold count_of in C.
  pose proof (div_ceil_spec (total_size pm) (piece_size pm) G2 G1) as D. assert (div_ceil (total_size pm) (piece_size pm) = 1) by lia.
  unfold piece_hi, piece_lo. split_and!; [done|lia|lia].
Qed.

(** ** Files between sessions *)

Definition safe_in (obj : Z -> Z) (f : FileState) (b : Z) : Prop := durable f b = Some (obj b) /\ contents f b = Some (obj b).

(** A file that is opened again, after a crash or not: each byte is the synced one
    or the one last written, and what was synced and not changed since still is.  A
    truncated file stays truncated. *)
Record Reopened (f f' : FileState) : Prop := {
  ro_contents : forall b, contents f' b = contents f b \/ contents f' b = durable f b;
  ro_durable : forall b, durable f b = contents f b -> durable f' b = contents f' b;
  ro_plain : plain f';
}.

Lemma reopened_safe obj f f' b : Reopened f f' -> safe_in obj f b -> safe_in obj f' b.
Proof.
  intros [R1 R2 _] [H1 H2]. assert (contents f' b = Some (obj b)) as Hc by (destruct (R1 b); congruence).
  split; [|done]. rewrite R2; congruence.
Qed.

(** The length of a file: no byte behind it, and a last byte. *)
Definition has_length (f : FileState) (n : Z) : Prop :=
  (forall b, is_Some (contents f b) -> b < n) /\ (0 < n -> is_Some (contents f (n - 1))).

Lemma empty_length f n : Reopened empty_file f -> has_length f n -> n <= 0.
Proof.
  intros [R _ _] [_ Hn]. destruct (Z.le_gt_cases n 0); [done|]. destruct (Hn ltac:(lia)) as [v Hv].
  destruct (R (n - 1)) as [E|E]; rewrite Hv in E; done.
Qed.

Section Sessions.
  Context `{RawBits} `{Codec} (spec : DownloadSpec) (out : rstr) (has_parent : bool).
  Context (objects : ResponseMeta -> Z -> Z) (served delivers : ResponseMeta -> Prop).

(** ** The promise *)

Definition control_in (fs : Fs) (snap : ControlSnapshot) : Prop :=
  exists g h, fs_files fs !! control_path out = Some g /\ parse_control (fs_data g) = Ok (snap, h).

(** The checkpoint describes an object the server has, and the bytes it promises
    are there: those of its pieces, or those before its offset. *)
Record Kept_promise (f : FileState) (snap : ControlSnapshot) (meta : ResponseMeta) : Prop := {
  kp_delivers : delivers meta;
  kp_etag : etag meta = ctrl_etag snap;
  kp_modified : last_modified meta = ctrl_last_modified snap;
  kp_total : 0 <= ctrl_total_size snap < u64_max;
  kp_multi : (1 < ctrl_piece_count snap)%nat ->
    1 < ds_max_connections spec /\ ctrl_ok snap /\ SnapBytes (safe_in (objects meta) f) snap;
  kp_single : (ctrl_piece_count snap <= 1)%nat -> safe_upto (objects meta) f (ctrl_downloaded_bytes snap);
}.

Definition Promise (f : FileState) (fs : Fs) : Prop :=
  forall snap, control_in fs snap -> exists meta, Kept_promise f snap meta.

(** An empty file next to a checkpoint of a single stream: the checkpoint will be
    refused for the file's length. *)
Definition Blank (f : FileState) (fs : Fs) : Prop :=
  f = empty_file /\ forall snap, control_in fs snap -> (ctrl_piece_count snap <= 1)%nat.

Definition Storage_ok (f : FileState) (fs : Fs) : Prop := Promise f fs \/ Blank f fs.

Lemma promise_reopened f f' fs : Promise f fs -> Reopened f f' -> Promise f' fs.
Proof.
  intros HP R snap Hs. destruct (HP snap Hs) as [meta [K1 K2 K3 K4 K5 K6]]. exists meta. split; try done.
  - intros Hc. destruct (K5 Hc) as (? & ? & HB). split_and!; [done|done|]. apply (SnapBytes_mono _ _ _ (fun b => reopened_safe _ f f' b R) HB).
  - intros Hc b Hb. apply (reopened_safe _ f f' b R). by apply K6.
Qed.

(** ** The server *)

Record Server_ok : Prop := {
  so_same : forall meta baseline total, delivers meta -> delivers baseline ->
    metadata_matches_baseline meta baseline total = true -> objects meta = objects baseline;
  so_total : forall meta total, delivers meta -> content_range_total meta = Some total ->
    0 <= total < u64_max /\ total + cf_piece_size (ds_scheduling spec) <= 2 ^ 64;
  so_small_single : forall url meta total k n payload, served meta ->
    serialize_v2 (with_downloaded n (single_snapshot_template url total k meta)) default_hints = Ok payload -> blen payload < 2 ^ 32;
  so_small_multi : forall url meta total s payload, delivers meta ->
    serialize_v2 (freeze (save_context spec url out meta total) s).1.1 (freeze (save_context spec url out meta total) s).1.2 = Ok payload ->
    blen payload < 2 ^ 32;
}.

Lemma accepted_same snap meta meta0 :
  Server_ok -> delivers meta -> delivers meta0 -> etag meta0 = ctrl_etag snap -> last_modified meta0 = ctrl_last_modified snap ->
  validate_metadata meta snap = true -> objects meta = objects meta0.
Proof.
  intros V D D0 Ee Em E. apply (so_same V meta meta0 (Some (ctrl_total_size snap)) D D0).
  unfold validate_metadata in E. rewrite !andb_true_iff in E. destruct E as [[E1 E2] E3].
  unfold metadata_matches_baseline. rewrite Ee, Em, E2, E3. simpl.
  destruct (content_range_total meta) as [t|]; [|done]. apply Z.eqb_eq in E1. subst t. by apply bool_decide_eq_true_2.
Qed.

(** ** Several connections *)

(** A transfer over several connections is begun on pieces that are there; the
    control file, if there is one, describes these pieces. *)
Record Multi_begin (f : FileState) (fs : Fs) (meta : ResponseMeta) (total : Z) (pm : PieceMap) : Prop := {
  mb_delivers : delivers meta;
  mb_connections : 1 < ds_max_connections spec;
  mb_pm : PieceMap_wf pm;
  mb_total : total_size pm = total;
  mb_fits : 0 <= total < u64_max;
  mb_plain : plain f;
  mb_pieces : forall i b, bit pm i = true -> piece_lo (piece_size pm) i <= b < piece_hi (total_size pm) (piece_size pm) i ->
    safe_in (objects meta) f b;
  mb_control : forall snap, control_in fs snap ->
    (1 < ctrl_piece_count snap)%nat /\ ctrl_piece_map snap = pm /\
    exists meta', Kept_promise f snap meta' /\ objects meta' = objects meta;
}.

Lemma snap_bytes_map (P : Z -> Prop) snap pm :
  ctrl_piece_map snap = pm ->
  (forall i b, bit pm i = true -> piece_lo (piece_size pm) i <= b < piece_hi (total_size pm) (piece_size pm) i -> P b) ->
  SnapBytes P snap.
Proof. intros <- HP i b. destruct (ctrl_map_fields snap) as (Et & Es & _). rewrite <- Et, <- Es. apply HP. Qed.

(** The pieces are still there after the file has been opened, or there are none. *)
Lemma opened_pieces f fs meta total pm io r d :
  Multi_begin f fs meta total pm -> open_output spec has_parent pm total (mkDisk f io) = (r, d) ->
  (forall i b, bit pm i = true -> piece_lo (piece_size pm) i <= b < piece_hi (total_size pm) (piece_size pm) i ->
    safe_in (objects meta) (disk_file d) b) /\ (r = Ok tt -> plain (disk_file d)).
Proof.
  intros B E. unfold open_output in E. destruct (Nat.ltb_spec 0 (completed_pieces pm)) as [Hp|Hz].
  - unfold open_existing_file, disk_call in E. simpl in E. pose proof (mb_plain _ _ _ _ _ B) as Pl.
    destruct (default IoOk (head io)); injection E as <- <-; simpl.
    + split; [|done]. intros i b Hi Hb. by apply (mb_pieces _ _ _ _ _ B i b).
    + split; [|done]. intros i b Hi Hb. by apply (mb_pieces _ _ _ _ _ B i b).
  - split; [|intros ->; by apply create_plain in E]. intros i b Hi. rewrite no_pieces_no_bits in Hi; [done|apply B|lia].
Qed.

Lemma promise_moved f fs meta total pm f' :
  Multi_begin f fs meta total pm ->
  (forall i b, bit pm i = true -> piece_lo (piece_size pm) i <= b < piece_hi (total_size pm) (piece_size pm) i ->
    safe_in (objects meta) f' b) -> Promise f' fs.
Proof.
  intros B HP snap Hs. destruct (mb_control _ _ _ _ _ B snap Hs) as (Hc & Em & meta' & [K1 K2 K3 K4 K5 K6] & Eo).
  exists meta'. split; try done; [|lia]. intros _. destruct (K5 Hc) as (? & ? & _). split_and!; [done|done|].
  apply (snap_bytes_map _ snap pm Em). intros i b Hi Hb. rewrite Eo. by apply (HP i b).
Qed.

Section Multi.
  Context (V : Server_ok) (url : rstr) (meta : ResponseMeta) (total : Z) (pm : PieceMap).

Let ctx : SaveContext := save_context spec url out meta total.

Lemma multi_started f fs io d :
  Multi_begin f fs meta total pm -> open_output spec has_parent pm total (mkDisk f io) = (Ok tt, d) ->
  Start ctx (objects meta) pm (disk_file d) fs.
Proof.
  intros B E. destruct (opened_pieces _ _ _ _ _ _ _ _ B E) as [HP Pl]. specialize (Pl eq_refl). split.
  - apply B.
  - apply B.
  - intros b. apply Pl.
  - intros i b Hi Hb. by apply (HP i b).
  - intros g snap h Hg Hp. destruct (mb_control _ _ _ _ _ B snap) as (_ & Em & _); [by exists g, h|].
    apply (snap_bytes_map _ snap pm Em). intros i b Hi Hb. destruct (HP i b Hi Hb). by split.
Qed.

(** The session's own checkpoints keep the promise. *)
Lemma frozen_promise f snap :
  delivers meta -> 1 < ds_max_connections spec -> 0 <= total < u64_max -> Frozen ctx snap ->
  SnapBytes (safe_in (objects meta) f) snap -> Kept_promise f snap meta.
Proof.
  intros D M Ht (s & W & Et & ->) HB. unfold freeze in *. destruct (control_hints s) as [hints s']. simpl in *.
  pose proof (sw_pm _ W) as WP.
  assert (ctrl_ok (mkSnapshot url total (piece_size (piece_map s)) (piece_count (piece_map s)) (to_bitset_bytes (piece_map s))
    (completed_bytes (piece_map s)) (etag meta) (last_modified meta))) as Hok.
  { split; simpl; rewrite <- Et; apply WP. }
  split; try done. intros Hc b Hb. simpl in *.
  destruct (one_piece_bytes _ WP Hc) as [E0|(Hbit & E1 & E2)]; [lia|]. unfold total_of in Et.
  apply (HB 0%nat b); unfold ctrl_piece_map; simpl; rewrite <- Et.
  - by rewrite (bitset_roundtrip (piece_map s) WP).
  - unfold piece_lo, piece_hi. lia.
Qed.

(** A reachable state of the session keeps the promise. *)
Lemma multi_promise f fs io d n wm workers ms :
  (1 <= max_chunk (session_budget spec))%nat -> Multi_begin f fs meta total pm ->
  open_output spec has_parent pm total (mkDisk f io) = (Ok tt, d) ->
  reached ctx (objects meta) (session_budget spec) pm (disk_file d) (disk_io d) n wm fs workers ms ->
  Promise (file (w_writer (ms_world ms))) (w_fs (ms_world ms)).
Proof.
  intros Hm B E R. pose proof (multi_started f fs io d B E) as HS. destruct (mb_fits _ _ _ _ _ B) as [_ Hfit].
  destruct (reached_ok ctx (objects meta) (session_budget spec) Hm Hfit _ _ _ _ _ _ _ _ HS R) as [_ R'].
  pose proof (wo_file _ _ _ (world_reachable_ok ctx (objects meta) _ _ _ _ _ _ _ HS R')) as HF.
  destruct (control_provenance ctx (objects meta) _ _ _ _ _ _ _ HS R') as [HC _].
  intros snap (g & h & Hg & Hp).
  assert (SnapBytes (safe_in (objects meta) (file (w_writer (ms_world ms)))) snap) as HB.
  { refine (SnapBytes_mono _ _ _ _ (HF g snap h Hg Hp)). intros b [H1 H2]. by split. }
  destruct (HC snap) as [Ho|Hf]; [by exists g, h| |].
  - destruct (mb_control _ _ _ _ _ B snap Ho) as (Hc & Em & meta' & [K1 K2 K3 K4 K5 K6] & Eo). exists meta'. split; try done; [|lia].
    intros _. destruct (K5 Hc) as (? & ? & _). by rewrite Eo.
  - exists meta. apply (frozen_promise _ snap); [apply B|apply B|apply B|done|done].
Qed.

Lemma persist_promise w s t fs fs' r t' :
  Sched_wf s -> total_of s = total -> delivers meta -> 1 < ds_max_connections spec -> 0 <= total < u64_max ->
  (forall b, 0 <= b < total -> status s b = Done -> safe_in (objects meta) (file w) b) ->
  Promise (file w) fs -> persist_at ctx Terminal None s (t, fs) = (r, (t', fs')) -> Promise (file w) fs'.
Proof.
  intros W Et D M Ht HD HP E. unfold persist_at, persist_multi_control_snapshot in E. cbn [is_terminal negb andb ps_tracker ps_sched ps_fs fst snd] in E.
  destruct (freeze ctx s) as [[snap hints] sched] eqn:Ef.
  assert (Frozen ctx snap) as HF by (exists s; split_and!; [done|done|by rewrite Ef]).
  assert (SnapBytes (safe_in (objects meta) (file w)) snap) as HB by (apply (frozen_bytes ctx s snap hints sched); [done|done|done|by rewrite Et]).
  destruct (save_sync snap hints (control_path (sc_output ctx)) fs) as [rs fs1] eqn:Es.
  assert (fs' = fs1) as -> by (by destruct rs; injection E as _ _ <-).
  intros snap' Hs. destruct (save_control ctx snap hints fs fs1 rs snap' Es) as [Ho| ->]; [|done| |].
  - intros payload Hp. apply (so_small_multi V url meta total s payload D). fold ctx. by rewrite Ef.
  - by apply HP.
  - exists meta. by apply frozen_promise.
Qed.

(** The end of the session keeps the promise. *)
Lemma multi_exit_promise f fs io d n wm workers ms download_error writer t r p' :
  (1 <= max_chunk (session_budget spec))%nat -> Multi_begin f fs meta total pm ->
  open_output spec has_parent pm total (mkDisk f io) = (Ok tt, d) ->
  reached ctx (objects meta) (session_budget spec) pm (disk_file d) (disk_io d) n wm fs workers ms ->
  (writer = Ok (Ok tt) -> w_status (ms_world ms) = ClosedOk) ->
  multi_exit ctx (cf_resume (ds_storage spec)) download_error writer (w_sched (ms_world ms)) (t, w_fs (ms_world ms)) = (r, p') ->
  Promise (file (w_writer (ms_world ms))) p'.2.
Proof.
  intros Hm B E R Hw Ex. pose proof (multi_promise f fs io d n wm workers ms Hm B E R) as HP.
  pose proof (multi_started f fs io d B E) as HS. destruct (mb_fits _ _ _ _ _ B) as [_ Hfit].
  destruct (reached_ok ctx (objects meta) (session_budget spec) Hm Hfit _ _ _ _ _ _ _ _ HS R) as [_ R'].
  destruct (world_reachable_ok ctx (objects meta) _ _ _ _ _ _ _ HS R') as [[W Et] _ _ I5 I6 _ _ _].
  assert (w_status (ms_world ms) = ClosedOk -> forall r1 p1,
    persist_at ctx Terminal None (w_sched (ms_world ms)) (t, w_fs (ms_world ms)) = (r1, p1) ->
    Promise (file (w_writer (ms_world ms))) p1.2) as Hsave.
  { intros Hc r1 [t1 fs1] Ep. apply (persist_promise (w_writer (ms_world ms)) (w_sched (ms_world ms)) t (w_fs (ms_world ms)) fs1 r1 t1); try done; [apply B|apply B|apply B|].
    intros b Hb Hs. assert (is_good (objects meta) (w_writer (ms_world ms)) b) as Hg by (apply I5; [by rewrite Hc|by rewrite Et|done]).
    destruct (I6 Hc b Hg) as [H1 H2]. by split. }
  unfold multi_exit in Ex. destruct writer as [[[]|we]|m]; [specialize (Hw eq_refl)| |by injection Ex as _ <-].
  - destruct download_error as [e|].
    + injection Ex as _ <-. rewrite andb_true_r. destruct (cf_resume _); [|done].
      destruct (persist_at _ _ _ _ _) as [r1 p1] eqn:Ep. by apply (Hsave Hw r1 p1).
    + destruct (negb (all_done _)).
      * injection Ex as _ <-. destruct (cf_resume _); [|done]. destruct (persist_at _ _ _ _ _) as [r1 p1] eqn:Ep. by apply (Hsave Hw r1 p1).
      * destruct (delete_control _ _) as [rd fs1] eqn:Ed. injection Ex as _ <-. apply delete_control_spec in Ed. simpl.
        intros snap (g & h & Hg & Hp). simpl in Hg, Ed. destruct rd; [by rewrite Hg in Ed|]. apply HP. exists g, h. by rewrite <- (proj2 Ed).
  - injection Ex as _ <-. by rewrite andb_false_r.
Qed.
End Multi.

(** ** Transfers *)

(** A transfer and the storage it leaves; [size]: the size of the object, if known;
    [got]: the responses a transfer over one connection received. *)
Inductive Ran (url : rstr) : Transfer -> FileState -> Fs -> result unit DownloadError -> option Z -> (HttpResponse -> Prop) ->
    FileState -> Fs -> Prop :=
| ran_single response offset total f fs io turns now r s' :
    Forall (honest_turn objects served delivers) turns ->
    run_single_with_retry (single_spec spec url out has_parent) turns
      (single_start (single_spec spec url out has_parent) f io fs response offset total (session_retry spec now)) = Some (r, s') ->
    Ran url (TransferSingle response offset total) f fs r (sg_total s') (received response turns)
      (file (rt_writer (sg_runtime s'))) (sg_fs s')
| ran_unopened meta total pm probe k f fs io e d :
    open_output spec has_parent pm total (mkDisk f io) = (Err e, d) ->
    Ran url (TransferMulti meta total pm probe k) f fs (Err e) (Some total) (fun _ => False) (disk_file d) fs
| ran_multi meta total pm probe k f fs io d n workers ms download_error writer t r p' :
    open_output spec has_parent pm total (mkDisk f io) = (Ok tt, d) ->
    reached (save_context spec url out meta total) (objects meta) (session_budget spec) pm (disk_file d) (disk_io d) n
      (watermark (session_budget spec)) fs workers ms ->
    (writer = Ok (Ok tt) -> w_status (ms_world ms) = ClosedOk) ->
    multi_exit (save_context spec url out meta total) (cf_resume (ds_storage spec)) download_error writer
      (w_sched (ms_world ms)) (t, w_fs (ms_world ms)) = (r, p') ->
    Ran url (TransferMulti meta total pm probe k) f fs r (Some total) (fun _ => False) (file (w_writer (ms_world ms))) p'.2.

Definition Begun (url : rstr) (f : FileState) (fs : Fs) (t : Transfer) : Prop :=
  match t with
  | TransferMulti meta total pm _ _ => Multi_begin f fs meta total pm
  | TransferSingle response offset total =>
      Begin (single_spec spec url out has_parent) objects served delivers f fs response offset total
  end.

(** A sound single stream keeps the promise. *)
Lemma sound_promise url s :
  Sound (single_spec spec url out has_parent) objects delivers s -> Promise (file (rt_writer (sg_runtime s))) (sg_fs s).
Proof.
  intros HS snap Hs. destruct (HS snap Hs) as [HB (Hc & Ht & meta & Hd & Eo & Ee & Em)]. exists meta. split; try done; [lia|].
  intros _. by rewrite Eo.
Qed.

(** The file holds the object, of the known size, or of the length of a whole body. *)
Definition Object_in (f : FileState) (size : option Z) (got : HttpResponse -> Prop) : Prop :=
  exists meta n, delivers meta /\ (forall b, 0 <= b < n -> durable f b = Some (objects meta b)) /\
    (forall total, size = Some total -> n = total) /\
    (size = None -> exists response, got response /\ rsp_meta response = meta /\ n = blen (body_bytes (rsp_body response))).

Lemma ran_ok url t f fs r size got f' fs' :
  Server_ok -> (1 <= max_chunk (session_budget spec))%nat -> Begun url f fs t -> Ran url t f fs r size got f' fs' ->
  Storage_ok f' fs' /\ (r = Ok tt -> Object_in f' size got).
Proof.
  intros V Hm B R. destruct R as [response offset total f fs io turns now r s' Ht E|meta total pm probe k f fs io e d E
    |meta total pm probe k f fs io d n workers ms derr writer t r p' E R Hw Ex].
  - assert (Server (single_spec spec url out has_parent) objects served delivers turns) as HV.
    { split; [apply (so_small_single V url)|apply (so_same V)|done]. }
    apply (run_single_ok (single_spec spec url out has_parent) objects served delivers _ _ _ _ _ _ _ _ _ _ Hm HV B) in E. destruct r as [u|e].
    + destruct E as (HS & Hd & n & (D & _ & Hn & _) & Hw). split; [left; by apply (sound_promise url)|]. intros _.
      exists (sg_baseline s'), n. split_and!; [done| |done|done]. intros b Hb. by apply D.
    + split; [|done]. destruct E as [HS|[HE Hc]]; [left; by apply (sound_promise url)|by right].
  - split; [left|done]. destruct (opened_pieces _ _ _ _ _ _ _ _ B E) as [HP _]. by apply (promise_moved f fs meta total pm).
  - split; [left; by apply (multi_exit_promise V url meta total pm f fs io d n (watermark (session_budget spec)) workers ms derr writer t r p')|].
    intros ->. pose proof (multi_started url meta total pm f fs io d B E) as HS. destruct (mb_fits _ _ _ _ _ B) as [_ Hfit].
    destruct (multi_exit_ok (save_context spec url out meta total) (objects meta) (session_budget spec) pm (disk_file d) (disk_io d) n _ fs
      workers ms (cf_resume (ds_storage spec)) derr writer t p' Hm Hfit HS R Hw Ex) as [HO _].
    exists meta, total. split_and!; [apply B|done|by intros t0 [= <-]|done].
Qed.

(** ** Selection *)

(** What the server answers before the transfer: a response with status 200 or to a
    plain request carries the object, one with status 206 the range it names. *)
Record Honest (rq : Requests) : Prop := {
  hn_resume : forall a total r, requested spec (rq_resume rq a (total - 1)) = Ok r -> honest_range objects served delivers a total r;
  hn_partial : forall a b r, requested spec (rq_resume rq a b) = Ok r -> rsp_status r = 206 -> delivers (rsp_meta r);
  hn_get : forall r, requested spec (rq_get rq) = Ok r -> honest_get objects served delivers r;
  hn_refetch : forall r, requested spec (rq_refetch rq) = Ok r -> honest_get objects served delivers r;
  hn_probe_full : forall a b r, requested spec (rq_probe rq a b) = Ok r -> rsp_status r = 200 -> honest_get objects served delivers r;
  hn_probe : forall a b r, requested spec (rq_probe rq a b) = Ok r -> rsp_status r = 206 ->
    delivers (rsp_meta r) /\ (range_probe_response_covers_full_file (rsp_meta r) = true -> honest_get objects served delivers r);
}.

Lemma load_cases fs r fs' :
  load_sync_with_hints (control_path out) fs = (r, fs') ->
  fs_files fs' = fs_files fs /\
  match r with
  | Ok x => control_in fs x.1 /\ fs_io fs' = tail (fs_io fs)
  | Err _ => head (fs_io fs) = Some IoOk \/ fs_io fs = [] -> forall snap, ~ control_in fs snap
  end.
Proof.
  unfold load_sync_with_hints, res_bind, fs_read. destruct (fs_files fs !! control_path out) as [g|] eqn:Eg.
  - destruct (default IoOk (head (fs_io fs))) as [|m kind] eqn:Eh.
    + intros [= <- <-]. split; [done|]. destruct (parse_control (fs_data g)) as [[snap h]|e] eqn:Ep; [split; [by exists g, h|done]|].
      intros _ snap (g' & h & Hg & Hp). rewrite Eg in Hg. injection Hg as <-. by rewrite Ep in Hp.
    + intros [= <- <-]. split; [done|]. intros [Hh|Hh]; rewrite Hh in Eh; done.
  - intros [= <- <-]. split; [done|]. intros _ snap (g' & h & Hg & Hp). by rewrite Eg in Hg.
Qed.

Lemma promise_files f fs fs' : fs_files fs' = fs_files fs -> Storage_ok f fs -> Storage_ok f fs'.
Proof. unfold Storage_ok, Promise, Blank, control_in. by intros ->. Qed.

Lemma control_unique fs a b : control_in fs a -> control_in fs b -> a = b.
Proof. intros (g & h & Hg & Hp) (g' & h' & Hg' & Hp'). rewrite Hg in Hg'. injection Hg' as <-. congruence. Qed.

(** An accepted probe is a partial response with the stored validators. *)
Lemma accepted_response ctrl start last r :
  probe_accepted ctrl start last (probe_result r) = true ->
  exists response, r = Ok response /\ rsp_status response = 206 /\ validate_metadata (rsp_meta response) ctrl = true /\
    validate_range_response (rsp_status response) (rsp_retry_after response) (rsp_meta response) ResumeProbe
      (mkExpected start last (Some (ctrl_total_size ctrl))) = Ok Accept.
Proof.
  unfold probe_accepted, probe_result. destruct r as [response|e]; [|done].
  destruct (validate_range_response _ _ _ _ _) as [[|]|] eqn:E; try done. intros Hm. exists response. split_and!; try done.
  unfold validate_range_response in E. destruct (validate_range_status _ _ _) as [[|]|] eqn:Es; try done.
  unfold validate_range_status in Es. destruct (rsp_status response =? 200); [done|].
  destruct (_ || _); [done|]. destruct (Z.eqb_spec (rsp_status response) 206); done.
Qed.

(** Before the transfer a control file is at most deleted. *)
Lemma storage_shrinks f fs fs1 :
  (forall snap, control_in fs1 snap -> control_in fs snap) -> Storage_ok f fs -> Storage_ok f fs1.
Proof. intros Hsub [HP|[-> HB]]; [left; intros snap Hs; by apply HP, Hsub|right; split; [done|]; intros snap Hs; by apply HB, Hsub]. Qed.

Lemma delete_shrinks path fs r fs1 snap : delete_control path fs = (r, fs1) -> control_in fs1 snap -> control_in fs snap.
Proof.
  intros E (g & h & Hg & Hp). exists g, h. split; [|done]. unfold delete_control in E.
  destruct (fs_files fs !! path); [|by injection E as _ <-].
  destruct (default IoOk (head (fs_io fs))) as [|n []]; injection E as _ <-; simpl in Hg; try done;
    by apply lookup_delete_Some in Hg as [_ Hg].
Qed.

Lemma resume_shrinks rq len path fs r fs1 snap :
  try_resume_download spec rq len path fs = (r, fs1) -> control_in fs1 snap -> control_in fs snap.
Proof.
  intros E Hs. unfold try_resume_download in E.
  destruct (if cf_resume (ds_storage spec) then load_sync_with_hints (control_path path) fs else _) as [loaded fs2] eqn:El.
  assert (fs_files fs2 = fs_files fs) as Ef.
  { destruct (cf_resume _); [|by injection El as _ <-]. unfold load_sync_with_hints, res_bind, fs_read in El.
    destruct (fs_files fs !! control_path path); [|by injection El as _ <-].
    destruct (default IoOk (head (fs_io fs))); by injection El as _ <-. }
  assert (control_in fs2 snap -> control_in fs snap) as H2 by (unfold control_in; by rewrite Ef).
  destruct (try_resume _ _ _ _) as [plan del]. apply H2.
  assert (fs1 = (if del then snd (delete_control (control_path path) fs2) else fs2)) as ->.
  { destruct plan as [pm k|start|]; [| |by destruct loaded as [[]|]; injection E as _ <-].
    - destruct loaded as [[ctrl h]|]; [|by injection E as _ <-]. destruct (piece_range pm k) as [a e].
      destruct (requested _ _), (rq_final_url rq); by injection E as _ <-.
    - destruct loaded as [[ctrl h]|]; [|by injection E as _ <-]. destruct (requested _ _), (rq_final_url rq); by injection E as _ <-. }
  destruct del; [|done]. destruct (delete_control (control_path path) fs2) as [rd fs3] eqn:Ed. by apply (delete_shrinks _ _ _ _ snap) in Ed.
Qed.

Lemma select_shrinks path_segments rq cwd len fs r fs1 snap :
  select_transfer path_segments spec rq cwd len fs = (r, fs1) -> control_in fs1 snap -> control_in fs snap.
Proof.
  intros E. unfold select_transfer in E. destruct (resolve_static_output_path cwd spec) as [[path|]|e]; [| |by injection E as _ <-].
  - destruct (try_resume_download spec rq (len path) path fs) as [[[t|]|e] fs2] eqn:Er; injection E as _ <-;
      exact (resume_shrinks rq _ _ _ _ _ snap Er).
  - destruct (probe_or_fallback_get spec rq) as [[response source]|]; [|by injection E as _ <-].
    destruct (rq_final_url rq) as [u|]; [|by injection E as _ <-].
    destruct (resolve_auto_output_path path_segments cwd spec (rsp_meta response) u) as [path|]; [|by injection E as _ <-].
    destruct (try_resume_download spec rq (len path) path fs) as [[[t|]|e] fs2] eqn:Er; injection E as _ <-;
      exact (resume_shrinks rq _ _ _ _ _ snap Er).
Qed.

Section Selection.
  Context (V : Server_ok) (rq : Requests) (Hrq : Honest rq) (Hresume : cf_resume (ds_storage spec) = true).

(** A stored state of several pieces is continued. *)
Lemma resumed_multi f fs ctrl response :
  Promise f fs -> plain f -> control_in fs ctrl -> is_multi ctrl (resume_spec spec) = true ->
  delivers (rsp_meta response) -> validate_metadata (rsp_meta response) ctrl = true ->
  Multi_begin f fs (rsp_meta response) (ctrl_total_size ctrl) (ctrl_piece_map ctrl).
Proof.
  intros HP Pl Hc Hm Hd Hv. destruct (HP ctrl Hc) as [meta K]. pose proof K as [K1 K2 K3 K4 K5 K6].
  apply andb_true_iff in Hm as [Hn Hx]. apply Nat.ltb_lt in Hn. apply Z.ltb_lt in Hx. simpl in Hx.
  destruct (K5 Hn) as (_ & Hok & HB). pose proof (accepted_same ctrl (rsp_meta response) meta V Hd K1 K2 K3 Hv) as Eo.
  destruct (ctrl_map_fields ctrl) as (Ft & Fs' & _). split; try done.
  - by apply ctrl_map_wf.
  - intros i b Hi Hb. rewrite Eo. rewrite Ft, Fs' in Hb. by apply (HB i b).
  - intros snap Hs. rewrite <- (control_unique fs ctrl snap Hc Hs). split; [done|]. split; [done|]. by exists meta.
Qed.

(** A stored prefix is continued. *)
Lemma resumed_single url f fs ctrl response :
  Promise f fs -> plain f -> control_in fs ctrl -> is_multi ctrl (resume_spec spec) = false ->
  0 < ctrl_downloaded_bytes ctrl < ctrl_total_size ctrl ->
  delivers (rsp_meta response) -> validate_metadata (rsp_meta response) ctrl = true ->
  honest_range objects served delivers (ctrl_downloaded_bytes ctrl) (ctrl_total_size ctrl) response ->
  Begun url f fs (TransferSingle response (ctrl_downloaded_bytes ctrl) (Some (ctrl_total_size ctrl))).
Proof.
  intros HP Pl Hc Hm Hn Hd Hv Hr. destruct (HP ctrl Hc) as [meta [K1 K2 K3 K4 K5 K6]].
  pose proof (accepted_same ctrl (rsp_meta response) meta V Hd K1 K2 K3 Hv) as Eo.
  assert (ctrl_piece_count ctrl <= 1)%nat as Hcount.
  { destruct (Nat.le_gt_cases (ctrl_piece_count ctrl) 1) as [|Hgt]; [done|]. destruct (K5 Hgt) as (Hx & _).
    unfold is_multi in Hm. simpl in Hm. apply Nat.ltb_lt in Hgt. apply Z.ltb_lt in Hx. by rewrite Hgt, Hx in Hm. }
  split; simpl.
  - unfold u64_max in *. lia.
  - intros total [= <-]. done.
  - intros b. apply Pl.
  - rewrite Eo. by apply K6.
  - intros snap Hs. rewrite <- (control_unique fs ctrl snap Hc Hs). split; [lia|]. split; [done|]. split; [done|].
    exists meta. by split_and!.
  - intros _. split; [done|by eexists].
  - exact (proj1 Hr).
  - destruct (Z.ltb_spec 0 (ctrl_downloaded_bytes ctrl)); [|lia]. split; [done|]. by intros total [= <-].
Qed.

Lemma try_resume_ok f0 f fs len r fs1 :
  Storage_ok f0 fs -> Reopened f0 f -> (forall n, len = Ok n -> has_length f n) -> Forall (eq IoOk) (take 2 (fs_io fs)) ->
  try_resume_download spec rq len out fs = (r, fs1) ->
  match r with
  | Ok (Some t) => forall url, Begun url f fs1 t
  | Ok None => forall snap, ~ control_in fs1 snap
  | Err _ => Storage_ok f0 fs1
  end.
Proof.
  intros HS R Hlen Hio E. pose proof (ro_plain _ _ R) as Pl. unfold try_resume_download in E. rewrite Hresume in E.
  destruct (load_sync_with_hints (control_path out) fs) as [loaded fs2] eqn:El. pose proof (load_cases _ _ _ El) as [Ef Hl].
  destruct (try_resume _ _ _ _) as [plan del] eqn:Et. apply try_resume_cases in Et.
  assert (forall snap, control_in fs2 snap <-> control_in fs snap) as Hfs by (intros snap; unfold control_in; by rewrite Ef).
  assert (forall P : Prop, (Promise f fs2 -> plain f -> P) -> Promise f0 fs -> P) as Hpromise.
  { intros P HP HP0. apply HP; [|done]. intros snap Hs%Hfs. by apply (promise_reopened f0 f fs HP0 R). }
  destruct plan as [pm k|start|].
  - destruct Et as (-> & ctrl & h & -> & Hm & _ & -> & _ & Hp). destruct Hl as [Hl _]. simpl in Hl.
    destruct (piece_range (ctrl_piece_map ctrl) k) as [a e]. apply accepted_response in Hp as (response & Er & H206 & Hv & _).
    cbn [fst snd] in Er. rewrite Er in E. assert (delivers (rsp_meta response)) as Hd by (by apply (hn_partial _ Hrq _ _ _ Er)).
    destruct (rq_final_url rq) as [u|e']; injection E as <- <-; [|by apply (promise_files _ fs)].
    intros url. destruct HS as [HP|[_ HB]].
    + apply (Hpromise _); [|done]. intros HP' _. by apply resumed_multi; [..|apply Hfs| | |].
    + specialize (HB ctrl Hl). unfold is_multi in Hm. apply andb_true_iff in Hm as [Hn%Nat.ltb_lt _]. lia.
  - destruct Et as (-> & ctrl & h & -> & Hm & Hval & -> & Hn & Hp). destruct Hl as [Hl _]. simpl in Hl.
    apply accepted_response in Hp as (response & Er & H206 & Hv & _). rewrite Er in E.
    assert (delivers (rsp_meta response)) as Hd by (by apply (hn_partial _ Hrq _ _ _ Er)).
    destruct (rq_final_url rq) as [u|e']; injection E as <- <-; [|by apply (promise_files _ fs)].
    intros url. destruct HS as [HP|[-> HB]].
    + apply (Hpromise _); [|done]. intros HP' _. destruct (HP ctrl Hl) as [meta K].
      rewrite u64_sub_exact in Er by (destruct (kp_total _ _ _ K); unfold u64_max in *; lia).
      apply resumed_single; try done; [by apply Hfs|]. by apply (hn_resume _ Hrq).
    + exfalso. unfold validate_local_resume_state in Hval. destruct len as [n|]; [|done]. destruct (_ <? _); [done|].
      rewrite Hm in Hval. pose proof (empty_length f n R (Hlen n eq_refl)).
      destruct (Z.eqb_spec n (if preallocated (resume_spec spec) then ctrl_total_size ctrl else ctrl_downloaded_bytes ctrl)) as [->|]; [|done].
      destruct (preallocated _); lia.
  - injection E as <- <-. intros snap Hs. destruct loaded as [[ctrl h]|e].
    + destruct del; [|discriminate (proj2 Et (conj Hresume (ex_intro _ _ eq_refl)))]. destruct (delete_control (control_path out) fs2) as [rd fs3] eqn:Ed.
      simpl in Hs. pose proof (delete_control_spec _ _ _ _ Ed) as Hdel. destruct rd as [[]|e].
      * destruct Hs as (g & h' & Hg & _). by rewrite Hdel in Hg.
      * exfalso. unfold delete_control in Ed. destruct Hl as [(g & h' & Hg & _) Hi]. rewrite Ef, Hg, Hi in Ed.
        destruct (fs_io fs) as [|o1 [|o2 l]]; try done. simpl in Hio.
        apply Forall_cons in Hio as [_ Hio]. apply Forall_cons in Hio as [<- _]. done.
    + destruct del; [by destruct (proj1 Et eq_refl) as [_ [x Hx]]|]. apply Hfs in Hs. revert Hs. apply Hl.
      destruct (fs_io fs) as [|o l]; [by right|left]. simpl in Hio. apply Forall_cons in Hio as [<- _]. done.
Qed.

(** A plain response begins a single stream. *)
Lemma begun_single url f fs response :
  plain f -> (forall snap, ~ control_in fs snap) -> honest_get objects served delivers response -> Begun url f fs (fresh_single response).
Proof.
  intros Pl Hno Hh. pose proof Hh as (Hs & Hd & Hn & _). split; simpl; try done.
  - intros b. apply Pl.
  - intros b Hb. lia.
  - intros snap Hc. by apply Hno in Hc.
Qed.

(** Where the first response comes from. *)
Lemma first_response response source :
  probe_or_fallback_get spec rq = Ok (response, source) ->
  match source with
  | FallbackGet => honest_get objects served delivers response
  | RangeProbe => 1 < ds_max_connections spec /\ requested spec (rq_probe rq 0 (probe_end spec)) = Ok response
  end.
Proof.
  unfold probe_or_fallback_get. intros E.
  assert (match requested spec (rq_get rq) with Ok r => Ok (r, FallbackGet) | Err e => Err e end = Ok (response, source) ->
    source = FallbackGet /\ honest_get objects served delivers response) as Hget.
  { destruct (requested spec (rq_get rq)) as [r|] eqn:Eg; [|done]. intros [= <- <-]. split; [done|]. by apply (hn_get _ Hrq). }
  destruct (Z.ltb_spec 1 (ds_max_connections spec)) as [Hc|Hc]; [|by apply Hget in E as [-> ?]].
  destruct (requested spec (rq_probe rq 0 (probe_end spec))) as [r|e] eqn:Ep; [by injection E as <- <-|].
  destruct (should_abort_range_probe_fallback e); [done|]. by apply Hget in E as [-> ?].
Qed.

Lemma fresh_ok url f fs response source t :
  1 <= cf_piece_size (ds_scheduling spec) -> plain f -> (forall snap, ~ control_in fs snap) ->
  probe_or_fallback_get spec rq = Ok (response, source) -> fresh_transfer spec rq response source = Ok t -> Begun url f fs t.
Proof.
  intros Hps Pl Hno Hf E. apply first_response in Hf. pose proof (begun_single url f fs) as Hb. unfold fresh_transfer in E.
  assert (forall t, match retry_plain_get spec rq with Ok response => Ok (fresh_single response) | Err e => Err e end = Ok t ->
    Begun url f fs t) as Hre.
  { intros t0. destruct (retry_plain_get spec rq) as [r|] eqn:Er; [|done]. intros [= <-]. apply Hb; [done|done|]. by apply (hn_refetch _ Hrq). }
  destruct source; [|injection E as <-; by apply Hb]. destruct Hf as [Hc Hr].
  destruct (Z.ltb_spec 1 (ds_max_connections spec)) as [_|]; [|lia].
  destruct (validate_range_response _ _ _ _ _) as [[|reason]|] eqn:Ev; [| |done].
  - assert (rsp_status response = 206) as H206.
    { unfold validate_range_response in Ev. destruct (validate_range_status _ _ _) as [[|]|] eqn:Es; try done.
      unfold validate_range_status in Es. destruct (rsp_status response =? 200); [done|]. destruct (_ || _); [done|].
      by destruct (Z.eqb_spec (rsp_status response) 206). }
    destruct (hn_probe _ Hrq _ _ _ Hr H206) as [Hd Hfull].
    destruct (content_range_total (rsp_meta response)) as [total|] eqn:Et; [|done]. destruct (so_total V _ _ Hd Et) as [Hfit Hg].
    destruct (_ <? total).
    + injection E as <-. assert (PieceMap_wf (PieceMap_new total (cf_piece_size (ds_scheduling spec)))) as W
        by (apply PieceMap_new_wf; unfold Geometry; lia).
      split; try done; [|intros snap Hs; by apply Hno in Hs]. intros i b Hi. by rewrite (no_pieces_no_bits _ W eq_refl) in Hi.
    + destruct (range_probe_response_covers_full_file (rsp_meta response)) eqn:Ec; simpl in E; [injection E as <-|by apply Hre].
      apply Hb; [done|done|]. by apply Hfull.
  - destruct reason; [injection E as <-|by apply Hre]. apply Hb; [done|done|]. apply (hn_probe_full _ Hrq _ _ _ Hr).
    unfold validate_range_response in Ev. destruct (validate_range_status _ _ _) as [[|]|] eqn:Es; try done.
    { destruct (negb _); [done|]. destruct (resolve_response_total _ _ _); [|done]. destruct (resolve_expected_end _ _ _); [|done].
      destruct (_ || _); [done|]. destruct (checked_sub _ _ ≫= _); [|done]. by destruct (match content_length _ with Some _ => _ | None => _ end). }
    unfold validate_range_status in Es. destruct (Z.eqb_spec (rsp_status response) 200); [done|]. destruct (_ || _); [done|].
    by destruct (negb _).
Qed.

Lemma select_ok path_segments f0 f fs cwd len r fs1 :
  1 <= cf_piece_size (ds_scheduling spec) -> Storage_ok f0 fs -> Reopened f0 f ->
  (forall n, len out = Ok n -> has_length f n) -> Forall (eq IoOk) (take 2 (fs_io fs)) ->
  select_transfer path_segments spec rq cwd len fs = (r, fs1) ->
  match r with
  | Ok (path, t) => path = out -> forall url, Begun url f fs1 t
  | Err _ => True
  end.
Proof.
  intros Hps HS R Hlen Hio E. pose proof (ro_plain _ _ R) as Pl. unfold select_transfer in E.
  destruct (resolve_static_output_path cwd spec) as [[path|]|e]; [| |by injection E as <- <-].
  - destruct (try_resume_download spec rq (len path) path fs) as [[[t|]|e] fs2] eqn:Er; [| |by injection E as <- <-].
    + injection E as <- <-. intros ->. by apply (try_resume_ok f0 f fs (len out) (Ok (Some t)) fs2).
    + injection E as <- <-. destruct (probe_or_fallback_get spec rq) as [[response source]|] eqn:Ep; [|done].
      destruct (rq_final_url rq); [|done]. destruct (fresh_transfer spec rq response source) as [t|] eqn:Ef; [|done]. intros -> url.
      apply (fresh_ok url f fs2 response source t); try done. by apply (try_resume_ok f0 f fs (len out) (Ok None) fs2).
  - destruct (probe_or_fallback_get spec rq) as [[response source]|] eqn:Ep; [|by injection E as <- <-].
    destruct (rq_final_url rq) as [u|]; [|by injection E as <- <-].
    destruct (resolve_auto_output_path path_segments cwd spec (rsp_meta response) u) as [path|]; [|by injection E as <- <-].
    destruct (try_resume_download spec rq (len path) path fs) as [[[t|]|e] fs2] eqn:Er; [| |by injection E as <- <-].
    + injection E as <- <-. intros ->. by apply (try_resume_ok f0 f fs (len out) (Ok (Some t)) fs2).
    + injection E as <- <-. destruct (fresh_transfer spec rq response source) as [t|] eqn:Ef; [|done]. intros -> url.
      apply (fresh_ok url f fs2 response source t); try done. by apply (try_resume_ok f0 f fs (len out) (Ok None) fs2).
Qed.
End Selection.
End Sessions.
