(* ===== verification/DownloadProps.v ===== *)
(** * Properties of downloads

    Downloads of one output file, one session after the other: what a session that
    succeeds has written, what the storage promises after any number of sessions
    that failed, and where the code falls short of that. *)

From S2P Require Import Prelude RustStr Errors PieceMap Segment Scheduler SchedInv SchedSpec Planner Cache Writer WriterInv WriterProps WriterRun Flow Retry Response RangeValidate Control Resume Checkpoint Filename Checksum OutputFile Config Workers Sessions Multi WriterStream Single SingleInv SingleProps Download DownloadInv.

Section Histories.
  Context `{RawBits} `{Codec} (path_segments : rstr -> option (list rstr)).
  Context (spec : DownloadSpec) (out : rstr) (has_parent : bool).
  Context (objects : ResponseMeta -> Z -> Z) (served delivers : ResponseMeta -> Prop).

(** One session on the output file [out] and its result.  It is given up before the
    transfer, or opens the file again and runs a transfer.  The control file can be
    read, and deleted when it is refused. *)
Inductive session_run (f : FileState) (fs : Fs)
    : result unit DownloadError -> option Z -> (HttpResponse -> Prop) -> FileState -> Fs -> Prop :=
| session_refused rq cwd len e fs1 :
    select_transfer path_segments spec rq cwd len fs = (Err e, fs1) -> session_run f fs (Err e) None (fun _ => False) f fs1
| session_ran rq cwd len f1 t fs1 url r size got f2 fs2 :
    Reopened f f1 -> (forall n, len out = Ok n -> has_length f1 n) -> Forall (eq IoOk) (take 2 (fs_io fs)) ->
    Honest spec objects served delivers rq ->
    select_transfer path_segments spec rq cwd len fs = (Ok (out, t), fs1) ->
    Ran spec out has_parent objects served delivers url t f1 fs1 r size got f2 fs2 ->
    session_run f fs r size got f2 fs2.

(** The storage after a number of sessions, the first one without a control file. *)
Inductive history : FileState -> Fs -> Prop :=
| history_new f fs : (forall snap, ~ control_in out fs snap) -> history f fs
| history_session f fs r size got f' fs' : history f fs -> session_run f fs r size got f' fs' -> history f' fs'.

Section Facts.
  Context (now_plus : Z -> bool) (V : Server_ok spec out objects served delivers).
  Context (Hspec : Spec_typed spec) (Hvalid : validate now_plus spec = Ok tt) (Hresume : cf_resume (ds_storage spec) = true).

Lemma session_keeps f fs r size got f' fs' :
  Storage_ok spec out objects delivers f fs -> session_run f fs r size got f' fs' ->
  Storage_ok spec out objects delivers f' fs' /\ (r = Ok tt -> Object_in objects delivers f' size got).
Proof.
  intros HS R. destruct (proj1 (validate_spec now_plus spec Hspec) Hvalid) as (Hps & _ & _ & _ & Hmax & _).
  destruct R as [rq cwd len e fs1 E|rq cwd len f1 t fs1 url r size got f2 fs2 Ro Hlen Hio Hh E Ht].
  - split; [|done]. apply (storage_shrinks spec out objects delivers f fs); [|done]. intros snap. by apply (select_shrinks spec out path_segments rq cwd len fs (Err e)).
  - apply (ran_ok spec out has_parent objects served delivers url t f1 fs1); try done.
    by apply (select_ok spec out has_parent objects served delivers V rq Hh Hresume path_segments f f1 fs cwd len (Ok (out, t)) fs1).
Qed.

Lemma history_ok f fs : history f fs -> Storage_ok spec out objects delivers f fs.
Proof.
  induction 1 as [f fs Hno|f fs r size got f' fs' _ IH R]; [left; intros snap Hs; by apply Hno in Hs|].
  by destruct (session_keeps f fs r size got f' fs' IH R).
Qed.
End Facts.

(** C1: a download that reports success has the object.  A history here is a number of
    sessions on one output file with one valid specification that has resume on; it
    starts without a control file, each session finds the control file readable and
    can delete it when it refuses it, and the server keeps its word ([Server_ok],
    [Honest]).  The sessions may be paused, fail in any I/O call of the transfer, or
    crash.  When then a session resumes or starts afresh, over one connection or
    several, and its result and the verification are [Ok], every byte of the output
    file up to [n] is on stable storage with the value it has in an object the server
    delivered; [n] is the object's size where it is known, and the length of the whole
    body of a response the session received where it is not.  The file that was read
    for the verification has the configured digest. *)
Theorem download_ok_is_object `{Hashes} now_plus f fs r size got f' fs' stop reads opened :
  Server_ok spec out objects served delivers -> Spec_typed spec -> validate now_plus spec = Ok tt ->
  cf_resume (ds_storage spec) = true -> history f fs -> session_run f fs r size got f' fs' ->
  run_download spec r stop reads opened = Some (Ok tt) ->
  (exists meta n, delivers meta /\ (forall b, 0 <= b < n -> durable f' b = Some (objects meta b)) /\
     (forall total, size = Some total -> n = total) /\
     (size = None -> exists response, got response /\ rsp_meta response = meta /\ n = blen (body_bytes (rsp_body response)))) /\
  (forall expected, cf_checksum (ds_storage spec) = Some expected -> exists file, opened = Ok file /\
     hex_decode (hex_of expected) = Some (digest (algorithm_of expected) file)).
Proof.
  intros V Ht Hv Hr Hist R E.
  destruct (session_keeps now_plus V Ht Hv Hr f fs r size got f' fs' (history_ok now_plus V Ht Hv Hr f fs Hist) R) as [_ HO].
  unfold run_download in E. destruct r as [[]|e]; [|done]. split; [by apply HO|]. intros expected Hc. rewrite Hc in E.
  unfold verify_checksum in E. destruct opened as [file|]; [|done]. exists file. split; [done|].
  destruct expected; (match type of E with hash_and_compare ?s ?rd ?a ?fl ?h = _ =>
    destruct (hash_and_compare_spec s rd a fl h) as (r & Er & Hd & _) end); rewrite Er in E; injection E as ->; by apply Hd.
Qed.

(** C2: what the control file says is true.  A history is as in C1: one valid
    specification with resume on, no control file at first, a control file that can be
    read and, when it is refused, deleted, and a server that keeps its word.  After any
    number of such sessions, however they ended: if the control file loads and the
    output file is not empty, the checkpoint carries the validators of an object the
    server delivered, and every byte it promises -- of its completed pieces, or before
    its offset -- is in the output file and on stable storage with that object's value.
    (An empty output file is detected by the next session.) *)
Theorem control_file_is_true now_plus f fs snap :
  Server_ok spec out objects served delivers -> Spec_typed spec -> validate now_plus spec = Ok tt ->
  cf_resume (ds_storage spec) = true -> history f fs -> control_in out fs snap -> f <> empty_file ->
  exists meta, delivers meta /\ etag meta = ctrl_etag snap /\ last_modified meta = ctrl_last_modified snap /\
    (if (1 <? ctrl_piece_count snap)%nat
     then forall i b, bit (ctrl_piece_map snap) i = true ->
       piece_lo (ctrl_piece_size snap) i <= b < piece_hi (ctrl_total_size snap) (ctrl_piece_size snap) i ->
       durable f b = Some (objects meta b) /\ contents f b = Some (objects meta b)
     else forall b, 0 <= b < ctrl_downloaded_bytes snap ->
       durable f b = Some (objects meta b) /\ contents f b = Some (objects meta b)).
Proof.
  intros V Ht Hv Hr Hist Hs Hf. destruct (history_ok now_plus V Ht Hv Hr f fs Hist) as [HP|[He _]]; [|done].
  destruct (HP snap Hs) as [meta [K1 K2 K3 K4 K5 K6]]. exists meta. split_and!; try done.
  destruct (Nat.ltb_spec 1 (ctrl_piece_count snap)) as [Hc|Hc]; [by apply K5|by apply K6].
Qed.
End Histories.

(** ** A download in two sessions *)

Module DemoDownload.

(** A codec that refuses what its length field cannot hold. *)
#[export, refine] Instance sized_codec : Codec := {|
  serialize_v2 s h := let b := DemoCodec.put s h in if blen b <? 2 ^ 32 then Ok b else Err [];
  deserialize_v1 b := match DemoCodec.get b with Some (s, _) => Ok s | None => Err [] end;
  deserialize_v2 b := match DemoCodec.get b with Some x => Ok x | None => Err [] end;
  crc32 b := fold_right Z.add 0 b mod 2 ^ 32;
  codec_roundtrip := _;
  crc32_range := _;
|}.
Proof.
  - intros s h p. simpl. destruct (_ <? _); [|done]. intros [= <-]. by rewrite DemoCodec.get_put_snapshot.
  - intros b. by apply Z.mod_pos_bound.
Defined.

Definition spec : DownloadSpec :=
  mkSpec (mkStorage 64 Prealloc 4 true (Some (Sha256 (str "03"))) (secs 5) 1)
         (mkRecovery Adaptive None (secs 15) (secs 5) (secs 5))
         (mkScheduling 4 0 Fixed 4 4 4 4) (mkRetryConfig 1 0 0 None)
         (str "http://h/f") (Some (str "/f")) None ∅ 1 no_overrides (secs 60) None 0.

Definition out : rstr := str "/f".

Definition headers (length : Z) (range : option (Z * Z)) : ResponseMeta :=
  mkMeta (Some length) (fst <$> range) (snd <$> range) ((fun _ => 3) <$> range) true (Some (str "v1")) None None None.

Definition whole (events : list BodyEvent) : HttpResponse := mkResponse 200 None (headers 3 None) events.
Definition rest : HttpResponse := mkResponse 206 None (headers 1 (Some (2, 2))) [BodyChunk (Ok [2]) []].

Definition answers (r : result HttpResponse DownloadError) : Call := (0, fun _ => mkAttempt Running None r 0 0 (fun _ => 0) None).
Definition refused : Call := answers (Err (HttpStatus 404 [])).

(** The first session is paused after two bytes; the second one continues. *)
Definition rq1 : Requests :=
  mkRequests (fun _ _ => refused) (answers (Ok (whole [BodyChunk (Ok [0; 1]) []; BodyStop Paused]))) refused (fun _ _ => refused) (Ok (ds_url spec)).
Definition rq2 : Requests :=
  mkRequests (fun _ _ => refused) refused refused (fun a b => if (a =? 2) && (b =? 2) then answers (Ok rest) else refused) (Ok (ds_url spec)).

Definition turn : Turn := mkTurn (RequestStopped Cancelled) (fun _ _ => RequestStopped Cancelled) 0 0 (fun _ => 0) None.

Definition known (meta : ResponseMeta) : Prop := meta = headers 3 None \/ meta = headers 1 (Some (2, 2)).

Definition objects (meta : ResponseMeta) : Z -> Z := demo_object.

Definition fs0 : Fs := mkFs ∅ [].

Lemma two_session_server : Server_ok spec out objects known known.
Proof.
  split.
  - done.
  - intros meta total [->| ->]; simpl; [done|]. intros [= <-]. unfold u64_max. simpl. lia.
  - intros url meta total k n payload _. simpl. destruct (Z.ltb_spec (blen (DemoCodec.put (with_downloaded n (single_snapshot_template url total k meta)) default_hints)) (2 ^ 32)); [|done]. by intros [= <-].
  - intros url meta total s payload _. destruct (freeze _ s) as [[snap h] s']. simpl. destruct (Z.ltb_spec (blen (DemoCodec.put snap h)) (2 ^ 32)); [|done]. by intros [= <-].
Qed.

Lemma spec_typed : Spec_typed spec.
Proof. split; vm_compute; repeat split; discriminate. Qed.

Lemma spec_valid : validate (fun _ => true) spec = Ok tt.
Proof. vm_compute. reflexivity. Qed.

Definition sspec : SingleSpec := single_spec spec (ds_url spec) out false.

Definition run_of (f : FileState) (fs : Fs) (response : HttpResponse) (offset : Z) : option (result unit DownloadError * SingleState) :=
  run_single_with_retry sspec [turn] (single_start sspec f [] fs response offset (Some 3) (session_retry spec 0)).

Definition paused : HttpResponse := whole [BodyChunk (Ok [0; 1]) []; BodyStop Paused].

(** The state in which a run leaves the storage. *)
Definition left (f : FileState) (fs : Fs) (response : HttpResponse) (offset : Z) : SingleState :=
  from_option snd (single_start sspec f [] fs response offset (Some 3) (session_retry spec 0)) (run_of f fs response offset).

Definition s1 : SingleState := left demo_file fs0 paused 0.
Definition f1 : FileState := file (rt_writer (sg_runtime s1)).
Definition fs1 : Fs := sg_fs s1.
Definition s2 : SingleState := left f1 fs1 rest 2.

Lemma run1 : run_of demo_file fs0 paused 0 = Some (Err Paused, s1).
Proof. vm_compute. reflexivity. Qed.

Lemma run2 : run_of f1 fs1 rest 2 = Some (Ok tt, s2).
Proof. vm_compute. reflexivity. Qed.

Lemma refused_never r : requested spec refused <> Ok r.
Proof. vm_compute. discriminate. Qed.

Lemma two_bytes : agrees demo_object 0 [0; 1] /\ agrees demo_object 2 [2].
Proof.
  split; [apply demo_empty_agrees|]. split; [lia|]. split; [vm_compute; discriminate|].
  intros [|i] v Hv; simpl in Hv; [by injection Hv as <-|done].
Qed.

Lemma honest1 : Honest spec objects known known rq1.
Proof.
  split; intros; try (by exfalso; eapply refused_never).
  assert (r = paused) as -> by (vm_compute in H; by injection H as <-). split; [by left|]. split; [by left|].
  split; [|apply two_bytes]. intros n [= <-]. unfold u64_max. lia.
Qed.

Lemma honest2 : Honest spec objects known known rq2.
Proof.
  assert (forall a b r, requested spec (rq_resume rq2 a b) = Ok r -> a = 2 /\ b = 2 /\ r = rest) as Hr.
  { intros a b r. simpl. destruct (Z.eqb_spec a 2), (Z.eqb_spec b 2); simpl; try (by intros ?%refused_never).
    intros E. vm_compute in E. by injection E as <-. }
  split; intros; try (by exfalso; eapply refused_never).
  - apply Hr in H as (-> & Hb & ->). assert (total = 3) as -> by lia. split; [by right|]. split; [|done].
    intros _. split; [by right|]. apply two_bytes.
  - apply Hr in H as (-> & Hb & ->). by right.
Qed.

Lemma reopened0 : Reopened demo_file demo_file.
Proof. split; [by left|done|by intros b v]. Qed.

Lemma reopened1 : Reopened f1 f1.
Proof.
  assert (durable f1 = contents f1) as E by (vm_compute; reflexivity).
  split; [intros b; left; reflexivity|intros b H; exact H|]. intros b v H. rewrite <- E. exact H.
Qed.

Lemma length1 : has_length f1 3.
Proof.
  split; [|intros _; vm_compute; by eexists]. intros b. destruct b as [|[[p|p|]|[p|p|]|]|p]; vm_compute; try done; by intros [v Hv].
Qed.

Definition segments (url : rstr) : option (list rstr) := None.

Lemma history0 : history segments spec out false objects known known demo_file fs0.
Proof. apply history_new. intros snap (g & h & Hg & _). simpl in Hg. by rewrite lookup_empty in Hg. Qed.

Lemma ran_of f fs response offset r s :
  run_of f fs response offset = Some (r, s) ->
  Ran spec out false objects known known (ds_url spec) (TransferSingle response offset (Some 3)) f fs r (sg_total s) (received response [turn])
    (file (rt_writer (sg_runtime s))) (sg_fs s).
Proof. intros E. by apply (ran_single _ _ _ _ _ _ _ response offset (Some 3) f fs [] [turn] 0 r s); [repeat constructor|]. Qed.

Lemma session1 : session_run segments spec out false objects known known demo_file fs0 (Err Paused) (sg_total s1)
  (received paused [turn]) f1 fs1.
Proof.
  refine (session_ran _ _ _ _ _ _ _ _ _ rq1 (Ok (str "/")) (fun _ => Err NotFound) demo_file (TransferSingle paused 0 (Some 3)) fs0 (ds_url spec)
    _ _ _ _ _ reopened0 _ _ honest1 _ _); [done|done|vm_compute; reflexivity|].
  exact (ran_of _ _ _ _ _ _ run1).
Qed.

Lemma session2 : session_run segments spec out false objects known known f1 fs1 (Ok tt) (sg_total s2)
  (received rest [turn]) (file (rt_writer (sg_runtime s2))) (sg_fs s2).
Proof.
  refine (session_ran _ _ _ _ _ _ _ _ _ rq2 (Ok (str "/")) (fun _ => Ok 3) f1 (TransferSingle rest 2 (Some 3)) fs1 (ds_url spec)
    _ _ _ _ _ reopened1 _ _ honest2 _ _); [intros n [= <-]; exact length1|vm_compute; repeat constructor|vm_compute; reflexivity|].
  exact (ran_of _ _ _ _ _ _ run2).
Qed.
End DemoDownload.

Import DemoDownload.

Lemma download_ok_is_object_witness :
  run_download (H := DemoHash.sum_hash) spec (Ok tt) (fun _ => None) (fun _ => Ok 9%nat) (Ok [0; 1; 2]) = Some (Ok tt) /\
  durable (file (rt_writer (sg_runtime s2))) 2 = Some 2.
Proof.
  assert (run_download (H := DemoHash.sum_hash) spec (Ok tt) (fun _ => None) (fun _ => Ok 9%nat) (Ok [0; 1; 2]) = Some (Ok tt)) as E
    by (vm_compute; reflexivity).
  split; [exact E|].
  assert (history segments spec out false objects known known f1 fs1) as Hh by (eapply history_session; [exact history0|exact session1]).
  destruct (download_ok_is_object (H1 := DemoHash.sum_hash) segments spec out false objects known known (fun _ => true) f1 fs1 (Ok tt) _ _ _ _
    (fun _ => None) (fun _ => Ok 9%nat) (Ok [0; 1; 2]) two_session_server spec_typed spec_valid eq_refl Hh session2 E) as [(meta & n & _ & Hd & Hn & _) _].
  rewrite Hd; [reflexivity|]. rewrite (Hn 3); [lia|vm_compute; reflexivity].
Defined.

Lemma control_file_is_true_witness : exists snap,
  control_in out fs1 snap /\ ctrl_downloaded_bytes snap = 2 /\ durable f1 1 = Some 1.
Proof.
  assert (history segments spec out false objects known known f1 fs1) as Hh by (eapply history_session; [exact history0|exact session1]).
  assert (exists snap, control_in out fs1 snap /\ ctrl_downloaded_bytes snap = 2 /\ ctrl_piece_count snap = 1%nat) as (snap & Hs & Hn & Hc).
  { eexists. split; [eexists _, _; split; [vm_compute; reflexivity|vm_compute; reflexivity]|]. split; reflexivity. }
  exists snap. split; [exact Hs|]. split; [exact Hn|].
  assert (f1 <> empty_file) as Hne by (intros Ef; assert (contents f1 0 = contents empty_file 0) as E0 by (by rewrite Ef); vm_compute in E0; discriminate E0).
  destruct (control_file_is_true segments spec out false objects known known (fun _ => true) f1 fs1 snap two_session_server spec_typed spec_valid
    eq_refl Hh Hs Hne) as (meta & _ & _ & _ & Hb).
  rewrite Hc in Hb. apply (Hb 1). rewrite Hn. lia.
Defined.

(** ** Where the promise is broken *)

(** A pause while a session asks whether it can resume. *)
Definition pausing : Call := (0, fun _ => mkAttempt Pause None (Err Paused) 0 0 (fun _ => 0) None).

Definition rq_paused : Requests := mkRequests (fun _ _ => pausing) pausing pausing (fun _ _ => pausing) (Ok (ds_url spec)).

(** A pause can lose the download.  A session that finds a sound checkpoint and
    is paused before its first request is answered takes the interrupted probe for a
    refusal: it deletes the control file, and reports the pause.  The bytes of the
    earlier session are still in the file, but no later session will resume them. *)
Example pause_discards_checkpoint :
  cf_resume (ds_storage spec) = true /\
  (exists snap, control_in out fs1 snap /\ ctrl_downloaded_bytes snap = 2 /\ durable f1 1 = Some (demo_object 1)) /\
  exists fs2, select_transfer segments spec rq_paused (Ok (str "/")) (fun _ => Ok 3) fs1 = (Err Paused, fs2) /\
    fs_files fs2 !! control_path out = None.
Proof.
  split; [reflexivity|]. split.
  - eexists. split; [eexists _, _; split; [vm_compute; reflexivity|vm_compute; reflexivity]|]. split; vm_compute; reflexivity.
  - eexists. split; vm_compute; reflexivity.
Qed.

(** The same download without resume, cancelled before the first byte. *)
Definition spec_off : DownloadSpec :=
  mkSpec (mkStorage 64 Prealloc 4 false None (secs 5) 1) (ds_recovery spec) (ds_scheduling spec) (ds_retry spec) (ds_url spec)
    (ds_output_path spec) None ∅ 1 no_overrides (secs 60) None 0.

Definition cancelled : HttpResponse := whole [BodyStop Cancelled].

Definition rq_off : Requests :=
  mkRequests (fun _ _ => refused) (answers (Ok cancelled)) refused (fun _ _ => refused) (Ok (ds_url spec)).

Definition run_off : option (result unit DownloadError * SingleState) :=
  let sspec := single_spec spec_off (ds_url spec) out false in
  run_single_with_retry sspec [turn] (single_start sspec f1 [] fs1 cancelled 0 (Some 3) (session_retry spec 0)).

(** The download itself, without a digest to verify. *)
Definition spec_on : DownloadSpec :=
  mkSpec (mkStorage 64 Prealloc 4 true None (secs 5) 1) (ds_recovery spec) (ds_scheduling spec) (ds_retry spec) (ds_url spec)
    (ds_output_path spec) None ∅ 1 no_overrides (secs 60) None 0.

Definition run_on (f : FileState) (fs : Fs) : option (result unit DownloadError * SingleState) :=
  let sspec := single_spec spec_on (ds_url spec) out false in
  run_single_with_retry sspec [turn] (single_start sspec f [] fs rest 2 (Some 3) (session_retry spec 0)).

(** A session without resume can make a later one deliver a wrong file.  Such a
    session truncates and preallocates the output file but neither reads nor deletes
    the control file an earlier session left.  When it is cancelled, the next session
    with resume finds a checkpoint and a file of the right length, takes the zeros for
    the bytes of the earlier session, and the download returns [Ok]: the second byte of
    the file is 0, where the object has 1. *)
Example stale_control_corrupts :
  exists s2 s3 fs3,
    select_transfer segments spec_off rq_off (Ok (str "/")) (fun _ => Ok 3) fs1 = (Ok (out, TransferSingle cancelled 0 (Some 3)), fs1) /\
    run_off = Some (Err Cancelled, s2) /\
    select_transfer segments spec_on rq2 (Ok (str "/")) (fun _ => Ok 3) (sg_fs s2) = (Ok (out, TransferSingle rest 2 (Some 3)), fs3) /\
    run_on (file (rt_writer (sg_runtime s2))) fs3 = Some (Ok tt, s3) /\
    (forall stop reads opened, run_download (H := DemoHash.sum_hash) spec_on (Ok tt) stop reads opened = Some (Ok tt)) /\
    durable (file (rt_writer (sg_runtime s3))) 1 = Some 0 /\ demo_object 1 = 1.
Proof.
  do 3 eexists. split; [vm_compute; reflexivity|]. split; [vm_compute; reflexivity|]. split; [vm_compute; reflexivity|].
  split; [vm_compute; reflexivity|]. split; [reflexivity|]. split; vm_compute; reflexivity.
Qed.
