(* ===== verification/Float64.v ===== *)
(** * Double precision numbers and durations

    Rust's [f64] as the Standard Library's [spec_float] at the format of binary64:
    53 bits of mantissa, exponents below 1024, rounding to nearest, ties to even.  The
    operations compute; no axiom about hardware floats is involved. *)

From Stdlib Require Import Floats.SpecFloat.
From S2P Require Import Prelude.

Definition f64 : Type := spec_float.

(** [n as f64]. *)
Definition f64_of (n : Z) : f64 := binary_normalize 53 1024 n 0 false.

Definition f64_add : f64 -> f64 -> f64 := SFadd 53 1024.
Definition f64_sub : f64 -> f64 -> f64 := SFsub 53 1024.
Definition f64_mul : f64 -> f64 -> f64 := SFmul 53 1024.
Definition f64_div : f64 -> f64 -> f64 := SFdiv 53 1024.
Definition f64_leb : f64 -> f64 -> bool := SFleb.
Definition f64_ltb : f64 -> f64 -> bool := SFltb.

Definition is_nan (x : f64) : bool := match x with S754_nan => true | _ => false end.

(** [f64::max] and [f64::min] answer the other operand for a NaN. *)
Definition f64_max (x y : f64) : f64 := if is_nan x then y else if f64_ltb x y then y else x.
Definition f64_min (x y : f64) : f64 := if is_nan x then y else if f64_ltb y x then y else x.

(** [f64::total_cmp], "less or equal"; a [spec_float] has one NaN, taken as positive. *)
Definition f64_total_le (x y : f64) : bool :=
  match x, y with
  | _, S754_nan => true
  | S754_nan, _ => false
  | S754_zero s1, S754_zero s2 => s1 || negb s2
  | _, _ => SFleb x y
  end.

(** A decimal literal [n / d] of the source: the nearest double. *)
Definition f64_lit (n d : Z) : f64 := f64_div (f64_of n) (f64_of d).

(** Instants and durations are nanoseconds; [Instant::duration_since] saturates at zero. *)
Definition duration_since (now earlier : Z) : Z := Z.max 0 (now - earlier).

Definition NANOS_PER_SEC : Z := 1000000000.

(** [Duration::as_secs_f64] of a duration in nanoseconds. *)
Definition f64_secs (nanos : Z) : f64 :=
  f64_add (f64_of (nanos / NANOS_PER_SEC)) (f64_div (f64_of (nanos mod NANOS_PER_SEC)) (f64_of NANOS_PER_SEC)).

(** Above [2^53] not every integer is a double; ties go to the even number. *)
Example f64_of_rounds :
  f64_of (2 ^ 53 + 1) = f64_of (2 ^ 53) /\ f64_of (2 ^ 53 + 3) = f64_of (2 ^ 53 + 4) /\
  f64_secs 1500000000 = f64_div (f64_of 3) (f64_of 2).
Proof. by vm_compute. Qed.
