(* ===== verification/Progress.v ===== *)
(** * Progress reports and speed estimates ([src/progress.rs], [src/eta.rs])

    The state a task publishes, when progress is reported, and the window of samples
    behind the speed estimate.  Instants and durations are nanoseconds. *)

From S2P Require Import Prelude RustStr Errors Float64.

(** ** Published states *)

Inductive DownloadState := StPending | StDownloading | StCompleted | StFailed | StCancelled | StPaused.

#[export] Instance DownloadState_eq_dec : EqDecision DownloadState.
Proof. solve_decision. Defined.

Record ProgressSnapshot := mkProgress {
  pg_total_size : option Z;
  pg_downloaded : Z;
  pg_state : DownloadState;
  pg_speed : f64;
  pg_eta_secs : option f64;
  pg_start_time : option Z;
}.

Definition ProgressSnapshot_default : ProgressSnapshot := mkProgress None 0 StPending (f64_of 0) None None.

Definition terminal_state_for (r : result unit DownloadError) : DownloadState :=
  match r with
  | Ok _ => StCompleted
  | Err Cancelled => StCancelled
  | Err Paused => StPaused
  | Err _ => StFailed
  end.

Definition publish_terminal_state (r : result unit DownloadError) (p : ProgressSnapshot) : ProgressSnapshot :=
  let state := terminal_state_for r in
  mkProgress (pg_total_size p) (pg_downloaded p) state (pg_speed p)
    (match state with StCompleted => Some (f64_of 0) | _ => None end) (pg_start_time p).

(** What a transfer publishes when it begins. *)
Definition transfer_started (total_size : option Z) (downloaded now : Z) (p : ProgressSnapshot) : ProgressSnapshot :=
  mkProgress total_size downloaded StDownloading (pg_speed p) None (Some now).

(** ** Reports *)

Record ProgressUpdate := mkUpdate {
  up_downloaded : Z;
  up_speed : f64;
  up_eta_secs : option f64;
}.

Record ProgressReporter := mkReporter {
  rp_min_interval : Z;
  rp_min_bytes : Z;
  rp_last_downloaded : Z;
  rp_last_at : Z;
}.

Definition PROGRESS_REPORT_INTERVAL : Z := 200 * 1000000.
Definition PROGRESS_REPORT_BYTES : Z := 256 * 1024.

Definition Reporter_new (initial_downloaded min_interval min_bytes started_at : Z) : ProgressReporter :=
  mkReporter min_interval min_bytes initial_downloaded started_at.

Definition should_report (r : ProgressReporter) (downloaded now : Z) : bool :=
  (rp_min_bytes r <=? sat_sub64 downloaded (rp_last_downloaded r)) ||
  (rp_min_interval r <=? duration_since now (rp_last_at r)).

Definition force_report (u : ProgressUpdate) (now : Z) (s : ProgressReporter * ProgressSnapshot) : ProgressReporter * ProgressSnapshot :=
  let '(r, p) := s in
  (mkReporter (rp_min_interval r) (rp_min_bytes r) (up_downloaded u) now,
   mkProgress (pg_total_size p) (up_downloaded u) (pg_state p) (up_speed u) (up_eta_secs u) (pg_start_time p)).

Definition report_if_due (u : ProgressUpdate) (now : Z) (s : ProgressReporter * ProgressSnapshot)
    : bool * (ProgressReporter * ProgressSnapshot) :=
  if should_report (fst s) (up_downloaded u) now then (true, force_report u now s) else (false, s).

(** ** Speed *)

Record ProgressSample := mkSample {
  sa_at : Z;
  sa_downloaded : Z;
}.

Record EtaEstimator := mkEta {
  eta_samples : list ProgressSample;
  eta_window : Z;
  eta_min_span : Z;
}.

Definition Eta_new (window min_span : Z) : EtaEstimator := mkEta [] window min_span.

Section Eta.
  (** [Instant::checked_sub]: the earliest instant the platform can represent. *)
  Context (earliest : Z).

Definition cutoff_of (window now : Z) : Z := if earliest <=? now - window then now - window else now.

(** The loop of [trim]. *)
Fixpoint trim_samples (cutoff : Z) (samples : list ProgressSample) : list ProgressSample :=
  match samples with
  | first :: ((second :: _) as rest) => if sa_at second <=? cutoff then trim_samples cutoff rest else samples
  | _ => samples
  end.

Definition record (downloaded now : Z) (e : EtaEstimator) : EtaEstimator :=
  let push samples :=
    mkEta (trim_samples (cutoff_of (eta_window e) now) (samples ++ [mkSample now downloaded])) (eta_window e) (eta_min_span e) in
  match last (eta_samples e) with
  | Some l =>
      if downloaded <? sa_downloaded l then push []
      else if now <=? sa_at l then
        mkEta (removelast (eta_samples e) ++ [mkSample (sa_at l) (Z.max downloaded (sa_downloaded l))]) (eta_window e) (eta_min_span e)
      else push (eta_samples e)
  | None => push (eta_samples e)
  end.

(** The bytes at the start of the window, and the instant they belong to. *)
Fixpoint window_scan (cutoff : Z) (previous : option ProgressSample) (samples : list ProgressSample) : option (f64 * Z) :=
  match samples with
  | [] => (fun s => (f64_of (sa_downloaded s), sa_at s)) <$> previous
  | s :: samples =>
      if sa_at s <=? cutoff then window_scan cutoff (Some s) samples
      else
        match previous with
        | Some before =>
            if sa_at before <? cutoff then
              let total_span := f64_secs (duration_since (sa_at s) (sa_at before)) in
              let elapsed := f64_secs (duration_since cutoff (sa_at before)) in
              let delta_bytes := f64_of (sat_sub64 (sa_downloaded s) (sa_downloaded before)) in
              Some (f64_add (f64_of (sa_downloaded before)) (f64_mul delta_bytes (f64_div elapsed total_span)), cutoff)
            else Some (f64_of (sa_downloaded before), sa_at before)
        | None => Some (f64_of (sa_downloaded s), sa_at s)
        end
  end.

Definition window_start (e : EtaEstimator) : option (f64 * Z) :=
  l ← last (eta_samples e);
  window_scan (cutoff_of (eta_window e) (sa_at l)) None (eta_samples e).

Definition speed_bytes_per_sec (e : EtaEstimator) : option f64 :=
  l ← last (eta_samples e);
  '(baseline_bytes, baseline_time) ← window_start e;
  let span := duration_since (sa_at l) baseline_time in
  if span <? eta_min_span e then None
  else
    let delta_secs := f64_secs span in
    if f64_leb delta_secs (f64_of 0) then None
    else Some (f64_div (f64_max (f64_sub (f64_of (sa_downloaded l)) baseline_bytes) (f64_of 0)) delta_secs).

Definition estimate (remaining_bytes : Z) (e : EtaEstimator) : option f64 :=
  speed ← speed_bytes_per_sec e;
  if f64_ltb speed (f64_of 1) then None else Some (f64_div (f64_of remaining_bytes) speed).
End Eta.

(** ** Properties *)

(** The end state of a task tells its result. *)
Lemma terminal_state_inv r :
  (terminal_state_for r = StCompleted <-> r = Ok tt) /\ (terminal_state_for r = StCancelled <-> r = Err Cancelled) /\
  (terminal_state_for r = StPaused <-> r = Err Paused) /\ terminal_state_for r <> StPending /\ terminal_state_for r <> StDownloading.
Proof. destruct r as [[]|[]]; naive_solver. Qed.

(** The reports of a transfer that offers an update at each of its chunks. *)
Fixpoint reports (updates : list (ProgressUpdate * Z)) (s : ProgressReporter * ProgressSnapshot) : nat :=
  match updates with
  | [] => 0
  | (u, now) :: updates => let '(due, s) := report_if_due u now s in ((if due then 1 else 0) + reports updates s)%nat
  end.

(** Bytes and instants only grow. *)
Fixpoint growing (downloaded now : Z) (updates : list (ProgressUpdate * Z)) : Prop :=
  match updates with
  | [] => True
  | (u, t) :: updates => downloaded <= up_downloaded u /\ now <= t /\ growing (up_downloaded u) t updates
  end.

Lemma growing_last updates : forall d t, growing d t updates ->
  d <= from_option (fun x => up_downloaded x.1) d (last updates) /\ t <= from_option snd t (last updates).
Proof.
  induction updates as [|[u now] updates IH]; intros d t G; [simpl; lia|]. destruct G as (G1 & G2 & G3). apply IH in G3.
  rewrite last_cons. destruct (last updates) as [[u' t']|]; simpl in *; lia.
Qed.

Lemma reports_bounded updates : forall r p d t,
  0 < rp_min_bytes r -> 0 < rp_min_interval r -> rp_last_downloaded r <= d -> rp_last_at r <= t -> growing d t updates ->
  let d' := from_option (fun x => up_downloaded x.1) d (last updates) in
  let t' := from_option snd t (last updates) in
  Z.of_nat (reports updates (r, p)) <= (d' - rp_last_downloaded r) / rp_min_bytes r + (t' - rp_last_at r) / rp_min_interval r.
Proof.
  induction updates as [|[u now] updates IH]; intros r p d t Hb Hi Hd Ht G d' t'; subst d' t'.
  { simpl. pose proof (Z.div_pos (d - rp_last_downloaded r) (rp_min_bytes r)). pose proof (Z.div_pos (t - rp_last_at r) (rp_min_interval r)). lia. }
  destruct G as (G1 & G2 & G3). cbn [reports report_if_due fst]. rewrite last_cons.
  set (d' := from_option (fun x => up_downloaded x.1) (up_downloaded u) (last updates)) in *.
  set (t' := from_option snd now (last updates)) in *.
  assert (forall A (f : ProgressUpdate * Z -> A) a, from_option f a (match last updates with Some y => Some y | None => Some (u, now) end) =
    from_option f (f (u, now)) (last updates)) as Hl by (intros A f a; by destruct (last updates)).
  rewrite !Hl. simpl fst. simpl snd. fold d' t'. destruct (growing_last _ _ _ G3) as [D1 D2]. fold d' in D1. fold t' in D2.
  unfold report_if_due. simpl fst. unfold should_report, sat_sub64, duration_since. destruct (_ || _) eqn:E.
  - unfold force_report.
    set (r' := mkReporter (rp_min_interval r) (rp_min_bytes r) (up_downloaded u) now).
    specialize (IH r' (mkProgress (pg_total_size p) (up_downloaded u) (pg_state p) (up_speed u) (up_eta_secs u) (pg_start_time p))
      (up_downloaded u) now Hb Hi (Z.le_refl _) (Z.le_refl _) G3). simpl in IH. fold d' t' in IH.
    apply orb_true_iff in E.
    assert ((d' - up_downloaded u) / rp_min_bytes r + (t' - now) / rp_min_interval r + 1 <=
      (d' - rp_last_downloaded r) / rp_min_bytes r + (t' - rp_last_at r) / rp_min_interval r) as Hstep; [|lia].
    destruct E as [E%Z.leb_le|E%Z.leb_le].
    + pose proof (Z.div_le_mono (t' - now) (t' - rp_last_at r) (rp_min_interval r) Hi ltac:(lia)).
      pose proof (Z.div_le_mono (d' - up_downloaded u + 1 * rp_min_bytes r) (d' - rp_last_downloaded r) (rp_min_bytes r) Hb ltac:(lia)) as Hm.
      rewrite Z.div_add in Hm by lia. lia.
    + pose proof (Z.div_le_mono (d' - up_downloaded u) (d' - rp_last_downloaded r) (rp_min_bytes r) Hb ltac:(lia)).
      pose proof (Z.div_le_mono (t' - now + 1 * rp_min_interval r) (t' - rp_last_at r) (rp_min_interval r) Hi ltac:(lia)) as Hm.
      rewrite Z.div_add in Hm by lia. lia.
  - specialize (IH r p (up_downloaded u) now Hb Hi ltac:(lia) ltac:(lia) G3). simpl in IH. fold d' t' in IH. lia.
Qed.

(** ** The sample window *)

(** Samples are in the order of time, and bytes do not decrease. *)
Fixpoint ordered (samples : list ProgressSample) : Prop :=
  match samples with
  | a :: ((b :: _) as rest) => sa_at a < sa_at b /\ sa_downloaded a <= sa_downloaded b /\ ordered rest
  | _ => True
  end.

Lemma ordered_tail a samples : ordered (a :: samples) -> ordered samples.
Proof. destruct samples; simpl; [done|]. tauto. Qed.

Lemma ordered_snoc samples s :
  ordered samples -> (forall l, last samples = Some l -> sa_at l < sa_at s /\ sa_downloaded l <= sa_downloaded s) ->
  ordered (samples ++ [s]).
Proof.
  induction samples as [|a [|b samples] IH]; intros Ho Hl; [done| |].
  - destruct (Hl a eq_refl). by split_and!.
  - destruct Ho as (H1 & H2 & H3). split_and!; [done|done|]. apply IH; [done|]. intros l E. apply Hl. by rewrite last_cons, E.
Qed.

Lemma ordered_last a samples l : ordered (a :: samples) -> last (a :: samples) = Some l -> sa_at a <= sa_at l.
Proof.
  revert a. induction samples as [|b samples IH]; intros a Ho E; [injection E as <-; lia|].
  destruct Ho as (H1 & _ & H3). rewrite last_cons_cons in E. specialize (IH b H3 E). lia.
Qed.

Lemma trim_cons cutoff a b samples :
  trim_samples cutoff (a :: b :: samples) = if sa_at b <=? cutoff then trim_samples cutoff (b :: samples) else a :: b :: samples.
Proof. done. Qed.

Lemma trim_ordered cutoff samples : ordered samples -> ordered (trim_samples cutoff samples).
Proof.
  induction samples as [|a [|b samples] IH]; intros Ho; [done|done|]. rewrite trim_cons. destruct (_ <=? _); [|done].
  apply IH. by apply (ordered_tail a).
Qed.

Lemma trim_last cutoff samples : last (trim_samples cutoff samples) = last samples.
Proof.
  induction samples as [|a [|b samples] IH]; [done|done|]. rewrite trim_cons. destruct (_ <=? _); [|done]. by rewrite IH, last_cons_cons.
Qed.

(** After trimming only the first sample can be outside the window. *)
Lemma trim_window cutoff samples :
  ordered samples -> Forall (fun s => cutoff < sa_at s) (tail (trim_samples cutoff samples)).
Proof.
  induction samples as [|a [|b samples] IH]; intros Ho; [constructor|constructor|]. rewrite trim_cons.
  destruct (Z.leb_spec (sa_at b) cutoff) as [|Hlt]; [apply IH; by apply (ordered_tail a)|]. simpl.
  destruct Ho as (_ & _ & Ho). clear IH a. revert b Hlt Ho. induction samples as [|c samples IH]; intros b Hlt Ho; [by repeat constructor|].
  constructor; [done|]. destruct Ho as (Hbc & _ & Ho). apply IH; [lia|done].
Qed.

Lemma removelast_ordered samples l l' :
  ordered samples -> last samples = Some l -> sa_at l' = sa_at l -> sa_downloaded l <= sa_downloaded l' ->
  ordered (removelast samples ++ [l']).
Proof.
  induction samples as [|a [|b samples] IH]; intros Ho E Ha Hd; [done|done|]. destruct Ho as (H1 & H2 & H3).
  rewrite last_cons_cons in E. specialize (IH H3 E Ha Hd). cbn [removelast].
  destruct samples as [|c samples].
  - simpl in E. injection E as <-. simpl. split_and!; [lia|lia|done].
  - by split_and!.
Qed.

Lemma removelast_at samples l l' :
  last samples = Some l -> sa_at l' = sa_at l -> map sa_at (removelast samples ++ [l']) = map sa_at samples.
Proof.
  induction samples as [|a [|b samples] IH]; intros E Ha; [done|injection E as ->; by simpl; rewrite Ha|].
  rewrite last_cons_cons in E. specialize (IH E Ha). change (sa_at a :: map sa_at (removelast (b :: samples) ++ [l']) = sa_at a :: map sa_at (b :: samples)).
  by rewrite IH.
Qed.

Section EtaProps.
  Context (earliest : Z).

(** The estimator's invariant: the samples are in order, and only the first of them is
    older than the window that ends at the last. *)
Record Eta_ok (e : EtaEstimator) : Prop := {
  et_ordered : ordered (eta_samples e);
  et_recent : forall l, last (eta_samples e) = Some l ->
    Forall (fun t => cutoff_of earliest (eta_window e) (sa_at l) < t) (tail (map sa_at (eta_samples e)));
}.

Lemma pushed_ok samples downloaded now window min_span :
  ordered (samples ++ [mkSample now downloaded]) ->
  Eta_ok (mkEta (trim_samples (cutoff_of earliest window now) (samples ++ [mkSample now downloaded])) window min_span).
Proof.
  intros Ho. split; simpl; [by apply trim_ordered|]. intros l. rewrite trim_last, last_snoc. intros [= <-]. simpl.
  pose proof (trim_window (cutoff_of earliest window now) _ Ho) as Ht.
  destruct (trim_samples _ _); simpl in *; [done|]. by rewrite Forall_map.
Qed.

Lemma record_ok downloaded now e : Eta_ok e -> Eta_ok (record earliest downloaded now e).
Proof.
  intros [Ho Hr]. unfold record. destruct (last (eta_samples e)) as [l|] eqn:El.
  - destruct (Z.ltb_spec downloaded (sa_downloaded l)); [by apply pushed_ok|].
    destruct (Z.leb_spec now (sa_at l)).
    + split; simpl; [apply (removelast_ordered _ l); simpl; [done|done|done|lia]|].
      intros l' E. rewrite last_snoc in E. injection E as <-. rewrite (removelast_at _ l) by done. exact (Hr l eq_refl).
    + apply pushed_ok, ordered_snoc; [done|]. intros l' E. rewrite El in E. injection E as <-. simpl. lia.
  - apply pushed_ok, ordered_snoc; [done|]. by rewrite El.
Qed.

(** The last sample carries the recorded bytes. *)
Lemma record_last downloaded now e :
  exists l, last (eta_samples (record earliest downloaded now e)) = Some l /\ sa_downloaded l = downloaded.
Proof.
  unfold record. destruct (last (eta_samples e)) as [l|]; [|simpl; rewrite trim_last, last_snoc; by eexists].
  destruct (Z.ltb_spec downloaded (sa_downloaded l)); [by eexists|].
  destruct (Z.leb_spec now (sa_at l)); simpl; rewrite ?trim_last, last_snoc; eexists; (split; [done|]); simpl; lia.
Qed.

Lemma window_scan_bounds cutoff samples : forall previous b t,
  ordered samples -> (forall p, previous = Some p -> sa_at p <= cutoff) -> window_scan cutoff previous samples = Some (b, t) ->
  let end_ := from_option sa_at (from_option sa_at cutoff previous) (last samples) in cutoff <= end_ -> cutoff <= t <= end_.
Proof.
  induction samples as [|s samples IH]; intros previous b t Ho Hp E end_ Hc; subst end_; simpl in E.
  - destruct previous as [p|]; [|done]. injection E as _ <-. simpl in *. lia.
  - destruct (Z.leb_spec (sa_at s) cutoff) as [Hle|Hgt].
    + apply IH in E; [|by apply (ordered_tail s)|by intros p [= <-]|]; rewrite last_cons in *; by destruct (last samples).
    + assert (sa_at s <= from_option sa_at (from_option sa_at cutoff previous) (last (s :: samples))) as Hl.
      { destruct (last (s :: samples)) as [l|] eqn:El; [by apply (ordered_last s samples l)|].
        rewrite last_cons in El. by destruct (last samples). }
      destruct previous as [p|]; [|injection E as _ <-; lia]. specialize (Hp p eq_refl).
      destruct (Z.ltb_spec (sa_at p) cutoff); injection E as _ <-; lia.
Qed.

Lemma record_spans downloaded now e :
  eta_window (record earliest downloaded now e) = eta_window e /\ eta_min_span (record earliest downloaded now e) = eta_min_span e.
Proof. unfold record. destruct (last _); [|done]. destruct (_ <? _); [done|]. by destruct (_ <=? _). Qed.

Lemma recorded_ok reports : forall e, Eta_ok e ->
  let e' := fold_left (fun e r => record earliest r.1 r.2 e) reports e in
  Eta_ok e' /\ eta_window e' = eta_window e /\ eta_min_span e' = eta_min_span e.
Proof.
  induction reports as [|[d now] reports IH]; intros e He; simpl; [done|].
  destruct (record_spans d now e) as [<- <-]. apply IH. by apply record_ok.
Qed.

(** A speed estimate rests on the recent past.  However the samples came in --
    repeated instants, a byte count that fell back after a retry -- they are kept in
    the order of time, at most one of them older than the window; a speed is the bytes
    since the start of the window, divided by a span of at least [min_span] and at most
    the window; and the latest report is the last sample. *)
Theorem speed_over_window reports window min_span e l :
  0 <= window -> e = fold_left (fun e r => record earliest r.1 r.2 e) reports (Eta_new window min_span) ->
  last (eta_samples e) = Some l -> earliest <= sa_at l - window ->
  ordered (eta_samples e) /\ Forall (fun t => sa_at l - window < t) (tail (map sa_at (eta_samples e))) /\
  (forall d, last reports = Some d -> sa_downloaded l = d.1) /\
  (forall speed, speed_bytes_per_sec earliest e = Some speed ->
   exists bytes t, speed = f64_div (f64_max (f64_sub (f64_of (sa_downloaded l)) bytes) (f64_of 0)) (f64_secs (sa_at l - t)) /\
     min_span <= sa_at l - t <= window).
Proof.
  intros Hw He El Hr.
  assert (Eta_ok e /\ eta_window e = window /\ eta_min_span e = min_span) as ([Ho Hf] & Ew & Em)
    by (subst e; by apply (recorded_ok reports (Eta_new window min_span))).
  assert (cutoff_of earliest window (sa_at l) = sa_at l - window) as Ec.
  { unfold cutoff_of. by destruct (Z.leb_spec earliest (sa_at l - window)); [|lia]. }
  split; [done|]. split; [specialize (Hf l El); by rewrite Ew, Ec in Hf|].
  split.
  - intros d Ed. destruct reports as [|x reports] using rev_ind; [done|]. rewrite last_snoc in Ed. injection Ed as ->.
    rewrite fold_left_app in He. simpl in He. subst e. destruct (record_last d.1 d.2 (fold_left (fun e r => record earliest r.1 r.2 e) reports (Eta_new window min_span)))
      as (l' & E' & Hd). rewrite El in E'. by injection E' as <-.
  - intros speed. unfold speed_bytes_per_sec, window_start. rewrite El. simpl. rewrite Ew, Ec.
    destruct (window_scan (sa_at l - window) None (eta_samples e)) as [[bytes t]|] eqn:Es; [|done]. simpl.
    apply window_scan_bounds in Es; [|done|done|rewrite El; simpl; lia]. rewrite El in Es. simpl in Es. unfold duration_since.
    rewrite Z.max_r by lia. destruct (Z.ltb_spec (sa_at l - t) (eta_min_span e)); [done|]. destruct (f64_leb _ _); [done|].
    intros [= <-]. exists bytes, t. split; [done|]. lia.
Qed.
End EtaProps.

(** Three reports, a second apart and then two: the speed over a window of two seconds
    is 1500 bytes per second. *)
Definition demo_eta : EtaEstimator :=
  fold_left (fun e r => record 0 r.1 r.2 e) [(0, 0); (1000, 1 * NANOS_PER_SEC); (4000, 3 * NANOS_PER_SEC)]
    (Eta_new (2 * NANOS_PER_SEC) NANOS_PER_SEC).

Lemma speed_over_window_witness :
  speed_bytes_per_sec 0 demo_eta = Some (f64_of 1500) /\ Forall (fun t => 1 * NANOS_PER_SEC < t) (tail (map sa_at (eta_samples demo_eta))).
Proof.
  split; [by vm_compute|].
  exact (proj1 (proj2 (speed_over_window 0 _ (2 * NANOS_PER_SEC) NANOS_PER_SEC demo_eta (mkSample (3 * NANOS_PER_SEC) 4000)
    ltac:(by vm_compute) eq_refl ltac:(by vm_compute) ltac:(by vm_compute)))).
Defined.
