(* ===== verification/IpPolicy.v ===== *)
(** * Choosing an address ([src/network/curl/ip_policy.rs])

    The candidate addresses of an origin, what is known of each of them, and the choice
    of the address a transfer is pinned to.  Instants are nanoseconds.  [f64::powf], whose
    precision the standard library leaves open, is an argument of the definitions that
    use it. *)

From S2P Require Import Prelude RustStr Errors Net Float64.

Record PoolKey := mkPoolKey {
  pk_origin : rstr;
  pk_proxy : option rstr;
}.

#[export] Instance PoolKey_eq_dec : EqDecision PoolKey.
Proof. solve_decision. Defined.

#[export] Instance PoolKey_countable : Countable PoolKey.
Proof. by refine (inj_countable' (fun k => (pk_origin k, pk_proxy k)) (fun k => mkPoolKey k.1 k.2) _); intros []. Defined.

Definition PREFERRED_SET : nat := 2.
Definition MIN_SAMPLES : Z := 3.
Definition MIN_WINDOW : Z := 200 * 1000000.
Definition MIN_SAMPLE_BYTES : Z := 64 * 1024.
Definition MAX_BACKPRESSURE_RATIO : f64 := f64_lit 1 10.
Definition EWMA_ALPHA : f64 := f64_lit 3 10.
Definition SAMPLE_TTL : Z := 60 * NANOS_PER_SEC.
Definition SAMPLE_HALF_LIFE : Z := 30 * NANOS_PER_SEC.
Definition SWITCH_GAP : f64 := f64_lit 1 4.
Definition MIN_DWELL : Z := 5 * NANOS_PER_SEC.
Definition EXPLORE_PERIOD : Z := 16.
Definition CONNECT_FAILURE_COOLDOWN : Z := 3 * NANOS_PER_SEC.
Definition REMOVED_HISTORY : Z := 120 * NANOS_PER_SEC.

Inductive AttemptOutcome := Completed | Failed | ConnectFailed | AttemptCancelled.

#[export] Instance AttemptOutcome_eq_dec : EqDecision AttemptOutcome.
Proof. solve_decision. Defined.

Record TransferSample := mkTransferSample {
  ts_bytes : Z;
  ts_window : Z;
  ts_backpressure : Z;
}.

Inductive SelectionReason := Single | Coverage | Preferred | Exploration | Fallback.

Record Selection := mkSelection {
  sel_address : IpAddr;
  sel_generation : Z;
  sel_reason : SelectionReason;
}.

Inductive SelectionError := Expired | NoCandidates.

Record CandidateSet := mkCandidateSet {
  cs_host : rstr;
  cs_port : Z;
  cs_addresses : list IpAddr;
  cs_valid_until : Z;
}.

Record Candidate := mkCandidate {
  ca_address : IpAddr;
  ca_generation : Z;
  ca_present : bool;
  ca_last_seen : Z;
  ca_in_flight : nat;
  ca_attempts : Z;
  ca_cooldown_until : option Z;
  ca_rate : option f64;
  ca_samples : Z;
  ca_polluted : Z;
  ca_updated_at : option Z;
  ca_successes : Z;
  ca_failures : Z;
}.

Definition Candidate_new (address : IpAddr) (generation now : Z) : Candidate :=
  mkCandidate address generation true now 0 0 None None 0 0 None 0 0.

Definition is_available (now : Z) (c : Candidate) : bool :=
  ca_present c && match ca_cooldown_until c with Some until => until <=? now | None => true end.

Definition is_proven (c : Candidate) : bool := MIN_SAMPLES <=? ca_samples c.

Record Origin := mkOrigin {
  or_generation : Z;
  or_valid_until : Z;
  or_candidates : list Candidate;
  or_preferred : option IpAddr;
  or_preferred_since : option Z;
}.

Definition Origin_new (now : Z) : Origin := mkOrigin 0 now [] None None.

Record IpPolicy := mkPolicy {
  ip_origins : gmap PoolKey Origin;
  ip_selections : Z;
  ip_polluted_windows : Z;
}.

Definition IpPolicy_new : IpPolicy := mkPolicy ∅ 0 0.

(** ** Iterator and slice operations *)

Definition candidate (address : IpAddr) (cs : list Candidate) : option Candidate :=
  List.find (fun c => bool_decide (ca_address c = address)) cs.

(** What is done to [candidate_mut(address)]. *)
Fixpoint candidate_mut (address : IpAddr) (f : Candidate -> Candidate) (cs : list Candidate) : list Candidate :=
  match cs with
  | [] => []
  | c :: cs => if bool_decide (ca_address c = address) then f c :: cs else c :: candidate_mut address f cs
  end.

(** The stable [sort_by]. *)
Fixpoint insert_by {A} (le : A -> A -> bool) (x : A) (l : list A) : list A :=
  match l with
  | [] => [x]
  | y :: l' => if le x y then x :: l else y :: insert_by le x l'
  end.

Definition sort_by {A} (le : A -> A -> bool) (l : list A) : list A := foldr (insert_by le) [] l.

(** [min_by_key] answers the first minimum, [max_by_key] the last maximum. *)
Definition min_by_key {A} (key : A -> Z) (l : list A) : option A :=
  fold_left (fun best x => match best with Some b => if key x <? key b then Some x else best | None => Some x end) l None.

Definition max_by_key {A} (key : A -> Z) (l : list A) : option A :=
  fold_left (fun best x => match best with Some b => if key b <=? key x then Some x else best | None => Some x end) l None.

(** [iter().position(..).unwrap_or(usize::MAX)] *)
Definition position_key (addresses : list IpAddr) (c : Candidate) : Z :=
  match list_find (fun a => a = ca_address c) addresses with
  | Some (i, _) => Z.of_nat i
  | None => u64_max
  end.

(** ** A DNS answer *)

Definition set_present (present : bool) (c : Candidate) : Candidate :=
  mkCandidate (ca_address c) (ca_generation c) present (ca_last_seen c) (ca_in_flight c) (ca_attempts c) (ca_cooldown_until c)
    (ca_rate c) (ca_samples c) (ca_polluted c) (ca_updated_at c) (ca_successes c) (ca_failures c).

Definition seen (generation now : Z) (c : Candidate) : Candidate :=
  mkCandidate (ca_address c) generation true now (ca_in_flight c) (ca_attempts c) (ca_cooldown_until c)
    (ca_rate c) (ca_samples c) (ca_polluted c) (ca_updated_at c) (ca_successes c) (ca_failures c).

Definition observe_address (generation now : Z) (cs : list Candidate) (address : IpAddr) : list Candidate :=
  match candidate address cs with
  | Some _ => candidate_mut address (seen generation now) cs
  | None => cs ++ [Candidate_new address generation now]
  end.

Definition retained (now : Z) (c : Candidate) : bool :=
  ca_present c || (0 <? ca_in_flight c)%nat || (duration_since now (ca_last_seen c) <? REMOVED_HISTORY).

Definition Origin_observe (set : CandidateSet) (now : Z) (o : Origin) : Origin :=
  let addresses := cs_addresses set in
  let offered := map ca_address (List.filter ca_present (or_candidates o)) in
  let same_set := (length offered =? length addresses)%nat && forallb (fun a => bool_decide (a ∈ addresses)) offered in
  let generation := if same_set then or_generation o else or_generation o ⊕ 1 in
  let folded := fold_left (observe_address generation now) addresses (map (set_present false) (or_candidates o)) in
  let sorted := sort_by (fun c d => position_key addresses c <=? position_key addresses d) folded in
  let removed := match or_preferred o with Some address => negb (bool_decide (address ∈ addresses)) | None => false end in
  mkOrigin generation (cs_valid_until set) (List.filter (retained now) sorted)
    (if removed then None else or_preferred o) (if removed then None else or_preferred_since o).

Definition observe (pool : PoolKey) (set : CandidateSet) (now : Z) (p : IpPolicy) : IpPolicy :=
  mkPolicy (<[pool := Origin_observe set now (default (Origin_new now) (ip_origins p !! pool))]> (ip_origins p))
    (ip_selections p) (ip_polluted_windows p).

(** ** The choice *)

Section Policy.
  (** [f64::powf] *)
  Context (powf : f64 -> f64 -> f64).

Definition effective_rate (now : Z) (c : Candidate) : option f64 :=
  rate ← ca_rate c;
  updated_at ← ca_updated_at c;
  let age := duration_since now updated_at in
  if SAMPLE_TTL <=? age then None
  else
    let halvings := f64_div (f64_secs age) (f64_secs SAMPLE_HALF_LIFE) in
    Some (f64_mul rate (powf (f64_lit 1 2) halvings)).

(** The proven addresses of the answer, the fastest first. *)
Definition ranked (now : Z) (cs : list Candidate) : list (IpAddr * f64) :=
  sort_by (fun l r => f64_total_le r.2 l.2)
    (omap (fun c => (fun rate => (ca_address c, rate)) <$> effective_rate now c)
      (List.filter (fun c => ca_present c && is_proven c) cs)).

Definition set_preferred (address : option IpAddr) (since : option Z) (o : Origin) : Origin :=
  mkOrigin (or_generation o) (or_valid_until o) (or_candidates o) address since.

Definition update_preferred (now : Z) (o : Origin) : Origin :=
  match ranked now (or_candidates o) with
  | [] => set_preferred None None o
  | (best, best_rate) :: _ =>
      match or_preferred o with
      | None => set_preferred (Some best) (Some now) o
      | Some current =>
          if bool_decide (current = best) then o
          else
            let current_rate := candidate current (or_candidates o) ≫= effective_rate now in
            let settled := match or_preferred_since o with Some since => MIN_DWELL <=? duration_since now since | None => true end in
            let clearly_better :=
              match current_rate with
              | Some rate => f64_ltb (f64_mul rate (f64_add (f64_of 1) SWITCH_GAP)) best_rate
              | None => true
              end in
            if settled && clearly_better then set_preferred (Some best) (Some now) o else o
      end
  end.

Definition preferred_set (now : Z) (o : Origin) : list IpAddr :=
  let set := take PREFERRED_SET (map fst (ranked now (or_candidates o))) in
  match or_preferred o with
  | Some preferred => take PREFERRED_SET (preferred :: List.filter (fun a => negb (bool_decide (a = preferred))) set)
  | None => set
  end.

Definition explore_candidate (now : Z) (preferred : list IpAddr) (cs : list Candidate) : option IpAddr :=
  ca_address <$>
    max_by_key (fun c => if ca_samples c =? 0 then 2 else match effective_rate now c with None => 1 | Some _ => 0 end)
      (List.filter (fun c => ca_present c && negb (bool_decide (ca_address c ∈ preferred)) && is_available now c) cs).

Definition pick (now : Z) (exploration_due : bool) (o : Origin) : option (IpAddr * SelectionReason) :=
  let cs := or_candidates o in
  match List.filter ca_present cs with
  | [] => None
  | [c] => Some (ca_address c, Single)
  | present =>
      match List.find (fun c => ca_present c && (ca_attempts c =? 0) && (ca_samples c =? 0)) cs with
      | Some c => Some (ca_address c, Coverage)
      | None =>
          let preferred :=
            List.filter (fun a => match candidate a cs with Some c => is_available now c | None => false end) (preferred_set now o) in
          let eligible :=
            match preferred with
            | [] => map ca_address (List.filter (is_available now) cs)
            | _ => preferred
            end in
          match eligible with
          | [] =>
              c ← min_by_key (fun c => match ca_cooldown_until c with Some until => duration_since until now | None => 0 end) present;
              Some (ca_address c, Fallback)
          | _ =>
              match (if exploration_due then explore_candidate now eligible cs else None) with
              | Some address => Some (address, Exploration)
              | None =>
                  address ← min_by_key (fun a => match candidate a cs with Some c => Z.of_nat (ca_in_flight c) | None => u64_max end) eligible;
                  Some (address, Preferred)
              end
          end
      end
  end.

(** ** Reservations *)

Definition reserve (c : Candidate) : Candidate :=
  mkCandidate (ca_address c) (ca_generation c) (ca_present c) (ca_last_seen c) (S (ca_in_flight c)) (ca_attempts c ⊕ 1)
    (ca_cooldown_until c) (ca_rate c) (ca_samples c) (ca_polluted c) (ca_updated_at c) (ca_successes c) (ca_failures c).

Definition with_origin (pool : PoolKey) (o : Origin) (p : IpPolicy) : IpPolicy :=
  mkPolicy (<[pool := o]> (ip_origins p)) (ip_selections p) (ip_polluted_windows p).

Definition with_candidates (cs : list Candidate) (o : Origin) : Origin :=
  mkOrigin (or_generation o) (or_valid_until o) cs (or_preferred o) (or_preferred_since o).

(** [select]; [None] is the panic of its [expect]. *)
Definition select (pool : PoolKey) (now : Z) (p : IpPolicy) : option (result Selection SelectionError * IpPolicy) :=
  match ip_origins p !! pool with
  | None => Some (Err NoCandidates, p)
  | Some o =>
      if negb (existsb ca_present (or_candidates o)) then Some (Err NoCandidates, p)
      else if or_valid_until o <=? now then Some (Err Expired, p)
      else
        let selections := ip_selections p ⊕ 1 in
        let exploration_due := selections mod EXPLORE_PERIOD =? 0 in
        let o := update_preferred now o in
        let p := mkPolicy (<[pool := o]> (ip_origins p)) selections (ip_polluted_windows p) in
        match pick now exploration_due o with
        | None => Some (Err NoCandidates, p)
        | Some (address, reason) =>
            c ← candidate address (or_candidates o);
            Some (Ok (mkSelection address (ca_generation c) reason),
                  with_origin pool (with_candidates (candidate_mut address reserve (or_candidates o)) o) p)
        end
  end.

Definition settled (outcome : AttemptOutcome) (current : bool) (now : Z) (c : Candidate) : Candidate :=
  let failed := match outcome with ConnectFailed | Failed => true | _ => false end in
  let parked := match outcome with ConnectFailed => current | _ => false end in
  mkCandidate (ca_address c) (ca_generation c) (ca_present c) (ca_last_seen c) (ca_in_flight c - 1) (ca_attempts c)
    (if parked then Some (now + CONNECT_FAILURE_COOLDOWN) else ca_cooldown_until c)
    (ca_rate c) (ca_samples c) (ca_polluted c) (ca_updated_at c)
    (match outcome with Completed => ca_successes c ⊕ 1 | _ => ca_successes c end)
    (if failed then ca_failures c ⊕ 1 else ca_failures c).

Definition settle (pool : PoolKey) (address : IpAddr) (generation : Z) (outcome : AttemptOutcome) (now : Z) (p : IpPolicy) : IpPolicy :=
  match ip_origins p !! pool with
  | None => p
  | Some o =>
      with_origin pool
        (with_candidates (candidate_mut address (settled outcome (generation =? or_generation o) now) (or_candidates o)) o) p
  end.

(** ** Samples *)

Definition sample_is_usable (s : TransferSample) : bool :=
  if (ts_window s <? MIN_WINDOW) || (ts_bytes s <? MIN_SAMPLE_BYTES) then false
  else f64_leb (f64_secs (ts_backpressure s)) (f64_mul (f64_secs (ts_window s)) MAX_BACKPRESSURE_RATIO).

Definition polluted (c : Candidate) : Candidate :=
  mkCandidate (ca_address c) (ca_generation c) (ca_present c) (ca_last_seen c) (ca_in_flight c) (ca_attempts c) (ca_cooldown_until c)
    (ca_rate c) (ca_samples c) (wrap32 (ca_polluted c + 1)) (ca_updated_at c) (ca_successes c) (ca_failures c).

Definition sampled (s : TransferSample) (now : Z) (c : Candidate) : Candidate :=
  let rate := f64_div (f64_of (ts_bytes s)) (f64_secs (ts_window s)) in
  let smoothed :=
    match effective_rate now c with
    | Some previous => f64_add (f64_mul EWMA_ALPHA rate) (f64_mul (f64_sub (f64_of 1) EWMA_ALPHA) previous)
    | None => rate
    end in
  mkCandidate (ca_address c) (ca_generation c) (ca_present c) (ca_last_seen c) (ca_in_flight c) (ca_attempts c) (ca_cooldown_until c)
    (Some smoothed) (wrap32 (ca_samples c + 1)) (ca_polluted c) (Some now) (ca_successes c) (ca_failures c).

Definition record_sample (pool : PoolKey) (address : IpAddr) (s : TransferSample) (now : Z) (p : IpPolicy) : bool * IpPolicy :=
  match ip_origins p !! pool with
  | None => (false, p)
  | Some o =>
      match candidate address (or_candidates o) with
      | None => (false, p)
      | Some _ =>
          let update f := with_candidates (candidate_mut address f (or_candidates o)) o in
          if sample_is_usable s then (true, with_origin pool (update (sampled s now)) p)
          else (false, mkPolicy (<[pool := update polluted]> (ip_origins p)) (ip_selections p) (ip_polluted_windows p ⊕ 1))
      end
  end.
End Policy.
