(* ===== verification/IpPolicyProps.v ===== *)
(** * What the address policy guarantees

    The table of an origin is a partial map from addresses to candidates; every
    operation is described by what it does to the lookup of an address.  Reservations
    are counted exactly, a choice is made from the latest answer and avoids parked
    addresses, and a fresh answer is covered in its own order. *)

From S2P Require Import Prelude RustStr Errors Float64 Net IpPolicy.

(** ** Lookups *)

Definition addresses (cs : list Candidate) : list IpAddr := map ca_address cs.

Lemma candidate_Some a cs c : candidate a cs = Some c -> c ∈ cs /\ ca_address c = a.
Proof. intros [H1 H2%bool_decide_eq_true]%find_some. by split; [apply list_elem_of_In|]. Qed.

Lemma candidate_None a cs : candidate a cs = None <-> a ∉ addresses cs.
Proof.
  unfold addresses. induction cs as [|c cs IH]; simpl; [by split; [inversion 2|]|].
  rewrite not_elem_of_cons, <- IH. case_bool_decide; naive_solver.
Qed.

Lemma candidate_elem cs c : NoDup (addresses cs) -> c ∈ cs -> candidate (ca_address c) cs = Some c.
Proof.
  induction cs as [|d cs IH]; intros Hn Hc; [by inversion Hc|]. apply NoDup_cons in Hn as [Hd Hn]. simpl.
  apply elem_of_cons in Hc as [->|Hc]; [by rewrite bool_decide_true|]. rewrite bool_decide_false; [by apply IH|].
  intros E. apply Hd. rewrite E. apply list_elem_of_fmap. by exists c.
Qed.

Lemma candidate_app a cs ds : candidate a (cs ++ ds) = match candidate a cs with Some c => Some c | None => candidate a ds end.
Proof. induction cs as [|c cs IH]; simpl; [done|]. by case_bool_decide. Qed.

Lemma candidate_map a f cs : (forall c, ca_address (f c) = ca_address c) -> candidate a (map f cs) = f <$> candidate a cs.
Proof. intros Hf. induction cs as [|c cs IH]; simpl; [done|]. rewrite Hf. by case_bool_decide. Qed.

Lemma candidate_mut_addresses a f cs : (forall c, ca_address (f c) = ca_address c) -> addresses (candidate_mut a f cs) = addresses cs.
Proof. intros Hf. induction cs as [|c cs IH]; simpl; [done|]. case_bool_decide; simpl; [by rewrite Hf|by f_equal]. Qed.

Lemma candidate_mut_lookup a b f cs : (forall c, ca_address (f c) = ca_address c) ->
  candidate a (candidate_mut b f cs) = if bool_decide (a = b) then f <$> candidate a cs else candidate a cs.
Proof.
  intros Hf. unfold candidate. induction cs as [|c cs IH]; simpl; [by case_bool_decide|].
  destruct (bool_decide_reflect (ca_address c = b)) as [<-|Hcb]; simpl; rewrite ?Hf, ?IH;
    repeat case_bool_decide; simplify_eq; done.
Qed.

Lemma candidate_perm a cs ds : cs ≡ₚ ds -> NoDup (addresses cs) -> candidate a cs = candidate a ds.
Proof.
  intros Hp Hn. assert (NoDup (addresses ds)) as Hd by (by unfold addresses; rewrite <- Hp).
  destruct (candidate a cs) as [c|] eqn:E.
  - apply candidate_Some in E as [Hc <-]. symmetry. apply candidate_elem; [done|]. by rewrite <- Hp.
  - symmetry. apply candidate_None in E. apply candidate_None. unfold addresses in *. by rewrite <- Hp.
Qed.

Lemma candidate_filter a P cs : NoDup (addresses cs) ->
  candidate a (List.filter P cs) = match candidate a cs with Some c => if P c then Some c else None | None => None end.
Proof.
  induction cs as [|c cs IH]; intros Hn; [done|]. apply NoDup_cons in Hn as [Hc Hn]. simpl. rewrite bool_decide_decide.
  destruct (base.decide (ca_address c = a)) as [<-|Ha].
  - destruct (P c) eqn:E; simpl; [by rewrite bool_decide_true|]. rewrite IH by done. by apply candidate_None in Hc as ->.
  - destruct (P c); simpl; [rewrite bool_decide_false by done|]; by apply IH.
Qed.

Lemma filter_addresses P cs : NoDup (addresses cs) -> NoDup (addresses (List.filter P cs)).
Proof.
  induction cs as [|c cs IH]; intros Hn; [constructor|]. apply NoDup_cons in Hn as [Hc Hn]. simpl. destruct (P c); [|by apply IH].
  apply NoDup_cons; split; [|by apply IH]. intros (d & E & Hd)%list_elem_of_fmap. apply Hc. rewrite E.
  apply list_elem_of_fmap. exists d. split; [done|]. apply list_elem_of_In, filter_In in Hd as [Hd _]. by apply list_elem_of_In.
Qed.

Lemma insert_by_perm {A} le (x : A) l : insert_by le x l ≡ₚ x :: l.
Proof. induction l as [|y l IH]; simpl; [done|]. destruct (le x y); [done|]. rewrite IH. apply perm_swap. Qed.

Lemma sort_by_perm {A} le (l : list A) : sort_by le l ≡ₚ l.
Proof. induction l as [|x l IH]; simpl; [done|]. by rewrite insert_by_perm, IH. Qed.

Lemma min_by_key_spec {A} (key : A -> Z) l : l <> [] -> exists x, min_by_key key l = Some x /\ x ∈ l.
Proof.
  unfold min_by_key. destruct l as [|x l]; [done|]. intros _. simpl.
  assert (forall best, best ∈ x :: l -> exists y,
    fold_left (fun best x => match best with Some b => if key x <? key b then Some x else best | None => Some x end) l (Some best) = Some y /\ y ∈ x :: l) as H;
    [|by apply H; left]. clear -l. assert (l ⊆ x :: l) as Hs by set_solver. generalize dependent (x :: l). intros full Hs.
  induction l as [|z l IH]; intros best Hb; simpl; [by exists best|]. destruct (key z <? key best); apply IH; set_solver.
Qed.

Lemma max_by_key_elem {A} (key : A -> Z) l x : max_by_key key l = Some x -> x ∈ l.
Proof.
  unfold max_by_key. assert (forall best : option A, (forall b, best = Some b -> b ∈ l) -> forall l', l' ⊆ l ->
    fold_left (fun best x => match best with Some b => if key b <=? key x then Some x else best | None => Some x end) l' best = Some x -> x ∈ l) as H;
    [|by apply (H None)].
  intros best Hb l' Hl. revert best Hb. induction l' as [|z l' IH]; intros best Hb; simpl; [apply Hb|].
  apply IH; [set_solver|]. destruct best as [b|]; [destruct (key b <=? key z)|]; intros ? [= <-]; set_solver.
Qed.

(** ** A DNS answer *)

(** What an answer makes of what is known of an address. *)
Definition observed (generation now : Z) (offered : bool) (a : IpAddr) (known : option Candidate) : option Candidate :=
  if offered then Some (match known with Some c => seen generation now c | None => Candidate_new a generation now end)
  else c ← known; if retained now (set_present false c) then Some (set_present false c) else None.

Lemma observe_address_lookup generation now cs a b :
  candidate b (observe_address generation now cs a) =
  if bool_decide (b = a) then Some (match candidate a cs with Some c => seen generation now c | None => Candidate_new a generation now end)
  else candidate b cs.
Proof.
  unfold observe_address. destruct (candidate a cs) as [c|] eqn:E.
  - rewrite candidate_mut_lookup by done. case_bool_decide; [subst; by rewrite E|done].
  - rewrite candidate_app. case_bool_decide as Hb; [subst; rewrite E; simpl; by rewrite bool_decide_true|].
    destruct (candidate b cs); [done|]. simpl. by rewrite bool_decide_false.
Qed.

Lemma observe_address_nodup generation now cs a :
  NoDup (addresses cs) -> NoDup (addresses (observe_address generation now cs a)).
Proof.
  intros Hn. unfold observe_address. destruct (candidate a cs) eqn:E; [by rewrite candidate_mut_addresses|].
  unfold addresses. rewrite map_app. apply NoDup_app. split_and!; [done| |apply NoDup_singleton].
  apply candidate_None in E. intros x Hx ->%list_elem_of_singleton. done.
Qed.

Lemma observe_fold generation now offered : forall cs, NoDup (addresses cs) ->
  let folded := fold_left (observe_address generation now) offered cs in
  NoDup (addresses folded) /\
  forall a, candidate a folded =
    if bool_decide (a ∈ offered)
    then Some (match candidate a cs with Some c => seen generation now c | None => Candidate_new a generation now end)
    else candidate a cs.
Proof.
  induction offered as [|b offered IH]; intros cs Hn; cbn [fold_left]; [split; [done|]; intros a; by rewrite bool_decide_false by apply not_elem_of_nil|].
  destruct (IH (observe_address generation now cs b) (observe_address_nodup _ _ _ _ Hn)) as [H1 H2]. split; [done|].
  intros a. rewrite H2, observe_address_lookup. destruct (base.decide (a = b)) as [->|Hab].
  - rewrite (bool_decide_true (b ∈ b :: offered)), (bool_decide_true (b = b)) by (by try left). case_bool_decide; [|done]. by destruct (candidate b cs).
  - rewrite (bool_decide_false (a = b)) by done. assert (a ∈ b :: offered <-> a ∈ offered) as Hab'.
    { rewrite elem_of_cons. naive_solver. }
    by rewrite (bool_decide_ext _ _ Hab').
Qed.

Definition next_generation (set : CandidateSet) (o : Origin) : Z := or_generation (Origin_observe set 0 o).

Lemma Origin_observe_lookup set now o : NoDup (addresses (or_candidates o)) ->
  NoDup (addresses (or_candidates (Origin_observe set now o))) /\
  forall a, candidate a (or_candidates (Origin_observe set now o)) =
    observed (next_generation set o) now (bool_decide (a ∈ cs_addresses set)) a (candidate a (or_candidates o)).
Proof.
  intros Hn. unfold Origin_observe, next_generation. simpl. set (g := if _ : bool then _ else _).
  assert (addresses (map (set_present false) (or_candidates o)) = addresses (or_candidates o)) as Ea
    by (unfold addresses; rewrite map_map; done).
  destruct (observe_fold g now (cs_addresses set) (map (set_present false) (or_candidates o))) as [H1 H2]; [by rewrite Ea|].
  set (folded := fold_left _ _ _) in *. set (le := fun c d => _). pose proof (sort_by_perm le folded) as Hp.
  assert (NoDup (addresses (sort_by le folded))) as H3 by (unfold addresses; by rewrite Hp).
  split; [by apply filter_addresses|]. intros a. rewrite candidate_filter, (candidate_perm a _ folded Hp H3), H2 by done.
  rewrite candidate_map by done. unfold observed. case_bool_decide; [|by destruct (candidate a (or_candidates o))].
  by destruct (candidate a (or_candidates o)).
Qed.

(** ** The invariant of an origin

    [answer] is the latest DNS answer, [flight] the reservations that are out, [n] a
    bound on the reservations ever made. *)
Record Origin_ok (n : Z) (answer : CandidateSet) (flight : IpAddr -> nat) (o : Origin) : Prop := {
  oo_bound : 0 <= n;
  oo_nodup : NoDup (addresses (or_candidates o));
  oo_valid : or_valid_until o = cs_valid_until answer;
  oo_present : forall a, a ∈ cs_addresses answer <-> exists c, candidate a (or_candidates o) = Some c /\ ca_present c = true;
  oo_generation : forall a c, candidate a (or_candidates o) = Some c -> ca_present c = true -> ca_generation c = or_generation o;
  oo_preferred : forall a, or_preferred o = Some a -> a ∈ cs_addresses answer;
  oo_flight : forall a, flight a = from_option ca_in_flight 0%nat (candidate a (or_candidates o));
  oo_attempts : n < 2 ^ 64 -> forall a c, candidate a (or_candidates o) = Some c ->
    0 <= ca_attempts c <= n /\ (ca_attempts c = 0 -> ca_in_flight c = 0%nat /\ ca_cooldown_until c = None);
}.

Lemma Origin_ok_le n n' answer flight o : n <= n' -> Origin_ok n answer flight o -> Origin_ok n' answer flight o.
Proof. intros Hn []. split; try done; [lia|]. intros H a c E. destruct (oo_attempts0 ltac:(lia) a c E). split; [lia|done]. Qed.

Lemma observe_ok n answer flight o set now :
  Origin_ok n answer flight o -> Origin_ok n set flight (Origin_observe set now o).
Proof.
  intros [Hb Hn Hv Hp Hg Hr Hf Ha]. destruct (Origin_observe_lookup set now o Hn) as [Hn' Hl]. split; [done|done|done| | | | |].
  - intros a. rewrite Hl. unfold observed. case_bool_decide as Ho; (split; [intros H|intros (c & E & Hc)]); try done.
    + by destruct (candidate a (or_candidates o)); eexists.
    + destruct (candidate a (or_candidates o)) as [d|]; [|done]. simpl in E. destruct (retained now _); [|done]. by injection E as <-.
  - intros a c E Hc. rewrite Hl in E. unfold observed in E. case_bool_decide.
    + injection E as <-. by destruct (candidate a (or_candidates o)).
    + destruct (candidate a (or_candidates o)) as [d|]; [|done]. simpl in E. destruct (retained now _); [|done]. by injection E as <-.
  - intros a E. unfold Origin_observe in E. simpl in E. destruct (or_preferred o) as [b|]; [|done]. case_bool_decide; [|done]. by injection E as <-.
  - intros a. rewrite Hl, Hf. unfold observed. destruct (candidate a (or_candidates o)) as [c|]; [|by case_bool_decide].
    case_bool_decide; [done|]. simpl. unfold retained, set_present. simpl. destruct (ca_in_flight c); [|done]. simpl. by destruct (_ <? _).
  - intros H a c E. rewrite Hl in E. unfold observed in E. destruct (candidate a (or_candidates o)) as [d|] eqn:Ed.
    + destruct (Ha H a d Ed) as [H1 H2]. case_bool_decide; [by injection E as <-|]. simpl in E. destruct (retained now _); [|done]. by injection E as <-.
    + case_bool_decide; [|done]. injection E as <-. by simpl.
Qed.

Lemma new_ok n set now : 0 <= n -> Origin_ok n set (fun _ => 0%nat) (Origin_observe set now (Origin_new now)).
Proof.
  intros Hb. apply (observe_ok n (mkCandidateSet [] 0 [] now)). split; try done; [constructor|].
  intros a. split; [by intros ?%not_elem_of_nil|]. by intros (c & E & _).
Qed.

(** An update of one candidate that leaves its place in the answer alone. *)
Record Keeps (f : Candidate -> Candidate) : Prop := {
  kp_address : forall c, ca_address (f c) = ca_address c;
  kp_present : forall c, ca_present (f c) = ca_present c;
  kp_generation : forall c, ca_generation (f c) = ca_generation c;
}.

Lemma mutate_ok n n' answer flight flight' o b f :
  Origin_ok n answer flight o -> n <= n' -> Keeps f ->
  (forall a, flight' a = if bool_decide (a = b) then from_option (fun c => ca_in_flight (f c)) 0%nat (candidate b (or_candidates o)) else flight a) ->
  (n' < 2 ^ 64 -> forall c, candidate b (or_candidates o) = Some c ->
    0 <= ca_attempts (f c) <= n' /\ (ca_attempts (f c) = 0 -> ca_in_flight (f c) = 0%nat /\ ca_cooldown_until (f c) = None)) ->
  Origin_ok n' answer flight' (with_candidates (candidate_mut b f (or_candidates o)) o).
Proof.
  intros Ho Hle [K1 K2 K3] Hfl Hat. apply (Origin_ok_le n n') in Ho as [Hb Hn Hv Hp Hg Hr Hf Ha]; [|done].
  split; simpl; [done|by rewrite candidate_mut_addresses|done| | |done| |].
  - intros a. rewrite Hp, candidate_mut_lookup by done. case_bool_decide; [|done].
    destruct (candidate a (or_candidates o)) as [c|]; simpl; split; intros (d & E & Hd); try done; injection E as <-; eexists; (split; [done|]);
      by rewrite ?K2 in *.
  - intros a c E Hc. rewrite candidate_mut_lookup in E by done. case_bool_decide; [|by apply (Hg a)].
    destruct (candidate a (or_candidates o)) as [d|] eqn:Ed; [|done]. injection E as <-. rewrite K3. rewrite K2 in Hc. by apply (Hg a).
  - intros a. rewrite Hfl, candidate_mut_lookup by done. case_bool_decide as Hab; [|by apply Hf]. subst. by destruct (candidate b _).
  - intros H a c E. rewrite candidate_mut_lookup in E by done. case_bool_decide as Hab; [|by apply (Ha H a)]. subst.
    destruct (candidate b (or_candidates o)) as [d|] eqn:Ed; [|done]. injection E as <-. by apply Hat.
Qed.

Section Choice.
  Context (powf : f64 -> f64 -> f64).

Lemma ranked_elem now cs a rate : (a, rate) ∈ ranked powf now cs -> exists c, c ∈ cs /\ ca_address c = a /\ ca_present c = true.
Proof.
  unfold ranked. rewrite sort_by_perm, list_elem_of_omap. intros (c & Hc & E).
  apply list_elem_of_In, filter_In in Hc as [Hc [Hp _]%andb_true_iff]. destruct (effective_rate powf now c); [|done].
  injection E as <- _. exists c. by rewrite list_elem_of_In.
Qed.

Lemma update_preferred_ok n answer flight now o :
  Origin_ok n answer flight o -> Origin_ok n answer flight (update_preferred powf now o) /\
  or_candidates (update_preferred powf now o) = or_candidates o /\ or_generation (update_preferred powf now o) = or_generation o.
Proof.
  intros Ho. assert (forall a since, (forall b, a = Some b -> b ∈ cs_addresses answer) -> Origin_ok n answer flight (set_preferred a since o)) as Hs.
  { intros a since Ha. by destruct Ho. }
  unfold update_preferred. destruct (ranked powf now (or_candidates o)) as [|[best rate] rest] eqn:E; [by split_and!; [apply Hs|..]|].
  assert (best ∈ cs_addresses answer) as Hbest.
  { destruct (ranked_elem now (or_candidates o) best rate) as (c & Hc & <- & Hp); [rewrite E; by left|].
    apply (oo_present _ _ _ _ Ho). exists c. split; [|done]. apply candidate_elem; [by apply (oo_nodup _ _ _ _ Ho)|done]. }
  assert (forall b, Some best = Some b -> b ∈ cs_addresses answer) as Hb by (by intros b [= <-]).
  destruct (or_preferred o); [|by split_and!; [apply Hs|..]]. case_bool_decide; [done|]. destruct (_ && _); [|done]. by split_and!; [apply Hs|..].
Qed.

Lemma elem_filter {A} (P : A -> bool) l x : x ∈ List.filter P l <-> x ∈ l /\ P x = true.
Proof. rewrite !list_elem_of_In. apply filter_In. Qed.

(** The chosen address is one of the answer, and not parked when another is free. *)
Lemma pick_ok n answer flight now due o :
  Origin_ok n answer flight o -> n < 2 ^ 64 -> existsb ca_present (or_candidates o) = true ->
  exists a reason c, pick powf now due o = Some (a, reason) /\ candidate a (or_candidates o) = Some c /\ ca_present c = true /\
    ((exists b d, candidate b (or_candidates o) = Some d /\ is_available now d = true) -> is_available now c = true).
Proof.
  intros Ho Hlt Hex. pose proof (oo_nodup _ _ _ _ Ho) as Hn. unfold pick. set (cs := or_candidates o) in *.
  assert (forall c, c ∈ List.filter ca_present cs -> candidate (ca_address c) cs = Some c /\ ca_present c = true) as Hpres.
  { intros c [Hc Hp]%elem_filter. by split; [apply candidate_elem|]. }
  destruct (List.filter ca_present cs) as [|c1 rest] eqn:Ef.
  { apply existsb_exists in Hex as (c & Hc & Hp). assert (c ∈ List.filter ca_present cs) as H by (apply elem_filter; by rewrite list_elem_of_In).
    rewrite Ef in H. by apply not_elem_of_nil in H. }
  destruct rest as [|c2 rest].
  { destruct (Hpres c1) as [H1 H2]; [by left|]. exists (ca_address c1), Single, c1. split_and!; [done..|].
    intros (b & d & Hd & Hav). assert (d ∈ List.filter ca_present cs) as H.
    { apply elem_filter. apply candidate_Some in Hd as [Hd _]. split; [done|]. by apply andb_true_iff in Hav as [? _]. }
    rewrite Ef in H. by apply list_elem_of_singleton in H as ->. }
  set (present := c1 :: c2 :: rest) in *.
  destruct (List.find _ cs) as [c|] eqn:Eu.
  { apply find_some in Eu as [Hc%list_elem_of_In [[Hp Ha%Z.eqb_eq]%andb_true_iff _]%andb_true_iff].
    apply (candidate_elem _ _ Hn) in Hc. exists (ca_address c), Coverage, c. split_and!; [done..|]. intros _.
    destruct (oo_attempts _ _ _ _ Ho Hlt _ _ Hc) as [_ H]. destruct (H Ha) as [_ Ecool]. unfold is_available. by rewrite Hp, Ecool. }
  set (preferred := List.filter _ (preferred_set powf now o)).
  set (eligible := match preferred with [] => _ | _ => preferred end).
  assert (forall a, a ∈ eligible -> exists c, candidate a cs = Some c /\ is_available now c = true) as Hel.
  { intros a Ha. subst eligible. assert (a ∈ preferred \/ a ∈ map ca_address (List.filter (is_available now) cs)) as [H|H].
    { destruct preferred; [by right|by left]. }
    - apply elem_filter in H as [_ H]. destruct (candidate a cs) as [c|]; [|done]. by exists c.
    - apply list_elem_of_fmap in H as (c & -> & [Hc Hav]%elem_filter). exists c. by split; [apply candidate_elem|]. }
  assert (forall c, is_available now c = true -> ca_present c = true) as Hav by (by intros c [? _]%andb_true_iff).
  destruct eligible as [|e0 es] eqn:Ee.
  - destruct (min_by_key_spec (fun c => match ca_cooldown_until c with Some until => duration_since until now | None => 0 end) present) as (c & -> & Hc); [done|].
    destruct (Hpres c Hc) as [Hcc Hcp]. exists (ca_address c), Fallback, c. split_and!; [done..|]. intros (b & d & Hd & Hda).
    assert (b ∈ map ca_address (List.filter (is_available now) cs)) as H.
    { apply candidate_Some in Hd as [Hd <-]. apply list_elem_of_fmap. exists d. split; [done|]. by apply elem_filter. }
    subst eligible. destruct preferred; [|done]. rewrite Ee in H. by apply not_elem_of_nil in H.
  - rewrite <- Ee in *. destruct (if due then _ else _) as [a|] eqn:Ex.
    + destruct due; [|done]. unfold explore_candidate in Ex.
      destruct (max_by_key _ _) as [c|] eqn:Em; [|done]. injection Ex as <-. apply max_by_key_elem in Em.
      apply elem_filter in Em as [Hc [_ Hca]%andb_true_iff]. exists (ca_address c), Exploration, c.
      split_and!; [done|by apply candidate_elem|by apply Hav|done].
    + destruct (min_by_key_spec (fun a => match candidate a cs with Some c => Z.of_nat (ca_in_flight c) | None => u64_max end) eligible) as (a & -> & Ha);
        [by rewrite Ee|]. destruct (Hel a Ha) as (c & Hc & Hca). exists a, Preferred, c. split_and!; [done|done|by apply Hav|done].
Qed.
End Choice.

(** ** Runs of the driver *)

(** A reservation that is out: what a transfer holds until it settles. *)
Record Claim := mkClaim {
  cl_pool : PoolKey;
  cl_address : IpAddr;
  cl_generation : Z;
}.

Definition claims_on (claims : list Claim) (pool : PoolKey) (a : IpAddr) : nat :=
  length (List.filter (fun c => bool_decide (cl_pool c = pool /\ cl_address c = a)) claims).

Record World := mkWorld {
  w_policy : IpPolicy;
  w_claims : list Claim;
  w_answers : gmap PoolKey CandidateSet;
  w_steps : Z;
}.

Section Runs.
  Context (powf : f64 -> f64 -> f64).

(** Answers, choices, settlements and samples in any order; a transfer settles the
    reservation it holds, once, in the generation it was made in. *)
Inductive step : World -> World -> Prop :=
  | step_observe p claims answers n pool set now :
      step (mkWorld p claims answers n) (mkWorld (observe pool set now p) claims (<[pool := set]> answers) (n + 1))
  | step_select p claims answers n pool now sel p' :
      select powf pool now p = Some (Ok sel, p') ->
      step (mkWorld p claims answers n) (mkWorld p' (mkClaim pool (sel_address sel) (sel_generation sel) :: claims) answers (n + 1))
  | step_refused p claims answers n pool now e p' :
      select powf pool now p = Some (Err e, p') -> step (mkWorld p claims answers n) (mkWorld p' claims answers (n + 1))
  | step_settle p before c after answers n outcome now :
      step (mkWorld p (before ++ c :: after) answers n)
        (mkWorld (settle (cl_pool c) (cl_address c) (cl_generation c) outcome now p) (before ++ after) answers (n + 1))
  | step_sample p claims answers n pool a sample now :
      step (mkWorld p claims answers n) (mkWorld (record_sample powf pool a sample now p).2 claims answers (n + 1)).

Inductive reachable : World -> Prop :=
  | reach_new : reachable (mkWorld IpPolicy_new [] ∅ 0)
  | reach_step w w' : reachable w -> step w w' -> reachable w'.

Definition Pool_ok (n : Z) (answer : option CandidateSet) (flight : IpAddr -> nat) (origin : option Origin) : Prop :=
  match origin, answer with
  | Some o, Some set => Origin_ok n set flight o
  | None, None => forall a, flight a = 0%nat
  | _, _ => False
  end.

Definition World_ok (w : World) : Prop :=
  0 <= w_steps w /\
  forall pool, Pool_ok (w_steps w) (w_answers w !! pool) (claims_on (w_claims w) pool) (ip_origins (w_policy w) !! pool).

Lemma Pool_ok_le n n' answer flight origin : n <= n' -> Pool_ok n answer flight origin -> Pool_ok n' answer flight origin.
Proof. intros Hn. destruct origin, answer; simpl; [by apply Origin_ok_le|done..]. Qed.

Lemma Pool_ok_ext n answer flight flight' origin :
  (forall a, flight' a = flight a) -> Pool_ok n answer flight origin -> Pool_ok n answer flight' origin.
Proof.
  intros Hf. destruct origin, answer; simpl; [|done|done|intros H a; by rewrite Hf].
  intros []. split; try done. intros a. by rewrite Hf.
Qed.

Lemma claims_on_cons c claims pool a :
  claims_on (c :: claims) pool a = ((if bool_decide (cl_pool c = pool /\ cl_address c = a) then 1 else 0) + claims_on claims pool a)%nat.
Proof. unfold claims_on. simpl. by case_bool_decide. Qed.

Lemma claims_on_settled before c after pool a : claims_on (before ++ c :: after) pool a = claims_on (c :: before ++ after) pool a.
Proof. unfold claims_on. simpl. rewrite !List.filter_app. simpl. case_bool_decide; simpl; rewrite !length_app; simpl; lia. Qed.

Lemma claims_on_other c claims pool a : cl_pool c <> pool -> claims_on (c :: claims) pool a = claims_on claims pool a.
Proof. intros H. rewrite claims_on_cons, bool_decide_false; [done|naive_solver]. Qed.

Lemma claims_on_own c claims a :
  claims_on (c :: claims) (cl_pool c) a = ((if bool_decide (a = cl_address c) then 1 else 0) + claims_on claims (cl_pool c) a)%nat.
Proof. rewrite claims_on_cons. f_equal. repeat case_bool_decide; naive_solver. Qed.

(** What an operation on one pool has to show. *)
Lemma pool_step p p' claims claims' answers n pool o' :
  World_ok (mkWorld p claims answers n) -> ip_origins p' = <[pool := o']> (ip_origins p) ->
  (forall q a, q <> pool -> claims_on claims' q a = claims_on claims q a) ->
  Pool_ok (n + 1) (answers !! pool) (claims_on claims' pool) (Some o') ->
  World_ok (mkWorld p' claims' answers (n + 1)).
Proof.
  intros [Hn Hw] Ep Hc Ho. split; [simpl in *; lia|]. intros q. simpl in *. rewrite Ep. destruct (base.decide (q = pool)) as [->|Hq].
  - by rewrite lookup_insert_eq.
  - rewrite lookup_insert_ne by done. apply (Pool_ok_le n); [lia|]. apply (Pool_ok_ext _ _ (claims_on claims q)); [intros a; by apply Hc|apply Hw].
Qed.

Lemma reserve_keeps : Keeps reserve.
Proof. by split. Qed.

Lemma settled_keeps outcome current now : Keeps (settled outcome current now).
Proof. by split. Qed.

Lemma select_cases p claims answers n pool now :
  World_ok (mkWorld p claims answers n) -> n < 2 ^ 64 ->
  match answers !! pool with
  | None => select powf pool now p = Some (Err NoCandidates, p)
  | Some set =>
      if bool_decide (cs_addresses set = []) then select powf pool now p = Some (Err NoCandidates, p)
      else if cs_valid_until set <=? now then select powf pool now p = Some (Err Expired, p)
      else exists o a reason c p',
        ip_origins p !! pool = Some o /\ candidate a (or_candidates o) = Some c /\ ca_present c = true /\ a ∈ cs_addresses set /\
        ((exists b d, candidate b (or_candidates o) = Some d /\ is_available now d = true) -> is_available now c = true) /\
        select powf pool now p = Some (Ok (mkSelection a (or_generation o) reason), p') /\
        World_ok (mkWorld p' (mkClaim pool a (or_generation o) :: claims) answers (n + 1))
  end.
Proof.
  intros Hw Hlt. pose proof (proj2 Hw pool) as Hp. simpl in Hp. unfold select.
  destruct (ip_origins p !! pool) as [o|] eqn:Eo, (answers !! pool) as [set|] eqn:Es; try done. simpl in Hp.
  assert (existsb ca_present (or_candidates o) = true <-> cs_addresses set <> []) as Hex.
  { rewrite existsb_exists. split.
    - intros (c & Hc%list_elem_of_In & Hpr) E. apply (candidate_elem _ _ (oo_nodup _ _ _ _ Hp)) in Hc.
      assert (ca_address c ∈ cs_addresses set) as H by (apply (oo_present _ _ _ _ Hp); by exists c). rewrite E in H. by apply not_elem_of_nil in H.
    - intros H. destruct (cs_addresses set) as [|a rest] eqn:E; [done|].
      destruct (proj1 (oo_present _ _ _ _ Hp a)) as (c & Hc & Hpr); [rewrite E; by left|]. exists c.
      apply candidate_Some in Hc as [Hc _]. by rewrite <- list_elem_of_In. }
  case_bool_decide as Ha; [destruct (existsb _ _); [by destruct (proj1 Hex eq_refl)|done]|].
  pose proof (proj2 Hex Ha) as Hex'. rewrite Hex'. simpl. rewrite (oo_valid _ _ _ _ Hp). destruct (_ <=? now); [done|].
  destruct (update_preferred_ok powf _ _ _ now o Hp) as (Hu & Ec & Eg).
  destruct (pick_ok powf _ _ _ now ((ip_selections p ⊕ 1) mod EXPLORE_PERIOD =? 0) _ Hu Hlt) as (a & reason & c & -> & Hc & Hpr & Hav); [by rewrite Ec|].
  rewrite Hc. simpl. rewrite Ec in Hc, Hav. rewrite (oo_generation _ _ _ _ Hp a c Hc Hpr). eexists o, a, reason, c, _.
  split_and!; [done|done|done|apply (oo_present _ _ _ _ Hp); by exists c|done|done|].
  eapply (pool_step p _ claims _ _ _ pool); [done|by simpl; rewrite insert_insert_eq|intros; by apply claims_on_other|].
  rewrite Es. simpl. eapply mutate_ok; [exact Hu|lia|apply reserve_keeps| |].
  - intros b. rewrite (claims_on_own (mkClaim pool a _)). simpl. rewrite Ec, Hc. case_bool_decide; [|done]. subst.
    rewrite (oo_flight _ _ _ _ Hp), Hc. done.
  - intros H d Hd. rewrite Ec, Hc in Hd. injection Hd as <-. destruct (oo_attempts _ _ _ _ Hp ltac:(lia) a c Hc) as [H1 H2].
    simpl. rewrite u64_add_exact by lia. split; [lia|]. lia.
Qed.

Lemma settle_ok p before c after answers n outcome now :
  World_ok (mkWorld p (before ++ c :: after) answers n) ->
  World_ok (mkWorld (settle (cl_pool c) (cl_address c) (cl_generation c) outcome now p) (before ++ after) answers (n + 1)).
Proof.
  intros [Hn Hw].
  assert (World_ok (mkWorld p (c :: before ++ after) answers n)) as Hw'.
  { split; [done|]. intros pool. apply (Pool_ok_ext _ _ (claims_on (before ++ c :: after) pool)); [|apply Hw].
    intros a. by rewrite claims_on_settled. }
  pose proof (proj2 Hw' (cl_pool c)) as Hp. simpl in Hp. unfold settle. destruct (ip_origins p !! cl_pool c) as [o|] eqn:Eo.
  - destruct (answers !! cl_pool c) as [set|] eqn:Es; [|done]. simpl in Hp.
    eapply (pool_step p _ (c :: before ++ after)); [done|done|intros; by rewrite claims_on_other|]. rewrite Es. simpl.
    pose proof (oo_flight _ _ _ _ Hp (cl_address c)) as Hf. rewrite claims_on_own, bool_decide_true in Hf by done.
    destruct (candidate (cl_address c) (or_candidates o)) as [d|] eqn:Ed; [|simpl in Hf; lia]. simpl in Hf.
    eapply mutate_ok; [exact Hp|lia|apply settled_keeps| |].
    + intros a. rewrite claims_on_own, Ed. simpl. case_bool_decide; [subst; lia|done].
    + intros H d' E. rewrite Ed in E. injection E as <-. destruct (oo_attempts _ _ _ _ Hp ltac:(lia) _ _ Ed) as [H1 H2]. simpl. split; [lia|].
      intros Hz. destruct (H2 Hz). lia.
  - destruct (answers !! cl_pool c); [done|]. specialize (Hp (cl_address c)). rewrite claims_on_own, bool_decide_true in Hp by done. lia.
Qed.

Lemma World_ok_later p claims answers n : World_ok (mkWorld p claims answers n) -> World_ok (mkWorld p claims answers (n + 1)).
Proof. intros [Hn Hw]. split; [simpl in *; lia|]. intros q. apply (Pool_ok_le n); [simpl; lia|apply Hw]. Qed.

Lemma sample_ok p claims answers n pool a sample now :
  World_ok (mkWorld p claims answers n) -> World_ok (mkWorld (record_sample powf pool a sample now p).2 claims answers (n + 1)).
Proof.
  intros Hw. pose proof (proj2 Hw pool) as Hp. simpl in Hp.
  pose proof (World_ok_later _ _ _ _ Hw) as Hw'.
  unfold record_sample. destruct (ip_origins p !! pool) as [o|]; [|done].
  destruct (candidate a (or_candidates o)) as [d|] eqn:Ed; [|done]. destruct (answers !! pool) as [set|] eqn:Es; [|done]. simpl in Hp.
  assert (forall f, Keeps f -> (forall c, ca_in_flight (f c) = ca_in_flight c /\ ca_attempts (f c) = ca_attempts c /\
    ca_cooldown_until (f c) = ca_cooldown_until c) -> forall selections windows,
    World_ok (mkWorld (mkPolicy (<[pool := with_candidates (candidate_mut a f (or_candidates o)) o]> (ip_origins p)) selections windows)
      claims answers (n + 1))) as Hf.
  { intros f Hk Hf selections windows. eapply (pool_step p _ claims); [done|done|done|]. rewrite Es. simpl.
    eapply mutate_ok; [exact Hp|lia|done| |].
    - intros b. rewrite Ed. simpl. destruct (Hf d) as (-> & _). case_bool_decide; [subst; by rewrite (oo_flight _ _ _ _ Hp), Ed|done].
    - intros H c E. destruct (Hf c) as (-> & -> & ->). destruct (oo_attempts _ _ _ _ Hp ltac:(lia) a c E). split; [lia|done]. }
  destruct (sample_is_usable sample); by apply Hf.
Qed.

Lemma observe_world_ok p claims answers n pool set now :
  World_ok (mkWorld p claims answers n) -> World_ok (mkWorld (observe pool set now p) claims (<[pool := set]> answers) (n + 1)).
Proof.
  intros IH. pose proof (proj2 IH pool) as Hp. destruct IH as [Hn Hw]. simpl in *. split; [simpl; lia|]. intros q. simpl.
  destruct (base.decide (q = pool)) as [->|Hq]; [|rewrite !lookup_insert_ne by done; apply (Pool_ok_le n); [lia|apply Hw]].
  rewrite !lookup_insert_eq. simpl. apply (Origin_ok_le n); [lia|]. destruct (ip_origins p !! pool) as [o|], (answers !! pool) as [set'|]; try done.
  - by apply (observe_ok n set').
  - by apply (Pool_ok_ext n (Some set) (fun _ => 0%nat) _ (Some (Origin_observe set now (Origin_new now)))), new_ok.
Qed.

(** A choice adds its claim, a refusal changes nothing. *)
Lemma select_world_ok p claims answers n pool now r p' :
  World_ok (mkWorld p claims answers n) -> n < 2 ^ 64 -> select powf pool now p = Some (r, p') ->
  World_ok (mkWorld p' (match r with Ok sel => mkClaim pool (sel_address sel) (sel_generation sel) :: claims | Err _ => claims end) answers (n + 1)).
Proof.
  intros Hw Hlt E. pose proof (select_cases _ _ _ _ pool now Hw Hlt) as Hc. rewrite E in Hc.
  destruct (answers !! pool) as [set|]; [|injection Hc as -> ->; by apply World_ok_later].
  case_bool_decide; [injection Hc as -> ->; by apply World_ok_later|]. destruct (_ <=? _); [injection Hc as -> ->; by apply World_ok_later|].
  destruct Hc as (o & a & reason & c & p'' & _ & _ & _ & _ & _ & E' & H'). by injection E' as -> ->.
Qed.

(** It never panics. *)
Lemma select_returns p claims answers n pool now :
  World_ok (mkWorld p claims answers n) -> n < 2 ^ 64 -> exists r, select powf pool now p = Some r.
Proof.
  intros Hw Hlt. pose proof (select_cases _ _ _ _ pool now Hw Hlt) as Hc.
  destruct (answers !! pool) as [set|]; [|by eexists]. case_bool_decide; [by eexists|]. destruct (_ <=? _); [by eexists|].
  destruct Hc as (o & a & reason & c & p' & _ & _ & _ & _ & _ & E & _). by eexists.
Qed.

Lemma reachable_ok w : reachable w -> w_steps w <= 2 ^ 64 -> World_ok w.
Proof.
  intros Hr. induction Hr as [|w w' Hr IH Hs]; intros Hlt; [split; [done|]; intros pool; simpl; by rewrite !lookup_empty|].
  destruct Hs as [p claims answers n pool set now|p claims answers n pool now sel p' E|p claims answers n pool now e p' E| |]; simpl in *.
  - apply observe_world_ok, IH. lia.
  - by apply (select_world_ok _ _ _ _ _ _ _ _ (IH ltac:(lia)) ltac:(lia) E).
  - by apply (select_world_ok _ _ _ _ _ _ _ _ (IH ltac:(lia)) ltac:(lia) E).
  - apply settle_ok, IH. lia.
  - apply sample_ok, IH. lia.
Qed.

(** ** Theorems *)

Definition in_flight_of (p : IpPolicy) (pool : PoolKey) (a : IpAddr) : nat :=
  from_option (fun o => from_option ca_in_flight 0%nat (candidate a (or_candidates o))) 0%nat (ip_origins p !! pool).

(** Reservations are counted exactly.  Through any run of answers, choices,
    settlements and samples, the occupancy the policy keeps for an address is the number
    of transfers that hold a reservation on it: an address with a reservation is never
    forgotten, also when it left the answer, and no reservation is lost or released
    twice. *)
Theorem reservations_exact w pool a :
  reachable w -> w_steps w <= 2 ^ 64 -> in_flight_of (w_policy w) pool a = claims_on (w_claims w) pool a.
Proof.
  intros Hr Hlt. pose proof (proj2 (reachable_ok w Hr Hlt) pool) as Hp. unfold in_flight_of.
  destruct (ip_origins (w_policy w) !! pool) as [o|], (w_answers w !! pool) as [set|]; try done; simpl in *.
  by rewrite (oo_flight _ _ _ _ Hp).
Qed.

(** A choice is made from the latest answer.  [select] does not panic; it fails for
    an origin without addresses, and for an expired answer; otherwise it reserves one
    address of the latest answer, in the current generation, and one that is not parked
    whenever an address of the answer is not parked. *)
Theorem select_from_answer w pool now :
  reachable w -> w_steps w < 2 ^ 64 ->
  exists r p', select powf pool now (w_policy w) = Some (r, p') /\
  match w_answers w !! pool with
  | None => r = Err NoCandidates
  | Some set =>
      if bool_decide (cs_addresses set = []) then r = Err NoCandidates
      else if cs_valid_until set <=? now then r = Err Expired
      else exists sel o c, r = Ok sel /\ ip_origins (w_policy w) !! pool = Some o /\
        sel_address sel ∈ cs_addresses set /\ sel_generation sel = or_generation o /\
        candidate (sel_address sel) (or_candidates o) = Some c /\
        (forall b d, candidate b (or_candidates o) = Some d -> is_available now d = true -> is_available now c = true)
  end.
Proof.
  intros Hr Hlt. pose proof (reachable_ok w Hr ltac:(lia)) as Hw. destruct w as [p claims answers n]. simpl in *.
  pose proof (select_cases p claims answers n pool now Hw Hlt) as Hc. destruct (answers !! pool) as [set|]; [|by eexists _, _].
  case_bool_decide; [by eexists _, _|]. destruct (_ <=? now); [by eexists _, _|].
  destruct Hc as (o & a & reason & c & p' & Ho & Hca & _ & Ha & Hav & E & _). eexists _, p'. split; [exact E|].
  eexists _, o, c. split_and!; [done|done|done|done|done|]. intros b d Hd Hda. apply Hav. by exists b, d.
Qed.

(** ** Coverage *)

Fixpoint selects (pool : PoolKey) (nows : list Z) (p : IpPolicy) : option (list (result Selection SelectionError)) :=
  match nows with
  | [] => Some []
  | now :: nows =>
      '(r, p) ← select powf pool now p;
      rs ← selects pool nows p;
      Some (r :: rs)
  end.

Lemma sort_by_id {A} (le : A -> A -> bool) l : Sorted (fun x y => le x y = true) l -> sort_by le l = l.
Proof.
  induction 1 as [|x l Hs IH Hh]; simpl; [done|]. rewrite IH. destruct Hh as [|y l Hxy]; simpl; [done|]. by rewrite Hxy.
Qed.

Lemma positions_sorted g now offered : NoDup offered -> Z.of_nat (length offered) <= u64_max ->
  Sorted (fun c d => (position_key offered c <=? position_key offered d) = true) (map (fun a => Candidate_new a g now) offered).
Proof.
  intros Hn Hlen. apply StronglySorted_Sorted.
  assert (forall i a, offered !! i = Some a -> position_key offered (Candidate_new a g now) = Z.of_nat i) as Hpos.
  { intros i a Hi. unfold position_key. simpl. destruct (list_find _ offered) as [[j b]|] eqn:E.
    - apply list_find_Some in E as (Hj & -> & _). by rewrite (NoDup_lookup _ _ _ _ Hn Hj Hi).
    - exfalso. apply list_find_None in E. rewrite Forall_forall in E. apply (E a); [by apply list_elem_of_lookup_2 in Hi|done]. }
  assert (forall k, StronglySorted (fun c d => (position_key offered c <=? position_key offered d) = true)
    (map (fun a => Candidate_new a g now) (drop k offered))) as H; [|by apply (H 0%nat)].
  clear Hn Hlen. intros k. remember (length offered - k)%nat as m eqn:Em. revert k Em. induction m as [|m IH]; intros k Em.
  { rewrite drop_ge by lia. constructor. }
  destruct (offered !! k) as [a|] eqn:Ea; [|apply lookup_ge_None in Ea; lia]. rewrite (drop_S _ a) by done. simpl. constructor.
  - apply IH. lia.
  - apply Forall_map, Forall_forall. intros b (i & Hi)%list_elem_of_lookup. rewrite lookup_drop in Hi.
    rewrite (Hpos _ _ Ea), (Hpos _ _ Hi). apply Z.leb_le. lia.
Qed.

Lemma observe_fresh g now offered : forall done_, NoDup (done_ ++ offered) ->
  fold_left (observe_address g now) offered (map (fun a => Candidate_new a g now) done_) = map (fun a => Candidate_new a g now) (done_ ++ offered).
Proof.
  induction offered as [|a offered IH]; intros done_ Hn; simpl; [by rewrite app_nil_r|].
  assert (candidate a (map (fun a => Candidate_new a g now) done_) = None) as E.
  { apply candidate_None. unfold addresses. rewrite map_map. simpl. rewrite map_id. apply NoDup_app in Hn as (_ & H & _).
    intros Ha. apply (H a Ha). by left. }
  unfold observe_address. rewrite E.
  replace (map _ done_ ++ [Candidate_new a g now]) with (map (fun a => Candidate_new a g now) (done_ ++ [a])) by (by rewrite map_app).
  rewrite IH by (by rewrite <- app_assoc). by rewrite <- app_assoc.
Qed.

Definition fresh (g now : Z) (a : IpAddr) : Candidate := Candidate_new a g now.

(** The table after the addresses of [covered] were chosen once each. *)
Definition partway (g now : Z) (covered todo : list IpAddr) : list Candidate :=
  map (fun a => reserve (fresh g now a)) covered ++ map (fresh g now) todo.

Lemma partway_next g now covered a todo : a ∉ covered ->
  candidate a (partway g now covered (a :: todo)) = Some (fresh g now a) /\
  candidate_mut a reserve (partway g now covered (a :: todo)) = partway g now (covered ++ [a]) todo.
Proof.
  unfold partway. induction covered as [|b covered IH]; intros Ha; simpl.
  - by rewrite !bool_decide_true.
  - apply not_elem_of_cons in Ha as [Hab Ha]. rewrite !bool_decide_false by done. destruct (IH Ha) as [H1 H2]. split; [done|]. by f_equal.
Qed.

Lemma partway_pick g now covered a todo now' due o :
  or_candidates o = partway g now covered (a :: todo) -> (2 <= length (covered ++ a :: todo))%nat ->
  update_preferred powf now' o = set_preferred None None o /\ pick powf now' due o = Some (a, Coverage).
Proof.
  intros Ec Hlen.
  assert (Forall (fun c => ca_samples c = 0 /\ ca_present c = true) (or_candidates o)) as Hall.
  { rewrite Ec. unfold partway. apply Forall_app. by split; apply Forall_map, Forall_forall. }
  split.
  - unfold update_preferred, ranked. replace (List.filter _ (or_candidates o)) with ([] : list Candidate); [done|]. symmetry. clear Ec.
    induction Hall as [|c cs [Hc _] _ IH]; simpl; [done|]. unfold is_proven at 1. rewrite Hc, andb_false_r. exact IH.
  - unfold pick. replace (List.filter ca_present (or_candidates o)) with (or_candidates o).
    2: { clear Ec. induction Hall as [|c cs [_ Hc] _ IH]; simpl; [done|]. by rewrite Hc, <- IH. }
    assert (List.find (fun c => ca_present c && (ca_attempts c =? 0) && (ca_samples c =? 0)) (or_candidates o) = Some (fresh g now a)) as ->.
    { rewrite Ec. unfold partway. clear. induction covered as [|b covered IH]; [done|]. exact IH. }
    assert (2 <= length (or_candidates o))%nat as Hl.
    { rewrite Ec. unfold partway. rewrite length_app in *. rewrite !length_map. done. }
    destruct (or_candidates o) as [|c1 [|c2 rest]]; simpl in Hl; [lia|lia|done].
Qed.

Lemma partway_selects pool g now : forall nows covered todo p o,
  ip_origins p !! pool = Some o -> or_candidates o = partway g now covered todo -> NoDup (covered ++ todo) ->
  (2 <= length (covered ++ todo))%nat -> length nows = length todo -> Forall (fun t => t < or_valid_until o) nows ->
  selects pool nows p = Some (map (fun a => Ok (mkSelection a g Coverage)) todo).
Proof.
  induction nows as [|t nows IH]; intros covered todo p o Ho Ec Hn H2 Hlen Hv; (destruct todo as [|a todo]; [done || (simpl in Hlen; lia)|]); [done|].
  apply Forall_cons in Hv as [Ht Hv]. simpl. unfold select at 1. rewrite Ho.
  assert (existsb ca_present (or_candidates o) = true) as ->.
  { rewrite Ec. unfold partway. rewrite existsb_app. simpl. by rewrite orb_true_r. }
  simpl. rewrite (proj2 (Z.leb_gt _ _) Ht).
  destruct (partway_pick g now covered a todo t ((ip_selections p ⊕ 1) mod EXPLORE_PERIOD =? 0) o Ec H2) as [-> _].
  destruct (partway_pick g now covered a todo t ((ip_selections p ⊕ 1) mod EXPLORE_PERIOD =? 0) (set_preferred None None o) Ec H2) as [_ ->].
  assert (a ∉ covered) as Ha. { apply NoDup_app in Hn as (_ & H & _). intros Hc. apply (H a Hc). by left. }
  destruct (partway_next g now covered a todo Ha) as [H3 H4]. simpl. rewrite Ec, H3, H4. simpl.
  erewrite IH; [done|by simpl; rewrite lookup_insert_eq|done|by rewrite <- app_assoc|by rewrite <- app_assoc|by injection Hlen|done].
Qed.

Lemma observed_fresh set now : NoDup (cs_addresses set) -> cs_addresses set <> [] -> Z.of_nat (length (cs_addresses set)) <= u64_max ->
  or_candidates (Origin_observe set now (Origin_new now)) = partway 1 now [] (cs_addresses set).
Proof.
  intros Hn Hne Hmax. unfold Origin_observe, partway. cbn [or_candidates Origin_new or_generation map List.filter length].
  assert ((0 =? length (cs_addresses set))%nat = false) as -> by (by destruct (cs_addresses set)). simpl. change (0 ⊕ 1) with 1.
  pose proof (observe_fresh 1 now (cs_addresses set) [] Hn) as E. simpl in E. rewrite E, sort_by_id by (by apply positions_sorted).
  clear. induction (cs_addresses set) as [|a l IH]; simpl; [done|]. by f_equal.
Qed.

(** Every address is tried before one is preferred.  The first choices for an
    origin that was not known take the addresses of its answer one after the other, in
    the answer's order, for as many as there are. *)
Theorem fresh_answer_covered pool set now nows p :
  ip_origins p !! pool = None -> NoDup (cs_addresses set) -> (2 <= length (cs_addresses set))%nat ->
  Z.of_nat (length (cs_addresses set)) <= u64_max ->
  length nows = length (cs_addresses set) -> Forall (fun t => t < cs_valid_until set) nows ->
  selects pool nows (observe pool set now p) = Some (map (fun a => Ok (mkSelection a 1 Coverage)) (cs_addresses set)).
Proof.
  intros Hp Hn H2 Hmax Hlen Hv. unfold observe. rewrite Hp. simpl.
  assert (cs_addresses set <> []) as Hne by (intros E; rewrite E in H2; simpl in H2; lia).
  eapply (partway_selects pool 1 now nows []); [by simpl; rewrite lookup_insert_eq|by apply observed_fresh|done..].
Qed.
End Runs.

(** ** An origin with two addresses *)

Module DemoPolicy.
Definition pool : PoolKey := mkPoolKey (str "http://example.com:80") None.
Definition answer : CandidateSet := mkCandidateSet (str "example.com") 80 [V4 1; V4 2] (60 * NANOS_PER_SEC).
Definition power (base exponent : f64) : f64 := base.

Definition p1 : IpPolicy := observe pool answer 0 IpPolicy_new.
Definition w1 : World := mkWorld p1 [] {[pool := answer]} 1.
Definition p2 : IpPolicy := from_option snd IpPolicy_new (select power pool 1 p1).
Definition w2 : World := mkWorld p2 [mkClaim pool (V4 1) 1] {[pool := answer]} 2.

Lemma reach1 : reachable power w1.
Proof. eapply reach_step; [apply reach_new|]. apply (step_observe power IpPolicy_new [] ∅ 0 pool answer 0). Qed.

Lemma reach2 : reachable power w2.
Proof.
  eapply reach_step; [apply reach1|]. apply (step_select power p1 [] {[pool := answer]} 1 pool 1 (mkSelection (V4 1) 1 Coverage) p2).
  by vm_compute.
Qed.
End DemoPolicy.

Lemma reservations_exact_witness : in_flight_of DemoPolicy.p2 DemoPolicy.pool (V4 1) = 1%nat.
Proof. rewrite (reservations_exact DemoPolicy.power DemoPolicy.w2 _ _ DemoPolicy.reach2); [done|simpl; lia]. Defined.

Lemma select_from_answer_witness :
  exists r p', select DemoPolicy.power DemoPolicy.pool 2 DemoPolicy.p2 = Some (r, p') /\ r = Ok (mkSelection (V4 2) 1 Coverage).
Proof.
  destruct (select_from_answer DemoPolicy.power DemoPolicy.w2 DemoPolicy.pool 2 DemoPolicy.reach2) as (r & p' & E & _); [simpl; lia|].
  exists r, p'. split; [exact E|]. vm_compute in E. by injection E as <- _.
Defined.

Lemma fresh_answer_covered_witness :
  selects DemoPolicy.power DemoPolicy.pool [1; 2] (observe DemoPolicy.pool DemoPolicy.answer 0 IpPolicy_new) =
  Some [Ok (mkSelection (V4 1) 1 Coverage); Ok (mkSelection (V4 2) 1 Coverage)].
Proof.
  apply (fresh_answer_covered DemoPolicy.power DemoPolicy.pool DemoPolicy.answer 0 [1; 2] IpPolicy_new); [done| |simpl; lia|done|done|].
  - repeat constructor; [by intros [= H]%list_elem_of_singleton|by intros ?%not_elem_of_nil].
  - repeat constructor.
Defined.
