(* ===== verification/Clients.v ===== *)
(** * Clients and proxies ([src/manager.rs], [src/network.rs])

    The proxies a client is built with, and the cache of clients: at most sixteen of
    them, found by configuration up to the connect timeout, the least recently used
    first.  An entry is found or made under the lock of the cache and filled under its
    own lock.  Building a transport spawns a libcurl driver and can fail; whether it does
    is an argument.  A client is identified by the number of its construction. *)

From S2P Require Import Prelude RustStr Errors Config.

(** ** Proxies *)

Section Proxies.
  (** [std::env::var], the scheme [Url::parse] finds, [str::parse::<Uri>]. *)
  Context {Uri : Type} (env : rstr -> option rstr) (url_scheme : rstr -> result rstr rstr) (parse_uri : rstr -> result Uri rstr).

Record EffectiveProxyConfig := mkProxies {
  ep_all_proxy : option Uri;
  ep_http_proxy : option Uri;
  ep_https_proxy : option Uri;
}.

(** [map(str::trim).filter(|value| !value.is_empty())] *)
Definition non_blank (value : option rstr) : option rstr :=
  v ← value; match trim v with [] => None | v => Some v end.

Fixpoint env_proxy_value (names : list rstr) : option rstr :=
  match names with
  | [] => None
  | name :: names => match non_blank (env name) with Some v => Some v | None => env_proxy_value names end
  end.

Definition proxy_uri (explicit : option rstr) (env_names : list rstr) (label : rstr) : result (option Uri) DownloadError :=
  match (match non_blank explicit with Some v => Some v | None => env_proxy_value env_names end) with
  | None => Ok None
  | Some value =>
      let invalid error := InvalidConfig (str "invalid " ++ label ++ str " URL '" ++ value ++ str "': " ++ error) in
      match url_scheme value with
      | Err error => Err (invalid error)
      | Ok scheme =>
          if bool_decide (scheme = str "http") || bool_decide (scheme = str "https") then
            match parse_uri value with
            | Ok uri => Ok (Some uri)
            | Err error => Err (invalid error)
            end
          else Err (InvalidConfig (label ++ str " URL '" ++ value ++ str "' must use http or https"))
      end
  end.

Definition effective_proxies (config : ClientNetworkConfig) : result EffectiveProxyConfig DownloadError :=
  match proxy_uri (nc_all_proxy config) [str "ALL_PROXY"; str "all_proxy"] (str "all_proxy") with
  | Err e => Err e
  | Ok all =>
      match proxy_uri (nc_http_proxy config) [str "HTTP_PROXY"; str "http_proxy"] (str "http_proxy") with
      | Err e => Err e
      | Ok http =>
          match proxy_uri (nc_https_proxy config) [str "HTTPS_PROXY"; str "https_proxy"] (str "https_proxy") with
          | Err e => Err e
          | Ok https => Ok (mkProxies all http https)
          end
      end
  end.
End Proxies.

(** ** The cache *)

Definition CLIENT_CACHE_CAPACITY : nat := 16.

Definition with_connect_timeout (timeout : Z) (c : ClientNetworkConfig) : ClientNetworkConfig :=
  mkNetwork timeout (nc_pool_max_idle_per_host c) (nc_pool_idle_timeout c) (nc_all_proxy c) (nc_http_proxy c) (nc_https_proxy c)
    (nc_ca_info c) (nc_ca_path c) (nc_client_cert c) (nc_client_key c) (nc_dns_servers c) (nc_doh_servers c)
    (nc_enable_ipv6 c) (nc_multi_ip c).

Definition ClientKey_new (config : ClientNetworkConfig) : ClientNetworkConfig := with_connect_timeout (secs 30) config.

(** The deque of the cache names entries; the entries are shared cells. *)
Record Clients := mkClients {
  cl_entries : list (ClientNetworkConfig * nat);
  cl_cells : gmap nat (option nat);
  cl_next : nat;
  cl_built : nat;
}.

(** The part of [cached_client_for_config] under the lock of the cache. *)
Definition find_entry (config : ClientNetworkConfig) (s : Clients) : nat * Clients :=
  let key := ClientKey_new config in
  match list_find (fun e => e.1 = key) (cl_entries s) with
  | Some (index, existing) =>
      (existing.2, mkClients (delete index (cl_entries s) ++ [existing]) (cl_cells s) (cl_next s) (cl_built s))
  | None =>
      let kept := if (length (cl_entries s) =? CLIENT_CACHE_CAPACITY)%nat then tail (cl_entries s) else cl_entries s in
      (cl_next s, mkClients (kept ++ [(key, cl_next s)]) (<[cl_next s := None]> (cl_cells s)) (S (cl_next s)) (cl_built s))
  end.

Section Cache.
  (** [build_client]: the error of each construction, if it has one. *)
  Context (build : nat -> ClientNetworkConfig -> option DownloadError).

(** The part under the lock of the entry. *)
Definition fill_entry (entry : nat) (config : ClientNetworkConfig) (s : Clients) : result nat DownloadError * Clients :=
  match mjoin (cl_cells s !! entry) with
  | Some client => (Ok client, s)
  | None =>
      let built := mkClients (cl_entries s) (cl_cells s) (cl_next s) (S (cl_built s)) in
      match build (cl_built s) (ClientKey_new config) with
      | Some e => (Err e, built)
      | None => (Ok (cl_built s), mkClients (cl_entries s) (<[entry := Some (cl_built s)]> (cl_cells s)) (cl_next s) (S (cl_built s)))
      end
  end.

Definition cached_client_for_config (config : ClientNetworkConfig) (s : Clients) : result nat DownloadError * Clients :=
  let '(entry, s) := find_entry config s in fill_entry entry config s.

(** [DownloaderBuilder::build]: the cache starts with the default client. *)
Definition Downloader_build (config : ClientNetworkConfig) (max_concurrent_downloads : option nat)
    : result (Clients * option nat) DownloadError :=
  if bool_decide (max_concurrent_downloads = Some 0%nat) then Err (InvalidConfig (str "max_concurrent_downloads must be >= 1"))
  else
    match build 0 config with
    | Some e => Err e
    | None => Ok (mkClients [(ClientKey_new config, 0%nat)] {[0%nat := Some 0%nat]} 1 1, max_concurrent_downloads)
    end.
End Cache.

(** ** Proxies: precedence and refusals *)

Lemma proxy_uri_spec {Uri} env url_scheme (parse_uri : rstr -> result Uri rstr) explicit names label :
  (forall uri, proxy_uri env url_scheme parse_uri explicit names label = Ok (Some uri) <->
    exists value, (non_blank explicit = Some value \/ non_blank explicit = None /\ env_proxy_value env names = Some value) /\
      (url_scheme value = Ok (str "http") \/ url_scheme value = Ok (str "https")) /\ parse_uri value = Ok uri) /\
  (proxy_uri env url_scheme parse_uri explicit names label = Ok None <-> non_blank explicit = None /\ env_proxy_value env names = None) /\
  (forall e, proxy_uri env url_scheme parse_uri explicit names label = Err e -> exists message, e = InvalidConfig message).
Proof.
  unfold proxy_uri.
  set (value := match non_blank explicit with Some v => Some v | None => env_proxy_value env names end).
  assert (forall v, value = Some v <-> non_blank explicit = Some v \/ non_blank explicit = None /\ env_proxy_value env names = Some v) as Hv.
  { intros v. subst value. destruct (non_blank explicit); naive_solver. }
  assert (value = None <-> non_blank explicit = None /\ env_proxy_value env names = None) as Hn.
  { subst value. destruct (non_blank explicit); naive_solver. }
  rewrite <- Hn. setoid_rewrite <- Hv. clearbody value. clear Hv Hn. destruct value as [v|].
  2: { split_and!; [|done|done]. intros uri. split; [done|]. by intros (v & ? & _). }
  destruct (url_scheme v) as [scheme|err] eqn:Es.
  2: { split_and!; [|done|intros e [= <-]; by eexists]. intros uri. split; [done|]. intros (v' & [= <-] & Hs & _). rewrite Es in Hs. by destruct Hs. }
  destruct (bool_decide (scheme = str "http") || bool_decide (scheme = str "https")) eqn:Hs.
  - assert (scheme = str "http" \/ scheme = str "https") as Hs' by (by apply orb_true_iff in Hs; rewrite !bool_decide_eq_true in Hs).
    destruct (parse_uri v) as [u|err] eqn:Eu; (split_and!; [|done|intros e E; try done; injection E as <-; by eexists]); intros uri; split.
    + intros [= <-]. exists v. split_and!; [done| |done]. rewrite Es. by destruct Hs' as [->| ->]; [left|right].
    + intros (v' & [= <-] & _ & E). congruence.
    + done.
    + intros (v' & [= <-] & _ & E). congruence.
  - split_and!; [|done|intros e [= <-]; by eexists]. intros uri. split; [done|]. intros (v' & [= <-] & E & _). exfalso.
    apply orb_false_iff in Hs as [H1 H2]. rewrite bool_decide_eq_false in H1, H2. rewrite Es in E. destruct E as [[= ?]|[= ?]]; congruence.
Qed.

(** ** The cache keeps the most recently used configurations *)

(** The specification: configurations in the order of their last use. *)
Definition touch (key : ClientNetworkConfig) (l : list ClientNetworkConfig) : list ClientNetworkConfig :=
  List.filter (fun k => negb (bool_decide (k = key))) l ++ [key].

Definition recency (history : list ClientNetworkConfig) : list ClientNetworkConfig := fold_left (fun l key => touch key l) history [].

Definition last_n {A} (n : nat) (l : list A) : list A := drop (length l - n) l.

Definition keys (s : Clients) : list ClientNetworkConfig := map fst (cl_entries s).

Lemma last_n_suffix {A} n (pre l : list A) : length l = n \/ pre = [] /\ (length l <= n)%nat -> last_n n (pre ++ l) = l.
Proof.
  unfold last_n. intros [H|[-> H]]; rewrite length_app.
  - replace (length pre + length l - n)%nat with (length pre) by lia. apply drop_app_length.
  - simpl. by replace (length l - n)%nat with 0%nat by lia.
Qed.

Lemma last_n_split {A} n (l : list A) : exists pre, l = pre ++ last_n n l /\ (length (last_n n l) = n \/ pre = [] /\ (length (last_n n l) <= n)%nat).
Proof.
  exists (take (length l - n) l). split; [symmetry; apply take_drop|]. unfold last_n. rewrite length_drop.
  destruct (Nat.le_gt_cases n (length l)); [left; lia|]. right. replace (length l - n)%nat with 0%nat by lia. split; [done|lia].
Qed.

Lemma filter_absent (key : ClientNetworkConfig) l : key ∉ l -> List.filter (fun k => negb (bool_decide (k = key))) l = l.
Proof.
  induction l as [|x l IH]; simpl; [done|]. intros [H1 H2]%not_elem_of_cons. rewrite bool_decide_false by done. simpl. by rewrite IH.
Qed.

Lemma filter_length (key : ClientNetworkConfig) l : NoDup l -> key ∈ l -> S (length (List.filter (fun k => negb (bool_decide (k = key))) l)) = length l.
Proof.
  induction l as [|x l IH]; intros Hn Hk; [by apply not_elem_of_nil in Hk|]. apply NoDup_cons in Hn as [Hx Hn]. simpl.
  apply elem_of_cons in Hk as [->|Hk]; [rewrite bool_decide_true by done; simpl; by rewrite filter_absent|].
  rewrite bool_decide_false by (by intros ->). simpl. by rewrite IH.
Qed.

Lemma touch_nodup key l : NoDup l -> NoDup (touch key l).
Proof.
  intros Hn. unfold touch. rewrite NoDup_app. split_and!; [|intros x Hx ->%list_elem_of_singleton|apply NoDup_singleton].
  - by apply NoDup_ListNoDup, List.NoDup_filter, NoDup_ListNoDup.
  - apply list_elem_of_In, filter_In in Hx as [_ Hx]. by rewrite bool_decide_true in Hx.
Qed.

(** Keeping the last [n] of a recency list is what the cache does. *)
Lemma last_n_touch n key l : NoDup l -> (0 < n)%nat ->
  last_n n (touch key l) =
  if bool_decide (key ∈ last_n n l) then touch key (last_n n l)
  else (if (length (last_n n l) =? n)%nat then tail (last_n n l) else last_n n l) ++ [key].
Proof.
  intros Hn Hpos. destruct (last_n_split n l) as (pre & El & Hlen). set (kept := last_n n l) in *. rewrite El in Hn.
  apply NoDup_app in Hn as (_ & Hdis & Hk). unfold touch. rewrite El at 1. rewrite List.filter_app, <- app_assoc. case_bool_decide as Hin.
  - apply last_n_suffix. rewrite length_app. simpl. rewrite Nat.add_1_r, filter_length by done. destruct Hlen as [|[-> ?]]; [by left|by right].
  - rewrite (filter_absent key kept) by done. destruct (Nat.eqb_spec (length kept) n) as [E|E].
    + destruct kept as [|x kept]; [simpl in E; lia|]. simpl.
      replace (List.filter _ pre ++ x :: kept ++ [key]) with ((List.filter (fun k => negb (bool_decide (k = key))) pre ++ [x]) ++ kept ++ [key])
        by (by rewrite <- app_assoc). apply last_n_suffix. left. rewrite length_app. simpl in *. lia.
    + destruct Hlen as [|[-> Hl]]; [done|]. apply last_n_suffix. right. split; [done|]. rewrite length_app. simpl. lia.
Qed.

Lemma find_entry_keys config s : NoDup (keys s) ->
  keys (find_entry config s).2 =
  if bool_decide (ClientKey_new config ∈ keys s) then touch (ClientKey_new config) (keys s)
  else (if (length (keys s) =? CLIENT_CACHE_CAPACITY)%nat then tail (keys s) else keys s) ++ [ClientKey_new config].
Proof.
  unfold keys, find_entry. intros Hn. set (key := ClientKey_new config). destruct (list_find _ (cl_entries s)) as [[i e]|] eqn:E.
  - apply list_find_Some in E as (Hi & Hk & Hfirst). rewrite bool_decide_true.
    2: { apply list_elem_of_fmap. exists e. split; [done|]. by apply list_elem_of_lookup_2 in Hi. }
    simpl. rewrite map_app. simpl. rewrite Hk. unfold touch. f_equal. clear Hfirst. revert i Hi. generalize dependent (cl_entries s).
    induction l as [|d l IH]; intros Hn i Hi; [done|]. simpl in Hn. apply NoDup_cons in Hn as [Hd Hn]. destruct i as [|i]; simpl in *.
    + injection Hi as ->. rewrite Hk, bool_decide_true by done. simpl. symmetry. apply filter_absent. by rewrite <- Hk.
    + rewrite bool_decide_false; [simpl; f_equal; by apply IH|]. intros Ed. apply Hd. rewrite Ed, <- Hk.
      apply list_elem_of_fmap. exists e. split; [done|]. by apply list_elem_of_lookup_2 in Hi.
  - apply list_find_None in E. rewrite bool_decide_false.
    2: { intros (d & Ed & Hd)%list_elem_of_fmap. rewrite Forall_forall in E. by apply (E d Hd). }
    simpl. rewrite length_map, map_app. by destruct (_ =? _)%nat, (cl_entries s).
Qed.

(** The client cache is a least-recently-used cache.  After any requests, whatever
    constructions failed, it holds the sixteen configurations used last, in the order of
    their last use, the default one counted from the start; configurations that differ
    in the connect timeout only are the same. *)
Theorem client_cache_is_lru build config limit s limit' requests :
  Downloader_build build config limit = Ok (s, limit') ->
  keys (fold_left (fun s request => (cached_client_for_config build request s).2) requests s) =
  last_n CLIENT_CACHE_CAPACITY (recency (map ClientKey_new (config :: requests))).
Proof.
  unfold Downloader_build. case_bool_decide; [done|]. destruct (build 0%nat config); [done|]. intros [= <- _].
  unfold recency. cbn [map fold_left]. set (s0 := mkClients _ _ _ _).
  assert (keys s0 = last_n CLIENT_CACHE_CAPACITY (touch (ClientKey_new config) [])) as H0 by done.
  assert (NoDup (touch (ClientKey_new config) [])) as Hn by apply touch_nodup, NoDup_nil_2.
  revert H0 Hn. generalize (touch (ClientKey_new config) []). generalize s0. clear s0.
  induction requests as [|request requests IH]; intros s l H0 Hn; [done|]. cbn [map fold_left]. apply IH; [|by apply touch_nodup].
  rewrite last_n_touch by (done || unfold CLIENT_CACHE_CAPACITY; lia). rewrite <- H0.
  unfold cached_client_for_config. assert (NoDup (keys s)) as Hk.
  { rewrite H0. destruct (last_n_split CLIENT_CACHE_CAPACITY l) as (pre & El & _). rewrite El in Hn. by apply NoDup_app in Hn as (_ & _ & ?). }
  rewrite <- (find_entry_keys request s Hk). destruct (find_entry request s) as [entry s']. simpl. unfold fill_entry.
  destruct (mjoin _); [done|]. by destruct (build _ _).
Qed.

Definition demo_build (n : nat) (config : ClientNetworkConfig) : option DownloadError := None.

Definition demo_ipv4 : ClientNetworkConfig :=
  mkNetwork (secs 5) 8 (secs 90) None None None None None None None [] [] false false.

Lemma client_cache_is_lru_witness :
  exists s, Downloader_build demo_build ClientNetworkConfig_default None = Ok (s, None) /\
  keys (fold_left (fun s request => (cached_client_for_config demo_build request s).2)
    [demo_ipv4; with_connect_timeout (secs 7) ClientNetworkConfig_default] s) =
  [ClientKey_new demo_ipv4; ClientKey_new ClientNetworkConfig_default].
Proof.
  eexists. split; [reflexivity|]. rewrite (client_cache_is_lru demo_build ClientNetworkConfig_default None _ None); [|reflexivity].
  by vm_compute.
Defined.

(** ** One client for each entry *)

Section Sharing.
  Context (build : nat -> ClientNetworkConfig -> option DownloadError).

(** Callers that found their entry and hold it, and the clients handed out so far. *)
Record CacheRun := mkCacheRun {
  cr_clients : Clients;
  cr_waiting : list (ClientNetworkConfig * nat);
  cr_given : list (ClientNetworkConfig * nat * nat);
}.

(** The two locked parts of concurrent lookups, interleaved. *)
Inductive cache_step : CacheRun -> CacheRun -> Prop :=
  | cache_find s waiting given config entry s' :
      find_entry config s = (entry, s') ->
      cache_step (mkCacheRun s waiting given) (mkCacheRun s' ((ClientKey_new config, entry) :: waiting) given)
  | cache_given s waiting given config entry client s' :
      (ClientKey_new config, entry) ∈ waiting -> fill_entry build entry config s = (Ok client, s') ->
      cache_step (mkCacheRun s waiting given) (mkCacheRun s' waiting ((ClientKey_new config, entry, client) :: given))
  | cache_failed s waiting given config entry e s' :
      (ClientKey_new config, entry) ∈ waiting -> fill_entry build entry config s = (Err e, s') ->
      cache_step (mkCacheRun s waiting given) (mkCacheRun s' waiting given).

Inductive cache_run (s : Clients) : CacheRun -> Prop :=
  | cache_start : cache_run s (mkCacheRun s [] [])
  | cache_next r r' : cache_run s r -> cache_step r r' -> cache_run s r'.

(** Which configuration an entry was made for. *)
Definition owned (r : CacheRun) (key : ClientNetworkConfig) (entry : nat) : Prop :=
  (key, entry) ∈ cl_entries (cr_clients r) \/ (key, entry) ∈ cr_waiting r.

Record Cache_ok (r : CacheRun) : Prop := {
  ck_owner : forall k1 k2 e, owned r k1 e -> owned r k2 e -> k1 = k2;
  ck_next : forall k e, owned r k e -> (e < cl_next (cr_clients r))%nat;
  ck_cells : forall e c, cl_cells (cr_clients r) !! e = Some (Some c) -> (e < cl_next (cr_clients r) /\ c < cl_built (cr_clients r))%nat;
  ck_inj : forall e1 e2 c, cl_cells (cr_clients r) !! e1 = Some (Some c) -> cl_cells (cr_clients r) !! e2 = Some (Some c) -> e1 = e2;
  ck_given : forall k e c, (k, e, c) ∈ cr_given r -> (k, e) ∈ cr_waiting r /\ cl_cells (cr_clients r) !! e = Some (Some c);
}.

Lemma find_entry_ok s waiting given config entry s' :
  Cache_ok (mkCacheRun s waiting given) -> find_entry config s = (entry, s') ->
  Cache_ok (mkCacheRun s' ((ClientKey_new config, entry) :: waiting) given).
Proof.
  intros [Ho Hn Hc Hi Hg]. unfold find_entry, owned in *. simpl in *. destruct (list_find _ (cl_entries s)) as [[i e]|] eqn:E.
  - apply list_find_Some in E as (He & Hk & _). intros [= <- <-].
    assert (forall k n, (k, n) ∈ delete i (cl_entries s) ++ [e] \/ (k, n) ∈ (ClientKey_new config, e.2) :: waiting ->
      (k, n) ∈ cl_entries s \/ (k, n) ∈ waiting) as Hsub.
    { intros k n. rewrite elem_of_app, list_elem_of_singleton, elem_of_cons, <- Hk. apply list_elem_of_lookup_2 in He.
      intros [[H|H]|[H|H]]; [left; by apply list_elem_of_delete_inv in H|left; by subst|left; by destruct e; simpl in H; rewrite H|by right]. }
    split; unfold owned; simpl; try done; [intros k1 k2 n H1 H2|intros k n H|].
    + apply (Ho _ _ n); by apply Hsub.
    + apply (Hn k). by apply Hsub.
    + intros k n c H. destruct (Hg k n c H). split; [by right|done].
  - intros [= <- <-]. set (kept := if (_ =? _)%nat then _ else _).
    assert (forall k n, (k, n) ∈ kept ++ [(ClientKey_new config, cl_next s)] \/ (k, n) ∈ (ClientKey_new config, cl_next s) :: waiting ->
      (k, n) = (ClientKey_new config, cl_next s) \/ (k, n) ∈ cl_entries s \/ (k, n) ∈ waiting) as Hsub.
    { intros k n. rewrite elem_of_app, list_elem_of_singleton, elem_of_cons. intros [[H|H]|[H|H]]; try tauto. right; left.
      subst kept. destruct (_ =? _)%nat; [|done]. destruct (cl_entries s); [done|by right]. }
    split; unfold owned; simpl.
    + intros k1 k2 n [[= -> ->]|H1]%Hsub [H2|H2]%Hsub; [by injection H2|by apply Hn in H2; lia|injection H2 as -> ->; apply Hn in H1; lia|by apply (Ho _ _ n)].
    + intros k n [[= -> ->]|H]%Hsub; [lia|]. apply Hn in H. lia.
    + intros n c [[<- ?]|[_ H]]%lookup_insert_Some; [done|]. apply Hc in H. lia.
    + intros n m c [[<- ?]|[_ H1]]%lookup_insert_Some [[<- ?]|[_ H2]]%lookup_insert_Some; try done. by apply (Hi n m c).
    + intros k n c H. destruct (Hg k n c H) as [H1 H2]. split; [by right|]. rewrite lookup_insert_ne; [done|]. apply Hc in H2. lia.
Qed.

(** Filling an entry leaves the clients of the others alone. *)
Lemma fill_entry_ok s waiting given config entry r s' :
  Cache_ok (mkCacheRun s waiting given) -> (ClientKey_new config, entry) ∈ waiting -> fill_entry build entry config s = (r, s') ->
  Cache_ok (mkCacheRun s' waiting given) /\ (forall client, r = Ok client -> cl_cells s' !! entry = Some (Some client)).
Proof.
  intros Hok Hw. unfold fill_entry. destruct (mjoin (cl_cells s !! entry)) as [client|] eqn:E.
  { intros [= <- <-]. split; [done|]. intros c [= <-]. by destruct (cl_cells s !! entry) as [[c|]|]; simplify_eq/=. }
  assert (forall c, cl_cells s !! entry <> Some (Some c)) as Hempty by (intros c Hc; by rewrite Hc in E).
  destruct Hok as [Ho Hn Hc Hi Hg]. unfold owned in *. simpl in *. destruct (build _ _); intros [= <- <-].
  - split; [|done]. split; unfold owned; simpl; try done. intros n c H. apply Hc in H. lia.
  - split; [|intros c [= <-]; simpl; by rewrite lookup_insert_eq]. split; unfold owned; simpl; try done.
    + intros n c [[<- [= <-]]|[_ H]]%lookup_insert_Some; [|apply Hc in H; lia]. split; [|lia]. apply (Hn (ClientKey_new config)). by right.
    + intros n m c [[<- [= <-]]|[_ H1]]%lookup_insert_Some [[<- H2]|[_ H2]]%lookup_insert_Some; try done.
      * apply Hc in H2. lia.
      * injection H2 as <-. apply Hc in H1. lia.
      * by apply (Hi n m c).
    + intros k n c H. destruct (Hg k n c H) as [H1 H2]. split; [done|]. rewrite lookup_insert_ne; [done|]. intros <-. by destruct (Hempty c).
Qed.

Lemma cache_run_ok config limit s limit' r : Downloader_build build config limit = Ok (s, limit') -> cache_run s r -> Cache_ok r.
Proof.
  unfold Downloader_build. case_bool_decide; [done|]. destruct (build 0%nat config); [done|]. intros [= <- _] Hr.
  induction Hr as [|r r' Hr IH Hs].
  - split; unfold owned; simpl.
    + intros k1 k2 e [[= -> ->]%list_elem_of_singleton|H1%not_elem_of_nil] [[= ->]%list_elem_of_singleton|H2%not_elem_of_nil]; done.
    + intros k e [[= -> ->]%list_elem_of_singleton|H1%not_elem_of_nil]; [lia|done].
    + intros e c [<- [= <-]]%lookup_singleton_Some. lia.
    + intros e1 e2 c [<- _]%lookup_singleton_Some [<- _]%lookup_singleton_Some. done.
    + by intros k e c ?%not_elem_of_nil.
  - destruct Hs as [s waiting given request entry s' E|s waiting given request entry client s' Hw E|s waiting given request entry e s' Hw E].
    + by apply (find_entry_ok s waiting given).
    + destruct (fill_entry_ok _ _ _ _ _ _ _ IH Hw E) as [[Ho Hn Hc Hi Hg] Hcell]. split; try done.
      intros k n c [[= -> -> ->]|Hin]%elem_of_cons; [|by apply Hg]. split; [done|]. by apply Hcell.
    + exact (proj1 (fill_entry_ok _ _ _ _ _ _ _ IH Hw E)).
Qed.

(** Clients are shared exactly by entry.  However the two locked halves of
    concurrent lookups interleave, and whatever constructions fail, two callers are given
    the same client if and only if they found the same entry, and then they asked for
    configurations that differ at most in the connect timeout. *)
Theorem clients_shared_by_entry config limit s limit' r k1 e1 c1 k2 e2 c2 :
  Downloader_build build config limit = Ok (s, limit') -> cache_run s r ->
  (k1, e1, c1) ∈ cr_given r -> (k2, e2, c2) ∈ cr_given r -> (c1 = c2 <-> e1 = e2) /\ (e1 = e2 -> k1 = k2).
Proof.
  intros Hb Hr H1 H2. destruct (cache_run_ok _ _ _ _ _ Hb Hr) as [Ho Hn Hc Hi Hg].
  destruct (Hg _ _ _ H1) as [W1 C1], (Hg _ _ _ H2) as [W2 C2]. split; [split|].
  - intros ->. by apply (Hi e1 e2 c2).
  - intros ->. rewrite C1 in C2. by injection C2.
  - intros ->. apply (Ho _ _ e2); by right.
Qed.
End Sharing.

(** Two lookups, interleaved: both find their entries before either fills one. *)
Definition demo_s0 : Clients := mkClients [(ClientKey_new ClientNetworkConfig_default, 0%nat)] {[0%nat := Some 0%nat]} 1 1.
Definition demo_s1 : Clients := (find_entry demo_ipv4 demo_s0).2.
Definition demo_s2 : Clients := (find_entry ClientNetworkConfig_default demo_s1).2.
Definition demo_s3 : Clients := (fill_entry demo_build 1 demo_ipv4 demo_s2).2.
Definition demo_s4 : Clients := (fill_entry demo_build 0 ClientNetworkConfig_default demo_s3).2.

Definition demo_cache : CacheRun :=
  mkCacheRun demo_s4 [(ClientKey_new ClientNetworkConfig_default, 0%nat); (ClientKey_new demo_ipv4, 1%nat)]
    [(ClientKey_new ClientNetworkConfig_default, 0%nat, 0%nat); (ClientKey_new demo_ipv4, 1%nat, 1%nat)].

Lemma demo_cache_run : cache_run demo_build demo_s0 demo_cache.
Proof.
  eapply cache_next; [|by apply (cache_given demo_build demo_s3 _ _ ClientNetworkConfig_default 0%nat 0%nat demo_s4); [left|vm_compute]].
  eapply cache_next; [|by apply (cache_given demo_build demo_s2 _ _ demo_ipv4 1%nat 1%nat demo_s3); [right; left|vm_compute]].
  eapply cache_next; [|by apply (cache_find demo_build demo_s1 _ _ ClientNetworkConfig_default 0%nat demo_s2); vm_compute].
  eapply cache_next; [|by apply (cache_find demo_build demo_s0 _ _ demo_ipv4 1%nat demo_s1); vm_compute]. apply cache_start.
Qed.

Lemma clients_shared_by_entry_witness :
  (ClientKey_new demo_ipv4, 1%nat, 1%nat) ∈ cr_given demo_cache /\ (1%nat = 0%nat <-> 1%nat = 0%nat).
Proof.
  split; [right; by left|].
  apply (clients_shared_by_entry demo_build ClientNetworkConfig_default None demo_s0 None demo_cache
    (ClientKey_new demo_ipv4) 1%nat 1%nat (ClientKey_new ClientNetworkConfig_default) 0%nat 0%nat eq_refl demo_cache_run); [right; by left|by left].
Defined.
