(* ===== verification/Manager.v ===== *)
(** * Download tasks ([src/manager.rs])

    A downloader runs each download as a task: the specification is validated, a permit
    of the concurrency limit is acquired while stop requests are observed, a client is
    looked up, the session runs, and the result decides the end state that is published.
    The tasks run concurrently; a step of the relation below is what one of them does
    between two suspension points.

    Of tokio's semaphore the model uses that it is fair: a permit that is given back goes
    to the task that has waited longest, and is free only when none waits; a task that
    stops waiting leaves the queue, or gives back the permit it was handed.  Nothing
    closes the semaphore of the limit.  A task that panics unwinds: it drops its permit
    and publishes nothing. *)

From S2P Require Import Prelude RustStr Errors Config Retry Float64 Progress Clients.

(** [Queued]: at [acquire_download_permit]; [Granted]: there, and handed a permit. *)
Inductive Phase :=
| Created
| Queued
| Granted
| Entered (permit : bool)
| Transferring (permit : bool) (client : nat)
| Ended (r : result unit DownloadError)
| Finished (r : result unit DownloadError)
| Panicked (message : rstr).

Record Task := mkTask {
  tk_spec : DownloadSpec;
  tk_signal : StopSignal;
  tk_phase : Phase;
  tk_progress : ProgressSnapshot;
}.

(** [dl_available] and [dl_queue]: the free permits of the semaphore and the tasks that
    wait for one, the first first. *)
Record Downloader := mkDownloader {
  dl_limit : option nat;
  dl_available : nat;
  dl_queue : list nat;
  dl_config : ClientNetworkConfig;
  dl_clients : Clients;
  dl_tasks : list Task;
}.

Definition Downloader_new (config : ClientNetworkConfig) (clients : Clients) (limit : option nat) : Downloader :=
  mkDownloader limit (default 0%nat limit) [] config clients [].

(** [Downloader::download] spawns the task. *)
Definition download (spec : DownloadSpec) (d : Downloader) : Downloader :=
  mkDownloader (dl_limit d) (dl_available d) (dl_queue d) (dl_config d) (dl_clients d)
    (dl_tasks d ++ [mkTask spec Running Created ProgressSnapshot_default]).

(** A poll of [Semaphore::acquire] by task [i]: whether it is ready, and the semaphore. *)
Definition poll_acquire (i : nat) (phase : Phase) (available : nat) (queue : list nat) : bool * nat * list nat :=
  match phase with
  | Granted => (true, available, queue)
  | _ =>
      if bool_decide (i ∈ queue) then (false, available, queue)
      else match available with S n => (true, n, queue) | O => (false, available, queue ++ [i]) end
  end.

(** [acquire_download_permit]: the stop request is looked at first; [None] keeps waiting. *)
Definition acquire_download_permit (signal : StopSignal) (ready : bool) : option (result unit DownloadError) :=
  match stop_signal_error signal with
  | Some e => Some (Err e)
  | None => if ready then Some (Ok tt) else None
  end.

Definition requested_client_config_for_spec (base : ClientNetworkConfig) (spec : DownloadSpec) : ClientNetworkConfig :=
  resolve_network_config spec base.

(** [DownloadSpec::connect_timeout] *)
Definition spec_connect_timeout (timeout : Z) (spec : DownloadSpec) : DownloadSpec :=
  let o := ds_overrides spec in
  mkSpec (ds_storage spec) (ds_recovery spec) (ds_scheduling spec) (ds_retry spec) (ds_url spec) (ds_output_path spec)
    (ds_output_dir spec) (ds_headers spec) (ds_max_connections spec)
    (mkOverrides (ov_all_proxy o) (ov_http_proxy o) (ov_https_proxy o) (ov_ca_info o) (ov_ca_path o) (ov_client_cert o)
      (ov_client_key o) (Some timeout) (ov_idle_pool o))
    (ds_read_timeout spec) (ds_request_headers_timeout spec) (ds_max_download_speed spec).

Definition at_phase (phase : Phase) (t : Task) : Task := mkTask (tk_spec t) (tk_signal t) phase (tk_progress t).

(** The permits a task holds. *)
Definition released (phase : Phase) : nat :=
  match phase with Granted | Entered true | Transferring true _ => 1 | _ => 0 end.

Definition with_task (i : nat) (t : Task) (available : nat) (queue : list nat) (d : Downloader) : Downloader :=
  mkDownloader (dl_limit d) available queue (dl_config d) (dl_clients d) (<[i := t]> (dl_tasks d)).

(** A permit is given back: to the first task that waits, or for the next one that asks. *)
Definition give_back (d : Downloader) : Downloader :=
  match dl_queue d with
  | j :: queue => mkDownloader (dl_limit d) (dl_available d) queue (dl_config d) (dl_clients d) (alter (at_phase Granted) j (dl_tasks d))
  | [] => mkDownloader (dl_limit d) (S (dl_available d)) [] (dl_config d) (dl_clients d) (dl_tasks d)
  end.

(** The body of the task ends or unwinds; with it go its place in the queue and its permit. *)
Definition leave_body (i : nat) (t : Task) (phase : Phase) (d : Downloader) : Downloader :=
  let d := with_task i (at_phase phase t) (dl_available d) (filter (fun j => j <> i) (dl_queue d)) d in
  if (released (tk_phase t) =? 1)%nat then give_back d else d.

Definition end_body (i : nat) (t : Task) (r : result unit DownloadError) (d : Downloader) : Downloader := leave_body i t (Ended r) d.

Section Tasks.
  (** [Instant::checked_add] of the validation; the failures of client construction. *)
  Context (now_plus : Z -> bool) (build : nat -> ClientNetworkConfig -> option DownloadError).

(** The first poll: validation, then the limit. *)
Definition start (i : nat) (t : Task) (d : Downloader) : Downloader :=
  match validate now_plus (tk_spec t) with
  | Err e => end_body i t (Err e) d
  | Ok _ =>
      match dl_limit d with
      | Some _ => with_task i (at_phase Queued t) (dl_available d) (dl_queue d) d
      | None => with_task i (at_phase (Entered false) t) (dl_available d) (dl_queue d) d
      end
  end.

Definition poll_permit (i : nat) (t : Task) (d : Downloader) : Downloader :=
  let '(ready, available, queue) := poll_acquire i (tk_phase t) (dl_available d) (dl_queue d) in
  match acquire_download_permit (tk_signal t) ready with
  | None => with_task i t available queue d
  | Some (Err e) => end_body i t (Err e) d
  | Some (Ok _) => with_task i (at_phase (Entered true) t) available queue d
  end.

Definition obtain_client (i : nat) (t : Task) (permit : bool) (d : Downloader) : Downloader :=
  let requested_config := requested_client_config_for_spec (dl_config d) (tk_spec t) in
  let spec := spec_connect_timeout (nc_connect_timeout requested_config) (tk_spec t) in
  let '(r, clients) := cached_client_for_config build requested_config (dl_clients d) in
  let d := mkDownloader (dl_limit d) (dl_available d) (dl_queue d) (dl_config d) clients (dl_tasks d) in
  match r with
  | Err e => end_body i t (Err e) d
  | Ok client => with_task i (mkTask spec (tk_signal t) (Transferring permit client) (tk_progress t)) (dl_available d) (dl_queue d) d
  end.

Definition set_progress (p : ProgressSnapshot) (t : Task) : Task := mkTask (tk_spec t) (tk_signal t) (tk_phase t) p.

Definition set_signal (s : StopSignal) (t : Task) : Task := mkTask (tk_spec t) s (tk_phase t) (tk_progress t).

(** What runs after the body: the end state, then the result for [wait]. *)
Definition publish (i : nat) (t : Task) (r : result unit DownloadError) (d : Downloader) : Downloader :=
  with_task i (at_phase (Finished r) (set_progress (publish_terminal_state r (tk_progress t)) t)) (dl_available d) (dl_queue d) d.

(** [DownloadHandle::wait]; [message]: the text of the [JoinError] of a task that panicked. *)
Definition wait (t : Task) : option (result unit DownloadError) :=
  match tk_phase t with
  | Finished r => Some r
  | Panicked message => Some (Err (TaskFailed (str "task panicked: " ++ message)))
  | _ => None
  end.

(** Where the code of a body runs. *)
Definition in_body (phase : Phase) : bool := match phase with Created | Entered _ | Transferring _ _ => true | _ => false end.

Inductive task_step (d : Downloader) : Downloader -> Prop :=
  | task_download spec : task_step d (download spec d)
  | task_start_ i t : dl_tasks d !! i = Some t -> tk_phase t = Created -> task_step d (start i t d)
  | task_poll i t : dl_tasks d !! i = Some t -> tk_phase t = Queued \/ tk_phase t = Granted -> task_step d (poll_permit i t d)
  | task_client i t permit : dl_tasks d !! i = Some t -> tk_phase t = Entered permit -> task_step d (obtain_client i t permit d)
  | task_started i t permit client total downloaded now :
      dl_tasks d !! i = Some t -> tk_phase t = Transferring permit client ->
      task_step d (with_task i (set_progress (transfer_started total downloaded now (tk_progress t)) t) (dl_available d) (dl_queue d) d)
  | task_report i t permit client reporter update now :
      dl_tasks d !! i = Some t -> tk_phase t = Transferring permit client ->
      task_step d (with_task i (set_progress (force_report update now (reporter, tk_progress t)).2 t) (dl_available d) (dl_queue d) d)
  | task_end i t permit client r :
      dl_tasks d !! i = Some t -> tk_phase t = Transferring permit client -> task_step d (end_body i t r d)
  | task_panic i t message :
      dl_tasks d !! i = Some t -> in_body (tk_phase t) = true -> task_step d (leave_body i t (Panicked message) d)
  | task_publish i t r : dl_tasks d !! i = Some t -> tk_phase t = Ended r -> task_step d (publish i t r d)
  | task_signal i t signal :
      dl_tasks d !! i = Some t -> task_step d (with_task i (set_signal signal t) (dl_available d) (dl_queue d) d).

Inductive task_run (config : ClientNetworkConfig) (limit : option nat) : Downloader -> Prop :=
  | run_built clients limit' : Downloader_build build config limit = Ok (clients, limit') -> task_run config limit (Downloader_new config clients limit')
  | run_step d d' : task_run config limit d -> task_step d d' -> task_run config limit d'.

(** ** The invariant *)

Definition permits (tasks : list Task) : nat := sum_list_with (fun t => released (tk_phase t)) tasks.

Definition terminal (s : DownloadState) : bool := match s with StPending | StDownloading => false | _ => true end.

(** A task publishes an end state when it finishes, and the one its result means. *)
Definition Told (t : Task) : Prop :=
  match tk_phase t with
  | Finished r => pg_state (tk_progress t) = terminal_state_for r
  | _ => terminal (pg_state (tk_progress t)) = false
  end.

(** Without a limit no task ever waits or holds a permit. *)
Definition Unlimited (t : Task) : Prop := released (tk_phase t) = 0%nat /\ tk_phase t <> Queued.

Definition queued (tasks : list Task) (j : nat) : Prop := exists t, tasks !! j = Some t /\ tk_phase t = Queued.

Record Tasks_ok (limit : option nat) (d : Downloader) : Prop := {
  to_limit : dl_limit d = limit;
  to_positive : limit <> Some 0%nat;
  to_permits : (dl_available d + permits (dl_tasks d) = default 0 limit)%nat;
  to_told : Forall Told (dl_tasks d);
  to_unlimited : limit = None -> Forall Unlimited (dl_tasks d);
  to_once : NoDup (dl_queue d);
  to_queue : Forall (queued (dl_tasks d)) (dl_queue d);
  to_fair : dl_queue d <> [] -> dl_available d = 0%nat;
}.

Lemma permits_insert tasks i t t' : tasks !! i = Some t ->
  (permits (<[i := t']> tasks) + released (tk_phase t) = permits tasks + released (tk_phase t'))%nat.
Proof.
  revert i. induction tasks as [|x tasks IH]; intros [|i] Hi; simplify_eq/=; [unfold permits; simpl; lia|].
  specialize (IH i Hi). unfold permits in *. simpl. lia.
Qed.

Lemma queued_insert tasks i t' queue : i ∉ queue -> Forall (queued tasks) queue -> Forall (queued (<[i := t']> tasks)) queue.
Proof.
  intros Hi HF. rewrite !Forall_forall in *. intros j Hj. destruct (HF j Hj) as (t & Ht & Hp). exists t. rewrite list_lookup_insert_ne; [done|].
  intros ->. done.
Qed.

(** What a step of one task has to show. *)
Lemma with_task_ok limit d i t t' available queue clients :
  Tasks_ok limit d -> dl_tasks d !! i = Some t -> (available + released (tk_phase t') = dl_available d + released (tk_phase t))%nat ->
  Told t' -> (limit = None -> Unlimited t') -> NoDup queue -> Forall (queued (<[i := t']> (dl_tasks d))) queue -> (queue <> [] -> available = 0%nat) ->
  Tasks_ok limit (mkDownloader (dl_limit d) available queue (dl_config d) clients (<[i := t']> (dl_tasks d))).
Proof.
  intros [Hl Hp Hs Ht Hu Hn Hq Hf] Hi Ha Ht' Hu' Hn' Hq' Hf'. split; simpl; try done; [|by apply Forall_insert|].
  - pose proof (permits_insert _ _ _ t' Hi). lia.
  - intros E. apply Forall_insert; [by apply Hu|by apply Hu'].
Qed.

(** The queue does not change, and the task is not in it. *)
Lemma same_queue_ok limit d i t t' available clients :
  Tasks_ok limit d -> dl_tasks d !! i = Some t -> tk_phase t <> Queued \/ tk_phase t' = Queued ->
  (available + released (tk_phase t') = dl_available d + released (tk_phase t))%nat ->
  Told t' -> (limit = None -> Unlimited t') -> (dl_queue d <> [] -> available = 0%nat) ->
  Tasks_ok limit (mkDownloader (dl_limit d) available (dl_queue d) (dl_config d) clients (<[i := t']> (dl_tasks d))).
Proof.
  intros Hd Hi Hph Ha Ht Hu Hf. eapply with_task_ok; try done; [apply Hd|]. pose proof (to_queue _ _ Hd) as HF. rewrite !Forall_forall in *.
  intros j Hj. destruct (HF j Hj) as (u & Hju & Hp). destruct (base.decide (i = j)) as [->|Hne].
  - simplify_eq. exists t'. rewrite list_lookup_insert_eq by (by apply lookup_lt_Some in Hi). split; [done|]. by destruct Hph.
  - exists u. by rewrite list_lookup_insert_ne.
Qed.

Lemma give_back_ok limit d n :
  dl_limit d = limit -> limit = Some n -> n <> 0%nat -> (S (dl_available d + permits (dl_tasks d)) = n)%nat -> Forall Told (dl_tasks d) ->
  NoDup (dl_queue d) -> Forall (queued (dl_tasks d)) (dl_queue d) -> (dl_queue d <> [] -> dl_available d = 0%nat) -> Tasks_ok limit (give_back d).
Proof.
  intros Hl -> Hn Hs Ht Hnd Hq Hf. unfold give_back. destruct (dl_queue d) as [|j queue] eqn:Eq; [split; simpl; try done; try congruence; simpl; lia|].
  apply Forall_cons in Hq as [(t & Hj & Hp) Hq]. apply NoDup_cons in Hnd as [Hj' Hnd]. specialize (Hf ltac:(done)).
  assert (Told t) as Tt by by apply (Forall_lookup_1 _ _ _ _ Ht Hj).
  assert (alter (at_phase Granted) j (dl_tasks d) = <[j := at_phase Granted t]> (dl_tasks d)) as ->.
  { apply list_eq. intros k. destruct (base.decide (j = k)) as [<-|Hne].
    - by rewrite list_lookup_alter_eq, Hj, list_lookup_insert_eq by (by apply lookup_lt_Some in Hj).
    - by rewrite list_lookup_alter_ne, list_lookup_insert_ne. }
  split; simpl; try done; try congruence; [| |by apply queued_insert].
  - pose proof (permits_insert _ _ _ (at_phase Granted t) Hj) as H. simpl in H. rewrite Hp in H. simpl in H. lia.
  - apply Forall_insert; [done|]. unfold Told in *. simpl. by rewrite Hp in Tt.
Qed.


Lemma leave_body_ok limit d i t phase :
  Tasks_ok limit d -> dl_tasks d !! i = Some t -> (forall r', tk_phase t <> Finished r') ->
  (exists r, phase = Ended r) \/ (exists message, phase = Panicked message) -> Tasks_ok limit (leave_body i t phase d).
Proof.
  intros Hd Hi Hf Hph. assert (Told (at_phase phase t)) as Ht.
  { pose proof (Forall_lookup_1 _ _ _ _ (to_told _ _ Hd) Hi) as H. unfold Told in *. simpl.
    destruct Hph as [[r ->]|[m ->]]; destruct (tk_phase t) eqn:E; try done; by destruct (Hf r0) || by destruct (Hf r). }
  assert (released phase = 0%nat) as H0 by by destruct Hph as [[r ->]|[m ->]].
  assert (phase <> Queued) as Hnq by by destruct Hph as [[r ->]|[m ->]].
  assert (Forall (queued (<[i := at_phase phase t]> (dl_tasks d))) (filter (fun j => j <> i) (dl_queue d))) as HQ.
  { apply queued_insert; [by intros [? _]%list_elem_of_filter|]. apply Forall_forall. intros j [_ Hj]%list_elem_of_filter.
    by apply (proj1 (Forall_forall _ _) (to_queue _ _ Hd)). }
  assert (filter (fun j => j <> i) (dl_queue d) <> [] -> dl_available d = 0%nat) as HA.
  { intros Hne. apply (to_fair _ _ Hd). intros E. by rewrite E in Hne. }
  unfold leave_body. destruct (Nat.eqb_spec (released (tk_phase t)) 1) as [E1|E1].
  - destruct limit as [n|] eqn:El; [|destruct (Forall_lookup_1 _ _ _ _ (to_unlimited _ _ Hd eq_refl) Hi) as [E0 _]; congruence].
    pose proof Hd as [Hl Hp Hs HT _ Hnd _ _]. simpl in Hs. apply (give_back_ok _ _ n); simpl; try done; [congruence| | |by apply NoDup_filter].
    + pose proof (permits_insert _ _ _ (at_phase phase t) Hi) as H. simpl in H. lia.
    + by apply Forall_insert.
  - apply (with_task_ok _ _ _ t); try done; [|by apply NoDup_filter, Hd]. simpl. destruct (tk_phase t) as [| | |[]|[]| | |]; simpl in *; lia.
Qed.

Lemma set_clients_ok limit d clients :
  Tasks_ok limit d -> Tasks_ok limit (mkDownloader (dl_limit d) (dl_available d) (dl_queue d) (dl_config d) clients (dl_tasks d)).
Proof. intros []. by split. Qed.

Lemma poll_permit_ok limit d i t :
  Tasks_ok limit d -> dl_tasks d !! i = Some t -> tk_phase t = Queued \/ tk_phase t = Granted -> Tasks_ok limit (poll_permit i t d).
Proof.
  intros Hd Hi Hp. unfold poll_permit, poll_acquire.
  assert (forall e, Tasks_ok limit (end_body i t (Err e) d)) as He.
  { intros e. apply leave_body_ok; [done|done|by destruct Hp as [-> | ->]|]. left. by eexists. }
  pose proof (Forall_lookup_1 _ _ _ _ (to_told _ _ Hd) Hi) as Ht. assert (limit = None -> False) as Hlim.
  { intros Hn. destruct (Forall_lookup_1 _ _ _ _ (to_unlimited _ _ Hd Hn) Hi) as [H1 H2]. destruct Hp as [E|E]; rewrite E in *; done. }
  unfold acquire_download_permit. unfold Told in Ht. destruct Hp as [E|E]; rewrite E in *.
  - case_bool_decide as Hq.
    + destruct (stop_signal_error _); [done|]. apply (same_queue_ok _ _ _ t); try done; try (by right); try (by unfold Told; rewrite E); try (by intros ?%Hlim); apply Hd.
    + destruct (dl_available d) as [|n] eqn:Ea; destruct (stop_signal_error _); try done.
      * apply (with_task_ok _ _ _ t); try done; try (by unfold Told; rewrite E); try (by intros ?%Hlim); [by rewrite Ea|..].
        -- apply NoDup_app. split_and!; [apply Hd| |apply NoDup_singleton]. intros j Hj ->%list_elem_of_singleton. done.
        -- apply Forall_app. split; [|apply Forall_singleton; exists t; rewrite list_lookup_insert_eq by (by apply lookup_lt_Some in Hi); done].
           by apply queued_insert; [|apply Hd].
      * assert (dl_queue d = []) as Eq by (destruct (dl_queue d) eqn:Eq; [done|]; pose proof (to_fair _ _ Hd) as Hf; rewrite Eq, Ea in Hf; by specialize (Hf ltac:(done))).
        rewrite Eq. apply (with_task_ok _ _ _ t); try done; try (by intros ?%Hlim); try constructor; simpl; rewrite ?E; simpl; lia.
  - destruct (stop_signal_error _); [done|]. apply (same_queue_ok _ _ _ t); try done; try (left; by rewrite E); try (by simpl; rewrite E); try (by intros ?%Hlim); apply Hd.
Qed.

Lemma task_step_ok limit d d' : Tasks_ok limit d -> task_step d d' -> Tasks_ok limit d'.
Proof.
  intros Hd Hs. assert (forall i t, dl_tasks d !! i = Some t -> Told t /\ (limit = None -> Unlimited t)) as Hin.
  { intros i t Hi. split; [by apply (Forall_lookup_1 _ _ _ _ (to_told _ _ Hd) Hi)|]. intros Hn.
    by apply (Forall_lookup_1 _ _ _ _ (to_unlimited _ _ Hd Hn) Hi). }
  destruct Hs as [spec|i t Hi Hp|i t Hi Hp|i t permit Hi Hp|i t permit client total downloaded now Hi Hp|
    i t permit client reporter update now Hi Hp|i t permit client r Hi Hp|i t message Hi Hp|i t r Hi Hp|i t signal Hi]; try destruct (Hin i t Hi) as [Ht Hu].
  - destruct Hd as [Hl Hpos Hper Ht Hu Hn Hq Hf]. split; simpl; try done; [|by apply Forall_app; split; [|repeat constructor]| |].
    + unfold permits in *. rewrite sum_list_with_app. simpl. lia.
    + intros E. apply Forall_app. split; [by apply Hu|]. by repeat constructor.
    + eapply Forall_impl; [exact Hq|]. intros j (t & Hj & Hp). exists t. split; [by apply lookup_app_l_Some|done].
  - unfold start. destruct (validate now_plus (tk_spec t)); [|apply leave_body_ok; [done|done|by rewrite Hp|left; by eexists]].
    unfold Told in Ht. rewrite Hp in Ht. destruct (dl_limit d) eqn:El; rewrite (to_limit _ _ Hd) in El;
      (apply (same_queue_ok _ _ _ t); [done|done|left; by rewrite Hp|simpl; rewrite Hp; simpl; lia|done|by intros ->|apply Hd]).
  - by apply poll_permit_ok.
  - unfold obtain_client. destruct (cached_client_for_config _ _ _) as [[client|e] clients].
    + unfold Told in Ht. rewrite Hp in Ht. apply (same_queue_ok limit d i t); [done|done|left; by rewrite Hp|simpl; by rewrite Hp|done| |apply Hd].
      intros Hn. destruct (Hu Hn) as [Hz _]. rewrite Hp in Hz. by destruct permit.
    + apply leave_body_ok; [by apply set_clients_ok|done|by rewrite Hp|left; by eexists].
  - unfold Told in Ht. rewrite Hp in Ht. apply (same_queue_ok _ _ _ t); try done; [left; by rewrite Hp| |apply Hd]. unfold Told. simpl. by rewrite Hp.
  - unfold Told in Ht. rewrite Hp in Ht. apply (same_queue_ok _ _ _ t); try done; [left; by rewrite Hp| |apply Hd]. unfold Told. simpl. by rewrite Hp.
  - apply leave_body_ok; [done|done|by rewrite Hp|left; by eexists].
  - apply leave_body_ok; [done|done|by intros r E; rewrite E in Hp|right; by eexists].
  - apply (same_queue_ok _ _ _ t); try done; [left; by rewrite Hp|simpl; by rewrite Hp|apply Hd].
  - apply (same_queue_ok _ _ _ t); try done; [|apply Hd]. cbn [set_signal tk_phase]. destruct (tk_phase t); first [by left|by right].
Qed.

Lemma task_run_ok config limit d : task_run config limit d -> Tasks_ok limit d.
Proof.
  intros Hr. induction Hr as [clients limit' Hb|d d' Hr IH Hs]; [|by eapply task_step_ok].
  unfold Downloader_build in Hb. case_bool_decide; [done|]. destruct (build _ _); [done|]. injection Hb as _ <-.
  split; simpl; try done. by apply NoDup_nil.
Qed.

(** ** The order of the queue *)

(** The queue keeps its order; whoever leaves it was first and is handed a permit, or was
    asked to stop. *)
Definition Fair (d d' : Downloader) : Prop :=
  exists kept joined, dl_queue d' = kept ++ joined /\ kept `sublist_of` dl_queue d /\
    forall j, j ∈ dl_queue d -> j ∉ dl_queue d' ->
      (head (dl_queue d) = Some j /\ exists t, dl_tasks d' !! j = Some t /\ tk_phase t = Granted) \/
      exists t e, dl_tasks d !! j = Some t /\ stop_signal_error (tk_signal t) = Some e.

Lemma Fair_same d d' : dl_queue d' = dl_queue d -> Fair d d'.
Proof. intros E. exists (dl_queue d), []. rewrite app_nil_r. split_and!; [done|done|]. intros j Hj []. by rewrite E. Qed.

Lemma filter_not_in (i : nat) (l : list nat) : i ∉ l -> filter (fun j => j <> i) l = l.
Proof.
  induction l as [|j l IH]; [done|]. rewrite not_elem_of_cons. intros [H1 H2]. rewrite filter_cons_True by done. by rewrite IH.
Qed.

Lemma leave_body_fair limit d i t phase :
  Tasks_ok limit d -> dl_tasks d !! i = Some t -> tk_phase t <> Queued \/ is_Some (stop_signal_error (tk_signal t)) -> Fair d (leave_body i t phase d).
Proof.
  intros Hd Hi Hw. unfold leave_body. destruct (Nat.eqb_spec (released (tk_phase t)) 1) as [E1|E1].
  - assert (i ∉ dl_queue d) as Hn.
    { intros Hin. destruct (proj1 (Forall_forall _ _) (to_queue _ _ Hd) i Hin) as (u & Hu & Hp). simplify_eq. by rewrite Hp in E1. }
    rewrite filter_not_in by done. unfold give_back. cbn [dl_queue with_task]. destruct (dl_queue d) as [|j queue] eqn:Eq; [by apply Fair_same|].
    exists queue, []. cbn [dl_queue dl_tasks]. rewrite app_nil_r, Eq. split_and!; [done|by apply sublist_cons|]. intros k Hk Hnk. left.
    apply elem_of_cons in Hk as [->|]; [|done]. split; [done|]. pose proof (to_queue _ _ Hd) as HF. rewrite Eq in HF. apply Forall_cons in HF as [(u & Hu & _) _].
    exists (at_phase Granted u). split; [|done]. apply not_elem_of_cons in Hn as [Hne _]. rewrite list_lookup_alter_eq. cbn [with_task dl_tasks]. rewrite list_lookup_insert_ne by done. by rewrite Hu.
  - exists (filter (fun j => j <> i) (dl_queue d)), []. cbn [dl_queue with_task]. rewrite app_nil_r. split_and!; [done|apply sublist_filter|].
    intros j Hj Hnj. right. assert (j = i) as ->.
    { destruct (base.decide (j = i)); [done|]. destruct Hnj. by apply list_elem_of_filter. }
    destruct Hw as [Hw|[e He]]; [|by exists t, e]. destruct (proj1 (Forall_forall _ _) (to_queue _ _ Hd) i Hj) as (u & Hu & Hp). by simplify_eq.
Qed.

Lemma task_step_fair limit d d' : Tasks_ok limit d -> task_step d d' -> Fair d d'.
Proof.
  intros Hd Hs. destruct Hs as [spec|i t Hi Hp|i t Hi Hp|i t permit Hi Hp|i t permit client total downloaded now Hi Hp|
    i t permit client reporter update now Hi Hp|i t permit client r Hi Hp|i t message Hi Hp|i t r Hi Hp|i t signal Hi]; try by apply Fair_same.
  - unfold start. destruct (validate _ _); [destruct (dl_limit d); by apply Fair_same|]. eapply leave_body_fair; [done|done|left; by rewrite Hp].
  - unfold poll_permit, acquire_download_permit. destruct (stop_signal_error (tk_signal t)) as [e|] eqn:Es.
    { destruct (poll_acquire _ _ _ _) as [[? ?] ?]. eapply leave_body_fair; [done|done|right; by eexists]. }
    unfold poll_acquire. destruct Hp as [-> | ->]; [|by apply Fair_same]. case_bool_decide; [by apply Fair_same|].
    destruct (dl_available d); [|by apply Fair_same]. exists (dl_queue d), [i]. split_and!; [done|done|]. intros j Hj []. cbn. apply elem_of_app. by left.
  - unfold obtain_client. destruct (cached_client_for_config _ _ _) as [[client|e] clients]; [by apply Fair_same|].
    apply (leave_body_fair limit (mkDownloader (dl_limit d) (dl_available d) (dl_queue d) (dl_config d) clients (dl_tasks d)));
      [by apply set_clients_ok|done|left; by rewrite Hp].
  - eapply leave_body_fair; [done|done|left; by rewrite Hp].
  - eapply leave_body_fair; [done|done|left]. intros E. by rewrite E in Hp.
Qed.

(** ** What has ended stays *)

Definition over (phase : Phase) : bool := match phase with Finished _ | Panicked _ => true | _ => false end.

(** A task other than the one that moves changes at most by being handed a permit. *)
Lemma leave_body_other d i j t u phase :
  dl_tasks d !! j = Some u -> j <> i -> ~ (j ∈ dl_queue d) -> dl_tasks (leave_body i t phase d) !! j = Some u.
Proof.
  intros Hj Hne Hq. unfold leave_body. assert (dl_tasks (with_task i (at_phase phase t) (dl_available d) (filter (fun j => j <> i) (dl_queue d)) d) !! j = Some u) as H
    by (cbn; by rewrite list_lookup_insert_ne).
  destruct (_ =? _)%nat; [|done]. unfold give_back. cbn [dl_queue with_task]. destruct (filter _ _) as [|k queue] eqn:Ef; [done|]. cbn [dl_tasks].
  assert (k ∈ dl_queue d) as Hk by (apply (list_elem_of_filter (fun j => j <> i)); rewrite Ef; by left).
  rewrite list_lookup_alter_ne; [done|]. intros ->. done.
Qed.

Lemma over_stays limit d d' i t :
  Tasks_ok limit d -> task_step d d' -> dl_tasks d !! i = Some t -> over (tk_phase t) = true ->
  exists t', dl_tasks d' !! i = Some t' /\ tk_phase t' = tk_phase t /\ tk_progress t' = tk_progress t.
Proof.
  intros Hd Hs Hi Hp. assert (~ (i ∈ dl_queue d)) as Hq.
  { intros Hin. destruct (proj1 (Forall_forall _ _) (to_queue _ _ Hd) i Hin) as (u & Hu & Hpu). simplify_eq. by rewrite Hpu in Hp. }
  assert (forall j x', j <> i -> exists t', <[j := x']> (dl_tasks d) !! i = Some t' /\ tk_phase t' = tk_phase t /\ tk_progress t' = tk_progress t) as Hput
    by (intros j x' Hj; exists t; by rewrite list_lookup_insert_ne).
  assert (forall j u ph, j <> i -> exists t', dl_tasks (leave_body j u ph d) !! i = Some t' /\ tk_phase t' = tk_phase t /\ tk_progress t' = tk_progress t) as Hleave
    by (intros j u ph Hj; exists t; split; [by apply leave_body_other|done]).
  assert (forall j u, dl_tasks d !! j = Some u -> over (tk_phase u) = false -> j <> i) as Hne by (intros j u Hj Hu ->; congruence).
  destruct Hs as [spec|j u Hj Hu|j u Hj Hu|j u permit Hj Hu|j u permit client total downloaded now Hj Hu|
    j u permit client reporter update now Hj Hu|j u permit client r' Hj Hu|j u message Hj Hu|j u r' Hj Hu|j u signal Hj].
  - exists t. split; [|done]. cbn. by apply lookup_app_l_Some.
  - pose proof (Hne j u Hj ltac:(by rewrite Hu)) as Hji. unfold start. destruct (validate _ _); [destruct (dl_limit d); by apply Hput|by apply Hleave].
  - pose proof (Hne j u Hj ltac:(by destruct Hu as [-> | ->])) as Hji. unfold poll_permit. destruct (poll_acquire _ _ _ _) as [[? ?] ?].
    destruct (acquire_download_permit _ _) as [[]|]; [by apply Hput|by apply Hleave|by apply Hput].
  - pose proof (Hne j u Hj ltac:(by rewrite Hu)) as Hji. unfold obtain_client. destruct (cached_client_for_config _ _ _) as [[] clients]; [by apply Hput|].
    exists t. split; [by apply (leave_body_other (mkDownloader (dl_limit d) (dl_available d) (dl_queue d) (dl_config d) clients (dl_tasks d)))|done].
  - apply Hput, (Hne j u Hj). by rewrite Hu.
  - apply Hput, (Hne j u Hj). by rewrite Hu.
  - apply Hleave, (Hne j u Hj). by rewrite Hu.
  - apply Hleave, (Hne j u Hj). by destruct (tk_phase u).
  - apply Hput, (Hne j u Hj). by rewrite Hu.
  - cbn. destruct (base.decide (j = i)) as [->|Hji]; [|by apply Hput]. assert (u = t) as -> by congruence. exists (set_signal signal t).
    rewrite list_lookup_insert_eq by (by apply lookup_lt_Some in Hi). done.
Qed.

(** C33: at most as many downloads run as the limit allows, and they are admitted in turn.
    The permits that are left and the ones held or handed out add up to the limit, and
    tasks queue only while all are out.  A task that is polled stops if it was asked to,
    whatever the permits; otherwise it enters when it has been handed a permit, or when it
    asks while one is left, and else waits in the queue.  No step reorders the queue: a
    task leaves it only when it is first and is handed a permit, or was asked to stop. *)
Theorem permits_conserved config limit d n :
  task_run config limit d -> limit = Some n ->
  (0 < n /\ dl_available d + permits (dl_tasks d) = n)%nat /\ (dl_queue d <> [] -> permits (dl_tasks d) = n) /\
  (forall d', task_step d d' -> Fair d d') /\
  forall i t, dl_tasks d !! i = Some t -> tk_phase t = Queued \/ tk_phase t = Granted ->
    let d' := poll_permit i t d in
    match stop_signal_error (tk_signal t) with
    | Some e => dl_tasks d' !! i = Some (at_phase (Ended (Err e)) t) /\ i ∉ dl_queue d'
    | None =>
        (tk_phase t = Granted \/ (i ∉ dl_queue d /\ (permits (dl_tasks d) < n)%nat) -> dl_tasks d' !! i = Some (at_phase (Entered true) t)) /\
        (tk_phase t = Queued -> i ∈ dl_queue d \/ permits (dl_tasks d) = n -> dl_tasks d' = dl_tasks d /\ i ∈ dl_queue d')
    end.
Proof.
  intros Hr ->. pose proof (task_run_ok _ _ _ Hr) as Hd. pose proof Hd as [Hl Hpos Hper _ _ _ HQ Hfair]. simpl in Hper.
  split_and!; [destruct n; [done|lia]|done|intros H%Hfair; lia|intros d'; by apply (task_step_fair (Some n))|].
  intros i t Hi Hp d'. pose proof (lookup_lt_Some _ _ _ Hi) as Hlt. subst d'. unfold poll_permit, acquire_download_permit.
  destruct (stop_signal_error (tk_signal t)) as [e|].
  - destruct (poll_acquire _ _ _ _) as [[? ?] ?]. unfold end_body, leave_body.
    assert (forall j, j ∈ filter (fun j => j <> i) (dl_queue d) -> j <> i) as Hf by (intros j [? _]%list_elem_of_filter; done).
    destruct (_ =? 1)%nat; cbn [dl_tasks dl_queue with_task]; [|rewrite list_lookup_insert_eq by done; split; [done|by intros ?%Hf]].
    unfold give_back. cbn [dl_tasks dl_queue with_task]. destruct (filter _ _) as [|j queue] eqn:Ef; cbn [dl_tasks dl_queue].
    + rewrite list_lookup_insert_eq by done. split; [done|apply not_elem_of_nil].
    + rewrite list_lookup_alter_ne by (apply Hf; by left). rewrite list_lookup_insert_eq by done. split; [done|]. intros Hin. destruct (Hf i); [by right|done].
  - unfold poll_acquire. destruct Hp as [E|E]; rewrite E.
    + case_bool_decide as Hq.
      * split; [intros [?|[? _]]; done|]. intros _ _. cbn. split; [by apply list_insert_id|done].
      * destruct (dl_available d) as [|m] eqn:Ea; cbn.
        -- split; [intros [?|[_ ?]]; [done|lia]|]. intros _ _. split; [by apply list_insert_id|]. apply elem_of_app. right. by left.
        -- split; [intros _; by rewrite list_lookup_insert_eq|]. intros _ [?|?]; [done|lia].
    + split; [intros _; cbn; by rewrite list_lookup_insert_eq|done].
Qed.

(** C34: the published state is the result.  At every moment of every run, a task shows
    [Pending] or [Downloading] until it has published its result, and from then on the end
    state that corresponds to the value [wait] returns, which no later step changes.  The
    one exception is a task that panicked: [wait] reports [TaskFailed], and the state it
    shows stays what it was, [Pending] or [Downloading]. *)
Theorem terminal_state_truthful config limit d i t :
  task_run config limit d -> dl_tasks d !! i = Some t ->
  match wait t with
  | Some r =>
      match tk_phase t with
      | Panicked message => r = Err (TaskFailed (str "task panicked: " ++ message)) /\ terminal (pg_state (tk_progress t)) = false
      | _ => pg_state (tk_progress t) = terminal_state_for r
      end /\
      forall d', task_step d d' -> exists t', dl_tasks d' !! i = Some t' /\ wait t' = Some r /\ tk_progress t' = tk_progress t
  | None => terminal (pg_state (tk_progress t)) = false
  end.
Proof.
  intros Hr Hi. pose proof (task_run_ok _ _ _ Hr) as Hd. assert (Told t) as Ht by (by apply (Forall_lookup_1 _ _ _ _ (to_told _ _ Hd) Hi)).
  pose proof (fun d' Hs => over_stays limit d d' i t Hd Hs Hi) as Ho. unfold Told, wait in *. destruct (tk_phase t) as [| | | | | |r|m] eqn:Hp; try done.
  - split; [done|]. intros d' Hs. destruct (Ho d' Hs eq_refl) as (t' & H1 & H2 & H3). exists t'. by rewrite H2.
  - split; [done|]. intros d' Hs. destruct (Ho d' Hs eq_refl) as (t' & H1 & H2 & H3). exists t'. by rewrite H2.
Qed.
End Tasks.

(** ** A limit of one *)

Module DemoTasks.
Definition demo_spec : DownloadSpec := DownloadSpec_new (str "http://example.com/file").
Definition d0 : Downloader := Downloader_new ClientNetworkConfig_default demo_s0 (Some 1%nat).
Definition created : Task := mkTask demo_spec Running Created ProgressSnapshot_default.
Definition waiting : Task := at_phase Queued created.
Definition d1 : Downloader := download demo_spec (download demo_spec d0).
Definition d1' : Downloader := start (fun _ => true) 0 created d1.
Definition d2 : Downloader := start (fun _ => true) 1 created d1'.

(** The first of two tasks enters, the second waits. *)
Definition d2' : Downloader := poll_permit 0 waiting d2.
Definition d3 : Downloader := poll_permit 1 waiting d2'.
Definition entered : Task := at_phase (Entered true) waiting.
Definition d4 : Downloader := obtain_client demo_build 0 entered true d3.
Definition moving : Task := default created (dl_tasks d4 !! 0%nat).

(** It ends, which hands the permit on, and publishes its result; the second panics. *)
Definition d5 : Downloader := end_body 0 moving (Ok tt) d4.
Definition ended : Task := at_phase (Ended (Ok tt)) moving.
Definition d6 : Downloader := publish 0 ended (Ok tt) d5.
Definition finished : Task := default created (dl_tasks d6 !! 0%nat).
Definition granted : Task := at_phase Granted waiting.
Definition d7 : Downloader := poll_permit 1 granted d6.
Definition d8 : Downloader := leave_body 1 entered (Panicked (str "boom")) d7.

Abbreviation runs := (task_run (fun _ => true) demo_build ClientNetworkConfig_default (Some 1%nat)).

Lemma run3 : runs d3.
Proof.
  apply (run_step _ _ _ _ d2'); [apply (run_step _ _ _ _ d2); [apply (run_step _ _ _ _ d1'); [apply (run_step _ _ _ _ d1);
    [apply (run_step _ _ _ _ (download demo_spec d0)); [apply (run_step _ _ _ _ d0)|]|]|]|]|].
  - apply run_built. vm_compute. reflexivity.
  - apply task_download.
  - apply task_download.
  - apply task_start_; vm_compute; reflexivity.
  - apply task_start_; vm_compute; reflexivity.
  - apply task_poll; [vm_compute; reflexivity|left; reflexivity].
  - apply task_poll; [vm_compute; reflexivity|left; reflexivity].
Qed.

Lemma run6 : runs d6.
Proof.
  apply (run_step _ _ _ _ d5); [apply (run_step _ _ _ _ d4); [apply (run_step _ _ _ _ d3); [exact run3|]|]|].
  - apply task_client; [vm_compute; reflexivity|reflexivity].
  - apply (task_end _ _ d4 0 moving true 0); vm_compute; reflexivity.
  - apply task_publish; [vm_compute; reflexivity|reflexivity].
Qed.

Lemma run8 : runs d8.
Proof.
  apply (run_step _ _ _ _ d7); [apply (run_step _ _ _ _ d6); [exact run6|]|].
  - apply task_poll; [vm_compute; reflexivity|right; reflexivity].
  - apply task_panic; vm_compute; reflexivity.
Qed.
End DemoTasks.

Import DemoTasks.

Lemma permits_conserved_witness :
  dl_queue d3 = [1%nat] /\ permits (dl_tasks d3) = 1%nat /\ dl_queue (poll_permit 1 waiting d3) = [1%nat] /\
  dl_tasks (poll_permit 1 granted d6) !! 1%nat = Some entered.
Proof.
  destruct (permits_conserved _ _ _ _ _ _ run3 eq_refl) as (_ & Hfull & _ & Hp).
  destruct (permits_conserved _ _ _ _ _ _ run6 eq_refl) as (_ & _ & _ & Hp6). split_and!.
  - by vm_compute.
  - apply Hfull. by vm_compute.
  - destruct (Hp 1%nat waiting ltac:(by vm_compute) ltac:(by left)) as [_ H]. by vm_compute.
  - destruct (Hp6 1%nat granted ltac:(by vm_compute) ltac:(by right)) as [H _]. by apply H; left.
Defined.

Lemma terminal_state_truthful_witness :
  (wait finished = Some (Ok tt) /\ pg_state (tk_progress finished) = StCompleted) /\
  wait (default created (dl_tasks d8 !! 1%nat)) = Some (Err (TaskFailed (str "task panicked: boom"))) /\
  terminal (pg_state (tk_progress (default created (dl_tasks d8 !! 1%nat)))) = false.
Proof.
  split.
  - pose proof (terminal_state_truthful _ _ _ _ _ 0%nat finished run6 ltac:(by vm_compute)) as H.
    assert (tk_phase finished = Finished (Ok tt)) as E by (vm_compute; reflexivity). revert H. generalize dependent finished. intros t E.
    unfold wait. rewrite E. intros [H _]. done.
  - pose proof (terminal_state_truthful _ _ _ _ _ 1%nat (default created (dl_tasks d8 !! 1%nat)) run8 ltac:(by vm_compute)) as H.
    assert (tk_phase (default created (dl_tasks d8 !! 1%nat)) = Panicked (str "boom")) as E by (vm_compute; reflexivity). revert H.
    generalize dependent (default created (dl_tasks d8 !! 1%nat)). intros t E. unfold wait. rewrite E. intros [[_ H] _]. done.
Defined.
