(* ===== verification/Callback.v ===== *)
(** * Progress callbacks ([on_progress] of [src/manager.rs])

    A callback runs on a task of its own and reads the watch channel that the download
    writes to.  Of tokio's watch channel the model uses what it documents: [send] replaces
    the value and marks it unseen for every receiver; [changed] ends with [Ok] and marks
    the value seen when there is an unseen one, and with [Err] when there is none and the
    sender is gone; [borrow] reads the latest value and marks nothing. *)

From S2P Require Import Prelude Float64 Progress Manager.

Inductive CallbackAt := Awaiting | Calling | Stopped.

(** The channel, and the callback's receiver.  [cb_seen]: the version the receiver has
    seen; [cb_calls]: the snapshots the callback was called with. *)
Record Callback := mkCallback {
  cb_value : ProgressSnapshot;
  cb_version : nat;
  cb_closed : bool;
  cb_seen : nat;
  cb_at : CallbackAt;
  cb_calls : list ProgressSnapshot;
}.

(** The receiver is a clone of the handle's, which never marks a value seen. *)
Definition on_progress (value : ProgressSnapshot) (version : nat) (closed : bool) : Callback :=
  mkCallback value version closed 0 Awaiting [].

Definition send (value : ProgressSnapshot) (c : Callback) : Callback :=
  mkCallback value (S (cb_version c)) (cb_closed c) (cb_seen c) (cb_at c) (cb_calls c).

(** [rx.changed()] *)
Definition changed (c : Callback) : option Callback :=
  if negb (cb_seen c =? cb_version c)%nat
  then Some (mkCallback (cb_value c) (cb_version c) (cb_closed c) (cb_version c) Calling (cb_calls c))
  else if cb_closed c then Some (mkCallback (cb_value c) (cb_version c) (cb_closed c) (cb_seen c) Stopped (cb_calls c))
  else None.

(** The body of the loop. *)
Definition call (c : Callback) : Callback :=
  mkCallback (cb_value c) (cb_version c) (cb_closed c) (cb_seen c) (if terminal (pg_state (cb_value c)) then Stopped else Awaiting)
    (cb_calls c ++ [cb_value c]).

(** The download sends snapshots until one shows an end state ([publish_terminal_state], the
    last call of the task), and drops its sender, before that only if it panics. *)
Inductive callback_step (c : Callback) : Callback -> Prop :=
| cs_send value : cb_closed c = false -> terminal (pg_state (cb_value c)) = false -> callback_step c (send value c)
| cs_close :
    callback_step c (mkCallback (cb_value c) (cb_version c) true (cb_seen c) (cb_at c) (cb_calls c))
| cs_changed c' : cb_at c = Awaiting -> changed c = Some c' -> callback_step c c'
| cs_call : cb_at c = Calling -> callback_step c (call c).

(** ** Invariant *)

Record Callback_ok (c : Callback) : Prop := {
  co_seen : (cb_seen c <= cb_version c)%nat;
  co_sent : terminal (pg_state (cb_value c)) = true -> (0 < cb_version c)%nat;
  co_calls : match cb_at c with
             | Stopped =>
                 (exists calls, cb_calls c = calls ++ [cb_value c] /\ Forall (fun v => terminal (pg_state v) = false) calls /\
                    terminal (pg_state (cb_value c)) = true) \/
                 (Forall (fun v => terminal (pg_state v) = false) (cb_calls c) /\ cb_closed c = true /\
                    terminal (pg_state (cb_value c)) = false)
             | Calling => Forall (fun v => terminal (pg_state v) = false) (cb_calls c)
             | Awaiting => Forall (fun v => terminal (pg_state v) = false) (cb_calls c) /\
                 (terminal (pg_state (cb_value c)) = true -> (cb_seen c < cb_version c)%nat)
             end;
}.

Lemma callback_step_ok c c' : Callback_ok c -> callback_step c c' -> Callback_ok c'.
Proof.
  intros [C1 C2 C4] Hs. destruct Hs as [value Hc Ht| |c' Ha Hc|Ha]; cbn in *.
  - split; cbn; [lia|lia|]. destruct (cb_at c); [|done|].
    + destruct C4 as [C4 _]. split; [done|lia].
    + destruct C4 as [(calls & _ & _ & E)|(_ & E & _)]; congruence.
  - split; cbn; [done|done|]. destruct (cb_at c); [done|done|]. destruct C4 as [|(? & _ & ?)]; [by left|by right].
  - rewrite Ha in C4. destruct C4 as [C4 C5]. unfold changed in Hc. destruct (Nat.eqb_spec (cb_seen c) (cb_version c)) as [E|E]; cbn in Hc.
    + destruct (cb_closed c) eqn:Ec; [|done]. injection Hc as <-. split; cbn; [done|done|]. right. split_and!; try done.
      apply not_true_iff_false. intros Ht. specialize (C5 Ht). lia.
    + injection Hc as <-. by split; cbn.
  - rewrite Ha in C4. unfold call. split; cbn; [done|done|]. destruct (terminal (pg_state (cb_value c))) eqn:Et; cbn.
    + left. by exists (cb_calls c).
    + split; [|done]. apply Forall_app. split; [done|]. by apply Forall_singleton.
Qed.

Lemma callback_run_ok value version closed c :
  (terminal (pg_state value) = true -> (0 < version)%nat) -> rtc callback_step (on_progress value version closed) c -> Callback_ok c.
Proof.
  intros H1 R. refine (rtc_ind_r Callback_ok _ _ _ c R).
  - split; cbn; [lia|done|]. split; [constructor|done].
  - intros y z _ Hs Hy. by apply (callback_step_ok y).
Qed.

(** A callback hears how the download ended.  Whenever it is registered and however it
    interleaves with the download: it is called with an end state at most once and as its
    last call; it stops only after such a call, or when the download has gone without
    publishing an end; and once an end is published it can always go on until then. *)
Theorem callback_hears_end value version closed c :
  (terminal (pg_state value) = true -> (0 < version)%nat) -> rtc callback_step (on_progress value version closed) c ->
  Forall (fun v => terminal (pg_state v) = false) (removelast (cb_calls c)) /\
  (cb_at c = Stopped -> if terminal (pg_state (cb_value c)) then last (cb_calls c) = Some (cb_value c) else cb_closed c = true) /\
  (terminal (pg_state (cb_value c)) = true -> cb_at c <> Stopped -> exists c', callback_step c c' /\ cb_at c' <> cb_at c).
Proof.
  intros H1 R. pose proof (callback_run_ok _ _ _ _ H1 R) as [C1 C2 C4].
  assert (forall l, Forall (fun v => terminal (pg_state v) = false) l -> Forall (fun v => terminal (pg_state v) = false) (removelast l)) as Hr.
  { intros l Hl. destruct l as [|a l _] using rev_ind; [done|]. rewrite removelast_last. by apply Forall_app in Hl as [? _]. }
  split_and!.
  - destruct (cb_at c); [by apply Hr, C4|by apply Hr|]. destruct C4 as [(calls & -> & Hc & _)|[? _]]; [by rewrite removelast_last|by apply Hr].
  - intros E. rewrite E in C4. destruct C4 as [(calls & -> & _ & ->)|(_ & ? & ->)]; [by rewrite last_snoc|done].
  - intros Ht Hf. destruct (cb_at c) eqn:Ha; [| |done].
    + destruct C4 as [_ C4]. specialize (C4 Ht). eexists. split; [apply cs_changed; [done|]; unfold changed|].
      * by rewrite (proj2 (Nat.eqb_neq _ _)) by lia.
      * done.
    + exists (call c). split; [by apply cs_call|]. unfold call. cbn. by rewrite Ht.
Qed.

(** Snapshots in between may be skipped, and one may be delivered twice. *)
Definition demo_snapshot (n : Z) (s : DownloadState) : ProgressSnapshot := mkProgress None n s (f64_of 0) None None.

Definition demo_callback : Callback :=
  mkCallback (demo_snapshot 3 StCompleted) 3 false 3 Stopped
    [demo_snapshot 2 StDownloading; demo_snapshot 2 StDownloading; demo_snapshot 3 StCompleted].

Example callback_skips : rtc callback_step (on_progress (demo_snapshot 0 StPending) 0 false) demo_callback.
Proof.
  eapply rtc_l; [by apply (cs_send _ (demo_snapshot 1 StDownloading))|].
  eapply rtc_l; [by apply cs_changed|].
  eapply rtc_l; [by apply (cs_send _ (demo_snapshot 2 StDownloading))|].
  eapply rtc_l; [by apply cs_call|].
  eapply rtc_l; [by apply cs_changed|].
  eapply rtc_l; [by apply cs_call|].
  eapply rtc_l; [by apply (cs_send _ (demo_snapshot 3 StCompleted))|].
  eapply rtc_l; [by apply cs_changed|].
  eapply rtc_l; [by apply cs_call|]. apply rtc_refl.
Qed.

Lemma callback_hears_end_witness : last (cb_calls demo_callback) = Some (demo_snapshot 3 StCompleted).
Proof.
  exact (proj1 (proj2 (callback_hears_end (demo_snapshot 0 StPending) 0 false demo_callback ltac:(done) callback_skips)) eq_refl).
Defined.
