(* ===== verification/BodySink.v ===== *)
(** * The body channel ([BodySink] and [BodyStream] of [src/network/curl/driver/mod.rs])

    The write callback of libcurl puts whole chunks into a bounded queue or pauses the
    transfer; the consumer takes them out and asks the driver to resume it.  The two run
    on different threads: every locked section is one step, and the system below
    interleaves the callback, the driver's commands and the consumer. *)

From S2P Require Import Prelude RustStr Errors Cache Float64 Net IpPolicy.

(** The terminal state of a body. *)
Inductive Terminal :=
| Eof
| BodyCancelled
| BodyFailed (kind : TransportErrorKind) (code : option Z) (message : rstr).

Definition into_error (t : Terminal) : option DownloadError :=
  match t with
  | Eof => None
  | BodyCancelled => Some Cancelled
  | BodyFailed kind _ message => Some (Transport kind message)
  end.

(** The fields of [SinkState] and the counters beside it. *)
Record BodySink := mkSink {
  sk_budget : nat;
  sk_queue : list bytes;
  sk_buffered : nat;
  sk_terminal : option Terminal;
  sk_paused : bool;
  sk_drained_since_pause : bool;
  sk_first_byte_at : option Z;
  sk_last_byte_at : option Z;
  sk_paused_at : option Z;
  sk_paused_total : Z;
  sk_pause_count : nat;
  sk_accepted_bytes : nat;
  sk_paused_for_wait : bool;
}.

Definition Sink_new (budget : nat) : BodySink :=
  mkSink (budget `max` 1) [] 0 None false false None None None 0 0 0 false.

(** What the write callback answers to libcurl. *)
Inductive Written := Accepted (n : nat) | WritePause.

Definition start_pause (now : Z) (s : BodySink) : BodySink :=
  mkSink (sk_budget s) (sk_queue s) (sk_buffered s) (sk_terminal s) true false (sk_first_byte_at s) (sk_last_byte_at s)
    (Some (default now (sk_paused_at s))) (sk_paused_total s) (S (sk_pause_count s)) (sk_accepted_bytes s) true.

Definition write (data : bytes) (now : Z) (s : BodySink) : Written * BodySink :=
  match data with
  | [] => (Accepted 0, s)
  | _ =>
      match sk_terminal s with
      | Some _ => (WritePause, start_pause now s)
      | None =>
          if negb (bool_decide (sk_queue s = [])) && (sk_budget s <? sk_buffered s + length data)%nat
          then (WritePause, start_pause now s)
          else
            (Accepted (length data),
             mkSink (sk_budget s) (sk_queue s ++ [data]) (sk_buffered s + length data) None (sk_paused s) (sk_drained_since_pause s)
               (Some (default now (sk_first_byte_at s))) (Some now) (sk_paused_at s) (sk_paused_total s) (sk_pause_count s)
               (sk_accepted_bytes s + length data) (sk_paused_for_wait s))
      end
  end.

(** The time of a pause that ends at [now]. *)
Definition pause_time (now : Z) (s : BodySink) : Z :=
  match sk_paused_at s with Some at_ => sk_paused_total s + duration_since now at_ | None => sk_paused_total s end.

Definition finish (t : Terminal) (now : Z) (s : BodySink) : BodySink :=
  match sk_terminal s with
  | Some _ => s
  | None =>
      mkSink (sk_budget s) (sk_queue s) (sk_buffered s) (Some t) (sk_paused s) (sk_drained_since_pause s) (sk_first_byte_at s)
        (sk_last_byte_at s) None (pause_time now s) (sk_pause_count s) (sk_accepted_bytes s) (sk_paused_for_wait s)
  end.

Definition sample (s : BodySink) : option TransferSample :=
  first ← sk_first_byte_at s;
  last ← sk_last_byte_at s;
  Some (mkTransferSample (Z.of_nat (sk_accepted_bytes s)) (duration_since last first) (sk_paused_total s)).

Definition discard_buffer (s : BodySink) : BodySink :=
  mkSink (sk_budget s) [] 0 (sk_terminal s) (sk_paused s) (sk_drained_since_pause s) (sk_first_byte_at s) (sk_last_byte_at s)
    (sk_paused_at s) (sk_paused_total s) (sk_pause_count s) (sk_accepted_bytes s) (sk_paused_for_wait s).

Inductive SinkPoll := PollChunk (chunk : bytes) | PollTerminal (t : Terminal) | PollPending.

Definition poll (s : BodySink) : SinkPoll * BodySink :=
  match sk_queue s with
  | chunk :: queue =>
      (PollChunk chunk,
       mkSink (sk_budget s) queue (sk_buffered s - length chunk) (sk_terminal s) (sk_paused s)
         (if sk_paused s then true else sk_drained_since_pause s) (sk_first_byte_at s) (sk_last_byte_at s)
         (sk_paused_at s) (sk_paused_total s) (sk_pause_count s) (sk_accepted_bytes s) (sk_paused_for_wait s))
  | [] => (match sk_terminal s with Some t => PollTerminal t | None => PollPending end, s)
  end.

Definition needs_resume (now : Z) (s : BodySink) : bool * BodySink :=
  if sk_paused s && sk_drained_since_pause s then
    (true, mkSink (sk_budget s) (sk_queue s) (sk_buffered s) (sk_terminal s) false false (sk_first_byte_at s) (sk_last_byte_at s)
       None (pause_time now s) (sk_pause_count s) (sk_accepted_bytes s) false)
  else (false, s).

(** ** The two ends of the channel *)

Record Channel := mkChannel {
  (** [ch_remaining] is what libcurl has still to deliver, [ch_held] whether it holds
      back a chunk the callback paused on, [ch_resumes] the [Resume] commands the driver
      has not handled; [ch_popped] is a chunk the consumer took before it asked whether
      to resume, [ch_result] what [next_chunk] ended with. *)
  ch_sink : BodySink;
  ch_remaining : bytes;
  ch_held : bool;
  ch_resumes : nat;
  ch_received : bytes;
  ch_popped : option bytes;
  ch_result : option (option DownloadError);
}.

Definition Channel_new (budget : nat) (body : bytes) : Channel := mkChannel (Sink_new budget) body false 0 [] None None.

(** libcurl calls the callback with some of the bytes; a paused chunk is delivered
    again after the handle is resumed. *)
Definition deliver (data rest : bytes) (now : Z) (c : Channel) : Channel :=
  match write data now (ch_sink c) with
  | (Accepted _, s) => mkChannel s rest false (ch_resumes c) (ch_received c) (ch_popped c) (ch_result c)
  | (WritePause, s) => mkChannel s (ch_remaining c) true (ch_resumes c) (ch_received c) (ch_popped c) (ch_result c)
  end.

Definition with_sink (s : BodySink) (c : Channel) : Channel :=
  mkChannel s (ch_remaining c) (ch_held c) (ch_resumes c) (ch_received c) (ch_popped c) (ch_result c).

(** [resume_transfer] *)
Definition resume (c : Channel) : Channel :=
  mkChannel (ch_sink c) (ch_remaining c) false (ch_resumes c - 1) (ch_received c) (ch_popped c) (ch_result c).

(** The first half of [next_chunk]'s turn. *)
Definition take_chunk (c : Channel) : Channel :=
  match poll (ch_sink c) with
  | (PollChunk chunk, s) => mkChannel s (ch_remaining c) (ch_held c) (ch_resumes c) (ch_received c) (Some chunk) (ch_result c)
  | (PollTerminal t, s) => mkChannel s (ch_remaining c) (ch_held c) (ch_resumes c) (ch_received c) None (Some (into_error t))
  | (PollPending, s) => with_sink s c
  end.

(** The second half: the driver is asked to resume, the chunk is returned. *)
Definition hand_over (chunk : bytes) (now : Z) (c : Channel) : Channel :=
  let '(asked, s) := needs_resume now (ch_sink c) in
  mkChannel s (ch_remaining c) (ch_held c) (if asked then S (ch_resumes c) else ch_resumes c) (ch_received c ++ chunk) None (ch_result c).

Inductive channel_step (c : Channel) : Channel -> Prop :=
  | step_deliver data rest now :
      ch_held c = false -> data <> [] -> ch_remaining c = data ++ rest -> channel_step c (deliver data rest now c)
  | step_eof now :
      ch_held c = false -> ch_remaining c = [] -> channel_step c (with_sink (finish Eof now (ch_sink c)) c)
  | step_failed kind code message now :
      channel_step c (with_sink (finish (BodyFailed kind code message) now (ch_sink c)) c)
  | step_discard t now : t <> Eof -> sk_terminal (ch_sink c) = None ->
      channel_step c (with_sink (finish t now (discard_buffer (ch_sink c))) c)
  | step_resume : (0 < ch_resumes c)%nat -> channel_step c (resume c)
  | step_take : ch_popped c = None -> ch_result c = None -> channel_step c (take_chunk c)
  | step_hand_over chunk now : ch_popped c = Some chunk -> channel_step c (hand_over chunk now c).

Inductive channel_run (budget : nat) (body : bytes) : Channel -> Prop :=
  | channel_start : channel_run budget body (Channel_new budget body)
  | channel_next c c' : channel_run budget body c -> channel_step c c' -> channel_run budget body c'.

(** ** The invariant *)

Definition popped_bytes (c : Channel) : bytes := default [] (ch_popped c).

(** No byte is lost or delivered twice, unless the buffer was discarded, which ends the
    body with an error. *)
Definition Conserved (body : bytes) (c : Channel) : Prop :=
  match sk_terminal (ch_sink c) with
  | None => ch_received c ++ popped_bytes c ++ concat (sk_queue (ch_sink c)) ++ ch_remaining c = body
  | Some Eof => ch_received c ++ popped_bytes c ++ concat (sk_queue (ch_sink c)) = body
  | Some _ => ch_received c ++ popped_bytes c ++ concat (sk_queue (ch_sink c)) `prefix_of` body
  end.

Record Channel_ok (budget : nat) (body : bytes) (c : Channel) : Prop := {
  ck_budget : sk_budget (ch_sink c) = (budget `max` 1)%nat;
  ck_conserved : Conserved body c;
  ck_nonempty : Forall (fun chunk => chunk <> []) (sk_queue (ch_sink c));
  ck_buffered : sk_buffered (ch_sink c) = length (concat (sk_queue (ch_sink c)));
  ck_bounded : (sk_buffered (ch_sink c) <= sk_budget (ch_sink c))%nat \/ (length (sk_queue (ch_sink c)) <= 1)%nat;
  ck_awake : ch_held c = true -> sk_terminal (ch_sink c) = None ->
    (0 < ch_resumes c)%nat \/
    sk_paused (ch_sink c) = true /\
      (sk_queue (ch_sink c) <> [] \/ is_Some (ch_popped c) /\ sk_drained_since_pause (ch_sink c) = true);
  ck_result : forall r, ch_result c = Some r ->
    ch_popped c = None /\ sk_queue (ch_sink c) = [] /\ exists t, sk_terminal (ch_sink c) = Some t /\ r = into_error t;
}.

Lemma sink_finish_ok budget body t now c :
  Channel_ok budget body c -> (t = Eof -> ch_remaining c = []) -> Channel_ok budget body (with_sink (finish t now (ch_sink c)) c).
Proof.
  intros H Ht. unfold finish. destruct (sk_terminal (ch_sink c)) as [t'|] eqn:E; [by destruct c|].
  destruct H as [H1 H2 H3 H4 H5 H6 H7]. split; simpl; try done.
  - unfold Conserved in *. rewrite E in H2. simpl. destruct t; [|by rewrite <- H2, !app_assoc; apply prefix_app_r..].
    by rewrite Ht, app_nil_r in H2.
  - intros r Hr. destruct (H7 r Hr) as (_ & _ & t' & Et & _). by rewrite ?E in Et.
Qed.

Lemma deliver_ok budget body data rest now c :
  Channel_ok budget body c -> data <> [] -> ch_remaining c = data ++ rest -> Channel_ok budget body (deliver data rest now c).
Proof.
  intros [H1 H2 H3 H4 H5 H6 H7] Hd Hr. unfold deliver, write. destruct data as [|b data]; [done|]. set (d := b :: data) in *.
  destruct (sk_terminal (ch_sink c)) as [t|] eqn:E.
  { split; simpl; try done; [unfold Conserved, popped_bytes in *; simpl in *; by rewrite E in H2 |- *|by rewrite E]. }
  destruct (negb _ && _) eqn:Ep.
  - apply andb_true_iff in Ep as [Hq _]. apply negb_true_iff, bool_decide_eq_false in Hq.
    split; simpl; try done; [intros _ _; right; by split; [|left]|].
    intros r Hr'. destruct (H7 r Hr') as (_ & _ & t & Et & _). by rewrite ?E in Et.
  - split; simpl; try done.
    + unfold Conserved, popped_bytes in *. rewrite E in H2. cbn [ch_sink sk_terminal sk_queue ch_received ch_popped ch_remaining].
      by rewrite concat_app, <- H2, Hr; cbn [concat]; rewrite app_nil_r, <- !app_assoc.
    + apply Forall_app. split; [done|]. by repeat constructor.
    + rewrite concat_app, length_app. simpl. rewrite app_nil_r. lia.
    + apply andb_false_iff in Ep as [Hq|Hl]; [|apply Nat.ltb_ge in Hl; by left].
      apply negb_false_iff, bool_decide_eq_true in Hq. rewrite Hq. by right.
    + intros r Hr'. destruct (H7 r Hr') as (_ & _ & t & Et & _). by rewrite ?E in Et.
Qed.

Lemma take_ok budget body c :
  Channel_ok budget body c -> ch_popped c = None -> ch_result c = None -> Channel_ok budget body (take_chunk c).
Proof.
  intros Hok Hp Hr. pose proof Hok as [H1 H2 H3 H4 H5 H6 H7]. unfold take_chunk, poll. destruct (sk_queue (ch_sink c)) as [|chunk queue] eqn:Eq.
  - destruct (sk_terminal (ch_sink c)) as [t|] eqn:E.
    + unfold Conserved, popped_bytes in *. rewrite Hp in H2. split; simpl; unfold Conserved, popped_bytes; simpl; rewrite ?Eq, ?E in *; try done.
      intros r [= <-]. split_and!; [done|done|]. by exists t.
    + by destruct c.
  - apply Forall_cons in H3 as [Hc H3]. simpl in H4. rewrite length_app in H4. split; simpl; try done.
    + unfold Conserved, popped_bytes in *. simpl. rewrite Hp, Eq in H2. simpl in H2.
      destruct (sk_terminal (ch_sink c)) as [[]|]; by rewrite <- ?app_assoc in *.
    + lia.
    + simpl in H5. destruct H5; [left; lia|right; lia].
    + intros Hh Ht. destruct (H6 Hh Ht) as [Hl|[Hpa _]]; [by left|]. right. split; [done|]. right. split; [by eexists|]. by rewrite Hpa.
    + by rewrite Hr.
Qed.

Lemma hand_over_ok budget body chunk now c :
  Channel_ok budget body c -> ch_popped c = Some chunk -> Channel_ok budget body (hand_over chunk now c).
Proof.
  intros [H1 H2 H3 H4 H5 H6 H7] Hp. unfold hand_over, needs_resume.
  assert (ch_result c = None) as Hr. { destruct (ch_result c) as [r|]; [|done]. destruct (H7 r eq_refl) as [H _]. congruence. }
  assert (forall s : BodySink, sk_queue s = sk_queue (ch_sink c) -> sk_terminal s = sk_terminal (ch_sink c) -> forall n,
    Conserved body (mkChannel s (ch_remaining c) (ch_held c) n (ch_received c ++ chunk) None (ch_result c))) as Hcons.
  { intros s Eq Et n. unfold Conserved, popped_bytes in *. simpl. rewrite Eq, Et. rewrite Hp in H2. simpl in H2.
    destruct (sk_terminal (ch_sink c)) as [[]|]; by rewrite <- ?app_assoc. }
  destruct (sk_paused (ch_sink c) && sk_drained_since_pause (ch_sink c)) eqn:E.
  - split; simpl; try done; [by apply Hcons|intros _ _; left; lia|by rewrite Hr].
  - split; simpl; try done; [by apply Hcons| |by rewrite Hr]. intros Hh Ht. destruct (H6 Hh Ht) as [Hl|[Hpa [Hq|[_ Hd]]]]; [by left| |].
    + right. split; [done|]. by left.
    + by rewrite Hpa, Hd in E.
Qed.

Lemma channel_run_ok budget body c : channel_run budget body c -> Channel_ok budget body c.
Proof.
  intros Hr. induction Hr as [|c c' Hr IH Hs]; [split; simpl; try done; right; simpl; lia|].
  destruct Hs as [data rest now Hh Hd Hrem|now Hh Hrem|kind code message now|t now Ht Hn|Hres|Hp Hres|chunk now Hp].
  - by apply deliver_ok.
  - by apply sink_finish_ok.
  - by apply sink_finish_ok.
  - assert (Channel_ok budget body c) as [H1 H2 H3 H4 H5 H6 H7] by done. unfold finish, discard_buffer. simpl. rewrite Hn.
    split; simpl; try done; [|right; lia|].
    + unfold Conserved in *. rewrite Hn in H2. simpl. rewrite app_nil_r. destruct t; [done|by rewrite <- H2, app_assoc; apply prefix_app_r..].
    + intros r Hr'. destruct (H7 r Hr') as (_ & _ & t' & Et & _). by rewrite ?Hn in Et.
  - destruct IH as [H1 H2 H3 H4 H5 H6 H7]. by split.
  - by apply take_ok.
  - by apply hand_over_ok.
Qed.

(** C20: the body reaches the consumer exactly.  In every interleaving of the write
    callback, the driver and the consumer, with pauses, redeliveries, failures and
    cancellation, the bytes handed out are a prefix of the body; a clean end is reported
    only after all of it; and the queue holds at most the budget, or one chunk. *)
Theorem body_delivered_exactly budget body c :
  channel_run budget body c ->
  ch_received c `prefix_of` body /\ (ch_result c = Some None -> ch_received c = body) /\ ((sk_buffered (ch_sink c) <= budget `max` 1)%nat \/ (length (sk_queue (ch_sink c)) <= 1)%nat).
Proof.
  intros Hr. destruct (channel_run_ok _ _ _ Hr) as [H1 H2 H3 H4 H5 H6 H7]. split_and!; [| |by rewrite <- H1].
  - unfold Conserved in H2. destruct (sk_terminal (ch_sink c)) as [[]|];
      [by rewrite <- H2; apply prefix_app_r|by eapply prefix_app_l..|by rewrite <- H2; apply prefix_app_r].
  - intros Hn. destruct (H7 None Hn) as (Hp & Hq & t & Et & E). unfold Conserved, popped_bytes in H2. rewrite Et, Hp, Hq in H2. simpl in H2.
    destruct t; [|done|done]. by rewrite app_nil_r in H2.
Qed.

(** C22: the two ends never wait for each other.  Whenever libcurl holds back a chunk and
    the body has not ended, the driver has a resume command to handle, or the consumer
    has a chunk to take, or it has taken one and its next step sends the command. *)
Theorem paused_body_is_resumed budget body c :
  channel_run budget body c -> ch_held c = true -> sk_terminal (ch_sink c) = None ->
  (0 < ch_resumes c)%nat \/ (exists chunk s, poll (ch_sink c) = (PollChunk chunk, s)) \/
  exists chunk, ch_popped c = Some chunk /\ forall now, ch_resumes (hand_over chunk now c) = S (ch_resumes c).
Proof.
  intros Hr Hh Ht. destruct (ck_awake _ _ _ (channel_run_ok _ _ _ Hr) Hh Ht) as [H|[Hp [H|[[chunk Hc] Hd]]]]; [by left|right; left|right; right].
  - unfold poll. destruct (sk_queue (ch_sink c)); [done|]. by eexists _, _.
  - exists chunk. split; [done|]. intros now. unfold hand_over, needs_resume. by rewrite Hp, Hd.
Qed.

(** ** A body of two bytes over a budget of one *)

Module DemoSink.
Definition c1 : Channel := deliver [1] [2] 0 (Channel_new 1 [1; 2]).
Definition c2 : Channel := deliver [2] [] 1 c1.
Definition c3 : Channel := take_chunk c2.
Definition c4 : Channel := hand_over [1] 2 c3.
Definition c5 : Channel := resume c4.
Definition c6 : Channel := deliver [2] [] 3 c5.
Definition c7 : Channel := with_sink (finish Eof 4 (ch_sink c6)) c6.
Definition c8 : Channel := hand_over [2] 5 (take_chunk c7).
Definition c9 : Channel := take_chunk c8.

Lemma held_run : channel_run 1 [1; 2] c2.
Proof.
  apply (channel_next _ _ c1); [apply (channel_next _ _ (Channel_new 1 [1; 2])); [apply channel_start|]|].
  - by apply (step_deliver _ [1] [2] 0).
  - by apply (step_deliver _ [2] [] 1).
Qed.

Lemma whole_run : channel_run 1 [1; 2] c9.
Proof.
  apply (channel_next _ _ c8); [|by apply step_take]. apply (channel_next _ _ (take_chunk c7)); [|by apply (step_hand_over _ [2] 5)].
  apply (channel_next _ _ c7); [|by apply step_take]. apply (channel_next _ _ c6); [|by apply (step_eof _ 4)].
  apply (channel_next _ _ c5); [|by apply (step_deliver _ [2] [] 3)]. apply (channel_next _ _ c4); [|apply step_resume; vm_compute; lia].
  apply (channel_next _ _ c3); [|by apply (step_hand_over _ [1] 2)]. apply (channel_next _ _ c2); [apply held_run|by apply step_take].
Qed.
End DemoSink.

Lemma body_delivered_exactly_witness : ch_result DemoSink.c9 = Some None /\ ch_received DemoSink.c9 = [1; 2].
Proof.
  destruct (body_delivered_exactly 1 [1; 2] DemoSink.c9 DemoSink.whole_run) as (_ & H & _). split; [by vm_compute|].
  apply H. by vm_compute.
Defined.

Lemma paused_body_is_resumed_witness :
  (0 < ch_resumes DemoSink.c2)%nat \/ (exists chunk s, poll (ch_sink DemoSink.c2) = (PollChunk chunk, s)) \/
  exists chunk, ch_popped DemoSink.c2 = Some chunk /\ forall now, ch_resumes (hand_over chunk now DemoSink.c2) = S (ch_resumes DemoSink.c2).
Proof. apply (paused_body_is_resumed 1 [1; 2] DemoSink.c2 DemoSink.held_run); by vm_compute. Defined.
