(* ===== verification/Head.v ===== *)
(** * Response heads ([HeadParser] of [src/network/curl/driver/mod.rs])

    libcurl hands over every header line of a transfer: of informational responses, of
    the proxy's answer to CONNECT, of the origin, and trailers.  The parser publishes the
    origin's head once.  A line is a list of bytes, a string a list of characters. *)

From S2P Require Import Prelude RustStr Errors Cache Net IpPolicy Filename.

(** ** Text *)

(** [String::from_utf8_lossy]: the maximal prefix of an invalid sequence becomes one
    replacement character. *)
Definition REPLACEMENT : Z := 0xFFFD.

Definition cont (b : Z) : bool := (0x80 <=? b) && (b <=? 0xBF).

(** The bytes that may follow a first byte of a three- or four-byte sequence. *)
Definition second_ok (b0 b1 : Z) : bool :=
  if b0 =? 0xE0 then (0xA0 <=? b1) && (b1 <=? 0xBF)
  else if b0 =? 0xED then (0x80 <=? b1) && (b1 <=? 0x9F)
  else if b0 =? 0xF0 then (0x90 <=? b1) && (b1 <=? 0xBF)
  else if b0 =? 0xF4 then (0x80 <=? b1) && (b1 <=? 0x8F)
  else cont b1.

Fixpoint from_utf8_lossy (b : bytes) : rstr :=
  match b with
  | [] => []
  | b0 :: r0 =>
      if b0 <? 0x80 then b0 :: from_utf8_lossy r0
      else if (0xC2 <=? b0) && (b0 <=? 0xDF) then
        match r0 with
        | b1 :: r1 => if cont b1 then ((b0 - 0xC0) * 64 + (b1 - 0x80)) :: from_utf8_lossy r1 else REPLACEMENT :: from_utf8_lossy r0
        | [] => [REPLACEMENT]
        end
      else if (0xE0 <=? b0) && (b0 <=? 0xEF) then
        match r0 with
        | b1 :: r1 =>
            if second_ok b0 b1 then
              match r1 with
              | b2 :: r2 =>
                  if cont b2 then ((b0 - 0xE0) * 4096 + (b1 - 0x80) * 64 + (b2 - 0x80)) :: from_utf8_lossy r2
                  else REPLACEMENT :: from_utf8_lossy r1
              | [] => [REPLACEMENT]
              end
            else REPLACEMENT :: from_utf8_lossy r0
        | [] => [REPLACEMENT]
        end
      else if (0xF0 <=? b0) && (b0 <=? 0xF4) then
        match r0 with
        | b1 :: r1 =>
            if second_ok b0 b1 then
              match r1 with
              | b2 :: r2 =>
                  if cont b2 then
                    match r2 with
                    | b3 :: r3 =>
                        if cont b3 then
                          ((b0 - 0xF0) * 262144 + (b1 - 0x80) * 4096 + (b2 - 0x80) * 64 + (b3 - 0x80)) :: from_utf8_lossy r3
                        else REPLACEMENT :: from_utf8_lossy r2
                    | [] => [REPLACEMENT]
                    end
                  else REPLACEMENT :: from_utf8_lossy r1
              | [] => [REPLACEMENT]
              end
            else REPLACEMENT :: from_utf8_lossy r0
        | [] => [REPLACEMENT]
        end
      else REPLACEMENT :: from_utf8_lossy r0
  end.

(** [split_once(char::is_whitespace)] *)
Fixpoint split_once_whitespace (s : rstr) : option (rstr * rstr) :=
  match s with
  | [] => None
  | c :: s => if is_whitespace c then Some ([], s) else '(a, b) ← split_once_whitespace s; Some (c :: a, b)
  end.

(** [str::parse::<u16>] *)
Definition parse_u16 (s : rstr) : option Z := n ← parse_u64 s; if n <=? 65535 then Some n else None.

Definition parse_status_line (status_line : rstr) : option Z :=
  rest ← match strip_prefix (str "HTTP/") status_line with
         | Some rest => Some rest
         | None => strip_prefix (str "http/") status_line
         end;
  '(_, code) ← split_once_whitespace rest;
  let code := trim_start_matches is_whitespace code in
  parse_u16 (match split_once_whitespace code with Some (first, _) => first | None => code end).

(** [strip_suffix] of one byte. *)
Definition strip_last (b : Z) (line : bytes) : bytes :=
  if bool_decide (last line = Some b) then removelast line else line.

Definition strip_crlf (line : bytes) : bytes := strip_last 13 (strip_last 10 line).

Definition split_header (line : bytes) : option (rstr * rstr) :=
  '(name, value) ← split_once 58 (from_utf8_lossy line);
  Some (to_ascii_lowercase <$> trim name, trim value).

(** [expects_proxy_tunnel]: an HTTPS request through a proxy. *)
Definition expects_proxy_tunnel (proxy : option rstr) (url : rstr) : bool :=
  bool_decide (is_Some proxy) &&
  (8 <=? length (as_bytes url))%nat && eq_ignore_ascii_case (take 8 (as_bytes url)) (str "https://").

(** ** The parser *)

Definition MAX_HEADER_BLOCK_BYTES : nat := 128 * 1024.

Record HeaderBlock := mkBlock {
  hb_status_line : rstr;
  hb_headers : list (rstr * rstr);
  hb_bytes : nat;
}.

Record ResponseHead := mkHead {
  rh_status : Z;
  rh_pinned_ip : option IpAddr;
  rh_headers : list (rstr * rstr);
}.

(** [hp_sender]: the channel has not been used; [hp_sent]: what was put on it. *)
Record HeadParser := mkParser {
  hp_pinned_ip : option IpAddr;
  hp_expect_connect : bool;
  hp_connect_seen : bool;
  hp_block : option HeaderBlock;
  hp_published : bool;
  hp_sender : bool;
  hp_sent : option (result ResponseHead DownloadError);
}.

Definition HeadParser_new (expect_connect : bool) : HeadParser := mkParser None expect_connect false None false true None.

(** [if let Some(sender) = self.sender.take() { sender.send(value) }] *)
Definition send (value : result ResponseHead DownloadError) (p : HeadParser) : HeadParser :=
  mkParser (hp_pinned_ip p) (hp_expect_connect p) (hp_connect_seen p) (hp_block p) (hp_published p) false
    (if hp_sender p then Some value else hp_sent p).

Definition set_block (block : option HeaderBlock) (p : HeadParser) : HeadParser :=
  mkParser (hp_pinned_ip p) (hp_expect_connect p) (hp_connect_seen p) block (hp_published p) (hp_sender p) (hp_sent p).

Definition set_published (p : HeadParser) : HeadParser :=
  mkParser (hp_pinned_ip p) (hp_expect_connect p) (hp_connect_seen p) (hp_block p) true (hp_sender p) (hp_sent p).

Definition set_connect_seen (p : HeadParser) : HeadParser :=
  mkParser (hp_pinned_ip p) (hp_expect_connect p) true (hp_block p) (hp_published p) (hp_sender p) (hp_sent p).

Definition unparsable (status_line : rstr) : DownloadError :=
  Internal (str "libcurl response status line could not be parsed: " ++ status_line).

Definition headers_too_large : DownloadError := Internal (str "libcurl response headers exceeded 131072 bytes").

Definition is_informational (status : Z) : bool := (100 <=? status) && (status <? 200).

Definition finish_block (p : HeadParser) : HeadParser :=
  match hp_block p with
  | None => p
  | Some block =>
      let p := set_block None p in
      if hp_published p then p
      else
        match parse_status_line (hb_status_line block) with
        | None => send (Err (unparsable (hb_status_line block))) (set_published p)
        | Some status =>
            if is_informational status then p
            else if hp_expect_connect p && negb (hp_connect_seen p) then set_connect_seen p
            else if hp_sender p then send (Ok (mkHead status (hp_pinned_ip p) (hb_headers block))) (set_published p)
            else p
        end
  end.

(** A line inside a block. *)
Definition extend_block (trimmed : bytes) (block : option HeaderBlock) : HeaderBlock :=
  match block with
  | None => mkBlock (from_utf8_lossy trimmed) [] (length trimmed)
  | Some block =>
      match split_header trimmed with
      | Some (name, value) =>
          mkBlock (hb_status_line block) (hb_headers block ++ [(name, value)])
            (hb_bytes block + (length (as_bytes name) + length (as_bytes value)))
      | None => mkBlock (hb_status_line block) (hb_headers block) (hb_bytes block + length trimmed)
      end
  end.

Definition push (line : bytes) (p : HeadParser) : HeadParser :=
  if hp_published p then p
  else
    match strip_crlf line with
    | [] => finish_block p
    | trimmed =>
        let block := extend_block trimmed (hp_block p) in
        if (MAX_HEADER_BLOCK_BYTES <? hb_bytes block)%nat then send (Err headers_too_large) (set_published (set_block None p))
        else set_block (Some block) p
    end.

(** [fail], for a transfer that ends before its head. *)
Definition head_fail (e : DownloadError) (p : HeadParser) : HeadParser := send (Err e) p.

Definition feed (lines : list bytes) (p : HeadParser) : HeadParser := fold_left (fun p line => push line p) lines p.

(** ** Reference: a stream of header blocks

    What the parser should make of the blocks of one transfer, without its state. *)

(** The lines of one response head: its status line and its fields, none of them blank. *)
Record RawBlock := mkRaw { rb_status : bytes; rb_fields : list bytes }.

Definition nonblank (line : bytes) : Prop := strip_crlf line <> [].

Definition RawBlock_ok (b : RawBlock) : Prop := nonblank (rb_status b) /\ Forall nonblank (rb_fields b).

Definition crlf : bytes := [13; 10].

Definition lines_of (b : RawBlock) : list bytes := rb_status b :: rb_fields b ++ [crlf].

(** A field that has a colon: its name in lower case and its value. *)
Definition field_of (line : bytes) : list (rstr * rstr) := option_list (split_header (strip_crlf line)).

(** What a line counts for in the size of its block. *)
Definition field_size (line : bytes) : nat :=
  match split_header (strip_crlf line) with
  | Some (name, value) => length (as_bytes name) + length (as_bytes value)
  | None => length (strip_crlf line)
  end.

Definition block_size (b : RawBlock) : nat := length (strip_crlf (rb_status b)) + sum_list_with field_size (rb_fields b).

(** The answer the caller gets: the first final response, after the answer to CONNECT
    where one is expected; or the first block that cannot be a response head. *)
Fixpoint origin_head (pinned_ip : option IpAddr) (expect_connect : bool) (blocks : list RawBlock)
  : option (result ResponseHead DownloadError) :=
  match blocks with
  | [] => None
  | b :: blocks =>
      let status_line := from_utf8_lossy (strip_crlf (rb_status b)) in
      if (MAX_HEADER_BLOCK_BYTES <? block_size b)%nat then Some (Err headers_too_large)
      else
        match parse_status_line status_line with
        | None => Some (Err (unparsable status_line))
        | Some status =>
            if is_informational status then origin_head pinned_ip expect_connect blocks
            else if expect_connect then origin_head pinned_ip false blocks
            else Some (Ok (mkHead status pinned_ip (rb_fields b ≫= field_of)))
        end
  end.

(** Between two blocks, nothing published. *)
Definition waiting (pinned_ip : option IpAddr) (expecting : bool) (p : HeadParser) : Prop :=
  hp_pinned_ip p = pinned_ip /\ hp_block p = None /\ hp_published p = false /\ hp_sender p = true /\
  hp_sent p = None /\ hp_expect_connect p && negb (hp_connect_seen p) = expecting.

Lemma feed_app l1 l2 p : feed (l1 ++ l2) p = feed l2 (feed l1 p).
Proof. apply fold_left_app. Qed.

Lemma feed_published lines p : hp_published p = true -> feed lines p = p.
Proof.
  unfold feed. revert p. induction lines as [|line lines IH]; intros p Hp; simpl; [done|].
  unfold push at 2. rewrite Hp. by apply IH.
Qed.

Lemma feed_settled l1 l2 p r :
  hp_published p = true /\ hp_sent p = Some r -> hp_sent (feed l1 p) = Some r /\ hp_sent (feed l2 (feed l1 p)) = Some r.
Proof. intros [Hp Hr]. by rewrite !(feed_published _ p) by done. Qed.

Lemma push_nonblank line p :
  nonblank line -> hp_published p = false ->
  push line p =
    let block := extend_block (strip_crlf line) (hp_block p) in
    if (MAX_HEADER_BLOCK_BYTES <? hb_bytes block)%nat then send (Err headers_too_large) (set_published (set_block None p))
    else set_block (Some block) p.
Proof. unfold push, nonblank. intros Hl ->. by destruct (strip_crlf line). Qed.

Lemma extend_field line status_line headers n :
  extend_block (strip_crlf line) (Some (mkBlock status_line headers n)) =
  mkBlock status_line (headers ++ field_of line) (n + field_size line).
Proof. unfold extend_block, field_of, field_size. destruct (split_header _) as [[a b]|]; simpl; rewrite ?app_nil_r; done. Qed.

(** The fields of a block after its status line: either the block they make, or the
    failure of a block that is too large. *)
Lemma feed_fields fields p status_line headers n :
  Forall nonblank fields -> hp_published p = false -> hp_block p = Some (mkBlock status_line headers n) ->
  (n <= MAX_HEADER_BLOCK_BYTES)%nat ->
  feed fields p =
    if (MAX_HEADER_BLOCK_BYTES <? n + sum_list_with field_size fields)%nat
    then send (Err headers_too_large) (set_published (set_block None p))
    else set_block (Some (mkBlock status_line (headers ++ (fields ≫= field_of)) (n + sum_list_with field_size fields))) p.
Proof.
  intros Hall. revert p headers n. induction Hall as [|line fields Hl _ IH]; intros p headers n Hp Hb Hn.
  - simpl. rewrite Nat.add_0_r, app_nil_r. destruct (Nat.ltb_spec MAX_HEADER_BLOCK_BYTES n); [lia|].
    destruct p; simpl in *. by subst.
  - change (feed (line :: fields) p) with (feed fields (push line p)).
    rewrite (push_nonblank _ _ Hl Hp), Hb, extend_field. cbn zeta. cbn [hb_bytes].
    rewrite bind_cons, app_assoc. cbn [sum_list_with]. rewrite Nat.add_assoc.
    destruct (Nat.ltb_spec MAX_HEADER_BLOCK_BYTES (n + field_size line)) as [Hbig|Hok].
    + rewrite feed_published by done.
      destruct (Nat.ltb_spec MAX_HEADER_BLOCK_BYTES (n + field_size line + sum_list_with field_size fields)); [done|lia].
    + rewrite (IH _ (headers ++ field_of line) (n + field_size line)%nat) by done. done.
Qed.

(** One whole block. *)
Lemma feed_block b p pinned_ip expecting :
  RawBlock_ok b -> waiting pinned_ip expecting p ->
  let p' := feed (lines_of b) p in
  match origin_head pinned_ip expecting [b] with
  | Some r => hp_published p' = true /\ hp_sent p' = Some r
  | None =>
      waiting pinned_ip
        (expecting && bool_decide (is_informational <$> parse_status_line (from_utf8_lossy (strip_crlf (rb_status b))) = Some true)) p'
  end.
Proof.
  intros [Hs Hf] (Hpin & Hb & Hp & Hsend & Hsent & Hexp). cbn zeta.
  change (feed (lines_of b) p) with (feed (rb_fields b ++ [crlf]) (push (rb_status b) p)).
  rewrite (push_nonblank _ _ Hs Hp), Hb. cbn [extend_block hb_bytes]. cbn zeta.
  cbn [origin_head]. unfold block_size.
  destruct (Nat.ltb_spec MAX_HEADER_BLOCK_BYTES (length (strip_crlf (rb_status b)))) as [Hbig|Hok].
  { destruct (Nat.ltb_spec MAX_HEADER_BLOCK_BYTES
      (length (strip_crlf (rb_status b)) + sum_list_with field_size (rb_fields b))); [|lia].
    rewrite feed_published by done. simpl. by rewrite Hsend. }
  rewrite feed_app, (feed_fields (rb_fields b) _ (from_utf8_lossy (strip_crlf (rb_status b))) [] (length (strip_crlf (rb_status b))))
    by first [exact Hf | exact Hp | exact Hok | reflexivity].
  destruct (Nat.ltb_spec MAX_HEADER_BLOCK_BYTES
      (length (strip_crlf (rb_status b)) + sum_list_with field_size (rb_fields b))) as [Hbig|Hsmall].
  { rewrite feed_published by done. simpl. by rewrite Hsend. }
  cbn [feed fold_left]. unfold push. cbn [set_block hp_published hp_block]. rewrite Hp. simpl.
  unfold finish_block. cbn [hp_block set_block hp_published hp_sender hp_expect_connect hp_connect_seen hb_status_line hb_headers].
  rewrite Hp, Hexp, Hsend. unfold waiting.
  destruct (parse_status_line _) as [status|]; [|simpl; by rewrite Hsend].
  cbn [fmap option_fmap option_map].
  destruct (is_informational status), expecting; simpl; rewrite ?andb_false_r, ?Hsend, ?Hpin; split_and?; auto.
Qed.

(** C21: The caller gets exactly the origin's response head.  For every stream of header
    blocks, whatever follows it (the trailers of the body included), the parser sends what
    the reference makes of the blocks: the first response that is not informational,
    after one answer to CONNECT on an HTTPS request through a proxy, with its fields in
    wire order; or the error of the first block that is too large or has no status; and
    nothing as long as no such block has ended. *)
Theorem head_is_origin pinned_ip expecting p blocks rest :
  Forall RawBlock_ok blocks -> waiting pinned_ip expecting p ->
  let p' := feed (concat (lines_of <$> blocks)) p in
  match origin_head pinned_ip expecting blocks with
  | Some r => hp_sent p' = Some r /\ hp_sent (feed rest p') = Some r
  | None => hp_sent p' = None /\ hp_published p' = false
  end.
Proof.
  intros Hall. cbn zeta. revert expecting p. induction Hall as [|b blocks Hb _ IH]; intros expecting p Hw.
  - simpl. split; apply Hw.
  - rewrite fmap_cons. cbn [concat]. rewrite feed_app. pose proof (feed_block b p _ _ Hb Hw) as Hstep.
    cbn [origin_head] in Hstep |- *. cbn zeta in Hstep.
    destruct (MAX_HEADER_BLOCK_BYTES <? block_size b)%nat; [by apply feed_settled|].
    destruct (parse_status_line _) as [status|]; [|by apply feed_settled]. cbn [fmap option_fmap option_map] in Hstep.
    destruct (is_informational status), expecting; simpl in Hstep; (apply IH, Hstep) || by apply feed_settled.
Qed.

Lemma parser_new_waiting proxy url :
  let expecting := expects_proxy_tunnel proxy url in waiting None expecting (HeadParser_new expecting).
Proof. by repeat split; simpl; rewrite ?andb_true_r. Qed.

(** C40: On an HTTPS request through a proxy the first final response is taken for the
    answer to CONNECT, whoever sent it: when the connection is a tunnel that is already
    open, which has no CONNECT of its own, the origin's head is never published. *)
Theorem reused_tunnel_head_lost proxy url b status :
  expects_proxy_tunnel proxy url = true -> RawBlock_ok b -> (block_size b <= MAX_HEADER_BLOCK_BYTES)%nat ->
  parse_status_line (from_utf8_lossy (strip_crlf (rb_status b))) = Some status -> is_informational status = false ->
  let p := feed (lines_of b) (HeadParser_new (expects_proxy_tunnel proxy url)) in
  hp_sent p = None /\ hp_published p = false.
Proof.
  intros Hx Hb Hsize Hparse Hinfo. cbn zeta.
  pose proof (feed_block b _ _ _ Hb (parser_new_waiting proxy url)) as H. rewrite Hx in H |- *. cbn zeta in H.
  cbn [origin_head] in H. rewrite Hparse in H. destruct (Nat.ltb_spec MAX_HEADER_BLOCK_BYTES (block_size b)); [lia|].
  simpl in H. rewrite Hinfo in H. simpl in H. destruct H as (_ & _ & Hp & _ & Hs & _). done.
Qed.

Module DemoHead.

Definition line (s : string) : bytes := str s ++ crlf.

Definition hints : RawBlock := mkRaw (line "HTTP/1.1 103 Early Hints") [line "Link: </a.css>"].
Definition connected : RawBlock := mkRaw (line "HTTP/1.1 200 Connection established") [].
Definition partial : RawBlock := mkRaw (line "HTTP/1.1 206 Partial Content") [line "Content-Range: bytes 0-3/8"; line "X-A:1"; line "x-a: 2"].

Definition proxy : option rstr := Some (str "http://proxy:3128").
Definition url : rstr := str "HTTPS://host/file".

Lemma partial_ok : RawBlock_ok partial.
Proof. split; [done|]. repeat constructor; done. Qed.

End DemoHead.

Lemma head_is_origin_witness :
  let p := feed (concat (lines_of <$> [DemoHead.connected; DemoHead.hints; DemoHead.partial]))
             (HeadParser_new (expects_proxy_tunnel DemoHead.proxy DemoHead.url)) in
  let head := mkHead 206 None [(str "content-range", str "bytes 0-3/8"); (str "x-a", str "1"); (str "x-a", str "2")] in
  hp_sent p = Some (Ok head) /\ hp_sent (feed [DemoHead.line "X-Trailer: 1"; crlf] p) = Some (Ok head).
Proof.
  apply (head_is_origin None true (HeadParser_new true) [DemoHead.connected; DemoHead.hints; DemoHead.partial]
           [DemoHead.line "X-Trailer: 1"; crlf]); [|done].
  repeat constructor; done.
Defined.

Lemma reused_tunnel_head_lost_witness :
  let p := feed (lines_of DemoHead.partial) (HeadParser_new (expects_proxy_tunnel DemoHead.proxy DemoHead.url)) in
  hp_sent p = None /\ hp_published p = false.
Proof.
  apply (reused_tunnel_head_lost DemoHead.proxy DemoHead.url DemoHead.partial 206);
    [reflexivity|exact DemoHead.partial_ok|apply Nat.leb_le; vm_compute; reflexivity|vm_compute; reflexivity|reflexivity].
Defined.
