(* ===== verification/Pools.v ===== *)
(** * Connection pools ([Pool] of [src/network/curl/driver/mod.rs])

    One pool per origin and proxy route: the transfers it runs, the estimate of the idle
    connections libcurl keeps for it, the DNS answers injected into it and the deadlines
    after which its sockets are closed.  Instants and durations are nanoseconds.  The
    [BinaryHeap] of idle dates is the ascending list of its elements. *)

From S2P Require Import Prelude RustStr Errors Float64 Net IpPolicy Checksum BodySink Head.

(** ** Configuration and requests *)

Record DriverConfig := mkDriverConfig {
  dc_max_idle_per_host : nat;
  dc_pool_idle_timeout : Z;
  dc_max_age_conn : option Z;
}.

Definition DEFAULT_MAX_AGE_CONN : Z := 118 * NANOS_PER_SEC.

Definition max_age_conn_secs (c : DriverConfig) : option Z :=
  let max_age := Z.min (default (dc_pool_idle_timeout c) (dc_max_age_conn c)) DEFAULT_MAX_AGE_CONN in
  let secs := max_age / NANOS_PER_SEC in
  if 0 <? secs then Some (Z.min secs u32_max) else None.

(** [Ipv4Addr]'s and [Ipv6Addr]'s [Display]. *)
Definition show_v4 (bits : Z) : rstr :=
  let octet k := show_u64 (Z.land (Z.shiftr bits k) 255) in
  octet 24 ++ [46] ++ octet 16 ++ [46] ++ octet 8 ++ [46] ++ octet 0.

Fixpoint show_hex_loop (fuel : nat) (n : Z) (acc : rstr) : rstr :=
  match fuel with
  | O => acc
  | S fuel => if n <? 16 then hex_lower n :: acc else show_hex_loop fuel (n / 16) (hex_lower (n mod 16) :: acc)
  end.

(** [{:x}] of a 16-bit segment. *)
Definition show_hex (n : Z) : rstr := show_hex_loop 4 n [].

Definition v6_segments (bits : Z) : list Z :=
  (fun i => Z.land (Z.shiftr bits (112 - 16 * i)) 65535) <$> [0; 1; 2; 3; 4; 5; 6; 7].

(** The longest run of zero segments, the first one among equals: its start and length. *)
Fixpoint longest_zeroes (i : nat) (l : list Z) (current longest : nat * nat) : nat * nat :=
  match l with
  | [] => longest
  | s :: l =>
      let current := if s =? 0 then (if (current.2 =? 0)%nat then i else current.1, S current.2) else (0%nat, 0%nat) in
      longest_zeroes (S i) l current (if (longest.2 <? current.2)%nat then current else longest)
  end.

Fixpoint join_with (sep : rstr) (l : list rstr) : rstr :=
  match l with
  | [] => []
  | [s] => s
  | s :: l => s ++ sep ++ join_with sep l
  end.

Definition show_v6 (bits : Z) : rstr :=
  if Z.shiftr bits 32 =? 65535 then str "::ffff:" ++ show_v4 (Z.land bits (2 ^ 32 - 1))
  else
    let segs := v6_segments bits in
    let colons l := join_with (str ":") (show_hex <$> l) in
    let '(start, len) := longest_zeroes 0 segs (0%nat, 0%nat) (0%nat, 0%nat) in
    if (1 <? len)%nat then colons (take start segs) ++ str "::" ++ colons (drop (start + len) segs) else colons segs.

Definition render_address (addr : IpAddr) : rstr :=
  match addr with
  | V4 ip => show_v4 ip
  | V6 ip => str "[" ++ show_v6 ip ++ str "]"
  end.

Record ResolveEntry := mkResolveEntry {
  re_spec : rstr;
  re_key : rstr;
  re_ttl : Z;
}.

Definition ResolveEntry_new (host : rstr) (port : Z) (addrs : list IpAddr) (ttl : Z) : ResolveEntry :=
  mkResolveEntry (host ++ str ":" ++ show_u64 port ++ str ":" ++ join_with (str ",") (render_address <$> addrs))
    (host ++ str ":" ++ show_u64 port) ttl.

Record ConnectToEntry := mkConnectTo {
  ct_spec : rstr;
  ct_address : IpAddr;
}.

Definition ConnectToEntry_new (host : rstr) (port : Z) (address : IpAddr) (address_port : Z) : ConnectToEntry :=
  mkConnectTo (host ++ str ":" ++ show_u64 port ++ str ":" ++ render_address address ++ str ":" ++ show_u64 address_port) address.

Record ResolvePlan := mkResolvePlan {
  rp_list : list rstr;
  rp_force_fresh_connect : bool;
}.

Record InjectedResolve := mkInjected {
  ij_spec : rstr;
  ij_injected_at : Z;
  ij_ttl : Z;
}.

Definition is_expired (now : Z) (i : InjectedResolve) : bool := ij_ttl i <=? duration_since now (ij_injected_at i).

Record RequestOptions := mkRequestOptions {
  ro_url : rstr;
  ro_request_id : option Z;
  ro_headers : list (rstr * rstr);
  ro_range : option rstr;
  ro_connect_timeout : Z;
  ro_head_timeout : Z;
  ro_forbid_connection_reuse : bool;
  ro_resolve : option ResolveEntry;
  ro_candidates : option CandidateSet;
  ro_proxy : option rstr;
  ro_ca_info : option rstr;
  ro_ca_path : option rstr;
  ro_client_cert : option rstr;
  ro_client_key : option rstr;
}.

Definition set_timeouts (connect head : Z) (o : RequestOptions) : RequestOptions :=
  mkRequestOptions (ro_url o) (ro_request_id o) (ro_headers o) (ro_range o) connect head (ro_forbid_connection_reuse o)
    (ro_resolve o) (ro_candidates o) (ro_proxy o) (ro_ca_info o) (ro_ca_path o) (ro_client_cert o) (ro_client_key o).

(** ** libcurl's options

    What [configure_easy] asks of libcurl, in the order of the calls.  A call that is
    refused ends the list and fails the request. *)
Inductive CurlOption :=
  | OptUrl (url : rstr)
  | OptHttpVersion11
  | OptFollowLocation (on : bool)
  | OptHttpContentDecoding (on : bool)
  | OptTransferEncoding (on : bool)
  | OptAcceptEncoding (encoding : rstr)
  | OptConnectTimeout (timeout : Z)
  | OptFailOnError (on : bool)
  | OptMaxAgeConn (secs : Z)
  | OptFreshConnect (on : bool)
  | OptForbidReuse (on : bool)
  | OptConnectTo (entries : list rstr)
  | OptRange (range : rstr)
  | OptProxy (proxy : rstr)
  | OptNoProxy (hosts : rstr)
  | OptResolve (entries : list rstr)
  | OptCaInfo (path : rstr)
  | OptCaPath (path : rstr)
  | OptSslCert (path : rstr)
  | OptSslKey (path : rstr)
  | OptHttpHeaders (lines : list rstr).

Definition apply_proxy (o : RequestOptions) : list CurlOption :=
  match ro_proxy o with
  | Some proxy => [OptProxy proxy; OptNoProxy []]
  | None => [OptProxy []; OptNoProxy (str "*")]
  end.

Definition opt_list {A} (f : A -> CurlOption) (o : option A) : list CurlOption := option_list (f <$> o).

Definition configure_easy (o : RequestOptions) (resolve : ResolvePlan) (connect_to : option ConnectToEntry)
    (max_age : option Z) : list CurlOption :=
  [OptUrl (ro_url o); OptHttpVersion11; OptFollowLocation false; OptHttpContentDecoding false; OptTransferEncoding false;
   OptAcceptEncoding (str "identity"); OptConnectTimeout (ro_connect_timeout o); OptFailOnError false] ++
  opt_list OptMaxAgeConn max_age ++
  (if ro_forbid_connection_reuse o then [OptFreshConnect true; OptForbidReuse true] else []) ++
  (if rp_force_fresh_connect resolve then [OptFreshConnect true] else []) ++
  opt_list (fun entry => OptConnectTo [ct_spec entry]) connect_to ++
  opt_list OptRange (ro_range o) ++
  apply_proxy o ++
  (match rp_list resolve with [] => [] | entries => [OptResolve entries] end) ++
  opt_list OptCaInfo (ro_ca_info o) ++ opt_list OptCaPath (ro_ca_path o) ++
  opt_list OptSslCert (ro_client_cert o) ++ opt_list OptSslKey (ro_client_key o) ++
  (match ro_headers o with
   | [] => []
   | headers => [OptHttpHeaders ((fun '(name, value) => name ++ str ": " ++ value) <$> headers)]
   end).

(** ** A pool *)

Record IdleClaim := mkIdleClaim {
  ic_since : Z;
  ic_generation : Z;
}.

Inductive TransferExit := ExitCompleted | ExitFailed | ExitCancelled.

#[export] Instance TransferExit_eq_dec : EqDecision TransferExit.
Proof. solve_decision. Defined.

Record CandidateClaim := mkCandidateClaim {
  cc_address : IpAddr;
  cc_generation : Z;
  cc_attempts : Z;
}.

Record RetryState := mkRetryState {
  rs_options : RequestOptions;
  rs_attempts : Z;
  rs_max_attempts : Z;
  rs_deadline : Z;
}.

(** [ActiveTransfer]; of its handle: the head parser, and the options it was built with.
    The body sink is shared with the consumer and kept by the driver's state. *)
Record ActiveTransfer := mkTransfer {
  at_head : HeadParser;
  at_options : list CurlOption;
  at_request_id : option Z;
  at_claim : option IdleClaim;
  at_generation : Z;
  at_candidate : option CandidateClaim;
  at_retry : option RetryState;
}.

Record Pool := mkPool {
  pl_active : gmap Z ActiveTransfer;
  pl_idle_since : option Z;
  pl_idle : list Z;
  pl_pinned_idle : gmap Z Z;
  pl_pinned_unknown_idle : option Z;
  pl_clear_generation : Z;
  pl_resolve : gmap rstr InjectedResolve;
  pl_cache_bound : nat;
  pl_cache_high_water : nat;
}.

Definition Pool_new (config : DriverConfig) (now : Z) : Pool :=
  mkPool ∅ (Some now) [] ∅ None 0 ∅ (dc_max_idle_per_host config) (dc_max_idle_per_host config).

Definition set_active (active : gmap Z ActiveTransfer) (p : Pool) : Pool :=
  mkPool active (pl_idle_since p) (pl_idle p) (pl_pinned_idle p) (pl_pinned_unknown_idle p) (pl_clear_generation p)
    (pl_resolve p) (pl_cache_bound p) (pl_cache_high_water p).

Definition set_idle_since (since : option Z) (p : Pool) : Pool :=
  mkPool (pl_active p) since (pl_idle p) (pl_pinned_idle p) (pl_pinned_unknown_idle p) (pl_clear_generation p)
    (pl_resolve p) (pl_cache_bound p) (pl_cache_high_water p).

Definition set_idle (idle : list Z) (p : Pool) : Pool :=
  mkPool (pl_active p) (pl_idle_since p) idle (pl_pinned_idle p) (pl_pinned_unknown_idle p) (pl_clear_generation p)
    (pl_resolve p) (pl_cache_bound p) (pl_cache_high_water p).

Definition set_pinned_idle (pinned : gmap Z Z) (unknown : option Z) (p : Pool) : Pool :=
  mkPool (pl_active p) (pl_idle_since p) (pl_idle p) pinned unknown (pl_clear_generation p)
    (pl_resolve p) (pl_cache_bound p) (pl_cache_high_water p).

Definition set_resolve (resolve : gmap rstr InjectedResolve) (p : Pool) : Pool :=
  mkPool (pl_active p) (pl_idle_since p) (pl_idle p) (pl_pinned_idle p) (pl_pinned_unknown_idle p) (pl_clear_generation p)
    resolve (pl_cache_bound p) (pl_cache_high_water p).

(** [BinaryHeap::push] and [BinaryHeap::pop] of [Reverse<Instant>]. *)
Definition heap_push (since : Z) (idle : list Z) : list Z := insert_by Z.leb since idle.

Definition claim_idle_connection (p : Pool) : option IdleClaim * Pool :=
  match pl_idle p with
  | [] => (None, p)
  | since :: idle => (Some (mkIdleClaim since (pl_clear_generation p)), set_idle idle p)
  end.

Definition release_claim (claim : IdleClaim) (p : Pool) : Pool :=
  if ic_generation claim =? pl_clear_generation p then set_idle (heap_push (ic_since claim) (pl_idle p)) p else p.

Definition add_idle_connections (count : nat) (since : Z) (p : Pool) : Pool :=
  set_idle (Nat.iter count (heap_push since) (pl_idle p)) p.

(** libcurl's [CURLINFO_CONN_ID] of each transfer. *)
Definition observe_pinned_connections (connection_id : Z -> option Z) (p : Pool) : Pool :=
  set_pinned_idle
    (map_fold (fun id t pinned =>
       match at_candidate t with
       | Some _ => match connection_id id with Some c => delete c pinned | None => pinned end
       | None => pinned
       end) (pl_pinned_idle p) (pl_active p))
    (pl_pinned_unknown_idle p) p.

Definition settle_pinned_connection (generation : Z) (connection : option Z) (exit : TransferExit) (now : Z) (p : Pool) : Pool :=
  if negb (generation =? pl_clear_generation p) then p
  else
    let completed := bool_decide (exit = ExitCompleted) in
    match connection with
    | Some id =>
        let pinned := delete id (pl_pinned_idle p) in
        set_pinned_idle (if completed then <[id := now]> pinned else pinned) (pl_pinned_unknown_idle p) p
    | None =>
        if completed then set_pinned_idle (pl_pinned_idle p) (Some (default now (pl_pinned_unknown_idle p))) p else p
    end.

Definition settle_connection (admitted_generation : Z) (claim : option IdleClaim) (created : nat) (exit : TransferExit) (now : Z) (p : Pool) : Pool :=
  if negb (admitted_generation =? pl_clear_generation p) then p
  else
    let p :=
      if (0 <? created)%nat || bool_decide (exit = ExitCancelled) then
        match claim with Some claim => release_claim claim p | None => p end
      else p in
    if bool_decide (exit = ExitCompleted) then add_idle_connections (created `max` 1) now p else p.

Definition idle_connections (p : Pool) : nat :=
  length (pl_idle p) + size (pl_pinned_idle p) + (match pl_pinned_unknown_idle p with Some _ => 1 | None => 0 end).

(** [Iterator::min] *)
Definition min_of (l : list Z) : option Z :=
  match l with [] => None | x :: l => Some (fold_left Z.min l x) end.

Definition pinned_dates (p : Pool) : list Z := (map_to_list (pl_pinned_idle p)).*2 ++ option_list (pl_pinned_unknown_idle p).

Definition oldest_idle (p : Pool) : option Z := min_of (option_list (head (pl_idle p)) ++ pinned_dates p).

Definition plan_resolve (entry : option ResolveEntry) (now : Z) (p : Pool) : ResolvePlan :=
  match entry with
  | None => mkResolvePlan [] false
  | Some entry =>
      match pl_resolve p !! re_key entry with
      | None => mkResolvePlan [re_spec entry] false
      | Some injected =>
          let changed := negb (bool_decide (ij_spec injected = re_spec entry)) in
          if negb changed && negb (is_expired now injected) then mkResolvePlan [] false
          else mkResolvePlan [str "-" ++ re_key entry; re_spec entry] changed
      end
  end.

Definition commit_resolve (entry : option ResolveEntry) (applied : bool) (now : Z) (p : Pool) : Pool :=
  match entry with
  | None => p
  | Some entry =>
      if negb applied then p
      else set_resolve (<[re_key entry := mkInjected (re_spec entry) now (re_ttl entry)]> (pl_resolve p)) p
  end.

(** [now] is the clock the pool that may not reuse connections reads. *)
Definition idle_deadline (timeout : Z) (reuse_disabled : bool) (now : Z) (p : Pool) : option Z :=
  if negb (bool_decide (pl_active p = ∅)) then None
  else if reuse_disabled then Some now
  else (fun since => since + timeout) <$> min_of (option_list (pl_idle_since p) ++ pinned_dates p).

Definition idle_connection_deadline (timeout : Z) (reuse_disabled : bool) (p : Pool) : option Z :=
  if bool_decide (pl_active p = ∅) || reuse_disabled then None
  else (fun since => since + timeout) <$> oldest_idle p.

(** [clear_idle_connections]; [refused] is libcurl's answer to the option. *)
Definition clear_idle_connections (refused : bool) (p : Pool) : option Pool :=
  if refused then None
  else Some (mkPool (pl_active p) (pl_idle_since p) [] ∅ None (pl_clear_generation p ⊕ 1) (pl_resolve p)
               (pl_cache_bound p) (pl_cache_high_water p)).

Definition cache_bound (config : DriverConfig) (active : nat) : nat :=
  Z.to_nat (Z.min (sat_add64 (Z.of_nat (dc_max_idle_per_host config)) (Z.of_nat (active - 1))) u32_max).

(** The bound is given to libcurl again when the number of transfers changed; [refused]
    is libcurl's answer. *)
Definition update_cache_bound (config : DriverConfig) (refused : bool) (p : Pool) : option Pool :=
  let bound := cache_bound config (size (pl_active p)) in
  if negb (dc_max_idle_per_host config =? 0)%nat && negb (pl_cache_bound p =? bound)%nat then
    if refused then None
    else Some (mkPool (pl_active p) (pl_idle_since p) (pl_idle p) (pl_pinned_idle p) (pl_pinned_unknown_idle p)
                 (pl_clear_generation p) (pl_resolve p) bound (pl_cache_high_water p `max` bound))
  else Some p.

(** ** Reclamation *)

(** Whether [reclaim_idle_pools] keeps a pool. *)
Definition keeps_pool (config : DriverConfig) (now clock : Z) (p : Pool) : bool :=
  if bool_decide (pl_active p = ∅) && (dc_max_idle_per_host config <? pl_cache_high_water p)%nat &&
     (dc_max_idle_per_host config <? idle_connections p)%nat then false
  else
    match idle_deadline (dc_pool_idle_timeout config) (dc_max_idle_per_host config =? 0)%nat clock p with
    | None => true
    | Some deadline => negb (deadline <=? now)
    end.

(** One pool in [reclaim_idle_connections]: whether it was cleared, and the pool. *)
Definition reclaim_connections (config : DriverConfig) (refused : bool) (now : Z) (p : Pool) : bool * Pool :=
  match idle_connection_deadline (dc_pool_idle_timeout config) (dc_max_idle_per_host config =? 0)%nat p with
  | None => (false, p)
  | Some deadline =>
      if now <? deadline then (false, p)
      else match clear_idle_connections refused p with
           | Some p => (true, p)
           | None => (false, p)
           end
  end.

(** ** The connect budget *)

Definition MIN_CONNECT_SLICE : Z := 2 * NANOS_PER_SEC.

Definition MAX_INTERNAL_CONNECT_ATTEMPTS : Z := 3.

Definition connect_slice (remaining_head attempts_left configured : Z) : Z :=
  let share := remaining_head / Z.max attempts_left 1 in
  Z.min configured (Z.min (Z.max share MIN_CONNECT_SLICE) remaining_head).
