(* ===== verification/Driver.v ===== *)
(** * The driver of the libcurl handles ([src/network/curl/driver/mod.rs])

    One thread owns the pools and their transfers.  It handles the commands of the
    clients, runs libcurl, completes, re-attempts, cancels and fails transfers, and
    reclaims idle sockets.  What libcurl answers, the clock readings and the order of a
    [HashMap]'s iteration are inputs.  A definition answers [None] where the code would
    panic. *)

From S2P Require Import Prelude RustStr Errors Cache Float64 Net IpPolicy Checksum BodySink Head Pools.

(** ** State *)

Record AttemptRecord := mkAttempt {
  ar_pool : PoolKey;
  ar_claim : CandidateClaim;
  ar_outcome : option AttemptOutcome;
  ar_consumed : option bool;
  ar_sample : option TransferSample;
}.

Record DriverCounters := mkCounters {
  dn_submitted : Z;
  dn_completed : Z;
  dn_cancelled : Z;
  dn_connections : Z;
  dn_commands : Z;
  dn_pauses : Z;
  dn_resumes : Z;
  dn_idle_clears : Z;
  dn_ip_selections : Z;
  dn_connect_retries : Z;
  dn_ip_samples : Z;
  dn_ip_polluted_samples : Z;
}.

Definition Counters_new : DriverCounters := mkCounters 0 0 0 0 0 0 0 0 0 0 0 0.

Inductive Command :=
| Submit (id : Z) (options : RequestOptions)
| Resume (id : Z)
| Cancel (id : Z)
| BodyDone (id : Z) (consumed : bool) (sample : option TransferSample).

(** [dr_queue] are the commands the driver has not handled, [dr_closed] whether the queue
    is closed.  [dr_sinks] are the keys of [DriverShared::sinks]; [dr_bodies] are the sinks
    themselves, which the consumers share.  [dr_heads] is what became of the channel of
    a head that has no sender any more: the value sent, or none when the sender was
    dropped.  [dr_started] are the transfers that were submitted,
    [dr_gone] those whose caller stopped waiting for the head, and
    [dr_policy_calls] the number of calls into the address policy. *)
Record Driver := mkDriver {
  dr_pools : gmap PoolKey Pool;
  dr_policy : IpPolicy;
  dr_attempts : gmap Z AttemptRecord;
  dr_sinks : gset Z;
  dr_counters : DriverCounters;
  dr_bodies : gmap Z BodySink;
  dr_heads : gmap Z (option (result ResponseHead DownloadError));
  dr_queue : list Command;
  dr_closed : bool;
  dr_started : gset Z;
  dr_gone : gset Z;
  dr_policy_calls : Z;
}.

Definition Driver_new : Driver := mkDriver ∅ IpPolicy_new ∅ ∅ Counters_new ∅ ∅ [] false ∅ ∅ 0.

Definition set_pools pools (d : Driver) : Driver :=
  mkDriver pools (dr_policy d) (dr_attempts d) (dr_sinks d) (dr_counters d) (dr_bodies d) (dr_heads d) (dr_queue d) (dr_closed d) (dr_started d) (dr_gone d) (dr_policy_calls d).

(** [calls] of the policy led to it. *)
Definition set_policy policy calls (d : Driver) : Driver :=
  mkDriver (dr_pools d) policy (dr_attempts d) (dr_sinks d) (dr_counters d) (dr_bodies d) (dr_heads d) (dr_queue d) (dr_closed d) (dr_started d) (dr_gone d)
    (dr_policy_calls d + calls).

Definition set_attempts attempts (d : Driver) : Driver :=
  mkDriver (dr_pools d) (dr_policy d) attempts (dr_sinks d) (dr_counters d) (dr_bodies d) (dr_heads d) (dr_queue d) (dr_closed d) (dr_started d) (dr_gone d) (dr_policy_calls d).

Definition set_sinks sinks (d : Driver) : Driver :=
  mkDriver (dr_pools d) (dr_policy d) (dr_attempts d) sinks (dr_counters d) (dr_bodies d) (dr_heads d) (dr_queue d) (dr_closed d) (dr_started d) (dr_gone d) (dr_policy_calls d).

Definition set_bodies bodies (d : Driver) : Driver :=
  mkDriver (dr_pools d) (dr_policy d) (dr_attempts d) (dr_sinks d) (dr_counters d) bodies (dr_heads d) (dr_queue d) (dr_closed d) (dr_started d) (dr_gone d) (dr_policy_calls d).

Definition set_heads heads (d : Driver) : Driver :=
  mkDriver (dr_pools d) (dr_policy d) (dr_attempts d) (dr_sinks d) (dr_counters d) (dr_bodies d) heads (dr_queue d) (dr_closed d) (dr_started d) (dr_gone d) (dr_policy_calls d).

Definition set_started started (d : Driver) : Driver :=
  mkDriver (dr_pools d) (dr_policy d) (dr_attempts d) (dr_sinks d) (dr_counters d) (dr_bodies d) (dr_heads d) (dr_queue d) (dr_closed d) started (dr_gone d) (dr_policy_calls d).

Definition set_gone gone (d : Driver) : Driver :=
  mkDriver (dr_pools d) (dr_policy d) (dr_attempts d) (dr_sinks d) (dr_counters d) (dr_bodies d) (dr_heads d) (dr_queue d) (dr_closed d)
    (dr_started d) gone (dr_policy_calls d).

Definition set_queue queue closed (d : Driver) : Driver :=
  mkDriver (dr_pools d) (dr_policy d) (dr_attempts d) (dr_sinks d) (dr_counters d) (dr_bodies d) (dr_heads d) queue closed (dr_started d) (dr_gone d)
    (dr_policy_calls d).

Definition count (f : DriverCounters -> DriverCounters) (d : Driver) : Driver :=
  mkDriver (dr_pools d) (dr_policy d) (dr_attempts d) (dr_sinks d) (f (dr_counters d)) (dr_bodies d) (dr_heads d) (dr_queue d) (dr_closed d) (dr_started d) (dr_gone d) (dr_policy_calls d).

(** ** Counters *)

Definition count_submitted (c : DriverCounters) : DriverCounters :=
  mkCounters (dn_submitted c ⊕ 1) (dn_completed c) (dn_cancelled c) (dn_connections c) (dn_commands c) (dn_pauses c) (dn_resumes c)
    (dn_idle_clears c) (dn_ip_selections c) (dn_connect_retries c) (dn_ip_samples c) (dn_ip_polluted_samples c).

Definition count_transfer (connections pauses : nat) (c : DriverCounters) : DriverCounters :=
  mkCounters (dn_submitted c) (dn_completed c ⊕ 1) (dn_cancelled c) (dn_connections c ⊕ Z.of_nat connections) (dn_commands c)
    (dn_pauses c ⊕ Z.of_nat pauses) (dn_resumes c)
    (dn_idle_clears c) (dn_ip_selections c) (dn_connect_retries c) (dn_ip_samples c) (dn_ip_polluted_samples c).

Definition count_cancelled (pauses : nat) (c : DriverCounters) : DriverCounters :=
  mkCounters (dn_submitted c) (dn_completed c) (dn_cancelled c ⊕ 1) (dn_connections c) (dn_commands c)
    (dn_pauses c ⊕ Z.of_nat pauses) (dn_resumes c)
    (dn_idle_clears c) (dn_ip_selections c) (dn_connect_retries c) (dn_ip_samples c) (dn_ip_polluted_samples c).

Definition count_command (c : DriverCounters) : DriverCounters :=
  mkCounters (dn_submitted c) (dn_completed c) (dn_cancelled c) (dn_connections c) (dn_commands c ⊕ 1) (dn_pauses c) (dn_resumes c)
    (dn_idle_clears c) (dn_ip_selections c) (dn_connect_retries c) (dn_ip_samples c) (dn_ip_polluted_samples c).

Definition count_resume (c : DriverCounters) : DriverCounters :=
  mkCounters (dn_submitted c) (dn_completed c) (dn_cancelled c) (dn_connections c) (dn_commands c) (dn_pauses c) (dn_resumes c ⊕ 1)
    (dn_idle_clears c) (dn_ip_selections c) (dn_connect_retries c) (dn_ip_samples c) (dn_ip_polluted_samples c).

Definition count_idle_clear (c : DriverCounters) : DriverCounters :=
  mkCounters (dn_submitted c) (dn_completed c) (dn_cancelled c) (dn_connections c) (dn_commands c) (dn_pauses c) (dn_resumes c)
    (dn_idle_clears c ⊕ 1) (dn_ip_selections c) (dn_connect_retries c) (dn_ip_samples c) (dn_ip_polluted_samples c).

Definition count_ip_selection (c : DriverCounters) : DriverCounters :=
  mkCounters (dn_submitted c) (dn_completed c) (dn_cancelled c) (dn_connections c) (dn_commands c) (dn_pauses c) (dn_resumes c)
    (dn_idle_clears c) (dn_ip_selections c ⊕ 1) (dn_connect_retries c) (dn_ip_samples c) (dn_ip_polluted_samples c).

Definition count_connect_retry (connections pauses : nat) (c : DriverCounters) : DriverCounters :=
  mkCounters (dn_submitted c) (dn_completed c) (dn_cancelled c) (dn_connections c ⊕ Z.of_nat connections) (dn_commands c)
    (dn_pauses c ⊕ Z.of_nat pauses) (dn_resumes c)
    (dn_idle_clears c) (dn_ip_selections c) (dn_connect_retries c ⊕ 1) (dn_ip_samples c) (dn_ip_polluted_samples c).

Definition count_ip_sample (c : DriverCounters) : DriverCounters :=
  mkCounters (dn_submitted c) (dn_completed c) (dn_cancelled c) (dn_connections c) (dn_commands c) (dn_pauses c) (dn_resumes c)
    (dn_idle_clears c) (dn_ip_selections c) (dn_connect_retries c) (dn_ip_samples c ⊕ 1) (dn_ip_polluted_samples c).

Definition count_ip_pollution (c : DriverCounters) : DriverCounters :=
  mkCounters (dn_submitted c) (dn_completed c) (dn_cancelled c) (dn_connections c) (dn_commands c) (dn_pauses c) (dn_resumes c)
    (dn_idle_clears c) (dn_ip_selections c) (dn_connect_retries c) (dn_ip_samples c) (dn_ip_polluted_samples c ⊕ 1).

(** ** Sinks and heads *)

Definition finish_sink (id : Z) (t : Terminal) (now : Z) (d : Driver) : Driver :=
  set_bodies (alter (BodySink.finish t now) id (dr_bodies d)) d.

Definition discard_sink (id : Z) (d : Driver) : Driver := set_bodies (alter discard_buffer id (dr_bodies d)) d.

(** [shared.sinks.lock().remove(&id)] *)
Definition forget_sink (id : Z) (d : Driver) : Driver := set_sinks (dr_sinks d ∖ {[id]}) d.

Definition pause_count (id : Z) (d : Driver) : nat := from_option sk_pause_count 0%nat (dr_bodies d !! id).

(** The channel of a head is done with. *)
Definition close_head (id : Z) (value : option (result ResponseHead DownloadError)) (d : Driver) : Driver :=
  set_heads (<[id := value]> (dr_heads d)) d.

(** ** Reading libcurl's answers *)

Definition classify_curl_failure (code : Z) : TransportErrorKind :=
  if code =? 28 then Timeout
  else if existsb (Z.eqb code) [5; 6; 7; 35] then Connect
  else if existsb (Z.eqb code) [18; 55; 56] then Body
  else if existsb (Z.eqb code) [8; 34; 52; 61; 65] then Request
  else Other.

Definition is_safe_connect_failure (code : Z) (head_published : bool) (request_bytes connect_finished : option Z) : bool :=
  negb head_published && bool_decide (request_bytes = Some 0) &&
  (existsb (Z.eqb code) [5; 6; 7; 35] || ((code =? 28) && bool_decide (connect_finished = Some 0))).

Section Driver.
  (** [f64::powf], the URL parser ([scheme], [host_str] and [port_or_known_default]), the
      [Debug] form of a pool's key and the order in which a pool's transfers are drained. *)
  Context (powf : f64 -> f64 -> f64).
  Context (parse_url : rstr -> option (rstr * option rstr * option Z)).
  Context (show_key : PoolKey -> rstr).
  Context (drain : gmap Z ActiveTransfer -> list (Z * ActiveTransfer)).
  Context (config : DriverConfig).

Definition for_request (url : rstr) (proxy : option rstr) : PoolKey :=
  let origin :=
    match parse_url url with
    | Some (scheme, Some host, Some port) =>
        (to_ascii_lowercase <$> scheme) ++ str "://" ++ (to_ascii_lowercase <$> host) ++ str ":" ++ show_u64 port
    | _ => url
    end in
  mkPoolKey origin proxy.

Definition pool_key (o : RequestOptions) : PoolKey := for_request (ro_url o) (ro_proxy o).

(** ** Reservations *)

Record Pinned := mkPinned {
  pi_claim : CandidateClaim;
  pi_entry : ConnectToEntry;
}.

Definition settle_policy (key : PoolKey) (claim : CandidateClaim) (outcome : AttemptOutcome) (now : Z) (d : Driver) : Driver :=
  set_policy (IpPolicy.settle key (cc_address claim) (cc_generation claim) outcome now (dr_policy d)) 1 d.

Definition reserve_candidate (o : RequestOptions) (key : PoolKey) (now : Z) (previous : option RetryState) (d : Driver)
  : option (result (option Pinned) SelectionError * Driver) :=
  match ro_candidates o with
  | None => Some (Ok None, d)
  | Some set =>
      '(r, policy) ← select powf key now (observe key set now (dr_policy d));
      let d := set_policy policy 2 d in
      match r with
      | Err e => Some (Err e, d)
      | Ok sel =>
          let claim := mkCandidateClaim (sel_address sel) (sel_generation sel)
                         (match previous with Some state => rs_attempts state + 1 | None => 1 end) in
          Some (Ok (Some (mkPinned claim (ConnectToEntry_new (cs_host set) (cs_port set) (sel_address sel) (cs_port set)))), d)
      end
  end.

Definition release_candidate (id : Z) (now : Z) (d : Driver) : Driver :=
  match dr_attempts d !! id with
  | None => d
  | Some record =>
      settle_policy (ar_pool record) (ar_claim record) AttemptCancelled now (set_attempts (delete id (dr_attempts d)) d)
  end.

Definition fold_attempt (id : Z) (now : Z) (d : Driver) : Driver :=
  match dr_attempts d !! id with
  | None => d
  | Some record =>
      match ar_outcome record, ar_consumed record with
      | Some outcome, Some consumed =>
          let d := set_attempts (delete id (dr_attempts d)) d in
          match outcome, consumed, ar_sample record with
          | Completed, true, Some sample =>
              let '(used, policy) := record_sample powf (ar_pool record) (cc_address (ar_claim record)) sample now (dr_policy d) in
              count (if used then count_ip_sample else count_ip_pollution) (set_policy policy 1 d)
          | _, _, _ => d
          end
      | _, _ => d
      end
  end.

(** ** Starting a transfer *)

(** libcurl's answers to a new handle: a refused option, a refused [add2], a refused
    token, each with its message; [sa_later] is the clock after the handle was added. *)
Record StartAnswers := mkStartAnswers {
  sa_option_error : option rstr;
  sa_add_error : option rstr;
  sa_token_error : option rstr;
  sa_later : Z;
}.

Definition build_easy (o : RequestOptions) (head : HeadParser) (plan : ResolvePlan) (connect_to : option ConnectToEntry)
    (option_error : option rstr) : HeadParser * list CurlOption :=
  let head :=
    match option_error with
    | Some error => head_fail (Internal (str "libcurl request options rejected: " ++ error)) head
    | None => head
    end in
  (head, configure_easy o plan connect_to (max_age_conn_secs config)).

Definition with_pinned_ip (address : option IpAddr) (p : HeadParser) : HeadParser :=
  mkParser address (hp_expect_connect p) (hp_connect_seen p) (hp_block p) (hp_published p) (hp_sender p) (hp_sent p).

(** The reservation is released, the body ends and the handle, with the sender of the
    head, is dropped. *)
Definition refuse_transfer (id : Z) (head : HeadParser) (message : rstr) (now : Z) (d : Driver) : Driver :=
  close_head id (hp_sent head)
    (forget_sink id (finish_sink id (BodyFailed Other None message) now (release_candidate id now d))).

Definition attach_transfer (key : PoolKey) (id : Z) (easy : HeadParser * list CurlOption) (pinned : option Pinned)
    (retry : option RetryState) (o : RequestOptions) (plan : ResolvePlan) (answers : StartAnswers) (pool : Pool) (d : Driver)
  : Driver :=
  let head := with_pinned_ip (cc_address ∘ pi_claim <$> pinned) easy.1 in
  let now := sa_later answers in
  match sa_add_error answers, sa_token_error answers with
  | Some error, _ =>
      refuse_transfer id head (str "could not add transfer to multi handle: " ++ error) now (set_pools (<[key := pool]> (dr_pools d)) d)
  | None, Some error =>
      refuse_transfer id head (str "could not tag transfer: " ++ error) now (set_pools (<[key := pool]> (dr_pools d)) d)
  | None, None =>
      let '(claim, pool) :=
        if bool_decide (is_Some pinned) || ro_forbid_connection_reuse o || rp_force_fresh_connect plan then (None, pool)
        else claim_idle_connection pool in
      let transfer := mkTransfer head easy.2 (ro_request_id o) claim (pl_clear_generation pool) (pi_claim <$> pinned) retry in
      let pool := set_idle_since None (set_active (<[id := transfer]> (pl_active pool)) pool) in
      let pool := commit_resolve (ro_resolve o) (negb (bool_decide (rp_list plan = []))) now pool in
      set_pools (<[key := pool]> (dr_pools d)) d
  end.

Definition selection_message (key : PoolKey) (e : SelectionError) : rstr :=
  match e with
  | Expired => str "the resolved addresses expired before the transfer started"
  | NoCandidates => str "no usable address for " ++ show_key key ++ str " was resolved"
  end.

Definition start_transfer (id : Z) (o : RequestOptions) (now : Z) (answers : StartAnswers) (d : Driver) : option Driver :=
  let key := pool_key o in
  '(reserved, d) ← reserve_candidate o key now None d;
  match reserved with
  | Err e =>
      let error := Transport Connect (selection_message key e) in
      Some (finish_sink id (BodyFailed Connect None (selection_message key e)) (sa_later answers)
              (forget_sink id (close_head id (Some (Err error)) d)))
  | Ok pinned =>
      let d :=
        match pinned with
        | Some pin => set_attempts (<[id := mkAttempt key (pi_claim pin) None None None]> (dr_attempts d)) (count count_ip_selection d)
        | None => d
        end in
      let pool := default (Pool_new config now) (dr_pools d !! key) in
      let plan := plan_resolve (ro_resolve o) now pool in
      let retry :=
        (fun pin => mkRetryState o (cc_attempts (pi_claim pin))
           (Z.min (match ro_candidates o with Some set => wrap32 (Z.of_nat (length (cs_addresses set))) | None => 1 end)
              MAX_INTERNAL_CONNECT_ATTEMPTS)
           (now + ro_head_timeout o)) <$> pinned in
      let o :=
        match retry with
        | Some retry => set_timeouts (connect_slice (ro_head_timeout o) (rs_max_attempts retry) (ro_connect_timeout o)) (ro_head_timeout o) o
        | None => o
        end in
      let parser := HeadParser_new (expects_proxy_tunnel (ro_proxy o) (ro_url o)) in
      let easy := build_easy o parser plan (pi_entry <$> pinned) (sa_option_error answers) in
      Some (attach_transfer key id easy pinned retry o plan answers pool d)
  end.

(** ** Re-attempting a connection *)

Record RetryRequest := mkRetryRequest {
  rq_id : Z;
  rq_pool : PoolKey;
  rq_state : RetryState;
  rq_error : DownloadError;
}.

Definition fail_retry (id : Z) (error : DownloadError) (now : Z) (d : Driver) : Driver :=
  let d := forget_sink id (close_head id (Some (Err error)) d) in
  let d := set_attempts (delete id (dr_attempts d)) d in
  finish_sink id (BodyFailed Connect None (str "no candidate could be reached")) now (discard_sink id d).

Definition start_retry (request : RetryRequest) (now : Z) (answers : StartAnswers) (d : Driver) : option Driver :=
  let id := rq_id request in
  let key := rq_pool request in
  let state := rq_state request in
  let remaining := duration_since (rs_deadline state) now in
  if remaining =? 0 then Some (fail_retry id (rq_error request) (sa_later answers) d)
  else
    let o := rs_options state in
    let o := set_timeouts (connect_slice remaining (Z.max 0 (rs_max_attempts state - rs_attempts state)) (ro_connect_timeout o)) remaining o in
    '(reserved, d) ← reserve_candidate o key now (Some state) d;
    match reserved with
    | Ok (Some pin) =>
        let d := count count_ip_selection d in
        let consumed := r ← dr_attempts d !! id; ar_consumed r in
        let pool_of := from_option ar_pool key (dr_attempts d !! id) in
        let d := set_attempts (<[id := mkAttempt pool_of (pi_claim pin) None consumed None]> (dr_attempts d)) d in
        let pool := default (Pool_new config now) (dr_pools d !! key) in
        let plan := plan_resolve (ro_resolve o) now pool in
        let parser := HeadParser_new (expects_proxy_tunnel (ro_proxy o) (ro_url o)) in
        let easy := build_easy o parser plan (Some (pi_entry pin)) (sa_option_error answers) in
        let retry := Some (mkRetryState (rs_options state) (cc_attempts (pi_claim pin)) (rs_max_attempts state) (rs_deadline state)) in
        Some (attach_transfer key id easy (Some pin) retry o plan answers pool d)
    | _ => Some (fail_retry id (rq_error request) (sa_later answers) d)
    end.

(** ** The end of a transfer *)

(** What libcurl tells of a finished transfer: the connections it opened, the address
    and the identity of the connection, the size of the request it sent and when the
    connection was set up. *)
Record TransferInfo := mkInfo {
  ti_connections : nat;
  ti_primary_ip : option IpAddr;
  ti_connection_id : option Z;
  ti_request_bytes : option Z;
  ti_connect_finished : option Z;
}.

Definition phase_text (head_published : bool) : rstr :=
  if head_published then str "after response headers" else str "before response headers".

(** [Ok(())], or the code and the message of the failure. *)
Definition terminal_of (id : Z) (head_published : bool) (r : result unit (Z * rstr)) : Terminal :=
  match r with
  | Ok _ => Eof
  | Err (code, message) =>
      BodyFailed (classify_curl_failure code) (Some code)
        (str "libcurl error " ++ show_u64 code ++ str " " ++ phase_text head_published ++ str ": " ++ message ++
         str " (transfer " ++ show_u64 id ++ str ")")
  end.

Definition outcome_of (terminal : Terminal) (head_published : bool) (info : TransferInfo) : AttemptOutcome :=
  match terminal with
  | Eof => Completed
  | BodyCancelled => AttemptCancelled
  | BodyFailed _ code _ =>
      if is_safe_connect_failure (default 0 code) head_published (ti_request_bytes info) (ti_connect_finished info)
      then ConnectFailed else Failed
  end.

(** The reservation is settled and the driver's half of the attempt recorded. *)
Definition settle_attempt (key : PoolKey) (id : Z) (claim : CandidateClaim) (outcome : AttemptOutcome) (info : TransferInfo)
    (now : Z) (d : Driver) : Driver :=
  let d := settle_policy key claim outcome now d in
  let mismatch := match ti_primary_ip info with Some actual => negb (bool_decide (actual = cc_address claim)) | None => false end in
  match dr_attempts d !! id with
  | None => d
  | Some record =>
      let consumed := if mismatch then Some false else ar_consumed record in
      fold_attempt id now
        (set_attempts (<[id := mkAttempt (ar_pool record) claim (Some outcome) consumed (ar_sample record)]> (dr_attempts d)) d)
  end.

(** Whether the driver re-attempts a failed transfer itself: the state it retries with
    and the error it would report. *)
Definition wants_retry (transfer : ActiveTransfer) (terminal : Terminal) (outcome : AttemptOutcome) (now : Z) : option (RetryState * DownloadError) :=
  match terminal, at_retry transfer with
  | BodyFailed kind _ message, Some retry =>
      if bool_decide (outcome = ConnectFailed) && (rs_attempts retry <? rs_max_attempts retry) && (now <? rs_deadline retry) &&
         hp_sender (at_head transfer)
      then Some (retry, Transport kind message) else None
  | _, _ => None
  end.

Definition set_idle_if_empty (now : Z) (p : Pool) : Pool :=
  if bool_decide (pl_active p = ∅) then set_idle_since (Some now) p else p.

Definition settle_transfer (transfer : ActiveTransfer) (info : TransferInfo) (exit : TransferExit) (now : Z) (p : Pool) : Pool :=
  match at_candidate transfer with
  | Some _ => settle_pinned_connection (at_generation transfer) (ti_connection_id info) exit now p
  | None => settle_connection (at_generation transfer) (at_claim transfer) (ti_connections info) exit now p
  end.

Definition fail_head (terminal : Terminal) (p : HeadParser) : HeadParser :=
  match terminal with
  | BodyFailed kind _ message => head_fail (Transport kind message) p
  | _ => p
  end.

(** [later] is the clock of [sink.finish].  The second component is the transfer the
    driver goes on to re-attempt. *)
Definition complete_transfer (key : PoolKey) (id : Z) (r : result unit (Z * rstr)) (info : TransferInfo) (now later : Z) (d : Driver)
  : Driver * option RetryRequest :=
  match dr_pools d !! key with
  | None => (d, None)
  | Some pool =>
      match pl_active pool !! id with
      | None => (d, None)
      | Some transfer =>
          let pool := set_active (delete id (pl_active pool)) pool in
          let head_published := hp_published (at_head transfer) in
          let terminal := terminal_of id head_published r in
          let outcome := outcome_of terminal head_published info in
          let d :=
            match at_candidate transfer with
            | Some claim => settle_attempt key id claim outcome info now d
            | None => d
            end in
          match wants_retry transfer terminal outcome now with
          | Some (retry, error) =>
              let pool := settle_pinned_connection (at_generation transfer) (ti_connection_id info) ExitFailed now pool in
              let d := set_pools (<[key := set_idle_if_empty now pool]> (dr_pools d)) d in
              (count (count_connect_retry (ti_connections info) (pause_count id d)) d, Some (mkRetryRequest id key retry error))
          | None =>
              let d := if head_published then d else set_attempts (delete id (dr_attempts d)) d in
              let d := close_head id (hp_sent (fail_head terminal (at_head transfer))) d in
              let d := forget_sink id d in
              let d := count (count_transfer (ti_connections info) (pause_count id d)) d in
              let exit := match terminal with Eof => ExitCompleted | _ => ExitFailed end in
              let pool := settle_transfer transfer info exit now (set_idle_if_empty now pool) in
              (finish_sink id terminal later (set_pools (<[key := pool]> (dr_pools d)) d), None)
          end
      end
  end.

(** The pool whose transfer it is. *)
Definition pool_of (id : Z) (pools : gmap PoolKey Pool) : option (PoolKey * Pool) :=
  head (List.filter (fun kp => bool_decide (is_Some (pl_active kp.2 !! id))) (map_to_list pools)).

Definition cancel_transfer (id : Z) (info : TransferInfo) (now : Z) (d : Driver) : Driver :=
  match pool_of id (dr_pools d) with
  | None => d
  | Some (key, pool) =>
      match pl_active pool !! id with
      | None => d
      | Some transfer =>
          let pool := set_active (delete id (pl_active pool)) pool in
          let d := match at_candidate transfer with Some claim => settle_policy key claim AttemptCancelled now d | None => d end in
          let d := set_attempts (delete id (dr_attempts d)) d in
          let d := close_head id (hp_sent (head_fail Cancelled (at_head transfer))) d in
          let d := forget_sink id d in
          let d := count (count_cancelled (pause_count id d)) d in
          let pool := settle_transfer transfer info ExitCancelled now (set_idle_if_empty now pool) in
          finish_sink id BodyCancelled now (discard_sink id (set_pools (<[key := pool]> (dr_pools d)) d))
      end
  end.

(** One transfer of a pool that cannot perform. *)
Definition fail_one (key : PoolKey) (message : rstr) (now : Z) (d : Driver) (it : Z * ActiveTransfer) : Driver :=
  let '(id, transfer) := it in
  let d := match at_candidate transfer with Some claim => settle_policy key claim AttemptCancelled now d | None => d end in
  let d := set_attempts (delete id (dr_attempts d)) d in
  let d := close_head id (hp_sent (head_fail (Internal message) (at_head transfer))) d in
  finish_sink id (BodyFailed Other None message) now (discard_sink id (forget_sink id d)).

Definition fail_pool (key : PoolKey) (message : rstr) (now : Z) (d : Driver) : Driver :=
  match dr_pools d !! key with
  | None => d
  | Some pool => fold_left (fail_one key message now) (drain (pl_active pool)) (set_pools (delete key (dr_pools d)) d)
  end.

(** ** Commands *)

(** libcurl's answers while a command is handled. *)
Record CommandAnswers := mkCommandAnswers {
  ca_start : StartAnswers;
  ca_info : TransferInfo;
}.

(** [Resume] unpauses the handle, which changes nothing the driver keeps. *)
Definition handle_command (c : Command) (now : Z) (answers : CommandAnswers) (d : Driver) : option Driver :=
  let d := count count_command d in
  match c with
  | Submit id o => start_transfer id o now (ca_start answers) d
  | Resume id => Some (count count_resume d)
  | Cancel id => Some (cancel_transfer id (ca_info answers) now d)
  | BodyDone id consumed sample =>
      let d :=
        match dr_attempts d !! id with
        | Some record =>
            set_attempts (<[id := mkAttempt (ar_pool record) (ar_claim record) (ar_outcome record) (Some consumed) sample]> (dr_attempts d)) d
        | None => d
        end in
      Some (fold_attempt id now d)
  end.

(** [CommandQueue::send] *)
Definition send_command (c : Command) (d : Driver) : Driver :=
  if dr_closed d then d else set_queue (dr_queue d ++ [c]) false d.

Definition drop_command (d : Driver) (c : Command) : Driver :=
  match c with
  | Submit id _ => close_head id None d
  | _ => d
  end.

(** [CommandQueue::close]: the commands after those the driver has drained are dropped,
    and with them the channels they carry. *)
Definition close_queue (drained : nat) (d : Driver) : Driver :=
  fold_left drop_command (drop drained (dr_queue d)) (set_queue (take drained (dr_queue d)) true d).

(** The first half of [DriverHandle::get], with the number [TransferId::next] gave. *)
Definition submit (id : Z) (o : RequestOptions) (body_budget : nat) (d : Driver) : Driver :=
  let d := set_sinks (dr_sinks d ∪ {[id]}) (set_bodies (<[id := Sink_new body_budget]> (dr_bodies d)) (set_started (dr_started d ∪ {[id]}) d)) in
  let d := count count_submitted d in
  if dr_closed d then close_head id None d else send_command (Submit id o) d.

(** The error paths of [DriverHandle::get] and the drop of its future: the sink is
    forgotten and the transfer cancelled. *)
Definition abandon (id : Z) (d : Driver) : Driver :=
  send_command (Cancel id) (forget_sink id (set_gone (dr_gone d ∪ {[id]}) d)).

(** ** Running libcurl *)

Definition finish_transfer (key : PoolKey) (id : Z) (r : result unit (Z * rstr)) (info : TransferInfo) (now later retry_now : Z)
    (answers : StartAnswers) (d : Driver) : option Driver :=
  match complete_transfer key id r info now later d with
  | (d, None) => Some d
  | (d, Some request) => start_retry request retry_now answers d
  end.

(** A line for the head, and bytes for the body, of a transfer libcurl runs. *)
Definition receive_header (key : PoolKey) (id : Z) (line : bytes) (d : Driver) : Driver :=
  set_pools (alter (fun pool => set_active (alter (fun t =>
    mkTransfer (push line (at_head t)) (at_options t) (at_request_id t) (at_claim t) (at_generation t) (at_candidate t) (at_retry t))
    id (pl_active pool)) pool) key (dr_pools d)) d.

Definition receive_body (id : Z) (data : bytes) (now : Z) (d : Driver) : Driver :=
  set_bodies (alter (fun s => (BodySink.write data now s).2) id (dr_bodies d)) d.

(** One pool's turn: the bound is brought up to date and the connections in use are
    looked at. *)
Definition drive_pool (refused : bool) (connection_id : Z -> option Z) (p : Pool) : option Pool :=
  observe_pinned_connections connection_id <$> update_cache_bound config refused p.

Definition reclaim_idle_pools (now clock : Z) (d : Driver) : Driver :=
  set_pools (filter (fun kp => keeps_pool config now clock kp.2 = true) (dr_pools d)) d.

(** [reclaim_idle_connections] for one pool. *)
Definition reclaim_pool_connections (key : PoolKey) (refused : bool) (now : Z) (d : Driver) : Driver :=
  match dr_pools d !! key with
  | None => d
  | Some pool =>
      let '(cleared, pool) := reclaim_connections config refused now pool in
      let d := set_pools (<[key := pool]> (dr_pools d)) d in
      if cleared then count count_idle_clear d else d
  end.

(** ** The end of the thread *)

Definition cancel_one (now : Z) (d : Driver) (it : PoolKey * (Z * ActiveTransfer)) : Driver :=
  let '(key, (id, transfer)) := it in
  let d := match at_candidate transfer with Some claim => settle_policy key claim AttemptCancelled now d | None => d end in
  let d := close_head id (hp_sent (head_fail Cancelled (at_head transfer))) d in
  finish_sink id BodyCancelled now (forget_sink id d).

(** After its loop the driver drains the pools, in the order [keys], and cancels what is in
    flight; its records go with it.  The exit guard fails the sinks that are left, and
    the queue is dropped with the commands in it. *)
Definition exit_driver (keys : list PoolKey) (now : Z) (d : Driver) : Driver :=
  let transfers := keys ≫= fun key => pair key <$> from_option (drain ∘ pl_active) [] (dr_pools d !! key) in
  let d := set_attempts ∅ (fold_left (cancel_one now) transfers (set_pools ∅ d)) in
  let terminal := BodyFailed Other None (str "libcurl driver exited") in
  let d := fold_left (fun d id => finish_sink id terminal now d) (elements (dr_sinks d)) (set_sinks ∅ d) in
  close_queue 0 d.

(** ** Runs *)

(** Submissions with new numbers, commands of the clients, the callbacks and completions
    of libcurl, broken pools and reclamation, in any order. *)
Inductive driver_step (d : Driver) : Driver -> Prop :=
  | step_submit id o budget : id ∉ dr_started d -> driver_step d (submit id o budget d)
  | step_abandon id : driver_step d (abandon id d)
  | step_send c : (forall id o, c <> Submit id o) -> driver_step d (send_command c d)
  | step_close drained : driver_step d (close_queue drained d)
  | step_command c rest now answers d' :
      dr_queue d = c :: rest -> handle_command c now answers (set_queue rest (dr_closed d) d) = Some d' -> driver_step d d'
  | step_header key id line : driver_step d (receive_header key id line d)
  | step_body id data now : driver_step d (receive_body id data now d)
  | step_poll id : driver_step d (set_bodies (alter (fun s => (poll s).2) id (dr_bodies d)) d)
  | step_resume_check id now : driver_step d (set_bodies (alter (fun s => (needs_resume now s).2) id (dr_bodies d)) d)
  | step_complete key id r info now later retry_now answers d' :
      finish_transfer key id r info now later retry_now answers d = Some d' -> driver_step d d'
  | step_broken key message now : driver_step d (fail_pool key message now d)
  | step_drive key refused connection_id pool pool' :
      dr_pools d !! key = Some pool -> drive_pool refused connection_id pool = Some pool' ->
      driver_step d (set_pools (<[key := pool']> (dr_pools d)) d)
  | step_reclaim_pools now clock : driver_step d (reclaim_idle_pools now clock d)
  | step_reclaim_connections key refused now : driver_step d (reclaim_pool_connections key refused now d).

Inductive driver_run : Driver -> Prop :=
  | run_new : driver_run Driver_new
  | run_next d d' : driver_run d -> driver_step d d' -> driver_run d'.

End Driver.
