(* ===== verification/DriverInv.v ===== *)
(** * The invariant of the driver

    What every handler keeps: the transfers of the pools, their reservations and records,
    the channels of the callers.  A handler works on a transfer outside the pools; the
    lemmas here take a transfer out, change what it holds, put it back or end it. *)

From S2P Require Import Prelude RustStr Errors Cache Float64 Net IpPolicy IpPolicyProps Checksum BodySink Head Pools Driver.

(** ** The claims of the transfers in flight *)

Definition transfer_claims (key : PoolKey) (t : ActiveTransfer) : list Claim :=
  option_list ((fun c => mkClaim key (cc_address c) (cc_generation c)) <$> at_candidate t).

Definition pool_claims (key : PoolKey) (active : gmap Z ActiveTransfer) : list Claim :=
  map_to_list active ≫= fun it => transfer_claims key it.2.

Definition active_claims (pools : gmap PoolKey Pool) : list Claim :=
  map_to_list pools ≫= fun kp => pool_claims kp.1 (pl_active kp.2).

Lemma bind_perm {A B} (f : A -> list B) l l' : l ≡ₚ l' -> l ≫= f ≡ₚ l' ≫= f.
Proof. by intros ->. Qed.

Lemma active_claims_insert pools key pool :
  active_claims (<[key := pool]> pools) ≡ₚ pool_claims key (pl_active pool) ++ active_claims (delete key pools).
Proof.
  unfold active_claims. rewrite <- insert_delete_eq, map_to_list_insert by apply lookup_delete_eq. by rewrite bind_cons.
Qed.

Lemma active_claims_lookup pools key pool :
  pools !! key = Some pool -> active_claims pools ≡ₚ pool_claims key (pl_active pool) ++ active_claims (delete key pools).
Proof. intros H. rewrite <- active_claims_insert. by rewrite insert_id. Qed.

Lemma active_claims_default pools key config now :
  active_claims pools ≡ₚ pool_claims key (pl_active (default (Pool_new config now) (pools !! key))) ++ active_claims (delete key pools).
Proof.
  destruct (pools !! key) as [pool|] eqn:E; simpl; [by apply active_claims_lookup|].
  unfold pool_claims. by rewrite map_to_list_empty, delete_id.
Qed.

Lemma pool_claims_insert key active id t :
  active !! id = None -> pool_claims key (<[id := t]> active) ≡ₚ transfer_claims key t ++ pool_claims key active.
Proof. intros H. unfold pool_claims. rewrite map_to_list_insert by done. by rewrite bind_cons. Qed.

Lemma pool_claims_delete key active id t :
  active !! id = Some t -> pool_claims key active ≡ₚ transfer_claims key t ++ pool_claims key (delete id active).
Proof. intros H. rewrite <- pool_claims_insert by apply lookup_delete_eq. by rewrite insert_delete_id. Qed.

(** ** The policy's view *)

(** The policy counts these claims. *)
Definition Counts (d : Driver) (claims : list Claim) : Prop :=
  0 <= dr_policy_calls d /\
  (dr_policy_calls d <= 2 ^ 64 -> exists answers, World_ok (mkWorld (dr_policy d) claims answers (dr_policy_calls d))).

Lemma claims_on_perm claims claims' pool a : claims ≡ₚ claims' -> claims_on claims pool a = claims_on claims' pool a.
Proof.
  intros Hp. unfold claims_on. induction Hp as [|c l l' _ IH|c c' l|]; simpl; [done| | |congruence].
  - case_bool_decide; simpl; congruence.
  - by repeat case_bool_decide.
Qed.

Lemma Counts_perm d claims claims' : claims ≡ₚ claims' -> Counts d claims -> Counts d claims'.
Proof.
  intros Hp [Hn H]. split; [done|]. intros Hlt. destruct (H Hlt) as (answers & Hs & Hw). exists answers. split; [done|]. intros pool.
  apply (Pool_ok_ext _ _ (claims_on claims pool)); [|apply Hw]. intros a. symmetry. by apply claims_on_perm.
Qed.

(** It depends on the policy only. *)
Lemma Counts_policy d d' claims :
  dr_policy d' = dr_policy d -> dr_policy_calls d' = dr_policy_calls d -> Counts d claims -> Counts d' claims.
Proof. unfold Counts. by intros -> ->. Qed.

Lemma Counts_settle d key c claims outcome now :
  Counts d (mkClaim key (cc_address c) (cc_generation c) :: claims) -> Counts (settle_policy key c outcome now d) claims.
Proof.
  intros [Hn H]. split; [simpl; lia|]. intros Hlt. simpl in Hlt. destruct (H ltac:(lia)) as (answers & Hw). exists answers.
  by apply (settle_ok (dr_policy d) [] (mkClaim key (cc_address c) (cc_generation c)) claims).
Qed.

Lemma Counts_settle_opt d key t claims outcome now :
  Counts d (transfer_claims key t ++ claims) ->
  Counts (match at_candidate t with Some c => settle_policy key c outcome now d | None => d end) claims.
Proof. unfold transfer_claims. destruct (at_candidate t); simpl; [apply Counts_settle|done]. Qed.

(** ** The invariant *)

Definition running (pools : gmap PoolKey Pool) (key : PoolKey) (id : Z) (t : ActiveTransfer) : Prop :=
  exists pool, pools !! key = Some pool /\ pl_active pool !! id = Some t.

(** Transfers that have left a pool, or have not joined it, while a handler works on
    them. *)
Definition Flight : Type := PoolKey * (Z * ActiveTransfer).

Definition ids_of (out : list Flight) : list Z := (fun f => f.2.1) <$> out.

Definition claims_of (out : list Flight) : list Claim := out ≫= fun f => transfer_claims f.1 f.2.2.

Lemma claims_of_cons key id t out : claims_of ((key, (id, t)) :: out) = transfer_claims key t ++ claims_of out.
Proof. done. Qed.

#[global] Arguments claims_of : simpl never.

Definition submitted (queue : list Command) : list Z :=
  omap (fun c => match c with Submit id _ => Some id | _ => None end) queue.

(** The body has ended. *)
Definition terminated (d : Driver) (id : Z) : Prop := exists s t, dr_bodies d !! id = Some s /\ sk_terminal s = Some t.

(** The route of a pinned transfer: its handle connects to the address of its claim. *)
Definition routed (address : IpAddr) (options : list CurlOption) : Prop :=
  exists host port, OptConnectTo [ct_spec (ConnectToEntry_new host port address port)] ∈ options.

Record Retry_ok (c : CandidateClaim) (retry : RetryState) : Prop := {
  ro_spent : cc_attempts c = rs_attempts retry;
  ro_bound : 1 <= rs_attempts retry <= Z.max 1 (rs_max_attempts retry);
  ro_cap : rs_max_attempts retry <= MAX_INTERNAL_CONNECT_ATTEMPTS;
}.

(** A head that was published, or whose sender is gone, was answered. *)
Definition Head_ok (p : HeadParser) : Prop :=
  (hp_published p = true -> hp_sender p = false) /\ (hp_sender p = false <-> is_Some (hp_sent p)).

(** A transfer in a pool and its record. *)
Definition Transfer_ok (attempts : gmap Z AttemptRecord) (key : PoolKey) (id : Z) (t : ActiveTransfer) : Prop :=
  Head_ok (at_head t) /\
  match at_candidate t, at_retry t with
  | Some c, Some retry =>
      Retry_ok c retry /\ routed (cc_address c) (at_options t) /\ hp_pinned_ip (at_head t) = Some (cc_address c) /\
      exists r, attempts !! id = Some r /\ ar_pool r = key /\ ar_claim r = c /\ ar_outcome r = None
  | None, None => hp_pinned_ip (at_head t) = None /\ attempts !! id = None
  | _, _ => False
  end.

Record Driver_ok (out : list Flight) (d : Driver) : Prop := {
  ok_running k i t : running (dr_pools d) k i t ->
    i ∈ dr_started d /\ dr_heads d !! i = None /\ (i ∉ submitted (dr_queue d)) /\ (i ∉ ids_of out) /\ Transfer_ok (dr_attempts d) k i t;
  ok_unique k k' i t t' : running (dr_pools d) k i t -> running (dr_pools d) k' i t' -> k = k';
  ok_out : NoDup (ids_of out) /\
    forall i, i ∈ ids_of out -> i ∈ dr_started d /\ dr_heads d !! i = None /\ i ∉ submitted (dr_queue d);
  ok_queue : NoDup (submitted (dr_queue d)) /\
    forall i, i ∈ submitted (dr_queue d) -> i ∈ dr_started d /\ dr_heads d !! i = None /\ dr_attempts d !! i = None /\
      (i ∈ dr_sinks d \/ i ∈ dr_gone d);
  ok_bodies i : i ∈ dr_started d -> is_Some (dr_bodies d !! i);
  ok_ended i : i ∈ dr_started d ->
    i ∈ submitted (dr_queue d) \/ (exists k t, running (dr_pools d) k i t) \/ i ∈ ids_of out \/ is_Some (dr_heads d !! i);
  ok_heads i : is_Some (dr_heads d !! i) -> i ∈ dr_started d /\ (terminated d i \/ i ∈ dr_sinks d \/ i ∈ dr_gone d);
  ok_records i r : dr_attempts d !! i = Some r ->
    (exists k t, running (dr_pools d) k i t) \/ i ∈ ids_of out \/
    (is_Some (ar_outcome r) /\ ar_consumed r = None /\ exists v, dr_heads d !! i = Some (Some v));
  ok_pools k pool : dr_pools d !! k = Some pool -> (pl_idle_since pool = None <-> pl_active pool <> ∅);
  ok_counts : Counts d (claims_of out ++ active_claims (dr_pools d));
}.

Lemma running_insert pools key pool k i t :
  running (<[key := pool]> pools) k i t <-> (k = key /\ pl_active pool !! i = Some t) \/ (k <> key /\ running pools k i t).
Proof.
  unfold running. destruct (base.decide (k = key)) as [->|Hk].
  - setoid_rewrite lookup_insert_eq. naive_solver.
  - setoid_rewrite lookup_insert_ne; [|done]. naive_solver.
Qed.

(** A handler takes a transfer out of its pool. *)
Lemma take_out out d key pool id t pool' :
  Driver_ok out d -> dr_pools d !! key = Some pool -> pl_active pool !! id = Some t ->
  pl_active pool' = delete id (pl_active pool) -> (pl_idle_since pool' = None <-> pl_active pool' <> ∅) ->
  Driver_ok ((key, (id, t)) :: out) (set_pools (<[key := pool']> (dr_pools d)) d).
Proof.
  intros [Hr Hu [Hn Ho] Hq Hb He Hh Hc Hp Hk] Hpool Ht Ha Hi. assert (running (dr_pools d) key id t) as Hrun by (by exists pool).
  assert (forall k i t', running (<[key := pool']> (dr_pools d)) k i t' -> running (dr_pools d) k i t' /\ i <> id) as Hrest.
  { intros k i t'. rewrite running_insert, Ha, lookup_delete_Some. intros [(-> & Hi' & Hl)|[Hne H]]; [by split; [exists pool|]|].
    split; [done|]. intros ->. by destruct Hne; apply (Hu _ _ _ _ _ H Hrun). }
  assert (forall i, (exists k t', running (dr_pools d) k i t') -> i = id \/ exists k t', running (<[key := pool']> (dr_pools d)) k i t') as Hback.
  { intros i (k & t' & H). destruct (base.decide (i = id)) as [->|Hne]; [by left|]. right. exists k, t'. rewrite running_insert.
    destruct (base.decide (k = key)) as [->|]; [|by right]. left. split; [done|]. destruct H as (p & E & H). rewrite Hpool in E. injection E as <-.
    by rewrite Ha, lookup_delete_ne. }
  destruct (Hr _ _ _ Hrun) as (Hs & Hh' & Hq' & Ho' & _). split; simpl; try done.
  - intros k i t' [H Hne]%Hrest. destruct (Hr _ _ _ H) as (? & ? & ? & ? & ?). split_and!; try done. by rewrite not_elem_of_cons.
  - intros k k' i t1 t2 [H1 _]%Hrest [H2 _]%Hrest. by apply (Hu _ _ _ _ _ H1 H2).
  - split; [by constructor|]. intros i [->|Hin]%elem_of_cons; [done|by apply Ho].
  - intros i Hin. destruct (He i Hin) as [|[H|[|]]]; [by left| |right; right; left; by right|by do 3 right].
    destruct (Hback i H) as [->|]; [right; right; left; by left|by right; left].
  - intros i r Hi'. destruct (Hc i r Hi') as [H|[|]]; [|right; left; by right|by do 2 right].
    destruct (Hback i H) as [->|]; [right; left; by left|by left].
  - intros k p. rewrite lookup_insert_Some. intros [[<- <-]|[_ H]]; [done|by apply (Hp k)].
  - apply (Counts_policy d); [done..|]. eapply Counts_perm, Hk.
    rewrite active_claims_insert, Ha, (active_claims_lookup _ _ _ Hpool), (pool_claims_delete _ _ _ _ Ht), claims_of_cons.
    rewrite <- !app_assoc, !(Permutation_app_swap_app (claims_of out)). done.
Qed.

(** A transfer joins a pool; a pool that was not there yet is a new one. *)
Lemma put_back out d key pool id t pool' :
  Driver_ok ((key, (id, t)) :: out) d -> dr_pools d !! key = Some pool \/ (dr_pools d !! key = None /\ pl_active pool = ∅) ->
  pl_active pool' = <[id := t]> (pl_active pool) -> pl_idle_since pool' = None -> Transfer_ok (dr_attempts d) key id t ->
  Driver_ok out (set_pools (<[key := pool']> (dr_pools d)) d).
Proof.
  intros [Hr Hu [Hn Ho] Hq Hb He Hh Hc Hp Hk] Hpool Ha Hi Ht. apply NoDup_cons in Hn as [Hid Hn].
  assert (forall i t', pl_active pool !! i = Some t' -> running (dr_pools d) key i t') as Hold.
  { intros i t' H. destruct Hpool as [Hpool|[_ E]]; [by exists pool|]. by rewrite E, lookup_empty in H. }
  assert (pl_active pool !! id = None) as Hnew.
  { destruct (pl_active pool !! id) as [t'|] eqn:E; [|done]. destruct (Hr _ _ _ (Hold _ _ E)) as (_ & _ & _ & H & _). by destruct H; left. }
  assert (forall k i t', running (<[key := pool']> (dr_pools d)) k i t' ->
    (k = key /\ i = id /\ t' = t) \/ (i <> id /\ running (dr_pools d) k i t')) as Hrest.
  { intros k i t'. rewrite running_insert, Ha, lookup_insert_Some. intros [(-> & [[<- <-]|[Hne H]])|[Hne H]]; [by left|right; split; auto|right].
    split; [|done]. intros ->. destruct (Hr _ _ _ H) as (_ & _ & _ & H' & _). by destruct H'; left. }
  assert (running (<[key := pool']> (dr_pools d)) key id t) as Hrun by (apply running_insert; left; by rewrite Ha, lookup_insert_eq).
  assert (forall k i t', running (dr_pools d) k i t' -> i <> id -> running (<[key := pool']> (dr_pools d)) k i t') as Hkeep.
  { intros k i t' H Hne. rewrite running_insert. destruct (base.decide (k = key)) as [->|]; [left|by right]. split; [done|].
    rewrite Ha, lookup_insert_ne by done. destruct H as (p & E & H). destruct Hpool as [Hpool|[E' _]]; rewrite ?Hpool, ?E' in E; by simplify_eq. }
  assert (forall k i t', running (dr_pools d) k i t' -> exists k' t'', running (<[key := pool']> (dr_pools d)) k' i t'') as Hback.
  { intros k i t' H. destruct (base.decide (i = id)) as [->|Hne]; eauto. }
  split; simpl; try done.
  - intros k i t' [(-> & -> & ->)|[Hne H]]%Hrest; [by destruct (Ho id) as (? & ? & ?); [left|]; split_and!|].
    destruct (Hr _ _ _ H) as (? & ? & ? & H' & ?). split_and!; try done. intros Hin. by destruct H'; right.
  - intros k k' i t1 t2 [(-> & -> & ->)|[Hne H]]%Hrest [(-> & ? & ->)|[Hne' H']]%Hrest; try done. by apply (Hu _ _ _ _ _ H H').
  - split; [done|]. intros i Hin. apply Ho. by right.
  - intros i Hin. destruct (He i Hin) as [|[(k & t' & H)|[[->|H]%elem_of_cons|]]]; [by left|right; left; eauto|right; left; eauto|by do 2 right; left|by do 3 right].
  - intros i r Hi'. destruct (Hc i r Hi') as [(k & t' & H)|[[->|H]%elem_of_cons|]]; [left; eauto|left; eauto|by right; left|by do 2 right].
  - intros k p. rewrite lookup_insert_Some. intros [[<- <-]|[_ H]]; [|by apply (Hp k)]. rewrite Hi, Ha. split; [|done]. intros _. apply insert_non_empty.
  - apply (Counts_policy d); [done..|]. eapply Counts_perm, Hk. rewrite active_claims_insert, Ha, (pool_claims_insert _ _ _ _ Hnew), claims_of_cons.
    assert (active_claims (dr_pools d) ≡ₚ pool_claims key (pl_active pool) ++ active_claims (delete key (dr_pools d))) as ->.
    { destruct Hpool as [Hpool|[E1 E2]]; [by apply active_claims_lookup|]. unfold pool_claims. by rewrite E2, map_to_list_empty, delete_id. }
    rewrite <- !app_assoc, !(Permutation_app_swap_app (claims_of out)). done.
Qed.

(** What a handler may do to what other transfers hold. *)
Record Frame (id : Z) (d d' : Driver) : Prop := {
  fr_queue : dr_queue d' = dr_queue d;
  fr_started : dr_started d' = dr_started d;
  fr_gone : dr_gone d' = dr_gone d;
  fr_attempts i : i <> id -> dr_attempts d' !! i = dr_attempts d !! i;
  fr_heads i : i <> id -> dr_heads d' !! i = dr_heads d !! i;
  fr_sinks i : i <> id -> i ∈ dr_sinks d -> i ∈ dr_sinks d';
  fr_bodies i : is_Some (dr_bodies d !! i) -> is_Some (dr_bodies d' !! i);
  fr_ended i : terminated d i -> terminated d' i;
}.

Lemma Transfer_ok_frame attempts attempts' key id t :
  attempts' !! id = attempts !! id -> Transfer_ok attempts key id t -> Transfer_ok attempts' key id t.
Proof. unfold Transfer_ok. by intros ->. Qed.

(** The transfer a handler works on goes on: only what it holds changes. *)
Lemma swap_out out d d' key id t t' :
  Driver_ok ((key, (id, t)) :: out) d -> Frame id d d' -> dr_pools d' = dr_pools d -> dr_heads d' !! id = None ->
  Counts d' (transfer_claims key t' ++ claims_of out ++ active_claims (dr_pools d)) ->
  Driver_ok ((key, (id, t')) :: out) d'.
Proof.
  intros [Hr Hu [Hn Ho] [Hqn Hq] Hb He Hh Hc Hp Hk] [Fq Fs Fg Fa Fh Fk Fb Fe] Fp Hid Hcount.
  assert (forall k i t1, running (dr_pools d) k i t1 -> i <> id) as Hne.
  { intros k i t1 H ->. destruct (Hr _ _ _ H) as (_ & _ & _ & H' & _). by destruct H'; left. }
  split; rewrite ?Fp, ?Fq, ?Fs, ?Fg; try done; simpl.
  - intros k i t1 H. destruct (Hr _ _ _ H) as (H1 & H2 & H3 & H4 & H5). pose proof (Hne _ _ _ H) as Hn'. rewrite Fh by done. split_and!; try done.
    by apply (Transfer_ok_frame (dr_attempts d)); [apply Fa|].
  - split; [done|]. intros i Hin. destruct (Ho i Hin) as (H1 & H2 & H3). split_and!; try done.
    destruct (base.decide (i = id)) as [->|Hne']; [done|by rewrite Fh].
  - split; [done|]. intros i Hin. destruct (Hq i Hin) as (H1 & H2 & H3 & H4). assert (i <> id) as Hne'.
    { intros ->. destruct (Ho id) as (_ & _ & H); [by left|done]. }
    rewrite Fh, Fa by done. split_and!; try done. destruct H4 as [H4|H4]; [left; by apply Fk|by right].
  - intros i Hi. by apply Fb, Hb.
  - intros i Hi. destruct (He i Hi) as [|[|[|H]]]; [by left|by right; left|by do 2 right; left|]. destruct (base.decide (i = id)) as [->|Hne'].
    + right; right; left. by left.
    + do 3 right. by rewrite Fh.
  - intros i Hi. destruct (base.decide (i = id)) as [->|Hne']; [rewrite Hid in Hi; by apply is_Some_None in Hi|]. rewrite Fh in Hi by done.
    destruct (Hh i Hi) as [H1 H2]. split; [done|]. destruct H2 as [|[|]]; [left; by apply Fe|right; left; by apply Fk|by do 2 right].
  - intros i r Hi. destruct (base.decide (i = id)) as [->|Hne']; [right; left; by left|]. rewrite Fa in Hi by done. rewrite Fh by done. by apply Hc.
  - by rewrite claims_of_cons, <- app_assoc.
Qed.

(** Its last step: the head's channel is done with and the body has ended. *)
Lemma end_out out d d' key id t :
  Driver_ok ((key, (id, t)) :: out) d -> Frame id d d' -> dr_pools d' = dr_pools d -> is_Some (dr_heads d' !! id) -> terminated d' id ->
  (forall r, dr_attempts d' !! id = Some r ->
     is_Some (ar_outcome r) /\ ar_consumed r = None /\ exists v, dr_heads d' !! id = Some (Some v)) ->
  Counts d' (claims_of out ++ active_claims (dr_pools d)) -> Driver_ok out d'.
Proof.
  intros [Hr Hu [Hn Ho] [Hqn Hq] Hb He Hh Hc Hp Hk] [Fq Fs Fg Fa Fh Fk Fb Fe] Fp Hid Hterm Hrec Hcount. apply NoDup_cons in Hn as [Hin Hn].
  assert (forall k i t1, running (dr_pools d) k i t1 -> i <> id) as Hne.
  { intros k i t1 H ->. destruct (Hr _ _ _ H) as (_ & _ & _ & H' & _). by destruct H'; left. }
  assert (forall i, i ∈ ids_of out -> i <> id) as Hout by (by intros i Hi ->).
  split; rewrite ?Fp, ?Fq, ?Fs, ?Fg; try done; simpl.
  - intros k i t1 H. destruct (Hr _ _ _ H) as (H1 & H2 & H3 & H4 & H5). pose proof (Hne _ _ _ H) as Hn'. rewrite Fh by done. split_and!; try done.
    + intros Hi. by destruct H4; right.
    + by apply (Transfer_ok_frame (dr_attempts d)); [apply Fa|].
  - split; [done|]. intros i Hi. destruct (Ho i) as (H1 & H2 & H3); [by right|]. rewrite Fh by auto. by split_and!.
  - split; [done|]. intros i Hi. destruct (Hq i Hi) as (H1 & H2 & H3 & H4). assert (i <> id) as Hne'.
    { intros ->. destruct (Ho id) as (_ & _ & H); [by left|done]. }
    rewrite Fh, Fa by done. split_and!; try done. destruct H4 as [H4|H4]; [left; by apply Fk|by right].
  - intros i Hi. by apply Fb, Hb.
  - intros i Hi. destruct (base.decide (i = id)) as [->|Hne']; [by do 3 right|]. rewrite Fh by done.
    destruct (He i Hi) as [|[|[[|]%elem_of_cons|]]]; [by left|by right; left|done|by do 2 right; left|by do 3 right].
  - intros i Hi. destruct (base.decide (i = id)) as [->|Hne']; [split; [by apply Ho; left|by left]|]. rewrite Fh in Hi by done.
    destruct (Hh i Hi) as [H1 H2]. split; [done|]. destruct H2 as [|[|]]; [left; by apply Fe|right; left; by apply Fk|by do 2 right].
  - intros i r Hi. destruct (base.decide (i = id)) as [->|Hne']; [do 2 right; by apply Hrec|]. rewrite Fa in Hi by done. rewrite Fh by done.
    destruct (Hc i r Hi) as [|[[|]%elem_of_cons|]]; [by left|done|by right; left|by do 2 right].
Qed.

(** ** Frames of the elementary operations *)

Lemma frame_refl id d : Frame id d d.
Proof. by split. Qed.

Lemma frame_pools id d d' pools : Frame id d d' -> Frame id d (set_pools pools d').
Proof. by intros []; split. Qed.

Lemma frame_from_pools id d d' pools : Frame id d d' -> Frame id (set_pools pools d) d'.
Proof. by intros []; split. Qed.

Lemma frame_policy id d d' policy calls : Frame id d d' -> Frame id d (set_policy policy calls d').
Proof. by intros []; split. Qed.

Lemma frame_count id d d' f : Frame id d d' -> Frame id d (count f d').
Proof. by intros []; split. Qed.

Lemma frame_settle id d d' key c outcome now : Frame id d d' -> Frame id d (settle_policy key c outcome now d').
Proof. apply frame_policy. Qed.

Lemma frame_insert id d d' r : Frame id d d' -> Frame id d (set_attempts (<[id := r]> (dr_attempts d')) d').
Proof. intros [Fq Fs Fg Fa Fh Fk Fb Fe]. split; try done. intros i Hi. simpl. rewrite lookup_insert_ne by done. by apply Fa. Qed.

Lemma frame_delete id d d' : Frame id d d' -> Frame id d (set_attempts (delete id (dr_attempts d')) d').
Proof. intros [Fq Fs Fg Fa Fh Fk Fb Fe]. split; try done. intros i Hi. simpl. rewrite lookup_delete_ne by done. by apply Fa. Qed.

Lemma frame_close id d d' v : Frame id d d' -> Frame id d (close_head id v d').
Proof. intros [Fq Fs Fg Fa Fh Fk Fb Fe]. split; try done. intros i Hi. simpl. rewrite lookup_insert_ne by done. by apply Fh. Qed.

Lemma frame_forget id d d' : Frame id d d' -> Frame id d (forget_sink id d').
Proof. intros [Fq Fs Fg Fa Fh Fk Fb Fe]. split; try done. intros i Hi Hin. simpl. apply elem_of_difference. split; [by apply Fk|by rewrite elem_of_singleton]. Qed.

(** A body that has ended stays so. *)
Definition Ends (f : BodySink -> BodySink) : Prop := forall s t, sk_terminal s = Some t -> sk_terminal (f s) = Some t.

Lemma alter_ended f (j : Z) d : Ends f -> forall i, terminated d i -> terminated (set_bodies (alter f j (dr_bodies d)) d) i.
Proof.
  intros Hf i (s & t & E & Ht). destruct (base.decide (i = j)) as [->|Hi].
  - exists (f s), t. simpl. split; [by rewrite lookup_alter_eq, E|by apply Hf].
  - exists s, t. simpl. by rewrite lookup_alter_ne.
Qed.

Lemma alter_bodies f (j : Z) (bodies : gmap Z BodySink) i : is_Some (bodies !! i) -> is_Some (alter f j bodies !! i).
Proof. intros [s E]. destruct (base.decide (i = j)) as [->|Hi]; [rewrite lookup_alter_eq, E|rewrite lookup_alter_ne by done]; by eexists. Qed.

Lemma frame_alter id d d' f j : Ends f -> Frame id d d' -> Frame id d (set_bodies (alter f j (dr_bodies d')) d').
Proof.
  intros Hf [Fq Fs Fg Fa Fh Fk Fb Fe]. split; try done.
  - intros i Hi. by apply alter_bodies, Fb.
  - intros i Hi. by apply alter_ended, Fe.
Qed.

Lemma finish_ends t now : Ends (BodySink.finish t now).
Proof. intros s t' E. unfold BodySink.finish. by rewrite E. Qed.

Lemma discard_ends : Ends discard_buffer.
Proof. by intros s t' E. Qed.

Lemma finish_terminates id t now d : is_Some (dr_bodies d !! id) -> terminated (finish_sink id t now d) id.
Proof.
  intros [s E]. unfold terminated, finish_sink. simpl. rewrite lookup_alter_eq, E. simpl.
  destruct (sk_terminal s) as [t'|] eqn:Es; [exists (BodySink.finish t now s), t'; split; [done|]; by apply finish_ends|].
  eexists _, t. split; [done|]. unfold BodySink.finish. by rewrite Es.
Qed.

Lemma frame_finish id d d' t now : Frame id d d' -> Frame id d (finish_sink id t now d').
Proof. apply frame_alter, finish_ends. Qed.

Lemma frame_discard id d d' : Frame id d d' -> Frame id d (discard_sink id d').
Proof. apply frame_alter, discard_ends. Qed.

Create HintDb frame.
#[export] Hint Resolve frame_refl frame_pools frame_policy frame_count frame_settle frame_insert frame_delete frame_close
  frame_forget frame_finish frame_discard : frame.

Lemma frame_fold powf id now d d' : Frame id d d' -> Frame id d (fold_attempt powf id now d').
Proof.
  intros H. unfold fold_attempt. destruct (dr_attempts d' !! id) as [r|]; [|done].
  destruct (ar_outcome r) as [[]|], (ar_consumed r) as [[]|], (ar_sample r); try done; try by auto with frame.
  destruct (record_sample _ _ _ _ _ _). auto with frame.
Qed.

Lemma frame_release id now d d' : Frame id d d' -> Frame id d (release_candidate id now d').
Proof. intros H. unfold release_candidate. destruct (dr_attempts d' !! id); auto with frame. Qed.

Lemma frame_reserve powf o key now previous id d r d' : reserve_candidate powf o key now previous d = Some (r, d') -> Frame id d d'.
Proof.
  unfold reserve_candidate. destruct (ro_candidates o); [|intros [= <- <-]; auto with frame].
  destruct (select _ _ _ _) as [[[] p]|]; simpl; intros [= <- <-]; auto with frame.
Qed.

#[export] Hint Resolve frame_fold frame_release : frame.

(** ** Touching a pool *)

(** A pool changes and its transfers stay, or a new pool without transfers is made. *)
Lemma touch_pool out d key pool :
  Driver_ok out d ->
  (exists pool0, dr_pools d !! key = Some pool0 /\ pl_active pool = pl_active pool0 /\ pl_idle_since pool = pl_idle_since pool0) \/
  (dr_pools d !! key = None /\ pl_active pool = ∅ /\ is_Some (pl_idle_since pool)) ->
  Driver_ok out (set_pools (<[key := pool]> (dr_pools d)) d).
Proof.
  intros [Hr Hu Ho Hq Hb He Hh Hc Hp Hk] Hpool.
  assert (forall k i t, running (<[key := pool]> (dr_pools d)) k i t <-> running (dr_pools d) k i t) as Hrun.
  { intros k i t. rewrite running_insert. unfold running. destruct (base.decide (k = key)) as [->|]; [|naive_solver].
    destruct Hpool as [(p & -> & -> & _)|(-> & -> & _)]; [naive_solver|]. rewrite lookup_empty. naive_solver. }
  split; simpl; try done.
  - intros k i t H%Hrun. by apply Hr.
  - intros k k' i t t' H1%Hrun H2%Hrun. by apply (Hu _ _ _ _ _ H1 H2).
  - intros i Hi. destruct (He i Hi) as [|[(k & t & H%Hrun)|]]; [by left|right; left; eauto|by do 2 right].
  - intros i r Hi. destruct (Hc i r Hi) as [(k & t & H%Hrun)|]; [left; eauto|by right].
  - intros k p. rewrite lookup_insert_Some. intros [[<- <-]|[_ H]]; [|by apply (Hp k)].
    destruct Hpool as [(p & E & -> & ->)|(_ & -> & Hs)]; [by apply (Hp key)|]. split; [|done]. intros E. rewrite E in Hs. by apply is_Some_None in Hs.
  - apply (Counts_policy d); [done..|]. eapply Counts_perm, Hk. apply Permutation_app_head. rewrite active_claims_insert.
    destruct Hpool as [(p & E & -> & _)|(E & -> & _)]; [by apply active_claims_lookup|]. unfold pool_claims. by rewrite map_to_list_empty, delete_id.
Qed.

(** ** The calls into the policy *)

Section Calls.
  Context (powf : f64 -> f64 -> f64).

Lemma Counts_reserve o key now previous d r d' claims :
  Counts d claims -> reserve_candidate powf o key now previous d = Some (r, d') ->
  Counts d' (match r with Ok (Some pin) => mkClaim key (cc_address (pi_claim pin)) (cc_generation (pi_claim pin)) :: claims | _ => claims end).
Proof.
  unfold reserve_candidate. intros [Hn H]. destruct (ro_candidates o) as [set|]; [|by intros [= <- <-]].
  destruct (select powf key now (observe key set now (dr_policy d))) as [[sel policy]|] eqn:E; simpl; [|done].
  intros E'. assert (dr_policy d' = policy /\ dr_policy_calls d' = dr_policy_calls d + 2) as [Ep Ec] by (destruct sel; by injection E' as _ <-).
  split; [lia|]. intros Hlt. rewrite Ep, Ec. destruct (H ltac:(lia)) as (answers & Hw). exists (<[key := set]> answers).
  apply observe_world_ok with (pool := key) (set := set) (now := now) in Hw.
  apply (select_world_ok powf _ _ _ _ _ _ _ _ Hw ltac:(lia)) in E. replace (dr_policy_calls d + 2) with (dr_policy_calls d + 1 + 1) by lia.
  destruct sel; by injection E' as <- _.
Qed.

Lemma reserve_returns o key now previous d claims :
  Counts d claims -> dr_policy_calls d + 2 <= 2 ^ 64 -> is_Some (reserve_candidate powf o key now previous d).
Proof.
  unfold reserve_candidate. intros [Hn H] Hlt. destruct (ro_candidates o) as [set|]; [|by eexists].
  destruct (H ltac:(lia)) as (answers & Hw). apply observe_world_ok with (pool := key) (set := set) (now := now) in Hw.
  destruct (select_returns powf _ _ _ _ key now Hw ltac:(lia)) as [[r p] ->]. simpl. by destruct r; eexists.
Qed.

Lemma Counts_fold id now d claims : Counts d claims -> Counts (fold_attempt powf id now d) claims.
Proof.
  unfold fold_attempt. intros H. destruct (dr_attempts d !! id) as [r|]; [|done].
  destruct (ar_outcome r) as [outcome|], (ar_consumed r) as [consumed|]; try done.
  destruct outcome, consumed; try by apply (Counts_policy d). destruct (ar_sample r) as [sample|]; [|by apply (Counts_policy d)].
  destruct (record_sample _ _ _ _ _ _) as [used policy] eqn:E. destruct H as [Hn H]. split; [simpl; lia|]. intros Hlt. simpl in *.
  destruct (H ltac:(lia)) as (answers & Hw). exists answers.
  apply (sample_ok powf _ _ _ _ (ar_pool r) (cc_address (ar_claim r)) sample now) in Hw. by rewrite E in Hw.
Qed.

End Calls.
