(* ===== verification/DriverSteps.v ===== *)
(** * The driver's handlers keep the invariant

    Starting, re-attempting, completing, cancelling and failing transfers. *)

From S2P Require Import Prelude RustStr Errors Cache Float64 Net IpPolicy IpPolicyProps Checksum BodySink Head Pools Driver DriverInv.

Section Handlers.
  Context (powf : f64 -> f64 -> f64).
  Context (parse_url : rstr -> option (rstr * option rstr * option Z)).
  Context (show_key : PoolKey -> rstr).
  Context (config : DriverConfig).

(** ** Starting *)

(** A transfer that is being started, with the claim it holds. *)
Definition starting (c : option CandidateClaim) : ActiveTransfer :=
  mkTransfer (HeadParser_new false) [] None None 0 c None.

Definition Pinned_ok (pin : Pinned) : Prop :=
  exists host port, pi_entry pin = ConnectToEntry_new host port (cc_address (pi_claim pin)) port.

(** The record of a transfer that is being attached. *)
Definition Record_ok (key : PoolKey) (pinned : option Pinned) (record : option AttemptRecord) : Prop :=
  match pinned with
  | Some pin => exists r, record = Some r /\ ar_pool r = key /\ ar_claim r = pi_claim pin /\ ar_outcome r = None
  | None => record = None
  end.

Lemma refuse_ok key id pinned head message now d out :
  Driver_ok ((key, (id, starting (pi_claim <$> pinned))) :: out) d -> Record_ok key pinned (dr_attempts d !! id) ->
  Driver_ok out (refuse_transfer id head message now d).
Proof.
  intros Hok Hrec. assert (is_Some (dr_bodies d !! id)) as Hb by (apply (ok_bodies _ _ Hok), (ok_out _ _ Hok); by left).
  unfold refuse_transfer. eapply end_out; [exact Hok|auto with frame| | | | |].
  - unfold release_candidate. by destruct (dr_attempts d !! id).
  - simpl. rewrite lookup_insert_eq. by eexists.
  - destruct (finish_terminates id (BodyFailed Other None message) now (release_candidate id now d)) as (s & t & H).
    { unfold release_candidate. by destruct (dr_attempts d !! id). }
    by exists s, t.
  - intros r. unfold release_candidate. destruct (dr_attempts d !! id) as [r0|] eqn:E; simpl; [by rewrite lookup_delete_eq|by rewrite E].
  - apply (Counts_policy (release_candidate id now d)); [done..|]. pose proof (ok_counts _ _ Hok) as Hc. rewrite claims_of_cons in Hc.
    unfold release_candidate. destruct pinned as [pin|]; simpl in Hrec; [|by rewrite Hrec].
    destruct Hrec as (r & -> & <- & Ec & _). rewrite Ec. by apply Counts_settle.
Qed.

(** The pool a transfer joins. *)
Definition joined (d : Driver) (key : PoolKey) (pool : Pool) : Prop :=
  dr_pools d !! key = Some pool \/ (dr_pools d !! key = None /\ pl_active pool = ∅ /\ is_Some (pl_idle_since pool)).

Lemma joined_default d key now : joined d key (default (Pool_new config now) (dr_pools d !! key)).
Proof. unfold joined. destruct (dr_pools d !! key) as [pool|]; [by left|right; simpl; eauto]. Qed.

Lemma claim_active pool : pl_active (claim_idle_connection pool).2 = pl_active pool.
Proof. unfold claim_idle_connection. by destruct (pl_idle pool). Qed.

Lemma commit_fields entry applied now pool :
  pl_active (commit_resolve entry applied now pool) = pl_active pool /\
  pl_idle_since (commit_resolve entry applied now pool) = pl_idle_since pool.
Proof. unfold commit_resolve. destruct entry, applied; done. Qed.

Lemma attach_ok key id easy pinned retry o plan answers pool d out :
  Driver_ok ((key, (id, starting (pi_claim <$> pinned))) :: out) d -> Record_ok key pinned (dr_attempts d !! id) ->
  joined d key pool -> Head_ok easy.1 ->
  match pinned, retry with
  | Some pin, Some retry => Retry_ok (pi_claim pin) retry /\ routed (cc_address (pi_claim pin)) easy.2
  | None, None => True
  | _, _ => False
  end ->
  Driver_ok out (attach_transfer key id easy pinned retry o plan answers pool d).
Proof.
  intros Hok Hrec Hpool Hhead Hretry. assert (forall head message now,
    Driver_ok out (refuse_transfer id head message now (set_pools (<[key := pool]> (dr_pools d)) d))) as Hrefuse.
  { intros head message now. apply (refuse_ok key id pinned); [|done]. apply touch_pool; [done|].
    destruct Hpool as [Hpool|Hpool]; [left; by exists pool|by right]. }
  unfold attach_transfer. destruct (sa_add_error answers); [apply Hrefuse|]. destruct (sa_token_error answers); [apply Hrefuse|].
  match goal with |- context [if ?b then (None, pool) else claim_idle_connection pool] => generalize b end. intros fresh.
  destruct (if fresh then (None, pool) else claim_idle_connection pool) as [claim pool1] eqn:E.
  assert (pl_active pool1 = pl_active pool) as Ea.
  { destruct fresh; [by injection E as _ <-|]. by rewrite <- (claim_active pool), E. }
  set (t := mkTransfer _ _ _ claim _ _ retry).
  apply (put_back out d key pool id t).
  - eapply swap_out; [exact Hok|apply frame_refl|done| |].
    + apply (ok_out _ _ Hok). by left.
    + pose proof (ok_counts _ _ Hok) as Hc. by rewrite claims_of_cons, <- app_assoc in Hc.
  - destruct Hpool as [|(? & ? & _)]; [by left|by right].
  - rewrite (proj1 (commit_fields _ _ _ _)). simpl. by rewrite Ea.
  - by rewrite (proj2 (commit_fields _ _ _ _)).
  - unfold Transfer_ok. simpl. split; [done|]. destruct pinned as [pin|], retry as [retry|]; try done. simpl.
    destruct Hretry as [H1 H2]. destruct Hrec as (r & -> & H3 & H4 & H5). split_and!; try done. by exists r.
Qed.

Lemma build_head_ok o expect plan connect_to option_error :
  Head_ok (build_easy config o (HeadParser_new expect) plan connect_to option_error).1.
Proof. unfold Head_ok. destruct option_error; simpl; (split; [done|]); by split; [eauto|intros []]. Qed.

Lemma routed_configure o plan pin max_age :
  Pinned_ok pin -> routed (cc_address (pi_claim pin)) (configure_easy o plan (Some (pi_entry pin)) max_age).
Proof.
  intros (host & port & ->). exists host, port. unfold configure_easy. simpl. do 8 right.
  rewrite !elem_of_app. do 3 right. by left.
Qed.

Lemma reserve_pinned_ok o key now previous d pin d' :
  reserve_candidate powf o key now previous d = Some (Ok (Some pin), d') ->
  Pinned_ok pin /\ cc_attempts (pi_claim pin) = (match previous with Some state => rs_attempts state + 1 | None => 1 end) /\
  is_Some (ro_candidates o).
Proof.
  unfold reserve_candidate. destruct (ro_candidates o) as [set|]; [|done].
  destruct (select _ _ _ _) as [[[] p]|]; simpl; [|done..]. intros [= <- _]. split; [by eexists _, _|]. split; [done|by eexists].
Qed.

Lemma reserve_fields o key now previous d r d' :
  reserve_candidate powf o key now previous d = Some (r, d') ->
  dr_pools d' = dr_pools d /\ dr_attempts d' = dr_attempts d /\ dr_heads d' = dr_heads d /\ dr_bodies d' = dr_bodies d.
Proof.
  unfold reserve_candidate. destruct (ro_candidates o); [|intros [= <- <-]; done].
  destruct (select _ _ _ _) as [[[] p]|]; simpl; intros [= <- <-]; done.
Qed.

(** A reservation for a transfer that holds none. *)
Lemma reserve_ok o key now previous d r d' id out :
  Driver_ok ((key, (id, starting None)) :: out) d -> reserve_candidate powf o key now previous d = Some (r, d') ->
  Driver_ok ((key, (id, starting (match r with Ok (Some pin) => Some (pi_claim pin) | _ => None end))) :: out) d'.
Proof.
  intros Hok E. destruct (reserve_fields _ _ _ _ _ _ _ E) as (Ep & _ & Eh & _).
  eapply swap_out; [exact Hok|by eapply frame_reserve|done| |].
  - rewrite Eh. apply (ok_out _ _ Hok). by left.
  - pose proof (Counts_reserve powf _ _ _ _ _ _ _ _ (ok_counts _ _ Hok) E) as H. rewrite claims_of_cons in H. simpl in H.
    by destruct r as [[pin|]|].
Qed.

(** It is recorded. *)
Lemma attempt_recorded_ok key id t t' d r out :
  Driver_ok ((key, (id, t)) :: out) d -> transfer_claims key t = transfer_claims key t' ->
  Driver_ok ((key, (id, t')) :: out) (set_attempts (<[id := r]> (dr_attempts d)) (count count_ip_selection d)).
Proof.
  intros Hok Et. eapply swap_out; [exact Hok|apply (frame_insert id d (count count_ip_selection d)); auto with frame|done| |].
  - apply (ok_out _ _ Hok). by left.
  - apply (Counts_policy d); [done..|]. pose proof (ok_counts _ _ Hok) as H. by rewrite claims_of_cons, Et, <- app_assoc in H.
Qed.

Lemma start_ok id o now answers d d' out :
  Driver_ok ((pool_key parse_url o, (id, starting None)) :: out) d -> dr_attempts d !! id = None ->
  start_transfer powf parse_url show_key config id o now answers d = Some d' -> Driver_ok out d'.
Proof.
  intros Hok Hnone. unfold start_transfer. set (key := pool_key parse_url o) in *.
  destruct (reserve_candidate powf o key now None d) as [[reserved d1]|] eqn:E; [|done]. cbn [mbind option_bind].
  pose proof (reserve_ok _ _ _ _ _ _ _ _ _ Hok E) as H1. destruct (reserve_fields _ _ _ _ _ _ _ E) as (_ & Ea & _ & _).
  destruct reserved as [pinned|e].
  - intros [= <-]. destruct pinned as [pin|].
    + destruct (reserve_pinned_ok _ _ _ _ _ _ _ E) as (Hpin & Hspent & set & Hset).
      apply attach_ok; [by eapply attempt_recorded_ok| |apply joined_default|apply build_head_ok|]; simpl.
      * rewrite lookup_insert_eq. by eexists.
      * rewrite Hset. split; [|by apply routed_configure]. split; simpl; [done| |apply Z.le_min_r]. rewrite Hspent. lia.
    + apply attach_ok; [done|by simpl; rewrite Ea|apply joined_default|apply build_head_ok|done].
  - intros [= <-]. assert (is_Some (dr_bodies d1 !! id)) as Hb by (apply (ok_bodies _ _ H1), (ok_out _ _ H1); by left).
    eapply end_out; [exact H1|auto with frame|done| | | |].
    + simpl. rewrite lookup_insert_eq. by eexists.
    + by apply finish_terminates.
    + simpl. by rewrite Ea, Hnone.
    + apply (Counts_policy d1); [done..|]. apply (ok_counts _ _ H1).
Qed.

(** ** Re-attempting *)

Lemma fail_retry_ok id key error now d out :
  Driver_ok ((key, (id, starting None)) :: out) d -> Driver_ok out (fail_retry id error now d).
Proof.
  intros Hok. assert (is_Some (dr_bodies d !! id)) as Hb by (apply (ok_bodies _ _ Hok), (ok_out _ _ Hok); by left).
  unfold fail_retry. eapply end_out; [exact Hok|auto 8 with frame|done| | | |].
  - simpl. rewrite lookup_insert_eq. by eexists.
  - apply finish_terminates. simpl. by apply alter_bodies.
  - simpl. by rewrite lookup_delete_eq.
  - apply (Counts_policy d); [done..|]. apply (ok_counts _ _ Hok).
Qed.

Lemma start_retry_ok request now answers d d' out :
  Driver_ok ((rq_pool request, (rq_id request, starting None)) :: out) d ->
  from_option ar_pool (rq_pool request) (dr_attempts d !! rq_id request) = rq_pool request ->
  1 <= rs_attempts (rq_state request) < rs_max_attempts (rq_state request) ->
  rs_max_attempts (rq_state request) <= MAX_INTERNAL_CONNECT_ATTEMPTS ->
  start_retry powf config request now answers d = Some d' -> Driver_ok out d'.
Proof.
  destruct request as [id key state error]. cbn [rq_id rq_pool rq_state rq_error]. intros Hok Hpool Hspent Hcap. unfold start_retry.
  cbn [rq_id rq_pool rq_state rq_error]. cbn zeta.
  destruct (duration_since (rs_deadline state) now =? 0); [intros [= <-]; by eapply fail_retry_ok|].
  set (o := set_timeouts _ _ _). destruct (reserve_candidate powf o key now (Some state) d) as [[reserved d1]|] eqn:E; [|done]. cbn [mbind option_bind].
  pose proof (reserve_ok _ _ _ _ _ _ _ _ _ Hok E) as H1. destruct (reserve_fields _ _ _ _ _ _ _ E) as (_ & Ea & _ & _).
  destruct reserved as [[pin|]|e]; intros [= <-]; try by eapply fail_retry_ok.
  destruct (reserve_pinned_ok _ _ _ _ _ _ _ E) as (Hpin & Hs & _).
  apply attach_ok; [by eapply attempt_recorded_ok| |unfold joined; exact (joined_default d1 key now)|apply build_head_ok|]; simpl.
  - rewrite lookup_insert_eq. eexists. split; [done|]. simpl. by rewrite Ea.
  - split; [|by apply routed_configure]. split; simpl; [done| |done]. lia.
Qed.

(** ** Ending *)

Lemma leave_fields pool id now :
  (pl_idle_since pool = None <-> pl_active pool <> ∅) -> is_Some (pl_active pool !! id) ->
  let pool' := set_idle_if_empty now (set_active (delete id (pl_active pool)) pool) in
  pl_active pool' = delete id (pl_active pool) /\ (pl_idle_since pool' = None <-> pl_active pool' <> ∅).
Proof.
  intros Hi [t Ht]. cbn zeta. unfold set_idle_if_empty. simpl. case_bool_decide as He; simpl; [by rewrite He|]. split; [done|]. split; [done|].
  intros _. apply Hi. intros E. by rewrite E, lookup_empty in Ht.
Qed.

Lemma settle_pinned_fields generation connection exit now pool :
  pl_active (settle_pinned_connection generation connection exit now pool) = pl_active pool /\
  pl_idle_since (settle_pinned_connection generation connection exit now pool) = pl_idle_since pool.
Proof. unfold settle_pinned_connection. destruct (negb _), connection, (bool_decide (exit = ExitCompleted)); done. Qed.

Lemma settle_connection_fields generation claim created exit now pool :
  pl_active (settle_connection generation claim created exit now pool) = pl_active pool /\
  pl_idle_since (settle_connection generation claim created exit now pool) = pl_idle_since pool.
Proof.
  unfold settle_connection, release_claim. destruct (negb _); [done|].
  destruct (_ || _), claim as [claim|], (bool_decide (exit = ExitCompleted)); simpl; try done; by destruct (ic_generation claim =? _).
Qed.

Lemma settle_transfer_fields t info exit now pool :
  pl_active (settle_transfer t info exit now pool) = pl_active pool /\
  pl_idle_since (settle_transfer t info exit now pool) = pl_idle_since pool.
Proof. unfold settle_transfer. destruct (at_candidate t); [apply settle_pinned_fields|apply settle_connection_fields]. Qed.

Lemma fold_fields id now d :
  dr_pools (fold_attempt powf id now d) = dr_pools d /\ dr_heads (fold_attempt powf id now d) = dr_heads d /\
  dr_bodies (fold_attempt powf id now d) = dr_bodies d.
Proof.
  unfold fold_attempt. destruct (dr_attempts d !! id) as [r|]; [|done].
  destruct (ar_outcome r) as [[]|], (ar_consumed r) as [[]|], (ar_sample r); try done. by destruct (record_sample _ _ _ _ _ _).
Qed.

(** A record that is left has not heard of the consumer. *)
Lemma fold_record id now d r :
  dr_attempts (fold_attempt powf id now d) !! id = Some r ->
  dr_attempts d !! id = Some r /\ (ar_outcome r = None \/ ar_consumed r = None).
Proof.
  unfold fold_attempt. destruct (dr_attempts d !! id) as [r0|] eqn:E; [|by rewrite E].
  destruct (ar_outcome r0) as [outcome|] eqn:Eo; [|rewrite E; intros [= <-]; by rewrite Eo; eauto].
  destruct (ar_consumed r0) as [consumed|] eqn:Ec; [|rewrite E; intros [= <-]; by rewrite Ec; eauto].
  destruct outcome, consumed, (ar_sample r0); simpl; rewrite ?lookup_delete_eq; try done.
  destruct (record_sample _ _ _ _ _ _). simpl. by rewrite lookup_delete_eq.
Qed.

Lemma settle_attempt_fields key id c outcome info now d :
  let d' := settle_attempt powf key id c outcome info now d in
  dr_pools d' = dr_pools d /\ dr_heads d' = dr_heads d /\ dr_bodies d' = dr_bodies d.
Proof. cbn zeta. unfold settle_attempt. simpl. destruct (dr_attempts d !! id); [|done]. by rewrite !(proj1 (fold_fields _ _ _)), (proj1 (proj2 (fold_fields _ _ _))), (proj2 (proj2 (fold_fields _ _ _))). Qed.

Lemma settle_attempt_record key id c outcome info now d r :
  dr_attempts (settle_attempt powf key id c outcome info now d) !! id = Some r ->
  exists r0, dr_attempts d !! id = Some r0 /\ ar_pool r = ar_pool r0 /\ ar_outcome r = Some outcome /\ ar_consumed r = None.
Proof.
  unfold settle_attempt. simpl. destruct (dr_attempts d !! id) as [r0|] eqn:E; simpl; [|by rewrite E].
  intros [H1 H2]%fold_record. simpl in H1. rewrite lookup_insert_eq in H1. injection H1 as <-. exists r0. simpl in *. by destruct H2.
Qed.

Lemma settle_attempt_frame key id c outcome info now d d' :
  Frame id d d' -> Frame id d (settle_attempt powf key id c outcome info now d').
Proof.
  intros H. unfold settle_attempt. simpl. destruct (dr_attempts d' !! id); [|auto with frame].
  apply frame_fold, (frame_insert id d (settle_policy key c outcome now d')). auto with frame.
Qed.

Lemma settle_attempt_counts key id c outcome info now d claims :
  Counts d (mkClaim key (cc_address c) (cc_generation c) :: claims) -> Counts (settle_attempt powf key id c outcome info now d) claims.
Proof.
  intros H%(Counts_settle _ _ _ _ outcome now). unfold settle_attempt. simpl. destruct (dr_attempts d !! id); [|done].
  apply Counts_fold. by apply (Counts_policy (settle_policy key c outcome now d)).
Qed.

(** What [complete_transfer] does to the policy and the records, pinned or not. *)
Definition settled_state (key : PoolKey) (id : Z) (t : ActiveTransfer) (outcome : AttemptOutcome) (info : TransferInfo) (now : Z) (d : Driver) : Driver :=
  match at_candidate t with
  | Some claim => settle_attempt powf key id claim outcome info now d
  | None => d
  end.

Lemma settled_state_ok key id t outcome info now d claims :
  Counts d (transfer_claims key t ++ claims) -> Transfer_ok (dr_attempts d) key id t ->
  let d' := settled_state key id t outcome info now d in
  Frame id d d' /\ Counts d' claims /\ (dr_pools d' = dr_pools d /\ dr_heads d' = dr_heads d /\ dr_bodies d' = dr_bodies d) /\
  (forall r, dr_attempts d' !! id = Some r -> ar_pool r = key /\ is_Some (ar_outcome r) /\ ar_consumed r = None).
Proof.
  intros Hc [_ Ht]. cbn zeta. unfold settled_state, transfer_claims in *. destruct (at_candidate t) as [c|]; simpl in Hc.
  - split_and!; [apply settle_attempt_frame, frame_refl|by apply settle_attempt_counts|apply settle_attempt_fields|apply settle_attempt_fields|apply settle_attempt_fields|].
    intros r (r0 & E & E1 & E2 & E3)%settle_attempt_record. destruct (at_retry t) as [st|]; [|done]. destruct Ht as (_ & _ & _ & r1 & E' & E4 & _).
    rewrite E in E'. injection E' as ->. rewrite E1, E2. split_and!; [done|by eexists|done].
  - split_and!; try done. intros r Hr. destruct (at_retry t); [done|]. destruct Ht as [_ E]. by rewrite E in Hr.
Qed.

Lemma wants_retry_spec t terminal outcome now retry error :
  wants_retry t terminal outcome now = Some (retry, error) ->
  at_retry t = Some retry /\ outcome = ConnectFailed /\ rs_attempts retry < rs_max_attempts retry /\ now < rs_deadline retry /\
  hp_sender (at_head t) = true.
Proof.
  unfold wants_retry. destruct terminal as [| |kind code message]; try done. destruct (at_retry t) as [st|]; [|done].
  case_bool_decide; simpl; [|done]. destruct (Z.ltb_spec (rs_attempts st) (rs_max_attempts st)); simpl; [|done].
  destruct (Z.ltb_spec now (rs_deadline st)); simpl; [|done]. destruct (hp_sender (at_head t)) eqn:E; [|done]. by intros [= <- <-].
Qed.

Lemma fail_head_sent terminal p : Head_ok p -> hp_published p = true -> is_Some (hp_sent (fail_head terminal p)).
Proof. intros [H1 H2] Hp. unfold fail_head, head_fail, send. destruct terminal; simpl; rewrite ?(H1 Hp); by apply H2, H1. Qed.

Lemma complete_transfer_ok key id r info now later d d' request :
  Driver_ok [] d -> complete_transfer powf key id r info now later d = (d', request) ->
  match request with
  | None => Driver_ok [] d'
  | Some q => Driver_ok [(rq_pool q, (rq_id q, starting None))] d' /\
      from_option ar_pool (rq_pool q) (dr_attempts d' !! rq_id q) = rq_pool q /\
      1 <= rs_attempts (rq_state q) < rs_max_attempts (rq_state q) /\ rs_max_attempts (rq_state q) <= MAX_INTERNAL_CONNECT_ATTEMPTS
  end.
Proof.
  intros Hok. unfold complete_transfer. destruct (dr_pools d !! key) as [pool|] eqn:Ek; [|by intros [= <- <-]].
  destruct (pl_active pool !! id) as [t|] eqn:Et; [|by intros [= <- <-]]. cbn zeta.
  set (terminal := terminal_of _ _ _). set (outcome := outcome_of _ _ _). fold (settled_state key id t outcome info now d).
  assert (running (dr_pools d) key id t) as Hrun by (by exists pool).
  destruct (ok_running _ _ Hok _ _ _ Hrun) as (Hs & Hh & _ & _ & Ht).
  destruct (leave_fields pool id now (ok_pools _ _ Hok _ _ Ek) ltac:(by eexists)) as [La Li].
  destruct (wants_retry t terminal outcome now) as [[retry error]|] eqn:Ew.
  - intros [= <- <-]. cbn [rq_pool rq_id rq_state].
    set (pool1 := set_idle_if_empty _ _). assert (pool1 = settle_pinned_connection (at_generation t) (ti_connection_id info) ExitFailed now
      (set_idle_if_empty now (set_active (delete id (pl_active pool)) pool))) as Ep.
    { unfold pool1, set_idle_if_empty. rewrite (proj1 (settle_pinned_fields _ _ _ _ _)). case_bool_decide; [|done].
      unfold settle_pinned_connection. by destruct (negb _), (ti_connection_id info). }
    assert (Driver_ok [(key, (id, t))] (set_pools (<[key := pool1]> (dr_pools d)) d)) as H0.
    { apply take_out with (pool := pool); try done; rewrite Ep, !(proj1 (settle_pinned_fields _ _ _ _ _)), ?(proj2 (settle_pinned_fields _ _ _ _ _)); done. }
    pose proof (ok_counts _ _ H0) as Hc. rewrite claims_of_cons, <- app_assoc in Hc.
    destruct (settled_state_ok key id t outcome info now d _ (Counts_policy _ d _ eq_refl eq_refl Hc) Ht) as (F & Hc' & (E1 & E2 & E3) & Hr).
    apply wants_retry_spec in Ew as (E4 & _ & Hlt & _ & Hsender). split_and!.
    + eapply swap_out; [exact H0|apply frame_from_pools; auto with frame|simpl; by rewrite E1|simpl; by rewrite E2|].
      by apply (Counts_policy (settled_state key id t outcome info now d)).
    + simpl. destruct (dr_attempts _ !! id) as [r0|] eqn:Er; [|done]. simpl. by apply Hr.
    + destruct Ht as [_ Ht]. destruct (at_candidate t), (at_retry t); try done. injection E4 as ->. destruct Ht as ([H1 H2 H3] & _). lia.
    + done.
    + destruct Ht as [_ Ht]. destruct (at_candidate t), (at_retry t); try done. injection E4 as ->. by destruct Ht as ([H1 H2 H3] & _).
  - intros [= <- <-]. set (pool1 := settle_transfer _ _ _ _ _).
    assert (Driver_ok [(key, (id, t))] (set_pools (<[key := pool1]> (dr_pools d)) d)) as H0.
    { apply take_out with (pool := pool); try done; unfold pool1; rewrite !(proj1 (settle_transfer_fields _ _ _ _ _)), ?(proj2 (settle_transfer_fields _ _ _ _ _)); done. }
    pose proof (ok_counts _ _ H0) as Hc. rewrite claims_of_cons, <- app_assoc in Hc.
    destruct (settled_state_ok key id t outcome info now d _ (Counts_policy _ d _ eq_refl eq_refl Hc) Ht) as (F & Hc' & (E1 & E2 & E3) & Hr).
    assert (is_Some (dr_bodies d !! id)) as Hb by (apply (ok_bodies _ _ Hok), Hs).
    set (d1 := settled_state _ _ _ _ _ _ _) in *.
    set (d2 := if hp_published (at_head t) then d1 else set_attempts (delete id (dr_attempts d1)) d1).
    assert (Frame id d d2 /\ dr_pools d2 = dr_pools d /\ dr_bodies d2 = dr_bodies d /\ dr_policy d2 = dr_policy d1 /\ dr_policy_calls d2 = dr_policy_calls d1) as (F2 & P2 & B2 & Q2 & C2).
    { unfold d2. destruct (hp_published (at_head t)); simpl; rewrite ?E1, ?E3; split_and!; auto with frame. }
    eapply end_out; [exact H0|apply frame_from_pools; auto 9 with frame|by simpl; rewrite P2| | | |].
    + simpl. rewrite lookup_insert_eq. by eexists.
    + apply finish_terminates. simpl. by rewrite B2.
    + intros r0. simpl. unfold d2. destruct (hp_published (at_head t)) eqn:Eh; simpl; [|by rewrite lookup_delete_eq].
      intros (_ & H1 & H2)%Hr. split_and!; [done|done|]. rewrite lookup_insert_eq.
      destruct (fail_head_sent terminal (at_head t)) as [v ->]; [apply Ht|done|]. by exists v.
    + by apply (Counts_policy d1).
Qed.

Lemma pool_of_spec id pools key pool :
  pool_of id pools = Some (key, pool) -> pools !! key = Some pool /\ is_Some (pl_active pool !! id).
Proof.
  unfold pool_of. intros H%head_Some_elem_of. apply list_elem_of_In, filter_In in H as [H1 H2].
  apply list_elem_of_In, elem_of_map_to_list in H1. by apply bool_decide_eq_true in H2.
Qed.

Lemma cancel_ok id info now d : Driver_ok [] d -> Driver_ok [] (cancel_transfer id info now d).
Proof.
  intros Hok. unfold cancel_transfer. destruct (pool_of id (dr_pools d)) as [[key pool]|] eqn:E; [|done].
  apply pool_of_spec in E as [Ek [t Et]]. rewrite Et. cbn zeta.
  assert (running (dr_pools d) key id t) as Hrun by (by exists pool).
  destruct (ok_running _ _ Hok _ _ _ Hrun) as (Hs & Hh & _ & _ & Ht).
  destruct (leave_fields pool id now (ok_pools _ _ Hok _ _ Ek) ltac:(by eexists)) as [La Li].
  set (pool1 := settle_transfer _ _ _ _ _).
  assert (Driver_ok [(key, (id, t))] (set_pools (<[key := pool1]> (dr_pools d)) d)) as H0.
  { apply take_out with (pool := pool); try done; unfold pool1; rewrite !(proj1 (settle_transfer_fields _ _ _ _ _)), ?(proj2 (settle_transfer_fields _ _ _ _ _)); done. }
  pose proof (ok_counts _ _ H0) as Hc. rewrite claims_of_cons, <- app_assoc in Hc.
  apply (Counts_settle_opt _ _ _ _ AttemptCancelled now) in Hc.
  set (d1 := match at_candidate t with Some c => settle_policy key c AttemptCancelled now d | None => d end).
  assert (Frame id d d1 /\ dr_pools d1 = dr_pools d /\ dr_bodies d1 = dr_bodies d) as (F & P1 & B1).
  { unfold d1. destruct (at_candidate t); auto with frame. }
  eapply end_out; [exact H0|apply frame_from_pools; auto 10 with frame|by simpl; rewrite P1| | | |].
  - simpl. rewrite lookup_insert_eq. by eexists.
  - apply finish_terminates. simpl. apply alter_bodies. rewrite B1. by apply (ok_bodies _ _ Hok).
  - simpl. by rewrite lookup_delete_eq.
  - eapply Counts_policy, Hc; unfold d1; by destruct (at_candidate t).
Qed.

Lemma fail_one_ok key message now d id t out :
  Driver_ok ((key, (id, t)) :: out) d -> Driver_ok out (fail_one key message now d (id, t)).
Proof.
  intros Hok. assert (is_Some (dr_bodies d !! id)) as Hb by (apply (ok_bodies _ _ Hok), (ok_out _ _ Hok); by left).
  pose proof (ok_counts _ _ Hok) as Hc. rewrite claims_of_cons, <- app_assoc in Hc. apply (Counts_settle_opt _ _ _ _ AttemptCancelled now) in Hc.
  unfold fail_one. set (d1 := match at_candidate t with Some c => _ | None => d end) in *.
  assert (Frame id d d1 /\ dr_pools d1 = dr_pools d /\ dr_bodies d1 = dr_bodies d) as (F & P1 & B1).
  { unfold d1. destruct (at_candidate t); auto with frame. }
  eapply end_out; [exact Hok|auto 9 with frame|by simpl; rewrite P1| | | |].
  - simpl. rewrite lookup_insert_eq. by eexists.
  - apply finish_terminates. simpl. apply alter_bodies. by rewrite B1.
  - simpl. by rewrite lookup_delete_eq.
  - by apply (Counts_policy d1).
Qed.

End Handlers.

(** ** Draining pools *)

Section Drained.
  (** [HashMap::drain] yields every entry once. *)
  Context (drain : gmap Z ActiveTransfer -> list (Z * ActiveTransfer)).
  Hypothesis drain_all : forall active, drain active ≡ₚ map_to_list active.

Lemma drained_ids key active : ids_of (pair key <$> drain active) ≡ₚ (map_to_list active).*1.
Proof. unfold ids_of. rewrite <- list_fmap_compose, drain_all. done. Qed.

Lemma drained_claims key active : claims_of (pair key <$> drain active) ≡ₚ pool_claims key active.
Proof. unfold claims_of, pool_claims. rewrite list_fmap_bind, drain_all. done. Qed.

(** All transfers of a pool leave it with the pool. *)
Lemma take_pool out d key pool :
  Driver_ok out d -> dr_pools d !! key = Some pool ->
  Driver_ok ((pair key <$> drain (pl_active pool)) ++ out) (set_pools (delete key (dr_pools d)) d).
Proof.
  intros [Hr Hu [Hn Ho] Hq Hb He Hh Hc Hp Hk] Hpool.
  assert (forall i, i ∈ ids_of (pair key <$> drain (pl_active pool)) <-> exists t, running (dr_pools d) key i t) as Hids.
  { intros i. rewrite drained_ids, list_elem_of_fmap. split.
    - intros ([i' t] & -> & H%elem_of_map_to_list). exists t. by exists pool.
    - intros (t & p & E & H). rewrite Hpool in E. injection E as <-. exists (i, t). by rewrite elem_of_map_to_list. }
  assert (forall k i t, running (delete key (dr_pools d)) k i t <-> k <> key /\ running (dr_pools d) k i t) as Hrun.
  { intros k i t. unfold running. setoid_rewrite lookup_delete_Some. naive_solver. }
  assert (forall out', ids_of ((pair key <$> drain (pl_active pool)) ++ out') = ids_of (pair key <$> drain (pl_active pool)) ++ ids_of out') as Happ.
  { intros out'. unfold ids_of. by rewrite fmap_app. }
  split; simpl; try done.
  - intros k i t [Hne H]%Hrun. destruct (Hr _ _ _ H) as (H1 & H2 & H3 & H4 & H5). split_and!; try done. rewrite Happ, elem_of_app, Hids.
    intros [[t' H']|H']; [|done]. by apply Hne, (Hu _ _ _ _ _ H H').
  - intros k k' i t t' [_ H1]%Hrun [_ H2]%Hrun. by apply (Hu _ _ _ _ _ H1 H2).
  - rewrite Happ. split.
    + apply NoDup_app. split_and!; [rewrite drained_ids; apply NoDup_fst_map_to_list| |done].
      intros i [t H]%Hids. by apply (Hr _ _ _ H).
    + intros i [[t H]%Hids|H]%elem_of_app; [|by apply Ho]. destruct (Hr _ _ _ H) as (? & ? & ? & _). done.
  - intros i Hi. rewrite Happ, elem_of_app, Hids. destruct (He i Hi) as [|[(k & t & H)|[|]]]; [by left| |by do 2 right; left; right|by do 3 right].
    destruct (base.decide (k = key)) as [->|Hne]; [do 2 right; left; left; eauto|right; left; exists k, t; by apply Hrun].
  - intros i r Hi. rewrite Happ, elem_of_app, Hids. destruct (Hc i r Hi) as [(k & t & H)|[|]]; [|by right; left; right|by do 2 right].
    destruct (base.decide (k = key)) as [->|Hne]; [right; left; left; eauto|left; exists k, t; by apply Hrun].
  - intros k p [_ H]%lookup_delete_Some. by apply (Hp k).
  - apply (Counts_policy d); [done..|]. eapply Counts_perm, Hk. rewrite (active_claims_lookup _ _ _ Hpool).
    unfold claims_of. rewrite bind_app. fold (claims_of (pair key <$> drain (pl_active pool))). fold (claims_of out).
    by rewrite drained_claims, <- !app_assoc, Permutation_app_swap_app.
Qed.

Lemma fail_all_ok key message now its d :
  Driver_ok (pair key <$> its) d -> Driver_ok [] (fold_left (fail_one key message now) its d).
Proof.
  revert d. induction its as [|[id t] its IH]; intros d Hok; simpl; [done|]. apply IH. by apply fail_one_ok.
Qed.

Lemma fail_pool_ok key message now d : Driver_ok [] d -> Driver_ok [] (fail_pool drain key message now d).
Proof.
  intros Hok. unfold fail_pool. destruct (dr_pools d !! key) as [pool|] eqn:E; [|done]. apply fail_all_ok.
  pose proof (take_pool [] d key pool Hok E) as H. by rewrite app_nil_r in H.
Qed.
End Drained.
