(* ===== verification/DriverRuns.v ===== *)
(** * The driver's invariant holds in every run

    The clients' commands, libcurl's callbacks and reclamation; then all steps. *)

From S2P Require Import Prelude RustStr Errors Cache Float64 Net IpPolicy IpPolicyProps Checksum BodySink Head Pools Driver DriverInv DriverSteps.

(** ** Clients and callbacks *)

Lemma submitted_app q q' : submitted (q ++ q') = submitted q ++ submitted q'.
Proof. unfold submitted. by rewrite omap_app. Qed.

Lemma records_started d i : Driver_ok [] d -> is_Some (dr_attempts d !! i) -> i ∈ dr_started d.
Proof.
  intros Hok [r Hr]. destruct (ok_records _ _ Hok i r Hr) as [(k & t & H)|[H|(_ & _ & v & H)]].
  - by apply (ok_running _ _ Hok k i t).
  - by apply not_elem_of_nil in H.
  - apply (ok_heads _ _ Hok). by rewrite H.
Qed.

Lemma submit_ok id o budget d : Driver_ok [] d -> id ∉ dr_started d -> Driver_ok [] (submit id o budget d).
Proof.
  intros Hok Hid. pose proof (records_started d id Hok) as Hrec.
  destruct Hok as [Hr Hu Ho [Hqn Hq] Hb He Hh Hc Hp Hk].
  assert (dr_heads d !! id = None) as Hhead by (apply eq_None_not_Some; intros H; by apply Hid, Hh).
  assert (dr_attempts d !! id = None) as Hatt by (apply eq_None_not_Some; intros H; by apply Hid, Hrec).
  assert (forall i, terminated d i -> i <> id -> terminated (submit id o budget d) i) as Hterm.
  { intros i (s & t & E & H) Hne. exists s, t. unfold submit, send_command. destruct (dr_closed d) eqn:Ec; simpl; rewrite ?Ec; simpl; by rewrite lookup_insert_ne. }
  assert (forall i, i ∈ dr_started d -> i <> id) as Hne by (by intros i Hi ->).
  unfold submit, send_command in *. simpl in *. destruct (dr_closed d) eqn:Ec; simpl in *; rewrite ?Ec in *; simpl in *.
  - split; simpl; try done.
    + intros k i t H. destruct (Hr _ _ _ H) as (H1 & H2 & H3 & H4 & H5). rewrite lookup_insert_ne by (symmetry; auto). split_and!; try done. set_solver.
    + split; [constructor|]. intros i Hi. by apply not_elem_of_nil in Hi.
    + split; [done|]. intros i Hi. destruct (Hq i Hi) as (H1 & H2 & H3 & H4). rewrite lookup_insert_ne by (symmetry; auto). split_and!; try done; set_solver.
    + intros i Hi. destruct (base.decide (i = id)) as [->|Hn]; [rewrite lookup_insert_eq; by eexists|]. rewrite lookup_insert_ne by done. apply Hb. set_solver.
    + intros i Hi. destruct (base.decide (i = id)) as [->|Hn]; [do 3 right; rewrite lookup_insert_eq; by eexists|]. rewrite lookup_insert_ne by done. apply He. set_solver.
    + intros i Hi. destruct (base.decide (i = id)) as [->|Hn]; [split; [set_solver|right; left; set_solver]|]. rewrite lookup_insert_ne in Hi by done.
      destruct (Hh i Hi) as [H1 H2]. split; [set_solver|]. destruct H2 as [H2|[H2|H2]]; [left; by apply Hterm|right; left; set_solver|by do 2 right].
    + intros i r Hi. destruct (base.decide (i = id)) as [->|Hn]; [by rewrite Hatt in Hi|]. rewrite lookup_insert_ne by done. by apply Hc.
  - split; simpl; try done; rewrite ?submitted_app; simpl.
    + intros k i t H. destruct (Hr _ _ _ H) as (H1 & H2 & H3 & H4 & H5). pose proof (Hne i H1). split_and!; try done; set_solver.
    + split; [constructor|]. intros i Hi. by apply not_elem_of_nil in Hi.
    + split; [apply NoDup_app; split_and!; [done| |apply NoDup_singleton]; intros i Hi ->%list_elem_of_singleton; by destruct (Hq id Hi)|].
      intros i [Hi| ->%list_elem_of_singleton]%elem_of_app; [|split_and!; try done; set_solver].
      destruct (Hq i Hi) as (H1 & H2 & H3 & H4). split_and!; try done; set_solver.
    + intros i Hi. destruct (base.decide (i = id)) as [->|Hn]; [rewrite lookup_insert_eq; by eexists|]. rewrite lookup_insert_ne by done. apply Hb. set_solver.
    + intros i Hi. destruct (base.decide (i = id)) as [->|Hn]; [left; set_solver|]. destruct (He i) as [H|[H|[H|H]]]; [set_solver|left; set_solver|by right; left|by apply not_elem_of_nil in H|by do 3 right].
    + intros i Hi. destruct (Hh i Hi) as [H1 H2]. split; [set_solver|]. destruct H2 as [H2|[H2|H2]]; [left; apply Hterm; auto|right; left; set_solver|by do 2 right].
Qed.

(** Commands that start nothing come and go. *)
Lemma queue_ok queue closed d :
  Driver_ok [] d -> submitted queue = submitted (dr_queue d) -> Driver_ok [] (set_queue queue closed d).
Proof. intros [Hr Hu Ho Hq Hb He Hh Hc Hp Hk] E. split; simpl; rewrite ?E; done. Qed.

Lemma send_ok c d : Driver_ok [] d -> (forall id o, c <> Submit id o) -> Driver_ok [] (send_command c d).
Proof.
  intros Hok Hc. unfold send_command. destruct (dr_closed d); [done|]. apply queue_ok; [done|]. rewrite submitted_app.
  destruct c; simpl; rewrite ?app_nil_r; [by destruct (Hc id options)|done..].
Qed.

Lemma abandon_ok id d : Driver_ok [] d -> Driver_ok [] (abandon id d).
Proof.
  intros Hok. unfold abandon. apply send_ok; [|done]. destruct Hok as [Hr Hu Ho [Hqn Hq] Hb He Hh Hc Hp Hk].
  assert (forall i, i ∈ dr_sinks d -> i ∈ dr_sinks d ∖ {[id]} \/ i ∈ dr_gone d ∪ {[id]}) as Hs.
  { intros i Hi. destruct (base.decide (i = id)) as [->|Hn]; [right; set_solver|left; set_solver]. }
  split; simpl; try done.
  - split; [done|]. intros i Hi. destruct (Hq i Hi) as (H1 & H2 & H3 & H4). split_and!; try done. destruct H4 as [H4|H4]; [by apply Hs|right; set_solver].
  - intros i Hi. destruct (Hh i Hi) as [H1 H2]. split; [done|]. destruct H2 as [H2|[H2|H2]]; [by left|right; by apply Hs|do 2 right; set_solver].
Qed.

(** A submission that is dropped from the queue: its caller learns of it, and its sink is
    failed when the thread ends. *)
Lemma drop_ok q1 c q2 closed d :
  Driver_ok [] (set_queue (q1 ++ c :: q2) closed d) -> Driver_ok [] (set_queue (q1 ++ q2) closed (drop_command d c)).
Proof.
  intros Hok. destruct c as [id o| | |]; try (eapply (queue_ok (q1 ++ q2) closed) in Hok; [exact Hok|by simpl; rewrite !submitted_app]).
  pose proof Hok as [Hr Hu Ho [Hqn Hq] Hb He Hh Hc Hp Hk]. simpl in *. rewrite submitted_app in *. simpl in *.
  apply NoDup_app in Hqn as (Hn1 & Hd & [Hid Hn2]%NoDup_cons).
  assert (forall i, i ∈ submitted q1 ++ submitted q2 -> i ∈ submitted q1 ++ id :: submitted q2 /\ i <> id) as Hin.
  { intros i [Hi|Hi]%elem_of_app; split; rewrite ?elem_of_app; [by left| |by right; right|by intros ->]. intros ->. by destruct (Hd id Hi); left. }
  destruct (Hq id) as (Hs & Hnone & Hatt & Hsink); [apply elem_of_app; right; by left|].
  assert (forall k i t, running (dr_pools d) k i t -> i <> id) as Hrun.
  { intros k i t H ->. destruct (Hr _ _ _ H) as (_ & _ & H' & _). destruct H'. apply elem_of_app. right. by left. }
  split; simpl; rewrite ?submitted_app; try done.
  - intros k i t H. destruct (Hr _ _ _ H) as (H1 & H2 & H3 & H4 & H5). rewrite lookup_insert_ne by (symmetry; eauto). split_and!; try done.
    intros Hi. by apply H3, (Hin i Hi).
  - split; [constructor|]. intros i Hi. by apply not_elem_of_nil in Hi.
  - split; [apply NoDup_app; split_and!; try done; intros i Hi Hi'; by destruct (Hd i Hi); right|].
    intros i Hi. destruct (Hin i Hi) as [Hi' Hne]. rewrite lookup_insert_ne by done. by apply Hq.
  - intros i Hi. destruct (base.decide (i = id)) as [->|Hne]; [do 3 right; rewrite lookup_insert_eq; by eexists|]. rewrite lookup_insert_ne by done.
    destruct (He i Hi) as [H|]; [left|by right]. rewrite elem_of_app, elem_of_cons in H. rewrite elem_of_app. naive_solver.
  - intros i Hi. destruct (base.decide (i = id)) as [->|Hne]; [split; [done|by right]|]. rewrite lookup_insert_ne in Hi by done. by apply Hh.
  - intros i r Hi. destruct (base.decide (i = id)) as [->|Hne]; [by rewrite Hatt in Hi|]. rewrite lookup_insert_ne by done. by apply Hc.
Qed.

Lemma drop_all_ok q1 q2 closed d :
  Driver_ok [] (set_queue (q1 ++ q2) closed d) -> Driver_ok [] (fold_left drop_command q2 (set_queue q1 closed d)).
Proof.
  revert d. induction q2 as [|c q2 IH]; intros d Hok; simpl; [by rewrite app_nil_r in Hok|].
  replace (drop_command (set_queue q1 closed d) c) with (set_queue q1 closed (drop_command d c)) by (by destruct c). by apply IH, drop_ok.
Qed.

Lemma close_queue_ok drained d : Driver_ok [] d -> Driver_ok [] (close_queue drained d).
Proof. intros Hok. unfold close_queue. apply drop_all_ok. rewrite take_drop. by apply queue_ok. Qed.

Lemma bodies_ok f id d : Ends f -> Driver_ok [] d -> Driver_ok [] (set_bodies (alter f id (dr_bodies d)) d).
Proof.
  intros Hf [Hr Hu Ho Hq Hb He Hh Hc Hp Hk]. split; simpl; try done.
  - intros i Hi. by apply alter_bodies, Hb.
  - intros i Hi. destruct (Hh i Hi) as [H1 H2]. split; [done|]. destruct H2 as [H2|H2]; [left; by apply alter_ended|by right].
Qed.

Lemma write_ends data now : Ends (fun s => (BodySink.write data now s).2).
Proof.
  intros s t E. unfold BodySink.write. destruct data; [done|]. rewrite E. done.
Qed.

Lemma poll_ends : Ends (fun s => (poll s).2).
Proof. intros s t E. unfold poll. destruct (sk_queue s); [by rewrite E|done]. Qed.

Lemma needs_resume_ends now : Ends (fun s => (needs_resume now s).2).
Proof. intros s t E. unfold needs_resume. by destruct (_ && _). Qed.

Lemma send_head_ok v p : Head_ok p -> Head_ok (send v p).
Proof.
  intros [H1 H2]. split; [done|]. simpl. split; [intros _|done]. destruct (hp_sender p); [by eexists|by apply H2].
Qed.

Lemma send_published_ok v p : Head_ok p -> Head_ok (send v (set_published p)).
Proof. intros H. destruct (send_head_ok v p H) as [_ H2]. by split. Qed.

Lemma push_head_ok line p : Head_ok p -> Head_ok (push line p) /\ hp_pinned_ip (push line p) = hp_pinned_ip p.
Proof.
  intros Hp. unfold push. destruct (hp_published p) eqn:Ep; [done|]. destruct (strip_crlf line).
  - unfold finish_block. destruct (hp_block p) as [b|]; [|done]. cbn zeta. cbn [set_block hp_published]. rewrite Ep.
    destruct (parse_status_line _) as [status|]; [|split; [by apply send_published_ok|done]].
    destruct (is_informational status); [done|]. destruct (_ && _); [done|]. destruct (hp_sender _); [|done]. split; [by apply send_published_ok|done].
  - cbn zeta. destruct (_ <? _)%nat; [|done]. split; [by apply send_published_ok|done].
Qed.

Lemma header_ok key id line d : Driver_ok [] d -> Driver_ok [] (receive_header key id line d).
Proof.
  intros Hok. unfold receive_header. destruct (dr_pools d !! key) as [pool|] eqn:Ek.
  2: { rewrite alter_id by (intros x Hx; by rewrite Ek in Hx). by destruct d. }
  destruct (pl_active pool !! id) as [t|] eqn:Et.
  2: { rewrite alter_id; [by destruct d|]. intros x Hx. rewrite Ek in Hx. injection Hx as <-. rewrite alter_id by (intros y Hy; by rewrite Et in Hy).
       by destruct pool. }
  set (t' := mkTransfer (push line (at_head t)) (at_options t) (at_request_id t) (at_claim t) (at_generation t) (at_candidate t) (at_retry t)).
  assert (running (dr_pools d) key id t) as Hrun by (by exists pool). destruct (ok_running _ _ Hok _ _ _ Hrun) as (_ & Hh & _ & _ & [Hhead Ht]).
  destruct (leave_fields pool id 0 (ok_pools _ _ Hok _ _ Ek) ltac:(by eexists)) as [La Li].
  pose proof (take_out [] d key pool id t _ Hok Ek Et La Li) as H0. destruct (push_head_ok line (at_head t) Hhead) as [Hp1 Hp2].
  assert (Driver_ok [(key, (id, t'))] (set_pools (<[key := set_idle_if_empty 0 (set_active (delete id (pl_active pool)) pool)]> (dr_pools d)) d)) as H1.
  { eapply swap_out; [exact H0|apply frame_refl|done|done|]. pose proof (ok_counts _ _ H0) as Hc. by rewrite claims_of_cons, <- app_assoc in Hc. }
  clear H0. rename H1 into H0.
  eapply (put_back [] _ key _ id t' (set_active (<[id := t']> (pl_active pool)) pool)) in H0.
  - cbn [set_pools dr_pools] in H0. rewrite insert_insert_eq in H0. replace (alter _ key (dr_pools d)) with
      (<[key := set_active (<[id := t']> (pl_active pool)) pool]> (dr_pools d)); [done|].
    apply map_eq. intros k. destruct (base.decide (k = key)) as [->|Hne].
    + rewrite lookup_insert_eq, lookup_alter_eq, Ek. simpl. do 2 f_equal. apply map_eq. intros i. destruct (base.decide (i = id)) as [->|Hi].
      * by rewrite lookup_insert_eq, lookup_alter_eq, Et.
      * by rewrite lookup_insert_ne, lookup_alter_ne.
    + by rewrite lookup_insert_ne, lookup_alter_ne.
  - left. simpl. apply lookup_insert_eq.
  - simpl. by rewrite La, insert_delete_eq.
  - simpl. apply (ok_pools _ _ Hok _ _ Ek). intros E. by rewrite E, lookup_empty in Et.
  - split; [done|]. simpl. destruct (at_candidate t), (at_retry t); try done; rewrite Hp2; done.
Qed.

(** ** Runs *)

Section Runs.
  Context (powf : f64 -> f64 -> f64).
  Context (parse_url : rstr -> option (rstr * option rstr * option Z)).
  Context (show_key : PoolKey -> rstr).
  Context (drain : gmap Z ActiveTransfer -> list (Z * ActiveTransfer)).
  Context (config : DriverConfig).
  Hypothesis drain_all : forall active, drain active ≡ₚ map_to_list active.

Lemma drive_fields refused connection_id pool pool' :
  drive_pool config refused connection_id pool = Some pool' ->
  pl_active pool' = pl_active pool /\ pl_idle_since pool' = pl_idle_since pool.
Proof.
  unfold drive_pool, update_cache_bound. destruct (_ && _); [destruct refused; [done|]|]; simpl; by intros [= <-].
Qed.

Lemma reclaim_connections_fields refused now pool :
  pl_active (reclaim_connections config refused now pool).2 = pl_active pool /\
  pl_idle_since (reclaim_connections config refused now pool).2 = pl_idle_since pool.
Proof.
  unfold reclaim_connections, clear_idle_connections. destruct (idle_connection_deadline _ _ _); [|done].
  destruct (_ <? _); [done|]. by destruct refused.
Qed.

Lemma keeps_busy now clock pool : keeps_pool config now clock pool = false -> pl_active pool = ∅.
Proof.
  unfold keeps_pool. destruct (bool_decide_reflect (pl_active pool = ∅)) as [E|E]; [done|]. simpl.
  unfold idle_deadline. by rewrite bool_decide_false.
Qed.

Lemma filter_claims (P : PoolKey * Pool -> Prop) `{forall x, Decision (P x)} pools :
  (forall k p, ~ P (k, p) -> pl_active p = ∅) -> active_claims (filter P pools) ≡ₚ active_claims pools.
Proof.
  intros HP. induction pools as [|k p pools Hk IH] using map_ind; [by rewrite map_filter_empty|].
  rewrite active_claims_insert, delete_id, <- IH by done. destruct (base.decide (P (k, p))) as [Hkp|Hkp].
  - rewrite map_filter_insert_True, active_claims_insert by done. rewrite (delete_id _ k); [done|].
    apply map_lookup_filter_None. by left.
  - rewrite map_filter_insert_False, delete_id by done. rewrite (HP k p Hkp). unfold pool_claims. by rewrite map_to_list_empty.
Qed.

Lemma reclaim_pools_ok now clock d : Driver_ok [] d -> Driver_ok [] (reclaim_idle_pools config now clock d).
Proof.
  intros [Hr Hu Ho Hq Hb He Hh Hc Hp Hk]. unfold reclaim_idle_pools. set (P := fun kp : PoolKey * Pool => keeps_pool config now clock kp.2 = true).
  assert (forall k i t, running (filter P (dr_pools d)) k i t <-> running (dr_pools d) k i t) as Hrun.
  { intros k i t. unfold running. split; intros (p & E & H); exists p; [by apply map_lookup_filter_Some in E as [E _]|]. split; [|done].
    apply map_lookup_filter_Some. split; [done|]. unfold P. simpl. destruct (keeps_pool config now clock p) eqn:Ek; [done|].
    apply keeps_busy in Ek. by rewrite Ek, lookup_empty in H. }
  split; simpl; try done.
  - intros k i t H%Hrun. by apply Hr.
  - intros k k' i t t' H1%Hrun H2%Hrun. by apply (Hu _ _ _ _ _ H1 H2).
  - intros i Hi. destruct (He i Hi) as [|[(k & t & H%Hrun)|]]; [by left|right; left; eauto|by do 2 right].
  - intros i r Hi. destruct (Hc i r Hi) as [(k & t & H%Hrun)|]; [left; eauto|by right].
  - intros k p [E _]%map_lookup_filter_Some. by apply (Hp k).
  - apply (Counts_policy d); [done..|]. eapply Counts_perm, Hk. rewrite filter_claims; [done|]. intros k p HP. apply (keeps_busy now clock).
    unfold P in HP. simpl in HP. by destruct (keeps_pool config now clock p).
Qed.

Lemma body_done_ok id consumed sample now d :
  Driver_ok [] d ->
  Driver_ok [] (fold_attempt powf id now
    (match dr_attempts d !! id with
     | Some record =>
         set_attempts (<[id := mkAttempt (ar_pool record) (ar_claim record) (ar_outcome record) (Some consumed) sample]> (dr_attempts d)) d
     | None => d
     end)).
Proof.
  intros Hok. destruct (dr_attempts d !! id) as [record|] eqn:E; [|unfold fold_attempt; by rewrite E].
  set (r1 := mkAttempt _ _ _ _ _). set (d1 := set_attempts _ d).
  pose proof Hok as [Hr Hu Ho Hq Hb He Hh Hc Hp Hk].
  assert (Counts (fold_attempt powf id now d1) (active_claims (dr_pools d))) as Hk' by (apply Counts_fold; by apply (Counts_policy d)).
  destruct (fold_fields powf id now d1) as (E1 & E2 & E3). destruct (frame_fold powf id now d1 d1 (frame_refl id d1)) as [Fq Fs Fg Fa Fh Fk Fb Fe].
  assert (forall r, dr_attempts (fold_attempt powf id now d1) !! id = Some r -> r = r1 /\ ar_outcome record = None) as Hid.
  { intros r [H1 H2]%fold_record. simpl in H1. rewrite lookup_insert_eq in H1. injection H1 as <-. split; [done|]. by destruct H2. }
  assert (forall i, i <> id -> dr_attempts (fold_attempt powf id now d1) !! i = dr_attempts d !! i) as Hother.
  { intros i Hi. rewrite Fa by done. simpl. by rewrite lookup_insert_ne. }
  assert (ar_outcome record = None -> dr_attempts (fold_attempt powf id now d1) !! id = Some r1) as Hkeep.
  { intros Ho'. unfold fold_attempt. simpl. rewrite lookup_insert_eq. simpl. rewrite Ho'. simpl. by rewrite lookup_insert_eq. }
  assert (forall i, i ∈ dr_sinks d -> i ∈ dr_sinks (fold_attempt powf id now d1)) as Hsinks.
  { intros i Hi. unfold fold_attempt. simpl. rewrite lookup_insert_eq. simpl. destruct (ar_outcome record) as [[]|], consumed, sample; try done. by destruct (record_sample _ _ _ _ _ _). }
  split; rewrite ?E1, ?E2, ?E3, ?Fq, ?Fs, ?Fg; simpl; try done.
  - intros k i t H. destruct (Hr _ _ _ H) as (H1 & H2 & H3 & H4 & [H5 H6]). split_and!; try done. split; [done|].
    destruct (base.decide (i = id)) as [->|Hi]; [|by rewrite Hother].
    destruct (at_candidate t) as [cc|], (at_retry t) as [st|]; try done; [|by rewrite E in H6; destruct H6]. destruct H6 as (? & ? & ? & r & Hr0 & ? & ? & Ho').
    rewrite E in Hr0. injection Hr0 as <-. split_and!; try done. exists r1. by rewrite (Hkeep Ho').
  - destruct Hq as [Hqn Hq]. split; [done|]. intros i Hi. destruct (Hq i Hi) as (H1 & H2 & H3 & H4). assert (i <> id) as Hne by (intros ->; by rewrite E in H3).
    rewrite Hother by done. split_and!; try done. destruct H4; [left; by apply Hsinks|by right].
  - intros i Hi. destruct (Hh i Hi) as [H1 H2]. split; [done|]. destruct H2 as [H2|[H2|H2]]; [left; by apply Fe|right; left; by apply Hsinks|by do 2 right].
  - intros i r Hi. destruct (base.decide (i = id)) as [->|Hne]; [|rewrite Hother in Hi by done; by apply Hc].
    destruct (Hid r Hi) as [-> Ho']. destruct (Hc id record E) as [|[|([x Hx] & _)]]; [by left|by right; left|by rewrite Ho' in Hx].
Qed.

Lemma command_ok c rest now answers d d' :
  Driver_ok [] d -> dr_queue d = c :: rest ->
  handle_command powf parse_url show_key config c now answers (set_queue rest (dr_closed d) d) = Some d' -> Driver_ok [] d'.
Proof.
  intros Hok Hq. unfold handle_command. destruct c as [id o|id|id|id consumed sample].
  - intros H. pose proof Hok as [Hr Hu Ho Hqs Hb He Hh Hc Hp Hk]. rewrite Hq in *. simpl in Hqs. destruct Hqs as [[Hid Hn]%NoDup_cons Hqs].
    destruct (Hqs id) as (H1 & H2 & H3 & H4); [by left|].
    refine (start_ok _ _ _ _ id o now _ (count count_command (set_queue rest (dr_closed d) d)) d' [] _ H3 H).
    split; simpl; try done.
    + intros k i t Hr'. destruct (Hr _ _ _ Hr') as (H5 & H6 & H7 & _ & H8). simpl in H7. apply not_elem_of_cons in H7 as [H7 H9].
      split_and!; try done. by rewrite list_elem_of_singleton.
    + split; [apply NoDup_singleton|]. by intros i ->%list_elem_of_singleton.
    + split; [done|]. intros i Hi. apply Hqs. by right.
    + intros i Hi. destruct (He i Hi) as [[->|]%elem_of_cons|[|[[]%not_elem_of_nil|]]]; [right; right; left; by left|by left|by right; left|by do 3 right].
    + intros i r Hi. destruct (Hc i r Hi) as [|[[]%not_elem_of_nil|]]; [by left|by do 2 right].
  - intros [= <-]. apply (queue_ok rest (dr_closed d)) in Hok; [|by rewrite Hq]. by destruct Hok; split.
  - intros [= <-]. apply cancel_ok. apply (queue_ok rest (dr_closed d)) in Hok; [|by rewrite Hq]. by destruct Hok; split.
  - intros [= <-]. apply (body_done_ok id consumed sample now (count count_command (set_queue rest (dr_closed d) d))). apply (queue_ok rest (dr_closed d)) in Hok; [|by rewrite Hq]. by destruct Hok; split.
Qed.

Lemma step_ok d d' :
  Driver_ok [] d -> driver_step powf parse_url show_key drain config d d' -> Driver_ok [] d'.
Proof.
  intros Hok. destruct 1 as [id o budget Hid|id|c Hc|drained|c rest now answers d' Hq H|key id line|id data now|id|id now|
    key id r info now later retry_now answers d' H|key message now|key refused cid pool pool' Hk H|now clock|key refused now].
  - by apply submit_ok.
  - by apply abandon_ok.
  - by apply send_ok.
  - by apply close_queue_ok.
  - by eapply command_ok.
  - by apply header_ok.
  - apply bodies_ok; [apply write_ends|done].
  - apply bodies_ok; [apply poll_ends|done].
  - apply bodies_ok; [apply needs_resume_ends|done].
  - unfold finish_transfer in H. destruct (complete_transfer powf key id r info now later d) as [d1 [q|]] eqn:E.
    + destruct (complete_transfer_ok powf key id r info now later d d1 (Some q) Hok E) as (H1 & H2 & H3 & H4). by eapply start_retry_ok.
    + injection H as <-. exact (complete_transfer_ok powf key id r info now later d d1 None Hok E).
  - by apply fail_pool_ok.
  - apply touch_pool; [done|]. left. exists pool. split; [done|]. by eapply drive_fields.
  - by apply reclaim_pools_ok.
  - unfold reclaim_pool_connections. destruct (dr_pools d !! key) as [pool|] eqn:E; [|done].
    destruct (reclaim_connections_fields refused now pool) as [Ha Hi]. destruct (reclaim_connections config refused now pool) as [cleared pool'].
    assert (Driver_ok [] (set_pools (<[key := pool']> (dr_pools d)) d)) as H by (apply touch_pool; [done|]; left; by exists pool).
    destruct cleared; [by destruct H; split|done].
Qed.

Lemma run_ok d : driver_run powf parse_url show_key drain config d -> Driver_ok [] d.
Proof.
  induction 1 as [|d d' _ IH Hs]; [|by eapply step_ok].
  split; simpl; try done.
  - by intros k i t (p & E & _).
  - by intros k k' i t t' (p & E & _).
  - split; [constructor|]. by intros i Hi%not_elem_of_nil.
  - split; [constructor|]. by intros i Hi%not_elem_of_nil.
  - by intros i [? ?].
  - split; [done|]. intros _. exists ∅. split; [done|]. intros pool. simpl. by rewrite !lookup_empty.
Qed.

End Runs.
