(* ===== verification/DriverProps.v ===== *)
(** * What the driver guarantees

    Reservations, records and channels through every run: what each transfer holds is
    released once, by whichever path ends it, and no caller is left waiting. *)

From S2P Require Import Prelude RustStr Errors Cache Float64 Net IpPolicy IpPolicyProps Checksum BodySink Head Pools Driver DriverInv DriverSteps DriverRuns.

(** ** Counting the pinned transfers *)

(** The transfers of a pool that are pinned to an address. *)
Definition pinned_to (d : Driver) (key : PoolKey) (a : IpAddr) : nat :=
  from_option (fun pool => length (List.filter (fun it => bool_decide (cc_address <$> at_candidate it.2 = Some a)) (map_to_list (pl_active pool))))
    0%nat (dr_pools d !! key).

Lemma claims_on_app l l' key a : claims_on (l ++ l') key a = (claims_on l key a + claims_on l' key a)%nat.
Proof. unfold claims_on. by rewrite List.filter_app, length_app. Qed.

Lemma claims_on_pool key active k a :
  claims_on (pool_claims key active) k a =
  if bool_decide (key = k) then length (List.filter (fun it => bool_decide (cc_address <$> at_candidate it.2 = Some a)) (map_to_list active)) else 0%nat.
Proof.
  unfold pool_claims. induction (map_to_list active) as [|[id t] l IH]; [by case_bool_decide|].
  rewrite bind_cons, claims_on_app, IH. unfold transfer_claims. simpl. destruct (at_candidate t) as [c|]; simpl.
  - rewrite claims_on_cons. simpl. repeat case_bool_decide; simpl; naive_solver.
  - by case_bool_decide.
Qed.

Lemma claims_on_others pools key a : pools !! key = None -> claims_on (active_claims pools) key a = 0%nat.
Proof.
  intros Hn. unfold active_claims. assert (forall kp, kp ∈ map_to_list pools -> kp.1 <> key) as H.
  { intros [k p] Hk%elem_of_map_to_list E. simpl in E. subst. by rewrite Hn in Hk. }
  induction (map_to_list pools) as [|[k p] l IH]; [done|]. rewrite bind_cons, claims_on_app, claims_on_pool, IH by (intros; apply H; by right).
  rewrite bool_decide_false; [done|]. apply (H (k, p)). by left.
Qed.

Lemma claims_pinned d key a : claims_on (active_claims (dr_pools d)) key a = pinned_to d key a.
Proof.
  unfold pinned_to. destruct (dr_pools d !! key) as [pool|] eqn:E; simpl; [|by apply claims_on_others].
  rewrite (claims_on_perm _ _ _ _ (active_claims_lookup _ _ _ E)), claims_on_app, claims_on_pool, bool_decide_true by done.
  rewrite claims_on_others by apply lookup_delete_eq. lia.
Qed.

Lemma Counts_flight d claims key a :
  Counts d claims -> dr_policy_calls d <= 2 ^ 64 -> in_flight_of (dr_policy d) key a = claims_on claims key a.
Proof.
  intros [_ H] Hlt. destruct (H Hlt) as (answers & _ & Hw). specialize (Hw key). unfold in_flight_of. simpl in *.
  destruct (ip_origins (dr_policy d) !! key) as [o|], (answers !! key) as [set|]; try done; simpl in *. by rewrite (oo_flight _ _ _ _ Hw).
Qed.

(** ** The end of the thread *)

Section Exit.
  Context (drain : gmap Z ActiveTransfer -> list (Z * ActiveTransfer)).
  Hypothesis drain_all : forall active, drain active ≡ₚ map_to_list active.

Definition flights_of (keys : list PoolKey) (pools : gmap PoolKey Pool) : list Flight :=
  keys ≫= fun key => pair key <$> from_option (drain ∘ pl_active) [] (pools !! key).

Lemma flights_delete key keys pools : key ∉ keys -> flights_of keys (delete key pools) = flights_of keys pools.
Proof.
  unfold flights_of. induction keys as [|k keys IH]; [done|]. rewrite not_elem_of_cons. intros [Hk Hn]. rewrite !bind_cons, IH by done.
  by rewrite lookup_delete_ne.
Qed.

Lemma Driver_ok_perm out out' d : out ≡ₚ out' -> Driver_ok out d -> Driver_ok out' d.
Proof.
  intros Hp [Hr Hu [Hn Ho] Hq Hb He Hh Hc Hpo Hk]. assert (ids_of out ≡ₚ ids_of out') as Hi by (unfold ids_of; by rewrite Hp).
  split; try done.
  - intros k i t H. rewrite <- Hi. by apply Hr.
  - rewrite <- Hi. split; [done|]. intros i. rewrite <- Hi. by apply Ho.
  - intros i. rewrite <- Hi. by apply He.
  - intros i r. rewrite <- Hi. by apply Hc.
  - eapply Counts_perm, Hk. apply Permutation_app_tail. unfold claims_of. by rewrite Hp.
Qed.

Lemma take_keys keys : forall out d, NoDup keys -> Driver_ok out d ->
  Driver_ok (flights_of keys (dr_pools d) ++ out) (set_pools (foldr delete (dr_pools d) keys) d).
Proof.
  induction keys as [|key keys IH]; intros out d Hn Hok; [by destruct d|]. apply NoDup_cons in Hn as [Hk Hn].
  unfold flights_of. rewrite bind_cons. fold (flights_of keys (dr_pools d)). destruct (dr_pools d !! key) as [pool|] eqn:E; simpl.
  - specialize (IH _ _ Hn (take_pool drain drain_all out d key pool Hok E)). cbn [dr_pools set_pools] in IH. rewrite flights_delete in IH by done.
    replace (delete key (foldr delete (dr_pools d) keys)) with (foldr delete (delete key (dr_pools d)) keys).
    + eapply Driver_ok_perm, IH. by rewrite <- app_assoc, Permutation_app_swap_app.
    + clear. induction keys as [|k keys IH]; simpl; [done|]. by rewrite IH, delete_delete.
  - rewrite delete_id; [by apply IH|]. clear -E. induction keys as [|k keys IH]; simpl; [done|]. apply lookup_delete_None. by right.
Qed.

Lemma foldr_delete_all keys (pools : gmap PoolKey Pool) :
  (forall k, is_Some (pools !! k) -> k ∈ keys) -> foldr delete pools keys = ∅.
Proof.
  revert pools. induction keys as [|key keys IH]; intros pools H; simpl.
  - apply map_empty. intros k. apply eq_None_not_Some. by intros Hk%H%not_elem_of_nil.
  - rewrite <- (IH (delete key pools)).
    + clear. induction keys as [|k keys IH]; simpl; [done|]. by rewrite <- IH, delete_delete.
    + intros k Hk. destruct (base.decide (k = key)) as [->|Hne]; [rewrite lookup_delete_eq in Hk; by apply is_Some_None in Hk|].
      rewrite lookup_delete_ne in Hk by done. by apply H, elem_of_cons in Hk as [|].
Qed.

Lemma cancel_one_ok now key id t d out :
  dr_attempts d = ∅ -> Driver_ok ((key, (id, t)) :: out) d ->
  Driver_ok out (cancel_one now d (key, (id, t))) /\ dr_attempts (cancel_one now d (key, (id, t))) = ∅.
Proof.
  intros Ha Hok. assert (is_Some (dr_bodies d !! id)) as Hb by (apply (ok_bodies _ _ Hok), (ok_out _ _ Hok); by left).
  pose proof (ok_counts _ _ Hok) as Hc. rewrite claims_of_cons, <- app_assoc in Hc. apply (Counts_settle_opt _ _ _ _ AttemptCancelled now) in Hc.
  unfold cancel_one. set (d1 := match at_candidate t with Some c => _ | None => d end) in *.
  assert (Frame id d d1 /\ dr_pools d1 = dr_pools d /\ dr_bodies d1 = dr_bodies d /\ dr_attempts d1 = ∅) as (F & P1 & B1 & A1).
  { unfold d1. destruct (at_candidate t); auto with frame. }
  split; [|done]. eapply end_out; [exact Hok|auto with frame|done| | | |].
  - simpl. rewrite lookup_insert_eq. by eexists.
  - apply finish_terminates. simpl. by rewrite B1.
  - simpl. by rewrite A1, lookup_empty.
  - by apply (Counts_policy d1).
Qed.

Lemma cancel_all_ok now its : forall d, dr_attempts d = ∅ -> Driver_ok its d -> Driver_ok [] (fold_left (cancel_one now) its d).
Proof.
  induction its as [|[key [id t]] its IH]; intros d Ha Hok; [done|].
  destruct (cancel_one_ok now key id t d its Ha Hok) as [H1 H2]. by apply IH.
Qed.

Lemma cancel_attempts now its : forall d attempts, set_attempts attempts (fold_left (cancel_one now) its d) = fold_left (cancel_one now) its (set_attempts attempts d).
Proof.
  induction its as [|[key [id t]] its IH]; intros d attempts; [done|]. simpl. rewrite IH. f_equal. unfold cancel_one. by destruct (at_candidate t).
Qed.

(** The exit guard ends every sink that is left. *)
Lemma finish_all_ended terminal now ids : forall d,
  (forall i, i ∈ dr_started d -> is_Some (dr_bodies d !! i)) ->
  let d' := fold_left (fun d id => finish_sink id terminal now d) ids d in
  (forall i, terminated d i -> terminated d' i) /\ (forall i, i ∈ ids -> i ∈ dr_started d -> terminated d' i) /\
  dr_started d' = dr_started d /\ dr_heads d' = dr_heads d /\ dr_queue d' = dr_queue d /\ dr_gone d' = dr_gone d /\ dr_policy d' = dr_policy d.
Proof.
  induction ids as [|id ids IH]; intros d Hb; cbn zeta; [by split_and!; [| |done..]; [|intros i Hi%not_elem_of_nil]|].
  destruct (IH (finish_sink id terminal now d)) as (H1 & H2 & H3 & H4 & H5 & H6 & H7); [intros i Hi; by apply alter_bodies, Hb|].
  split_and!; try done.
  - intros i Hi. apply H1. by apply alter_ended; [apply finish_ends|].
  - intros i [->|Hi]%elem_of_cons Hs; [by apply H1, finish_terminates, Hb|by apply H2].
Qed.

Lemma drop_commands its : forall d,
  let d' := fold_left drop_command its d in
  (forall i, terminated d i -> terminated d' i) /\ dr_started d' = dr_started d /\ dr_gone d' = dr_gone d /\ dr_policy d' = dr_policy d /\
  (forall i, is_Some (dr_heads d !! i) \/ i ∈ submitted its -> is_Some (dr_heads d' !! i)).
Proof.
  induction its as [|c its IH]; intros d; cbn zeta; [split_and!; try done; by intros i [|Hi%not_elem_of_nil]|]. simpl.
  destruct (IH (drop_command d c)) as (H1 & H2 & H3 & H4 & H5). destruct c as [id o| | |]; simpl in *; try by split_and!.
  split_and!; try done. intros i Hi. apply H5. destruct (base.decide (i = id)) as [->|Hne]; [left; rewrite lookup_insert_eq; by eexists|].
  rewrite lookup_insert_ne by done. destruct Hi as [|[|]%elem_of_cons]; [by left|done|by right].
Qed.

End Exit.

(** ** Small facts *)

Lemma fold_min_le l : forall x y, y ∈ x :: l -> fold_left Z.min l x <= y.
Proof.
  induction l as [|z l IH]; intros x y Hy; simpl; [apply list_elem_of_singleton in Hy as ->; lia|].
  assert (fold_left Z.min l (x `min` z) <= x `min` z) as H by (apply IH; by left).
  apply elem_of_cons in Hy as [->|[->|Hy]%elem_of_cons]; [lia|lia|]. apply IH. by right.
Qed.

Lemma fold_calls powf id now d : dr_policy_calls (fold_attempt powf id now d) <= dr_policy_calls d + 1.
Proof.
  unfold fold_attempt. destruct (dr_attempts d !! id) as [r|]; [|lia].
  destruct (ar_outcome r) as [[]|], (ar_consumed r) as [[]|], (ar_sample r); simpl; try lia. destruct (record_sample _ _ _ _ _ _). simpl. lia.
Qed.

Lemma settle_calls powf key id c outcome info now d : dr_policy_calls (settle_attempt powf key id c outcome info now d) <= dr_policy_calls d + 2.
Proof.
  unfold settle_attempt. simpl. destruct (dr_attempts d !! id); simpl; [|lia]. etransitivity; [apply fold_calls|]. simpl. lia.
Qed.

Lemma complete_calls powf key id r info now later d :
  dr_policy_calls (complete_transfer powf key id r info now later d).1 <= dr_policy_calls d + 2.
Proof.
  unfold complete_transfer. destruct (dr_pools d !! key) as [pool|]; [|simpl; lia]. destruct (pl_active pool !! id) as [t|]; [|simpl; lia].
  cbn zeta. set (d1 := match at_candidate t with Some c => _ | None => d end).
  assert (dr_policy_calls d1 <= dr_policy_calls d + 2) as H by (unfold d1; destruct (at_candidate t); [apply settle_calls|lia]).
  destruct (wants_retry _ _ _ _) as [[retry error]|]; simpl; [done|]. by destruct (hp_published _).
Qed.

(** ** Theorems *)

Section Theorems.
  Context (powf : f64 -> f64 -> f64).
  Context (parse_url : rstr -> option (rstr * option rstr * option Z)).
  Context (show_key : PoolKey -> rstr).
  Context (drain : gmap Z ActiveTransfer -> list (Z * ActiveTransfer)).
  Context (config : DriverConfig).
  Hypothesis drain_all : forall active, drain active ≡ₚ map_to_list active.

#[local] Abbreviation driver_run := (driver_run powf parse_url show_key drain config).

(** C25: The occupancy of every address is the number of transfers pinned to it.  In every
    run of the driver, through refused handles, completions, internal retries,
    cancellations and broken pools, the address policy counts for an address exactly the
    transfers of the pool that hold a reservation on it: no path that ends an attempt
    forgets the reservation or gives it back twice. *)
Theorem driver_reservations_exact d key a :
  driver_run d -> dr_policy_calls d <= 2 ^ 64 -> in_flight_of (dr_policy d) key a = pinned_to d key a.
Proof.
  intros Hr Hlt. pose proof (ok_counts _ _ (run_ok _ _ _ _ _ drain_all d Hr)) as Hc.
  rewrite (Counts_flight _ _ _ _ Hc Hlt). apply claims_pinned.
Qed.

Lemma cancel_fields now its : forall d, let d' := fold_left (cancel_one now) its d in
  dr_started d' = dr_started d /\ dr_gone d' = dr_gone d /\ dr_queue d' = dr_queue d /\ dr_pools d' = dr_pools d.
Proof.
  induction its as [|[key [id t]] its IH]; intros d; cbn zeta; [done|]. cbn [fold_left]. destruct (IH (cancel_one now d (key, (id, t)))) as (-> & -> & -> & ->).
  unfold cancel_one. by destruct (at_candidate t).
Qed.

Lemma drop_records_ok out d : dr_pools d = ∅ -> Driver_ok out d -> Driver_ok out (set_attempts ∅ d).
Proof.
  intros Ep [Hr Hu Ho [Hqn Hq] Hb He Hh Hc Hp Hk]. split; simpl; try done.
  - intros k i t (p & E & _). by rewrite Ep in E.
  - split; [done|]. intros i Hi. destruct (Hq i Hi) as (H1 & H2 & H3 & H4). by rewrite lookup_empty.
Qed.

(** The pools are drained and every transfer of them is cancelled. *)
Lemma exit_cancelled keys now d :
  driver_run d -> keys ≡ₚ elements (dom (dr_pools d)) ->
  let d1 := set_attempts ∅ (fold_left (cancel_one now) (flights_of drain keys (dr_pools d)) (set_pools ∅ d)) in
  Driver_ok [] d1 /\ dr_started d1 = dr_started d /\ dr_gone d1 = dr_gone d /\ dr_pools d1 = ∅.
Proof.
  intros Hr Hk. cbn zeta. rewrite cancel_attempts. destruct (cancel_fields now (flights_of drain keys (dr_pools d)) (set_attempts ∅ (set_pools ∅ d))) as (-> & -> & _ & ->).
  split; [|done]. apply cancel_all_ok; [done|]. apply drop_records_ok; [done|].
  assert (forall k, k ∈ keys <-> is_Some (dr_pools d !! k)) as Hkeys by (intros k; by rewrite Hk, elem_of_elements, elem_of_dom).
  pose proof (take_keys drain drain_all keys [] d) as H. rewrite foldr_delete_all, app_nil_r in H by (intros k; apply Hkeys).
  apply H; [|by apply (run_ok powf parse_url show_key drain config)]. rewrite Hk. apply NoDup_elements.
Qed.

(** C26: No caller is left waiting.  A transfer that was submitted is in the queue, runs, or
    has its answer: the channel of its head is resolved and its body has ended (while a
    queue that was closed waits for the thread to end, the body of a dropped submission
    is among the sinks that are failed then).  When the thread ends, every submission
    has its answer, every body whose caller is still there has ended, and every
    reservation is given back. *)
Theorem callers_always_answered d keys now id :
  driver_run d -> keys ≡ₚ elements (dom (dr_pools d)) -> id ∈ dr_started d ->
  (id ∈ submitted (dr_queue d) \/ (exists key t, running (dr_pools d) key id t) \/
   (is_Some (dr_heads d !! id) /\ (terminated d id \/ id ∈ dr_sinks d \/ id ∈ dr_gone d))) /\
  let d' := exit_driver drain keys now d in
  is_Some (dr_heads d' !! id) /\ (terminated d' id \/ id ∈ dr_gone d).
Proof.
  intros Hr Hk Hid. split.
  - pose proof (run_ok _ _ _ _ _ drain_all d Hr) as Hok.
    destruct (ok_ended _ _ Hok id Hid) as [|[|[[]%not_elem_of_nil|H]]]; [by left|by right; left|do 2 right; split; [done|]]. by apply (ok_heads _ _ Hok).
  - cbn zeta. unfold exit_driver. fold (flights_of drain keys (dr_pools d)).
    destruct (exit_cancelled keys now d Hr Hk) as (Hok & Es & Eg & Ep). set (d1 := set_attempts ∅ _) in *. cbn zeta.
    destruct (finish_all_ended (BodyFailed Other None (str "libcurl driver exited")) now (elements (dr_sinks d1)) (set_sinks ∅ d1)) as (F1 & F2 & F3 & F4 & F5 & F6 & F7);
      [apply (ok_bodies _ _ Hok)|]. set (d2 := fold_left _ _ (set_sinks ∅ d1)) in *.
    unfold close_queue. destruct (drop_commands (drop 0 (dr_queue d2)) (set_queue (take 0 (dr_queue d2)) true d2)) as (D1 & D2 & D3 & D4 & D5).
    rewrite <- Es in Hid. assert (id ∈ dr_sinks d1 -> terminated d2 id) as Hsink by (intros H; by apply F2; [apply elem_of_elements|]).
    assert (forall P : Prop, (id ∈ dr_sinks d1 \/ id ∈ dr_gone d1) -> terminated d2 id \/ id ∈ dr_gone d) as Hend by (intros P [|]; [left; auto|right; by rewrite <- Eg]).
    destruct (ok_ended _ _ Hok id Hid) as [H|[(k & t & p & E & _)|[[]%not_elem_of_nil|H]]].
    + split; [apply D5; right; simpl; rewrite F5; exact H|]. destruct (proj2 (ok_queue _ _ Hok) id H) as (_ & _ & _ & Hs).
      destruct (Hend True Hs); [left; by apply D1|by right].
    + by rewrite Ep in E.
    + split; [apply D5; left; simpl; rewrite F4; exact H|]. destruct (ok_heads _ _ Hok id H) as [_ [Ht|Hs]]; [left; by apply D1, F1|].
      destruct (Hend True Hs); [left; by apply D1|by right].
Qed.

Lemma safe_connect_spec code published request_bytes finished :
  is_safe_connect_failure code published request_bytes finished = true ->
  published = false /\ request_bytes = Some 0 /\ (code ∈ [5; 6; 7; 35] \/ (code = 28 /\ finished = Some 0)).
Proof.
  unfold is_safe_connect_failure. rewrite !andb_true_iff, orb_true_iff, andb_true_iff, existsb_exists, !bool_decide_eq_true, negb_true_iff, Z.eqb_eq.
  intros [[H1 H2] [(c & Hc & ->%Z.eqb_eq)|H3]]; split_and!; try done; [left; by apply list_elem_of_In|by right].
Qed.

(** C27: A request is re-attempted only while it cannot have reached the origin.  When the
    driver goes on to another address by itself, libcurl sent no byte of the request, no
    head was published, the connection failed before it was set up, the caller's
    deadline is ahead and fewer than three attempts were made; and in every run a pinned
    transfer has made at least one and at most three. *)
Theorem connect_retry_safe d key id r info now later d' request :
  driver_run d -> complete_transfer powf key id r info now later d = (d', Some request) ->
  ti_request_bytes info = Some 0 /\ now < rs_deadline (rq_state request) /\
  (exists t code message, running (dr_pools d) key id t /\ hp_published (at_head t) = false /\ hp_sent (at_head t) = None /\
     at_retry t = Some (rq_state request) /\ r = Err (code, message) /\
     (code ∈ [5; 6; 7; 35] \/ (code = 28 /\ ti_connect_finished info = Some 0))) /\
  1 <= rs_attempts (rq_state request) < rs_max_attempts (rq_state request) /\
  rs_max_attempts (rq_state request) <= MAX_INTERNAL_CONNECT_ATTEMPTS.
Proof.
  intros Hr E. pose proof (run_ok _ _ _ _ _ drain_all d Hr) as Hok. destruct (complete_transfer_ok powf _ _ _ _ _ _ _ _ _ Hok E) as (_ & _ & H3 & H4).
  unfold complete_transfer in E. destruct (dr_pools d !! key) as [pool|] eqn:Ek; [|done]. destruct (pl_active pool !! id) as [t|] eqn:Et; [|done].
  cbn zeta in E. destruct (wants_retry _ _ _ _) as [[retry error]|] eqn:Ew; [|done]. injection E as _ <-. cbn [rq_state] in *.
  apply wants_retry_spec in Ew as (E1 & E2 & _ & Hlt & Hs).
  assert (running (dr_pools d) key id t) as Hrun by (by exists pool). destruct (ok_running _ _ Hok _ _ _ Hrun) as (_ & _ & _ & _ & [Hp1 Hp2] & _).
  destruct (terminal_of id (hp_published (at_head t)) r) as [| |kind code message] eqn:Eterm; try done. simpl in E2.
  destruct r as [|[code0 message0]]; [done|]. injection Eterm as _ <- _. cbn [default] in E2.
  destruct (is_safe_connect_failure _ _ _ _) eqn:Esafe; [|done]. apply safe_connect_spec in Esafe as (Epub & Hreq & Hcode).
  split_and!; try done; try lia. exists t, code0, message0. split_and!; try done. apply eq_None_not_Some. intros H%Hp2. by rewrite Hs in H.
Qed.
(** A record of an attempt is kept only as long as something is to be reported: while
    its transfer runs, with the claim the transfer holds, or after libcurl has finished it
    and the caller was answered, until the consumer is done with the body. *)
Theorem attempt_records_accounted d id r :
  driver_run d -> dr_attempts d !! id = Some r ->
  (exists t, running (dr_pools d) (ar_pool r) id t /\ at_candidate t = Some (ar_claim r) /\ ar_outcome r = None) \/
  (is_Some (ar_outcome r) /\ ar_consumed r = None /\ exists v, dr_heads d !! id = Some (Some v)).
Proof.
  intros Hr Hrec. pose proof (run_ok _ _ _ _ _ drain_all d Hr) as Hok. destruct (ok_records _ _ Hok id r Hrec) as [(k & t & H)|[[]%not_elem_of_nil|H]]; [left|by right].
  destruct (ok_running _ _ Hok k id t H) as (_ & _ & _ & _ & _ & Ht). destruct (at_candidate t) as [c|] eqn:Ec, (at_retry t) as [st|]; try done.
  - destruct Ht as (_ & _ & _ & r' & E & <- & <- & Eo). rewrite Hrec in E. injection E as <-. by exists t.
  - destruct Ht as [_ E]. by rewrite Hrec in E.
Qed.

(** The handlers never panic: every command and every completion is handled, whatever
    libcurl answers. *)
Theorem handlers_never_panic d c rest now answers key id r info later retry_now start :
  driver_run d -> dr_policy_calls d + 4 <= 2 ^ 64 ->
  (dr_queue d = c :: rest -> is_Some (handle_command powf parse_url show_key config c now answers (set_queue rest (dr_closed d) d))) /\
  is_Some (finish_transfer powf config key id r info now later retry_now start d).
Proof.
  intros Hr Hlt. pose proof (run_ok _ _ _ _ _ drain_all d Hr) as Hok. split.
  - intros Hq. destruct c as [i o|i|i|i consumed sample]; simpl; try by eexists. unfold start_transfer.
    destruct (reserve_returns powf o (pool_key parse_url o) now None (count count_command (set_queue rest (dr_closed d) d)) (claims_of [] ++ active_claims (dr_pools d))) as [[reserved d1] E].
    + by apply (Counts_policy d), (ok_counts _ _ Hok).
    + simpl. lia.
    + rewrite E. simpl. by destruct reserved; eexists.
  - unfold finish_transfer. destruct (complete_transfer powf key id r info now later d) as [d1 [q|]] eqn:E; [|by eexists].
    destruct (complete_transfer_ok powf _ _ _ _ _ _ _ _ _ Hok E) as (H1 & _ & _ & _). pose proof (complete_calls powf key id r info now later d) as Hc. rewrite E in Hc. simpl in Hc.
    unfold start_retry. cbn zeta. destruct (_ =? 0); [by eexists|]. set (o := set_timeouts _ _ _).
    destruct (reserve_returns powf o (rq_pool q) retry_now (Some (rq_state q)) d1 _ (ok_counts _ _ H1) ltac:(lia)) as [[reserved d2] ->]. simpl.
    by destruct reserved as [[pin|]|]; eexists.
Qed.

(** What reclamation leaves: after it every pool without a transfer may reuse its
    connections, has been idle for less than the timeout, and none of its known sockets
    is older than that. *)
Theorem idle_pools_reclaimed d now key pool :
  driver_run d -> dr_pools (reclaim_idle_pools config now now d) !! key = Some pool -> pl_active pool = ∅ ->
  (0 < dc_max_idle_per_host config)%nat /\
  (exists since, pl_idle_since pool = Some since /\ now < since + dc_pool_idle_timeout config) /\
  (forall since, since ∈ pinned_dates pool -> now < since + dc_pool_idle_timeout config).
Proof.
  intros Hr Hpool Ha. pose proof (run_ok _ _ _ _ _ drain_all d Hr) as Hok. simpl in Hpool.
  apply map_lookup_filter_Some in Hpool as [Hpool Hkeep]. simpl in Hkeep. unfold keeps_pool in Hkeep.
  rewrite bool_decide_true in Hkeep by done. destruct (_ && _); [done|]. unfold idle_deadline in Hkeep.
  rewrite bool_decide_true in Hkeep by done. simpl in Hkeep. destruct (Nat.eqb_spec (dc_max_idle_per_host config) 0) as [E|Hne].
  { simpl in Hkeep. by rewrite Z.leb_refl in Hkeep. }
  destruct (pl_idle_since pool) as [since|] eqn:Es; [|by apply (ok_pools _ _ Hok _ _ Hpool) in Es].
  simpl in Hkeep. apply negb_true_iff, Z.leb_gt in Hkeep.
  assert (forall x, x ∈ since :: pinned_dates pool -> now < x + dc_pool_idle_timeout config) as H.
  { intros x Hx. pose proof (fold_min_le _ _ _ Hx) as Hm. lia. }
  split_and!; [lia| |].
  - exists since. split; [done|]. apply H. by left.
  - intros x Hx. apply H. by right.
Qed.
End Theorems.

(** ** A run *)

Module DemoDriver.

Definition power (base exponent : f64) : f64 := base.
Definition parse_url (url : rstr) : option (rstr * option rstr * option Z) := None.
Definition show_key (key : PoolKey) : rstr := pk_origin key.
Definition drain (active : gmap Z ActiveTransfer) : list (Z * ActiveTransfer) := map_to_list active.
Definition config : DriverConfig := mkDriverConfig 4 (30 * NANOS_PER_SEC) None.

Lemma drain_all active : drain active ≡ₚ map_to_list active.
Proof. done. Qed.

Definition url : rstr := str "http://example.com/file".
Definition key : PoolKey := mkPoolKey url None.
Definition candidates : CandidateSet := mkCandidateSet (str "example.com") 80 [V4 1; V4 2] (60 * NANOS_PER_SEC).
Definition options : RequestOptions :=
  mkRequestOptions url None [] None (10 * NANOS_PER_SEC) (10 * NANOS_PER_SEC) false None (Some candidates) None None None None None.

Definition fine : StartAnswers := mkStartAnswers None None None 1.
Definition info : TransferInfo := mkInfo 1 (Some (V4 1)) (Some 7) (Some 0) (Some 0).
Definition answers : CommandAnswers := mkCommandAnswers fine info.

Lemma returned (d : Driver) (r : option Driver) : bool_decide (is_Some r) = true -> r = Some (default d r).
Proof. destruct r; [done|]. by rewrite bool_decide_false by apply is_Some_None. Qed.

(** A request is submitted and started, pinned to the first address. *)
Definition d1 : Driver := submit 1 options 1024 Driver_new.
Definition d2 : Driver :=
  default Driver_new (handle_command power parse_url show_key config (Submit 1 options) 0 answers (set_queue [] false d1)).

Lemma demo_run1 : driver_run power parse_url show_key drain config d1.
Proof. eapply run_next; [apply run_new|]. apply step_submit. set_solver. Qed.

Lemma demo_run2 : driver_run power parse_url show_key drain config d2.
Proof. eapply run_next; [apply demo_run1|]. apply (step_command _ _ _ _ _ d1 (Submit 1 options) [] 0 answers); [done|]. apply returned. vm_compute. reflexivity. Qed.

(** The connection fails and the driver tries the second address. *)
Definition refused : result unit (Z * rstr) := Err (7, str "refused").
Definition retried : Driver * option RetryRequest := complete_transfer power key 1 refused info 2 3 d2.

Definition request : RetryRequest :=
  mkRetryRequest 1 key (mkRetryState options 1 2 (10 * NANOS_PER_SEC))
    (Transport Connect (str "libcurl error 7 before response headers: refused (transfer 1)")).

Lemma retried_request : retried = (retried.1, Some request).
Proof. assert (retried.2 = Some request) as <- by (vm_compute; reflexivity). apply surjective_pairing. Qed.

(** The head arrives and the transfer ends. *)
Definition d3 : Driver := receive_header key 1 (str "HTTP/1.1 200 OK") d2.
Definition d4 : Driver := receive_header key 1 [] d3.
Definition d5 : Driver := default Driver_new (finish_transfer power config key 1 (Ok ()) info 2 3 4 fine d4).

Lemma demo_run5 : driver_run power parse_url show_key drain config d5.
Proof.
  eapply run_next; [eapply run_next; [eapply run_next; [apply demo_run2|]|]|].
  - apply (step_header _ _ _ _ _ d2 key 1 (str "HTTP/1.1 200 OK")).
  - apply (step_header _ _ _ _ _ d3 key 1 []).
  - apply (step_complete _ _ _ _ _ d4 key 1 (Ok ()) info 2 3 4 fine). apply returned. vm_compute. reflexivity.
Qed.

(** The caller goes away before it takes the head. *)
Definition d6 : Driver := abandon 1 d5.
Definition d7 : Driver :=
  default Driver_new (handle_command power parse_url show_key config (Cancel 1) 5 answers (set_queue [] false d6)).

Lemma demo_run7 : driver_run power parse_url show_key drain config d7.
Proof.
  eapply run_next; [eapply run_next; [apply demo_run5|apply (step_abandon _ _ _ _ _ d5 1)]|].
  apply (step_command _ _ _ _ _ d6 (Cancel 1) [] 5 answers); [vm_compute; reflexivity|]. apply returned. vm_compute. reflexivity.
Qed.

End DemoDriver.

(** A record can be left behind.  When the caller goes away after its transfer has
    finished and before it took the head, nothing runs, nothing is queued and no body
    stream exists that could report its end, but the record of the attempt stays. *)
Theorem abandoned_head_leaks_record :
  exists d, driver_run DemoDriver.power DemoDriver.parse_url DemoDriver.show_key DemoDriver.drain DemoDriver.config d /\
    dr_queue d = [] /\ (forall key id t, ~ running (dr_pools d) key id t) /\ 1 ∈ dr_gone d /\ is_Some (dr_attempts d !! 1).
Proof.
  exists DemoDriver.d7. split_and!; [apply DemoDriver.demo_run7|reflexivity| | |].
  - intros key id t (p & E & H). apply elem_of_map_to_list in E. vm_compute (map_to_list _) in E. apply list_elem_of_singleton in E as [= -> ->].
    vm_compute in H. done.
  - by vm_compute.
  - vm_compute. by eexists.
Qed.

Lemma driver_reservations_exact_witness :
  in_flight_of (dr_policy DemoDriver.d2) DemoDriver.key (V4 1) = pinned_to DemoDriver.d2 DemoDriver.key (V4 1) /\
  pinned_to DemoDriver.d2 DemoDriver.key (V4 1) = 1%nat.
Proof.
  split; [|reflexivity].
  apply (driver_reservations_exact _ _ _ _ _ DemoDriver.drain_all DemoDriver.d2 DemoDriver.key (V4 1) DemoDriver.demo_run2). vm_compute. discriminate.
Defined.

Lemma callers_always_answered_witness :
  is_Some (dr_heads (exit_driver DemoDriver.drain [DemoDriver.key] 9 DemoDriver.d2) !! 1) /\
  (terminated (exit_driver DemoDriver.drain [DemoDriver.key] 9 DemoDriver.d2) 1 \/ 1 ∈ dr_gone DemoDriver.d2).
Proof.
  apply (callers_always_answered _ _ _ _ _ DemoDriver.drain_all DemoDriver.d2 [DemoDriver.key] 9 1 DemoDriver.demo_run2); [|by vm_compute].
  replace (elements (dom (dr_pools DemoDriver.d2))) with [DemoDriver.key] by (vm_compute; reflexivity). reflexivity.
Defined.

Lemma connect_retry_safe_witness :
  DemoDriver.retried.2 = Some DemoDriver.request /\ 1 <= rs_attempts (rq_state DemoDriver.request) < 2.
Proof.
  split; [apply (f_equal snd DemoDriver.retried_request)|].
  apply (connect_retry_safe _ _ _ _ _ DemoDriver.drain_all DemoDriver.d2 DemoDriver.key 1 DemoDriver.refused DemoDriver.info 2 3 DemoDriver.retried.1
           DemoDriver.request DemoDriver.demo_run2 DemoDriver.retried_request).
Defined.

Lemma attempt_records_accounted_witness :
  exists r, dr_attempts DemoDriver.d5 !! 1 = Some r /\ ar_consumed r = None.
Proof.
  destruct (dr_attempts DemoDriver.d5 !! 1) as [r|] eqn:E; [|by vm_compute in E]. exists r. split; [done|].
  destruct (attempt_records_accounted _ _ _ _ _ DemoDriver.drain_all DemoDriver.d5 1 r DemoDriver.demo_run5 E) as [(t & _ & _ & H)|H]; [|apply H].
  vm_compute in E. by injection E as <-.
Defined.

Lemma handlers_never_panic_witness :
  is_Some (finish_transfer DemoDriver.power DemoDriver.config DemoDriver.key 1 DemoDriver.refused DemoDriver.info 2 3 4 DemoDriver.fine DemoDriver.d2).
Proof.
  apply (handlers_never_panic _ DemoDriver.parse_url DemoDriver.show_key _ _ DemoDriver.drain_all DemoDriver.d2 (Cancel 1) [] 2 DemoDriver.answers
    DemoDriver.key 1 DemoDriver.refused DemoDriver.info 3 4 DemoDriver.fine DemoDriver.demo_run2). vm_compute. discriminate.
Defined.

Lemma idle_pools_reclaimed_witness :
  exists pool, dr_pools (reclaim_idle_pools DemoDriver.config 9 9 DemoDriver.d5) !! DemoDriver.key = Some pool /\ (0 < 4)%nat.
Proof.
  destruct (dr_pools (reclaim_idle_pools DemoDriver.config 9 9 DemoDriver.d5) !! DemoDriver.key) as [pool|] eqn:E; [|by vm_compute in E].
  exists pool. split; [done|].
  refine (proj1 (idle_pools_reclaimed _ _ _ _ _ DemoDriver.drain_all DemoDriver.d5 9 DemoDriver.key pool DemoDriver.demo_run5 E _)).
  vm_compute in E. by injection E as <-.
Defined.
