(* ===== verification/Wakeup.v ===== *)
(** * The driver's command queue ([CommandQueue] and the waits of [run_driver] in
    [src/network/curl/driver/mod.rs])

    Tokio tasks enqueue commands while the driver thread drains them, blocks in libcurl's
    [poll] or waits on the condition variable.  Each step is one critical section or one
    call; tasks and the driver interleave.

    Of libcurl the model uses what [curl_multi_wakeup] documents: a wakeup ends the
    current [poll] of its multi handle, or the next one if none is running.  [poll] and
    the condition variable may also return at any time, for a socket or a timeout. *)

From S2P Require Import Prelude.

(** [Command]s by name; pools by the number of their [Multi]. *)
Inductive QueueCall :=
| CallSend (command : nat)
| CallClose
| CallWake.

(** Where a task is in its call: before the lock, before [wake_poll], before the
    notification of [ready], or done. *)
Inductive Caller := Entering (call : QueueCall) | WakingPoll | Notifying | Returned.

(** Where the driver is: handling what it drained, then on one of the two waits:
    [prepare_poll] before and after registering, [poll], the end of [poll]; or [wait]
    before the lock, and blocked. *)
Inductive DriverAt :=
| Draining
| Registering (pool : nat)
| Inspecting (pool : nat)
| Polling (pool : nat)
| Unregistering
| Locking
| Blocked
| Left.

Record CommandQueue := mkQueue {
  cq_commands : list nat;
  cq_closed : bool;
  cq_poll_waker : option nat;
  cq_wakeups : gset nat;
  cq_driver : DriverAt;
  cq_callers : gmap nat Caller;
  cq_accepted : list nat;
  cq_drained : list nat;
}.

Definition CommandQueue_new (callers : gmap nat Caller) : CommandQueue :=
  mkQueue [] false None ∅ Draining callers [] [].

Definition set_caller (i : nat) (c : Caller) (q : CommandQueue) : CommandQueue :=
  mkQueue (cq_commands q) (cq_closed q) (cq_poll_waker q) (cq_wakeups q) (cq_driver q) (<[i := c]> (cq_callers q)) (cq_accepted q)
    (cq_drained q).

Definition set_driver (d : DriverAt) (q : CommandQueue) : CommandQueue :=
  mkQueue (cq_commands q) (cq_closed q) (cq_poll_waker q) (cq_wakeups q) d (cq_callers q) (cq_accepted q) (cq_drained q).

Definition set_poll (waker : option nat) (wakeups : gset nat) (q : CommandQueue) : CommandQueue :=
  mkQueue (cq_commands q) (cq_closed q) waker wakeups (cq_driver q) (cq_callers q) (cq_accepted q) (cq_drained q).

(** The section of [send] and [close] under the lock of [state]. *)
Definition enter (i : nat) (call : QueueCall) (q : CommandQueue) : CommandQueue :=
  match call with
  | CallSend command =>
      if cq_closed q then set_caller i Returned q
      else set_caller i WakingPoll
             (mkQueue (cq_commands q ++ [command]) (cq_closed q) (cq_poll_waker q) (cq_wakeups q) (cq_driver q) (cq_callers q)
                (cq_accepted q ++ [command]) (cq_drained q))
  | CallClose =>
      set_caller i WakingPoll
        (mkQueue [] true (cq_poll_waker q) (cq_wakeups q) (cq_driver q) (cq_callers q) (cq_accepted q) (cq_drained q))
  | CallWake => set_caller i WakingPoll q
  end.

Definition wake_poll (q : CommandQueue) : CommandQueue :=
  match cq_poll_waker q with
  | Some pool => set_poll (cq_poll_waker q) ({[ pool ]} ∪ cq_wakeups q) q
  | None => q
  end.

(** [ready.notify_one] and [notify_all]: a notification nobody waits for is lost. *)
Definition notify (q : CommandQueue) : CommandQueue :=
  match cq_driver q with Blocked => set_driver Draining q | _ => q end.

Definition drain (q : CommandQueue) : CommandQueue :=
  mkQueue [] (cq_closed q) (cq_poll_waker q) (cq_wakeups q) (cq_driver q) (cq_callers q) (cq_accepted q)
    (cq_drained q ++ cq_commands q).

(** [!state.commands.is_empty() || state.closed] *)
Definition has_work (q : CommandQueue) : bool := negb (bool_decide (cq_commands q = [])) || cq_closed q.

Inductive queue_step (q : CommandQueue) : CommandQueue -> Prop :=
(* a task *)
| qs_enter i call : cq_callers q !! i = Some (Entering call) -> queue_step q (enter i call q)
| qs_wake_poll i : cq_callers q !! i = Some WakingPoll -> queue_step q (set_caller i Notifying (wake_poll q))
| qs_notify i : cq_callers q !! i = Some Notifying -> queue_step q (set_caller i Returned (notify q))
(* the driver drains and handles commands, and chooses how to wait *)
| qs_drain_poll pool : cq_driver q = Draining -> queue_step q (set_driver (Registering pool) (drain q))
| qs_drain_wait : cq_driver q = Draining -> queue_step q (set_driver Locking (drain q))
| qs_leave : cq_driver q = Draining -> cq_closed q = true -> queue_step q (set_driver Left (drain q))
(* [prepare_poll] *)
| qs_register pool :
    cq_driver q = Registering pool -> queue_step q (set_driver (Inspecting pool) (set_poll (Some pool) (cq_wakeups q) q))
| qs_inspect pool :
    cq_driver q = Inspecting pool -> queue_step q (set_driver (if has_work q then Unregistering else Polling pool) q)
(* [poll] ends by a wakeup, which it consumes, or by a socket or its timeout *)
| qs_woken pool :
    cq_driver q = Polling pool -> pool ∈ cq_wakeups q ->
    queue_step q (set_driver Unregistering (set_poll (cq_poll_waker q) (cq_wakeups q ∖ {[ pool ]}) q))
| qs_timeout pool : cq_driver q = Polling pool -> queue_step q (set_driver Unregistering q)
| qs_unregister : cq_driver q = Unregistering -> queue_step q (set_driver Draining (set_poll None (cq_wakeups q) q))
(* [wait] *)
| qs_lock : cq_driver q = Locking -> queue_step q (set_driver (if has_work q then Draining else Blocked) q)
| qs_wait_timeout : cq_driver q = Blocked -> queue_step q (set_driver Draining q).

(** ** Invariant *)

(** A task that has changed the queue and has not yet told the driver. *)
Definition telling (q : CommandQueue) (poll : bool) : Prop :=
  exists i c, cq_callers q !! i = Some c /\ (c = WakingPoll \/ (poll = false /\ c = Notifying)).

Record Queue_ok (q : CommandQueue) : Prop := {
  qo_waker : match cq_driver q with
             | Inspecting pool | Polling pool => cq_poll_waker q = Some pool
             | _ => True
             end;
  qo_poll : forall pool, cq_driver q = Polling pool -> has_work q = true -> pool ∈ cq_wakeups q \/ telling q true;
  qo_wait : cq_driver q = Blocked -> has_work q = true -> telling q false;
  qo_order : if cq_closed q then cq_commands q = [] /\ cq_drained q `prefix_of` cq_accepted q
             else cq_drained q ++ cq_commands q = cq_accepted q;
}.

Lemma telling_self q i b : telling (set_caller i WakingPoll q) b.
Proof. exists i, WakingPoll. split; [apply lookup_insert_eq|by left]. Qed.

(** Another task still has to tell the driver. *)
Lemma telling_other q i c c' b :
  cq_callers q !! i = Some c -> telling q b -> (c = WakingPoll -> b = true -> c' = WakingPoll) ->
  (b = false -> c = WakingPoll \/ c = Notifying -> c' = WakingPoll \/ c' = Notifying) -> telling (set_caller i c' q) b.
Proof.
  intros Hi (j & d & Hj & Hd) H1 H2. destruct (decide (i = j)) as [<-|Hne].
  - rewrite Hi in Hj. injection Hj as <-. exists i, c'. split; [apply lookup_insert_eq|]. destruct b.
    + left. destruct Hd as [->|[? _]]; [by apply H1|done].
    + destruct (H2 eq_refl) as [->| ->]; [by destruct Hd as [|[_ ?]]; [left|right]|by left|by right].
  - exists j, d. split; [|done]. cbn. by rewrite lookup_insert_ne.
Qed.

Lemma has_work_false q : has_work q = false <-> cq_commands q = [] /\ cq_closed q = false.
Proof. unfold has_work. rewrite orb_false_iff, negb_false_iff, bool_decide_eq_true. done. Qed.

(** A task entered: it is about to tell the driver, unless the queue was closed. *)
Lemma enter_ok i call q : cq_callers q !! i = Some (Entering call) -> Queue_ok q -> Queue_ok (enter i call q).
Proof.
  intros Hi [Q1 Q2 Q3 Q4]. destruct call as [command| |]; cbn [enter].
  - destruct (cq_closed q) eqn:Hc.
    + split; cbn [set_caller cq_driver cq_poll_waker cq_wakeups cq_closed cq_commands cq_drained cq_accepted]; [done| | |by rewrite Hc].
      * intros pool Hd Hw. destruct (Q2 pool Hd Hw) as [|Ht]; [by left|right]. by apply (telling_other q i (Entering (CallSend command))); [| |done|intros _ [|]].
      * intros Hd Hw. by apply (telling_other q i (Entering (CallSend command))); [|apply Q3| |intros _ [|]].
    + split; [done|intros; right; apply telling_self|intros; apply telling_self|]. cbn. by rewrite app_assoc, Q4.
  - split; [done|intros; right; apply telling_self|intros; apply telling_self|]. cbn. split; [done|].
    destruct (cq_closed q); [by destruct Q4|]. rewrite <- Q4. by apply prefix_app_r.
  - split; [done|intros; right; apply telling_self|intros; apply telling_self|done].
Qed.

Lemma wake_poll_ok i q : cq_callers q !! i = Some WakingPoll -> Queue_ok q -> Queue_ok (set_caller i Notifying (wake_poll q)).
Proof.
  intros Hi [Q1 Q2 Q3 Q4]. assert (cq_driver (wake_poll q) = cq_driver q /\ cq_poll_waker (wake_poll q) = cq_poll_waker q /\
    has_work (wake_poll q) = has_work q /\ cq_callers (wake_poll q) = cq_callers q) as (E1 & E2 & E3 & E4)
    by (unfold wake_poll; by destruct (cq_poll_waker q) eqn:E).
  split.
  - change (cq_driver (set_caller _ _ (wake_poll q))) with (cq_driver (wake_poll q)). change (cq_poll_waker (set_caller _ _ (wake_poll q))) with (cq_poll_waker (wake_poll q)).
    by rewrite E1, E2.
  - intros pool Hd _. left. change (cq_driver (wake_poll q) = Polling pool) in Hd. rewrite E1 in Hd. rewrite Hd in Q1. unfold wake_poll. rewrite Q1. cbn. set_solver.
  - intros Hd Hw. exists i, Notifying. split; [apply lookup_insert_eq|by right].
  - unfold wake_poll. by destruct (cq_poll_waker q).
Qed.

Lemma notify_ok i q : cq_callers q !! i = Some Notifying -> Queue_ok q -> Queue_ok (set_caller i Returned (notify q)).
Proof.
  intros Hi [Q1 Q2 Q3 Q4]. unfold notify. destruct (cq_driver q) eqn:Hd;
    (split; cbn [set_caller set_driver cq_driver cq_poll_waker cq_wakeups cq_closed cq_commands cq_drained cq_accepted];
     [rewrite ?Hd; done| | |done]); rewrite ?Hd; try done.
  intros pool' [= <-] Hw. destruct (Q2 pool eq_refl Hw) as [|Ht]; [by left|right].
  by apply (telling_other q i Notifying).
Qed.

(** The driver leaves its waits. *)
Lemma awake_ok q q' :
  match cq_driver q' with Inspecting _ | Polling _ | Blocked => False | _ => True end ->
  cq_commands q' = cq_commands q -> cq_closed q' = cq_closed q -> cq_drained q' = cq_drained q -> cq_accepted q' = cq_accepted q ->
  Queue_ok q -> Queue_ok q'.
Proof.
  intros Hd E1 E2 E3 E4 [_ _ _ Q4]. split; [by destruct (cq_driver q')| | |by rewrite E1, E2, E3, E4]; [intros pool E|intros E]; by rewrite E in Hd.
Qed.

Lemma drain_ok d q :
  match d with Inspecting _ | Polling _ | Blocked => False | _ => True end -> Queue_ok q -> Queue_ok (set_driver d (drain q)).
Proof.
  intros Hd [_ _ _ Q4]. split; cbn; [by destruct d|intros pool ->; done|intros ->; done|]. destruct (cq_closed q).
  - destruct Q4 as [-> Q4]. by rewrite app_nil_r.
  - by rewrite app_nil_r.
Qed.

Lemma queue_step_ok q q' : queue_step q q' -> Queue_ok q -> Queue_ok q'.
Proof.
  intros Hs Q. pose proof Q as [Q1 Q2 Q3 Q4]. destruct Hs as [i call Hi|i Hi|i Hi|pool Hd|Hd|Hd Hc|pool Hd|pool Hd|pool Hd Hp|pool Hd|Hd|Hd|Hd].
  - by apply enter_ok.
  - by apply wake_poll_ok.
  - by apply notify_ok.
  - by apply drain_ok.
  - by apply drain_ok.
  - by apply drain_ok.
  - by split.
  - destruct (has_work q) eqn:Hw; [by apply (awake_ok q)|]. rewrite Hd in Q1. split; cbn; [done| |done|done].
    intros p _ Hw'. change (has_work q = true) in Hw'. congruence.
  - by apply (awake_ok q).
  - by apply (awake_ok q).
  - by apply (awake_ok q).
  - destruct (has_work q) eqn:Hw; [by apply (awake_ok q)|]. split; cbn; [done|done| |done].
    intros _ Hw'. change (has_work q = true) in Hw'. congruence.
  - by apply (awake_ok q).
Qed.

(** ** No wakeup is lost *)

(** C28: A command never waits for a timeout.  However tasks and the driver interleave,
    when a command or the closing of the queue is waiting while the driver is blocked in
    libcurl's [poll] or on the condition variable, then either the wakeup of that very
    [poll] is already set, or the task that enqueued is still about to wake the driver.
    Commands are drained in the order they were accepted, each once; closing drops the
    rest. *)
Theorem no_lost_wakeup callers q :
  rtc queue_step (CommandQueue_new callers) q ->
  (has_work q = true ->
   match cq_driver q with
   | Polling pool => pool ∈ cq_wakeups q \/ exists i, cq_callers q !! i = Some WakingPoll
   | Blocked => exists i c, cq_callers q !! i = Some c /\ (c = WakingPoll \/ c = Notifying)
   | _ => True
   end) /\
  cq_drained q `prefix_of` cq_accepted q /\ (cq_closed q = false -> cq_drained q ++ cq_commands q = cq_accepted q).
Proof.
  intros R. assert (Queue_ok q) as [Q1 Q2 Q3 Q4].
  { refine (rtc_ind_r Queue_ok _ _ _ q R); [by split|]. intros y z _ Hs. by apply queue_step_ok. }
  split_and!.
  - intros Hw. destruct (cq_driver q) as [| | |pool| | | |] eqn:Hd; try done.
    + destruct (Q2 pool eq_refl Hw) as [|(i & c & Hi & [->|[? _]])]; [by left|right; by exists i|done].
    + destruct (Q3 eq_refl Hw) as (i & c & Hi & Hc). exists i, c. split; [done|]. destruct Hc as [|[_ ?]]; [by left|by right].
  - destruct (cq_closed q); [by destruct Q4|]. rewrite <- Q4. by apply prefix_app_r.
  - intros Hc. by rewrite Hc in Q4.
Qed.

(** A command sent while the driver enters [poll]. *)
Definition demo_queue : CommandQueue :=
  mkQueue [7%nat] false (Some 0%nat) {[ 0%nat ]} (Polling 0) {[ 0%nat := Notifying ]} [7%nat] [].

Lemma no_lost_wakeup_witness :
  has_work demo_queue = true /\ (0%nat ∈ cq_wakeups demo_queue \/ exists i, cq_callers demo_queue !! i = Some WakingPoll).
Proof.
  split; [reflexivity|].
  refine (proj1 (no_lost_wakeup {[ 0%nat := Entering (CallSend 7) ]} demo_queue _) eq_refl).
  eapply rtc_l; [by apply (qs_drain_poll _ 0)|]. eapply rtc_l; [by apply (qs_register _ 0)|]. eapply rtc_l; [by apply (qs_inspect _ 0)|].
  eapply rtc_l; [by apply (qs_enter _ 0 (CallSend 7))|]. eapply rtc_l; [by apply (qs_wake_poll _ 0)|].
  match goal with |- rtc _ ?x _ => replace x with demo_queue; [apply rtc_refl|] end.
  vm_compute. reflexivity.
Defined.
