(* ===== verification/Pending.v ===== *)
(** * Recovered ranges ([PendingPiece] and [PendingRange] of [src/session/multi/worker.rs])

    The unfinished part of an interrupted request waits as a range of pieces until a
    worker takes a prefix of it that suits the free request slots. *)

From S2P Require Import Prelude PieceMap Ranges Segment Scheduler SchedInv SchedSpec Planner Reserve Assign.

Record PendingPiece := mkPendingPiece {
  pp_piece : nat;
  pp_start : Z;
  pp_end : Z;
}.

Definition pp_len (p : PendingPiece) : Z := sat_sub64 (pp_end p) (pp_start p).

Record PendingRange := mkPendingRange {
  pr_pieces : list PendingPiece;
  pr_request_cap : Z;
  pr_split_min_size : option Z;
}.

Definition pr_single (piece : nat) (start end_ request_cap : Z) : PendingRange :=
  mkPendingRange [mkPendingPiece piece start end_] request_cap None.

Definition pr_is_empty (r : PendingRange) : bool := match pr_pieces r with [] => true | _ => false end.

Definition total_len (r : PendingRange) : Z := fold_left (fun total piece => sat_add64 total (pp_len piece)) (pr_pieces r) 0.

Definition set_pending_pieces (pieces : list PendingPiece) (r : PendingRange) : PendingRange :=
  mkPendingRange pieces (pr_request_cap r) (pr_split_min_size r).

(** ** Collecting segments *)

Definition piece_of_segment (g : Segment) : PendingPiece := mkPendingPiece (seg_piece_id g) (seg_start g) (seg_end g).

(** One iteration of [from_segments]; the ranges so far, the last one first. *)
Definition collect_segment (request_cap : Z) (split_min_size : option Z) (ranges : list PendingRange) (segment : Segment)
    : list PendingRange :=
  let piece := piece_of_segment segment in
  let fresh := mkPendingRange [piece] request_cap split_min_size in
  match ranges with
  | range :: rest =>
      match last (pr_pieces range) with
      | Some l =>
          if (pp_piece l + 1 =? pp_piece piece)%nat && (pp_end l =? pp_start piece)
          then set_pending_pieces (pr_pieces range ++ [piece]) range :: rest
          else fresh :: ranges
      | None => fresh :: ranges
      end
  | [] => [fresh]
  end.

Definition pending_of_segments (segments : list Segment) (request_cap : Z) (split_min_size : option Z) : list PendingRange :=
  reverse (fold_left (collect_segment request_cap split_min_size) segments []).

(** ** Taking a prefix *)

(** The loop of [take_prefix]: the pieces left, the pieces selected and their length. *)
Fixpoint take_loop (fuel : nat) (cap target : Z) (pieces selected : list PendingPiece) (selected_len : Z)
    : list PendingPiece * list PendingPiece :=
  match fuel with
  | O => (selected, pieces)
  | S fuel =>
      match pieces with
      | [] => (selected, [])
      | next :: rest =>
          if negb (bool_decide (selected = [])) && negb (cap =? 0) && (cap <? sat_add64 selected_len (pp_len next))
          then (selected, pieces)
          else
            let selected_len := sat_add64 selected_len (pp_len next) in
            let selected := selected ++ [next] in
            if target <=? selected_len then (selected, rest) else take_loop fuel cap target rest selected selected_len
      end
  end.

(** The arm of [take_prefix] for a piece that may be split. *)
Definition take_split (slots : nat) (min_split_size : Z) (r : PendingRange) : list PendingPiece * PendingRange :=
  match pr_pieces r with
  | [] => ([], r)
  | piece :: rest =>
      let requested_split := Z.max (div_ceil (pp_len piece) (Z.max (Z.of_nat slots) 1)) (Z.max min_split_size 1) in
      let cap_limited := negb (pr_request_cap r =? 0) && (pr_request_cap r <? requested_split) in
      let split := if pr_request_cap r =? 0 then requested_split else Z.min requested_split (pr_request_cap r) in
      if (pp_len piece <=? split) || ((pp_len piece ⊖ split <? min_split_size) && negb cap_limited)
      then ([piece], set_pending_pieces rest r)
      else
        let selected := mkPendingPiece (pp_piece piece) (pp_start piece) (pp_start piece ⊕ split) in
        ([selected], set_pending_pieces (mkPendingPiece (pp_piece piece) (pp_end selected) (pp_end piece) :: rest) r)
  end.

Definition take_prefix (slots : nat) (r : PendingRange) : list PendingPiece * PendingRange :=
  match pr_split_min_size r with
  | Some min_split_size => take_split slots min_split_size r
  | None =>
      if pr_request_cap r =? 0 then
        match pr_pieces r with
        | [] => ([], r)
        | piece :: rest => ([piece], set_pending_pieces rest r)
        end
      else
        let target := div_ceil (total_len r) (Z.max (Z.of_nat slots) 1) in
        let '(selected, rest) := take_loop MAX_REQUEST_LEASES (pr_request_cap r) target (pr_pieces r) [] 0 in
        (selected, set_pending_pieces rest r)
  end.

Definition prepend (pieces : list PendingPiece) (r : PendingRange) : PendingRange :=
  set_pending_pieces (pieces ++ pr_pieces r) r.

(** The ranges [assign_recovery_batch] is called with. *)
Definition pp_shape (p : PendingPiece) : nat * Z * Z := (pp_piece p, pp_start p, pp_end p).

(** ** Well-formed ranges *)

Definition piece_ok (p : PendingPiece) : Prop := 0 <= pp_start p < pp_end p /\ pp_end p <= u64_max.

Record Range_wf (r : PendingRange) : Prop := {
  rw_pieces : Forall piece_ok (pr_pieces r);
  rw_cap : 0 <= pr_request_cap r;
  rw_shape : match pr_split_min_size r with
             | None => chained None (pp_shape <$> pr_pieces r)
             | Some min => 0 <= min
             end;
}.

(** A byte of a piece that a list of pieces holds. *)
Definition holds (l : list PendingPiece) (i : nat) (b : Z) : Prop :=
  exists p, p ∈ l /\ pp_piece p = i /\ pp_start p <= b < pp_end p.

(** How the selected pieces and the rest make up the range: one after the other, or the
    two parts of its first piece. *)
Inductive Parted (l : list PendingPiece) : list PendingPiece -> list PendingPiece -> Prop :=
| parted_whole sel rest : l = sel ++ rest -> Parted l sel rest
| parted_piece i a m e rest : l = mkPendingPiece i a e :: rest -> a < m < e ->
    Parted l [mkPendingPiece i a m] (mkPendingPiece i m e :: rest).

Lemma take_loop_spec fuel cap target pieces selected len sel rest :
  take_loop fuel cap target pieces selected len = (sel, rest) ->
  exists more, sel = selected ++ more /\ pieces = more ++ rest /\ (length more <= fuel)%nat.
Proof.
  revert pieces selected len. induction fuel as [|fuel IH]; intros pieces selected len E; cbn [take_loop] in E.
  { injection E as <- <-. exists []. by rewrite app_nil_r. }
  destruct pieces as [|next pieces]; [injection E as <- <-; exists []; rewrite app_nil_r; split_and!; [done|done|simpl; lia]|].
  destruct (_ && _); [injection E as <- <-; exists []; rewrite app_nil_r; split_and!; [done|done|simpl; lia]|].
  destruct (_ <=? _); [injection E as <- <-; exists [next]; split_and!; [done|done|simpl; lia]|].
  apply IH in E as (more & -> & -> & Hl). exists (next :: more). rewrite <- app_assoc. split_and!; [done|done|simpl; lia].
Qed.

(** The first piece is always taken. *)
Lemma take_loop_progress fuel cap target p pieces sel rest :
  take_loop (S fuel) cap target (p :: pieces) [] 0 = (sel, rest) -> sel <> [].
Proof.
  cbn [take_loop]. change (negb (bool_decide (@nil PendingPiece = []))) with false. cbn [andb].
  destruct (_ <=? _); [by intros [= <- _]|]. intros E. apply take_loop_spec in E as (more & -> & _). done.
Qed.

Lemma pp_len_exact p : piece_ok p -> pp_len p = pp_end p - pp_start p.
Proof. intros [H _]. unfold pp_len, sat_sub64. lia. Qed.

Lemma take_split_spec slots min r sel r' :
  Forall piece_ok (pr_pieces r) -> 0 <= min -> 0 <= pr_request_cap r -> pr_pieces r <> [] -> take_split slots min r = (sel, r') ->
  Parted (pr_pieces r) sel (pr_pieces r') /\ length sel = 1%nat /\ r' = set_pending_pieces (pr_pieces r') r /\
  (length (pr_pieces r') <= length (pr_pieces r))%nat /\
  (pr_request_cap r <> 0 -> Forall (fun p => pp_len p < pr_request_cap r + Z.max min 1) sel).
Proof.
  intros Hp Hm Hc Hne. unfold take_split. destruct (pr_pieces r) as [|piece rest] eqn:El; [done|].
  apply Forall_cons in Hp as [Hp _]. pose proof Hp as [Hp1 Hp2]. rewrite (pp_len_exact piece Hp).
  set (requested := Z.max (div_ceil _ _) _). set (split := if pr_request_cap r =? 0 then _ else _).
  destruct ((_ <=? split) || _) eqn:Ed; intros [= <- <-]; cbn [pr_pieces set_pending_pieces].
  - split_and!; [by apply parted_whole|done|done|simpl; lia|]. intros Hcap. apply Forall_singleton. rewrite (pp_len_exact piece Hp).
    subst split. rewrite (proj2 (Z.eqb_neq _ _) Hcap) in Ed. apply orb_true_iff in Ed as [Ed%Z.leb_le|Ed]; [lia|].
    apply andb_true_iff in Ed as [Ed%Z.ltb_lt Ec]. apply negb_true_iff, andb_false_iff in Ec as [Ec|Ec].
    { done. }
    apply Z.ltb_ge in Ec. rewrite (Z.min_l requested) in Ed by lia. assert (1 <= requested) by lia.
    destruct (Z.le_gt_cases (pp_end piece - pp_start piece) requested); [lia|]. rewrite u64_sub_exact in Ed by (unfold u64_max in *; lia). lia.
  - apply orb_false_iff in Ed as [Ed%Z.leb_gt _].
    assert (1 <= split) as Hs by (subst split; destruct (Z.eqb_spec (pr_request_cap r) 0); lia).
    rewrite u64_add_exact by (unfold u64_max in *; lia). split_and!; [|done|done|done|].
    + apply parted_piece; [by destruct piece|lia].
    + intros Hcap. apply Forall_singleton. unfold pp_len, sat_sub64. simpl. subst split. rewrite (proj2 (Z.eqb_neq _ _) Hcap) in *. lia.
Qed.

Lemma take_prefix_spec slots r sel r' :
  Range_wf r -> pr_pieces r <> [] -> take_prefix slots r = (sel, r') ->
  Parted (pr_pieces r) sel (pr_pieces r') /\ sel <> [] /\ (length sel <= MAX_REQUEST_LEASES)%nat /\
  r' = set_pending_pieces (pr_pieces r') r /\ (length (pr_pieces r') <= length (pr_pieces r))%nat /\
  (pr_split_min_size r = None -> pr_pieces r = sel ++ pr_pieces r').
Proof.
  intros [Hp Hc Hs] Hne. unfold take_prefix. destruct (pr_split_min_size r) as [min|].
  { intros E. pose proof (take_split_spec _ _ _ _ _ Hp Hs Hc Hne E) as (H1 & H2 & H3 & H4 & _).
    split_and!; [done|by destruct sel|unfold MAX_REQUEST_LEASES; lia|done|done|done]. }
  destruct (pr_request_cap r =? 0).
  { destruct (pr_pieces r) as [|piece rest] eqn:El; [done|]. intros [= <- <-]. simpl.
    split_and!; [by apply parted_whole|done|unfold MAX_REQUEST_LEASES; lia|done|lia|done]. }
  destruct (take_loop _ _ _ _ _ _) as [sel' rest] eqn:E. intros [= <- <-]. cbn [pr_pieces set_pending_pieces].
  destruct (take_loop_spec _ _ _ _ _ _ _ _ E) as (more & -> & El & Hl).
  change ([] ++ more) with more in *. rewrite El at 1.
  split_and!; [by apply parted_whole| |done|done|rewrite El, length_app; lia|done].
  destruct (pr_pieces r) as [|p pieces]; [done|]. by apply take_loop_progress in E.
Qed.

(** ** What a prefix holds *)

Lemma holds_app l1 l2 i b : holds (l1 ++ l2) i b <-> holds l1 i b \/ holds l2 i b.
Proof. unfold holds. setoid_rewrite elem_of_app. naive_solver. Qed.

Lemma holds_nil i b : ~ holds [] i b.
Proof. intros (p & Hp & _). set_solver. Qed.

Lemma holds_cons p l i b : holds (p :: l) i b <-> (pp_piece p = i /\ pp_start p <= b < pp_end p) \/ holds l i b.
Proof. unfold holds. setoid_rewrite elem_of_cons. naive_solver. Qed.

Lemma Parted_holds l sel rest i b : Parted l sel rest -> holds l i b <-> holds sel i b \/ holds rest i b.
Proof.
  destruct 1 as [sel rest ->|j a m e rest -> Hm]; [by apply holds_app|]. rewrite !holds_cons. simpl. pose proof (holds_nil i b).
  split; [intros [[-> Hb]|Hr]; [destruct (Z.lt_ge_cases b m)|]; intuition lia|intuition lia].
Qed.

Lemma chained_prefix prev l1 l2 : chained prev (l1 ++ l2) -> chained prev l1.
Proof. revert prev. induction l1 as [|[[i a] e] l1 IH]; intros prev; [done|]. simpl. intros (H1 & H2 & H3). eauto. Qed.

Lemma chained_suffix prev l1 l2 : chained prev (l1 ++ l2) -> chained None l2.
Proof.
  revert prev. induction l1 as [|[[i a] e] l1 IH]; intros prev; simpl; [|intros (_ & _ & H); eauto].
  destruct l2 as [|[[i a] e] l2]; [done|]. simpl. tauto.
Qed.

Lemma chained_snoc prev l i a e j m n :
  chained prev (l ++ [(i, a, e)]) -> j = (i + 1)%nat -> m = e -> m < n -> chained prev (l ++ [(i, a, e); (j, m, n)]).
Proof.
  intros Hc -> -> Hn. revert prev Hc. induction l as [|[[k b] f] l IH]; intros prev; simpl; [tauto|]. intros (H1 & H2 & H3). auto.
Qed.

(** The selected pieces form a batch, and the rest is well-formed again. *)
Lemma Parted_ok l sel rest : Parted l sel rest -> Forall piece_ok l -> Forall piece_ok sel /\ Forall piece_ok rest.
Proof.
  destruct 1 as [sel rest ->|i a m e rest -> Hm]; [by apply Forall_app|]. rewrite Forall_cons. intros [[H1 H2] Hr]. simpl in *.
  rewrite !Forall_cons. unfold piece_ok. simpl. repeat split; try done; lia.
Qed.

Lemma take_prefix_wf slots r sel r' :
  Range_wf r -> pr_pieces r <> [] -> take_prefix slots r = (sel, r') ->
  chained None (pp_shape <$> sel) /\ Range_wf r' /\ Range_wf (prepend sel r').
Proof.
  intros W Hne E. destruct (take_prefix_spec slots r sel r' W Hne E) as (HP & Hs & _ & Er & _ & Hn). pose proof W as [Hp Hc Hsh].
  destruct (Parted_ok _ _ _ HP Hp) as [P1 P2].
  assert (Range_wf r' /\ Range_wf (prepend sel r')) as HW.
  { rewrite Er. split; split; cbn [pr_pieces pr_request_cap pr_split_min_size set_pending_pieces prepend]; try done.
    - destruct (pr_split_min_size r) eqn:Em; [done|]. rewrite (Hn eq_refl), fmap_app in Hsh. by apply chained_suffix in Hsh.
    - by apply Forall_app.
    - destruct (pr_split_min_size r) eqn:Em; [done|]. by rewrite <- (Hn eq_refl). }
  split; [|done]. destruct (pr_split_min_size r) as [min|] eqn:Em.
  - unfold take_prefix in E. rewrite Em in E. destruct (take_split_spec _ _ _ _ _ Hp Hsh Hc Hne E) as (_ & Hl & _).
    destruct sel as [|[i a e] [|? ?]]; [done| |done]. apply Forall_singleton in P1 as [P1 _]. simpl in *. lia.
  - rewrite (Hn eq_refl), fmap_app in Hsh. by apply chained_prefix in Hsh.
Qed.
