(* ===== verification/Recovered.v ===== *)
(** * Recovered work (the claims and [recover_segments] of [src/session/multi/worker.rs])

    The leases an interrupted request gives back become pending ranges, and workers
    claim pending ranges before ordinary work.  The sessions of Workers.v are run
    together with the queue of pending ranges. *)

From S2P Require Import Prelude RustStr Errors PieceMap Ranges Segment Scheduler SchedInv SchedSpec Planner Reserve Assign AssignProps Dynamic SchedProps Cache Writer WriterInv WriterProps WriterRun Flow Retry Response RangeValidate Control Resume Checkpoint Request Hedge Workers Owned WorkersInv Sessions Pending.

(** ** Giving work back *)

(** One iteration of the grouping loop of [recover_segments]; the last group first. *)
Definition group_segment (s : SchedulerState) (groups : list (list Segment * bool)) (segment : Segment)
    : list (list Segment * bool) :=
  let whole_piece := is_whole_piece_segment s segment in
  match groups with
  | (group, group_is_whole) :: rest =>
      let append := whole_piece && group_is_whole &&
        match last group with
        | Some l => is_whole_piece_segment s l && (seg_piece_id l + 1 =? seg_piece_id segment)%nat &&
                    (seg_end l =? seg_start segment)
        | None => false
        end in
      if append then (group ++ [segment], group_is_whole) :: rest else ([segment], whole_piece) :: groups
  | [] => [([segment], whole_piece)]
  end.

(** The ranges [recover_segments] appends to the queue: whole pieces stay together,
    a part of a piece may be split again. *)
Definition recovered_ranges (request_cap min_segment_size : Z) (s : SchedulerState) (segments : list Segment)
    : list PendingRange :=
  mjoin ((fun '(group, whole_piece) =>
            pending_of_segments group request_cap (if (whole_piece : bool) then None else Some min_segment_size))
         <$> reverse (fold_left (group_segment s) segments [])).

(** The scheduler and recovery critical section of the outer loop when work is pending. *)
Definition claim (worker_id slots : nat) (range : PendingRange) (pending : list PendingRange) (s : SchedulerState)
    : option (list Segment) * SchedulerState * list PendingRange :=
  let '(pieces, range) := take_prefix slots range in
  match assign_recovery_batch (pp_shape <$> pieces) worker_id s with
  | (Some segments, s) => (Some segments, s, if pr_is_empty range then pending else range :: pending)
  | (None, s) => (None, s, prepend pieces range :: pending)
  end.

Section Steps.
  Context `{RawBits} `{Codec} (ctx : SaveContext) (obj : Z -> Z) (mb : MemoryBudget).
  Context (request_cap min_segment_size : Z).

Abbreviation recovered := (recovered_ranges request_cap min_segment_size).

(** What the arms after [settle_prefix] queue. *)
Definition given_back (retain : bool) (outcome : AfterSettle) (segment : Segment) (queued : list Segment) (s : SchedulerState)
    : list PendingRange :=
  match outcome with
  | ToRecover =>
      if retain then recovered s [segment] ++ recovered (snd (reclaim (lease_key segment) s)) queued
      else recovered s (segment :: queued)
  | ToRetry | ToStaged _ => recovered s queued
  | ToStop _ => []
  end.

Definition settle_pending (job : Job) (forwarded : Z) (retain : bool) (outcome : AfterSettle) (s : SchedulerState)
    (pending : list PendingRange) : list PendingRange :=
  match settle_prefix (job_segment job) forwarded retain s with
  | (Err _, _) => pending
  | (Ok segment, s) => pending ++ given_back retain outcome segment (job_queued job) s
  end.

(** The steps that neither claim nor give back work. *)
Definition plain (st st' : Worker) : Prop :=
  match st, st' with
  | Idle, Exited _ => True
  | Idle, _ => False
  | Settling _ _ _ _, _ => False
  | Attempting job _ _ _ _, Attempting job' _ _ _ _ => job_queued job' = job_queued job
  | _, _ => True
  end.

(** One step of a worker together with the queue of pending ranges. *)
Inductive pending_worker (i : nat) (acks : gset LeaseKey) :
    Worker -> SchedulerState -> list PendingRange -> Worker -> SchedulerState -> list PendingRange ->
    list WriterCommand -> Prop :=
(* ordinary work is planned only when nothing is pending *)
| pw_assign s s' max_requests min occ mode batch dmin dmax allow diag shares a first rest :
    0 <= min ->
    assign_request_with_trace i max_requests min occ mode batch dmin dmax allow diag shares s = (Some a, s') ->
    segments a = first :: rest -> next_lease_id s' < u64_max ->
    pending_worker i acks Idle s [] (Ready (job_of first rest)) s' [] []
| pw_assign_none s s' max_requests min occ mode batch dmin dmax allow diag shares :
    0 <= min ->
    assign_request_with_trace i max_requests min occ mode batch dmin dmax allow diag shares s = (None, s') ->
    next_lease_id s' < u64_max ->
    pending_worker i acks Idle s [] Idle s' [] []
| pw_claim s s' slots range pend pend' first rest :
    claim i slots range pend s = (Some (first :: rest), s', pend') -> next_lease_id s' < u64_max ->
    pending_worker i acks Idle s (range :: pend) (Ready (job_of first rest)) s' pend' []
| pw_claim_none s s' slots range pend pend' :
    claim i slots range pend s = (None, s', pend') -> next_lease_id s' < u64_max ->
    pending_worker i acks Idle s (range :: pend) Idle s' pend' []
| pw_settled s job forwarded retain outcome st s' pend :
    job_key job ∈ acks -> settle i job forwarded retain outcome s = (st, s') -> next_lease_id s' < u64_max ->
    pending_worker i acks (Settling job forwarded retain outcome) s pend st s'
      (settle_pending job forwarded retain outcome s pend) []
| pw_settle_fails s job forwarded retain outcome e pend :
    pending_worker i acks (Settling job forwarded retain outcome) s pend (Exited (Err e)) (snd (reclaim (job_key job) s)) pend []
| pw_exit s st e pend :
    pending_worker i acks st s pend (Exited (Err e)) s pend []
| pw_handoff s job forwarded todo r next pend :
    pending_worker i acks (Attempting job forwarded todo r next) s pend
      (Attempting (mkJob (job_segment job) [] (job_start job) (job_end job) (job_stream job)) forwarded todo r next)
      (reclaim_all (job_queued job) s) (pend ++ recovered s (job_queued job)) []
| pw_plain s st st' s' sent pend :
    worker_step obj mb i acks st s st' s' sent -> plain st st' ->
    pending_worker i acks st s pend st' s' pend sent.

(** The writer and the checkpoints do not touch the queue. *)
Inductive pending_step : Session * list PendingRange -> Session * list PendingRange -> Prop :=
| ps_worker x q ws acks pend i st st' s' pend' sent :
    ws !! i = Some st -> pending_worker i acks st (w_sched x) pend st' s' pend' sent ->
    (sent <> [] -> w_status x = Receiving) ->
    pending_step (mkSession x q ws acks, pend) (mkSession (set_sched s' x) (q ++ sent) (<[i := st']> ws) acks, pend')
| ps_other ms ms' pend :
    session_step ctx obj mb ms ms' -> ms_workers ms' = ms_workers ms ->
    (w_sched (ms_world ms') = w_sched (ms_world ms) \/
     exists snap h, freeze ctx (w_sched (ms_world ms)) = (snap, h, w_sched (ms_world ms'))) ->
    pending_step (ms, pend) (ms', pend).
End Steps.

(** ** Grouping keeps every segment *)

Lemma pending_of_segments_spec segs cap split :
  0 <= cap -> match split with Some min => 0 <= min | None => True end -> Forall (fun g => piece_ok (piece_of_segment g)) segs ->
  mjoin (pr_pieces <$> pending_of_segments segs cap split) = piece_of_segment <$> segs /\
  Forall (fun r => Range_wf r /\ pr_pieces r <> []) (pending_of_segments segs cap split).
Proof.
  intros Hc Hs. unfold pending_of_segments.
  set (Ok_ := fun ranges : list PendingRange => Forall (fun r => Range_wf r /\ pr_pieces r <> [] /\ pr_split_min_size r = split) ranges).
  assert (forall segs ranges, Forall (fun g => piece_ok (piece_of_segment g)) segs -> Ok_ ranges ->
    mjoin (pr_pieces <$> reverse (fold_left (collect_segment cap split) segs ranges))
      = mjoin (pr_pieces <$> reverse ranges) ++ (piece_of_segment <$> segs) /\
    Ok_ (fold_left (collect_segment cap split) segs ranges)) as Hfold.
  { clear segs. induction segs as [|g segs IH]; intros ranges HF HR; [by rewrite app_nil_r|].
    apply Forall_cons in HF as [Hg HF]. cbn [fold_left fmap list_fmap].
    assert (mjoin (pr_pieces <$> reverse (collect_segment cap split ranges g)) = mjoin (pr_pieces <$> reverse ranges) ++ [piece_of_segment g] /\
      Ok_ (collect_segment cap split ranges g)) as [E1 O1].
    { assert (Range_wf (mkPendingRange [piece_of_segment g] cap split)) as Hfresh.
      { split; cbn; [by apply Forall_singleton|done|]. destruct split; [done|]. destruct Hg. cbn in *. repeat split; lia. }
      assert (mjoin (pr_pieces <$> reverse (mkPendingRange [piece_of_segment g] cap split :: ranges)) = mjoin (pr_pieces <$> reverse ranges) ++ [piece_of_segment g] /\
        Ok_ (mkPendingRange [piece_of_segment g] cap split :: ranges)) as Hnew.
      { split; [by rewrite reverse_cons, fmap_app, join_app|]. by apply Forall_cons. }
      unfold collect_segment. destruct ranges as [|r rest]; [done|]. destruct (last (pr_pieces r)) as [l|] eqn:El; [|done].
      destruct (_ && _) eqn:B; [|done]. apply andb_true_iff in B as [B1%Nat.eqb_eq B2%Z.eqb_eq].
      apply Forall_cons in HR as [([Wp Wc Wsh] & Hne & Hsp) HR]. split.
      - rewrite !reverse_cons, !fmap_app, !join_app. cbn. by rewrite !app_nil_r, <- app_assoc.
      - apply Forall_cons. split; [|done]. split_and!; [|cbn; by destruct (pr_pieces r)|done].
        split; cbn [pr_pieces pr_request_cap pr_split_min_size set_pending_pieces]; [by apply Forall_app; split; [|apply Forall_singleton]|done|].
        destruct (pr_split_min_size r); [done|]. apply last_Some in El as [l' El]. rewrite El in *.
        rewrite <- app_assoc, fmap_app. rewrite fmap_app in Wsh. cbn. destruct Hg. apply chained_snoc; cbn in *; [exact Wsh|lia|lia|lia]. }
    destruct (IH _ HF O1) as [E2 O2]. split; [|done]. by rewrite E2, E1, <- app_assoc. }
  intros HF. destruct (Hfold segs [] HF) as [E O]; [constructor|]. split; [done|].
  apply Forall_reverse. eapply Forall_impl; [exact O|]. intros r (A1 & A2 & _). done.
Qed.

Lemma group_segment_spec s segs :
  mjoin (fst <$> reverse (fold_left (group_segment s) segs [])) = segs.
Proof.
  assert (forall segs groups, mjoin (fst <$> reverse (fold_left (group_segment s) segs groups)) = mjoin (fst <$> reverse groups) ++ segs) as Hfold.
  { clear segs. induction segs as [|g segs IH]; intros groups; [by rewrite app_nil_r|]. cbn [fold_left]. rewrite IH.
    assert (mjoin (fst <$> reverse (group_segment s groups g)) = mjoin (fst <$> reverse groups) ++ [g]) as ->; [|by rewrite <- app_assoc].
    unfold group_segment. destruct groups as [|[group w] rest]; [done|].
    destruct (_ && _ && _); rewrite !reverse_cons, !fmap_app, !join_app; cbn; rewrite ?app_nil_r; [|done]. by rewrite <- app_assoc. }
  by rewrite Hfold.
Qed.

Lemma recovered_ranges_spec cap min s segs :
  0 <= cap -> 0 <= min -> Forall (fun g => piece_ok (piece_of_segment g)) segs ->
  mjoin (pr_pieces <$> recovered_ranges cap min s segs) = piece_of_segment <$> segs /\
  Forall (fun r => Range_wf r /\ pr_pieces r <> []) (recovered_ranges cap min s segs).
Proof.
  intros Hc Hm HF. unfold recovered_ranges. rewrite <- (group_segment_spec s segs) in HF. rewrite <- (group_segment_spec s segs) at 2.
  induction (reverse (fold_left (group_segment s) segs [])) as [|[group w] groups IH]; [by split; [|constructor]|].
  rewrite !fmap_cons in *. cbn [fst] in *.
  assert (forall A (x : list A) l, mjoin (x :: l) = x ++ mjoin l) as Hj by done. rewrite !Hj in *.
  apply Forall_app in HF as [H1 H2]. destruct (IH H2) as [E2 W2].
  destruct (pending_of_segments_spec group cap (if w then None else Some min) Hc) as [E1 W1]; [by destruct w|done|].
  split; [|by apply Forall_app]. by rewrite !fmap_app, join_app, E1, E2.
Qed.

(** ** Missing bytes stay missing *)

(** The scheduler moved from [s] to [s'] and no missing byte was taken. *)
Record Keeps (s s' : SchedulerState) : Prop := {
  kp_wf : Sched_wf s';
  kp_total : total_of s' = total_of s;
  kp_size : piece_size (piece_map s') = piece_size (piece_map s);
  kp_missing : forall b, 0 <= b < total_of s -> status s b = Missing -> status s' b = Missing;
}.

Lemma Keeps_refl s : Sched_wf s -> Keeps s s.
Proof. by split. Qed.

Lemma Keeps_trans s1 s2 s3 : Keeps s1 s2 -> Keeps s2 s3 -> Keeps s1 s3.
Proof. intros [A1 A2 A3 A4] [B1 B2 B3 B4]. split; [done|congruence|congruence|]. intros b Hb Hm. apply B4; [by rewrite A2|auto]. Qed.

Lemma move_keeps s s' k to :
  Sched_wf s' -> total_of s' = total_of s -> piece_size (piece_map s') = piece_size (piece_map s) ->
  same_status (total_of s) (status s') (spec_move k to (status s)) -> Keeps s s'.
Proof. intros W Ht Hp Hs. split; try done. intros b Hb Hm. rewrite (Hs b Hb). unfold spec_move. rewrite decide_False; [done|congruence]. Qed.

Lemma same_keeps s s' :
  Sched_wf s' -> piece_map s' = piece_map s -> same_status (total_of s) (status s') (status s) -> Keeps s s'.
Proof. intros W Hp Hs. split; [done|by apply same_map_total|by rewrite Hp|]. intros b Hb Hm. by rewrite (Hs b Hb). Qed.

Lemma reclaim_keeps s k : Sched_wf s -> Keeps s (snd (reclaim k s)).
Proof.
  intros W. destruct (reclaim k s) as [r s'] eqn:E. destruct (reclaim_spec s k r s' W E) as (W' & Hp & _ & _ & _ & Hs).
  apply (move_keeps s s' k Missing); [done|by apply same_map_total|by rewrite Hp|done].
Qed.

Lemma reclaim_all_keeps s segs : Sched_wf s -> Keeps s (reclaim_all segs s).
Proof.
  unfold reclaim_all. revert s. induction segs as [|g segs IH]; intros s W; [by apply Keeps_refl|]. simpl.
  pose proof (reclaim_keeps s (lease_key g) W) as K. eapply Keeps_trans; [exact K|]. apply IH, K.
Qed.

Lemma complete_keeps s k : Sched_wf s -> Keeps s (snd (complete k s)).
Proof.
  intros W. destruct (complete k s) as [r s'] eqn:E. destruct (complete_spec s k r s' W E) as (W' & Ht & Hp & _ & _ & _ & Hs).
  by apply (move_keeps s s' k Done).
Qed.

Lemma renew_keeps s k w : Sched_wf s -> next_lease_id (snd (renew k w s)) < u64_max -> Keeps s (snd (renew k w s)).
Proof.
  intros W Hlim. destruct (renew k w s) as [r s'] eqn:E. simpl in *.
  destruct (renew_spec s k w r s' W E Hlim) as (W' & Hp & _ & _ & Hs). destruct r as [g|]; [|by apply same_keeps].
  destruct Hs as (_ & _ & Hs). by apply (move_keeps s s' k (Leased (lease_key g))); [|apply same_map_total|rewrite Hp|].
Qed.

Lemma retain_keeps s k e : Sched_wf s -> Keeps s (snd (retain_prefix k e s)).
Proof.
  intros W. destruct (retain_prefix k e s) as [r s'] eqn:E. destruct (retain_prefix_spec s k e r s' W E) as (W' & Hp & _ & _ & _ & Hs).
  simpl. destruct r; [|rewrite Hs; by apply Keeps_refl]. destruct Hs as [Hs _].
  split; [done|by apply same_map_total|by rewrite Hp|]. intros b Hb Hm. rewrite (Hs b Hb). unfold spec_retain.
  rewrite decide_False; [done|]. intros [D _]. congruence.
Qed.

Lemma stop_keeps s k : Sched_wf s -> Keeps s (stop_and_reclaim k s).
Proof. intros W. destruct (reclaim_keeps (set_stopped true s) k (stopped_wf s true W)) as [A1 A2 A3 A4]. by split. Qed.

Lemma freeze_keeps `{RawBits} ctx s snap h s' : Sched_wf s -> freeze ctx s = (snap, h, s') -> Keeps s s'.
Proof.
  intros W E. destruct (freeze_moves ctx s snap h s' W E) as [M _]. unfold freeze in E. destruct (control_hints s) as [h0 s0] eqn:Eh.
  injection E as _ _ <-. assert (s0 = snd (control_hints s)) as Es by by rewrite Eh. rewrite Es in *. split; [apply M|done..].
Qed.

(** The bytes of a lease that is given back. *)
Lemma reclaim_all_missing s segs g b :
  Sched_wf s -> Forall (Owned s) segs -> NoDup (lease_key <$> segs) -> g ∈ segs -> seg_start g <= b < seg_end g ->
  status (reclaim_all segs s) b = Missing.
Proof.
  revert s. induction segs as [|x segs IH]; intros s W HO HN Hg Hb; [by apply not_elem_of_nil in Hg|].
  apply Forall_cons in HO as [Ox HO]. cbn in HN. apply NoDup_cons in HN as [Hx HN].
  change (reclaim_all (x :: segs) s) with (reclaim_all segs (snd (reclaim (lease_key x) s))).
  pose proof (reclaim_keeps s (lease_key x) W) as K. pose proof (reclaim_moves s (lease_key x) W) as M.
  apply elem_of_cons in Hg as [->|Hg].
  - destruct Ox as [H1 H2 _ Hb']. pose proof (reclaim_all_keeps _ segs (kp_wf _ _ K)) as K2. apply (kp_missing _ _ K2); [rewrite (kp_total _ _ K); lia|].
    destruct (reclaim (lease_key x) s) as [r s'] eqn:E. destruct (reclaim_spec s _ r s' W E) as (_ & _ & _ & _ & _ & Hs).
    simpl. rewrite Hs by lia. unfold spec_move. rewrite decide_True; [done|]. apply Hb'; lia.
  - apply IH; [apply K| |done|done|done]. rewrite Forall_forall in HO |- *. intros y Hy. apply M; [auto|]. intros E. apply Hx.
    rewrite E. by apply list_elem_of_fmap_2.
Qed.

(** ** The invariant of the queue *)

(** A pending piece lies in its piece of the file and its bytes are missing. *)
Record Placed (s : SchedulerState) (p : PendingPiece) : Prop := {
  pl_range : 0 <= pp_start p < pp_end p;
  pl_end : pp_end p <= total_of s;
  pl_bytes : forall b, pp_start p <= b < pp_end p ->
    piece_of (piece_size (piece_map s)) b = pp_piece p /\ status s b = Missing;
}.

(** No byte is in two entries of the list. *)
Fixpoint Apart (l : list PendingPiece) : Prop :=
  match l with
  | [] => True
  | p :: l => Forall (fun q => pp_end p <= pp_start q \/ pp_end q <= pp_start p) l /\ Apart l
  end.

Definition pending_pieces (pend : list PendingRange) : list PendingPiece := mjoin (pr_pieces <$> pend).

Record PendingOk (s : SchedulerState) (pend : list PendingRange) : Prop := {
  po_ranges : Forall (fun r => Range_wf r /\ pr_pieces r <> []) pend;
  po_placed : Forall (Placed s) (pending_pieces pend);
  po_apart : Apart (pending_pieces pend);
}.

Lemma Placed_keeps s s' p : Keeps s s' -> Placed s p -> Placed s' p.
Proof.
  intros [K1 K2 K3 K4] [P1 P2 P3]. split; [done|by rewrite K2|]. intros b Hb. destruct (P3 b Hb) as [E1 E2].
  rewrite K3. split; [done|]. apply K4; [lia|done].
Qed.

Lemma PendingOk_keeps s s' pend : Keeps s s' -> PendingOk s pend -> PendingOk s' pend.
Proof. intros K [H1 H2 H3]. split; [done| |done]. eapply Forall_impl; [exact H2|]. intros p. by apply Placed_keeps. Qed.

Lemma Apart_app l1 l2 :
  Apart (l1 ++ l2) <-> Apart l1 /\ Apart l2 /\ Forall (fun p => Forall (fun q => pp_end p <= pp_start q \/ pp_end q <= pp_start p) l2) l1.
Proof.
  induction l1 as [|p l1 IH]; [by split; [intros H; split_and!; [|exact H|constructor]|intros (_ & H & _)]|].
  cbn [app Apart]. rewrite IH, Forall_app, Forall_cons. tauto.
Qed.

Lemma pending_pieces_app p1 p2 : pending_pieces (p1 ++ p2) = pending_pieces p1 ++ pending_pieces p2.
Proof. unfold pending_pieces. by rewrite fmap_app, join_app. Qed.

Lemma pending_pieces_cons r pend : pending_pieces (r :: pend) = pr_pieces r ++ pending_pieces pend.
Proof. done. Qed.

(** Two ranges that share no byte. *)
Lemma apart_bytes p q :
  pp_start p < pp_end p -> pp_start q < pp_end q ->
  (forall b, pp_start p <= b < pp_end p -> pp_start q <= b < pp_end q -> False) -> pp_end p <= pp_start q \/ pp_end q <= pp_start p.
Proof.
  intros Hp Hq H. destruct (Z.le_gt_cases (pp_end p) (pp_start q)); [by left|]. destruct (Z.le_gt_cases (pp_end q) (pp_start p)); [by right|].
  destruct (H (Z.max (pp_start p) (pp_start q))); lia.
Qed.

(** ** Giving work back keeps the invariant *)

Section GiveBack.
  Context (cap min : Z) (s : SchedulerState) (segs : list Segment).
  Hypothesis (Hcap : 0 <= cap) (Hmin : 0 <= min) (W : Sched_wf s) (HT : total_of s <= u64_max)
    (HO : Forall (Owned s) segs) (HN : NoDup (lease_key <$> segs)).

Lemma owned_pieces_ok : Forall (fun g => piece_ok (piece_of_segment g)) segs.
Proof. eapply Forall_impl; [exact HO|]. intros g [H1 H2 _ _]. unfold piece_ok. simpl. lia. Qed.

Lemma owned_placed g : g ∈ segs -> Placed (reclaim_all segs s) (piece_of_segment g).
Proof.
  intros Hg. pose proof (reclaim_all_keeps s segs W) as K. destruct (proj1 (Forall_forall _ _) HO g Hg) as [H1 H2 _ H4].
  split; simpl; [done|by rewrite (kp_total _ _ K)|]. intros b Hb. split; [|by apply (reclaim_all_missing s segs g)].
  rewrite (kp_size _ _ K). assert (status s b = Leased (lease_key g)) as E by (apply H4; lia). by apply status_key in E.
Qed.

Lemma owned_apart : Apart (piece_of_segment <$> segs).
Proof.
  clear HT Hcap Hmin. induction segs as [|g l IH]; [done|]. apply Forall_cons in HO as [Og HO']. cbn in HN. apply NoDup_cons in HN as [Hx HN'].
  cbn [fmap list_fmap Apart]. split; [|by apply IH]. apply Forall_fmap, Forall_forall. intros q Hq. pose proof (proj1 (Forall_forall _ _) HO' q Hq) as Oq.
  destruct Og as [A1 A2 _ A4], Oq as [B1 B2 _ B4]. apply apart_bytes; simpl; [lia|lia|]. intros b Hb Hb'.
  pose proof (proj2 (A4 b ltac:(lia)) Hb) as E1. pose proof (proj2 (B4 b ltac:(lia)) Hb') as E2. apply Hx.
  assert (lease_key g = lease_key q) as -> by congruence. by apply list_elem_of_fmap_2.
Qed.

Lemma given_back_ok s' pend :
  PendingOk s pend -> Keeps (reclaim_all segs s) s' -> PendingOk s' (pend ++ recovered_ranges cap min s segs).
Proof.
  intros P K. apply (PendingOk_keeps (reclaim_all segs s)); [done|]. pose proof (PendingOk_keeps _ _ _ (reclaim_all_keeps s segs W) P) as [P1 P2 P3].
  destruct (recovered_ranges_spec cap min s segs Hcap Hmin owned_pieces_ok) as [E R]. fold (pending_pieces (recovered_ranges cap min s segs)) in E.
  split; [by apply Forall_app| |]; rewrite pending_pieces_app, E.
  - apply Forall_app. split; [done|]. apply Forall_fmap, Forall_forall. intros g Hg. by apply owned_placed.
  - apply Apart_app. split_and!; [done|apply owned_apart|]. apply Forall_forall. intros p Hp. apply Forall_fmap, Forall_forall. intros g Hg.
    destruct (proj1 (Forall_forall _ _) (po_placed _ _ P) p Hp) as [R1 R2 R3]. destruct (proj1 (Forall_forall _ _) HO g Hg) as [O1 O2 _ O4].
    apply apart_bytes; simpl; [lia|lia|]. intros b Hb Hb'. destruct (R3 b Hb) as [_ E1]. pose proof (proj2 (O4 b ltac:(lia)) Hb') as E2. congruence.
Qed.
End GiveBack.
