(* ===== verification/RecoveredProps.v ===== *)
(** * Recovered work is never lost

    The invariant of the pending ranges along every run of a session, and that a
    worker that claims pending work always gets it. *)

From S2P Require Import Prelude RustStr Errors PieceMap Ranges Segment Scheduler SchedInv SchedSpec Planner Reserve Assign AssignProps Dynamic SchedProps Cache Writer WriterInv WriterProps WriterRun Flow Retry Response RangeValidate Control Resume Checkpoint Request Hedge Workers Owned WorkersInv Sessions Pending Recovered.

(** ** Claiming *)

(** A pending piece fits [assign_recovery_batch]. *)
Lemma Placed_missing s p : Sched_wf s -> Placed s p -> MissingIn s (pp_piece p) (mkRange (pp_start p) (pp_end p)).
Proof.
  intros W [P1 P2 P3]. destruct (P3 (pp_start p) ltac:(lia)) as [E1 M1]. destruct (P3 (pp_end p - 1) ltac:(lia)) as [E2 _].
  pose proof (byte_piece s (pp_start p) W ltac:(lia)) as [H1 H2]. pose proof (byte_piece s (pp_end p - 1) W ltac:(lia)) as [_ H3].
  cbv zeta in *. rewrite E1 in H1, H2. rewrite E2 in H3. split; cbn [rstart rend]; [done| |lia|lia|lia|].
  - unfold status in M1. rewrite E1 in M1. destruct (pieces s !! pp_piece p) as [x|] eqn:Ex; [by apply (sw_pieces _ W) in Ex as (_ & ? & _)|].
    by destruct (bit (piece_map s) (pp_piece p)).
  - intros b Hb%in_range_true. by apply P3.
Qed.

Lemma recovery_valid_intro s prev planned :
  Sched_wf s -> chained prev planned -> Forall (fun '(i, a, e) => MissingIn s i (mkRange a e)) planned ->
  recovery_valid s prev planned = true.
Proof.
  intros W. revert prev. induction planned as [|[[i a] e] planned IH]; intros prev Hc HF; [done|]. cbn [recovery_valid chained] in *.
  apply Forall_cons in HF as [[M1 M2 M3 M4 M5 _] HF]. cbn [rstart rend] in *. destruct Hc as (Hp & _ & Hc). change (piece_count (piece_map s)) with (count s).
  rewrite (proj2 (Nat.leb_gt _ _) M1), piece_range_exact by (done || apply W).
  fold (total_of s) (plo s i) (phi s i). rewrite is_complete_bit by apply W. rewrite M2, (proj2 (Z.leb_gt _ _) M4), (proj2 (Z.ltb_ge _ _) M3).
  rewrite (proj2 (Z.ltb_ge _ _) M5). cbn [orb]. destruct prev as [[j e']|]; [|by apply IH]. destruct Hp as [-> ->].
  rewrite Nat.eqb_refl, Z.eqb_refl. by apply IH.
Qed.

Lemma Parted_placed s l sel rest : Parted l sel rest -> Forall (Placed s) l -> Forall (Placed s) sel /\ Forall (Placed s) rest.
Proof.
  destruct 1 as [sel rest ->|i a m e rest -> Hm]; [by apply Forall_app|]. rewrite Forall_cons. intros [[H1 H2 H3] Hr]. simpl in *.
  rewrite !Forall_cons. split_and!; [|constructor| |done]; split; simpl; try lia; intros b Hb; apply H3; lia.
Qed.

Lemma Parted_apart l sel rest tail : Parted l sel rest -> Apart (l ++ tail) -> Apart (sel ++ rest ++ tail).
Proof.
  destruct 1 as [sel rest ->|i a m e rest -> Hm]; [by rewrite app_assoc|]. cbn [app Apart pp_start pp_end]. intros [H1 H2].
  split_and!; [apply Forall_cons; split; [simpl; lia|]| |done]; (eapply Forall_impl; [exact H1|]); simpl; lia.
Qed.

(** What a reservation leaves alone. *)
Lemma Placed_reserved s s' w segs p :
  Sched_wf s -> Reserved s s' w segs -> (forall g, g ∈ segs -> seg_end g <= pp_start p \/ pp_end p <= seg_start g) -> Placed s p -> Placed s' p.
Proof.
  intros W R Hd [P1 P2 P3]. split; [done|by rewrite (same_map_total _ _ (rs_pm _ _ _ _ R))|]. intros b Hb. rewrite (rs_pm _ _ _ _ R).
  destruct (P3 b Hb) as [E1 E2]. split; [done|]. rewrite (rs_other _ _ _ _ R b); [done|lia|]. intros g Hg. destruct (in_seg g b) eqn:E; [|done].
  unfold in_seg in E. apply in_range_true in E. simpl in E. specialize (Hd g Hg). lia.
Qed.

Section Claim.
  Context (i slots : nat) (range : PendingRange) (pend : list PendingRange) (s s' : SchedulerState)
    (res : option (list Segment)) (pend' : list PendingRange).
  Hypothesis (W : Sched_wf s) (P : PendingOk s (range :: pend)) (E : claim i slots range pend s = (res, s', pend'))
    (Hlim : next_lease_id s' < u64_max).

Lemma claim_ok : PendingOk s' pend'.
Proof.
  pose proof P as [P1 P2 P3]. apply Forall_cons in P1 as [[Wr Hne] P1]. rewrite pending_pieces_cons in P2, P3. apply Forall_app in P2 as [P2 P2'].
  unfold claim in E. destruct (take_prefix slots range) as [sel r'] eqn:Et.
  destruct (take_prefix_spec _ _ _ _ Wr Hne Et) as (HP & Hsel & _). destruct (take_prefix_wf _ _ _ _ Wr Hne Et) as (_ & W1 & W2).
  destruct (Parted_placed s _ _ _ HP P2) as [Ps Pr]. pose proof (Parted_apart _ _ _ _ HP P3) as HA.
  destruct (assign_recovery_batch (pp_shape <$> sel) i s) as [[segs|] s1] eqn:Ea; injection E as <- <- <-;
    pose proof (recovery_batch_spec _ _ _ _ _ W Ea Hlim) as HR; simpl in HR.
  - destruct HR as (R & Hsh & _). apply Apart_app in HA as (_ & HA & HD).
    assert (Forall (Placed s1) (pr_pieces r' ++ pending_pieces pend)) as HPl.
    { apply Forall_forall. intros p Hp. apply (Placed_reserved s s1 i segs); [done|done| |].
      - intros g Hg. assert (shape g ∈ pp_shape <$> sel) as Hin by (rewrite <- Hsh; by apply list_elem_of_fmap_2).
        apply list_elem_of_fmap in Hin as (q & [= Hq1 Hq2 Hq3] & Hq).
        pose proof (proj1 (Forall_forall _ _) (proj1 (Forall_forall _ _) HD q Hq) p Hp). simpl in *. lia.
      - assert (Forall (Placed s) (pr_pieces r' ++ pending_pieces pend)) as HF by by apply Forall_app. by apply (proj1 (Forall_forall _ _) HF). }
    unfold pr_is_empty. destruct (pr_pieces r') as [|p0 ps] eqn:Er; [by split|].
    split; [|by rewrite pending_pieces_cons, Er|by rewrite pending_pieces_cons, Er]. apply Forall_cons. by rewrite Er.
  - split; [apply Forall_cons; split; [|done]; split; [done|]; unfold prepend; cbn; by destruct sel| |];
      rewrite pending_pieces_cons; cbn [prepend set_pending_pieces pr_pieces]; rewrite <- app_assoc; [|done].
    assert (Forall (Placed s) (sel ++ pr_pieces r' ++ pending_pieces pend)) as HF by (apply Forall_app; split; [done|by apply Forall_app]).
    eapply Forall_impl; [exact HF|]. intros p. apply (Placed_reserved s s1 i []); [done|done|]. by intros g []%not_elem_of_nil.
Qed.

(** The claim is never refused while the session runs. *)
Lemma claim_total :
  stopped s = false ->
  exists segs, res = Some segs /\ segs <> [] /\ Reserved s s' i segs /\ shape <$> segs = pp_shape <$> fst (take_prefix slots range).
Proof.
  intros Hst. pose proof P as [P1 P2 P3]. apply Forall_cons in P1 as [[Wr Hne] P1]. rewrite pending_pieces_cons in P2. apply Forall_app in P2 as [P2 _].
  unfold claim in E. destruct (take_prefix slots range) as [sel r'] eqn:Et.
  destruct (take_prefix_spec _ _ _ _ Wr Hne Et) as (HP & Hsel & Hlen & _). destruct (take_prefix_wf _ _ _ _ Wr Hne Et) as (Hch & _ & _).
  destruct (Parted_placed s _ _ _ HP P2) as [Ps _].
  assert (Forall (fun '(j, a, e) => MissingIn s j (mkRange a e)) (pp_shape <$> sel)) as HM.
  { apply Forall_fmap. eapply Forall_impl; [exact Ps|]. intros p Hp. by apply Placed_missing. }
  destruct (assign_recovery_batch (pp_shape <$> sel) i s) as [o s1] eqn:Ea.
  assert (s1 = s' /\ o = res) as [-> ->] by (by destruct o; injection E).
  assert (is_Some res) as [segs ->].
  { unfold assign_recovery_batch in Ea. rewrite bool_decide_eq_false_2 in Ea by (by destruct sel).
    rewrite (proj2 (Nat.ltb_ge _ _)) in Ea by (by rewrite length_fmap). rewrite (recovery_valid_intro s None _ W Hch HM) in Ea. cbn in Ea.
    pose proof (recovery_loop_total s (pp_shape <$> sel) None i [] s W Hst) as T. rewrite Ea in T. apply T; try done; [by apply Reserved_nil|].
    by intros g j a e rest _ []%not_elem_of_nil. }
  destruct (recovery_batch_spec _ _ _ _ _ W Ea Hlim) as (R & Hsh & _ & Hl). exists segs. split_and!; try done. intros ->. simpl in Hl. lia.
Qed.
End Claim.

(** ** Every step keeps the invariant *)

Section Runs.
  Context `{RawBits} `{Codec} (ctx : SaveContext) (obj : Z -> Z) (mb : MemoryBudget).
  Context (Hchunk : (1 <= max_chunk mb)%nat) (Htotal : sc_total_size ctx < u64_max).
  Context (cap min : Z) (Hcap : 0 <= cap) (Hmin : 0 <= min).

Lemma plain_keeps i acks st s st' s' sent : Sched_wf s -> worker_step obj mb i acks st s st' s' sent -> plain st st' -> Keeps s s'.
Proof.
  intros W Hs Hp. destruct Hs; simpl in Hp; try done; try by apply Keeps_refl.
  - match goal with Hf : finish_lease _ _ _ _ = _ |- _ => unfold finish_lease in Hf; pose proof (complete_keeps s (job_key job) W);
      destruct (complete _ s) as [[|] ?]; by injection Hf as <- <- end.
  - by apply reclaim_keeps.
  - by apply reclaim_all_keeps.
Qed.

Lemma settle_pending_ok c i s job f retain outcome st s' pend :
  Sched_wf s -> total_of s = sc_total_size ctx -> next_lease_id s < u64_max ->
  WorkerOk obj mb (sc_total_size ctx) c s (Settling job f retain outcome) -> job_key job ∈ ch_acks c -> PendingOk s pend ->
  settle i job f retain outcome s = (st, s') -> next_lease_id s' < u64_max ->
  PendingOk s' (settle_pending cap min job f retain outcome s pend).
Proof.
  intros W Ht Hn K Ha P E Hlim. destruct (settle_prefix_ok obj mb _ Hchunk Htotal c s job f retain outcome W Ht Hn K Ha)
    as (g & s1 & E1 & Hk & O1 & M1 & _ & _ & _).
  assert (Keeps s s1) as K1.
  { unfold settle_prefix in E1. destruct retain; [|injection E1 as _ <-; by apply Keeps_refl].
    pose proof (retain_keeps s (lease_key (job_segment job)) (seg_start (job_segment job) ⊕ f) W) as K1.
    destruct (retain_prefix _ _ s) as [[|] s2]; [|done]. injection E1 as _ <-. done. }
  pose proof (PendingOk_keeps _ _ _ K1 P) as P1. pose proof (kp_wf _ _ K1) as W1. assert (total_of s1 <= u64_max) as HT by (rewrite (kp_total _ _ K1); lia).
  unfold settle in E. unfold settle_pending. rewrite E1 in *. destruct K as [KO KN _]. cbn [held] in KO, KN. apply Forall_cons in KO as [_ KO].
  assert (Forall (Owned s1) (job_queued job)) as OQ by by apply (rest_owned s s1 (eq (job_key job)) (job_segment job)).
  assert (NoDup (lease_key <$> g :: job_queued job)) as KN' by (cbn in KN |- *; unfold job_key in Hk; by rewrite Hk).
  assert (NoDup (lease_key <$> job_queued job)) as KQ by (by cbn in KN'; apply NoDup_cons in KN' as [_ ?]).
  assert (forall o r, (renew (lease_key g) i (reclaim_all (job_queued job) s1)) = (o, r) -> next_lease_id r < u64_max ->
    PendingOk r (pend ++ recovered_ranges cap min s1 (job_queued job))) as Hrenew.
  { intros o r Er Hr. apply given_back_ok; try done.
    pose proof (renew_keeps (reclaim_all (job_queued job) s1) (lease_key g) i (kp_wf _ _ (reclaim_all_keeps _ _ W1))) as RK.
    rewrite Er in RK. by apply RK. }
  destruct outcome as [| |file|error]; cbn [after_settle given_back] in *.
  - injection E as <- <-. destruct retain.
    + rewrite app_assoc. pose proof (reclaim_keeps s1 (lease_key g) W1) as K2. pose proof (reclaim_moves s1 (lease_key g) W1) as M2.
      change (reclaim_all (g :: job_queued job) s1) with (reclaim_all (job_queued job) (snd (reclaim (lease_key g) s1))).
      apply given_back_ok; try done; [apply K2|by rewrite (kp_total _ _ K2)| | |apply Keeps_refl, reclaim_all_keeps, K2].
      * apply (rest_owned s1 _ (eq (lease_key g)) g); [done|by intros k <-|done|done].
      * apply (given_back_ok cap min s1 [g]); try done; [by apply Forall_singleton|apply NoDup_singleton|by apply Keeps_refl, K2].
    + apply given_back_ok; try done; [by apply Forall_cons|]. exact (Keeps_refl _ (kp_wf _ _ (reclaim_all_keeps s1 (g :: job_queued job) W1))).
  - destruct (renew _ _ _) as [o r] eqn:Er. assert (s' = r) as -> by (by destruct o; injection E). by apply (Hrenew o).
  - destruct (renew _ _ _) as [o r] eqn:Er. assert (s' = r) as -> by (by destruct o; injection E). by apply (Hrenew o).
  - injection E as <- <-. rewrite app_nil_r. apply (PendingOk_keeps s1); [by apply stop_keeps|done].
Qed.

Lemma pending_worker_ok c i st s pend st' s' pend' sent :
  Sched_wf s -> total_of s = sc_total_size ctx -> next_lease_id s < u64_max ->
  WorkerOk obj mb (sc_total_size ctx) c s st -> PendingOk s pend ->
  pending_worker obj mb cap min i (ch_acks c) st s pend st' s' pend' sent ->
  worker_step obj mb i (ch_acks c) st s st' s' sent /\ PendingOk s' pend'.
Proof.
  intros W Ht Hn K P Hs. assert (forall x, PendingOk x []) as Hnil by (intros x; by split; [constructor..|]).
  destruct Hs.
  - split; [by eapply w_assign|done].
  - split; [by eapply w_assign_none|done].
  - split; [|by eapply claim_ok]. match goal with Hc : claim _ _ _ _ _ = _ |- _ => unfold claim in Hc end.
    destruct (take_prefix _ _). destruct (assign_recovery_batch _ _ _) as [[?|] ?] eqn:Ea; simplify_eq. by eapply w_assign_recovery.
  - split; [|by eapply claim_ok]. match goal with Hc : claim _ _ _ _ _ = _ |- _ => unfold claim in Hc end.
    destruct (take_prefix _ _). destruct (assign_recovery_batch _ _ _) as [[?|] ?] eqn:Ea; simplify_eq. by eapply w_assign_recovery_none.
  - split; [by eapply w_settled|]. by eapply settle_pending_ok.
  - split; [apply w_settle_fails|]. apply (PendingOk_keeps s); [by apply reclaim_keeps|done].
  - split; [apply w_exit|done].
  - split; [apply w_handoff|]. destruct K as [KO KN _]. cbn in KO, KN. apply Forall_cons in KO as [_ KO]. apply NoDup_cons in KN as [_ KN].
    apply given_back_ok; try done; [lia|]. apply Keeps_refl, reclaim_all_keeps, W.
  - split; [done|]. apply (PendingOk_keeps s); [by eapply plain_keeps|done].
Qed.

(** ** Runs *)

Definition recovering (pm : PieceMap) (f : FileState) (io : list IoOutcome) (n : Z) (wm : nat) (fs : Fs) (workers : nat)
    (ms : Session) (pend : list PendingRange) : Prop :=
  rtc (pending_step ctx obj mb cap min) (session_start (world_start pm f io n wm fs) workers, []) (ms, pend).

Lemma pending_step_ok ms pend ms' pend' :
  Session_ok ctx obj mb ms -> PendingOk (w_sched (ms_world ms)) pend -> pending_step ctx obj mb cap min (ms, pend) (ms', pend') ->
  session_step ctx obj mb ms ms' /\ PendingOk (w_sched (ms_world ms')) pend'.
Proof.
  intros S P Hs. pose proof S as [[[W Ht] _ _ _ _ _ _ _] S2 _ _ S5 _]. inversion Hs; subst.
  - cbn [ms_world ms_workers w_sched set_sched] in *.
    match goal with Hp : pending_worker _ _ _ _ _ _ _ _ _ _ _ _ _ |- _ => rename Hp into Hw end.
    destruct (pending_worker_ok (chan_of x q acks) i st (w_sched x) pend st' s' pend' sent) as [W1 W2]; try done; [by apply (S5 i)|].
    split; [by apply (ms_worker _ _ _ x q ws acks i st)|done].
  - split; [done|]. match goal with Hd : _ \/ _ |- _ => destruct Hd as [->|(snap & h & Hf)] end; [done|].
    eapply PendingOk_keeps; [by eapply freeze_keeps|done].
Qed.

Lemma recovering_ok pm f io n wm fs workers ms pend :
  Start ctx obj pm f fs -> recovering pm f io n wm fs workers ms pend ->
  reached ctx obj mb pm f io n wm fs workers ms /\ Session_ok ctx obj mb ms /\ PendingOk (w_sched (ms_world ms)) pend.
Proof.
  intros HS R. unfold recovering in R.
  refine (rtc_ind_r (fun x => reached ctx obj mb pm f io n wm fs workers x.1 /\ Session_ok ctx obj mb x.1 /\
    PendingOk (w_sched (ms_world x.1)) x.2) _ _ _ (ms, pend) R).
  - split_and!; [apply rtc_refl|by apply session_start_ok|]. by split; [constructor..|].
  - intros [y py] [z pz] _ Hs (R1 & S1 & P1). simpl in *. destruct (pending_step_ok y py z pz S1 P1 Hs) as [Hz Pz].
    split_and!; [by eapply rtc_r|by apply (session_step_ok ctx obj mb Hchunk Htotal y z)|done].
Qed.

(** C13: Recovered work is never lost, doubled or refused.  Along every run of a
    session with any number of workers, the bytes waiting in the queue of recovered
    ranges are missing, each is queued once, and no request covers them; so a worker
    that claims the front of the queue while the session runs gets exactly the pieces
    it selected, as leases of its own: the branch that puts them back is never
    taken. *)
Theorem recovered_work_assignable pm f io n wm fs workers ms pend :
  Start ctx obj pm f fs -> recovering pm f io n wm fs workers ms pend ->
  let s := w_sched (ms_world ms) in
  reached ctx obj mb pm f io n wm fs workers ms /\
  Forall (fun p => forall b, pp_start p <= b < pp_end p -> status s b = Missing) (pending_pieces pend) /\
  Apart (pending_pieces pend) /\
  forall range rest i slots res s' pend',
    pend = range :: rest -> stopped s = false -> claim i slots range rest s = (res, s', pend') -> next_lease_id s' < u64_max ->
    exists segs, res = Some segs /\ segs <> [] /\ Reserved s s' i segs /\ shape <$> segs = pp_shape <$> fst (take_prefix slots range).
Proof.
  intros HS R s. destruct (recovering_ok _ _ _ _ _ _ _ _ _ HS R) as (R1 & [[[W Ht] _ _ _ _ _ _ _] _ _ _ _ _] & P). pose proof P as [P1 P2 P3].
  split_and!; [done| |done|].
  - eapply Forall_impl; [exact P2|]. intros p [_ _ Hb] b Hr. by apply Hb.
  - intros range rest i slots res s' pend' -> Hst E Hlim. by apply (claim_total i slots range rest s s' res pend').
Qed.
End Runs.

(** ** A session that recovers

    The attempt of the only worker is cancelled before its first byte; its piece is
    queued and claimed again. *)

Module DemoRecovered.
Import DemoCodec Checkpoint.Demo DemoSession.

Definition discard : list WriterCommand := [BeginLease key; DiscardLease key].
Definition y2 : World := handled discard x1.
Definition y3 : World := set_sched (reclaim_all [segment] t1) y2.
Definition queue : list PendingRange := recovered_ranges 100 1 t1 [segment].
Definition recovered : Session := at_ Idle [] y3 (acks_of discard).
Definition reclaimed : option (list Segment) * SchedulerState * list PendingRange :=
  claim 0 1 (mkPendingRange [mkPendingPiece 0 0 3] 100 None) [] (w_sched y3).

Lemma one_pending st st' s' sent q x acks pend pend' :
  pending_worker object mb 100 1 0 acks st (w_sched x) pend st' s' pend' sent -> w_status x = Receiving ->
  pending_step context object mb 100 1 (at_ st q x acks, pend) (at_ st' (q ++ sent) (set_sched s' x) acks, pend').
Proof.
  intros Hw Ho. unfold at_. rewrite <- (insert_singleton_eq 0%nat st' st). apply (ps_worker _ _ _ _ _ x q _ acks pend 0 st); [|done|done].
  by rewrite lookup_singleton_eq.
Qed.

Lemma reached_recovered : recovering context object mb 100 1 (PieceMap_new 3 3) demo_file [] 0 64 fs0 1 recovered queue.
Proof.
  unfold recovering.
  assert (match fst assigned with Some a => segments a = [segment] | None => False end) as Hseg by (vm_compute; reflexivity).
  destruct (fst assigned) as [a|] eqn:Ea; [|done].
  eapply rtc_l.
  { apply (one_pending Idle (Ready job) t1 [] [] x0 ∅ [] []); [|reflexivity].
    apply (pw_assign _ _ _ _ _ _ s0 t1 1 1 0 Fixed 0 0 0 false false false a segment []);
      [lia|rewrite <- Ea; apply surjective_pairing|exact Hseg|vm_compute; reflexivity]. }
  eapply rtc_l.
  { apply (one_pending (Ready job) (Attempting job 0 sends (Ok tt) next) t1 [BeginLease key] [] x1 ∅); [|reflexivity].
    apply pw_plain; [apply (w_begin object mb 0 ∅ t1 job (Ok tt) next sends attempt)|done]. }
  eapply rtc_l.
  { apply (one_pending _ (Settling job 0 false ToRecover) t1 [DiscardLease key] [BeginLease key] x1 ∅); [|reflexivity].
    apply pw_plain; [|done]. by apply (w_interrupt object mb 0 ∅ t1 job 0 sends (Ok tt) next None ToRecover). }
  do 2 (eapply rtc_l; [apply ps_other; [apply consume; vm_compute; reflexivity|done|by left]|]).
  eapply rtc_l; [|apply rtc_refl].
  apply (one_pending _ Idle (reclaim_all [segment] t1) [] [] y2).
  - change (w_sched y2) with t1. change queue with (settle_pending 100 1 job 0 false ToRecover t1 []).
    apply (pw_settled _ _ _ _ _ _ t1 job 0 false ToRecover); [by vm_compute|reflexivity|vm_compute; reflexivity].
  - reflexivity.
Qed.
End DemoRecovered.

Import DemoCodec.

Lemma recovered_work_assignable_witness :
  DemoRecovered.queue = [mkPendingRange [mkPendingPiece 0 0 3] 100 None] /\
  exists segs, DemoRecovered.reclaimed.1.1 = Some segs /\ segs <> [].
Proof.
  assert (DemoRecovered.queue = [mkPendingRange [mkPendingPiece 0 0 3] 100 None]) as Hq by (vm_compute; reflexivity). split; [exact Hq|].
  destruct (proj2 (proj2 (proj2 (recovered_work_assignable Demo.context Demo.object DemoSession.mb ltac:(vm_compute; lia) ltac:(vm_compute; reflexivity)
    100 1 ltac:(lia) ltac:(lia) (PieceMap_new 3 3) demo_file [] 0 64 Demo.fs0 1 DemoRecovered.recovered DemoRecovered.queue
    Demo.start DemoRecovered.reached_recovered))) _ [] 0%nat 1%nat DemoRecovered.reclaimed.1.1 DemoRecovered.reclaimed.1.2 DemoRecovered.reclaimed.2
    Hq ltac:(vm_compute; reflexivity) ltac:(by destruct DemoRecovered.reclaimed as [[? ?] ?] eqn:E) ltac:(vm_compute; reflexivity))
    as (segs & E & Hne & _).
  by exists segs.
Defined.
