(* ===== verification/Observation.v ===== *)
(** * Observations of a request ([Observation] of [src/session/multi/worker.rs])

    What a worker measures of its request: how long it was in each phase, how many
    bytes came, and whether the body has been slow for long enough to recover it.
    Instants and durations are nanoseconds; the readings of the clock are inputs. *)

From Stdlib Require Import Floats.SpecFloat.
From S2P Require Import Prelude RustStr Float64 Net Config.

Definition TAIL_WINDOW : Z := NANOS_PER_SEC.
Definition TAIL_GRACE : Z := NANOS_PER_SEC.
Definition TAIL_DURATION : Z := 2 * NANOS_PER_SEC.

Inductive Phase := Headers | Reading | RateLimited | MemoryBlocked | ChannelBlocked | WriterBarrier.

#[export] Instance Phase_eq_dec : EqDecision Phase.
Proof. solve_decision. Defined.

Record Observation := mkObservation {
  ob_ip : option IpAddr;
  ob_phase : Phase;
  ob_phase_at : Z;
  ob_blocked_since : option Z;
  ob_reading : Z;
  ob_headers : Z;
  ob_backpressure : Z;
  ob_writer_barrier : Z;
  ob_request_id : option Z;
  ob_last_reason : option (rstr * rstr);
  ob_wire : Z;
  ob_enqueued : Z;
  ob_forwarded : Z;
  ob_samples : list (Z * Z);
  ob_slow_since : option Z;
  ob_rate : option f64;
  ob_window : Z;
  ob_tail_samples : list (Z * Z);
  ob_tail_slow_since : option Z;
}.

Definition Observation_new (now window : Z) : Observation :=
  mkObservation None Headers now (Some now) 0 0 0 0 None None 0 0 0 [(0, 0)] None None window [(0, 0)] None.

(** [blocked_since.is_some_and(|at| now.saturating_duration_since(at) >= window)] *)
Definition blocked_for (now window : Z) (o : Observation) : bool :=
  match ob_blocked_since o with Some since => window <=? duration_since now since | None => false end.

Definition advance (now : Z) (o : Observation) : Observation :=
  let elapsed := duration_since now (ob_phase_at o) in
  let charge (b : bool) (total : Z) := if b then total + elapsed else total in
  let is_reading := bool_decide (ob_phase o = Reading) in
  let reading := charge is_reading (ob_reading o) in
  let cleared := negb is_reading && blocked_for now (ob_window o) o in
  let tail_cleared := negb is_reading && blocked_for now (Z.min (ob_window o) TAIL_WINDOW) o in
  mkObservation (ob_ip o) (ob_phase o) now (ob_blocked_since o) reading
    (charge (bool_decide (ob_phase o = Headers)) (ob_headers o))
    (charge (match ob_phase o with RateLimited | MemoryBlocked | ChannelBlocked => true | _ => false end) (ob_backpressure o))
    (charge (bool_decide (ob_phase o = WriterBarrier)) (ob_writer_barrier o))
    (ob_request_id o) (ob_last_reason o) (ob_wire o) (ob_enqueued o) (ob_forwarded o)
    (if cleared then [(reading, ob_wire o)] else ob_samples o)
    (if cleared then None else ob_slow_since o)
    (if cleared then None else ob_rate o)
    (ob_window o)
    (if tail_cleared then [(reading, ob_wire o)] else ob_tail_samples o)
    (if tail_cleared then None else ob_tail_slow_since o).

Definition set_phase (p : Phase) (blocked : option Z) (o : Observation) : Observation :=
  mkObservation (ob_ip o) p (ob_phase_at o) blocked (ob_reading o) (ob_headers o) (ob_backpressure o) (ob_writer_barrier o)
    (ob_request_id o) (ob_last_reason o) (ob_wire o) (ob_enqueued o) (ob_forwarded o) (ob_samples o) (ob_slow_since o)
    (ob_rate o) (ob_window o) (ob_tail_samples o) (ob_tail_slow_since o).

(** The method [phase]. *)
Definition enter_phase (p : Phase) (now : Z) (o : Observation) : Observation :=
  let o := advance now o in
  set_phase p
    (if bool_decide (p = Reading) then None
     else if bool_decide (ob_phase o = Reading) then Some now else ob_blocked_since o) o.

Definition set_counts (wire enqueued forwarded : Z) (o : Observation) : Observation :=
  mkObservation (ob_ip o) (ob_phase o) (ob_phase_at o) (ob_blocked_since o) (ob_reading o) (ob_headers o) (ob_backpressure o)
    (ob_writer_barrier o) (ob_request_id o) (ob_last_reason o) wire enqueued forwarded (ob_samples o) (ob_slow_since o)
    (ob_rate o) (ob_window o) (ob_tail_samples o) (ob_tail_slow_since o).

Definition set_slow (samples : list (Z * Z)) (slow_since : option Z) (rate : option f64) (o : Observation) : Observation :=
  mkObservation (ob_ip o) (ob_phase o) (ob_phase_at o) (ob_blocked_since o) (ob_reading o) (ob_headers o) (ob_backpressure o)
    (ob_writer_barrier o) (ob_request_id o) (ob_last_reason o) (ob_wire o) (ob_enqueued o) (ob_forwarded o) samples slow_since
    rate (ob_window o) (ob_tail_samples o) (ob_tail_slow_since o).

Definition set_tail (tail_samples : list (Z * Z)) (tail_slow_since : option Z) (o : Observation) : Observation :=
  mkObservation (ob_ip o) (ob_phase o) (ob_phase_at o) (ob_blocked_since o) (ob_reading o) (ob_headers o) (ob_backpressure o)
    (ob_writer_barrier o) (ob_request_id o) (ob_last_reason o) (ob_wire o) (ob_enqueued o) (ob_forwarded o) (ob_samples o)
    (ob_slow_since o) (ob_rate o) (ob_window o) tail_samples tail_slow_since.

(** ** Rates *)

(** The loop that drops samples which are not needed to cover the window. *)
Fixpoint trim (reading window : Z) (samples : list (Z * Z)) : list (Z * Z) :=
  match samples with
  | first :: (((at_, _) :: _ :: _) as rest) => if window <=? sat_sub64 reading at_ then trim reading window rest else samples
  | _ => samples
  end.

(** The rate over the samples: bytes per second of reading since the first one. *)
Definition window_rate (reading wire window : Z) (samples : list (Z * Z)) : option f64 :=
  match samples with
  | [] => None
  | (at_, bytes) :: _ =>
      let span := sat_sub64 reading at_ in
      if window <=? span then Some (f64_div (f64_of (wire ⊖ bytes)) (f64_secs span)) else None
  end.

Definition sample (now : Z) (o : Observation) : option f64 * Observation :=
  let o := advance now o in
  if negb (bool_decide (ob_phase o = Reading)) then (None, o)
  else
    let samples := trim (ob_reading o) (ob_window o) (ob_samples o ++ [(ob_reading o, ob_wire o)]) in
    let rate := window_rate (ob_reading o) (ob_wire o) (ob_window o) samples in
    (rate, set_slow samples (ob_slow_since o) rate o).

Definition tail_sample (now : Z) (o : Observation) : option f64 * Observation :=
  let o := advance now o in
  if negb (bool_decide (ob_phase o = Reading)) then (None, o)
  else
    let window := Z.min (ob_window o) TAIL_WINDOW in
    let samples := trim (ob_reading o) window (ob_tail_samples o ++ [(ob_reading o, ob_wire o)]) in
    (window_rate (ob_reading o) (ob_wire o) window samples, set_tail samples (ob_tail_slow_since o) o).

(** ** Decisions *)

Record Policy := mkRecoveryPolicy {
  po_mode : SlowTransferMode;
  po_absolute : option Z;
  po_duration : Z;
  po_grace : Z;
  po_window : Z;
}.

Definition f64_gtb (x y : f64) : bool := f64_ltb y x.

Definition recovery_benefits (rate healthy : f64) (len forwarded window : Z) : bool :=
  let remaining := sat_sub64 len forwarded in
  let keep := f64_div (f64_of remaining) (f64_max rate (f64_of 1)) in
  let replace := f64_add (f64_div (f64_of len) healthy) (f64_min (f64_secs window) (f64_of 1)) in
  (0 <? remaining) && f64_gtb keep (f64_mul replace (f64_of 2)) &&
  f64_gtb (f64_sub keep replace) (f64_min (f64_secs window) (f64_of 2)).

Definition positive (rate : option f64) : option f64 :=
  match rate with Some r => if f64_gtb r (f64_of 0) then Some r else None | None => None end.

Definition should_recover_tail (now : Z) (baseline : option f64) (spec : Policy) (len : Z) (o : Observation)
    : bool * Observation :=
  let '(rate, o) := tail_sample now o in
  let reset := set_tail (ob_tail_samples o) None o in
  match rate, positive baseline with
  | Some rate, Some healthy =>
      if (ob_reading o <? Z.min (po_grace spec) TAIL_GRACE) || f64_leb (f64_mul healthy (f64_lit 1 4)) rate then (false, reset)
      else
        let since := default (ob_reading o) (ob_tail_slow_since o) in
        ((Z.min (po_duration spec) TAIL_DURATION <=? sat_sub64 (ob_reading o) since) &&
         recovery_benefits rate healthy len (ob_forwarded o) (po_window spec),
         set_tail (ob_tail_samples o) (Some since) o)
  | _, _ => (false, reset)
  end.

Definition should_recover (now : Z) (baseline : option f64) (spec : Policy) (len : Z) (o : Observation)
    : bool * Observation :=
  let '(rate, o) := sample now o in
  match rate with
  | None => (false, o)
  | Some rate =>
      let reset := set_slow (ob_samples o) None (ob_rate o) o in
      if ob_reading o <? po_grace spec then (false, reset)
      else
        let low := match po_absolute spec with Some limit => f64_ltb rate (f64_of limit) | None => false end ||
                   match baseline with Some reference => f64_ltb rate (f64_mul reference (f64_lit 1 4)) | None => false end in
        if negb low then (false, reset)
        else
          let since := default (ob_reading o) (ob_slow_since o) in
          let o := set_slow (ob_samples o) (Some since) (ob_rate o) o in
          if sat_sub64 (ob_reading o) since <? po_duration spec then (false, o)
          else
            match positive (match baseline with Some r => Some r | None => f64_of <$> po_absolute spec end) with
            | None => (false, o)
            | Some healthy => (recovery_benefits rate healthy len (ob_forwarded o) (po_window spec), o)
            end
  end.

Definition cancellation_cost_bound (o : Observation) (len : Z) (protected : bool) : Z :=
  let read_ahead := sat_sub64 (ob_wire o) (ob_enqueued o) in
  if protected then read_ahead else sat_add64 len read_ahead.
