(* ===== verification/RateLimiter.v ===== *)
(** * The speed limit ([src/rate_limiter.rs])

    A bucket of tokens refilled by the clock, shared by all workers.  The readings of
    the clock are inputs; what [acquire] sleeps between two looks at the bucket only
    decides when the next one happens. *)

From Stdlib Require Import Floats.SpecFloat.
From S2P Require Import Prelude Float64.

Record Bucket := mkBucket {
  bk_tokens : f64;
  bk_capacity : f64;
  bk_rate : f64;
  bk_last_refill : Z;
}.

Definition RateLimiter_new (bytes_per_sec now : Z) : Bucket :=
  let rate := f64_of bytes_per_sec in
  mkBucket rate rate rate now.

Definition refill (now : Z) (b : Bucket) : Bucket :=
  let elapsed := f64_secs (duration_since now (bk_last_refill b)) in
  mkBucket (f64_min (f64_add (bk_tokens b) (f64_mul elapsed (bk_rate b))) (bk_capacity b)) (bk_capacity b) (bk_rate b) now.

(** What one look at the bucket grants. *)
Definition grant (remaining : f64) (b : Bucket) : f64 :=
  if f64_ltb (f64_of 0) (bk_tokens b) then f64_min remaining (bk_tokens b) else f64_of 0.

Definition set_tokens (tokens : f64) (b : Bucket) : Bucket := mkBucket tokens (bk_capacity b) (bk_rate b) (bk_last_refill b).

(** One iteration of [acquire] under the lock: the bucket, what remains, and the seconds
    to sleep unless it returns. *)
Definition acquire_once (now : Z) (remaining : f64) (b : Bucket) : Bucket * f64 * option f64 :=
  let b := refill now b in
  let sleep (remaining : f64) (b : Bucket) := Some (f64_div (f64_min remaining (bk_capacity b)) (bk_rate b)) in
  if f64_ltb (f64_of 0) (bk_tokens b) then
    let consume := grant remaining b in
    let b := set_tokens (f64_sub (bk_tokens b) consume) b in
    let remaining := f64_sub remaining consume in
    if f64_leb remaining (f64_of 0) then (b, remaining, None) else (b, remaining, sleep remaining b)
  else (b, remaining, sleep remaining b).

(** [acquire] with the clock at each iteration; [None]: it is still waiting when the
    readings end.  The grants it took are returned with the bucket each was taken from. *)
Fixpoint acquire (clock : list Z) (remaining : f64) (b : Bucket) : option (Bucket * list (f64 * Bucket)) :=
  if f64_ltb (f64_of 0) remaining then
    match clock with
    | [] => None
    | now :: clock =>
        let taken := (grant remaining (refill now b), refill now b) in
        match acquire_once now remaining b with
        | (b, _, None) => Some (b, [taken])
        | (b, remaining, Some _) => '(b, grants) ← acquire clock remaining b; Some (b, taken :: grants)
        end
    end
  else Some (b, []).

Inductive SpeedLimit := Unlimited | Limited (bucket : Bucket).

Definition SpeedLimit_new (bytes_per_sec now : Z) : SpeedLimit :=
  if bytes_per_sec =? 0 then Unlimited else Limited (RateLimiter_new bytes_per_sec now).

(** ** Comparisons *)

Lemma f64_leb_refl x : is_nan x = false -> f64_leb x x = true.
Proof.
  destruct x as [[]|[]| |[] m e]; try done; intros _; unfold f64_leb, SFleb, SFcompare; rewrite Z.compare_refl, Pos.compare_cont_refl; done.
Qed.

Lemma f64_leb_total x y : is_nan x = false -> is_nan y = false -> f64_ltb y x = false -> f64_leb x y = true.
Proof.
  destruct x as [[]|[]| |[] m e], y as [[]|[]| |[] m' e']; try done; intros _ _; unfold f64_leb, f64_ltb, SFleb, SFltb, SFcompare;
    rewrite (Z.compare_antisym e e'); destruct (e ?= e')%Z; try done;
    change (Pos.compare_cont Eq m' m) with (m' ?= m)%positive; change (Pos.compare_cont Eq m m') with (m ?= m')%positive;
    rewrite (Pos.compare_antisym m m'); by destruct (m ?= m')%positive.
Qed.

Lemma f64_min_le x y : is_nan y = false -> f64_leb (f64_min x y) y = true /\ is_nan (f64_min x y) = false.
Proof.
  intros Hy. unfold f64_min. destruct (is_nan x) eqn:Hx; [split; [by apply f64_leb_refl|done]|].
  destruct (f64_ltb y x) eqn:E; [split; [by apply f64_leb_refl|done]|]. split; [by apply f64_leb_total|done].
Qed.

(** ** No NaN *)

Lemma shr_1_nonneg r : 0 <= shr_m r -> 0 <= shr_m (shr_1 r).
Proof. destruct r as [m b c]. destruct m as [|[p|p|]|p]; simpl; lia. Qed.

Lemma iter_shr_nonneg p r : 0 <= shr_m r -> 0 <= shr_m (SpecFloat.iter_pos shr_1 p r).
Proof.
  revert r. induction p as [p IH|p IH|]; intros r H; simpl; [apply IH, IH, shr_1_nonneg, H|apply IH, IH, H|by apply shr_1_nonneg].
Qed.

Lemma shr_fexp_nonneg m e l : 0 <= m -> 0 <= shr_m (fst (shr_fexp 53 1024 m e l)).
Proof.
  intros H. unfold shr_fexp. assert (0 <= shr_m (shr_record_of_loc m l)) as Hr by (by destruct l as [|[]]).
  unfold shr. destruct (_ - _); [done| |done]. simpl. by apply iter_shr_nonneg.
Qed.

Lemma round_not_nan sx m e l : 0 <= m -> is_nan (binary_round_aux 53 1024 sx m e l) = false.
Proof.
  intros H. unfold binary_round_aux. pose proof (shr_fexp_nonneg m e l H) as H1. destruct (shr_fexp 53 1024 m e l) as [r1 e1]. simpl in H1.
  assert (0 <= round_nearest_even (shr_m r1) (loc_of_shr_record r1)) as H2.
  { unfold round_nearest_even. destruct (loc_of_shr_record r1) as [|[]]; try lia. destruct (Z.even _); lia. }
  pose proof (shr_fexp_nonneg _ e1 loc_Exact H2) as H3. destruct (shr_fexp 53 1024 _ e1 loc_Exact) as [r2 e2]. simpl in H3.
  destruct (shr_m r2); [done| |lia]. by destruct (_ <=? _).
Qed.

Lemma f64_of_not_nan n : is_nan (f64_of n) = false.
Proof.
  unfold f64_of, binary_normalize, binary_round. destruct n as [|p|p]; [done|..]; destruct (shl_align _ _ _) as [m e]; by apply round_not_nan.
Qed.

(** ** Grants *)

(** The looks of all workers at the bucket, in the order they take the lock: when, and
    what the worker still wants. *)
Fixpoint looks (l : list (Z * f64)) (b : Bucket) : list (f64 * Bucket) :=
  match l with
  | [] => []
  | (now, remaining) :: l => (grant remaining (refill now b), refill now b) :: looks l (fst (fst (acquire_once now remaining b)))
  end.

Lemma refill_bounded now b : is_nan (bk_capacity b) = false -> f64_leb (bk_tokens (refill now b)) (bk_capacity b) = true /\ is_nan (bk_tokens (refill now b)) = false.
Proof. intros H. unfold refill. simpl. by apply f64_min_le. Qed.

Lemma acquire_once_capacity now remaining b : bk_capacity (fst (fst (acquire_once now remaining b))) = bk_capacity b.
Proof. unfold acquire_once. cbv zeta. destruct (f64_ltb _ _); [|done]. by destruct (f64_leb _ _). Qed.

(** A burst never exceeds one second of the limit.  However the workers' looks at
    the shared bucket interleave and whatever the clock shows, after every refill the
    bucket holds at most the limit, and a look grants no more than the bucket holds:
    a long pause cannot be saved up, and rounding never breaks the bound. *)
Theorem limiter_bursts_bounded bytes_per_sec now l :
  Forall (fun '(granted, b) =>
    f64_leb (bk_tokens b) (f64_of bytes_per_sec) = true /\
    (granted = f64_of 0 \/ f64_leb granted (bk_tokens b) = true)) (looks l (RateLimiter_new bytes_per_sec now)).
Proof.
  assert (forall b, bk_capacity b = f64_of bytes_per_sec ->
    Forall (fun '(granted, b) => f64_leb (bk_tokens b) (f64_of bytes_per_sec) = true /\
      (granted = f64_of 0 \/ f64_leb granted (bk_tokens b) = true)) (looks l b)) as H; [|by apply H].
  induction l as [|[t remaining] l IH]; intros b Hb; [constructor|]. cbn [looks].
  destruct (refill_bounded t b) as [H1 H2]; [rewrite Hb; apply f64_of_not_nan|]. apply Forall_cons. split.
  - rewrite <- Hb. split; [done|]. unfold grant. destruct (f64_ltb _ _); [right|by left]. by apply f64_min_le.
  - apply IH. by rewrite acquire_once_capacity.
Qed.

(** Two workers want 150 and 100 bytes at a limit of 100 bytes a second. *)
Example limiter_run :
  (fun '(g, _) => g) <$> looks [(0, f64_of 150); (0, f64_of 100); (500000000, f64_of 50); (10000000000, f64_of 100)] (RateLimiter_new 100 0)
  = f64_of <$> [100; 0; 50; 100].
Proof. vm_compute. reflexivity. Qed.
