(* ===== verification/ObservationProps.v ===== *)
(** * What an observation shows

    Along any run of a request its phases account for all of its time, its samples
    never run ahead of its counters, and a recovery is only recommended after the
    body has been found slow for the configured time. *)

From S2P Require Import Prelude RustStr Float64 Net Config Observation.

(** ** Runs *)

(** What happens to an observation: the clock is read, the request enters a phase,
    bytes arrive, bytes are handed to the writer, the next piece begins, another
    worker samples the request, its own worker evaluates it. *)
Inductive ObsEvent :=
| EvAdvance (now : Z)
| EvPhase (p : Phase) (now : Z)
| EvWire (n : Z)
| EvForward (n : Z)
| EvBegin
| EvSample (now : Z)
| EvTailSample (now : Z)
| EvEvaluate (now : Z) (baseline tail_baseline : option f64) (len : Z).

Section Runs.
  Context (spec : Policy).

Definition obs_event (e : ObsEvent) (o : Observation) : Observation :=
  match e with
  | EvAdvance now => advance now o
  | EvPhase p now => enter_phase p now o
  | EvWire n => set_counts (ob_wire o + n) (ob_enqueued o) (ob_forwarded o) o
  | EvForward n => set_counts (ob_wire o) (ob_enqueued o + n) (ob_forwarded o + n) o
  | EvBegin => set_counts (ob_wire o) (ob_enqueued o) 0 o
  | EvSample now => snd (sample now o)
  | EvTailSample now => snd (tail_sample now o)
  | EvEvaluate now baseline tail_baseline len =>
      snd (should_recover_tail now tail_baseline spec len (snd (should_recover now baseline spec len o)))
  end.

Definition event_time (e : ObsEvent) : option Z :=
  match e with
  | EvAdvance now | EvPhase _ now | EvSample now | EvTailSample now | EvEvaluate now _ _ _ => Some now
  | EvWire _ | EvForward _ | EvBegin => None
  end.

(** The clock is monotonic, and counts are not negative. *)
Fixpoint in_order (t : Z) (events : list ObsEvent) : Prop :=
  match events with
  | [] => True
  | e :: events =>
      t <= default t (event_time e) /\ match e with EvWire n | EvForward n => 0 <= n | _ => True end /\
      in_order (default t (event_time e)) events
  end.

(** ** The time of a request *)

(** Samples that never run ahead of the counters. *)
Definition Samples_ok (reading wire : Z) (samples : list (Z * Z)) : Prop :=
  samples <> [] /\ Forall (fun '(at_, bytes) => 0 <= at_ <= reading /\ 0 <= bytes <= wire) samples.

Record Observation_wf (t0 t : Z) (o : Observation) : Prop := {
  ow_phase_at : ob_phase_at o = t;
  ow_time : ob_reading o + ob_headers o + ob_backpressure o + ob_writer_barrier o = t - t0;
  ow_pos : 0 <= ob_reading o /\ 0 <= ob_headers o /\ 0 <= ob_backpressure o /\ 0 <= ob_writer_barrier o /\ 0 <= ob_wire o;
  ow_samples : Samples_ok (ob_reading o) (ob_wire o) (ob_samples o);
  ow_tail : Samples_ok (ob_reading o) (ob_wire o) (ob_tail_samples o);
}.

Lemma Samples_grow r w r' w' l : r <= r' -> w <= w' -> Samples_ok r w l -> Samples_ok r' w' l.
Proof. intros Hr Hw [H1 H2]. split; [done|]. eapply Forall_impl; [exact H2|]. intros [a b]. lia. Qed.

Lemma Samples_one r w : 0 <= r -> 0 <= w -> Samples_ok r w [(r, w)].
Proof. intros Hr Hw. split; [done|]. apply Forall_singleton. lia. Qed.

Lemma trim_ok r w reading window l : Samples_ok r w l -> Samples_ok r w (trim reading window l).
Proof.
  induction l as [|a l IH]; [done|]. intros [H1 H2]. destruct l as [|[at_ b] [|c l]]; [done..|]. cbn [trim].
  destruct (_ <=? _); [|done]. apply IH. split; [done|]. by apply Forall_cons in H2 as [_ H2].
Qed.

Lemma advance_wf t0 t now o : t <= now -> Observation_wf t0 t o -> Observation_wf t0 now (advance now o).
Proof.
  intros Hn [<- H2 H3 H4 H5].
  assert (duration_since now (ob_phase_at o) = now - ob_phase_at o) as E by (unfold duration_since; lia).
  split; unfold advance; cbn; rewrite ?E; [done|destruct (ob_phase o); simpl; lia|destruct (ob_phase o); simpl; lia| |];
    (destruct (_ && _); [apply Samples_one|eapply Samples_grow; [| |done]]); destruct (ob_phase o); simpl; lia.
Qed.

Lemma sample_wf t0 t now o : t <= now -> Observation_wf t0 t o -> Observation_wf t0 now (snd (sample now o)).
Proof.
  intros Hn W. apply (advance_wf t0 t now) in W; [|done]. unfold sample. generalize dependent (advance now o). intros o1 W. destruct (negb _); [done|]. destruct W as [H1 H2 H3 H4 H5].
  split; cbn; try done. apply trim_ok. destruct H4 as [H4 H6]. split; [by intros [_ [=]]%app_eq_nil|]. apply Forall_app. split; [done|].
  apply Forall_singleton. lia.
Qed.

Lemma tail_sample_wf t0 t now o : t <= now -> Observation_wf t0 t o -> Observation_wf t0 now (snd (tail_sample now o)).
Proof.
  intros Hn W. apply (advance_wf t0 t now) in W; [|done]. unfold tail_sample. generalize dependent (advance now o). intros o1 W. destruct (negb _); [done|]. destruct W as [H1 H2 H3 H4 H5].
  split; cbn; try done. apply trim_ok. destruct H5 as [H5 H6]. split; [by intros [_ [=]]%app_eq_nil|]. apply Forall_app. split; [done|].
  apply Forall_singleton. lia.
Qed.

Lemma set_slow_wf t0 t s r o : Observation_wf t0 t o -> Observation_wf t0 t (set_slow (ob_samples o) s r o).
Proof. intros []. by split. Qed.

Lemma set_tail_wf t0 t s o : Observation_wf t0 t o -> Observation_wf t0 t (set_tail (ob_tail_samples o) s o).
Proof. intros []. by split. Qed.

Lemma should_recover_wf t0 t now b len o :
  t <= now -> Observation_wf t0 t o -> Observation_wf t0 now (snd (should_recover now b spec len o)).
Proof.
  intros Hn W. apply (sample_wf t0 t now) in W; [|done]. unfold should_recover. destruct (sample now o) as [[rate|] o']; [|done]. simpl in W.
  destruct (_ <? _); [by apply set_slow_wf|]. destruct (negb _); [by apply set_slow_wf|]. destruct (_ <? _); [by apply set_slow_wf|].
  destruct (positive _); by apply set_slow_wf.
Qed.

Lemma should_recover_tail_wf t0 t now b len o :
  t <= now -> Observation_wf t0 t o -> Observation_wf t0 now (snd (should_recover_tail now b spec len o)).
Proof.
  intros Hn W. apply (tail_sample_wf t0 t now) in W; [|done]. unfold should_recover_tail. destruct (tail_sample now o) as [rate o']. simpl in W.
  destruct rate as [rate|], (positive b) as [healthy|]; try by apply set_tail_wf. destruct (_ || _); by apply set_tail_wf.
Qed.

Lemma obs_event_wf t0 t e o :
  t <= default t (event_time e) -> match e with EvWire n | EvForward n => 0 <= n | _ => True end ->
  Observation_wf t0 t o -> Observation_wf t0 (default t (event_time e)) (obs_event e o).
Proof.
  destruct e as [now|p now|n|n| |now|now|now b tb len]; cbn [event_time obs_event]; change (default t (Some ?x)) with x; intros Hn Hc W.
  - by apply (advance_wf t0 t).
  - apply (advance_wf t0 t now) in W; [|done]. destruct W. by split.
  - destruct W as [H1 H2 H3 H4 H5]. split; cbn; try done; [lia|eapply Samples_grow; [reflexivity| |done]; lia..].
  - by destruct W; split.
  - by destruct W; split.
  - by apply (sample_wf t0 t).
  - by apply (tail_sample_wf t0 t).
  - apply (should_recover_tail_wf t0 now now); [done|]. by apply (should_recover_wf t0 t).
Qed.

(** The instant of the last reading. *)
Definition last_time (t : Z) (events : list ObsEvent) : Z := fold_left (fun t e => default t (event_time e)) events t.

Lemma observation_wf_run t0 window events :
  in_order t0 events ->
  Observation_wf t0 (last_time t0 events) (fold_left (fun o e => obs_event e o) events (Observation_new t0 window)).
Proof.
  assert (Observation_wf t0 t0 (Observation_new t0 window)) as W0 by (split; cbn; [done|lia|lia|apply Samples_one; lia..]).
  unfold last_time. revert W0. generalize (Observation_new t0 window) as o. generalize t0 at 2 3 5 as t.
  induction events as [|e events IH]; intros t o W; [done|]. cbn [in_order fold_left]. intros (H1 & H2 & H3).
  apply IH; [|done]. by apply obs_event_wf.
Qed.

(** ** Slowness *)

(** The source's [low], for a rate that was measured. *)
Definition low_rate (baseline : option f64) (rate : f64) : bool :=
  match po_absolute spec with Some limit => f64_ltb rate (f64_of limit) | None => false end ||
  match baseline with Some reference => f64_ltb rate (f64_mul reference (f64_lit 1 4)) | None => false end.

(** What an evaluation finds: no rate yet, or whether the request is slow after its grace period. *)
Definition verdict (now : Z) (baseline : option f64) (o : Observation) : option bool :=
  match sample now o with
  | (Some rate, o) => Some ((po_grace spec <=? ob_reading o) && low_rate baseline rate)
  | (None, _) => None
  end.

Definition tail_verdict (now : Z) (baseline : option f64) (o : Observation) : bool :=
  match tail_sample now o, positive baseline with
  | (Some rate, o), Some healthy =>
      (Z.min (po_grace spec) TAIL_GRACE <=? ob_reading o) && negb (f64_leb (f64_mul healthy (f64_lit 1 4)) rate)
  | _, _ => false
  end.

(** An observation with the evaluations made so far, the newest first: the reading
    time at each one and what it found. *)
Record Watch := mkWatch {
  wa_obs : Observation;
  wa_log : list (Z * option bool);
  wa_tail_log : list (Z * bool);
}.

Definition watch_event (w : Watch) (e : ObsEvent) : Watch :=
  let o := wa_obs w in
  let o' := obs_event e o in
  match e with
  | EvEvaluate now baseline tail_baseline len =>
      let o1 := snd (should_recover now baseline spec len o) in
      mkWatch o' ((ob_reading o1, verdict now baseline o) :: wa_log w)
        ((ob_reading o', tail_verdict now tail_baseline o1) :: wa_tail_log w)
  | _ => mkWatch o' (wa_log w) (wa_tail_log w)
  end.

Definition watch (t0 window : Z) (events : list ObsEvent) : Watch :=
  fold_left watch_event events (mkWatch (Observation_new t0 window) [] []).

(** The log has found slowness at reading time [t], and nothing else since. *)
Definition Since {A} (slow not_slow : A) (t : Z) (log : list (Z * A)) : Prop :=
  exists newer older, log = newer ++ (t, slow) :: older /\ Forall (fun v => v.2 <> not_slow) newer.

Definition slow_for {A} (slow not_slow : A) (since : option Z) (reading : Z) (log : list (Z * A)) : Prop :=
  forall t, since = Some t -> t <= reading /\ Since slow not_slow t log.

Lemma Since_cons {A} (slow not_slow : A) t v log : v.2 <> not_slow -> Since slow not_slow t log -> Since slow not_slow t (v :: log).
Proof. intros Hv (newer & older & -> & HF). exists (v :: newer), older. split; [done|]. by apply Forall_cons. Qed.

Lemma Since_now {A} (slow not_slow : A) t log : Since slow not_slow t ((t, slow) :: log).
Proof. exists [], log. by split; [|constructor]. Qed.

Lemma advance_slow now o :
  ob_reading o <= ob_reading (advance now o) /\
  (forall t, ob_slow_since (advance now o) = Some t -> ob_slow_since o = Some t) /\
  (forall t, ob_tail_slow_since (advance now o) = Some t -> ob_tail_slow_since o = Some t).
Proof.
  unfold advance, duration_since. cbn. split_and!.
  - destruct (bool_decide _); lia.
  - intros t. by destruct (_ && _).
  - intros t. by destruct (_ && _).
Qed.

Lemma sample_slow now o :
  let o' := snd (sample now o) in
  ob_reading o' = ob_reading (advance now o) /\ ob_slow_since o' = ob_slow_since (advance now o) /\
  ob_tail_slow_since o' = ob_tail_slow_since (advance now o) /\ ob_forwarded o' = ob_forwarded o.
Proof. unfold sample. by destruct (negb _). Qed.

Lemma tail_sample_slow now o :
  let o' := snd (tail_sample now o) in
  ob_reading o' = ob_reading (advance now o) /\ ob_slow_since o' = ob_slow_since (advance now o) /\
  ob_tail_slow_since o' = ob_tail_slow_since (advance now o) /\ ob_forwarded o' = ob_forwarded o.
Proof. unfold tail_sample. by destruct (negb _). Qed.

(** An evaluation resets, keeps or starts the time of slowness. *)
Lemma should_recover_slow now b len o r o' :
  should_recover now b spec len o = (r, o') ->
  ob_reading o' = ob_reading (advance now o) /\ ob_tail_slow_since o' = ob_tail_slow_since (advance now o) /\
  ob_forwarded o' = ob_forwarded o /\
  match verdict now b o with
  | None => ob_slow_since o' = ob_slow_since (advance now o) /\ r = false
  | Some false => ob_slow_since o' = None /\ r = false
  | Some true =>
      let since := default (ob_reading o') (ob_slow_since (advance now o)) in
      ob_slow_since o' = Some since /\
      (r = true -> po_grace spec <= ob_reading o' /\ po_duration spec <= sat_sub64 (ob_reading o') since /\ ob_forwarded o < len)
  end.
Proof.
  unfold should_recover, verdict. pose proof (sample_slow now o) as (H1 & H2 & H3 & H4). destruct (sample now o) as [[rate|] o1]; simpl in *.
  2: { by intros [= <- <-]. }
  rewrite Z.leb_antisym. destruct (Z.ltb_spec (ob_reading o1) (po_grace spec)) as [Hg|Hg]; [by intros [= <- <-]|].
  fold (low_rate b rate). cbn [negb andb]. destruct (low_rate b rate); [|by intros [= <- <-]]. cbn [negb]. rewrite <- H2.
  destruct (Z.ltb_spec (sat_sub64 (ob_reading o1) (default (ob_reading o1) (ob_slow_since o1))) (po_duration spec)) as [Hd|Hd]; [by intros [= <- <-]|].
  destruct (positive _); [|by intros [= <- <-]]. intros [= <- <-]. cbn. split_and!; try done. unfold recovery_benefits.
  intros [[Hr _]%andb_true_iff _]%andb_true_iff. apply Z.ltb_lt in Hr. unfold sat_sub64 in Hr. rewrite H4 in Hr. split_and!; [done|done|lia].
Qed.

Lemma should_recover_tail_slow now b len o r o' :
  should_recover_tail now b spec len o = (r, o') ->
  ob_reading o' = ob_reading (advance now o) /\ ob_slow_since o' = ob_slow_since (advance now o) /\
  ob_forwarded o' = ob_forwarded o /\
  if tail_verdict now b o then
    let since := default (ob_reading o') (ob_tail_slow_since (advance now o)) in
    ob_tail_slow_since o' = Some since /\
    (r = true -> Z.min (po_grace spec) TAIL_GRACE <= ob_reading o' /\
                 Z.min (po_duration spec) TAIL_DURATION <= sat_sub64 (ob_reading o') since /\ ob_forwarded o < len)
  else ob_tail_slow_since o' = None /\ r = false.
Proof.
  unfold should_recover_tail, tail_verdict. pose proof (tail_sample_slow now o) as (H1 & H2 & H3 & H4).
  destruct (tail_sample now o) as [[rate|] o1]; simpl in *; [|by intros [= <- <-]].
  destruct (positive b) as [healthy|]; [|by intros [= <- <-]]. rewrite (Z.leb_antisym (ob_reading o1) (Z.min (po_grace spec) TAIL_GRACE)).
  destruct (Z.ltb_spec (ob_reading o1) (Z.min (po_grace spec) TAIL_GRACE)) as [Hg|Hg]; [by intros [= <- <-]|].
  cbn [negb andb orb]. destruct (f64_leb _ rate); [by intros [= <- <-]|]. cbn [negb]. rewrite <- H3. intros [= <- <-]. cbn. split_and!; try done.
  unfold recovery_benefits. intros [Hd%Z.leb_le [[Hr%Z.ltb_lt _]%andb_true_iff _]%andb_true_iff]%andb_true_iff. unfold sat_sub64 at 1 in Hr.
  rewrite H4 in Hr. split_and!; [done|done|lia].
Qed.

Record Watch_ok (w : Watch) : Prop := {
  wk_slow : slow_for (Some true) (Some false) (ob_slow_since (wa_obs w)) (ob_reading (wa_obs w)) (wa_log w);
  wk_tail : slow_for true false (ob_tail_slow_since (wa_obs w)) (ob_reading (wa_obs w)) (wa_tail_log w);
}.

(** The clock only moves on. *)
Lemma slow_for_advance {A} (slow not_slow : A) since since' r r' log :
  (forall t, since' = Some t -> since = Some t) -> r <= r' -> slow_for slow not_slow since r log -> slow_for slow not_slow since' r' log.
Proof. intros Hs Hr H t Ht. destruct (H t (Hs t Ht)) as [H1 H2]. split; [lia|done]. Qed.

(** One evaluation after the clock moved from [r] to [r']. *)
Lemma slow_for_evaluate {A} (slow not_slow found : A) since r r' log :
  slow <> not_slow -> r <= r' -> slow_for slow not_slow since r log -> found = slow ->
  slow_for slow not_slow (Some (default r' since)) r' ((r', found) :: log).
Proof.
  intros Hne Hr H -> t [= <-]. destruct since as [t|]; simpl; [|split; [done|apply Since_now]].
  destruct (H t eq_refl) as [H1 H2]. split; [lia|by apply Since_cons].
Qed.

Lemma slow_for_none {A} (slow not_slow : A) r log : slow_for slow not_slow None r log.
Proof. by intros t. Qed.

Lemma watch_evaluate w now b tb len : Watch_ok w -> Watch_ok (watch_event w (EvEvaluate now b tb len)).
Proof.
  intros [W1 W2]. cbn [watch_event obs_event]. set (o := wa_obs w) in *.
  destruct (should_recover now b spec len o) as [r o1] eqn:E1. cbn [snd].
  destruct (should_recover_tail now tb spec len o1) as [r2 o2] eqn:E2. cbn [snd].
  destruct (should_recover_slow _ _ _ _ _ _ E1) as (A1 & A2 & _ & A4). destruct (should_recover_tail_slow _ _ _ _ _ _ E2) as (B1 & B2 & _ & B4).
  destruct (advance_slow now o) as (C1 & C2 & C3). destruct (advance_slow now o1) as (D1 & D2 & D3).
  assert (slow_for (Some true) (Some false) (ob_slow_since (advance now o)) (ob_reading (advance now o)) (wa_log w)) as W1'
    by by eapply slow_for_advance.
  assert (slow_for true false (ob_tail_slow_since (advance now o1)) (ob_reading (advance now o1)) (wa_tail_log w)) as W2'.
  { eapply slow_for_advance; [exact D3|exact D1|]. rewrite A1, A2. by eapply slow_for_advance. }
  assert (ob_reading (advance now o) <= ob_reading o2) as Hmono by lia.
  split; cbn [wa_obs wa_log wa_tail_log].
  - apply (slow_for_advance _ _ (ob_slow_since o1) _ (ob_reading o1)); [by rewrite B2|lia|].
    rewrite <- A1 in W1'. destruct (verdict now b o) as [[|]|]; destruct A4 as [-> _]; [|apply slow_for_none|].
    + by apply (slow_for_evaluate (Some true) (Some false) (Some true) _ (ob_reading o1)).
    + intros t Ht. destruct (W1' t Ht). split; [lia|by apply Since_cons].
  - destruct (tail_verdict now tb o1); destruct B4 as [-> _]; [|apply slow_for_none]. rewrite <- B1 in W2'.
    by apply (slow_for_evaluate true false true _ (ob_reading o2)).
Qed.

Lemma watch_event_ok w e : Watch_ok w -> Watch_ok (watch_event w e).
Proof.
  destruct e as [now|p now|n|n| |now|now|now b tb len]; [..|by apply watch_evaluate]; intros [W1 W2]; split; cbn [watch_event wa_obs wa_log wa_tail_log obs_event];
    try done; pose proof (advance_slow now (wa_obs w)) as (C1 & C2 & C3).
  1, 3: by eapply slow_for_advance.
  1, 2: by eapply slow_for_advance.
  - destruct (sample_slow now (wa_obs w)) as (-> & -> & _). by eapply slow_for_advance.
  - destruct (sample_slow now (wa_obs w)) as (-> & _ & -> & _). by eapply slow_for_advance.
  - destruct (tail_sample_slow now (wa_obs w)) as (-> & -> & _). by eapply slow_for_advance.
  - destruct (tail_sample_slow now (wa_obs w)) as (-> & _ & -> & _). by eapply slow_for_advance.
Qed.

Lemma watch_ok t0 window events : Watch_ok (watch t0 window events).
Proof.
  unfold watch. assert (Watch_ok (mkWatch (Observation_new t0 window) [] [])) as W by by split.
  revert W. generalize (mkWatch (Observation_new t0 window) [] []). induction events as [|e events IH]; intros w W; [done|].
  cbn [fold_left]. by apply IH, watch_event_ok.
Qed.

Lemma watch_obs t0 window events : wa_obs (watch t0 window events) = fold_left (fun o e => obs_event e o) events (Observation_new t0 window).
Proof.
  unfold watch. change (Observation_new t0 window) with (wa_obs (mkWatch (Observation_new t0 window) [] [])) at 2.
  generalize (mkWatch (Observation_new t0 window) [] []). induction events as [|e events IH]; intros w; [done|]. cbn [fold_left].
  rewrite IH. f_equal. by destruct e.
Qed.

(** ** Properties *)

(** The measurements of a request are exact.  Whatever sequence of phases,
    frames, hand-overs, samples and evaluations a request goes through on a monotonic
    clock, the times charged to reading, headers, backpressure and the writer add up to
    exactly the time since it was created, and no sample is ahead of the counters, so
    the subtractions in its rates never wrap. *)
Theorem observation_accounts_time t0 window events :
  in_order t0 events ->
  let o := wa_obs (watch t0 window events) in
  ob_phase_at o = last_time t0 events /\
  ob_reading o + ob_headers o + ob_backpressure o + ob_writer_barrier o = last_time t0 events - t0 /\
  Forall (fun '(at_, bytes) => at_ <= ob_reading o /\ bytes <= ob_wire o) (ob_samples o ++ ob_tail_samples o) /\
  ob_samples o <> [] /\ ob_tail_samples o <> [].
Proof.
  intros Ho o. pose proof (observation_wf_run t0 window events Ho) as W. rewrite <- watch_obs in W. fold o in W. destruct W as [W1 W2 _ [W4 W5] [W6 W7]].
  split_and!; try done. apply Forall_app. split; [eapply Forall_impl; [exact W5|]|eapply Forall_impl; [exact W7|]]; intros [a b]; lia.
Qed.

(** C38: A request is only given up after sustained slowness.  After any history of
    the request, when an evaluation recommends recovery then it has been reading for at
    least the grace period, this evaluation found it slow, and so did an evaluation at
    least the configured reading time ago and every one in between that could measure a
    rate; and bytes are left to fetch.  The same holds for the shorter times of the
    tail. *)
Theorem recovery_is_sustained t0 window events now baseline len :
  let w := watch t0 window events in
  (forall o', should_recover now baseline spec len (wa_obs w) = (true, o') ->
   po_grace spec <= ob_reading o' /\ ob_forwarded o' < len /\
   exists t, t + po_duration spec <= ob_reading o' /\ Since (Some true) (Some false) t ((ob_reading o', Some true) :: wa_log w)) /\
  (forall o', should_recover_tail now baseline spec len (wa_obs w) = (true, o') ->
   Z.min (po_grace spec) TAIL_GRACE <= ob_reading o' /\ ob_forwarded o' < len /\
   exists t, t + Z.min (po_duration spec) TAIL_DURATION <= ob_reading o' /\ Since true false t ((ob_reading o', true) :: wa_tail_log w)).
Proof.
  intros w. pose proof (watch_ok t0 window events) as [W1 W2]. fold w in W1, W2. destruct (advance_slow now (wa_obs w)) as (C1 & C2 & C3).
  split; intros o' E.
  - destruct (should_recover_slow _ _ _ _ _ _ E) as (A1 & _ & A3 & A4).
    destruct (verdict now baseline (wa_obs w)) as [[|]|]; [|by destruct A4 as [_ ?]..]. destruct A4 as [_ A4]. destruct (A4 eq_refl) as (H1 & H2 & H3).
    split_and!; [done|lia|]. assert (slow_for (Some true) (Some false) (ob_slow_since (advance now (wa_obs w))) (ob_reading o') (wa_log w)) as W
      by (eapply slow_for_advance; [exact C2|rewrite A1; exact C1|done]).
    apply (slow_for_evaluate (Some true) (Some false) (Some true) _ _ (ob_reading o')) in W; [|done|reflexivity|done].
    destruct (W _ eq_refl) as [W3 W4]. eexists. split; [|exact W4]. unfold sat_sub64 in H2. lia.
  - destruct (should_recover_tail_slow _ _ _ _ _ _ E) as (A1 & _ & A3 & A4).
    destruct (tail_verdict now baseline (wa_obs w)); [|by destruct A4 as [_ ?]]. destruct A4 as [_ A4]. destruct (A4 eq_refl) as (H1 & H2 & H3).
    split_and!; [done|lia|]. assert (slow_for true false (ob_tail_slow_since (advance now (wa_obs w))) (ob_reading o') (wa_tail_log w)) as W
      by (eapply slow_for_advance; [exact C3|rewrite A1; exact C1|done]).
    apply (slow_for_evaluate true false true _ _ (ob_reading o')) in W; [|done|reflexivity|done].
    destruct (W _ eq_refl) as [W3 W4]. eexists. split; [|exact W4]. unfold sat_sub64 in H2. lia.
Qed.
End Runs.

(** ** A slow request

    A body that brings 100 bytes a second, measured every second against a limit of
    1000 bytes a second. *)

Module DemoObservation.
Definition second : Z := NANOS_PER_SEC.
Definition policy : Policy := mkRecoveryPolicy Adaptive (Some 1000) (2 * second) (2 * second) second.
Definition tick (n : Z) : list ObsEvent := [EvWire 100; EvForward 100; EvEvaluate (n * second) None None 1000000].
Definition events : list ObsEvent :=
  EvAdvance second :: EvPhase Reading (2 * second) :: tick 3 ++ tick 4 ++ tick 5 ++ tick 6.
End DemoObservation.

Lemma observation_accounts_time_witness :
  let o := wa_obs (watch DemoObservation.policy 0 DemoObservation.second DemoObservation.events) in
  ob_headers o = 2 * DemoObservation.second /\ ob_reading o + ob_headers o + ob_backpressure o + ob_writer_barrier o = 6 * DemoObservation.second.
Proof.
  split; [vm_compute; reflexivity|].
  apply (observation_accounts_time DemoObservation.policy 0 DemoObservation.second DemoObservation.events).
  vm_compute. repeat split; discriminate.
Defined.

Lemma recovery_is_sustained_witness :
  exists t, t + 2 * DemoObservation.second <= 5 * DemoObservation.second /\
    Since (Some true) (Some false) t
      ((5 * DemoObservation.second, Some true) :: wa_log (watch DemoObservation.policy 0 DemoObservation.second DemoObservation.events)).
Proof.
  assert (exists o, should_recover (7 * DemoObservation.second) None DemoObservation.policy 1000000
    (wa_obs (watch DemoObservation.policy 0 DemoObservation.second DemoObservation.events)) = (true, o) /\ ob_reading o = 5 * DemoObservation.second)
    as (o & E & Hr) by (eexists; split; vm_compute; reflexivity).
  destruct (proj1 (recovery_is_sustained DemoObservation.policy 0 DemoObservation.second DemoObservation.events
    (7 * DemoObservation.second) None 1000000) o E) as (_ & _ & t & H).
  exists t. rewrite <- Hr. exact H.
Defined.
