(* ===== verification/Recovery.v ===== *)
(** * Adaptive recovery ([Execution] of [src/session/multi/worker.rs], [recommend] of
    [src/session/multi/worker/recovery.rs])

    What the workers of a session share to decide when a slow request is cancelled or
    challenged: the observations of the active requests, the rates of past ones, the
    queue of recovered ranges, and the budget for extra traffic.

    [Arc]s are handles into stores of live objects; each step is one critical section
    or one tick of a worker. *)

From Stdlib Require Import Floats.SpecFloat.
From stdpp Require Import functions.
From S2P Require Import Prelude RustStr Errors Float64 Net Segment Scheduler Planner Response Config Retry Workers Pending Recovered Observation.

Definition COOLDOWN : Z := 10 * NANOS_PER_SEC.
Definition MAX_EXTRA : Z := 16 * 1024 * 1024.
Definition MAX_HEDGE : Z := 1024 * 1024.

(** ** Data *)

Record Lineage := mkLineage {
  ln_retries : RetryState;
  ln_recoveries : Z;
}.

(** The given-back part of a piece and the lineage it inherits. *)
Record RecoveredPiece := mkRecoveredPiece {
  rv_piece : nat;
  rv_start : Z;
  rv_end : Z;
  rv_remaining : Z;
  rv_lineage : nat;
}.

Record State := mkState {
  st_active : gmap LeaseKey nat;
  st_suffix_handoffs : gmap LeaseKey Z;
  st_history : list (Z * f64 * option IpAddr);
  st_recovered : list RecoveredPiece;
  st_pending : list PendingRange;
  st_reserved : Z;
  st_consumed_extra : Z;
  st_decisions : gmap rstr Z;
  st_retries : Z;
  st_actions : Z;
  st_hedge : bool;
  st_last_action : option Z;
  st_blocked_until : option Z;
}.

Definition State_new : State := mkState ∅ ∅ [] [] [] 0 0 ∅ 0 0 false None None.

(** The fixed part of [Execution]. *)
Record Execution := mkExecution {
  ex_policy : Policy;
  ex_validator : option rstr;
  ex_slot_capacity : nat;
  ex_extra_limit : Z;
  ex_history_limit : nat;
}.

(** What the workers share: the locked state, the observations and lineages behind
    their [Arc]s, the free permits of [slots], and the next handle. *)
Record Shared := mkShared {
  sh_state : State;
  sh_observations : nat -> Observation;
  sh_lineages : nat -> Lineage;
  sh_available : nat;
  sh_next : nat;
}.

Definition set_active (active : gmap LeaseKey nat) (handoffs : gmap LeaseKey Z) (st : State) : State :=
  mkState active handoffs (st_history st) (st_recovered st) (st_pending st) (st_reserved st) (st_consumed_extra st)
    (st_decisions st) (st_retries st) (st_actions st) (st_hedge st) (st_last_action st) (st_blocked_until st).

Definition set_history (history : list (Z * f64 * option IpAddr)) (st : State) : State :=
  mkState (st_active st) (st_suffix_handoffs st) history (st_recovered st) (st_pending st) (st_reserved st)
    (st_consumed_extra st) (st_decisions st) (st_retries st) (st_actions st) (st_hedge st) (st_last_action st) (st_blocked_until st).

Definition set_recovered (recovered : list RecoveredPiece) (pending : list PendingRange) (st : State) : State :=
  mkState (st_active st) (st_suffix_handoffs st) (st_history st) recovered pending (st_reserved st) (st_consumed_extra st)
    (st_decisions st) (st_retries st) (st_actions st) (st_hedge st) (st_last_action st) (st_blocked_until st).

Definition set_budget (reserved consumed actions : Z) (hedge : bool) (last_action : option Z) (st : State) : State :=
  mkState (st_active st) (st_suffix_handoffs st) (st_history st) (st_recovered st) (st_pending st) reserved consumed
    (st_decisions st) (st_retries st) actions hedge last_action (st_blocked_until st).

Definition set_blocked (until : option Z) (st : State) : State :=
  mkState (st_active st) (st_suffix_handoffs st) (st_history st) (st_recovered st) (st_pending st) (st_reserved st)
    (st_consumed_extra st) (st_decisions st) (st_retries st) (st_actions st) (st_hedge st) (st_last_action st) until.

(** [*decisions.entry(reason).or_default() += 1] *)
Definition count_decision (reason : rstr) (st : State) : State :=
  mkState (st_active st) (st_suffix_handoffs st) (st_history st) (st_recovered st) (st_pending st) (st_reserved st)
    (st_consumed_extra st) (<[reason := default 0 (st_decisions st !! reason) ⊕ 1]> (st_decisions st)) (st_retries st)
    (st_actions st) (st_hedge st) (st_last_action st) (st_blocked_until st).

Definition set_state (st : State) (x : Shared) : Shared :=
  mkShared st (sh_observations x) (sh_lineages x) (sh_available x) (sh_next x).

Definition set_observations (obs : nat -> Observation) (x : Shared) : Shared :=
  mkShared (sh_state x) obs (sh_lineages x) (sh_available x) (sh_next x).

(** ** Setting up *)

Definition strong_etag (value : rstr) : bool :=
  bool_decide (head value = Some 34) && bool_decide (last value = Some 34) && (2 <=? length value)%nat &&
  forallb (fun b => (b =? 33) || ((35 <=? b) && (b <=? 126)) || (128 <=? b)) (removelast (tail value)).

Definition condition_headers : list rstr :=
  [str "if-match"; str "if-range"; str "if-none-match"; str "if-unmodified-since"; str "if-modified-since"].

Definition usable_validator (spec : DownloadSpec) (meta : ResponseMeta) : option rstr :=
  let conflict := existsb (fun h => existsb (fun condition => bool_decide (to_ascii_lowercase <$> h = condition)) condition_headers)
                    (map_to_list (ds_headers spec)).*1 in
  if conflict then None
  else match etag meta with Some v => if strong_etag v then Some v else None | None => None end.

(** [Execution::new_with_start] *)
Definition Execution_new (spec : DownloadSpec) (meta : ResponseMeta) (total : Z) : Execution :=
  let r := ds_recovery spec in
  mkExecution
    (mkRecoveryPolicy (cf_slow_transfer_mode r) (cf_low_speed_limit r) (cf_low_speed_duration r) (cf_slow_start_grace r)
       (cf_slow_sample_window r))
    (usable_validator spec meta) (Z.to_nat (ds_max_connections spec)) (Z.min (total / 100) MAX_EXTRA)
    (Z.to_nat (Z.max (ds_max_connections spec * 2) 4)).

Definition recovery_request_cap (mode : RangeSchedulingMode) (request_batch_size dynamic_max_request_size : Z) : Z :=
  match mode with Fixed => request_batch_size | Dynamic => dynamic_max_request_size end.

(** ** The state *)

(** [pending_backoff], of the two fields it reads *)
Definition pending_backoff (now : Z) (pending : list PendingRange) (blocked_until : option Z) : option Z :=
  if bool_decide (pending = []) then None
  else match blocked_until with
       | Some until => if now <? until then Some (until - now) else None
       | None => None
       end.

(** [Ord::max] of two optional instants *)
Definition later (a b : option Z) : option Z :=
  match a, b with
  | Some a, Some b => Some (Z.max a b)
  | None, x | x, None => x
  end.

(** [backoff]; [until]: the sum [Instant::now().checked_add(delay)]. *)
Definition backoff (until : option Z) (st : State) : State := set_blocked (later (st_blocked_until st) until) st.

Definition tick (p : Policy) : Z := Z.max (Z.min (po_window p / 5) (TAIL_WINDOW / 5)) 1.

Definition blocked (now : Z) (st : State) : bool :=
  match st_blocked_until st with Some until => now <? until | None => false end.

(** The keys of [active] in the order of the [BTreeMap]. *)
Definition key_leb (a b : LeaseKey) : bool :=
  (key_piece_id a <? key_piece_id b)%nat || ((key_piece_id a =? key_piece_id b)%nat && (key_lease_id a <=? key_lease_id b)).

Definition key_le (a b : LeaseKey) : Prop := key_leb a b = true.

#[export] Instance key_le_dec : RelDecision key_le.
Proof. intros a b. unfold key_le. apply _. Defined.

Definition active_entries (st : State) : list (LeaseKey * nat) :=
  omap (fun k => (fun id => (k, id)) <$> st_active st !! k) (merge_sort key_le (map_to_list (st_active st)).*1).

Definition isolated_ip_tail (obs : nat -> Observation) (st : State) (target : LeaseKey) (baseline : f64) : bool :=
  match id ← st_active st !! target; ob_ip (obs id) with
  | None => false
  | Some ip =>
      forallb (fun '(_, id) => bool_decide (ob_ip (obs id) = Some ip)) (active_entries st) &&
      (length (take 2 (List.filter (fun '(_, rate, peer) =>
         match peer with Some p => negb (bool_decide (p = ip)) | None => false end &&
         f64_leb (f64_mul baseline (f64_lit 1 2)) rate) (st_history st))) =? 2)%nat
  end.

(** ** The baseline *)

(** The loop over the other active requests: their rates, or [None] when one of them
    has no sample and [tail] is set. *)
Fixpoint sample_others (tail : bool) (target : LeaseKey) (now : Z) (entries : list (LeaseKey * nat)) (obs : nat -> Observation)
    : option (list f64) * (nat -> Observation) :=
  match entries with
  | [] => (Some [], obs)
  | (key, id) :: entries =>
      if bool_decide (key = target) then sample_others tail target now entries obs
      else
        let '(rate, o) := (if tail then tail_sample else sample) now (obs id) in
        let obs := <[id := o]> obs in
        match rate with
        | Some rate =>
            let '(rates, obs) := sample_others tail target now entries obs in
            ((fun l => rate :: l) <$> rates, obs)
        | None => if tail then (None, obs) else sample_others tail target now entries obs
        end
  end.

#[export] Instance f64_total_le_dec : RelDecision (fun x y => f64_total_le x y = true).
Proof. intros a b. apply _. Defined.

Definition median (rates : list f64) : f64 :=
  default (f64_of 0) (merge_sort (fun x y => f64_total_le x y = true) rates !! (length rates / 2)%nat).

Definition sample_baseline (ex : Execution) (tail : bool) (target : LeaseKey) (now : Z) (x : Shared) : option f64 * Shared :=
  let st := sh_state x in
  if tail && (negb (bool_decide (is_Some (st_active st !! target))) ||
              negb (ex_slot_capacity ex - sh_available x =? size (st_active st))%nat)
  then (None, x)
  else
    let ttl := Z.max (duration_sat_mul (po_window (ex_policy ex)) 12) (30 * NANOS_PER_SEC) in
    let st := set_history (List.filter (fun '(at_, _, _) => duration_since now at_ <=? ttl) (st_history st)) st in
    let '(current, obs) := sample_others tail target now (active_entries st) (sh_observations x) in
    let x := set_observations obs (set_state st x) in
    match current with
    | None => (None, x)
    | Some current =>
        let rates := List.filter (fun r => f64_gtb r (f64_of 0)) (((fun '(_, rate, _) => rate) <$> st_history st) ++ current) in
        if (length rates <? 2)%nat then (None, set_state (count_decision (str "baseline_insufficient_samples") st) x)
        else
          let baseline := median rates in
          if negb (bool_decide (current = [])) && forallb (fun r => f64_ltb r (f64_mul baseline (f64_lit 1 2))) current &&
             negb (isolated_ip_tail obs st target baseline)
          then (None, set_state (count_decision (str "baseline_all_live_slow") st) x)
          else (Some baseline, x)
    end.

Definition tail_eligible (len : Z) (available : bool) (x : Shared) : bool :=
  (0 <? len) && negb available && (0 <? sh_available x)%nat && bool_decide (st_pending (sh_state x) = []).

(** ** The budget *)

Record Reservation := mkReservation {
  re_bound : Z;
  re_cost : Z;
}.

Definition reserve_result (ex : Execution) (len : Z) (lineage : Lineage) (hedge : bool) (now : Z) (st : State)
    : result Reservation rstr * Lineage * State :=
  if st_hedge st then (Err (str "challenger_active"), lineage, st)
  else if blocked now st then (Err (str "global_backoff"), lineage, st)
  else if match st_last_action st with Some at_ => duration_since now at_ <? COOLDOWN | None => false end
  then (Err (str "cooldown"), lineage, st)
  else if sat_sub64 (ex_extra_limit ex) (sat_add64 (st_reserved st) (st_consumed_extra st)) <? len
  then (Err (str "budget"), lineage, st)
  else if 2 <=? ln_recoveries lineage then (Err (str "lineage_limit"), lineage, st)
  else
    (Ok (mkReservation len len), mkLineage (ln_retries lineage) (ln_recoveries lineage + 1),
     set_budget (st_reserved st ⊕ len) (st_consumed_extra st) (st_actions st ⊕ 1) hedge (Some now) st).

(** [Drop] of [Reservation] *)
Definition drop_reservation (r : Reservation) (st : State) : State :=
  set_budget (st_reserved st ⊖ re_bound r) (sat_add64 (st_consumed_extra st) (re_cost r)) (st_actions st) (st_hedge st)
    (st_last_action st) st.

(** [Drop] of [HedgeGuard] *)
Definition drop_hedge_guard (st : State) : State :=
  set_budget (st_reserved st) (st_consumed_extra st) (st_actions st) false (st_last_action st) st.

(** What cancelling the attempt costs in the end ([worker_loop], [Outcome::Recover]):
    [read_ahead] bytes of the body were not consumed. *)
Definition cancel_cost (read_ahead forwarded len : Z) (protected : bool) : Z :=
  let retain := protected && (0 <? forwarded) && (forwarded <? len) in
  read_ahead ⊕ (if retain then 0 else forwarded).

(** ** Observations *)

Fixpoint keep_last {A} (n : nat) (l : list A) : list A :=
  match l with
  | [] => []
  | _ :: rest => if (n <? length l)%nat then keep_last n rest else l
  end.

(** [finish_observation]; [now1] and [now2] are its two readings of the clock. *)
Definition finish_observation (ex : Execution) (key : LeaseKey) (completed : bool) (now1 now2 : Z) (x : Shared) : Shared :=
  let st := sh_state x in
  let handoffs := delete key (st_suffix_handoffs st) in
  match st_active st !! key with
  | None => set_state (set_active (st_active st) handoffs st) x
  | Some id =>
      let o := advance now1 (sh_observations x id) in
      let st := set_active (delete key (st_active st)) handoffs st in
      let st :=
        if completed && negb (ob_reading o =? 0) && (0 <? ob_wire o) then
          set_history (keep_last (ex_history_limit ex)
            (st_history st ++ [(now2, f64_div (f64_of (ob_wire o)) (f64_secs (ob_reading o)), ob_ip o)])) st
        else st in
      set_observations (<[id := o]> (sh_observations x)) (set_state st x)
  end.

(** ** Lineages *)

Definition covers (g : Segment) (r : RecoveredPiece) : bool :=
  (rv_piece r =? seg_piece_id g)%nat && (rv_start r <=? seg_start g) && (seg_end g <=? rv_end r).

(** The method [lineage]: the handle of the inherited history, or a new one. *)
Definition lineage_of (fresh : Lineage) (g : Segment) (x : Shared) : nat * Shared :=
  match List.find (covers g) (st_recovered (sh_state x)) with
  | Some r => (rv_lineage r, x)
  | None =>
      (sh_next x, mkShared (sh_state x) (sh_observations x) (<[sh_next x := fresh]> (sh_lineages x)) (sh_available x) (sh_next x + 1))
  end.

Definition same_record (piece lineage : nat) (r : RecoveredPiece) : bool :=
  (rv_piece r =? piece)%nat && (rv_lineage r =? lineage)%nat.

Definition add_record (lineage : nat) (recovered : list RecoveredPiece) (g : Segment) : list RecoveredPiece :=
  if existsb (same_record (seg_piece_id g) lineage) recovered then recovered
  else recovered ++ [mkRecoveredPiece (seg_piece_id g) (seg_start g) (seg_end g) (seg_end g ⊖ seg_start g) lineage].

Definition recovered_batch_with_split (segments : list Segment) (lineage : nat) (request_cap : Z) (split_min_size : option Z)
    (st : State) : State :=
  if bool_decide (segments = []) then st
  else set_recovered (fold_left (add_record lineage) segments (st_recovered st))
         (st_pending st ++ pending_of_segments segments request_cap split_min_size) st.

(** The method [completed]. *)
Fixpoint charge_record (g : Segment) (lineage : nat) (recovered : list RecoveredPiece) : list RecoveredPiece :=
  match recovered with
  | [] => []
  | r :: rest =>
      if same_record (seg_piece_id g) lineage r
      then mkRecoveredPiece (rv_piece r) (rv_start r) (rv_end r) (sat_sub64 (rv_remaining r) (seg_end g ⊖ seg_start g)) (rv_lineage r) :: rest
      else r :: charge_record g lineage rest
  end.

Definition completed (g : Segment) (lineage : nat) (st : State) : State :=
  set_recovered (List.filter (fun r => 0 <? rv_remaining r) (charge_record g lineage (st_recovered st))) (st_pending st) st.

(** [recover_segments] as a whole. *)
Definition recover_segments (request_cap min_segment_size : Z) (lineage : nat) (segments : list Segment)
    (s : SchedulerState) (st : State) : SchedulerState * State :=
  match segments with
  | [] => (s, st)
  | _ =>
      let groups := reverse (fold_left (group_segment s) segments []) in
      (reclaim_all segments s,
       fold_left (fun st '(group, whole_piece) =>
         recovered_batch_with_split group lineage request_cap (if (whole_piece : bool) then None else Some min_segment_size) st) groups st)
  end.

(** ** Handing off the unstarted rest of a request *)

(** The parts of [AttemptContext] the decisions use; [at_observation] and [at_lineage]
    are handles. *)
Record AttemptContext := mkAttempt {
  at_segment : Segment;
  at_request_end : Z;
  at_rate_limited : bool;
  at_observation : nat;
  at_lineage : nat;
  at_request_cap : Z;
  at_min_segment_size : Z;
}.

(** The leases queued behind the current one, the scheduler and the shared state. *)
Abbreviation Work := (list Segment * SchedulerState * Shared)%type.

Section Tick.
  Context (ex : Execution) (ctx : AttemptContext) (now : Z).

Definition own_observation (x : Shared) : Observation := sh_observations x (at_observation ctx).

Definition release_queued (w : Work) : Work :=
  let '(queued, s, x) := w in
  let '(s, st) := recover_segments (at_request_cap ctx) (at_min_segment_size ctx) (at_lineage ctx) queued s (sh_state x) in
  ([], s, set_state st x).

Definition apply_ip_suffix_handoff (w : Work) : Work :=
  let '(queued, s, x) := w in
  let st := sh_state x in
  let key := lease_key (at_segment ctx) in
  if at_rate_limited ctx || negb (bool_decide (ob_phase (own_observation x) = Reading)) then w
  else if blocked now st then w
  else
    let x' := set_state (set_active (st_active st) (delete key (st_suffix_handoffs st)) st) x in
    match st_suffix_handoffs st !! key with
    | None => (queued, s, x')
    | Some until =>
        if until <? now then (queued, s, x')
        else if bool_decide (queued = []) then (queued, s, x')
        else release_queued (queued, s, x')
    end.

(** The loop of [schedule_ip_suffix_handoffs]: the slow active requests. *)
Fixpoint slow_entries (baseline : f64) (entries : list (LeaseKey * nat)) (obs : nat -> Observation)
    : list (LeaseKey * Z) * (nat -> Observation) :=
  match entries with
  | [] => ([], obs)
  | (key, id) :: entries =>
      let '(rate, o) := tail_sample now (obs id) in
      let '(keys, obs) := slow_entries baseline entries (<[id := o]> obs) in
      (match rate with
       | Some rate => if f64_ltb rate (f64_mul baseline (f64_lit 1 4)) then (key, now + TAIL_WINDOW) :: keys else keys
       | None => keys
       end, obs)
  end.

Definition schedule_ip_suffix_handoffs (target : LeaseKey) (baseline : f64) (x : Shared) : bool * Shared :=
  let st := sh_state x in
  if blocked now st || negb (isolated_ip_tail (sh_observations x) st target baseline) then (false, x)
  else
    let '(keys, obs) := slow_entries baseline (active_entries st) (sh_observations x) in
    let x := set_observations obs x in
    if bool_decide (target ∈ keys.*1)
    then (true, set_state (set_active (st_active st) (list_to_map keys ∪ st_suffix_handoffs st) st) x)
    else (false, x).

Definition maybe_handoff_ip_suffix (tail : bool) (baseline : option f64) (w : Work) : bool * Work :=
  let '(queued, s, x) := w in
  if tail && negb (bool_decide (queued = [])) then
    match baseline with
    | None => (false, w)
    | Some rate =>
        let '(scheduled, x) := schedule_ip_suffix_handoffs (lease_key (at_segment ctx)) rate x in
        if scheduled then (true, apply_ip_suffix_handoff (queued, s, x)) else (false, (queued, s, x))
    end
  else (false, w).

(** ** Recommendations *)

Inductive Advice :=
| AdviceContinue (reason : rstr) (baseline : option f64)
| AdviceRecover (baseline : option f64) (tail hedge_eligible : bool).

Definition hedging (mode : SlowTransferMode) : bool := match mode with AdaptiveWithHedging => true | _ => false end.

(** The rates the request is compared with: the first half of [recommend]. *)
Definition baselines (request_len : Z) (s : SchedulerState) (x : Shared) : option f64 * option f64 * Shared :=
  let key := lease_key (at_segment ctx) in
  let '(baseline, x) := sample_baseline ex false key now x in
  let '(tail_baseline, x) :=
    if negb (at_rate_limited ctx) && tail_eligible request_len (has_available s) x
    then sample_baseline ex true key now x else (None, x) in
  (baseline, tail_baseline, x).

Definition recommend (challenger_active : bool) (remaining_end : Z) (s : SchedulerState) (x : Shared) : Advice * Shared :=
  let g := at_segment ctx in
  let len := seg_end g ⊖ seg_start g in
  let request_len := remaining_end ⊖ seg_start g in
  let '(baseline, tail_baseline, x) := baselines request_len s x in
  let '(ordinary, o) := should_recover now baseline (ex_policy ex) request_len (own_observation x) in
  let '(tail, o) := should_recover_tail now tail_baseline (ex_policy ex) request_len o in
  let x := set_observations (<[at_observation ctx := o]> (sh_observations x)) x in
  (if at_rate_limited ctx then AdviceContinue (str "rate_limit") baseline
   else if challenger_active then AdviceContinue (str "challenger_active") baseline
   else if negb (ordinary || tail) then
     AdviceContinue
       (if negb (bool_decide (ob_phase o = Reading)) then str "not_reading"
        else if negb (bool_decide (is_Some baseline)) && negb (bool_decide (is_Some (po_absolute (ex_policy ex)))) then str "no_healthy_baseline"
        else str "slow_threshold_or_benefit") baseline
   else
     AdviceRecover baseline tail
       ((at_request_end ctx =? seg_end g) && bool_decide (is_Some (ex_validator ex)) &&
        hedging (po_mode (ex_policy ex)) && (len <=? MAX_HEDGE) && negb (has_available s)), x).

(** ** The tick of an attempt *)

Definition set_last_reason (reason : rstr * rstr) (o : Observation) : Observation :=
  mkObservation (ob_ip o) (ob_phase o) (ob_phase_at o) (ob_blocked_since o) (ob_reading o) (ob_headers o) (ob_backpressure o)
    (ob_writer_barrier o) (ob_request_id o) (Some reason) (ob_wire o) (ob_enqueued o) (ob_forwarded o) (ob_samples o)
    (ob_slow_since o) (ob_rate o) (ob_window o) (ob_tail_samples o) (ob_tail_slow_since o).

(** [decision]: the counters and what the next one is compared with.  A tick is taken
    to read the clock once. *)
Definition decision (reason : rstr) (baseline : option f64) (available : bool) (x : Shared) : Shared :=
  let st := count_decision reason (sh_state x) in
  let tail_block :=
    if available then str "unclaimed_work"
    else if (sh_available x =? 0)%nat then str "no_idle_slot"
    else if negb (bool_decide (st_pending st = [])) then str "pending_recovery"
    else if negb (bool_decide (is_Some baseline)) then str "no_healthy_baseline"
    else str "none" in
  let o := own_observation x in
  let x := set_state st x in
  if bool_decide (ob_last_reason o = Some (reason, tail_block)) then x
  else set_observations (<[at_observation ctx := advance now (set_last_reason (reason, tail_block) o)]> (sh_observations x)) x.

Definition set_available (n : nat) (x : Shared) : Shared :=
  mkShared (sh_state x) (sh_observations x) (sh_lineages x) n (sh_next x).

(** [reserve_result] for the attempt's lineage. *)
Definition reserve (len : Z) (hedge : bool) (x : Shared) : result Reservation rstr * Shared :=
  let '(r, lineage, st) := reserve_result ex len (sh_lineages x (at_lineage ctx)) hedge now (sh_state x) in
  (r, mkShared st (sh_observations x) (<[at_lineage ctx := lineage]> (sh_lineages x)) (sh_available x) (sh_next x)).

(** What an attempt does after a tick: it goes on, it is cancelled, or a challenger starts. *)
Inductive TickOutcome := Keep | CancelPrimary (r : Reservation) | Challenge (r : Reservation).

(** From the advice to the reservation: the permit of a challenger, the bound of the
    extra traffic, and the fall back to cancelling. *)
Definition select_recovery (baseline : option f64) (hedge_eligible available : bool) (x : Shared) : TickOutcome * Shared :=
  let len := seg_end (at_segment ctx) ⊖ seg_start (at_segment ctx) in
  let bound (x : Shared) := cancellation_cost_bound (own_observation x) len (bool_decide (is_Some (ex_validator ex))) in
  let cancel (x : Shared) :=
    match reserve (bound x) false x with
    | (Ok r, x) => (CancelPrimary r, decision (str "selected") baseline available x)
    | (Err reason, x) => (Keep, decision reason baseline available x)
    end in
  if hedge_eligible && (0 <? sh_available x)%nat then
    let free := sh_available x in
    match reserve len true (set_available (free - 1) x) with
    | (Ok r, x) => (Challenge (mkReservation (re_bound r) 0), decision (str "selected") baseline available x)
    | (Err reason, x) =>
        if bool_decide (reason = str "budget")
        then cancel (set_state (count_decision (str "hedge_budget") (sh_state x)) (set_available free x))
        else (Keep, set_available free (decision reason baseline available x))
    end
  else cancel x.

(** The first part of a tick: the unstarted rest of the request is handed off.
    [last_wire] and [last_progress] are local variables of [run_attempt]. *)
Definition tick_handoffs (last_wire last_progress : Z) (w : Work) : Z * Z * Work :=
  let '(queued, s, x) := apply_ip_suffix_handoff w in
  let o := own_observation x in
  let is_reading := bool_decide (ob_phase o = Reading) in
  let progress := negb is_reading || negb (ob_wire o =? last_wire) in
  let last_wire := if progress then ob_wire o else last_wire in
  let last_progress := if progress then now else last_progress in
  let stalled := is_reading && (300000000 <=? duration_since now last_progress) in
  let handoff := negb (bool_decide (queued = [])) && stalled && negb (at_rate_limited ctx) && is_reading &&
    (0 <? sh_available x)%nat && negb (has_available s) && (size (st_active (sh_state x)) =? 1)%nat &&
    bool_decide (st_pending (sh_state x) = []) && negb (blocked now (sh_state x)) in
  (last_wire, last_progress, if handoff then release_queued (queued, s, x) else (queued, s, x)).

(** The arm of [run_attempt] for a tick. *)
Definition on_tick (challenger_active : bool) (last_wire last_progress : Z) (w : Work)
    : TickOutcome * (Z * Z) * Work :=
  let '(last_wire, last_progress, (queued, s, x)) := tick_handoffs last_wire last_progress w in
  let remaining_end := match last queued with Some g => seg_end g | None => seg_end (at_segment ctx) end in
  let '(advice, x) := recommend challenger_active remaining_end s x in
  match advice with
  | AdviceContinue reason baseline =>
      (Keep, (last_wire, last_progress), (queued, s, decision reason baseline (has_available s) x))
  | AdviceRecover baseline tail hedge_eligible =>
      let '(handed_off, (queued, s, x)) := maybe_handoff_ip_suffix tail baseline (queued, s, x) in
      if (handed_off : bool) then (Keep, (last_wire, last_progress), (queued, s, x))
      else
        let '(outcome, x) := select_recovery baseline hedge_eligible (has_available s) x in
        (outcome, (last_wire, last_progress), (queued, s, x))
  end.
End Tick.
