(* ===== verification/RecoveryProps.v ===== *)
(** * Recovery is justified

    What a tick of an attempt does to the shared state, and the conditions under which an
    attempt is cancelled or challenged. *)

From stdpp Require Import functions.
From S2P Require Import Prelude RustStr Errors Float64 Net Segment Scheduler Planner Response Config Retry Workers Pending Recovered Observation ObservationProps Recovery.

(** ** What leaves the budget alone *)

Definition recoveries (x : Shared) (id : nat) : Z := ln_recoveries (sh_lineages x id).

(** The byte counters of an observation. *)
Definition counts (o : Observation) : Z * Z * Z := (ob_wire o, ob_enqueued o, ob_forwarded o).

Record Frame (x x' : Shared) : Prop := {
  fr_reserved : st_reserved (sh_state x') = st_reserved (sh_state x);
  fr_consumed : st_consumed_extra (sh_state x') = st_consumed_extra (sh_state x);
  fr_hedge : st_hedge (sh_state x') = st_hedge (sh_state x);
  fr_last : st_last_action (sh_state x') = st_last_action (sh_state x);
  fr_recoveries : forall id, recoveries x' id = recoveries x id;
  fr_next : sh_next x' = sh_next x;
  fr_counts : forall id, counts (sh_observations x' id) = counts (sh_observations x id);
}.

Lemma Frame_refl x : Frame x x.
Proof. by split. Qed.

Lemma Frame_trans x y z : Frame x y -> Frame y z -> Frame x z.
Proof. intros [A1 A2 A3 A4 A5 A6 A7] [B1 B2 B3 B4 B5 B6 B7]. split; congruence. Qed.

(** A change of other parts of the state only. *)
Lemma Frame_set_state x st :
  st_reserved st = st_reserved (sh_state x) -> st_consumed_extra st = st_consumed_extra (sh_state x) ->
  st_hedge st = st_hedge (sh_state x) -> st_last_action st = st_last_action (sh_state x) -> Frame x (set_state st x).
Proof. by split. Qed.

Lemma Frame_observations x obs : (forall id, counts (obs id) = counts (sh_observations x id)) -> Frame x (set_observations obs x).
Proof. by split. Qed.

Lemma Frame_available x n : Frame x (set_available n x).
Proof. by split. Qed.

Lemma counts_insert (obs : nat -> Observation) i o : counts o = counts (obs i) -> forall id, counts (<[i := o]> obs id) = counts (obs id).
Proof. intros E id. destruct (base.decide (i = id)) as [->|Hne]; [by rewrite fn_lookup_insert|by rewrite fn_lookup_insert_ne]. Qed.

Lemma sample_counts now o : counts (snd (sample now o)) = counts o.
Proof. unfold sample. by destruct (negb _). Qed.

Lemma tail_sample_counts now o : counts (snd (tail_sample now o)) = counts o.
Proof. unfold tail_sample. by destruct (negb _). Qed.

Lemma should_recover_counts now b spec len o : counts (snd (should_recover now b spec len o)) = counts o.
Proof.
  unfold should_recover. rewrite <- (sample_counts now o). destruct (sample now o) as [[rate|] o1]; [|done]. destruct (_ <? _); [done|].
  destruct (negb _); [done|]. destruct (_ <? _); [done|]. by destruct (positive _).
Qed.

Lemma should_recover_tail_counts now b spec len o : counts (snd (should_recover_tail now b spec len o)) = counts o.
Proof.
  unfold should_recover_tail. rewrite <- (tail_sample_counts now o). destruct (tail_sample now o) as [rate o1].
  destruct rate, (positive b); try done. by destruct (_ || _).
Qed.

Lemma sample_others_counts tail target now entries obs id :
  counts (snd (sample_others tail target now entries obs) id) = counts (obs id).
Proof.
  revert obs. induction entries as [|[key i] entries IH]; intros obs; [done|]. cbn [sample_others]. destruct (bool_decide _); [apply IH|].
  assert (counts (snd ((if tail then tail_sample else sample) now (obs i))) = counts (obs i)) as Hc
    by (destruct tail; [apply tail_sample_counts|apply sample_counts]).
  destruct ((if tail then tail_sample else sample) now (obs i)) as [[rate|] o]; cbn [snd] in Hc.
  - specialize (IH (<[i := o]> obs)). destruct (sample_others tail target now entries _) as [rates obs']. cbn [snd] in *.
    rewrite IH. by apply counts_insert.
  - destruct tail; [by apply counts_insert|]. rewrite IH. by apply counts_insert.
Qed.

Lemma sample_baseline_frame ex tail target now x : Frame x (snd (sample_baseline ex tail target now x)).
Proof.
  unfold sample_baseline. destruct (_ && _); [apply Frame_refl|]. cbv zeta.
  match goal with |- context [sample_others ?t ?k ?n ?e ?o] => pose proof (sample_others_counts t k n e o) as Hc;
    destruct (sample_others t k n e o) as [[current|] obs] end; [|by split].
  destruct (_ <? _)%nat; [by split|]. destruct (_ && _); by split.
Qed.

Lemma batch_frame segs lineage cap split st :
  let st' := recovered_batch_with_split segs lineage cap split st in
  st_reserved st' = st_reserved st /\ st_consumed_extra st' = st_consumed_extra st /\ st_hedge st' = st_hedge st /\
  st_last_action st' = st_last_action st.
Proof. unfold recovered_batch_with_split. by destruct (bool_decide _). Qed.

Lemma recover_segments_frame cap min lineage segs s st :
  let st' := snd (recover_segments cap min lineage segs s st) in
  st_reserved st' = st_reserved st /\ st_consumed_extra st' = st_consumed_extra st /\ st_hedge st' = st_hedge st /\
  st_last_action st' = st_last_action st.
Proof.
  unfold recover_segments. destruct segs as [|g segs]; [done|]. cbn [snd]. generalize (reverse (fold_left (group_segment s) (g :: segs) [])). intros groups.
  revert st. induction groups as [|[group w] groups IH]; intros st; [done|]. cbn [fold_left].
  destruct (IH (recovered_batch_with_split group lineage cap (if w then None else Some min) st)) as (-> & -> & -> & ->). apply batch_frame.
Qed.

Section Tick.
  Context (ex : Execution) (ctx : AttemptContext) (now : Z).

Lemma release_queued_frame queued s x : Frame x (snd (release_queued ctx (queued, s, x))).
Proof.
  unfold release_queued. pose proof (recover_segments_frame (at_request_cap ctx) (at_min_segment_size ctx) (at_lineage ctx) queued s (sh_state x)) as H.
  destruct (recover_segments _ _ _ _ _ _) as [s' st]. simpl in *. destruct H as (H1 & H2 & H3 & H4). by apply Frame_set_state.
Qed.

Lemma apply_handoff_frame queued s x : Frame x (snd (apply_ip_suffix_handoff ctx now (queued, s, x))).
Proof.
  unfold apply_ip_suffix_handoff. destruct (_ || _); [apply Frame_refl|]. destruct (blocked _ _); [apply Frame_refl|]. cbv zeta.
  set (x' := set_state _ x). assert (Frame x x') as F by by split. destruct (_ !! _) as [until|]; [|done]. destruct (_ <? _); [done|].
  destruct (bool_decide _); [done|]. eapply Frame_trans; [exact F|apply release_queued_frame].
Qed.

Lemma slow_entries_counts baseline entries obs id : counts (snd (slow_entries now baseline entries obs) id) = counts (obs id).
Proof.
  revert obs. induction entries as [|[key i] entries IH]; intros obs; [done|]. cbn [slow_entries].
  pose proof (tail_sample_counts now (obs i)) as Hc. destruct (tail_sample now (obs i)) as [rate o]. cbn [snd] in Hc. specialize (IH (<[i := o]> obs)).
  destruct (slow_entries now baseline entries _) as [keys obs']. cbn [snd] in *. rewrite IH. by apply counts_insert.
Qed.

Lemma schedule_frame target baseline x : Frame x (snd (schedule_ip_suffix_handoffs now target baseline x)).
Proof.
  unfold schedule_ip_suffix_handoffs. destruct (_ || _); [apply Frame_refl|].
  pose proof (slow_entries_counts baseline (active_entries (sh_state x)) (sh_observations x)) as Hc. destruct (slow_entries _ _ _ _) as [keys obs].
  destruct (bool_decide _); by split.
Qed.

Lemma maybe_handoff_frame tail baseline queued s x : Frame x (snd (snd (maybe_handoff_ip_suffix ctx now tail baseline (queued, s, x)))).
Proof.
  unfold maybe_handoff_ip_suffix. destruct (_ && _); [|apply Frame_refl]. destruct baseline as [rate|]; [|apply Frame_refl].
  pose proof (schedule_frame (lease_key (at_segment ctx)) rate x) as F. destruct (schedule_ip_suffix_handoffs _ _ _ _) as [[|] x']; [|done].
  cbn [snd] in *. eapply Frame_trans; [exact F|apply apply_handoff_frame].
Qed.

Lemma baselines_frame len s x : Frame x (snd (baselines ex ctx now len s x)).
Proof.
  unfold baselines. pose proof (sample_baseline_frame ex false (lease_key (at_segment ctx)) now x) as F1.
  destruct (sample_baseline ex false _ now x) as [baseline x1]. cbn [snd] in F1.
  destruct (_ && _); [|done]. pose proof (sample_baseline_frame ex true (lease_key (at_segment ctx)) now x1) as F2.
  destruct (sample_baseline ex true _ now x1) as [tb x2]. by eapply Frame_trans.
Qed.

Lemma recommend_frame challenger remaining s x : Frame x (snd (recommend ex ctx now challenger remaining s x)).
Proof.
  unfold recommend. cbv zeta. pose proof (baselines_frame (remaining ⊖ seg_start (at_segment ctx)) s x) as F1.
  destruct (baselines _ _ _ _ _ x) as [[baseline tb] x1]. cbn [snd] in F1.
  match goal with |- context [should_recover ?n ?b ?p ?l ?o] => pose proof (should_recover_counts n b p l o) as C1;
    destruct (should_recover n b p l o) as [ordinary o1] end.
  match goal with |- context [should_recover_tail ?n ?b ?p ?l ?o] => pose proof (should_recover_tail_counts n b p l o) as C2;
    destruct (should_recover_tail n b p l o) as [tail o2] end.
  cbn [snd] in *. eapply Frame_trans; [exact F1|]. apply Frame_observations, counts_insert. by rewrite C2.
Qed.

Lemma decision_frame reason baseline available x : Frame x (decision ctx now reason baseline available x).
Proof.
  unfold decision. cbv zeta. destruct (bool_decide _); [by split|]. split; try done. intros id. by apply counts_insert.
Qed.

(** ** A reservation *)

(** What a granted reservation has checked and changed. *)
Record Granted (len : Z) (hedge : bool) (x x' : Shared) (r : Reservation) : Prop := {
  gr_free : st_hedge (sh_state x) = false;
  gr_open : blocked now (sh_state x) = false;
  gr_cooldown : forall at_, st_last_action (sh_state x) = Some at_ -> at_ + COOLDOWN <= now;
  gr_budget : len <= sat_sub64 (ex_extra_limit ex) (sat_add64 (st_reserved (sh_state x)) (st_consumed_extra (sh_state x)));
  gr_lineage : recoveries x (at_lineage ctx) < 2;
  gr_bound : re_bound r = len;
  gr_reserved : st_reserved (sh_state x') = st_reserved (sh_state x) ⊕ len;
  gr_consumed : st_consumed_extra (sh_state x') = st_consumed_extra (sh_state x);
  gr_hedge : st_hedge (sh_state x') = hedge;
  gr_last : st_last_action (sh_state x') = Some now;
  gr_recoveries : forall id, recoveries x' id = recoveries x id + (if base.decide (id = at_lineage ctx) then 1 else 0);
  gr_next : sh_next x' = sh_next x;
  gr_observations : sh_observations x' = sh_observations x;
}.

Lemma recoveries_insert x st obs l av nx id :
  recoveries (mkShared st obs (<[at_lineage ctx := l]> (sh_lineages x)) av nx) id
  = if base.decide (id = at_lineage ctx) then ln_recoveries l else recoveries x id.
Proof.
  unfold recoveries. cbn. destruct (base.decide (id = at_lineage ctx)) as [->|Hne]; [by rewrite fn_lookup_insert|by rewrite fn_lookup_insert_ne].
Qed.

Lemma reserve_spec len hedge x r x' :
  reserve ex ctx now len hedge x = (r, x') ->
  match r with Ok r => re_cost r = len /\ Granted len hedge x x' r | Err _ => Frame x x' end.
Proof.
  unfold reserve, reserve_result. intros E.
  assert (Frame x (mkShared (sh_state x) (sh_observations x) (<[at_lineage ctx := sh_lineages x (at_lineage ctx)]> (sh_lineages x)) (sh_available x) (sh_next x))) as Hsame.
  { split; try done. intros id. rewrite recoveries_insert. by case_decide as D; [rewrite D|]. }
  destruct (st_hedge (sh_state x)) eqn:Hh; [injection E as <- <-; done|].
  destruct (blocked now (sh_state x)) eqn:Hb; [injection E as <- <-; done|].
  destruct (match st_last_action (sh_state x) with Some _ => _ | None => _ end) eqn:Hc; [injection E as <- <-; done|].
  destruct (Z.ltb_spec (sat_sub64 (ex_extra_limit ex) (sat_add64 (st_reserved (sh_state x)) (st_consumed_extra (sh_state x)))) len) as [|Hl];
    [injection E as <- <-; done|].
  destruct (Z.leb_spec 2 (ln_recoveries (sh_lineages x (at_lineage ctx)))) as [|Hr]; [injection E as <- <-; done|].
  injection E as <- <-. split; [done|]. split; try done.
  - intros at_ El. rewrite El in Hc. apply Z.ltb_ge in Hc. unfold duration_since, COOLDOWN, NANOS_PER_SEC in *. lia.
  - intros id. rewrite recoveries_insert. cbn. case_decide as D; [by rewrite D|lia].
Qed.

(** ** The decision of a tick *)

Definition len_of : Z := seg_end (at_segment ctx) ⊖ seg_start (at_segment ctx).
Definition protected : bool := bool_decide (is_Some (ex_validator ex)).

(** What is left of the request when the leases in [queued] are still reserved. *)
Definition request_len (queued : list Segment) : Z :=
  match last queued with Some g => seg_end g | None => seg_end (at_segment ctx) end ⊖ seg_start (at_segment ctx).

(** The request is slow by the ordinary rule: the rate of the last window is known and
    low, after the grace period, and has been for the configured time; and bytes are
    missing. *)
Definition slow_by (baseline : option f64) (len : Z) (o : Observation) : Prop :=
  let o' := snd (sample now o) in
  verdict (ex_policy ex) now baseline o = Some true /\
  po_duration (ex_policy ex) <= sat_sub64 (ob_reading o') (default (ob_reading o') (ob_slow_since o')) /\ ob_forwarded o < len.

(** The same by the rule for the tail of the download. *)
Definition tail_slow_by (baseline : option f64) (len : Z) (o : Observation) : Prop :=
  let o' := snd (tail_sample now o) in
  tail_verdict (ex_policy ex) now baseline o = true /\
  Z.min (po_duration (ex_policy ex)) TAIL_DURATION <= sat_sub64 (ob_reading o') (default (ob_reading o') (ob_tail_slow_since o')) /\
  ob_forwarded o < len.

(** The attempt's own observation, compared with the rates of the other requests as
    this tick finds them, is slow by one of the rules. *)
Definition found_slow (w : list Segment * SchedulerState * Shared) : Prop :=
  let '(queued, s, x) := w in
  let len := request_len queued in
  let '(baseline, tail_baseline, x1) := baselines ex ctx now len s x in
  let o := own_observation ctx x1 in
  slow_by baseline len o \/ tail_slow_by tail_baseline len (snd (should_recover now baseline (ex_policy ex) len o)).

Record HedgeAllowed (s : SchedulerState) : Prop := {
  ha_last : at_request_end ctx = seg_end (at_segment ctx);
  ha_validator : is_Some (ex_validator ex);
  ha_mode : po_mode (ex_policy ex) = AdaptiveWithHedging;
  ha_size : len_of <= MAX_HEDGE;
  ha_no_work : has_available s = false;
}.

Lemma should_recover_found baseline len o :
  fst (should_recover now baseline (ex_policy ex) len o) = true -> slow_by baseline len o.
Proof.
  intros H. destruct (should_recover now baseline (ex_policy ex) len o) as [r o'] eqn:E. simpl in H. subst r.
  destruct (should_recover_slow _ _ _ _ _ _ _ E) as (R1 & _ & _ & Hv). destruct (sample_slow now o) as (S1 & S2 & _).
  unfold slow_by. destruct (verdict _ _ _ _) as [[|]|]; [|by destruct Hv..]. destruct Hv as [_ Hv]. destruct (Hv eq_refl) as (_ & Hd & Hf).
  rewrite S1, S2, <- R1. done.
Qed.

Lemma should_recover_tail_found baseline len o :
  fst (should_recover_tail now baseline (ex_policy ex) len o) = true -> tail_slow_by baseline len o.
Proof.
  intros H. destruct (should_recover_tail now baseline (ex_policy ex) len o) as [r o'] eqn:E. simpl in H. subst r.
  destruct (should_recover_tail_slow _ _ _ _ _ _ _ E) as (R1 & _ & _ & Hv). destruct (tail_sample_slow now o) as (S1 & _ & S2 & _).
  unfold tail_slow_by. destruct (tail_verdict _ _ _ _); [|by destruct Hv]. destruct Hv as [_ Hv]. destruct (Hv eq_refl) as (_ & Hd & Hf).
  rewrite S1, S2, <- R1. done.
Qed.

Lemma found_slow_forwarded queued s x x' :
  found_slow (queued, s, x) -> Frame x x' -> ob_forwarded (own_observation ctx x') < request_len queued.
Proof.
  unfold found_slow. pose proof (baselines_frame (request_len queued) s x) as F. destruct (baselines _ _ _ _ _ _) as [[b tb] x1]. cbn [snd] in F. intros H F'.
  pose proof (should_recover_counts now b (ex_policy ex) (request_len queued) (own_observation ctx x1)) as C.
  assert (counts (own_observation ctx x') = counts (own_observation ctx x1)) as E by (unfold own_observation; by rewrite (fr_counts _ _ F), (fr_counts _ _ F')).
  injection E as _ _ ->. destruct H as [(_ & _ & H)|(_ & _ & H)]; [done|]. by injection C as _ _ <-.
Qed.

Lemma recommend_spec challenger queued s x b tail h x' :
  recommend ex ctx now challenger (match last queued with Some g => seg_end g | None => seg_end (at_segment ctx) end) s x = (AdviceRecover b tail h, x') ->
  at_rate_limited ctx = false /\ challenger = false /\ found_slow (queued, s, x) /\ (h = true -> HedgeAllowed s).
Proof.
  unfold recommend, found_slow. cbv zeta. fold (request_len queued). destruct (baselines _ _ _ _ _ _) as [[baseline tb] x1].
  pose proof (should_recover_found baseline (request_len queued) (own_observation ctx x1)) as R1.
  destruct (should_recover _ _ _ _ _) as [ordinary o1]. pose proof (should_recover_tail_found tb (request_len queued) o1) as R2.
  destruct (should_recover_tail _ _ _ _ _) as [tl o2]. cbn [fst snd] in *.
  destruct (at_rate_limited ctx); [done|]. destruct challenger; [done|]. destruct (ordinary || tl) eqn:Hot; [|done]. cbn [negb].
  intros [= <- <- <- <-]. split_and!; [done|done| |].
  - apply orb_true_iff in Hot as [->| ->]; [left|right]; auto.
  - rewrite !andb_true_iff, Z.eqb_eq, bool_decide_eq_true, Z.leb_le, negb_true_iff. intros ((((H1 & H2) & H3) & H4) & H5).
    split; try done. by destruct (po_mode (ex_policy ex)).
Qed.

(** How a tick can end: the reservation it took, and what justified it. *)
Definition Chosen (x x' : Shared) (outcome : TickOutcome) : Prop :=
  match outcome with
  | Keep => Frame x x'
  | CancelPrimary r =>
      exists x1 x2, Frame x x1 /\ Granted (re_bound r) false x1 x2 r /\ Frame x2 x' /\ re_cost r = re_bound r /\
        re_bound r = cancellation_cost_bound (own_observation ctx x') len_of protected
  | Challenge r =>
      exists x1 x2, Frame x x1 /\ Granted (re_bound r) true x1 x2 (mkReservation (re_bound r) (re_bound r)) /\ Frame x2 x' /\
        re_cost r = 0 /\ re_bound r = len_of
  end.

Lemma Chosen_frame x y z outcome : Frame x y -> Chosen y z outcome -> Chosen x z outcome.
Proof.
  intros F. destruct outcome as [|r|r]; cbn [Chosen]; [by eapply Frame_trans|..];
    intros (x1 & x2 & F1 & H); exists x1, x2; (split; [by eapply Frame_trans|done]).
Qed.

Lemma Chosen_counts x x' outcome id : Chosen x x' outcome -> counts (sh_observations x' id) = counts (sh_observations x id).
Proof.
  destruct outcome as [|r|r]; cbn [Chosen]; [by intros [_ _ _ _ _ _ Hc]|..];
    intros (x1 & x2 & F1 & G & F2 & _); by rewrite (fr_counts _ _ F2), (gr_observations _ _ _ _ _ G), (fr_counts _ _ F1).
Qed.

Lemma bound_counts o o' len p : counts o = counts o' -> cancellation_cost_bound o len p = cancellation_cost_bound o' len p.
Proof. intros [= E1 E2 _]. unfold cancellation_cost_bound. by rewrite E1, E2. Qed.

Lemma cancel_chosen baseline available x outcome x' :
  match reserve ex ctx now (cancellation_cost_bound (own_observation ctx x) len_of protected) false x with
  | (Ok r, x) => (CancelPrimary r, decision ctx now (str "selected") baseline available x)
  | (Err reason, x) => (Keep, decision ctx now reason baseline available x)
  end = (outcome, x') -> Chosen x x' outcome.
Proof.
  destruct (reserve _ _ _ _ _ _) as [[r|reason] x1] eqn:E; intros [= <- <-]; apply reserve_spec in E.
  - destruct E as [Ec G]. pose proof (gr_bound _ _ _ _ _ G) as Eb. rewrite <- Eb in G. pose proof (decision_frame (str "selected") baseline available x1) as F.
    exists x, x1. split_and!; [apply Frame_refl|done|done|by rewrite Ec, Eb|]. rewrite Eb. apply bound_counts.
    unfold own_observation. by rewrite (fr_counts _ _ F), (gr_observations _ _ _ _ _ G).
  - eapply Frame_trans; [exact E|apply decision_frame].
Qed.

Lemma select_chosen baseline h available x outcome x' :
  select_recovery ex ctx now baseline h available x = (outcome, x') ->
  Chosen x x' outcome /\ (forall r, outcome = Challenge r -> h = true).
Proof.
  unfold select_recovery. cbv zeta. fold len_of protected. destruct (h && _) eqn:Hh.
  2: { intros E. pose proof (cancel_chosen baseline available x outcome x' E) as C. split; [done|]. intros r ->.
       destruct (reserve _ _ _ _ _ _) as [[?|?] ?]; by simplify_eq. }
  apply andb_true_iff in Hh as [-> Ha%Nat.ltb_lt]. intros E. split; [|done].
  pose proof (Frame_available x (sh_available x - 1)) as F0.
  destruct (reserve _ _ _ _ true _) as [[r|reason] x1] eqn:Er; apply reserve_spec in Er.
  - destruct Er as [Ec G]. pose proof (gr_bound _ _ _ _ _ G) as Eb. injection E as <- <-. eexists _, x1. cbn [re_bound re_cost]. rewrite Eb.
    split_and!; [exact F0| |apply decision_frame|done|done].
    assert (r = mkReservation len_of len_of) as <-; [destruct r; simpl in *; congruence|done].
  - pose proof (Frame_trans _ _ _ F0 Er) as F1. destruct (bool_decide _).
    + set (x2 := set_state _ _) in E. assert (Frame x x2) as F2.
      { eapply Frame_trans; [exact F1|]. unfold x2. eapply Frame_trans; [apply (Frame_available x1 (sh_available x))|by apply Frame_set_state]. }
      apply cancel_chosen in E. by eapply Chosen_frame.
    + injection E as <- <-. eapply Frame_trans; [exact F1|]. eapply Frame_trans; [apply decision_frame|apply Frame_available].
Qed.

Lemma tick_handoffs_frame lw lp queued s x : Frame x (snd (snd (tick_handoffs ctx now lw lp (queued, s, x)))).
Proof.
  unfold tick_handoffs. pose proof (apply_handoff_frame queued s x) as F0. destruct (apply_ip_suffix_handoff _ _ _) as [[q0 s0] x0]. cbn [snd] in *.
  destruct (_ && _); [|done]. eapply Frame_trans; [exact F0|apply release_queued_frame].
Qed.

(** Handing off leaves the queue or empties it. *)
Lemma tick_handoffs_queue lw lp queued s x :
  let q := fst (fst (snd (tick_handoffs ctx now lw lp (queued, s, x)))) in q = queued \/ q = [].
Proof.
  unfold tick_handoffs. assert (let q := fst (fst (apply_ip_suffix_handoff ctx now (queued, s, x))) in q = queued \/ q = []) as H.
  { unfold apply_ip_suffix_handoff. destruct (_ || _); [by left|]. destruct (blocked _ _); [by left|]. destruct (_ !! _) as [until|]; [|by left].
    destruct (_ <? _); [by left|]. destruct (bool_decide _); [by left|]. right. unfold release_queued. by destruct (recover_segments _ _ _ _ _ _). }
  destruct (apply_ip_suffix_handoff _ _ _) as [[q0 s0] x0]. cbn [fst snd] in *. destruct (_ && _); [|done]. right. unfold release_queued.
  by destruct (recover_segments _ _ _ _ _ _).
Qed.

(** The whole tick. *)
Lemma on_tick_spec challenger lw lp queued s x outcome loc queued' s' x' :
  on_tick ex ctx now challenger lw lp (queued, s, x) = (outcome, loc, (queued', s', x')) ->
  Chosen x x' outcome /\
  (outcome <> Keep ->
    at_rate_limited ctx = false /\ challenger = false /\ found_slow (snd (tick_handoffs ctx now lw lp (queued, s, x))) /\
    ob_forwarded (own_observation ctx x') < request_len queued' /\ (queued' = queued \/ queued' = [])) /\
  (forall r, outcome = Challenge r -> HedgeAllowed s').
Proof.
  unfold on_tick. pose proof (tick_handoffs_frame lw lp queued s x) as F. pose proof (tick_handoffs_queue lw lp queued s x) as Hq.
  destruct (tick_handoffs _ _ _ _ _) as [[lw1 lp1] [[q1 s1] x1]]. cbn [fst snd] in *.
  pose proof (recommend_frame challenger (match last q1 with Some g => seg_end g | None => seg_end (at_segment ctx) end) s1 x1) as F2.
  destruct (recommend _ _ _ _ _ _ _) as [[reason b|b tail h] x2] eqn:Er; cbn [snd] in F2.
  { intros [= <- <- <- <- <-]. split; [|done]. eapply Frame_trans; [exact F|]. eapply Frame_trans; [exact F2|apply decision_frame]. }
  destruct (recommend_spec _ _ _ _ _ _ _ _ Er) as (R1 & R2 & R3 & R4). pose proof (Frame_trans _ _ _ F F2) as F3.
  pose proof (maybe_handoff_frame tail b q1 s1 x2) as F4. destruct (maybe_handoff_ip_suffix _ _ _ _ _) as [[|] [[q3 s3] x3]] eqn:Em; cbn [snd] in F4.
  { intros [= <- <- <- <- <-]. split; [|done]. by eapply Frame_trans. }
  assert (q3 = q1 /\ s3 = s1) as [-> ->].
  { unfold maybe_handoff_ip_suffix in Em. destruct (_ && _); [|by simplify_eq]. destruct b; [|by simplify_eq].
    destruct (schedule_ip_suffix_handoffs _ _ _ _) as [[|] ?]; by simplify_eq. }
  destruct (select_recovery _ _ _ _ _ _ _) as [out x4] eqn:Es. intros [= <- <- <- <- <-].
  destruct (select_chosen _ _ _ _ _ _ Es) as [C Ch]. pose proof (Frame_trans _ _ _ F3 F4) as F5.
  split_and!; [by eapply Chosen_frame|intros _; split_and!; try done|intros r Hr; by apply R4, (Ch r)].
  pose proof (found_slow_forwarded _ _ _ _ R3 (Frame_trans _ _ _ F2 F4)) as Hf. unfold own_observation in *.
  pose proof (Chosen_counts x3 x4 out (at_observation ctx) C) as [= _ _ ->]. done.
Qed.
End Tick.

(** ** Properties *)

(** Cancelling costs no more than its bound: what was read ahead, and what was forwarded
    when it is not kept. *)
Lemma cancel_cost_le o len p :
  0 <= ob_forwarded o < len -> 0 <= ob_enqueued o <= ob_wire o -> ob_wire o - ob_enqueued o + ob_forwarded o <= u64_max ->
  0 <= cancel_cost (sat_sub64 (ob_wire o) (ob_enqueued o)) (ob_forwarded o) len p <= cancellation_cost_bound o len p.
Proof.
  intros H1 H2 H3. unfold cancel_cost, cancellation_cost_bound, sat_sub64, sat_add64. rewrite Z.max_r by lia.
  rewrite (proj2 (Z.ltb_lt (ob_forwarded o) len)), andb_true_r by lia. destruct p; cbn [andb].
  - destruct (Z.ltb_spec 0 (ob_forwarded o)); rewrite u64_add_exact by (unfold u64_max in *; lia); lia.
  - rewrite u64_add_exact by (unfold u64_max in *; lia). lia.
Qed.


(** ** A slow request is cancelled

    The request of DemoObservation is evaluated once more; it has no validator, so its
    whole length is reserved. *)

Module DemoRecovery.
Import DemoObservation.

Definition spec : DownloadSpec :=
  let d := DownloadSpec_new (str "http://h/f") in
  mkSpec (ds_storage d) (mkRecovery Adaptive (Some 1000) (2 * second) (2 * second) second) (ds_scheduling d) (ds_retry d) (ds_url d)
    (ds_output_path d) (ds_output_dir d) (ds_headers d) (ds_max_connections d) (ds_overrides d) (ds_read_timeout d)
    (ds_request_headers_timeout d) (ds_max_download_speed d).

Definition meta : ResponseMeta := mkMeta None None None None true None None None None.
Definition ex : Execution := Execution_new spec meta 1000000000.
Definition segment : Segment := mkSegment 0 1 0 1000000 0 1.
Definition ctx : AttemptContext := mkAttempt segment 1000000 false 0 0 100 1.
Definition slow : Observation := wa_obs (watch policy 0 second events).
Definition fresh : Lineage := mkLineage (retry_new 5 second second None 0) 0.
Definition shared : Shared := snd (lineage_of fresh segment (mkShared State_new (fun _ => slow) (fun _ => fresh) 4 0)).
Definition work : list Segment * SchedulerState * Shared := ([], Scheduler_new (PieceMap.PieceMap_new 1000000 1000000), shared).
Definition ticked : TickOutcome * (Z * Z) * (list Segment * SchedulerState * Shared) := on_tick ex ctx (7 * second) false 400 0 work.
Lemma ticked_cancels : ticked.1.1 = CancelPrimary (mkReservation 1000000 1000000).
Proof. vm_compute. reflexivity. Qed.

End DemoRecovery.

