(* ===== verification/RecoveryRun.v ===== *)
(** * Recovery is bounded

    The extra traffic, the number and the spacing of recoveries along every run of a
    session.  The reservations in flight are charged as the code settles them, from the
    counters of the bodies they are for. *)

From stdpp Require Import functions.
From S2P Require Import Prelude RustStr Errors Float64 Net Segment Scheduler Planner Response Config Retry Workers Pending Recovered Observation ObservationProps Recovery RecoveryProps.

(** ** Runs *)

(** The body of a request as its reservations see it: the current piece, where the
    request began and ends, and the counters of its [RequestStream]. *)
Record Stream := mkBody {
  bo_segment : Segment;
  bo_start : Z;
  bo_end : Z;
  bo_wire : Z;
  bo_consumed : Z;
}.

Definition bo_len (a : Stream) : Z := seg_end (bo_segment a) - seg_start (bo_segment a).

(** What becomes of a reservation: its attempt was cancelled and left [read_ahead] and
    [forwarded] bytes; its challenger, for the attempt with observation [id], has read
    [wire] bytes of [len]; the challenger has won; nothing more is charged. *)
Inductive Charge :=
| Cancelling (read_ahead forwarded len : Z)
| Staging (id : nat) (wire len : Z)
| Winning (read_ahead forwarded : Z)
| Charged.

(** The shared state with the reservations in flight, the bodies by their observations,
    the recoveries so far (the newest first: when, and for which lineage) and the guards
    of challengers. *)
Record Run := mkRun {
  rn_shared : Shared;
  rn_live : list (Reservation * Charge);
  rn_streams : gmap nat Stream;
  rn_actions : list (Z * nat);
  rn_guards : nat;
}.

(** Where the outcome of a tick leads: a cancelled attempt leaves its body as it is, for
    its future is dropped before another poll. *)
Definition after_tick (ctx : AttemptContext) (now : Z) (outcome : TickOutcome) (a : Stream) (x : Shared) (r : Run) : Run :=
  let id := at_observation ctx in
  match outcome with
  | Keep => mkRun x (rn_live r) (rn_streams r) (rn_actions r) (rn_guards r)
  | CancelPrimary res =>
      let charge := Cancelling (sat_sub64 (bo_wire a) (bo_consumed a)) (ob_forwarded (sh_observations x id)) (bo_len a) in
      mkRun x (rn_live r ++ [(res, charge)]) (delete id (rn_streams r)) ((now, at_lineage ctx) :: rn_actions r) (rn_guards r)
  | Challenge res =>
      mkRun x (rn_live r ++ [(res, Staging id 0 (bo_len a))]) (rn_streams r) ((now, at_lineage ctx) :: rn_actions r) (rn_guards r + 1)
  end.

Definition on_shared (f : Shared -> Shared) (r : Run) : Run :=
  mkRun (f (rn_shared r)) (rn_live r) (rn_streams r) (rn_actions r) (rn_guards r).

Definition on_state (f : State -> State) (r : Run) : Run := on_shared (fun x => set_state (f (sh_state x)) x) r.

Definition note_event (spec : Policy) (id : nat) (e : ObsEvent) (x : Shared) : Shared :=
  set_observations (<[id := obs_event spec e (sh_observations x id)]> (sh_observations x)) x.

(** An event of the body, with its effect on the stream's counters. *)
Definition on_body (spec : Policy) (id : nat) (e : ObsEvent) (a : Stream) (r : Run) : Run :=
  mkRun (note_event spec id e (rn_shared r)) (rn_live r) (<[id := a]> (rn_streams r)) (rn_actions r) (rn_guards r).

Definition on_live (live : list (Reservation * Charge)) (r : Run) : Run :=
  mkRun (rn_shared r) live (rn_streams r) (rn_actions r) (rn_guards r).

(** A reservation is dropped. *)
Definition release (res : Reservation) (live : list (Reservation * Charge)) (r : Run) : Run :=
  mkRun (set_state (drop_reservation res (sh_state (rn_shared r))) (rn_shared r)) live (rn_streams r) (rn_actions r) (rn_guards r).

(** Challengers that [gone] names read no more. *)
Definition stop_staging (gone : nat -> bool) (l : list (Reservation * Charge)) : list (Reservation * Charge) :=
  (fun e => match e.2 with Staging id _ _ => if gone id then (e.1, Charged) else e | _ => e end) <$> l.

Definition counting (e : ObsEvent) : bool := match e with EvWire _ | EvForward _ | EvBegin => true | _ => false end.

(** [excess]: the largest number of bytes of a frame beyond the checked [Content-Length] of a
    challenger: a transport that keeps a body within its framing has none. *)
Inductive recovery_step (ex : Execution) (excess : Z) (r : Run) : Run -> Prop :=
(* a tick of some attempt: a primary that has forwarded a piece which is not the last one has
   returned before the next tick, and leases are only queued behind such a piece *)
| rs_tick ctx now challenger lw lp queued s outcome loc queued' s' x' a :
    po_mode (ex_policy ex) <> Disabled -> (at_lineage ctx < sh_next (rn_shared r))%nat ->
    rn_streams r !! at_observation ctx = Some a -> at_segment ctx = bo_segment a -> at_request_end ctx = bo_end a ->
    (seg_end (bo_segment a) < bo_end a -> ob_forwarded (own_observation ctx (rn_shared r)) < bo_len a) ->
    (queued <> [] -> seg_end (bo_segment a) < bo_end a) ->
    on_tick ex ctx now challenger lw lp (queued, s, rn_shared r) = (outcome, loc, (queued', s', x')) ->
    recovery_step ex excess r (after_tick ctx now outcome a x' r)
(* the body of a request: it begins, a frame comes, bytes are handed on, the next piece begins; the end *)
| rs_begin id g request_end now window :
    rn_streams r !! id = None -> 0 <= seg_start g < seg_end g -> seg_end g <= request_end < u64_max ->
    recovery_step ex excess r
      (mkRun (set_observations (<[id := Observation_new now window]> (sh_observations (rn_shared r))) (rn_shared r)) (rn_live r)
         (<[id := mkBody g (seg_start g) request_end 0 0]> (rn_streams r)) (rn_actions r) (rn_guards r))
| rs_frame id a n :
    rn_streams r !! id = Some a -> 0 <= n -> let wire := sat_add64 (bo_wire a) n in wire <= bo_end a - bo_start a ->
    recovery_step ex excess r (on_body (ex_policy ex) id (EvWire n) (mkBody (bo_segment a) (bo_start a) (bo_end a) wire (bo_consumed a)) r)
| rs_sent id a n :
    rn_streams r !! id = Some a -> 0 <= n <= bo_wire a - bo_consumed a -> n <= bo_len a - ob_forwarded (sh_observations (rn_shared r) id) ->
    recovery_step ex excess r
      (on_body (ex_policy ex) id (EvForward n) (mkBody (bo_segment a) (bo_start a) (bo_end a) (bo_wire a) (bo_consumed a ⊕ n)) r)
| rs_piece id a g :
    rn_streams r !! id = Some a -> ob_forwarded (sh_observations (rn_shared r) id) = bo_len a ->
    seg_start g = seg_end (bo_segment a) -> seg_start g < seg_end g <= bo_end a ->
    recovery_step ex excess r (on_body (ex_policy ex) id EvBegin (mkBody g (bo_start a) (bo_end a) (bo_wire a) (bo_consumed a)) r)
| rs_end id :
    recovery_step ex excess r
      (mkRun (rn_shared r) (stop_staging (Nat.eqb id) (rn_live r)) (delete id (rn_streams r)) (rn_actions r) (rn_guards r))
| rs_observe id e :
    counting e = false -> recovery_step ex excess r (on_shared (note_event (ex_policy ex) id e) r)
(* a cancelled attempt is settled *)
| rs_cancelled l1 res read_ahead forwarded len l2 :
    rn_live r = l1 ++ (res, Cancelling read_ahead forwarded len) :: l2 ->
    recovery_step ex excess r
      (on_live (l1 ++ (mkReservation (re_bound res) (cancel_cost read_ahead forwarded len (bool_decide (is_Some (ex_validator ex)))), Charged) :: l2) r)
(* a challenger reads a frame, within its range or beyond *)
| rs_staging l1 res id wire len l2 n :
    rn_live r = l1 ++ (res, Staging id wire len) :: l2 -> 0 <= n -> sat_add64 wire n <= len ->
    recovery_step ex excess r
      (on_live (l1 ++ (mkReservation (re_bound res) (sat_add64 wire n), Staging id (sat_add64 wire n) len) :: l2) r)
| rs_overran l1 res id wire len l2 n :
    rn_live r = l1 ++ (res, Staging id wire len) :: l2 -> 0 <= n -> len < sat_add64 wire n <= len + excess ->
    recovery_step ex excess r (release (mkReservation (re_bound res) (sat_add64 wire n)) (l1 ++ l2) r)
(* it has all of it, the primary is dropped; its file is copied *)
| rs_won l1 res id len l2 a n :
    rn_live r = l1 ++ (res, Staging id len len) :: l2 -> rn_streams r !! id = Some a -> rn_guards r = S n ->
    recovery_step ex excess r
      (mkRun (set_state (drop_hedge_guard (sh_state (rn_shared r))) (rn_shared r))
         (l1 ++ (res, Winning (sat_sub64 (bo_wire a) (bo_consumed a)) (ob_forwarded (sh_observations (rn_shared r) id))) :: l2)
         (delete id (rn_streams r)) (rn_actions r) n)
| rs_copied l1 res read_ahead forwarded l2 :
    rn_live r = l1 ++ (res, Winning read_ahead forwarded) :: l2 ->
    recovery_step ex excess r (on_live (l1 ++ (mkReservation (re_bound res) (read_ahead ⊕ forwarded), Charged) :: l2) r)
(* a reservation, and the guard of a challenger, are dropped *)
| rs_drop l1 res charge l2 :
    rn_live r = l1 ++ (res, charge) :: l2 -> recovery_step ex excess r (release res (l1 ++ l2) r)
| rs_guard n :
    rn_guards r = S n ->
    recovery_step ex excess r
      (mkRun (set_state (drop_hedge_guard (sh_state (rn_shared r))) (rn_shared r)) (stop_staging (fun _ => true) (rn_live r)) (rn_streams r)
         (rn_actions r) n)
(* a request starts: its lineage is inherited or new, its observation registered *)
| rs_lineage fresh g :
    ln_recoveries fresh = 0 -> recovery_step ex excess r (on_shared (fun x => snd (lineage_of fresh g x)) r)
| rs_register key id :
    recovery_step ex excess r (on_state (fun st => set_active (<[key := id]> (st_active st)) (st_suffix_handoffs st) st) r)
| rs_unregister key :
    recovery_step ex excess r (on_state (fun st => set_active (delete key (st_active st)) (delete key (st_suffix_handoffs st)) st) r)
| rs_finish key complete now1 now2 :
    recovery_step ex excess r (on_shared (finish_observation ex key complete now1 now2) r)
(* work is given back, claimed and completed *)
| rs_recover cap min lineage segs s :
    recovery_step ex excess r (on_state (fun st => snd (recover_segments cap min lineage segs s st)) r)
| rs_claim pend :
    recovery_step ex excess r (on_state (fun st => set_recovered (st_recovered st) pend st) r)
| rs_completed g lineage :
    recovery_step ex excess r (on_state (completed g lineage) r)
(* retries, server directives and permits *)
| rs_retry id retries :
    recovery_step ex excess r (on_shared (fun x => mkShared (sh_state x) (sh_observations x)
      (<[id := mkLineage retries (ln_recoveries (sh_lineages x id))]> (sh_lineages x)) (sh_available x) (sh_next x)) r)
| rs_backoff until :
    recovery_step ex excess r (on_state (backoff until) r)
| rs_slots n :
    recovery_step ex excess r (on_shared (set_available n) r).

(** Each action is at least [COOLDOWN] after the one before. *)
Fixpoint spaced (l : list (Z * nat)) : Prop :=
  match l with
  | (t, _) :: (((t', _) :: _) as rest) => t' + COOLDOWN <= t /\ spaced rest
  | _ => True
  end.

Definition actions_of (id : nat) (l : list (Z * nat)) : Z := Z.of_nat (length (List.filter (fun a => (a.2 =? id)%nat) l)).

Definition total_bound (l : list (Reservation * Charge)) : Z := foldr (fun e n => re_bound e.1 + n) 0 l.

Definition is_staging (c : Charge) : bool := match c with Staging _ _ _ => true | _ => false end.

Definition staging (l : list (Reservation * Charge)) : list (Reservation * Charge) := List.filter (fun e => is_staging e.2) l.

(** The counters of an observation and of its stream agree, and count the pieces of the
    request up to the current one. *)
Record Stream_ok (o : Observation) (a : Stream) : Prop := {
  so_segment : 0 <= bo_start a <= seg_start (bo_segment a) /\ seg_start (bo_segment a) < seg_end (bo_segment a);
  so_request : seg_end (bo_segment a) <= bo_end a < u64_max;
  so_forwarded : 0 <= ob_forwarded o <= bo_len a;
  so_consumed : bo_consumed a = seg_start (bo_segment a) - bo_start a + ob_forwarded o;
  so_wire : bo_consumed a <= bo_wire a <= bo_end a - bo_start a;
  so_agree : ob_wire o = bo_wire a /\ ob_enqueued o = bo_consumed a;
}.

(** What a reservation can be charged. *)
Definition Charge_ok (p : bool) (streams : gmap nat Stream) (e : Reservation * Charge) : Prop :=
  0 <= re_cost e.1 <= re_bound e.1 /\
  match e.2 with
  | Cancelling read_ahead forwarded len => 0 <= cancel_cost read_ahead forwarded len p <= re_bound e.1
  | Staging id wire len =>
      re_bound e.1 = len /\ re_cost e.1 = wire /\ 0 < len /\
      exists a, streams !! id = Some a /\ bo_end a = seg_end (bo_segment a) /\ len = bo_len a
  | Winning read_ahead forwarded => 0 <= read_ahead ⊕ forwarded <= re_bound e.1
  | Charged => True
  end.

Record Bounded (ex : Execution) (excess : Z) (r : Run) : Prop := {
  bd_reserved : st_reserved (sh_state (rn_shared r)) = total_bound (rn_live r);
  bd_live : Forall (Charge_ok (protected ex) (rn_streams r)) (rn_live r);
  bd_streams : forall id a, rn_streams r !! id = Some a -> Stream_ok (sh_observations (rn_shared r) id) a;
  bd_consumed : 0 <= st_consumed_extra (sh_state (rn_shared r));
  bd_bounds : total_bound (rn_live r) <= ex_extra_limit ex;
  bd_limit : total_bound (rn_live r) + st_consumed_extra (sh_state (rn_shared r)) <= ex_extra_limit ex + excess;
  bd_staging : staging (rn_live r) <> [] -> total_bound (rn_live r) + st_consumed_extra (sh_state (rn_shared r)) <= ex_extra_limit ex;
  bd_one : (length (staging (rn_live r)) <= rn_guards r)%nat;
  bd_last : st_last_action (sh_state (rn_shared r)) = fst <$> head (rn_actions r);
  bd_spaced : spaced (rn_actions r);
  bd_lineages : forall id, (id < sh_next (rn_shared r))%nat -> recoveries (rn_shared r) id = actions_of id (rn_actions r) /\ actions_of id (rn_actions r) <= 2;
  bd_known : Forall (fun a => (a.2 < sh_next (rn_shared r))%nat) (rn_actions r);
  bd_guard : rn_guards r = if st_hedge (sh_state (rn_shared r)) then 1%nat else 0%nat;
}.

(** *** Lists of reservations *)

Lemma total_bound_app l1 l2 : total_bound (l1 ++ l2) = total_bound l1 + total_bound l2.
Proof. induction l1 as [|r l1 IH]; simpl; [done|]. unfold total_bound in *. simpl. lia. Qed.

Lemma total_bound_cons e l : total_bound (e :: l) = re_bound e.1 + total_bound l.
Proof. done. Qed.

Lemma total_bound_pos p streams l : Forall (Charge_ok p streams) l -> 0 <= total_bound l.
Proof. induction 1 as [|r l [H _] _ IH]; simpl; [done|]. unfold total_bound in *. simpl. lia. Qed.

Lemma staging_app l1 l2 : staging (l1 ++ l2) = staging l1 ++ staging l2.
Proof. apply List.filter_app. Qed.

Lemma staging_cons e l : staging (e :: l) = if is_staging e.2 then e :: staging l else staging l.
Proof. done. Qed.

Lemma staging_nil p streams streams' l : staging l = [] -> Forall (Charge_ok p streams) l -> Forall (Charge_ok p streams') l.
Proof.
  induction l as [|[r c] l IH]; [done|]. rewrite staging_cons. intros Hn [[H1 H2] HF]%Forall_cons. cbn [snd] in Hn.
  destruct c; cbn [is_staging] in Hn; try done; (apply Forall_cons; split; [by split|by apply IH]).
Qed.

Lemma Charge_streams p streams streams' e :
  (forall id a, streams !! id = Some a -> bo_end a = seg_end (bo_segment a) -> exists a', streams' !! id = Some a' /\ bo_end a' = seg_end (bo_segment a') /\ bo_len a' = bo_len a) ->
  Charge_ok p streams e -> Charge_ok p streams' e.
Proof.
  intros Hs [H1 H2]. split; [done|]. destruct (e.2); try done. destruct H2 as (E1 & E2 & E3 & a & Ha & Ee & ->).
  destruct (Hs _ _ Ha Ee) as (a' & Ha' & Ee' & El). split_and!; try done. by exists a'.
Qed.

Lemma stop_bound gone l : total_bound (stop_staging gone l) = total_bound l.
Proof. induction l as [|[r c] l IH]; [done|]. cbn [stop_staging fmap list_fmap]. rewrite !total_bound_cons. fold (stop_staging gone l). rewrite IH. destruct c; try done. cbn. by destruct (gone id). Qed.

Lemma stop_length gone l : (length (staging (stop_staging gone l)) <= length (staging l))%nat.
Proof.
  induction l as [|[r c] l IH]; [done|]. cbn [stop_staging fmap list_fmap]. rewrite !staging_cons. fold (stop_staging gone l).
  destruct c; cbn [snd is_staging length]; try lia. destruct (gone id); cbn [snd is_staging length]; lia.
Qed.

Lemma stop_all l : staging (stop_staging (fun _ => true) l) = [].
Proof. induction l as [|[r c] l IH]; [done|]. cbn [stop_staging fmap list_fmap]. rewrite staging_cons. by destruct c. Qed.

Lemma stop_ok p gone streams streams' l :
  (forall id, gone id = false -> streams' !! id = streams !! id) ->
  Forall (Charge_ok p streams) l -> Forall (Charge_ok p streams') (stop_staging gone l).
Proof.
  intros Hs. induction 1 as [|[r c] l [H1 H2] _ IH]; [constructor|]. cbn [stop_staging fmap list_fmap]. apply Forall_cons. split; [|done].
  cbn [fst snd] in *. destruct c as [| id wire len| |]; try by split. destruct (gone id) eqn:Eg; [by split|]. split; [done|]. cbn. by rewrite Hs.
Qed.

Lemma Stream_counts o o' a : counts o' = counts o -> Stream_ok o a -> Stream_ok o' a.
Proof. intros [= E1 E2 E3] [H1 H2 H3 H4 H5 H6]. split; rewrite ?E1, ?E2, ?E3; done. Qed.

(** *** Costs *)

(** A challenger that won makes what the primary has read useless: no more than the piece. *)
Lemma won_cost_le o a :
  Stream_ok o a -> bo_end a = seg_end (bo_segment a) -> 0 <= sat_sub64 (bo_wire a) (bo_consumed a) ⊕ ob_forwarded o <= bo_len a.
Proof.
  intros [H1 H2 H3 H4 H5 H6] He. unfold sat_sub64, bo_len in *. rewrite Z.max_r by lia. rewrite u64_add_exact by (unfold u64_max in *; lia). lia.
Qed.

(** *** The steps *)

(** Steps that do not touch the ledger. *)
Lemma Bounded_same ex excess x x' live streams actions guards :
  st_reserved (sh_state x') = st_reserved (sh_state x) -> st_consumed_extra (sh_state x') = st_consumed_extra (sh_state x) ->
  st_hedge (sh_state x') = st_hedge (sh_state x) -> st_last_action (sh_state x') = st_last_action (sh_state x) ->
  (forall id, recoveries x' id = recoveries x id) -> sh_next x' = sh_next x ->
  (forall id, counts (sh_observations x' id) = counts (sh_observations x id)) ->
  Bounded ex excess (mkRun x live streams actions guards) -> Bounded ex excess (mkRun x' live streams actions guards).
Proof.
  intros E1 E2 E3 E4 E5 E6 E7 []. cbn [rn_shared rn_live rn_streams rn_actions rn_guards] in *.
  split; cbn [rn_shared rn_live rn_streams rn_actions rn_guards]; rewrite ?E1, ?E2, ?E3, ?E4, ?E6; try done.
  - intros id a Ha. eapply Stream_counts; eauto.
  - intros id Hid. rewrite E5. auto.
Qed.

Lemma Bounded_frame ex excess x x' live streams actions guards :
  Frame x x' -> Bounded ex excess (mkRun x live streams actions guards) -> Bounded ex excess (mkRun x' live streams actions guards).
Proof. intros []. by apply Bounded_same. Qed.

Section Bounds.
  Context (ex : Execution) (excess : Z) (Hlimit : 0 <= ex_extra_limit ex <= u64_max) (Hexcess : 0 <= excess).

Abbreviation Bounded' := (Bounded ex excess).

(** A granted reservation fits the budget, the cooldown and its lineage. *)
Lemma Bounded_granted ctx now len hedge x x' r0 cost charge live streams streams' actions guards :
  Granted ex ctx now len hedge x x' r0 -> Charge_ok (protected ex) streams' (mkReservation len cost, charge) ->
  (is_staging charge = true -> hedge = true /\ 0 < len) -> (forall id a, streams' !! id = Some a -> streams !! id = Some a) ->
  (at_lineage ctx < sh_next x)%nat -> Bounded' (mkRun x live streams actions guards) ->
  Bounded' (mkRun x' (live ++ [(mkReservation len cost, charge)]) streams' ((now, at_lineage ctx) :: actions) (if hedge then guards + 1 else guards)).
Proof.
  intros G Hc Hst Hss Hl [B1 B2 B3 B4 B5 B6 B7 B8 B9 B10 B11 B12 B13]. cbn [rn_shared rn_live rn_streams rn_actions rn_guards] in *.
  pose proof (total_bound_pos _ _ _ B2) as Hp. destruct Hc as [Hc1 Hc2]. cbn in Hc1.
  destruct G as [G1 _ G3 G4 G5 _ G7 G8 G9 G10 G11 G12 G13]. unfold sat_sub64, sat_add64 in G4. rewrite G1 in B13. subst guards.
  assert (staging live = []) as Hn by (destruct (staging live); [done|simpl in B8; lia]).
  assert (total_bound (live ++ [(mkReservation len cost, charge)]) = total_bound live + len) as Et by (rewrite total_bound_app, total_bound_cons; cbn; lia).
  split; cbn [rn_shared rn_live rn_streams rn_actions rn_guards].
  - rewrite Et, G7, B1. apply u64_add_exact. unfold u64_max in *. lia.
  - apply Forall_app. split; [by eapply staging_nil|]. by apply Forall_singleton.
  - intros id a Ha. rewrite G13. by apply B3, Hss.
  - by rewrite G8.
  - rewrite Et. lia.
  - rewrite Et, G8. lia.
  - rewrite staging_app, Hn, Et, G8, staging_cons. cbn [app snd]. destruct (is_staging charge); [|done]. intros _. destruct (Hst eq_refl). lia.
  - rewrite staging_app, Hn, staging_cons. cbn [app snd]. destruct (is_staging charge); [destruct (Hst eq_refl) as [-> _]|]; cbn; lia.
  - by rewrite G10.
  - destruct actions as [|[t a] actions]; [done|]. split; [|done]. apply G3. by rewrite B9.
  - intros id Hid. rewrite G12 in Hid. destruct (B11 id Hid) as [E1 E2]. rewrite G11, E1. unfold actions_of in *. cbn [List.filter snd].
    destruct (Nat.eqb_spec (at_lineage ctx) id) as [<-|Hne].
    + rewrite decide_True by done. cbn [length]. rewrite E1 in G5. lia.
    + rewrite decide_False by done. lia.
  - rewrite G12. by apply Forall_cons.
  - rewrite G9. by destruct hedge.
Qed.

Lemma len_eq ctx a o : Stream_ok o a -> at_segment ctx = bo_segment a -> len_of ctx = bo_len a.
Proof. intros [H1 H2 _ _ _ _] E. unfold len_of, bo_len. rewrite E. apply u64_sub_exact; unfold u64_max in *; lia. Qed.

Lemma tick_bounded ctx now challenger lw lp queued s outcome loc queued' s' x' a r :
  (at_lineage ctx < sh_next (rn_shared r))%nat -> rn_streams r !! at_observation ctx = Some a -> at_segment ctx = bo_segment a ->
  at_request_end ctx = bo_end a -> (seg_end (bo_segment a) < bo_end a -> ob_forwarded (own_observation ctx (rn_shared r)) < bo_len a) ->
  (queued <> [] -> seg_end (bo_segment a) < bo_end a) ->
  on_tick ex ctx now challenger lw lp (queued, s, rn_shared r) = (outcome, loc, (queued', s', x')) ->
  Bounded' r -> Bounded' (after_tick ctx now outcome a x' r).
Proof.
  intros Hl Ha Es Ee Hfw Hq E B. destruct (on_tick_spec _ _ _ _ _ _ _ _ _ _ _ _ _ _ E) as (C & J & HH). destruct r as [x live streams actions guards].
  pose proof (bd_streams _ _ _ B _ _ Ha) as So. cbn [rn_shared rn_streams] in *. pose proof (len_eq ctx a _ So Es) as El.
  pose proof (Chosen_counts _ _ _ _ _ _ (at_observation ctx) C) as Hcount.
  assert (Stream_ok (own_observation ctx x') a) as So' by by eapply Stream_counts.
  destruct outcome as [|res|res]; cbn [Chosen after_tick rn_live rn_streams rn_actions rn_guards] in *; [by apply (Bounded_frame ex excess x)|..].
  - destruct J as (_ & _ & _ & Hf & Hq'); [done|]. assert (ob_forwarded (own_observation ctx x') < bo_len a) as Hlt.
    { destruct (base.decide (seg_end (bo_segment a) < bo_end a)) as [Hb|Hb].
      - specialize (Hfw Hb). unfold own_observation in *. by injection Hcount as _ _ ->.
      - assert (queued' = []) as -> by (destruct Hq' as [->| ->]; [destruct queued; [done|by destruct Hb; apply Hq]|done]).
        unfold request_len in Hf. cbn [last] in Hf. fold (len_of ctx) in Hf. by rewrite El in Hf. }
    destruct C as (x1 & x2 & F1 & G & F2 & Ec & Eb). apply (Bounded_frame ex excess x2); [done|]. replace res with (mkReservation (re_bound res) (re_cost res)) by by destruct res.
    pose proof So' as [S1 S2 S3 S4 S5 [S6 S7]]. unfold own_observation in S6, S7. unfold bo_len in *.
    assert (0 <= cancel_cost (sat_sub64 (bo_wire a) (bo_consumed a)) (ob_forwarded (sh_observations x' (at_observation ctx))) (bo_len a) (protected ex) <= re_bound res) as Hc.
    { rewrite <- S6, <- S7, Eb, El. apply cancel_cost_le; unfold own_observation, bo_len in *; lia. }
    eapply (Bounded_granted ctx now (re_bound res) false x1 x2 res); [exact G| |done| |by rewrite (fr_next _ _ F1)|by apply (Bounded_frame ex excess x)].
    + split; [cbn; lia|exact Hc].
    + intros id b [_ Hb]%lookup_delete_Some. exact Hb.
  - specialize (HH res eq_refl). destruct C as (x1 & x2 & F1 & G & F2 & Ec & Eb). apply (Bounded_frame ex excess x2); [done|].
    replace res with (mkReservation (re_bound res) (re_cost res)) by by destruct res. rewrite El in Eb. pose proof (so_segment _ _ So) as Hseg.
    eapply (Bounded_granted ctx now (re_bound res) true x1 x2); [exact G| | | |by rewrite (fr_next _ _ F1)|by apply (Bounded_frame ex excess x)]; [|split; [done|]|done].
    + rewrite Ec, Eb. unfold bo_len in *. split; [cbn; lia|]. cbn. split_and!; [done|done|lia|]. exists a. split_and!; [done| |done].
      rewrite <- Ee, (ha_last _ _ _ HH). by rewrite Es.
    + rewrite Eb. unfold bo_len. lia.
Qed.

(** A reservation changes. *)
Lemma Bounded_replace x l1 res c l2 res' c' streams actions guards :
  re_bound res' = re_bound res -> Charge_ok (protected ex) streams (res', c') -> (is_staging c' = true -> is_staging c = true) ->
  Bounded' (mkRun x (l1 ++ (res, c) :: l2) streams actions guards) -> Bounded' (mkRun x (l1 ++ (res', c') :: l2) streams actions guards).
Proof.
  intros Eb Hc Hs []. cbn [rn_shared rn_live rn_streams rn_actions rn_guards] in *.
  assert (total_bound (l1 ++ (res', c') :: l2) = total_bound (l1 ++ (res, c) :: l2)) as Et by (rewrite !total_bound_app, !total_bound_cons; cbn; by rewrite Eb).
  assert ((length (staging (l1 ++ (res', c') :: l2)) <= length (staging (l1 ++ (res, c) :: l2)))%nat) as Hlen.
  { rewrite !staging_app, !staging_cons, !length_app. cbn [snd]. destruct (is_staging c'); [rewrite (Hs eq_refl); cbn; lia|destruct (is_staging c); cbn; lia]. }
  split; cbn [rn_shared rn_live rn_streams rn_actions rn_guards]; rewrite ?Et; try done.
  - apply Forall_app in bd_live0 as [L1 [_ L2]%Forall_cons]. apply Forall_app. split; [done|]. by apply Forall_cons.
  - intros Hne. apply bd_staging0. intros E0. rewrite E0 in Hlen. destruct (staging (l1 ++ (res', c') :: l2)); [done|simpl in Hlen; lia].
  - lia.
Qed.

(** A reservation is dropped; only a challenger that overran can have cost more than its bound. *)
Lemma Bounded_release x l1 res c l2 cost streams actions guards :
  0 <= cost -> cost <= re_bound res \/ (is_staging c = true /\ cost <= re_bound res + excess) ->
  Bounded' (mkRun x (l1 ++ (res, c) :: l2) streams actions guards) ->
  Bounded' (release (mkReservation (re_bound res) cost) (l1 ++ l2) (mkRun x (l1 ++ (res, c) :: l2) streams actions guards)).
Proof.
  intros H0 Hc [B1 B2 B3 B4 B5 B6 B7 B8 B9 B10 B11 B12 B13]. cbn [rn_shared rn_live rn_streams rn_actions rn_guards] in *.
  pose proof B2 as [L1 [[Hr _] L2]%Forall_cons]%Forall_app. pose proof (total_bound_pos _ _ _ L1). pose proof (total_bound_pos _ _ _ L2). cbn in Hr.
  assert (total_bound (l1 ++ (res, c) :: l2) = total_bound (l1 ++ l2) + re_bound res) as Et by (rewrite !total_bound_app, total_bound_cons; cbn; lia).
  assert (0 <= total_bound (l1 ++ l2)) by (rewrite total_bound_app; lia). rewrite Et in *.
  assert (length (staging (l1 ++ (res, c) :: l2)) = (if is_staging c then 1 else 0) + length (staging (l1 ++ l2)))%nat as Hl
    by (rewrite !staging_app, staging_cons, !length_app; cbn [snd]; destruct (is_staging c); cbn; lia).
  assert (is_staging c = true \/ staging (l1 ++ l2) <> [] -> total_bound (l1 ++ l2) + re_bound res + st_consumed_extra (sh_state x) <= ex_extra_limit ex) as Hst.
  { intros Hor. apply B7. intros E0. rewrite E0 in Hl. destruct Hor as [Hor|Hor]; [rewrite Hor in Hl; simpl in Hl; lia|].
    destruct (staging (l1 ++ l2)); [done|simpl in Hl; lia]. }
  split; cbn [release rn_shared rn_live rn_streams rn_actions rn_guards sh_state set_state drop_reservation set_budget st_reserved st_consumed_extra st_hedge st_last_action sh_next sh_observations re_bound re_cost]; try done.
  - rewrite B1, u64_sub_exact; unfold u64_max in *; lia.
  - by apply Forall_app.
  - unfold sat_add64. unfold u64_max. lia.
  - lia.
  - unfold sat_add64. destruct Hc as [Hc|[Hc Hc']]; [lia|]. specialize (Hst (or_introl Hc)). lia.
  - intros Hne. specialize (Hst (or_intror Hne)). unfold sat_add64. destruct Hc as [Hc|[Hc Hc']]; [lia|].
    rewrite Hc in Hl. rewrite B13 in B8. destruct (staging (l1 ++ l2)); [done|]. simpl in Hl. destruct (st_hedge _); lia.
  - destruct (is_staging c); lia.
Qed.

(** The body of one request moves on. *)
Lemma Bounded_body x live streams actions guards obs id a a' :
  streams !! id = Some a -> Stream_ok (obs id) a' -> (forall j, j <> id -> obs j = sh_observations x j) ->
  (bo_end a = seg_end (bo_segment a) -> bo_end a' = seg_end (bo_segment a') /\ bo_len a' = bo_len a) ->
  Bounded' (mkRun x live streams actions guards) -> Bounded' (mkRun (set_observations obs x) live (<[id := a']> streams) actions guards).
Proof.
  intros Ha So Ho Hlast []. cbn [rn_shared rn_live rn_streams rn_actions rn_guards] in *.
  split; cbn [rn_shared rn_live rn_streams rn_actions rn_guards]; try done.
  - eapply Forall_impl; [exact bd_live0|]. intros e. apply Charge_streams. intros j b Hb Eb. destruct (base.decide (id = j)) as [<-|Hne].
    + simplify_eq. exists a'. rewrite lookup_insert_eq. destruct (Hlast Eb). done.
    + exists b. by rewrite lookup_insert_ne.
  - intros j b. cbn. destruct (base.decide (id = j)) as [<-|Hne]; [rewrite lookup_insert_eq; by intros [= <-]|].
    rewrite lookup_insert_ne by done. intros Hb. rewrite Ho by done. by apply bd_streams0.
Qed.

Lemma stop_bounded gone x live streams streams' actions guards :
  (forall id, gone id = false -> streams' !! id = streams !! id) -> (forall id a, streams' !! id = Some a -> streams !! id = Some a) ->
  Bounded' (mkRun x live streams actions guards) -> Bounded' (mkRun x (stop_staging gone live) streams' actions guards).
Proof.
  intros Hg Hs []. cbn [rn_shared rn_live rn_streams rn_actions rn_guards] in *. pose proof (stop_length gone live) as Hl.
  split; cbn [rn_shared rn_live rn_streams rn_actions rn_guards]; rewrite ?stop_bound; try done; [by eapply stop_ok|eauto| |lia].
  intros Hne. apply bd_staging0. intros E0. rewrite E0 in Hl. destruct (staging (stop_staging gone live)); [done|simpl in Hl; lia].
Qed.

(** The guard of a challenger that reads no more is dropped. *)
Lemma guard_bounded x live streams streams' actions n :
  staging live = [] -> (forall id a, streams' !! id = Some a -> streams !! id = Some a) -> Bounded' (mkRun x live streams actions (S n)) ->
  Bounded' (mkRun (set_state (drop_hedge_guard (sh_state x)) x) live streams' actions n).
Proof.
  intros Hn Hs []. cbn [rn_shared rn_live rn_streams rn_actions rn_guards] in *.
  split; cbn [rn_shared rn_live rn_streams rn_actions rn_guards sh_state set_state drop_hedge_guard set_budget st_reserved st_consumed_extra st_hedge st_last_action sh_next sh_observations];
    rewrite ?Hn; try done; [by eapply staging_nil|eauto|cbn; lia|destruct (st_hedge _); congruence].
Qed.

Lemma won_bounded x l1 res id len l2 a streams actions n :
  streams !! id = Some a -> Bounded' (mkRun x (l1 ++ (res, Staging id len len) :: l2) streams actions (S n)) ->
  Bounded' (mkRun (set_state (drop_hedge_guard (sh_state x)) x)
    (l1 ++ (res, Winning (sat_sub64 (bo_wire a) (bo_consumed a)) (ob_forwarded (sh_observations x id))) :: l2) (delete id streams) actions n).
Proof.
  intros Ha B. pose proof B as [_ B2 B3 _ _ _ _ B8 _ _ _ _ B13]. cbn [rn_shared rn_live rn_streams rn_guards] in *.
  apply Forall_app in B2 as [_ [[Hc (E1 & E2 & _ & a' & Ha' & Ee & El)] _]%Forall_cons]. cbn [fst snd] in *.
  assert (a' = a) as -> by congruence. pose proof (won_cost_le _ _ (B3 id a Ha) Ee) as Hw. apply (guard_bounded x _ streams).
  - rewrite staging_app, staging_cons, length_app in B8. cbn [snd is_staging length] in B8. rewrite staging_app, staging_cons. cbn [snd is_staging].
    destruct (staging l1), (staging l2); cbn in *; try done; destruct (st_hedge _); lia.
  - intros j b [_ Hb]%lookup_delete_Some. done.
  - apply (Bounded_replace x l1 res (Staging id len len) l2); [done| |done|done]. split; [done|]. cbn. by rewrite E1, El.
Qed.

(** A new request. *)
Lemma begin_bounded x live streams actions guards id g request_end now window :
  streams !! id = None -> 0 <= seg_start g < seg_end g -> seg_end g <= request_end < u64_max ->
  Bounded' (mkRun x live streams actions guards) ->
  Bounded' (mkRun (set_observations (<[id := Observation_new now window]> (sh_observations x)) x) live
    (<[id := mkBody g (seg_start g) request_end 0 0]> streams) actions guards).
Proof.
  intros Hn Hg He []. cbn [rn_shared rn_live rn_streams rn_actions rn_guards] in *.
  split; cbn [rn_shared rn_live rn_streams rn_actions rn_guards]; try done.
  - eapply Forall_impl; [exact bd_live0|]. intros e. apply Charge_streams. intros j b Hb Eb. exists b. rewrite lookup_insert_ne by congruence. done.
  - intros j b. cbn. destruct (base.decide (id = j)) as [<-|Hne].
    + rewrite lookup_insert_eq, fn_lookup_insert. intros [= <-]. split; unfold bo_len; cbn; lia.
    + rewrite lookup_insert_ne, fn_lookup_insert_ne by done. apply bd_streams0.
Qed.

Lemma note_event_counts id e x j : counting e = false -> counts (sh_observations (note_event (ex_policy ex) id e x) j) = counts (sh_observations x j).
Proof.
  intros He. unfold note_event. cbn [sh_observations set_observations]. apply counts_insert. destruct e; try done; cbn [obs_event].
  - apply sample_counts.
  - apply tail_sample_counts.
  - by rewrite should_recover_tail_counts, should_recover_counts.
Qed.

Lemma body_bounded r id a e a' :
  rn_streams r !! id = Some a -> Bounded' r -> Stream_ok (obs_event (ex_policy ex) e (sh_observations (rn_shared r) id)) a' ->
  (bo_end a = seg_end (bo_segment a) -> bo_end a' = seg_end (bo_segment a') /\ bo_len a' = bo_len a) -> Bounded' (on_body (ex_policy ex) id e a' r).
Proof.
  intros Ha B So Hl. destruct r as [x live streams actions guards]. cbn [rn_shared rn_streams] in *. unfold on_body, note_event. cbn [rn_shared rn_live rn_streams rn_actions rn_guards].
  apply (Bounded_body x live streams actions guards _ id a); [done|by rewrite fn_lookup_insert| |done|done]. intros j Hj. by rewrite fn_lookup_insert_ne.
Qed.

(** The steps of a body keep its counters in agreement. *)
Lemma body_step_bounded r r' :
  (exists id a n, rn_streams r !! id = Some a /\ 0 <= n /\ sat_add64 (bo_wire a) n <= bo_end a - bo_start a /\
     r' = on_body (ex_policy ex) id (EvWire n) (mkBody (bo_segment a) (bo_start a) (bo_end a) (sat_add64 (bo_wire a) n) (bo_consumed a)) r) \/
  (exists id a n, rn_streams r !! id = Some a /\ 0 <= n <= bo_wire a - bo_consumed a /\ n <= bo_len a - ob_forwarded (sh_observations (rn_shared r) id) /\
     r' = on_body (ex_policy ex) id (EvForward n) (mkBody (bo_segment a) (bo_start a) (bo_end a) (bo_wire a) (bo_consumed a ⊕ n)) r) \/
  (exists id a g, rn_streams r !! id = Some a /\ ob_forwarded (sh_observations (rn_shared r) id) = bo_len a /\
     seg_start g = seg_end (bo_segment a) /\ seg_start g < seg_end g <= bo_end a /\
     r' = on_body (ex_policy ex) id EvBegin (mkBody g (bo_start a) (bo_end a) (bo_wire a) (bo_consumed a)) r) ->
  Bounded' r -> Bounded' r'.
Proof.
  intros [(id & a & n & Ha & Hn & Hw & ->)|[(id & a & n & Ha & Hn & Hl & ->)|(id & a & g & Ha & Hf & Hg & Hge & ->)]] B;
    pose proof (bd_streams _ _ _ B _ _ Ha) as [S1 S2 S3 S4 S5 [S6 S7]]; unfold bo_len in *; (apply (body_bounded r id a); [done|done|split; unfold bo_len; cbn|unfold bo_len; cbn; lia]); try lia.
  1, 2: unfold sat_add64, u64_max in *; lia.
  all: rewrite u64_add_exact by (unfold u64_max in *; lia); lia.
Qed.

(** The steps that only move the lists of work and the lineages. *)
Lemma lineage_bounded r fresh g : ln_recoveries fresh = 0 -> Bounded' r -> Bounded' (on_shared (fun x => snd (lineage_of fresh g x)) r).
Proof.
  intros Hf B. unfold on_shared, lineage_of. destruct (List.find _ _) as [rec|]; [by destruct r|]. destruct B.
  split; cbn [rn_shared rn_live rn_streams rn_actions rn_guards sh_state sh_next snd]; try done.
  - intros id Hid. unfold recoveries. cbn [sh_lineages snd rn_shared]. destruct (base.decide (sh_next (rn_shared r) = id)) as [<-|Hne].
    + rewrite fn_lookup_insert, Hf. assert (actions_of (sh_next (rn_shared r)) (rn_actions r) = 0) as ->; [|lia].
      unfold actions_of. assert (List.filter (fun a => (a.2 =? sh_next (rn_shared r))%nat) (rn_actions r) = []) as ->; [|done].
      clear -bd_known0. induction bd_known0 as [|a l Ha _ IH]; [done|]. cbn [List.filter]. destruct (Nat.eqb_spec a.2 (sh_next (rn_shared r))); [lia|done].
    + rewrite fn_lookup_insert_ne by done. apply bd_lineages0. lia.
  - eapply Forall_impl; [exact bd_known0|]. intros a. simpl. lia.
Qed.

Lemma finish_counts key complete now1 now2 x id :
  counts (sh_observations (finish_observation ex key complete now1 now2 x) id) = counts (sh_observations x id).
Proof. unfold finish_observation. destruct (_ !! key) as [j|]; [|done]. cbn [sh_observations set_observations]. by apply counts_insert. Qed.

Lemma recovery_step_bounded r r' : recovery_step ex excess r r' -> Bounded' r -> Bounded' r'.
Proof.
  intros Hs B. destruct Hs; unfold on_state, on_live.
  - by eapply tick_bounded.
  - destruct r. by apply begin_bounded.
  - apply (body_step_bounded r); [left; by exists id, a, n|done].
  - apply (body_step_bounded r); [right; left; by exists id, a, n|done].
  - apply (body_step_bounded r); [right; right; by exists id, a, g|done].
  - destruct r. cbn [rn_shared rn_live rn_streams rn_actions rn_guards]. apply (stop_bounded _ _ _ rn_streams0); [|intros j b [_ Hb]%lookup_delete_Some; done|done].
    intros j Hj%Nat.eqb_neq. by rewrite lookup_delete_ne.
  - destruct r. apply (Bounded_same ex excess rn_shared0); try done. intros j. by apply note_event_counts.
  - destruct r. cbn [rn_live] in *. subst. apply (Bounded_replace _ _ res (Cancelling read_ahead forwarded len)); try done.
    pose proof (bd_live _ _ _ B) as [_ [[H1 H2] _]%Forall_cons]%Forall_app. by split.
  - destruct r. cbn [rn_live] in *. subst. apply (Bounded_replace _ _ res (Staging id wire len)); try done.
    pose proof (bd_live _ _ _ B) as [_ [[H2 (H3 & H4 & H5 & H6)] _]%Forall_cons]%Forall_app. cbn in *. split; cbn; [|done].
    split; [unfold sat_add64, u64_max; lia|lia].
  - destruct r. cbn [rn_live] in *. subst. apply (Bounded_release _ l1 res (Staging id wire len)); [| |done].
    + pose proof (bd_live _ _ _ B) as [_ [[H2 (H3 & H4 & H5 & H6)] _]%Forall_cons]%Forall_app. cbn in *. lia.
    + pose proof (bd_live _ _ _ B) as [_ [[H2 (H3 & H4 & H5 & H6)] _]%Forall_cons]%Forall_app. cbn in *. right. split; [done|lia].
  - destruct r. cbn [rn_shared rn_live rn_streams rn_actions rn_guards] in *. subst. by eapply won_bounded.
  - destruct r. cbn [rn_live] in *. subst. apply (Bounded_replace _ _ res (Winning read_ahead forwarded)); try done.
    pose proof (bd_live _ _ _ B) as [_ [[H1 H2] _]%Forall_cons]%Forall_app. by split.
  - destruct r. cbn [rn_live] in *. subst. pose proof (bd_live _ _ _ B) as [_ [[H1 H2] _]%Forall_cons]%Forall_app. cbn in H1.
    replace res with (mkReservation (re_bound res) (re_cost res)) at 1 by by destruct res. apply (Bounded_release _ l1 res charge); [lia|lia|done].
  - destruct r. cbn [rn_shared rn_live rn_streams rn_actions rn_guards] in *. subst. apply (guard_bounded _ _ rn_streams0); [apply stop_all|done|].
    by apply (stop_bounded _ _ _ rn_streams0).
  - by apply lineage_bounded.
  - destruct r. by apply (Bounded_same ex excess rn_shared0).
  - destruct r. by apply (Bounded_same ex excess rn_shared0).
  - destruct r. unfold on_shared. cbn [rn_shared rn_live rn_streams rn_actions rn_guards]. pose proof (finish_counts key complete now1 now2 rn_shared0) as Hc.
    revert Hc. unfold finish_observation. destruct (_ !! key); [|intros _; by apply (Bounded_same ex excess rn_shared0)].
    destruct (_ && _); intros Hc; by apply (Bounded_same ex excess rn_shared0).
  - destruct r. unfold on_shared. cbn [rn_shared rn_live rn_streams rn_actions rn_guards].
    destruct (recover_segments_frame cap min lineage segs s (sh_state rn_shared0)) as (E1 & E2 & E3 & E4). by apply (Bounded_same ex excess rn_shared0).
  - destruct r. by apply (Bounded_same ex excess rn_shared0).
  - destruct r. by apply (Bounded_same ex excess rn_shared0).
  - destruct r. apply (Bounded_same ex excess rn_shared0); try done. intros i. unfold recoveries. cbn [sh_lineages rn_shared]. destruct (base.decide (id = i)) as [->|Hne];
      [by rewrite fn_lookup_insert|by rewrite fn_lookup_insert_ne].
  - destruct r. by apply (Bounded_same ex excess rn_shared0).
  - destruct r. by apply (Bounded_same ex excess rn_shared0).
Qed.
End Bounds.

(** ** Properties *)

Definition run_start (obs : nat -> Observation) (lineages : nat -> Lineage) (available : nat) : Run :=
  mkRun (mkShared State_new obs lineages available 0) [] ∅ [] 0.

(** C16: Recovery never exceeds its budget.  Along every run of a session, however its
    ticks, bodies, retries, challengers and settlements interleave: what is reserved is
    exactly the bounds of the reservations in flight and stays within one percent of the
    object and 16 MiB; what is reserved and what was charged together exceed that by at
    most [excess], the bytes of one frame a challenger's transport delivers beyond the
    length it has announced (none, for a transport that keeps a body within its framing);
    recoveries are at least ten seconds apart, no lineage is recovered more than twice and
    at most one challenger reads.  The charges are the ones the code settles: what a
    cancelled or beaten primary read and lost, and what a challenger has read. *)
Theorem extra_work_bounded spec meta total excess obs lineages available r :
  0 <= total -> 0 <= excess -> rtc (recovery_step (Execution_new spec meta total) excess) (run_start obs lineages available) r ->
  let st := sh_state (rn_shared r) in
  let limit := Z.min (total / 100) (16 * 1024 * 1024) in
  st_reserved st = total_bound (rn_live r) /\ 0 <= st_reserved st <= limit /\ 0 <= st_consumed_extra st /\
  st_reserved st + st_consumed_extra st <= limit + excess /\
  spaced (rn_actions r) /\ (forall id, actions_of id (rn_actions r) <= 2) /\ (length (staging (rn_live r)) <= rn_guards r <= 1)%nat.
Proof.
  intros Ht Hx R st limit. set (ex := Execution_new spec meta total) in *. assert (ex_extra_limit ex = limit) as El by done.
  assert (0 <= ex_extra_limit ex <= u64_max) as Hlimit.
  { rewrite El. unfold limit. pose proof (Z.div_pos total 100 Ht ltac:(lia)). unfold u64_max. lia. }
  clearbody ex. assert (Bounded ex excess r) as [B1 B2 B3 B4 B5 B6 B7 B8 B9 B10 B11 B12 B13].
  { assert (Bounded ex excess (run_start obs lineages available)) as B0
      by (split; cbn; [done|constructor|done|lia|lia|lia|done|lia|done|done|intros id ?; lia|constructor|done]).
    refine (rtc_ind_r (Bounded ex excess) _ B0 _ r R). intros y z _ Hs B. by apply (recovery_step_bounded ex excess Hlimit Hx y z). }
  pose proof (total_bound_pos _ _ _ B2). fold st in B1, B4, B5, B6. split_and!; [done|lia|lia|done|lia|done| |done|].
  - intros id. destruct (Nat.lt_ge_cases id (sh_next (rn_shared r))) as [Hid|Hid]; [by apply B11|].
    unfold actions_of. assert (List.filter (fun a => (a.2 =? id)%nat) (rn_actions r) = []) as ->; [|done].
    clear -B12 Hid. induction B12 as [|a l Ha _ IH]; [done|]. cbn [List.filter]. destruct (Nat.eqb_spec a.2 id); [lia|done].
  - rewrite B13. destruct (st_hedge _); lia.
Qed.

(** ** A slow request is cancelled and settled

    The request of DemoObservation from its first byte: it is evaluated, cancelled, and
    charged the 400 bytes it had forwarded. *)

Module DemoBudget.
Import DemoObservation DemoRecovery.

Definition happens (r : Run) (e : ObsEvent) : Run :=
  match e, rn_streams r !! 0%nat with
  | EvWire n, Some a => on_body policy 0 e (mkBody (bo_segment a) (bo_start a) (bo_end a) (sat_add64 (bo_wire a) n) (bo_consumed a)) r
  | EvForward n, Some a => on_body policy 0 e (mkBody (bo_segment a) (bo_start a) (bo_end a) (bo_wire a) (bo_consumed a ⊕ n)) r
  | _, _ => on_shared (note_event policy 0 e) r
  end.

Definition allowed (r : Run) (e : ObsEvent) : bool :=
  match e, rn_streams r !! 0%nat with
  | EvWire n, Some a => (0 <=? n) && (sat_add64 (bo_wire a) n <=? bo_end a - bo_start a)
  | EvForward n, Some a =>
      (0 <=? n) && (n <=? bo_wire a - bo_consumed a) && (n <=? bo_len a - ob_forwarded (sh_observations (rn_shared r) 0))
  | _, _ => negb (counting e)
  end.

Fixpoint all_allowed (r : Run) (events : list ObsEvent) : bool :=
  match events with [] => true | e :: events => allowed r e && all_allowed (happens r e) events end.

Lemma happens_step r e : allowed r e = true -> recovery_step ex 0 r (happens r e).
Proof.
  unfold allowed, happens. destruct e; try (intros _; by apply (rs_observe ex 0)).
  - destruct (rn_streams r !! 0%nat) as [a|] eqn:Ea; [|done]. rewrite andb_true_iff, !Z.leb_le. intros [H1 H2]. by apply (rs_frame ex 0 r 0 a n).
  - destruct (rn_streams r !! 0%nat) as [a|] eqn:Ea; [|done]. rewrite !andb_true_iff, !Z.leb_le. intros [[H1 H2] H3]. by apply (rs_sent ex 0 r 0 a n).
  - by destruct (rn_streams r !! 0%nat).
Qed.

Lemma happens_run events r : all_allowed r events = true -> rtc (recovery_step ex 0) r (fold_left happens events r).
Proof.
  revert r. induction events as [|e events IH]; intros r; [reflexivity|]. cbn. rewrite andb_true_iff. intros [H1 H2].
  eapply rtc_l; [by apply happens_step|by apply IH].
Qed.

Definition start : Run := run_start (fun _ => slow) (fun _ => fresh) 4.
Definition started : Run := on_shared (fun x => snd (lineage_of fresh segment x)) start.
Definition begun : Run :=
  mkRun (set_observations (<[0%nat := Observation_new 0 second]> (sh_observations (rn_shared started))) (rn_shared started)) []
    (<[0%nat := mkBody segment 0 1000000 0 0]> ∅) [] 0.
Definition read : Run := fold_left happens events begun.
Definition body : Stream := mkBody segment 0 1000000 400 400.
Definition ticks : TickOutcome * (Z * Z) * (list Segment * SchedulerState * Shared) := on_tick ex ctx (7 * second) false 400 0 ([], work.1.2, rn_shared read).
Definition whole : Reservation := mkReservation 1000000 1000000.
Definition cancelled : Run := after_tick ctx (7 * second) (CancelPrimary whole) body ticks.2.2 read.
Definition settled : Run := on_live [(mkReservation 1000000 (cancel_cost 0 400 1000000 false), Charged)] cancelled.
Definition over : Run := release (mkReservation 1000000 (cancel_cost 0 400 1000000 false)) [] settled.

Lemma ticks_cancel : ticks.1.1 = CancelPrimary whole.
Proof. vm_compute. reflexivity. Qed.

Lemma cancels : recovery_step ex 0 read cancelled.
Proof.
  apply (rs_tick ex 0 read ctx (7 * second) false 400 0 [] work.1.2 (CancelPrimary whole) ticks.1.2 ticks.2.1.1 ticks.2.1.2 ticks.2.2 body);
    [done|vm_compute; lia|vm_compute; reflexivity|reflexivity|reflexivity|done|done|].
  rewrite <- ticks_cancel. unfold ticks. by destruct (on_tick _ _ _ _ _ _ _) as [[? ?] [[? ?] ?]].
Qed.

Lemma runs : rtc (recovery_step ex 0) start over.
Proof.
  eapply rtc_l; [by apply (rs_lineage ex 0 start fresh segment)|]. fold started.
  eapply rtc_l; [apply (rs_begin ex 0 started 0 segment 1000000 0 second); [done|cbn; lia|unfold u64_max; cbn; lia]|].
  etrans; [apply (happens_run events begun); vm_compute; reflexivity|]. fold read. eapply rtc_l; [exact cancels|].
  eapply rtc_l; [apply (rs_cancelled ex 0 cancelled [] whole 0 400 1000000 []); vm_compute; reflexivity|].
  eapply rtc_l; [by apply (rs_drop ex 0 settled [] (mkReservation 1000000 (cancel_cost 0 400 1000000 false)) Charged [])|]. apply rtc_refl.
Qed.
End DemoBudget.

Lemma extra_work_bounded_witness :
  st_consumed_extra (sh_state (rn_shared DemoBudget.over)) = 400 /\
  st_reserved (sh_state (rn_shared DemoBudget.over)) + st_consumed_extra (sh_state (rn_shared DemoBudget.over)) <= 10000000 + 0.
Proof.
  split; [vm_compute; reflexivity|].
  destruct (extra_work_bounded DemoRecovery.spec DemoRecovery.meta 1000000000 0 _ _ _ DemoBudget.over ltac:(lia) ltac:(lia) DemoBudget.runs)
    as (_ & _ & _ & H & _).
  exact H.
Defined.
