(* ===== verification/Pool.v ===== *)
(** * Idle workers ([src/session/multi/worker.rs]: [worker_loop], [Slot], [reacquire_slot])

    A worker takes a request only with a permit of [slots], and sleeps on [changed] when
    there is nothing for it.  Here the workers of [Recovered] get their permits and their
    sleep: a worker registers with [changed], looks for work in one critical section, and
    parks; whoever completes, gives back or releases something calls [notify_waiters].
    Every step of a pool is a step of the session below or leaves it alone.

    Of tokio the model uses that [notify_waiters] wakes the futures that were enabled
    before the call and no others, and that a semaphore hands out no more permits than it
    has. *)

From S2P Require Import Prelude RustStr Errors Config PieceMap Ranges Segment Scheduler SchedInv SchedSpec Planner Reserve Assign Dynamic SchedProps Cache Writer WriterInv WriterProps WriterRun Flow Retry Response RangeValidate Control Resume Checkpoint Request Hedge Workers Owned WorkersInv Sessions Pending Recovered Recovery.

(** ** Where a worker is *)

(** [Looping]: at the top of [worker_loop]; [Listening]: registered with [changed];
    [Parked]: asleep, with the deadline of a backoff; [Busy]: working, with a permit;
    [Trying]: working, with a permit for a challenger whose reservation is not decided;
    [Racing]: working next to a challenger that has a permit of its own; [Sleeping]: in
    the backoff of a retry, without a permit.  [heard]: notified since it registered.
    [Telling]: it calls [notify_waiters] before it is at [next]; [Releasing]: it drops a
    [Slot], which gives the permit back and then calls [notify_waiters]. *)
Inductive Park :=
| Looping
| Listening (heard : bool)
| Parked (heard : bool) (deadline : option Z)
| Busy
| Trying
| Racing
| Sleeping
| Releasing (next : Park)
| Telling (next : Park)
| Left.

(** [pool_refused] records that a permit was dropped without a call of [notify_waiters]
    since the last such call: only the permit of a refused challenger is. *)
Record Pool := mkPool {
  pool_session : Session;
  pool_pending : list PendingRange;
  pool_blocked_until : option Z;
  pool_permits : nat;
  pool_refused : bool;
  pool_parks : gmap nat Park;
}.

Definition hear (p : Park) : Park :=
  match p with Listening _ => Listening true | Parked _ deadline => Parked true deadline | _ => p end.

Definition notify_waiters (parks : gmap nat Park) : gmap nat Park := hear <$> parks.

(** The permits a worker and its challenger hold. *)
Fixpoint permits_of (p : Park) : nat :=
  match p with
  | Busy => 1
  | Trying | Racing => 2
  | Releasing next => S (permits_of next)
  | Telling next => permits_of next
  | _ => 0
  end.

(** The calls that follow a step: [notify_waiters] after a completion, after work was
    given back, after a slot was dropped. *)
Definition after_step (st st' : Worker) (p : Park) : Park :=
  match st, st' with
  | Completing _ _ _, Ready _ => Telling p
  | Completing _ _ _, Idle => Telling (Releasing Looping)
  | Settling _ _ _ _, Idle => Telling (Releasing Looping)
  | Settling _ _ _ _, Waiting _ => Telling (Releasing Sleeping)
  | Attempting job _ _ _ _, Attempting job' _ _ _ _ => if bool_decide (job_queued job' = job_queued job) then p else Telling p
  | _, _ => p
  end.

(** ** Looking for work *)

Inductive Look := Finished | Wait (deadline : option Z) | Take (segments : list Segment).

Section Steps.
  Context `{RawBits} `{Codec} (ctx : SaveContext) (obj : Z -> Z) (mb : MemoryBudget).
  Context (slot_capacity : nat) (min_segment_size : Z) (mode : RangeSchedulingMode)
    (request_batch_size dynamic_min_split_size dynamic_max_request_size : Z).

Abbreviation request_cap := (recovery_request_cap mode request_batch_size dynamic_max_request_size).

(** The critical section of the outer loop, with [permits] free; a permit that is not
    used is given back at its end. *)
Definition look (worker_id : nat) (now : Z) (probe_pending diagnostics shares : bool) (blocked_until : option Z) (permits : nat)
    (s : SchedulerState) (pending : list PendingRange) : Look * SchedulerState * list PendingRange :=
  if all_done s then (Finished, s, pending)
  else
    match permits with
    | O => (Wait None, s, pending)
    | S available =>
        let occupied_requests := (slot_capacity - available - 1)%nat in
        let available_request_slots := (slot_capacity - occupied_requests)%nat in
        match pending_backoff now pending blocked_until, pending with
        | Some _, _ => (Wait blocked_until, s, pending)
        | None, range :: rest =>
            match claim worker_id available_request_slots range rest s with
            | (Some segments, s, pending) => (Take segments, s, pending)
            | (None, s, pending) => (Wait None, s, pending)
            end
        | None, [] =>
            match assign_request_with_trace worker_id slot_capacity min_segment_size occupied_requests mode request_batch_size
                    dynamic_min_split_size dynamic_max_request_size (negb probe_pending) diagnostics shares s with
            | (Some assignment, s) => (Take (segments assignment), s, [])
            | (None, s) => (Wait None, s, [])
            end
        end
    end.

(** ** The pool *)

(** A worker may be stopped or aborted where it awaits. *)
Definition may_leave (p : Park) : bool :=
  match p with Looping | Listening _ | Parked _ _ | Busy | Racing | Sleeping => true | _ => false end.

(** Leaving drops the slot of a request, if there is one. *)
Definition drops_slot (p : Park) : bool := match p with Busy | Racing | Sleeping => true | _ => false end.

Definition leave (i : nat) (p : Park) (parks : gmap nat Park) : gmap nat Park :=
  let parks := <[i := Left]> parks in
  if drops_slot p then notify_waiters parks else parks.

(** A challenger is started only for the last piece of a request ([hedge_eligible]). *)
Definition last_piece (st st' : Worker) : Prop :=
  match st, st' with
  | Attempting job _ _ _ _, Settling _ _ _ (ToStaged _) => job_end job = seg_end (job_segment job)
  | _, _ => True
  end.

Definition is_attempt (st : Worker) : bool := match st with Attempting _ _ _ _ _ => true | _ => false end.

Definition failed (st : Worker) : bool := match st with Exited (Err _) => true | _ => false end.

Inductive pool_step : Pool -> Pool -> Prop :=
| pl_listen ms pend until n g parks i :
    parks !! i = Some Looping -> pool_step (mkPool ms pend until n g parks) (mkPool ms pend until n g (<[i := Listening false]> parks))
(* the look for work *)
| pl_finished x q ws acks pend until n g parks i heard now probe diag shares s' pend' :
    parks !! i = Some (Listening heard) -> look i now probe diag shares until n (w_sched x) pend = (Finished, s', pend') ->
    pool_step (mkPool (mkSession x q ws acks) pend until n g parks)
      (mkPool (mkSession (set_sched s' x) q (<[i := Exited (Ok tt)]> ws) acks) pend' until n g (<[i := Left]> parks))
| pl_wait x q ws acks pend until n g parks i heard now probe diag shares deadline s' pend' :
    parks !! i = Some (Listening heard) -> look i now probe diag shares until n (w_sched x) pend = (Wait deadline, s', pend') ->
    next_lease_id s' < u64_max ->
    pool_step (mkPool (mkSession x q ws acks) pend until n g parks)
      (mkPool (mkSession (set_sched s' x) q ws acks) pend' until n g (<[i := Parked heard deadline]> parks))
| pl_take x q ws acks pend until n g parks i heard now probe diag shares first rest s' pend' :
    parks !! i = Some (Listening heard) ->
    look i now probe diag shares until (S n) (w_sched x) pend = (Take (first :: rest), s', pend') -> next_lease_id s' < u64_max ->
    pool_step (mkPool (mkSession x q ws acks) pend until (S n) g parks)
      (mkPool (mkSession (set_sched s' x) q (<[i := Ready (job_of first rest)]> ws) acks) pend' until n g (<[i := Busy]> parks))
(* a parked worker wakes *)
| pl_wake ms pend until n g parks i deadline :
    parks !! i = Some (Parked true deadline) -> pool_step (mkPool ms pend until n g parks) (mkPool ms pend until n g (<[i := Looping]> parks))
| pl_expire ms pend until n g parks i heard deadline :
    parks !! i = Some (Parked heard (Some deadline)) ->
    pool_step (mkPool ms pend until n g parks) (mkPool ms pend until n g (<[i := Looping]> parks))
(* a step of a request *)
| pl_work x q ws acks pend until n g parks i p st st' s' pend' sent :
    parks !! i = Some p -> p = Busy \/ p = Racing /\ is_attempt st && is_attempt st' = true ->
    ws !! i = Some st -> failed st' = false -> last_piece st st' ->
    pending_worker obj mb request_cap min_segment_size i acks st (w_sched x) pend st' s' pend' sent ->
    (sent <> [] -> w_status x = Receiving) ->
    pool_step (mkPool (mkSession x q ws acks) pend until n g parks)
      (mkPool (mkSession (set_sched s' x) (q ++ sent) (<[i := st']> ws) acks) pend' until n g (<[i := after_step st st' p]> parks))
(* [recovery.backoff] on a retry-after of a request or of its challenger *)
| pl_backoff ms pend until n g parks i p deadline :
    parks !! i = Some p -> p = Busy \/ p = Racing ->
    pool_step (mkPool ms pend until n g parks) (mkPool ms pend (later until deadline) n g parks)
(* a retry after its backoff: [reacquire_slot] *)
| pl_reacquire x q ws acks pend until n g parks i job :
    parks !! i = Some Sleeping -> ws !! i = Some (Waiting job) ->
    pool_step (mkPool (mkSession x q ws acks) pend until (S n) g parks)
      (mkPool (mkSession x q (<[i := Ready job]> ws) acks) pend until n g (<[i := Busy]> parks))
(* a challenger: its permit is taken, and kept or, without a call, dropped; it ends or is dropped *)
| pl_try x q ws acks pend until n g parks i st :
    parks !! i = Some Busy -> ws !! i = Some st -> is_attempt st = true ->
    pool_step (mkPool (mkSession x q ws acks) pend until (S n) g parks) (mkPool (mkSession x q ws acks) pend until n g (<[i := Trying]> parks))
| pl_refused ms pend until n g parks i :
    parks !! i = Some Trying -> pool_step (mkPool ms pend until n g parks) (mkPool ms pend until (S n) true (<[i := Busy]> parks))
| pl_challenge ms pend until n g parks i :
    parks !! i = Some Trying -> pool_step (mkPool ms pend until n g parks) (mkPool ms pend until n g (<[i := Racing]> parks))
| pl_challenged ms pend until n g parks i :
    parks !! i = Some Racing -> pool_step (mkPool ms pend until n g parks) (mkPool ms pend until n g (<[i := Releasing Busy]> parks))
(* the calls a worker owes *)
| pl_release ms pend until n g parks i next :
    parks !! i = Some (Releasing next) -> pool_step (mkPool ms pend until n g parks) (mkPool ms pend until (S n) g (<[i := Telling next]> parks))
| pl_tell ms pend until n g parks i next :
    parks !! i = Some (Telling next) ->
    pool_step (mkPool ms pend until n g parks) (mkPool ms pend until n false (notify_waiters (<[i := next]> parks)))
(* a worker fails or is stopped *)
| pl_leave x q ws acks pend until n g parks i p st e s' pend' sent :
    parks !! i = Some p -> may_leave p = true -> ws !! i = Some st ->
    pending_worker obj mb request_cap min_segment_size i acks st (w_sched x) pend (Exited (Err e)) s' pend' sent ->
    (sent <> [] -> w_status x = Receiving) ->
    pool_step (mkPool (mkSession x q ws acks) pend until n g parks)
      (mkPool (mkSession (set_sched s' x) (q ++ sent) (<[i := Exited (Err e)]> ws) acks) pend' until (n + permits_of p) (g && negb (drops_slot p)) (leave i p parks))
(* the writer and the checkpoints *)
| pl_other ms ms' pend until n g parks :
    session_step ctx obj mb ms ms' -> ms_workers ms' = ms_workers ms ->
    (w_sched (ms_world ms') = w_sched (ms_world ms) \/
     exists snap h, freeze ctx (w_sched (ms_world ms)) = (snap, h, w_sched (ms_world ms'))) ->
    pool_step (mkPool ms pend until n g parks) (mkPool ms' pend until n g parks).

Definition pool_start (ms : Session) (workers : nat) : Pool :=
  mkPool ms [] None slot_capacity false (list_to_map ((fun i => (i, Looping)) <$> seq 0 workers)).
End Steps.
