(* ===== verification/PoolProps.v ===== *)
(** * Idle workers are never stranded

    The invariant of the pool of workers: permits are conserved, every lease is held by a
    worker, and a worker that sleeps has nothing to do or is about to be woken. *)

From S2P Require Import Prelude RustStr Errors Config PieceMap Ranges Segment Scheduler SchedInv SchedSpec Planner Reserve Assign AssignProps Dynamic SchedProps Cache Writer WriterInv WriterProps WriterRun Flow Retry Response RangeValidate Control Resume Checkpoint Request Hedge Workers Owned WorkersInv Sessions Pending Recovered RecoveredProps Recovery Pool.

(** ** Leases after an operation *)

(** The leases of [s'] are the leases of [s] other than those in [gone], and new ones of [made]. *)
Definition Leases (s s' : SchedulerState) (gone made : LeaseKey -> Prop) : Prop :=
  forall b k, status s' b = Leased k -> made k \/ (status s b = Leased k /\ ~ gone k).

Definition none_of (k : LeaseKey) : Prop := False.

Definition keys (segs : list Segment) (k : LeaseKey) : Prop := k ∈ (lease_key <$> segs).

Lemma Leases_refl s : Leases s s none_of none_of.
Proof. intros b k E. right. split; [done|by intros []]. Qed.

Lemma Leases_move s s' k to gone made :
  Sched_wf s' -> total_of s' = total_of s -> same_status (total_of s) (status s') (spec_move k to (status s)) ->
  (forall k', gone k' -> k' = k) -> (forall k', to = Leased k' -> made k') -> Leases s s' gone made.
Proof.
  intros W' Ht Hs Hg Hm b k' E. destruct (leased_old s' b k' W' E) as [Hb _]. rewrite Ht in Hb. rewrite (Hs b Hb) in E. unfold spec_move in E.
  case_decide as D; [left; by apply Hm|]. right. split; [done|]. intros Hk%Hg. congruence.
Qed.

Lemma reclaim_leases s k : Sched_wf s -> Leases s (snd (reclaim k s)) (eq k) none_of /\ stopped (snd (reclaim k s)) = stopped s.
Proof.
  intros W. destruct (reclaim k s) as [r s'] eqn:E. destruct (reclaim_spec s k r s' W E) as (W' & Hp & _ & Hst & _ & Hs).
  split; [|done]. by apply (Leases_move s s' k Missing); [|apply same_map_total|..].
Qed.

Lemma complete_leases s k : Sched_wf s -> Leases s (snd (complete k s)) (eq k) none_of /\ stopped (snd (complete k s)) = stopped s.
Proof.
  intros W. destruct (complete k s) as [r s'] eqn:E. destruct (complete_spec s k r s' W E) as (W' & Ht & _ & _ & Hst & _ & Hs).
  split; [|done]. by apply (Leases_move s s' k Done).
Qed.

Lemma renew_leases s k w g s' :
  Sched_wf s -> renew k w s = (Some g, s') -> next_lease_id s' < u64_max ->
  Leases s s' (eq k) (eq (lease_key g)) /\ stopped s' = stopped s /\
  (forall b, 0 <= b < total_of s -> status s' b = Missing -> status s b = Missing) /\
  (forall b, 0 <= b < total_of s -> status s' b = Done -> status s b = Done).
Proof.
  intros W E Hlim. destruct (renew_spec s k w _ s' W E Hlim) as (W' & Hp & Hst & _ & _ & _ & Hs). split_and!; [|done|..].
  - apply (Leases_move s s' k (Leased (lease_key g))); [done|by apply same_map_total|done|done|congruence].
  - intros b Hb. rewrite (Hs b Hb). unfold spec_move. by case_decide.
  - intros b Hb. rewrite (Hs b Hb). unfold spec_move. by case_decide.
Qed.

Lemma retain_leases s k e :
  Sched_wf s -> Leases s (snd (retain_prefix k e s)) none_of none_of /\ stopped (snd (retain_prefix k e s)) = stopped s.
Proof.
  intros W. destruct (retain_prefix k e s) as [r s'] eqn:E. destruct (retain_prefix_spec s k e r s' W E) as (W' & Hp & _ & Hst & _ & Hs).
  split; [|done]. simpl. destruct r; [|subst; apply Leases_refl]. destruct Hs as [Hs _]. intros b k' Eb.
  destruct (leased_old s' b k' W' Eb) as [Hb _]. rewrite (same_map_total _ _ Hp) in Hb. rewrite (Hs b Hb) in Eb. unfold spec_retain in Eb.
  case_decide; [done|]. right. split; [done|by intros []].
Qed.

Lemma reserved_leases s s' w segs : Sched_wf s -> Reserved s s' w segs -> Leases s s' none_of (keys segs).
Proof.
  intros W R b k E. destruct (leased_old s' b k (rs_wf _ _ _ _ R) E) as [Hb _]. rewrite (same_map_total _ _ (rs_pm _ _ _ _ R)) in Hb.
  destruct (existsb (fun g => in_seg g b) segs) eqn:Ex.
  - apply existsb_exists in Ex as (g & Hg%list_elem_of_In & Hin). destruct (rs_taken _ _ _ _ R g b Hg Hin) as [_ E2]. left.
    assert (k = lease_key g) as -> by congruence. by apply list_elem_of_fmap_2.
  - right. split; [|by intros []]. rewrite <- E. symmetry. apply (rs_other _ _ _ _ R); [done|]. intros g Hg. apply not_true_iff_false.
    intros Hin. apply not_true_iff_false in Ex. apply Ex, existsb_exists. exists g. split; [by apply list_elem_of_In|done].
Qed.

Lemma Leases_trans s s1 s2 (g1 g2 m2 : LeaseKey -> Prop) :
  Leases s s1 g1 none_of -> Leases s1 s2 g2 m2 -> Leases s s2 (fun k => g1 k \/ g2 k) m2.
Proof.
  intros L1 L2 b k E. destruct (L2 b k E) as [|[E1 N2]]; [by left|]. destruct (L1 b k E1) as [[]|[E0 N1]]. right. split; [done|tauto].
Qed.

Lemma Leases_held s s' (gone made : LeaseKey -> Prop) (before after : list Segment) :
  Leases s s' gone made -> (forall k, keys before k -> keys after k \/ gone k) -> (forall k, made k -> keys after k) ->
  Leases s s' (keys before) (keys after).
Proof.
  intros L Hg Hm b k E. destruct (L b k E) as [|[E0 N]]; [left; by apply Hm|]. unfold keys in *.
  destruct (base.decide (k ∈ (lease_key <$> before))) as [D|D]; [|by right]. destruct (Hg k D); [by left|done].
Qed.

Lemma reclaim_all_leases s segs :
  Sched_wf s -> Leases s (reclaim_all segs s) (keys segs) none_of /\ stopped (reclaim_all segs s) = stopped s.
Proof.
  unfold reclaim_all. revert s. induction segs as [|g segs IH]; intros s W.
  { split; [|done]. intros b k E. right. split; [done|]. unfold keys. by intros ?%not_elem_of_nil. }
  simpl. destruct (reclaim_leases s (lease_key g) W) as [L1 S1]. destruct (IH _ (kp_wf _ _ (reclaim_keeps s (lease_key g) W))) as [L2 S2].
  split; [|by rewrite S2]. intros b k E. destruct (Leases_trans _ _ _ _ _ _ L1 L2 b k E) as [[]|[E0 N]]. right. split; [done|].
  unfold keys in *. rewrite fmap_cons, elem_of_cons. intros [->|]; apply N; [by left|by right].
Qed.

(** ** A step of a request *)

(** Where the calls a worker owes lead. *)
Fixpoint settles (p : Park) : Park := match p with Releasing next | Telling next => settles next | _ => p end.

Definition working (st : Worker) : bool := match st with Idle | Exited _ | Waiting _ => false | _ => true end.

(** A staged challenger had the last piece of its request. *)
Definition staged_last (st : Worker) : Prop := match st with Settling job _ _ (ToStaged _) => job_queued job = [] | _ => True end.

Definition Fits (st : Worker) (p : Park) : Prop :=
  match settles p with
  | Looping | Listening _ | Parked _ _ => st = Idle
  | Busy => working st = true /\ staged_last st
  | Trying | Racing => is_attempt st = true
  | Sleeping => exists job, st = Waiting job
  | Left => exists r, st = Exited r
  | _ => False
  end.

(** Nothing is left to assign, and not everything is done. *)
Definition Nothing (s : SchedulerState) (pend : list PendingRange) : Prop :=
  pend = [] /\ (forall b, 0 <= b < total_of s -> status s b <> Missing) /\ all_done s = false.

Record Worked (s : SchedulerState) (pend : list PendingRange) (st : Worker) (p : Park)
    (s' : SchedulerState) (pend' : list PendingRange) (st' : Worker) (p' : Park) : Prop := {
  wd_fits : Fits st' p';
  wd_leases : Leases s s' (keys (held st)) (keys (held st'));
  wd_stopped : stopped s' = stopped s;
  wd_told : (exists next, p' = Telling next) \/ (p' = p /\ pend' = pend /\ (Nothing s pend -> Nothing s' pend));
  wd_permits : permits_of p' = permits_of p;
}.

Lemma same_leases s st st' : held st' = held st -> Leases s s (keys (held st)) (keys (held st')).
Proof. intros ->. apply (Leases_held s s none_of none_of); [apply Leases_refl|by left|done]. Qed.

Lemma silent_work s pend st st' p : Fits st' p -> held st' = held st -> Worked s pend st p s pend st' p.
Proof. intros F Hh. split; [done|by apply same_leases|done|by right|done]. Qed.

(** A queue behind the last piece is empty. *)
Lemma last_piece_alone obj total s job : JobOk obj total job -> Forall (Owned s) (job_queued job) -> job_end job = seg_end (job_segment job) ->
  job_queued job = [].
Proof.
  intros J HO He. pose proof (jo_chain _ _ _ J) as Hc. pose proof (jo_ends _ _ _ J) as Hs. destruct (job_queued job) as [|g queued]; [done|].
  destruct Hc as [Hc _]. rewrite !Forall_cons in Hs. destruct Hs as (_ & Hs & _). apply Forall_cons in HO as [[H1 _ _ _] _]. lia.
Qed.

(** Renewing a lease leaves nothing to assign. *)
Lemma renew_nothing s k w g s' pend :
  Sched_wf s -> renew k w s = (Some g, s') -> next_lease_id s' < u64_max -> Nothing s pend -> Nothing s' pend.
Proof.
  intros W E Hlim (Hp & Hm & Hd). destruct (renew_leases s k w g s' W E Hlim) as (_ & _ & H1 & H2).
  destruct (renew_spec s k w _ s' W E Hlim) as (W' & Epm & _). pose proof (same_map_total _ _ Epm) as Ht. split_and!; [done| |].
  - rewrite Ht. intros b Hb Hx. by apply (Hm b Hb), H1.
  - apply not_true_iff_false. intros Ha. apply not_true_iff_false in Hd. apply Hd, all_done_status; [done|]. intros b Hb. apply H2; [done|].
    apply (proj1 (all_done_status s' W') Ha). by rewrite Ht.
Qed.

Section Work.
  Context (obj : Z -> Z) (mb : MemoryBudget) (total : Z) (Hchunk : (1 <= max_chunk mb)%nat) (Htotal : total < u64_max).
  Context (c : Chan) (i : nat) (cap min : Z) (s : SchedulerState).
  Hypothesis (W : Sched_wf s) (Ht : total_of s = total) (Hn : next_lease_id s < u64_max).

Lemma settle_prefix_leases g f retain g' s1 :
  settle_prefix g f retain s = (Ok g', s1) -> Leases s s1 none_of none_of /\ stopped s1 = stopped s.
Proof.
  unfold settle_prefix. destruct retain; [|intros [= _ <-]; split; [apply Leases_refl|done]]. intros E.
  pose proof (retain_leases s (lease_key g) (seg_start g ⊕ f) W) as L. destruct (retain_prefix _ _ s) as [[|] s2]; [|done]. by injection E as _ <-.
Qed.

Lemma settle_worked job f retain outcome st' s' pend :
  WorkerOk obj mb total c s (Settling job f retain outcome) -> staged_last (Settling job f retain outcome) -> job_key job ∈ ch_acks c ->
  settle i job f retain outcome s = (st', s') -> next_lease_id s' < u64_max -> failed st' = false ->
  Worked s pend (Settling job f retain outcome) Busy s' (settle_pending cap min job f retain outcome s pend) st'
    (after_step (Settling job f retain outcome) st' Busy).
Proof.
  intros K Hlast Ha E Hlim Hf.
  destruct (settle_prefix_ok obj mb total Hchunk Htotal c s job f retain outcome W Ht Hn K Ha) as (g & s1 & E1 & Hk & O1 & M1 & _).
  destruct (settle_prefix_leases _ _ _ _ _ E1) as [L0 S0]. pose proof (mv_wf _ _ _ M1) as W1.
  destruct (reclaim_all_leases s1 (job_queued job) W1) as [L1 S1]. pose proof (kp_wf _ _ (reclaim_all_keeps s1 (job_queued job) W1)) as W2.
  unfold settle in E. unfold settle_pending. rewrite E1 in E |- *. destruct outcome as [| |file|error]; cbn [after_settle] in E.
  - destruct (reclaim_all_leases s1 (g :: job_queued job) W1) as [L2 S2]. injection E as <- <-.
    split; [done| |exact (eq_trans S2 S0)|left; by eexists|done]. eapply Leases_held; [exact (Leases_trans _ _ _ _ _ _ L0 L2)| |done].
    intros k Hin. right. right. unfold keys in *. cbn [held] in Hin. rewrite fmap_cons in *. by rewrite Hk.
  - destruct (renew _ _ _) as [[g'|] s2] eqn:Er; injection E as <- <-; [|done].
    destruct (renew_leases _ _ _ _ _ W2 Er Hlim) as (L2 & S2 & _).
    split; [by eexists| |by rewrite S2, S1|left; by eexists|done].
    eapply Leases_held; [exact (Leases_trans _ _ _ _ _ _ (Leases_trans _ _ _ _ _ _ L0 L1) L2)| |].
    + intros k Hin. right. unfold keys in *. cbn [held] in Hin. rewrite fmap_cons, elem_of_cons in Hin. destruct Hin as [->|]; [right; by rewrite Hk|tauto].
    + intros k <-. apply list_elem_of_here.
  - cbn in Hlast. rewrite Hlast in *. cbn [given_back]. change (recovered_ranges cap min s1 []) with (@nil PendingRange). rewrite app_nil_r.
    change (reclaim_all [] s1) with s1 in *.
    assert (retain = false) as -> by (destruct retain; [|done]; destruct K as [_ _ (_ & Hr & _)]; by destruct (Hr eq_refl) as (_ & [|] & _)).
    injection E1 as <- <-. destruct (renew _ _ _) as [[g'|] s2] eqn:Er; injection E as <- <-; [|done].
    destruct (renew_leases _ _ _ _ _ W Er Hlim) as (L2 & S2 & _). split; [by split| |done| |done].
    + eapply Leases_held; [exact L2| |]; unfold keys; cbn [held]; [rewrite Hlast; intros k ->%list_elem_of_singleton; by right|].
      intros k <-. apply list_elem_of_here.
    + right. split_and!; [done|done|]. by eapply renew_nothing.
  - injection E as <- <-. done.
Qed.

Lemma complete_worked job next stale st' s' pend :
  finish_lease job next stale s = (st', s') -> failed st' = false ->
  Worked s pend (Completing job next stale) Busy s' pend st' (after_step (Completing job next stale) st' Busy).
Proof.
  unfold finish_lease. destruct (complete_leases s (job_key job) W) as [L S]. destruct (complete (job_key job) s) as [[|] s1]; [|by intros [= <- <-]].
  cbn [snd] in *. destruct (job_queued job) as [|g queued] eqn:Eq; intros [= <- <-] _.
  - split; [done| |done|left; by eexists|done]. eapply Leases_held; [exact L| |done]. unfold keys. cbn [held]. rewrite Eq.
    intros k ->%list_elem_of_singleton. by right.
  - split; [done| |done|left; by eexists|done]. eapply Leases_held; [exact L| |done]. unfold keys. cbn [held job_segment job_queued]. rewrite Eq.
    intros k. rewrite fmap_cons, elem_of_cons. intros [->|]; [by right|by left].
Qed.
End Work.

Lemma work_ok obj mb total c i cap min s st st' s' pend pend' sent p :
  (1 <= max_chunk mb)%nat -> total < u64_max -> Sched_wf s -> total_of s = total -> next_lease_id s < u64_max ->
  WorkerOk obj mb total c s st -> Fits st p -> p = Busy \/ p = Racing /\ is_attempt st && is_attempt st' = true -> failed st' = false ->
  last_piece st st' -> pending_worker obj mb cap min i (ch_acks c) st s pend st' s' pend' sent ->
  Worked s pend st p s' pend' st' (after_step st st' p).
Proof.
  intros Hchunk Htotal W Ht Hn K F Hp Hf Hlast Hs.
  assert (working st = true /\ staged_last st) as [Hw Hst].
  { destruct Hp as [->|[-> Ha]]; [done|]. apply andb_true_iff in Ha as [Ha _]. by destruct st. }
  assert (p = Busy \/ is_attempt st = true /\ is_attempt st' = true /\ p = Racing) as Hp'
    by (destruct Hp as [|[-> [? ?]%andb_true_iff]]; auto).
  clear Hp. destruct Hs; try done.
  - destruct Hp' as [->|(? & _)]; [|done]. by apply (settle_worked obj mb total Hchunk Htotal c i).
  - (* hand-off *)
    destruct (reclaim_all_leases s (job_queued job) W) as [L S]. cbn [after_step]. cbn [job_queued]. case_bool_decide as D.
    + rewrite <- D. change (recovered_ranges cap min s []) with (@nil PendingRange). rewrite app_nil_r. cbn.
      apply silent_work; [|cbn; by rewrite <- D]. by destruct Hp' as [->|(_ & _ & ->)].
    + split; [by destruct Hp' as [->|(_ & _ & ->)]| |done|left; by eexists|done]. eapply Leases_held; [exact L| |done].
      unfold keys. cbn [held job_segment job_queued]. intros k. rewrite fmap_cons, elem_of_cons. intros [->|]; [left; apply list_elem_of_here|by right].
  - match goal with Hs : worker_step _ _ _ _ _ _ _ _ _ |- _ => destruct Hs; try done end;
      try (destruct Hp' as [->|(? & ? & _)]; [|done]); try by apply silent_work.
    + (* a chunk *) cbn. rewrite bool_decide_true by done. apply silent_work; [|done]. by destruct Hp' as [->|(_ & _ & ->)].
    + by apply complete_worked.
    + (* interrupted *) apply silent_work; [|done]. split; [done|]. cbn. destruct outcome as [| |file|]; try done. cbn in Hlast.
      destruct K as [KO _ (J & _)]. cbn [held] in KO. apply Forall_cons in KO as [_ KO]. by eapply last_piece_alone.
    + (* hand-off without a queue *)
      match goal with Hq : plain _ _ |- _ => cbn in Hq; cbn; rewrite bool_decide_true by done; rewrite <- Hq; cbn;
        apply silent_work; [by destruct Hp' as [->|(_ & _ & ->)]|cbn; by rewrite <- Hq] end.
Qed.

(** ** The invariant *)

Definition sched_of (x : Pool) : SchedulerState := w_sched (ms_world (pool_session x)).

Definition workers_of (x : Pool) : gmap nat Worker := ms_workers (pool_session x).

(** No worker has ended with an error. *)
Definition unfailed (ws : gmap nat Worker) : Prop := forall i st, ws !! i = Some st -> failed st = false.

Lemma unfailed_before ws i st st' : unfailed (<[i := st']> ws) -> ws !! i = Some st -> failed st = false -> unfailed ws /\ failed st' = false.
Proof.
  intros U Hs Hf. split; [|apply (U i), lookup_insert_eq]. intros j st2 Hj. destruct (base.decide (i = j)) as [<-|Hne]; [by simplify_eq|].
  apply (U j). by rewrite lookup_insert_ne.
Qed.

(** Every lease is held by a worker. *)
Definition holds_all (s : SchedulerState) (ws : gmap nat Worker) : Prop :=
  forall b k, status s b = Leased k -> exists i st, ws !! i = Some st /\ keys (held st) k.

(** Some worker holds a permit. *)
Definition holder (parks : gmap nat Park) : Prop := exists j p, parks !! j = Some p /\ permits_of p <> 0%nat.

(** A worker that sleeps unheard is about to be told, has a deadline, finds no permit,
    has nothing to do, or missed a permit that was dropped without a call, while some
    worker still has a call to make. *)
Definition Idle_ok (parks : gmap nat Park) (permits : nat) (refused : bool) (pend : list PendingRange) (s : SchedulerState) : Prop :=
  forall i deadline, parks !! i = Some (Parked false deadline) ->
    (exists j next, parks !! j = Some (Telling next)) \/ deadline <> None \/ permits = 0%nat \/ Nothing s pend \/ (refused = true /\ holder parks).

Lemma idle_telling parks i next n g pend s : Idle_ok (<[i := Telling next]> parks) n g pend s.
Proof. intros j d _. left. exists i, next. apply lookup_insert_eq. Qed.

Lemma idle_notified parks n g pend s : Idle_ok (notify_waiters parks) n g pend s.
Proof. intros j d E. unfold notify_waiters in E. rewrite lookup_fmap in E. destruct (parks !! j) as [[]|]; simplify_eq/=. Qed.

(** The move of one worker that is not told to others. *)
Lemma idle_frame parks i p p' n n' g pend pend' s s' :
  Idle_ok parks n g pend s -> parks !! i = Some p -> (forall next, p <> Telling next) ->
  (forall d, p' = Parked false d -> d <> None \/ n' = 0%nat \/ Nothing s' pend') -> (permits_of p <> 0%nat -> permits_of p' <> 0%nat) ->
  (n = 0%nat -> n' = 0%nat) -> (n <> 0%nat -> Nothing s pend -> Nothing s' pend') -> Idle_ok (<[i := p']> parks) n' g pend' s'.
Proof.
  intros I Hi Hp Hp' Hh Hn HN j d E. destruct (base.decide (i = j)) as [<-|Hne].
  { rewrite lookup_insert_eq in E. injection E as E. destruct (Hp' d E) as [|[|]]; tauto. }
  rewrite lookup_insert_ne in E by done. destruct (I j d E) as [(k & next & Hk)|[|[|[|[Hg (k & p2 & Hk & Hk')]]]]]; [|tauto|tauto| |].
  - left. exists k, next. rewrite lookup_insert_ne; [done|]. intros <-. rewrite Hi in Hk. injection Hk as Hk. by apply (Hp next).
  - right. right. destruct n; [left; by apply Hn|right; left; by apply HN].
  - do 4 right. split; [done|]. destruct (base.decide (i = k)) as [<-|Hik].
    + exists i, p'. rewrite lookup_insert_eq. simplify_eq. auto.
    + exists k, p2. by rewrite lookup_insert_ne.
Qed.

(** A permit is dropped without a call by a worker that keeps one. *)
Lemma idle_refused parks i p' n pend s :
  permits_of p' <> 0%nat -> Idle_ok (<[i := p']> parks) n true pend s.
Proof. intros Hp j d _. do 4 right. split; [done|]. exists i, p'. by rewrite lookup_insert_eq. Qed.

Lemma fits_hear st p : Fits st p -> Fits st (hear p).
Proof. by destruct p. Qed.

Lemma permits_hear p : permits_of (hear p) = permits_of p.
Proof. by destruct p. Qed.

(** Nobody holds a lease once all is done. *)
Lemma all_done_held s st : Sched_wf s -> all_done s = true -> Forall (Owned s) (held st) -> held st = [].
Proof.
  intros W Ha HO. destruct (held st) as [|g gs]; [done|]. apply Forall_cons in HO as [[H1 H2 _ H4] _].
  pose proof (proj2 (H4 (seg_start g) ltac:(lia)) ltac:(lia)) as E. rewrite (proj1 (all_done_status s W) Ha) in E by lia. done.
Qed.

Section Runs.
  Context `{RawBits} `{Codec} (ctx : SaveContext) (obj : Z -> Z) (mb : MemoryBudget).
  Context (Hchunk : (1 <= max_chunk mb)%nat) (Htotal : sc_total_size ctx < u64_max).
  Context (slot_capacity : nat) (min : Z) (mode : RangeSchedulingMode) (batch dmin dmax : Z).
  Context (Hslots : (1 <= slot_capacity)%nat) (Hmin : 0 <= min) (Hbatch : 0 <= batch) (Hdmax : 0 <= dmax).

Abbreviation cap := (recovery_request_cap mode batch dmax).
Abbreviation step := (pool_step ctx obj mb slot_capacity min mode batch dmin dmax).
Abbreviation worker_does := (pending_worker obj mb cap min).

Definition total_permits (parks : gmap nat Park) (workers : nat) : nat :=
  nsum (fun i => permits_of (default Left (parks !! i))) workers.

Record Pool_ok (workers : nat) (x : Pool) : Prop := {
  pk_session : Session_ok ctx obj mb (pool_session x);
  pk_pending : PendingOk (sched_of x) (pool_pending x);
  pk_workers : forall i, is_Some (workers_of x !! i) <-> (i < workers)%nat;
  pk_parks : forall i, is_Some (pool_parks x !! i) <-> (i < workers)%nat;
  pk_fits : forall i st p, workers_of x !! i = Some st -> pool_parks x !! i = Some p -> Fits st p;
  pk_permits : (pool_permits x + total_permits (pool_parks x) workers = slot_capacity)%nat;
  pk_stopped : unfailed (workers_of x) -> stopped (sched_of x) = false;
  pk_leases : unfailed (workers_of x) -> holds_all (sched_of x) (workers_of x);
  pk_done : forall i r, unfailed (workers_of x) -> workers_of x !! i = Some (Exited r) -> all_done (sched_of x) = true;
}.

Definition Pool_idle (x : Pool) : Prop :=
  unfailed (workers_of x) -> Idle_ok (pool_parks x) (pool_permits x) (pool_refused x) (pool_pending x) (sched_of x).

Lemma total_permits_update parks workers i p p' :
  (i < workers)%nat -> parks !! i = Some p ->
  (total_permits (<[i := p']> parks) workers + permits_of p = total_permits parks workers + permits_of p')%nat.
Proof.
  intros Hi Hp. unfold total_permits.
  pose proof (nsum_update (fun i => permits_of (default Left (parks !! i))) (fun j => permits_of (default Left (<[i := p']> parks !! j))) workers i Hi) as U.
  cbn beta in U. rewrite Hp, lookup_insert_eq in U. symmetry. apply U. intros j Hj. by rewrite lookup_insert_ne.
Qed.

Lemma notify_pool workers ms pend until n g g' parks :
  Pool_ok workers (mkPool ms pend until n g parks) -> Pool_ok workers (mkPool ms pend until n g' (notify_waiters parks)).
Proof.
  intros [P1 P2 P3 P4 P5 P6 P7 P8 P9]. unfold notify_waiters. cbn in *. split; try done; cbn.
  - intros i. rewrite lookup_fmap, fmap_is_Some. apply P4.
  - intros i st p Hs Hp. rewrite lookup_fmap in Hp. destruct (parks !! i) as [p0|] eqn:E; [|done]. injection Hp as <-. apply fits_hear. by apply (P5 i).
  - rewrite <- P6. f_equal. apply nsum_ext. intros i _. rewrite lookup_fmap. destruct (parks !! i); [apply permits_hear|done].
Qed.

(** One worker moves. *)
Lemma pool_update workers x q ws acks pend until n g parks i p st s' q' st' pend' until' n' g' p' :
  Pool_ok workers (mkPool (mkSession x q ws acks) pend until n g parks) -> ws !! i = Some st -> parks !! i = Some p ->
  Session_ok ctx obj mb (mkSession (set_sched s' x) q' (<[i := st']> ws) acks) -> PendingOk s' pend' -> Fits st' p' ->
  (n' + permits_of p' = n + permits_of p)%nat -> failed st = false ->
  (failed st' = false -> stopped (w_sched x) = false ->
    stopped s' = false /\ Leases (w_sched x) s' (keys (held st)) (keys (held st')) /\
    (all_done (w_sched x) = true -> all_done s' = true) /\ (forall r, st' = Exited r -> all_done s' = true)) ->
  Pool_ok workers (mkPool (mkSession (set_sched s' x) q' (<[i := st']> ws) acks) pend' until' n' g' (<[i := p']> parks)).
Proof.
  intros [P1 P2 P3 P4 P5 P6 P7 P8 P9] Hs Hp HS HP HF Hn Hst Hx. unfold sched_of, workers_of in *. cbn in *.
  assert (unfailed (<[i := st']> ws) -> unfailed ws /\ failed st' = false) as U by (intros U; by eapply unfailed_before).
  assert (Hi : (i < workers)%nat) by (by apply P3). split; unfold sched_of, workers_of; cbn; try done.
  - intros j. destruct (base.decide (i = j)) as [<-|Hne]; [rewrite lookup_insert_eq; by split|by rewrite lookup_insert_ne].
  - intros j. destruct (base.decide (i = j)) as [<-|Hne]; [rewrite lookup_insert_eq; by split|by rewrite lookup_insert_ne].
  - intros j st2 p2. destruct (base.decide (i = j)) as [<-|Hne]; [rewrite !lookup_insert_eq; by intros [= <-] [= <-]|].
    rewrite !lookup_insert_ne by done. apply P5.
  - pose proof (total_permits_update parks workers i p p' Hi Hp). lia.
  - intros [U1 U2]%U. by apply Hx, P7.
  - intros [U1 U2]%U. destruct (Hx U2 (P7 U1)) as (_ & L & _). intros b k E. destruct (L b k E) as [Hk|[E0 N]].
    + exists i, st'. by rewrite lookup_insert_eq.
    + destruct (P8 U1 b k E0) as (j & st2 & Hj & Hk). exists j, st2. rewrite lookup_insert_ne; [done|]. intros <-. by simplify_eq.
  - intros j r [U1 U2]%U. destruct (Hx U2 (P7 U1)) as (_ & _ & A1 & A2). destruct (base.decide (i = j)) as [<-|Hne].
    + rewrite lookup_insert_eq. intros [= E]. by apply (A2 r).
    + rewrite lookup_insert_ne by done. intros E. by eapply A1, P9.
Qed.

Lemma set_same x : set_sched (w_sched x) x = x.
Proof. by destruct x. Qed.

(** A worker moves and the session does not. *)
Lemma park_update workers ms pend until n g parks i p until' n' g' p' :
  Pool_ok workers (mkPool ms pend until n g parks) -> parks !! i = Some p -> (forall st, ms_workers ms !! i = Some st -> Fits st p -> Fits st p') ->
  (n' + permits_of p' = n + permits_of p)%nat -> Pool_ok workers (mkPool ms pend until' n' g' (<[i := p']> parks)).
Proof.
  intros [P1 P2 P3 P4 P5 P6 P7 P8 P9] Hp HF Hn. unfold sched_of, workers_of in *. cbn in *.
  assert (Hi : (i < workers)%nat) by (by apply P4). split; unfold sched_of, workers_of; cbn; try done.
  - intros j. destruct (base.decide (i = j)) as [<-|Hne]; [rewrite lookup_insert_eq; by split|by rewrite lookup_insert_ne].
  - intros j st p2 Hs. destruct (base.decide (i = j)) as [<-|Hne]; [rewrite lookup_insert_eq; intros [= <-]; eauto|].
    rewrite lookup_insert_ne by done. by apply P5.
  - pose proof (total_permits_update parks workers i p p' Hi Hp). lia.
Qed.

(** ** Looking for work *)

Lemma reserved_nothing s s' i pend' :
  Sched_wf s -> Reserved s s' i [] -> available_range_count s = 0%nat -> all_done s = false -> pend' = [] -> Nothing s' pend'.
Proof.
  intros W R Ha Hd ->. pose proof (same_map_total _ _ (rs_pm _ _ _ _ R)) as Ht. split_and!; [done| |].
  - rewrite Ht. intros b Hb E. rewrite (rs_other _ _ _ _ R b Hb) in E by (by intros g []%not_elem_of_nil).
    by apply (missing_available s b W Hb E).
  - unfold all_done. by rewrite (rs_pm _ _ _ _ R).
Qed.

Lemma reserved_something s s' i segs pend : Reserved s s' i segs -> Sched_wf s -> segs <> [] -> ~ Nothing s pend.
Proof.
  intros R W Hne (_ & Hm & _). destruct segs as [|g gs]; [done|]. pose proof (rs_seg _ _ _ _ R g (list_elem_of_here _ _)) as (Hc & _ & H1 & H2 & H3 & _).
  pose proof (plo_phi s _ W Hc). apply (Hm (seg_start g)); [lia|]. apply (rs_taken _ _ _ _ R g); [apply list_elem_of_here|].
  unfold in_seg. apply in_range_true. cbn. lia.
Qed.

Lemma look_ok i acks now probe diag shares until n s pend r s' pend' :
  Sched_wf s -> PendingOk s pend ->
  look slot_capacity min mode batch dmin dmax i now probe diag shares until n s pend = (r, s', pend') ->
  (r <> Finished -> next_lease_id s' < u64_max) ->
  match r with
  | Finished => s' = s /\ pend' = pend /\ all_done s = true
  | Wait deadline =>
      all_done s = false /\
      ((s' = s /\ pend' = pend /\ (deadline <> None \/ n = 0%nat)) \/
       (worker_does i acks Idle s pend Idle s' pend' [] /\ Reserved s s' i [] /\ (stopped s = false -> Nothing s' pend')))
  | Take segs =>
      all_done s = false /\ segs <> [] /\ Reserved s s' i segs /\
      forall first rest, segs = first :: rest -> worker_does i acks Idle s pend (Ready (job_of first rest)) s' pend' []
  end.
Proof.
  intros W P E Hlim. unfold look in E. destruct (all_done s) eqn:Hd; [by injection E as <- <- <-|].
  destruct n as [|available]; [injection E as <- <- <-; split; [done|left; by auto]|].
  destruct (pending_backoff now pend until) as [d|] eqn:Eb.
  { assert (until <> None) as Hu by (unfold pending_backoff in Eb; destruct (bool_decide _); [done|]; by destruct until).
    injection E as <- <- <-. split; [done|left; by auto]. }
  clear Eb. destruct pend as [|range pend].
  - destruct (assign_request_with_trace _ _ _ _ _ _ _ _ _ _ _ s) as [[a|] s1] eqn:Ea; injection E as <- <- <-;
      pose proof (assign_request_spec _ _ _ _ _ _ _ _ _ _ _ _ _ _ W Hmin Ea (Hlim ltac:(done))) as HR; cbn in HR.
    + pose proof (ra_count _ _ _ _ _ HR) as Hc. split_and!; [done|by destruct (segments a); [simpl in Hc; lia|]|apply HR|].
      intros first rest Es. eapply pw_assign; [exact Hmin|exact Ea|exact Es|by apply Hlim].
    + destruct HR as [R HR]. split; [done|]. right. split_and!; [|done|].
      * eapply pw_assign_none; [exact Hmin|exact Ea|by apply Hlim].
      * intros Hst. apply (reserved_nothing s _ i); try done. destruct HR as [?|[?|?]]; [lia|congruence|done].
  - destruct (claim _ _ _ _ _) as [[[segs|] s1] pend1] eqn:Ec; injection E as <- <- <-.
    + assert (next_lease_id s1 < u64_max) as Hl by by apply Hlim. assert (Reserved s s1 i segs /\ segs <> []) as [R Hne].
      { unfold claim in Ec. destruct (take_prefix _ _) as [sel r']. destruct (assign_recovery_batch _ _ _) as [[segs'|] s2] eqn:Ea; simplify_eq.
        destruct (recovery_batch_spec _ _ _ _ _ W Ea Hl) as (R & _ & _ & Hc). split; [done|]. destruct segs; [simpl in Hc; lia|done]. }
      split_and!; try done. intros first rest ->. by eapply pw_claim.
    + assert (next_lease_id s1 < u64_max) as Hl by by apply Hlim. split; [done|]. right. split_and!.
      * by eapply pw_claim_none.
      * unfold claim in Ec. destruct (take_prefix _ _) as [sel r']. destruct (assign_recovery_batch _ _ _) as [[segs'|] s2] eqn:Ea; simplify_eq.
        exact (recovery_batch_spec _ _ _ _ _ W Ea Hl).
      * intros Hst. by destruct (claim_total _ _ _ _ _ _ _ _ W P Ec Hl Hst) as (segs & ? & _).
Qed.

(** ** Every step keeps the invariant *)

Lemma cap_nonneg : 0 <= cap.
Proof. by destruct mode. Qed.

Definition below (x y : Pool) : Prop :=
  rtc (pending_step ctx obj mb cap min) (pool_session x, pool_pending x) (pool_session y, pool_pending y).

Lemma does_ok x q ws acks pend i st st' s' pend' sent :
  Session_ok ctx obj mb (mkSession x q ws acks) -> PendingOk (w_sched x) pend -> ws !! i = Some st ->
  worker_does i acks st (w_sched x) pend st' s' pend' sent -> (sent <> [] -> w_status x = Receiving) ->
  let ms' := mkSession (set_sched s' x) (q ++ sent) (<[i := st']> ws) acks in
  pending_step ctx obj mb cap min (mkSession x q ws acks, pend) (ms', pend') /\ Session_ok ctx obj mb ms' /\ PendingOk s' pend'.
Proof.
  intros S P Hi Hd Hs ms'. assert (pending_step ctx obj mb cap min (mkSession x q ws acks, pend) (ms', pend')) as Hp by by eapply ps_worker.
  destruct (pending_step_ok ctx obj mb Hchunk Htotal cap min cap_nonneg Hmin _ _ _ _ S P Hp) as [Hm HP].
  split_and!; [done|by apply (session_step_ok ctx obj mb Hchunk Htotal _ _ S)|done].
Qed.

Lemma parked_worker workers x i p :
  Pool_ok workers x -> pool_parks x !! i = Some p -> exists st, workers_of x !! i = Some st /\ Fits st p.
Proof.
  intros P Hp. destruct (proj2 (pk_workers _ _ P i) (proj1 (pk_parks _ _ P i) (mk_is_Some _ _ Hp))) as [st Hs].
  exists st. split; [done|]. by apply (pk_fits _ _ P i).
Qed.

Lemma finished_ok workers x q ws acks pend until n g parks i heard now probe diag shares s' pend' :
  let a := mkPool (mkSession x q ws acks) pend until n g parks in
  let b := mkPool (mkSession (set_sched s' x) q (<[i := Exited (Ok tt)]> ws) acks) pend' until n g (<[i := Left]> parks) in
  Pool_ok workers a -> Pool_idle a -> parks !! i = Some (Listening heard) ->
  look slot_capacity min mode batch dmin dmax i now probe diag shares until n (w_sched x) pend = (Finished, s', pend') ->
  below a b /\ Pool_ok workers b /\ Pool_idle b.
Proof.
  intros a b P I Hp E. destruct (parked_worker _ _ _ _ P Hp) as (st & Hs & F). cbn in F, Hs. subst st.
  pose proof P as [P1 P2 _ _ _ _ _ _ _]. unfold sched_of in *. cbn in *. pose proof P1 as [[[W _] _ _ _ _ _ _ _] _ _ _ _ _].
  destruct (look_ok i acks _ _ _ _ _ _ _ _ _ _ _ W P2 E ltac:(done)) as (-> & -> & Hd).
  destruct (does_ok x q ws acks pend i Idle (Exited (Ok tt)) (w_sched x) pend []) as (D1 & D2 & D3); try done.
  { apply pw_plain; [by apply w_done|done]. }
  rewrite app_nil_r in *. split_and!; [by apply rtc_once| |].
  - eapply pool_update; try done; [by eexists|]. intros _ Hst. split_and!; [done|by apply same_leases|done|by intros r [= <-]].
  - intros U. apply (idle_frame parks i (Listening heard) _ n n g pend pend (w_sched x)); try done. apply I. exact (proj1 (unfailed_before _ _ _ _ U Hs eq_refl)).
Qed.

Lemma wait_ok workers x q ws acks pend until n g parks i heard now probe diag shares deadline s' pend' :
  let a := mkPool (mkSession x q ws acks) pend until n g parks in
  let b := mkPool (mkSession (set_sched s' x) q ws acks) pend' until n g (<[i := Parked heard deadline]> parks) in
  Pool_ok workers a -> Pool_idle a -> parks !! i = Some (Listening heard) ->
  look slot_capacity min mode batch dmin dmax i now probe diag shares until n (w_sched x) pend = (Wait deadline, s', pend') ->
  next_lease_id s' < u64_max -> below a b /\ Pool_ok workers b /\ Pool_idle b.
Proof.
  intros a b P I Hp E Hlim. destruct (parked_worker _ _ _ _ P Hp) as (st & Hs & F). cbn in F, Hs. subst st.
  pose proof P as [P1 P2 _ _ _ _ P7 _ _]. unfold sched_of in *. cbn in *. pose proof P1 as [[[W _] _ _ _ _ _ _ _] _ _ _ _ _].
  destruct (look_ok i acks _ _ _ _ _ _ _ _ _ _ _ W P2 E ltac:(done)) as (Hd & [(-> & -> & Hw)|(Hw & R & HN)]).
  - unfold below, b, Pool_idle, sched_of, workers_of. cbn. rewrite set_same. split_and!; [done|by eapply park_update|]. intros U.
    apply (idle_frame parks i (Listening heard) _ n n g pend pend (w_sched x)); try done; [by apply I|]. intros d [= _ <-]. tauto.
  - destruct (does_ok x q ws acks pend i Idle Idle s' pend' []) as (D1 & D2 & D3); try done. rewrite app_nil_r in *.
    pose proof (pool_update workers x q ws acks pend until n g parks i (Listening heard) Idle s' q Idle pend' until n g (Parked heard deadline)) as U.
    rewrite insert_id in D1, D2, U by done. split_and!; [by apply rtc_once| |].
    + apply U; try done. intros _ Hst. rewrite (rs_stopped _ _ _ _ R). split_and!; [done| |by unfold all_done; rewrite (rs_pm _ _ _ _ R)|done].
      eapply Leases_held; [by apply (reserved_leases _ _ i [])|by left|]. intros k Hk. done.
    + intros Hu. specialize (P7 Hu). apply (idle_frame parks i (Listening heard) _ n n g pend pend' (w_sched x)); try done; [by apply I| |by auto].
      intros d _. right. right. by apply HN.
Qed.

Lemma look_take_ok workers x q ws acks pend until n g parks i heard now probe diag shares first rest s' pend' :
  let a := mkPool (mkSession x q ws acks) pend until (S n) g parks in
  let b := mkPool (mkSession (set_sched s' x) q (<[i := Ready (job_of first rest)]> ws) acks) pend' until n g (<[i := Busy]> parks) in
  Pool_ok workers a -> Pool_idle a -> parks !! i = Some (Listening heard) ->
  look slot_capacity min mode batch dmin dmax i now probe diag shares until (S n) (w_sched x) pend = (Take (first :: rest), s', pend') ->
  next_lease_id s' < u64_max -> below a b /\ Pool_ok workers b /\ Pool_idle b.
Proof.
  intros a b P I Hp E Hlim. destruct (parked_worker _ _ _ _ P Hp) as (st & Hs & F). cbn in F, Hs. subst st.
  pose proof P as [P1 P2 _ _ _ _ P7 _ _]. unfold sched_of in *. cbn in *. pose proof P1 as [[[W _] _ _ _ _ _ _ _] _ _ _ _ _].
  destruct (look_ok i acks _ _ _ _ _ _ _ _ _ _ _ W P2 E ltac:(done)) as (Hd & Hne & R & Hw).
  destruct (does_ok x q ws acks pend i Idle (Ready (job_of first rest)) s' pend' []) as (D1 & D2 & D3); try done; [by apply Hw|].
  rewrite app_nil_r in *. split_and!; [by apply rtc_once| |].
  - eapply pool_update; try done; [cbn; lia|]. intros _ Hst. rewrite (rs_stopped _ _ _ _ R).
    split_and!; [done| |by unfold all_done; rewrite (rs_pm _ _ _ _ R)|done].
    eapply Leases_held; [by apply (reserved_leases _ _ i (first :: rest))|by unfold keys; cbn; intros k ?%not_elem_of_nil|done].
  - intros U. apply (idle_frame parks i (Listening heard) _ (S n) n g pend pend' (w_sched x)); try done.
    + apply I. exact (proj1 (unfailed_before _ _ _ _ U Hs eq_refl)).
    + intros _ HN. by destruct (reserved_something _ _ _ _ pend R W Hne).
Qed.

Lemma request_ok workers x q ws acks pend until n g parks i p st st' s' pend' sent :
  let a := mkPool (mkSession x q ws acks) pend until n g parks in
  let b := mkPool (mkSession (set_sched s' x) (q ++ sent) (<[i := st']> ws) acks) pend' until n g (<[i := after_step st st' p]> parks) in
  Pool_ok workers a -> Pool_idle a -> parks !! i = Some p -> p = Busy \/ p = Racing /\ is_attempt st && is_attempt st' = true ->
  ws !! i = Some st -> failed st' = false -> last_piece st st' -> worker_does i acks st (w_sched x) pend st' s' pend' sent ->
  (sent <> [] -> w_status x = Receiving) -> below a b /\ Pool_ok workers b /\ Pool_idle b.
Proof.
  intros a b P I Hp Hb Hs Hf Hl Hd Hsent. pose proof P as [P1 P2 _ _ _ _ P7 _ _]. unfold sched_of in *. cbn in *.
  pose proof (pk_fits _ _ P i st p Hs Hp) as F. pose proof P1 as [[[W Ht] _ _ _ _ _ _ _] S2 _ _ S5 _]. specialize (S5 i st Hs).
  destruct (work_ok obj mb (sc_total_size ctx) (chan_of x q acks) i cap min (w_sched x) st st' s' pend pend' sent p) as [W1 W2 W3 W4 W5]; try done.
  destruct (does_ok x q ws acks pend i st st' s' pend' sent) as (D1 & D2 & D3); try done.
  assert (working st = true) as Hw by (destruct Hb as [->|[-> [Ha _]%andb_true_iff]]; [by destruct F|by destruct st]).
  assert (failed st = false) as Hfs by by destruct st as [| | | | | | | |[]].
  split_and!; [by apply rtc_once| |].
  - eapply pool_update; try done; [lia|]. intros _ Hst. split_and!; [by rewrite W3|done| |].
    + intros Ha. pose proof (all_done_held _ st W Ha (wk_owned _ _ _ _ _ _ S5)). by destruct st.
    + intros r ->. exfalso. unfold Fits in W1. destruct st; try done; cbn in W1; destruct Hb as [->|[-> [? ?]%andb_true_iff]]; cbn in W1; try done; by destruct W1.
  - intros U. change (Idle_ok (<[i := after_step st st' p]> parks) n g pend' s').
    destruct W4 as [[next Et]|(Et & -> & HN)]; rewrite Et; [apply idle_telling|].
    apply (idle_frame parks i p _ n n g pend pend (w_sched x)); try done.
    + apply I. exact (proj1 (unfailed_before _ _ _ _ U Hs Hfs)).
    + by destruct Hb as [->|[-> _]].
    + by destruct Hb as [->|[-> _]].
Qed.

Lemma reacquire_ok workers x q ws acks pend until n g parks i job :
  let a := mkPool (mkSession x q ws acks) pend until (S n) g parks in
  let b := mkPool (mkSession x q (<[i := Ready job]> ws) acks) pend until n g (<[i := Busy]> parks) in
  Pool_ok workers a -> Pool_idle a -> parks !! i = Some Sleeping -> ws !! i = Some (Waiting job) ->
  below a b /\ Pool_ok workers b /\ Pool_idle b.
Proof.
  intros a b P I Hp Hs. pose proof P as [P1 P2 _ _ _ _ P7 _ _]. unfold sched_of in *. cbn in *.
  destruct (does_ok x q ws acks pend i (Waiting job) (Ready job) (w_sched x) pend []) as (D1 & D2 & D3); try done.
  { apply pw_plain; [apply w_wake|done]. }
  rewrite app_nil_r in *. split_and!; [rewrite set_same in D1; by apply rtc_once| |].
  - pose proof (pool_update workers x q ws acks pend until (S n) g parks i Sleeping (Waiting job) (w_sched x) q (Ready job) pend until n g Busy) as U.
    rewrite set_same in U, D2. apply U; try done; [cbn; lia|]. intros _ Hst. split_and!; [done|by apply same_leases|done|done].
  - intros U. apply (idle_frame parks i Sleeping _ (S n) n g pend pend (w_sched x)); try done.
    apply I. exact (proj1 (unfailed_before _ _ _ _ U Hs eq_refl)).
Qed.

Lemma leave_ok workers x q ws acks pend until n g parks i p st e s' pend' sent :
  let a := mkPool (mkSession x q ws acks) pend until n g parks in
  let b := mkPool (mkSession (set_sched s' x) (q ++ sent) (<[i := Exited (Err e)]> ws) acks) pend' until (n + permits_of p) (g && negb (drops_slot p)) (leave i p parks) in
  Pool_ok workers a -> parks !! i = Some p -> may_leave p = true -> ws !! i = Some st ->
  worker_does i acks st (w_sched x) pend (Exited (Err e)) s' pend' sent -> (sent <> [] -> w_status x = Receiving) ->
  below a b /\ Pool_ok workers b /\ Pool_idle b.
Proof.
  intros a b P Hp Hm Hs Hd Hsent. pose proof P as [P1 P2 _ _ _ _ P7 _ _]. unfold sched_of in *. cbn in *.
  destruct (does_ok x q ws acks pend i st (Exited (Err e)) s' pend' sent) as (D1 & D2 & D3); try done.
  pose proof (pk_fits _ _ P i st p Hs Hp) as F. split_and!; [by apply rtc_once| |].
  - assert (Pool_ok workers (mkPool (mkSession (set_sched s' x) (q ++ sent) (<[i := Exited (Err e)]> ws) acks) pend' until
      (n + permits_of p) g (<[i := Left]> parks))) as Q.
    { eapply pool_update; [exact P|done|done|done|done|by eexists|cbn; lia| |done]. destruct st as [| | | | | | | |[]]; try done. destruct p; try done; by destruct F. }
    unfold b, leave. destruct p; cbn [drops_slot negb]; rewrite ?andb_true_r, ?andb_false_r; try exact Q; by eapply notify_pool.
  - intros U. specialize (U i (Exited (Err e))). cbn in U. rewrite lookup_insert_eq in U. by specialize (U eq_refl).
Qed.

Lemma other_ok workers ms ms' pend until n g parks :
  let a := mkPool ms pend until n g parks in let b := mkPool ms' pend until n g parks in
  Pool_ok workers a -> Pool_idle a -> session_step ctx obj mb ms ms' -> ms_workers ms' = ms_workers ms ->
  (w_sched (ms_world ms') = w_sched (ms_world ms) \/
   exists snap h, freeze ctx (w_sched (ms_world ms)) = (snap, h, w_sched (ms_world ms'))) ->
  below a b /\ Pool_ok workers b /\ Pool_idle b.
Proof.
  intros a b [P1 P2 P3 P4 P5 P6 P7 P8 P9] I Hs Hw Hf. unfold sched_of, workers_of, Pool_idle in *. cbn in *.
  assert (pending_step ctx obj mb cap min (ms, pend) (ms', pend)) as Hp by by apply ps_other.
  destruct (pending_step_ok ctx obj mb Hchunk Htotal cap min cap_nonneg Hmin _ _ _ _ P1 P2 Hp) as [_ HP].
  destruct (session_step_ok ctx obj mb Hchunk Htotal _ _ P1 Hs) as [HS _].
  assert (stopped (w_sched (ms_world ms')) = stopped (w_sched (ms_world ms)) /\ piece_map (w_sched (ms_world ms')) = piece_map (w_sched (ms_world ms)) /\
    forall b0, status (w_sched (ms_world ms')) b0 = status (w_sched (ms_world ms)) b0) as (E1 & E2 & E3).
  { destruct Hf as [->|(snap & h & Hf)]; [done|]. unfold freeze in Hf. destruct (control_hints (w_sched (ms_world ms))) as [h0 s0] eqn:Eh.
    assert (s0 = snd (control_hints (w_sched (ms_world ms)))) as -> by (by rewrite Eh). by injection Hf as _ _ <-. }
  assert (all_done (w_sched (ms_world ms')) = all_done (w_sched (ms_world ms))) as E4 by (unfold all_done; by rewrite E2).
  split_and!; [by apply rtc_once|split; unfold sched_of, workers_of; cbn; rewrite ?Hw, ?E1, ?E4; try done|]; unfold sched_of, workers_of; cbn; rewrite ?Hw.
  - intros U b0 k E. rewrite E3 in E. by apply (P8 U b0).
  - intros U i d Hi. destruct (I U i d Hi) as [|[|[|[(N1 & N2 & N3)|]]]]; [tauto..| |tauto]. right. right. right. left. split_and!; [done| |by rewrite E4].
    intros b0. unfold total_of. rewrite E2, E3. apply N2.
Qed.

Lemma below_same ms pend until until' n n' g g' parks parks' : below (mkPool ms pend until n g parks) (mkPool ms pend until' n' g' parks').
Proof. apply rtc_refl. Qed.

Lemma pool_step_ok workers x y : Pool_ok workers x -> Pool_idle x -> step x y -> below x y /\ Pool_ok workers y /\ Pool_idle y.
Proof.
  intros P I Hs. destruct Hs.
  - split_and!; [apply below_same|by eapply park_update|]. intros U. eapply idle_frame; try done. by apply I.
  - by eapply finished_ok.
  - by eapply wait_ok.
  - by eapply look_take_ok.
  - split_and!; [apply below_same|by eapply park_update|]. intros U. eapply idle_frame; try done. by apply I.
  - split_and!; [apply below_same|by eapply park_update|]. intros U. eapply idle_frame; try done. by apply I.
  - by eapply request_ok.
  - split_and!; [apply below_same| |exact I]. destruct P. by split.
  - by eapply reacquire_ok.
  - split_and!; [apply below_same| |].
    + eapply park_update; try done; [|cbn; lia]. cbn. intros st' Hs _. by simplify_eq.
    + intros U. apply (idle_frame parks i Busy Trying (S n) n g pend pend (w_sched x) (w_sched x)); try done. by apply I.
  - split_and!; [apply below_same| |intros U; by apply idle_refused]. eapply park_update; try done; [|cbn; lia]. cbn. intros st Hs F. by destruct st.
  - split_and!; [apply below_same|by eapply park_update|]. intros U. eapply idle_frame; try done. by apply I.
  - split_and!; [apply below_same| |].
    + eapply park_update; try done. cbn. intros st Hs F. by destruct st.
    + intros U. eapply idle_frame; try done. by apply I.
  - split_and!; [apply below_same| |intros U; apply idle_telling]. eapply park_update; try done. cbn. lia.
  - split_and!; [apply below_same| |intros U; apply idle_notified]. by eapply (notify_pool _ _ _ _ _ g), park_update.
  - by eapply leave_ok.
  - by eapply other_ok.
Qed.

(** ** Runs *)

Lemma start_lookup {A} (a : A) workers i :
  (list_to_map ((fun i => (i, a)) <$> seq 0 workers) : gmap nat A) !! i = if base.decide (i < workers)%nat then Some a else None.
Proof.
  case_decide as D.
  - apply elem_of_list_to_map_1; [rewrite <- list_fmap_compose; cbn; rewrite list_fmap_id; apply NoDup_seq|].
    apply list_elem_of_fmap. exists i. split; [done|]. apply elem_of_seq. lia.
  - apply not_elem_of_list_to_map_1. rewrite <- list_fmap_compose. cbn. rewrite list_fmap_id, elem_of_seq. lia.
Qed.

Lemma pool_start_ok pm f io n wm fs workers :
  Start ctx obj pm f fs ->
  let x := pool_start slot_capacity (session_start (world_start pm f io n wm fs) workers) workers in Pool_ok workers x /\ Pool_idle x.
Proof.
  intros HS x. pose proof (session_start_ok ctx obj mb Hchunk Htotal pm f io n wm fs workers HS) as S.
  assert (forall {A} (a : A) i, is_Some ((list_to_map ((fun i => (i, a)) <$> seq 0 workers) : gmap nat A) !! i) <-> (i < workers)%nat) as Hd.
  { intros A a i. rewrite start_lookup. case_decide; split; [done|by eexists|by intros [? ?]|done]. }
  split; [split; unfold sched_of, workers_of; cbn; try done|].
  - intros i st p Hs%start_idle Hp. rewrite start_lookup in Hp. case_decide; by simplify_eq.
  - unfold total_permits. rewrite (proj2 (nsum_zero _ _)); [lia|]. intros i Hi. by rewrite start_lookup, decide_True.
  - intros _ b k E. unfold status in E. cbn in E. rewrite lookup_empty in E. by destruct (bit _ _).
  - by intros i r _ E%start_idle.
  - intros _ i d E. cbn in E. rewrite start_lookup in E. by case_decide.
Qed.

Definition running (pm : PieceMap) (f : FileState) (io : list IoOutcome) (n : Z) (wm : nat) (fs : Fs) (workers : nat) (x : Pool) : Prop :=
  rtc step (pool_start slot_capacity (session_start (world_start pm f io n wm fs) workers) workers) x.

Lemma running_ok pm f io n wm fs workers x :
  Start ctx obj pm f fs -> running pm f io n wm fs workers x ->
  Pool_ok workers x /\ Pool_idle x /\ recovering ctx obj mb cap min pm f io n wm fs workers (pool_session x) (pool_pending x).
Proof.
  intros HS R. unfold running in R.
  refine (rtc_ind_r (fun x => Pool_ok workers x /\ Pool_idle x /\ recovering ctx obj mb cap min pm f io n wm fs workers (pool_session x) (pool_pending x)) _ _ _ x R).
  - destruct (pool_start_ok pm f io n wm fs workers HS). split_and!; [done|done|apply rtc_refl].
  - intros y z _ Hs (P & I & B). destruct (pool_step_ok workers y z P I Hs) as (B' & P' & I'). split_and!; [done|done|]. unfold recovering in *. by etrans.
Qed.

(** Workers asleep hold nothing and wait for nothing but each other. *)
Lemma all_asleep_done workers x :
  Pool_ok workers x -> Pool_idle x -> unfailed (workers_of x) -> (0 < workers)%nat ->
  (forall i p, pool_parks x !! i = Some p -> p = Left \/ p = Parked false None) ->
  all_done (sched_of x) = true /\ forall i, (i < workers)%nat -> workers_of x !! i = Some (Exited (Ok tt)).
Proof.
  intros P I U Hw HA. pose proof P as [P1 _ P3 P4 P5 P6 _ P8 P9]. pose proof P1 as [[[W _] _ _ _ _ _ _ _] _ _ _ _ _]. fold (sched_of x) in W.
  assert (pool_permits x <> 0%nat) as Hn.
  { assert (total_permits (pool_parks x) workers = 0%nat) as E; [|lia]. apply nsum_zero. intros i _.
    destruct (pool_parks x !! i) as [p|] eqn:Ep; [|done]. by destruct (HA i p Ep) as [->| ->]. }
  assert (forall b k, status (sched_of x) b <> Leased k) as HL.
  { intros b k (i & st & Hs & Hk)%(P8 U). destruct (proj2 (P4 i) (proj1 (P3 i) (mk_is_Some _ _ Hs))) as [p Hp].
    pose proof (P5 i st p Hs Hp) as F. unfold keys in Hk. by destruct (HA i p Hp) as [-> | ->]; cbn in F; [destruct F as [r ->]|subst st]; apply not_elem_of_nil in Hk. }
  assert (forall i p, pool_parks x !! i = Some p -> p = Left) as HB.
  { intros i p Hp. destruct (HA i p Hp) as [|Ep]; [done|]. exfalso. rewrite Ep in Hp. destruct (I U i None Hp) as [(j & next & Hj)|[?|[?|[(_ & N2 & N3)|(_ & j & p2 & Hj & Hh)]]]]; try done.
    - by destruct (HA j _ Hj).
    - assert (all_done (sched_of x) = true); [|congruence]. apply all_done_status; [done|]. intros b Hb.
      destruct (status (sched_of x) b) as [|k|] eqn:E; [by apply N2 in E|by apply HL in E|done].
    - by destruct (HA j p2 Hj) as [-> | ->]. }
  assert (forall i, (i < workers)%nat -> workers_of x !! i = Some (Exited (Ok tt))) as HE.
  { intros i Hi. destruct (proj2 (P3 i) Hi) as [st Hs]. destruct (proj2 (P4 i) Hi) as [p Hp]. pose proof (P5 i st p Hs Hp) as F. rewrite (HB i p Hp) in F.
    destruct F as [[[]|] ->]; [done|by apply (U i) in Hs]. }
  split; [|done]. by apply (P9 0%nat (Ok tt) U), HE.
Qed.

(** C14: No worker is stranded.  Along every run of a session whose workers share permits,
    as long as no worker has failed: a worker that sleeps without a deadline and has not
    been notified is about to be, or no permit is free, or no work is pending, no byte
    is unassigned and the transfer is not complete; the one exception is that, since the
    last notification, a refused challenger's permit was dropped silently, and then some
    worker still holds a permit, whose release notifies.  And the workers never all sleep:
    if none of them can go on by itself, the transfer is complete and every worker has
    returned. *)
Theorem workers_never_stranded pm f io n wm fs workers x :
  Start ctx obj pm f fs -> running pm f io n wm fs workers x -> unfailed (workers_of x) -> (0 < workers)%nat ->
  recovering ctx obj mb cap min pm f io n wm fs workers (pool_session x) (pool_pending x) /\
  (pool_permits x + total_permits (pool_parks x) workers = slot_capacity)%nat /\
  (forall i, pool_parks x !! i = Some (Parked false None) ->
     (exists j next, pool_parks x !! j = Some (Telling next)) \/ pool_permits x = 0%nat \/ Nothing (sched_of x) (pool_pending x) \/
     (pool_refused x = true /\ holder (pool_parks x))) /\
  ((forall i p, pool_parks x !! i = Some p -> p = Left \/ p = Parked false None) ->
   all_done (sched_of x) = true /\ forall i, (i < workers)%nat -> workers_of x !! i = Some (Exited (Ok tt))).
Proof.
  intros HS R U Hw. destruct (running_ok _ _ _ _ _ _ _ _ HS R) as (P & I & B). split_and!; [done|apply P| |].
  - intros i Hi. destruct (I U i None Hi) as [|[|[|[|]]]]; tauto.
  - by apply all_asleep_done.
Qed.
End Runs.

(** ** A worker from its first look to its return *)

Module DemoPool.
Import DemoCodec Checkpoint.Demo DemoSession.

Definition pool_of (st : Worker) (q : list WriterCommand) (x : World) (acks : gset LeaseKey) (permits : nat) (p : Park) : Pool :=
  mkPool (at_ st q x acks) [] None permits false {[ 0%nat := p ]}.

Abbreviation demo_step := (pool_step context object mb 1 1 Fixed 0 0 0).

Lemma one_park st q x acks n n' p p' :
  (forall parks, parks !! 0%nat = Some p -> demo_step (mkPool (at_ st q x acks) [] None n false parks) (mkPool (at_ st q x acks) [] None n' false (<[0%nat := p']> parks))) ->
  demo_step (pool_of st q x acks n p) (pool_of st q x acks n' p').
Proof. intros Hs. unfold pool_of. rewrite <- (insert_singleton_eq 0%nat p' p). apply Hs. by rewrite lookup_singleton_eq. Qed.

Lemma one_tell st q x acks n p : p = hear p -> demo_step (pool_of st q x acks n (Telling p)) (pool_of st q x acks n p).
Proof.
  intros Hp. unfold pool_of. rewrite Hp at 2. rewrite <- (insert_singleton_eq 0%nat (hear p) (Telling p)).
  assert (<[0%nat := hear p]> {[ 0%nat := Telling p ]} = notify_waiters (<[0%nat := p]> {[ 0%nat := Telling p ]})) as ->.
  { unfold notify_waiters. rewrite fmap_insert, map_fmap_singleton. done. }
  apply pl_tell. by rewrite lookup_singleton_eq.
Qed.

Lemma one_work st st' s' sent q x acks :
  worker_step object mb 0 acks st (w_sched x) st' s' sent -> plain st st' -> failed st' = false -> last_piece st st' ->
  w_status x = Receiving -> demo_step (pool_of st q x acks 0 Busy) (pool_of st' (q ++ sent) (set_sched s' x) acks 0 (after_step st st' Busy)).
Proof.
  intros Hw Hp Hf Hl Ho. unfold pool_of, at_. rewrite <- (insert_singleton_eq 0%nat st' st), <- (insert_singleton_eq 0%nat (after_step st st' Busy) Busy).
  apply (pl_work context object mb 1 1 Fixed 0 0 0 x q _ acks [] None 0 false _ 0 Busy st st' s' [] sent);
    [by rewrite lookup_singleton_eq|by left|by rewrite lookup_singleton_eq|done|done|by apply pw_plain|done].
Qed.

Lemma one_consume st cmd q x acks n p :
  w_status x = Receiving -> is_ok (fst (handle cmd (w_writer x))) = true ->
  demo_step (pool_of st (cmd :: q) x acks n p) (pool_of st q (handled [cmd] x) (acknowledges cmd ∪ acks) n p).
Proof. intros H1 H2. apply pl_other; [by apply consume|done|by left]. Qed.

Definition returned : Pool := pool_of (Exited (Ok tt)) [] (set_sched t3 x3) (acks_of commands) 1 Left.

Lemma takes : demo_step (pool_of Idle [] x0 ∅ 1 (Listening false)) (pool_of (Ready job) [] x1 ∅ 0 Busy).
Proof.
  unfold pool_of, at_. rewrite <- (insert_singleton_eq 0%nat (Ready job) Idle), <- (insert_singleton_eq 0%nat Busy (Listening false)).
  apply (pl_take context object mb 1 1 Fixed 0 0 0 x0 [] _ ∅ [] None 0 false _ 0 false 0 true false false segment [] t1 []);
    [by rewrite lookup_singleton_eq|by vm_compute|by vm_compute].
Qed.

Lemma returns : demo_step (pool_of Idle [] x3 (acks_of commands) 1 (Listening false)) returned.
Proof.
  unfold returned, pool_of, at_. rewrite <- (insert_singleton_eq 0%nat (Exited (Ok tt)) Idle), <- (insert_singleton_eq 0%nat Left (Listening false)).
  apply (pl_finished context object mb 1 1 Fixed 0 0 0 x3 [] _ (acks_of commands) [] None 1 false _ 0 false 0 false false false t3 []);
    [by rewrite lookup_singleton_eq|by vm_compute].
Qed.

Lemma runs_to_end : running context object mb 1 1 Fixed 0 0 0 (PieceMap_new 3 3) demo_file [] 0 64 fs0 1 returned.
Proof.
  unfold running. eapply rtc_l; [apply (one_park Idle [] x0 ∅ 1 1 Looping (Listening false)); intros; by apply pl_listen|].
  eapply rtc_l; [exact takes|].
  eapply rtc_l; [by apply (one_work (Ready job) _ _ _ [] x1 ∅ (w_begin object mb 0 ∅ t1 job (Ok tt) next sends attempt))|].
  eapply rtc_l; [by apply (one_work _ _ _ _ _ x1 ∅ (w_send object mb 0 ∅ t1 job 0 _ _ _ _ _ (Ok tt) next))|].
  eapply rtc_l; [by apply (one_work _ _ _ _ _ x1 ∅ (w_send object mb 0 ∅ t1 job 2 _ _ _ _ _ (Ok tt) next))|].
  eapply rtc_l; [by apply (one_work _ _ _ _ _ x1 ∅ (w_finish object mb 0 ∅ t1 job _ next))|].
  do 4 (eapply rtc_l; [apply one_consume; vm_compute; reflexivity|]).
  eapply rtc_l.
  { apply (one_work _ Idle t3 [] [] x2); try done. apply (w_complete object mb 0 _ t1 job next); [by vm_compute|].
    apply injective_projections; [by vm_compute|reflexivity]. }
  eapply rtc_l; [by apply one_tell|].
  eapply rtc_l; [apply (one_park Idle [] x3 (acks_of commands) 0 1 (Releasing Looping) (Telling Looping)); intros; by apply pl_release|].
  eapply rtc_l; [by apply one_tell|].
  eapply rtc_l; [apply (one_park Idle [] x3 (acks_of commands) 1 1 Looping (Listening false)); intros; by apply pl_listen|].
  eapply rtc_l; [exact returns|]. apply rtc_refl.
Qed.
End DemoPool.

Import DemoCodec.

Lemma workers_never_stranded_witness :
  all_done (sched_of DemoPool.returned) = true /\ workers_of DemoPool.returned !! 0%nat = Some (Exited (Ok tt)).
Proof.
  destruct (workers_never_stranded Demo.context Demo.object DemoSession.mb ltac:(vm_compute; lia) ltac:(vm_compute; reflexivity)
    1 1 Fixed 0 0 0 ltac:(lia) ltac:(lia) ltac:(lia) ltac:(lia) (PieceMap_new 3 3) demo_file [] 0 64 Demo.fs0 1 DemoPool.returned
    Demo.start DemoPool.runs_to_end) as (_ & _ & _ & HA); [|lia|].
  - intros i st Hi. change (({[ 0%nat := Exited (Ok tt) ]} : gmap nat Worker) !! i = Some st) in Hi. by apply lookup_singleton_Some in Hi as [_ <-].
  - destruct HA as [H1 H2]; [|split; [exact H1|apply H2; lia]]. intros i p Hi.
    change (({[ 0%nat := Left ]} : gmap nat Park) !! i = Some p) in Hi. apply lookup_singleton_Some in Hi as [_ <-]. by left.
Defined.
