(* ===== verification/IpText.v ===== *)
(** * Addresses in text (the standard library's [IpAddr::from_str])

    The parser behind [parse::<IpAddr>()], which decides whether a host is a literal, and
    the proof that it reads back what [Display] prints.  A reader that fails leaves its
    input untouched ([read_atomically]), so a reader is a function to an option. *)

From S2P Require Import Prelude RustStr Errors Checksum Net IpPolicy Pools.

Definition Reader (A : Type) : Type := rstr -> option (A * rstr).

Definition read_given_char (c : Z) : Reader unit :=
  fun s => match s with d :: s => if d =? c then Some (tt, s) else None | [] => None end.

Definition read_separator {A} (sep : Z) (index : nat) (inner : Reader A) : Reader A :=
  fun s => if (0 <? index)%nat then '(_, s) ← read_given_char sep s; inner s else inner s.

(** [char::to_digit] for the two radices in use. *)
Definition to_digit (radix c : Z) : option Z := d ← hex_value c; if d <? radix then Some d else None.

(** The digits at the front: their value, how many, and what follows. *)
Fixpoint read_digits (radix : Z) (max_digits count : nat) (acc : Z) (s : rstr) : option (Z * nat * rstr) :=
  match s with
  | [] => Some (acc, count, [])
  | c :: rest =>
      match to_digit radix c with
      | None => Some (acc, count, s)
      | Some d => if (max_digits <? S count)%nat then None else read_digits radix max_digits (S count) (acc * radix + d) rest
      end
  end.

Definition read_number (radix : Z) (max_digits : nat) (allow_zero_prefix : bool) (limit : Z) : Reader Z :=
  fun s =>
    let has_leading_zero := bool_decide (head s = Some 48) in
    '(n, count, rest) ← read_digits radix max_digits 0 0 s;
    if (count =? 0)%nat then None
    else if negb allow_zero_prefix && has_leading_zero && (1 <? count)%nat then None
    else if n <=? limit then Some (n, rest) else None.

(** The loop of [read_ipv4_addr] over the groups that are left. *)
Fixpoint read_octets (slots index : nat) (acc : Z) : Reader Z :=
  fun s =>
    match slots with
    | O => Some (acc, s)
    | S slots =>
        '(n, rest) ← read_separator 46 index (read_number 10 3 false 255) s;
        read_octets slots (S index) (acc * 256 + n) rest
    end.

Definition read_ipv4_addr : Reader Z := read_octets 4 0 0.

(** [read_groups]: the groups, whether they end in an embedded IPv4 address, and what
    follows; [slots] of them are left. *)
Fixpoint read_groups (slots index : nat) (s : rstr) : list Z * bool * rstr :=
  match slots with
  | O => ([], false, s)
  | S more =>
      match (if (1 <? slots)%nat then read_separator 58 index read_ipv4_addr s else None) with
      | Some (v4, rest) => ([v4 / 65536; v4 mod 65536], true, rest)
      | None =>
          match read_separator 58 index (read_number 16 4 true 65535) s with
          | Some (group, rest) =>
              let '(groups, ipv4, rest) := read_groups more (S index) rest in (group :: groups, ipv4, rest)
          | None => ([], false, s)
          end
      end
  end.

Definition bits_of_groups (groups : list Z) : Z := fold_left (fun acc g => acc * 65536 + g) groups 0.

Definition read_ipv6_addr : Reader Z :=
  fun s =>
    let '(head, head_ipv4, s) := read_groups 8 0 s in
    if (length head =? 8)%nat then Some (bits_of_groups head, s)
    else if head_ipv4 then None
    else
      '(_, s) ← read_given_char 58 s;
      '(_, s) ← read_given_char 58 s;
      let '(tail, _, s) := read_groups (8 - (length head + 1)) 0 s in
      Some (bits_of_groups (head ++ replicate (8 - length head - length tail) 0 ++ tail), s).

(** [str::parse::<IpAddr>] *)
Definition parse_ip (s : rstr) : option IpAddr :=
  match read_ipv4_addr s with
  | Some (bits, rest) => if bool_decide (rest = []) then Some (V4 bits) else None
  | None =>
      '(bits, rest) ← read_ipv6_addr s;
      if bool_decide (rest = []) then Some (V6 bits) else None
  end.

(** [str::strip_suffix], and the host of a URL without the brackets of an IPv6 literal. *)
Definition strip_suffix (suffix s : rstr) : option rstr := reverse <$> strip_prefix (reverse suffix) (reverse s).

Definition unbracket (host : rstr) : rstr := default host (inner ← strip_prefix (str "[") host; strip_suffix (str "]") inner).

(** [Display] of an address. *)
Definition show_ip (a : IpAddr) : rstr := match a with V4 bits => show_v4 bits | V6 bits => show_v6 bits end.

(** The values a [u32] and a [u128] hold. *)
Definition ip_wf (a : IpAddr) : Prop := match a with V4 bits => 0 <= bits < 2 ^ 32 | V6 bits => 0 <= bits < 2 ^ 128 end.

(** ** Numbers *)

(** What ends a number: the end of the input, or a character that is no hex digit. *)
Definition stops (s : rstr) : Prop := match s with [] => True | c :: _ => hex_value c = None end.

Definition digits_value (radix : Z) (acc : Z) (s : rstr) : Z :=
  fold_left (fun acc c => acc * radix + default 0 (to_digit radix c)) s acc.

Definition all_digits (radix : Z) (s : rstr) : bool := forallb (fun c => bool_decide (is_Some (to_digit radix c))) s.

Lemma read_digits_app radix max count acc s rest :
  all_digits radix s = true -> stops rest -> (count + length s <= max)%nat ->
  read_digits radix max count acc (s ++ rest) = Some (digits_value radix acc s, (count + length s)%nat, rest).
Proof.
  revert count acc. induction s as [|c s IH]; intros count acc Hs Hr Hl; simpl in *.
  - rewrite Nat.add_0_r. destruct rest as [|c rest]; [done|]. simpl in *. unfold to_digit. by rewrite Hr.
  - apply andb_true_iff in Hs as [[d Hd]%bool_decide_eq_true Hs]. rewrite Hd. simpl.
    rewrite (proj2 (Nat.ltb_ge _ _)) by lia. rewrite IH by (done || lia). do 3 f_equal. lia.
Qed.

Lemma read_number_app radix max allow limit s rest n :
  all_digits radix s = true -> stops rest -> (length s <= max)%nat -> s <> [] -> digits_value radix 0 s = n ->
  n <= limit -> allow = true \/ head s <> Some 48 \/ length s = 1%nat ->
  read_number radix max allow limit (s ++ rest) = Some (n, rest).
Proof.
  intros Hs Hr Hl Hne <- Hn Ha. unfold read_number. rewrite read_digits_app by (done || lia). simpl.
  destruct s as [|c s]; [done|]. simpl in *.
  rewrite (proj2 (Z.leb_le _ _)) by done.
  destruct Ha as [->|[Ha|Ha]]; [done| |].
  - rewrite bool_decide_eq_false_2 by congruence. by rewrite andb_false_r.
  - rewrite Ha. by rewrite andb_false_r.
Qed.

(** The printed form of every octet and of every 16-bit group. *)
Lemma octet_text n : 0 <= n < 256 ->
  all_digits 10 (show_u64 n) = true /\ (1 <= length (show_u64 n) <= 3)%nat /\ digits_value 10 0 (show_u64 n) = n /\
  (head (show_u64 n) <> Some 48 \/ length (show_u64 n) = 1%nat).
Proof.
  intros Hn.
  assert (forallb (fun k => let s := show_u64 (Z.of_nat k) in
    all_digits 10 s && (1 <=? length s)%nat && (length s <=? 3)%nat && (digits_value 10 0 s =? Z.of_nat k) &&
    (negb (bool_decide (head s = Some 48)) || (length s =? 1)%nat)) (seq 0 256) = true) as H by (by vm_compute).
  rewrite forallb_forall in H. specialize (H (Z.to_nat n)).
  rewrite Z2Nat.id in H by lia. specialize (H ltac:(apply in_seq; lia)).
  cbv zeta in H. rewrite !andb_true_iff, orb_true_iff, negb_true_iff, bool_decide_eq_false, !Nat.leb_le, Z.eqb_eq, Nat.eqb_eq in H.
  tauto.
Qed.

Definition hex_digits : list Z := [0; 1; 2; 3; 4; 5; 6; 7; 8; 9; 10; 11; 12; 13; 14; 15].

Definition group_check (n : Z) : bool :=
  let s := show_hex n in
  all_digits 16 s && (1 <=? length s)%nat && (length s <=? 4)%nat && (digits_value 16 0 s =? n).

Lemma hex_digits_in d : 0 <= d < 16 -> In d hex_digits.
Proof. intros Hd. unfold hex_digits. simpl. lia. Qed.

Lemma group_checked n : 0 <= n < 65536 -> group_check n = true.
Proof.
  intros Hn.
  assert (forallb (fun a => forallb (fun b => forallb (fun c => forallb (fun d =>
    group_check (((a * 16 + b) * 16 + c) * 16 + d)) hex_digits) hex_digits) hex_digits) hex_digits = true) as H
    by (vm_compute; reflexivity).
  rewrite forallb_forall in H. specialize (H (n / 16 / 16 / 16)). rewrite forallb_forall in H.
  pose proof (Z.div_mod n 16). pose proof (Z.div_mod (n / 16) 16). pose proof (Z.div_mod (n / 16 / 16) 16).
  pose proof (Z.mod_pos_bound n 16). pose proof (Z.mod_pos_bound (n / 16) 16). pose proof (Z.mod_pos_bound (n / 16 / 16) 16).
  assert (0 <= n / 16 / 16 / 16 < 16)
    by (rewrite !Z.div_div by lia; split; [apply Z.div_pos; lia|apply Z.div_lt_upper_bound; lia]).
  specialize (H ltac:(apply hex_digits_in; lia) ((n / 16 / 16) mod 16) ltac:(apply hex_digits_in; lia)).
  rewrite forallb_forall in H. specialize (H ((n / 16) mod 16) ltac:(apply hex_digits_in; lia)).
  rewrite forallb_forall in H. specialize (H (n mod 16) ltac:(apply hex_digits_in; lia)).
  replace (((n / 16 / 16 / 16 * 16 + (n / 16 / 16) mod 16) * 16 + (n / 16) mod 16) * 16 + n mod 16) with n in H by lia.
  done.
Qed.

Lemma group_text n : 0 <= n < 65536 ->
  all_digits 16 (show_hex n) = true /\ (1 <= length (show_hex n) <= 4)%nat /\ digits_value 16 0 (show_hex n) = n.
Proof.
  intros H%group_checked. unfold group_check in H. cbv zeta in H. rewrite !andb_true_iff, !Nat.leb_le, Z.eqb_eq in H. tauto.
Qed.

Lemma read_octet n rest : 0 <= n < 256 -> stops rest -> read_number 10 3 false 255 (show_u64 n ++ rest) = Some (n, rest).
Proof.
  intros Hn Hr. destruct (octet_text n Hn) as (Hd & Hl & Hv & Hz). apply read_number_app; try done; try lia; [|by right].
  by intros E; rewrite E in Hl; simpl in Hl; lia.
Qed.

Lemma read_group n rest : 0 <= n < 65536 -> stops rest -> read_number 16 4 true 65535 (show_hex n ++ rest) = Some (n, rest).
Proof.
  intros Hn Hr. destruct (group_text n Hn) as (Hd & Hl & Hv). apply read_number_app; try done; try lia.
  by intros E; rewrite E in Hl; simpl in Hl; lia.
Qed.

(** ** Addresses *)

Lemma octet_range bits k : 0 <= Z.land (Z.shiftr bits k) 255 < 256.
Proof. change 255 with (Z.ones 8). rewrite Z.land_ones by lia. apply Z.mod_pos_bound. lia. Qed.

(** The fields of a printed number put back together. *)
Lemma v4_octets bits : 0 <= bits < 2 ^ 32 ->
  (((0 * 256 + Z.land (Z.shiftr bits 24) 255) * 256 + Z.land (Z.shiftr bits 16) 255) * 256 + Z.land (Z.shiftr bits 8) 255) * 256 +
  Z.land (Z.shiftr bits 0) 255 = bits.
Proof.
  intros Hb. change 255 with (Z.ones 8). rewrite !Z.land_ones, !Z.shiftr_div_pow2 by lia. rewrite Z.pow_0_r, Z.div_1_r.
  change (2 ^ 24) with (256 * 256 * 256). change (2 ^ 16) with (256 * 256). change (2 ^ 8) with 256.
  rewrite <- !Z.div_div by lia. pose proof (Z.div_mod bits 256). pose proof (Z.div_mod (bits / 256) 256).
  pose proof (Z.div_mod (bits / 256 / 256) 256). rewrite (Z.mod_small (bits / 256 / 256 / 256)); [lia|].
  rewrite !Z.div_div by lia. split; [apply Z.div_pos; lia|apply Z.div_lt_upper_bound; lia].
Qed.

Lemma read_show_v4 bits rest : 0 <= bits < 2 ^ 32 -> stops rest -> read_ipv4_addr (show_v4 bits ++ rest) = Some (bits, rest).
Proof.
  intros Hb Hr. unfold show_v4, read_ipv4_addr. rewrite <- !app_assoc. cbn [read_octets].
  unfold read_separator. cbn [Nat.ltb Nat.leb].
  do 3 (rewrite read_octet by (apply octet_range || done); cbn [mbind option_bind app read_given_char]; rewrite Z.eqb_refl;
        cbn [mbind option_bind]).
  rewrite read_octet by (apply octet_range || done). cbn [mbind option_bind]. by rewrite v4_octets.
Qed.

Lemma read_digits_inv radix max count acc s n k rest :
  read_digits radix max count acc s = Some (n, k, rest) -> exists a, s = a ++ rest /\ all_digits radix a = true.
Proof.
  revert count acc. induction s as [|c s IH]; intros count acc E; simpl in E.
  - injection E as _ _ <-. by exists [].
  - destruct (to_digit radix c) as [d|] eqn:Ed; [|injection E as _ _ <-; by exists []].
    destruct (_ <? _)%nat; [done|]. apply IH in E as (a & -> & Ha). exists (c :: a). split; [done|]. simpl.
    rewrite Ha, andb_true_r. apply bool_decide_eq_true. by exists d.
Qed.

(** An IPv4 address needs a dot after its first digits, so none is read where groups are. *)
Lemma read_ipv4_dot s bits rest :
  read_ipv4_addr s = Some (bits, rest) -> exists a t, s = a ++ 46 :: t /\ all_digits 10 a = true.
Proof.
  unfold read_ipv4_addr. cbn [read_octets]. unfold read_separator. cbn [Nat.ltb Nat.leb].
  intros ([n s1] & E1 & E)%bind_Some. apply bind_Some in E as ([n2 s2] & ([[] t] & E2 & _)%bind_Some & _).
  unfold read_number in E1. apply bind_Some in E1 as ([[m k] s1'] & E1 & E3).
  destruct (_ =? _)%nat; [done|]. destruct (_ && _); [done|]. destruct (_ <=? _); [|done]. injection E3 as _ ->.
  apply read_digits_inv in E1 as (a & -> & Ha). exists a. destruct s1 as [|c s1]; [done|]. simpl in E2.
  destruct (Z.eqb_spec c 46) as [->|]; [|done]. injection E2 as ->. by exists t.
Qed.

Lemma digit_hex c : is_Some (to_digit 10 c) -> is_Some (to_digit 16 c).
Proof.
  unfold to_digit. intros [d E]. destruct (hex_value c) as [x|]; [|done]. simpl in *.
  destruct (Z.ltb_spec x 10); [|done]. rewrite (proj2 (Z.ltb_lt _ _)) by lia. by exists x.
Qed.

Definition colon_or_end (s : rstr) : Prop := match s with [] => True | c :: _ => c = 58 end.

Lemma read_ipv4_groups s rest : all_digits 16 s = true -> colon_or_end rest -> read_ipv4_addr (s ++ rest) = None.
Proof.
  intros Hs Hr. destruct (read_ipv4_addr (s ++ rest)) as [[bits r]|] eqn:E; [exfalso|done].
  apply read_ipv4_dot in E as (a & t & E & Ha). revert s Hs E. induction a as [|c a IH]; intros s Hs E.
  - destruct s as [|d s]; [|by injection E as ->]. simpl in E. rewrite E in Hr. done.
  - simpl in Ha. apply andb_true_iff in Ha as [Hc Ha]. apply bool_decide_eq_true in Hc.
    destruct s as [|d s]; simpl in E.
    + rewrite E in Hr. simpl in Hr. subst c. by destruct Hc.
    + injection E as -> E. simpl in Hs. apply andb_true_iff in Hs as [_ Hs]. by eapply IH.
Qed.

Definition colon_groups (l : list Z) : rstr := mjoin ((fun g => 58 :: show_hex g) <$> l).

Lemma join_groups g l : join_with (str ":") (show_hex <$> g :: l) = show_hex g ++ colon_groups l.
Proof.
  revert g. induction l as [|h l IH]; intros g; [by rewrite app_nil_r|].
  change (join_with (str ":") (show_hex <$> g :: h :: l)) with (show_hex g ++ str ":" ++ join_with (str ":") (show_hex <$> h :: l)).
  rewrite IH. done.
Qed.

Lemma colon_stops rest : colon_or_end rest -> stops rest.
Proof. by destruct rest as [|c rest]; [|intros ->]. Qed.

Lemma colon_groups_end l rest : colon_or_end rest -> colon_or_end (colon_groups l ++ rest).
Proof. by destruct l. Qed.

(** Where the groups end: the input does, or an empty group follows. *)
Definition groups_end (s : rstr) : Prop := s = [] \/ exists t, s = 58 :: 58 :: t.

Lemma groups_end_colon s : groups_end s -> colon_or_end s.
Proof. by intros [->|[t ->]]. Qed.

Lemma read_groups_end slots index rest : (0 < index)%nat -> groups_end rest -> read_groups slots index rest = ([], false, rest).
Proof.
  intros Hi Hr. destruct slots as [|slots]; [done|]. cbn [read_groups]. unfold read_separator.
  rewrite (proj2 (Nat.ltb_lt 0 index)) by done. generalize (1 <? S slots)%nat as b; intros b.
  destruct Hr as [->|[t ->]]; [by destruct b|]. cbn [read_given_char]. rewrite Z.eqb_refl. cbn [mbind option_bind].
  change (read_ipv4_addr (58 :: t)) with (@None (Z * rstr)). by destruct b.
Qed.

Lemma read_colon_groups l slots index rest :
  Forall (fun g => 0 <= g < 65536) l -> (length l <= slots)%nat -> (0 < index)%nat -> groups_end rest ->
  read_groups slots index (colon_groups l ++ rest) = (l, false, rest).
Proof.
  revert slots index. induction l as [|g l IH]; intros slots index Hl Hn Hi Hr; [by apply read_groups_end|].
  apply Forall_cons in Hl as [Hg Hl]. simpl in Hn. destruct slots as [|slots]; [lia|]. cbn [read_groups].
  assert (colon_groups (g :: l) ++ rest = 58 :: show_hex g ++ colon_groups l ++ rest) as ->
    by (unfold colon_groups; simpl; by rewrite <- app_assoc).
  unfold read_separator. rewrite (proj2 (Nat.ltb_lt 0 index)) by done. cbn [read_given_char]. rewrite Z.eqb_refl. cbn [mbind option_bind].
  pose proof (colon_groups_end l rest (groups_end_colon _ Hr)) as Hc. destruct (group_text g Hg) as (Hd & _ & _).
  rewrite (read_ipv4_groups _ _ Hd Hc). rewrite read_group by (done || by apply colon_stops).
  rewrite IH by (done || lia). by destruct (1 <? _)%nat.
Qed.

(** A sequence of groups is read back, whatever ends it. *)
Lemma read_joined_groups l slots rest :
  Forall (fun g => 0 <= g < 65536) l -> (length l <= slots)%nat -> groups_end rest ->
  read_groups slots 0 (join_with (str ":") (show_hex <$> l) ++ rest) = (l, false, rest).
Proof.
  intros Hl Hn Hr. destruct l as [|g l].
  - cbn [fmap list_fmap join_with app]. destruct slots as [|slots]; [done|]. cbn [read_groups]. unfold read_separator.
    change (0 <? 0)%nat with false. generalize (1 <? S slots)%nat as b; intros b.
    destruct Hr as [->|[t ->]]; [by destruct b|].
    change (read_ipv4_addr (58 :: 58 :: t)) with (@None (Z * rstr)). by destruct b.
  - apply Forall_cons in Hl as [Hg Hl]. simpl in Hn. destruct slots as [|slots]; [lia|]. rewrite join_groups, <- app_assoc.
    cbn [read_groups]. unfold read_separator. change (0 <? 0)%nat with false. generalize (1 <? S slots)%nat as b; intros b.
    pose proof (colon_groups_end l rest (groups_end_colon _ Hr)) as Hc. destruct (group_text g Hg) as (Hd & _ & _).
    rewrite (read_ipv4_groups _ _ Hd Hc), read_group by (done || by apply colon_stops).
    rewrite read_colon_groups by (done || lia). by destruct b.
Qed.

Lemma joined_not_v4 l rest : Forall (fun g => 0 <= g < 65536) l -> groups_end rest ->
  read_ipv4_addr (join_with (str ":") (show_hex <$> l) ++ rest) = None.
Proof.
  intros Hl Hr. destruct l as [|g l]; [by apply (read_ipv4_groups []), groups_end_colon|].
  apply Forall_cons in Hl as [Hg _]. rewrite join_groups, <- app_assoc. apply read_ipv4_groups; [by apply group_text|].
  by apply colon_groups_end, groups_end_colon.
Qed.

(** *** Runs of zeroes *)

Definition zero_run (segs : list Z) (r : nat * nat) : Prop :=
  forall k, (r.1 <= k < r.1 + r.2)%nat -> segs !! k = Some 0.

Lemma longest_zeroes_run pre l current longest :
  zero_run (pre ++ l) current -> (current.2 = 0%nat \/ (current.1 + current.2 = length pre)%nat) ->
  zero_run (pre ++ l) longest ->
  zero_run (pre ++ l) (longest_zeroes (length pre) l current longest).
Proof.
  revert pre current longest. induction l as [|s l IH]; intros pre [cs cl] longest Hc He Hlo; [done|]. cbn [longest_zeroes].
  simpl in He. rewrite (cons_middle s pre l), app_assoc in *.
  replace (S (length pre)) with (length (pre ++ [s])) by (rewrite length_app; simpl; lia).
  set (current' := if s =? 0 then _ else _).
  assert (zero_run ((pre ++ [s]) ++ l) current' /\
          (current'.2 = 0%nat \/ (current'.1 + current'.2 = length (pre ++ [s]))%nat)) as [Hc' He'].
  { subst current'. rewrite length_app. destruct (Z.eqb_spec s 0) as [->|]; [|split; [intros k Hk; simpl in Hk; lia|by left]]. simpl.
    assert (((pre ++ [0]) ++ l) !! length pre = Some 0) as Hs.
    { rewrite <- app_assoc. simpl. by rewrite lookup_app_r, Nat.sub_diag by lia. }
    split; [|right; destruct (Nat.eqb_spec cl 0); lia]. intros k Hk. simpl in Hk.
    destruct (decide (k = length pre)) as [->|]; [done|]. apply Hc. simpl. destruct (Nat.eqb_spec cl 0); lia. }
  apply IH; [done|done|]. by destruct (_ <? _)%nat.
Qed.

Lemma longest_zeroes_zero segs start len :
  longest_zeroes 0 segs (0%nat, 0%nat) (0%nat, 0%nat) = (start, len) -> (0 < len)%nat ->
  (start + len <= length segs)%nat /\ segs = take start segs ++ replicate len 0 ++ drop (start + len) segs.
Proof.
  intros E Hl. assert (zero_run segs (start, len)) as Hz.
  { rewrite <- E. apply (longest_zeroes_run [] segs); [intros k Hk; simpl in Hk; lia|by left|intros k Hk; simpl in Hk; lia]. }
  assert (start + len <= length segs)%nat as Hle.
  { specialize (Hz (start + len - 1)%nat ltac:(simpl; lia)). apply lookup_lt_Some in Hz. lia. }
  split; [done|]. rewrite <- (take_drop start segs) at 1. f_equal. rewrite <- (take_drop len (drop start segs)), drop_drop.
  f_equal. symmetry. apply replicate_as_Forall. split; [rewrite length_take, length_drop; lia|].
  apply Forall_lookup. intros i x Hx. pose proof (lookup_lt_Some _ _ _ Hx) as Hi. rewrite length_take in Hi.
  rewrite lookup_take_lt, lookup_drop, (Hz (start + i)%nat) in Hx by (simpl; lia). by injection Hx.
Qed.

(** *** The groups of an address *)

Lemma v6_segments_range bits : Forall (fun g => 0 <= g < 65536) (v6_segments bits).
Proof.
  unfold v6_segments. apply Forall_fmap, Forall_forall. intros i _. cbn. change 65535 with (Z.ones 16). rewrite Z.land_ones by lia.
  apply Z.mod_pos_bound. lia.
Qed.

Lemma v6_bits bits : 0 <= bits < 2 ^ 128 -> bits_of_groups (v6_segments bits) = bits.
Proof.
  intros Hb. unfold bits_of_groups, v6_segments. cbn [fmap list_fmap fold_left]. change 65535 with (Z.ones 16).
  assert (forall k k', 0 <= k -> k' = k + 16 ->
    Z.shiftr bits k = Z.land (Z.shiftr bits k) (Z.ones 16) + 65536 * Z.shiftr bits k') as H.
  { intros k k' Hk ->. rewrite Z.land_ones, !Z.shiftr_div_pow2, Z.pow_add_r, <- Z.div_div by lia.
    pose proof (Z.div_mod (bits / 2 ^ k) (2 ^ 16)). lia. }
  pose proof (H 0 16 ltac:(lia) eq_refl) as H0. pose proof (H 16 32 ltac:(lia) eq_refl). pose proof (H 32 48 ltac:(lia) eq_refl).
  pose proof (H 48 64 ltac:(lia) eq_refl). pose proof (H 64 80 ltac:(lia) eq_refl). pose proof (H 80 96 ltac:(lia) eq_refl).
  pose proof (H 96 112 ltac:(lia) eq_refl). pose proof (H 112 128 ltac:(lia) eq_refl) as H7.
  assert (Z.shiftr bits 128 = 0) as Hz by (rewrite Z.shiftr_div_pow2 by lia; apply Z.div_small; lia).
  rewrite Hz in H7. rewrite Z.shiftr_0_r in H0.
  change (112 - 16 * 0) with 112. change (112 - 16 * 1) with 96. change (112 - 16 * 2) with 80. change (112 - 16 * 3) with 64.
  change (112 - 16 * 4) with 48. change (112 - 16 * 5) with 32. change (112 - 16 * 6) with 16. change (112 - 16 * 7) with 0.
  rewrite Z.shiftr_0_r. lia.
Qed.

Lemma mapped_bits bits : 0 <= bits < 2 ^ 128 -> Z.shiftr bits 32 = 65535 ->
  0 <= Z.land bits (2 ^ 32 - 1) < 2 ^ 32 /\ bits = 65535 * 2 ^ 32 + Z.land bits (2 ^ 32 - 1).
Proof.
  intros Hb Hm. change (2 ^ 32 - 1) with (Z.ones 32). rewrite Z.land_ones by lia. rewrite Z.shiftr_div_pow2 in Hm by lia.
  pose proof (Z.div_mod bits (2 ^ 32)). pose proof (Z.mod_pos_bound bits (2 ^ 32)). lia.
Qed.

Lemma read_mapped bits : 0 <= bits < 2 ^ 32 ->
  read_ipv6_addr (str "::ffff:" ++ show_v4 bits) = Some (65535 * 2 ^ 32 + bits, []).
Proof.
  intros Hb. unfold read_ipv6_addr.
  change (read_groups 8 0 (str "::ffff:" ++ show_v4 bits)) with (@nil Z, false, str "::ffff:" ++ show_v4 bits).
  cbn [length Nat.eqb].
  change (read_given_char 58 (str "::ffff:" ++ show_v4 bits)) with (Some (tt, str ":ffff:" ++ show_v4 bits)). cbn [mbind option_bind].
  change (read_given_char 58 (str ":ffff:" ++ show_v4 bits)) with (Some (tt, str "ffff:" ++ show_v4 bits)). cbn [mbind option_bind].
  assert (read_groups 7 0 (str "ffff:" ++ show_v4 bits) = ([65535; bits / 65536; bits mod 65536], true, [])) as E.
  { change 7%nat with (S 6). cbn [read_groups]. change (1 <? 7)%nat with true. unfold read_separator.
    change (0 <? 0)%nat with false. cbv iota.
    change (str "ffff:" ++ show_v4 bits) with (show_hex 65535 ++ 58 :: show_v4 bits).
    rewrite read_ipv4_groups, read_group by (done || lia). change (1 <? 6)%nat with true. change (0 <? 1)%nat with true. cbv iota.
    cbn [read_given_char]. rewrite Z.eqb_refl. cbn [mbind option_bind].
    rewrite <- (app_nil_r (show_v4 bits)), read_show_v4 by done. done. }
  change (8 - (0 + 1))%nat with 7%nat. rewrite E. cbn [app length]. f_equal. f_equal. unfold bits_of_groups. simpl.
  pose proof (Z.div_mod bits 65536). lia.
Qed.

Lemma read_show_v6 bits : 0 <= bits < 2 ^ 128 ->
  read_ipv4_addr (show_v6 bits) = None /\ read_ipv6_addr (show_v6 bits) = Some (bits, []).
Proof.
  intros Hb. unfold show_v6. destruct (Z.eqb_spec (Z.shiftr bits 32) 65535) as [Hm|_].
  { destruct (mapped_bits bits Hb Hm) as [Hl Hv]. split; [done|]. rewrite read_mapped by done. by rewrite <- Hv. }
  pose proof (v6_segments_range bits) as Hr. pose proof (v6_bits bits Hb) as Hv.
  assert (length (v6_segments bits) = 8%nat) as Hlen by done.
  destruct (longest_zeroes 0 (v6_segments bits) _ _) as [start len] eqn:E. generalize dependent (v6_segments bits). intros segs Hr Hv Hlen E.
  destruct (Nat.ltb_spec 1 len) as [Hl|_].
  - destruct (longest_zeroes_zero _ _ _ E ltac:(lia)) as [Hle Hs].
    assert (groups_end (str "::" ++ join_with (str ":") (show_hex <$> drop (start + len) segs))) as Hge by (right; by eexists).
    split; [by apply joined_not_v4; [apply Forall_take|]|]. unfold read_ipv6_addr.
    rewrite read_joined_groups; [|by apply Forall_take|rewrite length_take; lia|done].
    rewrite length_take, Nat.min_l by lia. rewrite (proj2 (Nat.eqb_neq start 8)) by lia. cbn [str app mbind option_bind].
    change (read_given_char 58 (str "::" ++ ?t)) with (Some (tt, str ":" ++ t)).
    cbn [mbind option_bind]. change (read_given_char 58 (str ":" ++ ?t)) with (Some (tt, t)). cbn [mbind option_bind].
    rewrite <- (app_nil_r (join_with _ _)), read_joined_groups; [|by apply Forall_drop|rewrite length_drop; lia|by left].
    rewrite length_drop. replace (8 - start - (length segs - (start + len)))%nat with len by lia. by rewrite <- Hs, Hv.
  - rewrite <- (app_nil_r (join_with _ _)). split; [by apply joined_not_v4; [|left]|]. unfold read_ipv6_addr.
    rewrite read_joined_groups; [|done|lia|by left]. rewrite Hlen. cbn [Nat.eqb]. by rewrite Hv.
Qed.

(** An address is read back from its text: what [Display] prints is a literal, and of the
    same address. *)
Theorem ip_text_roundtrip a : ip_wf a -> parse_ip (show_ip a) = Some a.
Proof.
  unfold parse_ip. destruct a as [bits|bits]; cbn [ip_wf show_ip]; intros Hb.
  - rewrite <- (app_nil_r (show_v4 bits)), read_show_v4 by done. done.
  - destruct (read_show_v6 bits Hb) as [-> ->]. done.
Qed.

Lemma ip_text_roundtrip_witness :
  show_ip (V6 (8193 * 2 ^ 112 + 3512 * 2 ^ 96 + 1)) = str "2001:db8::1" /\
  parse_ip (str "2001:db8::1") = Some (V6 (8193 * 2 ^ 112 + 3512 * 2 ^ 96 + 1)).
Proof.
  split; [vm_compute; reflexivity|]. change (str "2001:db8::1") with (show_ip (V6 (8193 * 2 ^ 112 + 3512 * 2 ^ 96 + 1))).
  apply ip_text_roundtrip. split; [done|]. by vm_compute.
Defined.
