(* ===== verification/Http.v ===== *)
(** * Requests and redirects ([src/http/request.rs], [src/http/worker.rs])

    How a worker builds its requests, follows redirects, remembers where they ended and
    falls back to the original URL when that place has gone.  The crates [url] and [http]
    are the classes [UrlCrate] and [HttpCrate]; the client's answer to each request is an
    argument.  A panic is the result [None]. *)

From S2P Require Import Prelude RustStr Errors Response Config Net IpPolicy.

(** ** The crates *)

Inductive UrlError :=
| RelativeUrlWithoutBase
| UrlInvalid (message : rstr).

(** [Display] of [url::ParseError] *)
Definition show_url_error (e : UrlError) : rstr :=
  match e with
  | RelativeUrlWithoutBase => str "relative URL without a base"
  | UrlInvalid message => message
  end.

Class UrlCrate := {
  Url : Type;
  url_parse : rstr -> result Url UrlError;
  url_join : Url -> rstr -> result Url UrlError;
  url_display : Url -> rstr;
  url_scheme : Url -> rstr;
  url_username : Url -> rstr;
  url_password : Url -> option rstr;
  url_host_str : Url -> option rstr;
  url_port_or_known_default : Url -> option Z;
  url_path : Url -> rstr;
  url_query : Url -> option rstr;
  url_fragment : Url -> option rstr;
}.

(** [header_name]: a name is kept in lower case.  [value_text]: [HeaderValue::to_str], the
    value itself when its characters are visible.  [header_iter]: the order in which a map
    yields its headers, which keeps the values of one name in the order of insertion. *)
Class HttpCrate := {
  Uri : Type;
  uri_parse : rstr -> result Uri rstr;
  uri_display : Uri -> rstr;
  uri_scheme : Uri -> option rstr;
  header_name : rstr -> option rstr;
  header_value_ok : rstr -> bool;
  value_text : rstr -> option rstr;
  canonical_reason : Z -> option rstr;
  header_iter : list (rstr * rstr) -> list (rstr * rstr);
  header_name_lower : forall n m, header_name n = Some m -> m = to_ascii_lowercase <$> n;
  header_name_range : is_Some (header_name (str "Range"));
  header_name_encoding : is_Some (header_name (str "Accept-Encoding"));
  header_iter_values : forall name l, List.filter (fun h => bool_decide (h.1 = name)) (header_iter l) =
    List.filter (fun h => bool_decide (h.1 = name)) l;
  value_text_visible : forall v, Forall (fun c => 32 <= c < 127) v -> header_value_ok v = true /\ value_text v = Some v;
}.

(** ** Requests *)

(** [http::Request] with its headers in the order they were appended, and the extensions
    the worker attaches. *)
Record HttpRequest `{HttpCrate} := mkHttpRequest {
  rq_uri : Uri;
  rq_headers : list (rstr * rstr);
  rq_body_budget : option Z;
  rq_connect_timeout : option Z;
  rq_trace_id : option Z;
}.

#[global] Arguments mkHttpRequest {_} _ _ _ _ _.
#[global] Arguments rq_uri {_} _.
#[global] Arguments rq_headers {_} _.
#[global] Arguments rq_body_budget {_} _.
#[global] Arguments rq_connect_timeout {_} _.
#[global] Arguments rq_trace_id {_} _.

(** [http::Response]; [rsp_transfer] names the transfer whose body it streams. *)
Record HttpResponse := mkHttpResponse {
  rsp_status : Z;
  rsp_headers : list (rstr * rstr);
  rsp_pinned_ip : option IpAddr;
  rsp_transfer : Z;
}.

Definition is_success (status : Z) : bool := (200 <=? status) && (status <? 300).

Definition is_redirection (status : Z) : bool := (300 <=? status) && (status <? 400).

(** [Result::ok] *)
Definition ok_of {A E} (r : result A E) : option A := match r with Ok a => Some a | Err _ => None end.

Section Requests.
  Context `{UrlCrate} `{HttpCrate}.

(** [Builder::header] *)
Definition append_header (headers : option (list (rstr * rstr))) (header : rstr * rstr) : option (list (rstr * rstr)) :=
  hs ← headers;
  name ← header_name header.1;
  if header_value_ok header.2 then Some (hs ++ [(name, header.2)]) else None.

Definition append_headers (headers : list (rstr * rstr)) (start : option (list (rstr * rstr))) : option (list (rstr * rstr)) :=
  fold_left append_header headers start.

Definition build_get_request (url : rstr) (headers : gmap rstr rstr) : option HttpRequest :=
  uri ← ok_of (uri_parse url);
  hs ← append_headers (map_to_list headers) (Some []);
  Some (mkHttpRequest uri hs None None None).

(** The value of the [Range] header. *)
Definition show_range (start end_ : Z) : rstr := str "bytes=" ++ show_u64 start ++ str "-" ++ show_u64 end_.

Definition build_range_request (url : rstr) (headers : gmap rstr rstr) (start end_ : Z) : option HttpRequest :=
  uri ← ok_of (uri_parse url);
  hs ← append_headers ((str "Range", show_range start end_) :: (str "Accept-Encoding", str "identity") :: map_to_list headers)
         (Some []);
  Some (mkHttpRequest uri hs None None None).

(** [HeaderMap::get] and [HeaderValue::to_str] *)
Definition header_get (headers : list (rstr * rstr)) (name : rstr) : option rstr :=
  '(_, h) ← list_find (fun h => h.1 = name) headers;
  value_text h.2.

(** ** The worker *)

Record HttpWorker := mkHttpWorker {
  hw_url : rstr;
  hw_headers : gmap rstr rstr;
  hw_timeout : Z;
  hw_connect_timeout : Z;
  hw_attempt : option (nat * nat * Z);
  hw_body_budget : option Z;
}.

Definition HttpWorker_new (spec : DownloadSpec) : HttpWorker :=
  mkHttpWorker (ds_url spec) (ds_headers spec) (default (ds_read_timeout spec) (ds_request_headers_timeout spec))
    (get_connect_timeout spec) None None.

Definition with_body_budget (bytes : Z) (w : HttpWorker) : HttpWorker :=
  mkHttpWorker (hw_url w) (hw_headers w) (hw_timeout w) (hw_connect_timeout w) (hw_attempt w) (Some bytes).

Definition with_attempt (worker_id piece_id : nat) (lease_id : Z) (w : HttpWorker) : HttpWorker :=
  mkHttpWorker (hw_url w) (hw_headers w) (hw_timeout w) (hw_connect_timeout w) (Some (worker_id, piece_id, lease_id))
    (hw_body_budget w).

Definition with_validator (etag : rstr) (w : HttpWorker) : HttpWorker :=
  mkHttpWorker (hw_url w) (<[str "if-match" := etag]> (hw_headers w)) (hw_timeout w) (hw_connect_timeout w) (hw_attempt w)
    (hw_body_budget w).

(** What the clones of a worker share: the cached end of the redirects and the counters;
    the process-wide [NEXT_REQUEST_ID]; [sh_sent]: the requests handed to the client. *)
Record Shared := mkShared {
  sh_final_url : option rstr;
  sh_started : Z;
  sh_headers : Z;
  sh_successful_status : Z;
  sh_redirects : Z;
  sh_next_request_id : Z;
  sh_sent : list HttpRequest;
}.

Definition set_final_url (url : option rstr) (s : Shared) : Shared :=
  mkShared url (sh_started s) (sh_headers s) (sh_successful_status s) (sh_redirects s) (sh_next_request_id s) (sh_sent s).

Definition one_if (b : bool) : Z := if b then 1 else 0.

(** The counters after a response head. *)
Definition count_response (status : Z) (s : Shared) : Shared :=
  mkShared (sh_final_url s) (sh_started s) (sh_headers s ⊕ 1) (sh_successful_status s ⊕ one_if (is_success status))
    (sh_redirects s ⊕ one_if (is_redirection status)) (sh_next_request_id s) (sh_sent s).

Abbreviation Answer := (result HttpResponse DownloadError).

(** A method of the worker: its result, or a panic, and the shared state it leaves. *)
Definition Method (A : Type) : Type := Shared -> option (result A DownloadError) * Shared.

Section Worker.
  (** [BytehaulClient::request_with_timeout]: the answer to the [n]th request. *)
  Context (respond : nat -> HttpRequest -> Z -> Answer) (w : HttpWorker).

Definition send_request (req : HttpRequest) (s : Shared) : Answer * Shared :=
  let req := mkHttpRequest (rq_uri req) (rq_headers req)
               (match hw_body_budget w with Some budget => Some budget | None => rq_body_budget req end)
               (Some (hw_connect_timeout w)) (Some (sh_next_request_id s)) in
  let answer := respond (length (sh_sent s)) req (hw_timeout w) in
  let s := mkShared (sh_final_url s) (sh_started s ⊕ 1) (sh_headers s) (sh_successful_status s) (sh_redirects s)
             (sh_next_request_id s ⊕ 1) (sh_sent s ++ [req]) in
  (answer, match answer with Ok response => count_response (rsp_status response) s | Err _ => s end).

(** *** URLs *)

Definition is_http (scheme : rstr) : bool := bool_decide (scheme = str "http") || bool_decide (scheme = str "https").

Definition validate_redirect_target (url : Url) : result Url DownloadError :=
  if is_http (url_scheme url) then Ok url
  else Err (InvalidConfig (str "redirect target '" ++ url_display url ++ str "' must use http or https")).

Definition parse_download_url (url : rstr) : result rstr DownloadError :=
  match url_parse url with
  | Err error => Err (InvalidConfig (str "invalid download URL '" ++ url ++ str "': " ++ show_url_error error))
  | Ok parsed =>
      match validate_redirect_target parsed with
      | Ok url => Ok (url_display url)
      | Err e => Err e
      end
  end.

Definition resolve_redirect_target (current_url location : rstr) : result rstr DownloadError :=
  match url_parse current_url with
  | Err error => Err (InvalidConfig (str "invalid redirect base URL '" ++ current_url ++ str "': " ++ show_url_error error))
  | Ok base =>
      match (match url_parse location with
             | Ok url => Ok url
             | Err RelativeUrlWithoutBase =>
                 match url_join base location with
                 | Ok url => Ok url
                 | Err error => Err (InvalidConfig (str "invalid redirect location '" ++ location ++ str "' from '" ++
                                       current_url ++ str "': " ++ show_url_error error))
                 end
             | Err error => Err (InvalidConfig (str "invalid redirect location '" ++ location ++ str "': " ++ show_url_error error))
             end) with
      | Err e => Err e
      | Ok target =>
          match validate_redirect_target target with
          | Ok url => Ok (url_display url)
          | Err e => Err e
          end
      end
  end.

Definition redirect_location (current_url : rstr) (headers : list (rstr * rstr)) (status : Z) : result rstr DownloadError :=
  match header_get headers (str "location") with
  | None => Err (HttpStatus status (str "redirect response missing Location header"))
  | Some location => resolve_redirect_target current_url location
  end.

Definition too_many_redirects_error {A} : result A DownloadError := Err (HttpStatus 508 (str "too many redirects")).

Definition is_stale_redirect_target_error (e : DownloadError) : bool :=
  match e with HttpStatus status _ => (status =? 403) || (status =? 404) | _ => false end.

Definition make_http_error (headers : list (rstr * rstr)) (status : Z) : DownloadError :=
  let retry_after := value ← header_get headers (str "retry-after"); parse_u64 (trim value) in
  HttpStatus status
    (match retry_after with
     | Some seconds => str "retry-after:" ++ show_u64 seconds
     | None => default (str "unknown") (canonical_reason status)
     end).

(** *** Following redirects *)

Abbreviation Answered := (HttpResponse * ResponseMeta)%type.

(** The loop of [send_get_following_redirects]; [n] iterations are left. *)
Fixpoint get_loop (n : nat) (current : rstr) : Method Answered :=
  fun s =>
    match n with
    | O => (Some too_many_redirects_error, s)
    | S n =>
        match build_get_request current (hw_headers w) with
        | None => (None, s)
        | Some req =>
            match send_request req s with
            | (Err e, s) => (Some (Err e), s)
            | (Ok response, s) =>
                let status := rsp_status response in
                if is_redirection status then
                  match redirect_location current (rsp_headers response) status with
                  | Err e => (Some (Err e), s)
                  | Ok next => get_loop n next s
                  end
                else
                  let s := set_final_url (Some current) s in
                  if negb (is_success status) then (Some (Err (make_http_error (rsp_headers response) status)), s)
                  else (Some (Ok (response, from_parts (header_get (rsp_headers response)) None)), s)
            end
        end
    end.

(** The loop of [send_range_following_redirects]. *)
Fixpoint range_loop (n : nat) (current : rstr) (start end_ : Z) : Method Answered :=
  fun s =>
    match n with
    | O => (Some too_many_redirects_error, s)
    | S n =>
        match build_range_request current (hw_headers w) start end_ with
        | None => (None, s)
        | Some req =>
            match send_request req s with
            | (Err e, s) => (Some (Err e), s)
            | (Ok response, s) =>
                let status := rsp_status response in
                if is_redirection status then
                  match redirect_location current (rsp_headers response) status with
                  | Err e => (Some (Err e), s)
                  | Ok next => range_loop n next start end_ s
                  end
                else
                  let s := set_final_url (Some current) s in
                  let meta := from_parts (header_get (rsp_headers response)) None in
                  if status =? 200 then (Some (Ok (response, meta)), s)
                  else if negb (status =? 206) then (Some (Err (make_http_error (rsp_headers response) status)), s)
                  else (Some (Ok (response, meta)), s)
            end
        end
    end.

(** The loop of [resolve_redirects]. *)
Fixpoint resolve_loop (n : nat) (current : rstr) : Method rstr :=
  fun s =>
    match n with
    | O => (Some too_many_redirects_error, s)
    | S n =>
        match build_get_request current (hw_headers w) with
        | None => (None, s)
        | Some req =>
            match send_request req s with
            | (Err e, s) => (Some (Err e), s)
            | (Ok response, s) =>
                let status := rsp_status response in
                if negb (is_redirection status) then (Some (Ok current), s)
                else
                  match redirect_location current (rsp_headers response) status with
                  | Err e => (Some (Err e), s)
                  | Ok next => resolve_loop n next s
                  end
            end
        end
    end.

Definition from_url {A} (url : rstr) (loop : rstr -> Method A) : Method A :=
  fun s =>
    match parse_download_url url with
    | Err e => (Some (Err e), s)
    | Ok current => loop current s
    end.

Definition send_get_following_redirects (start_url : rstr) : Method Answered := from_url start_url (get_loop 10).

Definition send_range_following_redirects (start_url : rstr) (start end_ : Z) : Method Answered :=
  from_url start_url (fun current => range_loop 10 current start end_).

Definition resolve_redirects (url : rstr) : Method rstr := from_url url (resolve_loop 10).

Definition final_url : Method rstr :=
  fun s =>
    match sh_final_url s with
    | Some url => (Some (Ok url), s)
    | None =>
        match resolve_redirects (hw_url w) s with
        | (Some (Ok resolved), s) => (Some (Ok resolved), set_final_url (Some resolved) s)
        | r => r
        end
    end.

(** The common part of [send_get] and [send_range]: the cached end of the redirects is
    tried first, the original URL after it when the cached one has gone. *)
Definition refreshing {A} (send : rstr -> Method A) : Method A :=
  fun s =>
    let start_url := default (hw_url w) (sh_final_url s) in
    let can_refresh := negb (bool_decide (start_url = hw_url w)) in
    match send start_url s with
    | (Some (Err error), s) =>
        if can_refresh && is_stale_redirect_target_error error then send (hw_url w) (set_final_url None s)
        else (Some (Err error), s)
    | r => r
    end.

Definition send_get : Method Answered := refreshing send_get_following_redirects.

Definition send_range (start end_ : Z) : Method Answered :=
  refreshing (fun url => send_range_following_redirects url start end_).
End Worker.
End Requests.
