(* ===== verification/Dns.v ===== *)
(** * Name resolution ([src/network/dns.rs])

    The DNS-over-HTTPS servers a resolver is built with, the process-wide cache of their
    configuration, and what a lookup answers.  The Hickory resolver, the system's own
    resolver and the [url] crate are arguments. *)

From S2P Require Import Prelude RustStr Errors Net Config IpPolicy Pools IpText Http.

(** ** Answers *)

Record DnsAnswer := mkAnswer {
  da_addresses : list IpAddr;
  da_valid_until : Z;
}.

Definition time_to_live (now : Z) (a : DnsAnswer) : Z := Z.max 0 (da_valid_until a - now).

(** [BytehaulDnsResolver::resolve]; [lookup]: what [lookup_ip] answers. *)
Definition resolve (lookup : rstr -> result (list IpAddr * Z) rstr) (host : rstr) : result DnsAnswer rstr :=
  match lookup host with
  | Err error => Err error
  | Ok (addresses, valid_until) =>
      match addresses with
      | [] => Err (str "no DNS records found for " ++ host)
      | _ => Ok (mkAnswer addresses valid_until)
      end
  end.

(** [duration_to_u64_millis] of a duration in nanoseconds. *)
Definition duration_to_u64_millis (duration : Z) : Z := Z.min (duration / 1000000) u64_max.

(** ** Name servers *)

Inductive Protocol := Udp | Tcp | Https.

Record NameServerConfig := mkNameServer {
  ns_socket_addr : SocketAddr;
  ns_protocol : Protocol;
  ns_tls_dns_name : option rstr;
  ns_http_endpoint : option rstr;
}.

Record DohServerConfig := mkDoh {
  doh_socket_addrs : list SocketAddr;
  doh_tls_dns_name : rstr;
  doh_http_endpoint : option rstr;
}.

(** [Vec::dedup] *)
Fixpoint dedup (l : list SocketAddr) : list SocketAddr :=
  match l with
  | a :: ((b :: _) as rest) => if bool_decide (a = b) then dedup rest else a :: dedup rest
  | _ => l
  end.

Abbreviation DohCache := (gmap (rstr * bool) DohServerConfig).

Section Doh.
  Context `{UrlCrate}.
  (** [(host, port).to_socket_addrs()] *)
  Context (resolve_doh_host : rstr -> Z -> result (list SocketAddr) rstr).

Definition starts_with (prefix s : rstr) : bool := bool_decide (is_Some (strip_prefix prefix s)).

(** The checks both [parse_doh_server] and [parse_doh_server_uncached] begin with. *)
Definition doh_precheck (server : rstr) : option DownloadError :=
  if bool_decide (server = []) then Some (InvalidConfig (str "DoH server URLs cannot be empty"))
  else
    match strip_prefix (str "https://") server with
    | Some authority =>
        if bool_decide (authority = []) || starts_with (str "/") authority || starts_with (str "?") authority ||
           starts_with (str "#") authority
        then Some (InvalidConfig (str "DoH server URL '" ++ server ++ str "' is missing a host"))
        else None
    | None => None
    end.

(** The path and query libcurl asks the server for. *)
Definition doh_endpoint (path : rstr) (query : option rstr) : rstr :=
  let endpoint := if bool_decide (path = []) || bool_decide (path = str "/") then [] else path in
  match query with
  | Some query => (if bool_decide (endpoint = []) then str "/" else endpoint) ++ str "?" ++ query
  | None => endpoint
  end.

Definition parse_doh_server_uncached (server : rstr) (enable_ipv6 : bool) : result DohServerConfig DownloadError :=
  let server := trim server in
  let refuse reason := Err (InvalidConfig (str "DoH server URL '" ++ server ++ str "' " ++ reason)) in
  match doh_precheck server with
  | Some e => Err e
  | None =>
      match url_parse server with
      | Err error =>
          if bool_decide (show_url_error error = str "empty host") then refuse (str "is missing a host")
          else Err (InvalidConfig (str "invalid DoH server URL '" ++ server ++ str "': " ++ show_url_error error))
      | Ok url =>
          if negb (bool_decide (url_scheme url = str "https")) then refuse (str "must use https")
          else if negb (bool_decide (url_username url = [])) || bool_decide (is_Some (url_password url)) then
            refuse (str "cannot include credentials")
          else if bool_decide (is_Some (url_fragment url)) then refuse (str "cannot include a fragment")
          else
            match url_host_str url, url_port_or_known_default url with
            | None, _ => refuse (str "is missing a host")
            | _, None => refuse (str "is missing a valid port")
            | Some host_display, Some port =>
                let host_for_resolution := unbracket host_display in
                let parsed_ip := parse_ip host_for_resolution in
                match (match parsed_ip with
                       | Some ip => Ok [SocketAddr_new ip port]
                       | None => resolve_doh_host host_for_resolution port
                       end) with
                | Err error => Err (InvalidConfig (str "failed to resolve DoH host '" ++ host_display ++ str "' from '" ++
                                      server ++ str "': " ++ error))
                | Ok addrs =>
                    let kept := if enable_ipv6 then addrs else List.filter is_ipv4 addrs in
                    let socket_addrs := dedup (merge_sort socket_le kept) in
                    if bool_decide (socket_addrs = []) then
                      refuse (str "did not resolve to any " ++ (if enable_ipv6 then str "IP" else str "IPv4") ++ str " address")
                    else
                      let endpoint := doh_endpoint (url_path url) (url_query url) in
                      Ok (mkDoh socket_addrs
                            (match parsed_ip with
                             | Some (V4 ip) => show_v4 ip
                             | Some (V6 ip) => str "[" ++ show_v6 ip ++ str "]"
                             | None => host_display
                             end)
                            (if bool_decide (endpoint = []) || bool_decide (endpoint = str "/dns-query") then None else Some endpoint))
                end
            end
      end
  end.

Definition parse_doh_server (server : rstr) (enable_ipv6 : bool) (cache : DohCache) : result DohServerConfig DownloadError * DohCache :=
  let server := trim server in
  match doh_precheck server with
  | Some e => (Err e, cache)
  | None =>
      match cache !! (server, enable_ipv6) with
      | Some cached => (Ok cached, cache)
      | None =>
          match parse_doh_server_uncached server enable_ipv6 with
          | Err e => (Err e, cache)
          | Ok config => (Ok config, <[(server, enable_ipv6) := config]> cache)
          end
      end
  end.

Definition doh_name_servers (config : DohServerConfig) : list NameServerConfig :=
  (fun a => mkNameServer a Https (Some (doh_tls_dns_name config)) (doh_http_endpoint config)) <$> doh_socket_addrs config.

Fixpoint doh_group (doh_servers : list rstr) (enable_ipv6 : bool) (cache : DohCache) : result (list NameServerConfig) DownloadError * DohCache :=
  match doh_servers with
  | [] => (Ok [], cache)
  | server :: doh_servers =>
      match parse_doh_server server enable_ipv6 cache with
      | (Err e, cache) => (Err e, cache)
      | (Ok config, cache) =>
          match doh_group doh_servers enable_ipv6 cache with
          | (Err e, cache) => (Err e, cache)
          | (Ok group, cache) => (Ok (doh_name_servers config ++ group), cache)
          end
      end
  end.

Definition build_name_server_group (dns_servers : list SocketAddr) (doh_servers : list rstr) (enable_ipv6 : bool) (cache : DohCache)
    : result (list NameServerConfig) DownloadError * DohCache :=
  match doh_group doh_servers enable_ipv6 cache with
  | (Err e, cache) => (Err e, cache)
  | (Ok group, cache) =>
      (Ok (mjoin ((fun server => [mkNameServer server Udp None None; mkNameServer server Tcp None None]) <$> dns_servers) ++ group), cache)
  end.

Inductive LookupIpStrategy := Ipv4Only | Ipv4AndIpv6.

(** What a resolver is built from; [None]: the name servers of the system. *)
Record BytehaulDnsResolver := mkResolver {
  dns_name_servers : option (list NameServerConfig);
  dns_ip_strategy : LookupIpStrategy;
}.

(** [BytehaulDnsResolver::new]; [system]: the error of reading the system's configuration. *)
Definition DnsResolver_new (system : option rstr) (dns_servers : list SocketAddr) (doh_servers : list rstr) (enable_ipv6 : bool)
    (cache : DohCache) : result BytehaulDnsResolver DownloadError * DohCache :=
  let strategy := if enable_ipv6 then Ipv4AndIpv6 else Ipv4Only in
  if bool_decide (dns_servers = []) && bool_decide (doh_servers = []) then
    (match system with
     | Some err => Err (Internal (str "failed to read system DNS configuration: " ++ err))
     | None => Ok (mkResolver None strategy)
     end, cache)
  else
    match build_name_server_group dns_servers doh_servers enable_ipv6 cache with
    | (Err e, cache) => (Err e, cache)
    | (Ok group, cache) => (Ok (mkResolver (Some group) strategy), cache)
    end.

(** ** Properties *)

(** What a usable configuration of a server looks like. *)
Definition Doh_ok (enable_ipv6 : bool) (c : DohServerConfig) : Prop :=
  doh_socket_addrs c <> [] /\ StronglySorted (fun a b => socket_le a b /\ a <> b) (doh_socket_addrs c) /\
  (enable_ipv6 = false -> Forall (fun a => is_ipv4 a = true) (doh_socket_addrs c)) /\
  (doh_http_endpoint c <> Some [] /\ doh_http_endpoint c <> Some (str "/dns-query")).

Definition DohCache_ok (cache : DohCache) : Prop := map_Forall (fun k c => Doh_ok k.2 c) cache.

Lemma elem_of_dedup a l : a ∈ dedup l <-> a ∈ l.
Proof.
  induction l as [|x [|y l] IH]; [done|done|]. cbn [dedup]. case_bool_decide as E.
  - subst y. rewrite IH. set_solver.
  - rewrite elem_of_cons, IH. set_solver.
Qed.

Lemma dedup_nil l : dedup l = [] -> l = [].
Proof.
  destruct l as [|a l]; [done|]. intros E. assert (a ∈ dedup (a :: l)) as Ha by (apply elem_of_dedup; by left).
  rewrite E in Ha. set_solver.
Qed.

Lemma dedup_sorted l : StronglySorted socket_le l -> StronglySorted (fun a b => socket_le a b /\ a <> b) (dedup l).
Proof.
  induction l as [|x [|y l] IH]; intros Hs; [constructor|repeat constructor|]. cbn [dedup].
  apply StronglySorted_inv in Hs as [Hs Hx]. specialize (IH Hs). case_bool_decide as E; [done|]. constructor; [done|].
  apply List.Forall_forall. intros a Ha%list_elem_of_In%(proj1 (elem_of_dedup a (y :: l))). rewrite List.Forall_forall in Hx.
  split; [by apply Hx, list_elem_of_In|]. intros <-. apply StronglySorted_inv in Hs as [_ Hy]. rewrite List.Forall_forall in Hy.
  apply elem_of_cons in Ha as [|Ha]; [done|]. apply E, (anti_symm socket_le); [apply Hx; by left|]. apply Hy. by apply list_elem_of_In.
Qed.

Lemma doh_config_ok (enable_ipv6 : bool) (addrs : list SocketAddr) (name endpoint : rstr) :
  let socket_addrs := dedup (merge_sort socket_le (if enable_ipv6 then addrs else List.filter is_ipv4 addrs)) in
  socket_addrs <> [] ->
  Doh_ok enable_ipv6 (mkDoh socket_addrs name
    (if bool_decide (endpoint = []) || bool_decide (endpoint = str "/dns-query") then None else Some endpoint)).
Proof.
  intros socket_addrs Hne. split; [done|]. split; [apply dedup_sorted, (StronglySorted_merge_sort socket_le)|].
  split; cbn [doh_socket_addrs doh_http_endpoint].
  - intros ->. apply Forall_forall. intros x Hx. apply (proj1 (elem_of_dedup x _)) in Hx. rewrite (merge_sort_Permutation socket_le) in Hx.
    by apply list_elem_of_In, filter_In in Hx as [_ Hx].
  - destruct (bool_decide (endpoint = [])) eqn:E1, (bool_decide (endpoint = str "/dns-query")) eqn:E2; try done. simpl.
    apply bool_decide_eq_false in E1, E2. split; congruence.
Qed.

Lemma Ok_inj {A E} (a b : A) : @Ok A E a = Ok b -> a = b.
Proof. congruence. Qed.

Lemma uncached_ok server enable_ipv6 c : parse_doh_server_uncached server enable_ipv6 = Ok c -> Doh_ok enable_ipv6 c.
Proof.
  unfold parse_doh_server_uncached. destruct (doh_precheck _); [done|]. destruct (url_parse _) as [url|]; [|by case_match].
  destruct (negb _); [done|]. destruct (_ || _); [done|]. destruct (bool_decide _); [done|].
  destruct (url_host_str url) as [host|]; [|done]. destruct (url_port_or_known_default url) as [port|]; [|done].
  destruct (match parse_ip _ with Some _ => _ | None => _ end) as [addrs|]; [|done].
  destruct (bool_decide (dedup _ = [])) eqn:Ed; [done|]. apply bool_decide_eq_false in Ed. intros <-%Ok_inj. by apply doh_config_ok.
Qed.

Lemma parse_doh_ok server enable_ipv6 cache r cache' :
  DohCache_ok cache -> parse_doh_server server enable_ipv6 cache = (r, cache') ->
  DohCache_ok cache' /\ forall c, r = Ok c -> Doh_ok enable_ipv6 c.
Proof.
  intros Hc E. unfold parse_doh_server in E. destruct (doh_precheck _); [injection E as <- <-; by split|].
  destruct (cache !! _) as [c0|] eqn:E0.
  { injection E as <- <-. split; [done|]. intros c [= <-]. exact (Hc _ _ E0). }
  destruct (parse_doh_server_uncached _ _) as [c0|e] eqn:E1; injection E as <- <-; [|by split].
  pose proof (uncached_ok _ _ _ E1) as H1. split; [by apply map_Forall_insert_2|]. by intros c [= <-].
Qed.

Lemma doh_group_ok servers enable_ipv6 cache r cache' :
  DohCache_ok cache -> doh_group servers enable_ipv6 cache = (r, cache') ->
  DohCache_ok cache' /\ forall group, r = Ok group ->
    exists configs, Forall (Doh_ok enable_ipv6) configs /\ length configs = length servers /\
      group = mjoin (doh_name_servers <$> configs).
Proof.
  revert cache r. induction servers as [|server servers IH]; intros cache r Hc E; simpl in E.
  { injection E as <- <-. split; [done|]. intros group [= <-]. by exists []. }
  destruct (parse_doh_server _ _ _) as [[c|e] c1] eqn:E1.
  2: { injection E as <- <-. split; [|done]. by destruct (parse_doh_ok _ _ _ _ _ Hc E1). }
  destruct (parse_doh_ok _ _ _ _ _ Hc E1) as [Hc1 H1]. specialize (H1 c eq_refl).
  destruct (doh_group _ _ _) as [[g|e] c2] eqn:E2; injection E as <- <-;
    destruct (IH _ _ Hc1 E2) as [Hc2 H2]; (split; [done|]); [|done].
  intros group [= <-]. destruct (H2 g eq_refl) as (configs & Hf & Hl & ->). exists (c :: configs). split; [by constructor|].
  split; [simpl; lia|done].
Qed.

(** What a resolver is built from is usable, whatever the cache holds: every DNS-over-HTTPS
    server contributes at least one address, without duplicates, and none of them is an
    IPv6 address when IPv6 is off; the cache stays so for the next client. *)
Theorem doh_servers_usable system dns_servers doh_servers enable_ipv6 cache r cache' :
  DohCache_ok cache -> DnsResolver_new system dns_servers doh_servers enable_ipv6 cache = (Ok r, cache') ->
  DohCache_ok cache' /\ (dns_ip_strategy r = Ipv4Only <-> enable_ipv6 = false) /\
  match dns_name_servers r with
  | None => dns_servers = [] /\ doh_servers = []
  | Some group =>
      (forall server, server ∈ dns_servers -> mkNameServer server Udp None None ∈ group /\ mkNameServer server Tcp None None ∈ group) /\
      exists configs, Forall (Doh_ok enable_ipv6) configs /\ length configs = length doh_servers /\
        forall ns, ns_protocol ns = Https -> ns ∈ group <-> exists c, c ∈ configs /\ ns ∈ doh_name_servers c
  end.
Proof.
  intros Hc E. unfold DnsResolver_new in E.
  assert ((if enable_ipv6 then Ipv4AndIpv6 else Ipv4Only) = Ipv4Only <-> enable_ipv6 = false) as Hs by (by destruct enable_ipv6).
  destruct (bool_decide (dns_servers = []) && _) eqn:Eb.
  { apply andb_true_iff in Eb as [H1%bool_decide_eq_true H2%bool_decide_eq_true]. destruct system; [done|].
    injection E as <- <-. split; [done|]. by split. }
  unfold build_name_server_group in E. destruct (doh_group _ _ _) as [[g|e] c1] eqn:Eg; [|done]. injection E as <- <-.
  destruct (doh_group_ok _ _ _ _ _ Hc Eg) as [Hc1 H1]. destruct (H1 g eq_refl) as (configs & Hf & Hl & ->).
  split; [done|]. split; [done|]. cbn [dns_name_servers]. split.
  - intros server Hin. rewrite !elem_of_app, !list_elem_of_join. split; left;
      eexists; (split; [|apply list_elem_of_fmap; by exists server]); set_solver.
  - exists configs. split; [done|]. split; [done|]. intros ns Hns. rewrite elem_of_app, !list_elem_of_join. split.
    + intros [(l & Hin & (server & -> & _)%list_elem_of_fmap)|(l & Hin & (c & -> & Hin')%list_elem_of_fmap)]; [|by exists c].
      rewrite !elem_of_cons in Hin. destruct Hin as [->|[->|Hin]]; [done|done|set_solver].
    + intros (c & Hin & Hns'). right. exists (doh_name_servers c). split; [done|]. apply list_elem_of_fmap. by exists c.
Qed.
End Doh.
