(* ===== verification/Transport.v ===== *)
(** * The transport ([src/network/curl/transport.rs], [BytehaulClient] of [src/network.rs])

    From a request to one transfer of the driver and back: the options libcurl gets, the
    proxy route, the name lookup and the time it may take, and the response built from
    the head the driver publishes.  Clock readings, the lookup and the driver's answer are
    arguments. *)

From S2P Require Import Prelude RustStr Errors Net Config Clients Float64 IpPolicy Flow Head Pools IpText Http Dns.

(** ** Proxies *)

Record ProxyEndpoint := mkEndpoint {
  pe_url : rstr;
  pe_host : option rstr;
  pe_port : Z;
}.

(** How the addresses of a hop reach libcurl. *)
Inductive HopTarget :=
| HopResolve (entry : ResolveEntry)
| HopCandidates (set : CandidateSet)
| HopLiteral.

Record CurlTransport := mkTransport {
  tr_driver_config : DriverConfig;
  tr_resolver : BytehaulDnsResolver;
  tr_connect_timeout : Z;
  tr_forbid_connection_reuse : bool;
  tr_multi_ip : bool;
  tr_http_proxy : option ProxyEndpoint;
  tr_https_proxy : option ProxyEndpoint;
  tr_all_proxy : option ProxyEndpoint;
  tr_ca_info : option rstr;
  tr_ca_path : option rstr;
  tr_client_cert : option rstr;
  tr_client_key : option rstr;
}.

(** [Transfer]: the head, and the number of the transfer its body belongs to. *)
Record Transfer := mkTransferOf {
  tf_head : ResponseHead;
  tf_body : Z;
}.

(** The instants at which [request] reads the clock: at its start, before the lookup, when
    the lifetime of the answer is read, and after the lookup. *)
Record Clock := mkClock {
  ck_started : Z;
  ck_resolving : Z;
  ck_answered : Z;
  ck_resolved : Z;
}.

(** The extraction of the specification of a byte range. *)
Definition byte_range_spec (value : rstr) : option rstr :=
  '(unit, spec) ← split_once 61 value;
  if eq_ignore_ascii_case (trim unit) (str "bytes") then Some (trim spec) else None.

Definition request_timed_out : DownloadError := Transport Timeout (str "request timed out").

Section Transport.
  Context `{UrlCrate} `{HttpCrate}.

Definition is_literal (host : rstr) : bool := bool_decide (is_Some (parse_ip (unbracket host))).

Definition ProxyEndpoint_parse (url : rstr) : result ProxyEndpoint DownloadError :=
  match url_parse url with
  | Err error => Err (InvalidConfig (str "invalid proxy URL '" ++ url ++ str "': " ++ show_url_error error))
  | Ok parsed =>
      match url_port_or_known_default parsed with
      | None => Err (InvalidConfig (str "proxy URL '" ++ url ++ str "' has no usable port"))
      | Some port =>
          match url_host_str parsed with
          | None => Err (InvalidConfig (str "proxy URL '" ++ url ++ str "' has no host"))
          | Some host => Ok (mkEndpoint url (if is_literal host then None else Some host) port)
          end
      end
  end.

Definition proxy_endpoint (uri : option Uri) : result (option ProxyEndpoint) DownloadError :=
  match uri with
  | None => Ok None
  | Some uri => match ProxyEndpoint_parse (uri_display uri) with Ok e => Ok (Some e) | Err e => Err e end
  end.

(** [Url::parse] as [proxy_uri] uses it. *)
Definition scheme_or_error (value : rstr) : result rstr rstr :=
  match url_parse value with Ok url => Ok (url_scheme url) | Err e => Err (show_url_error e) end.

(** [CurlTransport::new] *)
Definition CurlTransport_new (env : rstr -> option rstr) (resolve_doh_host : rstr -> Z -> result (list SocketAddr) rstr)
    (system : option rstr) (config : ClientNetworkConfig) (cache : DohCache) : result CurlTransport DownloadError * DohCache :=
  match effective_proxies env scheme_or_error uri_parse config with
  | Err e => (Err e, cache)
  | Ok proxies =>
      match DnsResolver_new resolve_doh_host system (nc_dns_servers config) (nc_doh_servers config) (nc_enable_ipv6 config) cache with
      | (Err e, cache) => (Err e, cache)
      | (Ok resolver, cache) =>
          (match proxy_endpoint (ep_http_proxy proxies) with
           | Err e => Err e
           | Ok http_proxy =>
               match proxy_endpoint (ep_https_proxy proxies) with
               | Err e => Err e
               | Ok https_proxy =>
                   match proxy_endpoint (ep_all_proxy proxies) with
                   | Err e => Err e
                   | Ok all_proxy =>
                       Ok (mkTransport
                             (mkDriverConfig (nc_pool_max_idle_per_host config) (nc_pool_idle_timeout config)
                                (Some (nc_pool_idle_timeout config)))
                             resolver (nc_connect_timeout config) (nc_pool_max_idle_per_host config =? 0)%nat (nc_multi_ip config)
                             http_proxy https_proxy all_proxy (nc_ca_info config) (nc_ca_path config) (nc_client_cert config)
                             (nc_client_key config))
                   end
               end
           end, cache)
      end
  end.

(** ** Options *)

Section Requests.
  Context (t : CurlTransport).

Definition proxy_for (scheme : rstr) : option ProxyEndpoint :=
  let first := if bool_decide (scheme = str "https") then tr_https_proxy t else tr_http_proxy t in
  match first with Some e => Some e | None => tr_all_proxy t end.

(** [RequestOptions::new] with the fields [options_for] sets before the headers. *)
Definition base_options (url scheme : rstr) (req : HttpRequest) (head_timeout : Z) : RequestOptions :=
  mkRequestOptions url (rq_trace_id req) [] None (default (tr_connect_timeout t) (rq_connect_timeout req)) head_timeout
    (tr_forbid_connection_reuse t) None None (pe_url <$> proxy_for scheme) (tr_ca_info t) (tr_ca_path t) (tr_client_cert t)
    (tr_client_key t).

Definition set_range (range : option rstr) (o : RequestOptions) : RequestOptions :=
  mkRequestOptions (ro_url o) (ro_request_id o) (ro_headers o) range (ro_connect_timeout o) (ro_head_timeout o)
    (ro_forbid_connection_reuse o) (ro_resolve o) (ro_candidates o) (ro_proxy o) (ro_ca_info o) (ro_ca_path o) (ro_client_cert o)
    (ro_client_key o).

Definition push_header (header : rstr * rstr) (o : RequestOptions) : RequestOptions :=
  mkRequestOptions (ro_url o) (ro_request_id o) (ro_headers o ++ [header]) (ro_range o) (ro_connect_timeout o) (ro_head_timeout o)
    (ro_forbid_connection_reuse o) (ro_resolve o) (ro_candidates o) (ro_proxy o) (ro_ca_info o) (ro_ca_path o) (ro_client_cert o)
    (ro_client_key o).

(** The header loop of [options_for]. *)
Fixpoint apply_headers (headers : list (rstr * rstr)) (o : RequestOptions) : result RequestOptions DownloadError :=
  match headers with
  | [] => Ok o
  | (name, raw) :: headers =>
      match value_text raw with
      | None => Err (InvalidConfig (str "header '" ++ name ++ str "' has a non-text value"))
      | Some value =>
          if eq_ignore_ascii_case name (str "range") then
            match byte_range_spec value with
            | Some spec => apply_headers headers (set_range (Some spec) o)
            | None => apply_headers headers (push_header (name, value) o)
            end
          else if eq_ignore_ascii_case name (str "accept-encoding") then apply_headers headers o
          else apply_headers headers (push_header (name, value) o)
      end
  end.

Definition options_for (req : HttpRequest) (head_timeout : Z) : result RequestOptions DownloadError :=
  let url := uri_display (rq_uri req) in
  let scheme := default [] (uri_scheme (rq_uri req)) in
  if negb (is_http scheme) then
    Err (InvalidConfig (str "libcurl transport requires an http or https URL, got '" ++ url ++ str "'"))
  else apply_headers (header_iter (rq_headers req)) (base_options url scheme req head_timeout).

(** ** The hop *)

Definition scheme_of (url : rstr) : result rstr DownloadError :=
  match url_parse url with
  | Ok parsed => Ok (url_scheme parsed)
  | Err error => Err (InvalidConfig (str "invalid request URL '" ++ url ++ str "': " ++ show_url_error error))
  end.

Definition origin_target (url : rstr) : result (option (rstr * Z)) DownloadError :=
  match url_parse url with
  | Err error => Err (InvalidConfig (str "invalid request URL '" ++ url ++ str "': " ++ show_url_error error))
  | Ok parsed =>
      match url_host_str parsed with
      | None => Ok None
      | Some host =>
          if is_literal host then Ok None
          else
            match url_port_or_known_default parsed with
            | None => Err (InvalidConfig (str "request URL '" ++ url ++ str "' has no usable port"))
            | Some port => Ok (Some (host, port))
            end
      end
  end.

(** The host and port [resolve_for] looks up, and whether they are a proxy's. *)
Definition hop_of (o : RequestOptions) : result (option (rstr * Z) * bool) DownloadError :=
  match scheme_of (ro_url o) with
  | Err e => Err e
  | Ok scheme =>
      match proxy_for scheme with
      | Some proxy => Ok ((fun host => (host, pe_port proxy)) <$> pe_host proxy, true)
      | None => match origin_target (ro_url o) with Ok target => Ok (target, false) | Err e => Err e end
      end
  end.

(** [lookup host budget]: what the resolver answers within the budget, [None] when the
    budget runs out first.  [now]: when the lifetime of the answer is read. *)
Definition resolve_for (lookup : rstr -> Z -> option (result DnsAnswer rstr)) (now : Z) (o : RequestOptions) (budget : Z)
    : result HopTarget DownloadError :=
  match hop_of o with
  | Err e => Err e
  | Ok (None, _) => Ok HopLiteral
  | Ok (Some (host, port), proxied) =>
      match lookup host budget with
      | None => Err request_timed_out
      | Some (Err error) => Err (Transport Connect (str "DNS lookup for '" ++ host ++ str "' failed: " ++ error))
      | Some (Ok answer) =>
          if tr_multi_ip t && negb proxied then
            Ok (HopCandidates (mkCandidateSet host port (da_addresses answer) (da_valid_until answer)))
          else Ok (HopResolve (ResolveEntry_new host port (da_addresses answer) (time_to_live now answer)))
      end
  end.

Definition apply_hop (hop : HopTarget) (o : RequestOptions) : RequestOptions :=
  let with_hop resolve candidates :=
    mkRequestOptions (ro_url o) (ro_request_id o) (ro_headers o) (ro_range o) (ro_connect_timeout o) (ro_head_timeout o)
      (ro_forbid_connection_reuse o) resolve candidates (ro_proxy o) (ro_ca_info o) (ro_ca_path o) (ro_client_cert o)
      (ro_client_key o) in
  match hop with
  | HopResolve entry => with_hop (Some entry) (ro_candidates o)
  | HopCandidates set => with_hop (ro_resolve o) (Some set)
  | HopLiteral => o
  end.

Definition body_budget (req : HttpRequest) : Z :=
  Z.min (Z.max (default MAX_BODY_BUDGET_BYTES (rq_body_budget req)) MIN_BODY_BUDGET_BYTES) MAX_BODY_BUDGET_BYTES.

(** ** A request *)

(** The part of [request] before the driver: the transfer it submits. *)
Definition prepare (lookup : rstr -> Z -> option (result DnsAnswer rstr)) (clock : Clock) (req : HttpRequest) (head_deadline : Z)
    : result (RequestOptions * Z) DownloadError :=
  match options_for req head_deadline with
  | Err e => Err e
  | Ok options =>
      let connect_budget := Z.min (ro_connect_timeout options) head_deadline in
      let elapsed at_ := duration_since at_ (ck_started clock) in
      match resolve_for lookup (ck_answered clock) options (Z.max 0 (connect_budget - elapsed (ck_resolving clock))) with
      | Err e => Err e
      | Ok hop =>
          let spent := elapsed (ck_resolved clock) in
          let remaining_connect := Z.max 0 (connect_budget - spent) in
          if remaining_connect =? 0 then Err request_timed_out
          else
            let remaining_head := Z.max 0 (head_deadline - spent) in
            if remaining_head =? 0 then Err request_timed_out
            else Ok (set_timeouts remaining_connect remaining_head (apply_hop hop options), body_budget req)
      end
  end.

(** [HeaderMap::append] of the headers [http] can represent. *)
Fixpoint response_headers (headers : list (rstr * rstr)) : list (rstr * rstr) :=
  match headers with
  | [] => []
  | (name, value) :: headers =>
      match header_name name with
      | Some name => if header_value_ok value then (name, value) :: response_headers headers else response_headers headers
      | None => response_headers headers
      end
  end.

(** [StatusCode::from_u16] takes the numbers of three digits. *)
Definition response_from_transfer (transfer : Transfer) : result HttpResponse DownloadError :=
  let head := tf_head transfer in
  if (100 <=? rh_status head) && (rh_status head <? 1000) then
    Ok (mkHttpResponse (rh_status head) (response_headers (rh_headers head)) (rh_pinned_ip head) (tf_body transfer))
  else Err (Internal (str "libcurl reported an invalid status code " ++ show_u64 (rh_status head))).

(** [CurlTransport::request]; [get]: the driver's answer. *)
Definition request (lookup : rstr -> Z -> option (result DnsAnswer rstr)) (get : RequestOptions -> Z -> result Transfer DownloadError)
    (clock : Clock) (req : HttpRequest) (head_deadline : Z) : result HttpResponse DownloadError :=
  match prepare lookup clock req head_deadline with
  | Err e => Err e
  | Ok (options, budget) =>
      match get options budget with
      | Err e => Err e
      | Ok transfer => response_from_transfer transfer
      end
  end.
End Requests.
End Transport.
