(* ===== verification/HttpProps.v ===== *)
(** * What the worker asks for and what it accepts ([src/http/worker.rs], [src/network/curl/transport.rs])

    Every call ends after a bounded number of requests, each to an HTTP or HTTPS URL, and
    what it returns is the answer of the place it remembers.  The range a worker asks for
    is the range libcurl asks for, within the time the caller gave. *)

From S2P Require Import Prelude RustStr Errors Net Response Config Clients Float64 IpPolicy Flow Head Pools IpText Http Dns Transport.

(** ** Following redirects *)

Section Following.
  Context `{UrlCrate} `{HttpCrate} (respond : nat -> HttpRequest -> Z -> result HttpResponse DownloadError) (w : HttpWorker).

(** The three loops of the worker: how a request is built for a URL, and what becomes of
    the response that is no redirection. *)
Fixpoint follow {A} (build : rstr -> option HttpRequest)
    (finish : rstr -> HttpResponse -> Shared -> result A DownloadError * Shared) (n : nat) (current : rstr) : Method A :=
  fun s =>
    match n with
    | O => (Some too_many_redirects_error, s)
    | S n =>
        match build current with
        | None => (None, s)
        | Some req =>
            match send_request respond w req s with
            | (Err e, s) => (Some (Err e), s)
            | (Ok response, s) =>
                if is_redirection (rsp_status response) then
                  match redirect_location current (rsp_headers response) (rsp_status response) with
                  | Err e => (Some (Err e), s)
                  | Ok next => follow build finish n next s
                  end
                else let '(r, s) := finish current response s in (Some r, s)
            end
        end
    end.

Definition finish_range (current : rstr) (response : HttpResponse) (s : Shared)
    : result (HttpResponse * ResponseMeta) DownloadError * Shared :=
  (if (rsp_status response =? 200) || (rsp_status response =? 206)
   then Ok (response, from_parts (header_get (rsp_headers response)) None)
   else Err (make_http_error (rsp_headers response) (rsp_status response)),
   set_final_url (Some current) s).

Lemma range_loop_follow n current start end_ s :
  range_loop respond w n current start end_ s =
  follow (fun url => build_range_request url (hw_headers w) start end_) finish_range n current s.
Proof.
  revert current s. induction n as [|n IH]; intros current s; [done|]. cbn [range_loop follow].
  destruct (build_range_request _ _ _ _) as [req|]; [|done]. destruct (send_request _ _ _ _) as [[response|e] s1]; [|done].
  destruct (is_redirection _); [destruct (redirect_location _ _ _); [apply IH|done]|]. unfold finish_range.
  by destruct (rsp_status response =? 200), (rsp_status response =? 206).
Qed.

(** A URL the worker sends a request to. *)
Definition http_url (url : rstr) : Prop := exists u, url = url_display u /\ is_http (url_scheme u) = true.

Lemma validated_http u v : validate_redirect_target u = Ok v -> v = u /\ is_http (url_scheme u) = true.
Proof. unfold validate_redirect_target. destruct (is_http _); [by intros [= ->]|done]. Qed.

Lemma parsed_http url current : parse_download_url url = Ok current -> http_url current.
Proof.
  unfold parse_download_url. destruct (url_parse url) as [u|]; [|done].
  destruct (validate_redirect_target u) as [v|] eqn:E; [|done]. apply validated_http in E as [-> Hh]. intros [= <-]. by exists u.
Qed.

Lemma redirected_http current headers status next : redirect_location current headers status = Ok next -> http_url next.
Proof.
  unfold redirect_location, resolve_redirect_target. destruct (header_get _ _); [|done]. destruct (url_parse current); [|done].
  destruct (match url_parse _ with Ok _ => _ | Err _ => _ end) as [u|]; [|done].
  destruct (validate_redirect_target u) as [v|] eqn:E; [|done]. apply validated_http in E as [-> Hh]. intros [= <-]. by exists u.
Qed.

(** The request [req] was sent for [url]: the request built for it, with the extensions
    every request of the worker has. *)
Definition sent_for (build : rstr -> option HttpRequest) (url : rstr) (req : HttpRequest) : Prop :=
  exists base, build url = Some base /\ rq_uri req = rq_uri base /\ rq_headers req = rq_headers base /\
    rq_connect_timeout req = Some (hw_connect_timeout w) /\
    rq_body_budget req = match hw_body_budget w with Some budget => Some budget | None => rq_body_budget base end.

(** The response [response] answered the last request of [s], which was for [url]. *)
Definition answered (s : Shared) (req : HttpRequest) (response : HttpResponse) : Prop :=
  last (sh_sent s) = Some req /\ respond (length (sh_sent s) - 1) req (hw_timeout w) = Ok response.

Lemma send_request_spec build url base s answer s' :
  build url = Some base -> send_request respond w base s = (answer, s') ->
  exists req, sh_sent s' = sh_sent s ++ [req] /\ sent_for build url req /\
    sh_final_url s' = sh_final_url s /\ forall response, answer = Ok response -> answered s' req response.
Proof.
  intros Eb E. unfold send_request in E. injection E as <- <-. eexists. split; [by case_match|]. split; [by exists base|].
  split; [by case_match|]. intros response Er. unfold answered. rewrite Er. cbn [sh_sent count_response].
  rewrite last_snoc. split; [done|]. rewrite length_app. simpl. replace (length (sh_sent s) + 1 - 1)%nat with (length (sh_sent s)) by lia.
  done.
Qed.

(** A chain of redirects: the URLs, with a request for each. *)
Record Chain (build : rstr -> option HttpRequest) (n : nat) (current : rstr) (s s' : Shared) (urls : list rstr) : Prop := {
  ch_reqs : exists reqs, sh_sent s' = sh_sent s ++ reqs /\ Forall2 (sent_for build) urls reqs;
  ch_http : Forall http_url urls;
  ch_length : (length urls <= n)%nat;
  ch_head : urls = [] \/ head urls = Some current;
}.

Lemma Chain_nil build n current s : Chain build n current s s [].
Proof. split; [exists []; by rewrite app_nil_r|done|simpl; lia|by left]. Qed.

Lemma Chain_cons build n current next req s s1 s' urls :
  http_url current -> sh_sent s1 = sh_sent s ++ [req] -> sent_for build current req -> Chain build n next s1 s' urls ->
  Chain build (S n) current s s' (current :: urls).
Proof.
  intros Hc E Hreq [(reqs & Hs & Hall) Hh Hl _]. split.
  - exists (req :: reqs). rewrite Hs, E, <- app_assoc. split; [done|by constructor].
  - by constructor.
  - simpl. lia.
  - by right.
Qed.

Lemma Chain_one build n current req s s1 s' :
  http_url current -> sh_sent s1 = sh_sent s ++ [req] -> sent_for build current req -> sh_sent s' = sh_sent s1 ->
  Chain build (S n) current s s' [current].
Proof.
  intros Hc E Hreq E'. eapply (Chain_cons _ _ _ current); [done|done|done|]. split; [|done|simpl; lia|by left].
  exists []. by rewrite app_nil_r.
Qed.

(** How a chain ended. *)
Definition Ended {A} (build : rstr -> option HttpRequest)
    (finish : rstr -> HttpResponse -> Shared -> result A DownloadError * Shared) (urls : list rstr)
    (r : option (result A DownloadError)) (s' : Shared) : Prop :=
  match r with
  | Some (Ok a) => exists url req response s1, last urls = Some url /\ answered s1 req response /\ sh_sent s1 = sh_sent s' /\
      is_redirection (rsp_status response) = false /\ finish url response s1 = (Ok a, s')
  | Some (Err e) => is_stale_redirect_target_error e = true -> urls <> []
  | None => exists url, http_url url /\ build url = None
  end.

Lemma follow_spec {A} build (finish : rstr -> HttpResponse -> Shared -> result A DownloadError * Shared) n current s r s' :
  (forall url response s, sh_sent (finish url response s).2 = sh_sent s) ->
  http_url current -> follow build finish n current s = (r, s') ->
  exists urls, Chain build n current s s' urls /\ Ended build finish urls r s'.
Proof.
  intros Hf. revert current s r. induction n as [|n IH]; intros current s r Hc E; cbn [follow] in E.
  { injection E as <- <-. exists []. by split; [apply Chain_nil|]. }
  destruct (build current) as [base|] eqn:Eb.
  2: { injection E as <- <-. exists []. split; [apply Chain_nil|by exists current]. }
  destruct (send_request respond w base s) as [answer s1] eqn:Es.
  destruct (send_request_spec build current base s answer s1 Eb Es) as (req & Hsent & Hreq & _ & Hans).
  destruct answer as [response|e].
  2: { injection E as <- <-. exists [current]. split; [by eapply Chain_one|done]. }
  destruct (is_redirection (rsp_status response)) eqn:Er.
  - destruct (redirect_location current _ _) as [next|e] eqn:El.
    2: { injection E as <- <-. exists [current]. split; [by eapply Chain_one|done]. }
    apply redirected_http in El. destruct (IH next s1 r El E) as (urls & Hch & Hend).
    exists (current :: urls). split; [by eapply Chain_cons|]. destruct r as [[a|e]|]; [|done|done].
    destruct Hend as (url & req' & resp & s2 & Hl & Hrest). exists url, req', resp, s2. split; [by rewrite last_cons, Hl|done].
  - destruct (finish current response s1) as [r1 s2] eqn:Ef. injection E as <- <-.
    assert (sh_sent s2 = sh_sent s1) as E2 by (rewrite <- (Hf current response s1), Ef; done).
    exists [current]. split; [by eapply Chain_one|]. destruct r1 as [a|e]; [|done]. exists current, req, response, s1.
    by split; [|split; [apply Hans|]].
Qed.

Abbreviation range_request start end_ := (fun url => build_range_request url (hw_headers w) start end_).

(** One attempt of [send_range], from a start URL. *)
Lemma following_spec url start end_ s r s' :
  send_range_following_redirects respond w url start end_ s = (r, s') ->
  exists urls, (exists current, Chain (range_request start end_) 10 current s s' urls /\
                  (urls = [] \/ parse_download_url url = Ok current)) /\
    Ended (range_request start end_) finish_range urls r s'.
Proof.
  unfold send_range_following_redirects, from_url. destruct (parse_download_url url) as [current|e] eqn:Ep.
  - intros E. rewrite range_loop_follow in E. pose proof (parsed_http _ _ Ep) as Hc.
    destruct (follow_spec _ finish_range _ _ _ _ _ (fun _ _ _ => eq_refl) Hc E) as (urls & Hch & Hend).
    exists urls. split; [|done]. exists current. by split; [|right].
  - intros [= <- <-]. exists []. split; [exists []; split; [apply Chain_nil|by left]|]. simpl. intros Hs.
    unfold parse_download_url, validate_redirect_target in Ep. by repeat case_match; simplify_eq.
Qed.

Lemma ended_range start end_ urls response meta s' :
  Ended (range_request start end_) finish_range urls (Some (Ok (response, meta))) s' ->
  exists url req, last urls = Some url /\ sh_final_url s' = Some url /\ answered s' req response /\
    (rsp_status response = 200 \/ rsp_status response = 206) /\ meta = from_parts (header_get (rsp_headers response)) None.
Proof.
  intros (url & req & response' & s1 & Hl & Ha & Es & _ & Ef). unfold finish_range in Ef.
  destruct (Z.eqb_spec (rsp_status response') 200), (Z.eqb_spec (rsp_status response') 206); simpl in Ef;
    try discriminate; injection Ef as <- <- <-; exists url, req; repeat split; try apply Ha; auto.
Qed.

(** What a call returns, given the chains of URLs it went through. *)
Definition Reported (start end_ : Z) (chains : list (list rstr)) (r : option (result (HttpResponse * ResponseMeta) DownloadError))
    (s' : Shared) : Prop :=
  match r with
  | Some (Ok (response, meta)) =>
      exists url req, last (mjoin chains) = Some url /\ sh_final_url s' = Some url /\ answered s' req response /\
        (rsp_status response = 200 \/ rsp_status response = 206) /\ meta = from_parts (header_get (rsp_headers response)) None
  | Some (Err e) =>
      is_stale_redirect_target_error e = true ->
      exists first rest, last chains = Some (first :: rest) /\ parse_download_url (hw_url w) = Ok first
  | None => exists url, http_url url /\ build_range_request url (hw_headers w) start end_ = None
  end.

Lemma last_app_chain {A} (l k : list A) a : last k = Some a -> last (l ++ k) = Some a.
Proof. intros E. by rewrite last_app, E. Qed.

(** The last chain decides, when it began at the original URL or its error is final. *)
Lemma reported_last start end_ before urls current url r s s' :
  Chain (range_request start end_) 10 current s s' urls -> Ended (range_request start end_) finish_range urls r s' ->
  (urls = [] \/ parse_download_url url = Ok current) ->
  (url = hw_url w \/ match r with Some (Err e) => is_stale_redirect_target_error e = false | _ => True end) ->
  Reported start end_ (before ++ [urls]) r s'.
Proof.
  intros [_ _ _ Hhd] Hend Hp Hs. destruct r as [[[response meta]|e]|]; [| |done].
  - destruct (ended_range _ _ _ _ _ _ Hend) as (u & req & Hl & Hrest). exists u, req. split; [|done].
    rewrite join_app. apply last_app_chain. simpl. by rewrite app_nil_r.
  - intros He. destruct Hs as [->|Hs]; [|congruence]. specialize (Hend He). destruct urls as [|first rest]; [done|].
    exists first, rest. rewrite last_snoc. split; [done|]. destruct Hhd as [|[= ->]]; [done|]. by destruct Hp.
Qed.

Lemma range_calls_spec start end_ s r s' :
  send_range respond w start end_ s = (r, s') ->
  exists (chains : list (list rstr)) reqs,
    sh_sent s' = sh_sent s ++ reqs /\ Forall2 (sent_for (range_request start end_)) (mjoin chains) reqs /\
    Forall http_url (mjoin chains) /\ (length chains <= 2)%nat /\ Forall (fun c => length c <= 10)%nat chains /\
    Reported start end_ chains r s'.
Proof.
  intros E. unfold send_range, refreshing in E.
  set (start_url := default (hw_url w) (sh_final_url s)) in *.
  destruct (send_range_following_redirects respond w start_url start end_ s) as [r1 s1] eqn:E1.
  destruct (following_spec _ _ _ _ _ _ E1) as (urls & (current & Hch & Hstart) & Hend).
  pose proof Hch as [(reqs & Hr & Hall) Hh Hl _].
  assert (r = r1 /\ s' = s1 /\ (start_url = hw_url w \/ match r1 with Some (Err e) => is_stale_redirect_target_error e = false | _ => True end) \/
    send_range_following_redirects respond w (hw_url w) start end_ (set_final_url None s1) = (r, s')) as [(-> & -> & Hs)|E2].
  { destruct r1 as [[a|e]|]; try (injection E as <- <-; left; auto).
    destruct (bool_decide (start_url = hw_url w)) eqn:Eu; simpl in E.
    - apply bool_decide_eq_true in Eu. injection E as <- <-. auto.
    - destruct (is_stale_redirect_target_error e) eqn:Ee; [by right|]. injection E as <- <-. auto. }
  - exists [urls], reqs. simpl. rewrite app_nil_r. repeat split; auto. by apply (reported_last _ _ [] urls current start_url r1 s s1).
  - destruct (following_spec _ _ _ _ _ _ E2) as (urls2 & (current2 & Hch2 & Hstart2) & Hend2).
    pose proof Hch2 as [(reqs2 & Hr2 & Hall2) Hh2 Hl2 _]. exists [urls; urls2], (reqs ++ reqs2). simpl. rewrite app_nil_r.
    split; [by rewrite Hr2, app_assoc; simpl; rewrite Hr|]. split; [by apply Forall2_app|]. split; [by apply Forall_app|].
    split; [lia|]. split; [by rewrite Forall_cons, Forall_singleton|].
    eapply (reported_last _ _ [urls] urls2 current2 (hw_url w)); [done..|by left].
Qed.

Lemma range_calls start end_ s : exists (chains : list (list rstr)) reqs,
  sh_sent (send_range respond w start end_ s).2 = sh_sent s ++ reqs /\
  Forall2 (sent_for (range_request start end_)) (mjoin chains) reqs.
Proof.
  destruct (send_range respond w start end_ s) as [r s'] eqn:E.
  destruct (range_calls_spec _ _ _ _ _ E) as (chains & reqs & H1 & H2 & _). by exists chains, reqs.
Qed.

(** C24: A call of [send_range] sends at most twenty requests, each for the range of the call
    and to an HTTP or HTTPS URL: a chain of at most ten from the remembered end of the
    redirects, and another from the original URL when that place answers that the object
    has gone.  It returns the answer to the last of them, of status 200 or 206, and
    remembers its URL; it reports that the object has gone only when the original URL
    leads to that; it panics only when the request cannot be built. *)
Theorem range_answer_is_final start end_ s :
  let '(r, s') := send_range respond w start end_ s in
  exists (chains : list (list rstr)) reqs,
    sh_sent s' = sh_sent s ++ reqs /\ Forall2 (sent_for (range_request start end_)) (mjoin chains) reqs /\
    Forall http_url (mjoin chains) /\ (length chains <= 2)%nat /\ Forall (fun c => length c <= 10)%nat chains /\
    Reported start end_ chains r s'.
Proof.
  destruct (send_range respond w start end_ s) as [r s'] eqn:E. by apply range_calls_spec.
Qed.
End Following.

(** ** Headers *)

Section Headers.
  Context `{UrlCrate} `{HttpCrate}.

Lemma show_range_visible a b : u64 a -> u64 b -> Forall (fun c => 32 <= c < 127) (show_range a b).
Proof.
  intros Ha Hb. unfold show_range.
  assert (forall n, u64 n -> Forall (fun c => 32 <= c < 127) (show_u64 n)) as Hn.
  { intros n Hn. apply Forall_forall. intros c Hc%show_u64_digits; [lia|done]. }
  rewrite !Forall_app. repeat split; auto; apply (bool_decide_unpack _); by vm_compute.
Qed.

Lemma show_range_text a b : u64 a -> u64 b -> value_text (show_range a b) = Some (show_range a b).
Proof. intros Ha Hb. by apply value_text_visible, show_range_visible. Qed.

Lemma visible_no_space c : 33 <= c < 127 -> is_whitespace c = false.
Proof. intros Hc. unfold is_whitespace. repeat rewrite orb_false_iff. rewrite !andb_false_iff, !Z.leb_gt, !Z.eqb_neq. lia. Qed.

(** The value of the [Range] header is unpacked for [CURLOPT_RANGE]. *)
Lemma show_range_spec a b : u64 a -> u64 b -> byte_range_spec (show_range a b) = Some (show_u64 a ++ str "-" ++ show_u64 b).
Proof.
  intros Ha Hb. unfold byte_range_spec, show_range.
  change (str "bytes=" ++ ?t) with (str "bytes" ++ 61 :: t). rewrite split_once_app by (vm_compute; set_solver).
  cbn [mbind option_bind]. change (eq_ignore_ascii_case (trim (str "bytes")) (str "bytes")) with true. cbv iota. f_equal.
  apply trim_id. intros c. rewrite !elem_of_app. intros [Hc|[Hc|Hc]]; apply visible_no_space.
  - apply show_u64_digits in Hc; [lia|done].
  - apply list_elem_of_singleton in Hc as ->. by vm_compute.
  - apply show_u64_digits in Hc; [lia|done].
Qed.

Lemma lower_idem c : to_ascii_lowercase (to_ascii_lowercase c) = to_ascii_lowercase c.
Proof.
  unfold to_ascii_lowercase. destruct ((65 <=? c) && (c <=? 90)) eqn:E; [|by rewrite E].
  apply andb_true_iff in E as [?%Z.leb_le ?%Z.leb_le]. by rewrite (proj2 (andb_false_iff _ _)) by (right; apply Z.leb_gt; lia).
Qed.

Lemma lower_idem_str (s : rstr) : to_ascii_lowercase <$> (to_ascii_lowercase <$> s) = to_ascii_lowercase <$> s.
Proof. rewrite <- list_fmap_compose. apply list_fmap_ext. intros _ c _. apply lower_idem. Qed.

(** Names of a header map are in lower case, so a name is compared as it stands. *)
Definition lower (name : rstr) : Prop := to_ascii_lowercase <$> name = name.

Lemma lower_eq name (s : rstr) : lower name -> lower s -> eq_ignore_ascii_case name s = bool_decide (name = s).
Proof. unfold lower, eq_ignore_ascii_case. by intros -> ->. Qed.

Definition stored (h h' : rstr * rstr) : Prop := header_name h.1 = Some h'.1 /\ h'.2 = h.2.

Lemma append_headers_spec hs acc out :
  append_headers hs (Some acc) = Some out -> exists named, Forall2 stored hs named /\ out = acc ++ named.
Proof.
  unfold append_headers. revert acc. induction hs as [|h hs IH]; intros acc E; cbn [fold_left] in E.
  - injection E as ->. exists []. by rewrite app_nil_r.
  - destruct (append_header (Some acc) h) as [acc'|] eqn:Ea.
    + destruct (IH _ E) as (named & Hn & ->). unfold append_header in Ea. simpl in Ea.
      destruct (header_name h.1) as [name|] eqn:En; [|done]. simpl in Ea. destruct (header_value_ok h.2); [|done].
      injection Ea as <-. exists ((name, h.2) :: named). rewrite <- app_assoc. by split; [constructor|].
    + exfalso. clear - E. induction hs as [|h' hs IH]; [done|]. by apply IH.
Qed.

Lemma elem_of_header_iter h l : h ∈ header_iter l <-> h ∈ l.
Proof.
  assert (forall k : list (rstr * rstr), h ∈ k <-> h ∈ List.filter (fun g => bool_decide (g.1 = h.1)) k) as Hf.
  { intros k. rewrite !list_elem_of_In, filter_In, bool_decide_eq_true. tauto. }
  by rewrite (Hf (header_iter l)), header_iter_values, <- Hf.
Qed.

Definition is_range (h : rstr * rstr) : bool := bool_decide (h.1 = str "range").

(** What the header loop leaves: the specification of the last byte range, and the other
    headers. *)
Definition last_range (start : option rstr) (hs : list (rstr * rstr)) : option rstr :=
  fold_left (fun acc h => match value_text h.2 ≫= byte_range_spec with Some spec => Some spec | None => acc end) hs start.

Definition kept (h : rstr * rstr) : Prop :=
  h.1 <> str "accept-encoding" /\ (h.1 = str "range" -> byte_range_spec h.2 = None).

Lemma push_header_range h o : ro_range (push_header h o) = ro_range o.
Proof. done. Qed.

Lemma apply_headers_spec hs o o' :
  Forall (fun h => lower h.1) hs -> apply_headers hs o = Ok o' ->
  ro_range o' = last_range (ro_range o) (List.filter is_range hs) /\
  (forall h, h ∈ ro_headers o' <-> h ∈ ro_headers o \/ exists raw, (h.1, raw) ∈ hs /\ value_text raw = Some h.2 /\ kept h).
Proof.
  revert o. induction hs as [|[name raw] hs IH]; intros o Hl E; cbn [apply_headers] in E.
  { injection E as <-. split; [done|]. intros h. split; [by left|]. intros [?|(raw & ?%elem_of_nil & _)]; done. }
  apply Forall_cons in Hl as [Hn Hl]. simpl in Hn. destruct (value_text raw) as [value|] eqn:Ev; [|done].
  rewrite (lower_eq name (str "range")), (lower_eq name (str "accept-encoding")) in E by done.
  assert (forall h, (exists raw0, (h.1, raw0) ∈ (name, raw) :: hs /\ value_text raw0 = Some h.2 /\ kept h) <->
    (h = (name, value) /\ kept h) \/ exists raw0, (h.1, raw0) ∈ hs /\ value_text raw0 = Some h.2 /\ kept h) as Hcons.
  { intros [n v]. simpl. setoid_rewrite elem_of_cons. split.
    - intros (r0 & [[= -> ->]|Hin] & Hv & Hk); [left; split; [congruence|done]|right; by exists r0].
    - intros [[[= -> ->] Hk]|(r0 & Hin & Hv & Hk)]; [exists raw; auto|exists r0; auto]. }
  cbn [List.filter]. unfold is_range at 1. cbn [fst]. destruct (bool_decide (name = str "range")) eqn:Er.
  - apply bool_decide_eq_true in Er as ->. destruct (byte_range_spec value) as [spec|] eqn:Eb.
    + destruct (IH _ Hl E) as [H1 H2]. split; [rewrite H1; unfold last_range at 2; cbn [fold_left snd]; by rewrite Ev; cbn; rewrite Eb|].
      intros h. rewrite H2, Hcons. split; [intros [?|?]; auto|]. intros [?|[[-> [_ Hk]]|?]]; auto. specialize (Hk eq_refl). simpl in Hk. congruence.
    + destruct (IH _ Hl E) as [H1 H2]. split; [rewrite H1; unfold last_range at 2; cbn [fold_left snd]; by rewrite Ev; cbn; rewrite Eb|].
      intros h. rewrite H2, Hcons. cbn [ro_headers push_header]. rewrite elem_of_app, list_elem_of_singleton. split.
      * intros [[?| ->]|?]; auto. right. left. by split.
      * intros [?|[[-> _]|?]]; auto.
  - apply bool_decide_eq_false in Er. destruct (bool_decide (name = str "accept-encoding")) eqn:Ea.
    + apply bool_decide_eq_true in Ea as ->. destruct (IH _ Hl E) as [H1 H2]. split; [done|]. intros h. rewrite H2, Hcons.
      split; [intros [?|?]; auto|]. intros [?|[[-> [Hk _]]|?]]; auto. by destruct Hk.
    + apply bool_decide_eq_false in Ea. destruct (IH _ Hl E) as [H1 H2]. split; [done|]. intros h. rewrite H2, Hcons.
      cbn [ro_headers push_header]. rewrite elem_of_app, list_elem_of_singleton. split.
      * intros [[?| ->]|?]; auto. right. left. split; [done|]. by split.
      * intros [?|[[-> _]|?]]; auto.
Qed.
End Headers.

(** ** The range libcurl asks for *)

Section Ranges.
  Context `{UrlCrate} `{HttpCrate}.

(** The user's headers leave the range to the download. *)
Definition no_range (headers : gmap rstr rstr) : Prop :=
  forall k v, headers !! k = Some v -> eq_ignore_ascii_case k (str "range") = false.

Lemma header_name_of k name : header_name k = Some name -> name = to_ascii_lowercase <$> k.
Proof. apply header_name_lower. Qed.

Lemma stored_lower h h' : stored h h' -> lower h'.1.
Proof. intros [E _]. apply header_name_of in E. unfold lower. by rewrite E, lower_idem_str. Qed.

Lemma stored_no_range headers h h' : no_range headers -> h ∈ map_to_list headers -> stored h h' -> is_range h' = false.
Proof.
  intros Hn Hh [E _]. destruct h as [k v]. apply elem_of_map_to_list in Hh. specialize (Hn k v Hh). simpl in *.
  apply header_name_of in E. unfold is_range, eq_ignore_ascii_case in *. by rewrite E.
Qed.

(** The headers of a range request. *)
Lemma range_request_headers url headers a b base :
  no_range headers -> build_range_request url headers a b = Some base ->
  Forall (fun h => lower h.1) (rq_headers base) /\
  List.filter is_range (rq_headers base) = [(str "range", show_range a b)] /\
  (forall name v, name <> str "range" -> name <> str "accept-encoding" ->
     (name, v) ∈ rq_headers base <-> exists k, headers !! k = Some v /\ header_name k = Some name).
Proof.
  intros Hn E. unfold build_range_request in E. apply bind_Some in E as (uri & _ & E). apply bind_Some in E as (hs & Ea & E).
  injection E as <-. cbn [rq_headers]. apply append_headers_spec in Ea as (named & Hs & ->). simpl.
  apply Forall2_cons_inv_l in Hs as ([n1 v1] & rest & [E1 V1] & Hs & ->). apply Forall2_cons_inv_l in Hs as ([n2 v2] & named & [E2 V2] & Hs & ->).
  simpl in E1, V1, E2, V2. apply header_name_of in E1, E2. rewrite E1, E2, V1, V2. clear E1 E2 V1 V2 n1 v1 n2 v2.
  split; [|split].
  - rewrite !Forall_cons. split; [done|]. split; [done|]. apply Forall_forall. intros h' Hin.
    apply list_elem_of_lookup in Hin as [i Hi]. destruct (Forall2_lookup_r _ _ _ _ _ Hs Hi) as (h & _ & Hh). by eapply stored_lower.
  - cbn [List.filter]. change (is_range _) with true at 1. change (is_range (to_ascii_lowercase <$> str "Accept-Encoding", _)) with false.
    cbv iota. f_equal. clear - Hs Hn. remember (map_to_list headers) as l eqn:El.
    assert (forall h, h ∈ l -> h ∈ map_to_list headers) as Hl by (by subst l). clear El.
    induction Hs as [|h h' l l' Hh Hs IH]; [done|]. cbn [List.filter].
    rewrite (stored_no_range headers h h') by (done || apply Hl; by left). apply IH. intros g Hg. apply Hl. by right.
  - intros name v Hr Ha. rewrite !elem_of_cons. split.
    + intros [[= -> _]|[[= -> _]|Hin]]; [done|done|]. apply list_elem_of_lookup in Hin as [i Hi].
      destruct (Forall2_lookup_r _ _ _ _ _ Hs Hi) as ([k v'] & Hk%list_elem_of_lookup_2%elem_of_map_to_list & [En Ev]). simpl in En, Ev.
      subst v'. by exists k.
    + intros (k & Hk%elem_of_map_to_list & En). right. right. apply list_elem_of_lookup in Hk as [i Hi].
      destruct (Forall2_lookup_l _ _ _ _ _ Hs Hi) as ([n v'] & Hi' & [En' Ev]). simpl in En', Ev. subst v'.
      rewrite En in En'. injection En' as <-. by eapply list_elem_of_lookup_2.
Qed.

(** What a prepared transfer keeps of its request. *)
Lemma prepare_options t lookup clock req deadline o budget :
  prepare t lookup clock req deadline = Ok (o, budget) ->
  exists o1, options_for t req deadline = Ok o1 /\ ro_range o = ro_range o1 /\ ro_headers o = ro_headers o1 /\ ro_url o = ro_url o1 /\
    ro_proxy o = ro_proxy o1.
Proof.
  unfold prepare. destruct (options_for t req deadline) as [o1|] eqn:Eo; [|done]. destruct (resolve_for _ _ _ _ _) as [hop|]; [|done].
  destruct (_ =? 0); [done|]. destruct (_ =? 0); [done|]. intros [= <- _]. exists o1. by destruct hop.
Qed.

Lemma configured_range o plan connect_to age spec :
  ro_range o = Some spec ->
  OptRange spec ∈ configure_easy o plan connect_to age /\ OptAcceptEncoding (str "identity") ∈ configure_easy o plan connect_to age.
Proof.
  intros E. unfold configure_easy. rewrite !elem_of_app, E. split.
  - do 5 right. left. by apply list_elem_of_singleton.
  - left. rewrite !elem_of_cons. auto 10.
Qed.
End Ranges.

Section Reaching.
  Context `{UrlCrate} `{HttpCrate} (respond : nat -> HttpRequest -> Z -> result HttpResponse DownloadError) (w : HttpWorker).

Lemma sent_range_options t start end_ url req lookup clock deadline o budget :
  u64 start -> u64 end_ -> no_range (hw_headers w) ->
  sent_for w (fun url => build_range_request url (hw_headers w) start end_) url req ->
  prepare t lookup clock req deadline = Ok (o, budget) ->
  ro_range o = Some (show_u64 start ++ str "-" ++ show_u64 end_) /\
  forall name value, (name, value) ∈ ro_headers o <->
    exists k v, hw_headers w !! k = Some v /\ header_name k = Some name /\ value_text v = Some value /\ name <> str "accept-encoding".
Proof.
  intros Hs He Hn (base & Hb & _ & Hh & _) Hp. destruct (range_request_headers _ _ _ _ _ Hn Hb) as (Hl & Hr & Hm).
  apply prepare_options in Hp as (o1 & Eo & -> & -> & _). unfold options_for in Eo. destruct (negb _); [done|]. rewrite Hh in Eo.
  apply apply_headers_spec in Eo as [H1 H2]; [split|].
  - rewrite H1. unfold is_range. rewrite header_iter_values. fold is_range. rewrite Hr. unfold last_range. cbn [fold_left snd].
    rewrite show_range_text by done. cbn [mbind option_bind]. by rewrite show_range_spec.
  - intros name value. rewrite H2. cbn [fst snd]. split.
    + intros [?%elem_of_nil|(raw & Hin & Hv & [Ha Hrng])]; [done|]. cbn [fst snd] in *. rewrite elem_of_header_iter in Hin.
      destruct (decide (name = str "range")) as [->|Hne].
      * exfalso. specialize (Hrng eq_refl).
        assert ((str "range", raw) ∈ List.filter is_range (rq_headers base)) as Hf
          by (rewrite list_elem_of_In, filter_In, <- list_elem_of_In; done).
        rewrite Hr in Hf. apply list_elem_of_singleton in Hf as [= ->]. rewrite show_range_text in Hv by done. injection Hv as <-.
        by rewrite show_range_spec in Hrng.
      * apply Hm in Hin as (k & Hk & En); [|done..]. exists k, raw. auto.
    + intros (k & v & Hk & En & Ev & Ha). right. exists v. split; [|split; [done|split; [done|]]].
      * apply elem_of_header_iter, Hm; [|done|by exists k]. intros ->. pose proof (Hn k v Hk) as Hnk. apply header_name_of in En.
        unfold eq_ignore_ascii_case in Hnk. apply bool_decide_eq_false in Hnk. by rewrite <- En in Hnk.
      * cbn. intros ->. pose proof (Hn k v Hk) as Hnk. apply header_name_of in En. unfold eq_ignore_ascii_case in Hnk.
        apply bool_decide_eq_false in Hnk. by rewrite <- En in Hnk.
  - apply Forall_forall. intros h Hin. rewrite elem_of_header_iter in Hin. by apply (proj1 (Forall_forall _ _) Hl).
Qed.

(** C23: Every request of a call of [send_range] that reaches the driver makes libcurl ask for
    exactly the range of the call, uncompressed, with the user's headers and no others,
    whatever redirects led to it, as long as the user's headers do not name a range of
    their own. *)
Theorem range_reaches_libcurl t start end_ s :
  u64 start -> u64 end_ -> no_range (hw_headers w) ->
  let s' := (send_range respond w start end_ s).2 in
  exists reqs, sh_sent s' = sh_sent s ++ reqs /\
    forall req lookup clock deadline o budget, req ∈ reqs -> prepare t lookup clock req deadline = Ok (o, budget) ->
      (forall plan connect_to age, OptRange (show_u64 start ++ str "-" ++ show_u64 end_) ∈ configure_easy o plan connect_to age /\
         OptAcceptEncoding (str "identity") ∈ configure_easy o plan connect_to age) /\
      forall name value, (name, value) ∈ ro_headers o <->
        exists k v, hw_headers w !! k = Some v /\ header_name k = Some name /\ value_text v = Some value /\ name <> str "accept-encoding".
Proof.
  intros Hs He Hn. destruct (range_calls respond w start end_ s) as (chains & reqs & E & Hall). exists reqs. split; [done|].
  intros req lookup clock deadline o budget Hin Hp. apply list_elem_of_lookup in Hin as [i Hi].
  destruct (Forall2_lookup_r _ _ _ _ _ Hall Hi) as (url & _ & Hsent).
  destruct (sent_range_options t start end_ url req lookup clock deadline o budget Hs He Hn Hsent Hp) as [Hr Hh].
  split; [|done]. intros plan connect_to age. by apply configured_range.
Qed.
End Reaching.

(** ** Time, routes and hints *)

Section Routes.
  Context `{UrlCrate} `{HttpCrate} (t : CurlTransport).

Lemma apply_headers_fixed hs o o' :
  apply_headers hs o = Ok o' ->
  ro_connect_timeout o' = ro_connect_timeout o /\ ro_url o' = ro_url o /\ ro_proxy o' = ro_proxy o /\
  ro_resolve o' = ro_resolve o /\ ro_candidates o' = ro_candidates o.
Proof.
  revert o. induction hs as [|[name raw] hs IH]; intros o E; cbn [apply_headers] in E; [by injection E as <-|].
  destruct (value_text raw) as [value|]; [|done]. by repeat case_match; apply IH in E.
Qed.

Lemma options_for_fixed req deadline o :
  options_for t req deadline = Ok o ->
  ro_connect_timeout o = default (tr_connect_timeout t) (rq_connect_timeout req) /\ ro_url o = uri_display (rq_uri req) /\
  ro_proxy o = pe_url <$> proxy_for t (default [] (uri_scheme (rq_uri req))) /\ ro_resolve o = None /\ ro_candidates o = None.
Proof. unfold options_for. destruct (negb _); [done|]. intros E. by apply apply_headers_fixed in E. Qed.

(** The time a request spends connecting, the lookup included, stays within the connect
    timeout and the deadline of the head; what is left of both reaches libcurl, and it is
    positive; the lookup is never given more than the connect phase; the body budget is
    within the transport's limits. *)
Theorem connect_phase_bounded lookup clock req deadline :
  let limit := Z.min (default (tr_connect_timeout t) (rq_connect_timeout req)) deadline in
  let spent := duration_since (ck_resolved clock) (ck_started clock) in
  (forall lookup', (forall host budget, 0 <= budget <= Z.max 0 limit -> lookup' host budget = lookup host budget) ->
     prepare t lookup' clock req deadline = prepare t lookup clock req deadline) /\
  match prepare t lookup clock req deadline with
  | Ok (o, budget) =>
      0 < ro_connect_timeout o <= ro_head_timeout o /\ ro_connect_timeout o + spent = limit /\ ro_head_timeout o + spent = deadline /\
      MIN_BODY_BUDGET_BYTES <= budget <= MAX_BODY_BUDGET_BYTES
  | Err _ => True
  end.
Proof.
  intros limit spent. unfold prepare. destruct (options_for t req deadline) as [o1|] eqn:Eo; [|done].
  apply options_for_fixed in Eo as (-> & _). fold limit. split.
  - intros lookup' Hl. unfold resolve_for. destruct (hop_of t o1) as [[[[host port]|] proxied]|]; [|done|done].
    rewrite Hl; [done|]. unfold duration_since. lia.
  - destruct (resolve_for _ _ _ _ _) as [hop|]; [|done]. fold spent.
    destruct (Z.eqb_spec (Z.max 0 (limit - spent)) 0) as [|H1]; [done|].
    destruct (Z.eqb_spec (Z.max 0 (deadline - spent)) 0) as [|H2]; [done|]. simpl.
    unfold body_budget, MIN_BODY_BUDGET_BYTES, MAX_BODY_BUDGET_BYTES. lia.
Qed.

(** The [Uri] of an absolute http or https address and the [Url] of its text have the same
    scheme. *)
Definition schemes_agree : Prop :=
  forall uri url scheme, uri_scheme uri = Some scheme -> is_http scheme = true -> url_parse (uri_display uri) = Ok url -> url_scheme url = scheme.

(** What is left of the connect phase when the lookup starts. *)
Definition lookup_budget (clock : Clock) (req : HttpRequest) (deadline : Z) : Z :=
  Z.max 0 (Z.min (default (tr_connect_timeout t) (rq_connect_timeout req)) deadline - duration_since (ck_resolving clock) (ck_started clock)).

(** The addresses of one hop are the answer to the lookup of its host: pinned candidates, or
    an entry for libcurl's cache, or none for a literal. *)
Definition hop_options (answer_of : rstr -> option (result DnsAnswer rstr)) (answered : Z) (hop : option (rstr * Z)) (pinned : bool)
    (o : RequestOptions) : Prop :=
  match hop with
  | None => ro_resolve o = None /\ ro_candidates o = None
  | Some (host, port) =>
      exists answer, answer_of host = Some (Ok answer) /\
        if pinned then ro_resolve o = None /\ ro_candidates o = Some (mkCandidateSet host port (da_addresses answer) (da_valid_until answer))
        else ro_candidates o = None /\ ro_resolve o = Some (ResolveEntry_new host port (da_addresses answer) (time_to_live answered answer))
  end.

(** The proxy's host for a request through a proxy, and the host of the URL otherwise. *)
Definition route (req : HttpRequest) : result (option (rstr * Z)) DownloadError :=
  match proxy_for t (default [] (uri_scheme (rq_uri req))) with
  | Some proxy => Ok ((fun host => (host, pe_port proxy)) <$> pe_host proxy)
  | None => origin_target (uri_display (rq_uri req))
  end.

(** C29: A request is looked up where it connects.  The one name looked up is the proxy's
    for a request through a proxy, and the host of the URL for a direct one, within what
    is left of the connect phase; the answer to that lookup is what reaches libcurl, as a
    cache entry, or as candidates to pin one of exactly when the request is direct and the
    client spreads over several addresses; an address literal is not looked up. *)
Theorem lookup_follows_route lookup clock req deadline o budget :
  schemes_agree -> prepare t lookup clock req deadline = Ok (o, budget) ->
  let proxy := proxy_for t (default [] (uri_scheme (rq_uri req))) in
  let b := lookup_budget clock req deadline in
  ro_proxy o = pe_url <$> proxy /\ ro_url o = uri_display (rq_uri req) /\
  exists hop, route req = Ok hop /\
    hop_options (fun host => lookup host b) (ck_answered clock) hop (tr_multi_ip t && bool_decide (proxy = None)) o /\
    forall lookup', (forall host port, hop = Some (host, port) -> lookup' host b = lookup host b) ->
      prepare t lookup' clock req deadline = Ok (o, budget).
Proof.
  intros Ha Hp proxy b. pose proof Hp as Hp0. unfold prepare in Hp. destruct (options_for t req deadline) as [o1|] eqn:Eo; [|done].
  pose proof (options_for_fixed _ _ _ Eo) as (Ect & Eu & Epx & Er & Ec). fold proxy in Epx.
  assert (is_http (default [] (uri_scheme (rq_uri req))) = true) as Hh by (unfold options_for in Eo; by destruct (is_http _)).
  rewrite Ect in Hp. fold (lookup_budget clock req deadline) in Hp. fold b in Hp.
  destruct (resolve_for t lookup _ o1 b) as [hop|] eqn:Eh; [|done]. destruct (_ =? 0); [done|]. destruct (_ =? 0); [done|].
  injection Hp as <- _. split; [by destruct hop|]. split; [by destruct hop|].
  assert (exists target, hop_of t o1 = Ok (target, bool_decide (proxy <> None)) /\ route req = Ok target) as (target & Et & Ert).
  { unfold resolve_for, hop_of, scheme_of in Eh. unfold hop_of, scheme_of, route. rewrite Eu in *.
    destruct (url_parse (uri_display (rq_uri req))) as [url|] eqn:Eurl; [|done].
    destruct (uri_scheme (rq_uri req)) as [scheme|] eqn:Es; [|by vm_compute in Hh]. change (default [] (Some scheme)) with scheme in *.
    rewrite (Ha _ _ _ Es Hh Eurl) in *. fold proxy in Eh |- *. destruct proxy as [p|] eqn:Epr.
    - eexists. split; [|done]. done.
    - destruct (origin_target (uri_display (rq_uri req))) as [target|]; [|done]. by exists target. }
  exists target. split; [done|]. unfold resolve_for in Eh. rewrite Et in Eh. split.
  - destruct target as [[host port]|]; [|by injection Eh as <-]. cbn [hop_options].
    destruct (lookup host b) as [[answer|]|]; [|done..]. exists answer. split; [done|].
    assert (tr_multi_ip t && negb (bool_decide (proxy <> None)) = tr_multi_ip t && bool_decide (proxy = None)) as Eb by by destruct proxy.
    rewrite Eb in Eh. destruct (tr_multi_ip t && _); by injection Eh as <-.
  - intros lookup' Hl. rewrite <- Hp0. unfold prepare. rewrite Eo, Ect. fold (lookup_budget clock req deadline). fold b.
    unfold resolve_for. rewrite Et. destruct target as [[host port]|]; [|done]. by rewrite (Hl host port).
Qed.

(** A [Retry-After] header of a 429 or 503 is read back from the error's message. *)
Theorem retry_after_survives headers status value n :
  status = 429 \/ status = 503 -> header_get headers (str "retry-after") = Some value -> parse_u64 (trim value) = Some n ->
  retry_after_secs (make_http_error headers status) = Some n.
Proof.
  intros Hs Hv Hn. pose proof (parse_u64_range _ _ Hn) as Hu. unfold make_http_error. rewrite Hv. cbn [mbind option_bind]. rewrite Hn.
  unfold retry_after_secs. replace ((status =? 429) || (status =? 503)) with true by (by destruct Hs as [-> | ->]).
  rewrite strip_prefix_app. cbn [mbind option_bind]. by rewrite trim_show_u64, parse_show_u64.
Qed.
End Routes.

(** ** A client on a small web *)

Module DemoHttp.

(** URLs of the form [scheme://host/path]; anything else is relative. *)
Definition split_url (s : rstr) : option (rstr * rstr * rstr) :=
  '(scheme, rest) ← split_once 58 s;
  rest ← strip_prefix (str "//") rest;
  Some (scheme, match split_once 47 rest with Some (host, _) => host | None => rest end,
        match split_once 47 rest with Some (_, path) => str "/" ++ path | None => [] end).

#[export] Instance demo_urls : UrlCrate := {|
  Url := rstr;
  url_parse s := match split_url s with Some _ => Ok s | None => Err RelativeUrlWithoutBase end;
  url_join base location := Ok (match split_url base with
                                | Some (scheme, host, _) => scheme ++ str "://" ++ host ++ location
                                | None => location
                                end);
  url_display u := u;
  url_scheme u := match split_url u with Some (scheme, _, _) => scheme | None => [] end;
  url_username _ := [];
  url_password _ := None;
  url_host_str u := match split_url u with Some (_, host, _) => Some host | None => None end;
  url_port_or_known_default _ := Some 80;
  url_path u := match split_url u with Some (_, _, path) => path | None => [] end;
  url_query _ := None;
  url_fragment _ := None |}.

Lemma demo_visible v : Forall (fun c => 32 <= c < 127) v ->
  true = true /\ (if forallb (fun c => (32 <=? c) && (c <? 127)) v then Some v else None) = Some v.
Proof.
  intros Hv. split; [done|]. replace (forallb _ v) with true; [done|]. symmetry. apply forallb_forall. intros c Hc%list_elem_of_In.
  apply (proj1 (Forall_forall _ _) Hv) in Hc. apply andb_true_iff. rewrite Z.leb_le, Z.ltb_lt. lia.
Qed.

#[export] Instance demo_http : HttpCrate := {|
  Uri := rstr;
  uri_parse s := Ok s;
  uri_display u := u;
  uri_scheme u := match split_url u with Some (scheme, _, _) => Some scheme | None => None end;
  header_name n := Some (to_ascii_lowercase <$> n);
  header_value_ok _ := true;
  value_text v := if forallb (fun c => (32 <=? c) && (c <? 127)) v then Some v else None;
  canonical_reason _ := None;
  header_iter l := l;
  header_name_lower n m E := ltac:(by injection E as <-);
  header_name_range := ltac:(by eexists);
  header_name_encoding := ltac:(by eexists);
  header_iter_values _ _ := eq_refl;
  value_text_visible := demo_visible |}.

(** [http://a/f] moves to [/g], which serves ranges. *)
Definition demo_respond (n : nat) (req : HttpRequest) (timeout : Z) : result HttpResponse DownloadError :=
  if bool_decide (rq_uri req = str "http://a/f") then Ok (mkHttpResponse 302 [(str "location", str "/g")] None 0)
  else Ok (mkHttpResponse 206 [(str "content-range", str "bytes 0-99/1000")] None 1).

Definition demo_worker (headers : gmap rstr rstr) : HttpWorker := mkHttpWorker (str "http://a/f") headers 5 3 None None.

Definition demo_shared : Shared := mkShared None 0 0 0 0 1 [].

Definition demo_transport (proxy : option ProxyEndpoint) : CurlTransport :=
  mkTransport (mkDriverConfig 4 30 None) (mkResolver None Ipv4Only) 30 false true proxy None None None None None None.

Definition demo_lookup (host : rstr) (budget : Z) : option (result DnsAnswer rstr) := Some (Ok (mkAnswer [V4 1] 100)).

Definition demo_clock : Clock := mkClock 0 0 1 1.

(** The requests of a range call, and what the transport makes of each. *)
Definition demo_requests (headers : gmap rstr rstr) : list HttpRequest :=
  sh_sent (send_range demo_respond (demo_worker headers) 0 99 demo_shared).2.

Definition demo_ranges (headers : gmap rstr rstr) : list (option rstr) :=
  (fun req => match prepare (demo_transport None) demo_lookup demo_clock req 5 with Ok (o, _) => ro_range o | Err _ => None end)
    <$> demo_requests headers.

Definition demo_request : HttpRequest := @mkHttpRequest demo_http (str "http://a/f") [] None None None.

Definition demo_proxy : CurlTransport := demo_transport (Some (mkEndpoint (str "http://p:80") (Some (str "p")) 80)).

Lemma demo_schemes_agree : schemes_agree.
Proof.
  intros uri url scheme Es _ E. unfold url_parse, uri_display, uri_scheme, url_scheme, demo_urls, demo_http in *.
  destruct (split_url uri) as [[[scheme' host] path]|] eqn:Eu; [|done]. injection E as <-. injection Es as <-. by rewrite Eu.
Qed.

End DemoHttp.

Import DemoHttp.

Lemma range_reaches_libcurl_witness :
  exists first req o budget, demo_requests ∅ = [first; req] /\
    prepare (demo_transport None) demo_lookup demo_clock req 5 = Ok (o, budget) /\
    OptRange (str "0-99") ∈ configure_easy o (mkResolvePlan [] false) None None.
Proof.
  destruct (range_reaches_libcurl demo_respond (demo_worker ∅) (demo_transport None) 0 99 demo_shared) as (reqs & E & H).
  - by vm_compute.
  - by vm_compute.
  - intros k v Hk. cbn [hw_headers demo_worker] in Hk. by rewrite lookup_empty in Hk.
  - assert (reqs = demo_requests ∅) as -> by (symmetry; exact E).
    destruct (demo_requests ∅) as [|first [|req [|? ?]]] eqn:Er; try by vm_compute in Er.
    destruct (prepare (demo_transport None) demo_lookup demo_clock req 5) as [[o budget]|e] eqn:Ep.
    + exists first, req, o, budget. split; [done|]. split; [done|].
      assert (req ∈ [first; req]) as Hin by (right; by left). by apply (H req demo_lookup demo_clock 5 o budget Hin Ep).
    + exfalso. vm_compute in Er. injection Er as <- <-. by vm_compute in Ep.
Defined.

Lemma lookup_follows_route_witness :
  (exists o budget, prepare demo_proxy demo_lookup demo_clock demo_request 5 = Ok (o, budget) /\
    ro_proxy o = Some (str "http://p:80") /\ ro_candidates o = None) /\
  exists o budget, prepare (demo_transport None) demo_lookup demo_clock demo_request 5 = Ok (o, budget) /\
    ro_proxy o = None /\ ro_candidates o = Some (mkCandidateSet (str "a") 80 [V4 1] 100).
Proof.
  split.
  - destruct (prepare demo_proxy demo_lookup demo_clock demo_request 5) as [[o budget]|e] eqn:Ep; [|exfalso; by vm_compute in Ep].
    exists o, budget. split; [done|].
    destruct (lookup_follows_route demo_proxy demo_lookup demo_clock demo_request 5 o budget demo_schemes_agree Ep) as (Hp & _ & hop & Er & Hh & _).
    split; [exact Hp|]. vm_compute in Er. injection Er as <-. by destruct Hh as (answer & _ & Hc & _).
  - destruct (prepare (demo_transport None) demo_lookup demo_clock demo_request 5) as [[o budget]|e] eqn:Ep; [|exfalso; by vm_compute in Ep].
    exists o, budget. split; [done|].
    destruct (lookup_follows_route (demo_transport None) demo_lookup demo_clock demo_request 5 o budget demo_schemes_agree Ep) as (Hp & _ & hop & Er & Hh & _).
    split; [exact Hp|]. vm_compute in Er. injection Er as <-. destruct Hh as (answer & Ha & _ & Hc). vm_compute in Ha. injection Ha as <-. exact Hc.
Defined.

Lemma retry_after_survives_witness :
  retry_after_secs (make_http_error [(str "retry-after", str " 7 ")] 503) = Some 7.
Proof. apply (retry_after_survives [(str "retry-after", str " 7 ")] 503 (str " 7 ") 7); [by right|by vm_compute..]. Defined.

(** A header of the user's own that names a range replaces the range of the download: the
    worker asks for bytes 0 to 99 and libcurl for bytes 5 to 9. *)
Theorem user_range_overrides :
  demo_ranges ∅ = [Some (str "0-99"); Some (str "0-99")] /\
  demo_ranges {[ str "Range" := str "bytes=5-9" ]} = [Some (str "5-9"); Some (str "5-9")].
Proof. by vm_compute. Qed.
